(* ===== verification/_CoqProject ===== *)
-Q . S2P
Prelude.v
PlacementTable.v
Serialize.v
Dmt.v
DmtManager.v
ObjectId.v
Dlt.v
DltManager.v
TokenBucket.v
VolumeQueue.v
QosHtb.v
SmTokenPlacement.v
BlockTask.v
BlockOps.v
BlockSafety.v
OrderedMap.v
DmBlobTypes.v
CatalogKeys.v
PersistVolDB.v
PersistVolSpec.v
PersistVolList.v
VolumeCatalog.v
VolumeCatalogSpec.v
VolumeStats.v
VolumeCases.v
CommitLog.v
CommitLogSpec.v
FdsTimer.v
AccessTable.v
TimeVolumeCatalog.v
TimeVolumeSpec.v
TimeVolumeCases.v
Double.v
ConfigDb.v
ClusterMap.v
OmExtUtil.v
VolPlacementAlgo.v
VolPlacementFrame.v
VolPlacementRows.v
VolPlacementSpec.v
VolPlacementUpdate.v
VolPlacementCompute.v
VolumePlacement.v
VolumePlacementSpec.v
VolumePlacementTables.v
DmtDeploy.v
DmtDeploySpec.v
BufferReplay.v
VolumeGroup.v
VolumeGroupSpec.v
VolumeGroupReads.v
VolumeGroupSafe.v
VolumeGroupRuns.v
VolumeGroupCases.v
