(* ===== verification/Prelude.v ===== *)
(** * Verification of the FormationOne storage platform

    FormationOne is a scale-out storage platform.  Access managers (AM) offer
    volumes as block devices, files and objects; data managers (DM) keep, for
    each volume, the catalog of its blobs; storage managers (SM) keep the data
    objects; an orchestration manager (OM) distributes the tables that say
    which service is responsible for what.  This library models parts of its
    C++ code (under src/source) as Gallina functions and proves what they do.

    ** The parts and their files

    - This file: machine integers with their wrap-around ([u8] .. [i64]), the
      error codes of the code ([fds_errno]), the monad [res] of computations
      that may abort ([Fault]), loops, tactics and lemmas on lists and
      arithmetic that the components share.
    - Placement tables.  [PlacementTable]: columns of service uuids
      (include/fds_placement_table.h) and the table base class with its count
      of outstanding I/O (include/fds_table.h).  [Dmt], [DmtManager]: the table
      from volumes to DMs, its versions and which of them is committed
      (lib/misc/dmt.cpp).  [Dlt], [DltManager]: the table from object tokens to
      SMs and its versions (lib/misc/dlt.cpp); tables share columns through
      pointers, so they are in an explicit heap.  [ObjectId]: object
      identifiers and their tokens (lib/misc/fds_types.cpp).
    - [Serialize]: serialization (lib/misc/serialize.cpp) over a thrift
      protocol, and a small library of codecs with which the round trips of
      tables and descriptors are proved.
    - Quality of service.  [TokenBucket] (lib/qos_tokbucket.h), [VolumeQueue]
      (lib/misc/fds_volume.cpp) and [QosHtb], the hierarchical token bucket
      dispatcher over them (lib/misc/qos_htb.cpp).
    - [SmTokenPlacement]: the placement of tokens on the disks of an SM
      (stor-mgr/smlib/object-store/SmTokenPlacement.cpp).
    - Block device of the AM.  [BlockTask] (access-mgr/amlib/BlockTask.cpp)
      models one request, [BlockOps] (BlockOperations.cpp, SectorLockMap.h)
      the connector; [BlockSafety] proves the protocol between the connector
      and the service behind it, as a transition system.
    - Volume catalog of the DM.  [OrderedMap]: sorted maps over a comparison.
      [DmBlobTypes]: descriptors of blobs and volumes (DmBlobTypes.cpp).
      [CatalogKeys]: keys and their order (lib/catalogKeys).  [PersistVolDB]:
      the operations of the persistent catalog (DmPersistVolDB.cpp,
      lib/misc/Catalog.cpp).  [PersistVolSpec], [PersistVolList]: its abstract
      specification and the theorems that the operations implement it.
      [VolumeCatalog]: the catalogs of all volumes of a DM with the operations
      on blobs and the statistics of volumes (DmVolumeCatalog.cpp).
      [VolumeCatalogSpec], [VolumeStats], [VolumeCases]: the theorems about
      them.
    - Transactions of the DM.  [CommitLog], [CommitLogSpec]: the log of open
      transactions (dm-tvc/CommitLog.cpp) and its specification.
      [TimeVolumeCatalog], [TimeVolumeSpec], [TimeVolumeCases]: transactions
      over the commit logs and the volume catalog (TimeVolumeCatalog.cpp) and
      the cached state of volumes (VolumeMeta.cpp).  [AccessTable]: the tokens
      with which volumes are opened (VolumeAccessTable.cpp).  [FdsTimer]: the
      timer that ends their leases (lib/misc/fds_timer.cpp).
    - Volume placement of the OM.  [ClusterMap]: the members of the domain and
      pending changes (orch-mgr/om-dlt/OmClusMap.cpp).  [VolPlacementAlgo]: the
      computation and the update of a DMT for the members (OmVolPlacementAlgo.cpp),
      with the arithmetic of [Double], binary64 numbers by the standard
      library's model of them.  [VolPlacementRows], [VolPlacementSpec],
      [VolPlacementUpdate], [VolPlacementCompute]: the theorems about them.
      [ConfigDb]: the DMTs in the configuration database
      (lib/kvstore/configdb.cpp, redis.cpp).  [OmExtUtil]: the status of
      services and what is to be aborted after a restart
      (lib/misc/OmExtUtilApi.cpp).  [VolumePlacement]: the engine that
      computes, persists, commits and takes back DMTs and tells data managers
      what to copy (OmVolumePlacement.cpp); [VolPlacementFrame],
      [VolumePlacementSpec], [VolumePlacementTables]: its theorems, over the
      algorithms, the version manager and the database.  [DmtDeploy]: the state
      machine that deploys a DMT (OmDmtDeploy.cpp); [DmtDeploySpec]: what it
      keeps, as an invariant of all its runs.
    - Replication of volumes.  [BufferReplay]: operations that are kept in a
      file while a replica is syncing, and replayed (lib/misc/BufferReplay.cpp).
      [VolumeGroup]: the coordinator of a group of replicas
      (net-service/svc_request/VolumeGroupHandle.cpp), with the requests that
      are outstanding and the messages and callbacks made.  [VolumeGroupSpec]:
      its accounts, for all runs; [VolumeGroupReads]: reads that are lost, for
      all runs; [VolumeGroupSafe], [VolumeGroupRuns]: its invariant while
      replicas follow the protocol; [VolumeGroupCases]: runs that are computed,
      with a check that they follow the protocol.

    A class is a [Module] with its state as a record [t] and one definition per
    method under the method's name; overloads get a suffix.  State is passed
    explicitly.  A method that can abort, throw or do something undefined
    returns [res].  Locked methods are atomic steps; threads are interleavings
    of whole steps.  Clock readings, random draws, free disk space, the
    iteration order of hash maps and the results of floating-point scaling are
    arguments of the definitions that use them.

    [fds_verify] ends the process in every build ([VerifyFailed]), and so does
    the plain [assert] of C ([c_assert]), since no build turns it off.
    [fds_assert] only checks in debug builds: [BufferReplay], [VolumeGroup],
    [FdsTimer], [AccessTable] and [VolumePlacement] take the build as [debug];
    the other files model release builds.  Signed sums that may leave 64 bits
    are [signed64], and a shift of an int by 31 bits or more, a read past the
    end of an array and an iterator into a vector whose elements have moved
    are faults ([Undefined]).

    Code outside the repository is a class with its documented behaviour as
    laws: [TProtocol] and [TProtocolBytes] (thrift), [LockfreeQueue] and
    [SpscQueue] (boost), [LevelDB] and [RedisServer] with [RedisLaws].  Each has an instance that satisfies its laws, used by the
    concrete examples.

    ** What is proved

    - Tables: in every reachable state of either version manager the
      committed or current version designates a stored table, versions are
      unique and lookups return the table asked for; adding, committing and
      releasing tables is specified on every branch; tables survive
      serialization; the drain callback of a table runs exactly once; the
      token of an identifier lies in the identifier range of that token.
    - Quality of service: a bucket issues tokens at its rate up to rounding,
      without overflow; rates of registered queues always add up to the total;
      a round of the dispatcher returns and serves a queue that may be served
      and that no other queue should be preferred to; queues are first in,
      first out.
    - Token placement: an initial placement is balanced, and a change of disks
      leaves every token on a disk that is still there, or faults: when no disk
      is left, or when a token has no free cell for one more disk.
    - Block device: writes are cut into objects that tile the request, reads
      are assembled from objects, read-modify-write changes exactly the bytes
      of the write; as long as no queue of writes to one object is full, no
      sub-request is lost, at most one write request per object is outstanding,
      tasks are not used after they were answered, and when nothing is
      outstanding every task has been answered; a write to a full queue is lost
      ([full_queue_loses_write]).
    - Volume catalog: any sequence of updates implements its effect on an
      abstract catalog of finite maps, including deleting a range, whose loop
      ends; single reads, range reads and listings return exactly what the
      abstract catalog holds, in order; the key comparator is a total order;
      descriptors survive serialization; read-only catalogs and offsets out of
      range are refused without effect.  A commit of the volume catalog leaves
      the descriptor, objects and truncation asked for, and a blob written as
      a whole is read back as written; for blobs without holes, and commits and
      deletes as [volume_accounts] has them, the statistics kept by differences
      are always the sums over the blobs.
    - Transactions: the commit log holds, for every history of requests, the
      transactions started and not ended with what was added to them, and
      counts them by placement version; open transactions survive being sent
      to another replica.  Through the time volume catalog the updates of a
      transaction reach the catalog at its commit, all at once, and never
      after an abort; of two objects for one offset the first is kept, although
      the comment on merging descriptors says that the newer overwrites.  A round of the timer thread ends and runs what has
      expired.  A token that is not renewed is gone when its lease has ended,
      and among clients that ask for caching at most one holds a token.
    - Volume placement: a table computed for a domain, or updated after data
      managers were added, removed or have failed, has distinct members in
      every column; a first primary was in the column before and is not
      removed, primaries have not failed when enough data managers are left,
      and an update that would lose the last good primary of a column is
      refused.  The members and pending changes of the domain are exact.  A
      table that is computed is stored, in the manager and in the database,
      as the next target; the OM that is restarted loads the table that was
      committed, and aborts the migration, until the new one is persisted.
      The messages to data managers name every volume they are new for but the
      first, which is lost, under a data manager that the column has as a
      source for it.
    - Deployment of DMTs: whatever events arrive in whatever order, the
      committed table is stored; a deployment takes effect at its last event
      and not before, and an error at any point goes back to the table that
      was committed before, without fault, and ends when the services have
      answered; every event comes to an end.
    - Replication: operations that were buffered are handed out for replay
      once, in order and in bounded batches, and replay ends.  A coordinator
      answers each request of a client once and counts its references right
      whatever happens; while replicas answer in order, come back with new
      versions and do not leave the group without a functional replica while
      one is syncing, no check of the coordinator fails and no step is
      undefined, unless a replica is moved to the end of the list that it is in
      and the vector has no room; an active group has a quorum, a write is
      acknowledged by a quorum before its client is, ends with its last
      response, and a replica that comes back is sent exactly the writes it
      lacks when they are in the buffer.  A read that is sent to the same
      replica twice is never answered, and keeps the group from being closed
      ([read_lost]).

    Some theorems state where the code departs from its comments or from what
    it means to do (for instance [delimiter_loses_blob],
    [release_after_commit], [empty_blob_statistics], [shared_buffer_loses] and
    [read_lost]).

    ** Bounds and fuel

    Loops that are not structural take a number of rounds as fuel and fault
    with [OutOfFuel] beyond it.  The theorems give enough of it: one round per
    history slot the clock has passed ([on_time] in [QosHtb]), one round per
    entry of the store for a listing, one per object of a range for a delete,
    the number of queued updates for the update chain of a block device, one
    round per replica for the search of a new source in [Dlt], and one round
    per expired task, and one more, for the timer thread.  The search for a
    data manager that is not in a column takes at most one round per data
    manager, and a batch of replay one per operation of a batch.  Volume groups
    have between a quorum of at least two and 255 replicas, since responses are
    counted in 8 bits.  An event of the deployment of DMTs raises at most two more
    ([events_end]).  Balancing compares differences with -10000, so updates are
    considered for tables with 3 * columns * depth < 10000; the tables of the
    OM have at most 16 columns and depth 4.

    ** Not modelled

    Logging, statistics counters and stream output; file and network I/O,
    configuration and process start; the request handlers of the services, the
    migration protocols, the service layer below the volume groups and their
    replicas, the OM's nodes and services, its placement of objects
    and the state machine for it, the object store and caches of the SM and
    the transaction layer of the AM; Java, Python and generated code; vendored
    third-party code, LevelDB included. *)

From stdpp Require Export base tactics list gmap sorting strings.
From Stdlib Require Export ZArith Lia.
#[export] Set Default Goal Selector "!".

Open Scope Z_scope.

(** ** Machine integers

    A value of a C++ unsigned type of [w] bits is the [Z] between 0 and
    [2^w]; the functions below are the conversions to those types. *)
Definition u8 (z : Z) : Z := z `mod` 256.
Definition u16 (z : Z) : Z := z `mod` 65536.
Definition u32 (z : Z) : Z := z `mod` 4294967296.
Definition u64 (z : Z) : Z := z `mod` 18446744073709551616.
Definition uint64_max : Z := 18446744073709551615.

(** Conversion to the signed type of [w] bits (two's complement). *)
Definition wrap_signed (w z : Z) : Z :=
  let m := z `mod` 2 ^ w in if decide (m < 2 ^ (w - 1)) then m else m - 2 ^ w.
Definition i8 (z : Z) : Z := wrap_signed 8 z.
Definition i16 (z : Z) : Z := wrap_signed 16 z.
Definition i32 (z : Z) : Z := wrap_signed 32 z.
Definition i64 (z : Z) : Z := wrap_signed 64 z.

(** ** Error codes: the values of [fds_errno_t] the modelled code returns *)
Inductive fds_errno : Set :=
| ERR_OK
| ERR_DUPLICATE
| ERR_INVALID_ARG
| ERR_NOT_FOUND
| ERR_INVALID_DLT
| ERR_INVALID_DMT
| ERR_SERIALIZE_FAILED
| ERR_NO_BYTES_WRITTEN
| ERR_NO_BYTES_READ
| ERR_IO_PENDING
| ERR_SM_OLT_DISKS_INCONSISTENT
| ERR_SM_SUPERBLOCK_INCONSISTENT
| ERR_SM_NO_DISK
| ERR_NOT_READY
| ERR_EXCEED_MIN_IOPS
| ERR_VOL_NOT_FOUND
| ERR_BLOB_NOT_FOUND
| ERR_BLOB_OFFSET_INVALID
| ERR_SHUTTING_DOWN
| ERR_VOL_DUPLICATE
| ERR_DM_OP_NOT_ALLOWED
| ERR_DM_OFFSET_OUT_RANGE
| ERR_CAT_ENTRY_NOT_FOUND
| ERR_DISK_WRITE_FAILED
| ERR_DISK_READ_FAILED
| ERR_INVALID
| ERR_ONDISK_DATA_CORRUPT
| ERR_DM_MIGRATION_ABORTED
| ERR_DM_VOL_NOT_ACTIVATED
| ERR_HASH_COLLISION
| ERR_NODE_NOT_ACTIVE
| ERR_DM_TX_EXISTS
| ERR_DM_TX_NOT_STARTED
| ERR_DM_TX_COMMITTED
| ERR_VOLUME_ACCESS_DENIED
| ERR_NOT_IMPLEMENTED
| ERR_PERSIST_STATE_MISMATCH
| ERR_SVC_REQUEST_TIMEOUT
| ERR_SVC_REQUEST_INVOCATION
| ERR_SVC_REQUEST_FAILED
| ERR_ABORTED
| ERR_UNAVAILABLE
| ERR_IO_OPID_MISMATCH
| ERR_IO_SEQUENCEID_MISMATCH
| ERR_SYNC_INPROGRESS
| ERR_SYNCPEER_UNAVAILABLE
| ERR_QUICKSYNC_NOT_POSSIBLE
| ERR_WRITE_OP_BUFFERED
| ERR_INVALID_COORDINATOR
| ERR_INVALID_VERSION
| ERR_VOLUMEGROUP_INVALID
| ERR_VOLUMEGROUP_DOWN
| ERR_VOLUMEGROUP_NOT_OPEN
| ERR_MAX.

#[export] Instance fds_errno_eq_dec : EqDecision fds_errno.
Proof. solve_decision. Defined.

(** ** Computations that may abort

    [fds_verify] and [fds_panic] end the process; [std::vector::at] throws
    [std::out_of_range]; the code itself throws [fds::Exception]; the
    thrift protocol throws on malformed input; the block layer throws
    [BlockError::connection_closed]; [StdException] stands for the exceptions of
    the standard library the code throws itself.  [Undefined] is an operation
    the language leaves undefined (a division by zero, an oversized shift, a
    copy past the end of an array).  [OutOfFuel] marks a loop whose iteration
    bound in the model was not enough. *)
Inductive fault : Set :=
| VerifyFailed
| OutOfRange
| NullDeref
| FdsException (e : fds_errno)
| ProtocolException
| ConnectionClosed
| StdException
| Undefined
| OutOfFuel.

#[export] Instance fault_eq_dec : EqDecision fault.
Proof. solve_decision. Defined.

Inductive res (A : Type) : Type :=
| Ret (a : A)
| Fault (f : fault).
Arguments Ret {A} a.
Arguments Fault {A} f.

#[export] Instance res_ret : MRet res := @Ret.
#[export] Instance res_bind : MBind res :=
  λ A B k m, match m with Ret a => k a | Fault f => Fault f end.
#[export] Instance res_fmap : FMap res :=
  λ A B k m, match m with Ret a => Ret (k a) | Fault f => Fault f end.

Definition fds_verify (b : bool) : res unit :=
  if b then Ret tt else Fault VerifyFailed.

(** [fds_assert] is [fds_verify] in debug builds and does nothing in others. *)
Definition fds_assert (debug b : bool) : res unit :=
  if debug then fds_verify b else Ret tt.

(** The C library's [assert]; no build of the program defines [NDEBUG]. *)
Definition c_assert (b : bool) : res unit := fds_verify b.

(** A sum or difference of 64-bit signed integers; overflow is undefined. *)
Definition signed64 (z : Z) : res Z :=
  if decide (-9223372036854775808 ≤ z ≤ 9223372036854775807) then Ret z else Fault Undefined.

(** [v.at(i)] *)
Definition vec_at {A} (l : list A) (i : Z) : res A :=
  if decide (0 ≤ i) then
    match l !! Z.to_nat i with Some x => Ret x | None => Fault OutOfRange end
  else Fault OutOfRange.

(** A loop over the elements of a container, and a [for] loop whose
    counter runs over [i, i+1, .., i+n-1]; an abort in the body ends it. *)
Fixpoint foldM {A S} (f : S → A → res S) (s : S) (l : list A) : res S :=
  match l with
  | [] => Ret s
  | x :: l => f s x ≫= λ s', foldM f s' l
  end.

Definition for_range {S} (n : Z) (f : S → Z → res S) (s : S) : res S :=
  foldM f s (seqZ 0 n).

(** The keys of a [std::map] or the elements of a [std::set] of integers
    in iteration order. *)
Definition set_iter (s : gset Z) : list Z := merge_sort Z.le (elements s).
Definition map_keys {V} (m : gmap Z V) : list Z := set_iter (dom m).

(** ** Automation *)
Create HintDb fds.

Lemma fds_verify_Ret b u : fds_verify b = Ret u → b = true.
Proof. by destruct b. Qed.

Lemma fds_verify_decide (P : Prop) `{!Decision P} u : fds_verify (bool_decide P) = Ret u → P.
Proof. intros H%fds_verify_Ret. by apply bool_decide_eq_true in H. Qed.

Lemma fds_verify_true (P : Prop) `{!Decision P} : P → fds_verify (bool_decide P) = Ret tt.
Proof. intros H. unfold fds_verify. by rewrite bool_decide_eq_true_2. Qed.

(** Split every monadic bind of a hypothesis that says a computation
    returned. *)
Ltac res_inv :=
  repeat match goal with
  | H : Ret _ = Ret _ |- _ => injection H as H; simplify_eq
  | H : Fault _ = Ret _ |- _ => discriminate H
  | H : fds_verify (bool_decide _) = Ret _ |- _ => apply fds_verify_decide in H
  | H : fds_verify _ = Ret _ |- _ => apply fds_verify_Ret in H
  | H : (_ ≫= _) = Ret _ |- _ => unfold mbind, res_bind in H
  | H : match ?m with Ret _ => _ | Fault _ => _ end = Ret _ |- _ =>
      let E := fresh "E" in destruct m eqn:E; [|discriminate H]
  end.

(** ** Generic lemmas *)
Lemma bind_Ret {A B} (a : A) (k : A → res B) : (Ret a ≫= k) = k a.
Proof. done. Qed.

Lemma bind_verify {A} (P : Prop) `{!Decision P} (k : unit → res A) a :
  (fds_verify (bool_decide P) ≫= k) = Ret a → P ∧ k tt = Ret a.
Proof.
  unfold fds_verify. case_bool_decide; [|done]. done.
Qed.

Lemma bind_Ret_inv {A B} (m : res A) (k : A → res B) b :
  (m ≫= k) = Ret b → ∃ a, m = Ret a ∧ k a = Ret b.
Proof. destruct m as [a|]; [eauto|done]. Qed.

Lemma signed64_inv z x : signed64 z = Ret x → x = z ∧ -9223372036854775808 ≤ z ≤ 9223372036854775807.
Proof. unfold signed64. case_decide; [|done]. by intros [= <-]. Qed.

Lemma signed64_small z : -9223372036854775808 ≤ z ≤ 9223372036854775807 → signed64 z = Ret z.
Proof. intros H. unfold signed64. by rewrite decide_True. Qed.

Lemma u64_small z : 0 ≤ z ≤ uint64_max → u64 z = z.
Proof. unfold u64, uint64_max. intros. apply Z.mod_small. lia. Qed.

Lemma u64_i64 z : u64 (i64 z) = u64 z.
Proof.
  unfold u64, i64, wrap_signed. change (2 ^ 64) with 18446744073709551616. cbv zeta. case_decide.
  - by rewrite Zmod_mod.
  - replace (z `mod` _ - _) with (z `mod` 18446744073709551616 + (-1) * 18446744073709551616) by lia.
    by rewrite Z.mod_add, Zmod_mod by lia.
Qed.

Lemma i64_small z : 0 ≤ z < 2 ^ 63 → i64 z = z.
Proof. intros Hz. unfold i64, wrap_signed. cbv zeta. rewrite Z.mod_small by lia. by rewrite decide_True by lia. Qed.

Lemma u32_small z : 0 ≤ z < 2 ^ 32 → u32 z = z.
Proof. unfold u32. intros. apply Z.mod_small. lia. Qed.

Lemma vec_at_lookup {A} (l : list A) i x :
  vec_at l i = Ret x ↔ 0 ≤ i ∧ l !! Z.to_nat i = Some x.
Proof.
  unfold vec_at. case_decide; [|naive_solver lia].
  destruct (l !! Z.to_nat i); naive_solver.
Qed.

Lemma foldM_cons {A S} (f : S → A → res S) s x l :
  foldM f s (x :: l) = f s x ≫= λ s', foldM f s' l.
Proof. done. Qed.

Lemma foldM_app {A S} (f : S → A → res S) s l1 l2 :
  foldM f s (l1 ++ l2) = foldM f s l1 ≫= λ s', foldM f s' l2.
Proof.
  revert s. induction l1 as [|x l1 IH]; intros s; [done|].
  simpl. destruct (f s x); simpl; [apply IH|done].
Qed.

(** A loop whose body always returns is a plain fold. *)
Lemma foldM_pure {A S} (f : S → A → res S) (g : S → A → S) s l :
  (∀ s x, x ∈ l → f s x = Ret (g s x)) →
  foldM f s l = Ret (foldl g s l).
Proof.
  revert s. induction l as [|x l IH]; intros s Hf; [done|].
  simpl. rewrite Hf by set_solver. simpl. apply IH. set_solver.
Qed.

(** Invariant rule for loops. *)
Lemma foldM_inv {A S} (P : S → Prop) (f : S → A → res S) s l s' :
  P s → (∀ s x s', x ∈ l → P s → f s x = Ret s' → P s') →
  foldM f s l = Ret s' → P s'.
Proof.
  revert s. induction l as [|x l IH]; intros s HP Hf Hr; simpl in Hr; [by res_inv|].
  destruct (f s x) as [s1|] eqn:E; [|done].
  apply (IH s1); [|set_solver|done]. eapply Hf, E; set_solver.
Qed.

(** A counting loop whose body depends on the counter only through the
    list element at that index is a loop over the list. *)
Lemma for_range_list {A St} (body : St → Z → res St) (f : St → A → res St) (l : list A) s :
  (∀ s i x, l !! i = Some x → body s (Z.of_nat i) = f s x) →
  for_range (Z.of_nat (length l)) body s = foldM f s l.
Proof.
  intros Hb. unfold for_range.
  enough (∀ k (l' : list A) s, (∀ s i x, l' !! i = Some x → body s (k + Z.of_nat i) = f s x) →
    foldM body s (seqZ k (Z.of_nat (length l'))) = foldM f s l') as Hgen.
  { apply Hgen. intros. by rewrite Z.add_0_l, Hb with (x := x). }
  clear. intros k l'. revert k.
  induction l' as [|x l' IH]; intros k s Hb; [done|].
  rewrite seqZ_cons by (simpl; lia). simpl foldM.
  specialize (Hb s 0%nat x eq_refl) as Hx. rewrite Z.add_0_r in Hx. rewrite Hx.
  destruct (f s x) as [s1|]; simpl; [|done].
  replace (Z.pred _) with (Z.of_nat (length l')) by (simpl; lia).
  apply IH. intros s' i y Hy. rewrite <-(Hb s' (S i) y Hy). f_equal. lia.
Qed.

(** Total correctness of a counting loop: an invariant indexed by the
    number of rounds done, kept by every round, which returns. *)
Lemma for_range_rule {St} (P : nat → St → Prop) (body : St → Z → res St) (n : nat) s :
  P O s →
  (∀ k s, (k < n)%nat → P k s → ∃ s', body s (Z.of_nat k) = Ret s' ∧ P (S k) s') →
  ∃ s', for_range (Z.of_nat n) body s = Ret s' ∧ P n s'.
Proof.
  intros H0 Hstep. unfold for_range.
  enough (∀ m k s, (k + m = n)%nat → P k s →
    ∃ s', foldM body s (seqZ (Z.of_nat k) (Z.of_nat m)) = Ret s' ∧ P n s') as Hgen
    by (by apply (Hgen n 0%nat)).
  clear s H0. intros m. induction m as [|m IH]; intros k s Hk HP.
  - exists s. split; [done|]. by replace n with k by lia.
  - destruct (Hstep k s ltac:(lia) HP) as (s1 & E & HP1).
    rewrite seqZ_cons by lia. rewrite foldM_cons, E, bind_Ret.
    replace (Z.succ (Z.of_nat k)) with (Z.of_nat (S k)) by lia.
    replace (Z.pred (Z.of_nat (S m))) with (Z.of_nat m) by lia.
    apply IH; [lia|done].
Qed.

(** The early exit of a checking loop: a state [inr e] is final. *)
Lemma foldM_inr {A B E} (f : B + E → A → res (B + E)) (e : E) l :
  (∀ e x, f (inr e) x = Ret (inr e)) → foldM f (inr e) l = Ret (inr e).
Proof. intros Hf. induction l as [|x l IH]; simpl; [done|]. by rewrite Hf. Qed.

Lemma elem_of_set_iter s x : x ∈ set_iter s ↔ x ∈ s.
Proof. unfold set_iter. rewrite merge_sort_Permutation. apply elem_of_elements. Qed.

Lemma NoDup_set_iter s : NoDup (set_iter s).
Proof. unfold set_iter. rewrite merge_sort_Permutation. apply NoDup_elements. Qed.

Lemma Sorted_set_iter s : Sorted Z.le (set_iter s).
Proof. apply Sorted_merge_sort. intros x y. lia. Qed.

Lemma length_set_iter s : length (set_iter s) = size s.
Proof. unfold set_iter. by rewrite merge_sort_Permutation. Qed.

Lemma elem_of_map_keys {V} (m : gmap Z V) k : k ∈ map_keys m ↔ is_Some (m !! k).
Proof. unfold map_keys. by rewrite elem_of_set_iter, elem_of_dom. Qed.

Lemma list_to_set_size_le (l : list Z) :
  (size (list_to_set (C:=gset Z) l) ≤ length l)%nat.
Proof.
  induction l as [|y l IH]; [done|].
  rewrite list_to_set_cons, size_union_alt, size_singleton. simpl.
  pose proof (subseteq_size (list_to_set l ∖ {[y]}) (list_to_set (C:=gset Z) l)
    ltac:(set_solver)). lia.
Qed.

(** The idiom "insert all into a set and compare the sizes" decides
    whether the elements are distinct. *)
Lemma list_to_set_size_NoDup (l : list Z) :
  size (list_to_set (C:=gset Z) l) = length l ↔ NoDup l.
Proof.
  induction l as [|x l IH]; [split; [constructor|done]|].
  rewrite list_to_set_cons, NoDup_cons. simpl.
  destruct (decide (x ∈ l)) as [Hin|Hin].
  - rewrite (subseteq_union_1_L {[x]}) by set_solver.
    pose proof (list_to_set_size_le l). split; [lia|tauto].
  - rewrite size_union by set_solver. rewrite size_singleton, <-IH.
    naive_solver lia.
Qed.

(** The quotient brackets the dividend. *)
Lemma div_bounds x k : 0 < k → x / k * k ≤ x < (x / k + 1) * k.
Proof.
  intros Hk. pose proof (Z.div_mod x k ltac:(lia)). pose proof (Z.mod_pos_bound x k Hk). nia.
Qed.

Lemma u32_add_l a b : u32 (u32 a + b) = u32 (a + b).
Proof. unfold u32. by rewrite Zplus_mod_idemp_l. Qed.

(** Overwriting a list from the front. *)
Lemma insert_take_drop {A} (l l0 : list A) k x :
  l !! k = Some x → length l = length l0 →
  <[k := x]> (take k l ++ drop k l0) = take (S k) l ++ drop (S k) l0.
Proof.
  intros Hx Hlen. apply lookup_lt_Some in Hx as Hk.
  rewrite (take_S_r _ _ _ Hx), <-app_assoc.
  destruct (lookup_lt_is_Some_2 l0 k) as [y Hy]; [lia|].
  rewrite (drop_S l0 _ _ Hy).
  rewrite insert_app_r_alt by (rewrite length_take; lia).
  rewrite length_take, Nat.min_l, Nat.sub_diag by lia. done.
Qed.

(** Appending the elements that pass a test is [filter]. *)
Lemma foldl_filter_app {A} (P : A → Prop) `{!∀ x, Decision (P x)} (l acc : list A) :
  foldl (λ tl x, if decide (P x) then tl ++ [x] else tl) acc l = acc ++ filter P l.
Proof.
  revert acc. induction l as [|x l IH]; intros acc; simpl; [by rewrite app_nil_r|].
  rewrite IH, filter_cons. case_decide; [by rewrite <-app_assoc|done].
Qed.

Lemma take_length_take {A} (l : list A) n : take (length (take n l)) l = take n l.
Proof.
  rewrite length_take. destruct (decide (n ≤ length l)%nat).
  - by rewrite Nat.min_l.
  - by rewrite Nat.min_r, !take_ge by lia.
Qed.

Lemma filter_ext_in {A} (P Q : A → Prop) `{!∀ x, Decision (P x), !∀ x, Decision (Q x)} (l : list A) :
  (∀ x, x ∈ l → P x ↔ Q x) → filter P l = filter Q l.
Proof.
  induction l as [|x l IH]; intros HPQ; [done|]. rewrite !filter_cons, IH by (intros; apply HPQ; by right).
  pose proof (HPQ x ltac:(by left)). repeat case_decide; tauto.
Qed.

Lemma omap_filter {A B} (f : A → option B) (Q : A → Prop) `{!∀ x, Decision (Q x)} (l : list A) :
  (∀ x, ¬ Q x → f x = None) → omap f (filter Q l) = omap f l.
Proof.
  intros Hf. induction l as [|x l IH]; [done|]. rewrite filter_cons. case_decide as Hx; cbn [omap list_omap];
    [by rewrite <-IH|by rewrite (Hf x Hx)].
Qed.

Lemma omap_none {A B} (f : A → option B) (l : list A) : (∀ x, x ∈ l → f x = None) → omap f l = [].
Proof. induction l as [|x l IH]; intros Hf; [done|]. simpl. rewrite Hf by set_solver. apply IH. set_solver. Qed.

Lemma filter_all {A} (P : A → Prop) `{!∀ x, Decision (P x)} (l : list A) :
  (∀ x, x ∈ l → P x) → filter P l = l.
Proof.
  induction l as [|x l IH]; [done|]. intros Hl. rewrite filter_cons, decide_True by (apply Hl; by left).
  f_equal. apply IH. intros y Hy. apply Hl. by right.
Qed.

Lemma filter_none {A} (P : A → Prop) `{!∀ x, Decision (P x)} (l : list A) :
  (∀ x, x ∈ l → ¬ P x) → filter P l = [].
Proof.
  induction l as [|x l IH]; [done|]. intros Hl. rewrite filter_cons, decide_False by (apply Hl; by left).
  apply IH. intros y Hy. apply Hl. by right.
Qed.

#[export] Hint Resolve elem_of_set_iter NoDup_set_iter Sorted_set_iter : fds.
