(* ===== verification/PlacementTable.v ===== *)
(** * Columns of placement tables and the table base class

    Models [TableColumn] (src/source/include/fds_placement_table.h), the
    array of service uuids that one column of a DLT or a DMT holds, and
    [FDS_Table] (src/source/include/fds_table.h), the base class of both
    tables: the shape, the version and the reference count of outstanding
    I/O with its drain callback. *)

From S2P Require Import Prelude.
Open Scope Z_scope.

(** A [NodeUuid] is its 64-bit value; the default-constructed
    [INVALID_RESOURCE_UUID] is 0. *)
Definition INVALID_RESOURCE_UUID : Z := 0.

Module TableColumn.

(** The array [p] of [length] uuids: the list has exactly that length. *)
Abbreviation column := (list Z).

(** [TableColumn(len)]: an array of [len] value-initialised uuids. *)
Definition make (len : Z) : column := replicate (Z.to_nat len) INVALID_RESOURCE_UUID.

Definition getLength (p : column) : Z := Z.of_nat (length p).

Definition set (index uid : Z) (p : column) : res column :=
  _ ← fds_verify (bool_decide (0 ≤ index < getLength p));
  Ret (<[Z.to_nat index := uid]> p).

Definition get (p : column) (index : Z) : res Z :=
  _ ← fds_verify (bool_decide (0 ≤ index < getLength p));
  Ret (default 0 (p !! Z.to_nat index)).

(** The element-wise loop of [operator==]. *)
Fixpoint eq_loop (p q : column) : bool :=
  match p, q with
  | x :: p, y :: q => if decide (x = y) then eq_loop p q else false
  | _, _ => true
  end.

Definition eqb (p q : column) : bool :=
  if decide (getLength p = getLength q) then eq_loop p q else false.

(** The row of [uid], from row [i] on, or -1. *)
Fixpoint find_from (i : Z) (uid : Z) (p : column) : Z :=
  match p with
  | [] => -1
  | x :: p => if decide (x = uid) then i else find_from (i + 1) uid p
  end.

Definition find (p : column) (uid : Z) : Z := find_from 0 uid p.

Definition getIntersection (p col : column) : gset Z :=
  foldl (λ s uuid, if decide (find col uuid >= 0) then {[uuid]} ∪ s else s) ∅ p.

Definition getUuids (p : column) (maxDepth : Z) : gset Z :=
  let depth := if decide (maxDepth > getLength p) then getLength p else maxDepth in
  foldl (λ s uuid, {[uuid]} ∪ s) ∅ (take (Z.to_nat depth) p).

Definition getNewAndNewPrimaryUuids (p oldColumn : column) (numPrimRows : Z) : gset Z :=
  foldl (λ s '(j, uuid),
      let index := find oldColumn uuid in
      if decide (index < 0 ∨ (j < numPrimRows ∧ index >= numPrimRows))
      then {[uuid]} ∪ s else s) ∅ (zip (seqZ 0 (getLength p)) p).

(** Each uuid as the [int64_t] of a thrift [SvcUuid]. *)
Definition toSvcUuids (p : column) : list Z := i64 <$> p.

(** ** Lemmas *)
Lemma get_lookup p i x : get p i = Ret x ↔ 0 ≤ i ∧ p !! Z.to_nat i = Some x.
Proof.
  unfold get, getLength, fds_verify. case_bool_decide as H; simpl.
  - destruct (lookup_lt_is_Some_2 p (Z.to_nat i)) as [y Hy]; [lia|].
    rewrite Hy. simpl. naive_solver lia.
  - split; [done|]. intros [? Hl]. apply lookup_lt_Some in Hl. lia.
Qed.

Lemma get_ok p i x : p !! i = Some x → get p (Z.of_nat i) = Ret x.
Proof. intros. apply get_lookup. rewrite Nat2Z.id. split; [lia|done]. Qed.

Lemma get_out p i : i < 0 ∨ getLength p ≤ i → get p i = Fault VerifyFailed.
Proof.
  intros. unfold get, fds_verify. by rewrite bool_decide_eq_false_2 by lia.
Qed.

Lemma set_ok p i x :
  0 ≤ i < getLength p → set i x p = Ret (<[Z.to_nat i := x]> p).
Proof. intros. unfold set, fds_verify. by rewrite bool_decide_eq_true_2. Qed.

Lemma length_make n : length (make n) = Z.to_nat n.
Proof. apply length_replicate. Qed.

Lemma eqb_eq p q : eqb p q = true ↔ p = q.
Proof.
  unfold eqb, getLength. case_decide as Hl.
  - apply Nat2Z.inj in Hl. revert q Hl.
    induction p as [|x p IH]; intros [|y q] Hl; simpl in *; try done.
    case_decide; subst; [|naive_solver].
    rewrite IH by lia. naive_solver.
  - naive_solver.
Qed.

Lemma find_from_spec i uid p :
  (uid ∉ p ∧ find_from i uid p = -1) ∨
  (∃ k : nat, p !! k = Some uid ∧ uid ∉ take k p ∧ find_from i uid p = i + Z.of_nat k).
Proof.
  revert i. induction p as [|x p IH]; intros i; simpl; [left; set_solver|].
  case_decide as Hx.
  - right. exists 0%nat. rewrite Hx. split_and!; [done|set_solver|lia].
  - destruct (IH (i + 1)) as [[Hn ->]|(k & Hk & Ht & ->)].
    + left. set_solver.
    + right. exists (S k). split_and!; [done|set_solver|lia].
Qed.

Lemma find_nonneg p uid : find p uid >= 0 ↔ uid ∈ p.
Proof.
  unfold find. destruct (find_from_spec 0 uid p) as [[Hn ->]|(k & Hk & _ & ->)].
  - split; [lia|done].
  - split; [|lia]. intros _. by apply list_elem_of_lookup_2 in Hk.
Qed.

Lemma find_not_found p uid : find p uid = -1 ↔ uid ∉ p.
Proof.
  rewrite <-find_nonneg. unfold find.
  destruct (find_from_spec 0 uid p) as [[? ->]|(k & ? & ? & ->)]; lia.
Qed.

Lemma find_first p uid k :
  p !! k = Some uid → uid ∉ take k p → find p uid = Z.of_nat k.
Proof.
  intros Hk Ht. unfold find.
  destruct (find_from_spec 0 uid p) as [[Hn ?]|(k' & Hk' & Ht' & ->)].
  - by apply list_elem_of_lookup_2 in Hk.
  - destruct (decide (k = k')) as [->|]; [lia|]. exfalso.
    destruct (decide (k < k')%nat).
    + apply Ht'. apply list_elem_of_lookup. exists k. by rewrite lookup_take_lt.
    + apply Ht. apply list_elem_of_lookup. exists k'. by rewrite lookup_take_lt by lia.
Qed.

(** A set built by conditional insertion holds exactly the selected
    elements. *)
Lemma elem_of_foldl_insert {A} (f : A → Z) (P : A → Prop) `{∀ x, Decision (P x)}
    (l : list A) (s : gset Z) u :
  u ∈ foldl (λ s x, if decide (P x) then {[f x]} ∪ s else s) s l ↔
  u ∈ s ∨ ∃ x, x ∈ l ∧ P x ∧ u = f x.
Proof.
  revert s. induction l as [|x l IH]; intros s; simpl; [set_solver|].
  rewrite IH. case_decide; set_solver.
Qed.

Lemma elem_of_getIntersection p col u :
  u ∈ getIntersection p col ↔ u ∈ p ∧ u ∈ col.
Proof.
  unfold getIntersection. rewrite (elem_of_foldl_insert id (λ x, find col x >= 0)).
  setoid_rewrite find_nonneg. set_solver.
Qed.

Lemma for_range_col {St} (body : St → Z → res St) (f : St → Z → res St) (p : column) s :
  (∀ s i x, p !! i = Some x → body s (Z.of_nat i) = f s x) →
  for_range (getLength p) body s = foldM f s p.
Proof. apply for_range_list. Qed.

(** A loop that reads every row in turn is a loop over the elements. *)
Lemma for_range_get {St} (f : St → Z → res St) (p : column) (s : St) :
  for_range (getLength p) (λ s i, x ← get p i; f s x) s = foldM f s p.
Proof. apply for_range_list. intros s' i x Hx. by rewrite (get_ok _ _ _ Hx). Qed.

(** The loop shape of the [verify] methods: collect the uuids of a column
    in a set, leave with [err] at the first bad one. *)
Definition check_cell (bad : Z → bool) (err : fds_errno) (acc : gset Z + fds_errno) (uuid : Z)
    : res (gset Z + fds_errno) :=
  match acc with
  | inr e => Ret (inr e)
  | inl nodes => Ret (if bad uuid then inr err else inl ({[uuid]} ∪ nodes))
  end.

Lemma check_loop bad err col :
  foldM (check_cell bad err) (inl ∅) col =
  Ret (if existsb bad col then inr err else inl (list_to_set col)).
Proof.
  enough (∀ s : gset Z, foldM (check_cell bad err) (inl s) col =
    Ret (if existsb bad col then inr err else inl (list_to_set col ∪ s))) as ->.
  { by rewrite (right_id_L ∅ (∪)). }
  induction col as [|x col IH]; intros s.
  - by rewrite list_to_set_nil, (left_id_L ∅ (∪)).
  - rewrite foldM_cons. simpl. destruct (bad x); simpl.
    + by rewrite foldM_inr.
    + rewrite IH. destruct (existsb bad col); [done|]. do 2 f_equal. set_solver.
Qed.

(** The verdict on a column after the loop. *)
Lemma check_distinct (col : column) :
  Z.of_nat (size (list_to_set (C:=gset Z) col)) = getLength col ↔ NoDup col.
Proof. rewrite <-list_to_set_size_NoDup. unfold getLength. lia. Qed.

(** A loop over columns that stops at the first error. *)
Lemma check_columns {A} (step : fds_errno → A → res fds_errno) (good : A → bool)
    (bad : fds_errno) (l : list A) :
  bad ≠ ERR_OK →
  (∀ x, x ∈ l → step ERR_OK x = Ret (if good x then ERR_OK else bad)) →
  (∀ x, step bad x = Ret bad) →
  foldM step ERR_OK l = Ret (if forallb good l then ERR_OK else bad).
Proof.
  intros Hne Hok Hbad.
  assert (∀ l, foldM step bad l = Ret bad) as Hb.
  { clear l Hok. intros l. induction l as [|x l IH]; [done|]. by rewrite foldM_cons, Hbad. }
  induction l as [|x l IH]; [done|].
  rewrite foldM_cons, Hok by set_solver. simpl. destruct (good x); simpl.
  - apply IH. set_solver.
  - apply Hb.
Qed.

(** What [verify(expectedUuidSet)] asks of a column. *)
Definition cell_unexpected (marked : Z → bool) (expected : gset Z) (u : Z) : bool :=
  bool_decide (u = 0 ∨ u ∉ expected) && negb (marked u).
Definition column_expected (marked : Z → bool) (expected : gset Z) (col : column) : bool :=
  negb (existsb (cell_unexpected marked expected) col) && bool_decide (NoDup col).

Lemma column_expected_spec marked expected col :
  column_expected marked expected col = true ↔
  (∀ u, u ∈ col → (u ≠ 0 ∧ u ∈ expected) ∨ marked u = true) ∧ NoDup col.
Proof.
  unfold column_expected, cell_unexpected.
  rewrite andb_true_iff, negb_true_iff, bool_decide_eq_true.
  rewrite <-not_true_iff_false, existsb_exists.
  setoid_rewrite andb_true_iff. setoid_rewrite bool_decide_eq_true.
  setoid_rewrite <-list_elem_of_In. split; intros [Hc Hn]; split; try done.
  - intros u Hu. destruct (marked u) eqn:Hm; [by right|left].
    apply dec_stable. intros Hneg. apply Hc. exists u. split_and!; [done| |by rewrite Hm].
    destruct (decide (u = 0)); [by left|right]. tauto.
  - intros (u & Hu & Hb & Hm). specialize (Hc u Hu). destruct (marked u); naive_solver.
Qed.

(** A column of the declared height passes the loop exactly when it is as
    expected. *)
Lemma expected_verdict marked expected (bad : fds_errno) (col : column) dep :
  getLength col = dep →
  (match (if existsb (cell_unexpected marked expected) col then inr bad
          else inl (list_to_set (C:=gset Z) col)) with
   | inr e => e
   | inl colSet => if decide (Z.of_nat (size colSet) < dep) then bad else ERR_OK
   end) = if column_expected marked expected col then ERR_OK else bad.
Proof.
  intros <-. unfold column_expected. destruct (existsb _ col); [done|]. simpl.
  pose proof (check_distinct col) as Hcd. pose proof (list_to_set_size_le col).
  unfold getLength in *. case_decide; case_bool_decide as Hnd; try done; exfalso.
  - apply Hcd in Hnd. lia.
  - apply Hnd, Hcd. lia.
Qed.

Lemma forallb_expected marked expected tbl :
  forallb (column_expected marked expected) tbl = true ↔
  ∀ col, col ∈ tbl →
    (∀ u, u ∈ col → (u ≠ 0 ∧ u ∈ expected) ∨ marked u = true) ∧ NoDup col.
Proof.
  rewrite forallb_forall. setoid_rewrite <-list_elem_of_In.
  by setoid_rewrite column_expected_spec.
Qed.

(** [getNewAndNewPrimaryUuids] returns exactly the uuids of the column
    that do not occur in the old column, or that sit in one of the first
    [numPrimRows] rows here while their first row in the old column was not
    one of them. *)
Theorem getNewAndNewPrimaryUuids_spec (p oldColumn : column) (numPrimRows u : Z) :
  u ∈ getNewAndNewPrimaryUuids p oldColumn numPrimRows ↔
  ∃ j : nat, p !! j = Some u ∧
    (u ∉ oldColumn ∨
     (Z.of_nat j < numPrimRows ∧
      ∃ i : nat, oldColumn !! i = Some u ∧ u ∉ take i oldColumn ∧ numPrimRows ≤ Z.of_nat i)).
Proof.
  unfold getNewAndNewPrimaryUuids.
  assert (Hext : ∀ (l : list (Z * Z)) (s : gset Z), foldl (λ s '(j, uuid),
      let index := find oldColumn uuid in
      if decide (index < 0 ∨ (j < numPrimRows ∧ index >= numPrimRows))
      then {[uuid]} ∪ s else s) s l =
    foldl (λ s x, if decide (find oldColumn x.2 < 0 ∨
       (x.1 < numPrimRows ∧ find oldColumn x.2 >= numPrimRows)) then {[x.2]} ∪ s else s) s l).
  { induction l as [|[j v] l IH]; intros s; [done|apply IH]. }
  rewrite Hext, (elem_of_foldl_insert snd). split.
  - intros [?|([j v] & Hin & HP & ->)]; [set_solver|]. simpl in *.
    apply list_elem_of_lookup in Hin as [k Hk].
    apply lookup_zip_with_Some in Hk as (j' & v' & [= -> ->] & Hj & Hv).
    apply lookup_seqZ in Hj as [-> _]. exists k. split; [done|].
    unfold find in *.
    destruct (find_from_spec 0 v' oldColumn) as [[Hn Hf]|(i & Hi & Ht & Hf)];
      [by left|right]. rewrite Hf in HP. split; [lia|]. exists i. split_and!; [done..|lia].
  - intros (j & Hj & HP). right. exists (Z.of_nat j, u). simpl. split_and!; [|..|done].
    + apply list_elem_of_lookup. exists j. apply lookup_zip_with_Some.
      exists (Z.of_nat j), u. split_and!; [done| |done].
      apply lookup_seqZ. apply lookup_lt_Some in Hj. unfold getLength. lia.
    + destruct HP as [Hn|(Hlt & i & Hi & Ht & Hge)].
      * left. apply find_not_found in Hn. lia.
      * right. rewrite (find_first _ _ _ Hi Ht). lia.
Qed.

End TableColumn.

Module FDS_Table.

(** [cb] is the registered drain callback, by its identity. *)
Record t := Make {
  depth : Z;
  width : Z;
  columns : Z;
  version : Z;
  outstanding_io : Z;
  cb : option Z;
}.

(** [columns(pow(2, width))]: the conversion of the power to 32 bits. *)
Definition make (_width _depth _version : Z) : t :=
  Make _depth _width (u32 (2 ^ _width)) _version 0 None.

Definition setCallback (_cb : option Z) (x : t) : t * fds_errno :=
  if decide (0 < outstanding_io x) then
    (Make (depth x) (width x) (columns x) (version x) (outstanding_io x) _cb, ERR_IO_PENDING)
  else (x, ERR_OK).

(** [fetch_add(1) + 1] on a 64-bit counter. *)
Definition incRefcnt (x : t) : t * Z :=
  let ref := u64 (outstanding_io x + 1) in
  (Make (depth x) (width x) (columns x) (version x) ref (cb x), ref).

(** [fetch_sub(1) - 1]; the last I/O calls the callback with [ERR_OK] and
    clears it.  The third component lists the callbacks that were called. *)
Definition decRefcnt (x : t) : t * Z * list (Z * fds_errno) :=
  let ref := u64 (outstanding_io x - 1) in
  match cb x with
  | Some c =>
      if decide (0 = ref) then
        (Make (depth x) (width x) (columns x) (version x) ref None, ref, [(c, ERR_OK)])
      else (Make (depth x) (width x) (columns x) (version x) ref (cb x), ref, [])
  | None => (Make (depth x) (width x) (columns x) (version x) ref (cb x), ref, [])
  end.

(** The shape a constructor gives a table. *)
Definition well_shaped (x : t) : Prop :=
  0 ≤ depth x < 2 ^ 32 ∧ 0 ≤ width x < 32 ∧ columns x = 2 ^ width x ∧
  0 ≤ version x ≤ uint64_max ∧ 0 ≤ outstanding_io x ≤ uint64_max.

Lemma make_well_shaped w d v :
  0 ≤ w < 32 → 0 ≤ d < 2 ^ 32 → 0 ≤ v ≤ uint64_max → well_shaped (make w d v).
Proof.
  intros Hw Hd Hv. unfold well_shaped, make; simpl.
  assert (0 < 2 ^ w < 2 ^ 32).
  { split; [apply Z.pow_pos_nonneg; lia|apply Z.pow_lt_mono_r; lia]. }
  rewrite u32_small by lia. unfold uint64_max in *. lia.
Qed.

Lemma decRefcnt_version b : version (decRefcnt b).1.1 = version b.
Proof. unfold decRefcnt. destruct (cb b); [case_decide|]; done. Qed.

(** *** Histories of one table's reference count *)
Inductive op := Inc | Dec | SetCb (c : option Z).

(** One operation: the new table and the callbacks it called. *)
Definition apply (o : op) (x : t) : t * list (Z * fds_errno) :=
  match o with
  | Inc => ((incRefcnt x).1, [])
  | Dec => let '(x', _, calls) := decRefcnt x in (x', calls)
  | SetCb c => ((setCallback c x).1, [])
  end.

Fixpoint run (os : list op) (x : t) : t * list (Z * fds_errno) :=
  match os with
  | [] => (x, [])
  | o :: os =>
      let '(x1, c1) := apply o x in
      let '(x2, c2) := run os x1 in (x2, c1 ++ c2)
  end.

(** Every release matches an earlier acquire, and the count stays in range. *)
Fixpoint balanced (n : Z) (os : list op) : bool :=
  match os with
  | [] => true
  | Inc :: os => bool_decide (n < uint64_max) && balanced (n + 1) os
  | Dec :: os => bool_decide (0 < n) && balanced (n - 1) os
  | SetCb _ :: os => balanced n os
  end.

Fixpoint count (n : Z) (os : list op) : Z :=
  match os with
  | [] => n
  | Inc :: os => count (n + 1) os
  | Dec :: os => count (n - 1) os
  | SetCb _ :: os => count n os
  end.

(** Only acquires and releases: no callback is registered meanwhile. *)
Definition io_only (os : list op) : bool :=
  forallb (λ o, match o with SetCb _ => false | _ => true end) os.

(** Some prefix of the history brings the count from [n] to 0. *)
Fixpoint drains (n : Z) (os : list op) : bool :=
  match os with
  | [] => false
  | Inc :: os => drains (n + 1) os
  | Dec :: os => bool_decide (n - 1 = 0) || drains (n - 1) os
  | SetCb _ :: os => drains n os
  end.

Lemma run_no_callback os x :
  cb x = None → io_only os = true → (run os x).2 = [].
Proof.
  revert x. induction os as [|o os IH]; intros x Hcb Hio; [done|].
  destruct o as [| |c]; simpl in *; [| |done].
  - specialize (IH (incRefcnt x).1 Hcb Hio). simpl in IH.
    by destruct (run os _); simpl in *.
  - unfold decRefcnt. rewrite Hcb.
    match goal with |- context [run os ?y] => specialize (IH y) end.
    destruct (run os _); simpl in *. by apply IH.
Qed.

Lemma run_callback os x c :
  cb x = Some c → io_only os = true →
  balanced (outstanding_io x) os = true → 0 ≤ outstanding_io x ≤ uint64_max →
  (run os x).2 = if drains (outstanding_io x) os then [(c, ERR_OK)] else [].
Proof.
  revert x. induction os as [|o os IH]; intros x Hcb Hio Hb Hr; [done|].
  destruct o as [| |c']; simpl in *; [| |done].
  - apply andb_prop in Hb as [Hn%bool_decide_eq_true Hb].
    assert (u64 (outstanding_io x + 1) = outstanding_io x + 1) as Hu
      by (apply u64_small; lia).
    match goal with |- context [run os ?y] => specialize (IH y) end.
    simpl in IH. rewrite Hu in *.
    destruct (run os _) as [x2 c2]; simpl in *. apply IH; [done..|lia].
  - apply andb_prop in Hb as [Hn%bool_decide_eq_true Hb].
    assert (u64 (outstanding_io x - 1) = outstanding_io x - 1) as Hu
      by (apply u64_small; unfold uint64_max in *; lia).
    unfold decRefcnt. rewrite Hcb, Hu. case_decide as H0.
    + rewrite bool_decide_eq_true_2 by done. simpl.
      match goal with |- context [run os ?y] =>
        pose proof (run_no_callback os y eq_refl Hio) as Hz end.
      destruct (run os _) as [x2 c2]; simpl in *. by subst.
    + rewrite bool_decide_eq_false_2 by lia. simpl.
      match goal with |- context [run os ?y] => specialize (IH y) end.
      destruct (run os _) as [x2 c2]; simpl in *. apply IH; [done..|lia].
Qed.

(** C35. The drain notification of a table version.  If [setCallback]
    answers [ERR_IO_PENDING], then along every later history of matched
    acquires and releases the callback is called exactly once, with
    [ERR_OK], if some release brings the count of outstanding I/O to 0, and
    is never called otherwise.  If it answers [ERR_OK] there was no
    outstanding I/O and the callback is never called. *)
Theorem drain_callback_exactly_once (x : t) (c : Z) (os : list op) :
  cb x = None → 0 ≤ outstanding_io x ≤ uint64_max →
  io_only os = true → balanced (outstanding_io x) os = true →
  let '(x', err) := setCallback (Some c) x in
  match err with
  | ERR_IO_PENDING =>
      0 < outstanding_io x ∧
      (run os x').2 = if drains (outstanding_io x) os then [(c, ERR_OK)] else []
  | ERR_OK => outstanding_io x = 0 ∧ (run os x').2 = []
  | _ => False
  end.
Proof.
  intros Hcb Hr Hio Hb. unfold setCallback. case_decide as Ho.
  - split; [done|]. by rewrite (run_callback _ _ c).
  - split; [lia|]. by apply run_no_callback.
Qed.

Lemma drain_callback_exactly_once_witness :
  let x := Make 4 8 256 7 2 None in
  let os := [Inc; Dec; Dec; Dec; Inc; Dec] in
  let '(x', err) := setCallback (Some 42) x in
  err = ERR_IO_PENDING ∧ (run os x').2 = [(42, ERR_OK)].
Proof.
  pose proof (drain_callback_exactly_once (Make 4 8 256 7 2 None) 42
    [Inc; Dec; Dec; Dec; Inc; Dec] eq_refl) as H.
  vm_compute in H. split; [reflexivity|].
  apply H; [split; discriminate|reflexivity|reflexivity].
Defined.

End FDS_Table.
