(* ===== verification/Serialize.v ===== *)
(** * The serialization layer

    Models [Serializer], [Deserializer] and [Serializable]
    (src/source/lib/misc/serialize.cpp).  The wire format belongs to the
    thrift [TProtocol] object the serializer wraps, which is not part of
    the repository: it is the class [TProtocol] below, and what the code
    relies on, that a value read is the value written and that a call
    returns the number of bytes it moved, is [TProtocolLaws]. *)

From S2P Require Import Prelude.
Open Scope Z_scope.

(** The operations of a thrift protocol on signed integers: a write gives
    the bytes appended to the transport and the count it returns; a read
    takes the unread bytes and gives the value, the bytes left and the
    count, or throws ([None]). *)
Class TProtocol := {
  proto_writeByte : Z → list Z * Z;
  proto_writeI16 : Z → list Z * Z;
  proto_writeI32 : Z → list Z * Z;
  proto_writeI64 : Z → list Z * Z;
  proto_readByte : list Z → option (Z * list Z * Z);
  proto_readI16 : list Z → option (Z * list Z * Z);
  proto_readI32 : list Z → option (Z * list Z * Z);
  proto_readI64 : list Z → option (Z * list Z * Z);
  proto_writeString : list Z → list Z * Z;
  proto_readString : list Z → option (list Z * list Z * Z);
  proto_writeBool : bool → list Z * Z;
  proto_readBool : list Z → option (bool * list Z * Z);
}.

(** Documented behaviour of [TBinaryProtocol]: fixed-width integers, strings
    after their 32-bit length and booleans as one byte, read back as they were
    written. *)
Class TProtocolLaws (P : TProtocol) : Prop := {
  readByte_writeByte v rest : - 2 ^ 7 ≤ v < 2 ^ 7 →
    proto_readByte ((proto_writeByte v).1 ++ rest) = Some (v, rest, 1);
  readI16_writeI16 v rest : - 2 ^ 15 ≤ v < 2 ^ 15 →
    proto_readI16 ((proto_writeI16 v).1 ++ rest) = Some (v, rest, 2);
  readI32_writeI32 v rest : - 2 ^ 31 ≤ v < 2 ^ 31 →
    proto_readI32 ((proto_writeI32 v).1 ++ rest) = Some (v, rest, 4);
  readI64_writeI64 v rest : - 2 ^ 63 ≤ v < 2 ^ 63 →
    proto_readI64 ((proto_writeI64 v).1 ++ rest) = Some (v, rest, 8);
  count_writeByte v : (proto_writeByte v).2 = 1;
  count_writeI16 v : (proto_writeI16 v).2 = 2;
  count_writeI32 v : (proto_writeI32 v).2 = 4;
  count_writeI64 v : (proto_writeI64 v).2 = 8;
  readString_writeString v rest : Z.of_nat (length v) < 2 ^ 31 →
    proto_readString ((proto_writeString v).1 ++ rest) = Some (v, rest, 4 + Z.of_nat (length v));
  count_writeString v : Z.of_nat (length v) < 2 ^ 31 → (proto_writeString v).2 = 4 + Z.of_nat (length v);
  readBool_writeBool v rest : proto_readBool ((proto_writeBool v).1 ++ rest) = Some (v, rest, 1);
  count_writeBool v : (proto_writeBool v).2 = 1;
}.

(** ** Writing

    What a [write] method does to the transport: the bytes it appends and
    its 32-bit count [b]. *)
Definition out : Type := list Z * Z.
Definition out_nil : out := ([], 0).
Definition out_app (x y : out) : out := (x.1 ++ y.1, u32 (x.2 + y.2)).

Section Protocol.
Context `{P : TProtocol}.

Definition writeByte (v : Z) : out := proto_writeByte (i8 v).
Definition writeI16 (v : Z) : out := proto_writeI16 (i16 v).
Definition writeI32 (v : Z) : out := proto_writeI32 (i32 v).
Definition writeI64 (v : Z) : out := proto_writeI64 (i64 v).
Definition writeTimeStamp (v : Z) : out := proto_writeI64 (i64 v).
Definition writeString (v : list Z) : out := proto_writeString v.
Definition writeBool (v : bool) : out := proto_writeBool v.

(** [getTransport()->write(buf, len)] *)
Definition writeBuffer (buf : list Z) (len : Z) : out := (take (Z.to_nat len) buf, len).

(** ** Reading

    A [read] method consumes bytes of the transport and accumulates the
    count [b]; the input state is the pair of both. *)
Definition inp : Type := list Z * Z.
Definition Rd (A : Type) : Type := inp → res (A * inp).

#[export] Instance Rd_ret : MRet Rd := λ A a s, Ret (a, s).
#[export] Instance Rd_bind : MBind Rd :=
  λ A B k m s, match m s with Ret (a, s') => k a s' | Fault f => Fault f end.

Definition Rd_lift {A} (m : res A) : Rd A := λ s, (λ a, (a, s)) <$> m.

Definition rd_prim {A} (rd : list Z → option (A * list Z * Z)) (cast : A → A) : Rd A :=
  λ '(bytes, b),
    match rd bytes with
    | Some (v, rest, c) => Ret (cast v, (rest, u32 (b + c)))
    | None => Fault ProtocolException
    end.

(** The [fds_uint*] overloads: the signed value reinterpreted. *)
Definition readByte : Rd Z := rd_prim proto_readByte u8.
Definition readI16 : Rd Z := rd_prim proto_readI16 u16.
Definition readI32 : Rd Z := rd_prim proto_readI32 u32.
Definition readI64 : Rd Z := rd_prim proto_readI64 u64.
Definition readTimeStamp : Rd Z := rd_prim proto_readI64 u64.

(** The overload for [int32_t], and booleans. *)
Definition readI32_signed : Rd Z := rd_prim proto_readI32 (λ v, v).
Definition readBool : Rd bool := rd_prim proto_readBool (λ v, v).

Definition readString : Rd (list Z) :=
  λ '(bytes, b),
    match proto_readString bytes with
    | Some (v, rest, c) => Ret (v, (rest, u32 (b + c)))
    | None => Fault ProtocolException
    end.

(** [getTransport()->read(buf, len)] into the buffer [buf]: a memory transport
    gives at most the bytes it has left, without an exception. *)
Definition readBuffer (buf : list Z) (len : Z) : Rd (list Z) :=
  λ '(bytes, b),
    let n := (Z.to_nat len `min` length bytes)%nat in
    Ret (take n bytes ++ drop n buf, (drop n bytes, u32 (b + Z.of_nat n))).

(** [for (i = 0; i < n; ++i)] around a read. *)
Fixpoint read_times {A} (n : nat) (m : Rd A) : Rd (list A) :=
  match n with
  | O => mret []
  | S n => x ← m; l ← read_times n m; mret (x :: l)
  end.

End Protocol.

(** ** [Serializable]

    Exceptions are caught; [fds_verify] and invalid dereferences are not
    exceptions and end the process. *)
Definition catchable (f : fault) : bool :=
  match f with
  | OutOfRange | FdsException _ | ProtocolException | ConnectionClosed | StdException => true
  | VerifyFailed | NullDeref | Undefined | OutOfFuel => false
  end.

(** [getSerialized]: appends to [serializedData]; [write] is the outcome of
    the object's [write] method on a fresh memory buffer. *)
Definition getSerialized (write : res out) (serializedData : list Z) : res (list Z * fds_errno) :=
  match write with
  | Ret (bytes, bytesWritten) =>
      Ret (serializedData ++ bytes,
           if decide (bytesWritten = 0) then ERR_NO_BYTES_WRITTEN else ERR_OK)
  | Fault f =>
      if catchable f then
        let err := ERR_SERIALIZE_FAILED in
        let bytesWritten := 0 in
        Ret (serializedData, if decide (bytesWritten = 0) then ERR_NO_BYTES_WRITTEN else err)
      else Fault f
  end.

(** [loadSerialized]: the object read, when [read] returned, and the error. *)
Definition loadSerialized {A} (read : Rd A) (serializedData : list Z)
    : res (option A * fds_errno) :=
  match read (serializedData, 0) with
  | Ret (a, (_, bytesRead)) =>
      Ret (Some a, if decide (bytesRead = 0) then ERR_NO_BYTES_READ else ERR_OK)
  | Fault f =>
      if catchable f then
        let err := ERR_SERIALIZE_FAILED in
        let bytesRead := 0 in
        Ret (None, if decide (bytesRead = 0) then ERR_NO_BYTES_READ else err)
      else Fault f
  end.

(** ** Lemmas *)
Lemma wrap_signed_range w z : 0 < w → - 2 ^ (w - 1) ≤ wrap_signed w z < 2 ^ (w - 1).
Proof.
  intros Hw. unfold wrap_signed.
  assert (2 ^ w = 2 * 2 ^ (w - 1)).
  { rewrite <-Z.pow_succ_r by lia. f_equal. lia. }
  pose proof (Z.pow_pos_nonneg 2 (w - 1) ltac:(lia) ltac:(lia)).
  pose proof (Z.mod_pos_bound z (2 ^ w) ltac:(lia)).
  case_decide; lia.
Qed.

(** Reinterpreting as signed and back keeps an unsigned value. *)
Lemma wrap_signed_mod w z : 0 < w → wrap_signed w z `mod` 2 ^ w = z `mod` 2 ^ w.
Proof.
  intros Hw. unfold wrap_signed.
  pose proof (Z.pow_pos_nonneg 2 w ltac:(lia) ltac:(lia)).
  case_decide.
  - rewrite Z.mod_mod by lia. done.
  - rewrite Zminus_mod, Z.mod_same, Z.sub_0_r, !Z.mod_mod by lia. done.
Qed.

Section Laws.
Context `{P : TProtocol} `{!TProtocolLaws P}.

Lemma readI64_write v rest b : 0 ≤ v ≤ uint64_max →
  readI64 ((writeI64 v).1 ++ rest, b) = Ret (v, (rest, u32 (b + 8))).
Proof.
  intros. unfold readI64, rd_prim, writeI64.
  rewrite readI64_writeI64 by (apply (wrap_signed_range 64); lia).
  unfold u64. pose proof (wrap_signed_mod 64 v ltac:(lia)) as Hm.
  unfold i64. change 18446744073709551616 with (2 ^ 64). rewrite Hm, Z.mod_small; [done|].
  unfold uint64_max in *. lia.
Qed.

Lemma readTimeStamp_write v rest b : 0 ≤ v ≤ uint64_max →
  readTimeStamp ((writeTimeStamp v).1 ++ rest, b) = Ret (v, (rest, u32 (b + 8))).
Proof. apply readI64_write. Qed.

Lemma readI32_write v rest b : 0 ≤ v < 2 ^ 32 →
  readI32 ((writeI32 v).1 ++ rest, b) = Ret (v, (rest, u32 (b + 4))).
Proof.
  intros. unfold readI32, rd_prim, writeI32.
  rewrite readI32_writeI32 by (apply (wrap_signed_range 32); lia).
  unfold u32 at 1. pose proof (wrap_signed_mod 32 v ltac:(lia)) as Hm.
  unfold i32. change 4294967296 with (2 ^ 32). rewrite Hm, Z.mod_small; [done|lia].
Qed.

Lemma readI16_write v rest b : 0 ≤ v < 2 ^ 16 →
  readI16 ((writeI16 v).1 ++ rest, b) = Ret (v, (rest, u32 (b + 2))).
Proof.
  intros. unfold readI16, rd_prim, writeI16.
  rewrite readI16_writeI16 by (apply (wrap_signed_range 16); lia).
  unfold u16. pose proof (wrap_signed_mod 16 v ltac:(lia)) as Hm.
  unfold i16. change 65536 with (2 ^ 16). rewrite Hm, Z.mod_small; [done|lia].
Qed.

Lemma readByte_write v rest b : 0 ≤ v < 2 ^ 8 →
  readByte ((writeByte v).1 ++ rest, b) = Ret (v, (rest, u32 (b + 1))).
Proof.
  intros. unfold readByte, rd_prim, writeByte.
  rewrite readByte_writeByte by (apply (wrap_signed_range 8); lia).
  unfold u8. pose proof (wrap_signed_mod 8 v ltac:(lia)) as Hm.
  unfold i8. change 256 with (2 ^ 8). rewrite Hm, Z.mod_small; [done|lia].
Qed.

Lemma readString_write v rest b : Z.of_nat (length v) < 2 ^ 31 →
  readString ((writeString v).1 ++ rest, b) = Ret (v, (rest, u32 (b + (4 + Z.of_nat (length v))))).
Proof. intros Hv. unfold readString, writeString. by rewrite readString_writeString. Qed.

End Laws.

Lemma Rd_bind_Ret {A B} (m : Rd A) (k : A → Rd B) s a s' :
  m s = Ret (a, s') → (m ≫= k) s = k a s'.
Proof. intros H. unfold mbind, Rd_bind. by rewrite H. Qed.

Lemma Rd_lift_Ret {A} (a : A) s : Rd_lift (Ret a) s = Ret (a, s).
Proof. done. Qed.

(** *** Repeated writes and reads

    Counts are tracked modulo [2^32], the width of [b]. *)
Lemma u32_congr a b c : u32 a = u32 b → u32 (a + c) = u32 (b + c).
Proof. intros H. rewrite <-(u32_add_l a), H. apply u32_add_l. Qed.

(** A loop of writes appends the encodings in order. *)
Lemma foldM_write {A} (f : out → A → res out) (enc : A → list Z) (sz : Z) (l : list A) (b : out) :
  (∀ b x, x ∈ l → ∃ c, f b x = Ret (b.1 ++ enc x, c) ∧ u32 c = u32 (b.2 + sz)) →
  ∃ c, foldM f b l = Ret (b.1 ++ concat (enc <$> l), c) ∧
       u32 c = u32 (b.2 + sz * Z.of_nat (length l)).
Proof.
  revert b. induction l as [|x l IH]; intros b Hf.
  - exists b.2. simpl. rewrite app_nil_r, Z.mul_0_r, Z.add_0_r. by destruct b.
  - destruct (Hf b x) as (c & E & Hc); [set_solver|].
    destruct (IH (b.1 ++ enc x, c)) as (c' & E' & Hc'); [set_solver|].
    exists c'. rewrite foldM_cons, E, bind_Ret, E'. simpl. split.
    + by rewrite <-app_assoc.
    + rewrite Hc'. simpl. rewrite (u32_congr _ _ _ Hc). f_equal. lia.
Qed.

(** A loop of reads gives back the encoded values. *)
Lemma read_times_spec {A} (m : Rd A) (enc : A → list Z) (sz : Z) (l : list A) rest b :
  (∀ x rest b, x ∈ l → ∃ c, m (enc x ++ rest, b) = Ret (x, (rest, c)) ∧ u32 c = u32 (b + sz)) →
  ∃ c, read_times (length l) m (concat (enc <$> l) ++ rest, b) = Ret (l, (rest, c)) ∧
       u32 c = u32 (b + sz * Z.of_nat (length l)).
Proof.
  revert b. induction l as [|x l IH]; intros b Hm.
  - exists b. simpl. by rewrite Z.mul_0_r, Z.add_0_r.
  - destruct (Hm x (concat (enc <$> l) ++ rest) b) as (c & E & Hc); [set_solver|].
    destruct (IH c) as (c' & E' & Hc'); [set_solver|].
    exists c'. rewrite fmap_cons, concat_cons, <-app_assoc. cbn [length read_times].
    rewrite (Rd_bind_Ret _ _ _ _ _ E), (Rd_bind_Ret _ _ _ _ _ E'). split; [done|].
    rewrite Hc', (u32_congr _ _ _ Hc). f_equal. lia.
Qed.

(** ** Codecs

    A reader and the output of a writer belong together when the reader, on
    the writer's bytes followed by anything, gives the value back, leaves the
    rest and counts the same bytes.  Counts are compared modulo [2^32]. *)
Definition out_eq (x y : out) : Prop := x.1 = y.1 ∧ u32 x.2 = u32 y.2.

#[export] Instance out_equivalence : Equivalence out_eq.
Proof. split; unfold out_eq; repeat intro; intuition congruence. Qed.

Lemma u32_add_congr a b c d : u32 a = u32 c → u32 b = u32 d → u32 (a + b) = u32 (c + d).
Proof.
  intros H1 H2. rewrite (u32_congr a c b H1). rewrite (Z.add_comm c b), (u32_congr b d c H2). by rewrite Z.add_comm.
Qed.

Lemma u32_idemp a : u32 (u32 a) = u32 a.
Proof. unfold u32. apply Z.mod_mod. lia. Qed.

Lemma u32_add_r a b : u32 (a + u32 b) = u32 (a + b).
Proof. by rewrite Z.add_comm, u32_add_l, Z.add_comm. Qed.

(** Removes the inner conversions of a sum. *)
Ltac u32_norm := repeat first
  [ rewrite u32_idemp | rewrite u32_add_l | rewrite u32_add_r
  | rewrite <-(Z.add_assoc (u32 _)) | rewrite (Z.add_assoc _ _ (u32 _)) ].

#[export] Instance out_app_proper : Proper (out_eq ==> out_eq ==> out_eq) out_app.
Proof.
  intros [x1 c1] [y1 d1] [E1 H1] [x2 c2] [y2 d2] [E2 H2]. simpl in *. subst. split; [done|]. simpl.
  rewrite !u32_idemp. by apply u32_add_congr.
Qed.

Lemma out_app_assoc x y z : out_eq (out_app (out_app x y) z) (out_app x (out_app y z)).
Proof.
  split; simpl; [by rewrite app_assoc|]. rewrite !u32_idemp, (Z.add_comm x.2 (u32 _)), !u32_add_l. f_equal. lia.
Qed.

Lemma out_app_nil_l x : out_eq (out_app out_nil x) x.
Proof. split; [done|]. simpl. by rewrite u32_idemp. Qed.

Lemma out_app_nil_r x : out_eq (out_app x out_nil) x.
Proof. split; simpl; [apply app_nil_r|]. rewrite u32_idemp. f_equal. lia. Qed.

Definition codec {A} (rd : Rd A) (w : out) (a : A) : Prop :=
  ∀ rest b, u32 b = b → rd (w.1 ++ rest, b) = Ret (a, (rest, u32 (b + w.2))).

#[export] Instance codec_proper {A} (rd : Rd A) : Proper (out_eq ==> eq ==> iff) (codec rd).
Proof.
  assert (∀ w w' a, out_eq w w' → codec rd w a → codec rd w' a) as Himp.
  { intros w w' a [E Hc] H rest b Hb. rewrite <-E, H by done. do 3 f_equal. by apply u32_add_congr. }
  intros w w' Hw a a' <-. split; apply Himp; [done|by symmetry].
Qed.

Lemma codec_ret {A} (a : A) : codec (mret a) out_nil a.
Proof. intros rest b Hb. simpl. by rewrite Z.add_0_r, Hb. Qed.

Lemma codec_bind {A B} (m : Rd A) (k : A → Rd B) w w' a b :
  codec m w a → codec (k a) w' b → codec (m ≫= k) (out_app w w') b.
Proof.
  intros Hm Hk rest n Hn. simpl. rewrite <-(assoc (++)).
  rewrite (Rd_bind_Ret _ _ _ _ _ (Hm (w'.1 ++ rest) n Hn)), Hk by apply u32_idemp. do 3 f_equal.
  rewrite u32_add_l, (Z.add_comm n (u32 _)), u32_add_l. f_equal. lia.
Qed.

(** A value computed from what was read. *)
Lemma codec_map {A B} (m : Rd A) (f : A → B) w a : codec m w a → codec (x ← m; mret (f x)) w (f a).
Proof.
  intros Hm. apply (codec_proper _ _ _ (symmetry (out_app_nil_r w)) _ _ eq_refl).
  eapply codec_bind; [done|apply codec_ret].
Qed.

Lemma out_fold_app {A} (enc : A → out) l o :
  out_eq (foldl (λ o x, out_app o (enc x)) o l) (out_app o (foldl (λ o x, out_app o (enc x)) out_nil l)).
Proof.
  revert o. induction l as [|x l IH]; intros o; simpl; [by rewrite out_app_nil_r|].
  rewrite IH. rewrite (IH (out_app out_nil (enc x))). by rewrite <-!out_app_assoc, out_app_nil_r.
Qed.

(** A loop of writes and the loop of reads that undoes it. *)
Lemma codec_times {A} (m : Rd A) (enc : A → out) (l : list A) :
  (∀ x, x ∈ l → codec m (enc x) x) →
  codec (read_times (length l) m) (foldl (λ o x, out_app o (enc x)) out_nil l) l.
Proof.
  induction l as [|x l IH]; intros Hl; [apply codec_ret|]. cbn [length read_times foldl].
  rewrite out_fold_app, out_app_nil_l. eapply codec_bind; [apply Hl; by left|].
  apply codec_map, IH. intros y Hy. apply Hl. by right.
Qed.

Lemma codec_Buffer buf v len : 0 ≤ len → length v = Z.to_nat len → length buf = Z.to_nat len →
  codec (readBuffer buf len) (writeBuffer v len) v.
Proof.
  intros Hl Hv Hb rest b _. unfold readBuffer, writeBuffer. simpl. rewrite length_app, length_take.
  replace (Z.to_nat len `min` _)%nat with (length v) by lia. rewrite <-Hv, firstn_all.
  rewrite take_app_length, drop_app_length. rewrite (drop_ge buf) by lia. rewrite app_nil_r.
  by rewrite Hv, Z2Nat.id.
Qed.

Section Codecs.
Context `{P : TProtocol} `{!TProtocolLaws P}.

Lemma codec_I64 v : 0 ≤ v ≤ uint64_max → codec readI64 (writeI64 v) v.
Proof. intros Hv rest b _. rewrite readI64_write by done. unfold writeI64. by rewrite count_writeI64. Qed.

Lemma codec_I32 v : 0 ≤ v < 2 ^ 32 → codec readI32 (writeI32 v) v.
Proof. intros Hv rest b _. rewrite readI32_write by done. unfold writeI32. by rewrite count_writeI32. Qed.

Lemma codec_String v : Z.of_nat (length v) < 2 ^ 31 → codec readString (writeString v) v.
Proof.
  intros Hv rest b _. rewrite readString_write by done. unfold writeString. by rewrite count_writeString.
Qed.

Lemma codec_I32_signed v : - 2 ^ 31 ≤ v < 2 ^ 31 → codec readI32_signed (writeI32 v) v.
Proof.
  intros Hv rest b _. unfold readI32_signed, rd_prim, writeI32. assert (i32 v = v) as ->.
  { unfold i32, wrap_signed. destruct (decide (0 ≤ v)).
    - rewrite Z.mod_small by lia. by rewrite decide_True by lia.
    - assert (v `mod` 2 ^ 32 = v + 2 ^ 32) as -> by (symmetry; apply (Z.mod_unique _ _ (-1)); lia).
      rewrite decide_False by lia. lia. }
  by rewrite readI32_writeI32, count_writeI32.
Qed.

Lemma codec_Bool v : codec readBool (writeBool v) v.
Proof. intros rest b _. unfold readBool, rd_prim, writeBool. by rewrite readBool_writeBool, count_writeBool. Qed.

End Codecs.

(** What [getSerialized] appended loads back, unless the 32-bit byte count
    wrapped around to zero. *)
Lemma codec_load {A} (rd : Rd A) w a : codec rd w a → u32 w.2 ≠ 0 →
  getSerialized (Ret w) [] = Ret (w.1, ERR_OK) ∧ loadSerialized rd w.1 = Ret (Some a, ERR_OK).
Proof.
  intros Hc Hn. split.
  - unfold getSerialized. destruct w as [w c]. simpl in *. rewrite decide_False; [done|]. by intros ->.
  - unfold loadSerialized. rewrite <-(app_nil_r w.1), Hc by done. by rewrite decide_False by (by rewrite Z.add_0_l).
Qed.

(** ** An instance: network byte order

    The layout [TBinaryProtocol] documents; it shows the laws can hold and
    lets concrete tables be serialized. *)
Fixpoint be_bytes (n : nat) (z : Z) : list Z :=
  match n with
  | O => []
  | S n => (z / 2 ^ (8 * Z.of_nat n)) `mod` 256 :: be_bytes n z
  end.

Definition be_value (l : list Z) : Z := foldl (λ acc b, acc * 256 + b) 0 l.

Definition be_read (n : nat) (bytes : list Z) : option (Z * list Z * Z) :=
  if decide (n ≤ length bytes)%nat then
    Some (wrap_signed (8 * Z.of_nat n) (be_value (take n bytes)), drop n bytes, Z.of_nat n)
  else None.

Definition be_readString (bytes : list Z) : option (list Z * list Z * Z) :=
  match be_read 4 bytes with
  | Some (n, rest, c) =>
      if decide (0 ≤ n ≤ Z.of_nat (length rest)) then Some (take (Z.to_nat n) rest, drop (Z.to_nat n) rest, c + n)
      else None
  | None => None
  end.

#[export] Instance binary_protocol : TProtocol := {
  proto_writeByte v := (be_bytes 1 v, 1);
  proto_writeI16 v := (be_bytes 2 v, 2);
  proto_writeI32 v := (be_bytes 4 v, 4);
  proto_writeI64 v := (be_bytes 8 v, 8);
  proto_readByte := be_read 1;
  proto_readI16 := be_read 2;
  proto_readI32 := be_read 4;
  proto_readI64 := be_read 8;
  proto_writeString v := (be_bytes 4 (Z.of_nat (length v)) ++ v, u32 (4 + Z.of_nat (length v)));
  proto_readString := be_readString;
  proto_writeBool v := (be_bytes 1 (if v then 1 else 0), 1);
  proto_readBool bytes := match be_read 1 bytes with Some (v, rest, c) => Some (bool_decide (v ≠ 0), rest, c) | None => None end;
}.

Lemma length_be_bytes n z : length (be_bytes n z) = n.
Proof. induction n; simpl; [done|by f_equal]. Qed.

Lemma be_value_foldl acc n z :
  foldl (λ acc b, acc * 256 + b) acc (be_bytes n z) =
  acc * 2 ^ (8 * Z.of_nat n) + z `mod` 2 ^ (8 * Z.of_nat n).
Proof.
  revert acc. induction n as [|n IH]; intros acc.
  - simpl be_bytes. simpl foldl. change (8 * Z.of_nat 0) with 0. rewrite Z.mod_1_r. lia.
  - simpl be_bytes. simpl foldl. rewrite IH.
    replace (8 * Z.of_nat (S n)) with (8 + 8 * Z.of_nat n) by lia.
    rewrite Z.pow_add_r by lia. change (2 ^ 8) with 256.
    pose proof (Z.pow_pos_nonneg 2 (8 * Z.of_nat n) ltac:(lia) ltac:(lia)).
    rewrite (Z.mul_comm 256 (2 ^ _)), Z.rem_mul_r by lia. lia.
Qed.

Lemma wrap_signed_id w z : 0 < w → - 2 ^ (w - 1) ≤ z < 2 ^ (w - 1) →
  wrap_signed w (z `mod` 2 ^ w) = z.
Proof.
  intros Hw Hz. unfold wrap_signed.
  assert (2 ^ w = 2 * 2 ^ (w - 1)).
  { rewrite <-Z.pow_succ_r by lia. f_equal. lia. }
  rewrite Z.mod_mod by lia. destruct (decide (0 ≤ z)).
  - rewrite Z.mod_small by lia. by rewrite decide_True by lia.
  - assert (z `mod` 2 ^ w = z + 2 ^ w) as ->.
    { rewrite <-(Z.mod_small (z + 2 ^ w) (2 ^ w)) by lia.
      rewrite <-Z.add_mod_idemp_r, Z.mod_same, Z.add_0_r by lia. done. }
    rewrite decide_False by lia. lia.
Qed.

Lemma be_read_write n z rest : (0 < n)%nat →
  - 2 ^ (8 * Z.of_nat n - 1) ≤ z < 2 ^ (8 * Z.of_nat n - 1) →
  be_read n (be_bytes n z ++ rest) = Some (z, rest, Z.of_nat n).
Proof.
  intros Hn Hz. unfold be_read.
  rewrite length_app, length_be_bytes, decide_True by lia.
  rewrite take_app_length', drop_app_length' by (by rewrite length_be_bytes).
  unfold be_value. rewrite be_value_foldl, Z.mul_0_l, Z.add_0_l.
  by rewrite wrap_signed_id by lia.
Qed.

#[export] Instance binary_protocol_laws : TProtocolLaws binary_protocol.
Proof.
  split; [intros; by apply be_read_write; [lia|]..|done|done|done|done| | | |done].
  - intros v rest Hv.
    change (be_readString ((be_bytes 4 (Z.of_nat (length v)) ++ v) ++ rest) = Some (v, rest, 4 + Z.of_nat (length v))).
    unfold be_readString. rewrite <-(assoc (++)), be_read_write by lia.
    rewrite length_app, decide_True by lia. rewrite Nat2Z.id.
    by rewrite take_app_length', drop_app_length'.
  - intros v Hv. simpl. apply u32_small. lia.
  - intros v rest. change (match be_read 1 (be_bytes 1 (if v then 1 else 0) ++ rest) with
      Some (v, rest, c) => Some (bool_decide (v ≠ 0), rest, c) | None => None end = Some (v, rest, 1)).
    rewrite be_read_write by (lia || by destruct v). by destruct v.
Qed.

(** [loadSerialized] reports every malformed input as
    [ERR_NO_BYTES_READ]: the error its exception handlers choose is
    overwritten, because no byte count was stored, so
    [ERR_SERIALIZE_FAILED] is never returned. *)
Theorem loadSerialized_error {A} (read : Rd A) (data : list Z) (r : option A) (e : fds_errno) :
  loadSerialized read data = Ret (r, e) →
  e ≠ ERR_SERIALIZE_FAILED ∧ (r = None → e = ERR_NO_BYTES_READ).
Proof.
  unfold loadSerialized. destruct (read _) as [[a [? b]]|f].
  - case_decide; intros [= <- <-]; naive_solver.
  - destruct (catchable f); intros [= <- <-]. naive_solver.
Qed.

Lemma loadSerialized_error_witness :
  loadSerialized readI64 [1; 2; 3] = Ret (None, ERR_NO_BYTES_READ) ∧
  ERR_NO_BYTES_READ ≠ ERR_SERIALIZE_FAILED.
Proof.
  split; [reflexivity|].
  exact (proj1 (loadSerialized_error readI64 [1; 2; 3] None ERR_NO_BYTES_READ eq_refl)).
Defined.
