(* ===== verification/Dmt.v ===== *)
(** * The data management table (DMT)

    Models the class [DMT] of src/source/lib/misc/dmt.cpp and
    src/source/include/fds_dmt.h: the table that maps a volume to the
    column of data managers responsible for it.  A DMT owns its columns, so
    the table is a list of columns by value. *)

From S2P Require Import Prelude PlacementTable Serialize.
Open Scope Z_scope.

Import TableColumn.

Module DMT.

Record t := Make {
  base : FDS_Table.t;
  dmt_table : list column;
}.

(** Projections of the base class. *)
Definition depth (d : t) : Z := FDS_Table.depth (base d).
Definition width (d : t) : Z := FDS_Table.width (base d).
Definition columns (d : t) : Z := FDS_Table.columns (base d).
Definition version (d : t) : Z := FDS_Table.version (base d).

Definition set_table (tbl : list column) (d : t) : t := Make (base d) tbl.

(** The constructor [DMT(width, depth, version, alloc_cols)]. *)
Definition make (_width _depth _version : Z) (alloc_cols : bool) : t :=
  let b := FDS_Table.make _width _depth _version in
  Make b (if alloc_cols
          then replicate (Z.to_nat (FDS_Table.columns b)) (TableColumn.make _depth)
          else []).

Definition getVersion (d : t) : Z := version d.
Definition getDepth (d : t) : Z := depth d.
Definition getNumColumns (d : t) : Z := columns d.

(** [getNodeGroup(fds_uint32_t col_index)] *)
Definition getNodeGroup (d : t) (col_index : Z) : res column :=
  _ ← fds_verify (bool_decide (col_index < columns d));
  vec_at (dmt_table d) col_index.

(** [getNodeGroup(fds_volid_t volume_id)] *)
Definition getNodeGroup_vol (d : t) (volume_id : Z) : res column :=
  _ ← fds_verify (bool_decide (0 < columns d));
  let col_index := volume_id `mod` columns d in
  vec_at (dmt_table d) col_index.

Definition getSvcUuids (d : t) (volume_id : Z) : res (list Z) :=
  column ← getNodeGroup_vol d volume_id;
  Ret (toSvcUuids column).

Definition getNodeGroupIndex (volume_id num_columns : Z) : res Z :=
  _ ← fds_verify (bool_decide (0 < num_columns));
  Ret (volume_id `mod` num_columns).

(** [dmt_table->at(c)->set(r, uuid)] *)
Definition set_cell (tbl : list column) (c r uuid : Z) : res (list column) :=
  col ← vec_at tbl c;
  col' ← TableColumn.set r uuid col;
  Ret (<[Z.to_nat c := col']> tbl).

Definition setNodeGroup (col_index : Z) (nodes : column) (d : t) : res t :=
  _ ← fds_verify (bool_decide (getLength nodes = depth d));
  tbl ← for_range (depth d) (λ tbl i,
          x ← get nodes i; set_cell tbl col_index i x) (dmt_table d);
  Ret (set_table tbl d).

Definition setNode (col_index row_index uuid : Z) (d : t) : res t :=
  _ ← fds_verify (bool_decide (col_index < columns d));
  _ ← fds_verify (bool_decide (row_index < depth d));
  tbl ← set_cell (dmt_table d) col_index row_index uuid;
  Ret (set_table tbl d).

(** [newDMT]: width 1, version 1, the given uuids in column 0. *)
Definition newDMT (column : list Z) : res t :=
  let n := Z.of_nat (length column) in
  let dmt := make 1 n 1 true in
  let tc := u64 <$> column in
  setNodeGroup 0 tc dmt.

(** [operator==]: shape and contents, not the version. *)
Definition eqb (d rhs : t) : res bool :=
  if decide (depth d ≠ depth rhs ∨ columns d ≠ columns rhs) then Ret false else
  for_range (columns d) (λ same i,
    if same : bool then
      myCol ← vec_at (dmt_table d) i;
      col ← vec_at (dmt_table rhs) i;
      Ret (TableColumn.eqb myCol col)
    else Ret false) true.

Definition getUniqueNodes (d : t) : res (gset Z) :=
  foldM (λ nodes col,
    for_range (depth d) (λ nodes i, uuid ← get col i; Ret ({[uuid]} ∪ nodes)) nodes)
    ∅ (dmt_table d).

Definition isVolumeOwnedBySvc (d : t) (volId svcUuid : Z) : res bool :=
  nodeGroup ← getNodeGroup_vol d volId;
  Ret (bool_decide (find nodeGroup (u64 svcUuid) ≠ -1)).

(** One column of [verify()]: the set of uuids it holds, or the error. *)
Definition verify_column (d : t) (col : column) : res (gset Z + fds_errno) :=
  for_range (depth d) (λ acc i,
    match acc with
    | inr e => Ret (inr e)
    | inl nodes =>
        uuid ← get col i;
        if decide (uuid = 0) then Ret (inr ERR_INVALID_DMT)
        else Ret (inl ({[uuid]} ∪ nodes))
    end) (inl ∅).

Definition verify_step (d : t) (err : fds_errno) (col : column) : res fds_errno :=
  match err with
  | ERR_OK =>
      r ← verify_column d col;
      match r with
      | inr e => Ret e
      | inl nodes =>
          Ret (if decide (Z.of_nat (size nodes) ≠ depth d) then ERR_INVALID_DMT else ERR_OK)
      end
  | e => Ret e
  end.

Definition verify (d : t) : res fds_errno := foldM (verify_step d) ERR_OK (dmt_table d).

Section VerifyExpected.
(** The orchestration manager's view of services being removed
    ([OmExtUtilApi]). *)
Variable getPendingNodeRemoves : Z.
Variable isMarkedForRemoval : Z → bool.

(** One column of [verify(expectedUuidSet)]. *)
Definition verify_expected_column (d : t) (expectedUuidSet : gset Z) (col : column)
    : res (gset Z + fds_errno) :=
  for_range (depth d) (λ acc j,
    match acc with
    | inr e => Ret (inr e)
    | inl colSet =>
        uuid ← get col j;
        if decide (uuid = 0 ∨ uuid ∉ expectedUuidSet) then
          if isMarkedForRemoval uuid then Ret (inl ({[uuid]} ∪ colSet))
          else Ret (inr ERR_INVALID_DMT)
        else Ret (inl ({[uuid]} ∪ colSet))
    end) (inl ∅).

Definition verify_expected (expectedUuidSet : gset Z) (d : t) : res fds_errno :=
  if decide (getDepth d > Z.of_nat (size expectedUuidSet) + getPendingNodeRemoves) then
    Ret ERR_INVALID_DMT
  else
    for_range (getNumColumns d) (λ err i,
      match err with
      | ERR_OK =>
          col ← getNodeGroup d i;
          r ← verify_expected_column d expectedUuidSet col;
          match r with
          | inr e => Ret e
          | inl colSet =>
              Ret (if decide (Z.of_nat (size colSet) < depth d) then ERR_INVALID_DMT else ERR_OK)
          end
      | e => Ret e
      end) ERR_OK.
End VerifyExpected.

Section Serialization.
Context `{P : TProtocol}.

Definition write (d : t) : res out :=
  let b := out_app out_nil (writeI64 (version d)) in
  let b := out_app b (writeI32 (depth d)) in
  let b := out_app b (writeI32 (width d)) in
  foldM (λ b col,
    for_range (depth d) (λ b i, uuid ← get col i; Ret (out_app b (writeI64 uuid))) b)
    b (dmt_table d).

Definition read (d : t) : Rd t :=
  version ← readI64;
  depth ← readI32;
  width ← readI32;
  let columns := u32 (2 ^ width) in
  tbl ← read_times (Z.to_nat columns) (read_times (Z.to_nat depth) readI64);
  mret (Make (FDS_Table.Make depth width columns version
          (FDS_Table.outstanding_io (base d)) (FDS_Table.cb (base d))) tbl).
End Serialization.

(** ** Well-formed tables *)
Definition u64_range (z : Z) : Prop := 0 ≤ z ≤ uint64_max.

Definition wf (d : t) : Prop :=
  FDS_Table.well_shaped (base d) ∧
  Z.of_nat (length (dmt_table d)) = columns d ∧
  Forall (λ col : column, getLength col = depth d ∧ Forall u64_range col) (dmt_table d).

(** *** Verification *)
(** A column may serve volumes: distinct and valid uuids. *)
Definition column_valid (col : column) : bool :=
  negb (existsb (λ u, bool_decide (u = 0)) col) && bool_decide (NoDup col).

Lemma column_valid_spec col : column_valid col = true ↔ 0 ∉ col ∧ NoDup col.
Proof.
  unfold column_valid. rewrite andb_true_iff, negb_true_iff, bool_decide_eq_true.
  rewrite <-not_true_iff_false, existsb_exists.
  setoid_rewrite bool_decide_eq_true. setoid_rewrite <-list_elem_of_In. naive_solver.
Qed.

Lemma verify_step_spec d col : getLength col = depth d →
  verify_step d ERR_OK col = Ret (if column_valid col then ERR_OK else ERR_INVALID_DMT).
Proof.
  intros Hlen. unfold verify_step, verify_column. rewrite <-Hlen.
  rewrite (for_range_col _ (check_cell (λ u, bool_decide (u = 0)) ERR_INVALID_DMT)).
  2:{ intros [nodes|e] i x Hx; [|done]. rewrite (get_ok _ _ _ Hx). simpl.
      by repeat case_decide; repeat case_bool_decide. }
  rewrite check_loop. unfold column_valid.
  destruct (existsb _ col); [done|]. simpl. f_equal. pose proof (check_distinct col).
  case_decide; case_bool_decide; tauto || done.
Qed.

(** [DMT::verify()] decides validity: on a table whose columns have
    [depth] rows it always returns, [ERR_OK] when every column holds
    pairwise distinct non-zero uuids and [ERR_INVALID_DMT] otherwise. *)
Theorem verify_spec (d : t) :
  Forall (λ col, getLength col = depth d) (dmt_table d) →
  ∃ e, verify d = Ret e ∧ (e = ERR_OK ∨ e = ERR_INVALID_DMT) ∧
    (e = ERR_OK ↔ ∀ col, col ∈ dmt_table d → 0 ∉ col ∧ NoDup col).
Proof.
  intros Hl. unfold verify. rewrite Forall_forall in Hl.
  rewrite (check_columns _ column_valid ERR_INVALID_DMT);
    [|done|intros col Hc; by apply verify_step_spec, Hl|done].
  eexists; split; [done|]. setoid_rewrite <-column_valid_spec.
  destruct (forallb column_valid (dmt_table d)) eqn:E.
  - split; [by left|]. rewrite forallb_forall in E.
    setoid_rewrite list_elem_of_In. naive_solver.
  - split; [by right|]. rewrite <-not_true_iff_false, forallb_forall in E.
    setoid_rewrite list_elem_of_In. naive_solver.
Qed.

Lemma verify_spec_witness :
  let d := Make (FDS_Table.make 1 2 5) [[11; 12]; [12; 11]] in
  ∃ e, verify d = Ret e ∧ (e = ERR_OK ∨ e = ERR_INVALID_DMT) ∧
    (e = ERR_OK ↔ ∀ col, col ∈ dmt_table d → 0 ∉ col ∧ NoDup col).
Proof. intros d. apply verify_spec. repeat constructor. Defined.

(** [DMT::verify(expectedUuidSet)]: on a well-formed table it returns
    [ERR_OK] exactly when the table has no more rows than services that are
    present or being removed, and every column holds pairwise distinct
    uuids, each of them expected or marked for removal. *)
Theorem verify_expected_spec (pending : Z) (marked : Z → bool) (expected : gset Z) (d : t) :
  wf d →
  ∃ e, verify_expected pending marked expected d = Ret e ∧
    (e = ERR_OK ∨ e = ERR_INVALID_DMT) ∧
    (e = ERR_OK ↔
      depth d ≤ Z.of_nat (size expected) + pending ∧
      ∀ col, col ∈ dmt_table d →
        (∀ u, u ∈ col → (u ≠ 0 ∧ u ∈ expected) ∨ marked u = true) ∧ NoDup col).
Proof.
  intros (Hs & Hlen & Hcols). unfold verify_expected, getDepth, getNumColumns.
  case_decide as Hd.
  { eexists. split; [done|]. split; [by right|]. split; [done|]. intros [? _]. lia. }
  rewrite <-Hlen. rewrite (for_range_list _ (λ err col, match err with
    | ERR_OK =>
        r ← verify_expected_column marked d expected col;
        match r with inr e => Ret e | inl colSet =>
          Ret (if decide (Z.of_nat (size colSet) < depth d) then ERR_INVALID_DMT else ERR_OK) end
    | e => Ret e end)).
  2:{ intros [] i col Hc; try done. unfold getNodeGroup, fds_verify.
      apply lookup_lt_Some in Hc as Hlt. rewrite bool_decide_eq_true_2 by lia. simpl.
      assert (vec_at (dmt_table d) (Z.of_nat i) = Ret col) as ->; [|done].
      apply vec_at_lookup. rewrite Nat2Z.id. split; [lia|done]. }
  rewrite (check_columns _ (column_expected marked expected) ERR_INVALID_DMT); [|done| |done].
  2:{ intros col Hc. rewrite Forall_forall in Hcols. destruct (Hcols _ Hc) as [Hdep _].
      unfold verify_expected_column. rewrite <-Hdep.
      rewrite (for_range_col _ (check_cell (cell_unexpected marked expected) ERR_INVALID_DMT)).
      2:{ intros [nodes|e] i x Hx; [|done]. rewrite (get_ok _ _ _ Hx). simpl.
          unfold cell_unexpected. case_decide; [rewrite bool_decide_eq_true_2 by done
            |rewrite bool_decide_eq_false_2 by done; done]. by destruct (marked x). }
      rewrite check_loop. unfold column_expected.
      destruct (existsb _ col); [done|]. simpl. f_equal.
      pose proof (check_distinct col) as Hcd. pose proof (list_to_set_size_le col).
      unfold getLength in *. case_decide; case_bool_decide as Hnd; try done; exfalso.
      - apply Hcd in Hnd. lia.
      - apply Hnd, Hcd. lia. }
  eexists; split; [done|]. setoid_rewrite <-column_expected_spec.
  destruct (forallb _ (dmt_table d)) eqn:E.
  - split; [by left|]. rewrite forallb_forall in E.
    setoid_rewrite list_elem_of_In. intuition lia.
  - split; [by right|]. rewrite <-not_true_iff_false, forallb_forall in E.
    setoid_rewrite list_elem_of_In. naive_solver.
Qed.

Lemma verify_expected_spec_witness :
  let d := Make (FDS_Table.make 1 2 5) [[11; 12]; [12; 13]] in
  ∃ e, verify_expected 1 (Z.eqb 13) {[11; 12]} d = Ret e ∧
    (e = ERR_OK ∨ e = ERR_INVALID_DMT) ∧
    (e = ERR_OK ↔
      depth d ≤ Z.of_nat (size ({[11; 12]} : gset Z)) + 1 ∧
      ∀ col, col ∈ dmt_table d →
        (∀ u, u ∈ col → (u ≠ 0 ∧ u ∈ ({[11; 12]} : gset Z)) ∨ (13 =? u) = true) ∧ NoDup col).
Proof.
  intros d. apply verify_expected_spec. split_and!; [|done|].
  - apply FDS_Table.make_well_shaped; unfold uint64_max; lia.
  - repeat constructor; unfold u64_range, uint64_max; lia.
Defined.

(** *** Lookup and update *)
Lemma wf_lookup d c : wf d → 0 ≤ c < columns d →
  ∃ col, dmt_table d !! Z.to_nat c = Some col ∧ vec_at (dmt_table d) c = Ret col ∧
    getLength col = depth d.
Proof.
  intros (Hs & Hlen & Hcols) Hc.
  destruct (lookup_lt_is_Some_2 (dmt_table d) (Z.to_nat c)) as [col Hcol]; [lia|].
  exists col. split_and!; [done|apply vec_at_lookup; split; [lia|done]|].
  by apply (Forall_lookup_1 _ _ _ _ Hcols Hcol).
Qed.

(** Writing the rows of [nodes] one by one replaces the column. *)
Lemma set_rows_spec (tbl : list column) c col (nodes : column) :
  tbl !! Z.to_nat c = Some col → 0 ≤ c → length col = length nodes →
  for_range (getLength nodes) (λ tbl i, x ← get nodes i; set_cell tbl c i x) tbl =
  Ret (<[Z.to_nat c := nodes]> tbl).
Proof.
  intros Hcol Hc Hlen. unfold for_range.
  assert (∀ n (done_ todo : column) (tbl : list column),
    nodes = done_ ++ todo → n = length todo →
    tbl !! Z.to_nat c = Some (done_ ++ drop (length done_) col) →
    foldM (λ tbl i, x ← get nodes i; set_cell tbl c i x) tbl
      (seqZ (Z.of_nat (length done_)) (Z.of_nat n)) = Ret (<[Z.to_nat c := nodes]> tbl)) as Hgen.
  { induction n as [|n IH]; intros dn todo tbl' Hn Hl Ht.
    - destruct todo; [|done]. rewrite app_nil_r in Hn. subst dn. simpl.
      rewrite drop_ge, app_nil_r in Ht by lia. by rewrite list_insert_id.
    - destruct todo as [|x todo]; [done|]. simpl in Hl. rewrite seqZ_cons by lia.
      rewrite foldM_cons, (get_ok _ (length dn) x), bind_Ret.
      2:{ rewrite Hn, lookup_app_r, Nat.sub_diag by lia. done. }
      assert (length col = length dn + S (length todo))%nat as Hlc.
      { rewrite Hlen, Hn, length_app. done. }
      assert (set_cell tbl' c (Z.of_nat (length dn)) x =
        Ret (<[Z.to_nat c := <[length dn := x]> (dn ++ drop (length dn) col)]> tbl')) as ->.
      { unfold set_cell. rewrite (proj2 (vec_at_lookup _ _ _) (conj Hc Ht)), bind_Ret.
        rewrite set_ok, bind_Ret, Nat2Z.id; [done|].
        unfold getLength. rewrite length_app, length_drop. lia. }
      rewrite bind_Ret.
      replace (Z.succ _) with (Z.of_nat (length (dn ++ [x]))) by (rewrite length_app; simpl; lia).
      replace (Z.pred _) with (Z.of_nat n) by lia.
      rewrite (IH (dn ++ [x]) todo).
      + by rewrite list_insert_insert_eq.
      + by rewrite <-app_assoc.
      + lia.
      + rewrite list_lookup_insert_eq by (by apply lookup_lt_Some in Ht).
        f_equal. rewrite insert_app_r_alt, Nat.sub_diag by lia.
        destruct (drop (length dn) col) as [|y rest] eqn:Hdr.
        { apply (f_equal length) in Hdr. rewrite length_drop in Hdr. simpl in Hdr. lia. }
        rewrite length_app. simpl. rewrite Nat.add_1_r, <-app_assoc. simpl. do 2 f_equal.
        by rewrite <-Nat.add_1_r, <-drop_drop, Hdr. }
  specialize (Hgen (length nodes) [] nodes tbl eq_refl eq_refl). simpl in Hgen.
  unfold getLength. by apply Hgen.
Qed.

(** [setNodeGroup] followed by lookup by volume: on a well-formed table
    it succeeds for an existing column and a group of [depth] uuids, keeps
    the table well formed, and afterwards a volume finds the new group
    exactly when it hashes to that column; every other volume keeps its
    group. *)
Theorem setNodeGroup_getNodeGroup (d : t) (c vol : Z) (nodes : column) :
  wf d → 0 ≤ c < columns d → getLength nodes = depth d → Forall u64_range nodes →
  ∃ d', setNodeGroup c nodes d = Ret d' ∧ wf d' ∧
    getNodeGroup_vol d' vol =
      (if decide (vol `mod` columns d = c) then Ret nodes else getNodeGroup_vol d vol).
Proof.
  intros Hwf Hc Hlen Hu. destruct (wf_lookup d c Hwf Hc) as (col & Hcol & _ & Hl).
  destruct Hwf as (Hs & Htl & Hcols).
  exists (set_table (<[Z.to_nat c := nodes]> (dmt_table d)) d).
  unfold setNodeGroup, fds_verify. rewrite bool_decide_eq_true_2, bind_Ret by done.
  rewrite <-Hlen at 1. rewrite (set_rows_spec _ c col) by (done || lia || (unfold getLength in *; lia)).
  split; [done|]. split.
  - split_and!; [done| |].
    + unfold columns in *. simpl. by rewrite length_insert.
    + simpl. apply Forall_insert; [done|]. by split.
  - unfold getNodeGroup_vol, fds_verify, columns. simpl. fold (columns d).
    rewrite bool_decide_eq_true_2, bind_Ret by lia.
    pose proof (Z.mod_pos_bound vol (columns d) ltac:(lia)) as Hm.
    case_decide as Hv.
    + apply vec_at_lookup. split; [lia|]. rewrite Hv. apply list_lookup_insert_eq. lia.
    + simpl. unfold vec_at. rewrite !decide_True by lia.
      rewrite list_lookup_insert_ne by lia. done.
Qed.

Lemma setNodeGroup_getNodeGroup_witness :
  let d := make 2 3 9 true in
  ∃ d', setNodeGroup 2 [7; 8; 9] d = Ret d' ∧ wf d' ∧
    getNodeGroup_vol d' 6 =
      (if decide (6 `mod` columns d = 2) then Ret [7; 8; 9] else getNodeGroup_vol d 6).
Proof.
  intros d. apply (setNodeGroup_getNodeGroup d 2 6 [7; 8; 9]).
  - split_and!; [|done|repeat constructor; discriminate].
    apply FDS_Table.make_well_shaped; unfold uint64_max; lia.
  - split; [discriminate|reflexivity].
  - reflexivity.
  - repeat constructor; discriminate.
Defined.

(** *** Serialization *)
Section RoundTrip.
Context `{P : TProtocol} `{!TProtocolLaws P}.

Definition enc_cell (u : Z) : list Z := (writeI64 u).1.
Definition enc_column (col : column) : list Z := concat (enc_cell <$> col).
Definition enc (d : t) : list Z :=
  (writeI64 (version d)).1 ++ (writeI32 (depth d)).1 ++ (writeI32 (width d)).1 ++
  concat (enc_column <$> dmt_table d).

(** The number of bytes of a serialized table. *)
Definition serialized_size (d : t) : Z := 16 + 8 * depth d * columns d.

Lemma write_spec d : wf d →
  ∃ c, write d = Ret (enc d, c) ∧ u32 c = u32 (serialized_size d).
Proof.
  intros (Hs & Hlen & Hcols). unfold write.
  set (b0 := out_app (out_app (out_app out_nil _) _) _).
  destruct (foldM_write (λ b col,
    for_range (depth d) (λ b i, uuid ← get col i; Ret (out_app b (writeI64 uuid))) b)
    enc_column (8 * depth d) (dmt_table d) b0) as (c & E & Hc).
  { intros b col Hin. rewrite Forall_forall in Hcols.
    destruct (Hcols _ Hin) as [Hd _]. rewrite <-Hd, for_range_get.
    unfold getLength. apply foldM_write. intros b' u _. eexists; split; [done|].
    unfold writeI64. rewrite count_writeI64. unfold u32. by rewrite Z.mod_mod by lia. }
  exists c. rewrite E. split.
  - unfold enc, b0, out_app, out_nil. simpl. by rewrite <-!app_assoc.
  - rewrite Hc, Hlen. unfold serialized_size, b0, out_app, out_nil, writeI64, writeI32. simpl.
    rewrite count_writeI64, !count_writeI32. done.
Qed.

(** The bytes of a table, and what is read from them *)
Lemma serialized_loads (d d0 : t) : wf d → serialized_size d < 2 ^ 32 →
  getSerialized (write d) [] = Ret (enc d, ERR_OK) ∧
  loadSerialized (read d0) (enc d) = Ret (Some (Make
    (FDS_Table.Make (depth d) (width d) (columns d) (version d)
      (FDS_Table.outstanding_io (base d0)) (FDS_Table.cb (base d0))) (dmt_table d)), ERR_OK).
Proof.
  intros Hwf Hsz. pose proof Hwf as ((Hdep & Hwid & Hcolumns & Hver & _) & Hlen & Hcols).
  pose proof (Z.pow_pos_nonneg 2 (width d) ltac:(lia) ltac:(apply Hwid)) as Hpos.
  assert (0 < columns d < 2 ^ 32) as Hcr.
  { unfold columns. rewrite Hcolumns. split; [done|]. apply Z.pow_lt_mono_r; unfold width in *; lia. }
  assert (0 ≤ depth d) by apply Hdep.
  assert (0 < serialized_size d) by (unfold serialized_size; nia).
  assert (∀ c, u32 c = u32 (serialized_size d) → c ≠ 0) as Hnz.
  { intros c Hc ->. rewrite (u32_small (serialized_size d)) in Hc by lia.
    unfold u32 in Hc. rewrite Z.mod_0_l in Hc; lia. }
  destruct (write_spec d Hwf) as (c & E & Hc). split.
  { unfold getSerialized. rewrite E. simpl. by rewrite decide_False by auto. }
  unfold loadSerialized, read, enc.
  rewrite (Rd_bind_Ret _ _ _ _ _ (readI64_write _ _ _ Hver)).
  rewrite (Rd_bind_Ret _ _ _ _ _ (readI32_write _ _ _ Hdep)).
  rewrite (Rd_bind_Ret _ _ _ _ _ (readI32_write (width d) _ _ ltac:(unfold width; lia))).
  assert (u32 (2 ^ width d) = columns d) as ->.
  { rewrite u32_small; [done|]. unfold width, columns in *. lia. }
  rewrite <-Hlen, Nat2Z.id, <-(app_nil_r (concat _)).
  edestruct (read_times_spec (read_times (Z.to_nat (depth d)) readI64) enc_column (8 * depth d)
    (dmt_table d) []) as (c' & E' & Hc').
  { intros col rest b Hin. rewrite Forall_forall in Hcols.
    destruct (Hcols _ Hin) as [Hd Hu]. rewrite <-Hd. unfold getLength. rewrite Nat2Z.id.
    apply (read_times_spec readI64 enc_cell 8). intros u rest' b' Hu'.
    rewrite Forall_forall in Hu. eexists; split; [apply readI64_write, Hu; done|].
    unfold u32. by rewrite Z.mod_mod by lia. }
  rewrite (Rd_bind_Ret _ _ _ _ _ E'). simpl. rewrite decide_False; [done|].
  apply Hnz. rewrite Hc', Hlen. unfold serialized_size. by rewrite !u32_add_l.
Qed.

(** A DMT survives serialization: for a well-formed table of less than
    [2^32] serialized bytes, [getSerialized] succeeds and [loadSerialized]
    of its output into any table object succeeds and yields the same
    version, shape and columns, keeping that object's own reference count
    and callback. *)
Theorem dmt_serialization_roundtrip (d d0 : t) :
  wf d → serialized_size d < 2 ^ 32 →
  ∃ data, getSerialized (write d) [] = Ret (data, ERR_OK) ∧
    loadSerialized (read d0) data = Ret (Some (Make
      (FDS_Table.Make (depth d) (width d) (columns d) (version d)
        (FDS_Table.outstanding_io (base d0)) (FDS_Table.cb (base d0))) (dmt_table d)), ERR_OK).
Proof. intros Hwf Hsz. exists (enc d). by apply serialized_loads. Qed.
End RoundTrip.

Lemma dmt_serialization_roundtrip_witness :
  let d := Make (FDS_Table.make 1 2 5) [[11; 12]; [12; uint64_max]] in
  ∃ data, getSerialized (write d) [] = Ret (data, ERR_OK) ∧
    loadSerialized (read (make 0 0 0 false)) data = Ret (Some d, ERR_OK).
Proof.
  intros d. apply (dmt_serialization_roundtrip d (make 0 0 0 false)); [|reflexivity].
  split_and!; [|done|].
  - apply FDS_Table.make_well_shaped; unfold uint64_max; lia.
  - repeat constructor; unfold u64_range, uint64_max; lia.
Defined.

End DMT.
