(* ===== verification/DmtManager.v ===== *)
(** * The DMT manager

    Models [DMTManager] of src/source/lib/misc/dmt.cpp: the versions of the
    DMT a service holds, which of them is committed and which is the
    target, the eviction of old versions and the reference counting of
    requests against the committed version.

    The map of versions holds shared pointers; an entry [None] is a null
    pointer, which [operator[]] inserts for an absent key. *)

From S2P Require Import Prelude PlacementTable Serialize Dmt.
Open Scope Z_scope.

Definition DMT_VER_INVALID : Z := 0.

Inductive DMTType : Set := DMT_COMMITTED | DMT_TARGET | DMT_OLD.

Module DMTManager.

Record t := Make {
  max_dmts : Z;
  committed_version : Z;
  target_version : Z;
  dmt_map : gmap Z (option DMT.t);
}.

(** [DMTManager(history_dmts)] *)
Definition make (history_dmts : Z) : t :=
  Make (u32 (history_dmts + 2)) DMT_VER_INVALID DMT_VER_INVALID ∅.

Definition set_base (f : FDS_Table.t → FDS_Table.t) (d : DMT.t) : DMT.t :=
  DMT.Make (f (DMT.base d)) (DMT.dmt_table d).

(** [dmt_map[v]] as an expression: the pointer, and the map with a null
    pointer inserted when the key was absent. *)
Definition map_index (m : gmap Z (option DMT.t)) (v : Z) : option DMT.t * gmap Z (option DMT.t) :=
  match m !! v with
  | Some p => (p, m)
  | None => (None, <[v := None]> m)
  end.

(** [it->second->..] *)
Definition deref {A} (p : option A) : res A :=
  match p with Some a => Ret a | None => Fault NullDeref end.

(** Removing the version with the smallest number when there are too many. *)
Definition evict (m : t) : res t :=
  if decide (Z.of_nat (size (dmt_map m)) > max_dmts m) then
    match map_keys (dmt_map m) with
    | [] => Fault NullDeref
    | first :: _ =>
        d ← deref (default None (dmt_map m !! first));
        let del_version := DMT.getVersion d in
        _ ← fds_verify (bool_decide (del_version ≠ committed_version m));
        _ ← fds_verify (bool_decide (del_version ≠ target_version m));
        Ret (Make (max_dmts m) (committed_version m) (target_version m)
               (delete first (dmt_map m)))
    end
  else Ret m.

(** Asking the previously committed version to call back when its
    outstanding requests are done. *)
Definition notify_old (old_version : Z) (cb : option Z) (dm : gmap Z (option DMT.t))
    : gmap Z (option DMT.t) * fds_errno :=
  if decide (DMT_VER_INVALID ≠ old_version) then
    let '(old_ptr, dm) := map_index dm old_version in
    match old_ptr, cb with
    | Some old, Some _ =>
        let '(b, err) := FDS_Table.setCallback cb (DMT.base old) in
        (<[old_version := Some (set_base (λ _, b) old)]> dm, err)
    | _, _ => (dm, ERR_OK)
    end
  else (dm, ERR_OK).

Definition add (dmt : DMT.t) (dmt_type : DMTType) (cb : option Z) (m : t) : res (t * fds_errno) :=
  let add_version := DMT.getVersion dmt in
  match dmt_map m !! add_version with
  | Some _ => Ret (m, ERR_DUPLICATE)
  | None =>
      _ ← fds_verify (bool_decide (committed_version m ≠ add_version));
      _ ← fds_verify (bool_decide (target_version m ≠ add_version));
      let old_version := committed_version m in
      vs ← match dmt_type with
           | DMT_COMMITTED => Ret (add_version, target_version m)
           | DMT_TARGET => Ret (committed_version m, add_version)
           | DMT_OLD => Fault VerifyFailed
           end;
      let '(committed, target) := vs : Z * Z in
      let dm := <[add_version := Some dmt]> (dmt_map m) in
      let '(dm, err) := notify_old old_version cb dm in
      m' ← evict (Make (max_dmts m) committed target dm);
      Ret (m', err)
  end.

Definition addSerializedDMT `{TProtocol} (data : list Z) (cb : option Z) (dmt_type : DMTType)
    (m : t) : res (t * fds_errno) :=
  r ← loadSerialized (DMT.read (DMT.make 0 0 0 false)) data;
  match r with
  | (Some dmt, ERR_OK) => add dmt dmt_type cb m
  | (_, err) => Ret (m, err)
  end.

(** [commitDMT(rmTarget)] *)
Definition commitDMT (rmTarget : bool) (m : t) : res (t * fds_errno) :=
  if decide (target_version m ≠ DMT_VER_INVALID) then
    _ ← fds_verify (bool_decide (is_Some (dmt_map m !! target_version m)));
    Ret (Make (max_dmts m) (target_version m)
           (if rmTarget then DMT_VER_INVALID else target_version m) (dmt_map m), ERR_OK)
  else Ret (m, ERR_NOT_FOUND).

(** [commitDMT(version, rmTarget)] *)
Definition commitDMT_version (version : Z) (rmTarget : bool) (m : t) : res (t * fds_errno) :=
  if decide (version ≠ DMT_VER_INVALID) then
    if decide (is_Some (dmt_map m !! version)) then
      Ret (Make (max_dmts m) version
             (if rmTarget then DMT_VER_INVALID else target_version m) (dmt_map m), ERR_OK)
    else
      _ ← fds_verify (bool_decide (size (dmt_map m) = 0%nat));
      Ret (Make (max_dmts m) DMT_VER_INVALID DMT_VER_INVALID (dmt_map m), ERR_NOT_FOUND)
  else Ret (Make (max_dmts m) DMT_VER_INVALID DMT_VER_INVALID (dmt_map m), ERR_OK).

Definition unsetTarget (rmTarget : bool) (m : t) : res (t * fds_errno) :=
  if decide (target_version m ≠ DMT_VER_INVALID) then
    _ ← fds_verify (bool_decide (is_Some (dmt_map m !! target_version m)));
    Ret (Make (max_dmts m) (committed_version m) DMT_VER_INVALID
           (if rmTarget then delete (target_version m) (dmt_map m) else dmt_map m), ERR_OK)
  else Ret (m, ERR_NOT_FOUND).

Definition hasCommittedDMT (m : t) : bool := bool_decide (committed_version m ≠ DMT_VER_INVALID).
Definition hasTargetDMT (m : t) : bool := bool_decide (target_version m ≠ DMT_VER_INVALID).

(** The committed table, as the request path finds it. *)
Definition find_committed (m : t) : res DMT.t :=
  if decide (committed_version m = DMT_VER_INVALID) then Fault (FdsException ERR_INVALID_DMT) else
  match dmt_map m !! committed_version m with
  | None => Fault VerifyFailed
  | Some p => deref p
  end.

Definition getAndLockCurrentVersion (m : t) : res (t * Z) :=
  d ← find_committed m;
  Ret (Make (max_dmts m) (committed_version m) (target_version m)
         (<[committed_version m := Some (set_base (λ b, (FDS_Table.incRefcnt b).1) d)]> (dmt_map m)),
       committed_version m).

(** [releaseVersion(version)]: the callbacks called are returned too. *)
Definition releaseVersion (version : Z) (m : t) : res (t * list (Z * fds_errno)) :=
  d ← find_committed m;
  let '(b, _, calls) := FDS_Table.decRefcnt (DMT.base d) in
  Ret (Make (max_dmts m) (committed_version m) (target_version m)
         (<[committed_version m := Some (set_base (λ _, b) d)]> (dmt_map m)), calls).

Definition getCommittedNodeGroup (m : t) (vol_id : Z) : res (list Z) :=
  d ← find_committed m; DMT.getNodeGroup_vol d vol_id.

Definition getVersionNodeGroup (m : t) (volume_id version : Z) : res (list Z) :=
  _ ← fds_verify (bool_decide (version ≠ DMT_VER_INVALID));
  match dmt_map m !! version with
  | None => Fault VerifyFailed
  | Some p => d ← deref p; DMT.getNodeGroup_vol d volume_id
  end.

Definition getTargetNodeGroup (m : t) (vol_id : Z) : res (list Z) :=
  _ ← fds_verify (bool_decide (target_version m ≠ DMT_VER_INVALID));
  match dmt_map m !! target_version m with
  | None => Fault VerifyFailed
  | Some p => d ← deref p; DMT.getNodeGroup_vol d vol_id
  end.

(** [getDMT(version)]: a null pointer when the version is not stored. *)
Definition getDMT_version (m : t) (version : Z) : option DMT.t :=
  default None (dmt_map m !! version).

(** [getDMT(dmt_type)] *)
Definition getDMT (m : t) (dmt_type : DMTType) : res (option DMT.t) :=
  ver ← match dmt_type with
        | DMT_COMMITTED => Ret (committed_version m)
        | DMT_TARGET => Ret (target_version m)
        | DMT_OLD => Fault VerifyFailed
        end;
  match dmt_map m !! ver with
  | None => Fault VerifyFailed
  | Some p => Ret p
  end.

(** ** Reachable states *)
Inductive step : t → t → Prop :=
| step_add dmt ty cb m m' e :
    DMT.getVersion dmt ≠ DMT_VER_INVALID → add dmt ty cb m = Ret (m', e) → step m m'
| step_commit rm m m' e : commitDMT rm m = Ret (m', e) → step m m'
| step_commit_version v rm m m' e : commitDMT_version v rm m = Ret (m', e) → step m m'
| step_unset rm m m' e :
    (rm = true → target_version m ≠ committed_version m) →
    unsetTarget rm m = Ret (m', e) → step m m'
| step_lock m m' v : getAndLockCurrentVersion m = Ret (m', v) → step m m'
| step_release v m m' cs : releaseVersion v m = Ret (m', cs) → step m m'.

(** Every stored pointer is a table of its key's version, the committed and
    the target version are stored when they are valid, and the history is
    bounded. *)
Record inv (m : t) : Prop := {
  inv_entries v p : dmt_map m !! v = Some p →
    ∃ d, p = Some d ∧ DMT.version d = v ∧ v ≠ DMT_VER_INVALID;
  inv_committed : committed_version m ≠ DMT_VER_INVALID →
    is_Some (dmt_map m !! committed_version m);
  inv_target : target_version m ≠ DMT_VER_INVALID →
    is_Some (dmt_map m !! target_version m);
  inv_bound : Z.of_nat (size (dmt_map m)) ≤ max_dmts m;
}.

(** ** Preservation of the invariant *)
Definition entries_ok (dm : gmap Z (option DMT.t)) : Prop :=
  ∀ v p, dm !! v = Some p → ∃ d, p = Some d ∧ DMT.version d = v ∧ v ≠ DMT_VER_INVALID.

Lemma entries_ok_insert dm d :
  entries_ok dm → DMT.version d ≠ DMT_VER_INVALID → entries_ok (<[DMT.version d := Some d]> dm).
Proof.
  intros H Hv v p. destruct (decide (v = DMT.version d)) as [->|Hne].
  - rewrite lookup_insert_eq. intros [= <-]. eauto.
  - rewrite lookup_insert_ne by done. apply H.
Qed.

Lemma entries_ok_delete dm v : entries_ok dm → entries_ok (delete v dm).
Proof. intros H v' p Hp. apply lookup_delete_Some in Hp as [_ Hp]. by apply H. Qed.

(** Changing the reference count or the callback of a stored table. *)
Lemma entries_ok_update dm v d f :
  entries_ok dm → dm !! v = Some (Some d) →
  (∀ b, FDS_Table.version (f b) = FDS_Table.version b) →
  entries_ok (<[v := Some (set_base f d)]> dm).
Proof.
  intros H Hd Hf. destruct (H _ _ Hd) as (d' & [= <-] & Hv & Hn).
  assert (v = DMT.version (set_base f d)) as Hv'.
  { unfold set_base, DMT.version. simpl. by rewrite Hf. }
  rewrite Hv'. apply entries_ok_insert; [done|]. by rewrite <-Hv'.
Qed.

Lemma setCallback_version cb b :
  FDS_Table.version (FDS_Table.setCallback cb b).1 = FDS_Table.version b.
Proof. unfold FDS_Table.setCallback. by case_decide. Qed.

(** The state between the insertion and the eviction of [add]. *)
Record pre_inv (m : t) : Prop := {
  pre_entries : entries_ok (dmt_map m);
  pre_committed : committed_version m ≠ DMT_VER_INVALID →
    is_Some (dmt_map m !! committed_version m);
  pre_target : target_version m ≠ DMT_VER_INVALID →
    is_Some (dmt_map m !! target_version m);
  pre_bound : Z.of_nat (size (dmt_map m)) ≤ max_dmts m + 1;
}.

Lemma map_keys_least {V} (m : gmap Z V) k ks :
  map_keys m = k :: ks → is_Some (m !! k) ∧ ∀ k', is_Some (m !! k') → k ≤ k'.
Proof.
  intros E. split.
  - apply elem_of_map_keys. rewrite E. set_solver.
  - intros k' Hk'. apply elem_of_map_keys in Hk'. unfold map_keys in *.
    pose proof (Sorted_set_iter (dom m)) as Hs. rewrite E in *.
    apply elem_of_cons in Hk' as [->|Hk']; [lia|].
    apply Sorted_StronglySorted in Hs; [|intros ???; lia].
    inversion Hs as [|?? _ Hall]; subst. rewrite Forall_forall in Hall. by apply Hall.
Qed.

Lemma evict_inv m m' : pre_inv m → evict m = Ret m' → inv m'.
Proof.
  intros [He Hc Ht Hb] E. unfold evict in E. case_decide as Hs.
  2:{ res_inv. split; [done..|lia]. }
  destruct (map_keys (dmt_map m)) as [|first ks] eqn:Ek; [done|].
  destruct (map_keys_least _ _ _ Ek) as [[p Hp] _].
  rewrite Hp in E. destruct (He _ _ Hp) as (d & -> & Hv & Hn). simpl in E.
  res_inv. unfold DMT.getVersion in *. split; simpl.
  - by apply entries_ok_delete.
  - intros H. rewrite lookup_delete_ne by congruence. auto.
  - intros H. rewrite lookup_delete_ne by congruence. auto.
  - assert (size (dmt_map m) ≠ 0%nat) by (eapply map_size_ne_0_lookup_2; eauto).
    rewrite map_size_delete, Hp. lia.
Qed.

Lemma inv_pre m : inv m → entries_ok (dmt_map m).
Proof. intros [H _ _ _]. exact H. Qed.

Lemma notify_old_spec old cb dm :
  entries_ok dm → (old ≠ DMT_VER_INVALID → is_Some (dm !! old)) →
  entries_ok (notify_old old cb dm).1 ∧ dom (notify_old old cb dm).1 = dom dm.
Proof.
  intros He Hold. unfold notify_old. case_decide as Hne; [|done].
  destruct (Hold (not_eq_sym Hne)) as [p Hp]. destruct (He _ _ Hp) as (d & -> & Hv & Hn).
  unfold map_index. rewrite Hp. destruct cb as [c|]; [|done].
  pose proof (setCallback_version (Some c) (DMT.base d)) as Hvb.
  destruct (FDS_Table.setCallback (Some c) (DMT.base d)) as [b err]. simpl in *. split.
  - assert (old = DMT.version (set_base (λ _, b) d)) as Hcv
      by (rewrite <-Hv; unfold DMT.version; simpl; congruence).
    rewrite Hcv. apply entries_ok_insert; [done|]. by rewrite <-Hcv.
  - rewrite dom_insert_L. apply elem_of_dom_2 in Hp. set_solver.
Qed.

(** The versions after an [add] of version [v]. *)
Definition versions_after (ty : DMTType) (v : Z) (m : t) : Z * Z :=
  match ty with
  | DMT_COMMITTED => (v, target_version m)
  | _ => (committed_version m, v)
  end.

(** [add] of a fresh version up to the eviction. *)
Lemma add_fresh dmt ty cb m :
  inv m → DMT.version dmt ≠ DMT_VER_INVALID → dmt_map m !! DMT.version dmt = None →
  ty ≠ DMT_OLD →
  ∃ dm e, (let '(c, t') := versions_after ty (DMT.version dmt) m in
    add dmt ty cb m = (m' ← evict (Make (max_dmts m) c t' dm); Ret (m', e)) ∧
    pre_inv (Make (max_dmts m) c t' dm)) ∧ dom dm = {[DMT.version dmt]} ∪ dom (dmt_map m).
Proof.
  intros [He Hc Ht Hb] Hv Hnew Hty. unfold add, DMT.getVersion. rewrite Hnew.
  assert (committed_version m ≠ DMT.version dmt) as Hnc.
  { intros Heq. rewrite Heq, Hnew in Hc. by destruct Hc. }
  assert (target_version m ≠ DMT.version dmt) as Hnt.
  { intros Heq. rewrite Heq, Hnew in Ht. by destruct Ht. }
  rewrite !fds_verify_true, !bind_Ret by done.
  set (dm0 := <[DMT.version dmt := Some dmt]> (dmt_map m)).
  assert (entries_ok dm0) as He0 by (by apply entries_ok_insert).
  assert (∀ v, is_Some (dmt_map m !! v) → is_Some (dm0 !! v)) as Hmono.
  { intros v [x Hx]. unfold dm0. rewrite lookup_insert_ne; [eauto|congruence]. }
  assert (is_Some (dm0 !! DMT.version dmt)) as Hself by (unfold dm0; rewrite lookup_insert_eq; eauto).
  destruct (notify_old_spec (committed_version m) cb dm0) as [He1 Hdom]; [done|auto|].
  assert (dom dm0 = {[DMT.version dmt]} ∪ dom (dmt_map m)) as Hd0 by apply dom_insert_L.
  assert (Z.of_nat (size dm0) ≤ max_dmts m + 1) as Hb0.
  { unfold dm0. rewrite map_size_insert_None by done. lia. }
  destruct (notify_old (committed_version m) cb dm0) as [dm e]. simpl in *.
  exists dm, e. split; [|congruence].
  assert (size dm = size dm0) as Hsz by (by rewrite <-!size_dom, Hdom).
  assert (∀ v, is_Some (dm0 !! v) → is_Some (dm !! v)) as Hmono1.
  { intros v. by rewrite <-!elem_of_dom, Hdom. }
  destruct ty; [| |done]; (split; [done|]); split; simpl; auto; lia.
Qed.

Lemma add_inv dmt ty cb m m' e :
  DMT.getVersion dmt ≠ DMT_VER_INVALID → inv m → add dmt ty cb m = Ret (m', e) →
  inv m' ∧ max_dmts m' = max_dmts m.
Proof.
  intros Hv Hinv Hadd.
  destruct (dmt_map m !! DMT.version dmt) eqn:Hnew.
  { unfold add, DMT.getVersion in Hadd. rewrite Hnew in Hadd. by res_inv. }
  assert (ty ≠ DMT_OLD) as Hty.
  { intros ->. unfold add, DMT.getVersion in Hadd. rewrite Hnew in Hadd.
    apply bind_verify in Hadd as [_ Hadd]. by apply bind_verify in Hadd as [_ Hadd]. }
  destruct (add_fresh dmt ty cb m Hinv Hv Hnew Hty) as (dm & e' & Hadd' & _).
  destruct (versions_after ty (DMT.version dmt) m) as [c t']. destruct Hadd' as [Heq Hpre].
  rewrite Heq in Hadd. apply bind_Ret_inv in Hadd as (m1 & Hev & [= -> <-]).
  split; [by eapply evict_inv|]. unfold evict in Hev. case_decide; [|by res_inv].
  destruct (map_keys _); [done|]. by res_inv.
Qed.

Lemma find_committed_inv m d : find_committed m = Ret d →
  dmt_map m !! committed_version m = Some (Some d).
Proof.
  unfold find_committed. case_decide; [done|].
  destruct (dmt_map m !! committed_version m) as [[d'|]|]; naive_solver.
Qed.

(** Updating the committed table in place keeps the invariant. *)
Lemma update_committed_inv m d f :
  inv m → find_committed m = Ret d →
  (∀ b, FDS_Table.version (f b) = FDS_Table.version b) →
  inv (Make (max_dmts m) (committed_version m) (target_version m)
        (<[committed_version m := Some (set_base f d)]> (dmt_map m))).
Proof.
  intros Hinv Hd Hf. apply find_committed_inv in Hd. pose proof Hinv as [He Hc Ht Hb].
  split; simpl.
  - by apply entries_ok_update.
  - intros _. rewrite lookup_insert_eq. eauto.
  - intros H. destruct (decide (target_version m = committed_version m)) as [->|].
    + rewrite lookup_insert_eq. eauto.
    + rewrite lookup_insert_ne by congruence. auto.
  - rewrite map_size_insert, Hd. done.
Qed.

Lemma step_inv m m' : step m m' → inv m → inv m' ∧ max_dmts m' = max_dmts m.
Proof.
  intros Hs Hinv. pose proof Hinv as [He Hc Ht Hb].
  destruct Hs as [dmt ty cb m m' e Hv H|rm m m' e H|v rm m m' e H|rm m m' e Hg H|m m' v H|v m m' cs H].
  - by eapply add_inv.
  - unfold commitDMT in H. case_decide; [|by res_inv].
    apply bind_verify in H as [Hi H]. res_inv. split; [|done]. split; simpl; auto; by destruct rm; auto.

  - unfold commitDMT_version in H. case_decide; [|by res_inv; split; [split; simpl|]].
    case_decide as Hi.
    + res_inv. split; [|done]. split; simpl; auto; by destruct rm; auto.
    + apply bind_verify in H as [Hz H]. res_inv. split; [|done]. split; simpl; done.
  - unfold unsetTarget in H. case_decide as Htv; [|by res_inv].
    apply bind_verify in H as [Hi H]. res_inv. split; [|done]. destruct rm; split; simpl; auto.
    + by apply entries_ok_delete.
    + intros. rewrite lookup_delete_ne by auto. auto.
    + done.
    + destruct Hi as [x Hx]. rewrite map_size_delete, Hx. lia.
    + done.
  - unfold getAndLockCurrentVersion in H. apply bind_Ret_inv in H as (d & Hd & [= <- <-]).
    split; [|done]. by apply update_committed_inv.
  - unfold releaseVersion in H. apply bind_Ret_inv in H as (d & Hd & H).
    pose proof (FDS_Table.decRefcnt_version (DMT.base d)) as Hvb.
    pose proof (update_committed_inv m d (λ b, (FDS_Table.decRefcnt b).1.1) Hinv Hd
      FDS_Table.decRefcnt_version) as Hu.
    unfold set_base in *. destruct (FDS_Table.decRefcnt (DMT.base d)) as [[b r] calls].
    simpl in *. by res_inv.
Qed.

(** C17. Safety of the DMT manager.  In every state reachable by adding
    versions, committing, unsetting the target (removing it only when it is
    not also the committed version), and locking and releasing the
    committed version: at most [history_dmts + 2] versions are stored,
    every stored pointer is a table of the version it is stored under, and
    whenever a committed (target) version is set the corresponding table is
    stored, so [getDMT] never fails. *)
Theorem dmt_manager_safe (history : Z) (m : t) :
  0 ≤ history → history + 2 < 2 ^ 32 → rtc step (make history) m →
  Z.of_nat (size (dmt_map m)) ≤ history + 2 ∧
  (∀ v p, dmt_map m !! v = Some p → ∃ d, p = Some d ∧ DMT.getVersion d = v) ∧
  (hasCommittedDMT m = true → ∃ d, getDMT m DMT_COMMITTED = Ret (Some d) ∧
    DMT.getVersion d = committed_version m) ∧
  (hasTargetDMT m = true → ∃ d, getDMT m DMT_TARGET = Ret (Some d) ∧
    DMT.getVersion d = target_version m).
Proof.
  intros Hh0 Hh Hreach.
  assert (inv m ∧ max_dmts m = history + 2) as [[He Hc Ht Hb] Hmax].
  { revert m Hreach. apply (rtc_ind_r (λ m, inv m ∧ max_dmts m = history + 2)).
    - unfold make. rewrite u32_small by lia. split; [|done]. split; simpl; try done.
      rewrite map_size_empty. lia.
    - intros m1 m2 _ Hst [Hi Hm]. destruct (step_inv _ _ Hst Hi). split; [done|congruence]. }
  rewrite Hmax in Hb. split_and!; [done| | |].
  - intros v p Hp. destruct (He _ _ Hp) as (d & -> & ? & ?). eauto.
  - unfold hasCommittedDMT. intros [p Hp]%bool_decide_eq_true%Hc.
    destruct (He _ _ Hp) as (d & -> & ? & ?). exists d. split; [|done].
    unfold getDMT. by rewrite bind_Ret, Hp.
  - unfold hasTargetDMT. intros [p Hp]%bool_decide_eq_true%Ht.
    destruct (He _ _ Hp) as (d & -> & ? & ?). exists d. split; [|done].
    unfold getDMT. by rewrite bind_Ret, Hp.
Qed.

(** Two small tables for the concrete scenarios. *)
Definition demo (v : Z) : DMT.t := DMT.make 1 2 v true.

Lemma dmt_manager_safe_witness :
  let m := Make 2 0 7 {[7 := Some (demo 7)]} in
  rtc step (make 0) m ∧ ∃ d, getDMT m DMT_TARGET = Ret (Some d) ∧ DMT.getVersion d = 7.
Proof.
  intros m.
  assert (rtc step (make 0) m) as Hreach.
  { eapply rtc_once, (step_add (demo 7) DMT_TARGET None _ _ ERR_OK); [done|]. by vm_compute. }
  split; [done|].
  assert (0 ≤ 0) as H1 by lia. assert (0 + 2 < 2 ^ 32) as H2 by lia.
  exact (proj2 (proj2 (proj2 (dmt_manager_safe 0 m H1 H2 Hreach))) eq_refl).
Defined.

Lemma evict_spec m oldest :
  pre_inv m → oldest ∈ dom (dmt_map m) → (∀ v, v ∈ dom (dmt_map m) → oldest ≤ v) →
  evict m =
    if decide (Z.of_nat (size (dmt_map m)) > max_dmts m) then
      if decide (oldest = committed_version m ∨ oldest = target_version m)
      then Fault VerifyFailed
      else Ret (Make (max_dmts m) (committed_version m) (target_version m)
                  (delete oldest (dmt_map m)))
    else Ret m.
Proof.
  intros [He _ _ _] Hin Hle. unfold evict. case_decide; [|done].
  destruct (map_keys (dmt_map m)) as [|k ks] eqn:Hks.
  { apply elem_of_dom, elem_of_map_keys in Hin. rewrite Hks in Hin. by apply elem_of_nil in Hin. }
  assert (k = oldest) as ->.
  { destruct (map_keys_least _ _ _ Hks) as [Hk Hleast].
    apply elem_of_dom in Hk. apply elem_of_dom in Hin.
    specialize (Hle k Hk). specialize (Hleast oldest Hin). lia. }
  apply elem_of_dom in Hin as [p Hp]. destruct (He _ _ Hp) as (d & -> & Hv & _).
  rewrite Hp. simpl. unfold DMT.getVersion. rewrite Hv.
  unfold fds_verify. repeat case_bool_decide; case_decide; try done; naive_solver.
Qed.

(** What [DMTManager::add] does with a fresh version, given the least
    version number [oldest] among the stored ones and the new one: it fails
    the assertion exactly when the history is full and [oldest] is the
    committed or the target version after the addition; otherwise the new
    version is recorded as committed or target, and the stored versions are
    the old ones and the new one, less [oldest] when the history was full. *)
Theorem add_outcome dmt ty cb m oldest :
  inv m → DMT.getVersion dmt ≠ DMT_VER_INVALID → dmt_map m !! DMT.getVersion dmt = None →
  ty ≠ DMT_OLD →
  let stored := {[DMT.getVersion dmt]} ∪ dom (dmt_map m) in
  let ct := versions_after ty (DMT.getVersion dmt) m in
  let full := Z.of_nat (size (dmt_map m)) = max_dmts m in
  oldest ∈ stored → (∀ v, v ∈ stored → oldest ≤ v) →
  (full ∧ (oldest = ct.1 ∨ oldest = ct.2) → add dmt ty cb m = Fault VerifyFailed) ∧
  (¬ (full ∧ (oldest = ct.1 ∨ oldest = ct.2)) → ∃ m' e,
    add dmt ty cb m = Ret (m', e) ∧
    committed_version m' = ct.1 ∧ target_version m' = ct.2 ∧
    dom (dmt_map m') = if decide full then stored ∖ {[oldest]} else stored).
Proof.
  intros Hinv Hv Hnew Hty stored ct full Hin Hle. unfold DMT.getVersion in *.
  destruct (add_fresh dmt ty cb m Hinv Hv Hnew Hty) as (dm & e & Hadd & Hdom).
  fold ct in Hadd. destruct ct as [c t']. destruct Hadd as [-> Hpre]. fold stored in Hdom.
  assert (size dm = S (size (dmt_map m))) as Hsz.
  { rewrite <-!size_dom, Hdom. unfold stored. rewrite size_union, size_singleton; [lia|].
    apply not_elem_of_dom in Hnew. set_solver. }
  rewrite (evict_spec _ oldest) by (simpl; rewrite ?Hdom; done). simpl.
  pose proof (inv_bound _ Hinv) as Hb.
  destruct (decide full) as [Hf|Hf].
  - rewrite decide_True by (unfold full in Hf; lia). split.
    + intros [_ Ho]. by rewrite decide_True.
    + intros Hno. rewrite decide_False by naive_solver. rewrite bind_Ret.
      eexists _, _. split_and!; [done..|]. simpl. by rewrite dom_delete_L, Hdom.
  - rewrite decide_False by (unfold full in Hf; lia). rewrite bind_Ret.
    split; [naive_solver|]. intros _. eexists _, _. split_and!; done.
Qed.

(** Version 2 is committed, version 1 is history, and version 3 becomes the
    target: the history is full and version 1 is dropped. *)
Lemma add_outcome_witness :
  let m := Make 2 2 0 {[1 := Some (demo 1); 2 := Some (demo 2)]} in
  ∃ m' e, add (demo 3) DMT_TARGET None m = Ret (m', e) ∧ dom (dmt_map m') = {[2; 3]}.
Proof.
  intros m.
  assert (inv m) as Hinv.
  { split; simpl; try done.
    intros v p [[<- <-]|[? [<- <-]%lookup_singleton_Some]]%lookup_insert_Some; by eexists. }
  assert (dom (dmt_map m) = {[1; 2]}) as Hd by (apply leibniz_equiv; by vm_compute).
  destruct (add_outcome (demo 3) DMT_TARGET None m 1) as [_ [m' [e (Ha & _ & _ & Hdom)]]].
  1-4: done.
  - rewrite Hd. set_solver.
  - rewrite Hd. intros v Hin. change (DMT.getVersion (demo 3)) with 3 in Hin.
    assert (v = 3 ∨ v = 1 ∨ v = 2) by set_solver. lia.
  - intros [_ [H|H]]; by vm_compute in H.
  - exists m', e. split; [exact Ha|]. rewrite Hdom, decide_True by done. rewrite Hd.
    change (DMT.getVersion (demo 3)) with 3. set_solver.
Defined.

(** [releaseVersion] decrements the committed table, whichever version
    was locked.  When a request locks the committed version [v1], and a new
    version [v2] is committed with a drain callback before the request
    releases [v1], then the request's release leaves [v1]'s count at one
    with its callback still waiting, calls nothing, and takes the count of
    [v2] below zero, to [2^64 - 1]. *)
Theorem release_after_commit m d1 d2 c m1 m2 m3 e locked calls :
  inv m → find_committed m = Ret d1 →
  FDS_Table.outstanding_io (DMT.base d1) = 0 → FDS_Table.outstanding_io (DMT.base d2) = 0 →
  FDS_Table.cb (DMT.base d2) = None →
  DMT.getVersion d2 ≠ DMT_VER_INVALID → dmt_map m !! DMT.getVersion d2 = None →
  Z.of_nat (size (dmt_map m)) < max_dmts m →
  getAndLockCurrentVersion m = Ret (m1, locked) →
  add d2 DMT_COMMITTED (Some c) m1 = Ret (m2, e) →
  releaseVersion locked m2 = Ret (m3, calls) →
  e = ERR_IO_PENDING ∧ calls = [] ∧
  (∃ d1', getDMT_version m3 locked = Some d1' ∧
    FDS_Table.outstanding_io (DMT.base d1') = 1 ∧ FDS_Table.cb (DMT.base d1') = Some c) ∧
  (∃ d2', getDMT_version m3 (DMT.getVersion d2) = Some d2' ∧
    FDS_Table.outstanding_io (DMT.base d2') = 2 ^ 64 - 1).
Proof.
  intros Hinv Hd1 Hz1 Hz2 Hcb Hv2 Hnew Hroom Hlock Hadd Hrel.
  unfold getAndLockCurrentVersion in Hlock. rewrite Hd1, bind_Ret in Hlock.
  pose proof (find_committed_inv _ _ Hd1) as Hl1.
  assert (committed_version m ≠ DMT_VER_INVALID) as Hc0.
  { unfold find_committed in Hd1. by case_decide. }
  injection Hlock as <- <-.
  assert (DMT.getVersion d2 ≠ committed_version m) as Hne by congruence.
  unfold add, DMT.getVersion, notify_old, map_index in *. simpl in Hadd.
  rewrite lookup_insert_ne, Hnew in Hadd by done. res_inv.
  rewrite decide_True, lookup_insert_ne, lookup_insert_eq in Hadd by done.
  unfold FDS_Table.setCallback in Hadd. simpl in Hadd. rewrite Hz1 in Hadd.
  rewrite decide_True in Hadd by done.
  apply bind_Ret_inv in Hadd as (m' & Hev & [= <- <-]).
  unfold evict in Hev. simpl in Hev. rewrite decide_False in Hev.
  2: { rewrite !map_size_insert. repeat (rewrite ?lookup_insert_eq, ?lookup_insert_ne by done).
       rewrite ?Hnew, ?Hl1. simpl. lia. }
  injection Hev as <-. unfold releaseVersion, find_committed in Hrel. simpl in Hrel.
  rewrite decide_False, lookup_insert_ne, lookup_insert_eq in Hrel by done.
  simpl in Hrel.
  unfold FDS_Table.decRefcnt in Hrel. rewrite Hcb, Hz2 in Hrel. injection Hrel as <- <-.
  split_and!; [done|done| |]; unfold getDMT_version; simpl.
  - rewrite lookup_insert_ne, lookup_insert_eq by done. by eexists.
  - rewrite lookup_insert_eq. by eexists.
Qed.

Lemma release_after_commit_witness :
  let m := Make 2 1 0 {[1 := Some (demo 1)]} in
  ∃ m1 m2 m3, getAndLockCurrentVersion m = Ret (m1, 1) ∧
    add (demo 2) DMT_COMMITTED (Some 9) m1 = Ret (m2, ERR_IO_PENDING) ∧
    releaseVersion 1 m2 = Ret (m3, []).
Proof.
  intros m. eexists _, _, _. assert (inv m) as Hinv.
  { split; simpl; try done.
    intros v p [<- <-]%lookup_singleton_Some; by eexists. }
  destruct (release_after_commit m (demo 1) (demo 2) 9 _ _ _ _ _ _ Hinv eq_refl eq_refl eq_refl
    eq_refl ltac:(done) eq_refl ltac:(by vm_compute) eq_refl eq_refl eq_refl) as (He & Hcalls & _).
  split_and!; reflexivity.
Defined.

(** After [commitDMT(false)] the target is still set to the committed
    version, and [unsetTarget(true)] then deletes the committed version's
    table: every lookup of the committed table fails its assertion. *)
Theorem unset_committed_target m m1 m2 vol :
  inv m → hasTargetDMT m = true →
  commitDMT false m = Ret (m1, ERR_OK) → unsetTarget true m1 = Ret (m2, ERR_OK) →
  hasCommittedDMT m2 = true ∧ getDMT m2 DMT_COMMITTED = Fault VerifyFailed ∧
  getCommittedNodeGroup m2 vol = Fault VerifyFailed ∧
  getAndLockCurrentVersion m2 = Fault VerifyFailed.
Proof.
  intros Hinv Ht%bool_decide_eq_true Hc Hu. unfold commitDMT in Hc.
  rewrite decide_True in Hc by done. apply bind_verify in Hc as [Hi [= <-]].
  unfold unsetTarget in Hu. simpl in Hu. rewrite decide_True in Hu by done.
  apply bind_verify in Hu as [_ [= <-]].
  unfold hasCommittedDMT, getDMT, getCommittedNodeGroup, getAndLockCurrentVersion, find_committed.
  simpl. rewrite bool_decide_eq_true_2, decide_False, lookup_delete_eq by done. done.
Qed.

Lemma unset_committed_target_witness :
  let m := Make 2 0 1 {[1 := Some (demo 1)]} in
  ∃ m1 m2, commitDMT false m = Ret (m1, ERR_OK) ∧ unsetTarget true m1 = Ret (m2, ERR_OK) ∧
    getDMT m2 DMT_COMMITTED = Fault VerifyFailed.
Proof.
  intros m. eexists _, _. assert (inv m) as Hinv.
  { split; simpl; try done.
    intros v p [<- <-]%lookup_singleton_Some; by eexists. }
  split_and!; [reflexivity..|].
  exact (proj1 (proj2 (unset_committed_target m _ _ 0 Hinv eq_refl eq_refl eq_refl))).
Defined.

End DMTManager.
