(* ===== verification/ObjectId.v ===== *)
(** Object identifiers ([ObjectID] of [fds_types.h], [fds_types.cpp]): a
    20-byte digest, the bits of it that select a DLT token, the range of
    identifiers of a token, the order of identifiers and their hexadecimal
    form.  Identifiers are related to the 160-bit number their bytes spell,
    most significant byte first ([be_value]). *)
From S2P Require Import Prelude.
From S2P Require Import Serialize.
Open Scope Z_scope.

Definition OBJECTID_DIGESTLEN : Z := 20.

(** [const int bitMaskLookup[64]]: the initialiser lists 17 entries, the
    remaining ones are zero. *)
Definition bitMaskLookup : list Z :=
  [0x0; 0x1; 0x3; 0x7; 0xF; 0x1F; 0x3F; 0x7F; 0xFF;
   0x1FF; 0x3FF; 0x7FF; 0xFFF; 0x1FFF; 0x3FFF; 0x7FFF; 0xFFFF] ++ replicate 47 0.

(** The sign of [memcmp]: the order of the first bytes that differ. *)
Fixpoint memcmp (a b : list Z) : Z :=
  match a, b with
  | x :: a, y :: b => if x <? y then -1 else if y <? x then 1 else memcmp a b
  | _, _ => 0
  end.

(** One digit of [std::hex << std::nouppercase]. *)
Definition hex_digit (n : Z) : Z := if n <? 10 then 48 + n else 87 + n.

(** The [k] low hexadecimal digits of [n], most significant first. *)
Fixpoint hex_fixed (k : nat) (n : Z) : list Z :=
  match k with
  | O => []
  | S k => hex_digit ((n / 16 ^ Z.of_nat k) `mod` 16) :: hex_fixed k n
  end.

(** The number of digits of an unsigned integer of at most 32 bits. *)
Definition hex_length (n : Z) : nat :=
  if n <? 1 then 1 else S (Z.to_nat (Z.log2 n / 4)).

(** [std::setw(w) << std::setfill('0') << n] *)
Definition hex_setw (w : nat) (n : Z) : list Z := hex_fixed (w `max` hex_length n) n.

Module ObjectID.

(** The state is [uint8_t digest[OBJECTID_DIGESTLEN]], a list of 20 bytes. *)

(** [memset(digest, c, sizeof(digest))] *)
Definition memset (c : Z) : list Z := replicate 20 (u8 c).

(** [ObjectID()], [ObjectID(dataSet)] *)
Definition make : list Z := memset 0.
Definition make_dataSet (dataSet : Z) : list Z := memset dataSet.

(** [memcpy(digest, data, len)], which must stay inside the array and inside
    the source buffer. *)
Definition SetId (digest data : list Z) (len : Z) : res (list Z) :=
  if decide (0 ≤ len ≤ OBJECTID_DIGESTLEN ∧ len ≤ Z.of_nat (length data)) then
    Ret (take (Z.to_nat len) data ++ drop (Z.to_nat len) digest)
  else Fault Undefined.

(** [ObjectID(const std::string&)]: a string of another size is logged and
    leaves the digest as it was, here its uninitialised value [digest]. *)
Definition make_string (digest oid : list Z) : list Z :=
  if decide (Z.of_nat (length oid) ≠ OBJECTID_DIGESTLEN) then digest else oid.

Definition GetLen (digest : list Z) : Z := OBJECTID_DIGESTLEN.

(** [getTokenBits(numBits)].  A shift by a negative amount (more than 24
    bits) is undefined. *)
Definition getTokenBits (digest : list Z) (numBits : Z) : res Z :=
  if decide (16 < numBits) then
    d0 ← vec_at digest 0; d1 ← vec_at digest 1; d2 ← vec_at digest 2;
    if decide (24 < numBits) then Fault Undefined else
    mask ← vec_at bitMaskLookup numBits;
    Ret (Z.land (Z.shiftr (Z.lor (Z.lor (Z.shiftl d0 16) (Z.shiftl d1 8)) d2) (24 - numBits)) mask)
  else if decide (8 < numBits) then
    d0 ← vec_at digest 0; d1 ← vec_at digest 1;
    mask ← vec_at bitMaskLookup numBits;
    Ret (Z.land (Z.shiftr (Z.lor (Z.shiftl d0 8) d1) (16 - numBits)) mask)
  else
    d0 ← vec_at digest 0;
    mask ← vec_at bitMaskLookup numBits;
    Ret (Z.land (Z.shiftr d0 (8 - numBits)) mask).

Definition compare (lhs rhs : list Z) : Z := memcmp lhs rhs.
Definition eqb (lhs rhs : list Z) : bool := compare lhs rhs =? 0.
Definition neb (lhs rhs : list Z) : bool := negb (eqb lhs rhs).
Definition ltb (lhs rhs : list Z) : bool := compare lhs rhs <? 0.
Definition gtb (lhs rhs : list Z) : bool := 0 <? compare lhs rhs.

(** [ToHex(const uint8_t*, len)] and the overload for [const char*], whose
    signed characters are extended to 16 bits before they are printed. *)
Definition ToHex (key : list Z) : list Z := key ≫= hex_setw 2.
Definition ToHex_char (key : list Z) : list Z := key ≫= λ c, hex_setw 2 (u16 (i8 c)).
Definition ToHex_u32 (key : list Z) : list Z := key ≫= hex_setw 8.

(** The value of a digit, in the arithmetic of [char]. *)
Definition nibble (c : Z) : Z :=
  let a := i8 c in if 57 <? a then i8 (a - 87) else i8 (a - 48).

Fixpoint parse_pairs (s : list Z) : list Z :=
  match s with
  | a :: b :: s => u8 (Z.land (Z.shiftl (nibble a) 4) 0xF0 + nibble b) :: parse_pairs s
  | _ => []
  end.

(** [operator=(const std::string& hexStr)], in a build without debug
    assertions: a string that does not start with [0x] or has another length
    leaves the identifier alone. *)
Definition assign_hex (digest hexStr : list Z) : list Z :=
  if decide (take 2 hexStr ≠ [48; 120] ∨ length hexStr ≠ 42%nat) then digest
  else parse_pairs (drop 2 hexStr).

(** One round of the loop of [getTokenRange]. *)
Definition range_step (nTokenBytes : Z) (s : Z * list Z * list Z) (i : Z) : res (Z * list Z * list Z) :=
  let '(token, b, e) := s in
  let k := Z.to_nat (nTokenBytes - 1 - i) in
  Ret (Z.shiftr token 8, <[k := Z.land token 0xFF]> b, <[k := Z.land token 0xFF]> e).

(** [getTokenRange(token, nTokenBits, start, end)]; [sizeof(fds_token_id)] is 4. *)
Definition getTokenRange (tokenInput nTokenBits : Z) : res (list Z * list Z) :=
  _ ← fds_verify (bool_decide (nTokenBits `mod` 8 = 0 ∧ nTokenBits / 8 ≤ 4));
  let nTokenBytes := nTokenBits / 8 in
  r ← for_range nTokenBytes (range_step nTokenBytes) (tokenInput, memset 0, memset 0xFF);
  let '(_, b, e) := r : Z * list Z * list Z in
  Ret (b, e).

(** [write], [read] *)
Definition write (digest : list Z) : out := writeBuffer digest 20.
Definition read (digest : list Z) : Rd (list Z) := readBuffer digest 20.

(** The well-formed identifiers. *)
Definition byte (b : Z) : Prop := 0 ≤ b < 256.
Definition wf (d : list Z) : Prop := length d = 20%nat ∧ Forall byte d.

(** ** The number an identifier spells *)
Lemma be_value_acc acc l :
  foldl (λ acc b, acc * 256 + b) acc l = acc * 256 ^ Z.of_nat (length l) + be_value l.
Proof.
  unfold be_value. revert acc. induction l as [|x l IH]; intros acc.
  - simpl. lia.
  - simpl foldl. rewrite IH, (IH (0 * 256 + x)). simpl length.
    rewrite Nat2Z.inj_succ, Z.pow_succ_r by lia. lia.
Qed.

Lemma be_value_cons x l :
  be_value (x :: l) = x * 256 ^ Z.of_nat (length l) + be_value l.
Proof. unfold be_value at 1. simpl foldl. by rewrite be_value_acc. Qed.

Lemma be_value_app l1 l2 :
  be_value (l1 ++ l2) = be_value l1 * 256 ^ Z.of_nat (length l2) + be_value l2.
Proof. unfold be_value at 1. rewrite foldl_app, be_value_acc. done. Qed.

Lemma be_value_bounds l : Forall byte l → 0 ≤ be_value l < 256 ^ Z.of_nat (length l).
Proof.
  induction 1 as [|x l Hx _ IH]; [done|]. rewrite be_value_cons. simpl length.
  rewrite Nat2Z.inj_succ, Z.pow_succ_r by lia. unfold byte in Hx. nia.
Qed.

Lemma be_value_replicate b n :
  255 * be_value (replicate n b) = b * (256 ^ Z.of_nat n - 1).
Proof.
  induction n as [|n IH]; [change (256 ^ Z.of_nat 0) with 1; change (be_value (replicate 0 b)) with 0; lia|].
  simpl replicate. rewrite be_value_cons, length_replicate, Nat2Z.inj_succ, Z.pow_succ_r by lia.
  lia.
Qed.

(** The byte order is the order of the numbers. *)
Lemma memcmp_value a b : length a = length b → Forall byte a → Forall byte b →
  memcmp a b = Z.sgn (be_value a - be_value b).
Proof.
  intros Hlen Ha. revert b Hlen. induction Ha as [|x a Hx Ha IH]; intros [|y b] Hlen Hb; try done.
  inversion Hb as [|? ? Hy Hb']; subst. injection Hlen as Hlen.
  rewrite !be_value_cons, <-Hlen. simpl memcmp.
  pose proof (be_value_bounds a Ha). pose proof (be_value_bounds b Hb').
  rewrite <-Hlen in *. set (q := 256 ^ Z.of_nat (length a)) in *.
  destruct (Z.ltb_spec x y); [symmetry; apply Z.sgn_neg; nia|].
  destruct (Z.ltb_spec y x); [symmetry; apply Z.sgn_pos; nia|].
  assert (x = y) as -> by lia. rewrite IH by done. f_equal. lia.
Qed.

Lemma be_value_inj a b : length a = length b → Forall byte a → Forall byte b →
  be_value a = be_value b → a = b.
Proof.
  intros Hlen Ha. revert b Hlen. induction Ha as [|x a Hx Ha IH]; intros [|y b] Hlen Hb Hv; try done.
  inversion Hb as [|? ? Hy Hb']; subst. injection Hlen as Hlen.
  rewrite !be_value_cons, <-Hlen in Hv.
  pose proof (be_value_bounds a Ha). pose proof (be_value_bounds b Hb').
  rewrite <-Hlen in *. set (q := 256 ^ Z.of_nat (length a)) in *.
  assert (x = y) as -> by nia. f_equal. apply IH; [done..|lia].
Qed.

(** The identifiers are totally ordered by the 160-bit numbers they
    spell: [operator<] and [operator>] compare the numbers and
    [operator==] holds only of identical identifiers. *)
Theorem objectid_order a b : wf a → wf b →
  ltb a b = (be_value a <? be_value b) ∧ gtb a b = (be_value b <? be_value a) ∧
  (eqb a b = true ↔ a = b) ∧ neb a b = negb (bool_decide (a = b)).
Proof.
  intros [Hla Ha] [Hlb Hb].
  assert (compare a b = Z.sgn (be_value a - be_value b)) as Hc
    by (apply memcmp_value; [congruence|done..]).
  assert (eqb a b = true ↔ a = b) as Heq.
  { unfold eqb. rewrite Hc, Z.eqb_eq, Z.sgn_null_iff. split; [|intros ->; lia].
    intros. apply be_value_inj; [congruence|done..|lia]. }
  split_and!; [| |done|].
  - unfold ltb. rewrite Hc.
    destruct (Z.ltb_spec (be_value a) (be_value b)); [apply Z.ltb_lt|apply Z.ltb_ge]; lia.
  - unfold gtb. rewrite Hc.
    destruct (Z.ltb_spec (be_value b) (be_value a)); [apply Z.ltb_lt|apply Z.ltb_ge]; lia.
  - unfold neb. case_bool_decide as Hab; [by rewrite (proj2 Heq)|].
    destruct (eqb a b); naive_solver.
Qed.

(** ** Tokens *)
Lemma lor_shiftl a b k : 0 ≤ k → 0 ≤ b < 2 ^ k → Z.lor (Z.shiftl a k) b = a * 2 ^ k + b.
Proof.
  intros Hk Hb. rewrite <-Z.shiftl_mul_pow2 by done. rewrite <-Z.add_lor_land.
  enough (Z.land (Z.shiftl a k) b = 0) as ->; [lia|].
  apply Z.bits_inj'. intros i Hi. rewrite Z.land_spec, Z.bits_0.
  destruct (Z.lt_ge_cases i k).
  - by rewrite Z.shiftl_spec_low.
  - rewrite <-(Z.mod_small b (2 ^ k)) by done.
    by rewrite Z.mod_pow2_bits_high, andb_false_r by lia.
Qed.

(** The mask for [n] bits, as far as the table is filled. *)
Lemma bitMaskLookup_ones n : 0 ≤ n ≤ 16 → vec_at bitMaskLookup n = Ret (Z.ones n).
Proof.
  intros Hn. assert (n = 0 ∨ n = 1 ∨ n = 2 ∨ n = 3 ∨ n = 4 ∨ n = 5 ∨ n = 6 ∨ n = 7 ∨ n = 8 ∨
    n = 9 ∨ n = 10 ∨ n = 11 ∨ n = 12 ∨ n = 13 ∨ n = 14 ∨ n = 15 ∨ n = 16) by lia.
  destruct_or!; subst; reflexivity.
Qed.

Lemma bitMaskLookup_zero n : 16 < n < 64 → vec_at bitMaskLookup n = Ret 0.
Proof.
  intros Hn. apply vec_at_lookup. split; [lia|].
  unfold bitMaskLookup. rewrite lookup_app_r by (simpl; lia).
  apply lookup_replicate. simpl. lia.
Qed.

(** [wf] identifiers by their first two bytes. *)
Lemma wf_split d : wf d → ∃ b0 b1 b2 r, d = b0 :: b1 :: b2 :: r ∧
  byte b0 ∧ byte b1 ∧ byte b2 ∧ 0 ≤ be_value (b2 :: r) < 2 ^ 144 ∧
  be_value d = (b0 * 256 + b1) * 2 ^ 144 + be_value (b2 :: r).
Proof.
  intros [Hlen Hd]. destruct d as [|b0 [|b1 [|b2 r]]]; try done.
  exists b0, b1, b2, r. rewrite !Forall_cons in Hd. destruct Hd as (?&?&?&Hr).
  pose proof (be_value_bounds (b2 :: r) ltac:(by constructor)) as Hb.
  injection Hlen as Hlen. simpl length in Hb. rewrite Hlen in Hb.
  split_and!; try done; [apply Hb..|].
  rewrite (be_value_cons b0), (be_value_cons b1). simpl length. rewrite Hlen.
  change (256 ^ Z.of_nat 19) with (256 * 2 ^ 144). change (256 ^ Z.of_nat 18) with (2 ^ 144). lia.
Qed.

Lemma div_prefix x r n : 0 ≤ n ≤ 16 → 0 ≤ r < 2 ^ 144 →
  (x * 2 ^ 144 + r) / 2 ^ (160 - n) = x / 2 ^ (16 - n).
Proof.
  intros Hn Hr. replace (160 - n) with (144 + (16 - n)) by lia.
  pose proof (Z.pow_pos_nonneg 2 (16 - n) ltac:(lia) ltac:(lia)).
  rewrite Z.pow_add_r, <-Z.div_div by lia.
  by rewrite Z.div_add_l, (Z.div_small r), Z.add_0_r by lia.
Qed.

Lemma shiftr_bits x n w : 0 ≤ n ≤ w → 0 ≤ x < 2 ^ w →
  Z.land (Z.shiftr x (w - n)) (Z.ones n) = x / 2 ^ (w - n).
Proof.
  intros Hn Hx. rewrite Z.land_ones, Z.shiftr_div_pow2 by lia. apply Z.mod_small.
  pose proof (Z.pow_pos_nonneg 2 (w - n) ltac:(lia) ltac:(lia)).
  split; [apply Z.div_pos; lia|]. apply Z.div_lt_upper_bound; [done|].
  rewrite <-Z.pow_add_r by lia. replace (w - n + n) with w by lia. lia.
Qed.

(** The token bits are the leading bits of the identifier's number. *)
Lemma getTokenBits_prefix d n : wf d → 0 ≤ n ≤ 16 →
  getTokenBits d n = Ret (be_value d / 2 ^ (160 - n)).
Proof.
  intros (b0 & b1 & b2 & r & -> & H0 & H1 & H2 & Hr & ->)%wf_split Hn.
  rewrite div_prefix by done. unfold getTokenBits, byte in *.
  rewrite decide_False by lia. rewrite bitMaskLookup_ones by done.
  case_decide; simpl; f_equal.
  - rewrite lor_shiftl by lia. apply shiftr_bits; lia.
  - rewrite shiftr_bits by lia. replace (16 - n) with (8 + (8 - n)) by lia.
    pose proof (Z.pow_pos_nonneg 2 (8 - n) ltac:(lia) ltac:(lia)).
    rewrite Z.pow_add_r, <-Z.div_div by lia.
    by rewrite Z.div_add_l, (Z.div_small b1), Z.add_0_r by lia.
Qed.

Lemma getTokenBits_wide d n : wf d → 16 < n ≤ 24 → getTokenBits d n = Ret 0.
Proof.
  intros (b0 & b1 & b2 & r & -> & _)%wf_split Hn. unfold getTokenBits.
  rewrite decide_True by lia. rewrite bitMaskLookup_zero by lia. simpl.
  rewrite decide_False by lia. simpl. by rewrite Z.land_0_r.
Qed.

Lemma getTokenRange_bytes token n : n ∈ [8; 16; 24; 32] →
  getTokenRange token n =
    Ret (be_bytes (Z.to_nat (n / 8)) token ++ replicate (Z.to_nat (20 - n / 8)) 0,
         be_bytes (Z.to_nat (n / 8)) token ++ replicate (Z.to_nat (20 - n / 8)) 255).
Proof.
  assert (∀ x, Z.land x 255 = x `mod` 256) as Hland.
  { intros x. change 255 with (Z.ones 8). by rewrite Z.land_ones. }
  assert (∀ x, Z.shiftr x 8 = x / 256) as Hshift by (intros; by rewrite Z.shiftr_div_pow2).
  intros Hn. assert (n = 8 ∨ n = 16 ∨ n = 24 ∨ n = 32) by set_solver.
  assert (∃ k : Z, n / 8 = k ∧ n = 8 * k ∧ (k = 1 ∨ k = 2 ∨ k = 3 ∨ k = 4)) as (k & Hk & -> & Hc)
    by (destruct_or!; subst; [exists 1|exists 2|exists 3|exists 4]; (split_and!; [done|done|lia])).
  unfold getTokenRange. rewrite Hk, fds_verify_true, bind_Ret by (rewrite Z.mul_comm, Z.mod_mul; lia).
  change (memset 0) with (replicate 20 0). change (memset 255) with (replicate 20 255).
  destruct_or! Hc; subst k; cbv -[Z.land Z.shiftr Z.modulo Z.div];
    by rewrite !Hland, ?Hshift, ?Z.div_div, ?Z.div_1_r by done.
Qed.

Lemma be_value_be_bytes n z : be_value (be_bytes n z) = z `mod` 2 ^ (8 * Z.of_nat n).
Proof. unfold be_value. rewrite be_value_foldl. lia. Qed.

Lemma byte_be_bytes n z : Forall byte (be_bytes n z).
Proof.
  induction n as [|n IH]; constructor; [|done]. unfold byte. apply Z.mod_pos_bound. lia.
Qed.

(** C36. The range of a token.  For tokens of one or two bytes
    [getTokenRange] returns well-formed bounds, and an identifier lies
    between them, in the order of identifiers, exactly when its token bits
    are the token. *)
Theorem token_range_spec token n :
  n = 8 ∨ n = 16 → 0 ≤ token < 2 ^ n →
  ∃ b e, getTokenRange token n = Ret (b, e) ∧ wf b ∧ wf e ∧
    ∀ oid, wf oid →
      (ltb oid b = false ∧ gtb oid e = false ↔ getTokenBits oid n = Ret token).
Proof.
  intros Hn Ht. assert (0 < n ≤ 16 ∧ n `mod` 8 = 0) as [Hn16 Hmod] by (destruct Hn; by subst).
  rewrite getTokenRange_bytes by (destruct Hn; subst; set_solver).
  set (k := n / 8). assert (n = 8 * k) as Hk by (destruct Hn; by subst).
  assert (∀ x, byte x → wf (be_bytes (Z.to_nat k) token ++ replicate (Z.to_nat (20 - k)) x)) as Hwf.
  { intros x Hx. split; [rewrite length_app, length_be_bytes, length_replicate; lia|].
    apply Forall_app; split; [apply byte_be_bytes|by apply Forall_replicate]. }
  assert (∀ x, be_value (be_bytes (Z.to_nat k) token ++ replicate (Z.to_nat (20 - k)) x)
    = token * 2 ^ (160 - n) + be_value (replicate (Z.to_nat (20 - k)) x)) as Hval.
  { intros x. rewrite be_value_app, be_value_be_bytes, length_replicate.
    rewrite !Z2Nat.id, <-Hk, Z.mod_small by lia. change 256 with (2 ^ 8).
    rewrite <-Z.pow_mul_r by lia. do 3 f_equal. lia. }
  assert (wf (be_bytes (Z.to_nat k) token ++ replicate (Z.to_nat (20 - k)) 0)) as Hwb
    by (apply Hwf; unfold byte; lia).
  assert (wf (be_bytes (Z.to_nat k) token ++ replicate (Z.to_nat (20 - k)) 255)) as Hwe
    by (apply Hwf; unfold byte; lia).
  eexists _, _. split_and!; [done..|]. intros oid Ho.
  rewrite getTokenBits_prefix by (done || lia).
  unfold ltb, gtb, compare. destruct Hwb as [Hlb Hb], Hwe as [Hle He], Ho as [Hlo Ho].
  rewrite !memcmp_value by (done || congruence). rewrite !Hval.
  pose proof (be_value_replicate 0 (Z.to_nat (20 - k))) as Hr0.
  pose proof (be_value_replicate 255 (Z.to_nat (20 - k))) as Hr1.
  rewrite Z2Nat.id in Hr0, Hr1 by lia. change 256 with (2 ^ 8) in Hr0, Hr1.
  rewrite <-Z.pow_mul_r in Hr0, Hr1 by lia. replace (8 * (20 - k)) with (160 - n) in Hr0, Hr1 by lia.
  pose proof (Z.pow_pos_nonneg 2 (160 - n) ltac:(lia) ltac:(lia)).
  rewrite Z.ltb_ge, Z.ltb_ge. pose proof (Z.div_mod (be_value oid) (2 ^ (160 - n)) ltac:(lia)).
  pose proof (Z.mod_pos_bound (be_value oid) (2 ^ (160 - n)) ltac:(lia)).
  split.
  - intros [Hge Hle']. f_equal. symmetry.
    apply (Z.div_unique _ _ _ (be_value oid - token * 2 ^ (160 - n))); lia.
  - intros [= Heq]. rewrite Heq in *. lia.
Qed.

Lemma token_range_spec_witness :
  ∃ b e, getTokenRange 0x12AB 16 = Ret (b, e) ∧ take 3 b = [0x12; 0xAB; 0] ∧
    (getTokenBits make 16 = Ret 0x12AB → ltb make b = false).
Proof.
  assert (0 ≤ 0x12AB < 2 ^ 16) as Ht by lia.
  destruct (token_range_spec 0x12AB 16 (or_intror eq_refl) Ht) as (b & e & Hr & _ & _ & Hiff).
  exists b, e. split; [done|]. split.
  - vm_compute in Hr. by injection Hr as <- <-.
  - intros H. assert (wf make) as Hwf by (split; [done|]; repeat constructor; done).
    exact (proj1 (proj2 (Hiff make Hwf) H)).
Defined.

Lemma objectid_order_witness : ltb make (make_dataSet 1) = true ∧ eqb make make = true.
Proof.
  assert (∀ c, byte c → wf (replicate 20 c)) as Hwf.
  { intros c Hc. split; [done|]. by apply Forall_replicate. }
  destruct (objectid_order make (make_dataSet 1)) as (Hlt & _).
  1-2: apply Hwf; by unfold byte.
  destruct (objectid_order make make) as (_ & _ & Heq & _).
  1-2: apply Hwf; by unfold byte.
  split; [by rewrite Hlt|by apply Heq].
Defined.

(** Tokens wider than 16 bits.  The mask table is filled for up to 16
    bits only, so [getTokenBits] maps every identifier to token zero when
    asked for 17 to 24 bits. *)
Theorem wide_tokens_collapse a b n :
  wf a → wf b → 16 < n ≤ 24 → getTokenBits a n = Ret 0 ∧ getTokenBits a n = getTokenBits b n.
Proof. intros. by rewrite !getTokenBits_wide. Qed.

Lemma wide_tokens_collapse_witness :
  getTokenBits (make_dataSet 0xFF) 17 = Ret 0 ∧ getTokenBits (make_dataSet 0xFF) 16 = Ret 0xFFFF.
Proof.
  assert (wf (make_dataSet 0xFF)) as Hwf by (split; [done|]; by apply Forall_replicate).
  split; [|reflexivity].
  apply (wide_tokens_collapse (make_dataSet 0xFF) (make_dataSet 0xFF) 17 Hwf Hwf); lia.
Defined.

(** ** The hexadecimal form *)
(** Facts about single bytes are decided by trying all of them. *)
Lemma forall_bytes (P : Z → bool) :
  forallb P (seqZ 0 256) = true → ∀ b, byte b → P b = true.
Proof.
  intros H b Hb. rewrite forallb_forall in H. apply H, list_elem_of_In, elem_of_seqZ.
  unfold byte in Hb. lia.
Qed.

Lemma hex_byte b : byte b → ∃ x y, hex_setw 2 b = [x; y] ∧
  u8 (Z.land (Z.shiftl (nibble x) 4) 0xF0 + nibble y) = b.
Proof.
  intros Hb.
  pose proof (forall_bytes (λ b, match hex_setw 2 b with
    | [x; y] => u8 (Z.land (Z.shiftl (nibble x) 4) 0xF0 + nibble y) =? b | _ => false end)
    ltac:(by vm_compute) b Hb) as H.
  cbv beta in H. destruct (hex_setw 2 b) as [|x [|y []]]; try done. exists x, y. by apply Z.eqb_eq in H.
Qed.

Lemma parse_ToHex d : Forall byte d → parse_pairs (ToHex d) = d ∧ length (ToHex d) = (2 * length d)%nat.
Proof.
  induction 1 as [|b d Hb _ [IH1 IH2]]; [done|].
  destruct (hex_byte b Hb) as (x & y & Hxy & Hv).
  assert (ToHex (b :: d) = x :: y :: ToHex d) as -> by (unfold ToHex; by rewrite bind_cons, Hxy).
  simpl. rewrite IH1, IH2, Hv. split; [done|lia].
Qed.

(** The hexadecimal round trip.  Assigning ["0x"] followed by
    [ToHex(oid)] to any identifier gives [oid]; assigning [ToHex(oid)]
    itself, without the prefix, is rejected and leaves the identifier as it
    was. *)
Theorem hex_roundtrip old d : wf d →
  assign_hex old ([48; 120] ++ ToHex d) = d ∧ assign_hex old (ToHex d) = old.
Proof.
  intros [Hlen Hd]. destruct (parse_ToHex d Hd) as [Hp Hl]. rewrite Hlen in Hl.
  unfold assign_hex. split.
  - rewrite decide_False; [done|]. intros [H|H]; [done|]. rewrite length_app, Hl in H. done.
  - rewrite decide_True; [done|]. right. by rewrite Hl.
Qed.

Lemma hex_roundtrip_witness :
  assign_hex make ([48; 120] ++ ToHex (make_dataSet 0xC5)) = make_dataSet 0xC5.
Proof.
  assert (wf (make_dataSet 0xC5)) as Hwf by (split; [done|]; by apply Forall_replicate).
  exact (proj1 (hex_roundtrip make (make_dataSet 0xC5) Hwf)).
Defined.

(** The overload of [ToHex] for characters agrees with the one for bytes on
    7-bit characters and prints four digits for the others. *)
Lemma ToHex_char_byte c : byte c →
  if c <? 128 then ToHex_char [c] = ToHex [c] else ToHex_char [c] = [102; 102] ++ ToHex [c].
Proof.
  intros Hc.
  pose proof (forall_bytes (λ c, bool_decide (ToHex_char [c] =
    (if c <? 128 then [] else [102; 102]) ++ ToHex [c])) ltac:(by vm_compute) c Hc) as H.
  apply bool_decide_eq_true in H. by destruct (c <? 128).
Qed.

End ObjectID.
