(* ===== verification/Dlt.v ===== *)
(** * The data landing table

    Models [DLT] (src/source/include/dlt.h, src/source/lib/misc/dlt.cpp):
    the table that maps object tokens to the storage managers that hold
    them.  Columns, the column vector and the reverse map are reached
    through shared pointers, and copying a [DLT] shares them, so they live
    in an explicit heap. *)

From S2P Require Import Prelude.
From S2P Require Import PlacementTable.
From S2P Require Import Serialize.
From S2P Require Import ObjectId.
Open Scope Z_scope.
Import TableColumn.

(** ** The heap of shared objects

    A pointer is a positive number; [null] is 0 and is never allocated. *)
Definition null : Z := 0.

Record heap := Heap {
  cols : gmap Z (list Z);           (* TableColumn objects *)
  vecs : gmap Z (list Z);           (* std::vector<DltTokenGroupPtr> objects *)
  maps : gmap Z (gmap Z (list Z));  (* NodeTokenMap objects *)
  next : Z;
}.

Definition empty_heap : heap := Heap ∅ ∅ ∅ 1.

Definition load {A} (m : gmap Z A) (p : Z) : res A :=
  match m !! p with Some a => Ret a | None => Fault NullDeref end.

Definition set_col (p : Z) (c : list Z) (h : heap) : heap :=
  Heap (<[p := c]> (cols h)) (vecs h) (maps h) (next h).
Definition set_vec (p : Z) (v : list Z) (h : heap) : heap :=
  Heap (cols h) (<[p := v]> (vecs h)) (maps h) (next h).
Definition set_map (p : Z) (m : gmap Z (list Z)) (h : heap) : heap :=
  Heap (cols h) (vecs h) (<[p := m]> (maps h)) (next h).

(** [new] *)
Definition bump (h : heap) : heap := Heap (cols h) (vecs h) (maps h) (next h + 1).
Definition new_col (c : list Z) (h : heap) : heap * Z := (bump (set_col (next h) c h), next h).
Definition new_vec (v : list Z) (h : heap) : heap * Z := (bump (set_vec (next h) v h), next h).
Definition new_map (m : gmap Z (list Z)) (h : heap) : heap * Z := (bump (set_map (next h) m h), next h).

(** A column allocated for each element of [cs], in order. *)
Fixpoint new_cols (cs : list (list Z)) (h : heap) : heap * list Z :=
  match cs with
  | [] => (h, [])
  | c :: cs =>
      let '(h, p) := new_col c h in
      let '(h, ps) := new_cols cs h in
      (h, p :: ps)
  end.

Module DLT.

Record t := Make {
  base : FDS_Table.t;
  distList : Z;
  mapInitialized : bool;
  mapNodeTokens : Z;
  timestamp : Z;
  closed : bool;
}.

Definition depth (d : t) : Z := FDS_Table.depth (base d).
Definition width (d : t) : Z := FDS_Table.width (base d).
Definition columns (d : t) : Z := FDS_Table.columns (base d).
Definition version (d : t) : Z := FDS_Table.version (base d).

(** [DLT(width, depth, version, fInit)]; [now] is the clock. *)
Definition make (width depth version : Z) (fInit : bool) (now : Z) (h : heap) : heap * t :=
  let b := FDS_Table.make width depth version in
  let '(h, vp) := new_vec [] h in
  let '(h, mp) := new_map ∅ h in
  let '(h, ps) :=
    if fInit then
      new_cols (replicate (Z.to_nat (FDS_Table.columns b)) (TableColumn.make depth)) h
    else (h, []) in
  (set_vec vp ps h, Make b vp false mp now false).

(** [DLT(const DLT&)]: the copy shares the columns and the reverse map. *)
Definition copy (d : t) : t :=
  Make (FDS_Table.make (width d) (depth d) (version d)) (distList d) false
    (mapNodeTokens d) (timestamp d) false.

(** [distList->at(i)], and the column it points to. *)
Definition ptr_at (h : heap) (d : t) (i : Z) : res Z :=
  v ← load (vecs h) (distList d); vec_at v i.
Definition col_at (h : heap) (d : t) (i : Z) : res (list Z) :=
  p ← ptr_at h d i; load (cols h) p.

(** [distList->at(i)->set(j, x)] *)
Definition set_cell (d : t) (i j x : Z) (h : heap) : res heap :=
  p ← ptr_at h d i;
  c ← load (cols h) p;
  c ← set j x c;
  Ret (set_col p c h).

Definition clone (d : t) (now : Z) (h : heap) : res (heap * t) :=
  let '(h, n) := make (width d) (depth d) (version d) true now h in
  let n := Make (base n) (distList n) (mapInitialized n) (mapNodeTokens n) (timestamp d) (closed n) in
  h ← for_range (columns d) (λ h i,
        for_range (depth d) (λ h j,
          c ← col_at h d i;
          x ← get c j;
          set_cell n i j x h) h) h;
  Ret (h, n).

Definition getVersion (d : t) : Z := version d.
Definition getDepth (d : t) : Z := depth d.
Definition getNumBitsForToken (d : t) : Z := width d.
Definition getWidth (d : t) : Z := getNumBitsForToken d.
Definition getNumTokens (d : t) : Z := columns d.
Definition isClosed (d : t) : bool := closed d.
Definition setClosed (d : t) : t :=
  Make (base d) (distList d) (mapInitialized d) (mapNodeTokens d) (timestamp d) true.

(** [((1 << width) - 1)]: the shift is of an [int], and undefined when the
    result is not one. *)
Definition token_bitmask (width : Z) : res Z :=
  if decide (0 ≤ width < 31) then Ret (2 ^ width - 1) else Fault Undefined.

Definition getToken (d : t) (objId : list Z) : res Z :=
  mask ← token_bitmask (width d);
  bits ← ObjectID.getTokenBits objId (width d);
  Ret (u32 (Z.land mask bits)).

(** The static [getToken(objId, bitsPerToken)] *)
Definition getToken_bits (objId : list Z) (bitsPerToken : Z) : res Z :=
  _ ← fds_verify (bool_decide (bitsPerToken > 0));
  mask ← token_bitmask bitsPerToken;
  bits ← ObjectID.getTokenBits objId bitsPerToken;
  Ret (u32 (Z.land mask bits)).

Definition getTokenObjectRange (d : t) (token : Z) : res (list Z * list Z) :=
  ObjectID.getTokenRange token (width d).

(** [getNodes] returns the shared pointer to the column. *)
Definition getNodes (h : heap) (d : t) (token : Z) : res Z :=
  _ ← fds_verify (bool_decide (token < columns d));
  ptr_at h d token.

Definition getNodes_obj (h : heap) (d : t) (objId : list Z) : res Z :=
  token ← getToken d objId;
  _ ← fds_verify (bool_decide (token < columns d));
  ptr_at h d token.

Definition getNode (h : heap) (d : t) (token index : Z) : res Z :=
  _ ← fds_verify (bool_decide (token < columns d));
  p ← getNodes h d token; c ← load (cols h) p; get c index.
Definition getNode_obj (h : heap) (d : t) (objId : list Z) (index : Z) : res Z :=
  p ← getNodes_obj h d objId; c ← load (cols h) p; get c index.

Definition getPrimary (h : heap) (d : t) (token : Z) : res Z :=
  _ ← fds_verify (bool_decide (token < columns d));
  p ← getNodes h d token; c ← load (cols h) p; get c 0.
Definition getPrimary_obj (h : heap) (d : t) (objId : list Z) : res Z :=
  p ← getNodes_obj h d objId; c ← load (cols h) p; get c 0.

Definition getIndex (h : heap) (d : t) (token nodeUuid : Z) : res Z :=
  p ← getNodes h d token; c ← load (cols h) p; Ret (find c nodeUuid).
Definition getIndex_obj (h : heap) (d : t) (objId : list Z) (nodeUuid : Z) : res Z :=
  p ← getNodes_obj h d objId; c ← load (cols h) p; Ret (find c nodeUuid).

Definition setNode (d : t) (token index nodeuuid : Z) (h : heap) : res heap :=
  _ ← fds_verify (bool_decide (index < depth d));
  _ ← fds_verify (bool_decide (token < columns d));
  set_cell d token index nodeuuid h.

Definition setNodes (d : t) (token : Z) (nodes : list Z) (h : heap) : res heap :=
  _ ← fds_verify (bool_decide (getLength nodes = depth d));
  for_range (depth d) (λ h i, x ← get nodes i; set_cell d token i x h) h.

(** [map[k].push_back(v)] on a [NodeTokenMap]. *)
Definition push_back (k v : Z) (m : gmap Z (list Z)) : gmap Z (list Z) :=
  <[k := default [] (m !! k) ++ [v]]> m.

(** One column of [generateNodeTokenMap]. *)
Definition index_column (h : heap) (d : t) (s : gmap Z (list Z) * Z) (p : Z)
    : res (gmap Z (list Z) * Z) :=
  let '(m, token) := s in
  c ← load (cols h) p;
  m ← for_range (depth d) (λ m i, x ← get c i; Ret (push_back x token m)) m;
  Ret (m, token + 1).

Definition generateNodeTokenMap (d : t) (h : heap) : res heap :=
  v ← load (vecs h) (distList d);
  s ← foldM (index_column h d) (∅, 0) v;
  Ret (set_map (mapNodeTokens d) s.1 h).

Definition getTokens (h : heap) (d : t) (uid : Z) : res (list Z) :=
  m ← load (maps h) (mapNodeTokens d);
  Ret (default [] (m !! uid)).

Definition getTokens_index (h : heap) (d : t) (tokenList : list Z) (uid index : Z) : res (list Z) :=
  m ← load (maps h) (mapNodeTokens d);
  match m !! uid with
  | None => Ret tokenList
  | Some tlist =>
      foldM (λ tl token,
        c ← col_at h d token;
        curNode ← get c index;
        Ret (if decide (curNode = uid) then tl ++ [token] else tl)) tokenList tlist
  end.

(** [getAllNodes]: the keys of the reverse map. *)
Definition getAllNodes (h : heap) (d : t) : res (list Z) :=
  m ← load (maps h) (mapNodeTokens d); Ret (map_keys m).

(** The loop of [getSourceNodeForToken] over the replicas. *)
Fixpoint first_other (destNodeUuid : Z) (group : list Z) : Z :=
  match group with
  | [] => INVALID_RESOURCE_UUID
  | x :: group => if decide (destNodeUuid ≠ x) then x else first_other destNodeUuid group
  end.

Definition getSourceNodeForToken (h : heap) (d : t) (destNodeUuid tokenId : Z) : res Z :=
  p ← getNodes h d tokenId; c ← load (cols h) p; Ret (first_other destNodeUuid c).

Definition getSourceForAllNodeTokens (h : heap) (d : t) (nodeUuid : Z)
    (srcNodeTokenMap : gmap Z (list Z)) : res (gmap Z (list Z)) :=
  if decide (nodeUuid = INVALID_RESOURCE_UUID) then Ret srcNodeTokenMap else
  nodeTokenList ← getTokens h d nodeUuid;
  foldM (λ m token, s ← getSourceNodeForToken h d nodeUuid token; Ret (push_back s token m))
    srcNodeTokenMap nodeTokenList.

(** The [while (!foundSrcSM)] loop; an index is a [uint8_t]. *)
Fixpoint search_source (fuel : nat) (h : heap) (d : t) (token curSrcIdx newSrcIdx curDestSM : Z)
    : res Z :=
  match fuel with
  | O => Fault OutOfFuel
  | S fuel =>
      newSrcSmId ← getNode h d token newSrcIdx;
      if decide (newSrcIdx ≠ curSrcIdx ∧ newSrcSmId ≠ curDestSM) then Ret newSrcSmId
      else search_source fuel h d token curSrcIdx (u8 (u8 (newSrcIdx + 1) `mod` getDepth d)) curDestSM
  end.

(** One token of [getNewSourceSMs]. *)
Definition source_step (fuel : nat) (h : heap) (d : t) (curSrcSM retryCount curDestSM : Z)
    (newTokenGroups : gmap Z (list Z)) (token : Z) : res (gmap Z (list Z)) :=
  idx ← getIndex h d token curSrcSM;
  let curSrcIdx := u8 idx in
  if decide (getDepth d = 0) then Fault Undefined else
  let newSrcIdx := u8 ((curSrcIdx + retryCount) `mod` getDepth d) in
  newSrcSmId ← search_source fuel h d token curSrcIdx newSrcIdx curDestSM;
  Ret (push_back newSrcSmId token newTokenGroups).

Definition getNewSourceSMs (fuel : nat) (h : heap) (d : t) (curSrcSM : Z) (dltTokens : gset Z)
    (retryCount curDestSM : Z) : res (gmap Z (list Z)) :=
  foldM (source_step fuel h d curSrcSM retryCount curDestSM) ∅ (set_iter dltTokens).

(** [operator==] compares the columns pointed to. *)
Definition eq_column (h : heap) (d rhs : t) (same : bool) (i : Z) : res bool :=
  if same then
    myCol ← getNodes h d i;
    col ← getNodes h rhs i;
    if decide (myCol = null ∧ col = null) then Ret true
    else if decide (myCol = null ∨ col = null) then Ret false
    else c1 ← load (cols h) myCol; c2 ← load (cols h) col; Ret (eqb c1 c2)
  else Ret false.

Definition eqb (h : heap) (d rhs : t) : res bool :=
  if decide (depth d ≠ depth rhs ∨ columns d ≠ columns rhs) then Ret false
  else for_range (columns d) (eq_column h d rhs) true.

Section Verify.
(** The Orchestration Manager's registry of nodes being removed
    ([OmExtUtilApi]). *)
Variable getPendingNodeRemoves : Z.
Variable isMarkedForRemoval : Z → bool.

Definition verify_cell (expectedUuidSet : gset Z) (c : list Z) (acc : gset Z + fds_errno) (j : Z)
    : res (gset Z + fds_errno) :=
  match acc with
  | inr e => Ret (inr e)
  | inl colSet =>
      uuid ← get c j;
      if decide (uuid = 0 ∨ uuid ∉ expectedUuidSet) then
        if isMarkedForRemoval uuid then Ret (inl ({[uuid]} ∪ colSet))
        else Ret (inr ERR_INVALID_DLT)
      else Ret (inl ({[uuid]} ∪ colSet))
  end.

Definition verify_column (d : t) (expectedUuidSet : gset Z) (c : list Z) : res fds_errno :=
  r ← for_range (depth d) (verify_cell expectedUuidSet c) (inl ∅);
  match r with
  | inr e => Ret e
  | inl colSet => Ret (if decide (Z.of_nat (size colSet) < depth d) then ERR_INVALID_DLT else ERR_OK)
  end.

Definition verify (h : heap) (d : t) (expectedUuidSet : gset Z) : res fds_errno :=
  if decide (depth d > Z.of_nat (size expectedUuidSet) + getPendingNodeRemoves) then
    Ret ERR_INVALID_DLT
  else
    for_range (columns d) (λ err i,
      match err with
      | ERR_OK => p ← getNodes h d i; c ← load (cols h) p; verify_column d expectedUuidSet c
      | e => Ret e
      end) ERR_OK.
End Verify.

(** [token_diff(uid, new_dlt, old_dlt)]; [old_dlt] may be null. *)
Definition token_diff (h : heap) (uid : Z) (new_dlt : t) (old_dlt : option t) : res (gset Z) :=
  match old_dlt with
  | None => n ← getTokens h new_dlt uid; Ret (list_to_set n)
  | Some old_dlt =>
      o ← getTokens h old_dlt uid;
      n ← getTokens h new_dlt uid;
      Ret (list_to_set n ∖ list_to_set o)
  end.

(** ** Serialization *)
Section Serialization.
Context `{P : TProtocol}.

(** The [std::call_once] of [write]: an empty reverse map is generated, the
    first time only. *)
Definition init_map (d : t) (h : heap) : res (heap * t) :=
  if mapInitialized d then Ret (h, d) else
  m ← load (maps h) (mapNodeTokens d);
  h ← (if decide (m = ∅) then generateNodeTokenMap d h else Ret h);
  Ret (h, Make (base d) (distList d) true (mapNodeTokens d) (timestamp d) (closed d)).

(** Numbering the unique uuids: the map and the count. *)
Definition uuid_ids (keys : list Z) : gmap Z Z * Z :=
  foldl (λ '(uuidmap, count) uuid, (<[uuid := count]> uuidmap, u32 (count + 1))) (∅, 0) keys.

(** [uuidmap[uuid]] is 0 for a uuid that was not numbered. *)
Definition write_cell (uuidmap : gmap Z Z) (fByte : bool) (b : out) (uuid : Z) : out :=
  let lookupid := default 0 (uuidmap !! uuid) in
  out_app b (if fByte then writeByte lookupid else writeI16 lookupid).

Definition write_column (h : heap) (d : t) (uuidmap : gmap Z Z) (fByte : bool) (b : out) (p : Z)
    : res out :=
  c ← load (cols h) p;
  for_range (depth d) (λ b i, uuid ← get c i; Ret (write_cell uuidmap fByte b uuid)) b.

Definition write (d : t) (h : heap) : res (out * (heap * t)) :=
  let b := out_app out_nil (writeI64 (version d)) in
  let b := out_app b (writeTimeStamp (timestamp d)) in
  let b := out_app b (writeI32 (width d)) in
  let b := out_app b (writeI32 (depth d)) in
  let b := out_app b (writeI32 (columns d)) in
  hd ← init_map d h;
  let '(h, d) := hd : heap * t in
  m ← load (maps h) (mapNodeTokens d);
  let uuidList := map_keys m in
  let '(uuidmap, count) := uuid_ids uuidList in
  let b := out_app b (writeI32 count) in
  b ← foldM (λ b uuid, Ret (out_app b (writeI64 uuid))) b uuidList;
  let fByte := bool_decide (count ≤ 256) in
  v ← load (vecs h) (distList d);
  b ← foldM (write_column h d uuidmap fByte) b v;
  Ret (b, (h, d)).

Definition read_cell (uuidList : list Z) (fByte : bool) : Rd Z :=
  if fByte then i8 ← readByte; Rd_lift (vec_at uuidList i8)
  else i16 ← readI16; Rd_lift (vec_at uuidList i16).

Definition read (d : t) (h : heap) : Rd (heap * t) :=
  version ← readI64;
  timestamp ← readTimeStamp;
  width ← readI32;
  depth ← readI32;
  columns ← readI32;
  count ← readI32;
  uuidList ← read_times (Z.to_nat count) readI64;
  let fByte := bool_decide (count ≤ 256) in
  tbl ← read_times (Z.to_nat columns) (read_times (Z.to_nat depth) (read_cell uuidList fByte));
  let '(h, ps) := new_cols tbl h in
  mret (set_vec (distList d) ps h,
        Make (FDS_Table.Make depth width columns version
               (FDS_Table.outstanding_io (base d)) (FDS_Table.cb (base d)))
          (distList d) (mapInitialized d) (mapNodeTokens d) timestamp (closed d)).
End Serialization.

(** ** Well-formed tables

    [wf h d tbl]: in the heap [h] the table [d] has its declared shape and
    its columns hold [tbl]. *)
Record wf (h : heap) (d : t) (tbl : list (list Z)) : Prop := {
  wf_shape : FDS_Table.well_shaped (base d);
  wf_repr : ∃ ps, vecs h !! distList d = Some ps ∧ Forall2 (λ p c, cols h !! p = Some c) ps tbl;
  wf_length : Z.of_nat (length tbl) = columns d;
  wf_depth : Forall (λ c, getLength c = depth d) tbl;
}.

Lemma load_Ret {A} (m : gmap Z A) p a : m !! p = Some a → load m p = Ret a.
Proof. intros H. unfold load. by rewrite H. Qed.

Lemma wf_depth_lookup h d tbl i c : wf h d tbl → tbl !! i = Some c → getLength c = depth d.
Proof. intros Hwf Hc. exact (Forall_lookup_1 _ _ _ _ (wf_depth _ _ _ Hwf) Hc). Qed.

(** The column of a token, through the pointers. *)
Lemma wf_ptr h d tbl i c : wf h d tbl → tbl !! i = Some c →
  ∃ p, ptr_at h d (Z.of_nat i) = Ret p ∧ cols h !! p = Some c.
Proof.
  intros [_ (ps & Hv & Hps) _ _] Hc.
  destruct (Forall2_lookup_r _ _ _ _ _ Hps Hc) as (p & Hp & Hcp).
  exists p. split; [|done]. unfold ptr_at. rewrite (load_Ret _ _ _ Hv), bind_Ret.
  apply vec_at_lookup. rewrite Nat2Z.id. split; [lia|done].
Qed.

Lemma wf_getNodes h d tbl i c : wf h d tbl → tbl !! i = Some c →
  ∃ p, getNodes h d (Z.of_nat i) = Ret p ∧ load (cols h) p = Ret c.
Proof.
  intros Hwf Hc. destruct (wf_ptr _ _ _ _ _ Hwf Hc) as (p & Hp & Hl).
  exists p. split; [|by apply load_Ret]. unfold getNodes. apply lookup_lt_Some in Hc.
  pose proof (wf_length _ _ _ Hwf). by rewrite fds_verify_true, bind_Ret by lia.
Qed.

Lemma wf_getNode h d tbl i c j x : wf h d tbl → tbl !! i = Some c → c !! j = Some x →
  getNode h d (Z.of_nat i) (Z.of_nat j) = Ret x.
Proof.
  intros Hwf Hc Hx. unfold getNode.
  destruct (wf_getNodes _ _ _ _ _ Hwf Hc) as (p & -> & Hl).
  apply lookup_lt_Some in Hc. pose proof (wf_length _ _ _ Hwf).
  rewrite fds_verify_true, !bind_Ret by lia. rewrite Hl, bind_Ret. by apply get_ok.
Qed.

(** ** The reverse map *)
(** The tokens of [uid], in order, [uid] counted as often as it occurs. *)
Fixpoint tokens_from (k uid : Z) (tbl : list (list Z)) : list Z :=
  match tbl with
  | [] => []
  | c :: tbl => replicate (length (filter (λ x, x = uid) c)) k ++ tokens_from (k + 1) uid tbl
  end.

Definition lookup_tokens (m : gmap Z (list Z)) (uid : Z) : list Z := default [] (m !! uid).

Lemma lookup_tokens_push k v m uid :
  lookup_tokens (push_back k v m) uid =
  lookup_tokens m uid ++ (if decide (k = uid) then [v] else []).
Proof.
  unfold lookup_tokens, push_back. case_decide; subst.
  - by rewrite lookup_insert_eq.
  - by rewrite lookup_insert_ne, app_nil_r.
Qed.

Lemma push_column c k m uid :
  lookup_tokens (foldl (λ m x, push_back x k m) m c) uid =
  lookup_tokens m uid ++ replicate (length (filter (λ x, x = uid) c)) k.
Proof.
  revert m. induction c as [|x c IH]; intros m; simpl; [by rewrite app_nil_r|].
  rewrite IH, lookup_tokens_push, filter_cons, <-app_assoc. f_equal.
  by repeat case_decide.
Qed.

Lemma dom_push_column c k m :
  dom (foldl (λ m x, push_back x k m) m c) = dom m ∪ list_to_set c.
Proof.
  revert m. induction c as [|x c IH]; intros m; simpl; [set_solver|].
  rewrite IH. unfold push_back. rewrite dom_insert_L. set_solver.
Qed.

Lemma index_column_eq h d m k p c : cols h !! p = Some c → getLength c = depth d →
  index_column h d (m, k) p = Ret (foldl (λ m x, push_back x k m) m c, k + 1).
Proof.
  intros Hp Hc. unfold index_column. rewrite (load_Ret _ _ _ Hp), bind_Ret, <-Hc, for_range_get.
  by rewrite (foldM_pure _ (λ m x, push_back x k m)).
Qed.

Lemma index_columns h d ps tbl m k :
  Forall2 (λ p c, cols h !! p = Some c) ps tbl → Forall (λ c, getLength c = depth d) tbl →
  ∃ m', foldM (index_column h d) (m, k) ps = Ret (m', k + Z.of_nat (length tbl)) ∧
    (∀ uid, lookup_tokens m' uid = lookup_tokens m uid ++ tokens_from k uid tbl) ∧
    dom m' = dom m ∪ list_to_set (concat tbl).
Proof.
  intros Hps. revert m k. induction Hps as [|p c ps tbl Hp _ IH]; intros m k Hd.
  - exists m. simpl. rewrite Z.add_0_r. split_and!; [done| |set_solver].
    intros. by rewrite app_nil_r.
  - inversion Hd as [|? ? Hc Hd']; subst.
    rewrite foldM_cons, (index_column_eq _ _ _ _ _ _ Hp Hc), bind_Ret.
    destruct (IH (foldl (λ m x, push_back x k m) m c) (k + 1) Hd') as (m' & E & Hl & Hdom).
    exists m'. split_and!.
    + rewrite E. do 2 f_equal. simpl. lia.
    + intros uid. rewrite Hl, push_column, <-app_assoc. done.
    + rewrite Hdom, dom_push_column. simpl. rewrite list_to_set_app_L. set_solver.
Qed.

Lemma elem_of_tokens_from k uid tbl token :
  token ∈ tokens_from k uid tbl ↔
  ∃ i c, token = k + Z.of_nat i ∧ tbl !! i = Some c ∧ uid ∈ c.
Proof.
  revert k. induction tbl as [|c tbl IH]; intros k; simpl; [set_solver|].
  rewrite elem_of_app, elem_of_replicate, IH. split.
  - intros [[-> Hl]|(i & c' & -> & Hc & Hu)].
    + exists 0%nat, c. split_and!; [lia|done|].
      destruct (filter _ c) as [|x l] eqn:E; [done|].
      assert (x ∈ filter (λ x, x = uid) c) as Hx by (rewrite E; set_solver).
      by apply list_elem_of_filter in Hx as [-> ?].
    + exists (S i), c'. split_and!; [lia|done|done].
  - intros ([|i] & c' & -> & Hc & Hu); simpl in Hc.
    + injection Hc as ->. left. split; [lia|]. intros E.
      apply length_zero_iff_nil in E.
      assert (uid ∈ filter (λ x, x = uid) c') as Hx by (by apply list_elem_of_filter).
      rewrite E in Hx. set_solver.
    + right. exists i, c'. split_and!; [lia|done|done].
Qed.

Lemma NoDup_tokens_from k uid tbl : Forall NoDup tbl → NoDup (tokens_from k uid tbl).
Proof.
  intros Hn. revert k. induction Hn as [|c tbl Hc _ IH]; intros k; simpl; [constructor|].
  apply NoDup_app. split_and!; [| |apply IH].
  - assert (length (filter (λ x, x = uid) c) ≤ 1)%nat as Hle.
    { pose proof (NoDup_filter (λ x, x = uid) _ Hc) as Hf.
      assert (∀ x, x ∈ filter (λ x, x = uid) c → x = uid) as Hall
        by (intros x Hx; by apply list_elem_of_filter in Hx as [-> _]).
      destruct (filter _ c) as [|x [|y l]]; simpl; [lia|lia|].
      rewrite (Hall x), (Hall y) in Hf by set_solver. inversion Hf; set_solver. }
    destruct (length _) as [|[|]]; simpl; [constructor|apply NoDup_singleton|lia].
  - intros x [-> _]%elem_of_replicate (i & c' & Heq & _)%elem_of_tokens_from. lia.
Qed.

Lemma Sorted_tokens_from k uid tbl : StronglySorted Z.le (tokens_from k uid tbl).
Proof.
  revert k. induction tbl as [|c tbl IH]; intros k; simpl; [constructor|].
  apply StronglySorted_app. split_and!; [| |apply IH].
  - intros x y [-> _]%elem_of_replicate (i & c' & -> & _)%elem_of_tokens_from. lia.
  - generalize (length (filter (λ x, x = uid) c)). intros n.
    induction n as [|n IHn]; simpl; constructor; [done|]. by apply Forall_replicate.
Qed.

(** The heap changes of the reverse map leave the columns alone. *)
Lemma wf_set_map h d tbl p m : wf h d tbl → wf (set_map p m h) d tbl.
Proof. intros [? ? ? ?]. by split. Qed.

Definition cell (tbl : list (list Z)) (token index : Z) : Z :=
  default 0 (tbl !! Z.to_nat token ≫= λ c, c !! Z.to_nat index).

Lemma getTokens_index_spec h d tbl m uid index :
  wf h d tbl → maps h !! mapNodeTokens d = Some m → 0 ≤ index < depth d →
  (∀ token, token ∈ lookup_tokens m uid → 0 ≤ token < columns d) →
  getTokens_index h d [] uid index =
    Ret (filter (λ token, cell tbl token index = uid) (lookup_tokens m uid)).
Proof.
  intros Hwf Hm Hi Ht. unfold getTokens_index, lookup_tokens in *.
  rewrite (load_Ret _ _ _ Hm), bind_Ret. destruct (m !! uid) as [l|]; [|done]. simpl in *.
  rewrite (foldM_pure _ (λ tl token, if decide (cell tbl token index = uid) then tl ++ [token] else tl)).
  - f_equal. by rewrite (foldl_filter_app (λ token, cell tbl token index = uid)).
  - intros tl token Hin. specialize (Ht _ Hin). pose proof (wf_length _ _ _ Hwf) as Hlen.
    destruct (lookup_lt_is_Some_2 tbl (Z.to_nat token)) as [c Hc]; [lia|].
    destruct (wf_ptr _ _ _ _ _ Hwf Hc) as (p & Hp & Hpc). rewrite Z2Nat.id in Hp by lia.
    unfold col_at. rewrite Hp, bind_Ret, (load_Ret _ _ _ Hpc), bind_Ret.
    pose proof (wf_depth_lookup _ _ _ _ _ Hwf Hc) as Hd. unfold getLength in Hd.
    destruct (lookup_lt_is_Some_2 c (Z.to_nat index)) as [x Hx]; [lia|].
    assert (get c index = Ret x) as -> by (apply get_lookup; split; [lia|done]).
    unfold cell. by rewrite Hc; simpl; rewrite Hx.
Qed.

(** [generateNodeTokenMap] builds the reverse of the table: afterwards
    [getAllNodes] lists the uuids that occur in the table, [getTokens] of a
    uuid lists in increasing order exactly the tokens whose column holds it
    (once each when columns hold distinct uuids), and [getTokens] at a row
    lists exactly the tokens that hold it in that row. *)
Theorem generateNodeTokenMap_spec h d tbl : wf h d tbl →
  ∃ h', generateNodeTokenMap d h = Ret h' ∧ wf h' d tbl ∧
    getAllNodes h' d = Ret (set_iter (list_to_set (concat tbl))) ∧
    ∀ uid, ∃ l, getTokens h' d uid = Ret l ∧ StronglySorted Z.le l ∧
      (Forall NoDup tbl → NoDup l) ∧
      (∀ token, token ∈ l ↔ ∃ i c, token = Z.of_nat i ∧ tbl !! i = Some c ∧ uid ∈ c) ∧
      (∀ index, 0 ≤ index < depth d → ∃ l', getTokens_index h' d [] uid index = Ret l' ∧
        ∀ token, token ∈ l' ↔
          ∃ i c, token = Z.of_nat i ∧ tbl !! i = Some c ∧ c !! Z.to_nat index = Some uid).
Proof.
  intros Hwf. pose proof Hwf as [_ (ps & Hv & Hps) Hlen Hd].
  destruct (index_columns h d ps tbl ∅ 0 Hps Hd) as (m & E & Hl & Hdom).
  unfold generateNodeTokenMap. rewrite (load_Ret _ _ _ Hv), bind_Ret, E, bind_Ret. simpl.
  eexists. split; [done|]. pose proof (wf_set_map _ _ _ (mapNodeTokens d) m Hwf) as Hwf'.
  set (h' := set_map _ _ _) in *.
  assert (maps h' !! mapNodeTokens d = Some m) as Hm by apply lookup_insert_eq.
  assert (∀ uid, lookup_tokens m uid = tokens_from 0 uid tbl) as Htok by (intros; by rewrite Hl).
  split; [done|]. split.
  { unfold getAllNodes, map_keys. rewrite (load_Ret _ _ _ Hm), bind_Ret, Hdom, dom_empty_L.
    by rewrite (left_id_L ∅ (∪)). }
  intros uid. exists (tokens_from 0 uid tbl). split_and!.
  - unfold getTokens. rewrite (load_Ret _ _ _ Hm), bind_Ret. f_equal. apply Htok.
  - apply Sorted_tokens_from.
  - apply NoDup_tokens_from.
  - intros token. apply elem_of_tokens_from.
  - intros index Hi. rewrite (getTokens_index_spec _ _ _ _ _ _ Hwf' Hm Hi), Htok.
    2:{ intros token. rewrite Htok. intros (i & c & -> & Hc%lookup_lt_Some & _)%elem_of_tokens_from. lia. }
    eexists. split; [done|]. intros token.
    rewrite list_elem_of_filter, elem_of_tokens_from. unfold cell. split.
    + intros (Hcell & i & c & -> & Hc & Hu). exists i, c. split_and!; [lia|done|].
      rewrite Z.add_0_l, Nat2Z.id, Hc in Hcell. simpl in Hcell.
      pose proof (wf_depth_lookup _ _ _ _ _ Hwf Hc) as Hdc. unfold getLength in Hdc.
      destruct (lookup_lt_is_Some_2 c (Z.to_nat index)) as [x Hx]; [lia|].
      rewrite Hx in Hcell. simpl in Hcell. congruence.
    + intros (i & c & -> & Hc & Hx). rewrite Nat2Z.id, Hc. simpl. rewrite Hx. split; [done|].
      exists i, c. split_and!; [lia|done|by eapply list_elem_of_lookup_2].
Qed.

(** A small table for the concrete checks: two tokens, two replicas. *)
Definition demo_heap : heap :=
  Heap {[1 := [11; 12]; 2 := [12; 13]]} {[3 := [1; 2]]} {[4 := ∅]} 5.
Definition demo : t := Make (FDS_Table.make 1 2 7) 3 false 4 1000 false.

Lemma demo_wf : wf demo_heap demo [[11; 12]; [12; 13]].
Proof.
  split; [|exists [1; 2]; split; [done|]|done|repeat constructor].
  - apply FDS_Table.make_well_shaped; unfold uint64_max; lia.
  - repeat constructor.
Qed.

Lemma generateNodeTokenMap_spec_witness :
  ∃ h', generateNodeTokenMap demo demo_heap = Ret h' ∧ getAllNodes h' demo = Ret [11; 12; 13] ∧
    ∃ l, getTokens h' demo 12 = Ret l ∧ ∀ token, token ∈ l ↔
      ∃ i c, token = Z.of_nat i ∧ [[11; 12]; [12; 13]] !! i = Some c ∧ 12 ∈ c.
Proof.
  destruct (generateNodeTokenMap_spec _ _ _ demo_wf) as (h' & E & _ & Hall & Htok).
  exists h'. split; [done|]. split; [by rewrite Hall; vm_compute|].
  destruct (Htok 12) as (l & El & _ & _ & Hl & _). eauto.
Defined.

(** ** Copies *)
Definition heap_ok (h : heap) : Prop :=
  0 < next h ∧
  (∀ p c, cols h !! p = Some c → 0 < p < next h) ∧
  (∀ p v, vecs h !! p = Some v → 0 < p < next h) ∧
  (∀ p m, maps h !! p = Some m → 0 < p < next h).

Lemma new_cols_spec cs h :
  ∃ cols', new_cols cs h = (Heap cols' (vecs h) (maps h) (next h + Z.of_nat (length cs)),
                            seqZ (next h) (Z.of_nat (length cs))) ∧
    ∀ p, cols' !! p = if decide (next h ≤ p < next h + Z.of_nat (length cs))
                      then cs !! Z.to_nat (p - next h) else cols h !! p.
Proof.
  revert h. induction cs as [|c cs IH]; intros h; simpl.
  - exists (cols h). split; [f_equal; destruct h; simpl; f_equal; lia|].
    intros p. rewrite decide_False by lia. done.
  - destruct (IH (bump (set_col (next h) c h))) as (cols' & -> & Hc). simpl in *.
    exists cols'. split.
    + rewrite Nat2Z.inj_succ, (seqZ_cons (next h)), Z.pred_succ by lia.
      rewrite <-(Z.add_1_r (next h)).
      by replace (next h + Z.succ (Z.of_nat (length cs)))
        with (next h + 1 + Z.of_nat (length cs)) by lia.
    + intros p. rewrite Hc. destruct (decide (p = next h)) as [->|Hne].
      * rewrite decide_False, lookup_insert_eq, decide_True by lia. by rewrite Z.sub_diag.
      * destruct (decide (next h ≤ p < next h + Z.of_nat (S (length cs)))).
        -- rewrite decide_True by lia.
           replace (Z.to_nat (p - next h)) with (S (Z.to_nat (p - (next h + 1)))) by lia. done.
        -- rewrite decide_False, lookup_insert_ne by lia. done.
Qed.

(** A table whose [columns] columns are allocated from [q] on. *)
Definition fresh_at (h : heap) (n : t) (q : Z) : Prop :=
  vecs h !! distList n = Some (seqZ q (columns n)).

Lemma make_init w dep v now h :
  0 ≤ w < 32 → 0 ≤ dep < 2 ^ 32 →
  let '(h', n) := make w dep v true now h in
  base n = FDS_Table.make w dep v ∧ next h ≤ distList n < next h' ∧
  mapNodeTokens n = next h + 1 ∧ fresh_at h' n (next h + 2) ∧ 
  next h' = next h + 2 + 2 ^ w ∧
  (∀ p, cols h' !! p = if decide (next h + 2 ≤ p < next h + 2 + 2 ^ w)
                       then Some (TableColumn.make dep) else cols h !! p) ∧
  (∀ p, p < next h → vecs h' !! p = vecs h !! p ∧ maps h' !! p = maps h !! p).
Proof.
  intros Hw Hd. unfold make, new_vec, new_map. simpl.
  assert (0 < 2 ^ w < 2 ^ 32) as Hp
    by (split; [apply Z.pow_pos_nonneg; lia|apply Z.pow_lt_mono_r; lia]).
  rewrite u32_small by lia.
  set (h0 := bump (set_map _ _ _)).
  destruct (new_cols_spec (replicate (Z.to_nat (2 ^ w)) (TableColumn.make dep)) h0) as (cols' & -> & Hc).
  rewrite length_replicate, Z2Nat.id in * by lia. simpl in *.
  assert (next h + 1 + 1 = next h + 2) as Heq by lia. rewrite Heq in *. clear h0.
  split_and!; try (done || lia).
  - unfold fresh_at, columns. simpl. rewrite u32_small by lia. by rewrite lookup_insert_eq.
  - intros p. rewrite Hc. case_decide; [|done]. apply lookup_replicate_2. lia.
  - intros p Hlt. by rewrite !lookup_insert_ne by lia.
Qed.

Lemma heap_eta h : Heap (cols h) (vecs h) (maps h) (next h) = h.
Proof. by destruct h. Qed.

(** Copying one column, cell by cell, into another one. *)
Lemma copy_column h d n i p q c c0 :
  ptr_at h d i = Ret p → cols h !! p = Some c →
  ptr_at h n i = Ret q → cols h !! q = Some c0 → p ≠ q → length c = length c0 →
  for_range (getLength c) (λ h j, c ← col_at h d i; x ← get c j; set_cell n i j x h) h =
  Ret (set_col q c h).
Proof.
  intros Hp Hc Hq Hc0 Hne Hlen.
  destruct (for_range_rule (λ k h', h' = set_col q (take k c ++ drop k c0) h)
    (λ h j, c ← col_at h d i; x ← get c j; set_cell n i j x h) (length c) h) as (h' & E & ->).
  - simpl. unfold set_col. rewrite drop_0, insert_id by done. by rewrite heap_eta.
  - intros k h' Hk ->. eexists. split; [|done].
    destruct (lookup_lt_is_Some_2 c k Hk) as [x Hx].
    unfold col_at, set_cell. change (ptr_at (set_col _ _ h)) with (ptr_at h). rewrite Hp, Hq.
    rewrite !bind_Ret. unfold load, set_col at 1. simpl.
    rewrite (lookup_insert_ne _ q p), Hc, bind_Ret, (get_ok _ _ _ Hx), bind_Ret by (done || congruence).
    rewrite lookup_insert_eq, bind_Ret, set_ok, bind_Ret.
    2:{ unfold getLength. rewrite length_app, length_take, length_drop. lia. }
    rewrite Nat2Z.id, (insert_take_drop _ _ _ _ Hx Hlen).
    unfold set_col. simpl. by rewrite insert_insert_eq.
  - unfold getLength. rewrite E. by rewrite take_ge, drop_ge, app_nil_r by lia.
Qed.

(** Tables whose columns are allocated below a pointer do not see writes
    above it. *)
Lemma wf_frame h h' d tbl :
  wf h d tbl → vecs h' !! distList d = vecs h !! distList d →
  (∀ p c, cols h !! p = Some c → cols h' !! p = Some c) → wf h' d tbl.
Proof.
  intros [Hs (ps & Hv & Hps) Hl Hd] Hvec Hcols. split; [done| |done|done].
  exists ps. split; [congruence|]. eapply Forall2_impl; [done|]. simpl. eauto.
Qed.

Lemma clone_ok h d tbl now : heap_ok h → wf h d tbl →
  ∃ h' n, clone d now h = Ret (h', n) ∧ wf h' n tbl ∧
    vecs h' !! distList d = vecs h !! distList d ∧
    (∀ p c, cols h !! p = Some c → cols h' !! p = Some c) ∧
    base n = FDS_Table.make (width d) (depth d) (version d) ∧ timestamp n = timestamp d ∧
    vecs h' !! distList n = Some (seqZ (next h + 2) (columns d)) ∧
    distList d < next h ∧ next h ≤ distList n.
Proof.
  intros (Hnext & Hcok & Hvok & _) Hwf. pose proof Hwf as [Hs (ps & Hv & Hps) Hl Hd].
  pose proof Hs as (Hdep & Hwid & Hcolumns & Hver & _).
  unfold clone. pose proof (make_init (width d) (depth d) (version d) now h Hwid Hdep) as Hmk.
  destruct (make (width d) (depth d) (version d) true now h) as [h1 n0].
  destruct Hmk as (Hb & Hdl & Hmt & Hfr & Hn1 & Hc1 & Hv1). simpl.
  set (n := Make _ _ _ _ _ _). set (q := next h + 2) in *.
  assert (columns n = columns d) as Hcn.
  { unfold n, columns. simpl. rewrite Hb. simpl. rewrite u32_small; [done|].
    split; [apply Z.pow_nonneg; lia|apply Z.pow_lt_mono_r; unfold width in *; lia]. }
  assert (2 ^ width d = columns d) as Hpow by done. rewrite Hpow in *.
  assert (distList d < next h) as Hdd by (apply Hvok in Hv; lia).
  assert (vecs h1 !! distList n = Some (seqZ q (columns d))) as Hvn
    by (unfold fresh_at in Hfr; by rewrite <-Hcn).
  assert (∀ p c, cols h !! p = Some c → cols h1 !! p = Some c) as Hold.
  { intros p c Hp. rewrite Hc1, decide_False; [done|]. apply Hcok in Hp. lia. }
  assert (wf h1 d tbl) as Hwf1.
  { apply (wf_frame h); [done| |done]. by apply Hv1. }
  rewrite <-Hl.
  edestruct (for_range_rule (λ k h', vecs h' = vecs h1 ∧
    ∀ p, cols h' !! p = if decide (q ≤ p < q + Z.of_nat k) then tbl !! Z.to_nat (p - q) else cols h1 !! p)
    ) as (h' & E & Hvec & Hcols).
  3:{ rewrite E. eexists _, n. split; [reflexivity|].
      assert (∀ p c, cols h !! p = Some c → cols h' !! p = Some c) as Hkeep.
      { intros p c Hp. rewrite Hcols, decide_False; [auto|]. apply Hcok in Hp. lia. }
      split_and!; [|by rewrite Hvec; apply Hv1|done|done|done|by rewrite Hvec, Hl|done|unfold n; simpl; lia].
      split; [|exists (seqZ q (columns d)); split; [by rewrite Hvec|]|by rewrite Hcn|].
      - unfold n. simpl. rewrite Hb. by apply FDS_Table.make_well_shaped.
      - apply Forall2_lookup. intros i.
        destruct (tbl !! i) as [c|] eqn:Hc.
        + apply lookup_lt_Some in Hc as Hi. rewrite lookup_seqZ_lt by lia. constructor.
          rewrite Hcols, decide_True by lia.
          by replace (Z.to_nat (q + Z.of_nat i - q)) with i by lia.
        + apply lookup_ge_None in Hc. rewrite lookup_seqZ_ge by lia. constructor.
      - unfold n, depth. simpl. rewrite Hb. exact Hd. }
  - split; [done|]. intros p. by rewrite decide_False by lia.
  - intros k h' Hk [Hvec Hcols]. destruct (lookup_lt_is_Some_2 tbl k Hk) as [c Hc].
    destruct (wf_ptr _ _ _ _ _ Hwf Hc) as (p & Hp & Hpc).
    rewrite <-(wf_depth_lookup _ _ _ _ _ Hwf Hc).
    eexists. split.
    + apply (copy_column h' d n (Z.of_nat k) p (q + Z.of_nat k) c (TableColumn.make (depth d))).
      * rewrite <-Hp. unfold ptr_at. rewrite Hvec. unfold load. by rewrite (proj1 (Hv1 _ Hdd)).
      * rewrite Hcols, decide_False; [by apply Hold|]. apply Hcok in Hpc. lia.
      * unfold ptr_at, load. rewrite Hvec, Hvn, bind_Ret. apply vec_at_lookup.
        rewrite Nat2Z.id, lookup_seqZ_lt by lia. split; [lia|done].
      * rewrite Hcols, decide_False, Hc1, decide_True by lia. done.
      * apply Hcok in Hpc. lia.
      * rewrite length_make, <-(wf_depth_lookup _ _ _ _ _ Hwf Hc). unfold getLength. lia.
    + split; [done|]. intros p'. simpl. destruct (decide (p' = q + Z.of_nat k)) as [->|Hne].
      * rewrite lookup_insert_eq, decide_True by lia.
        by replace (Z.to_nat (q + Z.of_nat k - q)) with k by lia.
      * rewrite lookup_insert_ne, Hcols by done. repeat case_decide; (done || lia).
Qed.

Lemma load_inv {A} (m : gmap Z A) p a : load m p = Ret a → m !! p = Some a.
Proof. unfold load. destruct (m !! p); naive_solver. Qed.

Lemma setNode_inv d token index u h h' : setNode d token index u h = Ret h' →
  index < depth d ∧ token < columns d ∧ ∃ p c, ptr_at h d token = Ret p ∧ cols h !! p = Some c ∧
    0 ≤ index < getLength c ∧ h' = set_col p (<[Z.to_nat index := u]> c) h.
Proof.
  unfold setNode, set_cell. intros [Hi H]%bind_verify. apply bind_verify in H as [Ht H].
  split_and!; [done..|].
  apply bind_Ret_inv in H as (p & Hp & H). apply bind_Ret_inv in H as (c & Hc%load_inv & H).
  apply bind_Ret_inv in H as (c' & Hset & [= <-]). unfold set in Hset.
  apply bind_verify in Hset as [Hidx [= <-]]. eauto 10.
Qed.

(** What was set is read back, through any table that shares the column. *)
Lemma getNode_setNode d d' token index u h h' : setNode d token index u h = Ret h' →
  distList d' = distList d → columns d' = columns d → getNode h' d' token index = Ret u.
Proof.
  intros (Hi & Ht & p & c & Hp & Hc & Hidx & ->)%setNode_inv Hdl Hcl.
  unfold getNode, getNodes. rewrite Hcl, !fds_verify_true, !bind_Ret by done.
  assert (ptr_at (set_col p (<[Z.to_nat index:=u]> c) h) d' token = Ret p) as ->.
  { rewrite <-Hp. unfold ptr_at. simpl. by rewrite Hdl. }
  rewrite bind_Ret. unfold load. simpl. rewrite lookup_insert_eq, bind_Ret.
  apply get_lookup. split; [lia|]. apply list_lookup_insert_eq. unfold getLength in *. lia.
Qed.

(** [clone] is a deep copy: it returns a table with the same version,
    timestamp and columns, and whatever cell of the clone is set afterwards
    reads back from the clone while the original's columns keep their
    contents. *)
Theorem clone_independent h d tbl now : heap_ok h → wf h d tbl →
  ∃ h' n, clone d now h = Ret (h', n) ∧ wf h' n tbl ∧ wf h' d tbl ∧
    getVersion n = getVersion d ∧ timestamp n = timestamp d ∧
    ∀ token index u h'', setNode n token index u h' = Ret h'' →
      getNode h'' n token index = Ret u ∧ wf h'' d tbl.
Proof.
  intros Hok Hwf. destruct (clone_ok h d tbl now Hok Hwf) as
    (h' & n & E & Hn & Hvd & Hkeep & Hb & Hts & Hvn & Hdl & Hnl).
  exists h', n. split_and!; [done|done|by apply (wf_frame h)| |done|].
  { unfold getVersion, version. by rewrite Hb. }
  intros token index u h'' Hset. split; [by eapply getNode_setNode|].
  destruct (setNode_inv _ _ _ _ _ _ Hset) as (_ & _ & p & c & Hp & Hc & _ & ->).
  unfold ptr_at, load in Hp. rewrite Hvn, bind_Ret in Hp.
  apply vec_at_lookup in Hp as [_ Hp]. apply lookup_seqZ in Hp as [-> _].
  apply (wf_frame h); [done..|]. intros p' c' Hc'. simpl.
  rewrite lookup_insert_ne; [by apply Hkeep|]. apply Hok in Hc'. lia.
Qed.

Lemma demo_heap_ok : heap_ok demo_heap.
Proof.
  split_and!; [done|..]; intros p c; simpl;
    repeat (rewrite lookup_insert_Some || rewrite lookup_singleton_Some); intros; destruct_or?;
    destruct_and?; subst; lia.
Qed.

Lemma clone_independent_witness :
  ∃ h' n h'', clone demo 0 demo_heap = Ret (h', n) ∧ setNode n 1 0 99 h' = Ret h'' ∧
    wf h'' demo [[11; 12]; [12; 13]].
Proof.
  destruct (clone_independent _ _ _ 0 demo_heap_ok demo_wf) as (h' & n & E & _ & _ & _ & _ & Hset).
  pose proof E as E'. vm_compute in E'. injection E' as <- <-.
  eexists _, _, _. split; [exact E|]. split; [reflexivity|].
  refine (proj2 (Hset 1 0 99 _ _)). reflexivity.
Defined.

(** The copy constructor shares the columns: setting a cell of the copy
    is visible through the original. *)
Theorem copy_shares h d tbl token index u h' : wf h d tbl →
  setNode (copy d) token index u h = Ret h' → getNode h' d token index = Ret u.
Proof.
  intros [(_ & Hw & Hcl & _) _ _ _] Hset. apply (getNode_setNode _ d _ _ _ _ _ Hset); [done|].
  unfold columns, copy. simpl. rewrite u32_small; [done|].
  split; [apply Z.pow_nonneg; lia|apply Z.pow_lt_mono_r; unfold width in *; lia].
Qed.

Lemma copy_shares_witness :
  ∃ h', setNode (copy demo) 1 0 99 demo_heap = Ret h' ∧ getNode h' demo 1 0 = Ret 99 ∧
    getNode demo_heap demo 1 0 = Ret 12.
Proof.
  eexists. split; [reflexivity|]. split; [|reflexivity].
  exact (copy_shares demo_heap demo _ 1 0 99 _ demo_wf eq_refl).
Defined.

(** ** Sources for migration *)
(** A row of the column that may serve as a new source: not the current
    source's row and not the destination. *)
Definition eligible (c : list Z) (curSrcIdx curDestSM : Z) (x : Z) : Prop :=
  ∃ j : nat, c !! j = Some x ∧ Z.of_nat j ≠ curSrcIdx ∧ x ≠ curDestSM.

Section Search.
Context (h : heap) (d : t) (tbl : list (list Z)) (i : nat) (c : list Z) (cur dest : Z).
Hypothesis Hwf : wf h d tbl.
Hypothesis Hc : tbl !! i = Some c.
Hypothesis Hdepth : 0 < depth d ≤ 256.

Lemma next_index j : 0 ≤ j < depth d →
  u8 (u8 (j + 1) `mod` getDepth d) = (j + 1) `mod` depth d.
Proof.
  intros Hj. unfold getDepth, u8. destruct (decide (j + 1 = 256)) as [Heq|Hne].
  - rewrite Heq. assert (depth d = 256) as -> by lia. done.
  - rewrite (Z.mod_small (j + 1)) by lia. apply Z.mod_small.
    pose proof (Z.mod_pos_bound (j + 1) (depth d) ltac:(lia)). lia.
Qed.

(** One look at row [j]. *)
Lemma search_step fuel j : 0 ≤ j < depth d → ∃ x, c !! Z.to_nat j = Some x ∧
  search_source (S fuel) h d (Z.of_nat i) cur j dest =
    if decide (j ≠ cur ∧ x ≠ dest) then Ret x
    else search_source fuel h d (Z.of_nat i) cur ((j + 1) `mod` depth d) dest.
Proof.
  intros Hj. pose proof (wf_depth_lookup _ _ _ _ _ Hwf Hc) as Hl. unfold getLength in Hl.
  destruct (lookup_lt_is_Some_2 c (Z.to_nat j)) as [x Hx]; [lia|].
  exists x. split; [done|]. cbn [search_source].
  pose proof (wf_getNode _ _ _ _ _ _ _ Hwf Hc Hx) as Hn. rewrite Z2Nat.id in Hn by lia.
  rewrite Hn, bind_Ret, next_index by done. done.
Qed.

Lemma search_finds_from n g x fuel j :
  c !! g = Some x → Z.of_nat g ≠ cur → x ≠ dest → 0 ≤ j < depth d →
  (j + Z.of_nat n) `mod` depth d = Z.of_nat g → (n < fuel)%nat →
  ∃ y, search_source fuel h d (Z.of_nat i) cur j dest = Ret y ∧ eligible c cur dest y.
Proof.
  intros Hg Hgc Hxd. revert fuel j. induction n as [|n IH]; intros [|fuel] j Hj Hmod Hf; try lia.
  all: destruct (search_step fuel j Hj) as (y & Hy & ->).
  - rewrite Z.add_0_r, Z.mod_small in Hmod by lia. subst.
    assert (y = x) as -> by (rewrite Nat2Z.id in Hy; congruence).
    rewrite decide_True by (split; [congruence|done]). exists x. split; [done|].
    exists g. done.
  - case_decide as Hgood.
    + exists y. split; [done|]. exists (Z.to_nat j). rewrite Z2Nat.id by lia. naive_solver.
    + apply IH; [apply Z.mod_pos_bound; lia| |lia].
      rewrite Zplus_mod_idemp_l. rewrite <-Hmod. f_equal. lia.
Qed.

Lemma search_finds fuel j : (∃ x, eligible c cur dest x) → 0 ≤ j < depth d →
  depth d ≤ Z.of_nat fuel →
  ∃ y, search_source fuel h d (Z.of_nat i) cur j dest = Ret y ∧ eligible c cur dest y.
Proof.
  intros (x & g & Hg & Hgc & Hxd) Hj Hf.
  pose proof (wf_depth_lookup _ _ _ _ _ Hwf Hc) as Hl. apply lookup_lt_Some in Hg as Hlt.
  unfold getLength in Hl.
  pose proof (Z.mod_pos_bound (Z.of_nat g - j) (depth d) ltac:(lia)).
  apply (search_finds_from (Z.to_nat ((Z.of_nat g - j) `mod` depth d)) g x); [done..| |lia].
  rewrite Z2Nat.id, Zplus_mod_idemp_r by lia. rewrite Z.mod_small by lia. lia.
Qed.

(** Whatever the bound, the loop ends only at an eligible row. *)
Lemma search_cases fuel j : 0 ≤ j < depth d →
  search_source fuel h d (Z.of_nat i) cur j dest = Fault OutOfFuel ∨
  ∃ y, search_source fuel h d (Z.of_nat i) cur j dest = Ret y ∧ eligible c cur dest y.
Proof.
  revert j. induction fuel as [|fuel IH]; intros j Hj; [by left|].
  destruct (search_step fuel j Hj) as (y & Hy & ->).
  case_decide as Hg; [|apply IH, Z.mod_pos_bound; lia].
  right. exists y. split; [done|]. exists (Z.to_nat j). rewrite Z2Nat.id by lia. naive_solver.
Qed.

End Search.

(** The row from which the source [src] of column [c] is counted. *)
Definition source_row (c : list Z) (src : Z) : Z := u8 (find c src).

Lemma source_step_search fuel h d tbl i c src retry dest groups :
  wf h d tbl → tbl !! i = Some c → 0 < depth d ≤ 256 →
  ∃ j, 0 ≤ j < depth d ∧
    source_step fuel h d src retry dest groups (Z.of_nat i) =
      (y ← search_source fuel h d (Z.of_nat i) (source_row c src) j dest;
       Ret (push_back y (Z.of_nat i) groups)).
Proof.
  intros Hwf Hc Hd. unfold source_step, getIndex.
  destruct (wf_getNodes _ _ _ _ _ Hwf Hc) as (p & -> & Hl).
  rewrite bind_Ret, Hl, !bind_Ret. unfold getDepth. rewrite decide_False by lia.
  pose proof (Z.mod_pos_bound (u8 (find c src) + retry) (depth d) ltac:(lia)).
  eexists. split; [|done]. set (x := (_ + retry) `mod` depth d) in *.
  unfold u8. rewrite Z.mod_small; lia.
Qed.

Section NewSources.
Context (h : heap) (d : t) (tbl : list (list Z)) (src retry dest : Z).
Hypothesis Hwf : wf h d tbl.
Hypothesis Hdepth : 0 < depth d ≤ 256.

Lemma token_column token : 0 ≤ token < columns d →
  ∃ c, tbl !! Z.to_nat token = Some c ∧ Z.of_nat (Z.to_nat token) = token.
Proof.
  intros Ht. pose proof (wf_length _ _ _ Hwf).
  destruct (lookup_lt_is_Some_2 tbl (Z.to_nat token)) as [c Hc]; [lia|]. exists c.
  split; [done|lia].
Qed.

Lemma sources_found fuel groups tokens :
  depth d ≤ Z.of_nat fuel →
  (∀ token, token ∈ tokens → 0 ≤ token < columns d) →
  (∀ token c, token ∈ tokens → tbl !! Z.to_nat token = Some c →
    ∃ x, eligible c (source_row c src) dest x) →
  ∃ groups', foldM (source_step fuel h d src retry dest) groups tokens = Ret groups' ∧
    (∀ token sm, token ∈ lookup_tokens groups' sm → token ∈ lookup_tokens groups sm ∨
      (token ∈ tokens ∧ ∃ c, tbl !! Z.to_nat token = Some c ∧ eligible c (source_row c src) dest sm)) ∧
    (∀ token sm, token ∈ lookup_tokens groups sm → token ∈ lookup_tokens groups' sm) ∧
    (∀ token, token ∈ tokens → ∃ sm, token ∈ lookup_tokens groups' sm).
Proof.
  intros Hfuel. revert groups. induction tokens as [|token tokens IH]; intros groups Hr He.
  { exists groups. split; [done|]. set_solver. }
  destruct (token_column token) as (c & Hc & Ht); [set_solver|].
  destruct (source_step_search fuel h d tbl _ c src retry dest groups Hwf Hc Hdepth) as (j & Hj & Es).
  rewrite Ht in Es. rewrite foldM_cons, Es.
  destruct (search_finds h d tbl _ c (source_row c src) dest Hwf Hc Hdepth fuel j) as (y & Ey & Hy);
    [apply (He token); set_solver|done|done|].
  rewrite Ht in Ey. rewrite Ey, !bind_Ret.
  destruct (IH (push_back y token groups)) as (groups' & E & H1 & H2 & H3); [set_solver..|].
  exists groups'. split; [done|].
  assert (∀ t sm, t ∈ lookup_tokens (push_back y token groups) sm ↔
    t ∈ lookup_tokens groups sm ∨ (sm = y ∧ t = token)) as Hpush.
  { intros t sm. rewrite lookup_tokens_push. case_decide; set_solver. }
  split_and!.
  - intros t sm Hin. destruct (H1 t sm Hin) as [Hp|[Hin' Hex]].
    + apply Hpush in Hp as [?|[-> ->]]; [by left|]. right. split; [set_solver|]. eauto.
    + right. split; [set_solver|done].
  - intros t sm Hin. apply H2, Hpush. by left.
  - intros t [->|Hin]%elem_of_cons; [|by apply H3]. exists y. apply H2, Hpush. by right.
Qed.

(** [getNewSourceSMs] finds new sources.  When every token has a
    replica other than the current source's row and the destination, the
    search loops end within [depth] rounds each, every token is assigned to
    at least one manager, and every manager a token is assigned to holds a
    replica of it in another row than the current source and is not the
    destination. *)
Theorem getNewSourceSMs_found (tokens : gset Z) (fuel : nat) :
  depth d ≤ Z.of_nat fuel →
  (∀ token, token ∈ tokens → 0 ≤ token < columns d) →
  (∀ token c, token ∈ tokens → tbl !! Z.to_nat token = Some c →
    ∃ x, eligible c (source_row c src) dest x) →
  ∃ groups, getNewSourceSMs fuel h d src tokens retry dest = Ret groups ∧
    (∀ token sm, token ∈ lookup_tokens groups sm → token ∈ tokens ∧
      ∃ c, tbl !! Z.to_nat token = Some c ∧ eligible c (source_row c src) dest sm) ∧
    (∀ token, token ∈ tokens → ∃ sm, token ∈ lookup_tokens groups sm).
Proof.
  intros Hfuel Hr He.
  destruct (sources_found fuel ∅ (set_iter tokens)) as (groups & E & H1 & _ & H3).
  - done.
  - intros token Hin. by apply Hr, elem_of_set_iter.
  - intros token c Hin. by apply He, elem_of_set_iter.
  - exists groups. split; [done|]. split.
    + intros token sm Hin. destruct (H1 token sm Hin) as [Hno|[Hin' Hex]].
      * unfold lookup_tokens in Hno. rewrite lookup_empty in Hno. set_solver.
      * split; [by apply elem_of_set_iter|done].
    + intros token Hin. by apply H3, elem_of_set_iter.
Qed.

(** [getNewSourceSMs] never returns when some token has no other
    eligible replica (for instance when [depth] is 1): the search loop has
    no exit for that case, so no fuel is enough, and the documented
    [INVALID_RESOURCE_UUID] group is never produced. *)
Theorem getNewSourceSMs_diverges (tokens : gset Z) token c (fuel : nat) :
  (∀ token, token ∈ tokens → 0 ≤ token < columns d) →
  token ∈ tokens → tbl !! Z.to_nat token = Some c →
  (∀ x, ¬ eligible c (source_row c src) dest x) →
  getNewSourceSMs fuel h d src tokens retry dest = Fault OutOfFuel.
Proof.
  intros Hr Hin Hc Hno. unfold getNewSourceSMs.
  assert (token ∈ set_iter tokens) as Hin' by (by apply elem_of_set_iter).
  assert (∀ t, t ∈ set_iter tokens → 0 ≤ t < columns d) as Hr'
    by (intros t Ht; by apply Hr, elem_of_set_iter).
  generalize (∅ : gmap Z (list Z)). clear Hin Hr. revert Hin' Hr'.
  generalize (set_iter tokens). intros l. induction l as [|t l IH]; intros Hin Hr groups; [set_solver|].
  rewrite foldM_cons.
  destruct (token_column t) as (c' & Hc' & Ht); [set_solver|].
  destruct (source_step_search fuel h d tbl _ c' src retry dest groups Hwf Hc' Hdepth) as (j & Hj & Es).
  rewrite Ht in Es. rewrite Es.
  destruct (search_cases h d tbl _ c' (source_row c' src) dest Hwf Hc' Hdepth fuel j Hj)
    as [Ey|(y & Ey & Hy)]; rewrite Ht in Ey; rewrite Ey; [done|].
  rewrite !bind_Ret. apply elem_of_cons in Hin as [->|Hin].
  - exfalso. assert (c' = c) as -> by congruence. by apply (Hno y).
  - apply IH; set_solver.
Qed.
End NewSources.

Lemma getNewSourceSMs_found_witness :
  ∃ groups, getNewSourceSMs 2 demo_heap demo 11 {[0]} 1 13 = Ret groups ∧
    ∃ sm, 0 ∈ lookup_tokens groups sm.
Proof.
  destruct (getNewSourceSMs_found demo_heap demo _ 11 1 13 demo_wf ltac:(by vm_compute) {[0]} 2)
    as (groups & E & _ & H); [by vm_compute| | |].
  - intros token ->%elem_of_singleton. by vm_compute.
  - intros token c ->%elem_of_singleton [= <-]. exists 12, 1%nat. done.
  - exists groups. split; [exact E|]. apply (H 0). set_solver.
Defined.

(** Token 0 is held by 11 and 12; with 12 failed as the source and 11 the
    destination there is no replica left. *)
Lemma getNewSourceSMs_diverges_witness :
  getNewSourceSMs 1000 demo_heap demo 12 {[0]} 1 11 = Fault OutOfFuel.
Proof.
  apply (getNewSourceSMs_diverges demo_heap demo _ 12 1 11 demo_wf ltac:(by vm_compute) {[0]} 0 [11; 12]).
  - intros token ->%elem_of_singleton. by vm_compute.
  - set_solver.
  - done.
  - intros x (j & Hj & Hne & Hx). destruct j as [|[|j]]; simpl in Hj; [congruence|done|done].
Defined.

(** ** Verification *)
Lemma verify_column_spec marked expected d c : getLength c = depth d →
  verify_column marked d expected c =
  Ret (if column_expected marked expected c then ERR_OK else ERR_INVALID_DLT).
Proof.
  intros Hd. unfold verify_column. rewrite <-Hd.
  rewrite (for_range_col _ (check_cell (cell_unexpected marked expected) ERR_INVALID_DLT)).
  2:{ intros [nodes|e] i x Hx; [|done]. simpl. rewrite (get_ok _ _ _ Hx), bind_Ret.
      unfold cell_unexpected. case_decide; [rewrite bool_decide_eq_true_2 by done
        |rewrite bool_decide_eq_false_2 by done; done]. by destruct (marked x). }
  rewrite check_loop, bind_Ret. rewrite <-(expected_verdict _ _ _ _ _ eq_refl).
  by destruct (existsb _ c).
Qed.

(** [DLT::verify(expectedUuidSet)]: on a well-formed table it always
    returns, [ERR_OK] exactly when the table has no more rows than nodes
    present or being removed, and every column holds pairwise distinct
    uuids, each a valid expected one or one marked for removal, and
    [ERR_INVALID_DLT] otherwise. *)
Theorem dlt_verify_spec (pending : Z) (marked : Z → bool) (expected : gset Z) h d tbl :
  wf h d tbl →
  ∃ e, verify pending marked h d expected = Ret e ∧ (e = ERR_OK ∨ e = ERR_INVALID_DLT) ∧
    (e = ERR_OK ↔ depth d ≤ Z.of_nat (size expected) + pending ∧
      ∀ c, c ∈ tbl →
        (∀ u, u ∈ c → (u ≠ 0 ∧ u ∈ expected) ∨ marked u = true) ∧ NoDup c).
Proof.
  intros Hwf. unfold verify. case_decide as Hd.
  { eexists. split; [done|]. split; [by right|]. split; [done|]. intros [? _]. lia. }
  rewrite <-(wf_length _ _ _ Hwf).
  rewrite (for_range_list _ (λ err c, match err with
    | ERR_OK => verify_column marked d expected c | e => Ret e end)).
  2:{ intros [] i c Hc; try done. destruct (wf_getNodes _ _ _ _ _ Hwf Hc) as (p & -> & Hl).
      by rewrite bind_Ret, Hl. }
  rewrite (check_columns _ (column_expected marked expected) ERR_INVALID_DLT); [|done| |done].
  2:{ intros c [i Hc]%list_elem_of_lookup. by apply verify_column_spec, (wf_depth_lookup h d tbl i). }
  eexists; split; [done|]. rewrite <-forallb_expected.
  destruct (forallb _ tbl).
  - split; [by left|]. split; [|done]. split; [lia|done].
  - split; [by right|]. naive_solver.
Qed.

Lemma dlt_verify_spec_witness :
  ∃ e, verify 0 (λ _, false) demo_heap demo {[11; 12]} = Ret e ∧ e = ERR_INVALID_DLT ∧
    (e = ERR_OK ∨ e = ERR_INVALID_DLT).
Proof.
  destruct (dlt_verify_spec 0 (λ _, false) {[11; 12]} _ _ _ demo_wf) as (e & E & He & _).
  exists e. split_and!; [exact E| |exact He]. vm_compute in E. by injection E as <-.
Defined.

(** ** The serialization round trip *)
(** The reverse map is in step with the table: it is still to be generated,
    or it has an entry for every uuid of the table; and there are at most
    [2^16] uuids. *)
Definition map_ready (h : heap) (d : t) (tbl : list (list Z)) : Prop :=
  ∃ m, maps h !! mapNodeTokens d = Some m ∧
    ((mapInitialized d = false ∧ m = ∅) ∨ list_to_set (concat tbl) ⊆ dom m) ∧
    (∀ k, k ∈ dom m ∪ list_to_set (C:=gset Z) (concat tbl) → 0 ≤ k ≤ uint64_max) ∧
    Z.of_nat (size (dom m ∪ list_to_set (C:=gset Z) (concat tbl))) ≤ 65536.

Lemma init_map_ok h d tbl : wf h d tbl → map_ready h d tbl →
  ∃ h1 d1 m1, init_map d h = Ret (h1, d1) ∧ wf h1 d1 tbl ∧
    base d1 = base d ∧ timestamp d1 = timestamp d ∧
    maps h1 !! mapNodeTokens d1 = Some m1 ∧
    (∀ u, u ∈ concat tbl → u ∈ map_keys m1) ∧
    (∀ k, k ∈ map_keys m1 → 0 ≤ k ≤ uint64_max) ∧ Z.of_nat (length (map_keys m1)) ≤ 65536.
Proof.
  intros Hwf (m & Hm & Hcov & Hr & Hsz).
  assert (∃ h1 d1 m1, init_map d h = Ret (h1, d1) ∧ wf h1 d1 tbl ∧
    base d1 = base d ∧ timestamp d1 = timestamp d ∧
    maps h1 !! mapNodeTokens d1 = Some m1 ∧ dom m1 = dom m ∪ list_to_set (concat tbl))
    as (h1 & d1 & m1 & E & Hwf1 & Hb & Ht & Hm1 & Hdom).
  { unfold init_map. destruct (mapInitialized d).
    { exists h, d, m. split_and!; [done..|]. destruct Hcov as [[? _]|]; [done|set_solver]. }
    rewrite (load_Ret _ _ _ Hm), bind_Ret.
    assert (∀ h', wf h' d tbl → wf h' (Make (base d) (distList d) true (mapNodeTokens d)
      (timestamp d) (closed d)) tbl) as Hflag by (intros h' [? ? ? ?]; by split).
    case_decide as Hemp.
    - pose proof Hwf as [_ (ps & Hv & Hps) _ Hd].
      destruct (index_columns h d ps tbl ∅ 0 Hps Hd) as (m' & E & _ & Hdom).
      unfold generateNodeTokenMap. rewrite (load_Ret _ _ _ Hv), bind_Ret, E, !bind_Ret.
      eexists _, _, m'. split_and!; [done|by apply Hflag, wf_set_map|done|done|..].
      + apply lookup_insert_eq.
      + rewrite Hdom. by subst.
    - rewrite bind_Ret. eexists _, _, m. split_and!; [done|by apply Hflag|done..|].
      destruct Hcov as [[_ ?]|]; [done|set_solver]. }
  exists h1, d1, m1. split_and!; [done..| | |]; unfold map_keys.
  - intros u Hu. apply elem_of_set_iter. rewrite Hdom. set_solver.
  - intros k Hk%elem_of_set_iter. apply Hr. by rewrite <-Hdom.
  - rewrite length_set_iter, Hdom. done.
Qed.

(** The numbering is the position in the list of uuids. *)
Lemma uuid_ids_spec keys : NoDup keys → Z.of_nat (length keys) < 2 ^ 32 →
  ∃ ids, uuid_ids keys = (ids, Z.of_nat (length keys)) ∧
    (∀ i k, keys !! i = Some k → ids !! k = Some (Z.of_nat i)) ∧
    (∀ k, k ∉ keys → ids !! k = None).
Proof.
  intros Hnd Hlen. unfold uuid_ids.
  enough (∀ l (ids : gmap Z Z) (n : nat), NoDup l → Z.of_nat (n + length l) < 2 ^ 32 →
    ∃ ids', foldl (λ '(uuidmap, count) uuid, (<[uuid := count]> uuidmap, u32 (count + 1)))
        (ids, Z.of_nat n) l = (ids', Z.of_nat (n + length l)) ∧
      (∀ i k, l !! i = Some k → ids' !! k = Some (Z.of_nat (n + i))) ∧
      (∀ k, k ∉ l → ids' !! k = ids !! k)) as Hgen.
  { destruct (Hgen keys ∅ 0%nat Hnd Hlen) as (ids & E & H & H'). exists ids.
    split_and!; [done..|]. intros k Hk. by rewrite H', lookup_empty. }
  clear. intros l. induction l as [|x l IH]; intros ids n Hnd Hlen; simpl in *.
  { exists ids. rewrite Nat.add_0_r. done. }
  apply NoDup_cons in Hnd as [Hx Hnd]. rewrite u32_small by lia.
  replace (Z.of_nat n + 1) with (Z.of_nat (S n)) by lia.
  destruct (IH (<[x := Z.of_nat n]> ids) (S n) Hnd) as (ids' & E & H1 & H2); [lia|].
  exists ids'. split_and!.
  - rewrite E. do 2 f_equal. lia.
  - intros [|i] k Hk; simpl in Hk.
    + injection Hk as <-. rewrite H2, lookup_insert_eq, Nat.add_0_r by done. done.
    + rewrite (H1 _ _ Hk). do 2 f_equal. lia.
  - intros k [Hne Hk]%not_elem_of_cons. by rewrite H2, lookup_insert_ne by congruence.
Qed.

Section RoundTrip.
Context `{P : TProtocol} `{!TProtocolLaws P}.

(** The encodings of a numbered uuid, of a column and of a table. *)
Definition enc_id (fByte : bool) (i : Z) : list Z := if fByte then (writeByte i).1 else (writeI16 i).1.
Definition id_size (fByte : bool) : Z := if fByte then 1 else 2.
Definition enc_cell (ids : gmap Z Z) (fByte : bool) (u : Z) : list Z :=
  enc_id fByte (default 0 (ids !! u)).
Definition enc_column (ids : gmap Z Z) (fByte : bool) (c : list Z) : list Z :=
  concat (enc_cell ids fByte <$> c).

Lemma write_column_spec h d ids fByte p c b :
  cols h !! p = Some c → getLength c = depth d →
  ∃ n, write_column h d ids fByte b p = Ret (b.1 ++ enc_column ids fByte c, n) ∧
    u32 n = u32 (b.2 + id_size fByte * depth d).
Proof.
  intros Hp Hc. unfold write_column. rewrite (load_Ret _ _ _ Hp), bind_Ret, <-Hc, for_range_get.
  apply foldM_write. intros b' u _. unfold write_cell, out_app, enc_cell.
  destruct fByte; simpl; (eexists; split; [reflexivity|]).
  - unfold writeByte. rewrite count_writeByte. unfold u32. by rewrite Z.mod_mod by lia.
  - unfold writeI16. rewrite count_writeI16. unfold u32. by rewrite Z.mod_mod by lia.
Qed.

Lemma read_cell_spec keys ids u rest b :
  Z.of_nat (length keys) ≤ 65536 → u ∈ keys →
  (∀ i k, keys !! i = Some k → ids !! k = Some (Z.of_nat i)) →
  let fByte := bool_decide (Z.of_nat (length keys) ≤ 256) in
  ∃ n, read_cell keys fByte (enc_cell ids fByte u ++ rest, b) = Ret (u, (rest, n)) ∧
    u32 n = u32 (b + id_size fByte).
Proof.
  intros Hlen [i Hi]%list_elem_of_lookup Hids fByte. apply lookup_lt_Some in Hi as Hlt.
  unfold enc_cell. rewrite (Hids _ _ Hi). simpl.
  assert (vec_at keys (Z.of_nat i) = Ret u) as Hv
    by (apply vec_at_lookup; rewrite Nat2Z.id; split; [lia|done]).
  unfold fByte, read_cell. case_bool_decide; simpl.
  - rewrite (Rd_bind_Ret _ _ _ _ _ (readByte_write (Z.of_nat i) rest b ltac:(lia))), Hv.
    eexists. split; [reflexivity|]. unfold u32. by rewrite Z.mod_mod by lia.
  - rewrite (Rd_bind_Ret _ _ _ _ _ (readI16_write (Z.of_nat i) rest b ltac:(lia))), Hv.
    eexists. split; [reflexivity|]. unfold u32. by rewrite Z.mod_mod by lia.
Qed.

Definition header (d : t) : list Z :=
  (writeI64 (version d)).1 ++ (writeTimeStamp (timestamp d)).1 ++ (writeI32 (width d)).1 ++
  (writeI32 (depth d)).1 ++ (writeI32 (columns d)).1.

Definition enc (d : t) (keys : list Z) (ids : gmap Z Z) (tbl : list (list Z)) : list Z :=
  header d ++ (writeI32 (Z.of_nat (length keys))).1 ++ concat ((λ u, (writeI64 u).1) <$> keys) ++
  concat (enc_column ids (bool_decide (Z.of_nat (length keys) ≤ 256)) <$> tbl).

Lemma dlt_write_spec h d tbl h1 d1 m1 ids :
  init_map d h = Ret (h1, d1) → wf h1 d1 tbl → base d1 = base d →
  maps h1 !! mapNodeTokens d1 = Some m1 →
  uuid_ids (map_keys m1) = (ids, Z.of_nat (length (map_keys m1))) →
  ∃ n, write d h = Ret ((enc d (map_keys m1) ids tbl, n), (h1, d1)) ∧
    u32 n = u32 (32 + 8 * Z.of_nat (length (map_keys m1)) +
      id_size (bool_decide (Z.of_nat (length (map_keys m1)) ≤ 256)) * depth d * columns d).
Proof.
  intros Hinit Hwf Hb Hm Hids. unfold write.
  rewrite Hinit, bind_Ret, (load_Ret _ _ _ Hm), bind_Ret, Hids.
  set (keys := map_keys m1) in *. set (fByte := bool_decide _).
  set (b0 := out_app (out_app (out_app _ _) _) _).
  destruct (foldM_write (λ b uuid, Ret (out_app b (writeI64 uuid))) (λ u, (writeI64 u).1) 8 keys b0)
    as (n1 & E1 & Hn1).
  { intros b u _. eexists. split; [reflexivity|].
    unfold writeI64. rewrite count_writeI64. unfold u32. by rewrite Z.mod_mod by lia. }
  rewrite E1, bind_Ret. pose proof Hwf as [_ (ps & Hv & Hps) Hlen Hd].
  rewrite (load_Ret _ _ _ Hv), bind_Ret.
  assert (concat ((λ p, enc_column ids fByte (default [] (cols h1 !! p))) <$> ps) =
          concat (enc_column ids fByte <$> tbl) ∧ length ps = length tbl) as [Hconcat Hlps].
  { clear -Hps. induction Hps as [|p c ps tbl Hp _ [IH1 IH2]]; [done|].
    rewrite !fmap_cons. simpl. rewrite IH1, IH2, Hp. done. }
  destruct (foldM_write (write_column h1 d1 ids fByte)
    (λ p, enc_column ids fByte (default [] (cols h1 !! p))) (id_size fByte * depth d1) ps
    (b0.1 ++ concat ((λ u, (writeI64 u).1) <$> keys), n1)) as (n2 & E2 & Hn2).
  { intros b p [i Hp]%list_elem_of_lookup.
    destruct (Forall2_lookup_l _ _ _ _ _ Hps Hp) as (c & Hc & Hpc).
    rewrite Hpc. simpl. apply write_column_spec; [done|].
    by apply (wf_depth_lookup _ _ _ _ _ Hwf Hc). }
  rewrite E2, bind_Ret, Hconcat. exists n2. split.
  - do 3 f_equal. unfold b0, out_app, out_nil, enc, header. simpl. by rewrite <-!app_assoc.
  - rewrite Hn2, Hlps, Hlen. unfold depth, columns. rewrite Hb. simpl.
    rewrite (u32_congr _ _ _ Hn1). unfold b0, out_app, out_nil, writeI64, writeTimeStamp, writeI32.
    simpl. rewrite !count_writeI64, !count_writeI32, !u32_add_l.
    by f_equal.
Qed.

(** Reading into the heap gives a well-formed table. *)
Lemma read_wf h0 d0 ts v w dep cl (tbl : list (list Z)) :
  let b := FDS_Table.Make dep w cl v (FDS_Table.outstanding_io (base d0)) (FDS_Table.cb (base d0)) in
  FDS_Table.well_shaped b → Z.of_nat (length tbl) = cl →
  Forall (λ c, getLength c = dep) tbl →
  let '(h, ps) := new_cols tbl h0 in
  wf (set_vec (distList d0) ps h)
    (Make b (distList d0) (mapInitialized d0) (mapNodeTokens d0) ts (closed d0)) tbl.
Proof.
  intros b Hb Hl Hd. destruct (new_cols_spec tbl h0) as (cols' & -> & Hc).
  split; [done| |done|done]. simpl. eexists. split; [apply lookup_insert_eq|].
  apply Forall2_lookup. intros i. destruct (tbl !! i) as [c|] eqn:Hi.
  - apply lookup_lt_Some in Hi as Hlt. rewrite lookup_seqZ_lt by lia. constructor.
    rewrite Hc, decide_True by lia.
    by replace (Z.to_nat (next h0 + Z.of_nat i - next h0)) with i by lia.
  - apply lookup_ge_None in Hi. rewrite lookup_seqZ_ge by lia. constructor.
Qed.

(** Reading an encoded table whose uuids are all numbered. *)
Lemma read_enc h0 d0 d keys ids tbl :
  FDS_Table.well_shaped (base d) → Z.of_nat (length tbl) = columns d →
  Forall (λ c, getLength c = depth d) tbl →
  0 ≤ timestamp d ≤ uint64_max → 2 * depth d * columns d < 2 ^ 31 →
  0 ≤ FDS_Table.outstanding_io (base d0) ≤ uint64_max →
  Z.of_nat (length keys) ≤ 65536 → (∀ k, k ∈ keys → 0 ≤ k ≤ uint64_max) →
  (∀ i k, keys !! i = Some k → ids !! k = Some (Z.of_nat i)) →
  (∀ u, u ∈ concat tbl → u ∈ keys) →
  ∃ h' d', loadSerialized (read d0 h0) (enc d keys ids tbl) = Ret (Some (h', d'), ERR_OK) ∧
    wf h' d' tbl ∧ getVersion d' = getVersion d ∧ timestamp d' = timestamp d ∧
    getDepth d' = getDepth d ∧ getWidth d' = getWidth d ∧ getNumTokens d' = getNumTokens d.
Proof.
  intros (Hdep & Hwid & Hcl & Hver & _) Hl Hd Hts Hsize Hio Hlen Hr Hids Hcov.
  set (fByte := bool_decide (Z.of_nat (length keys) ≤ 256)).
  assert (0 ≤ columns d < 2 ^ 32) as Hclr.
  { unfold columns. rewrite Hcl. split; [apply Z.pow_nonneg; lia|]. apply Z.pow_lt_mono_r; lia. }
  unfold loadSerialized, read, enc, header. rewrite <-!app_assoc.
  rewrite (Rd_bind_Ret _ _ _ _ _ (readI64_write _ _ _ Hver)).
  rewrite (Rd_bind_Ret _ _ _ _ _ (readTimeStamp_write _ _ _ Hts)).
  rewrite (Rd_bind_Ret _ _ _ _ _ (readI32_write (width d) _ _ ltac:(unfold width; lia))).
  rewrite (Rd_bind_Ret _ _ _ _ _ (readI32_write _ _ _ Hdep)).
  rewrite (Rd_bind_Ret _ _ _ _ _ (readI32_write _ _ _ Hclr)).
  rewrite (Rd_bind_Ret _ _ _ _ _ (readI32_write (Z.of_nat (length keys)) _ _ ltac:(lia))).
  rewrite Nat2Z.id.
  edestruct (read_times_spec readI64 (λ u, (writeI64 u).1) 8 keys) as (c1 & E1 & Hc1).
  { intros u rest b Hu. eexists. split; [by apply readI64_write, Hr|].
    unfold u32. by rewrite Z.mod_mod by lia. }
  rewrite (Rd_bind_Ret _ _ _ _ _ E1). fold fByte.
  rewrite <-Hl, Nat2Z.id, <-(app_nil_r (concat (enc_column ids fByte <$> tbl))).
  edestruct (read_times_spec (read_times (Z.to_nat (depth d)) (read_cell keys fByte))
    (enc_column ids fByte) (id_size fByte * depth d) tbl []) as (c2 & E2 & Hc2).
  { intros c rest b Hin. rewrite Forall_forall in Hd. rewrite <-(Hd _ Hin).
    unfold getLength. rewrite Nat2Z.id.
    apply (read_times_spec _ (enc_cell ids fByte)). intros u rest' b' Hu.
    apply (read_cell_spec keys ids u rest' b'); [done| |done].
    apply Hcov, list_elem_of_In, in_concat. exists c.
    by rewrite <-!list_elem_of_In. }
  rewrite (Rd_bind_Ret _ _ _ _ _ E2).
  pose proof (read_wf h0 d0 (timestamp d) (version d) (width d) (depth d) (columns d) tbl) as Hrd.
  destruct (new_cols tbl h0) as [h' ps]. simpl. rewrite decide_False.
  - eexists _, _. split; [done|]. rewrite Hl. split_and!; try done.
    apply Hrd; [|done|done].
    split_and!; simpl; (apply Hdep || apply Hwid || exact Hcl || apply Hver || apply Hio).
  - intros Hz. subst c2.
    change (u32 (u32 (u32 (u32 (u32 (u32 (0 + 8) + 8) + 4) + 4) + 4) + 4)) with 32 in Hc1.
    rewrite (u32_congr _ _ _ Hc1), Hl in Hc2.
    assert (0 < id_size fByte ≤ 2) by (by destruct fByte).
    assert (0 ≤ depth d) by apply Hdep.
    assert (0 ≤ depth d * columns d) by nia. assert (2 * (depth d * columns d) < 2 ^ 31) by lia.
    rewrite <-Z.mul_assoc in Hc2. assert (id_size fByte = 1 ∨ id_size fByte = 2) as Hid by lia.
    change (u32 0) with 0 in Hc2. rewrite u32_small in Hc2; destruct Hid as [Hid|Hid]; rewrite Hid in *; lia.
Qed.

(** C30. A DLT survives serialization: when its reverse map is in step with
    the table, [write] succeeds and [loadSerialized] of the bytes into any
    table object succeeds, with the same version, timestamp, shape and
    columns, whether the uuids are numbered in one byte or in two. *)
Theorem dlt_serialization_roundtrip h d tbl h0 d0 :
  wf h d tbl → map_ready h d tbl → 0 ≤ timestamp d ≤ uint64_max →
  2 * depth d * columns d < 2 ^ 31 →
  0 ≤ FDS_Table.outstanding_io (base d0) ≤ uint64_max →
  ∃ bytes n h1 d1, write d h = Ret ((bytes, n), (h1, d1)) ∧ wf h1 d1 tbl ∧
    ∃ h' d', loadSerialized (read d0 h0) bytes = Ret (Some (h', d'), ERR_OK) ∧ wf h' d' tbl ∧
      getVersion d' = getVersion d ∧ timestamp d' = timestamp d ∧
      getDepth d' = getDepth d ∧ getWidth d' = getWidth d ∧ getNumTokens d' = getNumTokens d.
Proof.
  intros Hwf Hready Hts Hsize Hio.
  destruct (init_map_ok h d tbl Hwf Hready) as (h1 & d1 & m1 & Einit & Hwf1 & Hb & Ht & Hm & Hcov & Hr & Hlen).
  destruct (uuid_ids_spec (map_keys m1)) as (ids & Eids & Hids & _); [apply NoDup_set_iter|lia|].
  destruct (dlt_write_spec h d tbl h1 d1 m1 ids Einit Hwf1 Hb Hm Eids) as (n & Ew & _).
  eexists _, n, h1, d1. split; [exact Ew|]. split; [done|].
  destruct Hwf as [Hs _ Hl Hd]. by apply read_enc.
Qed.

(** What a reader sees in place of [u] when only [keys] were numbered. *)
Definition seen_as (keys : list Z) (u : Z) : Z := if decide (u ∈ keys) then u else hd 0 keys.

(** A stale reverse map corrupts the serialized table.  When the map
    was generated before the table was changed, so that it is not empty and
    lacks some uuids, [write] still succeeds, and the reader sees the first
    uuid of the map in place of every uuid that the map lacks. *)
Theorem stale_map_roundtrip h d tbl m h0 d0 :
  wf h d tbl → maps h !! mapNodeTokens d = Some m → m ≠ ∅ →
  (∀ k, k ∈ map_keys m → 0 ≤ k ≤ uint64_max) → Z.of_nat (length (map_keys m)) ≤ 65536 →
  0 ≤ timestamp d ≤ uint64_max → 2 * depth d * columns d < 2 ^ 31 →
  0 ≤ FDS_Table.outstanding_io (base d0) ≤ uint64_max →
  ∃ bytes n h1 d1, write d h = Ret ((bytes, n), (h1, d1)) ∧
    ∃ h' d', loadSerialized (read d0 h0) bytes = Ret (Some (h', d'), ERR_OK) ∧
      getVersion d' = getVersion d ∧
      wf h' d' ((λ c : list Z, seen_as (map_keys m) <$> c) <$> tbl).
Proof.
  intros Hwf Hm Hne Hr Hlen Hts Hsize Hio.
  assert (∃ d1, init_map d h = Ret (h, d1) ∧ base d1 = base d ∧ distList d1 = distList d ∧
    mapNodeTokens d1 = mapNodeTokens d) as (d1 & Einit & Hb & Hdl & Hmp).
  { unfold init_map. destruct (mapInitialized d); [by eexists|].
    rewrite (load_Ret _ _ _ Hm), bind_Ret, decide_False by done. by eexists. }
  assert (wf h d1 tbl) as Hwf1.
  { destruct Hwf. split; unfold columns, depth in *; by rewrite ?Hb, ?Hdl. }
  destruct (uuid_ids_spec (map_keys m)) as (ids & Eids & Hids & Hnone); [apply NoDup_set_iter|lia|].
  destruct (dlt_write_spec h d tbl h d1 m ids Einit Hwf1 Hb) as (n & Ew & _); [by rewrite Hmp|done|].
  eexists _, n, h, d1. split; [exact Ew|].
  destruct (map_keys m) as [|k0 keys] eqn:Hkeys.
  { destruct Hne. apply map_eq. intros k. rewrite lookup_empty.
    destruct (m !! k) eqn:E; [|done].
    assert (k ∈ map_keys m) as Hk by (apply elem_of_map_keys; eauto). rewrite Hkeys in Hk. set_solver. }
  set (seen := λ c : list Z, seen_as (k0 :: keys) <$> c).
  assert (∀ u, seen_as (k0 :: keys) u ∈ k0 :: keys) as Hseen.
  { intros u. unfold seen_as. case_decide; [done|]. simpl. set_solver. }
  assert (∀ fByte u, enc_cell ids fByte (seen_as (k0 :: keys) u) = enc_cell ids fByte u) as Henc.
  { intros fByte u. unfold seen_as, enc_cell. case_decide as Hu; [done|].
    simpl hd. by rewrite (Hids 0%nat k0 eq_refl), (Hnone u Hu). }
  assert (enc d (k0 :: keys) ids (seen <$> tbl) = enc d (k0 :: keys) ids tbl) as <-.
  { unfold enc. do 4 f_equal. rewrite <-list_fmap_compose. apply list_fmap_ext.
    intros _ c _. unfold seen, enc_column, compose. f_equal. rewrite <-list_fmap_compose.
    apply list_fmap_ext. intros _ u _. apply Henc. }
  destruct Hwf as [Hs _ Hl Hd].
  destruct (read_enc h0 d0 d (k0 :: keys) ids (seen <$> tbl)) as (h' & d' & E & Hw & Hv & _);
    try done.
  - by rewrite length_fmap.
  - apply Forall_fmap. eapply Forall_impl; [exact Hd|]. intros c Hc. unfold compose, seen, getLength in *.
    by rewrite length_fmap.
  - intros u Hu%list_elem_of_In. apply in_concat in Hu as (c & Hc & Hu).
    apply list_elem_of_In, list_elem_of_fmap in Hc as (c' & -> & _).
    apply list_elem_of_In, list_elem_of_fmap in Hu as (u' & -> & _). apply Hseen.
  - eauto 10.
Qed.
End RoundTrip.

(** The map of [demo] was generated, then node 13 of token 1 was replaced by
    99: the reader sees 11. *)
Definition stale_map : gmap Z (list Z) := {[11 := [0]; 12 := [0; 1]; 13 := [1]]}.
Definition stale_heap : heap := set_col 2 [12; 99] (set_map 4 stale_map demo_heap).
Lemma stale_map_roundtrip_witness :
  ∃ h1 h2 bytes n h3 d3, generateNodeTokenMap demo demo_heap = Ret h1 ∧
    setNode demo 1 1 99 h1 = Ret h2 ∧ write demo h2 = Ret ((bytes, n), (h3, d3)) ∧
    ∃ h' d', loadSerialized (read demo demo_heap) bytes = Ret (Some (h', d'), ERR_OK) ∧
      wf h' d' [[11; 12]; [12; 11]].
Proof.
  exists (set_map 4 stale_map demo_heap), stale_heap.
  assert (wf stale_heap demo [[11; 12]; [12; 99]]) as Hwf.
  { split; [|exists [1; 2]; split; [done|]|done|repeat constructor].
    - apply FDS_Table.make_well_shaped; unfold uint64_max; lia.
    - repeat constructor. }
  assert (map_keys stale_map = [11; 12; 13]) as Hkeys by (by vm_compute).
  destruct (stale_map_roundtrip stale_heap demo _ stale_map demo_heap demo Hwf)
    as (bytes & n & h3 & d3 & Ew & h' & d' & El & _ & Hw).
  - done.
  - intros H; apply (f_equal (lookup 11)) in H; by vm_compute in H.
  - rewrite Hkeys; intros k Hk; assert (k = 11 ∨ k = 12 ∨ k = 13) by set_solver; unfold uint64_max; lia.
  - rewrite Hkeys; simpl; lia.
  - vm_compute; split; congruence.
  - vm_compute; congruence.
  - vm_compute; split; congruence.
  - exists bytes, n, h3, d3. split_and!.
    + by vm_compute.
    + by vm_compute.
    + exact Ew.
    + exists h', d'. split; [exact El|]. rewrite Hkeys in Hw. exact Hw.
Defined.

Lemma dlt_serialization_roundtrip_witness :
  ∃ bytes n h1 d1, write demo demo_heap = Ret ((bytes, n), (h1, d1)) ∧
    ∃ h' d', loadSerialized (read demo demo_heap) bytes = Ret (Some (h', d'), ERR_OK) ∧
      wf h' d' [[11; 12]; [12; 13]] ∧ getVersion d' = 7.
Proof.
  assert (map_ready demo_heap demo [[11; 12]; [12; 13]]) as Hready.
  { exists ∅. split_and!; [done|by left| |by vm_compute].
    intros k. simpl. rewrite dom_empty_L. unfold uint64_max.
    rewrite !elem_of_union, !elem_of_singleton. set_solver by lia. }
  destruct (dlt_serialization_roundtrip demo_heap demo _ demo_heap demo demo_wf Hready)
    as (bytes & n & h1 & d1 & Ew & _ & h' & d' & El & Hwf & Hv & _).
  1-3: by vm_compute.
  exists bytes, n, h1, d1. split; [exact Ew|]. exists h', d'. split; [exact El|]. done.
Defined.

(** ** Tokens of a node in one or two tables *)
(** The reverse map is the exact reverse of the table. *)
Definition map_exact (h : heap) (d : t) (tbl : list (list Z)) : Prop :=
  ∃ m, maps h !! mapNodeTokens d = Some m ∧ ∀ uid, lookup_tokens m uid = tokens_from 0 uid tbl.

(** The tokens whose column holds [uid]. *)
Definition holds (tbl : list (list Z)) (uid token : Z) : Prop :=
  ∃ i c, token = Z.of_nat i ∧ tbl !! i = Some c ∧ uid ∈ c.

Lemma getTokens_exact h d tbl uid : map_exact h d tbl →
  getTokens h d uid = Ret (tokens_from 0 uid tbl).
Proof.
  intros (m & Hm & Hl). unfold getTokens. rewrite (load_Ret _ _ _ Hm), bind_Ret.
  f_equal. apply Hl.
Qed.

Lemma elem_of_tokens0 uid tbl token : token ∈ tokens_from 0 uid tbl ↔ holds tbl uid token.
Proof. apply elem_of_tokens_from. Qed.

Lemma first_other_spec uid c :
  (first_other uid c ∈ c ∧ first_other uid c ≠ uid) ∨
  ((∀ x, x ∈ c → x = uid) ∧ first_other uid c = INVALID_RESOURCE_UUID).
Proof.
  induction c as [|x c IH]; simpl; [right; set_solver|].
  case_decide as Hx; [left; set_solver|]. set_solver.
Qed.

(** [getSourceForAllNodeTokens] on a table with an exact reverse map
    groups every token of the node once under its source, which is another
    node of the token's column, or [INVALID_RESOURCE_UUID] when the column
    holds no other node. *)
Theorem sources_for_all_tokens h d tbl uid :
  wf h d tbl → map_exact h d tbl → uid ≠ INVALID_RESOURCE_UUID →
  ∃ m, getSourceForAllNodeTokens h d uid ∅ = Ret m ∧
    (∀ token, holds tbl uid token → ∃ sm, token ∈ lookup_tokens m sm) ∧
    (∀ token sm, token ∈ lookup_tokens m sm → ∃ c, tbl !! Z.to_nat token = Some c ∧ uid ∈ c ∧
      ((sm ∈ c ∧ sm ≠ uid) ∨ ((∀ x, x ∈ c → x = uid) ∧ sm = INVALID_RESOURCE_UUID))).
Proof.
  intros Hwf Hexact Huid. unfold getSourceForAllNodeTokens.
  rewrite decide_False, (getTokens_exact _ _ _ _ Hexact), bind_Ret by done.
  set (src token := first_other uid (default [] (tbl !! Z.to_nat token))).
  rewrite (foldM_pure _ (λ m token, push_back (src token) token m)).
  2:{ intros m token (i & c & -> & Hc & _)%elem_of_tokens0. unfold getSourceNodeForToken, src.
      destruct (wf_getNodes _ _ _ _ _ Hwf Hc) as (p & -> & Hl).
      rewrite bind_Ret, Hl, !bind_Ret, Nat2Z.id, Hc. done. }
  eexists. split; [done|].
  assert (∀ l m token sm, token ∈ lookup_tokens (foldl (λ m token, push_back (src token) token m) m l) sm
    ↔ token ∈ lookup_tokens m sm ∨ (token ∈ l ∧ sm = src token)) as Hin.
  { intros l. induction l as [|x l IH]; intros m token sm; simpl; [set_solver|].
    rewrite IH, lookup_tokens_push. case_decide; set_solver. }
  split.
  - intros token Ht. exists (src token). apply Hin. right. by rewrite elem_of_tokens0.
  - intros token sm [Hno|[(i & c & -> & Hc & Hu)%elem_of_tokens0 ->]]%Hin.
    { unfold lookup_tokens in Hno. rewrite lookup_empty in Hno. set_solver. }
    exists c. unfold src. rewrite Nat2Z.id, Hc. split_and!; [done..|]. apply first_other_spec.
Qed.

(** [token_diff] returns exactly the tokens that the node holds in the
    new table and does not hold in the old one; with no old table, all its
    tokens. *)
Theorem token_diff_spec h uid new_dlt tnew (old_dlt : option t) told :
  map_exact h new_dlt tnew →
  match old_dlt with Some d => map_exact h d told | None => told = [] end →
  ∃ s, token_diff h uid new_dlt old_dlt = Ret s ∧
    ∀ token, token ∈ s ↔ holds tnew uid token ∧ ¬ holds told uid token.
Proof.
  intros Hnew Hold. unfold token_diff. destruct old_dlt as [d|].
  - rewrite (getTokens_exact _ _ _ _ Hold), bind_Ret, (getTokens_exact _ _ _ _ Hnew), bind_Ret.
    eexists. split; [done|]. intros token.
    by rewrite elem_of_difference, !elem_of_list_to_set, !elem_of_tokens0.
  - subst. rewrite (getTokens_exact _ _ _ _ Hnew), bind_Ret. eexists. split; [done|].
    intros token. rewrite elem_of_list_to_set, elem_of_tokens0.
    split; [|tauto]. intros H. split; [done|]. intros (i & c & _ & Hc & _). done.
Qed.

Lemma demo_exact :
  map_exact (set_map 4 {[11 := [0]; 12 := [0; 1]; 13 := [1]]} demo_heap) demo [[11; 12]; [12; 13]].
Proof.
  exists {[11 := [0]; 12 := [0; 1]; 13 := [1]]}. split; [done|]. intros uid.
  unfold lookup_tokens. destruct (decide (uid = 11)) as [->|]; [done|].
  destruct (decide (uid = 12)) as [->|]; [done|]. destruct (decide (uid = 13)) as [->|]; [done|].
  rewrite !lookup_insert_ne, lookup_singleton_ne by congruence. simpl.
  rewrite !filter_cons, !decide_False by congruence. done.
Qed.

Lemma sources_for_all_tokens_witness :
  let h := set_map 4 {[11 := [0]; 12 := [0; 1]; 13 := [1]]} demo_heap in
  ∃ m, getSourceForAllNodeTokens h demo 12 ∅ = Ret m ∧ ∃ sm, 1 ∈ lookup_tokens m sm.
Proof.
  intros h.
  destruct (sources_for_all_tokens h demo [[11; 12]; [12; 13]] 12) as (m & E & H & _).
  - apply wf_set_map, demo_wf.
  - exact demo_exact.
  - done.
  - exists m. split; [exact E|]. apply H. exists 1%nat, [12; 13]. set_solver.
Defined.

Lemma token_diff_spec_witness :
  let h := set_map 4 {[11 := [0]; 12 := [0; 1]; 13 := [1]]} demo_heap in
  ∃ s, token_diff h 12 demo None = Ret s ∧ 0 ∈ s.
Proof.
  intros h. destruct (token_diff_spec h 12 demo _ None [] demo_exact eq_refl) as (s & E & H).
  exists s. split; [exact E|]. apply H. split.
  - exists 0%nat, [11; 12]. set_solver.
  - intros (i & c & _ & Hc & _). done.
Defined.

End DLT.
