(* ===== verification/DltManager.v ===== *)
(** * Versions of the data landing table

    Models [DLTDiff] and [DLTManager] (src/source/include/dlt.h,
    src/source/lib/misc/dlt.cpp).  The manager owns [DLT] objects through
    raw pointers, so they live in a store of the manager; the columns, the
    column vectors and the reverse maps they point to are in the shared heap
    of [Dlt].  Operations run to completion under [dltLock]. *)

From S2P Require Import Prelude.
From S2P Require Import PlacementTable.
From S2P Require Import Serialize.
From S2P Require Import Dlt.
Open Scope Z_scope.
Import TableColumn.

Module DLTDiff.

(** [baseDlt] is the object the pointer designates. *)
Record t := Make {
  version : Z;
  timestamp : Z;
  baseDlt : DLT.t;
  baseVersion : Z;
  mapTokenNodes : gmap Z Z;
}.

(** [DLTDiff(baseDlt, version)] *)
Definition make (baseDlt : option DLT.t) (version now : Z) : res t :=
  match baseDlt with
  | None => Fault VerifyFailed
  | Some b =>
      let baseVersion := DLT.version b in
      Ret (Make (if decide (version > 0) then version else u64 (baseVersion + 1)) now b baseVersion ∅)
  end.

Definition getNodes (h : heap) (x : t) (token : Z) : res Z :=
  match mapTokenNodes x !! token with
  | Some p => Ret p
  | None => DLT.getNodes h (baseDlt x) token
  end.

Definition getNodes_obj (h : heap) (x : t) (objId : list Z) : res Z :=
  token ← DLT.getToken (baseDlt x) objId; getNodes h x token.

Definition getPrimary (h : heap) (x : t) (token : Z) : res Z :=
  p ← getNodes h x token; c ← load (cols h) p; get c 0.
Definition getPrimary_obj (h : heap) (x : t) (objId : list Z) : res Z :=
  p ← getNodes_obj h x objId; c ← load (cols h) p; get c 0.

Definition setNode (token index nodeuuid : Z) (h : heap) (x : t) : res (heap * t) :=
  match mapTokenNodes x !! token with
  | Some p =>
      c ← load (cols h) p;
      c ← set index nodeuuid c;
      Ret (set_col p c h, x)
  | None =>
      let '(h, p) := new_col (TableColumn.make (DLT.depth (baseDlt x))) h in
      c ← load (cols h) p;
      c ← set index nodeuuid c;
      Ret (set_col p c h,
           Make (version x) (timestamp x) (baseDlt x) (baseVersion x) (<[token := p]> (mapTokenNodes x)))
  end.

End DLTDiff.

Module DLTManager.

Record t := Make {
  curPtr : Z;
  dltList : list Z;
  maxDlts : Z;
  objs : gmap Z DLT.t;
  nextObj : Z;
}.

Definition make (maxDlts : Z) : t := Make null [] maxDlts ∅ 1.

Definition obj (m : t) (p : Z) : res DLT.t := load (objs m) p.
Definition set_obj (p : Z) (d : DLT.t) (m : t) : t :=
  Make (curPtr m) (dltList m) (maxDlts m) (<[p := d]> (objs m)) (nextObj m).
Definition set_cur (p : Z) (m : t) : t :=
  Make p (dltList m) (maxDlts m) (objs m) (nextObj m).

(** [p->setCallback(cb)] and the like: a change of the base object. *)
Definition with_base (f : FDS_Table.t → FDS_Table.t) (d : DLT.t) : DLT.t :=
  DLT.Make (f (DLT.base d)) (DLT.distList d) (DLT.mapInitialized d) (DLT.mapNodeTokens d)
    (DLT.timestamp d) (DLT.closed d).

(** The loops over [dltList] that look for a version. *)
Fixpoint find_version (m : t) (version : Z) (ps : list Z) : res (option Z) :=
  match ps with
  | [] => Ret None
  | p :: ps =>
      d ← obj m p;
      if decide (version = DLT.version d) then Ret (Some p) else find_version m version ps
  end.

Definition checkSize (m : t) : t :=
  if decide (Z.of_nat (length (dltList m)) > maxDlts m) then
    match dltList m with
    | pDlt :: rest =>
        if decide (pDlt ≠ curPtr m) then
          Make (curPtr m) rest (maxDlts m) (delete pDlt (objs m)) (nextObj m)
        else m
    | [] => m
    end
  else m.

(** Comparing two columns row by row, leaving at the first difference. *)
Definition same_rows (h : heap) (rows p q : Z) : res bool :=
  for_range rows (λ same j,
    if same : bool then
      c1 ← load (cols h) p; x ← get c1 j;
      c2 ← load (cols h) q; y ← get c2 j;
      Ret (bool_decide (x = y))
    else Ret false) true.

(** One column of [add]: an equal column of the current table is shared. *)
Definition share_column (current newDlt : DLT.t) (h : heap) (i : Z) : res heap :=
  pc ← DLT.ptr_at h current i;
  pn ← DLT.ptr_at h newDlt i;
  if decide (pc ≠ pn ∧ DLT.depth current = DLT.depth newDlt) then
    fSame ← same_rows h (DLT.depth newDlt) pc pn;
    if fSame : bool then
      v ← load (vecs h) (DLT.distList newDlt);
      Ret (set_vec (DLT.distList newDlt) (<[Z.to_nat i := pc]> v) h)
    else Ret h
  else Ret h.

(** Registering the callback with the current table. *)
Definition notify_current (cb : option Z) (m : t) : res (t * fds_errno) :=
  if decide (curPtr m ≠ null ∧ cb ≠ None) then
    d ← obj m (curPtr m);
    let '(b, err) := FDS_Table.setCallback cb (DLT.base d) in
    Ret (set_obj (curPtr m) (with_base (λ _, b) d) m, err)
  else Ret (m, ERR_OK).

(** [dltList.push_back(p); curPtr = p] for a new object. *)
Definition push_current (d : DLT.t) (m : t) : t :=
  Make (nextObj m) (dltList m ++ [nextObj m]) (maxDlts m) (<[nextObj m := d]> (objs m)) (nextObj m + 1).

Definition add (_newDlt : DLT.t) (cb : option Z) (h : heap) (m : t) : res (heap * t * fds_errno) :=
  let newDlt := DLT.copy _newDlt in
  dup ← find_version m (DLT.getVersion newDlt) (dltList m);
  match dup with
  | Some _ => Ret (h, m, ERR_DUPLICATE)
  | None =>
      r ← notify_current cb m;
      let '(m, err) := r : t * fds_errno in
      match dltList m with
      | [] => Ret (h, push_current newDlt m, err)
      | _ =>
          current ← obj m (curPtr m);
          h ← for_range (DLT.columns newDlt) (share_column current newDlt) h;
          Ret (h, push_current newDlt m, err)
      end
  end.

Definition addSerializedDLT `{TProtocol} (serializedData : list Z) (cb : option Z) (now : Z)
    (h : heap) (m : t) : res (heap * t * fds_errno) :=
  let '(h0, dlt) := DLT.make 0 0 0 false now h in
  r ← loadSerialized (DLT.read dlt h0) serializedData;
  match r with
  | (Some (h, dlt), ERR_OK) =>
      h ← DLT.generateNodeTokenMap dlt h;
      add dlt cb h m
  | (_, err) => Ret (h0, m, err)
  end.

(** [getDLT(version)]; [null] when there is none. *)
Definition getDLT (m : t) (version : Z) : res Z :=
  if decide (0 = version) then Ret (curPtr m)
  else p ← find_version m version (dltList m); Ret (default null p).

(** One column of [add(dltDiff)]. *)
Definition diff_column (base current dlt : DLT.t) (dltDiff : DLTDiff.t) (h : heap) (i : Z) : res heap :=
  ptr ← DLT.ptr_at h base i;
  let ptr := default ptr (DLTDiff.mapTokenNodes dltDiff !! i) in
  pc ← DLT.ptr_at h current i;
  ptr ← (if decide (pc ≠ ptr) then
           fSame ← same_rows h (DLT.depth dlt) pc ptr;
           Ret (if fSame : bool then pc else ptr)
         else Ret ptr);
  v ← load (vecs h) (DLT.distList dlt);
  Ret (set_vec (DLT.distList dlt) (v ++ [ptr]) h).

Definition add_diff (dltDiff : DLTDiff.t) (now : Z) (h : heap) (m : t) : res (heap * t * bool) :=
  let base := DLTDiff.baseDlt dltDiff in
  let '(h, dlt) := DLT.make (DLT.width base) (DLT.depth base) (DLTDiff.version dltDiff) false now h in
  current ← obj m (curPtr m);
  h ← for_range (DLT.columns dlt) (diff_column base current dlt dltDiff) h;
  Ret (h, set_cur (curPtr m) (push_current dlt m), true).

Definition getAndLockCurrentVersion (m : t) : res (t * Z) :=
  if decide (curPtr m ≠ null) then
    d ← obj m (curPtr m);
    Ret (set_obj (curPtr m) (with_base (λ b, (FDS_Table.incRefcnt b).1) d) m, curPtr m)
  else Ret (m, curPtr m).

(** [releaseVersion(version)]; the callbacks called are returned too. *)
Definition releaseVersion (version : Z) (m : t) : res (t * fds_errno * list (Z * fds_errno)) :=
  if decide (version = 0) then Ret (m, ERR_INVALID_ARG, []) else
  p ← find_version m version (dltList m);
  match p with
  | Some p =>
      d ← obj m p;
      let '(b, _, calls) := FDS_Table.decRefcnt (DLT.base d) in
      Ret (set_obj p (with_base (λ _, b) d) m, ERR_OK, calls)
  | None => Ret (m, ERR_NOT_FOUND, [])
  end.

Definition getDltVersions (m : t) : res (list Z) :=
  foldM (λ vec p, d ← obj m p; Ret (vec ++ [DLT.version d])) [] (dltList m).

Definition setCurrent (version : Z) (m : t) : res (t * fds_errno) :=
  if decide (0 = version) then Ret (m, ERR_OK) else
  p ← find_version m version (dltList m);
  match p with
  | Some p => Ret (set_cur p m, ERR_OK)
  | None => Ret (m, ERR_NOT_FOUND)
  end.

Definition setCurrentDltClosed (m : t) : res (t * fds_errno) :=
  if decide (curPtr m = null) then Ret (m, ERR_NOT_FOUND) else
  cur ← obj m (curPtr m);
  let curVersion := DLT.getVersion cur in
  p ← find_version m curVersion (dltList m);
  match p with
  | Some p =>
      d ← obj m p;
      r ← setCurrent curVersion (set_obj p (DLT.setClosed d) m);
      Ret (r.1, ERR_OK)
  | None => Ret (m, ERR_OK)
  end.

Definition getNodes (h : heap) (m : t) (token : Z) : res Z :=
  d ← obj m (curPtr m); DLT.getNodes h d token.
Definition getNodes_obj (h : heap) (m : t) (objId : list Z) : res Z :=
  d ← obj m (curPtr m); DLT.getNodes_obj h d objId.
Definition getPrimary (h : heap) (m : t) (token : Z) : res Z :=
  d ← obj m (curPtr m); DLT.getPrimary h d token.

(** [getPrimary(objId)] calls itself with the same argument. *)
Fixpoint getPrimary_obj (fuel : nat) (h : heap) (m : t) (objId : list Z) : res Z :=
  match fuel with
  | O => Fault OutOfFuel
  | S fuel => getPrimary_obj fuel h m objId
  end.

Section Serialization.
Context `{P : TProtocol}.

Definition write_dlts (s : out * heap * t) (p : Z) : res (out * heap * t) :=
  let '(b, h, m) := s in
  d ← obj m p;
  r ← DLT.write d h;
  let '(o, (h, d)) := r : out * (heap * DLT.t) in
  Ret (out_app b o, h, set_obj p d m).

Definition write (h : heap) (m : t) : res (out * heap * t) :=
  cur ← obj m (curPtr m);
  let b := out_app out_nil (writeI64 (DLT.version cur)) in
  let b := out_app b (writeByte (maxDlts m)) in
  let b := out_app b (writeByte (Z.of_nat (length (dltList m)))) in
  foldM write_dlts (b, h, m) (dltList m).

(** [numDlts] rounds of reading a table and adding it. *)
Fixpoint read_dlts (n : nat) (now : Z) (h : heap) (m : t) : Rd (heap * t) :=
  match n with
  | O => mret (h, m)
  | S n =>
      let '(h, dlt) := DLT.make 0 0 0 false now h in
      hd ← DLT.read dlt h;
      r ← Rd_lift (add hd.2 None hd.1 m);
      read_dlts n now r.1.1 r.1.2
  end.

Definition read (now : Z) (h : heap) (m : t) : Rd (heap * t) :=
  version ← readI64;
  maxDlts ← readByte;
  numDlts ← readByte;
  hm ← read_dlts (Z.to_nat numDlts) now h (Make (curPtr m) [] maxDlts (objs m) (nextObj m));
  r ← Rd_lift (setCurrent version hm.2);
  mret (hm.1, r.1).
End Serialization.

(** ** Sharing columns *)
Lemma same_rows_spec h rows p q c1 c2 :
  cols h !! p = Some c1 → cols h !! q = Some c2 → getLength c1 = rows → getLength c2 = rows →
  same_rows h rows p q = Ret (bool_decide (c1 = c2)).
Proof.
  intros Hp Hq H1 H2. unfold same_rows, getLength in *. rewrite <-H1.
  edestruct (for_range_rule (λ k same, same = bool_decide (take k c1 = take k c2)))
    as (b & E & Hb).
  3:{ rewrite E, Hb. rewrite !take_ge by lia. done. }
  - by rewrite bool_decide_eq_true_2.
  - intros k same Hk ->. destruct (lookup_lt_is_Some_2 c1 k) as [x Hx]; [lia|].
    destruct (lookup_lt_is_Some_2 c2 k) as [y Hy]; [lia|].
    rewrite (take_S_r _ _ _ Hx), (take_S_r _ _ _ Hy).
    case_bool_decide as Heq.
    + rewrite (DLT.load_Ret _ _ _ Hp), (DLT.load_Ret _ _ _ Hq), !bind_Ret.
      rewrite (get_ok _ _ _ Hx), !bind_Ret, (get_ok _ _ _ Hy), bind_Ret. eexists. split; [done|].
      apply bool_decide_ext. rewrite Heq. split; [by intros ->|].
      intros H. apply app_inj_2 in H as [_ H]; [by injection H|done].
    + eexists. split; [done|]. rewrite bool_decide_eq_false_2; [done|].
      intros H. apply Heq. apply app_inj_1 in H as [H _]; [done|]. rewrite !length_take. lia.
Qed.

(** Redirecting a pointer of one vector to an equal column changes no
    table. *)
Lemma redirect_wf h e te vp v i q c :
  vecs h !! vp = Some v → cols h !! q = Some c →
  (∀ p, v !! i = Some p → cols h !! p = Some c) →
  DLT.wf h e te → DLT.wf (set_vec vp (<[i := q]> v) h) e te.
Proof.
  intros Hv Hq Hsame [Hs (ps & Hps & Hf) Hl Hd]. split; [done| |done|done]. simpl.
  destruct (decide (DLT.distList e = vp)) as [<-|Hne].
  - assert (ps = v) as -> by congruence. exists (<[i := q]> v). split; [apply lookup_insert_eq|].
    apply Forall2_lookup. intros k. rewrite Forall2_lookup in Hf. specialize (Hf k).
    destruct (decide (i = k)) as [->|Hik]; [|by rewrite list_lookup_insert_ne].
    destruct (v !! k) as [p|] eqn:Hk.
    + rewrite list_lookup_insert_eq by (by eapply lookup_lt_Some).
      inversion Hf as [? c' Hc'|]; subst. constructor. rewrite Hq. rewrite <-Hc'.
      symmetry. by apply Hsame.
    + rewrite list_insert_ge; [by rewrite Hk|]. by apply lookup_ge_None.
  - exists ps. by rewrite lookup_insert_ne.
Qed.

Lemma ptr_at_vec h d v i p : vecs h !! DLT.distList d = Some v → v !! i = Some p →
  DLT.ptr_at h d (Z.of_nat i) = Ret p.
Proof.
  intros Hv Hp. unfold DLT.ptr_at. rewrite (DLT.load_Ret _ _ _ Hv), bind_Ret.
  apply vec_at_lookup. rewrite Nat2Z.id. split; [lia|done].
Qed.

(** The columns of two tables are shared up to [k]. *)
Definition shared (h : heap) (a b : DLT.t) (ta tb : list (list Z)) (k : nat) : Prop :=
  ∀ i, (i < k)%nat → DLT.depth a = DLT.depth b → ta !! i = tb !! i →
    DLT.ptr_at h a (Z.of_nat i) = DLT.ptr_at h b (Z.of_nat i).

Lemma share_column_ok h cur new tcur tnew i :
  DLT.wf h cur tcur → DLT.wf h new tnew → (i < length tcur)%nat → (i < length tnew)%nat →
  shared h cur new tcur tnew i →
  ∃ h', share_column cur new h (Z.of_nat i) = Ret h' ∧ cols h' = cols h ∧
    (∀ e te, DLT.wf h e te → DLT.wf h' e te) ∧ shared h' cur new tcur tnew (S i).
Proof.
  intros Hcur Hnew Hi1 Hi2 Hsh.
  destruct (lookup_lt_is_Some_2 tcur i Hi1) as [cc Hcc].
  destruct (lookup_lt_is_Some_2 tnew i Hi2) as [cn Hcn].
  destruct (DLT.wf_ptr _ _ _ _ _ Hcur Hcc) as (pc & Epc & Hpc).
  destruct (DLT.wf_ptr _ _ _ _ _ Hnew Hcn) as (pn & Epn & Hpn).
  unfold share_column. rewrite Epc, Epn, !bind_Ret.
  assert (∀ h', cols h' = cols h → (∀ j, (j ≠ i)%nat → DLT.ptr_at h' cur (Z.of_nat j) =
      DLT.ptr_at h cur (Z.of_nat j) ∧ DLT.ptr_at h' new (Z.of_nat j) = DLT.ptr_at h new (Z.of_nat j)) →
    (DLT.depth cur = DLT.depth new → cc = cn →
      DLT.ptr_at h' cur (Z.of_nat i) = DLT.ptr_at h' new (Z.of_nat i)) →
    shared h' cur new tcur tnew (S i)) as Hext.
  { intros h' _ Hj Hii j Hlt Hd Hcol. destruct (decide (j = i)) as [->|Hne].
    - apply Hii; [done|congruence].
    - destruct (Hj j Hne) as [-> ->]. apply Hsh; [lia|done..]. }
  case_decide as Hdec; [destruct Hdec as [Hne Hdep]|].
  2:{ exists h. split_and!; [done..|]. apply Hext; [done..|]. intros Hd Hc. rewrite Epc, Epn.
      f_equal. destruct (decide (pc = pn)); [done|]. tauto. }
  rewrite (same_rows_spec _ _ _ _ _ _ Hpc Hpn), bind_Ret.
  2:{ by rewrite (DLT.wf_depth_lookup _ _ _ _ _ Hcur Hcc). }
  2:{ by rewrite (DLT.wf_depth_lookup _ _ _ _ _ Hnew Hcn). }
  case_bool_decide as Heq; [subst cn|exists h; split_and!; [done..|by apply Hext]].
  destruct (DLT.wf_repr _ _ _ Hnew) as (v & Hv & Hf).
  rewrite (DLT.load_Ret _ _ _ Hv), bind_Ret, Nat2Z.id.
  eexists. split; [done|]. split; [done|].
  destruct (Forall2_lookup_r _ _ _ _ _ Hf Hcn) as (p & Hp & Hpc').
  split.
  - intros e te. apply (redirect_wf h e te _ v i pc cc Hv Hpc). intros p' Hp'. congruence.
  - set (h' := set_vec _ _ _).
    assert (∀ d j, (j ≠ i)%nat → DLT.ptr_at h' d (Z.of_nat j) = DLT.ptr_at h d (Z.of_nat j)) as Hother.
    { intros d j Hj. unfold DLT.ptr_at, load. simpl.
      destruct (decide (DLT.distList d = DLT.distList new)) as [->|Hd].
      - rewrite lookup_insert_eq, Hv, !bind_Ret. unfold vec_at. rewrite Nat2Z.id.
        by rewrite list_lookup_insert_ne by done.
      - by rewrite lookup_insert_ne by done. }
    assert (DLT.ptr_at h' new (Z.of_nat i) = Ret pc) as Hni.
    { apply (ptr_at_vec h' new (<[i := pc]> v)); [apply lookup_insert_eq|].
      apply list_lookup_insert_eq. by eapply lookup_lt_Some. }
    apply Hext; [done|by intros; split; apply Hother|]. intros _ _.
    destruct (decide (DLT.distList cur = DLT.distList new)) as [Hdl|Hdl].
    + unfold DLT.ptr_at. by rewrite Hdl.
    + rewrite Hni, <-Epc. unfold DLT.ptr_at, load. simpl. by rewrite lookup_insert_ne by done.
Qed.

Lemma share_columns_ok h cur new tcur tnew :
  DLT.wf h cur tcur → DLT.wf h new tnew → (length tnew ≤ length tcur)%nat →
  ∃ h', for_range (DLT.columns new) (share_column cur new) h = Ret h' ∧ cols h' = cols h ∧
    (∀ e te, DLT.wf h e te → DLT.wf h' e te) ∧ shared h' cur new tcur tnew (length tnew).
Proof.
  intros Hcur Hnew Hlen. rewrite <-(DLT.wf_length _ _ _ Hnew).
  edestruct (for_range_rule (λ k h', cols h' = cols h ∧
    (∀ e te, DLT.wf h e te → DLT.wf h' e te) ∧ shared h' cur new tcur tnew k)) as (h' & E & H).
  3:{ rewrite E. exists h'. split; [done|]. exact H. }
  - split_and!; [done..|]. intros i Hi. lia.
  - intros k h' Hk (Hc & Hw & Hs).
    destruct (share_column_ok h' cur new tcur tnew k) as (h'' & E & Hc' & Hw' & Hs');
      [by apply Hw|by apply Hw|lia|done|done|].
    exists h''. split_and!; [done|congruence|auto|done].
Qed.

(** ** The invariant of the manager *)
Definition ver (m : t) (p : Z) : Z := default 0 (DLT.version <$> objs m !! p).
Definition versions (m : t) : list Z := ver m <$> dltList m.

Record inv (m : t) : Prop := {
  inv_objs p : p ∈ dltList m → is_Some (objs m !! p);
  inv_fresh p d : objs m !! p = Some d → 0 < p < nextObj m;
  inv_next : 0 < nextObj m;
  inv_nodup : NoDup (dltList m);
  inv_cur : if dltList m is [] then curPtr m = null else curPtr m ∈ dltList m;
  inv_versions : NoDup (versions m);
}.

Lemma find_version_spec m v ps : (∀ p, p ∈ ps → is_Some (objs m !! p)) →
  (v ∉ (ver m <$> ps) ∧ find_version m v ps = Ret None) ∨
  (∃ p, p ∈ ps ∧ ver m p = v ∧ find_version m v ps = Ret (Some p)).
Proof.
  induction ps as [|p ps IH]; intros Hin; simpl; [left; set_solver|].
  destruct (Hin p) as [d Hd]; [set_solver|]. unfold obj. rewrite (DLT.load_Ret _ _ _ Hd).
  assert (ver m p = DLT.version d) as Hv by (unfold ver; by rewrite Hd).
  rewrite bind_Ret. case_decide as Heq.
  - right. exists p. rewrite Hv. set_solver.
  - destruct IH as [[Hn ->]|(q & Hq & Hvq & ->)]; [set_solver| |right; exists q; set_solver].
    left. set_solver.
Qed.

Lemma inv_obj m p : inv m → p ∈ dltList m → ∃ d, obj m p = Ret d ∧ objs m !! p = Some d ∧
  ver m p = DLT.version d.
Proof.
  intros Hi Hp. destruct (inv_objs _ Hi _ Hp) as [d Hd]. exists d.
  unfold obj, ver. rewrite Hd. by rewrite (DLT.load_Ret _ _ _ Hd).
Qed.

Lemma inv_make n : inv (make n).
Proof. split; simpl; try done; [set_solver|constructor|constructor]. Qed.

(** A stored object replaced by one of the same version. *)
Lemma set_obj_inv p d d' m : inv m → objs m !! p = Some d → DLT.version d' = DLT.version d →
  inv (set_obj p d' m) ∧ versions (set_obj p d' m) = versions m.
Proof.
  intros Hi Hd Hv.
  assert (∀ q, ver (set_obj p d' m) q = ver m q) as Hver.
  { intros q. unfold ver. simpl. destruct (decide (p = q)) as [->|].
    - rewrite lookup_insert_eq, Hd. simpl. done.
    - by rewrite lookup_insert_ne. }
  assert (versions (set_obj p d' m) = versions m) as Hvs.
  { unfold versions. simpl. apply list_fmap_ext. intros _ q _. apply Hver. }
  split; [|done]. destruct Hi as [Ho Hf Hn Hnd Hc Hvd]. split; simpl; try done; [| |by rewrite Hvs].
  - intros q Hq. destruct (decide (p = q)) as [->|]; [rewrite lookup_insert_eq; eauto|].
    rewrite lookup_insert_ne by done. auto.
  - intros q e [[<- _]|[_ Hq]]%lookup_insert_Some; eauto.
Qed.

Lemma with_base_version f d :
  (∀ b, FDS_Table.version (f b) = FDS_Table.version b) → DLT.version (with_base f d) = DLT.version d.
Proof. intros H. apply H. Qed.

Lemma notify_current_inv cb m : inv m → ∃ m' e, notify_current cb m = Ret (m', e) ∧ inv m' ∧
  versions m' = versions m ∧ dltList m' = dltList m ∧ curPtr m' = curPtr m ∧
  nextObj m' = nextObj m ∧ maxDlts m' = maxDlts m ∧
  (∀ p d, objs m !! p = Some d → ∃ b, objs m' !! p = Some (with_base (λ _, b) d) ∧
    FDS_Table.version b = DLT.version d ∧ FDS_Table.depth b = DLT.depth d ∧
    FDS_Table.columns b = DLT.columns d ∧ FDS_Table.width b = DLT.width d ∧
    FDS_Table.outstanding_io b = FDS_Table.outstanding_io (DLT.base d)).
Proof.
  intros Hi. unfold notify_current.
  assert (∀ d, with_base (λ _, DLT.base d) d = d) as Hid by (by intros []).
  case_decide as Hc.
  - assert (curPtr m ∈ dltList m) as Hcur.
    { pose proof (inv_cur _ Hi). destruct (dltList m); [tauto|done]. }
    destruct (inv_obj _ _ Hi Hcur) as (d & -> & Hd & _). rewrite bind_Ret.
    unfold FDS_Table.setCallback.
    assert (∃ b e, (if decide (0 < FDS_Table.outstanding_io (DLT.base d)) then
       (FDS_Table.Make (FDS_Table.depth (DLT.base d)) (FDS_Table.width (DLT.base d))
         (FDS_Table.columns (DLT.base d)) (FDS_Table.version (DLT.base d))
         (FDS_Table.outstanding_io (DLT.base d)) cb, ERR_IO_PENDING) else (DLT.base d, ERR_OK)) = (b, e) ∧
      FDS_Table.version b = DLT.version d ∧ FDS_Table.depth b = DLT.depth d ∧
      FDS_Table.columns b = DLT.columns d ∧ FDS_Table.width b = DLT.width d ∧
      FDS_Table.outstanding_io b = FDS_Table.outstanding_io (DLT.base d)) as (b & e & -> & Hb)
      by (case_decide; eexists _, _; split_and!; reflexivity).
    destruct (set_obj_inv (curPtr m) d (with_base (λ _, b) d) m Hi Hd) as [Hi' Hvs]; [apply Hb|].
    eexists _, e. split_and!; try done. intros p d' Hp. simpl.
    destruct (decide (curPtr m = p)) as [<-|].
    + rewrite lookup_insert_eq. assert (d' = d) as -> by congruence. eauto.
    + rewrite lookup_insert_ne by done. exists (DLT.base d'). by rewrite Hid.
  - exists m, ERR_OK. split_and!; try done. intros p d Hp. exists (DLT.base d). by rewrite Hid.
Qed.

Lemma push_current_inv d m : inv m → DLT.version d ∉ versions m → inv (push_current d m) ∧
  versions (push_current d m) = versions m ++ [DLT.version d].
Proof.
  intros Hi Hv. pose proof Hi as [Ho Hf Hn Hnd Hc Hvd].
  assert (nextObj m ∉ dltList m) as Hnew.
  { intros Hin. destruct (Ho _ Hin) as [e He]. apply Hf in He. lia. }
  assert (versions (push_current d m) = versions m ++ [DLT.version d]) as Hvs.
  { unfold versions. simpl. rewrite fmap_app. f_equal.
    - apply list_fmap_ext. intros i q Hq. apply list_elem_of_lookup_2 in Hq. unfold ver. simpl.
      rewrite lookup_insert_ne; [done|]. congruence.
    - unfold ver. simpl. by rewrite lookup_insert_eq. }
  split; [|done]. split; simpl.
  - intros p [Hp| ->%list_elem_of_singleton]%elem_of_app; [|rewrite lookup_insert_eq; eauto].
    destruct (decide (nextObj m = p)) as [->|]; [rewrite lookup_insert_eq; eauto|].
    rewrite lookup_insert_ne by done. auto.
  - intros p e [[<- _]|[_ Hp]]%lookup_insert_Some; [lia|]. apply Hf in Hp. lia.
  - lia.
  - apply NoDup_app. split_and!; [done|set_solver|apply NoDup_singleton].
  - destruct (dltList m); simpl; set_solver.
  - rewrite Hvs. apply NoDup_app. split_and!; [done|set_solver|apply NoDup_singleton].
Qed.

Lemma wf_functional h d t1 t2 : DLT.wf h d t1 → DLT.wf h d t2 → t1 = t2.
Proof.
  intros [_ (ps & Hv & H1) _ _] [_ (ps' & Hv' & H2) _ _].
  assert (ps' = ps) as -> by congruence. clear Hv Hv'. revert t2 H2.
  induction H1 as [|p c ps t1 Hp _ IH]; intros t2 H2; inversion H2; subst; [done|].
  f_equal; [congruence|auto].
Qed.

(** [add] up to the sharing of columns. *)
Lemma add_unfold d cb h m : inv m →
  (DLT.version d ∈ versions m ∧ add d cb h m = Ret (h, m, ERR_DUPLICATE)) ∨
  (DLT.version d ∉ versions m ∧ ∃ m1 e, notify_current cb m = Ret (m1, e) ∧ inv m1 ∧
    DLT.version d ∉ versions m1 ∧
    add d cb h m = match dltList m with
      | [] => Ret (h, push_current (DLT.copy d) m1, e)
      | _ => current ← obj m1 (curPtr m1);
             h' ← for_range (DLT.columns (DLT.copy d)) (share_column current (DLT.copy d)) h;
             Ret (h', push_current (DLT.copy d) m1, e)
      end).
Proof.
  intros Hi. unfold add. change (DLT.getVersion (DLT.copy d)) with (DLT.version d).
  destruct (find_version_spec m (DLT.version d) (dltList m) (inv_objs _ Hi))
    as [[Hn ->]|(p & Hp & Hv & ->)]; rewrite bind_Ret.
  - right. split; [done|].
    destruct (notify_current_inv cb m Hi) as (m1 & e & E & Hi1 & Hvs & Hl & _).
    exists m1, e. rewrite E, bind_Ret, Hl, Hvs. done.
  - left. split; [|done]. apply list_elem_of_fmap. eauto.
Qed.

Lemma copy_version d : DLT.version (DLT.copy d) = DLT.version d.
Proof. done. Qed.

Lemma dlt_add_inv d cb h m h' m' e : inv m → add d cb h m = Ret (h', m', e) → inv m'.
Proof.
  intros Hi Hadd. destruct (add_unfold d cb h m Hi) as [[_ E]|(_ & m1 & e1 & _ & Hi1 & Hv & E)];
    rewrite E in Hadd; [by injection Hadd as <- <- <-|].
  destruct (push_current_inv (DLT.copy d) m1 Hi1 Hv) as [Hp _].
  destruct (dltList m); [by injection Hadd as <- <- <-|].
  apply bind_Ret_inv in Hadd as (c & _ & Hadd). apply bind_Ret_inv in Hadd as (h1 & _ & Hadd).
  by injection Hadd as <- <- <-.
Qed.

Lemma wf_copy h d tbl : DLT.wf h d tbl → DLT.wf h (DLT.copy d) tbl ∧
  DLT.columns (DLT.copy d) = DLT.columns d.
Proof.
  intros [Hs Hr Hl Hd]. pose proof Hs as (Hdep & Hw & Hc & Hv & _).
  assert (DLT.columns (DLT.copy d) = DLT.columns d) as Hcol.
  { unfold DLT.columns, DLT.copy. simpl. rewrite u32_small; [done|].
    split; [apply Z.pow_nonneg; lia|apply Z.pow_lt_mono_r; unfold DLT.width; lia]. }
  split; [|done]. split; [|done|by rewrite Hcol|done]. by apply FDS_Table.make_well_shaped.
Qed.

Lemma wf_with_base h d tbl b : DLT.wf h d tbl →
  FDS_Table.version b = DLT.version d → FDS_Table.depth b = DLT.depth d →
  FDS_Table.columns b = DLT.columns d → FDS_Table.width b = DLT.width d →
  FDS_Table.outstanding_io b = FDS_Table.outstanding_io (DLT.base d) →
  DLT.wf h (with_base (λ _, b) d) tbl.
Proof.
  intros [Hs Hr Hl Hd] Hv Hdep Hc Hw Ho. split; [|done|..].
  - unfold FDS_Table.well_shaped in *. simpl. unfold DLT.version, DLT.depth, DLT.columns, DLT.width in *.
    by rewrite Hv, Hdep, Hc, Hw, Ho.
  - unfold DLT.columns at 1. simpl. by rewrite Hc.
  - unfold DLT.depth. simpl. by rewrite Hdep.
Qed.

(** [DLTManager::add].  A version that is already stored is refused
    with [ERR_DUPLICATE] and changes nothing.  Otherwise, when the current
    table has at least as many columns, the addition succeeds: the table is
    appended to the list whatever [maxDlts] is and becomes the current one,
    no table anywhere changes its contents, and every column that equals the
    current table's column of the same token (for tables of the same depth)
    is now the same object. *)
Theorem dlt_add_spec d cb h m tbl : inv m → DLT.wf h d tbl →
  (∀ c, objs m !! curPtr m = Some c → ∃ tcur, DLT.wf h c tcur ∧ (length tbl ≤ length tcur)%nat) →
  (DLT.getVersion d ∈ versions m → add d cb h m = Ret (h, m, ERR_DUPLICATE)) ∧
  (DLT.getVersion d ∉ versions m → ∃ h' m' e, add d cb h m = Ret (h', m', e) ∧ inv m' ∧
    dltList m' = dltList m ++ [curPtr m'] ∧ versions m' = versions m ++ [DLT.getVersion d] ∧
    objs m' !! curPtr m' = Some (DLT.copy d) ∧
    (∀ x tx, DLT.wf h x tx → DLT.wf h' x tx) ∧
    (∀ c tcur, objs m !! curPtr m = Some c → DLT.wf h c tcur →
      shared h' c d tcur tbl (length tbl))).
Proof.
  intros Hi Hwf Hcur. unfold DLT.getVersion.
  destruct (add_unfold d cb h m Hi) as [[Hv E]|(Hv & m1 & e & En & Hi1 & Hv1 & E)];
    (split; [try done|try done; intros _]).
  destruct (notify_current_inv cb m Hi) as (m1' & e' & En' & _ & Hvs & Hl & Hc & Hn & _ & Hobjs).
  rewrite En in En'. injection En' as <- <-.
  destruct (push_current_inv (DLT.copy d) m1 Hi1 Hv1) as [Hpi Hpv].
  assert (∀ h', (∀ x tx, DLT.wf h x tx → DLT.wf h' x tx) →
    (∀ c tcur, objs m !! curPtr m = Some c → DLT.wf h c tcur → shared h' c d tcur tbl (length tbl)) →
    add d cb h m = Ret (h', push_current (DLT.copy d) m1, e) → ∃ h' m' e, add d cb h m = Ret (h', m', e) ∧ inv m' ∧
    dltList m' = dltList m ++ [curPtr m'] ∧ versions m' = versions m ++ [DLT.version d] ∧
    objs m' !! curPtr m' = Some (DLT.copy d) ∧
    (∀ x tx, DLT.wf h x tx → DLT.wf h' x tx) ∧
    (∀ c tcur, objs m !! curPtr m = Some c → DLT.wf h c tcur →
      shared h' c d tcur tbl (length tbl))) as Hfin.
  { intros h' Hw Hs Eadd. exists h', (push_current (DLT.copy d) m1), e.
    split_and!; [done..|simpl; by rewrite Hl|by rewrite Hpv, Hvs|apply lookup_insert_eq|done|done]. }
  pose proof (inv_cur _ Hi) as Hic. destruct (dltList m) as [|p ps] eqn:Hdl.
  { apply (Hfin h); [done| |done]. intros c tcur Hc0. apply (inv_fresh _ Hi) in Hc0.
    rewrite Hic in Hc0. unfold null in Hc0. lia. }
  destruct (inv_obj m (curPtr m) Hi) as (c & _ & Hobj & _); [by rewrite Hdl|].
  destruct (Hobjs _ _ Hobj) as (b & Hb & Hbv & Hbd & Hbc & Hbw & Hbo).
  destruct (Hcur c Hobj) as (tcur & Hwc & Hlen).
  destruct (wf_copy _ _ _ Hwf) as [Hwcopy _].
  destruct (share_columns_ok h (with_base (λ _, b) c) (DLT.copy d) tcur tbl) as (h' & Es & _ & Hw & Hs);
    [by apply wf_with_base|done|done|].
  unfold obj in E. rewrite Hc, (DLT.load_Ret _ _ _ Hb), bind_Ret, Es, bind_Ret in E.
  apply (Hfin h'); [done| |done]. intros c' tcur' Hc' Hwc' i Hlt Hdep Heq.
  assert (c' = c) as -> by congruence.
  assert (tcur' = tcur) as -> by (by eapply wf_functional).
  apply (Hs i Hlt); [|done]. unfold DLT.depth at 1. simpl. by rewrite Hbd.
Qed.

(** A manager whose current table is [DLT.demo]. *)
Definition demo_manager : t := Make 1 [1] 2 {[1 := DLT.demo]} 2.
(** A second version that differs in token 0 only. *)
Definition demo2_heap : heap :=
  Heap {[1 := [11; 12]; 2 := [12; 13]; 5 := [14; 12]; 6 := [12; 13]]}
    {[3 := [1; 2]; 7 := [5; 6]]} {[4 := ∅; 8 := ∅]} 9.
Definition demo2 : DLT.t := DLT.Make (FDS_Table.make 1 2 8) 7 false 8 2000 false.

Lemma demo_manager_inv : inv demo_manager.
Proof.
  split; simpl; try done.
  - intros p ->%list_elem_of_singleton. by eexists.
  - intros p d [<- _]%lookup_singleton_Some. lia.
  - apply NoDup_singleton.
  - set_solver.
  - apply NoDup_singleton.
Qed.

Lemma demo2_wf : DLT.wf demo2_heap demo2 [[14; 12]; [12; 13]] ∧
  DLT.wf demo2_heap DLT.demo [[11; 12]; [12; 13]].
Proof.
  split; (split; [| |done|repeat constructor]).
  - apply FDS_Table.make_well_shaped; unfold uint64_max; lia.
  - exists [5; 6]. split; [done|]. repeat constructor.
  - apply FDS_Table.make_well_shaped; unfold uint64_max; lia.
  - exists [1; 2]. split; [done|]. repeat constructor.
Qed.

Lemma dlt_add_spec_witness :
  ∃ h' m' e, add demo2 None demo2_heap demo_manager = Ret (h', m', e) ∧
    versions m' = [7; 8] ∧ shared h' DLT.demo demo2 [[11; 12]; [12; 13]] [[14; 12]; [12; 13]] 2.
Proof.
  destruct demo2_wf as [H2 H1].
  destruct (dlt_add_spec demo2 None demo2_heap demo_manager _ demo_manager_inv H2) as [_ Hadd].
  { intros c [= <-]. eexists. split; [exact H1|done]. }
  destruct Hadd as (h' & m' & e & E & _ & _ & Hv & _ & _ & Hs).
  { change (8 ∉ [7]). set_solver. }
  exists h', m', e. split_and!; [exact E|exact Hv|]. exact (Hs DLT.demo _ eq_refl H1).
Defined.

(** [add] takes its argument by constant reference, but the columns it
    shares become shared with the argument as well: setting a cell of the
    caller's table afterwards, in a column that equalled the current one,
    changes the table of the version that was current before. *)
Theorem add_aliases_caller d cb h m tbl c tcur h' m' e token index u h'' :
  inv m → DLT.wf h d tbl → objs m !! curPtr m = Some c → DLT.wf h c tcur →
  length tbl = length tcur → DLT.depth c = DLT.depth d → DLT.getVersion d ∉ versions m →
  add d cb h m = Ret (h', m', e) → tcur !! Z.to_nat token = tbl !! Z.to_nat token → 0 ≤ token →
  DLT.setNode d token index u h' = Ret h'' → DLT.getNode h'' c token index = Ret u.
Proof.
  intros Hi Hwf Hc Hwc Hlen Hdep Hv Hadd Heq Ht Hset.
  destruct (add_unfold d cb h m Hi) as [[? _]|(_ & m1 & e1 & En & Hi1 & Hv1 & E)]; [done|].
  destruct (notify_current_inv cb m Hi) as (m1' & e' & En' & _ & _ & _ & Hcp & _ & _ & Hobjs).
  rewrite En in En'. injection En' as <- <-.
  destruct (Hobjs _ _ Hc) as (b & Hb & Hbv & Hbd & Hbc & Hbw & Hbo).
  destruct (wf_copy _ _ _ Hwf) as [Hwcopy _].
  destruct (share_columns_ok h (with_base (λ _, b) c) (DLT.copy d) tcur tbl) as (h1 & Es & _ & Hw & Hs);
    [by apply wf_with_base|done|lia|].
  assert (h' = h1) as ->.
  { rewrite E in Hadd. destruct (dltList m) as [|p ps] eqn:Hdl.
    - pose proof (inv_cur _ Hi) as Hic. rewrite Hdl in Hic. apply (inv_fresh _ Hi) in Hc.
      unfold null in Hic. lia.
    - unfold obj in Hadd. rewrite Hcp, (DLT.load_Ret _ _ _ Hb), bind_Ret, Es, bind_Ret in Hadd.
      by injection Hadd. }
  destruct (DLT.setNode_inv _ _ _ _ _ _ Hset) as (Hidx & Hcol & p & col & Hp & Hpc & Hin & ->).
  assert (DLT.ptr_at h1 c token = Ret p) as Hpc'.
  { rewrite <-Hp. assert (Z.of_nat (Z.to_nat token) = token) as <- by lia.
    pose proof (DLT.wf_length _ _ _ Hwf). apply (Hs (Z.to_nat token)); [lia| |by rewrite Heq].
    unfold DLT.depth at 1. simpl. by rewrite Hbd. }
  pose proof (DLT.wf_length _ _ _ Hwf). pose proof (DLT.wf_length _ _ _ Hwc).
  unfold DLT.getNode, DLT.getNodes. rewrite !fds_verify_true, !bind_Ret by lia.
  change (DLT.ptr_at (set_col p _ h1) c token) with (DLT.ptr_at h1 c token).
  rewrite Hpc', bind_Ret. unfold load. simpl. rewrite lookup_insert_eq, bind_Ret.
  apply get_lookup. split; [lia|]. apply list_lookup_insert_eq. unfold getLength in Hin. lia.
Qed.

Lemma add_aliases_caller_witness :
  ∃ h' m' h'', add demo2 None demo2_heap demo_manager = Ret (h', m', ERR_OK) ∧
    DLT.setNode demo2 1 0 99 h' = Ret h'' ∧ DLT.getNode h'' DLT.demo 1 0 = Ret 99.
Proof.
  destruct demo2_wf as [H2 H1]. eexists _, _, _. split; [reflexivity|]. split; [reflexivity|].
  refine (add_aliases_caller demo2 None demo2_heap demo_manager _ DLT.demo _ _ _ ERR_OK 1 0 99 _
    demo_manager_inv H2 eq_refl H1 eq_refl eq_refl _ eq_refl eq_refl _ eq_refl).
  - change (8 ∉ [7]). set_solver.
  - done.
Defined.

(** ** Reachable managers *)
Inductive step : t → t → Prop :=
| step_add d cb h m h' m' e : add d cb h m = Ret (h', m', e) → step m m'
| step_setCurrent v m m' e : setCurrent v m = Ret (m', e) → step m m'
| step_setClosed m m' e : setCurrentDltClosed m = Ret (m', e) → step m m'
| step_lock m m' p : getAndLockCurrentVersion m = Ret (m', p) → step m m'
| step_release v m m' e calls : releaseVersion v m = Ret (m', e, calls) → step m m'.

Lemma set_cur_inv p m : inv m → p ∈ dltList m → inv (set_cur p m).
Proof. intros [] Hp. split; simpl; try done. by destruct (dltList m); [apply elem_of_nil in Hp|]. Qed.

Lemma obj_inv m p d : obj m p = Ret d → objs m !! p = Some d.
Proof. apply DLT.load_inv. Qed.

Lemma find_version_inv m v p : inv m → find_version m v (dltList m) = Ret (Some p) →
  p ∈ dltList m ∧ ver m p = v.
Proof.
  intros Hi Hf. destruct (find_version_spec m v (dltList m) (inv_objs _ Hi))
    as [[_ E]|(q & Hq & Hv & E)]; rewrite E in Hf; [done|]. by injection Hf as <-.
Qed.

Lemma setCurrent_inv v m m' e : inv m → setCurrent v m = Ret (m', e) → inv m'.
Proof.
  intros Hi H. unfold setCurrent in H. case_decide; [by res_inv|].
  apply bind_Ret_inv in H as ([p|] & Hf & [= <- <-]); [|done].
  apply set_cur_inv; [done|]. by apply (find_version_inv m v) in Hf as [? _].
Qed.

Lemma dlt_step_inv m m' : step m m' → inv m → inv m'.
Proof.
  intros Hs Hi. destruct Hs as [d cb h m h' m' e H|v m m' e H|m m' e H|m m' p H|v m m' e calls H].
  - by eapply dlt_add_inv.
  - by eapply setCurrent_inv.
  - unfold setCurrentDltClosed in H. case_decide; [by res_inv|].
    apply bind_Ret_inv in H as (c & Hc%obj_inv & H).
    apply bind_Ret_inv in H as ([p|] & Hf & H); [|by res_inv].
    apply bind_Ret_inv in H as (d & Hd%obj_inv & H). apply bind_Ret_inv in H as ([m1 e1] & H1 & [= <- _]).
    eapply setCurrent_inv, H1. by apply (set_obj_inv p d).
  - unfold getAndLockCurrentVersion in H. case_decide; [|by res_inv].
    apply bind_Ret_inv in H as (d & Hd%obj_inv & [= <- _]). by apply (set_obj_inv _ d).
  - unfold releaseVersion in H. case_decide; [by res_inv|].
    apply bind_Ret_inv in H as ([p|] & Hf & H); [|by res_inv].
    apply bind_Ret_inv in H as (d & Hd%obj_inv & H).
    pose proof (FDS_Table.decRefcnt_version (DLT.base d)) as Hv.
    destruct (FDS_Table.decRefcnt (DLT.base d)) as [[b r] cs]. injection H as <- _ _.
    by apply (set_obj_inv p d).
Qed.

Lemma getDltVersions_spec m : inv m → getDltVersions m = Ret (versions m).
Proof.
  intros Hi. unfold getDltVersions, versions.
  rewrite (foldM_pure _ (λ vec p, vec ++ [ver m p])).
  - f_equal. enough (∀ l acc, foldl (λ vec p, vec ++ [ver m p]) acc l = acc ++ (ver m <$> l)) as Hg
      by apply (Hg (dltList m) []).
    intros l. induction l as [|p l IH]; intros acc; simpl; [by rewrite app_nil_r|].
    by rewrite IH, <-app_assoc.
  - intros vec p Hp. destruct (inv_obj _ _ Hi Hp) as (d & -> & _ & ->). done.
Qed.

(** C24. Safety of the DLT manager.  In every state reachable by adding
    tables, changing the current one, closing it, and locking and releasing
    versions: the stored versions are distinct, [getDltVersions] lists them,
    the current pointer designates a stored table as soon as one was added,
    and [getDLT] of a non-zero version returns the one table of that
    version, or null when it is not stored. *)
Theorem dlt_manager_safe (n : Z) (m : t) : rtc step (make n) m →
  NoDup (versions m) ∧ getDltVersions m = Ret (versions m) ∧
  (dltList m ≠ [] → ∃ c, obj m (curPtr m) = Ret c ∧ DLT.getVersion c ∈ versions m) ∧
  (∀ v, v ≠ 0 → ∃ p, getDLT m v = Ret p ∧
    if decide (v ∈ versions m) then ∃ d, obj m p = Ret d ∧ DLT.getVersion d = v else p = null).
Proof.
  intros Hreach. assert (inv m) as Hi.
  { revert m Hreach. apply (rtc_ind_r inv); [apply inv_make|]. intros; by eapply dlt_step_inv. }
  split_and!; [apply Hi|by apply getDltVersions_spec|..].
  - intros Hne. pose proof (inv_cur _ Hi) as Hc. destruct (dltList m) eqn:Hl; [done|].
    rewrite <-Hl in Hc. destruct (inv_obj _ _ Hi Hc) as (c & -> & _ & Hv). exists c.
    split; [done|]. unfold DLT.getVersion. rewrite <-Hv. apply list_elem_of_fmap. eauto.
  - intros v Hv. unfold getDLT. rewrite decide_False by done.
    destruct (find_version_spec m v (dltList m) (inv_objs _ Hi)) as [[Hn ->]|(p & Hp & Hvp & ->)];
      rewrite bind_Ret; simpl.
    + exists null. by rewrite decide_False.
    + exists p. split; [done|]. rewrite decide_True by (apply list_elem_of_fmap; eauto).
      destruct (inv_obj _ _ Hi Hp) as (d & -> & _ & Hd). exists d. split; [done|].
      unfold DLT.getVersion. congruence.
Qed.

Lemma dlt_manager_safe_witness :
  let m := Make 1 [1] 2 {[1 := DLT.copy DLT.demo]} 2 in
  rtc step (make 2) m ∧ ∃ p, getDLT m 7 = Ret p ∧ ∃ d, obj m p = Ret d ∧ DLT.getVersion d = 7.
Proof.
  intros m. assert (rtc step (make 2) m) as Hreach.
  { eapply rtc_once, (step_add DLT.demo None DLT.demo_heap). reflexivity. }
  split; [done|].
  destruct (proj2 (proj2 (proj2 (dlt_manager_safe 2 m Hreach))) 7) as (p & E & Hp); [done|].
  exists p. split; [exact E|]. rewrite decide_True in Hp; [exact Hp|]. change (7 ∈ [7]). set_solver.
Defined.

Lemma ver_inj m p q : inv m → p ∈ dltList m → q ∈ dltList m → ver m p = ver m q → p = q.
Proof.
  intros Hi [i Hp]%list_elem_of_lookup [k Hq]%list_elem_of_lookup Hv.
  assert (versions m !! i = Some (ver m p)) as H1 by (unfold versions; by rewrite list_lookup_fmap, Hp).
  assert (versions m !! k = Some (ver m q)) as H2 by (unfold versions; by rewrite list_lookup_fmap, Hq).
  rewrite Hv in H1. pose proof (NoDup_lookup _ _ _ _ (inv_versions _ Hi) H1 H2). congruence.
Qed.

(** Draining the replaced version.  A request locks the current table,
    a new version is then added with a callback, which answers
    [ERR_IO_PENDING]; when the request releases the version it locked, the
    callback is called once, with [ERR_OK]. *)
Theorem release_drains_locked m c d k h h' m1 m2 m3 p e e3 calls :
  inv m → objs m !! curPtr m = Some c → DLT.getVersion c ≠ 0 →
  FDS_Table.outstanding_io (DLT.base c) = 0 → DLT.getVersion d ∉ versions m →
  getAndLockCurrentVersion m = Ret (m1, p) →
  add d (Some k) h m1 = Ret (h', m2, e) →
  releaseVersion (DLT.getVersion c) m2 = Ret (m3, e3, calls) →
  e = ERR_IO_PENDING ∧ e3 = ERR_OK ∧ calls = [(k, ERR_OK)].
Proof.
  intros Hi Hc Hv0 Hio Hfresh Hlock Hadd Hrel. unfold DLT.getVersion in *.
  pose proof (inv_fresh _ Hi _ _ Hc) as Hcur.
  assert (curPtr m ∈ dltList m) as Hin.
  { pose proof (inv_cur _ Hi). destruct (dltList m); [unfold null in *; lia|done]. }
  unfold getAndLockCurrentVersion in Hlock. rewrite decide_True in Hlock by (unfold null; lia).
  unfold obj in Hlock. rewrite (DLT.load_Ret _ _ _ Hc), bind_Ret in Hlock. injection Hlock as <- <-.
  set (c1 := with_base _ c) in Hadd. set (m1 := set_obj (curPtr m) c1 m) in Hadd.
  destruct (set_obj_inv (curPtr m) c c1 m Hi Hc eq_refl) as [Hi1 Hvs]. fold m1 in Hi1, Hvs.
  assert (objs m1 !! curPtr m1 = Some c1) as Hc1 by apply lookup_insert_eq.
  destruct (add_unfold d (Some k) h m1 Hi1) as [[Hdup _]|(_ & m1' & e1 & En & Hi1' & Hv1 & E)];
    [by rewrite Hvs in Hdup|]. rewrite E in Hadd.
  destruct (push_current_inv (DLT.copy d) m1' Hi1' Hv1) as [Hi2 _].
  assert (e1 = ERR_IO_PENDING ∧ m1' = set_obj (curPtr m) (with_base (λ b,
      FDS_Table.Make (FDS_Table.depth b) (FDS_Table.width b) (FDS_Table.columns b)
        (FDS_Table.version b) 1 (Some k)) c) m1) as [-> Hm1'].
  { unfold notify_current, obj in En. rewrite decide_True, (DLT.load_Ret _ _ _ Hc1), bind_Ret in En
      by (split; [simpl; unfold null; lia|done]).
    unfold FDS_Table.setCallback, c1 in En. simpl in En. rewrite Hio in En.
    rewrite decide_True in En by done. by injection En as <- <-. }
  assert (m2 = push_current (DLT.copy d) m1' ∧ e = ERR_IO_PENDING) as [-> ->].
  { destruct (dltList m1); [by injection Hadd as _ <- <-|].
    apply bind_Ret_inv in Hadd as (c' & _ & Hadd). apply bind_Ret_inv in Hadd as (h1 & _ & Hadd).
    by injection Hadd as _ <- <-. }
  clear E Hadd. unfold releaseVersion in Hrel. rewrite decide_False in Hrel by done.
  set (m2 := push_current (DLT.copy d) m1') in *.
  assert (objs m2 !! curPtr m = Some (with_base (λ b,
      FDS_Table.Make (FDS_Table.depth b) (FDS_Table.width b) (FDS_Table.columns b)
        (FDS_Table.version b) 1 (Some k)) c)) as Hobj2.
  { unfold m2. rewrite Hm1'. simpl. rewrite lookup_insert_ne by lia. apply lookup_insert_eq. }
  assert (curPtr m ∈ dltList m2) as Hin2 by (unfold m2; rewrite Hm1'; simpl; set_solver).
  assert (ver m2 (curPtr m) = DLT.version c) as Hver2 by (unfold ver; by rewrite Hobj2).
  apply bind_Ret_inv in Hrel as ([q|] & Hf & Hrel).
  - apply (find_version_inv m2 _ q Hi2) in Hf as [Hq Hqv].
    assert (q = curPtr m) as -> by (apply (ver_inj m2); [done..|congruence]).
    unfold obj in Hrel. rewrite (DLT.load_Ret _ _ _ Hobj2), bind_Ret in Hrel.
    unfold FDS_Table.decRefcnt in Hrel. simpl in Hrel. by injection Hrel as _ <- <-.
  - exfalso. destruct (find_version_spec m2 (DLT.version c) (dltList m2) (inv_objs _ Hi2))
      as [[Hn _]|(q & _ & _ & E)]; [|by rewrite E in Hf].
    apply Hn, list_elem_of_fmap. eauto.
Qed.

Lemma release_drains_locked_witness :
  ∃ m1 h' m2 m3, getAndLockCurrentVersion demo_manager = Ret (m1, 1) ∧
    add demo2 (Some 5) demo2_heap m1 = Ret (h', m2, ERR_IO_PENDING) ∧
    releaseVersion 7 m2 = Ret (m3, ERR_OK, [(5, ERR_OK)]).
Proof.
  eexists _, _, _, _. split; [reflexivity|].
  destruct (release_drains_locked demo_manager DLT.demo demo2 5 demo2_heap _ _ _ _ 1 _ _ _
    demo_manager_inv eq_refl ltac:(done) eq_refl ltac:(change (8 ∉ [7]); set_solver)
    eq_refl eq_refl eq_refl) as (_ & _ & Hcalls).
  split; reflexivity.
Defined.

End DLTManager.
