(* ===== verification/TokenBucket.v ===== *)
(** * Token buckets

    Models [TokenBucket] and [RecvTokenBucket]
    (src/source/lib/qos_tokbucket.h): demand-driven buckets that accumulate
    [rate_] tokens per second up to [burst_].  Times are microseconds since
    the epoch; the calls to the clock are arguments. *)

From S2P Require Import Prelude.
Open Scope Z_scope.

Definition MICROS : Z := 1000000.

Module TokenBucket.

Record t := Make {
  rate_ : Z;
  burst_ : Z;
  t_last_update_ : Z;
  token_count_ : Z;
}.

(** 100 years of seconds, leap days included. *)
Definition MAX_RATE : Z := uint64_max / ((100 * 365 + 24) * 24 * 60 * 60).

Definition make (rate burst max_burst_us now : Z) : res t :=
  if decide (rate > MAX_RATE) then Fault VerifyFailed else
  let rate_ := if decide (rate = 0) then 1 else rate in
  let burst_ := if decide (max_burst_us > 0)
                then Z.min (u64 (max_burst_us * rate) / MICROS) burst else burst in
  Ret (Make rate_ burst_ now 0).

Definition getRate (b : t) : Z := rate_ b.

Definition hasTokens (num_tokens : Z) (b : t) : bool := bool_decide (num_tokens ≤ token_count_ b).

Definition updateTokensOnly (nowMicrosec : Z) (b : t) : res t :=
  _ ← fds_verify (bool_decide (nowMicrosec >= t_last_update_ b));
  let elapsed_microsec := nowMicrosec - t_last_update_ b in
  if decide (elapsed_microsec > 0) then
    _ ← fds_verify (bool_decide (uint64_max / elapsed_microsec >= rate_ b));
    let new_tokens := u64 (elapsed_microsec * rate_ b) / MICROS in
    _ ← fds_verify (bool_decide (uint64_max - token_count_ b >= new_tokens));
    let token_microsec := u64 (new_tokens * MICROS) / rate_ b in
    Ret (Make (rate_ b) (burst_ b) (u64 (t_last_update_ b + token_microsec))
           (u64 (token_count_ b + new_tokens)))
  else Ret b.

Definition expireTokens (b : t) : t * Z :=
  if decide (token_count_ b > burst_ b) then
    let expired_tokens := token_count_ b - burst_ b in
    (Make (rate_ b) (burst_ b) (t_last_update_ b) (token_count_ b - expired_tokens), expired_tokens)
  else (b, 0).

Definition updateTBState (nowMicrosec : Z) (b : t) : res (t * Z) :=
  b ← updateTokensOnly nowMicrosec b; Ret (expireTokens b).

(** [clock] is the time read when [nowMicrosec] is 0. *)
Definition modifyParams (rate burst nowMicrosec clock : Z) (b : t) : res t :=
  let nowMicrosec := if decide (nowMicrosec = 0) then clock else nowMicrosec in
  b ← updateTokensOnly nowMicrosec b;
  Ret (Make (if decide (rate = 0) then 1 else rate) burst (t_last_update_ b) (token_count_ b)).

(** [modifyRate(rate, burst_us)] and [modifyRate(rate)] *)
Definition modifyRate_us (rate burst_us clock : Z) (b : t) : res t :=
  modifyParams rate (u64 (burst_us * rate) / MICROS) 0 clock b.
Definition modifyRate (rate clock : Z) (b : t) : res t :=
  modifyParams rate (burst_ b) 0 clock b.

Definition tryToConsumeTokens (num_tokens : Z) (b : t) : t * bool :=
  if decide (num_tokens ≤ token_count_ b) then
    (Make (rate_ b) (burst_ b) (t_last_update_ b) (token_count_ b - num_tokens), true)
  else (b, false).

Definition getDelayMicrosec (num_tokens : Z) (b : t) : Z :=
  if decide (token_count_ b < num_tokens) then
    let needed_tokens := num_tokens - token_count_ b in
    u64 (needed_tokens * MICROS) / rate_ b
  else 0.

(** [RecvTokenBucket::addTokens] *)
Definition addTokens (add_tokens : Z) (b : t) : t :=
  (expireTokens (Make (rate_ b) (burst_ b) (t_last_update_ b) (u64 (token_count_ b + add_tokens)))).1.

(** The values of the fields; [rate_] is never zero. *)
Definition wf (b : t) : Prop :=
  0 < rate_ b ≤ uint64_max ∧ 0 ≤ burst_ b ≤ uint64_max ∧
  0 ≤ t_last_update_ b ≤ uint64_max ∧ 0 ≤ token_count_ b ≤ uint64_max.

(** The tokens an update at [now] generates. *)
Definition new_tokens (now : Z) (b : t) : Z := (now - t_last_update_ b) * rate_ b / MICROS.

(** An update at [now] passes the overflow checks. *)
Definition in_range (now : Z) (b : t) : Prop :=
  t_last_update_ b ≤ now ≤ uint64_max ∧ (now - t_last_update_ b) * rate_ b ≤ uint64_max ∧
  token_count_ b + new_tokens now b ≤ uint64_max.

Lemma new_tokens_bounds now b : wf b → t_last_update_ b ≤ now →
  0 ≤ new_tokens now b ∧ new_tokens now b * MICROS ≤ (now - t_last_update_ b) * rate_ b <
    (new_tokens now b + 1) * MICROS.
Proof.
  intros (Hr & _) Hn. unfold new_tokens, MICROS.
  assert (0 ≤ (now - t_last_update_ b) * rate_ b) as Hx by nia.
  split; [by apply Z.div_pos|]. by apply div_bounds.
Qed.

(** The exact effect of an update that passes its checks: no product or sum
    wraps around. *)
Lemma updateTokensOnly_ok now b : wf b → in_range now b →
  updateTokensOnly now b = Ret (Make (rate_ b) (burst_ b)
    (t_last_update_ b + new_tokens now b * MICROS / rate_ b) (token_count_ b + new_tokens now b)).
Proof.
  intros Hwf (Hn & Hprod & Hsum). pose proof (new_tokens_bounds now b Hwf ltac:(lia)) as (H0 & H1 & H2).
  destruct Hwf as (Hr & Hb & Ht & Hc). unfold updateTokensOnly.
  rewrite (fds_verify_true (now >= _)), bind_Ret by lia. case_decide as He.
  - assert (uint64_max / (now - t_last_update_ b) >= rate_ b) as Hq.
    { apply Z.le_ge, Z.div_le_lower_bound; lia. }
    rewrite (fds_verify_true (_ / _ >= _)), bind_Ret by done.
    assert (0 ≤ (now - t_last_update_ b) * rate_ b) by nia.
    rewrite (u64_small ((now - t_last_update_ b) * rate_ b)) by (unfold uint64_max in *; lia).
    fold (new_tokens now b). rewrite fds_verify_true, bind_Ret by lia.
    rewrite (u64_small (new_tokens now b * MICROS)) by (unfold uint64_max, MICROS in *; lia).
    assert (new_tokens now b * MICROS / rate_ b ≤ now - t_last_update_ b).
    { apply Z.div_le_upper_bound; lia. }
    assert (0 ≤ new_tokens now b * MICROS / rate_ b) by (apply Z.div_pos; unfold MICROS; lia).
    rewrite !u64_small by (unfold uint64_max in *; lia). done.
  - assert (new_tokens now b = 0) as ->.
    { unfold new_tokens. replace (now - t_last_update_ b) with 0 by lia. done. }
    rewrite Z.mul_0_l, Z.div_0_l, !Z.add_0_r by lia. by destruct b.
Qed.

(** The update keeps the bucket well formed, and its clock never passes
    [now]. *)
Lemma updateTokensOnly_wf now b b' : wf b → in_range now b → updateTokensOnly now b = Ret b' →
  wf b' ∧ t_last_update_ b ≤ t_last_update_ b' ≤ now ∧ rate_ b' = rate_ b ∧ burst_ b' = burst_ b ∧
  token_count_ b' = token_count_ b + new_tokens now b.
Proof.
  intros Hwf Hin Hu. rewrite (updateTokensOnly_ok _ _ Hwf Hin) in Hu. injection Hu as <-.
  pose proof (new_tokens_bounds now b Hwf ltac:(apply Hin)) as (H0 & H1 & H2).
  destruct Hwf as (Hr & Hb & Ht & Hc), Hin as (Hn & Hprod & Hsum).
  assert (new_tokens now b * MICROS / rate_ b ≤ now - t_last_update_ b)
    by (apply Z.div_le_upper_bound; lia).
  assert (0 ≤ new_tokens now b * MICROS / rate_ b) by (apply Z.div_pos; unfold MICROS; lia).
  unfold wf. simpl. repeat split; lia.
Qed.

Lemma updateTBState_total now b : wf b → in_range now b → ∃ r, updateTBState now b = Ret r.
Proof.
  intros Hwf Hin. unfold updateTBState. rewrite (updateTokensOnly_ok _ _ Hwf Hin), bind_Ret. destruct (expireTokens _). by eexists.
Qed.

(** An update fails its assertions exactly when it is out of range. *)
Lemma updateTokensOnly_fails now b : wf b → 0 ≤ now ≤ uint64_max → ¬ in_range now b →
  updateTokensOnly now b = Fault VerifyFailed.
Proof.
  intros Hwf Hnow Hout. unfold updateTokensOnly.
  destruct (decide (now >= t_last_update_ b)) as [Hge|Hlt].
  2:{ unfold fds_verify. by rewrite (bool_decide_eq_false_2 (now >= _)). }
  rewrite (fds_verify_true (now >= _)), bind_Ret by lia.
  pose proof (new_tokens_bounds now b Hwf ltac:(lia)) as (H0 & H1 & H2).
  destruct Hwf as (Hr & Hb & Ht & Hc).
  case_decide as He.
  2:{ exfalso. apply Hout. unfold in_range, new_tokens.
      replace (now - t_last_update_ b) with 0 by lia.
      rewrite Z.mul_0_l, Z.div_0_l by done. unfold uint64_max in *. lia. }
  destruct (decide ((now - t_last_update_ b) * rate_ b ≤ uint64_max)) as [Hp|Hp].
  - rewrite (fds_verify_true (_ / _ >= _)), bind_Ret
      by (apply Z.le_ge, Z.div_le_lower_bound; lia).
    assert (0 ≤ (now - t_last_update_ b) * rate_ b) by nia.
    rewrite (u64_small ((now - t_last_update_ b) * rate_ b)) by (unfold uint64_max in *; lia).
    fold (new_tokens now b). unfold fds_verify. rewrite bool_decide_eq_false_2; [done|].
    intros Hge'. apply Hout. unfold in_range. lia.
  - unfold fds_verify. rewrite (bool_decide_eq_false_2 (_ / _ >= _)); [done|]. intros Hge'. apply Hp.
    pose proof (div_bounds uint64_max (now - t_last_update_ b) ltac:(lia)). nia.
Qed.

(** [updateTBState].  An update whose products and sums fit 64 bits
    leaves [min(burst, count + new)] tokens, where [new] is the exact
    number of whole tokens for the elapsed time, returns the tokens that
    spilled over, and moves the bucket's clock forward, never past [now]; an
    update that goes back in time or would overflow fails its assertions and
    nothing else does. *)
Theorem updateTBState_spec now b : wf b → 0 ≤ now ≤ uint64_max →
  (in_range now b → ∃ b' expired, updateTBState now b = Ret (b', expired) ∧ wf b' ∧
    token_count_ b' = Z.min (burst_ b) (token_count_ b + new_tokens now b) ∧
    token_count_ b' + expired = token_count_ b + new_tokens now b ∧
    t_last_update_ b ≤ t_last_update_ b' ≤ now ∧ rate_ b' = rate_ b ∧ burst_ b' = burst_ b) ∧
  (¬ in_range now b → updateTBState now b = Fault VerifyFailed).
Proof.
  intros Hwf Hnow. split.
  - intros Hin. unfold updateTBState.
    pose proof (updateTokensOnly_ok _ _ Hwf Hin) as E.
    pose proof (updateTokensOnly_wf _ _ _ Hwf Hin E) as (Hwf' & Ht & Hr & Hb & Hc).
    rewrite E, bind_Ret. clear E. revert Hwf' Ht Hr Hb Hc. generalize (Make (rate_ b) (burst_ b)
      (t_last_update_ b + new_tokens now b * MICROS / rate_ b) (token_count_ b + new_tokens now b)).
    intros b1 (H1 & H2 & H3 & H4) Ht Hr Hb Hc. unfold expireTokens, wf.
    case_decide; eexists _, _; (split; [done|]); simpl; repeat split; lia.
  - intros Hout. unfold updateTBState. by rewrite updateTokensOnly_fails.
Qed.

Lemma updateTBState_spec_witness :
  ∃ b' expired, updateTBState 3500000 (Make 10 20 1000000 5) = Ret (b', expired) ∧
    token_count_ b' = 20 ∧ expired = 10.
Proof.
  assert (wf (Make 10 20 1000000 5)) as Hwf by (unfold wf, uint64_max; simpl; lia).
  destruct (updateTBState_spec 3500000 _ Hwf ltac:(unfold uint64_max; lia)) as [Hok _].
  destruct Hok as (b' & e & E & _ & Hc & He & _); [by vm_compute|].
  exists b', e. split; [exact E|].
  change (new_tokens 3500000 (Make 10 20 1000000 5)) with 25 in Hc, He. simpl in Hc, He. lia.
Defined.

(** ** The rate over a sequence of updates *)
Definition run_updates (nows : list Z) (b : t) : res t :=
  foldM (λ b now, updateTokensOnly now b) b nows.

(** One update: how the tokens relate to the movement of the bucket's
    clock. *)
Lemma update_rate now b b' : wf b → 0 ≤ now ≤ uint64_max → updateTokensOnly now b = Ret b' →
  wf b' ∧ rate_ b' = rate_ b ∧
  rate_ b * (t_last_update_ b' - t_last_update_ b) ≤ MICROS * (token_count_ b' - token_count_ b) ≤
    rate_ b * (t_last_update_ b' - t_last_update_ b + 1) ∧
  rate_ b * (now - t_last_update_ b') < MICROS + rate_ b.
Proof.
  intros Hwf Hnow Hu.
  assert (in_range now b) as Hin.
  { destruct (decide (t_last_update_ b ≤ now ≤ uint64_max)), (decide ((now - t_last_update_ b) * rate_ b ≤ uint64_max)),
      (decide (token_count_ b + new_tokens now b ≤ uint64_max)); unfold in_range; [done|..];
      exfalso; rewrite updateTokensOnly_fails in Hu; unfold in_range; try done; tauto. }
  pose proof (updateTokensOnly_ok _ _ Hwf Hin) as E. rewrite E in Hu. injection Hu as Hb'.
  destruct (updateTokensOnly_wf _ _ _ Hwf Hin E) as (Hwf' & _). rewrite Hb' in Hwf'.
  split; [done|]. subst b'. simpl.
  pose proof (new_tokens_bounds now b Hwf ltac:(apply Hin)) as (H0 & H1 & H2).
  pose proof (div_bounds (new_tokens now b * MICROS) (rate_ b) ltac:(apply Hwf)).
  split; [done|]. set (q := new_tokens now b * MICROS / rate_ b) in *. unfold MICROS in *. lia.
Qed.

(** C37. The long-run rate of a bucket.  Over any sequence of updates that
    succeeds, [10^6] times the tokens generated is at least the rate times
    the time the bucket's clock advanced, and exceeds it by at most one
    microsecond's worth per update; and the bucket's clock is never behind
    the last update by as much as one token plus one microsecond. *)
Theorem bucket_rate (nows : list Z) b b' :
  wf b → Forall (λ now, 0 ≤ now ≤ uint64_max) nows → run_updates nows b = Ret b' →
  rate_ b * (t_last_update_ b' - t_last_update_ b) ≤ MICROS * (token_count_ b' - token_count_ b) ≤
    rate_ b * (t_last_update_ b' - t_last_update_ b + Z.of_nat (length nows)) ∧
  (∀ now, last nows = Some now → rate_ b * (now - t_last_update_ b') < MICROS + rate_ b).
Proof.
  intros Hwf Hn. revert b Hwf. induction Hn as [|now nows Hnow _ IH]; intros b Hwf Hr.
  - injection Hr as <-. rewrite !Z.sub_diag. simpl. split; [unfold MICROS; lia|done].
  - unfold run_updates in Hr. rewrite foldM_cons in Hr. apply bind_Ret_inv in Hr as (b1 & E & Hr).
    destruct (update_rate now b b1 Hwf Hnow E) as (Hwf1 & Hr1 & Hrate & Hlag).
    destruct (IH b1 Hwf1 Hr) as [Hrest Hlast]. rewrite Hr1 in *.
    simpl length. split; [rewrite Nat2Z.inj_succ; lia|].
    intros now' Hl. destruct nows as [|n2 nows].
    + injection Hl as <-. simpl in Hr. by injection Hr as <-.
    + rewrite last_cons_cons in Hl. by apply Hlast.
Qed.

Lemma bucket_rate_witness :
  ∃ b', run_updates [1333333; 1666667; 2000001] (Make 3 20 1000000 0) = Ret b' ∧
    3 * (t_last_update_ b' - 1000000) ≤ MICROS * token_count_ b' ≤
      3 * (t_last_update_ b' - 1000000 + 3).
Proof.
  exists (Make 3 20 1999999 3).
  assert (run_updates [1333333; 1666667; 2000001] (Make 3 20 1000000 0) = Ret (Make 3 20 1999999 3))
    as E by (by vm_compute).
  split; [exact E|].
  assert (wf (Make 3 20 1000000 0)) as Hwf by (unfold wf, uint64_max; simpl; lia).
  assert (Forall (λ now, 0 ≤ now ≤ uint64_max) [1333333; 1666667; 2000001]) as Hn
    by (repeat constructor; unfold uint64_max; lia).
  destruct (bucket_rate [1333333; 1666667; 2000001] _ _ Hwf Hn E) as [H _].
  simpl in *. lia.
Defined.

(** The delay for a request.  When tokens are missing, an update
    earlier than [getDelayMicrosec] after the bucket's clock does not
    provide them, one at least a microsecond later does, and one exactly at
    the delay does if and only if the rate divides the missing tokens times
    [10^6]: the quotient is rounded down. *)
Theorem getDelayMicrosec_spec num_tokens b now b' :
  wf b → token_count_ b < num_tokens < 2 ^ 32 → 0 ≤ now ≤ uint64_max →
  updateTokensOnly now b = Ret b' → in_range now b →
  let delay := getDelayMicrosec num_tokens b in
  (now < t_last_update_ b + delay → hasTokens num_tokens b' = false) ∧
  (now = t_last_update_ b + delay →
    (hasTokens num_tokens b' = true ↔ (rate_ b | (num_tokens - token_count_ b) * MICROS))) ∧
  (now > t_last_update_ b + delay → hasTokens num_tokens b' = true).
Proof.
  intros Hwf Hn Hnow Hu Hin delay.
  destruct (updateTokensOnly_wf _ _ _ Hwf Hin Hu) as (_ & _ & _ & _ & Hc).
  pose proof (new_tokens_bounds now b Hwf ltac:(apply Hin)) as (H0 & H1 & H2).
  pose proof Hwf as (Hr & _ & _ & Hcount).
  set (need := num_tokens - token_count_ b) in *. assert (0 < need < 2 ^ 32) by lia.
  assert (delay = need * MICROS / rate_ b) as Hd.
  { unfold delay, getDelayMicrosec. rewrite decide_True by lia. fold need. rewrite u64_small; [done|].
    unfold MICROS, uint64_max. lia. }
  pose proof (div_bounds (need * MICROS) (rate_ b) ltac:(lia)) as Hdb. rewrite <-Hd in Hdb.
  assert (hasTokens num_tokens b' = true ↔ need * MICROS ≤ (now - t_last_update_ b) * rate_ b) as Hiff.
  { unfold hasTokens. rewrite bool_decide_eq_true, Hc. unfold MICROS in *.
    generalize dependent ((now - t_last_update_ b) * rate_ b). intros x. unfold need. lia. }
  split_and!.
  - intros Hlt. apply not_true_iff_false. rewrite Hiff. nia.
  - intros Heq. rewrite Hiff. replace (now - t_last_update_ b) with delay by lia. split.
    + intros Hle. exists delay. lia.
    + intros [k Hk]. assert (delay = k) as -> by (rewrite Hd, Hk, Z.div_mul; lia). lia.
  - intros Hgt. apply Hiff. nia.
Qed.

(** At three tokens per second the delay for one token is 333333
    microseconds, after which there is none. *)
Lemma getDelayMicrosec_spec_witness :
  ∃ b', getDelayMicrosec 1 (Make 3 20 0 0) = 333333 ∧
    updateTokensOnly 333333 (Make 3 20 0 0) = Ret b' ∧ hasTokens 1 b' = false.
Proof.
  exists (Make 3 20 0 0). split; [by vm_compute|].
  assert (updateTokensOnly 333333 (Make 3 20 0 0) = Ret (Make 3 20 0 0)) as E by (by vm_compute).
  split; [exact E|].
  assert (wf (Make 3 20 0 0)) as Hwf by (unfold wf, uint64_max; simpl; lia).
  destruct (getDelayMicrosec_spec 1 (Make 3 20 0 0) 333333 _ Hwf ltac:(simpl; lia)
    ltac:(unfold uint64_max; lia) E ltac:(by vm_compute)) as (_ & Hiff & _).
  apply not_true_iff_false. intros H. apply Hiff in H as [k Hk]; [|by vm_compute].
  simpl in Hk. unfold MICROS in Hk. lia.
Defined.

(** Updates and consumption leave the parameters alone. *)
Lemma updateTokensOnly_params now b b' : updateTokensOnly now b = Ret b' →
  rate_ b' = rate_ b ∧ burst_ b' = burst_ b.
Proof.
  unfold updateTokensOnly. intros [_ H]%bind_verify. case_decide; [|by res_inv].
  apply bind_verify in H as [_ H]. apply bind_verify in H as [_ H]. by injection H as <-.
Qed.

Lemma expireTokens_params b : rate_ (expireTokens b).1 = rate_ b ∧ burst_ (expireTokens b).1 = burst_ b.
Proof. unfold expireTokens. by case_decide. Qed.

Lemma updateTBState_params now b r : updateTBState now b = Ret r →
  rate_ r.1 = rate_ b ∧ burst_ r.1 = burst_ b.
Proof.
  unfold updateTBState. intros (b1 & E & [= <-])%bind_Ret_inv.
  destruct (updateTokensOnly_params _ _ _ E), (expireTokens_params b1). split; congruence.
Qed.

Lemma addTokens_params n b : rate_ (addTokens n b) = rate_ b.
Proof. unfold addTokens. by rewrite (proj1 (expireTokens_params _)). Qed.

Lemma tryToConsume_params n b : rate_ (tryToConsumeTokens n b).1 = rate_ b.
Proof. unfold tryToConsumeTokens. by case_decide. Qed.

Lemma modifyRate_rate rate clock b b' : modifyRate rate clock b = Ret b' →
  rate_ b' = if decide (rate = 0) then 1 else rate.
Proof. unfold modifyRate, modifyParams. by intros (b1 & _ & [= <-])%bind_Ret_inv. Qed.

End TokenBucket.
