(* ===== verification/VolumeQueue.v ===== *)
(** * Volume queues

    Models [FDS_VolumeQueue] (src/source/include/fds_volume.h,
    src/source/lib/misc/fds_volume.cpp): the request queue of one volume with
    its quality-of-service parameters and its activity state.  The queue
    itself is a [boost::lockfree::queue], a library outside the repository:
    it is the class [LockfreeQueue], with its documented behaviour in
    [LockfreeQueueLaws]. *)

From S2P Require Import Prelude.
Open Scope Z_scope.

(** Requests are identified by numbers. *)
Class LockfreeQueue (Q : Type) := {
  lfq_make : Z → Q;
  lfq_push : Z → Q → bool * Q;
  lfq_pop : Q → option (Z * Q);
  lfq_empty : Q → bool;
}.

(** A first-in first-out queue; [push] allocates a node when the initial
    capacity is used up, and succeeds. *)
Class LockfreeQueueLaws {Q} (L : LockfreeQueue Q) (contents : Q → list Z) : Prop := {
  lfq_make_contents n : contents (lfq_make n) = [];
  lfq_push_contents x q : ∃ q', lfq_push x q = (true, q') ∧ contents q' = contents q ++ [x];
  lfq_pop_contents q :
    match contents q with
    | [] => lfq_pop q = None
    | x :: l => ∃ q', lfq_pop q = Some (x, q') ∧ contents q' = l
    end;
  lfq_empty_contents q : lfq_empty q = bool_decide (contents q = []);
}.

Inductive VolumeQState :=
| FDS_VOL_Q_INACTIVE
| FDS_VOL_Q_SUSPENDED
| FDS_VOL_Q_QUIESCING
| FDS_VOL_Q_ACTIVE
| FDS_VOL_Q_STOP_DEQUEUE.

#[export] Instance VolumeQState_eq_dec : EqDecision VolumeQState.
Proof. solve_decision. Defined.

Module VolumeQueue.
Section VolumeQueue.
Context {Q : Type} `{L : LockfreeQueue Q}.

Record t := Make {
  volQueue : Q;
  volQState : VolumeQState;
  iops_throttle : Z;
  iops_assured : Z;
  priority : Z;
  count_ : Z;
}.

Definition make (q_capacity _iops_throttle _iops_assured prio : Z) : t :=
  Make (lfq_make q_capacity) FDS_VOL_Q_INACTIVE _iops_throttle _iops_assured prio 0.

Definition modifyQosParams (_iops_assured _iops_throttle _prio : Z) (v : t) : t :=
  Make (volQueue v) (volQState v) _iops_throttle _iops_assured _prio (count_ v).

Definition set_state (s : VolumeQState) (v : t) : t :=
  Make (volQueue v) s (iops_throttle v) (iops_assured v) (priority v) (count_ v).

Definition activate : t → t := set_state FDS_VOL_Q_ACTIVE.
Definition stopDequeue : t → t := set_state FDS_VOL_Q_STOP_DEQUEUE.
Definition quiesceIOs : t → t := set_state FDS_VOL_Q_QUIESCING.
Definition suspendIO : t → t := set_state FDS_VOL_Q_SUSPENDED.
Definition resumeIO : t → t := set_state FDS_VOL_Q_ACTIVE.

(** [while (!volQueue->push(io)){}] *)
Fixpoint push_loop (fuel : nat) (io : Z) (q : Q) : res Q :=
  match fuel with
  | O => Fault OutOfFuel
  | S fuel => let '(ok, q) := lfq_push io q in if ok : bool then Ret q else push_loop fuel io q
  end.

Definition enqueueIO (fuel : nat) (io : Z) (v : t) : res (t * fds_errno) :=
  if decide (volQState v = FDS_VOL_Q_ACTIVE ∨ volQState v = FDS_VOL_Q_STOP_DEQUEUE) then
    q ← push_loop fuel io (volQueue v);
    Ret (Make q (volQState v) (iops_throttle v) (iops_assured v) (priority v) (u32 (count_ v + 1)),
         ERR_OK)
  else Ret (v, ERR_NOT_READY).

(** A null pointer is [None]. *)
Definition dequeueIO (v : t) : t * option Z :=
  if decide (volQState v = FDS_VOL_Q_ACTIVE ∨ volQState v = FDS_VOL_Q_QUIESCING) then
    let '(q, io) := match lfq_pop (volQueue v) with
                    | Some (x, q) => (q, Some x)
                    | None => (volQueue v, None)
                    end in
    let s := if decide (volQState v = FDS_VOL_Q_QUIESCING ∧ lfq_empty q = true)
             then FDS_VOL_Q_SUSPENDED else volQState v in
    (Make q s (iops_throttle v) (iops_assured v) (priority v) (u32 (count_ v - 1)), io)
  else (v, None).

Section Laws.
Context (contents : Q → list Z) `{!LockfreeQueueLaws L contents}.

(** [count_] is the number of queued requests. *)
Definition inv (v : t) : Prop := count_ v = u32 (Z.of_nat (length (contents (volQueue v)))).

(** The requests a history of calls hands out, and the ones it accepts. *)
Inductive op := Enqueue (io : Z) | Dequeue | SetState (s : VolumeQState) | SetQos (a th p : Z).

Definition apply (o : op) (v : t) : res (t * list Z * list Z) :=
  match o with
  | Enqueue io =>
      r ← enqueueIO 1 io v;
      Ret (r.1, if decide (r.2 = ERR_OK) then [io] else [], [])
  | Dequeue => let '(v, io) := dequeueIO v in Ret (v, [], option_list io)
  | SetState s => Ret (set_state s v, [], [])
  | SetQos a th p => Ret (modifyQosParams a th p v, [], [])
  end.

Fixpoint run (ops : list op) (v : t) : res (t * list Z * list Z) :=
  match ops with
  | [] => Ret (v, [], [])
  | o :: ops =>
      r ← apply o v;
      s ← run ops r.1.1;
      Ret (s.1.1, r.1.2 ++ s.1.2, r.2 ++ s.2)
  end.

Lemma push_loop_ok io q : ∃ q', push_loop 1 io q = Ret q' ∧ contents q' = contents q ++ [io].
Proof. destruct (lfq_push_contents io q) as (q' & E & Hc). exists q'. simpl. by rewrite E. Qed.

(** One call keeps the contents in step with what was accepted and handed
    out. *)
Lemma apply_fifo o v : ∃ v' acc out, apply o v = Ret (v', acc, out) ∧
  contents (volQueue v) ++ acc = out ++ contents (volQueue v').
Proof.
  destruct o as [io| |s|a th p]; simpl.
  - unfold enqueueIO. case_decide.
    + destruct (push_loop_ok io (volQueue v)) as (q' & -> & Hc). rewrite !bind_Ret. simpl.
      eexists _, _, _. split; [done|]. by rewrite <-Hc.
    + rewrite bind_Ret. simpl. eexists _, _, _. split; [done|]. by rewrite app_nil_r.
  - unfold dequeueIO. case_decide; [|eexists _, _, _; split; [done|]; by rewrite app_nil_r].
    pose proof (lfq_pop_contents (volQueue v)) as Hp.
    destruct (contents (volQueue v)) as [|x l] eqn:Hl.
    + rewrite Hp. eexists _, _, _. split; [done|]. simpl. by rewrite Hl.
    + destruct Hp as (q' & -> & Hc). eexists _, _, _. split; [done|]. simpl.
      by rewrite app_nil_r, Hc.
  - eexists _, _, _. split; [done|]. by rewrite app_nil_r.
  - eexists _, _, _. split; [done|]. by rewrite app_nil_r.
Qed.

(** A volume queue is a first-in first-out buffer whatever the state
    changes in between: every history of calls succeeds, and the requests
    handed out followed by the ones still queued are the ones that were
    queued at first followed by the accepted ones, in order, so no accepted
    request is lost, duplicated or overtaken. *)
Theorem volume_queue_fifo (ops : list op) (v : t) :
  ∃ v' accepted handed, run ops v = Ret (v', accepted, handed) ∧
    contents (volQueue v) ++ accepted = handed ++ contents (volQueue v').
Proof.
  revert v. induction ops as [|o ops IH]; intros v; simpl.
  { eexists _, _, _. split; [done|]. by rewrite app_nil_r. }
  destruct (apply_fifo o v) as (v1 & acc & out & -> & H1). rewrite bind_Ret. simpl.
  destruct (IH v1) as (v2 & acc2 & out2 & -> & H2). rewrite bind_Ret.
  eexists _, _, _. split; [done|]. simpl. by rewrite app_assoc, H1, <-!app_assoc, H2.
Qed.

(** The request counter.  [enqueueIO] and [dequeueIO] keep [count_]
    equal to the number of queued requests, except that dequeuing from an
    empty active queue, which returns a null request, wraps the counter
    around to [2^32 - 1]. *)
Theorem volume_queue_count (v : t) io : inv v →
  Z.of_nat (length (contents (volQueue v))) < 2 ^ 32 - 1 →
  (∀ v' e, enqueueIO 1 io v = Ret (v', e) → inv v') ∧
  (contents (volQueue v) ≠ [] → inv (dequeueIO v).1) ∧
  (contents (volQueue v) = [] → volQState v = FDS_VOL_Q_ACTIVE →
    (dequeueIO v).2 = None ∧ count_ (dequeueIO v).1 = 2 ^ 32 - 1).
Proof.
  intros Hinv Hlen. unfold inv in *. split_and!.
  - intros v' e H. unfold enqueueIO in H. case_decide; [|by res_inv].
    destruct (push_loop_ok io (volQueue v)) as (q' & E & Hc). rewrite E, bind_Ret in H.
    injection H as <- <-. simpl. rewrite Hc, length_app, Hinv, u32_add_l. simpl. f_equal. lia.
  - intros Hne. unfold dequeueIO. case_decide; [|done].
    pose proof (lfq_pop_contents (volQueue v)) as Hp.
    destruct (contents (volQueue v)) as [|x l] eqn:Hl; [done|].
    destruct Hp as (q' & -> & Hc). simpl. rewrite Hc, Hinv. unfold Z.sub. rewrite u32_add_l.
    f_equal. simpl. lia.
  - intros He Hs. unfold dequeueIO. rewrite decide_True by auto.
    pose proof (lfq_pop_contents (volQueue v)) as Hp. rewrite He in Hp. rewrite Hp. simpl.
    split; [done|]. by rewrite Hinv, He.
Qed.

End Laws.
End VolumeQueue.

(** The laws hold of lists. *)
#[export] Instance list_queue : LockfreeQueue (list Z) := {
  lfq_make _ := [];
  lfq_push x q := (true, q ++ [x]);
  lfq_pop q := match q with [] => None | x :: q => Some (x, q) end;
  lfq_empty q := bool_decide (q = []);
}.

#[export] Instance list_queue_laws : LockfreeQueueLaws list_queue (λ q, q).
Proof. split; [done|intros; by eexists|intros []; [done|by eexists]|done]. Qed.

Lemma volume_queue_fifo_witness :
  ∃ v' accepted handed, run [SetState FDS_VOL_Q_ACTIVE; Enqueue 1; Enqueue 2; Dequeue; Enqueue 3;
      SetState FDS_VOL_Q_QUIESCING; Enqueue 4; Dequeue] (make 8 0 0 1) = Ret (v', accepted, handed) ∧
    accepted = handed ++ volQueue v'.
Proof.
  exact (volume_queue_fifo (λ q, q) [SetState FDS_VOL_Q_ACTIVE; Enqueue 1; Enqueue 2; Dequeue;
    Enqueue 3; SetState FDS_VOL_Q_QUIESCING; Enqueue 4; Dequeue] (make 8 0 0 1)).
Defined.

Lemma volume_queue_count_witness :
  let v : t := activate (make 8 0 0 1) in
  (dequeueIO v).2 = None ∧ count_ (dequeueIO v).1 = 2 ^ 32 - 1.
Proof.
  intros v. destruct (volume_queue_count (λ q, q) v 0 eq_refl ltac:(simpl; lia)) as (_ & _ & H).
  exact (H eq_refl eq_refl).
Defined.

End VolumeQueue.
