(* ===== verification/QosHtb.v ===== *)
(** * The hierarchical token bucket dispatcher

    Models [TBQueueState] and [QoSHTBDispatcher]
    (src/source/lib/qos_htb.h, src/source/lib/misc/qos_htb.cpp) and the part
    of their base class [FDS_QoSDispatcher] (src/source/include/fds_qos.h)
    that registers queues.  Operations run to completion under [qda_lock].
    The readings of the clock, the iteration order of the hash map of queues
    and the results of floating-point scaling are arguments. *)

From S2P Require Import Prelude.
From S2P Require Import TokenBucket.
Open Scope Z_scope.

Definition HTB_QUEUE_RATE_MIN : Z := 20.
Definition HTB_QUEUE_RATE_INFINITE_MAX : Z := 500000.
Definition DEFAULT_ASSURED_WAIT_MICROSEC : Z := 1000000.
Definition HTB_WMA_SLOT_SIZE_MICROSEC : Z := 250000.
Definition HTB_WMA_LENGTH : Z := 20.

(** The weights, in units of [10^-4]. *)
Definition kweights : list Z :=
  [10000; 9000; 8100; 7290; 6561; 5905; 5314; 4783; 4305; 3874;
   3487; 3138; 2824; 2541; 2288; 2059; 1853; 1668; 1501; 1351].

Module TBQueueState.

Inductive tbStateType :=
| TBQUEUE_STATE_QUEUE_EMPTY
| TBQUEUE_STATE_NO_TOKENS
| TBQUEUE_STATE_NO_ASSURED_TOKENS
| TBQUEUE_STATE_OK.

Record t := Make {
  queue_id : Z;
  assured_rate : Z;
  throttle_rate : Z;
  priority : Z;
  recent_iops : list Z;
  next_hist_ts : Z;
  hist_slotix : Z;
  tb_assured : TokenBucket.t;
  tb_throttle : TokenBucket.t;
  queued_io_counter : Z;
}.

Definition make (_queue_id _assured_rate _throttle_rate _priority _assured_wait_microsec
    _burst_size now : Z) : res t :=
  a ← TokenBucket.make (u64 _assured_rate) _burst_size _assured_wait_microsec now;
  th ← TokenBucket.make (u64 _throttle_rate) _burst_size 0 now;
  _ ← c_assert (bool_decide (_assured_rate ≤ _throttle_rate));
  Ret (Make _queue_id _assured_rate _throttle_rate _priority
         (replicate (Z.to_nat HTB_WMA_LENGTH) 0) (u64 (now + HTB_WMA_SLOT_SIZE_MICROSEC)) 0 a th 0).

Definition with_buckets (a th : TokenBucket.t) (q : t) : t :=
  Make (queue_id q) (assured_rate q) (throttle_rate q) (priority q) (recent_iops q)
    (next_hist_ts q) (hist_slotix q) a th (queued_io_counter q).

Definition with_history (h : list Z) (ts ix : Z) (q : t) : t :=
  Make (queue_id q) (assured_rate q) (throttle_rate q) (priority q) h ts ix
    (tb_assured q) (tb_throttle q) (queued_io_counter q).

Definition with_counter (n : Z) (q : t) : t :=
  Make (queue_id q) (assured_rate q) (throttle_rate q) (priority q) (recent_iops q)
    (next_hist_ts q) (hist_slotix q) (tb_assured q) (tb_throttle q) n.

Definition setEffectiveMinMaxRates (_assured_rate _throttle_rate _assured_wait_microsec clock : Z)
    (q : t) : res t :=
  _ ← c_assert (bool_decide (_assured_rate ≤ _throttle_rate));
  a ← TokenBucket.modifyRate_us (u64 _assured_rate) _assured_wait_microsec clock (tb_assured q);
  th ← TokenBucket.modifyRate (u64 _throttle_rate) clock (tb_throttle q);
  Ret (with_buckets a th q).

Definition getEffectiveMinRate (q : t) : Z := TokenBucket.getRate (tb_assured q).
Definition getEffectiveMaxRate (q : t) : Z := TokenBucket.getRate (tb_throttle q).

Definition handleIoEnqueue (q : t) : t * Z :=
  let n := u32 (queued_io_counter q + 1) in (with_counter n q, n).

(** The [do .. while (now > next_hist_ts)] loops over the history slots. *)
Fixpoint skip_slots (fuel : nat) (now : Z) (q : t) : res t :=
  match fuel with
  | O => Fault OutOfFuel
  | S fuel =>
      let ts := u64 (next_hist_ts q + HTB_WMA_SLOT_SIZE_MICROSEC) in
      let ix := (hist_slotix q + 1) `mod` HTB_WMA_LENGTH in
      let q := with_history (<[Z.to_nat ix := 0]> (recent_iops q)) ts ix q in
      if decide (now > ts) then skip_slots fuel now q else Ret q
  end.

(** [recent_iops[hist_slotix]++] *)
Definition count_io (q : t) : t :=
  let ix := Z.to_nat (hist_slotix q) in
  with_history (<[ix := u32 (default 0 (recent_iops q !! ix) + 1)]> (recent_iops q))
    (next_hist_ts q) (hist_slotix q) q.

Definition handleIoDispatch (fuel : nat) (now : Z) (q : t) : res (t * Z) :=
  q ← (if decide (now < next_hist_ts q) then Ret (count_io q)
       else q ← skip_slots fuel now q; Ret (count_io q));
  let n := u32 (queued_io_counter q - 1) in
  Ret (with_counter n q, n).

Definition moveToNextHistTs (fuel : nat) (nowMicrosec : Z) (q : t) : res t :=
  if decide (nowMicrosec > next_hist_ts q) then skip_slots fuel nowMicrosec q else Ret q.

(** The weighted average in units of [10^-4]: the slots from the oldest to
    the current one, with the weights from the smallest to the largest. *)
Definition getIOPerfWMA (q : t) : Z :=
  let ix0 := (hist_slotix q + 1) `mod` HTB_WMA_LENGTH in
  (foldl (λ '(wma, ix) i,
     (wma + default 0 (recent_iops q !! Z.to_nat ix) * default 0 (kweights !! Z.to_nat i),
      (ix + 1) `mod` HTB_WMA_LENGTH))
   (0, ix0) (reverse (seqZ 0 HTB_WMA_LENGTH))).1.

Definition updateTokens (fuel : nat) (nowMicrosec : Z) (q : t) : res (t * Z) :=
  q ← moveToNextHistTs fuel nowMicrosec q;
  th ← TokenBucket.updateTBState nowMicrosec (tb_throttle q);
  a ← TokenBucket.updateTBState nowMicrosec (tb_assured q);
  Ret (with_buckets a.1 th.1 q, a.2).

Definition tryToConsumeAssuredTokens (io_cost : Z) (q : t) : t * tbStateType :=
  if decide (queued_io_counter q = 0) then (q, TBQUEUE_STATE_QUEUE_EMPTY)
  else if negb (TokenBucket.hasTokens io_cost (tb_throttle q)) then (q, TBQUEUE_STATE_NO_TOKENS)
  else
    let '(a, ok) := TokenBucket.tryToConsumeTokens io_cost (tb_assured q) in
    if negb ok then (with_buckets a (tb_throttle q) q, TBQUEUE_STATE_NO_ASSURED_TOKENS)
    else (with_buckets a (TokenBucket.tryToConsumeTokens io_cost (tb_throttle q)).1 q,
          TBQUEUE_STATE_OK).

Definition consumeTokens (io_cost : Z) (q : t) : res t :=
  let '(th, bret) := TokenBucket.tryToConsumeTokens io_cost (tb_throttle q) in
  _ ← c_assert bret;
  Ret (with_buckets (tb_assured q) th q).

(** The loop over the history slots needs one round per slot that has passed. *)
Lemma skip_slots_total fuel now q : (0 < fuel)%nat →
  0 ≤ next_hist_ts q ≤ 2 ^ 63 → now ≤ 2 ^ 63 →
  now ≤ next_hist_ts q + Z.of_nat fuel * HTB_WMA_SLOT_SIZE_MICROSEC →
  ∃ q', skip_slots fuel now q = Ret q' ∧ now ≤ next_hist_ts q' ∧
    next_hist_ts q' ≤ Z.max (next_hist_ts q) now + HTB_WMA_SLOT_SIZE_MICROSEC ∧
    length (recent_iops q') = length (recent_iops q) ∧
    0 ≤ hist_slotix q' < HTB_WMA_LENGTH ∧ queued_io_counter q' = queued_io_counter q.
Proof.
  revert q. induction fuel as [|fuel IH]; intros q Hf Hr Hn Hb; [lia|].
  assert (u64 (next_hist_ts q + HTB_WMA_SLOT_SIZE_MICROSEC) =
          next_hist_ts q + HTB_WMA_SLOT_SIZE_MICROSEC) as Hu.
  { apply u64_small. unfold uint64_max, HTB_WMA_SLOT_SIZE_MICROSEC. lia. }
  cbn [skip_slots]. rewrite Hu. unfold HTB_WMA_SLOT_SIZE_MICROSEC in *.
  pose proof (Z.mod_pos_bound (hist_slotix q + 1) HTB_WMA_LENGTH) as Hm.
  case_decide as Hgt.
  - destruct fuel as [|fuel]; [lia|].
    destruct (IH (with_history (<[Z.to_nat ((hist_slotix q + 1) `mod` HTB_WMA_LENGTH):=0]> (recent_iops q))
      (next_hist_ts q + 250000) ((hist_slotix q + 1) `mod` HTB_WMA_LENGTH) q))
      as (q' & -> & H1 & H2 & H3 & H4 & H5); simpl; try lia.
    exists q'. simpl in *. rewrite length_insert in H3. split_and!; (done || lia).
  - eexists. split; [done|]. simpl. rewrite length_insert.
    unfold HTB_WMA_LENGTH in *. split_and!; (done || lia).
Qed.

Lemma skip_slots_buckets fuel now q q' : skip_slots fuel now q = Ret q' →
  tb_assured q' = tb_assured q ∧ tb_throttle q' = tb_throttle q.
Proof.
  revert q. induction fuel as [|fuel IH]; intros q; [done|]. cbn [skip_slots]. case_decide; [|by intros [= <-]].
  intros H'. by apply IH in H'.
Qed.

(** The clock reading [now] can be applied to a queue: its history window can
    be moved there and its buckets accept it. *)
Record on_time (fuel : nat) (now : Z) (q : t) : Prop := {
  ot_fuel : (0 < fuel)%nat;
  ot_window : 0 ≤ next_hist_ts q ≤ 2 ^ 63;
  ot_now : now ≤ 2 ^ 63;
  ot_rounds : now ≤ next_hist_ts q + Z.of_nat fuel * HTB_WMA_SLOT_SIZE_MICROSEC;
  ot_throttle : TokenBucket.wf (tb_throttle q) ∧ TokenBucket.in_range now (tb_throttle q);
  ot_assured : TokenBucket.wf (tb_assured q) ∧ TokenBucket.in_range now (tb_assured q);
}.

Lemma updateTokens_total fuel now q : on_time fuel now q → ∃ r, updateTokens fuel now q = Ret r.
Proof.
  intros [H1 H2 H3 H4 [H5 H6] [H7 H8]]. unfold updateTokens, moveToNextHistTs.
  assert (∃ q', (if decide (now > next_hist_ts q) then skip_slots fuel now q else Ret q) = Ret q' ∧
    tb_assured q' = tb_assured q ∧ tb_throttle q' = tb_throttle q) as (q' & -> & Ea & Et).
  { case_decide; [|by eexists]. destruct (skip_slots_total fuel now q) as (q' & E & _); [done..|].
    exists q'. split; [done|]. by eapply skip_slots_buckets. }
  rewrite bind_Ret, Et, Ea. destruct (TokenBucket.updateTBState_total now (tb_throttle q)) as [x ->]; [done..|].
  destruct (TokenBucket.updateTBState_total now (tb_assured q)) as [y ->]; [done..|]. rewrite !bind_Ret. by eexists.
Qed.

(** [handleIoDispatch] returns: given one round per slot of the history
    that the clock has moved past, it ends with the request counted in a slot
    that covers the present, one request fewer in the queue, and the window
    of twenty slots intact. *)
Theorem handleIoDispatch_total (fuel : nat) (now : Z) (q : t) :
  (0 < fuel)%nat → 0 ≤ next_hist_ts q ≤ 2 ^ 63 → now ≤ 2 ^ 63 →
  now ≤ next_hist_ts q + Z.of_nat fuel * HTB_WMA_SLOT_SIZE_MICROSEC →
  Z.of_nat (length (recent_iops q)) = HTB_WMA_LENGTH → 0 ≤ hist_slotix q < HTB_WMA_LENGTH →
  0 < queued_io_counter q < 2 ^ 32 →
  ∃ q', handleIoDispatch fuel now q = Ret (q', queued_io_counter q - 1) ∧
    queued_io_counter q' = queued_io_counter q - 1 ∧ now ≤ next_hist_ts q' ∧
    Z.of_nat (length (recent_iops q')) = HTB_WMA_LENGTH ∧ 0 ≤ hist_slotix q' < HTB_WMA_LENGTH.
Proof.
  intros Hf Hr Hn Hb Hl Hx Hc. unfold handleIoDispatch.
  assert (u32 (queued_io_counter q - 1) = queued_io_counter q - 1) as Hu.
  { apply u32_small. lia. }
  case_decide as Hlt.
  - rewrite bind_Ret. simpl. rewrite Hu. eexists. split; [done|]. simpl. rewrite length_insert.
    split_and!; (done || lia).
  - destruct (skip_slots_total fuel now q) as (q' & -> & H1 & H2 & H3 & H4 & H5); try done.
    simpl. rewrite H5, Hu. eexists. split; [done|]. simpl. rewrite length_insert, H3.
    split_and!; (done || lia).
Qed.

Lemma handleIoDispatch_total_witness :
  let q := Make 7 100 200 1 (replicate 20 0) 250000 0
             (TokenBucket.Make 100 20 0 0) (TokenBucket.Make 200 20 0 0) 3 in
  ∃ q', handleIoDispatch 5 1000000 q = Ret (q', 2).
Proof.
  destruct (handleIoDispatch_total 5 1000000 (Make 7 100 200 1 (replicate 20 0) 250000 0
             (TokenBucket.Make 100 20 0 0) (TokenBucket.Make 200 20 0 0) 3)) as (q' & H & _);
    [lia|simpl; lia|lia|simpl; unfold HTB_WMA_SLOT_SIZE_MICROSEC; lia|done|done|simpl; lia|].
  exists q'. exact H.
Defined.

End TBQueueState.

Module QoSHTBDispatcher.
Section Dispatcher.

(** Floating-point arithmetic: [assured + frac * (throttle - assured)]
    truncated, for a fraction of type [F], and
    [((10 - |x|) / 10) * assured] truncated. *)
Context {F : Type} (frac0 : F → bool) (scaled_rate : F → Z → Z → Z) (share_rate : Z → Z → Z).

(** A throttle level is its integral part and its fraction.  A registered
    queue is kept with its parameters. *)
Record t := Make {
  total_iops : Z;
  total_assured_rate : Z;
  wait_time_microsec : Z;
  default_que_burst_size : Z;
  max_burst_size : Z;
  current_throttle_level : Z * F;
  avail_pool : TokenBucket.t;
  qstate_map : gmap Z TBQueueState.t;
  last_dispatch_qid : Z;
  queue_map : gmap Z (Z * Z * Z);
}.

(** [QoSHTBDispatcher(ctrl, log, _total_iops)]; [zero] is the fraction of the
    level 11. *)
Definition make (_total_iops : Z) (zero : F) (now : Z) : res t :=
  pool ← TokenBucket.make (u64 _total_iops) 20 0 now;
  Ret (Make _total_iops 0 DEFAULT_ASSURED_WAIT_MICROSEC 20 20 (11, zero) pool ∅ 0 ∅).

Definition with_rates (total assured : Z) (pool : TokenBucket.t) (d : t) : t :=
  Make total assured (wait_time_microsec d) (default_que_burst_size d) (max_burst_size d)
    (current_throttle_level d) pool (qstate_map d) (last_dispatch_qid d) (queue_map d).

Definition with_maps (qs : gmap Z TBQueueState.t) (qm : gmap Z (Z * Z * Z)) (d : t) : t :=
  Make (total_iops d) (total_assured_rate d) (wait_time_microsec d) (default_que_burst_size d)
    (max_burst_size d) (current_throttle_level d) (avail_pool d) qs (last_dispatch_qid d) qm.

Definition modifyTotalRate (_total_iops clock : Z) (d : t) : res (t * fds_errno) :=
  if decide (_total_iops ≤ total_assured_rate d) then Ret (d, ERR_INVALID_ARG) else
  avail ← signed64 (_total_iops - total_assured_rate d);
  pool ← TokenBucket.modifyRate (u64 avail) clock (avail_pool d);
  Ret (with_rates _total_iops (total_assured_rate d) pool d, ERR_OK).

(** The defaults for rates. *)
Definition q_throttle (iops_throttle : Z) : Z :=
  if decide (iops_throttle = 0) then HTB_QUEUE_RATE_INFINITE_MAX else iops_throttle.
Definition q_assured (iops_assured : Z) : Z :=
  if decide (iops_assured < HTB_QUEUE_RATE_MIN) then HTB_QUEUE_RATE_MIN else iops_assured.

(** [FDS_QoSDispatcher]: registering with the base class. *)
Definition registerQueueWithLockHeld (queue_id : Z) (queue : Z * Z * Z) (d : t) : t * fds_errno :=
  match queue_map d !! queue_id with
  | Some _ => (d, ERR_DUPLICATE)
  | None => (with_maps (qstate_map d) (<[queue_id := queue]> (queue_map d)) d, ERR_OK)
  end.
Definition modifyQueueQosWithLockHeld (queue_id iops_assured iops_throttle prio : Z) (d : t)
    : t * fds_errno :=
  match queue_map d !! queue_id with
  | None => (d, ERR_INVALID_ARG)
  | Some _ =>
      (with_maps (qstate_map d) (<[queue_id := (iops_assured, iops_throttle, prio)]> (queue_map d)) d,
       ERR_OK)
  end.
Definition deregisterQueueWithLockHeld (queue_id : Z) (d : t) : t * fds_errno :=
  match queue_map d !! queue_id with
  | None => (d, ERR_INVALID_ARG)
  | Some _ => (with_maps (qstate_map d) (delete queue_id (queue_map d)) d, ERR_OK)
  end.

Definition registerQueue (queue_id : Z) (queue : Z * Z * Z) (now clock : Z) (d : t)
    : res (t * fds_errno) :=
  let '(iops_assured, iops_throttle, priority) := queue in
  let q_throttle_rate := q_throttle iops_throttle in
  let q_assured_rate := q_assured iops_assured in
  qstate ← TBQueueState.make queue_id q_assured_rate q_throttle_rate priority
             (wait_time_microsec d) (default_que_burst_size d) now;
  sum ← signed64 (q_assured_rate + total_assured_rate d);
  if decide (sum >= total_iops d) then Ret (d, ERR_EXCEED_MIN_IOPS)
  else
    let '(d, err) := registerQueueWithLockHeld queue_id queue d in
    if decide (err ≠ ERR_OK) then Ret (d, err) else
    assured ← signed64 (total_assured_rate d + q_assured_rate);
    let avail := i64 (TokenBucket.getRate (avail_pool d)) in
    avail ← (if decide (avail > q_assured_rate) then signed64 (avail - q_assured_rate) else Ret 0);
    pool ← TokenBucket.modifyRate (u64 avail) clock (avail_pool d);
    let d := with_rates (total_iops d) assured pool d in
    Ret (with_maps (<[queue_id := qstate]> (qstate_map d)) (queue_map d) d, err).

(** [setQueueThrottleLevel(qstate, tlevel_x, tlevel_frac)] *)
Definition setQueueThrottleLevel (level : Z * F) (clock : Z) (d : t) (q : TBQueueState.t)
    : res TBQueueState.t :=
  let '(tlevel_x, tlevel_frac) := level in
  let assured := TBQueueState.assured_rate q in
  let throttle := TBQueueState.throttle_rate q in
  let wait := wait_time_microsec d in
  if decide (tlevel_x >= 0) then
    if decide (TBQueueState.priority q > tlevel_x) then
      TBQueueState.setEffectiveMinMaxRates assured assured wait clock q
    else if decide (TBQueueState.priority q < tlevel_x) then
      TBQueueState.setEffectiveMinMaxRates assured throttle wait clock q
    else
      span ← signed64 (throttle - assured);
      TBQueueState.setEffectiveMinMaxRates assured (scaled_rate tlevel_frac assured span) wait clock q
  else
    let new_assured := share_rate tlevel_x assured in
    let new_assured := if decide (new_assured < HTB_QUEUE_RATE_MIN) then HTB_QUEUE_RATE_MIN
                       else new_assured in
    TBQueueState.setEffectiveMinMaxRates new_assured new_assured wait clock q.

(** [-10 <= level <= top], of a level given by its integral part and its
    fraction *)
Definition level_between (top : Z) (level : Z * F) : bool :=
  bool_decide (-10 < level.1 < top) || bool_decide (level.1 = -10 ∨ level.1 = top) && frac0 level.2.

(** [setThrottleLevel(throttle_level)], with the queues in the order
    [order]. *)
Definition setThrottleLevel (level : Z * F) (order : list Z) (clock : Z) (d : t) : res t :=
  _ ← c_assert (level_between 10 level);
  qs ← foldM (λ qs qid,
         match qs !! qid with
         | Some q => q ← setQueueThrottleLevel level clock d q; Ret (<[qid := q]> qs)
         | None => Ret qs
         end) (qstate_map d) order;
  let d := with_maps qs (queue_map d) d in
  Ret (Make (total_iops d) (total_assured_rate d) (wait_time_microsec d) (default_que_burst_size d)
         (max_burst_size d) level (avail_pool d) (qstate_map d) (last_dispatch_qid d) (queue_map d)).

Definition modifyQueueQosParams (queue_id iops_assured iops_throttle prio clock : Z) (d : t)
    : res (t * fds_errno) :=
  let q_throttle_rate := q_throttle iops_throttle in
  let q_assured_rate := q_assured iops_assured in
  match qstate_map d !! queue_id with
  | None => Ret (d, ERR_NOT_FOUND)
  | Some qstate =>
      let old := TBQueueState.assured_rate qstate in
      exceeds ← (if decide (q_assured_rate > old) then
                   more ← signed64 (q_assured_rate - old);
                   sum ← signed64 (more + total_assured_rate d);
                   Ret (bool_decide (sum >= total_iops d))
                 else Ret false);
      if exceeds : bool then Ret (d, ERR_EXCEED_MIN_IOPS)
      else
        let '(d, err) := modifyQueueQosWithLockHeld queue_id q_assured_rate q_throttle_rate prio d in
        if decide (err ≠ ERR_OK) then Ret (d, err) else
        _ ← fds_verify (bool_decide (total_assured_rate d >= old));
        rest ← signed64 (total_assured_rate d - old);
        assured ← signed64 (rest + q_assured_rate);
        let avail := i64 (u64 (TokenBucket.getRate (avail_pool d) + u64 old)) in
        avail ← (if decide (avail > q_assured_rate) then signed64 (avail - q_assured_rate) else Ret 0);
        pool ← TokenBucket.modifyRate (u64 avail) clock (avail_pool d);
        let d := with_rates (total_iops d) assured pool d in
        let qstate := TBQueueState.Make (TBQueueState.queue_id qstate) q_assured_rate q_throttle_rate
          prio (TBQueueState.recent_iops qstate) (TBQueueState.next_hist_ts qstate)
          (TBQueueState.hist_slotix qstate) (TBQueueState.tb_assured qstate)
          (TBQueueState.tb_throttle qstate) (TBQueueState.queued_io_counter qstate) in
        _ ← c_assert (level_between 11 (current_throttle_level d));
        qstate ← setQueueThrottleLevel (current_throttle_level d) clock d qstate;
        Ret (with_maps (<[queue_id := qstate]> (qstate_map d)) (queue_map d) d, err)
  end.

Definition deregisterQueue (queue_id clock : Z) (d : t) : res (t * fds_errno) :=
  let '(d, err) := deregisterQueueWithLockHeld queue_id d in
  match qstate_map d !! queue_id with
  | None => Ret (d, ERR_NOT_FOUND)
  | Some qstate =>
      _ ← c_assert (bool_decide (TBQueueState.assured_rate qstate ≤ total_assured_rate d));
      assured ← signed64 (total_assured_rate d - TBQueueState.assured_rate qstate);
      avail ← (if decide (total_iops d > assured) then signed64 (total_iops d - assured) else Ret 0);
      pool ← TokenBucket.modifyRate (u64 avail) clock (avail_pool d);
      let d := with_rates (total_iops d) assured pool d in
      Ret (with_maps (delete queue_id (qstate_map d)) (queue_map d) d, err)
  end.

(** [ioProcessForEnqueue] and [ioProcessForDispatch] *)
Definition with_queue (qid : Z) (q : TBQueueState.t) (d : t) : t :=
  with_maps (<[qid := q]> (qstate_map d)) (queue_map d) d.

Definition find_queue (qid : Z) (d : t) : res TBQueueState.t :=
  match qstate_map d !! qid with Some q => Ret q | None => Fault NullDeref end.

Definition ioProcessForEnqueue (queue_id : Z) (d : t) : res t :=
  q ← find_queue queue_id d;
  Ret (with_queue queue_id (TBQueueState.handleIoEnqueue q).1 d).

Definition ioProcessForDispatch (fuel : nat) (queue_id now : Z) (d : t) : res t :=
  q ← find_queue queue_id d;
  r ← TBQueueState.handleIoDispatch fuel now q;
  Ret (with_queue queue_id r.1 d).

(** ** The choice of the next queue *)
Definition with_pool (pool : TokenBucket.t) (d : t) : t :=
  with_rates (total_iops d) (total_assured_rate d) pool d.

Definition set_last (qid : Z) (d : t) : t :=
  Make (total_iops d) (total_assured_rate d) (wait_time_microsec d) (default_que_burst_size d)
    (max_burst_size d) (current_throttle_level d) (avail_pool d) (qstate_map d) qid (queue_map d).

(** The scan starts at [find(last_dispatch_qid)] and wraps around. *)
Fixpoint start_at (qid : Z) (order : list Z) : list Z :=
  match order with
  | [] => []
  | x :: rest => if decide (x = qid) then order else start_at qid rest
  end.
Definition scan_order (last : Z) (order : list Z) : list Z :=
  let tail := start_at last order in
  tail ++ take (length order - length tail) order.

(** The best queue without assured tokens so far: id, priority, average. *)
Definition better (q : TBQueueState.t) (best : option (Z * Z * Z)) : option (Z * Z * Z) :=
  let wma := TBQueueState.getIOPerfWMA q in
  let mine := Some (TBQueueState.queue_id q, TBQueueState.priority q, wma) in
  match best with
  | None => mine
  | Some (_, hiprio, min_wma) =>
      if decide (TBQueueState.priority q < hiprio) then mine
      else if decide (TBQueueState.priority q = hiprio ∧ wma < min_wma) then mine
      else best
  end.

(** One round of the [for] loop. *)
Definition scan_queue (fuel : nat) (now qid : Z) (d : t) (best : option (Z * Z * Z))
    : res (t * option (Z * Z * Z) * option Z) :=
  q ← find_queue qid d;
  r ← TBQueueState.updateTokens fuel now q;
  let '(q, expired) := r : TBQueueState.t * Z in
  let d := if decide (expired > 0) then with_pool (TokenBucket.addTokens expired (avail_pool d)) d
           else d in
  let '(q, state) := TBQueueState.tryToConsumeAssuredTokens 1 q in
  let d := with_queue qid q d in
  match state with
  | TBQueueState.TBQUEUE_STATE_OK => Ret (set_last qid d, best, Some qid)
  | TBQueueState.TBQUEUE_STATE_NO_ASSURED_TOKENS => Ret (d, better q best, None)
  | _ => Ret (d, best, None)
  end.

Fixpoint scan (fuel : nat) (todo : list (Z * Z)) (d : t) (best : option (Z * Z * Z))
    : res (t * option (Z * Z * Z) * option Z) :=
  match todo with
  | [] => Ret (d, best, None)
  | (qid, now) :: todo =>
      r ← scan_queue fuel now qid d best;
      match r with
      | (d, best, Some qid) => Ret (d, best, Some qid)
      | (d, best, None) => scan fuel todo d best
      end
  end.

(** One round of [while (1)] of [getNextQueueForDispatch]: [now0] and [nows]
    are the clock readings; [None] means that the thread sleeps and tries
    again. *)
Definition getNextQueueForDispatch (fuel : nat) (order : list Z) (now0 : Z) (nows : list Z) (d : t)
    : res (t * option Z) :=
  p ← TokenBucket.updateTBState now0 (avail_pool d);
  let d := with_pool p.1 d in
  r ← scan fuel (zip (scan_order (last_dispatch_qid d) order) nows) d None;
  match r with
  | (d, _, Some qid) => Ret (d, Some qid)
  | (d, None, None) => Ret (d, None)
  | (d, Some (qid, _, _), None) =>
      let '(pool, ok) := TokenBucket.tryToConsumeTokens 1 (avail_pool d) in
      if ok : bool then
        let d := with_pool pool d in
        q ← find_queue qid d;
        q ← TBQueueState.consumeTokens 1 q;
        Ret (set_last qid (with_queue qid q d), Some qid)
      else Ret (d, None)
  end.

(** ** The rates add up *)
(** What the policy says of a queue; scheduling does not change it. *)
Definition policy (q : TBQueueState.t) : Z * Z * Z * Z :=
  (TBQueueState.queue_id q, TBQueueState.assured_rate q, TBQueueState.throttle_rate q,
   TBQueueState.priority q).

Definition sum_rates (m : gmap Z (Z * Z * Z * Z)) : Z :=
  map_fold (λ _ p acc, p.1.1.2 + acc) 0 m.

(** The sum of the assured rates of the registered queues. *)
Definition sum_assured (d : t) : Z := sum_rates (policy <$> qstate_map d).

Lemma sum_rates_insert m qid p : m !! qid = None → sum_rates (<[qid := p]> m) = p.1.1.2 + sum_rates m.
Proof.
  intros Hm. unfold sum_rates. apply (map_fold_insert_L (λ _ p acc, p.1.1.2 + acc)); [|done].
  intros. lia.
Qed.

Lemma sum_rates_delete m qid p : m !! qid = Some p → sum_rates (delete qid m) = sum_rates m - p.1.1.2.
Proof.
  intros Hm. rewrite <-(insert_delete_id m qid p) at 2 by done.
  rewrite sum_rates_insert by apply lookup_delete_eq. lia.
Qed.

Lemma sum_rates_update m qid p p' : m !! qid = Some p →
  sum_rates (<[qid := p']> m) = sum_rates m - p.1.1.2 + p'.1.1.2.
Proof.
  intros Hm. rewrite <-insert_delete_eq, sum_rates_insert by apply lookup_delete_eq.
  rewrite (sum_rates_delete _ _ _ Hm). lia.
Qed.

Record inv (d : t) : Prop := {
  inv_total : total_assured_rate d = sum_assured d;
  inv_pool : TokenBucket.getRate (avail_pool d) = total_iops d - total_assured_rate d;
  inv_range : 0 ≤ total_assured_rate d < total_iops d;
  inv_iops : total_iops d < 2 ^ 63;
  inv_dom : dom (queue_map d) = dom (qstate_map d);
  inv_min qid q : qstate_map d !! qid = Some q →
    HTB_QUEUE_RATE_MIN ≤ TBQueueState.assured_rate q ∧ TBQueueState.queue_id q = qid;
}.

(** A step that leaves the rates and policies alone. *)
Record keeps (d d' : t) : Prop := {
  keeps_total : total_iops d' = total_iops d;
  keeps_assured : total_assured_rate d' = total_assured_rate d;
  keeps_rate : TokenBucket.getRate (avail_pool d') = TokenBucket.getRate (avail_pool d);
  keeps_queues : queue_map d' = queue_map d;
  keeps_policy : policy <$> qstate_map d' = policy <$> qstate_map d;
}.

#[export] Instance keeps_preorder : PreOrder keeps.
Proof. split; [by intros d|]. intros d1 d2 d3 [] []. split; congruence. Qed.

Lemma keeps_lookup d d' qid q : keeps d d' → qstate_map d' !! qid = Some q →
  ∃ q0, qstate_map d !! qid = Some q0 ∧ policy q = policy q0.
Proof.
  intros Hk Hq. assert ((policy <$> qstate_map d') !! qid = Some (policy q)) as Hp
    by (by rewrite lookup_fmap, Hq).
  rewrite (keeps_policy _ _ Hk), lookup_fmap in Hp.
  destruct (qstate_map d !! qid) as [q0|]; [|done]. exists q0. split; [done|].
  symmetry. by apply (inj Some).
Qed.

Lemma keeps_inv d d' : keeps d d' → inv d → inv d'.
Proof.
  intros Hk [Ht Hp Hr Hi Hd Hm]. pose proof Hk as [K1 K2 K3 K4 K5].
  split; unfold sum_assured in *; rewrite ?K1, ?K2, ?K3, ?K4, ?K5; try done.
  - rewrite Hd, <-!(dom_fmap_L policy). by rewrite K5.
  - intros qid q Hq. destruct (keeps_lookup _ _ _ _ Hk Hq) as (q0 & Hq0 & Hpol).
    destruct (Hm qid q0 Hq0) as [? ?]. unfold policy in Hpol. injection Hpol as E1 E2 E3 E4.
    rewrite E1, E2. done.
Qed.

Lemma keeps_with_queue qid q q' d : qstate_map d !! qid = Some q → policy q' = policy q →
  keeps d (with_queue qid q' d).
Proof.
  intros Hq Hp. split; try done. unfold with_queue. simpl. rewrite fmap_insert, Hp.
  apply insert_id. by rewrite lookup_fmap, Hq.
Qed.

Lemma keeps_with_pool pool d : TokenBucket.rate_ pool = TokenBucket.rate_ (avail_pool d) →
  keeps d (with_pool pool d).
Proof. intros Hr. by split. Qed.

Lemma keeps_set_last qid d : keeps d (set_last qid d).
Proof. by split. Qed.

(** ** Operations on a queue keep its policy *)
Lemma skip_slots_policy fuel now q q' : TBQueueState.skip_slots fuel now q = Ret q' →
  policy q' = policy q ∧ TBQueueState.queued_io_counter q' = TBQueueState.queued_io_counter q ∧
  TBQueueState.tb_assured q' = TBQueueState.tb_assured q ∧
  TBQueueState.tb_throttle q' = TBQueueState.tb_throttle q.
Proof.
  revert q. induction fuel as [|fuel IH]; intros q H; [done|].
  cbn [TBQueueState.skip_slots] in H. case_decide; [|by injection H as <-].
  by apply IH in H as (-> & -> & -> & ->).
Qed.

Lemma updateTokens_policy fuel now q r : TBQueueState.updateTokens fuel now q = Ret r →
  policy r.1 = policy q ∧ TBQueueState.queued_io_counter r.1 = TBQueueState.queued_io_counter q.
Proof.
  unfold TBQueueState.updateTokens. intros (q1 & E & H)%bind_Ret_inv.
  apply bind_Ret_inv in H as (th & _ & H). apply bind_Ret_inv in H as (a & _ & [= <-]). simpl.
  unfold TBQueueState.moveToNextHistTs in E. case_decide; [|by injection E as <-].
  by apply skip_slots_policy in E as (? & ? & _).
Qed.

Lemma tryToConsume_policy n q : policy (TBQueueState.tryToConsumeAssuredTokens n q).1 = policy q.
Proof.
  unfold TBQueueState.tryToConsumeAssuredTokens. case_decide; [done|].
  destruct (TokenBucket.hasTokens _ _); [|done]. simpl.
  destruct (TokenBucket.tryToConsumeTokens n (TBQueueState.tb_assured q)) as [a []]; done.
Qed.

Lemma consumeTokens_policy n q q' : TBQueueState.consumeTokens n q = Ret q' → policy q' = policy q.
Proof.
  unfold TBQueueState.consumeTokens. destruct (TokenBucket.tryToConsumeTokens n _) as [th []]; [|done]. by intros [= <-].
Qed.

Lemma setQueueThrottleLevel_policy level clock d q q' :
  setQueueThrottleLevel level clock d q = Ret q' → policy q' = policy q.
Proof.
  unfold setQueueThrottleLevel, TBQueueState.setEffectiveMinMaxRates. destruct level as [x f].
  repeat case_decide; intros Hs; repeat (apply bind_Ret_inv in Hs as (? & _ & Hs)); by injection Hs as <-.
Qed.

(** ** Every operation keeps the rates in order *)
Lemma scan_queue_keeps fuel now qid d best d' best' r :
  scan_queue fuel now qid d best = Ret (d', best', r) → keeps d d'.
Proof.
  unfold scan_queue, find_queue. destruct (qstate_map d !! qid) as [q|] eqn:Hq; [|done].
  rewrite bind_Ret. intros ([q1 e] & Hu & H)%bind_Ret_inv.
  destruct (updateTokens_policy _ _ _ _ Hu) as [Hp _]. simpl in Hp.
  pose proof (tryToConsume_policy 1 q1) as Hp2.
  destruct (TBQueueState.tryToConsumeAssuredTokens 1 q1) as [q2 st]. simpl in Hp2.
  set (d1 := if decide (e > 0) then _ else d) in H.
  assert (keeps d d1) as Hk.
  { unfold d1. case_decide; [|done]. apply keeps_with_pool, TokenBucket.addTokens_params. }
  assert (keeps d (with_queue qid q2 d1)) as Hk2.
  { transitivity d1; [done|]. apply (keeps_with_queue qid q); [|congruence].
    unfold d1. by case_decide. }
  destruct st; injection H as <- _ _; try done. by transitivity (with_queue qid q2 d1).
Qed.

Lemma scan_keeps fuel todo d best d' best' r :
  scan fuel todo d best = Ret (d', best', r) → keeps d d'.
Proof.
  revert d best. induction todo as [|[qid now] todo IH]; intros d best H; simpl in H.
  { by injection H as <- _ _. }
  apply bind_Ret_inv in H as ([[d1 b1] r1] & Hs & H). apply scan_queue_keeps in Hs.
  destruct r1; [by injection H as <- _ _|]. transitivity d1; [done|]. by eapply IH.
Qed.

Lemma getNext_keeps fuel order now0 nows d d' r :
  getNextQueueForDispatch fuel order now0 nows d = Ret (d', r) → keeps d d'.
Proof.
  unfold getNextQueueForDispatch. intros (p & Hp & H)%bind_Ret_inv.
  apply TokenBucket.updateTBState_params in Hp as [Hp _].
  apply bind_Ret_inv in H as ([[d1 b1] r1] & Hs & H).
  assert (keeps d d1) as Hk.
  { transitivity (with_pool p.1 d); [by apply keeps_with_pool|]. by eapply scan_keeps. }
  destruct b1 as [[[qid pr] w]|], r1 as [qid'|]; try (by injection H as <- _).
  pose proof (TokenBucket.tryToConsume_params 1 (avail_pool d1)) as Hr.
  destruct (TokenBucket.tryToConsumeTokens 1 (avail_pool d1)) as [pool []];
    [|by injection H as <- _].
  apply bind_Ret_inv in H as (q & Hq & H). apply bind_Ret_inv in H as (q' & Hc & [= <- _]). transitivity d1; [done|].
  transitivity (with_pool pool d1); [by apply keeps_with_pool|].
  transitivity (with_queue qid q' (with_pool pool d1)); [|apply keeps_set_last].
  apply (keeps_with_queue qid q); [|by eapply consumeTokens_policy]. unfold find_queue in Hq.
  destruct (qstate_map (with_pool pool d1) !! qid); [by injection Hq as ->|done].
Qed.

Inductive step : t → t → Prop :=
| step_total n clock d d' e : n < 2 ^ 63 → modifyTotalRate n clock d = Ret (d', e) → step d d'
| step_register qid queue now clock d d' e :
    registerQueue qid queue now clock d = Ret (d', e) → step d d'
| step_modify qid a th p clock d d' e : 
    modifyQueueQosParams qid a th p clock d = Ret (d', e) → step d d'
| step_deregister qid clock d d' e : deregisterQueue qid clock d = Ret (d', e) → step d d'
| step_level level order clock d d' : setThrottleLevel level order clock d = Ret d' → step d d'
| step_enqueue qid d d' : ioProcessForEnqueue qid d = Ret d' → step d d'
| step_dispatch fuel qid now d d' : ioProcessForDispatch fuel qid now d = Ret d' → step d d'
| step_next fuel order now0 nows d d' r :
    getNextQueueForDispatch fuel order now0 nows d = Ret (d', r) → step d d'.

Lemma find_queue_inv qid d q : find_queue qid d = Ret q → qstate_map d !! qid = Some q.
Proof. unfold find_queue. destruct (qstate_map d !! qid); [by intros [= ->]|done]. Qed.

(** The rate a pool gets from [modifyRate]. *)
Lemma modifyRate_pool n clock b b' : 0 < n < 2 ^ 63 →
  TokenBucket.modifyRate (u64 n) clock b = Ret b' → TokenBucket.getRate b' = n.
Proof.
  intros Hn H. apply TokenBucket.modifyRate_rate in H. unfold TokenBucket.getRate. rewrite H.
  rewrite u64_small by (unfold uint64_max; lia). by rewrite decide_False by lia.
Qed.

Lemma q_assured_min a : HTB_QUEUE_RATE_MIN ≤ q_assured a.
Proof. unfold q_assured. case_decide; lia. Qed.

Lemma register_inv qid queue now clock d d' e : inv d →
  registerQueue qid queue now clock d = Ret (d', e) → inv d'.
Proof.
  intros Hi H. unfold registerQueue in H. destruct queue as [[a th] p].
  apply bind_Ret_inv in H as (q & Hq & H). apply bind_Ret_inv in H as (sum & [-> _]%signed64_inv & H).
  case_decide as Hex; [by injection H as <- _|]. unfold registerQueueWithLockHeld in H. destruct (queue_map d !! qid) eqn:Hqm.
  { rewrite decide_True in H by done. by injection H as <- _. }
  rewrite decide_False in H by tauto. apply bind_Ret_inv in H as (sum & [-> _]%signed64_inv & H). simpl in H.
  pose proof Hi as [Ht Hpool Hr Hio Hd Hm]. pose proof (q_assured_min a).
  unfold HTB_QUEUE_RATE_MIN in *. rewrite Hpool, i64_small, decide_True, signed64_small, bind_Ret in H by lia.
  apply bind_Ret_inv in H as (pool & Hp & [= <- _]).
  assert (TBQueueState.assured_rate q = q_assured a ∧ TBQueueState.queue_id q = qid) as [Hqa Hqid].
  { unfold TBQueueState.make in Hq. apply bind_Ret_inv in Hq as (x & _ & Hq).
    apply bind_Ret_inv in Hq as (y & _ & Hq). by apply bind_Ret_inv in Hq as (z & _ & [= <-]). }
  apply modifyRate_pool in Hp; [|lia].
  assert (qstate_map d !! qid = None) as Hnone.
  { apply not_elem_of_dom. rewrite <-Hd. by apply not_elem_of_dom. }
  split; simpl; try done.
  - unfold sum_assured in *. simpl. rewrite fmap_insert, sum_rates_insert by (by rewrite lookup_fmap, Hnone).
    simpl. lia.
  - lia.
  - lia.
  - rewrite !dom_insert_L. by rewrite Hd.
  - intros qid' q' [[<- <-]|[Hne Hq']]%lookup_insert_Some; [unfold HTB_QUEUE_RATE_MIN; lia|].
    by apply Hm in Hq'.
Qed.

Lemma sum_rates_nonneg m : (∀ qid p, m !! qid = Some p → 0 ≤ p.1.1.2) → 0 ≤ sum_rates m.
Proof.
  induction m as [|qid p m Hn IH] using map_ind; intros Hp; [done|].
  rewrite sum_rates_insert by done.
  assert (0 ≤ p.1.1.2) by (apply (Hp qid); apply lookup_insert_eq).
  assert (0 ≤ sum_rates m); [|lia]. apply IH. intros k q Hk. apply (Hp k).
  rewrite lookup_insert_ne; [done|congruence].
Qed.

Lemma deregister_inv qid clock d d' e : inv d → deregisterQueue qid clock d = Ret (d', e) → inv d'.
Proof.
  intros Hi H. pose proof Hi as [Ht Hpool Hr Hio Hd Hm].
  unfold deregisterQueue, deregisterQueueWithLockHeld in H.
  destruct (queue_map d !! qid) as [qu|] eqn:Hqm.
  2:{ assert (qstate_map d !! qid = None) as Hnone.
      { apply not_elem_of_dom. rewrite <-Hd. by apply not_elem_of_dom. }
      rewrite Hnone in H. by injection H as <- _. }
  simpl in H. assert (is_Some (qstate_map d !! qid)) as [q Hq].
  { apply elem_of_dom. rewrite <-Hd. apply elem_of_dom. eauto. }
  rewrite Hq in H. apply bind_verify in H as [_ H]. apply bind_Ret_inv in H as (asr & [-> _]%signed64_inv & H).
  pose proof (Hm _ _ Hq) as [Hmin Hqid]. unfold HTB_QUEUE_RATE_MIN in Hmin.
  assert ((policy <$> qstate_map d) !! qid = Some (policy q)) as Hpol by (by rewrite lookup_fmap, Hq).
  pose proof (sum_rates_delete _ _ _ Hpol) as Hdel. simpl in Hdel.
  assert (0 ≤ sum_rates (delete qid (policy <$> qstate_map d))) as Hnn.
  { apply sum_rates_nonneg. intros k p [_ Hk]%lookup_delete_Some. rewrite lookup_fmap in Hk.
    destruct (qstate_map d !! k) eqn:Ek; [|done]. injection Hk as <-. simpl.
    apply Hm in Ek as [Ek _]. unfold HTB_QUEUE_RATE_MIN in Ek. lia. }
  unfold sum_assured in *. rewrite decide_True, signed64_small, bind_Ret in H by lia.
  apply bind_Ret_inv in H as (pool & Hp & [= <- _]). apply modifyRate_pool in Hp; [|lia].
  split; unfold sum_assured; simpl; try done; [|lia| |].
  - rewrite fmap_delete. lia.
  - rewrite !dom_delete_L. by rewrite Hd.
  - intros qid' q' [_ Hq']%lookup_delete_Some. by apply Hm in Hq'.
Qed.

Lemma modify_inv qid a th p clock d d' e : inv d →
  modifyQueueQosParams qid a th p clock d = Ret (d', e) → inv d'.
Proof.
  intros Hi H. pose proof Hi as [Ht Hpool Hr Hio Hd Hm]. pose proof (q_assured_min a) as Hqa.
  unfold modifyQueueQosParams in H. destruct (qstate_map d !! qid) as [q|] eqn:Hq;
    [|by injection H as <- _].
  apply bind_Ret_inv in H as (exceeds & Hex & H). destruct exceeds; [by injection H as <- _|].
  assert (q_assured a ≤ TBQueueState.assured_rate q ∨
    q_assured a - TBQueueState.assured_rate q + total_assured_rate d < total_iops d) as Hex'.
  { case_decide; [|lia]. apply bind_Ret_inv in Hex as (more & [-> _]%signed64_inv & Hex).
    apply bind_Ret_inv in Hex as (sum & [-> _]%signed64_inv & [= Hex%bool_decide_eq_false]). lia. }
  unfold modifyQueueQosWithLockHeld in H. destruct (queue_map d !! qid) as [qu|] eqn:Hqm.
  2:{ rewrite decide_True in H by done. by injection H as <- _. }
  rewrite decide_False in H by tauto. simpl in H.
  apply bind_verify in H as [Hge H]. apply bind_Ret_inv in H as (rest & [-> _]%signed64_inv & H).
  apply bind_Ret_inv in H as (asr & [-> _]%signed64_inv & H). pose proof (Hm _ _ Hq) as [Hmin Hqid].
  unfold HTB_QUEUE_RATE_MIN in *. simpl in H, Hge.
  rewrite Hpool, !u64_small, i64_small, decide_True, signed64_small, bind_Ret in H by (unfold uint64_max; rewrite ?u64_small by (unfold uint64_max; lia); lia).
  apply bind_Ret_inv in H as (pool & Hp & H). apply bind_Ret_inv in H as (? & _ & H).
  apply bind_Ret_inv in H as (q' & Hq' & [= <- _]). apply setQueueThrottleLevel_policy in Hq'.
  apply modifyRate_pool in Hp; [|lia].
  assert ((policy <$> qstate_map d) !! qid = Some (policy q)) as Hpol by (by rewrite lookup_fmap, Hq).
  split; unfold sum_assured in *; simpl; try done; [| |lia| |].
  - rewrite fmap_insert, (sum_rates_update _ _ _ _ Hpol), Hq'. simpl. lia.
  - lia.
  - rewrite dom_insert_L, (dom_insert_L (qstate_map d)), Hd. done.
  - unfold policy in Hq'. injection Hq' as E1 E2 E3 E4.
    intros qid' q2 [[<- <-]|[Hne Hq2]]%lookup_insert_Some; [|by apply Hm in Hq2].
    rewrite E1, E2. done.
Qed.

Lemma htb_step_inv d d' : step d d' → inv d → inv d'.
Proof.
  intros Hs Hi.
  destruct Hs as [n clock d d' e Hn H|qid queue now clock d d' e H|qid a th p clock d d' e H
    |qid clock d d' e H|level order clock d d' H|qid d d' H|fuel qid now d d' H
    |fuel order now0 nows d d' r H].
  - unfold modifyTotalRate in H. case_decide; [by injection H as <- _|].
    apply bind_Ret_inv in H as (avail & [-> _]%signed64_inv & H).
    apply bind_Ret_inv in H as (pool & Hp & [= <- _]). destruct Hi as [Ht Hpool Hr Hio Hd Hm].
    apply modifyRate_pool in Hp; [|lia]. split; simpl; try done; lia.
  - by eapply register_inv.
  - by eapply modify_inv.
  - by eapply deregister_inv.
  - unfold setThrottleLevel in H. apply bind_Ret_inv in H as (? & _ & H). apply bind_Ret_inv in H as (qs & Hf & [= <-]).
    assert (policy <$> qs = policy <$> qstate_map d) as Hpol.
    { revert Hf. apply (foldM_inv (λ qs, policy <$> qs = policy <$> qstate_map d)); [done|].
      intros s qid s' _ Hps Hstep. destruct (s !! qid) as [q|] eqn:Hq; [|by injection Hstep as <-].
      apply bind_Ret_inv in Hstep as (q' & Hq' & [= <-]).
      apply setQueueThrottleLevel_policy in Hq'. rewrite fmap_insert, Hq', insert_id; [done|].
      by rewrite lookup_fmap, Hq. }
    eapply keeps_inv, Hi. by split.
  - unfold ioProcessForEnqueue in H. apply bind_Ret_inv in H as (q & Hq%find_queue_inv & [= <-]).
    eapply keeps_inv, Hi. by eapply keeps_with_queue.
  - unfold ioProcessForDispatch in H. apply bind_Ret_inv in H as (q & Hq%find_queue_inv & H).
    apply bind_Ret_inv in H as (r & Hr & [= <-]). eapply keeps_inv, Hi.
    eapply keeps_with_queue; [done|]. unfold TBQueueState.handleIoDispatch in Hr.
    apply bind_Ret_inv in Hr as (q1 & Hq1 & [= <-]). case_decide; [by injection Hq1 as <-|].
    apply bind_Ret_inv in Hq1 as (q2 & Hq2 & [= <-]). by apply skip_slots_policy in Hq2 as (? & _).
  - eapply keeps_inv, Hi. by eapply getNext_keeps.
Qed.

(** C32. The dispatcher never promises more than it has.  In every state
    reachable by registering, modifying and removing queues, changing the
    total rate or the throttle level, and queueing and dispatching requests,
    [total_assured_rate] is the sum of the assured rates of the registered
    queues, it stays below [total_iops], the pool of available tokens fills
    at exactly the rest, and the base class knows the same queues.  The rates
    are 64-bit signed integers; an operation whose sum overflows, or that fails
    an [assert] (an assured rate above the throttle rate, a throttle level out
    of range), does not return and leads to no state.  The comment in
    [registerQueue] and [modifyQueueQosParams] that the sum may exceed the
    total, with an available rate of 0, is out of date: that branch is never
    taken. *)
Theorem htb_rates_conserved (total : Z) (zero : F) (now : Z) (d0 d : t) :
  0 < total < 2 ^ 63 → make total zero now = Ret d0 → rtc step d0 d →
  total_assured_rate d = sum_assured d ∧ 0 ≤ total_assured_rate d < total_iops d ∧
  TokenBucket.getRate (avail_pool d) + total_assured_rate d = total_iops d ∧
  dom (queue_map d) = dom (qstate_map d).
Proof.
  intros Ht Hm Hreach.
  assert (inv d) as [H1 H2 H3 _ H5 _]; [|split_and!; (done || lia)].
  revert d Hreach. apply (rtc_ind_r inv); [|intros; by eapply htb_step_inv].
  unfold make in Hm. apply bind_Ret_inv in Hm as (pool & Hp & [= <-]).
  unfold TokenBucket.make in Hp. case_decide; [done|]. injection Hp as <-.
  rewrite u64_small by (unfold uint64_max; lia).
  split; simpl; try done; try lia. rewrite decide_False; lia.
Qed.

(** ** What a round of the dispatcher chooses *)
(** [q1] is what queue [qid] looks like once its tokens are brought up to
    date at [now]. *)
Definition refreshed (fuel : nat) (d : t) (qid now : Z) (q1 : TBQueueState.t) : Prop :=
  ∃ q0 e, qstate_map d !! qid = Some q0 ∧ TBQueueState.updateTokens fuel now q0 = Ret (q1, e).

Definition status (q : TBQueueState.t) : TBQueueState.tbStateType :=
  (TBQueueState.tryToConsumeAssuredTokens 1 q).2.

(** A smaller priority number first, then the smaller recent average. *)
Definition preferred (a b : Z * Z) : Prop := a.1 < b.1 ∨ (a.1 = b.1 ∧ a.2 ≤ b.2).
Definition rank (q : TBQueueState.t) : Z * Z := (TBQueueState.priority q, TBQueueState.getIOPerfWMA q).

Lemma preferred_trans a b c : preferred a b → preferred b c → preferred a c.
Proof. unfold preferred. lia. Qed.

Lemma preferred_refl a : preferred a a.
Proof. unfold preferred. lia. Qed.

Lemma getIOPerfWMA_buckets a th q :
  TBQueueState.getIOPerfWMA (TBQueueState.with_buckets a th q) = TBQueueState.getIOPerfWMA q.
Proof. unfold TBQueueState.getIOPerfWMA. cbn [TBQueueState.with_buckets TBQueueState.hist_slotix TBQueueState.recent_iops]. reflexivity. Qed.

#[local] Opaque TBQueueState.getIOPerfWMA.

Lemma try_rank n q : rank (TBQueueState.tryToConsumeAssuredTokens n q).1 = rank q.
Proof.
  unfold rank, TBQueueState.tryToConsumeAssuredTokens. case_decide; [done|].
  destruct (TokenBucket.hasTokens _ _); [|done]. simpl.
  destruct (TokenBucket.tryToConsumeTokens n (TBQueueState.tb_assured q)) as [a []]; simpl;
    by rewrite getIOPerfWMA_buckets.
Qed.

Lemma better_spec q best : ∃ b, better q best = Some b ∧ preferred (b.1.2, b.2) (rank q) ∧
  (∀ b0, best = Some b0 → preferred (b.1.2, b.2) (b0.1.2, b0.2)) ∧
  (best = Some b ∨ b = (TBQueueState.queue_id q, (rank q).1, (rank q).2)).
Proof.
  unfold better, rank, preferred. destruct best as [[[i hp] w]|]; repeat case_decide;
    eexists; (split; [done|]); simpl; split_and!; try lia; try (by right); try (by left);
    intros b0 [= <-]; simpl; lia.
Qed.

(** What visiting a queue does to the state. *)
Lemma scan_queue_spec fuel now qid d best d' best' r :
  scan_queue fuel now qid d best = Ret (d', best', r) →
  ∃ q1, refreshed fuel d qid now q1 ∧
    qstate_map d' = <[qid := (TBQueueState.tryToConsumeAssuredTokens 1 q1).1]> (qstate_map d) ∧
    match status q1 with
    | TBQueueState.TBQUEUE_STATE_OK => r = Some qid ∧ last_dispatch_qid d' = qid
    | TBQueueState.TBQUEUE_STATE_NO_ASSURED_TOKENS =>
        r = None ∧ best' = better (TBQueueState.tryToConsumeAssuredTokens 1 q1).1 best
    | _ => r = None ∧ best' = best
    end.
Proof.
  unfold scan_queue. intros (q & Hq%find_queue_inv & H)%bind_Ret_inv.
  apply bind_Ret_inv in H as ([q1 e] & Hu & H). exists q1. split; [by exists q, e|].
  unfold status. destruct (TBQueueState.tryToConsumeAssuredTokens 1 q1) as [q2 st]. simpl.
  destruct st; injection H as <- <- <-; case_decide; done.
Qed.

(** The record of candidates and their best. *)
Record scanned (fuel : nat) (todo : list (Z * Z)) (d : t) (best : option (Z * Z * Z))
    (d' : t) (best' : option (Z * Z * Z)) : Prop := {
  scanned_none_ok qid now q1 : (qid, now) ∈ todo → refreshed fuel d qid now q1 →
    status q1 ≠ TBQueueState.TBQUEUE_STATE_OK;
  scanned_best qid now q1 : (qid, now) ∈ todo → refreshed fuel d qid now q1 →
    status q1 = TBQueueState.TBQUEUE_STATE_NO_ASSURED_TOKENS →
    ∃ b, best' = Some b ∧ preferred (b.1.2, b.2) (rank q1);
  scanned_mono b : best = Some b → ∃ b', best' = Some b' ∧ preferred (b'.1.2, b'.2) (b.1.2, b.2);
  scanned_src b : best' = Some b → best = Some b ∨ ∃ qid now q1,
    (qid, now) ∈ todo ∧ refreshed fuel d qid now q1 ∧
    status q1 = TBQueueState.TBQUEUE_STATE_NO_ASSURED_TOKENS ∧
    b = (TBQueueState.queue_id q1, (rank q1).1, (rank q1).2) ∧
    qstate_map d' !! qid = Some (TBQueueState.tryToConsumeAssuredTokens 1 q1).1;
  scanned_other qid : qid ∉ todo.*1 → qstate_map d' !! qid = qstate_map d !! qid;
}.

Lemma refreshed_other fuel d d' qid now q1 : qstate_map d' !! qid = qstate_map d !! qid →
  refreshed fuel d' qid now q1 ↔ refreshed fuel d qid now q1.
Proof. intros H. unfold refreshed. by rewrite H. Qed.

Lemma refreshed_det fuel d qid now q1 q2 :
  refreshed fuel d qid now q1 → refreshed fuel d qid now q2 → q1 = q2.
Proof. intros (? & ? & ? & ?) (? & ? & ? & ?). simplify_eq. congruence. Qed.

Lemma refreshed_policy fuel d qid now q1 : inv d → refreshed fuel d qid now q1 →
  TBQueueState.queue_id q1 = qid.
Proof.
  intros Hi (q0 & e & Hq & Hu). apply updateTokens_policy in Hu as [Hp _]. simpl in Hp.
  injection Hp as -> _ _ _. by apply (inv_min _ Hi) in Hq as [_ ?].
Qed.

(** A queue that cannot be served from its assured tokens is passed over. *)
Lemma scanned_cons fuel qid now todo d best d1 b1 d' best' :
  qid ∉ todo.*1 → scan_queue fuel now qid d best = Ret (d1, b1, None) →
  scanned fuel todo d1 b1 d' best' → scanned fuel ((qid, now) :: todo) d best d' best'.
Proof.
  intros Hn Hs [Hok Hb Hm Hsrc Ho].
  destruct (scan_queue_spec _ _ _ _ _ _ _ _ Hs) as (q1 & Hr & Hd1 & Hst).
  assert (∀ k, k ≠ qid → qstate_map d1 !! k = qstate_map d !! k) as Hk.
  { intros k Hk. rewrite Hd1. apply lookup_insert_ne. congruence. }
  assert (∀ k n, (k, n) ∈ todo → k ≠ qid) as Hne.
  { intros k n Hin ->. apply Hn, list_elem_of_fmap. by exists (qid, n). }
  assert (∀ k n q, (k, n) ∈ todo → refreshed fuel d k n q ↔ refreshed fuel d1 k n q) as Hre.
  { intros k n q Hin. symmetry. apply refreshed_other. eapply Hk, Hne, Hin. }
  destruct (better_spec (TBQueueState.tryToConsumeAssuredTokens 1 q1).1 best)
    as (bb & Hbb & Hbr & Hbm & Hbs). rewrite try_rank in Hbr, Hbs.
  split.
  - intros k n q [[= -> ->]|Hin]%elem_of_cons Hq; [|by eapply Hok; [|by eapply Hre]].
    pose proof (refreshed_det _ _ _ _ _ _ Hq Hr) as ->. intros E. by rewrite E in Hst; destruct Hst.
  - intros k n q [[= -> ->]|Hin]%elem_of_cons Hq Hna; [|by eapply Hb; [|by eapply Hre|]].
    pose proof (refreshed_det _ _ _ _ _ _ Hq Hr) as ->. rewrite Hna in Hst.
    destruct Hst as [_ Hb1]. rewrite Hb1 in Hm.
    destruct (Hm _ Hbb) as (b' & -> & Hp). exists b'. split; [done|]. by eapply preferred_trans.
  - intros b ->. destruct (status q1) eqn:E; destruct Hst as [? Hbe]; try done;
      [by apply Hm|by apply Hm|]. rewrite Hbe in Hm. destruct (Hm _ Hbb) as (b' & -> & Hp).
    exists b'. split; [done|]. eapply preferred_trans; [done|by apply Hbm].
  - intros b Hb'. destruct (Hsrc b Hb') as [Hb1|(k & n & q & Hin & Hq & Hna & Hbq & Hd')].
    + destruct (status q1) eqn:E; destruct Hst as [? Hbe]; try done; [left; congruence|left; congruence|].
      rewrite Hbe, Hbb in Hb1. injection Hb1 as ->. destruct Hbs as [?|Hbs]; [by left|right].
      exists qid, now, q1. split_and!; try done; [by left| |].
      * rewrite Hbs. f_equal. f_equal. pose proof (tryToConsume_policy 1 q1) as Hp.
        unfold policy in Hp. by injection Hp.
      * rewrite Ho, Hd1 by done. apply lookup_insert_eq.
    + right. exists k, n, q. split_and!; try done; [by right|].
      by eapply Hre.
  - intros k Hk'. rewrite fmap_cons in Hk'. apply not_elem_of_cons in Hk' as [Hkq Hkt].
    rewrite Ho by done. by apply Hk.
Qed.

Lemma scan_spec fuel todo d best d' best' r : NoDup todo.*1 →
  scan fuel todo d best = Ret (d', best', r) →
  match r with
  | Some qid => ∃ now q1, (qid, now) ∈ todo ∧ refreshed fuel d qid now q1 ∧
      status q1 = TBQueueState.TBQUEUE_STATE_OK ∧ last_dispatch_qid d' = qid ∧
      qstate_map d' !! qid = Some (TBQueueState.tryToConsumeAssuredTokens 1 q1).1
  | None => scanned fuel todo d best d' best'
  end.
Proof.
  revert d best. induction todo as [|[qid now] todo IH]; intros d best Hnd H.
  { injection H as <- <- <-. split; try set_solver. intros b ->. exists b.
    split; [done|apply preferred_refl]. }
  rewrite fmap_cons in Hnd. apply NoDup_cons in Hnd as [Hn Hnd]. cbn [scan] in H.
  apply bind_Ret_inv in H as ([[d1 b1] r1] & Hs & H).
  destruct r1 as [qid1|].
  - injection H as <- <- <-. destruct (scan_queue_spec _ _ _ _ _ _ _ _ Hs) as (q1 & Hr & Hd1 & Hst).
    destruct (status q1) eqn:E; destruct Hst as [Hq Hl]; try done. injection Hq as ->.
    exists now, q1. split_and!; try done; [by left|]. rewrite Hd1. apply lookup_insert_eq.
  - pose proof (IH _ _ Hnd H) as IH'. destruct r as [qid'|]; [|by eapply scanned_cons].
    destruct IH' as (n & q & Hin & Hq & Hrest). exists n, q. split; [by right|]. split; [|done].
    destruct (scan_queue_spec _ _ _ _ _ _ _ _ Hs) as (q1 & _ & Hd1 & _).
    eapply refreshed_other; [|done]. rewrite Hd1, lookup_insert_ne; [done|].
    intros ->. apply Hn, list_elem_of_fmap. by exists (qid', n).
Qed.

Lemma start_at_drop qid order : ∃ k, start_at qid order = drop k order ∧ (k ≤ length order)%nat.
Proof.
  induction order as [|x order (k & IH & Hk)]; simpl; [by exists 0%nat|].
  case_decide; [by exists 0%nat; split; [|lia]|]. exists (S k). split; [done|lia].
Qed.

Lemma scan_order_perm last order : scan_order last order ≡ₚ order.
Proof.
  unfold scan_order. destruct (start_at_drop last order) as (k & -> & Hk).
  rewrite length_drop. replace (length order - (length order - k))%nat with k by lia.
  rewrite (comm (++)). by rewrite take_drop.
Qed.

Definition tokens (b : TokenBucket.t) : Z := TokenBucket.token_count_ b.

(** What the status of a queue says of its tokens. *)
Lemma status_ok q : status q = TBQueueState.TBQUEUE_STATE_OK →
  let q' := (TBQueueState.tryToConsumeAssuredTokens 1 q).1 in
  TBQueueState.queued_io_counter q ≠ 0 ∧ 1 ≤ tokens (TBQueueState.tb_throttle q) ∧
  1 ≤ tokens (TBQueueState.tb_assured q) ∧
  tokens (TBQueueState.tb_throttle q') = tokens (TBQueueState.tb_throttle q) - 1 ∧
  tokens (TBQueueState.tb_assured q') = tokens (TBQueueState.tb_assured q) - 1.
Proof.
  unfold status, TBQueueState.tryToConsumeAssuredTokens, TokenBucket.hasTokens,
    TokenBucket.tryToConsumeTokens, tokens. case_decide; [done|].
  case_bool_decide; [|done]. simpl. case_decide; simpl; [|done]. intros _.
  rewrite decide_True by done. simpl. lia.
Qed.

Lemma status_no_assured q : status q = TBQueueState.TBQUEUE_STATE_NO_ASSURED_TOKENS →
  let q' := (TBQueueState.tryToConsumeAssuredTokens 1 q).1 in
  TBQueueState.queued_io_counter q ≠ 0 ∧ 1 ≤ tokens (TBQueueState.tb_throttle q) ∧
  tokens (TBQueueState.tb_assured q) < 1 ∧
  TBQueueState.tb_throttle q' = TBQueueState.tb_throttle q.
Proof.
  unfold status, TBQueueState.tryToConsumeAssuredTokens, TokenBucket.hasTokens,
    TokenBucket.tryToConsumeTokens, tokens. case_decide; [done|].
  case_bool_decide; [|done]. simpl. case_decide; simpl; [done|]. intros _. split_and!; (done || lia).
Qed.

Lemma consume_throttle q : 1 ≤ tokens (TBQueueState.tb_throttle q) → ∃ q', TBQueueState.consumeTokens 1 q = Ret q' ∧
  tokens (TBQueueState.tb_throttle q') = tokens (TBQueueState.tb_throttle q) - 1.
Proof.
  intros H. unfold tokens, TBQueueState.consumeTokens, TokenBucket.tryToConsumeTokens in *. rewrite decide_True by done.
  by eexists.
Qed.

(** What the dispatcher promises of a round in which the queues [todo] were
    looked at. *)
Definition served (fuel : nat) (todo : list (Z * Z)) (d d' : t) (qid : Z) : Prop :=
  ∃ now q1 q2, (qid, now) ∈ todo ∧ refreshed fuel d qid now q1 ∧ qstate_map d' !! qid = Some q2 ∧
    TBQueueState.queued_io_counter q1 ≠ 0 ∧ 1 ≤ tokens (TBQueueState.tb_throttle q1) ∧
    tokens (TBQueueState.tb_throttle q2) = tokens (TBQueueState.tb_throttle q1) - 1 ∧
    last_dispatch_qid d' = qid ∧
    ((1 ≤ tokens (TBQueueState.tb_assured q1) ∧
      tokens (TBQueueState.tb_assured q2) = tokens (TBQueueState.tb_assured q1) - 1) ∨
     (tokens (TBQueueState.tb_assured q1) < 1 ∧
      ∀ qid' now' q', (qid', now') ∈ todo → refreshed fuel d qid' now' q' →
        status q' ≠ TBQueueState.TBQUEUE_STATE_OK ∧
        (status q' = TBQueueState.TBQUEUE_STATE_NO_ASSURED_TOKENS → preferred (rank q1) (rank q')))).

Definition nothing_to_serve (fuel : nat) (todo : list (Z * Z)) (d d' : t) : Prop :=
  ∀ qid now q, (qid, now) ∈ todo → refreshed fuel d qid now q →
    status q ≠ TBQueueState.TBQUEUE_STATE_OK ∧
    (status q = TBQueueState.TBQUEUE_STATE_NO_ASSURED_TOKENS → tokens (avail_pool d') < 1).

Lemma refreshed_pool fuel pool d qid now q :
  refreshed fuel (with_pool pool d) qid now q ↔ refreshed fuel d qid now q.
Proof. by apply refreshed_other. Qed.

(** What a round that returns has done. *)
Lemma getNext_result (fuel : nat) (order : list Z) (now0 : Z) (nows : list Z) (d d' : t) (r : option Z) :
  inv d → NoDup order → length nows = length order →
  getNextQueueForDispatch fuel order now0 nows d = Ret (d', r) →
  let todo := zip (scan_order (last_dispatch_qid d) order) nows in
  match r with
  | Some qid => served fuel todo d d' qid
  | None => nothing_to_serve fuel todo d d'
  end.
Proof.
  intros Hi Hnd Hlen H todo. unfold getNextQueueForDispatch in H.
  apply bind_Ret_inv in H as (p & Hp & H). apply bind_Ret_inv in H as ([[d1 b1] r1] & Hs & H).
  assert (NoDup todo.*1) as Hnd'.
  { unfold todo. rewrite fst_zip; [by rewrite scan_order_perm|].
    by rewrite scan_order_perm, Hlen. }
  change (last_dispatch_qid (with_pool p.1 d)) with (last_dispatch_qid d) in Hs. fold todo in Hs.
  pose proof (scan_spec _ _ _ _ _ _ _ Hnd' Hs) as Hspec.
  destruct r1 as [qid|].
  { assert (d1 = d' ∧ r = Some qid) as [<- ->] by (by destruct b1 as [[[]]|]; injection H).
    destruct Hspec as (now & q1 & Hin & Hr%refreshed_pool & Hst & Hl & Hq).
    destruct (status_ok _ Hst) as (H1 & H2 & H3 & H4 & H5).
    exists now, q1, (TBQueueState.tryToConsumeAssuredTokens 1 q1).1.
    do 7 (split; [done|]). by left. }
  destruct Hspec as [Hok Hb _ Hsrc _].
  destruct b1 as [[[qid pr] w]|].
  2:{ injection H as <- <-. intros qid now q Hin Hr%(refreshed_pool _ p.1).
      split; [by eapply Hok|]. intros Hna. by destruct (Hb _ _ _ Hin Hr Hna) as (b & ? & _). }
  unfold TokenBucket.tryToConsumeTokens in H. case_decide as Htok.
  2:{ injection H as <- <-. intros qid' now q Hin Hr%(refreshed_pool _ p.1).
      split; [by eapply Hok|]. intros _. unfold tokens. lia. }
  apply bind_Ret_inv in H as (q & Hq%find_queue_inv & H). apply bind_Ret_inv in H as (q2 & Hc & [= <- <-]).
  destruct (Hsrc _ eq_refl) as [?|(k & now & q1 & Hin & Hr%refreshed_pool & Hst & Hbq & Hd1)]; [done|].
  rewrite (refreshed_policy _ _ _ _ _ Hi Hr) in Hbq. injection Hbq as -> -> ->.
  change (qstate_map d1 !! k = Some q) in Hq. rewrite Hd1 in Hq. injection Hq as <-.
  destruct (status_no_assured _ Hst) as (H1 & H2 & H3 & H4).
  destruct (consume_throttle (TBQueueState.tryToConsumeAssuredTokens 1 q1).1) as (q2' & Hc' & Ht2); [by rewrite H4|].
  rewrite Hc in Hc'. injection Hc' as <-. exists now, q1, q2.
  do 2 (split; [done|]). split; [apply lookup_insert_eq|]. do 2 (split; [done|]).
  split; [by rewrite Ht2, H4|]. split; [done|]. right. split; [done|].
  intros qid' now' q' Hin' Hr'%(refreshed_pool _ p.1). split; [by eapply Hok|]. intros Hna.
  destruct (Hb _ _ _ Hin' Hr' Hna) as (b & [= <-] & Hpref). done.
Qed.

(** A round returns when the queues are known and the clock readings are in
    the range their buckets accept. *)
Lemma scan_total fuel todo d best : NoDup todo.*1 →
  (∀ qid now, (qid, now) ∈ todo → ∃ q1, refreshed fuel d qid now q1) → ∃ r, scan fuel todo d best = Ret r.
Proof.
  revert d best. induction todo as [|[qid now] todo IH]; intros d best Hnd Hall; [by eexists|].
  rewrite fmap_cons in Hnd. apply NoDup_cons in Hnd as [Hn Hnd].
  destruct (Hall qid now) as (q1 & q0 & e & Hq & Hu); [by left|].
  assert (∃ r, scan_queue fuel now qid d best = Ret r) as [[[d1 b1] r1] Hs].
  { unfold scan_queue, find_queue. rewrite Hq, bind_Ret, Hu, bind_Ret.
    destruct (TBQueueState.tryToConsumeAssuredTokens 1 q1) as [q2 []]; eauto. }
  cbn [scan]. rewrite Hs, bind_Ret. destruct r1 as [k|]; [by eexists|]. apply IH; [done|]. intros k n Hin.
  destruct (Hall k n) as (qk & Hqk); [by right|]. exists qk. eapply refreshed_other; [|done].
  destruct (scan_queue_spec _ _ _ _ _ _ _ _ Hs) as (? & _ & -> & _). apply lookup_insert_ne.
  intros ->. apply Hn, list_elem_of_fmap. by exists (k, n).
Qed.

(** C31. A round of [getNextQueueForDispatch] over a well-formed dispatcher
    returns, as long as the clock readings are in the range the token buckets
    accept and the history windows can be moved to them.
    A queue it names has a queued request and a throttle token, and that
    token is taken; either an assured token of the queue is taken with it, or
    no queue can be served from assured tokens and no eligible queue has a
    better priority, or the same priority and a lower recent average.  When
    it names none, no queue can be served from assured tokens, and if a queue
    has work that its throttle allows then the pool is empty. *)
Theorem getNext_spec (fuel : nat) (order : list Z) (now0 : Z) (nows : list Z) (d : t) :
  inv d → NoDup order → length nows = length order →
  TokenBucket.wf (avail_pool d) → TokenBucket.in_range now0 (avail_pool d) →
  let todo := zip (scan_order (last_dispatch_qid d) order) nows in
  (∀ qid now, (qid, now) ∈ todo → ∃ q, qstate_map d !! qid = Some q ∧ TBQueueState.on_time fuel now q) →
  ∃ d' r, getNextQueueForDispatch fuel order now0 nows d = Ret (d', r) ∧
    match r with
    | Some qid => served fuel todo d d' qid
    | None => nothing_to_serve fuel todo d d'
    end.
Proof.
  intros Hi Hnd Hlen Hwf Hin todo Hall.
  assert (NoDup todo.*1) as Hnd'.
  { unfold todo. rewrite fst_zip; [by rewrite scan_order_perm|]. by rewrite scan_order_perm, Hlen. }
  assert (∃ d' r, getNextQueueForDispatch fuel order now0 nows d = Ret (d', r)) as (d' & r & E).
  2: { exists d', r. split; [done|]. by apply (getNext_result fuel order now0 nows d d' r). }
  unfold getNextQueueForDispatch. destruct (TokenBucket.updateTBState_total now0 _ Hwf Hin) as [p ->]. rewrite bind_Ret.
  cbv zeta. change (last_dispatch_qid (with_pool p.1 d)) with (last_dispatch_qid d). fold todo.
  destruct (scan_total fuel todo (with_pool p.1 d) None Hnd') as [[[d1 b1] r1] Hs].
  { intros qid now Hx. destruct (Hall qid now Hx) as (q & Hq & Ho).
    destruct (TBQueueState.updateTokens_total _ _ _ Ho) as [[q1 e] Hu]. by exists q1, q, e. }
  rewrite Hs, bind_Ret. destruct r1 as [qid|]; [by destruct b1 as [[[]]|]; eauto|].
  destruct b1 as [[[qid pr] w]|]; [|by eauto].
  destruct (TokenBucket.tryToConsumeTokens 1 (avail_pool d1)) as [pool []]; [|by eauto].
  destruct (scanned_src _ _ _ _ _ _ (scan_spec _ _ _ _ _ _ _ Hnd' Hs) _ eq_refl)
    as [?|(k & now & q1 & _ & Hr%refreshed_pool & Hst & Hbq & Hd1)]; [done|].
  rewrite (refreshed_policy _ _ _ _ _ Hi Hr) in Hbq. injection Hbq as -> _ _.
  unfold find_queue. change (qstate_map (with_pool pool d1)) with (qstate_map d1). rewrite Hd1, bind_Ret.
  destruct (status_no_assured _ Hst) as (_ & H2 & _ & H4).
  destruct (consume_throttle (TBQueueState.tryToConsumeAssuredTokens 1 q1).1) as (q2 & -> & _); [by rewrite H4|]. by eauto.
Qed.

(** The queue served last is looked at first: while it has queued
    requests and tokens of both kinds, the next round serves it again,
    whatever the other queues hold. *)
Theorem last_served_first (fuel : nat) (order : list Z) (now0 now : Z) (nows : list Z) (d : t)
    (p : TokenBucket.t * Z) (q q1 : TBQueueState.t) (e : Z) :
  last_dispatch_qid d ∈ order → qstate_map d !! last_dispatch_qid d = Some q →
  TokenBucket.updateTBState now0 (avail_pool d) = Ret p →
  TBQueueState.updateTokens fuel now q = Ret (q1, e) → status q1 = TBQueueState.TBQUEUE_STATE_OK →
  ∃ d', getNextQueueForDispatch fuel order now0 (now :: nows) d = Ret (d', Some (last_dispatch_qid d)).
Proof.
  intros Hin Hq Hp Hu Hst. set (l := last_dispatch_qid d) in *.
  assert (∃ rest, scan_order l order = l :: rest) as [rest Hrest].
  { unfold scan_order. clearbody l. induction order as [|x order IH]; [by apply elem_of_nil in Hin|].
    cbn [start_at]. case_decide as Hx; [subst; by eexists|].
    apply elem_of_cons in Hin as [?|Hin]; [done|]. destruct (start_at_drop l order) as (k & Hk & _).
    destruct (IH Hin) as [rest Hrest]. destruct (start_at l order) as [|y tl] eqn:E.
    - rewrite <-E in Hk. simpl in Hrest. exfalso. clear -Hin E.
      induction order as [|z order IH]; [by apply elem_of_nil in Hin|]. simpl in E.
      case_decide; [done|]. apply elem_of_cons in Hin as [?|?]; auto.
    - injection Hrest as -> _. by eexists. }
  unfold getNextQueueForDispatch. rewrite Hp, bind_Ret.
  change (last_dispatch_qid (with_pool p.1 d)) with l. rewrite Hrest.
  cbn [zip zip_with scan]. unfold scan_queue, find_queue.
  change (qstate_map (with_pool p.1 d)) with (qstate_map d). rewrite Hq, bind_Ret, Hu, bind_Ret.
  unfold status in Hst. destruct (TBQueueState.tryToConsumeAssuredTokens 1 q1) as [q2 st].
  simpl in Hst. subst st. rewrite bind_Ret. by eexists.
Qed.

End Dispatcher.
(** ** Concrete runs: two queues over 1000 IOPS *)
Definition demo_frac0 (_ : unit) : bool := true.
Definition demo_scaled (_ : unit) (a _ : Z) : Z := a.
Definition demo_share (x a : Z) : Z := (10 - Z.abs x) * a / 10.
Definition demo_of (r : res (t (F:=unit) * fds_errno)) : t (F:=unit) :=
  match r with Ret (d, _) => d | Fault _ => Make 0 0 0 0 0 (0, tt) (TokenBucket.Make 1 0 0 0) ∅ 0 ∅ end.
Definition demo0 : t (F:=unit) := Make 1000 0 1000000 20 20 (11, tt) (TokenBucket.Make 1000 20 0 0) ∅ 0 ∅.
Definition demo1 : t := demo_of (registerQueue 5 (100, 200, 1) 0 0 demo0).
Definition demo2 : t := demo_of (registerQueue 6 (0, 0, 2) 0 0 demo1).
Definition demo_queued : t :=
  match ioProcessForEnqueue 5 demo2 with Ret d => set_last 5 d | Fault _ => demo2 end.

Lemma demo_step1 : step demo_frac0 demo_scaled demo_share demo0 demo1.
Proof.
  apply (step_register _ _ _ 5 (100, 200, 1) 0 0 demo0 demo1 ERR_OK). vm_compute. reflexivity.
Qed.

Lemma demo_step2 : step demo_frac0 demo_scaled demo_share demo1 demo2.
Proof. apply (step_register _ _ _ 6 (0, 0, 2) 0 0 demo1 demo2 ERR_OK). vm_compute. reflexivity. Qed.

Lemma demo0_inv : inv demo0.
Proof. split; try done; vm_compute; (done || split; done). Qed.

Lemma set_last_inv qid (d : t (F:=unit)) : inv d → inv (set_last qid d).
Proof. apply keeps_inv, keeps_set_last. Qed.

Lemma demo_queued_inv : inv demo_queued.
Proof.
  assert (inv demo2) as Hi.
  { eapply htb_step_inv; [apply demo_step2|]. eapply htb_step_inv; [apply demo_step1|apply demo0_inv]. }
  unfold demo_queued. destruct (ioProcessForEnqueue 5 demo2) as [d|] eqn:E; [|done].
  apply set_last_inv. eapply (htb_step_inv demo_frac0 demo_scaled demo_share); [|done]. by eapply step_enqueue.
Qed.

Lemma htb_rates_conserved_witness :
  make 1000 tt 0 = Ret demo0 ∧ total_assured_rate demo2 = 120 ∧ sum_assured demo2 = 120 ∧
  TokenBucket.getRate (avail_pool demo2) = 880.
Proof.
  assert (total_assured_rate demo2 = 120) as E by (vm_compute; reflexivity).
  destruct (htb_rates_conserved demo_frac0 demo_scaled demo_share 1000 tt 0 demo0 demo2) as (H1 & _ & H3 & _).
  - lia.
  - vm_compute. reflexivity.
  - eapply rtc_l; [apply demo_step1|]. eapply rtc_l; [apply demo_step2|]. apply rtc_refl.
  - split; [vm_compute; reflexivity|]. split; [exact E|]. rewrite <-H1. split; [exact E|].
    vm_compute. reflexivity.
Defined.

Definition demo_round : res (t * option Z) :=
  getNextQueueForDispatch 10 [6; 5] 1000000 [1000000; 1000000] demo_queued.
Definition demo_after : t := match demo_round with Ret (d, _) => d | Fault _ => demo_queued end.

Lemma demo_on_time qid now : (qid, now) ∈ zip (scan_order (last_dispatch_qid demo_queued) [6; 5]) [1000000; 1000000] →
  ∃ q, qstate_map demo_queued !! qid = Some q ∧ TBQueueState.on_time 10 now q.
Proof.
  change (zip _ _) with [(5, 1000000); (6, 1000000)].
  intros [[= -> ->]|[[= -> ->]|[]%elem_of_nil]%elem_of_cons]%elem_of_cons; eexists; (split; [vm_compute; reflexivity|]);
    split; simpl; split_and?; vm_compute; split_and?; (done || lia || (split; discriminate)).
Qed.

Lemma getNext_spec_witness : ∃ d' r,
  getNextQueueForDispatch 10 [6; 5] 1000000 [1000000; 1000000] demo_queued = Ret (d', r) ∧
  match r with
  | Some qid => served 10 (zip (scan_order 5 [6; 5]) [1000000; 1000000]) demo_queued d' qid
  | None => nothing_to_serve 10 (zip (scan_order 5 [6; 5]) [1000000; 1000000]) demo_queued d'
  end.
Proof.
  apply (getNext_spec 10 [6; 5] 1000000 [1000000; 1000000] demo_queued).
  - exact demo_queued_inv.
  - apply (bool_decide_unpack _). vm_compute. exact I.
  - reflexivity.
  - vm_compute. split_and!; discriminate || reflexivity.
  - vm_compute. split_and!; discriminate || reflexivity.
  - exact demo_on_time.
Defined.

Definition demo_q : TBQueueState.t :=
  default (TBQueueState.Make 0 0 0 0 [] 0 0 (TokenBucket.Make 1 0 0 0) (TokenBucket.Make 1 0 0 0) 0)
    (qstate_map demo_queued !! 5).
Definition demo_q1 : TBQueueState.t * Z :=
  match TBQueueState.updateTokens 10 1000000 demo_q with Ret r => r | Fault _ => (demo_q, 0) end.
Definition demo_pool : TokenBucket.t * Z :=
  match TokenBucket.updateTBState 1000000 (avail_pool demo_queued) with
  | Ret r => r | Fault _ => (avail_pool demo_queued, 0)
  end.

Lemma last_served_first_witness :
  ∃ d', getNextQueueForDispatch 10 [6; 5] 1000000 [1000000] demo_queued = Ret (d', Some 5).
Proof.
  apply (last_served_first 10 [6; 5] 1000000 1000000 [] demo_queued demo_pool demo_q demo_q1.1 demo_q1.2).
  - apply (bool_decide_unpack _). vm_compute. exact I.
  - vm_compute. reflexivity.
  - vm_compute. reflexivity.
  - vm_compute. reflexivity.
  - vm_compute. reflexivity.
Defined.

End QoSHTBDispatcher.
