(* ===== verification/SmTokenPlacement.v ===== *)
(** * Placement of storage-manager tokens on disks

    Models [ObjectLocationTable] and [SmTokenPlacement]
    (src/source/stor-mgr/include/object-store/SmTokenPlacement.h and
    src/source/stor-mgr/smlib/object-store/SmTokenPlacement.cpp).  A
    [std::set] of disks is a [gset Z] walked in ascending order; the free space
    of a disk and the random draws of the rebalancing step are arguments. *)

From S2P Require Import Prelude.
Open Scope Z_scope.

Definition SMTOKEN_COUNT : Z := 256.
Definition SM_TIER_COUNT : Z := 2.
Definition MAX_HOST_DISKS : Z := 8.
Definition SM_INVALID_DISK_ID : Z := 65535.

Inductive DataTier := diskTier | flashTier | maxTier.

Module ObjectLocationTable.

(** [table[tier][token][index]] *)
Notation t := (list (list (list Z))).

(** All bytes are set to [0xff]. *)
Definition make : t := replicate 2 (replicate 256 (replicate 8 SM_INVALID_DISK_ID)).

Definition fds_hdd_row : nat := 0.
Definition fds_ssd_row : nat := 1.
Definition DEFAULT_DISKIDX : nat := 0.

Definition cell (row : nat) (smToken : Z) (idx : nat) (olt : t) : Z :=
  default SM_INVALID_DISK_ID (r ← olt !! row; c ← r !! Z.to_nat smToken; c !! idx).

Definition set_cell (row : nat) (smToken : Z) (idx : nat) (d : Z) (olt : t) : t :=
  alter (alter (<[idx := d]>) (Z.to_nat smToken)) row olt.

Definition setDiskId (smToken : Z) (tier : DataTier) (diskId : Z) (olt : t) : res t :=
  _ ← fds_verify (bool_decide (smToken < SMTOKEN_COUNT));
  match tier with
  | diskTier => Ret (set_cell fds_hdd_row smToken DEFAULT_DISKIDX diskId olt)
  | flashTier => Ret (set_cell fds_ssd_row smToken DEFAULT_DISKIDX diskId olt)
  | maxTier => Fault VerifyFailed
  end.

(** The loop reads the cell before it tests the index: when no cell below
    [MAX_HOST_DISKS] is free it reads past the end of the array. *)
Fixpoint find_free (n : nat) (row : nat) (smToken : Z) (idx : nat) (olt : t) : res nat :=
  match n with
  | O => Fault Undefined
  | S n => if decide (cell row smToken idx olt = SM_INVALID_DISK_ID) then Ret idx
           else find_free n row smToken (S idx) olt
  end.

(** [while (idx > 0)] *)
Fixpoint shift_row (smToken : Z) (idx : nat) (olt : t) : t :=
  match idx with
  | O => olt
  | S i => shift_row smToken i
             (set_cell fds_hdd_row smToken (S i) (cell fds_hdd_row smToken i olt) olt)
  end.

Definition addDiskId (smToken : Z) (tier : DataTier) (diskId : Z) (olt : t) : res t :=
  _ ← fds_verify (bool_decide (smToken < SMTOKEN_COUNT));
  row ← match tier with
        | diskTier => Ret fds_hdd_row | flashTier => Ret fds_ssd_row | maxTier => Fault Undefined
        end;
  idx ← find_free (Z.to_nat MAX_HOST_DISKS) row smToken DEFAULT_DISKIDX olt;
  if decide (MAX_HOST_DISKS ≤ Z.of_nat idx) then Ret olt
  else Ret (set_cell row smToken 0 diskId (shift_row smToken idx olt)).

Definition getDiskId (smToken : Z) (tier : DataTier) (olt : t) : res Z :=
  _ ← fds_verify (bool_decide (smToken < SMTOKEN_COUNT));
  match tier with
  | diskTier => Ret (cell fds_hdd_row smToken DEFAULT_DISKIDX olt)
  | flashTier => Ret (cell fds_ssd_row smToken DEFAULT_DISKIDX olt)
  | maxTier => Fault VerifyFailed
  end.

(** The same loop: it reads the cell before it tests the index. *)
Fixpoint collect_disks (n : nat) (row : nat) (smToken : Z) (idx : nat) (disks : gset Z) (olt : t) : res (gset Z) :=
  match n with
  | O => Fault Undefined
  | S n => if decide (cell row smToken idx olt = SM_INVALID_DISK_ID) then Ret disks
           else collect_disks n row smToken (S idx) ({[ cell row smToken idx olt ]} ∪ disks) olt
  end.

(** The token is not checked here. *)
Definition getDiskIds (smToken : Z) (tier : DataTier) (olt : t) : res (gset Z) :=
  let collect row := if decide (smToken < SMTOKEN_COUNT)
    then collect_disks (Z.to_nat MAX_HOST_DISKS) row smToken DEFAULT_DISKIDX ∅ olt else Fault Undefined in
  match tier with
  | diskTier => collect fds_hdd_row
  | flashTier => collect fds_ssd_row
  | maxTier => Ret ∅
  end.

Definition isDiskIdValid (diskId : Z) : bool := bool_decide (diskId ≠ SM_INVALID_DISK_ID).

(** The loops over tiers, tokens and indices. *)
Definition all_cells : list (nat * Z * nat) :=
  row ← seq 0 (Z.to_nat SM_TIER_COUNT); tok ← seqZ 0 SMTOKEN_COUNT;
  (λ idx, (row, tok, idx)) <$> seq 0 (Z.to_nat MAX_HOST_DISKS).
Definition owner_cells : list (nat * Z) :=
  row ← seq 0 (Z.to_nat SM_TIER_COUNT); (λ tok, (row, tok)) <$> seqZ 0 SMTOKEN_COUNT.

Definition getSmTokens (diskId : Z) (olt : t) : gset Z :=
  if decide (diskId = SM_INVALID_DISK_ID) then ∅
  else foldl (λ tokens '(row, tok, idx),
         if decide (cell row tok idx olt = diskId) then {[ tok ]} ∪ tokens else tokens) ∅ all_cells.

Definition getOwnedSmTokens (diskId : Z) (olt : t) : gset Z :=
  if decide (diskId = SM_INVALID_DISK_ID) then ∅
  else foldl (λ tokens '(row, tok),
         if decide (cell row tok DEFAULT_DISKIDX olt = diskId) then {[ tok ]} ∪ tokens else tokens)
         ∅ owner_cells.

Definition getNumSmTokens (diskId : Z) (olt : t) : Z :=
  if decide (diskId = SM_INVALID_DISK_ID) then 0
  else foldl (λ tokens '(row, tok, idx),
         if decide (cell row tok idx olt = diskId) then u16 (tokens + 1) else tokens) 0 all_cells.

(** The first loop of [validate]: an error, or the disks in the table. *)
Fixpoint olt_disks (diskIdSet : gset Z) (tier : DataTier) (toks : list Z) (oltDisks : gset Z) (olt : t)
    : res (gset Z + fds_errno) :=
  match toks with
  | [] => Ret (inl oltDisks)
  | tokId :: toks =>
      diskId ← getDiskId tokId tier olt;
      if negb (isDiskIdValid diskId) then olt_disks diskIdSet tier toks oltDisks olt
      else if decide (diskId ∉ diskIdSet) then Ret (inr ERR_SM_OLT_DISKS_INCONSISTENT)
      else olt_disks diskIdSet tier toks ({[ diskId ]} ∪ oltDisks) olt
  end.

Definition validate (diskIdSet : gset Z) (tier : DataTier) (olt : t) : res fds_errno :=
  r ← olt_disks diskIdSet tier (seqZ 0 SMTOKEN_COUNT) ∅ olt;
  match r with
  | inr err => Ret err
  | inl oltDisks =>
      if forallb (λ d, bool_decide (d ∈ oltDisks)) (set_iter diskIdSet) then Ret ERR_OK
      else Ret ERR_SM_OLT_DISKS_INCONSISTENT
  end.

Definition eqb (olt rhs : t) : bool := bool_decide (olt = rhs).

Definition getDiskSet (tier : DataTier) (olt : t) : res (gset Z) :=
  row ← match tier with
        | diskTier => Ret fds_hdd_row | flashTier => Ret fds_ssd_row | maxTier => Fault VerifyFailed
        end;
  Ret (foldl (λ s '(tok, idx),
         if decide (SM_INVALID_DISK_ID ≠ cell row tok idx olt) then {[ cell row tok idx olt ]} ∪ s
         else s) ∅
       (tok ← seqZ 0 SMTOKEN_COUNT; (λ idx, (tok, idx)) <$> seq 0 (Z.to_nat MAX_HOST_DISKS))).

(** ** Cells *)
Definition wf (olt : t) : Prop :=
  length olt = 2%nat ∧ Forall (λ r : list (list Z),
    length r = 256%nat ∧ Forall (λ c : list Z, length c = 8%nat) r) olt.

Lemma make_wf : wf make.
Proof.
  split; [done|]. apply Forall_replicate. split; [done|]. apply Forall_replicate. done.
Qed.

Lemma set_cell_wf row tok idx d olt : wf olt → wf (set_cell row tok idx d olt).
Proof.
  intros [Hl Hf]. split; [by unfold set_cell; rewrite length_alter|].
  apply Forall_alter; [done|]. intros r _ [Hr Hc]. rewrite length_alter. split; [done|].
  apply Forall_alter; [done|]. intros c _ Hlen. by rewrite length_insert.
Qed.

Lemma table_wf_lookup olt row tok idx : wf olt → (row < 2)%nat → 0 ≤ tok < SMTOKEN_COUNT → (idx < 8)%nat →
  ∃ r c d, olt !! row = Some r ∧ r !! Z.to_nat tok = Some c ∧ c !! idx = Some d.
Proof.
  unfold SMTOKEN_COUNT. intros [Hl Hf] Hr Ht Hi.
  destruct (lookup_lt_is_Some_2 olt row) as [r Hor]; [lia|].
  destruct (Forall_lookup_1 _ _ _ _ Hf Hor) as [Hlr Hfr].
  destruct (lookup_lt_is_Some_2 r (Z.to_nat tok)) as [c Hrc]; [lia|].
  pose proof (Forall_lookup_1 _ _ _ _ Hfr Hrc) as Hlc. simpl in Hlc.
  destruct (lookup_lt_is_Some_2 c idx) as [d Hcd]; [lia|]. by exists r, c, d.
Qed.

Lemma cell_set row tok idx d olt row' tok' idx' :
  wf olt → (row < 2)%nat → 0 ≤ tok < SMTOKEN_COUNT → (idx < 8)%nat → 0 ≤ tok' →
  cell row' tok' idx' (set_cell row tok idx d olt) =
  if decide (row' = row ∧ tok' = tok ∧ idx' = idx) then d else cell row' tok' idx' olt.
Proof.
  intros Hwf Hr Ht Hi Ht'. destruct (table_wf_lookup _ _ _ _ Hwf Hr Ht Hi) as (r & c & d0 & H1 & H2 & H3).
  unfold cell, set_cell. destruct (decide (row' = row)) as [->|Hne].
  2:{ rewrite list_lookup_alter_ne by done. rewrite decide_False by tauto. done. }
  rewrite list_lookup_alter_eq, H1. simpl. destruct (decide (tok' = tok)) as [->|Hnt].
  2:{ rewrite list_lookup_alter_ne by lia. rewrite decide_False by tauto. done. }
  rewrite list_lookup_alter_eq, H2. simpl. destruct (decide (idx' = idx)) as [->|Hni].
  2:{ rewrite list_lookup_insert_ne by done. rewrite decide_False by tauto. done. }
  rewrite list_lookup_insert_eq by (by eapply lookup_lt_Some). by rewrite decide_True.
Qed.

Definition row_of (tier : DataTier) : nat :=
  match tier with diskTier => fds_hdd_row | flashTier => fds_ssd_row | maxTier => 2 end.

(** The owner of a token in a tier. *)
Definition owner (tier : DataTier) (tok : Z) (olt : t) : Z := cell (row_of tier) tok DEFAULT_DISKIDX olt.

Lemma getDiskId_owner tier tok olt : tier ≠ maxTier → tok < SMTOKEN_COUNT →
  getDiskId tok tier olt = Ret (owner tier tok olt).
Proof. intros Hm Ht. unfold getDiskId. rewrite fds_verify_true by done. by destruct tier. Qed.

Lemma setDiskId_spec tok tier d olt : wf olt → tier ≠ maxTier → 0 ≤ tok < SMTOKEN_COUNT →
  ∃ olt', setDiskId tok tier d olt = Ret olt' ∧ wf olt' ∧
    ∀ row tok' idx, 0 ≤ tok' → cell row tok' idx olt' =
      if decide (row = row_of tier ∧ tok' = tok ∧ idx = DEFAULT_DISKIDX) then d
      else cell row tok' idx olt.
Proof.
  intros Hwf Hm Ht. unfold setDiskId. rewrite fds_verify_true by lia.
  exists (set_cell (row_of tier) tok DEFAULT_DISKIDX d olt).
  split; [by destruct tier|]. split; [by apply set_cell_wf|]. intros row tok' idx Ht'.
  apply cell_set; try done; [destruct tier; unfold row_of, fds_hdd_row, fds_ssd_row; (lia || done)|].
  unfold DEFAULT_DISKIDX. lia.
Qed.

Lemma elem_of_owned d tok olt : d ≠ SM_INVALID_DISK_ID →
  tok ∈ getOwnedSmTokens d olt ↔
  0 ≤ tok < SMTOKEN_COUNT ∧ (owner diskTier tok olt = d ∨ owner flashTier tok olt = d).
Proof.
  intros Hd. unfold getOwnedSmTokens. rewrite decide_False by done.
  assert (∀ l acc, tok ∈ foldl (λ tokens '(row, tok),
     if decide (cell row tok DEFAULT_DISKIDX olt = d) then {[ tok ]} ∪ tokens else tokens) acc l ↔
     tok ∈ (acc : gset Z) ∨ ∃ row, (row, tok) ∈ l ∧ cell row tok DEFAULT_DISKIDX olt = d) as Hgen.
  { induction l as [|[row tk] l IH]; intros acc; [set_solver|]. simpl. rewrite IH.
    case_decide; set_solver. }
  rewrite Hgen. unfold owner_cells, owner, row_of, fds_hdd_row, fds_ssd_row. split.
  - intros [H|(row & Hin & H)]; [set_solver|].
    apply list_elem_of_bind in Hin as (r & Hin & Hr).
    apply list_elem_of_fmap in Hin as (tk & [= -> ->] & Htk).
    apply elem_of_seqZ in Htk. apply elem_of_seq in Hr. unfold SM_TIER_COUNT in Hr.
    split; [lia|]. assert (r = 0%nat ∨ r = 1%nat) as [-> | ->] by lia; tauto.
  - intros [Ht Ho]. right. 
    assert (∀ r, (r < 2)%nat → (r, tok) ∈ owner_cells) as Hin.
    { intros r Hr. unfold owner_cells. apply list_elem_of_bind. exists r. split.
      - apply list_elem_of_fmap. exists tok. split; [done|]. apply elem_of_seqZ. lia.
      - apply elem_of_seq. unfold SM_TIER_COUNT. lia. }
    destruct Ho; eexists; (split; [|done]); apply Hin; lia.
Qed.

(** ** Adding a disk to a token *)
(** The first free index from [idx], or [idx + n]. *)
Fixpoint first_free (n : nat) (row : nat) (tok : Z) (idx : nat) (olt : t) : nat :=
  match n with
  | O => idx
  | S n => if decide (cell row tok idx olt = SM_INVALID_DISK_ID) then idx else first_free n row tok (S idx) olt
  end.

Lemma first_free_spec n row tok idx olt : let i := first_free n row tok idx olt in
  (idx ≤ i ≤ idx + n)%nat ∧
  (∀ j, (idx ≤ j < i)%nat → cell row tok j olt ≠ SM_INVALID_DISK_ID) ∧
  ((i < idx + n)%nat → cell row tok i olt = SM_INVALID_DISK_ID).
Proof.
  revert idx. induction n as [|n IH]; intros idx; simpl; [split_and!; intros; lia|].
  case_decide as Hc; [split_and!; intros; (lia || done)|].
  destruct (IH (S idx)) as (H1 & H2 & H3). split_and!; [lia|lia| |intros; apply H3; lia].
  intros j Hj. destruct (decide (j = idx)) as [->|]; [done|]. apply H2. lia.
Qed.

Lemma find_free_first n row tok idx olt : find_free n row tok idx olt =
  if decide (first_free n row tok idx olt < idx + n)%nat then Ret (first_free n row tok idx olt) else Fault Undefined.
Proof.
  revert idx. induction n as [|n IH]; intros idx; simpl; [by rewrite decide_False by lia|].
  case_decide; [by rewrite decide_True by lia|]. rewrite IH. by replace (S idx + n)%nat with (idx + S n)%nat by lia.
Qed.

(** Every cell of a token of a tier holds a disk. *)
Definition full_token (tier : DataTier) (tok : Z) (olt : t) : Prop :=
  ∀ k, (k < 8)%nat → cell (row_of tier) tok k olt ≠ SM_INVALID_DISK_ID.

(** The disks before the first free cell. *)
Fixpoint valid_prefix (n : nat) (row : nat) (smToken : Z) (idx : nat) (olt : t) : gset Z :=
  match n with
  | O => ∅
  | S n => if decide (cell row smToken idx olt = SM_INVALID_DISK_ID) then ∅
           else {[ cell row smToken idx olt ]} ∪ valid_prefix n row smToken (S idx) olt
  end.

Lemma elem_of_valid_prefix n row tok idx olt x : x ∈ valid_prefix n row tok idx olt ↔
  ∃ k, (idx ≤ k < idx + n)%nat ∧ cell row tok k olt = x ∧
    ∀ j, (idx ≤ j ≤ k)%nat → cell row tok j olt ≠ SM_INVALID_DISK_ID.
Proof.
  revert idx. induction n as [|n IH]; intros idx; simpl.
  { split; [set_solver|]. intros (k & ? & _). lia. }
  case_decide as Hc.
  { split; [set_solver|]. intros (k & Hk & _ & Hj). by destruct (Hj idx); [lia|]. }
  rewrite elem_of_union, elem_of_singleton, IH. split.
  - intros [->|(k & Hk & Hx & Hj)].
    + exists idx. split_and!; [lia|lia|done|]. intros j ?. by replace j with idx by lia.
    + exists k. split_and!; [lia|lia|done|]. intros j ?.
      destruct (decide (j = idx)) as [->|]; [done|]. apply Hj. lia.
  - intros (k & Hk & Hx & Hj). destruct (decide (k = idx)) as [->|]; [by left|right].
    exists k. split_and!; [lia|lia|done|]. intros j ?. apply Hj. lia.
Qed.

Lemma collect_disks_spec n row tok idx acc olt : collect_disks n row tok idx acc olt =
  if decide (first_free n row tok idx olt < idx + n)%nat then Ret (valid_prefix n row tok idx olt ∪ acc) else Fault Undefined.
Proof.
  revert idx acc. induction n as [|n IH]; intros idx acc; simpl; [by rewrite decide_False by lia|].
  case_decide; [rewrite decide_True by lia; f_equal; set_solver|]. rewrite IH.
  replace (S idx + n)%nat with (idx + S n)%nat by lia. case_decide; [f_equal; set_solver|done].
Qed.

Lemma first_free_unique n row tok idx olt i : (idx ≤ i < idx + n)%nat →
  (∀ j, (idx ≤ j < i)%nat → cell row tok j olt ≠ SM_INVALID_DISK_ID) → cell row tok i olt = SM_INVALID_DISK_ID →
  first_free n row tok idx olt = i.
Proof.
  intros Hi Hb He. destruct (first_free_spec n row tok idx olt) as (H1 & H2 & H3).
  destruct (decide (first_free n row tok idx olt < i)%nat) as [Hl|]; [by destruct (Hb _ (conj (proj1 H1) Hl)); apply H3; lia|].
  destruct (decide (first_free n row tok idx olt = i)); [done|]. by destruct (H2 i); [lia|].
Qed.

Lemma shift_row_spec tok idx olt : wf olt → 0 ≤ tok < SMTOKEN_COUNT → (idx < 8)%nat →
  wf (shift_row tok idx olt) ∧ ∀ row tok' k, 0 ≤ tok' →
    cell row tok' k (shift_row tok idx olt) =
    if decide (row = fds_hdd_row ∧ tok' = tok ∧ (1 ≤ k ≤ idx)%nat)
    then cell fds_hdd_row tok (k - 1) olt else cell row tok' k olt.
Proof.
  intros Hwf Ht. revert olt Hwf. induction idx as [|i IH]; intros olt Hwf Hi.
  { split; [done|]. intros row tok' k _. by rewrite decide_False by lia. }
  cbn [shift_row]. set (olt1 := set_cell _ _ _ _ olt).
  destruct (IH olt1) as [Hwf' Hc]; [by apply set_cell_wf|lia|]. split; [done|].
  intros row tok' k Htk. rewrite Hc by done. unfold olt1, fds_hdd_row in *.
  rewrite !cell_set by (done || lia).
  destruct (decide (row = 0 ∧ tok' = tok ∧ 1 ≤ k ≤ S i)%nat) as [(-> & -> & Hk)|Hn].
  - destruct (decide (k = S i)) as [->|Hne].
    + rewrite decide_False by lia. rewrite decide_True by done. f_equal. lia.
    + rewrite decide_True by lia. by rewrite decide_False by lia.
  - rewrite decide_False by lia. by rewrite decide_False by lia.
Qed.

(** The disks of a token come first in its cells. *)
Definition packed (row : nat) (tok : Z) (olt : t) : Prop :=
  ∀ j k, (j ≤ k < 8)%nat → cell row tok j olt = SM_INVALID_DISK_ID →
    cell row tok k olt = SM_INVALID_DISK_ID.

Definition free_index (tier : DataTier) (tok : Z) (olt : t) : nat :=
  first_free (Z.to_nat MAX_HOST_DISKS) (row_of tier) tok DEFAULT_DISKIDX olt.

(** The disks of a token, up to the first free cell. *)
Definition disks_of (tier : DataTier) (tok : Z) (olt : t) : gset Z := valid_prefix 8 (row_of tier) tok 0 olt.

Lemma getDiskIds_spec tok tier olt : tier ≠ maxTier → 0 ≤ tok < SMTOKEN_COUNT → getDiskIds tok tier olt =
  if decide (free_index tier tok olt < 8)%nat then Ret (disks_of tier tok olt) else Fault Undefined.
Proof.
  intros Hm Ht. assert (getDiskIds tok tier olt = collect_disks 8 (row_of tier) tok 0 ∅ olt) as ->.
  { unfold getDiskIds. destruct tier; [by rewrite decide_True by lia..|done]. }
  rewrite collect_disks_spec. unfold disks_of. by rewrite (right_id_L ∅ (∪)).
Qed.

Lemma free_index_full tier tok olt : (8 ≤ free_index tier tok olt)%nat → full_token tier tok olt.
Proof.
  intros H k Hk. destruct (first_free_spec 8 (row_of tier) tok 0 olt) as (_ & H2 & _). apply H2.
  change (first_free 8 _ _ _ _) with (free_index tier tok olt). lia.
Qed.

Lemma addDiskId_full tok tier d olt : tier ≠ maxTier → 0 ≤ tok < SMTOKEN_COUNT → (8 ≤ free_index tier tok olt)%nat →
  addDiskId tok tier d olt = Fault Undefined.
Proof.
  intros Hm Ht Hi. unfold addDiskId. rewrite fds_verify_true, bind_Ret by lia.
  replace (match tier with diskTier => _ | flashTier => _ | maxTier => _ end)
    with (Ret (row_of tier)) by (by destruct tier). rewrite bind_Ret, find_free_first.
  fold (free_index tier tok olt). by rewrite decide_False by (unfold DEFAULT_DISKIDX, MAX_HOST_DISKS; lia).
Qed.

(** The cells after [addDiskId], in either tier. *)
Lemma addDiskId_cells tok tier d olt : wf olt → tier ≠ maxTier → 0 ≤ tok < SMTOKEN_COUNT →
  (free_index tier tok olt < 8)%nat →
  ∃ olt', addDiskId tok tier d olt = Ret olt' ∧ wf olt' ∧ ∀ row tok' k, 0 ≤ tok' →
    cell row tok' k olt' =
    if decide (row = row_of tier ∧ tok' = tok ∧ k = 0%nat) then d
    else if decide (row = fds_hdd_row ∧ tok' = tok ∧ (1 ≤ k ≤ free_index tier tok olt)%nat)
    then cell fds_hdd_row tok (k - 1) olt else cell row tok' k olt.
Proof.
  intros Hwf Hm Ht Hi. unfold addDiskId. rewrite fds_verify_true, bind_Ret by lia.
  replace (match tier with diskTier => _ | flashTier => _ | maxTier => _ end)
    with (Ret (row_of tier)) by (by destruct tier). rewrite bind_Ret, find_free_first.
  fold (free_index tier tok olt). rewrite decide_True by (unfold DEFAULT_DISKIDX, MAX_HOST_DISKS; lia).
  rewrite bind_Ret, decide_False by (unfold MAX_HOST_DISKS; lia).
  destruct (shift_row_spec tok (free_index tier tok olt) olt) as [Hwf' Hc]; [done|done|lia|].
  eexists. split; [done|]. split; [by apply set_cell_wf|].
  intros row tok' k Hk. rewrite cell_set; try done; try lia;
    [|by destruct tier; [unfold row_of, fds_hdd_row; lia|unfold row_of, fds_ssd_row; lia|]].
  case_decide; [done|]. by apply Hc.
Qed.

(** On the disk tier, [addDiskId] makes the new disk the owner of the
    token and keeps the disks it had, as long as fewer than
    [MAX_HOST_DISKS] hold it; other tokens and the flash tier are left alone.
    For a token with no free cell the loop reads past the end of the array. *)
Theorem addDiskId_disk (tok d : Z) (olt : t) :
  wf olt → 0 ≤ tok < SMTOKEN_COUNT → packed fds_hdd_row tok olt → d ≠ SM_INVALID_DISK_ID →
  if decide (free_index diskTier tok olt < 8)%nat then
    ∃ olt', addDiskId tok diskTier d olt = Ret olt' ∧ wf olt' ∧ packed fds_hdd_row tok olt' ∧
      owner diskTier tok olt' = d ∧
      getDiskIds tok diskTier olt = Ret (disks_of diskTier tok olt) ∧
      disks_of diskTier tok olt' = {[ d ]} ∪ disks_of diskTier tok olt ∧
      getDiskIds tok diskTier olt' = (if decide (S (free_index diskTier tok olt) < 8)%nat
        then Ret (disks_of diskTier tok olt') else Fault Undefined) ∧
      (∀ row tok' k, 0 ≤ tok' → row ≠ fds_hdd_row ∨ tok' ≠ tok → cell row tok' k olt' = cell row tok' k olt)
  else full_token diskTier tok olt ∧ addDiskId tok diskTier d olt = Fault Undefined.
Proof.
  intros Hwf Ht Hp Hd. case_decide as Hi.
  2:{ split; [by apply free_index_full; lia|by apply addDiskId_full; [|done|lia]]. }
  destruct (addDiskId_cells tok diskTier d olt) as (olt' & -> & Hwf' & Hc); try done.
  exists olt'. split; [done|]. split; [done|].
  destruct (first_free_spec 8 fds_hdd_row tok 0 olt) as (Hi1 & Hi2 & Hi3).
  change (first_free 8 fds_hdd_row tok 0 olt) with (free_index diskTier tok olt) in *.
  set (i := free_index diskTier tok olt) in *.
  assert (∀ k, cell fds_hdd_row tok k olt' = if decide (k = 0%nat) then d else
    if decide (k ≤ i)%nat then cell fds_hdd_row tok (k - 1) olt else cell fds_hdd_row tok k olt) as Hk.
  { intros k. rewrite Hc by lia. destruct (decide (k = 0%nat)) as [->|];
      [by rewrite decide_True by done|]. rewrite decide_False by tauto.
    destruct (decide (k ≤ i)%nat); [rewrite decide_True by (split_and!; (done || lia))|
      rewrite decide_False by lia]; done. }
  assert (∀ k, (i ≤ k < 8)%nat → cell fds_hdd_row tok k olt = SM_INVALID_DISK_ID) as Hinv.
  { intros k Hki. apply (Hp i); [lia|]. apply Hi3. lia. }
  split_and!.
  - intros j k Hjk. rewrite !Hk. destruct (decide (j = 0%nat)); [done|]. intros Hj.
    rewrite (decide_False (P:=k = 0%nat)) by lia.
    destruct (decide (k ≤ i)%nat) as [Hki|]; [|apply Hinv; lia].
    rewrite decide_True in Hj by lia. destruct (Hi2 (j - 1)%nat); [lia|done].
  - unfold owner. change (row_of diskTier) with fds_hdd_row. unfold DEFAULT_DISKIDX. by rewrite Hk.
  - rewrite getDiskIds_spec by done. by rewrite decide_True by done.
  - apply set_eq. intros x. unfold disks_of.
    rewrite elem_of_union, elem_of_singleton, !elem_of_valid_prefix. unfold DEFAULT_DISKIDX. split.
    + intros (k & Hk8 & Hx & Hj). rewrite Hk in Hx.
      destruct (decide (k = 0%nat)); [by left|right].
      destruct (decide (k ≤ i)%nat); [|by destruct (Hj k); [lia|]; rewrite Hk, decide_False, decide_False, Hinv by lia].
      exists (k - 1)%nat. split_and!; [lia|lia|done|]. intros j Hjk. apply Hi2. lia.
    + intros [->|(k & Hk8 & Hx & Hj)].
      * exists 0%nat. split_and!; [lia|lia|by rewrite Hk|]. intros j ?. replace j with 0%nat by lia.
        by rewrite Hk.
      * assert (k < i)%nat as Hki.
        { destruct (decide (k < i)%nat); [done|]. destruct (Hj k); [lia|]. apply Hinv. lia. }
        exists (S k). split_and!; [lia|lia| |].
        -- rewrite Hk, decide_False, decide_True by lia. by replace (S k - 1)%nat with k by lia.
        -- intros j Hjk. rewrite Hk. case_decide; [done|]. rewrite decide_True by lia. apply Hi2. lia.
  - rewrite getDiskIds_spec by done. destruct (decide (S i < 8)%nat) as [Hs|Hs].
    + rewrite decide_True; [done|]. enough (free_index diskTier tok olt' = S i) by lia. apply first_free_unique.
      * change (Z.to_nat MAX_HOST_DISKS) with 8%nat. unfold DEFAULT_DISKIDX. lia.
      * intros j Hj. change (row_of diskTier) with fds_hdd_row. rewrite Hk. case_decide; [done|].
        rewrite decide_True by lia. apply Hi2. lia.
      * change (row_of diskTier) with fds_hdd_row. rewrite Hk, !decide_False by lia. apply Hinv. lia.
    + rewrite decide_False; [done|]. intros Hlt. destruct (first_free_spec 8 fds_hdd_row tok 0 olt') as (_ & _ & H3).
      change (first_free 8 fds_hdd_row tok 0 olt') with (free_index diskTier tok olt') in H3.
      specialize (H3 Hlt). rewrite Hk in H3. case_decide; [done|]. rewrite decide_True in H3 by lia.
      by destruct (Hi2 (free_index diskTier tok olt' - 1)%nat); [lia|].
  - intros row tok' k Htk Hne. rewrite Hc by done. rewrite !decide_False; [done| |]; simpl; tauto.
Qed.

(** On the flash tier [addDiskId] moves the cells of the disk tier
    instead: the flash owner is overwritten and lost, and the disk-tier owner
    appears twice. *)
Theorem addDiskId_flash_drops_owner (tok d : Z) (olt : t) :
  wf olt → 0 ≤ tok < SMTOKEN_COUNT →
  (1 ≤ free_index flashTier tok olt < 8)%nat →
  ∃ olt', addDiskId tok flashTier d olt = Ret olt' ∧
    (∀ k, cell fds_ssd_row tok k olt' = if decide (k = 0%nat) then d else cell fds_ssd_row tok k olt) ∧
    cell fds_hdd_row tok 1 olt' = owner diskTier tok olt ∧
    owner diskTier tok olt' = owner diskTier tok olt.
Proof.
  intros Hwf Ht Hi. destruct (addDiskId_cells tok flashTier d olt) as (olt' & -> & _ & Hc); try done; [lia|].
  exists olt'. split; [done|].
  unfold owner, DEFAULT_DISKIDX, row_of, fds_hdd_row, fds_ssd_row in *. split_and!.
  - intros k. rewrite Hc by lia. destruct (decide (k = 0%nat)) as [->|].
    + by rewrite decide_True by done.
    + rewrite !decide_False; [done|lia|tauto].
  - rewrite Hc by lia. rewrite decide_False by lia. by rewrite decide_True by lia.
  - rewrite Hc by lia. by rewrite !decide_False by lia.
Qed.

(** ** Validation *)
(** A disk of a tier of the table. *)
Definition in_tier (tier : DataTier) (olt : t) (d : Z) : Prop :=
  d ≠ SM_INVALID_DISK_ID ∧ ∃ tok, 0 ≤ tok < SMTOKEN_COUNT ∧ owner tier tok olt = d.

Lemma olt_disks_spec S tier toks acc olt : tier ≠ maxTier → (∀ tok, tok ∈ toks → tok < SMTOKEN_COUNT) →
  ∃ r, olt_disks S tier toks acc olt = Ret r ∧
    match r with
    | inr e => e = ERR_SM_OLT_DISKS_INCONSISTENT ∧
        ∃ tok, tok ∈ toks ∧ owner tier tok olt ≠ SM_INVALID_DISK_ID ∧ owner tier tok olt ∉ S
    | inl disks =>
        (∀ tok, tok ∈ toks → owner tier tok olt = SM_INVALID_DISK_ID ∨ owner tier tok olt ∈ S) ∧
        ∀ d, d ∈ disks ↔ d ∈ acc ∨ (d ≠ SM_INVALID_DISK_ID ∧ ∃ tok, tok ∈ toks ∧ owner tier tok olt = d)
    end.
Proof.
  intros Hm. revert acc. induction toks as [|tok toks IH]; intros acc Hlt; simpl.
  { exists (inl acc). split; [done|]. set_solver. }
  rewrite getDiskId_owner, bind_Ret by (done || (apply Hlt; left)).
  unfold isDiskIdValid. case_bool_decide as Hv; simpl.
  2:{ destruct (IH acc) as (r & -> & Hr); [set_solver|].
      exists r. split; [done|]. destruct r as [disks|e]; [|set_solver]. destruct Hr as [H1 H2].
      split; [set_solver|]. intros d. rewrite H2. set_solver. }
  case_decide as Hs.
  { eexists. split; [done|]. set_solver. }
  destruct (IH ({[owner tier tok olt]} ∪ acc)) as (r & -> & Hr); [set_solver|].
  exists r. split; [done|]. destruct r as [disks|e]; [|set_solver]. destruct Hr as [H1 H2].
  split; [set_solver|]. intros d. rewrite H2. set_solver.
Qed.

Lemma validate_cases (S : gset Z) (tier : DataTier) (olt : t) : tier ≠ maxTier →
  validate S tier olt = Ret ERR_OK ∧ (∀ d, d ∈ S ↔ in_tier tier olt d) ∨
  validate S tier olt = Ret ERR_SM_OLT_DISKS_INCONSISTENT ∧ ¬ (∀ d, d ∈ S ↔ in_tier tier olt d).
Proof.
  intros Hm. unfold validate.
  destruct (olt_disks_spec S tier (seqZ 0 SMTOKEN_COUNT) ∅ olt) as (r & -> & Hr); [done| |].
  { intros tok Ht%elem_of_seqZ. lia. }
  rewrite bind_Ret. unfold in_tier. destruct r as [disks|e].
  2:{ destruct Hr as (-> & tok & Ht & Hv & Hn). right. split; [done|]. intros Hall.
      apply Hn, Hall. split; [done|]. exists tok. apply elem_of_seqZ in Ht. split; [lia|done]. }
  destruct Hr as [H1 H2]. destruct (forallb _ _) eqn:Hf.
  - left. split; [done|]. intros d. split.
    + intros Hd. rewrite forallb_forall in Hf. specialize (Hf d). rewrite <-list_elem_of_In in Hf.
      apply elem_of_set_iter in Hd. specialize (Hf Hd). apply bool_decide_eq_true in Hf.
      apply H2 in Hf as [Hf|(Hv & tok & Ht%elem_of_seqZ & Ho)]; [set_solver|].
      split; [done|]. exists tok. split; [lia|done].
    + intros (Hv & tok & Ht & <-). destruct (H1 tok) as [?|?]; [apply elem_of_seqZ; lia|done|done].
  - right. split; [done|]. intros Hall. apply not_true_iff_false in Hf. apply Hf.
    apply forallb_forall. intros d Hd%list_elem_of_In%elem_of_set_iter. apply bool_decide_eq_true.
    apply H2. right. apply Hall in Hd as (Hv & tok & Ht & Ho). split; [done|].
    exists tok. split; [apply elem_of_seqZ; lia|done].
Qed.

(** [validate] accepts a table exactly when the disks that own tokens in
    the tier are the given ones; otherwise it reports
    [ERR_SM_OLT_DISKS_INCONSISTENT]. *)
Theorem validate_spec (S : gset Z) (tier : DataTier) (olt : t) : tier ≠ maxTier →
  validate S tier olt = Ret ERR_OK ∧ (∀ d, d ∈ S ↔ in_tier tier olt d) ∨
  validate S tier olt = Ret ERR_SM_OLT_DISKS_INCONSISTENT ∧ ¬ (∀ d, d ∈ S ↔ in_tier tier olt d).
Proof. apply validate_cases. Qed.

(** ** Concrete tables *)
Lemma cell_make row tok idx : cell row tok idx make = SM_INVALID_DISK_ID.
Proof.
  unfold cell. destruct (make !! row) as [r|] eqn:Hr; [|done].
  apply lookup_replicate in Hr as [-> _]. cbn [mbind option_bind].
  destruct (replicate 256 (replicate 8 SM_INVALID_DISK_ID) !! Z.to_nat tok) as [c|] eqn:Hc; [|done].
  apply lookup_replicate in Hc as [-> _]. cbn [mbind option_bind].
  destruct (replicate 8 SM_INVALID_DISK_ID !! idx) as [d|] eqn:Hd; [|done].
  by apply lookup_replicate in Hd as [-> _].
Qed.

(** Token 5 on disk 2, and on flash disk 3. *)
Definition demo : t := set_cell fds_ssd_row 5 0 3 (set_cell fds_hdd_row 5 0 2 make).

Lemma demo_placement_wf : wf demo.
Proof. apply set_cell_wf, set_cell_wf, make_wf. Qed.

Lemma demo_cell row tok idx : 0 ≤ tok → cell row tok idx demo =
  if decide (row = 1%nat ∧ tok = 5 ∧ idx = 0%nat) then 3
  else if decide (row = 0%nat ∧ tok = 5 ∧ idx = 0%nat) then 2 else SM_INVALID_DISK_ID.
Proof.
  intros Ht. unfold demo, fds_ssd_row, fds_hdd_row, SMTOKEN_COUNT.
  rewrite cell_set; unfold SMTOKEN_COUNT; try lia; [|apply set_cell_wf, make_wf].
  case_decide; [done|]. rewrite cell_set; unfold SMTOKEN_COUNT; try lia; [|apply make_wf].
  by rewrite cell_make.
Qed.

Lemma addDiskId_disk_witness :
  ∃ olt', addDiskId 5 diskTier 7 demo = Ret olt' ∧ owner diskTier 5 olt' = 7 ∧
    getDiskIds 5 diskTier olt' = Ret ({[ 7 ]} ∪ disks_of diskTier 5 demo).
Proof.
  pose proof (addDiskId_disk 5 7 demo) as H. rewrite decide_True in H by (vm_compute; repeat constructor).
  destruct H as (olt' & E & _ & _ & H1 & _ & H2 & H3 & _).
  - apply demo_placement_wf.
  - unfold SMTOKEN_COUNT. lia.
  - intros j k Hjk. rewrite !demo_cell by lia. unfold fds_hdd_row.
    repeat case_decide; (done || lia).
  - done.
  - exists olt'. split; [exact E|]. split; [exact H1|]. rewrite H3, H2. vm_compute. reflexivity.
Defined.

Lemma addDiskId_flash_drops_owner_witness :
  owner flashTier 5 demo = 3 ∧
  ∃ olt', addDiskId 5 flashTier 7 demo = Ret olt' ∧
    (∀ k, cell fds_ssd_row 5 k olt' = if decide (k = 0%nat) then 7 else cell fds_ssd_row 5 k demo) ∧
    cell fds_hdd_row 5 1 olt' = 2.
Proof.
  split; [vm_compute; reflexivity|].
  destruct (addDiskId_flash_drops_owner 5 7 demo) as (olt' & E & H1 & H2 & _).
  - apply demo_placement_wf.
  - unfold SMTOKEN_COUNT. lia.
  - replace (free_index flashTier 5 demo) with 1%nat by (vm_compute; reflexivity). lia.
  - exists olt'. split; [exact E|]. split; [exact H1|]. rewrite H2. vm_compute. reflexivity.
Defined.

Lemma validate_spec_witness : validate {[ 2 ]} diskTier demo = Ret ERR_OK.
Proof.
  destruct (validate_spec {[ 2 ]} diskTier demo) as [[H _]|[H _]].
  - discriminate.
  - exact H.
  - exfalso. revert H. vm_compute. discriminate.
Defined.

End ObjectLocationTable.

Module SmTokenPlacement.
Import ObjectLocationTable.

(** An iterator over a set that goes back to [cbegin()] when it reaches
    [cend()]: the elements from the iterator on. *)
Definition next (full cit : list Z) : list Z :=
  match tail cit with [] => full | rest => rest end.

(** One round-robin pass over the tokens. *)
Definition place_tier (disks : gset Z) (tier : DataTier) (olt : t) : res t :=
  let full := set_iter disks in
  if decide (full = []) then Ret olt else
  r ← foldM (λ '(olt, cit) tok,
        match cit with
        | d :: _ => olt ← setDiskId tok tier d olt; Ret (olt, next full cit)
        | [] => Fault Undefined
        end) (olt, full) (seqZ 0 SMTOKEN_COUNT);
  Ret r.1.

Definition compute (hdds ssds : gset Z) (olt : t) : res t :=
  olt ← place_tier hdds diskTier olt;
  place_tier ssds flashTier olt.

(** Tokens of removed disks go to the added ones first; the tokens left when
    every added disk has its share are returned. *)
Fixpoint place_added (full cit : list Z) (tokDiskCnt tokensPerDisk : Z) (tier : DataTier)
    (toks : list Z) (olt : t) : res (t * list Z) :=
  match toks with
  | [] => Ret (olt, [])
  | tok :: rest =>
      match cit with
      | [] => Fault Undefined
      | d :: cit' =>
          olt ← setDiskId tok tier d olt;
          match cit' with
          | [] => let tokDiskCnt := u32 (tokDiskCnt + 1) in
                  if decide (tokDiskCnt > tokensPerDisk) then Ret (olt, rest)
                  else place_added full full tokDiskCnt tokensPerDisk tier rest olt
          | _ => place_added full cit' tokDiskCnt tokensPerDisk tier rest olt
          end
      end
  end.

Fixpoint place_rest (full cit : list Z) (tier : DataTier) (toks : list Z) (olt : t) : res t :=
  match toks with
  | [] => Ret olt
  | tok :: rest =>
      match cit with
      | [] => Fault Undefined
      | d :: _ => olt ← setDiskId tok tier d olt; place_rest full (next full cit) tier rest olt
      end
  end.

Section Rebalance.

(** The space left on a disk, and the [k]-th random draw below [n]. *)
Context (avail : Z → Z) (rand : nat → nat → nat).

(** [std::set<std::pair<DiskStat, DiskId>>]: by free space, then by id. *)
Definition disk_le (a b : Z) : Prop := avail a < avail b ∨ (avail a = avail b ∧ a ≤ b).
#[export] Instance disk_le_dec : RelDecision disk_le.
Proof. unfold disk_le. intros a b. apply _. Defined.
Definition disk_info (curStorage : gset Z) : list Z := merge_sort disk_le (elements curStorage).

Fixpoint draw_tokens (n : nat) (full infoIter : list Z) (tokensToMove : gset Z) (olt : t)
    : res (gset Z) :=
  match n with
  | O => Ret tokensToMove
  | S n =>
      match infoIter with
      | [] => Fault Undefined
      | disk :: _ =>
          let tokenSet := set_iter (getOwnedSmTokens disk olt) in
          match tokenSet !! rand n (length tokenSet) with
          | None => Fault Undefined
          | Some tok => draw_tokens n full (next full infoIter) ({[ tok ]} ∪ tokensToMove) olt
          end
      end
  end.

Definition getTokensForNewDisks (curStorage addedStorage : gset Z) (olt : t) (tokensPerDisk : Z)
    : res (gset Z) :=
  let diskInfo := disk_info curStorage in
  draw_tokens (Z.to_nat (tokensPerDisk * Z.of_nat (size addedStorage))) diskInfo diskInfo ∅ olt.

(** [while (!candidateTokens.empty())]: every round places a token or counts a
    full disk. *)
Fixpoint rebalance (fuel : nat) (full cit : list Z) (disksLoaded tokensPerDisk : Z) (tier : DataTier)
    (toks : list Z) (olt : t) : res t :=
  match fuel with
  | O => Fault OutOfFuel
  | S fuel =>
      match toks with
      | [] => Ret olt
      | tok :: rest =>
          match cit with
          | [] => Fault Undefined
          | d :: _ =>
              if decide (getNumSmTokens d olt < tokensPerDisk) then
                olt ← addDiskId tok tier d olt;
                rebalance fuel full (next full cit) disksLoaded tokensPerDisk tier rest olt
              else
                let disksLoaded := u32 (disksLoaded + 1) in
                if decide (disksLoaded = Z.of_nat (length full)) then Ret olt
                else rebalance fuel full (next full cit) disksLoaded tokensPerDisk tier toks olt
          end
      end
  end.

Definition removed_tokens (removedStorage : gset Z) (olt : t) : gset Z :=
  foldl (λ toks d, toks ∪ getOwnedSmTokens d olt) ∅ (set_iter removedStorage).

Definition recompute (baseStorage addedStorage removedStorage : gset Z) (storageTier : DataTier)
    (olt : t) (err : fds_errno) : res (t * bool * fds_errno) :=
  _ ← fds_verify (bool_decide (baseStorage ≠ ∅));
  if decide (addedStorage = ∅ ∧ removedStorage = ∅) then Ret (olt, true, ERR_OK) else
  let totalStorage := (baseStorage ∪ addedStorage) ∖ removedStorage in
  let curStorage := baseStorage ∖ removedStorage in
  if decide (totalStorage = ∅) then Ret (olt, false, ERR_SM_NO_DISK) else
  let tokensPerDisk := SMTOKEN_COUNT / Z.of_nat (size totalStorage) in
  let tokensPerDisk := if decide (tokensPerDisk = 0) then 1 else tokensPerDisk in
  let removedTokens := set_iter (removed_tokens removedStorage olt) in
  let added := set_iter addedStorage in
  r ← (if decide (addedStorage = ∅) then Ret (olt, removedTokens)
       else place_added added added 0 tokensPerDisk storageTier removedTokens olt);
  let '(olt, leftover) := r : t * list Z in
  let total := set_iter totalStorage in
  olt ← place_rest total total storageTier leftover olt;
  candidateTokens ← getTokensForNewDisks curStorage addedStorage olt tokensPerDisk;
  let toks := set_iter candidateTokens in
  olt ← (if decide (addedStorage = ∅) then Ret olt
         else rebalance (S (length toks + length added)) added added 0 tokensPerDisk storageTier
                toks olt);
  Ret (olt, true, err).

End Rebalance.

(** ** Round-robin placement *)
Lemma next_drop full k : full ≠ [] →
  next full (drop (k `mod` length full) full) = drop (S k `mod` length full) full.
Proof.
  intros Hf. assert (length full ≠ 0%nat) as Hl by (by destruct full).
  pose proof (Nat.mod_upper_bound k (length full) Hl) as Hb.
  set (r := (k mod length full)%nat) in *. unfold next.
  destruct (lookup_lt_is_Some_2 full r Hb) as [x Hx]. rewrite (drop_S _ _ _ Hx). simpl.
  assert (S k mod length full = if decide (S r = length full) then 0 else S r)%nat as ->.
  { rewrite <-Nat.add_1_r, Nat.Div0.add_mod. fold r.
    destruct (decide (length full = 1%nat)) as [H1|]; [rewrite H1, Nat.mod_1_r; case_decide; lia|].
    rewrite (Nat.mod_small 1) by lia. case_decide as Hs.
    - rewrite Nat.add_1_r, Hs. apply Nat.Div0.mod_same.
    - rewrite Nat.mod_small; lia. }
  case_decide as Hs; [by rewrite drop_ge by lia|].
  destruct (lookup_lt_is_Some_2 full (S r)) as [y Hy]; [lia|]. by rewrite (drop_S _ _ _ Hy).
Qed.

Definition placed (full : list Z) (tier : DataTier) (olt : t) (k : nat) (olt' : t) : Prop :=
  wf olt' ∧ (∀ j, (j < k)%nat → full !! (j `mod` length full)%nat = Some (owner tier (Z.of_nat j) olt')) ∧
  ∀ row tok idx, 0 ≤ tok → row ≠ row_of tier → cell row tok idx olt' = cell row tok idx olt.

Lemma place_tier_spec disks tier olt : wf olt → tier ≠ maxTier → disks ≠ ∅ →
  ∃ olt', place_tier disks tier olt = Ret olt' ∧ placed (set_iter disks) tier olt 256 olt'.
Proof.
  intros Hwf Hm Hd. unfold place_tier. set (full := set_iter disks).
  assert (full ≠ []) as Hf.
  { intros E. apply set_choose_L in Hd as [x Hx]. apply elem_of_set_iter in Hx. fold full in Hx.
    rewrite E in Hx. by apply elem_of_nil in Hx. }
  rewrite decide_False by done.
  match goal with |- context [foldM ?body _ _] =>
    destruct (for_range_rule (λ k s, s.2 = drop (k `mod` length full) full ∧ placed full tier olt k s.1)
      body 256 (olt, full)) as (s' & Hs & _ & Hp) end.
  - split; [by rewrite Nat.Div0.mod_0_l|]. split_and!; [done|intros; lia|done].
  - intros k [o cit] Hk [Hc (Hw & Ho & Hfr)]. simpl in Hc, Hw, Ho, Hfr. subst cit.
    assert (length full ≠ 0%nat) as Hl by (by destruct full).
    destruct (lookup_lt_is_Some_2 full (k mod length full)) as [d Hx];
      [by apply Nat.mod_upper_bound|].
    rewrite (drop_S _ _ _ Hx). rewrite <-(drop_S _ _ _ Hx).
    destruct (setDiskId_spec (Z.of_nat k) tier d o) as (o' & -> & Hw' & Hcell);
      [done|done|unfold SMTOKEN_COUNT; lia|].
    rewrite bind_Ret. eexists. split; [done|]. simpl. split; [by apply next_drop|].
    split_and!; [done| |].
    + intros j Hj. unfold owner. rewrite Hcell by lia. destruct (decide (j = k)) as [->|].
      * by rewrite decide_True.
      * rewrite decide_False by lia. apply Ho. lia.
    + intros row tok idx Ht Hr. rewrite Hcell by done. rewrite decide_False by tauto. by apply Hfr.
  - unfold for_range in Hs. change (Z.of_nat 256) with SMTOKEN_COUNT in Hs. rewrite Hs, bind_Ret.
    by exists s'.1.
Qed.

(** How many of the first [N] numbers are [i] modulo [n]. *)
Lemma count_mod (n i N : nat) : (i < n)%nat →
  length (filter (λ j, j `mod` n = i)%nat (seq 0 N)) = ((N + n - 1 - i) `div` n)%nat.
Proof.
  intros Hi. induction N as [|N IH]; [by rewrite Nat.div_small by lia|].
  rewrite seq_S, filter_app, length_app, IH. change (0 + N)%nat with N.
  pose proof (Nat.div_mod N n ltac:(lia)) as HN. pose proof (Nat.mod_upper_bound N n ltac:(lia)) as Hr.
  set (q := (N / n)%nat) in *. set (r := (N mod n)%nat) in *.
  rewrite filter_cons, filter_nil.
  assert ((N + n - 1 - i) / n = q + if decide (i < r) then 1 else 0)%nat as ->.
  { symmetry. apply (Nat.div_unique _ _ _ (if decide (i < r)%nat then r - 1 - i else r + n - 1 - i)%nat);
      case_decide; nia. }
  assert ((S N + n - 1 - i) / n = q + if decide (i ≤ r)%nat then 1 else 0)%nat as ->.
  { symmetry. apply (Nat.div_unique _ _ _ (if decide (i ≤ r)%nat then r - i else r + n - i)%nat);
      case_decide; nia. }
  fold r. destruct (decide (r = i)) as [->|]; repeat case_decide; simpl; lia.
Qed.

(** The number of tokens a disk owns in a tier. *)
Definition owned_count (tier : DataTier) (d : Z) (olt : t) : nat :=
  length (filter (λ j, owner tier (Z.of_nat j) olt = d) (seq 0 256)).

Lemma placed_count disks tier olt olt' d : placed (set_iter disks) tier olt 256 olt' → d ∈ disks →
  ∃ i, (i < size disks)%nat ∧ owned_count tier d olt' = ((256 + size disks - 1 - i) `div` size disks)%nat.
Proof.
  intros (_ & Ho & _) Hd. apply elem_of_set_iter, list_elem_of_lookup in Hd as [i Hi].
  pose proof (lookup_lt_Some _ _ _ Hi) as Hlt. rewrite length_set_iter in Hlt. exists i.
  split; [done|]. rewrite <-count_mod by done. unfold owned_count. f_equal.
  apply filter_ext_in. intros j Hj%elem_of_seq.
  specialize (Ho j ltac:(lia)). rewrite length_set_iter in Ho. split.
  - intros E. rewrite E in Ho. by apply (NoDup_lookup _ _ _ _ (NoDup_set_iter disks) Ho Hi).
  - intros E. rewrite E, Hi in Ho. by injection Ho.
Qed.

Lemma placed_in_tier disks tier olt olt' d : (1 ≤ size disks ≤ 256)%nat → SM_INVALID_DISK_ID ∉ disks →
  placed (set_iter disks) tier olt 256 olt' → d ∈ disks ↔ in_tier tier olt' d.
Proof.
  intros Hs Hinv (_ & Ho & _). unfold in_tier, SMTOKEN_COUNT. split.
  - intros Hd. split; [by intros ->|]. apply elem_of_set_iter, list_elem_of_lookup in Hd as [i Hi].
    pose proof (lookup_lt_Some _ _ _ Hi) as Hlt. rewrite length_set_iter in Hlt.
    exists (Z.of_nat i). split; [lia|]. specialize (Ho i ltac:(lia)). rewrite length_set_iter in Ho.
    rewrite Nat.mod_small, Hi in Ho by lia. by injection Ho.
  - intros (_ & tok & Ht & <-). specialize (Ho (Z.to_nat tok) ltac:(lia)).
    rewrite Z2Nat.id in Ho by lia. apply list_elem_of_lookup_2 in Ho. by apply elem_of_set_iter.
Qed.

(** C33. [compute] spreads the 256 tokens of each tier evenly: the table
    passes validation against the given disks, and no disk owns more than one
    token more than another. *)
Theorem compute_balanced (hdds ssds : gset Z) (olt : t) : wf olt →
  ∃ olt', compute hdds ssds olt = Ret olt' ∧ wf olt' ∧
    ∀ tier disks, (tier, disks) = (diskTier, hdds) ∨ (tier, disks) = (flashTier, ssds) →
      (1 ≤ size disks ≤ 256)%nat → SM_INVALID_DISK_ID ∉ disks →
      validate disks tier olt' = Ret ERR_OK ∧
      ∀ d, d ∈ disks → (256 `div` size disks ≤ owned_count tier d olt' ≤ 256 `div` size disks + 1)%nat.
Proof.
  intros Hwf. unfold compute.
  assert (∃ o1, place_tier hdds diskTier olt = Ret o1 ∧ wf o1 ∧
    (hdds ≠ ∅ → placed (set_iter hdds) diskTier olt 256 o1)) as (o1 & -> & Hw1 & Hp1).
  { destruct (decide (hdds = ∅)) as [->|Hne]; [by exists olt|].
    destruct (place_tier_spec hdds diskTier olt) as (o & -> & Hp); try done.
    exists o. split; [done|]. split; [apply Hp|done]. }
  rewrite bind_Ret.
  assert (∃ o2, place_tier ssds flashTier o1 = Ret o2 ∧ wf o2 ∧
    (ssds ≠ ∅ → placed (set_iter ssds) flashTier o1 256 o2) ∧
    ∀ tok idx, 0 ≤ tok → cell fds_hdd_row tok idx o2 = cell fds_hdd_row tok idx o1)
    as (o2 & -> & Hw2 & Hp2 & Hrow).
  { destruct (decide (ssds = ∅)) as [->|Hne]; [by exists o1|].
    destruct (place_tier_spec ssds flashTier o1) as (o & -> & Hp); try done.
    exists o. split; [done|]. split; [apply Hp|]. split; [done|]. intros. by apply Hp. }
  exists o2. split; [done|]. split; [done|]. intros tier disks Htd Hs Hinv.
  assert (disks ≠ ∅) as Hne by (intros ->; rewrite size_empty in Hs; lia).
  assert (∃ o, placed (set_iter disks) tier o 256 o2) as (o & Hp).
  { destruct Htd as [[= -> ->]|[= -> ->]]; [|by exists o1; apply Hp2].
    exists o2. destruct (Hp1 Hne) as (_ & Ho & _). split_and!; [done| |done].
    intros j Hj. rewrite (Ho j Hj). unfold owner. f_equal. symmetry. apply Hrow. lia. }
  assert (tier ≠ maxTier) as Hm by (by destruct Htd as [[= -> ->]|[= -> ->]]).
  split.
  - destruct (validate_cases disks tier o2 Hm) as [[? _]|[_ Hn]]; [done|]. exfalso. apply Hn.
    intros d. by eapply placed_in_tier.
  - intros d Hd. destruct (placed_count _ _ _ _ _ Hp Hd) as (i & Hi & ->).
    set (n := size disks) in *. split; [apply Nat.Div0.div_le_mono; lia|].
    transitivity ((256 + 1 * n) / n)%nat; [apply Nat.Div0.div_le_mono; lia|].
    rewrite Nat.div_add by lia. lia.
Qed.

(** ** Recomputing the placement *)
(** [olt'] is [olt] with the tokens [toks] of the tier moved to disks of [S]. *)
Definition moved (tier : DataTier) (toks : list Z) (S : list Z) (olt olt' : t) : Prop :=
  wf olt' ∧
  (∀ row tok idx, 0 ≤ tok → row ≠ row_of tier ∨ idx ≠ DEFAULT_DISKIDX ∨ tok ∉ toks →
     cell row tok idx olt' = cell row tok idx olt) ∧
  ∀ tok, tok ∈ toks → owner tier tok olt' ∈ S.

Lemma moved_nil tier S olt : wf olt → moved tier [] S olt olt.
Proof. intros Hwf. split_and!; [done|done|]. intros tok H. by apply elem_of_nil in H. Qed.

Lemma moved_cons tier tok toks S S' d olt o1 olt' : wf olt → tier ≠ maxTier → 0 ≤ tok < SMTOKEN_COUNT →
  d ∈ S → tok ∉ toks → setDiskId tok tier d olt = Ret o1 → S' ⊆ S →
  moved tier toks S' o1 olt' → moved tier (tok :: toks) S olt olt'.
Proof.
  intros Hwf Hm Ht Hd Hn Hs HS (Hw & Hf & Ho).
  destruct (setDiskId_spec tok tier d olt) as (o & Hs' & _ & Hc); try done.
  rewrite Hs in Hs'. injection Hs' as <-. split_and!; [done| |].
  - intros row tok' idx Ht' Hout. rewrite Hf by set_solver. rewrite Hc by done.
    rewrite decide_False; [done|]. set_solver.
  - intros tok' [->|Hin]%elem_of_cons; [|by apply HS, Ho].
    unfold owner. rewrite Hf, Hc by (lia || tauto). by rewrite decide_True.
Qed.

Lemma next_suffix full cit : full ≠ [] → cit ⊆ full → next full cit ≠ [] ∧ next full cit ⊆ full.
Proof. intros Hf Hs. unfold next. destruct cit as [|x [|y l]]; simpl; set_solver. Qed.

Definition in_range (toks : list Z) : Prop := NoDup toks ∧ ∀ tok, tok ∈ toks → 0 ≤ tok < SMTOKEN_COUNT.

Lemma in_range_cons tok toks : in_range (tok :: toks) →
  0 ≤ tok < SMTOKEN_COUNT ∧ tok ∉ toks ∧ in_range toks.
Proof.
  intros [[Hn Hd]%NoDup_cons Hr]. split; [apply Hr; by left|]. split; [done|]. split; [done|].
  intros tk Htk. apply Hr. by right.
Qed.

Lemma place_rest_spec full cit tier toks olt : wf olt → tier ≠ maxTier → cit ≠ [] → cit ⊆ full →
  in_range toks → ∃ olt', place_rest full cit tier toks olt = Ret olt' ∧ moved tier toks full olt olt'.
Proof.
  intros Hwf Hm. revert cit olt Hwf. induction toks as [|tok toks IH]; intros cit olt Hwf Hne Hs Hr.
  { exists olt. split; [done|by apply moved_nil]. }
  apply in_range_cons in Hr as (Ht & Hn & Hr). destruct cit as [|d cit]; [done|].
  cbn [place_rest]. destruct (setDiskId_spec tok tier d olt) as (o & Hset & Hw & _); try done.
  rewrite Hset, bind_Ret.
  destruct (next_suffix full (d :: cit)) as [Hne' Hs']; [|done|].
  { intros ->. by apply (not_elem_of_nil d), Hs; left. }
  destruct (IH (next full (d :: cit)) o) as (olt' & -> & Hmv); try done.
  exists olt'. split; [done|]. apply (moved_cons tier tok toks full full d olt o olt'); try done. set_solver.
Qed.

Lemma place_added_spec full cit cnt per tier toks olt : wf olt → tier ≠ maxTier → full ≠ [] → cit ≠ [] →
  cit ⊆ full → in_range toks →
  ∃ olt' placed rest, place_added full cit cnt per tier toks olt = Ret (olt', rest) ∧
    toks = placed ++ rest ∧ moved tier placed full olt olt'.
Proof.
  intros Hwf Hm Hf. revert cit cnt olt Hwf.
  induction toks as [|tok toks IH]; intros cit cnt olt Hwf Hne Hs Hr.
  { exists olt, [], []. split_and!; [done|done|by apply moved_nil]. }
  apply in_range_cons in Hr as (Ht & Hn & Hr). destruct cit as [|d cit]; [done|].
  cbn [place_added]. destruct (setDiskId_spec tok tier d olt) as (o & Hset & Hw & _); try done.
  rewrite Hset, bind_Ret.
  assert (∀ cit' cnt', cit' ≠ [] → cit' ⊆ full → ∃ olt' placed rest,
    place_added full cit' cnt' per tier toks o = Ret (olt', rest) ∧ tok :: toks = placed ++ rest ∧
    moved tier placed full olt olt') as Hgo.
  { intros cit' cnt' Hne' Hs'. destruct (IH cit' cnt' o) as (olt' & pl & rest & -> & -> & Hmv); try done.
    exists olt', (tok :: pl), rest. split; [done|]. split; [done|].
    apply (moved_cons tier tok pl full full d olt o olt'); try done; set_solver. }
  destruct cit as [|d' cit]; [|apply Hgo; set_solver].
  case_decide; [|by apply Hgo].
  exists o, [tok], toks. split; [done|]. split; [done|].
  apply (moved_cons tier tok [] full full d olt o o); try done; [set_solver|set_solver|].
  by apply moved_nil.
Qed.

(** The rebalancing loop ends, and adds only new disks; it goes wrong only at
    a token without a free cell. *)
Lemma rebalance_spec fuel full cit loaded per tier toks olt : wf olt → tier ≠ maxTier → full ≠ [] →
  cit ≠ [] → cit ⊆ full → in_range toks → 0 ≤ loaded < Z.of_nat (length full) → Z.of_nat (length full) < 2 ^ 32 →
  (length toks + length full - Z.to_nat loaded < fuel)%nat →
  match rebalance fuel full cit loaded per tier toks olt with
  | Ret olt' => wf olt' ∧ ∀ tok, 0 ≤ tok → owner tier tok olt' = owner tier tok olt ∨ owner tier tok olt' ∈ full
  | Fault f => f = Undefined ∧ ∃ tok, tok ∈ toks ∧ full_token tier tok olt
  end.
Proof.
  intros Hwf Hm Hf. revert cit loaded toks olt Hwf.
  induction fuel as [|fuel IH]; intros cit loaded toks olt Hwf Hne Hs Hr Hl Hl32 Hfuel; [lia|].
  cbn [rebalance]. destruct toks as [|tok toks].
  { split; [done|]. intros. by left. }
  destruct cit as [|d cit]; [done|].
  destruct (next_suffix full (d :: cit) Hf Hs) as [Hne' Hs'].
  case_decide.
  - pose proof Hr as (Ht & Hnin & Hr')%in_range_cons.
    destruct (decide (free_index tier tok olt < 8)%nat) as [Hi|Hi].
    2:{ rewrite addDiskId_full by (done || lia). split; [done|]. exists tok. split; [by left|]. apply free_index_full. lia. }
    destruct (addDiskId_cells tok tier d olt Hwf Hm Ht Hi) as (o & -> & Hw & Hc). rewrite bind_Ret.
    specialize (IH (next full (d :: cit)) loaded toks o Hw Hne' Hs' Hr' Hl Hl32 ltac:(simpl in Hfuel; lia)).
    destruct (rebalance _ _ _ _ _ _ _ _) as [olt'|f].
    + destruct IH as [Hw' Ho]. split; [done|]. intros tk Htk. destruct (Ho tk Htk) as [E|?]; [|by right].
      rewrite E. unfold owner. rewrite Hc by done. case_decide; [right; apply Hs; by left|].
      rewrite decide_False by (unfold DEFAULT_DISKIDX; lia). by left.
    + destruct IH as (-> & tk & Htk & Hft). split; [done|]. exists tk. split; [by right|]. intros k Hk.
      specialize (Hft k Hk). rewrite Hc in Hft by (by apply Hr'). assert (tk ≠ tok) by (by intros ->).
      by rewrite !decide_False in Hft by tauto.
  - rewrite u32_small by lia. case_decide.
    + split; [done|]. intros. by left.
    + apply IH; try done; simpl in *; lia.
Qed.

Lemma draw_tokens_spec rand n full iter acc olt : (∀ k m, (0 < m)%nat → (rand k m < m)%nat) →
  SM_INVALID_DISK_ID ∉ full → iter ⊆ full → (iter = [] → full = []) →
  (∀ tok, tok ∈ acc → 0 ≤ tok < SMTOKEN_COUNT) →
  match draw_tokens rand n full iter acc olt with
  | Ret toks => ∀ tok, tok ∈ toks → 0 ≤ tok < SMTOKEN_COUNT
  | Fault f => f = Undefined ∧ n ≠ 0%nat ∧
      (full = [] ∨ ∃ d, d ∈ full ∧ getOwnedSmTokens d olt = ∅)
  end.
Proof.
  intros Hrand Hinv. revert iter acc. induction n as [|n IH]; intros iter acc Hs Hnil Hacc; [done|].
  cbn [draw_tokens]. destruct iter as [|d iter]; [split_and!; [done|done|left; by apply Hnil]|].
  assert (d ∈ full) as Hd by (apply Hs; by left).
  assert (d ≠ SM_INVALID_DISK_ID) as Hdv by (by intros ->).
  assert (full ≠ []) as Hf by (intros ->; by apply not_elem_of_nil in Hd).
  destruct (set_iter _ !! _) as [tok|] eqn:Htok.
  - destruct (next_suffix full (d :: iter) Hf Hs) as [Hne' Hs'].
    specialize (IH (next full (d :: iter)) ({[tok]} ∪ acc)). destruct (draw_tokens rand n _ _ _ _).
    + apply IH; try done. intros tk [->%elem_of_singleton|]%elem_of_union; [|by apply Hacc].
      apply list_elem_of_lookup_2, elem_of_set_iter, elem_of_owned in Htok; [|done]. apply Htok.
    + destruct IH as (-> & _ & Hor); [done|done| |by split_and!].
      intros tk [->%elem_of_singleton|]%elem_of_union; [|by apply Hacc].
      apply list_elem_of_lookup_2, elem_of_set_iter, elem_of_owned in Htok; [|done]. apply Htok.
  - split_and!; [done|done|]. right. exists d. split; [done|]. apply lookup_ge_None in Htok.
    destruct (length (set_iter (getOwnedSmTokens d olt))) as [|m] eqn:El.
    + rewrite length_set_iter in El. by apply size_empty_iff in El; apply leibniz_equiv.
    + specialize (Hrand n (S m)). lia.
Qed.

Lemma elem_of_removed_tokens removed tok olt : SM_INVALID_DISK_ID ∉ removed →
  tok ∈ removed_tokens removed olt ↔
  0 ≤ tok < SMTOKEN_COUNT ∧ (owner diskTier tok olt ∈ removed ∨ owner flashTier tok olt ∈ removed).
Proof.
  intros Hinv. unfold removed_tokens.
  assert (∀ l acc, tok ∈ foldl (λ toks d, toks ∪ getOwnedSmTokens d olt) acc l ↔
    tok ∈ acc ∨ ∃ d, d ∈ l ∧ tok ∈ getOwnedSmTokens d olt) as Hgen.
  { induction l as [|d l IH]; intros acc; simpl; [set_solver|]. rewrite IH. set_solver. }
  rewrite Hgen. split.
  - intros [H|(d & Hd%elem_of_set_iter & Ht)]; [set_solver|].
    apply elem_of_owned in Ht as (? & [<-|<-]); [auto|auto|by intros ->].
  - intros (Hr & Ho). right.
    destruct Ho as [Ho|Ho]; eexists; (split; [by apply elem_of_set_iter|]);
      (apply elem_of_owned; [by intros E; rewrite E in Ho|auto]).
Qed.

(** What the superblock passes: disks with valid ids, none both added and
    removed, and removed disks that own tokens only in the tier at hand. *)
Record request (base added removed : gset Z) (tier : DataTier) (olt : t) : Prop := {
  req_wf : wf olt;
  req_tier : tier ≠ maxTier;
  req_base : base ≠ ∅;
  req_valid : SM_INVALID_DISK_ID ∉ base ∪ added ∪ removed;
  req_count : Z.of_nat (size added) < 2 ^ 32;
  req_disjoint : added ## removed;
  req_other other tok : other ≠ tier → 0 ≤ tok → owner other tok olt ∉ removed;
}.

(** The tokens of the removed disks. *)
Lemma removed_tokens_tier base added removed tier olt tok : request base added removed tier olt →
  tok ∈ removed_tokens removed olt ↔ 0 ≤ tok < SMTOKEN_COUNT ∧ owner tier tok olt ∈ removed.
Proof.
  intros Hq. pose proof (req_valid _ _ _ _ _ Hq). rewrite elem_of_removed_tokens by set_solver.
  pose proof (req_other _ _ _ _ _ Hq) as Ho. pose proof (req_tier _ _ _ _ _ Hq) as Hm.
  destruct tier; [| |done].
  - split; [intros [? [?|?]]; [done|]|tauto]. by destruct (Ho flashTier tok); [done|lia|].
  - split; [intros [? [?|?]]; [|done]|tauto]. by destruct (Ho diskTier tok); [done|lia|].
Qed.

(** The first two phases: the tokens of the removed disks, and no others,
    move to the disks that are left. *)
Lemma phases_spec base added removed tier olt per : request base added removed tier olt →
  (base ∪ added) ∖ removed ≠ ∅ →
  let toks := set_iter (removed_tokens removed olt) in
  let total := set_iter ((base ∪ added) ∖ removed) in
  ∃ o1 leftover o2,
    (if decide (added = ∅) then Ret (olt, toks)
     else place_added (set_iter added) (set_iter added) 0 per tier toks olt) = Ret (o1, leftover) ∧
    place_rest total total tier leftover o1 = Ret o2 ∧ moved tier toks total olt o2.
Proof.
  intros Hq Htot toks total. pose proof Hq as [Hwf Hm _ _ _ Hdis _].
  assert (in_range toks) as Hr.
  { split; [apply NoDup_set_iter|]. intros tok Ht%elem_of_set_iter.
    by apply (removed_tokens_tier _ _ _ _ _ _ Hq) in Ht as [? _]. }
  assert (∀ s : gset Z, s ≠ ∅ → set_iter s ≠ []) as Hnil.
  { intros s (x & Hx)%set_choose_L E. apply elem_of_set_iter in Hx. rewrite E in Hx.
    by apply elem_of_nil in Hx. }
  assert (∃ o1 pl rest,
    (if decide (added = ∅) then Ret (olt, toks)
     else place_added (set_iter added) (set_iter added) 0 per tier toks olt) = Ret (o1, rest) ∧
    toks = pl ++ rest ∧ moved tier pl total olt o1) as (o1 & pl & rest & -> & Et & Hw1 & Hf1 & Ho1).
  { case_decide as Ha; [by exists olt, [], toks; split_and!; [done|done|by apply moved_nil]|].
    destruct (place_added_spec (set_iter added) (set_iter added) 0 per tier toks olt)
      as (o1 & pl & rest & -> & Et & Hw1 & Hf1 & Ho1);
      [done|done|by apply Hnil|by apply Hnil|done|done|].
    exists o1, pl, rest. do 2 (split; [done|]). split_and!; [done|done|].
    intros tok Hin%Ho1%elem_of_set_iter. apply elem_of_set_iter. set_solver. }
  assert (in_range rest) as Hr2.
  { destruct Hr as [Hnd Hr]. rewrite Et in Hnd, Hr. split; [by apply NoDup_app in Hnd as (_ & _ & ?)|].
    intros tok Ht. apply Hr, elem_of_app. by right. }
  destruct (place_rest_spec total total tier rest o1) as (o2 & E2 & Hw2 & Hf2 & Ho2);
    [done|done|by apply Hnil|done|done|].
  exists o1, rest, o2. split; [done|]. split; [done|]. rewrite Et. split_and!; [done| |].
  - intros row tok idx Ht Hout. rewrite Hf2, Hf1; try done; set_solver.
  - intros tok [Hin|Hin]%elem_of_app; [|by apply Ho2].
    destruct (decide (tok ∈ rest)); [by apply Ho2|]. unfold owner. rewrite Hf2; [by apply Ho1| |by auto].
    destruct Hr as [_ Hr]. rewrite Et in Hr. apply Hr, elem_of_app. by left.
Qed.

(** Disks that stay keep every token they own. *)
Lemma owned_kept base added removed tier olt o2 d : request base added removed tier olt →
  moved tier (set_iter (removed_tokens removed olt)) (set_iter ((base ∪ added) ∖ removed)) olt o2 →
  d ∈ base ∖ removed → getOwnedSmTokens d o2 = ∅ → getOwnedSmTokens d olt = ∅.
Proof.
  intros Hq (_ & Hf & _) Hd He. apply set_eq. intros tok. split; [|set_solver]. intros Ht.
  assert (d ≠ SM_INVALID_DISK_ID) as Hv by (intros ->; apply (req_valid _ _ _ _ _ Hq); set_solver).
  enough (tok ∈ getOwnedSmTokens d o2) by (by rewrite He in *).
  apply elem_of_owned in Ht as [Hr Ho]; [|done]. apply elem_of_owned; [done|]. split; [done|].
  assert (∀ tr, owner tr tok olt = d → owner tr tok o2 = d) as Hkeep; [|destruct Ho; auto].
  intros tr E. unfold owner. rewrite Hf; [done|lia|].
  destruct (decide (row_of tr = row_of tier)) as [Er|]; [|by left]. right. right.
  intros Hin%elem_of_set_iter. apply (removed_tokens_tier _ _ _ _ _ _ Hq) in Hin as [_ Hin].
  unfold owner in Hin, E. rewrite <-Er, E in Hin. set_solver.
Qed.

(** A token that is full after the first two phases was full before. *)
Lemma full_before base added removed tier olt o2 tok : request base added removed tier olt → 0 ≤ tok →
  moved tier (set_iter (removed_tokens removed olt)) (set_iter ((base ∪ added) ∖ removed)) olt o2 →
  full_token tier tok o2 → full_token tier tok olt.
Proof.
  intros Hq Ht (_ & Hf & _) Hfull k Hk. specialize (Hfull k Hk).
  destruct (decide (k = DEFAULT_DISKIDX ∧ tok ∈ removed_tokens removed olt)) as [[-> Hin]|Hout].
  - apply (removed_tokens_tier _ _ _ _ _ _ Hq) in Hin as [_ Hin]. fold (owner tier tok olt). intros E. rewrite E in Hin.
    apply (req_valid _ _ _ _ _ Hq). set_solver.
  - rewrite Hf in Hfull; [done|done|]. rewrite elem_of_set_iter. destruct (decide (k = DEFAULT_DISKIDX)); tauto.
Qed.

(** The last phase: only added disks become owners. *)
Lemma rebalance_phase (added cand : gset Z) per tier o2 : wf o2 → tier ≠ maxTier →
  Z.of_nat (size added) < 2 ^ 32 → (∀ tok, tok ∈ cand → 0 ≤ tok < SMTOKEN_COUNT) →
  match (if decide (added = ∅) then Ret o2 else rebalance
    (S (length (set_iter cand) + length (set_iter added))) (set_iter added) (set_iter added) 0 per tier
    (set_iter cand) o2) with
  | Ret o3 => wf o3 ∧ ∀ tok, 0 ≤ tok → owner tier tok o3 = owner tier tok o2 ∨ owner tier tok o3 ∈ added
  | Fault f => f = Undefined ∧ added ≠ ∅ ∧ ∃ tok, 0 ≤ tok < SMTOKEN_COUNT ∧ full_token tier tok o2
  end.
Proof.
  intros Hw2 Hm Hc Hcand.
  case_decide as Ha; [split; auto|].
  assert (set_iter added ≠ []) as Hnil.
  { intros E. apply set_choose_L in Ha as [x Hx]. apply elem_of_set_iter in Hx. rewrite E in Hx.
    by apply elem_of_nil in Hx. }
  pose proof (rebalance_spec (S (length (set_iter cand) + length (set_iter added))) (set_iter added)
    (set_iter added) 0 per tier (set_iter cand) o2 Hw2 Hm Hnil Hnil (reflexivity _)) as Hs.
  assert (in_range (set_iter cand)) as Hr.
  { split; [apply NoDup_set_iter|]. intros tok Ht%elem_of_set_iter. by apply Hcand. }
  specialize (Hs Hr ltac:(by destruct (set_iter added); [|simpl; lia]) ltac:(by rewrite length_set_iter) ltac:(lia)).
  destruct (rebalance _ _ _ _ _ _ _ _) as [o3|f].
  - destruct Hs as [Hw3 Ho3]. split; [done|]. intros tok Ht. destruct (Ho3 tok Ht) as [?|?%elem_of_set_iter]; auto.
  - destruct Hs as (-> & tok & Htok%elem_of_set_iter & Hft). split; [done|]. split; [done|]. exists tok. auto.
Qed.

(** C18. [recompute] after a change of disks, for a request as the superblock
    makes it ([request]: valid disk ids, no disk both added and removed, the
    removed disks own tokens in this tier only).  When it succeeds no token of
    the tier is owned by a removed disk, and tokens that had a disk of the node
    still have one.  It fails with [ERR_SM_NO_DISK] and an untouched table
    exactly when no disk is left.  It always ends, and it goes wrong only when
    disks are added and one of three things holds: no disk stays, a disk that
    stays owns no token, or all [MAX_HOST_DISKS] cells of a token of the tier
    are taken, where [addDiskId] reads past the end of the array. *)
Theorem recompute_spec (avail : Z → Z) (rand : nat → nat → nat) (base added removed : gset Z)
    (tier : DataTier) (olt : t) (err : fds_errno) :
  request base added removed tier olt → (∀ k m, (0 < m)%nat → (rand k m < m)%nat) →
  added ≠ ∅ ∨ removed ≠ ∅ →
  match recompute avail rand base added removed tier olt err with
  | Ret (olt', true, e) => e = err ∧ ¬ (base ∪ added ⊆ removed) ∧ wf olt' ∧ ∀ tok, 0 ≤ tok < SMTOKEN_COUNT →
      owner tier tok olt' ∉ removed ∧
      (owner tier tok olt ∈ base ∪ added → owner tier tok olt' ∈ (base ∪ added) ∖ removed)
  | Ret (olt', false, e) => olt' = olt ∧ e = ERR_SM_NO_DISK ∧ base ∪ added ⊆ removed
  | Fault f => f = Undefined ∧ added ≠ ∅ ∧ ¬ (base ∪ added ⊆ removed) ∧
      (base ⊆ removed ∨ (∃ d, d ∈ base ∖ removed ∧ getOwnedSmTokens d olt = ∅) ∨
       ∃ tok, 0 ≤ tok < SMTOKEN_COUNT ∧ full_token tier tok olt)
  end.
Proof.
  intros Hq Hrand Hch. pose proof Hq as [Hwf Hm Hb Hv Hc Hdis Hoth]. unfold recompute.
  rewrite fds_verify_true, bind_Ret by done. rewrite decide_False by tauto.
  case_decide as Htot; [split_and!; [done|done|set_solver]|].
  assert (¬ (base ∪ added ⊆ removed)) as Hleft by set_solver.
  set (per := if decide (_ = 0) then 1 else _).
  destruct (phases_spec _ _ _ _ _ per Hq Htot) as (o1 & rest & o2 & -> & E2 & Hmv).
  rewrite bind_Ret, E2, bind_Ret. pose proof Hmv as (Hw2 & Hf2 & Ho2).
  pose proof (draw_tokens_spec rand (Z.to_nat (per * Z.of_nat (size added))) (disk_info avail (base ∖ removed))
    (disk_info avail (base ∖ removed)) ∅ o2 Hrand) as Hdraw.
  assert (∀ d, d ∈ disk_info avail (base ∖ removed) ↔ d ∈ base ∖ removed) as Hinfo.
  { intros d. unfold disk_info. by rewrite merge_sort_Permutation, elem_of_elements. }
  unfold getTokensForNewDisks. destruct (draw_tokens _ _ _ _ _ _) as [cand|f].
  2:{ destruct Hdraw as (-> & Hn & Hor); [set_solver|done|done|set_solver|]. simpl. split; [done|]. split.
      { intros ->. rewrite size_empty, Z.mul_0_r in Hn. done. }
      split; [done|].
      destruct Hor as [Hnil|(d & Hd%Hinfo & He)]; [left|right; left; exists d; split; [done|by eapply owned_kept]].
      rewrite Hnil in Hinfo. intros d Hd. destruct (decide (d ∈ removed)); [done|].
      by destruct (not_elem_of_nil d); apply Hinfo, elem_of_difference. }
  assert (∀ tok, tok ∈ cand → 0 ≤ tok < SMTOKEN_COUNT) as Hcand by (apply Hdraw; set_solver).
  rewrite bind_Ret.
  pose proof (rebalance_phase added cand per tier o2 Hw2 Hm Hc Hcand) as Hph.
  match type of Hph with match ?m with _ => _ end => destruct m as [o3|f] end.
  2:{ destruct Hph as (-> & Ha & tok & Ht & Hft). simpl. split_and!; [done..|]. right. right. exists tok. split; [done|].
      by eapply full_before; [|lia|..]. }
  destruct Hph as [Hw3 Ho3]. rewrite bind_Ret. split_and!; [done|done|done|]. intros tok Ht.
  destruct (Ho3 tok) as [->|Hin]; [lia| |set_solver].
  destruct (decide (tok ∈ removed_tokens removed olt)) as [Hin|Hout].
  - apply elem_of_set_iter, Ho2, elem_of_set_iter in Hin. set_solver.
  - unfold owner at 1 3. rewrite Hf2; [|lia|rewrite elem_of_set_iter; tauto].
    change (cell (row_of tier) tok DEFAULT_DISKIDX olt) with (owner tier tok olt).
    rewrite (removed_tokens_tier _ _ _ _ _ _ Hq) in Hout. set_solver.
Qed.

(** Replacing every disk of a tier at once is undefined: no disk that
    stays can give tokens to the new ones, and the code reads past the end of
    an empty set. *)
Theorem recompute_replace_all (avail : Z → Z) (rand : nat → nat → nat) (base added : gset Z)
    (tier : DataTier) (olt : t) (err : fds_errno) :
  request base added base tier olt → added ≠ ∅ →
  recompute avail rand base added base tier olt err = Fault Undefined.
Proof.
  intros Hq Ha. pose proof Hq as [Hwf Hm Hb Hv Hc Hdis Hoth]. unfold recompute.
  rewrite fds_verify_true, bind_Ret by done. rewrite decide_False by tauto.
  assert ((base ∪ added) ∖ base ≠ ∅) as Htot by set_solver.
  rewrite decide_False by done. set (per := if decide (_ = 0) then 1 else _).
  destruct (phases_spec _ _ _ _ _ per Hq Htot) as (o1 & rest & o2 & -> & E2 & Hmv).
  rewrite bind_Ret, E2, bind_Ret. unfold getTokensForNewDisks.
  replace (base ∖ base) with (∅ : gset Z) by set_solver.
  assert (0 < per) as Hper.
  { unfold per, SMTOKEN_COUNT. case_decide as Hz; [lia|].
    pose proof (Z.div_pos 256 (Z.of_nat (size ((base ∪ added) ∖ base)))). 
    assert (size ((base ∪ added) ∖ base) ≠ 0%nat); [by intros E%size_empty_inv%leibniz_equiv|]. lia. }
  assert (size added ≠ 0%nat) as Hsz by (by intros E%size_empty_inv%leibniz_equiv).
  destruct (Z.to_nat (per * Z.of_nat (size added))) as [|n] eqn:En; [nia|]. done.
Qed.

Lemma compute_balanced_witness :
  ∃ olt', compute {[ 1; 2; 3 ]} {[ 4 ]} make = Ret olt' ∧
    validate {[ 1; 2; 3 ]} diskTier olt' = Ret ERR_OK ∧ (85 ≤ owned_count diskTier 2 olt' ≤ 86)%nat.
Proof.
  destruct (compute_balanced {[ 1; 2; 3 ]} {[ 4 ]} make make_wf) as (olt' & E & _ & H).
  exists olt'. split; [exact E|].
  destruct (H diskTier {[ 1; 2; 3 ]}) as [Hv Hb].
  - left. reflexivity.
  - vm_compute. lia.
  - apply (bool_decide_unpack _). vm_compute. exact I.
  - split; [exact Hv|]. apply (Hb 2).
    apply (bool_decide_unpack _). vm_compute. exact I.
Defined.

Lemma demo_request base added removed :
  base ≠ ∅ → SM_INVALID_DISK_ID ∉ base ∪ added ∪ removed → 3 ∉ removed →
  Z.of_nat (size added) < 2 ^ 32 → added ## removed → request base added removed diskTier demo.
Proof.
  intros Hb Hv H3 Hs Hd. split; try done; [apply demo_placement_wf|]. intros other tok Ho Ht.
  unfold owner. rewrite demo_cell by done. destruct other; [done| |]; simpl; repeat case_decide; set_solver.
Qed.

Lemma recompute_spec_witness :
  ∃ olt', recompute (λ _, 0) (λ _ _, 0%nat) {[ 1; 2 ]} ∅ {[ 2 ]} diskTier demo ERR_OK
          = Ret (olt', true, ERR_OK) ∧ owner diskTier 5 olt' = 1.
Proof.
  pose proof (recompute_spec (λ _, 0) (λ _ _, 0%nat) {[ 1; 2 ]} ∅ {[ 2 ]} diskTier demo ERR_OK) as H.
  destruct (recompute _ _ _ _ _ _ _ _) as [[[olt' []] e]|f].
  - destruct H as (-> & _ & _ & H).
    + apply demo_request; [set_solver|set_solver|set_solver|vm_compute; reflexivity|set_solver].
    + intros k m Hm. exact Hm.
    + right. set_solver.
    + exists olt'. split; [reflexivity|]. destruct (H 5) as [_ H5]; [unfold SMTOKEN_COUNT; lia|].
      assert (owner diskTier 5 demo = 2) as E by (vm_compute; reflexivity).
      rewrite E in H5. specialize (H5 ltac:(set_solver)). set_solver.
  - destruct H as (_ & _ & H); [|intros k m Hm; exact Hm|right; set_solver|].
    + apply demo_request; [set_solver|set_solver|set_solver|vm_compute; reflexivity|set_solver].
    + exfalso. assert (1 ∈ ({[ 2 ]} : gset Z)) as H1 by (apply H; set_solver).
      apply elem_of_singleton in H1. discriminate.
  - destruct H as (_ & H & _); [|intros k m Hm; exact Hm|right; set_solver|by destruct H].
    apply demo_request; [set_solver|set_solver|set_solver|vm_compute; reflexivity|set_solver].
Defined.

Lemma recompute_replace_all_witness :
  recompute (λ _, 0) (λ _ _, 0%nat) {[ 2 ]} {[ 7 ]} {[ 2 ]} diskTier demo ERR_OK = Fault Undefined.
Proof.
  apply recompute_replace_all.
  - apply demo_request; [set_solver|set_solver|set_solver|vm_compute; reflexivity|set_solver].
  - set_solver.
Defined.

End SmTokenPlacement.
