(* ===== verification/BlockTask.v ===== *)
(** * Block device tasks

    Models [BlockTask] (src/source/access-mgr/include/connector/BlockTask.h,
    src/source/access-mgr/amlib/BlockTask.cpp): one read or write of a block
    device, its buffers, and the offset and length arithmetic that maps it to
    whole objects of the blob behind the device.  A buffer is the list of its
    bytes; a null [shared_ptr] is [None].  The buffers are never changed in
    place, so their sharing is not observable. *)

From S2P Require Import Prelude.
Open Scope Z_scope.

Inductive ErrorCode : Set :=
| OK
| INTERNAL_SERVER_ERROR
| MISSING_RESOURCE
| BAD_REQUEST
| RESOURCE_ALREADY_EXISTS
| RESOURCE_NOT_EMPTY
| SERVICE_NOT_READY
| SERVICE_SHUTTING_DOWN
| TIMEOUT.

#[export] Instance ErrorCode_eq_dec : EqDecision ErrorCode.
Proof. solve_decision. Defined.

Notation buffer := (list Z).
Definition blen (b : buffer) : Z := Z.of_nat (length b).
Definition zeros (n : Z) : buffer := replicate (Z.to_nat n) 0.

(** [std::string(data + pos, n)]: the bytes must be there. *)
Definition string_of (b : buffer) (pos n : Z) : res buffer :=
  if decide (0 ≤ pos ∧ 0 ≤ n ∧ pos + n ≤ blen b) then Ret (take (Z.to_nat n) (drop (Z.to_nat pos) b))
  else Fault Undefined.

(** [std::string(str, pos, n)]: throws past the end, and takes what is left. *)
Definition substr (b : buffer) (pos n : Z) : res buffer :=
  if decide (pos > blen b) then Fault OutOfRange
  else Ret (take (Z.to_nat n) (drop (Z.to_nat pos) b)).

(** [str.replace(pos, n, s)] *)
Definition replace (b : buffer) (pos n : Z) (s : buffer) : res buffer :=
  if decide (pos > blen b) then Fault OutOfRange
  else Ret (take (Z.to_nat pos) b ++ s ++ drop (Z.to_nat (pos + n)) b).

Definition umod (a b : Z) : res Z := if decide (b = 0) then Fault Undefined else Ret (a `mod` b).

Module BlockTask.

Inductive BlockOp := OTHER | READ | WRITE.
#[export] Instance BlockOp_eq_dec : EqDecision BlockOp.
Proof. solve_decision. Defined.

(** Tasks refer to each other by their handles. *)
Record t := Make {
  handle : Z;
  operation : BlockOp;
  doneCount : Z;
  objCount : Z;
  chained_responses : gmap Z (list Z);
  opError : ErrorCode;
  bufVec : list (option buffer);
  offVec : list Z;
  offset : Z;
  length : Z;
  maxObjectSizeInBytes : Z;
}.

Definition make (hdl : Z) : t := Make hdl OTHER 0 1 ∅ OK [] [] 0 0 0.

Definition setRead (off bytes : Z) (k : t) : t :=
  Make (handle k) READ (doneCount k) (objCount k) (chained_responses k) (opError k) (bufVec k)
    (offVec k) off bytes (maxObjectSizeInBytes k).
Definition setWrite (off bytes : Z) (k : t) : t :=
  Make (handle k) WRITE (doneCount k) (objCount k) (chained_responses k) (opError k) (bufVec k)
    (offVec k) off bytes (maxObjectSizeInBytes k).
Definition isRead (k : t) : bool := bool_decide (operation k = READ).
Definition isWrite (k : t) : bool := bool_decide (operation k = WRITE).
Definition setError (e : ErrorCode) (k : t) : t :=
  Make (handle k) (operation k) (doneCount k) (objCount k) (chained_responses k) e (bufVec k)
    (offVec k) (offset k) (length k) (maxObjectSizeInBytes k).
Definition setObjectCount (count : Z) (k : t) : t :=
  Make (handle k) (operation k) (doneCount k) count (chained_responses k) (opError k) (bufVec k)
    (offVec k) (offset k) (length k) (maxObjectSizeInBytes k).
Definition setMaxObjectSize (size : Z) (k : t) : t :=
  Make (handle k) (operation k) (doneCount k) (objCount k) (chained_responses k) (opError k) (bufVec k)
    (offVec k) (offset k) (length k) size.
Definition with_bufs (bufs : list (option buffer)) (k : t) : t :=
  Make (handle k) (operation k) (doneCount k) (objCount k) (chained_responses k) (opError k) bufs
    (offVec k) (offset k) (length k) (maxObjectSizeInBytes k).
Definition with_chains (c : gmap Z (list Z)) (k : t) : t :=
  Make (handle k) (operation k) (doneCount k) (objCount k) c (opError k) (bufVec k)
    (offVec k) (offset k) (length k) (maxObjectSizeInBytes k).

(** [offVec[seqId]] and [bufVec[seqId]]: undefined out of range. *)
Definition getOffset_seq (seqId : Z) (k : t) : res Z :=
  match offVec k !! Z.to_nat seqId with Some o => Ret o | None => Fault Undefined end.
Definition getBuffer (seqId : Z) (k : t) : res (option buffer) :=
  match bufVec k !! Z.to_nat seqId with Some b => Ret b | None => Fault Undefined end.

Definition getNextReadBuffer (context : Z) (k : t) : option buffer * Z :=
  if decide (context >= Z.of_nat (List.length (bufVec k))) then (None, context)
  else (default None (bufVec k !! Z.to_nat context), u32 (context + 1)).

Definition keepBufferForWrite (objectOff : Z) (buf : option buffer) (k : t) : t :=
  Make (handle k) (operation k) (doneCount k) (objCount k) (chained_responses k) (opError k)
    (bufVec k ++ [buf]) (offVec k ++ [objectOff]) (offset k) (length k) (maxObjectSizeInBytes k).

Definition handleWriteResponse (err : ErrorCode) (k : t) : t * bool :=
  let k := if decide (err ≠ OK) then setError err k else k in
  let doneCnt := u32 (doneCount k + 1) in
  (Make (handle k) (operation k) doneCnt (objCount k) (chained_responses k) (opError k) (bufVec k)
     (offVec k) (offset k) (length k) (maxObjectSizeInBytes k),
   bool_decide (doneCnt = objCount k)).

(** *** Reads *)
(** Null and empty buffers are holes: they become zeros and count for a whole
    object. *)
Definition fill_holes (max : Z) (empty_buffer : buffer) (buffers : list (option buffer)) (len : Z)
    : list buffer * Z :=
  foldl (λ '(bufs, len) b,
    match b with
    | None | Some [] => (bufs ++ [empty_buffer], u32 (len + max))
    | Some b => (bufs ++ [b], len)
    end) ([], len) buffers.

(** [for (zero_data = ..; 0 < zero_data; zero_data -= max)] *)
Fixpoint pad (fuel : nat) (max : Z) (empty_buffer : buffer) (zero_data : Z) (bufs : list buffer)
    : res (list buffer) :=
  match fuel with
  | O => Fault OutOfFuel
  | S fuel => if decide (0 < zero_data) then pad fuel max empty_buffer (zero_data - max) (bufs ++ [empty_buffer])
              else Ret bufs
  end.

(** [bufVec.front() = ..] *)
Definition trim_front (pos n : Z) (bufs : list buffer) : res (list buffer) :=
  match bufs with
  | [] => Fault Undefined
  | b :: rest => b ← string_of b pos n; Ret (b :: rest)
  end.

(** [bufVec.back() = ..] *)
Definition trim_back (n : Z) (bufs : list buffer) : res (list buffer) :=
  match last bufs with
  | None => Fault Undefined
  | Some b => b ← string_of b 0 n; Ret (take (List.length bufs - 1) bufs ++ [b])
  end.

Definition handleReadResponse (fuel : nat) (buffers : list (option buffer)) (empty_buffer : buffer)
    (len : Z) (k : t) : res t :=
  let max := maxObjectSizeInBytes k in
  let '(bufs, len) := fill_holes max empty_buffer buffers len in
  iOff ← umod (offset k) max;
  let iOff := u32 iOff in
  let wanted := u32 (length k + iOff) in
  bufs ← (if decide (len < wanted) then pad fuel max empty_buffer (wanted - len) bufs else Ret bufs);
  let firstObjLen := Z.min (length k) (u32 (max - iOff)) in
  bufs ← (if decide (max ≠ firstObjLen) then trim_front iOff firstObjLen bufs else Ret bufs);
  bufs ← (if decide (length k > firstObjLen) then
            let n := Z.of_nat (List.length bufs) in
            let padding := if decide (2 < n) then u64 ((n - 2) * max) else 0 in
            let lastObjLen := u64 (length k - firstObjLen - padding) in
            if decide (0 < lastObjLen ∧ max ≠ lastObjLen) then trim_back lastObjLen bufs
            else Ret bufs
          else Ret bufs);
  Ret (with_bufs (Some <$> bufs) k).

(** *** Read-modify-write *)
Definition handleRMWResponse (retBuf : option buffer) (seqId : Z) (err : ErrorCode) (k : t)
    : res (t * (ErrorCode * option buffer)) :=
  if decide (err ≠ OK ∧ err ≠ MISSING_RESOURCE) then Ret (setError err k, (err, None)) else
  iOff ← (if decide (seqId = 0) then umod (offset k) (maxObjectSizeInBytes k) else Ret 0);
  let iOff := u32 iOff in
  w ← getBuffer seqId k;
  match w with
  | None => Fault NullDeref
  | Some writeBytes =>
      let base := if decide (err = MISSING_RESOURCE) then zeros (maxObjectSizeInBytes k)
                  else match retBuf with
                       | None | Some [] => zeros (maxObjectSizeInBytes k)
                       | Some b => b
                       end in
      faux ← replace base iOff (blen writeBytes) writeBytes;
      Ret (with_bufs (<[Z.to_nat seqId := Some faux]> (bufVec k)) k, (OK, Some faux))
  end.

Definition getChain (seqId : Z) (k : t) : t * list Z :=
  match chained_responses k !! seqId with
  | Some c => (with_chains (<[seqId := []]> (chained_responses k)) k, c)
  | None => (k, [])
  end.
Definition setChain (seqId : Z) (chain : list Z) (k : t) : t :=
  with_chains (<[seqId := chain]> (chained_responses k)) k.


(** ** Reading *)
(** What a hole in the blob reads as. *)
Definition filled (max : Z) (b : option buffer) : buffer :=
  match b with None | Some [] => zeros max | Some b => b end.

Definition hole (b : option buffer) : bool := match b with None | Some [] => true | _ => false end.

Lemma length_zeros n : 0 ≤ n → blen (zeros n) = n.
Proof. intros Hn. unfold blen, zeros. rewrite length_replicate. lia. Qed.

Lemma fill_holes_spec max buffers acc len : 0 ≤ max → 0 ≤ len →
  len + max * Z.of_nat (List.length (filter hole buffers)) < 2 ^ 32 →
  foldl (λ '(bufs, len) b,
    match b with
    | None | Some [] => (bufs ++ [zeros max], u32 (len + max))
    | Some b => (bufs ++ [b], len)
    end) (acc, len) buffers =
  (acc ++ (filled max <$> buffers), len + max * Z.of_nat (List.length (filter hole buffers))).
Proof.
  intros Hm. revert acc len. induction buffers as [|b buffers IH]; intros acc len Hl Hb.
  { simpl in *. rewrite app_nil_r. f_equal. lia. }
  assert (acc ++ (filled max <$> b :: buffers) = (acc ++ [filled max b]) ++ (filled max <$> buffers)) as ->
    by (by rewrite <-(assoc (++))).
  assert (List.length (filter hole (b :: buffers)) =
    (if hole b then 1 else 0) + List.length (filter hole buffers))%nat as Hf
    by (rewrite filter_cons; destruct (hole b); done).
  rewrite Hf in *. clear Hf. destruct b as [[|x b]|]; simpl in *.
  - rewrite u32_small by lia. rewrite IH by lia. f_equal. lia.
  - rewrite IH by lia. f_equal.
  - rewrite u32_small by lia. rewrite IH by lia. f_equal. lia.
Qed.

Lemma pad_spec fuel max e (m : nat) z bufs : 0 < max → (m < fuel)%nat →
  (Z.of_nat m - 1) * max < z ≤ Z.of_nat m * max →
  pad fuel max e z bufs = Ret (bufs ++ replicate m e).
Proof.
  intros Hm. revert m z bufs. induction fuel as [|fuel IH]; intros m z bufs Hf Hz; [lia|]. cbn [pad].
  destruct m as [|m].
  { rewrite decide_False by lia. by rewrite app_nil_r. }
  rewrite decide_True by nia. rewrite (IH m) by (nia || lia).
  rewrite <-(assoc (++)). done.
Qed.

(** The request of a task: where it starts in its first object, and how many
    objects it touches. *)
Definition iOff (k : t) : Z := offset k `mod` maxObjectSizeInBytes k.
Definition spanned (k : t) : Z := (iOff k + length k + maxObjectSizeInBytes k - 1) / maxObjectSizeInBytes k.

Record sane (k : t) : Prop := {
  sane_max : 0 < maxObjectSizeInBytes k;
  sane_length : 0 < length k;
  sane_offset : 0 ≤ offset k;
  sane_fits : length k + 2 * maxObjectSizeInBytes k < 2 ^ 32;
}.

Lemma iOff_bound k : sane k → 0 ≤ iOff k < maxObjectSizeInBytes k.
Proof. intros [Hm _ _ _]. by apply Z.mod_pos_bound. Qed.

Lemma spanned_bounds k : sane k →
  (spanned k - 1) * maxObjectSizeInBytes k < iOff k + length k ≤ spanned k * maxObjectSizeInBytes k ∧
  1 ≤ spanned k.
Proof.
  intros Hs. pose proof (iOff_bound k Hs). destruct Hs as [Hm Hl Ho Hf]. unfold spanned.
  pose proof (div_bounds (iOff k + length k + maxObjectSizeInBytes k - 1) (maxObjectSizeInBytes k) Hm).
  set (q := _ / _) in *. nia.
Qed.

(** Cutting a list of whole objects down to the bytes of the request. *)
Lemma concat_trim (b0 bN : buffer) (mid : list buffer) (i n l : nat) :
  (i ≤ List.length b0)%nat → (l ≤ List.length bN)%nat →
  n = (List.length b0 - i + List.length (concat mid) + l)%nat →
  drop i b0 ++ concat mid ++ take l bN = take n (drop i (concat (b0 :: mid ++ [bN]))).
Proof.
  intros Hi Hl ->. cbn [concat]. rewrite concat_app. cbn [concat]. rewrite app_nil_r.
  rewrite drop_app_le by done.
  rewrite take_app_ge by (rewrite length_drop; lia). f_equal. rewrite length_drop.
  replace (List.length b0 - i + List.length (concat mid) + l - (List.length b0 - i))%nat
    with (List.length (concat mid) + l)%nat by lia.
  by rewrite take_app_add.
Qed.

Lemma length_concat_full (max : nat) (bufs : list buffer) :
  Forall (λ b : buffer, List.length b = max) bufs → List.length (concat bufs) = (List.length bufs * max)%nat.
Proof. induction 1 as [|b bufs Hb _ IH]; simpl; [done|]. rewrite length_app. lia. Qed.

(** The trimming steps of [handleReadResponse] over whole objects. *)
Definition trim (k : t) (bufs : list buffer) : res (list buffer) :=
  let max := maxObjectSizeInBytes k in
  let firstObjLen := Z.min (length k) (u32 (max - iOff k)) in
  bufs ← (if decide (max ≠ firstObjLen) then trim_front (iOff k) firstObjLen bufs else Ret bufs);
  (if decide (length k > firstObjLen) then
     let n := Z.of_nat (List.length bufs) in
     let padding := if decide (2 < n) then u64 ((n - 2) * max) else 0 in
     let lastObjLen := u64 (length k - firstObjLen - padding) in
     if decide (0 < lastObjLen ∧ max ≠ lastObjLen) then trim_back lastObjLen bufs else Ret bufs
   else Ret bufs).

Lemma string_of_ok (b : buffer) pos n : 0 ≤ pos → 0 ≤ n → pos + n ≤ blen b →
  string_of b pos n = Ret (take (Z.to_nat n) (drop (Z.to_nat pos) b)).
Proof. intros. unfold string_of. by rewrite decide_True by lia. Qed.

(** One object. *)
Lemma trim_one k b : sane k → spanned k = 1 → blen b = maxObjectSizeInBytes k →
  trim k [b] = Ret [take (Z.to_nat (length k)) (drop (Z.to_nat (iOff k)) b)].
Proof.
  intros Hs H1 Hb. pose proof (iOff_bound k Hs). pose proof (spanned_bounds k Hs) as Hsp.
  rewrite H1 in Hsp. destruct Hs as [Hm Hl Ho Hf]. unfold trim. rewrite u32_small by lia. rewrite Z.min_l by lia.
  destruct (decide (maxObjectSizeInBytes k ≠ length k)) as [Hne|Hne].
  - unfold trim_front. rewrite string_of_ok by lia. rewrite !bind_Ret. by rewrite decide_False by lia.
  - apply dec_stable in Hne. rewrite bind_Ret, decide_False by lia. replace (iOff k) with 0 by lia.
    change (drop (Z.to_nat 0) b) with b.
    rewrite firstn_all2; [done|]. unfold blen in Hb. lia.
Qed.

Lemma trim_back_ok (b : buffer) (bufs : list buffer) n : 0 ≤ n → n ≤ blen b →
  trim_back n (bufs ++ [b]) = Ret (bufs ++ [take (Z.to_nat n) b]).
Proof.
  intros Hn Hb. unfold trim_back. rewrite last_snoc, string_of_ok by lia. simpl.
  rewrite length_app. simpl. replace (List.length bufs + 1 - 1)%nat with (List.length bufs) by lia.
  by rewrite take_app_length.
Qed.

(** Two objects or more: the first loses its head, the last its tail. *)
Lemma trim_many k b0 mid bN : sane k → spanned k = Z.of_nat (List.length mid) + 2 →
  blen b0 = maxObjectSizeInBytes k → blen bN = maxObjectSizeInBytes k →
  trim k (b0 :: mid ++ [bN]) =
  Ret (drop (Z.to_nat (iOff k)) b0 :: mid ++
       [take (Z.to_nat (iOff k + length k - (spanned k - 1) * maxObjectSizeInBytes k)) bN]).
Proof.
  intros Hs Hsp H0 HN. pose proof (iOff_bound k Hs). pose proof (spanned_bounds k Hs) as [Hb _].
  destruct Hs as [Hm Hl Ho Hf]. unfold trim. rewrite u32_small by lia. rewrite Z.min_r by nia.
  assert ((if decide (maxObjectSizeInBytes k ≠ maxObjectSizeInBytes k - iOff k)
           then trim_front (iOff k) (maxObjectSizeInBytes k - iOff k) (b0 :: mid ++ [bN])
           else Ret (b0 :: mid ++ [bN])) = Ret (drop (Z.to_nat (iOff k)) b0 :: mid ++ [bN])) as ->.
  { case_decide.
    - unfold trim_front. rewrite string_of_ok by lia. rewrite bind_Ret. f_equal. f_equal.
      apply firstn_all2.
      rewrite length_drop. unfold blen in H0. lia.
    - by replace (iOff k) with 0 by lia. }
  rewrite bind_Ret. rewrite decide_True by nia.
  match goal with |- context [Z.of_nat (List.length ?x)] =>
    replace (Z.of_nat (List.length x)) with (spanned k)
      by (simpl; rewrite length_app; simpl; lia) end.
  cbv zeta.
  assert ((if decide (2 < spanned k) then u64 ((spanned k - 2) * maxObjectSizeInBytes k) else 0) =
    (spanned k - 2) * maxObjectSizeInBytes k) as ->.
  { case_decide; [|nia]. apply u64_small. unfold uint64_max. nia. }
  rewrite u64_small by (unfold uint64_max; nia).
  replace (length k - (maxObjectSizeInBytes k - iOff k) - (spanned k - 2) * maxObjectSizeInBytes k)
    with (iOff k + length k - (spanned k - 1) * maxObjectSizeInBytes k) by lia.
  set (r := iOff k + length k - _) in *.
  case_decide as Hr.
  - change (drop (Z.to_nat (iOff k)) b0 :: mid ++ [bN])
      with ((drop (Z.to_nat (iOff k)) b0 :: mid) ++ [bN]). by rewrite trim_back_ok by lia.
  - rewrite firstn_all2; [done|]. unfold blen in HN. lia.
Qed.

Lemma trim_spec k bufs : sane k → spanned k = Z.of_nat (List.length bufs) →
  Forall (λ b, blen b = maxObjectSizeInBytes k) bufs →
  ∃ bufs', trim k bufs = Ret bufs' ∧
    concat bufs' = take (Z.to_nat (length k)) (drop (Z.to_nat (iOff k)) (concat bufs)).
Proof.
  intros Hs Hsp Hf. pose proof (spanned_bounds k Hs) as [Hb H1]. pose proof (iOff_bound k Hs).
  pose proof Hs as [Hm Hl Ho _].
  destruct bufs as [|b0 bufs]; [simpl in *; lia|]. apply Forall_cons in Hf as [H0 Hf].
  destruct bufs as [|bN mid _] using rev_ind.
  - eexists. split; [by apply trim_one|]. simpl. by rewrite !app_nil_r.
  - apply Forall_app in Hf as [Hmid [HN _]%Forall_cons].
    simpl in Hsp. rewrite length_app in Hsp. simpl in Hsp.
    eexists. split; [apply trim_many; (done || lia)|].
    rewrite (concat_cons (drop _ _)), concat_app. cbn [concat]. rewrite app_nil_r.
    apply concat_trim; unfold blen in *; [lia|nia|].
    rewrite (length_concat_full (Z.to_nat (maxObjectSizeInBytes k)) mid); [nia|].
    eapply Forall_impl; [done|]. intros b Hbl. simpl in Hbl. lia.
Qed.

(** The buffers a read ends up with. *)
Lemma read_assembled (fuel : nat) (buffers : list (option buffer)) (len : Z) (k : t) :
  sane k → let max := maxObjectSizeInBytes k in
  Z.of_nat (List.length buffers) ≤ spanned k < Z.of_nat fuel →
  (∀ b, Some b ∈ buffers → b = [] ∨ blen b = max) →
  len = max * Z.of_nat (List.length (filter (λ b, negb (hole b)) buffers)) →
  ∃ bufs, handleReadResponse fuel buffers (zeros max) len k = Ret (with_bufs (Some <$> bufs) k) ∧
    concat bufs = take (Z.to_nat (length k)) (drop (Z.to_nat (iOff k))
      (concat ((filled max <$> buffers) ++
               replicate (Z.to_nat (spanned k) - List.length buffers) (zeros max)))).
Proof.
  intros Hs max Hn Hfull Hlen. pose proof (spanned_bounds k Hs) as [Hb H1]. pose proof (iOff_bound k Hs).
  pose proof Hs as [Hm Hl Ho Hfit].
  assert (List.length (filter hole buffers) + List.length (filter (λ b, negb (hole b)) buffers) =
          List.length buffers)%nat as Hcount.
  { clear. induction buffers as [|b l IH]; [done|]. rewrite !filter_cons. destruct (hole b); simpl in *; lia. }
  unfold handleReadResponse, fill_holes. fold max.
  rewrite fill_holes_spec by (unfold max in *; nia). cbn [app].
  replace (len + max * _) with (max * Z.of_nat (List.length buffers)) by nia.
  unfold umod. rewrite decide_False by (unfold max; lia).
  change (offset k `mod` max) with (iOff k). rewrite bind_Ret. cbv zeta.
  rewrite (u32_small (iOff k)) by (unfold max in *; lia).
  rewrite (u32_small (length k + iOff k)) by (unfold max in *; lia).
  set (m := (Z.to_nat (spanned k) - List.length buffers)%nat).
  assert ((if decide (max * Z.of_nat (List.length buffers) < length k + iOff k)
           then pad fuel max (zeros max) (length k + iOff k - max * Z.of_nat (List.length buffers))
                  (filled max <$> buffers)
           else Ret (filled max <$> buffers)) = Ret ((filled max <$> buffers) ++ replicate m (zeros max))) as ->.
  { case_decide as Hlt; [apply pad_spec; unfold m, max in *; nia|].
    replace m with 0%nat; [by rewrite app_nil_r|]. unfold m, max in *. nia. }
  rewrite bind_Ret.
  destruct (trim_spec k ((filled max <$> buffers) ++ replicate m (zeros max))) as (bufs & Htrim & Hc).
  - done.
  - rewrite length_app, length_fmap, length_replicate. unfold m. lia.
  - apply Forall_app. split.
    + apply Forall_fmap, Forall_forall. intros b Hin. simpl. destruct b as [[|x b]|]; simpl;
        [by apply length_zeros; lia| |by apply length_zeros; lia].
      by destruct (Hfull _ Hin).
    + apply Forall_replicate, length_zeros. lia.
  - exists bufs. split; [|done]. unfold trim in Htrim. fold max in Htrim.
    apply bind_Ret_inv in Htrim as (b1 & -> & Htrim). rewrite bind_Ret, Htrim. done.
Qed.

(** [handleReadResponse] returns exactly the requested bytes.  When the
    service answers with at most the objects the request spans, each of full
    size or a hole, and with the number of bytes it read, the buffers of the
    task afterwards spell the bytes from [offset] on for [length], with zeros
    for holes and for objects past the end. *)
Theorem handleReadResponse_spec (fuel : nat) (buffers : list (option buffer)) (len : Z) (k : t) :
  sane k → let max := maxObjectSizeInBytes k in
  Z.of_nat (List.length buffers) ≤ spanned k < Z.of_nat fuel →
  (∀ b, Some b ∈ buffers → b = [] ∨ blen b = max) →
  len = max * Z.of_nat (List.length (filter (λ b, negb (hole b)) buffers)) →
  ∃ bufs, handleReadResponse fuel buffers (zeros max) len k = Ret (with_bufs (Some <$> bufs) k) ∧
    concat bufs = take (Z.to_nat (length k)) (drop (Z.to_nat (iOff k))
      (concat ((filled max <$> buffers) ++
               replicate (Z.to_nat (spanned k) - List.length buffers) (zeros max)))).
Proof. apply read_assembled. Qed.

(** ** Read-modify-write *)
(** [w] written over [base] from position [pos] on. *)
Definition overlay (base w : buffer) (pos : nat) : buffer :=
  take pos base ++ w ++ drop (pos + List.length w) base.

Lemma length_overlay base w pos : (pos + List.length w ≤ List.length base)%nat →
  List.length (overlay base w pos) = List.length base.
Proof. intros H. unfold overlay. rewrite !length_app, length_take, length_drop. lia. Qed.

Lemma lookup_overlay base w pos j : (pos + List.length w ≤ List.length base)%nat →
  overlay base w pos !! j =
  if decide (pos ≤ j < pos + List.length w)%nat then w !! (j - pos)%nat else base !! j.
Proof.
  intros H. unfold overlay. assert (List.length (take pos base) = pos) as Ht by (rewrite length_take; lia).
  case_decide as Hj.
  - rewrite lookup_app_r, Ht by lia. by rewrite lookup_app_l by lia.
  - destruct (decide (j < pos)%nat).
    + rewrite lookup_app_l by lia. rewrite lookup_take. by rewrite decide_True.
    + rewrite lookup_app_r, Ht by lia. rewrite lookup_app_r by lia. rewrite lookup_drop. f_equal. lia.
Qed.

(** The object that is modified, and where the write of a sub-task starts in
    it. *)
Definition rmw_base (err : ErrorCode) (retBuf : option buffer) (k : t) : buffer :=
  if decide (err = MISSING_RESOURCE) then zeros (maxObjectSizeInBytes k)
  else filled (maxObjectSizeInBytes k) retBuf.
Definition rmw_start (seqId : Z) (k : t) : Z := if decide (seqId = 0) then iOff k else 0.

Lemma handleRMW_overlay retBuf seqId err k w : err = OK ∨ err = MISSING_RESOURCE →
  bufVec k !! Z.to_nat seqId = Some (Some w) → 0 < maxObjectSizeInBytes k < 2 ^ 32 →
  rmw_start seqId k ≤ blen (rmw_base err retBuf k) →
  let b := overlay (rmw_base err retBuf k) w (Z.to_nat (rmw_start seqId k)) in
  handleRMWResponse retBuf seqId err k =
  Ret (with_bufs (<[Z.to_nat seqId := Some b]> (bufVec k)) k, (OK, Some b)).
Proof.
  intros Herr Hw Hm Hfit b. unfold handleRMWResponse. rewrite decide_False by (destruct Herr; naive_solver).
  assert (0 ≤ rmw_start seqId k < 2 ^ 32) as Hst.
  { unfold rmw_start, iOff. pose proof (Z.mod_pos_bound (offset k) (maxObjectSizeInBytes k)). case_decide; lia. }
  assert ((if decide (seqId = 0) then umod (offset k) (maxObjectSizeInBytes k) else Ret 0) =
    Ret (rmw_start seqId k)) as ->.
  { unfold umod, rmw_start. case_decide; [|done]. by rewrite decide_False by lia. }
  rewrite bind_Ret, u32_small by lia. unfold getBuffer. rewrite Hw, bind_Ret. cbv zeta.
  change (if decide (err = MISSING_RESOURCE) then _ else _) with (rmw_base err retBuf k).
  unfold replace. rewrite decide_False by lia. rewrite bind_Ret.
  unfold b, overlay, blen. by rewrite Z2Nat.inj_add, Nat2Z.id by lia.
Qed.

(** A read-modify-write puts the bytes of the sub-task where they belong
    in the object it read, or in zeros when there was none: the new object has
    the size of the old one and differs from it only in those bytes, and the
    task keeps the new object for the next update of the chain. *)
Theorem handleRMWResponse_spec (retBuf : option buffer) (seqId : Z) (err : ErrorCode) (k : t) (w : buffer) :
  err = OK ∨ err = MISSING_RESOURCE → bufVec k !! Z.to_nat seqId = Some (Some w) →
  0 < maxObjectSizeInBytes k < 2 ^ 32 →
  rmw_start seqId k + blen w ≤ blen (rmw_base err retBuf k) →
  ∃ b, handleRMWResponse retBuf seqId err k =
         Ret (with_bufs (<[Z.to_nat seqId := Some b]> (bufVec k)) k, (OK, Some b)) ∧
    blen b = blen (rmw_base err retBuf k) ∧
    ∀ j, b !! j = if decide (rmw_start seqId k ≤ Z.of_nat j < rmw_start seqId k + blen w)
                  then w !! (j - Z.to_nat (rmw_start seqId k))%nat
                  else rmw_base err retBuf k !! j.
Proof.
  intros Herr Hw Hm Hfit. unfold blen in *.
  assert (0 ≤ rmw_start seqId k) as Hst.
  { unfold rmw_start, iOff. pose proof (Z.mod_pos_bound (offset k) (maxObjectSizeInBytes k)). case_decide; lia. }
  eexists. split; [apply handleRMW_overlay; try done; unfold blen; lia|].
  split; [f_equal; apply length_overlay; lia|]. intros j. rewrite lookup_overlay by lia.
  repeat case_decide; (done || lia).
Qed.

(** *** Examples: objects of four bytes *)
Definition demo_task : t :=
  with_bufs [Some [7; 8]] (setMaxObjectSize 4 (setWrite 5 2 (make 9))).

Lemma handleRMWResponse_spec_witness :
  ∃ b, handleRMWResponse (Some [1; 2; 3; 4]) 0 OK demo_task =
         Ret (with_bufs [Some b] demo_task, (OK, Some b)) ∧ blen b = 4 ∧ b !! 1%nat = Some 7.
Proof.
  destruct (handleRMWResponse_spec (Some [1; 2; 3; 4]) 0 OK demo_task [7; 8]) as (b & E & Hl & Hb).
  - left. reflexivity.
  - reflexivity.
  - simpl. lia.
  - vm_compute. discriminate.
  - exists b. split; [exact E|]. split; [exact Hl|]. rewrite Hb. vm_compute. reflexivity.
Defined.

Definition demo_read : t := setMaxObjectSize 4 (setRead 3 6 (make 9)).

Lemma handleReadResponse_spec_witness :
  ∃ bufs, handleReadResponse 8 [Some [1; 2; 3; 4]; None] (zeros 4) 4 demo_read =
            Ret (with_bufs (Some <$> bufs) demo_read) ∧ concat bufs = [4; 0; 0; 0; 0; 0].
Proof.
  destruct (handleReadResponse_spec 8 [Some [1; 2; 3; 4]; None] 4 demo_read) as (bufs & E & Hc).
  - split; vm_compute; (reflexivity || discriminate).
  - split; vm_compute; (reflexivity || discriminate).
  - intros b Hb. right. apply elem_of_cons in Hb as [[= ->]|Hb]; [reflexivity|].
    apply list_elem_of_singleton in Hb. discriminate.
  - reflexivity.
  - exists bufs. split; [exact E|]. rewrite Hc. vm_compute. reflexivity.
Defined.

End BlockTask.
