(* ===== verification/BlockOps.v ===== *)
(** * Block operations

    Models [SectorLockMap] and [BlockOperations]
    (src/source/access-mgr/include/connector/SectorLockMap.h,
    src/source/access-mgr/include/connector/BlockOperations.h and
    src/source/access-mgr/amlib/BlockOperations.cpp): reads and writes of a
    block device over whole objects, with read-modify-write for partial
    objects, one outstanding update per object, and queued updates rolled up
    into one.

    A [BlockTask*] is the handle of the task.  The tasks that the connector
    has handed over are in [tasks]; [respondTask] gives a task back, after
    which it may be gone, so a later use of it is undefined.  Calls to the
    asynchronous API and to the connector are recorded in [outs].  Handlers
    run one at a time.  The queue of a sector is a [boost::lockfree::spsc_queue],
    a library outside the repository: it is the class [SpscQueue]. *)

From stdpp Require Import strings.
From S2P Require Import Prelude.
From S2P Require Import BlockTask.
Open Scope Z_scope.

(** A bounded first-in first-out queue. *)
Class SpscQueue (E Q : Type) := {
  spsc_new : Q;
  spsc_push : E → Q → option Q;
  spsc_pop : Q → option (E * Q);
}.

Class SpscQueueLaws {E Q} (SQ : SpscQueue E Q) (capacity : nat) (contents : Q → list E) : Prop := {
  spsc_new_contents : contents spsc_new = [];
  spsc_push_contents e q :
    match spsc_push e q with
    | Some q' => (length (contents q) < capacity)%nat ∧ contents q' = contents q ++ [e]
    | None => (capacity ≤ length (contents q))%nat
    end;
  spsc_pop_contents q :
    match contents q with
    | [] => spsc_pop q = None
    | e :: l => ∃ q', spsc_pop q = Some (e, q') ∧ contents q' = l
    end;
}.

Module SectorLockMap.
Section SectorLockMap.
Context {E Q : Type} `{SQ : SpscQueue E Q}.

Inductive QueueResult := FirstEntry | AddedEntry | Failure.

Definition queue_update (k : Z) (e : E) (m : gmap Z Q) : gmap Z Q * QueueResult :=
  match m !! k with
  | Some q => match spsc_push e q with
              | Some q' => (<[k := q']> m, AddedEntry)
              | None => (m, Failure)
              end
  | None => (<[k := spsc_new]> m, FirstEntry)
  end.

Definition pop (k : Z) (and_delete : bool) (m : gmap Z Q) : gmap Z Q * option E :=
  match m !! k with
  | Some q => match spsc_pop q with
              | Some (e, q') => (<[k := q']> m, Some e)
              | None => (if and_delete then delete k m else m, None)
              end
  | None => (m, None)
  end.

End SectorLockMap.
End SectorLockMap.

Module BlockOperations.
Import SectorLockMap.

(** A request to the service carries a handle and a sequence number. *)
Notation request_id := (Z * Z)%type.

Inductive action :=
| AttachVolume (id : request_id) (volume : string)
| DetachVolume (volume : string)
| GetBlob (id : request_id) (len off : Z)
| UpdateBlobOnce (id : request_id) (buf : option buffer) (len off : Z)
| AttachResp (descriptor : option string)
| RespondTask (task : BlockTask.t)
| Terminate.

Section BlockOperations.
Context {Q : Type} `{SQ : SpscQueue request_id Q}.

(** [assoc_map] is shared by all connections. *)
Record t := Make {
  amAsyncDataApi : bool;
  volumeName : option string;
  maxObjectSizeInBytes : Z;
  blockResp : bool;
  shutting_down : bool;
  responses : gset Z;
  tasks : gmap Z BlockTask.t;
  sector_map : gmap Z Q;
  assoc_map : gmap string Z;
  outs : list action;
}.

Definition make (assoc : gmap string Z) : t := Make false None 0 true false ∅ ∅ ∅ assoc [].

Definition with_tasks (r : gset Z) (ts : gmap Z BlockTask.t) (b : t) : t :=
  Make (amAsyncDataApi b) (volumeName b) (maxObjectSizeInBytes b) (blockResp b) (shutting_down b)
    r ts (sector_map b) (assoc_map b) (outs b).
Definition with_sectors (m : gmap Z Q) (b : t) : t :=
  Make (amAsyncDataApi b) (volumeName b) (maxObjectSizeInBytes b) (blockResp b) (shutting_down b)
    (responses b) (tasks b) m (assoc_map b) (outs b).
Definition with_assoc (m : gmap string Z) (b : t) : t :=
  Make (amAsyncDataApi b) (volumeName b) (maxObjectSizeInBytes b) (blockResp b) (shutting_down b)
    (responses b) (tasks b) (sector_map b) m (outs b).
Definition with_object_size (size : Z) (b : t) : t :=
  Make (amAsyncDataApi b) (volumeName b) size (blockResp b) (shutting_down b)
    (responses b) (tasks b) (sector_map b) (assoc_map b) (outs b).
Definition emit (a : action) (b : t) : t :=
  Make (amAsyncDataApi b) (volumeName b) (maxObjectSizeInBytes b) (blockResp b) (shutting_down b)
    (responses b) (tasks b) (sector_map b) (assoc_map b) (outs b ++ [a]).

Definition set_task (h : Z) (k : BlockTask.t) (b : t) : t := with_tasks (responses b) (<[h := k]> (tasks b)) b.
Definition get_task (h : Z) (b : t) : res BlockTask.t :=
  match tasks b !! h with Some k => Ret k | None => Fault Undefined end.

(** A call of the service API. *)
Definition call (a : action) (b : t) : res t :=
  if amAsyncDataApi b then Ret (emit a b) else Fault NullDeref.

(** [responses.emplace(resp->getHandle(), resp)] *)
Definition await (k : BlockTask.t) (b : t) : res t :=
  let h := BlockTask.handle k in
  if decide (h ∈ responses b) then Fault ConnectionClosed
  else Ret (with_tasks ({[ h ]} ∪ responses b) (<[h := k]> (tasks b)) b).

(** [++assoc_map[name]] *)
Definition add_assoc (name : string) (b : t) : t :=
  with_assoc (<[name := default 0 (assoc_map b !! name) + 1]> (assoc_map b)) b.

Definition init (vol_name : string) (resp : option BlockTask.t) (obj_size : Z) (b : t) : res t :=
  let b := if amAsyncDataApi b then b
           else Make true (Some vol_name) (maxObjectSizeInBytes b) (blockResp b) (shutting_down b)
                  (responses b) (tasks b) (sector_map b) (assoc_map b) (outs b) in
  b ← match resp with Some k => await k b | None => Ret b end;
  match volumeName b with
  | None => Fault NullDeref
  | Some name =>
      if decide (obj_size = 0) then
        match resp with
        | Some k => call (AttachVolume (BlockTask.handle k, 0) name) b
        | None => Fault NullDeref
        end
      else Ret (add_assoc name (with_object_size obj_size b))
  end.

Definition detachVolumeResp (b : t) : t :=
  if shutting_down b && blockResp b then
    let b := emit Terminate b in
    Make false (volumeName b) (maxObjectSizeInBytes b) false (shutting_down b)
      (responses b) (tasks b) (sector_map b) (assoc_map b) (outs b)
  else b.

Definition detachVolume (b : t) : res t :=
  match volumeName b with
  | None => Ret (detachVolumeResp b)
  | Some name =>
      match assoc_map b !! name with
      | None => Ret (detachVolumeResp b)
      | Some n =>
          if shutting_down b then call (DetachVolume name) (with_assoc (delete name (assoc_map b)) b)
          else
            let b := with_assoc (<[name := n - 1]> (assoc_map b)) b in
            if decide (n - 1 = 0) then call (DetachVolume name) (with_assoc (delete name (assoc_map b)) b)
            else Ret (detachVolumeResp b)
      end
  end.

Definition finishResponse (h : Z) (b : t) : res t :=
  k ← get_task h b;
  let removed := bool_decide (h ∈ responses b) in
  let b := with_tasks (responses b ∖ {[ h ]}) (tasks b) b in
  let done_responding := bool_decide (responses b = ∅) in
  let b := if removed then emit (RespondTask k) (with_tasks (responses b) (delete h (tasks b)) b) else b in
  if shutting_down b && done_responding then detachVolume b else Ret b.

(** [volDesc] is the name, whether the volume is a block device, and its
    object size. *)
Definition attachVolumeResp (error : ErrorCode) (id : request_id) (volDesc : string * bool * Z) (b : t)
    : res t :=
  let '(handle, _) := id in
  if decide (handle ∉ responses b) then Ret b else
  k ← get_task handle b;
  let '(name, is_block, size) := volDesc in
  let '(b, descriptor) :=
    if decide (error = OK) then
      if is_block : bool then (add_assoc name (with_object_size size b), Some name)
      else (set_task handle (BlockTask.setError BAD_REQUEST k) b, None)
    else (set_task handle (BlockTask.setError error k) b, None) in
  finishResponse handle (emit (AttachResp descriptor) b).

Definition shutdown (b : t) : res t :=
  if shutting_down b then Ret b else
  let b := Make (amAsyncDataApi b) (volumeName b) (maxObjectSizeInBytes b) (blockResp b) true
             (responses b) (tasks b) (sector_map b) (assoc_map b) (outs b) in
  if decide (responses b = ∅) then detachVolume b else Ret b.

Definition read (k : BlockTask.t) (b : t) : res t :=
  let max := maxObjectSizeInBytes b in
  let k := BlockTask.setMaxObjectSize max k in
  let offset := BlockTask.offset k in
  b ← await k b;
  m ← umod offset max;
  let length := u32 (BlockTask.length k + m) in
  let overrun := length `mod` max in
  let length := if decide (0 < overrun) then u32 (length + (max - overrun)) else length in
  call (GetBlob (BlockTask.handle k, 0) (i32 length) (i64 (offset / max))) b.

Definition getObjectCount (length offset : Z) (b : t) : res Z :=
  let max := maxObjectSizeInBytes b in
  m ← umod offset max;
  let objCount := length / max in
  let firstObjLen := u32 (max - m) in
  let objCount := if decide (length `mod` max ≠ 0) then u32 (objCount + 1) else objCount in
  Ret (if decide (u32 (firstObjLen + u32 (u32 (objCount - 1) * max)) < length)
       then u32 (objCount + 1) else objCount).

(** One round of the loop of [write]: the sub-task of the bytes from
    [written] on. *)
Definition write_one (bytes : buffer) (h written seqId : Z) (b : t) : res (t * Z) :=
  k ← get_task h b;
  let max := maxObjectSizeInBytes b in
  let curOffset := u64 (BlockTask.offset k + written) in
  let objectOff := curOffset / max in
  let iOff := curOffset `mod` max in
  let iLength := BlockTask.length k - written in
  let iLength := if decide (iLength + iOff >= max) then max - iOff else iLength in
  objBuf ← (if decide (iLength = blen bytes) then Ret bytes else substr bytes written iLength);
  let reqId := (h, seqId) in
  let b := set_task h (BlockTask.keepBufferForWrite objectOff (Some objBuf) k) b in
  let '(m, result) := queue_update objectOff reqId (sector_map b) in
  let b := with_sectors m b in
  b ← match result with
      | FirstEntry =>
          if decide (iLength ≠ max) then call (GetBlob reqId (i32 max) (i64 objectOff)) b
          else call (UpdateBlobOnce reqId (Some objBuf) (i32 max) (i64 objectOff)) b
      | _ => Ret b
      end;
  Ret (b, iLength).

(** [while (amBytesWritten < length)] *)
Fixpoint write_loop (fuel : nat) (bytes : buffer) (h length written seqId : Z) (b : t) : res t :=
  match fuel with
  | O => Fault OutOfFuel
  | S fuel =>
      if decide (written < length) then
        r ← write_one bytes h written seqId b;
        write_loop fuel bytes h length (written + r.2) (u32 (seqId + 1)) r.1
      else Ret b
  end.

Definition write (bytes : buffer) (k : BlockTask.t) (b : t) : res t :=
  let length := BlockTask.length k in
  objCount ← getObjectCount length (BlockTask.offset k) b;
  let k := BlockTask.setObjectCount objCount
             (BlockTask.setMaxObjectSize (maxObjectSizeInBytes b) k) in
  b ← await k b;
  write_loop (S (Z.to_nat length)) bytes (BlockTask.handle k) length 0 0 b.

(** [handleWriteResponse] of a task, and [finishResponse] when it was the last
    sub-task. *)
Definition write_done (err : ErrorCode) (h : Z) (b : t) : res t :=
  k ← get_task h b;
  let '(k, fin) := BlockTask.handleWriteResponse err k in
  let b := set_task h k b in
  if fin : bool then finishResponse h b else Ret b.

(** The update to apply next: a partial write goes through
    read-modify-write. *)
Definition drain_update (buf : option buffer) (err : ErrorCode) (id : request_id) (b : t)
    : res (t * (ErrorCode * option buffer)) :=
  let '(h, seq) := id in
  if decide (h ∉ responses b) then Fault VerifyFailed else
  k ← get_task h b;
  new_data ← BlockTask.getBuffer seq k;
  match new_data with
  | None => Fault NullDeref
  | Some d =>
      if decide (maxObjectSizeInBytes b ≠ blen d) then
        r ← BlockTask.handleRMWResponse buf seq err k;
        Ret (set_task h r.1 b, r.2)
      else Ret (b, (err, new_data))
  end.

(** [while (update_queued)]: the result is the last buffer, the last task
    whose update is in it, the tasks before it, and the last request. *)
Fixpoint drain_loop (fuel : nat) (offset : Z) (buf : option buffer) (err : ErrorCode)
    (last_chained : option Z) (chain : list Z) (id : request_id) (b : t)
    : res (t * option buffer * option Z * list Z * request_id) :=
  match fuel with
  | O => Fault OutOfFuel
  | S fuel =>
      r ← drain_update buf err id b;
      let '(b, (err, new_data)) := r : t * (ErrorCode * option buffer) in
      r ← (if decide (err ≠ OK) then
             b ← write_done err id.1 b; Ret (b, buf, last_chained, chain)
           else Ret (b, new_data, Some id.1,
                     match last_chained with Some l => chain ++ [l] | None => chain end));
      let '(b, buf, last_chained, chain) := r : t * option buffer * option Z * list Z in
      let '(m, next) := pop offset (bool_decide (last_chained = None)) (sector_map b) in
      let b := with_sectors m b in
      match next with
      | Some id => drain_loop fuel offset buf err last_chained chain id b
      | None => Ret (b, buf, last_chained, chain, id)
      end
  end.

Definition drainUpdateChain (fuel : nat) (offset : Z) (buf : option buffer)
    (queued_handle_ptr : option request_id) (error : ErrorCode) (b : t) : res t :=
  let '(b, queued) := match queued_handle_ptr with
                      | Some id => (b, Some id)
                      | None => let '(m, next) := pop offset true (sector_map b) in (with_sectors m b, next)
                      end in
  match queued with
  | None => Ret b
  | Some id =>
      r ← drain_loop fuel offset buf error None [] id b;
      let '(b, buf, last_chained, chain, id) := r : t * option buffer * option Z * list Z * request_id in
      match last_chained with
      | None => Ret b
      | Some h =>
          k ← get_task h b;
          let b := set_task h (BlockTask.setChain id.2 chain k) b in
          call (UpdateBlobOnce id buf (i32 (maxObjectSizeInBytes b)) (i64 offset)) b
      end
  end.

Definition getBlobResp (fuel : nat) (error : ErrorCode) (id : request_id)
    (bufs : option (list (option buffer))) (length : Z) (b : t) : res t :=
  let '(handle, seqId) := id in
  if decide (handle ∉ responses b) then Ret b else
  k ← get_task handle b;
  if negb (BlockTask.isRead k) then
    let buf := match bufs with Some (x :: _) => x | _ => None end in
    offset ← BlockTask.getOffset_seq seqId k;
    drainUpdateChain fuel offset buf (Some id) error b
  else
    b ← (if decide (error = OK ∨ error = MISSING_RESOURCE) then
           match bufs with
           | None => Fault NullDeref
           | Some bufs =>
               k ← BlockTask.handleReadResponse fuel bufs (zeros (maxObjectSizeInBytes b)) (u32 length) k;
               Ret (set_task handle k b)
           end
         else Ret (set_task handle (BlockTask.setError error k) b));
    finishResponse handle b.

Definition updateBlobOnceResp (fuel : nat) (error : ErrorCode) (id : request_id) (b : t) : res t :=
  let '(handle, seqId) := id in
  if decide (handle ∉ responses b) then Ret b else
  k ← get_task handle b;
  offset ← BlockTask.getOffset_seq seqId k;
  buf ← BlockTask.getBuffer seqId k;
  b ← drainUpdateChain fuel offset buf None error b;
  k ← get_task handle b;
  let '(k, chained_responses) := BlockTask.getChain seqId k in
  let b := set_task handle k b in
  b ← foldM (λ b h, write_done error h b) b chained_responses;
  write_done error handle b.

End BlockOperations.

(** ** How a write is cut into objects *)
Section Splitting.
Context {Q : Type} `{SQ : SpscQueue request_id Q}.
Implicit Types b : t (Q:=Q).

Lemma ceil_unique x max n : 0 < max → (n - 1) * max < x ≤ n * max → (x + max - 1) / max = n.
Proof. intros Hm Hx. symmetry. apply Z.div_unique with (x + max - 1 - n * max); nia. Qed.

Lemma getObjectCount_spanned length offset b : let max := maxObjectSizeInBytes b in
  0 < max → 0 < length → length + 2 * max < 2 ^ 32 →
  getObjectCount length offset b = Ret ((offset `mod` max + length + max - 1) / max).
Proof.
  intros max Hm Hl Hfit. unfold getObjectCount, umod. fold max. rewrite (decide_False (P:=max = 0)) by lia. rewrite bind_Ret.
  cbv zeta. pose proof (Z.mod_pos_bound offset max Hm) as Ho. set (m := offset `mod` max) in *.
  pose proof (Z.div_mod length max ltac:(lia)) as Hd. pose proof (Z.mod_pos_bound length max Hm) as Hr.
  set (q := length / max) in *. set (r := length `mod` max) in *.
  assert (0 ≤ q) as Hq by (apply Z.div_pos; lia).
  assert ((if decide (r ≠ 0) then u32 (q + 1) else q) = q + if decide (r ≠ 0) then 1 else 0) as ->.
  { case_decide; [apply u32_small; nia|lia]. }
  set (c := q + if decide (r ≠ 0) then 1 else 0).
  assert ((c - 1) * max < length ≤ c * max ∧ 1 ≤ c) as [Hc Hc1] by (unfold c; case_decide; nia).
  rewrite (u32_small (max - m)), (u32_small (c - 1)), (u32_small ((c - 1) * max)) by nia.
  rewrite u32_small by nia. f_equal. symmetry. case_decide as Hcap.
  - rewrite u32_small by nia. apply ceil_unique; nia.
  - apply ceil_unique; nia.
Qed.

(** The sub-tasks of a task: one per object, from the object of its offset
    on; the first starts inside its object, the others at the beginning. *)
Record cut (k : BlockTask.t) (n : nat) (written : Z) (bufs : list buffer) : Prop := {
  cut_offs : BlockTask.offVec k =
    seqZ (BlockTask.offset k / BlockTask.maxObjectSizeInBytes k) (Z.of_nat n);
  cut_bufs : BlockTask.bufVec k = Some <$> bufs;
  cut_count : List.length bufs = n;
  cut_fits i x : bufs !! i = Some x →
    BlockTask.rmw_start (Z.of_nat i) k + blen x ≤ BlockTask.maxObjectSizeInBytes k;
  cut_span : (n = 0%nat ∧ written = 0) ∨ (0 < n)%nat ∧
    (Z.of_nat n - 1) * BlockTask.maxObjectSizeInBytes k < BlockTask.iOff k + written ∧
    (written = BlockTask.length k ∧
       BlockTask.iOff k + written ≤ Z.of_nat n * BlockTask.maxObjectSizeInBytes k ∨
     BlockTask.iOff k + written = Z.of_nat n * BlockTask.maxObjectSizeInBytes k);
}.

(** What a write needs of its task. *)
Record writable (bytes : buffer) (k : BlockTask.t) b : Prop := {
  wr_max : 0 < maxObjectSizeInBytes b;
  wr_api : amAsyncDataApi b = true;
  wr_task : BlockTask.maxObjectSizeInBytes k = maxObjectSizeInBytes b;
  wr_offset : 0 ≤ BlockTask.offset k;
  wr_range : BlockTask.offset k + BlockTask.length k < 2 ^ 64;
  wr_fits : BlockTask.length k + 2 * maxObjectSizeInBytes b < 2 ^ 32;
  wr_bytes : blen bytes = BlockTask.length k;
}.

(** The object and the offset in it of the next sub-task. *)
Lemma next_object k n written bufs : 0 < BlockTask.maxObjectSizeInBytes k → cut k n written bufs →
  written < BlockTask.length k →
  (BlockTask.offset k + written) / BlockTask.maxObjectSizeInBytes k =
    BlockTask.offset k / BlockTask.maxObjectSizeInBytes k + Z.of_nat n ∧
  (BlockTask.offset k + written) `mod` BlockTask.maxObjectSizeInBytes k =
    BlockTask.rmw_start (Z.of_nat n) k.
Proof.
  intros Hm Hc Hw. pose proof (cut_span _ _ _ _ Hc) as Hs. unfold BlockTask.rmw_start.
  unfold BlockTask.iOff in *. set (max := BlockTask.maxObjectSizeInBytes k) in *.
  pose proof (Z.div_mod (BlockTask.offset k) max ltac:(lia)) as Hd.
  destruct Hs as [[-> ->]|(Hn & H1 & H2)].
  - rewrite decide_True by done. rewrite Z.add_0_r. split; [lia|done].
  - destruct H2 as [[? _]|H2]; [lia|]. pose proof (Z.mod_pos_bound (BlockTask.offset k) max Hm).
    rewrite decide_False by lia.
    replace (BlockTask.offset k + written) with ((BlockTask.offset k / max + Z.of_nat n) * max) by lia.
    split; [by apply Z.div_mul; lia|by apply Z_mod_mult].
Qed.

Lemma cut_keep k n written bufs x : cut k n written bufs → 0 < BlockTask.maxObjectSizeInBytes k →
  written < BlockTask.length k →
  blen x = Z.min (BlockTask.length k - written)
             (BlockTask.maxObjectSizeInBytes k - BlockTask.rmw_start (Z.of_nat n) k) →
  cut (BlockTask.keepBufferForWrite
         (BlockTask.offset k / BlockTask.maxObjectSizeInBytes k + Z.of_nat n) (Some x) k)
    (S n) (written + blen x) (bufs ++ [x]).
Proof.
  intros [Ho Hb Hn Hf Hs] Hm Hw Hx. split; simpl.
  - rewrite Ho. replace (Z.of_nat (S n)) with (Z.of_nat n + 1) by lia.
    by rewrite seqZ_app by lia.
  - by rewrite Hb, fmap_app.
  - rewrite length_app. simpl. lia.
  - intros i y [Hi|[Hi Hy]]%lookup_app_Some; [by apply Hf|].
    destruct (decide (i = List.length bufs)) as [->|].
    + rewrite Nat.sub_diag in Hy. injection Hy as <-. rewrite Hn. unfold BlockTask.rmw_start in *.
      simpl in *. unfold BlockTask.iOff in *. simpl. lia.
    + rewrite lookup_cons_ne_0 in Hy by lia. done.
  - right. unfold BlockTask.rmw_start, BlockTask.iOff in *. simpl.
    set (max := BlockTask.maxObjectSizeInBytes k) in *.
    pose proof (Z.mod_pos_bound (BlockTask.offset k) max Hm).
    destruct Hs as [[-> ->]|(Hn0 & H1 & [[? _]|H2])]; [|lia|].
    + rewrite decide_True in Hx by done. simpl in *. lia.
    + rewrite decide_False in Hx by lia. lia.
Qed.

Definition issued (result : QueueResult) (id : request_id) (x : buffer) (o max : Z) : list action :=
  match result with
  | FirstEntry => [if decide (blen x ≠ max) then GetBlob id (i32 max) (i64 o)
                   else UpdateBlobOnce id (Some x) (i32 max) (i64 o)]
  | _ => []
  end.

Lemma write_one_spec bytes h k n written bufs b : writable bytes k b → cut k n written bufs →
  tasks b !! h = Some k → 0 ≤ written < BlockTask.length k →
  let o := BlockTask.offset k / BlockTask.maxObjectSizeInBytes k + Z.of_nat n in
  let x := take (Z.to_nat (Z.min (BlockTask.length k - written)
             (BlockTask.maxObjectSizeInBytes k - BlockTask.rmw_start (Z.of_nat n) k)))
             (drop (Z.to_nat written) bytes) in
  let k' := BlockTask.keepBufferForWrite o (Some x) k in
  let '(m, result) := queue_update o (h, Z.of_nat n) (sector_map b) in
  write_one bytes h written (Z.of_nat n) b =
    Ret (foldl (λ b a, emit a b) (with_sectors m (set_task h k' b))
           (issued result (h, Z.of_nat n) x o (maxObjectSizeInBytes b)), blen x) ∧
  1 ≤ blen x ∧ cut k' (S n) (written + blen x) (bufs ++ [x]).
Proof.
  intros [Hm Hapi Ht Ho Hr Hf Hb] Hc Hk Hw o x k'.
  destruct (next_object k n written bufs) as [Hob Hio]; [lia|done|lia|].
  assert (0 ≤ BlockTask.rmw_start (Z.of_nat n) k < maxObjectSizeInBytes b) as Hst.
  { rewrite <-Hio, <-Ht. apply Z.mod_pos_bound. lia. }
  set (il := Z.min _ _) in x.
  assert (blen x = il) as Hx.
  { unfold x, blen in *. rewrite length_take, length_drop. lia. }
  destruct (queue_update o (h, Z.of_nat n) (sector_map b)) as [m result] eqn:Hq.
  split; [|split; [lia|apply cut_keep; (done || lia)]].
  unfold write_one, get_task. rewrite Hk, bind_Ret. cbv zeta.
  rewrite u64_small by (unfold uint64_max; lia). rewrite <-Ht, Hob, Hio. fold o.
  assert ((if decide (BlockTask.length k - written + BlockTask.rmw_start (Z.of_nat n) k >=
                      BlockTask.maxObjectSizeInBytes k)
           then BlockTask.maxObjectSizeInBytes k - BlockTask.rmw_start (Z.of_nat n) k
           else BlockTask.length k - written) = il) as ->.
  { unfold il. case_decide; lia. }
  assert ((if decide (il = blen bytes) then Ret bytes else substr bytes written il) = Ret x) as ->.
  { case_decide as Hil.
    - unfold x. assert (written = 0) as -> by lia. rewrite firstn_all2; [done|].
      rewrite length_drop. unfold blen in *. lia.
    - unfold substr. by rewrite decide_False by lia. }
  rewrite bind_Ret. change (sector_map (set_task h _ b)) with (sector_map b). rewrite Hq.
  unfold issued. rewrite Hx. destruct result; [|by rewrite bind_Ret|by rewrite bind_Ret].
  unfold call. change (amAsyncDataApi (with_sectors _ _)) with (amAsyncDataApi b). rewrite Hapi.
  case_decide; by rewrite bind_Ret.
Qed.

Definition emits (l : list action) b : t :=
  Make (amAsyncDataApi b) (volumeName b) (maxObjectSizeInBytes b) (blockResp b) (shutting_down b)
    (responses b) (tasks b) (sector_map b) (assoc_map b) (outs b ++ l).

Lemma foldl_emit l b : foldl (λ b a, emit a b) b l = emits l b.
Proof.
  revert b. induction l as [|a l IH]; intros b; simpl.
  - unfold emits. rewrite app_nil_r. by destruct b.
  - rewrite IH. unfold emits. simpl. by rewrite <-(assoc (++)).
Qed.

(** The parameters of a task, which a write does not change. *)
Definition params (k : BlockTask.t) : Z * Z * Z * Z * Z * Z :=
  (BlockTask.handle k, BlockTask.offset k, BlockTask.length k, BlockTask.maxObjectSizeInBytes k,
   BlockTask.objCount k, BlockTask.doneCount k).

Lemma write_loop_cut fuel bytes h k n written bufs b : writable bytes k b → cut k n written bufs →
  tasks b !! h = Some k → 0 ≤ written ≤ BlockTask.length k → Z.of_nat n ≤ written →
  concat bufs = take (Z.to_nat written) bytes →
  (Z.to_nat (BlockTask.length k - written) < fuel)%nat →
  ∃ b' k' n' bufs', write_loop fuel bytes h (BlockTask.length k) written (Z.of_nat n) b = Ret b' ∧
    tasks b' !! h = Some k' ∧ cut k' n' (BlockTask.length k) bufs' ∧ concat bufs' = bytes ∧
    params k' = params k.
Proof.
  revert k n written bufs b. induction fuel as [|fuel IH]; intros k n written bufs b Hw Hc Hk Hr Hn Hb Hf; [lia|].
  cbn [write_loop]. case_decide as Hlt.
  - pose proof (write_one_spec bytes h k n written bufs b Hw Hc Hk ltac:(lia)) as Hone. cbv zeta in Hone.
    destruct (queue_update _ _ (sector_map b)) as [m result]. destruct Hone as (-> & Hx1 & Hc').
    rewrite bind_Ret. cbn [fst snd]. set (x := take _ (drop (Z.to_nat written) bytes)) in *.
    set (k' := BlockTask.keepBufferForWrite _ (Some x) k) in *. pose proof Hw as [Hm Hapi Ht Ho Hrg Hfit Hlen].
    assert (blen x ≤ BlockTask.length k - written) as Hx2.
    { unfold x, blen. rewrite length_take. lia. }
    rewrite u32_small by lia. replace (Z.of_nat n + 1) with (Z.of_nat (S n)) by lia.
    rewrite foldl_emit.
    destruct (IH k' (S n) (written + blen x) (bufs ++ [x]) (emits (issued result (h, Z.of_nat n) x
      (BlockTask.offset k / BlockTask.maxObjectSizeInBytes k + Z.of_nat n) (maxObjectSizeInBytes b))
      (with_sectors m (set_task h k' b)))) as (b' & k2 & n' & bufs' & E & Hk2 & Hc2 & Hb2 & Hp); try done.
    + apply lookup_insert_eq.
    + change (BlockTask.length k') with (BlockTask.length k). lia.
    + lia.
    + rewrite concat_app. cbn [concat]. rewrite app_nil_r, Hb. unfold blen in *.
      rewrite Z2Nat.inj_add, Nat2Z.id by lia.
      rewrite <-take_take_drop. f_equal. unfold x. by rewrite take_length_take.
    + change (BlockTask.length k') with (BlockTask.length k). lia.
    + exists b', k2, n', bufs'. split; [done|]. split; [done|]. split; [done|]. split; [done|]. by rewrite Hp.
  - exists b, k, n, bufs. assert (written = BlockTask.length k) as -> by lia.
    split; [done|]. split; [done|]. split; [done|]. split; [|done]. rewrite Hb.
    destruct Hw as [_ _ _ _ _ _ Hlen]. apply firstn_all2. unfold blen in Hlen. lia.
Qed.

(** C29. A write is cut into one sub-task per object it touches: objects in
    order from the one that holds the offset, each part inside its object, and
    the parts together are the bytes to write.  The task waits for exactly
    that many responses. *)
Theorem write_split (bytes : buffer) (k : BlockTask.t) (b : t) :
  writable bytes (BlockTask.setMaxObjectSize (maxObjectSizeInBytes b) k) b →
  0 < BlockTask.length k → BlockTask.bufVec k = [] → BlockTask.offVec k = [] →
  BlockTask.handle k ∉ responses b →
  let max := maxObjectSizeInBytes b in
  let n := (BlockTask.offset k `mod` max + BlockTask.length k + max - 1) / max in
  ∃ b' k' bufs, write bytes k b = Ret b' ∧ tasks b' !! BlockTask.handle k = Some k' ∧
    BlockTask.objCount k' = n ∧ BlockTask.offVec k' = seqZ (BlockTask.offset k / max) n ∧
    BlockTask.bufVec k' = Some <$> bufs ∧ Z.of_nat (List.length bufs) = n ∧ concat bufs = bytes ∧
    ∀ i x, bufs !! i = Some x →
      (if decide (i = 0%nat) then BlockTask.offset k `mod` max else 0) + blen x ≤ max.
Proof.
  intros Hw Hl Hb0 Ho0 Hh max n. pose proof Hw as [Hm Hapi Ht Ho Hr Hf Hlen]. unfold write.
  rewrite getObjectCount_spanned by (done || (unfold max in *; simpl in *; lia)). fold max n.
  rewrite bind_Ret. cbv zeta.
  set (k1 := BlockTask.setObjectCount n (BlockTask.setMaxObjectSize max k)). unfold await.
  change (BlockTask.handle k1) with (BlockTask.handle k). rewrite decide_False by done. rewrite bind_Ret.
  set (b1 := with_tasks _ _ b).
  destruct (write_loop_cut (S (Z.to_nat (BlockTask.length k))) bytes (BlockTask.handle k) k1 0 0 [] b1)
    as (b' & k' & n' & bufs & E & Hk' & Hc & Hcat & Hp); try done.
  - split; [by unfold k1; simpl; rewrite Ho0|by unfold k1; simpl; rewrite Hb0|done|done|by left].
  - apply lookup_insert_eq.
  - change (BlockTask.length k1) with (BlockTask.length k). lia.
  - change (BlockTask.length k1) with (BlockTask.length k). lia.
  - exists b', k', bufs. unfold params in Hp. injection Hp as E1 E2 E3 E4 E5 E6.
    change (BlockTask.length k1) with (BlockTask.length k) in *.
    destruct Hc as [C1 C2 C3 C4 C5].
    assert (Z.of_nat n' = n) as Hn.
    { unfold n. symmetry. unfold BlockTask.iOff in C5. rewrite E2, E3, E4 in C5. simpl in C5.
      change (BlockTask.offset k1) with (BlockTask.offset k) in C5.
      change (BlockTask.maxObjectSizeInBytes k1) with max in C5.
      apply ceil_unique; [done|]. lia. }
    do 2 (split; [done|]). rewrite <-Hn, C3. split; [by rewrite E5, Hn|].
    split; [by rewrite C1, E2, E4|]. do 3 (split; [done|]). intros i x Hi. specialize (C4 i x Hi).
    unfold BlockTask.rmw_start, BlockTask.iOff in C4. rewrite E2, E4 in C4. 
    change (BlockTask.offset k1) with (BlockTask.offset k) in C4.
    change (BlockTask.maxObjectSizeInBytes k1) with max in C4.
    repeat case_decide; lia.
Qed.

(** C38. A write within one object, of a handle that is not in use, is lost when
    the queue of waiting writes to that object is full: the failure of
    [queue_update] is ignored, no request is issued and nothing is queued, so
    the task waits for a response that cannot come. *)
Theorem full_queue_loses_write (bytes : buffer) (k : BlockTask.t) (b : t) (q : Q) :
  writable bytes (BlockTask.setMaxObjectSize (maxObjectSizeInBytes b) k) b →
  0 < BlockTask.length k → BlockTask.bufVec k = [] → BlockTask.offVec k = [] →
  BlockTask.handle k ∉ responses b →
  let max := maxObjectSizeInBytes b in
  BlockTask.offset k `mod` max + BlockTask.length k ≤ max →
  sector_map b !! (BlockTask.offset k / max) = Some q → spsc_push (BlockTask.handle k, 0) q = None →
  ∃ b', write bytes k b = Ret b' ∧ BlockTask.handle k ∈ responses b' ∧
    outs b' = outs b ∧ sector_map b' = sector_map b.
Proof.
  intros Hw Hl Hb0 Ho0 Hh max Hone Hq Hfull. pose proof Hw as [Hm Hapi Ht Ho Hr Hf Hlen]. unfold write.
  rewrite getObjectCount_spanned by (done || (unfold max in *; simpl in *; lia)). rewrite bind_Ret. cbv zeta.
  fold max. set (n := _ / max).
  set (k1 := BlockTask.setObjectCount n (BlockTask.setMaxObjectSize max k)). unfold await.
  change (BlockTask.handle k1) with (BlockTask.handle k). rewrite decide_False by done. rewrite bind_Ret.
  set (b1 := with_tasks _ _ b). cbn [write_loop]. rewrite decide_True by done.
  pose proof (write_one_spec bytes (BlockTask.handle k) k1 0 0 [] b1) as Hstep. cbv zeta in Hstep.
  change (BlockTask.offset k1 / BlockTask.maxObjectSizeInBytes k1 + Z.of_nat 0)
    with (BlockTask.offset k / max + 0) in Hstep. rewrite Z.add_0_r in Hstep.
  change (sector_map b1) with (sector_map b) in Hstep. unfold queue_update in Hstep.
  rewrite Hq in Hstep. change (Z.of_nat 0) with 0 in Hstep. rewrite Hfull in Hstep.
  destruct Hstep as (-> & Hx & Hc).
  - done.
  - split; [by unfold k1; simpl; rewrite Ho0|by unfold k1; simpl; rewrite Hb0|done|done|by left].
  - apply lookup_insert_eq.
  - change (BlockTask.length k1) with (BlockTask.length k). lia.
  - rewrite bind_Ret. cbn [fst snd]. set (x := take _ _) in *.
    assert (blen x = BlockTask.length k) as Hxl.
    { unfold x, BlockTask.rmw_start, BlockTask.iOff. rewrite decide_True by done. simpl in Hlen.
      change (BlockTask.length k1) with (BlockTask.length k).
      change (BlockTask.offset k1 `mod` BlockTask.maxObjectSizeInBytes k1)
        with (BlockTask.offset k `mod` max).
      change (BlockTask.maxObjectSizeInBytes k1) with max.
      rewrite Z.min_l by lia. rewrite Z.sub_0_r. unfold blen in *.
      rewrite length_take, length_drop. lia. }
    destruct (Z.to_nat (BlockTask.length k)) as [|f] eqn:Ef; [lia|]. cbn [write_loop issued foldl].
    rewrite decide_False by lia. eexists. split; [done|]. split; [simpl; set_solver|done].
Qed.

(** A connection that shuts down closes the volume under the other
    connections to it: the count of associations is not consulted, and their
    association is erased. *)
Theorem shutdown_detaches_shared_volume (b : t) (name : string) (n : Z) :
  amAsyncDataApi b = true → shutting_down b = false → responses b = ∅ →
  volumeName b = Some name → assoc_map b !! name = Some n →
  ∃ b', shutdown b = Ret b' ∧ outs b' = outs b ++ [DetachVolume name] ∧
    assoc_map b' !! name = None.
Proof.
  intros Hapi Hs Hr Hv Ha. unfold shutdown. rewrite Hs. cbv zeta. cbn [responses]. rewrite decide_True by done.
  unfold detachVolume. cbn [volumeName assoc_map shutting_down]. rewrite Hv, Ha.
  unfold call. cbn [amAsyncDataApi with_assoc]. rewrite Hapi. eexists. split; [done|]. split; [done|].
  apply lookup_delete_eq.
Qed.

End Splitting.

(** ** Concrete runs: objects of four bytes, queues of one entry *)
#[local] Instance demo_queue : SpscQueue request_id (list request_id) := {
  spsc_new := [];
  spsc_push := λ e q, match q with [] => Some [e] | _ => None end;
  spsc_pop := λ q, match q with [] => None | e :: q => Some (e, q) end;
}.

#[local] Instance demo_queue_laws : SpscQueueLaws demo_queue 1 id.
Proof.
  split; [done| |].
  - intros e q. destruct q; simpl; [split; [lia|done]|lia].
  - intros q. destruct q as [|e q]; [done|]. by exists q.
Qed.

Definition demo : t (Q:=list request_id) := Make true (Some "v"%string) 4 true false ∅ ∅ ∅ {[ "v"%string := 2 ]} [].
Definition demo_full : t (Q:=list request_id) :=
  Make true (Some "v"%string) 4 true false ∅ ∅ {[ 1 := [(8, 0)] ]} {[ "v"%string := 2 ]} [].
Definition demo_write (h off len : Z) : BlockTask.t := BlockTask.setWrite off len (BlockTask.make h).

Lemma write_split_witness :
  ∃ b' k' bufs, write [1; 2; 3; 4; 5; 6; 7] (demo_write 9 3 7) demo = Ret b' ∧
    tasks b' !! 9 = Some k' ∧ BlockTask.objCount k' = 3 ∧ BlockTask.offVec k' = [0; 1; 2] ∧
    BlockTask.bufVec k' = Some <$> bufs ∧ concat bufs = [1; 2; 3; 4; 5; 6; 7].
Proof.
  destruct (write_split [1; 2; 3; 4; 5; 6; 7] (demo_write 9 3 7) demo)
    as (b' & k' & bufs & E & Hk & Hn & Ho & Hb & _ & Hc & _).
  - split; vm_compute; (reflexivity || discriminate).
  - vm_compute. reflexivity.
  - reflexivity.
  - reflexivity.
  - apply (bool_decide_unpack _). vm_compute. exact I.
  - exists b', k', bufs. split; [exact E|]. split; [exact Hk|]. split; [exact Hn|].
    split; [rewrite Ho; vm_compute; reflexivity|]. split; [exact Hb|exact Hc].
Defined.

Lemma full_queue_loses_write_witness :
  ∃ b', write [1; 2] (demo_write 9 5 2) demo_full = Ret b' ∧ 9 ∈ responses b' ∧ outs b' = [] ∧
    sector_map b' = sector_map demo_full.
Proof.
  apply (full_queue_loses_write [1; 2] (demo_write 9 5 2) demo_full [(8, 0)]).
  - split; vm_compute; (reflexivity || discriminate).
  - vm_compute. reflexivity.
  - reflexivity.
  - reflexivity.
  - apply (bool_decide_unpack _). vm_compute. exact I.
  - vm_compute. discriminate.
  - vm_compute. reflexivity.
  - reflexivity.
Defined.

Lemma shutdown_detaches_shared_volume_witness :
  ∃ b', shutdown demo = Ret b' ∧ outs b' = [DetachVolume "v"] ∧ assoc_map b' !! "v"%string = None.
Proof.
  apply (shutdown_detaches_shared_volume demo "v" 2).
  - reflexivity.
  - reflexivity.
  - reflexivity.
  - reflexivity.
  - vm_compute. reflexivity.
Defined.

End BlockOperations.
