(* ===== verification/BlockSafety.v ===== *)
(** * Writes to a block device never get lost or mixed up

    An invariant of [BlockOperations] together with the requests outstanding
    at the service, kept by reads, writes and the responses to them.  Every
    sub-task that has not been answered is in one place: outstanding, queued
    behind the outstanding request of its object, or rolled up in an
    outstanding update.  At most one write request per object is outstanding;
    a task waits for exactly its unanswered sub-tasks; tasks are not used
    after they were handed back; and when nothing is outstanding every task
    has been answered. *)

From stdpp Require Import strings.
From S2P Require Import Prelude.
From S2P Require Import BlockTask.
From S2P Require Import BlockOps.
Open Scope Z_scope.

Module BlockSafety.
Import SectorLockMap BlockOperations.

Inductive kind := KGet | KUpdate.
#[export] Instance kind_eq_dec : EqDecision kind.
Proof. solve_decision. Defined.

(** Where an unanswered sub-task is; [Held] is one a handler is working on. *)
Inductive place := Held | Queued (o : Z) | InFlight (kd : kind) | Chained (p : Z * Z).

Definition ghost : Type := gmap (Z * Z) place.
Definition flight : Type := gmap (Z * Z) kind.

(** The unanswered sub-tasks of a task. *)
Definition pend (G : gmap (Z * Z) place) (h : Z) : nat := size (filter (λ x : (Z * Z) * place, x.1.1 = h) G).

Lemma pend_insert_new G id pl h : G !! id = None →
  pend (<[id := pl]> G) h = (pend G h + if decide (id.1 = h) then 1 else 0)%nat.
Proof.
  intros Hn. unfold pend. case_decide as Hh.
  - rewrite map_filter_insert_True by done. rewrite map_size_insert_None; [lia|].
    by apply map_lookup_filter_None_2; left.
  - rewrite map_filter_insert_False by done. rewrite delete_id by done. lia.
Qed.

Lemma pend_delete G id pl h : G !! id = Some pl →
  pend G h = (pend (delete id G) h + if decide (id.1 = h) then 1 else 0)%nat.
Proof.
  intros Hs. rewrite <-(insert_delete_id G id pl) at 1 by done.
  apply pend_insert_new, lookup_delete_eq.
Qed.

Lemma pend_update G id pl0 pl h : G !! id = Some pl0 → pend (<[id := pl]> G) h = pend G h.
Proof.
  intros Hs. rewrite (pend_delete (<[id := pl]> G) id pl) by apply lookup_insert_eq.
  rewrite delete_insert_eq. by rewrite (pend_delete G id pl0).
Qed.

Lemma pend_zero G id pl : G !! id = Some pl → pend G id.1 ≠ 0%nat.
Proof. intros Hs. rewrite (pend_delete G id pl) by done. rewrite decide_True by done. lia. Qed.

Section Safety.
Context {Q : Type} {SQ : SpscQueue (Z * Z) Q} {capacity : nat} {contents : Q → list (Z * Z)}
  {L : SpscQueueLaws SQ capacity contents}.
Implicit Types b : t (Q:=Q).
Implicit Types G : gmap (Z * Z) place.
Implicit Types fl : gmap (Z * Z) kind.

(** The object a sub-task of a write is for. *)
Definition sector b (id : Z * Z) : option Z :=
  k ← tasks b !! id.1; if BlockTask.isRead k then None else BlockTask.offVec k !! Z.to_nat id.2.

(** The read of a task stays inside 32 bits. *)
Definition sized (k : BlockTask.t) : Prop :=
  0 < BlockTask.maxObjectSizeInBytes k ∧ 0 < BlockTask.length k ∧ 0 ≤ BlockTask.offset k ∧
  BlockTask.length k + 2 * BlockTask.maxObjectSizeInBytes k < 2 ^ 32.

Lemma sized_sane k : sized k → BlockTask.sane k.
Proof. intros (? & ? & ? & ?). by split. Qed.

Definition sub_ok (max : Z) (k : BlockTask.t) (s : Z) (pl : place) : Prop :=
  0 ≤ s ∧
  if BlockTask.isRead k then s = 0 ∧ pl = InFlight KGet ∧ sized k
  else ∃ o x, BlockTask.offVec k !! Z.to_nat s = Some o ∧
    BlockTask.bufVec k !! Z.to_nat s = Some (Some x) ∧
    (BlockTask.rmw_start s k + blen x ≤ max ∨ blen x = max) ∧
    (pl = InFlight KUpdate → blen x = max) ∧ (∀ o', pl = Queued o' → o' = o).

Definition task_ok (max : Z) (G : gmap (Z * Z) place) (h : Z) (k : BlockTask.t) : Prop :=
  BlockTask.handle k = h ∧ BlockTask.maxObjectSizeInBytes k = max ∧ 0 ≤ BlockTask.doneCount k ∧
  BlockTask.doneCount k + Z.of_nat (pend G h) = BlockTask.objCount k ∧ BlockTask.objCount k < 2 ^ 32.

Record Inv (held : option Z) (fl : gmap (Z * Z) kind) (G : gmap (Z * Z) place) b : Prop := {
  inv_env : amAsyncDataApi b = true ∧ shutting_down b = false ∧ 0 < maxObjectSizeInBytes b < 2 ^ 31;
  inv_dom : dom (tasks b) = responses b;
  inv_task h k : tasks b !! h = Some k → task_ok (maxObjectSizeInBytes b) G h k;
  inv_sub id pl : G !! id = Some pl →
    ∃ k, tasks b !! id.1 = Some k ∧ sub_ok (maxObjectSizeInBytes b) k id.2 pl;
  inv_flight id kd : fl !! id = Some kd ↔ G !! id = Some (InFlight kd);
  inv_queue o q : sector_map b !! o = Some q →
    NoDup (contents q) ∧ ∀ id, id ∈ contents q ↔ G !! id = Some (Queued o);
  inv_queued id o : G !! id = Some (Queued o) → is_Some (sector_map b !! o);
  inv_lock o : is_Some (sector_map b !! o) ↔
    held = Some o ∨ ∃ id kd, G !! id = Some (InFlight kd) ∧ sector b id = Some o;
  inv_excl id1 id2 kd1 kd2 o : G !! id1 = Some (InFlight kd1) → G !! id2 = Some (InFlight kd2) →
    sector b id1 = Some o → sector b id2 = Some o → id1 = id2;
  inv_free id kd o : held = Some o → G !! id = Some (InFlight kd) → sector b id ≠ Some o;
  inv_chain p : G !! p = Some (InFlight KUpdate) → ∃ k ids, tasks b !! p.1 = Some k ∧
    default [] (BlockTask.chained_responses k !! p.2) = ids.*1 ∧ NoDup ids ∧
    ∀ id, id ∈ ids ↔ G !! id = Some (Chained p);
  inv_chained id p : G !! id = Some (Chained p) → G !! p = Some (InFlight KUpdate);
}.

(** ** Changes the invariant does not see *)
Record shape (max : Z) (k k' : BlockTask.t) : Prop := {
  sh_handle : BlockTask.handle k' = BlockTask.handle k;
  sh_op : BlockTask.operation k' = BlockTask.operation k;
  sh_done : BlockTask.doneCount k' = BlockTask.doneCount k;
  sh_count : BlockTask.objCount k' = BlockTask.objCount k;
  sh_chain : BlockTask.chained_responses k' = BlockTask.chained_responses k;
  sh_offs : BlockTask.offVec k' = BlockTask.offVec k;
  sh_offset : BlockTask.offset k' = BlockTask.offset k;
  sh_max : BlockTask.maxObjectSizeInBytes k' = BlockTask.maxObjectSizeInBytes k;
  sh_bufs i x : BlockTask.bufVec k !! i = Some (Some x) →
    ∃ x', BlockTask.bufVec k' !! i = Some (Some x') ∧ (x' = x ∨ blen x' = max);
  sh_length : BlockTask.length k' = BlockTask.length k;
}.

#[export] Instance shape_preorder max : PreOrder (shape max).
Proof.
  split.
  - intros k. split; try done. intros i x Hx. exists x. auto.
  - intros k1 k2 k3 [A1 A2 A3 A4 A5 A6 A7 A8 A9 A10] [B1 B2 B3 B4 B5 B6 B7 B8 B9 B10]. split; try congruence.
    intros i x Hx. destruct (A9 i x Hx) as (x' & Hx' & Hor). destruct (B9 i x' Hx') as (x2 & Hx2 & Hor2).
    exists x2. split; [done|]. destruct Hor2 as [->|?]; auto.
Qed.

(** Two states with the same sectors and tasks of the same shape. *)
Record sim b b' : Prop := {
  sim_env : (amAsyncDataApi b', shutting_down b', maxObjectSizeInBytes b', responses b', sector_map b') =
            (amAsyncDataApi b, shutting_down b, maxObjectSizeInBytes b, responses b, sector_map b);
  sim_tasks h : option_Forall2 (shape (maxObjectSizeInBytes b)) (tasks b !! h) (tasks b' !! h);
}.

#[export] Instance sim_preorder : PreOrder sim.
Proof.
  split.
  - intros b. split; [done|]. intros h. destruct (tasks b !! h); constructor. reflexivity.
  - intros b1 b2 b3 [E1 T1] [E2 T2]. split; [congruence|]. intros h.
    injection E1 as _ _ Em _ _. specialize (T1 h). specialize (T2 h). rewrite Em in T2.
    destruct T1; inversion T2; subst; constructor. etransitivity; eassumption.
Qed.

Lemma sim_set_task b h k k' : tasks b !! h = Some k → shape (maxObjectSizeInBytes b) k k' → sim b (set_task h k' b).
Proof.
  intros Hk Hs. split; [done|]. intros h'. unfold set_task. simpl.
  destruct (decide (h' = h)) as [->|].
  - rewrite lookup_insert_eq, Hk. by constructor.
  - rewrite lookup_insert_ne by done. destruct (tasks b !! h'); constructor. reflexivity.
Qed.

Lemma sim_emits b l : sim b (emits l b).
Proof. split; [done|]. intros h. simpl. destruct (tasks b !! h); constructor. reflexivity. Qed.

Lemma sim_lookup b b' h k' : sim b b' → tasks b' !! h = Some k' →
  ∃ k, tasks b !! h = Some k ∧ shape (maxObjectSizeInBytes b) k k'.
Proof. intros [_ T] Hk. specialize (T h). rewrite Hk in T. inversion T; eauto. Qed.

Lemma sim_lookup_l b b' h k : sim b b' → tasks b !! h = Some k →
  ∃ k', tasks b' !! h = Some k' ∧ shape (maxObjectSizeInBytes b) k k'.
Proof. intros [_ T] Hk. specialize (T h). rewrite Hk in T. inversion T; eauto. Qed.

Lemma sim_sector b b' id : sim b b' → sector b' id = sector b id.
Proof.
  intros [_ T]. unfold sector. specialize (T id.1). destruct T as [k k' [A1 A2 A3 A4 A5 A6 A7 A8 A9 A10]|]; [|done].
  simpl. unfold BlockTask.isRead. by rewrite A2, A6.
Qed.

Lemma shape_sub max k k' s pl : shape max k k' → sub_ok max k s pl → sub_ok max k' s pl.
Proof.
  intros [A1 A2 A3 A4 A5 A6 A7 A8 A9 A10] [Hs Hrest]. split; [done|]. unfold BlockTask.isRead in *. rewrite A2.
  case_bool_decide.
  { destruct Hrest as (? & ? & Hz). split; [done|]. split; [done|]. unfold sized. by rewrite A7, A8, A10. }
  destruct Hrest as (o & x & Ho & Hx & Hfit & Hup & Hq).
  destruct (A9 _ _ Hx) as (x' & Hx' & Hor). exists o, x'. rewrite A6. split; [done|]. split; [done|].
  unfold BlockTask.rmw_start, BlockTask.iOff in *. rewrite A7, A8.
  destruct Hor as [->|Hmax]; [done|]. split; [by right|]. split; [by intros _|done].
Qed.

Lemma Inv_sim held fl G b b' : sim b b' → Inv held fl G b → Inv held fl G b'.
Proof.
  intros Hs [I1 I2 I3 I4 I5 I6 I7 I8 I9 I10 I11 I12]. pose proof (sim_env _ _ Hs) as E.
  injection E as Ea Es Em Er Ex.
  split; rewrite ?Ea, ?Es, ?Em, ?Er, ?Ex; try done.
  - rewrite <-I2. apply set_eq. intros h. rewrite !elem_of_dom. pose proof (sim_tasks _ _ Hs h) as T.
    destruct T; split; intros [? ?]; eauto; done.
  - intros h k' Hk'. destruct (sim_lookup _ _ _ _ Hs Hk') as (k & Hk & [A1 A2 A3 A4 A5 A6 A7 A8 A9 A10]).
    unfold task_ok. rewrite A1, A3, A4, A8. by apply I3.
  - intros id pl Hid. destruct (I4 id pl Hid) as (k & Hk & Hsub).
    destruct (sim_lookup_l _ _ _ _ Hs Hk) as (k' & Hk' & Hsh). exists k'. split; [done|]. by eapply shape_sub.
  - intros o. rewrite I8. split; intros [?|(id & kd & ? & ?)]; auto; right; exists id, kd.
    + by rewrite (sim_sector _ _ _ Hs).
    + by rewrite <-(sim_sector _ _ _ Hs).
  - intros id1 id2 kd1 kd2 o. rewrite !(sim_sector _ _ _ Hs). apply I9.
  - intros id kd o. rewrite (sim_sector _ _ _ Hs). apply I10.
  - intros p Hp. destruct (I11 p Hp) as (k & ids & Hk & Hc & Hrest).
    destruct (sim_lookup_l _ _ _ _ Hs Hk) as (k' & Hk' & Hsh). exists k', ids. split; [done|].
    by rewrite (sh_chain _ _ _ Hsh).
Qed.

(** ** Answering a sub-task *)
(** What the handlers in this file leave alone, besides the sectors. *)
Definition unfinished (k : BlockTask.t) : Prop := BlockTask.doneCount k < BlockTask.objCount k.

Record frame b b' : Prop := {
  fr_env : (amAsyncDataApi b', shutting_down b', maxObjectSizeInBytes b') =
           (amAsyncDataApi b, shutting_down b, maxObjectSizeInBytes b);
  fr_outs : ∃ l, outs b' = outs b ++ l ∧ Forall (λ a, ∃ k, a = RespondTask k) l;
  fr_task h k' : tasks b' !! h = Some k' → ∃ k, tasks b !! h = Some k ∧
    BlockTask.chained_responses k' = BlockTask.chained_responses k ∧
    BlockTask.offVec k' = BlockTask.offVec k ∧ BlockTask.operation k' = BlockTask.operation k ∧
    (unfinished k → unfinished k');
}.

#[export] Instance frame_preorder : PreOrder frame.
Proof.
  split.
  - intros b. split; [done|exists []; by rewrite app_nil_r|]. intros h k Hk. by exists k.
  - intros b1 b2 b3 [E1 (l1 & O1 & F1) T1] [E2 (l2 & O2 & F2) T2]. split; [congruence| |].
    + exists (l1 ++ l2). rewrite O2, O1, (assoc (++)). split; [done|]. by apply Forall_app.
    + intros h k3 Hk3. destruct (T2 h k3 Hk3) as (k2 & Hk2 & ? & ? & ? & ?).
      destruct (T1 h k2 Hk2) as (k1 & Hk1 & ? & ? & ? & ?). exists k1. split_and!; try congruence. auto.
Qed.

Lemma frame_set_task b h k k' : tasks b !! h = Some k →
  BlockTask.chained_responses k' = BlockTask.chained_responses k →
  BlockTask.offVec k' = BlockTask.offVec k → BlockTask.operation k' = BlockTask.operation k →
  (unfinished k → unfinished k') → frame b (set_task h k' b).
Proof.
  intros Hk Hc Ho Hp Hu. split; [done|exists []; by rewrite app_nil_r|]. intros h' k2.
  unfold set_task. simpl. intros [[<- <-]|[Hne Hk2]]%lookup_insert_Some; [by exists k|by exists k2].
Qed.

(** A task with nothing left to wait for is handed back. *)
Definition handed_back (h : Z) (k : BlockTask.t) b : t :=
  emit (RespondTask k) (with_tasks (responses b ∖ {[ h ]}) (delete h (tasks b)) b).

Lemma Inv_handed_back held fl G b h k : Inv held fl G b → tasks b !! h = Some k → pend G h = 0%nat →
  Inv held fl G (handed_back h k b).
Proof.
  intros [I1 I2 I3 I4 I5 I6 I7 I8 I9 I10 I11 I12] Hk H0.
  assert (∀ id pl, G !! id = Some pl → id.1 ≠ h) as Hne.
  { intros id pl Hid <-. by apply pend_zero in Hid. }
  assert (∀ id pl, G !! id = Some pl → sector (handed_back h k b) id = sector b id) as Hsec.
  { intros id pl Hid. unfold sector. simpl. rewrite lookup_delete_ne by (apply not_eq_sym; by eapply Hne). done. }
  split; try done.
  - simpl. by rewrite dom_delete_L, I2.
  - intros h' k'. simpl. intros [Hn Hk']%lookup_delete_Some. by apply I3.
  - intros id pl Hid. destruct (I4 id pl Hid) as (k' & Hk' & Hsub). exists k'. split; [|done].
    simpl. rewrite lookup_delete_ne; [done|]. apply not_eq_sym. by eapply Hne.
  - intros o. simpl. rewrite I8. split; intros [?|(id & kd & Hid & Ho)]; auto; right; exists id, kd;
      [rewrite (Hsec _ _ Hid)|rewrite <-(Hsec _ _ Hid)]; done.
  - intros id1 id2 kd1 kd2 o Hid1 Hid2. rewrite (Hsec _ _ Hid1), (Hsec _ _ Hid2). by eapply I9.
  - intros id kd o Hh Hid. rewrite (Hsec _ _ Hid). by eapply I10.
  - intros p Hp. destruct (I11 p Hp) as (k' & ids & Hk' & Hrest). exists k', ids. split; [|done].
    simpl. rewrite lookup_delete_ne; [done|]. apply not_eq_sym. by eapply Hne.
Qed.

Lemma finishResponse_spec b h k : shutting_down b = false → dom (tasks b) = responses b → tasks b !! h = Some k →
  finishResponse h b = Ret (handed_back h k b).
Proof.
  intros Hsd Hd Hk. unfold finishResponse, get_task. rewrite Hk, bind_Ret. cbv zeta.
  rewrite bool_decide_eq_true_2 by (rewrite <-Hd; apply elem_of_dom; eauto).
  cbn [shutting_down emit with_tasks]. by rewrite Hsd.
Qed.

Lemma handed_back_set b h k : handed_back h k (set_task h k b) = handed_back h k b.
Proof. unfold handed_back, with_tasks, set_task. simpl. by rewrite delete_insert_eq. Qed.

Lemma frame_handed_back b h k : frame b (handed_back h k b).
Proof.
  split; [done|exists [RespondTask k]; split; [done|apply Forall_singleton; eauto]|].
  intros h' k'. simpl. intros [_ Hk']%lookup_delete_Some. by exists k'.
Qed.

(** One sub-task fewer to wait for. *)
Lemma Inv_done held fl G b id k k' : Inv held fl G b → G !! id = Some Held →
  tasks b !! id.1 = Some k → BlockTask.doneCount k' = BlockTask.doneCount k + 1 →
  shape (maxObjectSizeInBytes b) k (BlockTask.Make (BlockTask.handle k') (BlockTask.operation k')
    (BlockTask.doneCount k) (BlockTask.objCount k') (BlockTask.chained_responses k') (BlockTask.opError k')
    (BlockTask.bufVec k') (BlockTask.offVec k') (BlockTask.offset k') (BlockTask.length k')
    (BlockTask.maxObjectSizeInBytes k')) →
  Inv held fl (delete id G) (set_task id.1 k' b).
Proof.
  intros [I1 I2 I3 I4 I5 I6 I7 I8 I9 I10 I11 I12] Hid Hk Hdone Hsh.
  pose proof Hsh as [A1 A2 A3 A4 A5 A6 A7 A8 A9 A10]. simpl in *.
  assert (∀ x, sector (set_task id.1 k' b) x = sector b x) as Hsec.
  { intros x. unfold sector. simpl. destruct (decide (x.1 = id.1)) as [->|].
    - rewrite lookup_insert_eq, Hk. simpl. unfold BlockTask.isRead. by rewrite A2, A6.
    - by rewrite lookup_insert_ne. }
  assert (∀ x pl, pl ≠ Held → delete id G !! x = Some pl ↔ G !! x = Some pl) as HG.
  { intros x pl Hpl. destruct (decide (x = id)) as [->|].
    - rewrite lookup_delete_eq, Hid. split; [done|congruence].
    - by rewrite lookup_delete_ne. }
  split; try done; simpl.
  - rewrite dom_insert_L, I2. rewrite <-I2. apply elem_of_dom_2 in Hk. set_solver.
  - intros h k2 [[<- <-]|[Hne Hk2]]%lookup_insert_Some; unfold task_ok.
    + destruct (I3 _ _ Hk) as (? & ? & ? & Hcnt & ?). rewrite (pend_delete _ _ _ _ Hid), decide_True in Hcnt by done.
      rewrite A1, A4, A8, Hdone. split_and!; (done || lia).
    + destruct (I3 _ _ Hk2) as (? & ? & ? & Hcnt & ?). rewrite (pend_delete _ _ _ _ Hid), decide_False in Hcnt by done.
      split_and!; (done || lia).
  - intros x pl [Hne Hx]%lookup_delete_Some. destruct (I4 x pl Hx) as (k2 & Hk2 & Hsub).
    destruct (decide (x.1 = id.1)) as [E|].
    + rewrite E, lookup_insert_eq. rewrite E, Hk in Hk2. injection Hk2 as <-. exists k'. split; [done|].
      apply (shape_sub _ _ _ _ _ Hsh) in Hsub. exact Hsub.
    + rewrite lookup_insert_ne by done. eauto.
  - intros x kd. rewrite HG by done. apply I5.
  - intros o q Hq. destruct (I6 o q Hq) as [? Hc]. split; [done|]. intros x. by rewrite HG.
  - intros x o. rewrite HG by done. apply I7.
  - intros o. rewrite I8. split; intros [?|(x & kd & Hx & Ho)]; auto; right; exists x, kd;
      [rewrite HG, Hsec by done|rewrite HG, Hsec in * by done]; done.
  - intros x1 x2 kd1 kd2 o. rewrite !HG, !Hsec by done. apply I9.
  - intros x kd o Hh. rewrite HG, Hsec by done. by apply I10.
  - intros p. rewrite HG by done. intros Hp. destruct (I11 p Hp) as (k2 & ids & Hk2 & Hc & Hnd & Hall).
    assert (∃ k3, <[id.1:=k']> (tasks b) !! p.1 = Some k3 ∧
      BlockTask.chained_responses k3 = BlockTask.chained_responses k2) as (k3 & Hk3 & Hc3).
    { destruct (decide (p.1 = id.1)) as [E|].
      - rewrite E, lookup_insert_eq. rewrite E, Hk in Hk2. injection Hk2 as <-. eauto.
      - rewrite lookup_insert_ne by done. eauto. }
    exists k3, ids. rewrite Hc3. split_and!; try done. intros x. by rewrite HG.
  - intros x p. rewrite !HG by done. apply I12.
Qed.

Lemma write_done_spec held fl G b id err : Inv held fl G b → G !! id = Some Held →
  ∃ b', write_done err id.1 b = Ret b' ∧ Inv held fl (delete id G) b' ∧ frame b b' ∧
    sector_map b' = sector_map b.
Proof.
  intros HI Hid. destruct (inv_sub _ _ _ _ HI _ _ Hid) as (k & Hk & _).
  pose proof (inv_task _ _ _ _ HI _ _ Hk) as (Hh & Hmx & Hd0 & Hcnt & Hlim).
  rewrite (pend_delete _ _ _ _ Hid), decide_True in Hcnt by done.
  unfold write_done, get_task. rewrite Hk, bind_Ret.
  destruct (BlockTask.handleWriteResponse err k) as [k' fin] eqn:Ew.
  unfold BlockTask.handleWriteResponse in Ew.
  assert (BlockTask.doneCount k' = BlockTask.doneCount k + 1 ∧
    fin = bool_decide (BlockTask.doneCount k + 1 = BlockTask.objCount k) ∧
    BlockTask.chained_responses k' = BlockTask.chained_responses k ∧
    BlockTask.offVec k' = BlockTask.offVec k ∧ BlockTask.operation k' = BlockTask.operation k ∧
    shape (maxObjectSizeInBytes b) k (BlockTask.Make (BlockTask.handle k') (BlockTask.operation k')
    (BlockTask.doneCount k) (BlockTask.objCount k') (BlockTask.chained_responses k') (BlockTask.opError k')
    (BlockTask.bufVec k') (BlockTask.offVec k') (BlockTask.offset k') (BlockTask.length k')
    (BlockTask.maxObjectSizeInBytes k'))) as (Hdone & Hfin & Hc & Ho & Hop & Hsh).
  { case_decide; injection Ew as <- <-; simpl; rewrite u32_small by lia;
      (split_and!; [done|done|done|done|done|]); (split; try done; simpl; eauto). }
  pose proof (Inv_done held fl G b id k k' HI Hid Hk Hdone Hsh) as HI'.
  assert (tasks (set_task id.1 k' b) !! id.1 = Some k') as Hk' by apply lookup_insert_eq.
  case_bool_decide as Hf; subst fin.
  - assert (pend (delete id G) id.1 = 0%nat) as H0 by lia.
    exists (handed_back id.1 k' (set_task id.1 k' b)).
    split; [apply finishResponse_spec; [by apply (inv_env _ _ _ _ HI')|by apply (inv_dom _ _ _ _ HI')|done]|].
    split; [by apply Inv_handed_back|]. split; [|done]. rewrite handed_back_set. apply frame_handed_back.
  - eexists. split; [done|]. split; [done|]. split; [|done]. eapply frame_set_task; try done.
    intros _. unfold unfinished. pose proof (sh_count _ _ _ Hsh) as Ec. simpl in Ec. rewrite Ec. lia.
Qed.

(** ** Applying one update *)
Definition buf_ok (max : Z) (buf : option buffer) : Prop := blen (BlockTask.filled max buf) = max.

Lemma shape_rmw max k s x y : BlockTask.bufVec k !! Z.to_nat s = Some (Some y) → blen x = max →
  shape max k (BlockTask.with_bufs (<[Z.to_nat s := Some x]> (BlockTask.bufVec k)) k).
Proof.
  intros Hy Hx. split; try done. intros i z Hz. simpl. destruct (decide (i = Z.to_nat s)) as [->|].
  - exists x. rewrite list_lookup_insert_eq by (by eapply lookup_lt_Some). auto.
  - rewrite list_lookup_insert_ne by done. eauto.
Qed.

Lemma drain_update_spec held fl G b id buf err : Inv held fl G b → G !! id = Some Held →
  buf_ok (maxObjectSizeInBytes b) buf →
  ∃ b' err' nd, drain_update buf err id b = Ret (b', (err', nd)) ∧ sim b b' ∧ frame b b' ∧
    (err = OK → err' = OK) ∧
    (err' = OK → ∃ x k', nd = Some x ∧ blen x = maxObjectSizeInBytes b ∧ tasks b' !! id.1 = Some k' ∧
       BlockTask.bufVec k' !! Z.to_nat id.2 = Some (Some x)).
Proof.
  intros HI Hid Hbuf. destruct (inv_sub _ _ _ _ HI _ _ Hid) as (k & Hk & Hs0 & Hsub).
  pose proof (inv_task _ _ _ _ HI _ _ Hk) as (Hh & Hmx & _). pose proof (inv_env _ _ _ _ HI) as (_ & _ & Hmax).
  destruct (BlockTask.isRead k) eqn:Hread; [by destruct Hsub as (_ & ? & _)|].
  destruct Hsub as (o & x & Ho & Hx & Hfit & _ & _). destruct id as [h s]. simpl in *.
  unfold drain_update. rewrite decide_False.
  2:{ intros Hn. apply Hn. rewrite <-(inv_dom _ _ _ _ HI). apply elem_of_dom. eauto. }
  unfold get_task, BlockTask.getBuffer. rewrite Hk, bind_Ret, Hx, bind_Ret.
  case_decide as Hpart.
  2:{ eexists b, err, (Some x). split; [done|]. split; [reflexivity|]. split; [reflexivity|]. split; [done|].
      intros _. exists x, k. done. }
  destruct Hfit as [Hfit|?]; [|congruence].
  destruct (decide (err ≠ OK ∧ err ≠ MISSING_RESOURCE)) as [Herr|Herr].
  - unfold BlockTask.handleRMWResponse. rewrite decide_True by done. rewrite bind_Ret.
    eexists _, err, None. split; [done|].
    assert (shape (maxObjectSizeInBytes b) k (BlockTask.setError err k)) as Hsh by (split; try done; eauto).
    split; [by eapply sim_set_task|]. split; [by eapply frame_set_task|]. split; [done|]. naive_solver.
  - assert (blen (BlockTask.rmw_base err buf k) = maxObjectSizeInBytes b) as Hbase.
    { unfold BlockTask.rmw_base. rewrite Hmx. case_decide; [apply BlockTask.length_zeros; lia|done]. }
    assert (0 ≤ BlockTask.rmw_start s k) as Hst.
    { unfold BlockTask.rmw_start, BlockTask.iOff.
      pose proof (Z.mod_pos_bound (BlockTask.offset k) (BlockTask.maxObjectSizeInBytes k)). case_decide; lia. }
    unfold blen in Hfit, Hbase.
    rewrite (BlockTask.handleRMW_overlay buf s err k x); [|destruct err; naive_solver|done|lia|unfold blen; lia].
    rewrite bind_Ret. cbn [fst snd]. set (y := BlockTask.overlay _ _ _).
    assert (blen y = maxObjectSizeInBytes b) as Hy.
    { unfold y, blen. rewrite BlockTask.length_overlay; lia. }
    eexists _, OK, (Some y). split; [done|]. split; [eapply sim_set_task; [done|by eapply shape_rmw]|].
    split; [by eapply frame_set_task|]. split; [done|]. intros _. eexists y, _. split; [done|]. split; [done|].
    split; [apply lookup_insert_eq|]. simpl. apply list_lookup_insert_eq. by eapply lookup_lt_Some.
Qed.

(** ** The queue of a sector *)
Lemma Inv_pop fl G b o q id l q' : Inv (Some o) fl G b → sector_map b !! o = Some q →
  contents q = id :: l → contents q' = l →
  G !! id = Some (Queued o) ∧ sector b id = Some o ∧
  Inv (Some o) fl (<[id := Held]> G) (with_sectors (<[o := q']> (sector_map b)) b).
Proof.
  intros [I1 I2 I3 I4 I5 I6 I7 I8 I9 I10 I11 I12] Hq Hc Hc'.
  destruct (I6 o q Hq) as [Hnd Hall]. rewrite Hc in Hnd, Hall. apply NoDup_cons in Hnd as [Hni Hnd].
  assert (G !! id = Some (Queued o)) as Hid by (apply Hall; by left).
  destruct (I4 _ _ Hid) as (k & Hk & Hs0 & Hsub). destruct (BlockTask.isRead k) eqn:Hrd; [by destruct Hsub as (_ & ? & _)|].
  destruct Hsub as (o' & x & Ho & Hx & Hfit & Hup & Hqo). pose proof (Hqo o eq_refl) as <-.
  split; [done|]. split; [unfold sector; rewrite Hk; simpl; by rewrite Hrd|].
  assert (∀ x pl, pl ≠ Held → pl ≠ Queued o → <[id:=Held]> G !! x = Some pl ↔ G !! x = Some pl) as HG.
  { intros y pl H1 H2. destruct (decide (y = id)) as [->|].
    - rewrite lookup_insert_eq, Hid. split; intros [= <-]; done.
    - by rewrite lookup_insert_ne. }
  assert (∀ y, is_Some (<[o:=q']> (sector_map b) !! y) ↔ is_Some (sector_map b !! y)) as Hdom.
  { intros y. destruct (decide (y = o)) as [->|]; [rewrite lookup_insert_eq, Hq; split; eauto|].
    by rewrite lookup_insert_ne. }
  split; try done; simpl.
  - intros h k2 Hk2. destruct (I3 _ _ Hk2) as (? & ? & ? & ? & ?). unfold task_ok.
    rewrite (pend_update _ _ _ _ _ Hid). done.
  - intros y pl [[<- <-]|[Hne Hy]]%lookup_insert_Some; [|by apply I4]. exists k. split; [done|].
    split; [done|]. rewrite Hrd. exists o, x. split_and!; done.
  - intros y kd. rewrite HG by done. apply I5.
  - intros y q2 [[<- <-]|[Hne Hq2]]%lookup_insert_Some.
    + rewrite Hc'. split; [done|]. intros y. destruct (decide (y = id)) as [->|].
      * rewrite lookup_insert_eq. split; [done|congruence].
      * rewrite lookup_insert_ne by done. rewrite <-Hall. set_solver.
    + destruct (I6 y q2 Hq2) as [? Hally]. split; [done|]. intros z. rewrite Hally, HG by congruence. done.
  - intros y o2 Hy. apply Hdom. destruct (decide (y = id)) as [->|].
    + by rewrite lookup_insert_eq in Hy.
    + rewrite lookup_insert_ne in Hy by done. by eapply I7.
  - intros y. rewrite Hdom, I8. split; intros [?|(z & kd & Hz & Hsec)]; auto; right; exists z, kd;
      [rewrite HG by done|rewrite HG in Hz by done]; done.
  - intros y1 y2 kd1 kd2 o2. rewrite !HG by done. apply I9.
  - intros y kd o2 Hh. rewrite HG by done. by apply I10.
  - intros p. rewrite HG by done. intros Hp. destruct (I11 p Hp) as (k2 & ids & Hk2 & Hch & Hndi & Hids).
    exists k2, ids. split_and!; try done. intros y. rewrite HG by done. apply Hids.
  - intros y p. rewrite !HG by done. apply I12.
Qed.

Lemma Inv_unlock fl G b o q : Inv (Some o) fl G b → sector_map b !! o = Some q → contents q = [] →
  Inv None fl G (with_sectors (delete o (sector_map b)) b).
Proof.
  intros [I1 I2 I3 I4 I5 I6 I7 I8 I9 I10 I11 I12] Hq Hc. destruct (I6 o q Hq) as [_ Hall]. rewrite Hc in Hall.
  split; try done; simpl.
  - intros y q2 [_ Hq2]%lookup_delete_Some. by apply I6.
  - intros y o2 Hy. destruct (decide (o2 = o)) as [->|].
    + by apply Hall, elem_of_nil in Hy.
    + rewrite lookup_delete_ne by done. by eapply I7.
  - intros y. destruct (decide (y = o)) as [->|].
    + rewrite lookup_delete_eq. split; [by intros [? ?]|]. intros [?|(id & kd & Hid & Hs)]; [done|].
      by destruct (I10 id kd o).
    + rewrite lookup_delete_ne by done. rewrite I8. split; intros [?|?]; auto; congruence.
Qed.

(** [pop] on a sector that is locked by the handler. *)
Lemma pop_spec fl G b o del : Inv (Some o) fl G b → ∃ q, sector_map b !! o = Some q ∧
  match contents q with
  | id :: l => ∃ q', pop o del (sector_map b) = (<[o := q']> (sector_map b), Some id) ∧ contents q' = l
  | [] => pop o del (sector_map b) = (if del then delete o (sector_map b) else sector_map b, None)
  end.
Proof.
  intros HI. destruct (proj2 (inv_lock _ _ _ _ HI o) ltac:(by left)) as [q Hq]. exists q. split; [done|].
  unfold pop. rewrite Hq. pose proof (spsc_pop_contents q) as Hp. destruct (contents q) as [|id l].
  - by rewrite Hp.
  - destruct Hp as (q' & -> & Hc). eauto.
Qed.

Lemma frame_with_sectors b m : frame b (with_sectors m b).
Proof. split; [done|exists []; by rewrite app_nil_r|]. intros h k Hk. by exists k. Qed.

(** The sector of a task that is still there does not change. *)
Lemma frame_sector b b' id o : frame b b' → is_Some (tasks b' !! id.1) → sector b id = Some o → sector b' id = Some o.
Proof.
  intros Hf [k' Hk'] Hs. destruct (fr_task _ _ Hf _ _ Hk') as (k & Hk & _ & Ho & Hp & _). unfold sector in *.
  rewrite Hk' . rewrite Hk in Hs. simpl in *. unfold BlockTask.isRead in *. by rewrite Hp, Ho.
Qed.

(** ** Draining the queue of a sector *)
(** The updates rolled up so far, in order: [hs]. *)
Definition linked (last_chained : option Z) (chain : list Z) (hs : list (Z * Z)) : Prop :=
  match last_chained with None => hs = [] ∧ chain = [] | Some l => chain ++ [l] = hs.*1 end.

(** The sub-tasks a handler is working on. *)
Definition holds G (X : Z * Z → Prop) : Prop := ∀ x, G !! x = Some Held ↔ X x.

Definition drained o fl (X : Z * Z → Prop) b (r : t * option buffer * option Z * list Z * (Z * Z)) : Prop :=
  let '(b', buf', last', chain', id') := r in
  frame b b' ∧ ∃ G',
  match last' with
  | None => Inv None fl G' b' ∧ holds G' X
  | Some h => Inv (Some o) fl G' b' ∧ h = id'.1 ∧ sector b' id' = Some o ∧ ∃ hs' y k',
      NoDup (hs' ++ [id']) ∧ (∀ x, x ∈ hs' ++ [id'] → ¬ X x) ∧
      holds G' (λ x, X x ∨ x ∈ hs' ++ [id']) ∧ chain' = hs'.*1 ∧
      buf' = Some y ∧ blen y = maxObjectSizeInBytes b' ∧ tasks b' !! id'.1 = Some k' ∧
      BlockTask.bufVec k' !! Z.to_nat id'.2 = Some (Some y)
  end.

Lemma drained_frame o fl X b b1 r : frame b b1 → drained o fl X b1 r → drained o fl X b r.
Proof.
  destruct r as [[[[b' buf'] last'] chain'] id']. intros Hf [Hf' H]. split; [|done]. by etransitivity.
Qed.

Lemma drain_loop_spec fuel o fl X G b id buf err last chain hs :
  Inv (Some o) fl G b → sector b id = Some o → holds G (λ x, X x ∨ x ∈ hs ++ [id]) →
  NoDup (hs ++ [id]) → (∀ x, x ∈ hs ++ [id] → ¬ X x) → linked last chain hs →
  (last ≠ None → err = OK) → buf_ok (maxObjectSizeInBytes b) buf →
  (∀ q, sector_map b !! o = Some q → (length (contents q) < fuel)%nat) →
  ∃ r, drain_loop fuel o buf err last chain id b = Ret r ∧ drained o fl X b r.
Proof.
  revert G b id buf err last chain hs.
  induction fuel as [|fuel IH]; intros G b id buf err last chain hs HI Hsec HH Hnd HX Hlink Hlast Hbuf Hfuel.
  { destruct (proj2 (inv_lock _ _ _ _ HI o) ltac:(by left)) as [q Hq]. specialize (Hfuel q Hq). lia. }
  assert (G !! id = Some Held) as Hid by (apply HH; set_solver).
  destruct (drain_update_spec _ _ _ _ _ buf err HI Hid Hbuf) as (b1 & err' & nd & E1 & Hsim & Hfr1 & Hok & Hnew).
  pose proof (Inv_sim _ _ _ _ _ Hsim HI) as HI1. pose proof (sim_env _ _ Hsim) as Henv.
  injection Henv as _ _ Emax _ Esec. cbn [drain_loop]. rewrite E1, bind_Ret.
  case_decide as Herr.
  - (* the update fails: its task is answered *)
    assert (last = None) as -> by (destruct last; [by destruct Herr; apply Hok, Hlast|done]).
    destruct Hlink as [-> ->]. cbn [app] in *.
    destruct (write_done_spec _ _ _ _ _ err' HI1 Hid) as (b2 & E2 & HI2 & Hfr2 & Esec2).
    rewrite E2, !bind_Ret. cbv beta iota. rewrite (bool_decide_eq_true_2 (None = None)) by done.
    assert (holds (delete id G) X) as HH2.
    { intros x. rewrite lookup_delete_Some, (HH x). set_solver. }
    destruct (pop_spec _ _ _ _ true HI2) as (q & Hq & Hpop). destruct (contents q) as [|id2 l] eqn:Hc.
    + rewrite Hpop. eexists. split; [done|]. split.
      * etransitivity; [done|]. etransitivity; [done|]. apply frame_with_sectors.
      * exists (delete id G). split; [by eapply Inv_unlock|done].
    + destruct Hpop as (q' & -> & Hc'). destruct (Inv_pop _ _ _ _ _ _ _ _ HI2 Hq Hc Hc') as (Hq2 & Hs2 & HI3).
      destruct (IH (<[id2:=Held]> (delete id G)) (with_sectors (<[o:=q']> (sector_map b2)) b2)
        id2 buf err' None [] []) as (r & -> & Hr); [exact HI3|done|..].
      * intros x. destruct (decide (x = id2)) as [->|]; [rewrite lookup_insert_eq; set_solver|].
        rewrite lookup_insert_ne, (HH2 x) by done. set_solver.
      * apply NoDup_singleton.
      * intros x ->%list_elem_of_singleton HXx. apply HH2 in HXx. congruence.
      * done.
      * done.
      * pose proof (fr_env _ _ Hfr2) as Ef. injection Ef as _ _ Ef. simpl. by rewrite Ef, Emax.
      * intros q2. simpl. rewrite lookup_insert_eq. intros [= <-]. rewrite Hc'.
        rewrite Esec2, Esec in Hq. specialize (Hfuel q Hq). rewrite Hc in Hfuel. simpl in Hfuel. lia.
      * exists r. split; [done|]. eapply drained_frame; [|exact Hr].
        etransitivity; [done|]. etransitivity; [done|]. apply frame_with_sectors.
  - (* the update is rolled up *)
    destruct (Hnew Herr) as (y & k' & -> & Hy & Hk' & Hby).
    set (chain' := match last with Some l => chain ++ [l] | None => chain end).
    assert (chain' = hs.*1) as Hchain.
    { unfold chain', linked in *. destruct last; [done|]. by destruct Hlink as [-> ->]. }
    rewrite bind_Ret. cbv beta iota. rewrite (bool_decide_eq_false_2 (Some id.1 = None)) by done.
    destruct (pop_spec _ _ _ _ false HI1) as (q & Hq & Hpop). destruct (contents q) as [|id2 l] eqn:Hc.
    + rewrite Hpop. eexists. split; [done|]. split; [etransitivity; [done|apply frame_with_sectors]|].
      exists G. split; [|split; [done|split]].
      * eapply Inv_sim, HI1. split; [done|]. intros h. simpl. destruct (tasks b1 !! h); by constructor.
      * unfold sector. simpl. rewrite <-(sim_sector _ _ id Hsim) in Hsec. exact Hsec.
      * exists hs, y, k'. simpl. rewrite Emax. split_and!; try done.
    + destruct Hpop as (q' & -> & Hc'). destruct (Inv_pop _ _ _ _ _ _ _ _ HI1 Hq Hc Hc') as (Hq2 & Hs2 & HI3).
      assert (id2 ∉ hs ++ [id] ∧ ¬ X id2) as [Hni2 HnX2].
      { split; intros Hx; (assert (G !! id2 = Some Held) by (apply HH; auto)); congruence. }
      destruct (IH (<[id2:=Held]> G) (with_sectors (<[o:=q']> (sector_map b1)) b1)
        id2 (Some y) err' (Some id.1) chain' (hs ++ [id])) as (r & -> & Hr); [exact HI3|done|..].
      * intros x. destruct (decide (x = id2)) as [->|]; [rewrite lookup_insert_eq; set_solver|].
        rewrite lookup_insert_ne, (HH x) by done. set_solver.
      * apply NoDup_app. split_and!; [done|set_solver|apply NoDup_singleton].
      * intros x [Hx| ->%list_elem_of_singleton]%elem_of_app; [by apply HX|done].
      * simpl. by rewrite Hchain, fmap_app.
      * done.
      * simpl. rewrite Emax. unfold buf_ok. destruct y; simpl; [|done]. exfalso.
        pose proof (inv_env _ _ _ _ HI) as (_ & _ & ?). unfold blen in Hy. simpl in Hy. lia.
      * intros q2. simpl. rewrite lookup_insert_eq. intros [= <-]. rewrite Hc'.
        rewrite Esec in Hq. specialize (Hfuel q Hq). rewrite Hc in Hfuel. simpl in Hfuel. lia.
      * exists r. split; [done|]. eapply drained_frame; [|exact Hr].
        etransitivity; [done|]. apply frame_with_sectors.
Qed.

(** ** Issuing an update *)
Definition mark (pl : place) (ids : list (Z * Z)) G : gmap (Z * Z) place := foldr (λ x G, <[x := pl]> G) G ids.

Lemma lookup_mark pl ids G x : mark pl ids G !! x = if decide (x ∈ ids) then Some pl else G !! x.
Proof.
  induction ids as [|y ids IH]; [by rewrite decide_False by apply not_elem_of_nil|].
  unfold mark in *. cbn [foldr]. destruct (decide (x = y)) as [->|Hne].
  - rewrite lookup_insert_eq. by rewrite decide_True by (by left).
  - rewrite lookup_insert_ne, IH by done. repeat case_decide; set_solver.
Qed.

Lemma pend_mark pl ids G h : (∀ x, x ∈ ids → is_Some (G !! x)) → pend (mark pl ids G) h = pend G h.
Proof.
  induction ids as [|y ids IH]; intros Hs; simpl; [done|].
  rewrite <-IH by set_solver. destruct (Hs y ltac:(by left)) as [p Hp].
  eapply (pend_update _ y (if decide (y ∈ ids) then pl else p)). rewrite lookup_mark. by case_decide.
Qed.

(** Chains of tasks that are not outstanding are free to change. *)
Lemma Inv_set_chains held fl G b h k c : Inv held fl G b → tasks b !! h = Some k →
  (∀ s, G !! (h, s) = Some (InFlight KUpdate) → c !! s = BlockTask.chained_responses k !! s) →
  Inv held fl G (set_task h (BlockTask.with_chains c k) b).
Proof.
  intros [I1 I2 I3 I4 I5 I6 I7 I8 I9 I10 I11 I12] Hk Hc.
  set (b' := set_task h _ b).
  assert (∀ x, sector b' x = sector b x) as Hsec.
  { intros x. unfold sector, b'. simpl. destruct (decide (x.1 = h)) as [->|].
    - by rewrite lookup_insert_eq, Hk.
    - by rewrite lookup_insert_ne. }
  split; try done.
  - simpl. rewrite dom_insert_L, I2, <-I2. apply elem_of_dom_2 in Hk. set_solver.
  - intros h' k'. simpl. intros [[<- <-]|[Hne Hk']]%lookup_insert_Some; [by apply (I3 _ _ Hk)|by apply I3].
  - intros x pl Hx. destruct (I4 x pl Hx) as (k' & Hk' & Hsub). simpl. destruct (decide (x.1 = h)) as [E|].
    + rewrite E, lookup_insert_eq. rewrite E, Hk in Hk'. injection Hk' as <-. eexists. split; [done|]. exact Hsub.
    + rewrite lookup_insert_ne by done. eauto.
  - intros o. change (sector_map b') with (sector_map b). rewrite I8. split; intros [?|(x & kd & ? & ?)]; auto; right; exists x, kd;
      [rewrite Hsec|rewrite Hsec in *]; done.
  - intros x1 x2 kd1 kd2 o. rewrite !Hsec. apply I9.
  - intros x kd o. rewrite Hsec. apply I10.
  - intros p Hp. destruct (I11 p Hp) as (k' & ids & Hk' & Hch & Hrest). simpl.
    destruct (decide (p.1 = h)) as [E|].
    + rewrite E, lookup_insert_eq. rewrite E, Hk in Hk'. injection Hk' as <-. eexists _, ids. split; [done|].
      split; [|done]. simpl. rewrite Hc; [done|]. by rewrite <-E, <-surjective_pairing.
    + rewrite lookup_insert_ne by done. eauto.
Qed.

Lemma Inv_launch fl G b o hs id k y : Inv (Some o) fl G b → (∀ x, x ∈ hs ++ [id] → G !! x = Some Held) →
  NoDup (hs ++ [id]) → sector b id = Some o → tasks b !! id.1 = Some k →
  default [] (BlockTask.chained_responses k !! id.2) = hs.*1 →
  BlockTask.bufVec k !! Z.to_nat id.2 = Some (Some y) → blen y = maxObjectSizeInBytes b →
  Inv None (<[id := KUpdate]> fl) (<[id := InFlight KUpdate]> (mark (Chained id) hs G)) b.
Proof.
  intros [I1 I2 I3 I4 I5 I6 I7 I8 I9 I10 I11 I12] HH Hnd Hsec Hk Hch Hy Hmax.
  apply NoDup_app in Hnd as (Hnd & Hni & _). assert (id ∉ hs) as Hid by (intros ?; by apply (Hni id), list_elem_of_singleton).
  assert (G !! id = Some Held) as Hh by (apply HH; set_solver).
  set (G' := <[id := InFlight KUpdate]> _).
  assert (∀ x, G' !! x = if decide (x = id) then Some (InFlight KUpdate)
    else if decide (x ∈ hs) then Some (Chained id) else G !! x) as HG.
  { intros x. unfold G'. destruct (decide (x = id)) as [->|]; [apply lookup_insert_eq|].
    by rewrite lookup_insert_ne, lookup_mark. }
  assert (∀ x pl, pl ≠ Held → pl ≠ Chained id → x ≠ id → G' !! x = Some pl ↔ G !! x = Some pl) as HG2.
  { intros x pl H1 H2 H3. rewrite HG, decide_False by done. case_decide; [|done].
    rewrite HH by set_solver. split; intros [= <-]; done. }
  assert (∀ x, G !! x ≠ Some (Chained id)) as Hnc.
  { intros x Hx. apply I12 in Hx. congruence. }
  split; try done.
  - intros h k' Hk'. destruct (I3 _ _ Hk') as (? & ? & ? & ? & ?). unfold task_ok, G'.
    rewrite (pend_update _ _ Held), pend_mark; [done|intros x Hx; rewrite HH by set_solver; eauto|].
    rewrite lookup_mark, decide_False by done. done.
  - intros x pl. rewrite HG. intros Hx.
    assert (∃ pl0, G !! x = Some pl0 ∧ (pl0 = pl ∨ pl0 = Held ∧ (x = id ∨ pl = Chained id))) as (pl0 & H0 & Hpl).
    { repeat case_decide; [subst; exists Held; auto| |eauto].
      simplify_eq. exists Held. split; [apply HH; set_solver|auto]. }
    destruct (I4 _ _ H0) as (k' & Hk' & Hs0 & Hsub). exists k'. split; [done|]. split; [done|].
    destruct Hpl as [->|[-> Hx2]]; [done|]. destruct (BlockTask.isRead k'); [by destruct Hsub as (_ & ? & _)|].
    destruct Hsub as (o' & z & ? & Hz & ? & _ & _). exists o', z. split_and!; try done.
    + intros ->. destruct (decide (x = id)) as [->|]; [|by destruct Hx2].
      rewrite Hk in Hk'. injection Hk' as <-. congruence.
    + intros o2 ->. destruct Hx2 as [->|?]; [|done]. by rewrite decide_True in Hx.
  - intros x kd. destruct (decide (x = id)) as [->|].
    + rewrite lookup_insert_eq, HG, decide_True by done. naive_solver.
    + rewrite lookup_insert_ne, HG2 by done. apply I5.
  - intros o' q Hq. destruct (I6 o' q Hq) as [? Hall]. split; [done|]. intros x. rewrite Hall.
    destruct (decide (x = id)) as [->|]; [rewrite HG, decide_True by done; naive_solver|by rewrite HG2].
  - intros x o'. destruct (decide (x = id)) as [->|]; [rewrite HG, decide_True by done; done|].
    rewrite HG2 by done. apply I7.
  - intros o'. rewrite I8. split.
    + intros [[= <-]|(x & kd & Hx & Hs)]; right; [exists id, KUpdate; by rewrite HG, decide_True|].
      exists x, kd. rewrite HG2; [done|done|done|congruence].
    + intros [?|(x & kd & Hx & Hs)]; [done|]. destruct (decide (x = id)) as [->|]; [left; congruence|].
      right. exists x, kd. by rewrite HG2 in Hx.
  - intros x1 x2 kd1 kd2 o' H1 H2 Hs1 Hs2.
    destruct (decide (x1 = id)) as [->|], (decide (x2 = id)) as [->|]; [done| | |].
    + rewrite HG2 in H2 by done. destruct (I10 x2 kd2 o); congruence.
    + rewrite HG2 in H1 by done. destruct (I10 x1 kd1 o); congruence.
    + rewrite HG2 in H1, H2 by done. by eapply I9.
  - intros p Hp. destruct (decide (p = id)) as [->|Hne].
    + exists k, hs. split_and!; try done. intros x. rewrite HG. repeat case_decide; subst; naive_solver.
    + rewrite HG2 in Hp by done. destruct (I11 p Hp) as (k' & ids & ? & ? & ? & Hall). exists k', ids.
      split_and!; try done. intros x. rewrite Hall. destruct (decide (x = id)) as [->|]; [|rewrite HG2 by congruence; done].
      rewrite HG, decide_True by done. naive_solver.
  - intros x p Hx. destruct (decide (p = id)) as [->|Hne]; [by rewrite HG, decide_True|].
    assert (G !! x = Some (Chained p)) as Hxp.
    { rewrite HG in Hx. repeat case_decide; [done|congruence|done]. }
    apply I12 in Hxp. by rewrite HG2.
Qed.

(** The requests outstanding after the calls of a handler. *)
Definition issue fl (l : list action) : gmap (Z * Z) kind :=
  foldl (λ fl a, match a with
                 | GetBlob id _ _ => <[id := KGet]> fl
                 | UpdateBlobOnce id _ _ _ => <[id := KUpdate]> fl
                 | _ => fl
                 end) fl l.

Lemma issue_responds fl l : Forall (λ a, ∃ k, a = RespondTask k) l → issue fl l = fl.
Proof. induction 1 as [|a l [k ->] _ IH]; [done|]. exact IH. Qed.

Lemma issue_app fl l1 l2 : issue fl (l1 ++ l2) = issue (issue fl l1) l2.
Proof. apply foldl_app. Qed.

(** A task is answered when its last sub-task is. *)
Definition busy b : Prop := ∀ h k, tasks b !! h = Some k → unfinished k.

Lemma busy_set_task b h k : busy b → unfinished k → busy (set_task h k b).
Proof. intros Hb Hk h' k'. cbn [set_task with_tasks tasks]. intros [[_ <-]|[_ ?]]%lookup_insert_Some; [done|by eapply Hb]. Qed.

(** [b'] comes after [b] by a handler whose calls turn [fl] into [fl']. *)
Definition emitted fl fl' b b' : Prop :=
  (∃ l, outs b' = outs b ++ l ∧ fl' = issue fl l) ∧ (busy b → busy b').

Lemma emitted_frame fl b b' : frame b b' → emitted fl fl b b'.
Proof.
  intros [_ (l & Ho & Hl) Ht]. split; [exists l; by rewrite issue_responds|]. intros Hb h k' Hk'.
  destruct (Ht h k' Hk') as (k & Hk & _ & _ & _ & Hu). apply Hu. by eapply Hb.
Qed.

Lemma emitted_trans fl fl1 fl2 b b1 b2 : emitted fl fl1 b b1 → emitted fl1 fl2 b1 b2 → emitted fl fl2 b b2.
Proof.
  intros [(l1 & H1 & ->) B1] [(l2 & H2 & ->) B2]. split; [|auto]. exists (l1 ++ l2).
  rewrite H2, H1, (assoc (++)). split; [done|]. by rewrite issue_app.
Qed.

(** Chains that a handler has not looked at yet. *)
Definition same_chains (X : Z * Z → Prop) b b' : Prop := ∀ x k k', X x →
  tasks b !! x.1 = Some k → tasks b' !! x.1 = Some k' →
  BlockTask.chained_responses k' !! x.2 = BlockTask.chained_responses k !! x.2.

Lemma frame_chains X b b' : frame b b' → same_chains X b b'.
Proof.
  intros Hf x k k' _ Hk Hk'. destruct (fr_task _ _ Hf _ _ Hk') as (k2 & Hk2 & Hc & _).
  rewrite Hk in Hk2. injection Hk2 as <-. by rewrite Hc.
Qed.

(** The end of a drain: the rolled-up update is sent. *)
Lemma drain_finish o fl X b0 r : drained o fl X b0 r →
  ∃ b' fl' G', (let '(b, buf, last_chained, chain, id) := r in
    match last_chained with
    | None => Ret b
    | Some h =>
        k ← get_task h b;
        call (UpdateBlobOnce id buf (i32 (maxObjectSizeInBytes (set_task h (BlockTask.setChain id.2 chain k) b)))
                (i64 o)) (set_task h (BlockTask.setChain id.2 chain k) b)
    end) = Ret b' ∧ Inv None fl' G' b' ∧ holds G' X ∧ emitted fl fl' b0 b' ∧ same_chains X b0 b' ∧
    maxObjectSizeInBytes b' = maxObjectSizeInBytes b0.
Proof.
  destruct r as [[[[b1 buf] last] chain] id]. intros [Hf (G1 & Hpost)].
  pose proof (fr_env _ _ Hf) as Ef. injection Ef as _ _ Emax.
  destruct last as [h|].
  2:{ destruct Hpost as [HI HH]. exists b1, fl, G1. split; [done|]. split; [done|]. split; [done|].
      split; [by apply emitted_frame|]. split; [by apply frame_chains|done]. }
  destruct Hpost as (HI & -> & Hsec & hs & y & k & Hnd & HX & HH & -> & -> & Hy & Hk & Hby).
  unfold get_task. rewrite Hk, bind_Ret. set (k' := BlockTask.setChain id.2 hs.*1 k).
  set (b2 := set_task id.1 k' b1).
  assert (G1 !! id = Some Held) as Hid by (apply HH; set_solver).
  assert (Inv (Some o) fl G1 b2) as HI2.
  { eapply Inv_set_chains; [done|done|]. intros s Hs. rewrite lookup_insert_ne; [done|].
    intros <-. rewrite <-surjective_pairing in Hs. congruence. }
  assert (tasks b2 !! id.1 = Some k') as Hk2 by apply lookup_insert_eq.
  pose proof (Inv_launch fl G1 b2 o hs id k' y HI2) as HL.
  eexists _, (<[id := KUpdate]> fl), _. split.
  { unfold call. change (amAsyncDataApi b2) with (amAsyncDataApi b1).
    by rewrite (proj1 (inv_env _ _ _ _ HI)). }
  split.
  { eapply Inv_sim; [apply (sim_emits _ [_])|]. apply HL; try done.
    - intros x Hx. apply HH. by right.
    - unfold sector. rewrite Hk2. unfold sector in Hsec. rewrite Hk in Hsec. exact Hsec.
    - unfold k'. simpl. by rewrite lookup_insert_eq. }
  split.
  { intros x. destruct (decide (x = id)) as [->|Hne].
    - rewrite lookup_insert_eq. split; [done|]. intros Hx. exfalso. apply (HX id); [set_solver|done].
    - rewrite lookup_insert_ne, lookup_mark by done. case_decide as Hin.
      + split; [done|]. intros Hx. exfalso. apply (HX x); [set_solver|done].
      + rewrite (HH x). set_solver. }
  split; [|split; [|done]].
  - eapply emitted_trans; [by apply emitted_frame|]. split; [by eexists [_]|].
    intros Hb. apply busy_set_task; [done|]. exact (Hb _ _ Hk).
  - intros x k1 k2 Hx Hk1. simpl. destruct (decide (x.1 = id.1)) as [E|].
    + rewrite E, lookup_insert_eq. intros [= <-]. simpl.
      assert (x.2 ≠ id.2) as Hne2.
      { intros E2. apply (HX id); [set_solver|]. by replace id with x by (destruct x, id; simpl in *; congruence). }
      rewrite lookup_insert_ne by done. apply (frame_chains X b0 b1 Hf x k1 k); [done|done|]. by rewrite E.
    + rewrite lookup_insert_ne by done. by apply (frame_chains X b0 b1 Hf).
Qed.

Lemma drainUpdateChain_spec fuel o fl X G b buf ptr err : Inv (Some o) fl G b →
  holds G (λ x, X x ∨ Some x = ptr) → (∀ id, ptr = Some id → sector b id = Some o ∧ ¬ X id) →
  buf_ok (maxObjectSizeInBytes b) buf →
  (∀ q, sector_map b !! o = Some q → (length (contents q) < fuel)%nat) →
  ∃ b' fl' G', drainUpdateChain fuel o buf ptr err b = Ret b' ∧ Inv None fl' G' b' ∧ holds G' X ∧
    emitted fl fl' b b' ∧ same_chains X b b' ∧ maxObjectSizeInBytes b' = maxObjectSizeInBytes b.
Proof.
  intros HI HH Hptr Hbuf Hfuel. unfold drainUpdateChain.
  assert (∀ id G1 b1, Inv (Some o) fl G1 b1 → sector b1 id = Some o → holds G1 (λ x, X x ∨ x ∈ [id]) → ¬ X id →
    frame b b1 → (∀ q, sector_map b1 !! o = Some q → (length (contents q) < fuel)%nat) →
    ∃ r, drain_loop fuel o buf err None [] id b1 = Ret r ∧ drained o fl X b r) as Hloop.
  { intros id G1 b1 HI1 Hs1 HH1 HX1 Hf1 Hfuel1. pose proof (fr_env _ _ Hf1) as Ef. injection Ef as _ _ Emax.
    destruct (drain_loop_spec fuel o fl X G1 b1 id buf err None [] []) as (r & Er & Hr); try done.
    - apply NoDup_singleton.
    - by intros x ->%list_elem_of_singleton.
    - by rewrite Emax.
    - exists r. split; [done|]. by eapply drained_frame. }
  destruct ptr as [id|].
  - destruct (Hptr id eq_refl) as [Hs HX]. destruct (Hloop id G b) as (r & -> & Hr); try done.
    + intros x. rewrite (HH x). rewrite list_elem_of_singleton. naive_solver.
    + rewrite bind_Ret. destruct (drain_finish _ _ _ _ _ Hr) as (b' & fl' & G' & E & Hrest).
      exists b', fl', G'. split; [|done]. destruct r as [[[[? ?] []] ?] ?]; exact E.
  - assert (holds G X) as HH0 by (intros x; rewrite (HH x); naive_solver).
    destruct (pop_spec _ _ _ _ true HI) as (q & Hq & Hpop). destruct (contents q) as [|id l] eqn:Hc.
    + rewrite Hpop. eexists _, fl, G. split; [done|]. split; [by eapply Inv_unlock|]. split; [done|].
      split; [apply emitted_frame, frame_with_sectors|]. split; [apply frame_chains, frame_with_sectors|done].
    + destruct Hpop as (q' & -> & Hc'). destruct (Inv_pop _ _ _ _ _ _ _ _ HI Hq Hc Hc') as (Hq2 & Hs2 & HI3).
      assert (¬ X id) as HnX by (intros Hx%HH0; congruence).
      destruct (Hloop id (<[id:=Held]> G) (with_sectors (<[o:=q']> (sector_map b)) b)) as (r & -> & Hr); try done.
      * intros x. destruct (decide (x = id)) as [->|]; [rewrite lookup_insert_eq; set_solver|].
        rewrite lookup_insert_ne, (HH0 x) by done. set_solver.
      * apply frame_with_sectors.
      * intros q2. simpl. rewrite lookup_insert_eq. intros [= <-]. rewrite Hc'. specialize (Hfuel q Hq).
        rewrite Hc in Hfuel. simpl in Hfuel. lia.
      * rewrite bind_Ret. destruct (drain_finish _ _ _ _ _ Hr) as (b' & fl' & G' & E & Hrest).
        exists b', fl', G'. split; [|done]. destruct r as [[[[? ?] []] ?] ?]; exact E.
Qed.

(** ** Responses of the service *)
(** A response puts its sub-task, and those rolled up in it, in the hands of
    the handler, and the sector with them. *)
Lemma Inv_take fl G b id kd o ids : Inv None fl G b → G !! id = Some (InFlight kd) → sector b id = Some o →
  (∀ x, x ∈ ids ↔ G !! x = Some (Chained id)) →
  Inv (Some o) (delete id fl) (<[id := Held]> (mark Held ids G)) b.
Proof.
  intros [I1 I2 I3 I4 I5 I6 I7 I8 I9 I10 I11 I12] Hid Hsec Hids. set (G' := <[id := Held]> _).
  assert (id ∉ ids) as Hni by (intros ?%Hids; congruence).
  assert (∀ x, G' !! x = if decide (x = id) then Some Held
    else if decide (x ∈ ids) then Some Held else G !! x) as HG.
  { intros x. unfold G'. destruct (decide (x = id)) as [->|]; [apply lookup_insert_eq|].
    by rewrite lookup_insert_ne, lookup_mark. }
  assert (∀ x pl, pl ≠ Held → pl ≠ Chained id → x ≠ id → G' !! x = Some pl ↔ G !! x = Some pl) as HG2.
  { intros x pl H1 H2 H3. rewrite HG, decide_False by done. case_decide as Hin; [|done].
    apply Hids in Hin. rewrite Hin. split; intros [= <-]; done. }
  assert (∀ pl, pl ≠ Held → G' !! id ≠ Some pl) as Hid'.
  { intros pl Hpl. rewrite HG, decide_True by done. congruence. }
  split; try done.
  - intros h k' Hk'. destruct (I3 _ _ Hk') as (? & ? & ? & ? & ?). unfold task_ok, G'.
    rewrite (pend_update _ _ (InFlight kd)), pend_mark; [done|intros x Hx%Hids; eauto|].
    by rewrite lookup_mark, decide_False.
  - intros x pl. rewrite HG. intros Hx.
    assert (∃ pl0, G !! x = Some pl0 ∧ (pl0 = pl ∨ pl = Held)) as (pl0 & H0 & Hpl).
    { repeat case_decide; subst; simplify_eq; [eauto|apply Hids in H0; eauto|eauto]. }
    destruct (I4 _ _ H0) as (k' & Hk' & Hs0 & Hsub). exists k'. split; [done|]. split; [done|].
    destruct Hpl as [->| ->]; [done|]. destruct (BlockTask.isRead k') eqn:Hrd.
    + exfalso. destruct Hsub as (Hx0 & -> & _). destruct (decide (x = id)) as [->|].
      * unfold sector in Hsec. rewrite Hk' in Hsec. simpl in Hsec. by rewrite Hrd in Hsec.
      * case_decide as Hin; [apply Hids in Hin; congruence|congruence].
    + destruct Hsub as (o' & z & ? & ? & ? & _ & _). exists o', z. split_and!; done.
  - intros x kd'. destruct (decide (x = id)) as [->|].
    + rewrite lookup_delete_eq. split; [done|]. intros ?. by destruct (Hid' (InFlight kd')).
    + rewrite lookup_delete_ne, HG2 by done. apply I5.
  - intros o' q Hq. destruct (I6 o' q Hq) as [? Hall]. split; [done|]. intros x. rewrite Hall.
    destruct (decide (x = id)) as [->|]; [|by rewrite HG2]. split; [congruence|intros ?; by destruct (Hid' (Queued o'))].
  - intros x o'. destruct (decide (x = id)) as [->|]; [intros ?; by destruct (Hid' (Queued o'))|].
    rewrite HG2 by done. apply I7.
  - intros o'. rewrite I8. split.
    + intros [?|(x & kd' & Hx & Hs)]; [done|]. destruct (decide (x = id)) as [->|]; [left; congruence|].
      right. exists x, kd'. by rewrite HG2.
    + intros [[= <-]|(x & kd' & Hx & Hs)]; right; [by exists id, kd|].
      destruct (decide (x = id)) as [->|]; [by destruct (Hid' (InFlight kd'))|]. exists x, kd'. by rewrite HG2 in Hx.
  - intros x1 x2 kd1 kd2 o' H1 H2. destruct (decide (x1 = id)) as [->|]; [by destruct (Hid' (InFlight kd1))|].
    destruct (decide (x2 = id)) as [->|]; [by destruct (Hid' (InFlight kd2))|]. rewrite HG2 in H1, H2 by done.
    by eapply I9.
  - intros x kd' o' [= <-] Hx Hs. destruct (decide (x = id)) as [->|Hne]; [by destruct (Hid' (InFlight kd'))|].
    rewrite HG2 in Hx by done. by destruct (I9 _ _ _ _ _ Hx Hid Hs Hsec).
  - intros p Hp. destruct (decide (p = id)) as [->|Hne]; [by destruct (Hid' (InFlight KUpdate))|].
    rewrite HG2 in Hp by done. destruct (I11 p Hp) as (k' & ids' & ? & ? & ? & Hall). exists k', ids'.
    split_and!; try done. intros x. rewrite Hall. destruct (decide (x = id)) as [->|]; [|rewrite HG2 by congruence; done].
    split; [congruence|intros ?; by destruct (Hid' (Chained p))].
  - intros x p Hx. destruct (decide (x = id)) as [->|]; [by destruct (Hid' (Chained p))|].
    assert (p ≠ id ∧ G !! x = Some (Chained p)) as [Hne Hxp].
    { rewrite HG, decide_False in Hx by done. case_decide as Hin; [done|]. split; [|done].
      intros ->. by apply Hin, Hids. }
    apply I12 in Hxp. by rewrite HG2.
Qed.

(** The tasks of a chain are answered. *)
Lemma foldM_done fl err ids G b : Inv None fl G b → NoDup ids → (∀ x, x ∈ ids → G !! x = Some Held) →
  ∃ b' G', foldM (λ b h, write_done err h b) b ids.*1 = Ret b' ∧ Inv None fl G' b' ∧ frame b b' ∧
    ∀ x, G' !! x = if decide (x ∈ ids) then None else G !! x.
Proof.
  revert G b. induction ids as [|id ids IH]; intros G b HI Hnd HH.
  { exists b, G. split; [done|]. split; [done|]. split; [done|]. intros x.
    by rewrite decide_False by apply not_elem_of_nil. }
  apply NoDup_cons in Hnd as [Hni Hnd]. rewrite fmap_cons, foldM_cons.
  destruct (write_done_spec None fl G b id err HI) as (b1 & -> & HI1 & Hf1 & _); [apply HH; by left|].
  rewrite bind_Ret. destruct (IH (delete id G) b1) as (b' & G' & -> & HI' & Hf' & HG'); [done|done| |].
  { intros x Hx. rewrite lookup_delete_ne; [apply HH; by right|]. by intros ->. }
  exists b', G'. split; [done|]. split; [done|]. split; [by etransitivity|]. intros x. rewrite HG'.
  destruct (decide (x = id)) as [->|].
  - rewrite decide_False by done. rewrite lookup_delete_eq. by rewrite decide_True by (by left).
  - rewrite lookup_delete_ne by done. repeat case_decide; set_solver.
Qed.

Definition enough_fuel (fuel : nat) b : Prop :=
  ∀ o q, sector_map b !! o = Some q → (length (contents q) < fuel)%nat.

Definition idle G : Prop := holds G (λ _, False).

Lemma flight_sector fl G b id kd k : Inv None fl G b → fl !! id = Some kd → tasks b !! id.1 = Some k →
  BlockTask.isRead k = false → 0 ≤ id.2 ∧ ∃ o x, sector b id = Some o ∧
    BlockTask.offVec k !! Z.to_nat id.2 = Some o ∧ BlockTask.bufVec k !! Z.to_nat id.2 = Some (Some x) ∧
    (kd = KUpdate → blen x = maxObjectSizeInBytes b).
Proof.
  intros HI Hfl Hk Hrd. apply (inv_flight _ _ _ _ HI) in Hfl. destruct (inv_sub _ _ _ _ HI _ _ Hfl) as (k2 & Hk2 & Hs & Hsub).
  rewrite Hk in Hk2. injection Hk2 as <-. rewrite Hrd in Hsub. destruct Hsub as (o & x & Ho & Hx & _ & Hup & _).
  split; [done|]. exists o, x. unfold sector. rewrite Hk. simpl. rewrite Hrd. split_and!; try done. by intros ->; apply Hup.
Qed.

Lemma updateBlobOnceResp_spec fuel fl G b id err : Inv None fl G b → idle G → fl !! id = Some KUpdate →
  enough_fuel fuel b →
  ∃ b' fl' G', updateBlobOnceResp fuel err id b = Ret b' ∧ Inv None fl' G' b' ∧ idle G' ∧
    emitted (delete id fl) fl' b b'.
Proof.
  intros HI Hidle Hfl Hfuel. pose proof Hfl as Hid. apply (inv_flight _ _ _ _ HI) in Hid.
  destruct (inv_chain _ _ _ _ HI id Hid) as (k & ids & Hk & Hch & Hnd & Hids).
  destruct (inv_sub _ _ _ _ HI _ _ Hid) as (k0 & Hk0 & _ & Hsub). rewrite Hk in Hk0. injection Hk0 as <-.
  destruct (BlockTask.isRead k) eqn:Hrd; [by destruct Hsub as (_ & ? & _)|]. clear Hsub.
  destruct (flight_sector _ _ _ _ _ _ HI Hfl Hk Hrd) as (Hs0 & o & x & Hsec & Ho & Hx & Hmax).
  specialize (Hmax eq_refl). pose proof (inv_env _ _ _ _ HI) as (_ & _ & Hm).
  unfold updateBlobOnceResp. destruct id as [h s]. simpl in *.
  rewrite decide_False by (intros Hn; apply Hn; rewrite <-(inv_dom _ _ _ _ HI); apply elem_of_dom; eauto).
  assert (get_task h b = Ret k) as -> by (unfold get_task; by rewrite Hk).
  unfold BlockTask.getOffset_seq, BlockTask.getBuffer. rewrite bind_Ret, Ho, bind_Ret, Hx, bind_Ret.
  set (id := (h, s)) in *. set (G1 := <[id := Held]> (mark Held ids G)).
  pose proof (Inv_take _ _ _ _ _ _ ids HI Hid Hsec Hids) as HI1. fold G1 in HI1.
  assert (id ∉ ids) as Hni by (intros ?%Hids; congruence).
  assert (holds G1 (λ x, x ∈ ids ++ [id])) as HH1.
  { intros y. unfold G1. rewrite elem_of_app, list_elem_of_singleton.
    destruct (decide (y = id)) as [->|]; [rewrite lookup_insert_eq; naive_solver|].
    rewrite lookup_insert_ne, lookup_mark by done. case_decide; [naive_solver|]. rewrite (Hidle y). naive_solver. }
  destruct (drainUpdateChain_spec fuel o (delete id fl) (λ y, y ∈ ids ++ [id]) G1 b (Some x) None err)
    as (b2 & fl2 & G2 & -> & HI2 & HH2 & Hem2 & Hch2 & _); try done.
  { intros y. rewrite (HH1 y). naive_solver. }
  { unfold buf_ok. destruct x; simpl; [unfold blen in Hmax; simpl in Hmax; lia|done]. }
  { by apply Hfuel. }
  rewrite bind_Ret. assert (G2 !! id = Some Held) as Hid2 by (apply HH2; set_solver).
  destruct (inv_sub _ _ _ _ HI2 _ _ Hid2) as (k2 & Hk2 & _). simpl in Hk2. unfold get_task. rewrite Hk2, bind_Ret.
  specialize (Hch2 id k k2 ltac:(set_solver) Hk Hk2). simpl in Hch2.
  assert (∃ c, BlockTask.getChain s k2 = (BlockTask.with_chains c k2, ids.*1) ∧
    ∀ s', s' ≠ s → c !! s' = BlockTask.chained_responses k2 !! s') as (c & -> & Hc).
  { unfold BlockTask.getChain. rewrite Hch2. destruct (BlockTask.chained_responses k !! s) as [l|]; simpl in Hch; rewrite <-Hch.
    - eexists. split; [done|]. intros s' Hs'. by rewrite lookup_insert_ne.
    - exists (BlockTask.chained_responses k2). split; [|done]. by destruct k2. }
  assert (Inv None fl2 G2 (set_task h (BlockTask.with_chains c k2) b2)) as HI3.
  { apply Inv_set_chains; [done|done|]. intros s' Hs'. apply Hc. intros ->. fold id in Hs'. congruence. }
  destruct (foldM_done fl2 err ids G2 _ HI3 Hnd) as (b4 & G4 & -> & HI4 & Hf4 & HG4).
  { intros y Hy. apply HH2. set_solver. }
  rewrite bind_Ret. destruct (write_done_spec None fl2 G4 b4 id err HI4) as (b5 & E5 & HI5 & Hf5 & _).
  { rewrite HG4, decide_False by done. done. }
  exists b5, fl2, (delete id G4). split; [exact E5|]. split; [done|]. split.
  - intros y. rewrite lookup_delete_Some, HG4. case_decide; [naive_solver|]. rewrite (HH2 y). set_solver.
  - eapply emitted_trans; [exact Hem2|]. eapply emitted_trans; [|by apply emitted_frame].
    eapply emitted_trans; [|by apply emitted_frame]. split; [exists []; by rewrite app_nil_r|].
    intros Hb. apply busy_set_task; [done|]. exact (Hb _ _ Hk2).
Qed.

Lemma pend_none G h : (∀ id pl, G !! id = Some pl → id.1 ≠ h) → pend G h = 0%nat.
Proof.
  intros Hne. unfold pend. apply map_size_empty_iff, map_empty. intros id.
  apply map_lookup_filter_None. right. intros pl Hid. simpl. by eapply Hne.
Qed.

(** A read has one sub-task, the first. *)
Lemma read_alone fl G b id pl k : Inv None fl G b → G !! id = Some pl → tasks b !! id.1 = Some k →
  BlockTask.isRead k = true → pl = InFlight KGet ∧ sized k ∧ ∀ x pl', G !! x = Some pl' → x.1 = id.1 → x = id.
Proof.
  intros HI Hid Hk Hrd.
  assert (∀ x pl', G !! x = Some pl' → x.1 = id.1 → x.2 = 0 ∧ pl' = InFlight KGet ∧ sized k) as Hx.
  { intros x pl' Hx E. destruct (inv_sub _ _ _ _ HI _ _ Hx) as (k' & Hk' & _ & Hs). rewrite E, Hk in Hk'.
    injection Hk' as <-. by rewrite Hrd in Hs. }
  destruct (Hx _ _ Hid eq_refl) as (H0 & -> & Hsane). split; [done|]. split; [done|].
  intros x pl' Hx' E. destruct (Hx _ _ Hx' E) as [H0' _]. destruct x, id; simpl in *; congruence.
Qed.

Lemma Inv_read_done fl G b id k k' : Inv None fl G b → fl !! id = Some KGet → tasks b !! id.1 = Some k →
  BlockTask.isRead k = true → Inv None (delete id fl) (delete id G) (handed_back id.1 k' b).
Proof.
  intros HI Hfl Hk Hrd. pose proof Hfl as Hid. apply (inv_flight _ _ _ _ HI) in Hid.
  destruct (read_alone _ _ _ _ _ _ HI Hid Hk Hrd) as (_ & _ & Halone).
  destruct HI as [I1 I2 I3 I4 I5 I6 I7 I8 I9 I10 I11 I12].
  assert (∀ x pl, delete id G !! x = Some pl → x.1 ≠ id.1 ∧ G !! x = Some pl) as HG.
  { intros x pl [Hne Hx]%lookup_delete_Some. split; [|done]. intros E. apply Hne. symmetry. by eapply Halone. }
  assert (∀ x pl, G !! x = Some pl → x ≠ id → delete id G !! x = Some pl) as HG'.
  { intros x pl Hx Hne. by rewrite lookup_delete_ne. }
  assert (∀ x, x.1 ≠ id.1 → sector (handed_back id.1 k' b) x = sector b x) as Hsec.
  { intros x Hne. unfold sector. simpl. by rewrite lookup_delete_ne. }
  assert (sector b id = None) as Hsid.
  { unfold sector. rewrite Hk. simpl. by rewrite Hrd. }
  assert (∀ x pl, G !! x = Some pl → pl ≠ InFlight KGet → delete id G !! x = Some pl) as HG2.
  { intros x pl Hx Hne. apply HG'; [done|]. intros ->. congruence. }
  split; try done; simpl.
  - by rewrite dom_delete_L, I2.
  - intros h k2 [Hn Hk2]%lookup_delete_Some. destruct (I3 _ _ Hk2) as (? & ? & ? & Hc & ?).
    rewrite (pend_delete _ _ _ _ Hid), decide_False in Hc by done. unfold task_ok. split_and!; (done || lia).
  - intros x pl [Hn Hx]%HG. destruct (I4 _ _ Hx) as (k2 & Hk2 & Hs). exists k2.
    by rewrite lookup_delete_ne.
  - intros x kd. rewrite !lookup_delete_Some. by rewrite I5.
  - intros o q Hq. destruct (I6 o q Hq) as [? Hall]. split; [done|]. intros x. rewrite Hall. split.
    + intros Hx. by apply HG2.
    + by intros [_ Hx]%HG.
  - intros x o [_ Hx]%HG. by eapply I7.
  - intros o. rewrite I8. split; intros [?|(x & kd & Hx & Hs)]; [done| |done|]; right; exists x, kd.
    + assert (x ≠ id) as Hne by congruence. split; [by apply HG'|]. rewrite Hsec; [done|].
      intros E. apply Hne. by eapply Halone.
    + apply HG in Hx as [Hn Hx]. by rewrite Hsec in Hs.
  - intros x1 x2 kd1 kd2 o [N1 H1]%HG [N2 H2]%HG. rewrite !Hsec by done. by eapply I9.
  - intros p [Hn Hp]%HG. destruct (I11 p Hp) as (k2 & ids & Hk2 & Hc & Hnd & Hall). exists k2, ids.
    rewrite lookup_delete_ne by done. split_and!; try done. intros x. rewrite Hall. split.
    + intros Hx. by apply HG2.
    + by intros [_ Hx]%HG.
  - intros x p [_ Hx]%HG. apply HG2; [by eapply I12|done].
Qed.

(** What the service may answer to the read of an object or of a range. *)
Definition read_answer (fuel : nat) (err : ErrorCode) (bufs : option (list (option buffer))) (len : Z)
    (k : BlockTask.t) : Prop :=
  err = OK ∨ err = MISSING_RESOURCE → let max := BlockTask.maxObjectSizeInBytes k in ∃ l, bufs = Some l ∧
  Z.of_nat (length l) ≤ BlockTask.spanned k < Z.of_nat fuel ∧ (∀ x, Some x ∈ l → x = [] ∨ blen x = max) ∧
  u32 len = max * Z.of_nat (length (filter (λ x, negb (BlockTask.hole x)) l)).

Definition get_answer (fuel : nat) (err : ErrorCode) (bufs : option (list (option buffer))) (len : Z) b
    (id : Z * Z) : Prop :=
  ∀ k, tasks b !! id.1 = Some k →
    if BlockTask.isRead k then read_answer fuel err bufs len k
    else buf_ok (maxObjectSizeInBytes b) (match bufs with Some (x :: _) => x | _ => None end).

Lemma emitted_back fl h k b : emitted fl fl b (handed_back h k b).
Proof. apply emitted_frame, frame_handed_back. Qed.

Lemma getBlobResp_spec fuel fl G b id err bufs len : Inv None fl G b → idle G → fl !! id = Some KGet →
  enough_fuel fuel b → get_answer fuel err bufs len b id →
  ∃ b' fl' G', getBlobResp fuel err id bufs len b = Ret b' ∧ Inv None fl' G' b' ∧ idle G' ∧
    emitted (delete id fl) fl' b b'.
Proof.
  intros HI Hidle Hfl Hfuel Hans. pose proof Hfl as Hid. apply (inv_flight _ _ _ _ HI) in Hid.
  destruct (inv_sub _ _ _ _ HI _ _ Hid) as (k & Hk & _). specialize (Hans k Hk).
  unfold getBlobResp. destruct id as [h s]. cbn [fst snd] in *.
  rewrite decide_False by (intros Hn; apply Hn; rewrite <-(inv_dom _ _ _ _ HI); apply elem_of_dom; eauto).
  assert (get_task h b = Ret k) as -> by (unfold get_task; by rewrite Hk). rewrite bind_Ret.
  set (id := (h, s)) in *.
  destruct (BlockTask.isRead k) eqn:Hrd; simpl.
  - destruct (read_alone _ _ _ _ _ _ HI Hid Hk Hrd) as (_ & Hsane & _).
    pose proof (inv_task _ _ _ _ HI _ _ Hk) as (_ & Hmx & _).
    assert (∃ k', (if decide (err = OK ∨ err = MISSING_RESOURCE) then
           match bufs with
           | None => Fault NullDeref
           | Some bufs =>
               k ← BlockTask.handleReadResponse fuel bufs (zeros (maxObjectSizeInBytes b)) (u32 len) k;
               Ret (set_task h k b)
           end
         else Ret (set_task h (BlockTask.setError err k) b)) = Ret (set_task h k' b)) as (k' & ->).
    { case_decide as He; [|eauto]. destruct (Hans He) as (l & -> & Hl & Hfull & Hlen). rewrite <-Hmx.
      destruct (BlockTask.read_assembled fuel l (u32 len) k (sized_sane _ Hsane) Hl Hfull Hlen) as (x & -> & _).
      rewrite bind_Ret. eauto. }
    rewrite bind_Ret. rewrite (finishResponse_spec (set_task h k' b) h k').
    + exists (handed_back h k' b), (delete id fl), (delete id G). split.
      { by rewrite handed_back_set. }
      split; [by eapply Inv_read_done|]. split; [|apply emitted_back].
      intros x. rewrite lookup_delete_Some, (Hidle x). naive_solver.
    + apply (inv_env _ _ _ _ HI).
    + simpl. rewrite dom_insert_L, (inv_dom _ _ _ _ HI). apply subseteq_union_1_L, singleton_subseteq_l.
      rewrite <-(inv_dom _ _ _ _ HI). apply elem_of_dom; eauto.
    + apply lookup_insert_eq.
  - destruct (flight_sector _ _ _ _ _ _ HI Hfl Hk Hrd) as (Hs0 & o & x & Hsec & Ho & _).
    unfold BlockTask.getOffset_seq. cbn [snd id] in Ho. rewrite Ho, bind_Ret.
    assert (∀ y, y ∈ [] ↔ G !! y = Some (Chained id)) as Hids.
    { intros y. split; [by intros ?%not_elem_of_nil|]. intros Hy. apply (inv_chained _ _ _ _ HI) in Hy. congruence. }
    pose proof (Inv_take _ _ _ _ _ _ [] HI Hid Hsec Hids) as HI1. simpl in HI1.
    destruct (drainUpdateChain_spec fuel o (delete id fl) (λ _, False) (<[id := Held]> G) b
      (match bufs with Some (x :: _) => x | _ => None end) (Some id) err)
      as (b2 & fl2 & G2 & -> & HI2 & HH2 & Hem2 & _); try done.
    + intros y. destruct (decide (y = id)) as [->|]; [rewrite lookup_insert_eq; naive_solver|].
      rewrite lookup_insert_ne, (Hidle y) by done. naive_solver.
    + intros y [= <-]. auto.
    + by apply Hfuel.
    + exists b2, fl2, G2. auto.
Qed.

(** ** New requests *)
Lemma Inv_new fl G b k : Inv None fl G b → BlockTask.handle k ∉ responses b →
  BlockTask.maxObjectSizeInBytes k = maxObjectSizeInBytes b → BlockTask.doneCount k = 0 → BlockTask.objCount k = 0 →
  Inv None fl G (with_tasks ({[ BlockTask.handle k ]} ∪ responses b) (<[BlockTask.handle k := k]> (tasks b)) b).
Proof.
  intros [I1 I2 I3 I4 I5 I6 I7 I8 I9 I10 I11 I12] Hh Hm Hd Hc. set (h := BlockTask.handle k) in *.
  assert (tasks b !! h = None) as Hnone by (apply not_elem_of_dom; by rewrite I2).
  assert (∀ x pl, G !! x = Some pl → x.1 ≠ h) as Hne.
  { intros x pl Hx E. destruct (I4 _ _ Hx) as (k' & Hk' & _). rewrite E in Hk'. congruence. }
  assert (∀ x pl, G !! x = Some pl → sector (with_tasks ({[ h ]} ∪ responses b) (<[h := k]> (tasks b)) b) x = sector b x) as Hsec.
  { intros x pl Hx. unfold sector. simpl. rewrite lookup_insert_ne; [done|]. apply not_eq_sym. by eapply Hne. }
  split; try done; simpl.
  - by rewrite dom_insert_L, I2.
  - intros h' k' [[<- <-]|[_ Hk']]%lookup_insert_Some; [|by apply I3].
    unfold task_ok. rewrite Hm, Hd, Hc, (pend_none _ _ Hne). split_and!; (done || lia).
  - intros x pl Hx. destruct (I4 _ _ Hx) as (k' & Hk' & Hs). exists k'. split; [|done].
    rewrite lookup_insert_ne; [done|]. apply not_eq_sym. by eapply Hne.
  - intros o. rewrite I8. split; intros [?|(x & kd & Hx & Hs)]; auto; right; exists x, kd;
      [rewrite (Hsec _ _ Hx)|rewrite <-(Hsec _ _ Hx)]; done.
  - intros x1 x2 kd1 kd2 o H1 H2. rewrite (Hsec _ _ H1), (Hsec _ _ H2). by eapply I9.
  - intros p Hp. destruct (I11 p Hp) as (k' & ids & Hk' & Hrest). exists k', ids. split; [|done].
    rewrite lookup_insert_ne; [done|]. apply not_eq_sym. by eapply Hne.
Qed.

(** A task that gets one more sub-task. *)
Record grows (k k' : BlockTask.t) : Prop := {
  gr_same : (BlockTask.handle k', BlockTask.operation k', BlockTask.doneCount k', BlockTask.chained_responses k',
      BlockTask.offset k', BlockTask.length k', BlockTask.maxObjectSizeInBytes k') =
    (BlockTask.handle k, BlockTask.operation k, BlockTask.doneCount k, BlockTask.chained_responses k,
      BlockTask.offset k, BlockTask.length k, BlockTask.maxObjectSizeInBytes k);
  gr_count : BlockTask.objCount k' = BlockTask.objCount k + 1;
  gr_offs : BlockTask.offVec k `prefix_of` BlockTask.offVec k';
  gr_bufs : BlockTask.bufVec k `prefix_of` BlockTask.bufVec k';
}.

Lemma grows_sub max k k' s pl : grows k k' → sub_ok max k s pl → sub_ok max k' s pl ∧
  (BlockTask.isRead k = false → BlockTask.offVec k' !! Z.to_nat s = BlockTask.offVec k !! Z.to_nat s).
Proof.
  intros [Hs Hc Ho Hb] [H0 Hsub]. injection Hs as E1 E2 E3 E4 E5 E6 E7. unfold sub_ok, BlockTask.isRead, sized in *.
  rewrite E2, E5, E6, E7. case_bool_decide; [done|]. destruct Hsub as (o & x & Hoo & Hx & Hfit & Hrest).
  pose proof (prefix_lookup_Some _ _ _ _ Hoo Ho) as Ho'. split; [|by rewrite Ho', Hoo].
  split; [done|]. exists o, x. split; [done|]. split; [by eapply prefix_lookup_Some|]. split; [|done].
  unfold BlockTask.rmw_start, BlockTask.iOff in *. by rewrite E5, E7.
Qed.

(** A sub-task is added at [pl], with the sectors [m] after it. *)
Lemma Inv_add fl G b id k k' pl m (G' := <[id := pl]> G) (b' := with_sectors m (set_task id.1 k' b)) :
  Inv None fl G b → tasks b !! id.1 = Some k → grows k k' → G !! id = None → BlockTask.objCount k' < 2 ^ 32 →
  sub_ok (maxObjectSizeInBytes b) k' id.2 pl →
  (∀ o q, m !! o = Some q → NoDup (contents q) ∧ ∀ x, x ∈ contents q ↔ G' !! x = Some (Queued o)) →
  (∀ x o, G' !! x = Some (Queued o) → is_Some (m !! o)) →
  (∀ o, is_Some (m !! o) ↔ is_Some (sector_map b !! o) ∨ ∃ kd, pl = InFlight kd ∧ sector b' id = Some o) →
  (∀ kd o, pl = InFlight kd → sector b' id = Some o → sector_map b !! o = None) →
  (∀ p, pl ≠ Chained p) → (pl = InFlight KUpdate → default [] (BlockTask.chained_responses k !! id.2) = []) →
  Inv None (match pl with InFlight kd => <[id := kd]> fl | _ => fl end) G' b'.
Proof.
  intros [I1 I2 I3 I4 I5 I6 I7 I8 I9 I10 I11 I12] Hk Hgr Hid Hlim Hsub Hmq Hmqd Hmlock Hmfree Hnc Hch.
  pose proof Hgr as [Es Ec _ _]. injection Es as E1 E2 E3 E4 E5 E6 E7.
  assert (∀ x pl', G' !! x = Some pl' ↔ x = id ∧ pl' = pl ∨ x ≠ id ∧ G !! x = Some pl') as HG.
  { intros x pl'. unfold G'. rewrite lookup_insert_Some. naive_solver. }
  assert (tasks b' !! id.1 = Some k') as Hk' by apply lookup_insert_eq.
  assert (∀ x : Z * Z, x.1 ≠ id.1 → tasks b' !! x.1 = tasks b !! x.1) as Hother.
  { intros x Hne. simpl. by rewrite lookup_insert_ne. }
  assert (∀ x pl', G !! x = Some pl' → sector b' x = sector b x) as Hsec.
  { intros x pl' Hx. unfold sector. destruct (decide (x.1 = id.1)) as [E|]; [|by rewrite Hother].
    rewrite E, Hk', Hk. simpl. destruct (I4 _ _ Hx) as (k2 & Hk2 & Hs2). rewrite E, Hk in Hk2. injection Hk2 as <-.
    destruct (grows_sub _ _ _ _ _ Hgr Hs2) as [_ Hoff]. unfold BlockTask.isRead in *. rewrite E2.
    case_bool_decide; [done|]. by apply Hoff. }
  split; try done.
  - simpl. rewrite dom_insert_L, I2. rewrite <-I2. apply elem_of_dom_2 in Hk. set_solver.
  - change (tasks b') with (<[id.1 := k']> (tasks b)). intros h k2 [[<- <-]|[Hne Hk2]]%lookup_insert_Some; unfold task_ok, G'; rewrite pend_insert_new by done.
    + destruct (I3 _ _ Hk) as (? & ? & ? & ? & ?). rewrite decide_True by done. simpl.
      rewrite E1, E3, E7. split_and!; (done || lia).
    + destruct (I3 _ _ Hk2) as (? & ? & ? & ? & ?). rewrite decide_False by done. simpl. split_and!; (done || lia).
  - intros x pl' [[-> ->]|[Hne Hx]]%HG; [by exists k'|]. destruct (I4 _ _ Hx) as (k2 & Hk2 & Hs2).
    destruct (decide (x.1 = id.1)) as [E|]; [|exists k2; by rewrite Hother].
    rewrite E, Hk in Hk2. injection Hk2 as <-. exists k'. rewrite E. split; [done|].
    by apply (grows_sub _ _ _ _ _ Hgr).
  - intros x kd. rewrite HG. destruct (decide (x = id)) as [->|Hne].
    + assert (∀ kd', fl !! id ≠ Some kd') as Hfl by (intros kd' ?%I5; congruence).
      destruct pl; rewrite ?lookup_insert_eq; naive_solver.
    + rewrite <-I5. destruct pl; rewrite ?lookup_insert_ne by done; naive_solver.
  - intros o. change (sector_map b') with m. rewrite Hmlock, I8. split.
    + intros [[?|(x & kd & Hx & Hs)]|(kd & -> & Hs)]; [done| |]; right.
      * exists x, kd. rewrite HG, (Hsec _ _ Hx). split; [|done]. right. split; [|done]. intros ->. congruence.
      * exists id, kd. rewrite HG. auto.
    + intros [?|(x & kd & [[-> <-]|[Hne Hx]]%HG & Hs)]; [done| |].
      * right. eauto.
      * left. right. rewrite (Hsec _ _ Hx) in Hs. eauto.
  - assert (∀ x kd kd' o, pl = InFlight kd → G !! x = Some (InFlight kd') → sector b' id = Some o →
      sector b x = Some o → False) as Hno.
    { intros x kd kd' o Hpl Hx Hs Hs2. specialize (Hmfree _ _ Hpl Hs).
      assert (is_Some (sector_map b !! o)) as [? ?] by (apply I8; eauto). congruence. }
    intros x1 x2 kd1 kd2 o [[-> Hp1]|[N1 H1]]%HG [[-> Hp2]|[N2 H2]]%HG Hs1 Hs2; [done| | |].
    + rewrite (Hsec _ _ H2) in Hs2. by destruct (Hno x2 kd1 kd2 o).
    + rewrite (Hsec _ _ H1) in Hs1. by destruct (Hno x1 kd2 kd1 o).
    + rewrite (Hsec _ _ H1) in Hs1. rewrite (Hsec _ _ H2) in Hs2. by eapply I9.
  - intros p [[-> Hp]|[Hne Hp]]%HG.
    + exists k', []. rewrite E4. split_and!; [done|by apply Hch|apply NoDup_nil_2|]. intros x.
      split; [by intros ?%not_elem_of_nil|]. intros [[_ Hx]|[_ Hx]]%HG; [by destruct (Hnc id)|].
      apply I12 in Hx. congruence.
    + destruct (I11 p Hp) as (k2 & ids & Hk2 & Hc2 & Hnd & Hall).
      assert (∃ k3, tasks b' !! p.1 = Some k3 ∧ BlockTask.chained_responses k3 = BlockTask.chained_responses k2) as (k3 & Hk3 & Hc3).
      { destruct (decide (p.1 = id.1)) as [E|]; [|exists k2; by rewrite Hother].
        rewrite E, Hk in Hk2. injection Hk2 as <-. exists k'. by rewrite E. }
      exists k3, ids. rewrite Hc3. split_and!; try done. intros x. rewrite Hall, HG. split.
      * intros Hx. right. split; [|done]. intros ->. congruence.
      * intros [[_ Hx]|[_ Hx]]; [|done]. by destruct (Hnc p).
  - intros x p [[_ Hx]|[_ Hx]]%HG; [by destruct (Hnc p)|]. apply HG. right. apply I12 in Hx. split; [|done].
    intros ->. congruence.
Qed.

(** The read of a range. *)
Definition new_read (k : BlockTask.t) b : Prop :=
  BlockTask.isRead k = true ∧ BlockTask.handle k ∉ responses b ∧
  BlockTask.doneCount k = 0 ∧ BlockTask.objCount k = 1 ∧
  sized (BlockTask.setMaxObjectSize (maxObjectSizeInBytes b) k).

(** A task as it looks when [n] of its sub-tasks have been issued. *)
Definition recount (n : Z) (k : BlockTask.t) : BlockTask.t :=
  BlockTask.Make (BlockTask.handle k) (BlockTask.operation k) (BlockTask.doneCount k) n
    (BlockTask.chained_responses k) (BlockTask.opError k) (BlockTask.bufVec k) (BlockTask.offVec k)
    (BlockTask.offset k) (BlockTask.length k) (BlockTask.maxObjectSizeInBytes k).

Lemma recount_grows n k k' : params k' = params k → BlockTask.operation k' = BlockTask.operation k →
  BlockTask.chained_responses k' = BlockTask.chained_responses k →
  BlockTask.offVec k `prefix_of` BlockTask.offVec k' → BlockTask.bufVec k `prefix_of` BlockTask.bufVec k' →
  grows (recount n k) (recount (n + 1) k').
Proof. unfold params. intros [= E1 E2 E3 E4 E5 E6] E7 E8 Ho Hb. split; simpl; congruence. Qed.

Lemma read_spec fl G b k : Inv None fl G b → idle G → new_read k b →
  ∃ b' fl' G', read k b = Ret b' ∧ Inv None fl' G' b' ∧ idle G' ∧ emitted fl fl' b b'.
Proof.
  intros HI Hidle (Hrd & Hh & Hd & Hc & Hz). pose proof (inv_env _ _ _ _ HI) as (Hapi & _ & Hm).
  unfold read. cbv zeta. set (k1 := BlockTask.setMaxObjectSize _ k) in *. unfold await.
  change (BlockTask.handle k1) with (BlockTask.handle k). set (h := BlockTask.handle k) in *.
  rewrite decide_False by done. rewrite bind_Ret. unfold umod. rewrite (decide_False (P := maxObjectSizeInBytes b = 0)) by lia.
  rewrite bind_Ret. unfold call. cbn [amAsyncDataApi with_tasks]. rewrite Hapi.
  assert (∀ s, G !! (h, s) = None) as Hfresh.
  { intros s. destruct (G !! (h, s)) as [pl|] eqn:Hx; [|done]. destruct (inv_sub _ _ _ _ HI _ _ Hx) as (k2 & Hk2 & _).
    exfalso. apply Hh. rewrite <-(inv_dom _ _ _ _ HI). apply elem_of_dom. by exists k2. }
  pose proof (Inv_new fl G b (recount 0 k1) HI Hh eq_refl Hd eq_refl) as HI0.
  change (BlockTask.handle (recount 0 k1)) with h in HI0. set (b0 := with_tasks _ _ b) in HI0.
  assert (tasks b0 !! h = Some (recount 0 k1)) as Hk0 by apply lookup_insert_eq.
  assert (∀ m, sector (with_sectors m (set_task h k1 b0)) (h, 0) = None) as Hsec.
  { intros m. unfold sector. simpl. rewrite lookup_insert_eq. simpl. change (BlockTask.isRead k1) with (BlockTask.isRead k).
    by rewrite Hrd. }
  eexists _, _, (<[(h, 0) := InFlight KGet]> G). split; [done|]. split; [|split; [|split; [by eexists [_]|]]].
  3:{ intros Hb h' k'. cbn [emit with_tasks tasks]. intros [[_ <-]|[_ ?]]%lookup_insert_Some; [|by eapply Hb]. unfold unfinished.
      change (BlockTask.doneCount k < BlockTask.objCount k). lia. }
  - eapply Inv_sim; [apply (sim_emits _ [_])|].
    assert (with_sectors (sector_map b) (set_task h k1 b0) =
      with_tasks ({[ h ]} ∪ responses b) (<[h := k1]> (tasks b)) b) as <-.
    { unfold with_sectors, set_task, with_tasks. simpl. by rewrite insert_insert_eq. }
    apply (Inv_add fl G b0 (h, 0) (recount 0 k1) k1 (InFlight KGet) (sector_map b)); try done.
    + change (BlockTask.objCount k1) with (BlockTask.objCount k). lia.
    + split; [done|]. change (BlockTask.isRead k1) with (BlockTask.isRead k). by rewrite Hrd.
    + intros o q Hq. destruct (inv_queue _ _ _ _ HI _ _ Hq) as [? Hall]. split; [done|]. intros x. rewrite Hall.
      rewrite lookup_insert_Some. specialize (Hfresh 0). naive_solver congruence.
    + intros x o [[_ ?]|[_ Hx]]%lookup_insert_Some; [done|]. by eapply (inv_queued _ _ _ _ HI).
    + intros o. rewrite Hsec. naive_solver.
    + intros kd o _. by rewrite Hsec.
  - intros x. rewrite lookup_insert_Some, (Hidle x). naive_solver.
Qed.

(** The sub-task of a write for the next object: sent when the object has no
    other, queued behind it otherwise. *)
Lemma Inv_cut fl G b h s k k' o x : Inv None fl G b → idle G → tasks b !! h = Some k → grows k k' →
  BlockTask.isRead k' = false → BlockTask.chained_responses k = ∅ → BlockTask.objCount k' < 2 ^ 32 →
  G !! (h, s) = None → 0 ≤ s → BlockTask.offVec k' !! Z.to_nat s = Some o →
  BlockTask.bufVec k' !! Z.to_nat s = Some (Some x) → BlockTask.rmw_start s k' + blen x ≤ maxObjectSizeInBytes b →
  (∀ q, sector_map b !! o = Some q → (length (contents q) < capacity)%nat) →
  let '(m, result) := queue_update o (h, s) (sector_map b) in
  ∃ G', Inv None (issue fl (issued result (h, s) x o (maxObjectSizeInBytes b))) G' (with_sectors m (set_task h k' b)) ∧
    idle G' ∧ ∀ y, y ≠ (h, s) → G' !! y = G !! y.
Proof.
  intros HI Hidle Hk Hgr Hrd Hch Hlim Hid Hs Ho Hx Hfit Hroom. set (id := (h, s)) in *.
  assert (∀ m, sector (with_sectors m (set_task h k' b)) id = Some o) as Hsec.
  { intros m. unfold sector. simpl. rewrite lookup_insert_eq. simpl. by rewrite Hrd. }
  assert (∀ pl, (pl = InFlight KUpdate → blen x = maxObjectSizeInBytes b) → (∀ o', pl = Queued o' → o' = o) →
    sub_ok (maxObjectSizeInBytes b) k' id.2 pl) as Hsub.
  { intros pl H1 H2. split; [done|]. rewrite Hrd. exists o, x. auto. }
  assert (∀ pl, pl ≠ Held → idle (<[id := pl]> G)) as Hidle'.
  { intros pl Hpl y. rewrite lookup_insert_Some, (Hidle y). naive_solver. }
  unfold queue_update. destruct (sector_map b !! o) as [q|] eqn:Hq.
  - specialize (Hroom q eq_refl). pose proof (spsc_push_contents id q) as Hpush.
    destruct (spsc_push id q) as [q'|]; [|lia]. destruct Hpush as [_ Hq'].
    destruct (inv_queue _ _ _ _ HI _ _ Hq) as [Hnd Hall].
    exists (<[id := Queued o]> G). split; [|split; [by apply Hidle'|intros y Hy; by rewrite lookup_insert_ne]].
    apply (Inv_add fl G b id k k' (Queued o) (<[o := q']> (sector_map b))); try done.
    + apply Hsub; congruence.
    + intros o' q2 [[<- <-]|[Hne Hq2]]%lookup_insert_Some.
      * rewrite Hq'. split.
        { apply NoDup_app. split; [done|]. split; [|apply NoDup_singleton].
          intros y Hy%Hall ->%list_elem_of_singleton. congruence. }
        intros y. rewrite elem_of_app, list_elem_of_singleton, lookup_insert_Some, Hall. split; [|naive_solver].
        intros [Hy| ->]; [|by left]. right. split; [|done]. intros <-. congruence.
      * destruct (inv_queue _ _ _ _ HI _ _ Hq2) as [? Hall2]. split; [done|]. intros y.
        rewrite Hall2, lookup_insert_Some. split; [|naive_solver]. intros Hy. right. split; [|done]. intros <-. congruence.
    + intros y o' [[_ [= <-]]|[_ Hy]]%lookup_insert_Some; [by rewrite lookup_insert_eq|].
      apply lookup_insert_is_Some'. right. by eapply (inv_queued _ _ _ _ HI).
    + intros o'. rewrite lookup_insert_is_Some'. split; [|naive_solver]. intros [<-|?]; left; eauto.
  - set (kd := if decide (blen x ≠ maxObjectSizeInBytes b) then KGet else KUpdate).
    exists (<[id := InFlight kd]> G). split; [|split; [by apply Hidle'|intros y Hy; by rewrite lookup_insert_ne]].
    replace (issue fl _) with (<[id := kd]> fl) by (unfold kd, issued; simpl; by case_decide).
    assert (∀ y o', G !! y = Some (Queued o') → o' ≠ o) as Hnq.
    { intros y o' Hy ->. apply (inv_queued _ _ _ _ HI) in Hy as [? ?]. congruence. }
    apply (Inv_add fl G b id k k' (InFlight kd) (<[o := spsc_new]> (sector_map b))); try done.
    + apply Hsub; [|done]. unfold kd. case_decide as Hne; [done|]. intros _. by destruct (decide (blen x = maxObjectSizeInBytes b)).
    + intros o' q2 [[<- <-]|[Hne Hq2]]%lookup_insert_Some.
      * rewrite (spsc_new_contents (SQ := SQ)). split; [apply NoDup_nil_2|]. intros y.
        split; [by intros ?%not_elem_of_nil|]. intros [[_ ?]|[_ Hy]]%lookup_insert_Some; [done|]. by destruct (Hnq _ _ Hy).
      * destruct (inv_queue _ _ _ _ HI _ _ Hq2) as [? Hall2]. split; [done|]. intros y.
        rewrite Hall2, lookup_insert_Some. split; [|naive_solver]. intros Hy. right. split; [|done]. intros <-. congruence.
    + intros y o' [[_ ?]|[_ Hy]]%lookup_insert_Some; [done|].
      apply lookup_insert_is_Some'. right. by eapply (inv_queued _ _ _ _ HI).
    + intros o'. rewrite lookup_insert_is_Some'. split.
      * intros [<-|?]; [right; exists kd; by rewrite Hsec|by left].
      * intros [?|(kd' & _ & Hs')]; [by right|left]. rewrite Hsec in Hs'. congruence.
    + intros kd' o' _. rewrite Hsec. congruence.
    + intros _. by rewrite Hch.
Qed.

(** The queues of the objects from [lo] to [hi] have room. *)
Definition room (lo hi : Z) b : Prop :=
  ∀ o q, lo ≤ o ≤ hi → sector_map b !! o = Some q → (length (contents q) < capacity)%nat.

Lemma write_loop_safe fuel bytes h k n written bufs b fl G :
  writable bytes k b → cut k n written bufs → tasks b !! h = Some k → 0 ≤ written ≤ BlockTask.length k →
  Z.of_nat n ≤ written → (Z.to_nat (BlockTask.length k - written) < fuel)%nat →
  BlockTask.isRead k = false → BlockTask.chained_responses k = ∅ →
  Inv None fl G (set_task h (recount (Z.of_nat n) k) b) → idle G → (∀ s, Z.of_nat n ≤ s → G !! (h, s) = None) →
  let max := BlockTask.maxObjectSizeInBytes k in
  room (BlockTask.offset k / max + Z.of_nat n) ((BlockTask.offset k + BlockTask.length k - 1) / max) b →
  ∃ b' fl' G' k' n' bufs', write_loop fuel bytes h (BlockTask.length k) written (Z.of_nat n) b = Ret b' ∧
    tasks b' !! h = Some k' ∧ cut k' n' (BlockTask.length k) bufs' ∧ params k' = params k ∧
    Inv None fl' G' (set_task h (recount (Z.of_nat n') k') b') ∧ idle G' ∧ emitted fl fl' b b'.
Proof.
  intros Hw Hc Hk Hr Hn Hf. revert k n written bufs b fl G Hw Hc Hk Hr Hn Hf.
  induction fuel as [|fuel IH]; intros k n written bufs b fl G Hw Hc Hk Hr Hn Hf Hrd Hch HI Hidle Hfresh max Hroom; [lia|].
  cbn [write_loop]. pose proof Hw as [Hm Hapi Ht Ho Hrg Hfit Hlen]. case_decide as Hlt.
  2:{ exists b, fl, G, k, n, bufs. assert (written = BlockTask.length k) as -> by lia. split_and!; try done.
      split; [exists []; by rewrite app_nil_r|done]. }
  pose proof (write_one_spec bytes h k n written bufs b Hw Hc Hk ltac:(lia)) as Hone. cbv zeta in Hone.
  fold max in Hone. set (o := BlockTask.offset k / max + Z.of_nat n) in *. set (x := take _ (drop (Z.to_nat written) bytes)) in *.
  set (k' := BlockTask.keepBufferForWrite o (Some x) k) in *.
  assert (blen x ≤ BlockTask.length k - written) as Hx2 by (unfold x, blen; rewrite length_take; lia).
  assert (o ≤ (BlockTask.offset k + BlockTask.length k - 1) / max) as Hlast.
  { destruct (next_object k n written bufs) as [Hob _]; [lia|done|lia|]. fold max in Hob. fold o in Hob. rewrite <-Hob. apply Z.div_le_mono; unfold max; lia. }
  pose proof (Inv_cut fl G (set_task h (recount (Z.of_nat n) k) b) h (Z.of_nat n) (recount (Z.of_nat n) k)
    (recount (Z.of_nat n + 1) k') o x HI Hidle) as Hcut. cbn [set_task with_tasks sector_map maxObjectSizeInBytes tasks] in Hcut.
  unfold room in Hroom. destruct (queue_update o (h, Z.of_nat n) (sector_map b)) as [m result] eqn:Eq.
  destruct Hone as (-> & Hx1 & Hc'). pose proof Hc' as [C1 C2 C3 C4 _].
  destruct Hcut as (G' & HI' & Hidle' & HG').
  - apply lookup_insert_eq.
  - apply recount_grows; try done; by eexists [_].
  - done.
  - done.
  - simpl. lia.
  - by apply Hfresh.
  - lia.
  - simpl. rewrite Nat2Z.id. change (BlockTask.offVec k ++ [o]) with (BlockTask.offVec k'). rewrite C1.
    apply lookup_seqZ. split; [reflexivity|lia].
  - simpl. rewrite Nat2Z.id. change (BlockTask.bufVec k ++ [Some x]) with (BlockTask.bufVec k'). rewrite C2.
    rewrite list_lookup_fmap, <-(cut_count _ _ _ _ Hc). by rewrite list_lookup_middle.
  - rewrite <-Ht. apply (C4 n x). rewrite <-(cut_count _ _ _ _ Hc). by rewrite list_lookup_middle.
  - intros q Hq. apply (Hroom o); [lia|done].
  - rewrite bind_Ret. cbn [fst snd]. rewrite u32_small by lia. replace (Z.of_nat n + 1) with (Z.of_nat (S n)) in * by lia.
    rewrite foldl_emit. set (l := issued _ _ _ _ _) in *. set (b1 := emits l (with_sectors m (set_task h k' b))).
    destruct (IH k' (S n) (written + blen x) (bufs ++ [x]) b1 (issue fl l) G')
      as (b' & fl' & G2 & k2 & n' & bufs' & E & Hk2 & Hc2 & Hp & HI2 & Hidle2 & Hem); try done.
    + apply lookup_insert_eq.
    + change (BlockTask.length k') with (BlockTask.length k). lia.
    + lia.
    + change (BlockTask.length k') with (BlockTask.length k). lia.
    + assert (set_task h (recount (Z.of_nat (S n)) k') b1 = emits l (with_sectors m
        (set_task h (recount (Z.of_nat (S n)) k') (set_task h (recount (Z.of_nat n) k) b)))) as ->.
      { unfold b1, with_sectors, set_task, with_tasks, emits. simpl. by rewrite !insert_insert_eq. }
      eapply Inv_sim; [apply sim_emits|exact HI'].
    + intros s Hs. rewrite HG' by (intros [= ->]; lia). apply Hfresh. lia.
    + intros o' q Ho' Hq. change (sector_map b1) with m in Hq.
      change (BlockTask.offset k') with (BlockTask.offset k) in Ho'. change (BlockTask.length k') with (BlockTask.length k) in Ho'.
      change (BlockTask.maxObjectSizeInBytes k') with max in Ho'.
      assert (o < o') as Hgt by (unfold o; lia). apply (Hroom o'); [lia|].
      unfold queue_update in Eq. assert (o' ≠ o) as Hne by lia.
        destruct (sector_map b !! o); [destruct (spsc_push _ _)|]; injection Eq as <- <-;
          rewrite ?lookup_insert_ne in Hq by done; done.
    + exists b', fl', G2, k2, n', bufs'. split_and!; try done. eapply emitted_trans; [|done].
      split; [by exists l|]. intros Hb. apply (busy_set_task b h k' Hb). exact (Hb _ _ Hk).
Qed.

(** A write of [bytes]. *)
Definition new_write (bytes : buffer) (k : BlockTask.t) b : Prop :=
  let k' := BlockTask.setMaxObjectSize (maxObjectSizeInBytes b) k in
  BlockTask.isRead k = false ∧ BlockTask.handle k ∉ responses b ∧ BlockTask.doneCount k = 0 ∧
  BlockTask.bufVec k = [] ∧ BlockTask.offVec k = [] ∧ BlockTask.chained_responses k = ∅ ∧
  0 < BlockTask.length k ∧ writable bytes k' b ∧
  room (BlockTask.offset k / maxObjectSizeInBytes b)
    ((BlockTask.offset k + BlockTask.length k - 1) / maxObjectSizeInBytes b) b.

Lemma block_write_spec fl G b bytes k : Inv None fl G b → idle G → new_write bytes k b →
  ∃ b' fl' G', write bytes k b = Ret b' ∧ Inv None fl' G' b' ∧ idle G' ∧ emitted fl fl' b b'.
Proof.
  intros HI Hidle (Hrd & Hh & Hd & Hb0 & Ho0 & Hch & Hl & Hw & Hroom). pose proof Hw as [Hm Hapi Ht Ho Hr Hf Hlen].
  unfold write. set (max := maxObjectSizeInBytes b) in *.
  rewrite getObjectCount_spanned by (done || (simpl in *; lia)). fold max. rewrite bind_Ret. cbv zeta.
  set (n := _ / max). set (k1 := BlockTask.setObjectCount n (BlockTask.setMaxObjectSize max k)). unfold await.
  change (BlockTask.handle k1) with (BlockTask.handle k). set (h := BlockTask.handle k) in *.
  rewrite decide_False by done. rewrite bind_Ret. set (b1 := with_tasks _ _ b).
  assert (∀ s, G !! (h, s) = None) as Hfresh.
  { intros s. destruct (G !! (h, s)) as [pl|] eqn:Hx; [|done]. destruct (inv_sub _ _ _ _ HI _ _ Hx) as (k2 & Hk2 & _).
    exfalso. apply Hh. rewrite <-(inv_dom _ _ _ _ HI). apply elem_of_dom. by exists k2. }
  destruct (write_loop_safe (S (Z.to_nat (BlockTask.length k))) bytes h k1 0 0 [] b1 fl G)
    as (b' & fl' & G' & k' & n' & bufs & E & Hk' & Hc & Hp & HI' & Hidle' & Hem); try done.
  - split; [by unfold k1; simpl; rewrite Ho0|by unfold k1; simpl; rewrite Hb0|done|done|by left].
  - apply lookup_insert_eq.
  - change (BlockTask.length k1) with (BlockTask.length k). lia.
  - change (BlockTask.length k1) with (BlockTask.length k). lia.
  - pose proof (Inv_new fl G b (recount 0 k1) HI Hh eq_refl Hd eq_refl) as HI0. revert HI0.
    unfold b1, set_task, with_tasks. simpl. by rewrite insert_insert_eq.
  - change (Z.of_nat 0) with 0. rewrite Z.add_0_r. exact Hroom.
  - exists b', fl', G'. split; [exact E|]. split; [|split; [done|]].
    2:{ eapply emitted_trans; [|exact Hem]. split; [exists []; by rewrite app_nil_r|].
        intros Hb h' k2. unfold b1. cbn [with_tasks tasks]. intros [[_ <-]|[_ ?]]%lookup_insert_Some; [|by eapply Hb]. unfold unfinished.
        change (BlockTask.doneCount k < n). rewrite Hd. unfold n. apply Z.div_str_pos.
        pose proof (Z.mod_pos_bound (BlockTask.offset k) max Hm). simpl in *. lia. }
    assert (recount (Z.of_nat n') k' = k') as Hre.
    { unfold params in Hp. injection Hp as E1 E2 E3 E4 E5 E6.
      change (BlockTask.length k1) with (BlockTask.length k) in Hc. destruct Hc as [_ _ _ _ C5].
      assert (Z.of_nat n' = n) as Hn.
      { unfold n. symmetry. unfold BlockTask.iOff in C5. rewrite E2, E3, E4 in C5.
        change (BlockTask.offset k1) with (BlockTask.offset k) in C5. change (BlockTask.length k1) with (BlockTask.length k) in C5.
        change (BlockTask.maxObjectSizeInBytes k1) with max in C5. apply ceil_unique; [done|]. lia. }
      unfold recount. rewrite Hn. change (BlockTask.objCount k1) with n in E5. rewrite <-E5. by destruct k'. }
    rewrite Hre in HI'. unfold set_task, with_tasks in HI'. rewrite insert_id in HI' by done. by destruct b'.
Qed.

(** ** Runs *)
(** The handlers, with the requests outstanding at the service. *)
Inductive step : t (Q:=Q) * gmap (Z * Z) kind → t (Q:=Q) * gmap (Z * Z) kind → Prop :=
| step_read k b b' fl l : new_read k b → read k b = Ret b' → outs b' = outs b ++ l →
    step (b, fl) (b', issue fl l)
| step_write bytes k b b' fl l : new_write bytes k b → write bytes k b = Ret b' → outs b' = outs b ++ l →
    step (b, fl) (b', issue fl l)
| step_get fuel err id bufs len b b' fl l : fl !! id = Some KGet → enough_fuel fuel b →
    get_answer fuel err bufs len b id → getBlobResp fuel err id bufs len b = Ret b' → outs b' = outs b ++ l →
    step (b, fl) (b', issue (delete id fl) l)
| step_update fuel err id b b' fl l : fl !! id = Some KUpdate → enough_fuel fuel b →
    updateBlobOnceResp fuel err id b = Ret b' → outs b' = outs b ++ l →
    step (b, fl) (b', issue (delete id fl) l).

(** An attached volume with nothing to do. *)
Definition attached b : Prop := amAsyncDataApi b = true ∧ shutting_down b = false ∧
  0 < maxObjectSizeInBytes b < 2 ^ 31 ∧ responses b = ∅ ∧ tasks b = ∅ ∧ sector_map b = ∅.

Definition safe (s : t (Q:=Q) * gmap (Z * Z) kind) : Prop := ∃ G, Inv None s.2 G s.1 ∧ idle G ∧ busy s.1.

Lemma safe_attached b : attached b → safe (b, ∅).
Proof.
  intros (? & ? & ? & Hr & Ht & Hs). exists ∅. split; [|split; [done|intros h k; simpl; by rewrite Ht]]. split; simpl; try done.
  - by rewrite Ht, Hr, dom_empty_L.
  - intros h k. by rewrite Ht.
  - intros o q. by rewrite Hs.
  - intros o. rewrite Hs. split; [by intros [? ?]|]. by intros [?|(? & ? & ? & _)].
Qed.

Lemma emitted_issue fl fl' b b' l : emitted fl fl' b b' → outs b' = outs b ++ l → fl' = issue fl l.
Proof. intros [(l' & E & ->) _] E'. rewrite E in E'. by apply (inj (app (outs b))) in E' as ->. Qed.

Lemma safe_step s s' : step s s' → safe s → safe s'.
Proof.
  intros Hst (G & HI & Hidle & Hb). destruct Hst as [k b b' fl l Hn E Ho|bytes k b b' fl l Hn E Ho
    |fuel err id bufs len b b' fl l Hfl Hfu Han E Ho|fuel err id b b' fl l Hfl Hfu E Ho]; simpl in *.
  - destruct (read_spec _ _ _ _ HI Hidle Hn) as (b2 & fl' & G' & E2 & HI' & Hi' & Hem).
    rewrite E in E2. injection E2 as <-. rewrite (emitted_issue _ _ _ _ _ Hem Ho) in HI'. exists G'. split; [done|]. split; [done|]. by apply Hem.
  - destruct (block_write_spec _ _ _ _ _ HI Hidle Hn) as (b2 & fl' & G' & E2 & HI' & Hi' & Hem).
    rewrite E in E2. injection E2 as <-. rewrite (emitted_issue _ _ _ _ _ Hem Ho) in HI'. exists G'. split; [done|]. split; [done|]. by apply Hem.
  - destruct (getBlobResp_spec _ _ _ _ _ _ _ _ HI Hidle Hfl Hfu Han) as (b2 & fl' & G' & E2 & HI' & Hi' & Hem).
    rewrite E in E2. injection E2 as <-. rewrite (emitted_issue _ _ _ _ _ Hem Ho) in HI'. exists G'. split; [done|]. split; [done|]. by apply Hem.
  - destruct (updateBlobOnceResp_spec _ _ _ _ _ err HI Hidle Hfl Hfu) as (b2 & fl' & G' & E2 & HI' & Hi' & Hem).
    rewrite E in E2. injection E2 as <-. rewrite (emitted_issue _ _ _ _ _ Hem Ho) in HI'. exists G'. split; [done|]. split; [done|]. by apply Hem.
Qed.

Lemma safe_rtc s s' : rtc step s s' → safe s → safe s'.
Proof. induction 1 as [|s s1 s2 Hst _ IH]; [done|]. intros Hs. by eapply IH, safe_step. Qed.

(** With nothing outstanding nothing is waiting. *)
Lemma quiet_empty G b : Inv None ∅ G b → idle G → busy b → responses b = ∅ ∧ sector_map b = ∅.
Proof.
  intros HI Hidle Hb.
  assert (∀ id kd, G !! id ≠ Some (InFlight kd)) as Hno by (intros id kd Hx%(inv_flight _ _ _ _ HI); done).
  assert (∀ o, sector_map b !! o = None) as Hsec.
  { intros o. destruct (sector_map b !! o) as [q|] eqn:Hq; [|done]. exfalso.
    destruct (proj1 (inv_lock _ _ _ _ HI o)) as [?|(id & kd & Hid & _)]; [eauto|done|]. by eapply Hno. }
  split; [|by apply map_empty].
  assert (G = ∅) as ->.
  { apply map_empty. intros id. destruct (G !! id) as [pl|] eqn:Hid; [|done]. exfalso. destruct pl as [|o|kd|p].
    - by apply Hidle in Hid.
    - apply (inv_queued _ _ _ _ HI) in Hid as [q Hq]. by rewrite Hsec in Hq.
    - by eapply Hno.
    - apply (inv_chained _ _ _ _ HI) in Hid. by eapply Hno. }
  rewrite <-(inv_dom _ _ _ _ HI). apply dom_empty_iff_L, map_empty. intros h.
  destruct (tasks b !! h) as [k|] eqn:Hk; [|done]. specialize (Hb _ _ Hk). unfold unfinished in Hb.
  destruct (inv_task _ _ _ _ HI _ _ Hk) as (_ & _ & _ & Hc & _). rewrite pend_none in Hc; [lia|done].
Qed.


(** C28. No response makes the connector fail.  In every reachable state the
    response to an outstanding request runs to its end, whatever the error code,
    given buffers of the object size: no task is missing, no buffer is absent
    and no index is out of range.  New requests of fresh handles run to their
    end as well. *)
Theorem block_device_total (b0 b : t (Q:=Q)) (fl : gmap (Z * Z) kind) :
  attached b0 → rtc step (b0, ∅) (b, fl) →
  (∀ fuel err id, fl !! id = Some KUpdate → enough_fuel fuel b →
     ∃ b', updateBlobOnceResp fuel err id b = Ret b') ∧
  (∀ fuel err id bufs len, fl !! id = Some KGet → enough_fuel fuel b → get_answer fuel err bufs len b id →
     ∃ b', getBlobResp fuel err id bufs len b = Ret b') ∧
  (∀ k, new_read k b → ∃ b', read k b = Ret b') ∧
  (∀ bytes k, new_write bytes k b → ∃ b', write bytes k b = Ret b').
Proof.
  intros Ha Hr. destruct (safe_rtc _ _ Hr (safe_attached _ Ha)) as (G & HI & Hidle & Hb). simpl in *.
  split; [|split; [|split]].
  - intros fuel err id Hfl Hfu. destruct (updateBlobOnceResp_spec _ _ _ _ _ err HI Hidle Hfl Hfu) as (b' & ? & ? & E & _). eauto.
  - intros fuel err id bufs len Hfl Hfu Ha'.
    destruct (getBlobResp_spec _ _ _ _ _ _ _ _ HI Hidle Hfl Hfu Ha') as (b' & ? & ? & E & _). eauto.
  - intros k Hn. destruct (read_spec _ _ _ _ HI Hidle Hn) as (b' & ? & ? & E & _). eauto.
  - intros bytes k Hn. destruct (block_write_spec _ _ _ _ _ HI Hidle Hn) as (b' & ? & ? & E & _). eauto.
Qed.

End Safety.

(** ** A concrete run: two writes to the same object *)
#[local] Existing Instance demo_queue.
#[local] Existing Instance demo_queue_laws.

Definition demo_attached : t (Q:=list (Z * Z)) := Make true (Some "v"%string) 4 true false ∅ ∅ ∅ ∅ [].

Lemma demo_is_attached : attached demo_attached.
Proof. split_and!; vm_compute; reflexivity. Qed.

(** The first write is sent, the second waits in the queue of the object. *)
Definition demo_sent : t (Q:=list (Z * Z)) :=
  match write [1; 2] (demo_write 9 5 2) demo_attached with Ret b => b | Fault _ => demo_attached end.
Definition demo_queued : t (Q:=list (Z * Z)) :=
  match write [7] (demo_write 10 6 1) demo_sent with Ret b => b | Fault _ => demo_sent end.
Definition demo_get : action := GetBlob (9, 0) 4 1.

Lemma demo_run : rtc (step (capacity:=1) (contents:=id)) (demo_attached, ∅) (demo_queued, {[ (9, 0) := KGet ]}).
Proof.
  assert (issue ∅ [demo_get] = {[ (9, 0) := KGet ]}) as E0 by (vm_compute; reflexivity).
  apply rtc_l with (demo_sent, {[ (9, 0) := KGet ]}); [rewrite <-E0|apply rtc_once].
  - apply (step_write [1; 2] (demo_write 9 5 2) demo_attached demo_sent ∅ [demo_get]).
    + split_and!; try (vm_compute; reflexivity); try (split; vm_compute; (reflexivity || discriminate)).
      * apply (bool_decide_unpack _). vm_compute. exact I.
      * intros o q _. vm_compute. discriminate.
    + vm_compute. reflexivity.
    + vm_compute. reflexivity.
  - change (demo_queued, {[ (9, 0) := KGet ]}) with (demo_queued, issue {[ (9, 0) := KGet ]} []) at 1.
    apply (step_write [7] (demo_write 10 6 1)).
    + split_and!; try (vm_compute; reflexivity); try (split; vm_compute; (reflexivity || discriminate)).
      * apply (bool_decide_unpack _). vm_compute. exact I.
      * intros o q Ho Hq. assert (sector_map demo_sent = {[ 1 := [] ]}) as E by (vm_compute; reflexivity).
        rewrite E in Hq. apply lookup_singleton_Some in Hq as [_ <-]. simpl. lia.
    + vm_compute. reflexivity.
    + vm_compute. reflexivity.
Qed.


Lemma block_device_total_witness :
  ∃ b', getBlobResp 2 OK (9, 0) (Some [Some [0; 0; 0; 0]]) 4 demo_queued = Ret b'.
Proof.
  destruct (block_device_total (capacity:=1) (contents:=id) demo_attached demo_queued {[ (9, 0) := KGet ]}
    demo_is_attached demo_run) as (_ & Hget & _). apply Hget; clear Hget.
  - reflexivity.
  - intros o q Hq. assert (sector_map demo_queued = {[ 1 := [(10, 0)] ]}) as E by (vm_compute; reflexivity).
    rewrite E in Hq. apply lookup_singleton_Some in Hq as [_ <-]. simpl. lia.
  - intros k Hk. assert (BlockTask.isRead <$> tasks demo_queued !! 9 = Some false) as E by (vm_compute; reflexivity).
    simpl in Hk. rewrite Hk in E. injection E as ->. vm_compute. reflexivity.
Defined.

End BlockSafety.
