(* ===== verification/OrderedMap.v ===== *)
(** * Ordered associative containers

    [std::map] and the key-value store below the catalogs keep their entries
    sorted by a three-way comparison.  Both are modelled by association lists
    in strictly increasing order of their keys; this file has the operations
    the code uses and their laws, for any comparison that is a total order
    ([CmpOrder]).  The operations only call the comparison, so they can be
    stated before it is known to be an order. *)

From S2P Require Import Prelude.
Open Scope Z_scope.

(** A three-way comparison that is a total order with equality. *)
Class CmpOrder {K : Type} (cmp : K → K → comparison) : Prop := {
  cmp_eq a b : cmp a b = Eq ↔ a = b;
  cmp_flip a b : cmp b a = CompOpp (cmp a b);
  cmp_lt_trans a b c : cmp a b = Lt → cmp b c = Lt → cmp a c = Lt;
}.

Module OMap.
Section OMap.
Context {K V : Type} (cmp : K → K → comparison).
Implicit Types (k : K) (v : V) (l : list (K * V)).

Fixpoint lookup k l : option V :=
  match l with
  | [] => None
  | (k', v) :: l => match cmp k k' with Lt => None | Eq => Some v | Gt => lookup k l end
  end.

(** [m[k] = v] *)
Fixpoint put k v l : list (K * V) :=
  match l with
  | [] => [(k, v)]
  | (k', v') :: l => match cmp k k' with
                     | Lt => (k, v) :: (k', v') :: l
                     | Eq => (k, v) :: l
                     | Gt => (k', v') :: put k v l
                     end
  end.

(** [m.insert(value_type(k, v))], which keeps an entry that is there. *)
Definition insert k v l : list (K * V) := match lookup k l with Some _ => l | None => put k v l end.

(** [m.erase(k)] *)
Fixpoint delete k l : list (K * V) :=
  match l with
  | [] => []
  | (k', v') :: l => match cmp k k' with
                     | Lt => (k', v') :: l
                     | Eq => l
                     | Gt => (k', v') :: delete k l
                     end
  end.

(** The entries from the first key that is not smaller on. *)
Fixpoint seek k l : list (K * V) :=
  match l with
  | [] => []
  | (k', v') :: l' => match cmp k' k with Lt => seek k l' | _ => l end
  end.

Definition sorted l : Prop := StronglySorted (λ x y, cmp x.1 y.1 = Lt) l.

End OMap.

(** ** Laws *)
Section Laws.
Context {K V : Type} (cmp : K → K → comparison) `{!CmpOrder cmp}.
Implicit Types (k : K) (v : V) (l : list (K * V)).

Lemma cmp_refl k : cmp k k = Eq.
Proof. by apply (cmp_eq (cmp:=cmp)). Qed.

Lemma cmp_gt a b : cmp a b = Gt ↔ cmp b a = Lt.
Proof. rewrite (cmp_flip (cmp:=cmp) a b). destruct (cmp a b); simpl; split; congruence. Qed.

Lemma cmp_lt_irrefl k : cmp k k ≠ Lt.
Proof. by rewrite cmp_refl. Qed.

Lemma sorted_cons x l : sorted cmp (x :: l) ↔ sorted cmp l ∧ ∀ y, y ∈ l → cmp x.1 y.1 = Lt.
Proof.
  split.
  - intros Hs. apply StronglySorted_inv in Hs as [Hs Hf]. split; [done|]. by apply Forall_forall.
  - intros [Hs Hf]. apply SSorted_cons; [done|]. by apply Forall_forall.
Qed.

Lemma sorted_app l1 l2 : sorted cmp (l1 ++ l2) ↔
  sorted cmp l1 ∧ sorted cmp l2 ∧ ∀ x y, x ∈ l1 → y ∈ l2 → cmp x.1 y.1 = Lt.
Proof.
  induction l1 as [|z l1 IH]; simpl.
  - split; [|naive_solver]. intros Hs. split; [by constructor|]. split; [done|]. by intros x y Hx%not_elem_of_nil.
  - rewrite !sorted_cons, IH. split.
    + intros [(H1 & H2 & H3) H4]. split_and!; try done; [set_solver|].
      intros x y [->|Hx]%elem_of_cons Hy; [set_solver|by apply H3].
    + intros ([H1 H2] & H3 & H4). split_and!; try done; set_solver.
Qed.

(** Keys below the head are not there. *)
Lemma lookup_below k l : (∀ y, y ∈ l → cmp k y.1 = Lt) → lookup cmp k l = None.
Proof.
  destruct l as [|[k' v'] l]; [done|]. intros Hb. simpl.
  specialize (Hb (k', v') ltac:(by left)). simpl in Hb. by rewrite Hb.
Qed.

Lemma lookup_elem k v l : sorted cmp l → lookup cmp k l = Some v ↔ (k, v) ∈ l.
Proof.
  induction l as [|[k' v'] l IH]; [set_solver|]. intros [Hs Hf]%sorted_cons. simpl.
  destruct (cmp k k') eqn:E.
  - apply (cmp_eq (cmp:=cmp)) in E as ->. rewrite elem_of_cons. split; [intros [= ->]; by left|].
    intros [[= ->]|Hin]; [done|]. apply Hf in Hin. simpl in Hin. by apply cmp_lt_irrefl in Hin.
  - split; [done|]. intros [[= -> ->]|Hin]%elem_of_cons; [by rewrite cmp_refl in E|].
    apply Hf in Hin. simpl in Hin. apply cmp_gt in Hin. congruence.
  - rewrite IH by done. rewrite elem_of_cons. split; [by right|]. intros [[= -> ->]|?]; [|done].
    by rewrite cmp_refl in E.
Qed.

Lemma put_elem k v l x : x ∈ put cmp k v l → x = (k, v) ∨ x ∈ l.
Proof.
  induction l as [|[k' v'] l IH]; simpl; [set_solver|]. destruct (cmp k k'); set_solver.
Qed.

Lemma delete_elem k l x : x ∈ delete cmp k l → x ∈ l.
Proof. induction l as [|[k' v'] l IH]; simpl; [done|]. destruct (cmp k k'); set_solver. Qed.

Lemma put_sorted k v l : sorted cmp l → sorted cmp (put cmp k v l).
Proof.
  induction l as [|[k' v'] l IH]; simpl.
  - intros _. apply sorted_cons. split; [constructor|]. by intros y Hy%not_elem_of_nil.
  - intros Hs. pose proof Hs as [Hs' Hf]%sorted_cons. simpl in Hf. destruct (cmp k k') eqn:E.
    + apply (cmp_eq (cmp:=cmp)) in E as ->. by apply sorted_cons.
    + apply sorted_cons. split; [done|]. intros y [->|Hy]%elem_of_cons; [done|].
      eapply (cmp_lt_trans (cmp:=cmp)); [done|]. by apply Hf.
    + apply sorted_cons. split; [by apply IH|]. intros y [->|Hy]%put_elem; [by apply cmp_gt|by apply Hf].
Qed.

Lemma delete_sorted k l : sorted cmp l → sorted cmp (delete cmp k l).
Proof.
  induction l as [|[k' v'] l IH]; [done|]. intros Hs. pose proof Hs as [Hs' Hf]%sorted_cons. simpl in *.
  destruct (cmp k k'); [done|done|]. apply sorted_cons. split; [by apply IH|]. intros y Hy%delete_elem. by apply Hf.
Qed.

Lemma insert_sorted k v l : sorted cmp l → sorted cmp (insert cmp k v l).
Proof. unfold insert. destruct (lookup cmp k l); [done|]. apply put_sorted. Qed.

Lemma lookup_put_eq k v l : sorted cmp l → lookup cmp k (put cmp k v l) = Some v.
Proof.
  induction l as [|[k' v'] l IH]; simpl; [by rewrite cmp_refl|]. intros [Hs _]%sorted_cons.
  destruct (cmp k k') eqn:E; simpl; rewrite ?cmp_refl, ?E; [done|done|by apply IH].
Qed.

Lemma lookup_put_ne k1 k2 v l : sorted cmp l → k1 ≠ k2 → lookup cmp k1 (put cmp k2 v l) = lookup cmp k1 l.
Proof.
  intros Hs Hne. induction l as [|[k' v'] l IH]; simpl.
  - destruct (cmp k1 k2) eqn:E; [by apply (cmp_eq (cmp:=cmp)) in E|done|done].
  - apply sorted_cons in Hs as [Hs Hf]. destruct (cmp k2 k') eqn:E2; simpl.
    + apply (cmp_eq (cmp:=cmp)) in E2 as ->. destruct (cmp k1 k') eqn:E1; [by apply (cmp_eq (cmp:=cmp)) in E1|done|done].
    + destruct (cmp k1 k2) eqn:E1; [by apply (cmp_eq (cmp:=cmp)) in E1| |done].
      by rewrite (cmp_lt_trans (cmp:=cmp) _ _ _ E1 E2).
    + destruct (cmp k1 k'); [done|done|by apply IH].
Qed.

Lemma lookup_delete_eq k l : sorted cmp l → lookup cmp k (delete cmp k l) = None.
Proof.
  induction l as [|[k' v'] l IH]; [done|]. intros [Hs Hf]%sorted_cons. simpl.
  destruct (cmp k k') eqn:E; simpl; rewrite ?E; [|done|by apply IH].
  apply (cmp_eq (cmp:=cmp)) in E as ->. by apply lookup_below.
Qed.

Lemma lookup_delete_ne k1 k2 l : sorted cmp l → k1 ≠ k2 → lookup cmp k1 (delete cmp k2 l) = lookup cmp k1 l.
Proof.
  intros Hs Hne. induction l as [|[k' v'] l IH]; [done|]. apply sorted_cons in Hs as [Hs Hf]. simpl.
  destruct (cmp k2 k') eqn:E2; simpl.
  - apply (cmp_eq (cmp:=cmp)) in E2 as ->. destruct (cmp k1 k') eqn:E1; [by apply (cmp_eq (cmp:=cmp)) in E1| |done].
    apply lookup_below. intros y Hy. eapply (cmp_lt_trans (cmp:=cmp)); [done|]. by apply Hf.
  - done.
  - destruct (cmp k1 k'); [done|done|by apply IH].
Qed.

(** Maps with the same lookups are equal. *)
Lemma sorted_ext l1 l2 : sorted cmp l1 → sorted cmp l2 → (∀ k, lookup cmp k l1 = lookup cmp k l2) → l1 = l2.
Proof.
  intros H1 H2 Heq. apply (StronglySorted_unique_strong (λ x y, cmp x.1 y.1 = Lt)); [|done|done|].
  - intros x y _ _ Hxy Hyx. exfalso. eapply cmp_lt_irrefl, (cmp_lt_trans (cmp:=cmp)); eassumption.
  - apply NoDup_Permutation.
    + clear -CmpOrder0 H1. induction l1 as [|x l IH]; [constructor|]. apply sorted_cons in H1 as [Hs Hf].
      constructor; [|by apply IH]. intros Hx%Hf. by apply cmp_lt_irrefl in Hx.
    + clear -CmpOrder0 H2. induction l2 as [|x l IH]; [constructor|]. apply sorted_cons in H2 as [Hs Hf].
      constructor; [|by apply IH]. intros Hx%Hf. by apply cmp_lt_irrefl in Hx.
    + intros [k v]. by rewrite <-!lookup_elem, Heq.
Qed.

(** A key above all others goes to the end. *)
Lemma sorted_elem_ext l1 l2 : sorted cmp l1 → sorted cmp l2 → (∀ x, x ∈ l1 ↔ x ∈ l2) → l1 = l2.
Proof using All.
  intros H1 H2 H. apply sorted_ext; [done..|]. intros k. apply option_eq. intros v. by rewrite !lookup_elem.
Qed.

Lemma put_last k v l : (∀ y, y ∈ l → cmp y.1 k = Lt) → put cmp k v l = l ++ [(k, v)].
Proof.
  induction l as [|[k' v'] l IH]; [done|]. intros Hl. simpl.
  assert (cmp k k' = Gt) as -> by (apply cmp_gt, (Hl (k', v')); by left).
  f_equal. apply IH. intros y Hy. apply Hl. by right.
Qed.

Lemma lookup_above k l : (∀ y, y ∈ l → cmp y.1 k = Lt) → lookup cmp k l = None.
Proof.
  induction l as [|[k' v'] l IH]; [done|]. intros Hl. simpl.
  assert (cmp k k' = Gt) as -> by (apply cmp_gt, (Hl (k', v')); by left).
  apply IH. intros y Hy. apply Hl. by right.
Qed.

(** Building a map from its entries in order. *)
Lemma foldl_insert_sorted l0 l : sorted cmp (l0 ++ l) →
  foldl (λ m x, insert cmp x.1 x.2 m) l0 l = l0 ++ l.
Proof.
  revert l0. induction l as [|[k v] l IH]; intros l0 Hs; [by rewrite app_nil_r|]. simpl.
  assert (∀ y, y ∈ l0 → cmp y.1 k = Lt) as Hk.
  { intros y Hy. apply sorted_app in Hs as (_ & _ & Hlt). apply (Hlt y (k, v)); [done|by left]. }
  unfold insert at 2. rewrite lookup_above, put_last by done. rewrite IH; by rewrite <-(assoc (++)).
Qed.

Lemma foldl_put_sorted l0 l : sorted cmp (l0 ++ l) →
  foldl (λ m x, put cmp x.1 x.2 m) l0 l = l0 ++ l.
Proof.
  revert l0. induction l as [|[k v] l IH]; intros l0 Hs; [by rewrite app_nil_r|]. simpl.
  rewrite put_last.
  - rewrite IH; by rewrite <-(assoc (++)).
  - intros y Hy. apply sorted_app in Hs as (_ & _ & Hlt). apply (Hlt y (k, v)); [done|by left].
Qed.

(** Merging one map into another. *)
Lemma foldl_put_keeps l m : sorted cmp m → sorted cmp (foldl (λ m x, put cmp x.1 x.2 m) m l).
Proof. revert m. induction l as [|x l IH]; intros m Hm; [done|]. simpl. by apply IH, put_sorted. Qed.

Lemma foldl_insert_keeps l m : sorted cmp m → sorted cmp (foldl (λ m x, insert cmp x.1 x.2 m) m l).
Proof. revert m. induction l as [|x l IH]; intros m Hm; [done|]. simpl. by apply IH, insert_sorted. Qed.

Lemma lookup_foldl_put l m k : sorted cmp m → sorted cmp l →
  lookup cmp k (foldl (λ m x, put cmp x.1 x.2 m) m l) =
  match lookup cmp k l with Some v => Some v | None => lookup cmp k m end.
Proof.
  revert m. induction l as [|[k' v] l IH]; intros m Hm Hl; [done|]. apply sorted_cons in Hl as [Hl Hlt]. cbn [foldl fst snd].
  rewrite IH by (done || by apply put_sorted). simpl. destruct (cmp k k') eqn:E.
  - apply (cmp_eq (cmp:=cmp)) in E as ->. rewrite lookup_put_eq by done.
    by rewrite lookup_below by (intros y Hy; by apply (Hlt y)).
  - rewrite lookup_put_ne; [|done|intros ->; by rewrite cmp_refl in E].
    rewrite lookup_below; [done|]. intros y Hy. eapply (cmp_lt_trans (cmp:=cmp)); [exact E|by apply Hlt].
  - rewrite lookup_put_ne; [done..|intros ->; by rewrite cmp_refl in E].
Qed.

(** [seek] is the part of the map that is not below the key. *)
Lemma seek_filter k l : sorted cmp l → seek cmp k l = filter (λ x, cmp x.1 k ≠ Lt) l.
Proof.
  induction l as [|[k' v'] l IH]; [done|]. intros [Hs Hf]%sorted_cons. simpl. rewrite filter_cons. simpl.
  destruct (cmp k' k) eqn:E.
  2:{ rewrite decide_False by (by intros ?). by apply IH. }
  all: rewrite decide_True by done; f_equal; symmetry; apply filter_all; intros y Hy Hlt;
    apply Hf in Hy; simpl in Hy; pose proof (cmp_lt_trans (cmp:=cmp) _ _ _ Hy Hlt); congruence.
Qed.

Lemma seek_suffix k l : ∃ l0, l = l0 ++ seek cmp k l.
Proof.
  induction l as [|[k' v'] l [l0 IH]]; [by exists []|]. simpl. destruct (cmp k' k); [by exists []| |by exists []].
  exists ((k', v') :: l0). simpl. by rewrite <-IH.
Qed.

Lemma sorted_suffix l l0 l1 : l = l0 ++ l1 → sorted cmp l → sorted cmp l1.
Proof. intros -> (_ & ? & _)%sorted_app. done. Qed.

Lemma sorted_NoDup_keys l : sorted cmp l → NoDup l.*1.
Proof.
  induction l as [|x l IH]; [constructor|]. intros [Hs Hf]%sorted_cons. simpl. constructor; [|by apply IH].
  intros (y & E & Hy)%list_elem_of_fmap. apply Hf in Hy. rewrite E in Hy. by apply cmp_lt_irrefl in Hy.
Qed.

End Laws.

(** ** Keys seen through an encoding that keeps the order of the keys it is
    meant for *)
Section Embedding.
Context {K K' V : Type} (cmp : K → K → comparison) (cmp' : K' → K' → comparison) (f : K → K') (ok : K → Prop).
Hypothesis (Hf : ∀ a b, ok a → ok b → cmp' (f a) (f b) = cmp a b).
Implicit Types (l : list (K * V)).

Notation img l := (prod_map f id <$> l).
Notation all_ok l := (Forall (λ x, ok x.1) l).

Lemma lookup_img k l : ok k → all_ok l → lookup cmp' (f k) (img l) = lookup cmp k l.
Proof.
  intros Hk. induction 1 as [|[k' v] l Hx _ IH]; [done|]. simpl. rewrite Hf by done. destruct (cmp k k'); auto.
Qed.

Lemma put_img k v l : ok k → all_ok l → put cmp' (f k) v (img l) = img (put cmp k v l).
Proof.
  intros Hk. induction 1 as [|[k' v'] l Hx _ IH]; [done|]. rewrite fmap_cons. cbn [put prod_map fst snd].
  rewrite Hf by done. destruct (cmp k k'); [done|done|]. by rewrite IH.
Qed.

Lemma delete_img k l : ok k → all_ok l → delete cmp' (f k) (img l) = img (delete cmp k l).
Proof.
  intros Hk. induction 1 as [|[k' v'] l Hx _ IH]; [done|]. rewrite fmap_cons. cbn [delete prod_map fst snd].
  rewrite Hf by done. destruct (cmp k k'); [done|done|]. by rewrite IH.
Qed.

Lemma seek_img k l : ok k → all_ok l → seek cmp' (f k) (img l) = img (seek cmp k l).
Proof.
  intros Hk. induction 1 as [|[k' v'] l Hx _ IH]; [done|]. simpl. rewrite Hf by done. destruct (cmp k' k); auto.
Qed.

End Embedding.
End OMap.

(** ** Orders of the key types *)
#[export] Instance Z_compare_order : CmpOrder Z.compare.
Proof.
  split.
  - apply Z.compare_eq_iff.
  - intros a b. apply Z.compare_antisym.
  - intros a b c. rewrite !Z.compare_lt_iff. lia.
Qed.

(** [std::string::compare]: bytes as unsigned values, a proper prefix is
    smaller. *)
Fixpoint bytes_cmp (a b : list Z) : comparison :=
  match a, b with
  | [], [] => Eq
  | [], _ => Lt
  | _, [] => Gt
  | x :: a, y :: b => match x ?= y with Eq => bytes_cmp a b | c => c end
  end.

#[export] Instance bytes_cmp_order : CmpOrder bytes_cmp.
Proof.
  split.
  - intros a. induction a as [|x a IH]; intros [|y b]; simpl; try (split; congruence).
    destruct (Z.compare_spec x y) as [->| |]; [rewrite IH; naive_solver|split; [done|intros [= -> _]; lia]..].
  - intros a. induction a as [|x a IH]; intros [|y b]; simpl; try done.
    rewrite Z.compare_antisym. destruct (x ?= y); simpl; [apply IH|done|done].
  - intros a. induction a as [|x a IH]; intros [|y b] [|z c]; simpl; try done.
    destruct (Z.compare_spec x y) as [->| |]; [|..|done]; destruct (Z.compare_spec y z) as [->| |]; try done.
    + apply IH.
    + intros _ _. by rewrite (proj2 (Z.compare_lt_iff x z)).
    + intros _ _. by rewrite (proj2 (Z.compare_lt_iff x z)) by lia.
Qed.

(** Two orders one after the other. *)
Definition lex_cmp {A B} (c1 : A → A → comparison) (c2 : B → B → comparison) (x y : A * B) : comparison :=
  match c1 x.1 y.1 with Eq => c2 x.2 y.2 | c => c end.

#[export] Instance lex_cmp_order {A B} (c1 : A → A → comparison) (c2 : B → B → comparison) :
  CmpOrder c1 → CmpOrder c2 → CmpOrder (lex_cmp c1 c2).
Proof.
  intros O1 O2. split.
  - intros [a1 b1] [a2 b2]. unfold lex_cmp. simpl. destruct (c1 a1 a2) eqn:E.
    + apply (cmp_eq (cmp:=c1)) in E as ->. rewrite (cmp_eq (cmp:=c2)). naive_solver.
    + split; [done|]. intros [= -> _]. by rewrite (proj2 (cmp_eq (cmp:=c1) a2 a2)) in E.
    + split; [done|]. intros [= -> _]. by rewrite (proj2 (cmp_eq (cmp:=c1) a2 a2)) in E.
  - intros [a1 b1] [a2 b2]. unfold lex_cmp. simpl. rewrite (cmp_flip (cmp:=c1) a1 a2).
    destruct (c1 a1 a2); simpl; [apply cmp_flip|done|done].
  - intros [a1 b1] [a2 b2] [a3 b3]. unfold lex_cmp. simpl.
    destruct (c1 a1 a2) eqn:E1; [apply (cmp_eq (cmp:=c1)) in E1 as ->| |done].
    + destruct (c1 a2 a3) eqn:E2; [|done|done]. apply (cmp_lt_trans (cmp:=c2)).
    + intros _. destruct (c1 a2 a3) eqn:E2; [apply (cmp_eq (cmp:=c1)) in E2 as <-|..|done].
      * by rewrite E1.
      * intros _. by rewrite (cmp_lt_trans (cmp:=c1) _ _ _ E1 E2).
Qed.
