(* ===== verification/DmBlobTypes.v ===== *)
(** * Blob descriptors of the data manager

    Models src/source/data-mgr/include/DmBlobTypes.h and
    dm-lib/DmBlobTypes.cpp: user metadata, the description of a blob and of a
    volume, and the list of objects of a blob, with their serialization.  A
    [std::map] is a sorted association list ([OMap]); strings are lists of
    bytes.  Stream output is not modelled. *)

From S2P Require Import Prelude.
From S2P Require Import Serialize.
From S2P Require Import ObjectId.
From S2P Require Import OrderedMap.
Open Scope Z_scope.

Notation bytes := (list Z) (only parsing).

(** ** [MetaDataList] *)
Module MetaDataList.

(** [std::map<std::string, std::string>] *)
Notation t := (list (bytes * bytes)) (only parsing).

(** [MetaDataList(const fpi::FDSP_MetaDataList&)] *)
Definition make_fdsp (mlist : list (bytes * bytes)) : t :=
  foldl (λ m item, OMap.insert bytes_cmp item.1 item.2 m) [] mlist.

Definition updateMetaDataPair (key value : bytes) (m : t) : t := OMap.insert bytes_cmp key value m.

Definition toFdspPayload (m : t) : list (bytes * bytes) := foldl (λ l x, l ++ [(x.1, x.2)]) [] m.

Definition merge (m rhs : t) : t := foldl (λ m elem, OMap.put bytes_cmp elem.1 elem.2 m) m rhs.

(** [operator==] *)
Definition eqb (m rhs : t) : bool :=
  (length m =? length rhs)%nat && forallb (λ x, bool_decide (x.1 = x.2)) (zip m rhs).

Section Serial.
Context `{P : TProtocol}.

Definition write (m : t) : out :=
  foldl (λ b x, out_app (out_app b (writeString x.1)) (writeString x.2))
    (out_app out_nil (writeI32 (u32 (Z.of_nat (length m))))) m.

Definition read : Rd t :=
  size ← readI32;
  l ← read_times (Z.to_nat size) (key ← readString; value ← readString; mret (key, value));
  mret (foldl (λ m x, OMap.insert bytes_cmp x.1 x.2 m) [] l).

End Serial.
End MetaDataList.

(** ** [BasicBlobMeta], [BlobMetaDesc] *)
Definition blob_version_invalid : Z := 0.

Module BasicBlobMeta.

Record t := Make { blob_name : bytes; version : Z; sequence_id : Z; blob_size : Z }.

Definition make : t := Make [] blob_version_invalid 0 0.

Definition eqb (m rhs : t) : bool :=
  bool_decide (blob_name m = blob_name rhs) && (version m =? version rhs) &&
  (sequence_id m =? sequence_id rhs) && (blob_size m =? blob_size rhs).

Section Serial.
Context `{P : TProtocol}.

Definition write (m : t) : out :=
  let b := out_app out_nil (writeString (blob_name m)) in
  let b := out_app b (writeI64 (version m)) in
  let b := out_app b (writeI64 (sequence_id m)) in
  out_app b (writeI64 (blob_size m)).

Definition read : Rd t :=
  blob_name ← readString;
  version ← readI64;
  sequence_id ← readI64;
  blob_size ← readI64;
  mret (Make blob_name version sequence_id blob_size).

End Serial.
End BasicBlobMeta.

Module BlobMetaDesc.

Record t := Make { desc : BasicBlobMeta.t; meta_list : list (bytes * bytes) }.

Definition make : t := Make BasicBlobMeta.make [].

Definition eqb (m rhs : t) : bool :=
  BasicBlobMeta.eqb (desc m) (desc rhs) && MetaDataList.eqb (meta_list m) (meta_list rhs).

Section Serial.
Context `{P : TProtocol}.

Definition write (m : t) : out :=
  let b := out_app out_nil (BasicBlobMeta.write (desc m)) in
  out_app b (MetaDataList.write (meta_list m)).

Definition read : Rd t :=
  desc ← BasicBlobMeta.read;
  meta_list ← MetaDataList.read;
  mret (Make desc meta_list).

End Serial.
End BlobMetaDesc.

(** ** [VolumeMetaDesc] *)
Module VolumeMetaDesc.

Record t := Make { sequence_id : Z; meta_list : list (bytes * bytes) }.

Definition make (metadataList : list (bytes * bytes)) (seq_id : Z) : t :=
  Make seq_id (MetaDataList.make_fdsp metadataList).

(** [operator==] compares the metadata only. *)
Definition eqb (m rhs : t) : bool := MetaDataList.eqb (meta_list m) (meta_list rhs).

Section Serial.
Context `{P : TProtocol}.

Definition write (m : t) : out :=
  let b := out_app out_nil (writeI64 (sequence_id m)) in
  out_app b (MetaDataList.write (meta_list m)).

Definition read : Rd t :=
  sequence_id ← readI64;
  meta_list ← MetaDataList.read;
  mret (Make sequence_id meta_list).

End Serial.
End VolumeMetaDesc.

(** ** [BlobObjInfo], [BlobObjList] *)
Module BlobObjInfo.

Record t := Make { oid : bytes; size : Z }.

Definition make : t := Make ObjectID.make 0.

(** The digest of an [FDSP_BlobObjectInfo] is a string of any length, its size
    and offset are signed. *)
Definition make_fdsp (digest : bytes) (sz : Z) : res t :=
  oid ← ObjectID.SetId ObjectID.make digest (u32 (Z.of_nat (length digest)));
  Ret (Make oid (u64 sz)).

Section Serial.
Context `{P : TProtocol}.

Definition write (i : t) : out :=
  let b := out_app out_nil (ObjectID.write (oid i)) in
  out_app b (writeI64 (size i)).

Definition read : Rd t :=
  oid ← ObjectID.read ObjectID.make;
  size ← readI64;
  mret (Make oid size).

End Serial.
End BlobObjInfo.

Module BlobObjList.

Record t := Make { objs : list (Z * BlobObjInfo.t); end_of_blob : bool }.

Definition make : t := Make [] false.
Definition with_objs (l : list (Z * BlobObjInfo.t)) (b : t) : t := Make l (end_of_blob b).

(** [BlobObjList(const fpi::FDSP_BlobObjectList&)]: entries are an offset, a
    size and a digest; an entry of size zero stands for the null object. *)
Definition make_fdsp (blob_obj_list : list (Z * Z * bytes)) : res t :=
  foldM (λ b e, let '(offset, size, digest) := e in
    info ← (if decide (size = 0) then Ret (BlobObjInfo.Make ObjectID.make 0)
            else BlobObjInfo.make_fdsp digest size);
    Ret (with_objs (OMap.put Z.compare (u64 offset) info (objs b)) b)) make blob_obj_list.

Definition setEndOfBlob (b : t) : t := Make (objs b) true.
Definition endOfBlob (b : t) : bool := end_of_blob b.

Definition merge (b newer_blist : t) : res t :=
  _ ← fds_verify (negb (end_of_blob b));
  Ret (with_objs (foldl (λ m cit, OMap.insert Z.compare cit.1 cit.2 m) (objs b) (objs newer_blist)) b).

Definition lastOffset (b : t) : Z :=
  match last (objs b) with None => uint64_max | Some crit => crit.1 end.

Definition updateObject (offset : Z) (oid : bytes) (size : Z) (b : t) : t :=
  with_objs (OMap.put Z.compare offset (BlobObjInfo.Make oid size) (objs b)) b.

(** From the last entry to the first. *)
Fixpoint verify_from (max_obj_size : Z) (l : list (Z * BlobObjInfo.t)) : res fds_errno :=
  match l with
  | [] => Ret ERR_OK
  | crit :: l =>
      if decide (max_obj_size = 0) then Fault Undefined
      else if decide (0 < crit.1 `mod` max_obj_size ∨ BlobObjInfo.size crit.2 > max_obj_size)
      then Ret ERR_DM_OP_NOT_ALLOWED
      else verify_from max_obj_size l
  end.

Definition verify (max_obj_size : Z) (b : t) : res fds_errno :=
  match objs b with
  | [] => Ret ERR_DM_OP_NOT_ALLOWED
  | l => verify_from max_obj_size (reverse l)
  end.

Definition toFdspPayload (b : t) : list (Z * Z * bytes) :=
  foldl (λ l cit, l ++ [(i64 cit.1, i64 (BlobObjInfo.size cit.2), BlobObjInfo.oid cit.2)]) [] (objs b).

Section Serial.
Context `{P : TProtocol}.

Definition write (b : t) : out :=
  let o := out_app out_nil (writeI32 (if end_of_blob b then 1 else 0)) in
  let o := out_app o (writeI32 (u32 (Z.of_nat (length (objs b))))) in
  foldl (λ o cit, out_app (out_app o (writeI64 cit.1)) (BlobObjInfo.write cit.2)) o (objs b).

(** The flag is read as a 32-bit integer over the [bool], whose byte is the
    lowest one. *)
Definition read : Rd t :=
  flag ← readI32;
  sz ← readI32;
  l ← read_times (Z.to_nat sz) (offset ← readI64; obj_info ← BlobObjInfo.read; mret (offset, obj_info));
  mret (Make (foldl (λ m x, OMap.put Z.compare x.1 x.2 m) [] l) (bool_decide (flag `mod` 256 ≠ 0))).

End Serial.
End BlobObjList.

(** ** What descriptors look like *)
Definition short (s : bytes) : Prop := Z.of_nat (length s) < 2 ^ 31.
Definition uint64 (z : Z) : Prop := 0 ≤ z ≤ uint64_max.

Lemma u64_range z : uint64 (u64 z).
Proof. unfold u64, uint64, uint64_max. pose proof (Z.mod_pos_bound z 18446744073709551616). lia. Qed.

(** The bytes metadata takes. *)
Definition meta_size (m : list (bytes * bytes)) : Z :=
  foldr (λ x n, 8 + Z.of_nat (length x.1) + Z.of_nat (length x.2) + n) 0 m.

Definition meta_ok (m : list (bytes * bytes)) : Prop :=
  OMap.sorted bytes_cmp m ∧ ∀ x, x ∈ m → short x.1 ∧ short x.2.

Record blob_ok (m : BlobMetaDesc.t) : Prop := {
  bm_name : short (BasicBlobMeta.blob_name (BlobMetaDesc.desc m));
  bm_version : uint64 (BasicBlobMeta.version (BlobMetaDesc.desc m));
  bm_seq : uint64 (BasicBlobMeta.sequence_id (BlobMetaDesc.desc m));
  bm_size : uint64 (BasicBlobMeta.blob_size (BlobMetaDesc.desc m));
  bm_meta : meta_ok (BlobMetaDesc.meta_list m);
  bm_fits : 32 + Z.of_nat (length (BasicBlobMeta.blob_name (BlobMetaDesc.desc m))) +
    meta_size (BlobMetaDesc.meta_list m) < 2 ^ 32;
}.

Record objs_ok (b : BlobObjList.t) : Prop := {
  ol_sorted : OMap.sorted Z.compare (BlobObjList.objs b);
  ol_entry x : x ∈ BlobObjList.objs b →
    uint64 x.1 ∧ length (BlobObjInfo.oid x.2) = 20%nat ∧ uint64 (BlobObjInfo.size x.2);
  ol_fits : 8 + 36 * Z.of_nat (length (BlobObjList.objs b)) < 2 ^ 32;
}.

Lemma meta_size_length m : 8 * Z.of_nat (length m) ≤ meta_size m.
Proof. induction m as [|x m IH]; simpl; lia. Qed.

(** ** Codecs *)
Section Codecs.
Context `{P : TProtocol} `{!TProtocolLaws P}.

(** Two outputs per round, taken together. *)
Lemma out_fold_pair {A} (f g : A → out) l o :
  out_eq (foldl (λ b x, out_app (out_app b (f x)) (g x)) o l)
    (out_app o (foldl (λ b x, out_app b (out_app (f x) (g x))) out_nil l)).
Proof.
  revert o. induction l as [|x l IH]; intros o; simpl; [by rewrite out_app_nil_r|].
  rewrite IH, (out_fold_app (λ x, out_app (f x) (g x)) l (out_app out_nil _)).
  by rewrite !out_app_nil_l, !out_app_assoc.
Qed.

Lemma MetaDataList_codec m : meta_ok m → Z.of_nat (length m) < 2 ^ 32 →
  codec MetaDataList.read (MetaDataList.write m) m.
Proof.
  intros [Hs Hm] Hl. unfold MetaDataList.write, MetaDataList.read. rewrite out_fold_pair, out_app_nil_l.
  rewrite u32_small by lia. eapply codec_bind; [apply codec_I32; lia|]. rewrite Nat2Z.id.
  rewrite <-(OMap.foldl_insert_sorted bytes_cmp [] m Hs : _ = m) at 3.
  apply (codec_map _ (λ l, foldl (λ m x, OMap.insert bytes_cmp x.1 x.2 m) [] l)).
  apply (codec_times _ (λ x, out_app (writeString x.1) (writeString x.2))). intros [k v] Hx.
  destruct (Hm _ Hx). eapply codec_bind; [by apply codec_String|].
  apply (codec_map readString (λ value, (k, value))). by apply codec_String.
Qed.

Lemma BasicBlobMeta_codec m : short (BasicBlobMeta.blob_name m) → uint64 (BasicBlobMeta.version m) →
  uint64 (BasicBlobMeta.sequence_id m) → uint64 (BasicBlobMeta.blob_size m) →
  codec BasicBlobMeta.read (BasicBlobMeta.write m) m.
Proof.
  intros H1 H2 H3 H4. unfold BasicBlobMeta.write. cbv zeta. rewrite !out_app_assoc, out_app_nil_l.
  unfold BasicBlobMeta.read. eapply codec_bind; [by apply codec_String|].
  eapply codec_bind; [by apply codec_I64|]. eapply codec_bind; [by apply codec_I64|].
  destruct m as [n v q z]. apply (codec_map readI64 (λ z, BasicBlobMeta.Make n v q z)). by apply codec_I64.
Qed.

Lemma BlobMetaDesc_codec m : blob_ok m → codec BlobMetaDesc.read (BlobMetaDesc.write m) m.
Proof.
  intros [H1 H2 H3 H4 H5 H6]. unfold BlobMetaDesc.write. cbv zeta. rewrite out_app_nil_l. unfold BlobMetaDesc.read.
  eapply codec_bind; [by apply BasicBlobMeta_codec|]. destruct m as [d l].
  apply (codec_map MetaDataList.read (λ l, BlobMetaDesc.Make d l)). apply MetaDataList_codec; [done|].
  pose proof (meta_size_length l). simpl in *. lia.
Qed.

Lemma BlobObjInfo_codec i : length (BlobObjInfo.oid i) = 20%nat → uint64 (BlobObjInfo.size i) →
  codec BlobObjInfo.read (BlobObjInfo.write i) i.
Proof.
  intros H1 H2. unfold BlobObjInfo.write. cbv zeta. rewrite out_app_nil_l. unfold BlobObjInfo.read.
  eapply codec_bind; [by apply codec_Buffer|]. destruct i as [o s].
  apply (codec_map readI64 (λ s, BlobObjInfo.Make o s)). by apply codec_I64.
Qed.

Lemma BlobObjList_codec b : objs_ok b → codec BlobObjList.read (BlobObjList.write b) b.
Proof.
  intros [Hs He Hf]. unfold BlobObjList.write. cbv zeta. rewrite out_fold_pair, !out_app_assoc, out_app_nil_l.
  unfold BlobObjList.read. eapply codec_bind; [apply codec_I32; by destruct (BlobObjList.end_of_blob b)|].
  rewrite u32_small by lia. eapply codec_bind; [apply codec_I32; lia|]. rewrite Nat2Z.id.
  destruct b as [l e]. simpl in *.
  set (f := λ l0, BlobObjList.Make (foldl (λ m x, OMap.put Z.compare x.1 x.2 m) [] l0)
    (bool_decide ((if e then 1 else 0) `mod` 256 ≠ 0))).
  assert (BlobObjList.Make l e = f l) as ->.
  { unfold f. rewrite (OMap.foldl_put_sorted Z.compare [] l Hs). by destruct e. }
  apply (codec_map _ f), (codec_times _ (λ x, out_app (writeI64 x.1) (BlobObjInfo.write x.2))). intros [o i] Hx.
  destruct (He _ Hx) as (? & ? & ?). eapply codec_bind; [by apply codec_I64|].
  apply (codec_map BlobObjInfo.read (λ i, (o, i))). by apply BlobObjInfo_codec.
Qed.

(** ** Byte counts *)
Lemma count_fold {A} (enc : A → out) (size : A → Z) l : (∀ x, x ∈ l → u32 (enc x).2 = u32 (size x)) →
  u32 (foldl (λ o x, out_app o (enc x)) out_nil l).2 = u32 (foldr (λ x n, size x + n) 0 l).
Proof.
  induction l as [|x l IH]; intros Hl; [done|].
  destruct (out_fold_app enc l (out_app out_nil (enc x))) as [_ E]. cbn [foldl]. rewrite E. simpl.
  rewrite u32_idemp, u32_add_l. rewrite Z.add_0_l. apply u32_add_congr; [apply Hl; by left|].
  apply IH. intros y Hy. apply Hl. by right.
Qed.

Lemma MetaDataList_count m : meta_ok m → u32 (MetaDataList.write m).2 = u32 (4 + meta_size m).
Proof.
  intros [_ Hm]. unfold MetaDataList.write.
  destruct (out_fold_pair (λ x, writeString x.1) (λ x, writeString x.2) m
    (out_app out_nil (writeI32 (u32 (Z.of_nat (length m)))))) as [_ ->].
  simpl. rewrite !u32_idemp, u32_add_l. unfold writeI32. rewrite count_writeI32. apply u32_add_congr; [done|].
  rewrite (count_fold _ (λ x, 8 + Z.of_nat (length x.1) + Z.of_nat (length x.2))); [done|].
  intros [k v] Hx. destruct (Hm _ Hx). simpl. unfold writeString. rewrite !count_writeString by done.
  rewrite u32_idemp. f_equal. simpl. lia.
Qed.

Lemma BlobMetaDesc_count m : blob_ok m → u32 (BlobMetaDesc.write m).2 = 32 +
    Z.of_nat (length (BasicBlobMeta.blob_name (BlobMetaDesc.desc m))) + meta_size (BlobMetaDesc.meta_list m).
Proof.
  intros [H1 _ _ _ H5 H6]. unfold BlobMetaDesc.write, BasicBlobMeta.write. cbn [out_app snd out_nil].
  pose proof (meta_size_length (BlobMetaDesc.meta_list m)).
  rewrite <-(u32_small (32 + _ + _)) by lia. rewrite u32_idemp. rewrite (Z.add_comm _ (MetaDataList.write _).2).
  rewrite (u32_congr _ _ _ (MetaDataList_count _ H5)). unfold writeString, writeI64.
  rewrite !count_writeI64, count_writeString by done. simpl snd.
  u32_norm. f_equal. lia.
Qed.

Lemma BlobObjList_count b : objs_ok b → u32 (BlobObjList.write b).2 = 8 + 36 * Z.of_nat (length (BlobObjList.objs b)).
Proof.
  intros [Hs He Hf]. unfold BlobObjList.write. cbv zeta.
  match goal with |- u32 (foldl _ ?o _).2 = _ =>
    destruct (out_fold_pair (λ x : Z * BlobObjInfo.t, writeI64 x.1) (λ x, BlobObjInfo.write x.2) (BlobObjList.objs b) o)
      as [_ ->] end.
  set (F := foldl _ out_nil _).
  assert (u32 F.2 = u32 (36 * Z.of_nat (length (BlobObjList.objs b)))) as HF.
  { unfold F. rewrite (count_fold _ (λ _, 36)).
    - f_equal. clear. induction (BlobObjList.objs b) as [|x l IH]; simpl; lia.
    - intros [o i] _. unfold BlobObjInfo.write, ObjectID.write, writeBuffer, writeI64. cbn [out_app out_nil fst snd].
      rewrite !count_writeI64. done. }
  clearbody F. cbn [out_app out_nil fst snd]. unfold writeI32. rewrite !count_writeI32. u32_norm.
  replace (0 + 4 + (4 + F.2)) with (8 + F.2) by lia. rewrite (u32_add_congr _ _ 8 _ eq_refl HF), u32_small; lia.
Qed.

(** A descriptor is stored as what [write] gives and read back from it. *)
Lemma BlobMetaDesc_load m : blob_ok m →
  getSerialized (Ret (BlobMetaDesc.write m)) [] = Ret ((BlobMetaDesc.write m).1, ERR_OK) ∧
  loadSerialized BlobMetaDesc.read (BlobMetaDesc.write m).1 = Ret (Some m, ERR_OK).
Proof.
  intros Hm. apply codec_load; [by apply BlobMetaDesc_codec|].
  rewrite BlobMetaDesc_count by done. pose proof (meta_size_length (BlobMetaDesc.meta_list m)). lia.
Qed.

(** ** Volume descriptors *)
Record volume_ok (m : VolumeMetaDesc.t) : Prop := {
  vm_seq : uint64 (VolumeMetaDesc.sequence_id m);
  vm_meta : meta_ok (VolumeMetaDesc.meta_list m);
  vm_fits : 12 + meta_size (VolumeMetaDesc.meta_list m) < 2 ^ 32;
}.

Lemma VolumeMetaDesc_load m : volume_ok m →
  getSerialized (Ret (VolumeMetaDesc.write m)) [] = Ret ((VolumeMetaDesc.write m).1, ERR_OK) ∧
  loadSerialized VolumeMetaDesc.read (VolumeMetaDesc.write m).1 = Ret (Some m, ERR_OK).
Proof.
  intros [H1 H2 H3]. pose proof (meta_size_length (VolumeMetaDesc.meta_list m)). apply codec_load.
  - unfold VolumeMetaDesc.write. cbv zeta. rewrite out_app_nil_l. unfold VolumeMetaDesc.read.
    eapply codec_bind; [by apply codec_I64|]. destruct m as [q l].
    apply (codec_map MetaDataList.read (λ l, VolumeMetaDesc.Make q l)). apply MetaDataList_codec; [done|]. simpl in *. lia.
  - unfold VolumeMetaDesc.write. cbn [out_app snd out_nil]. rewrite u32_idemp, (Z.add_comm _ (MetaDataList.write _).2).
    rewrite (u32_congr _ _ _ (MetaDataList_count _ H2)). unfold writeI64. rewrite count_writeI64. u32_norm.
    rewrite u32_small; lia.
Qed.

End Codecs.

(** ** Round trips *)
Section Theorems.
Context `{P : TProtocol} `{!TProtocolLaws P}.

(** The description of a blob survives serialization: what
    [getSerialized] stores for a blob descriptor, [loadSerialized] loads back
    unchanged and without an error, as long as its size in bytes stays below
    [2^32] and its strings below [2^31] bytes. *)
Theorem blob_meta_roundtrip (m : BlobMetaDesc.t) : blob_ok m →
  ∃ data, getSerialized (Ret (BlobMetaDesc.write m)) [] = Ret (data, ERR_OK) ∧
    loadSerialized BlobMetaDesc.read data = Ret (Some m, ERR_OK).
Proof.
  intros Hm. exists (BlobMetaDesc.write m).1. by apply BlobMetaDesc_load.
Qed.

(** So does the list of objects of a blob, with its end-of-blob flag. *)
Theorem blob_objects_roundtrip (b : BlobObjList.t) : objs_ok b →
  ∃ data, getSerialized (Ret (BlobObjList.write b)) [] = Ret (data, ERR_OK) ∧
    loadSerialized BlobObjList.read data = Ret (Some b, ERR_OK).
Proof.
  intros Hb. exists (BlobObjList.write b).1. apply codec_load; [by apply BlobObjList_codec|rewrite BlobObjList_count by done; lia].
Qed.

End Theorems.

Lemma lookup_foldl_insert (l m : list (Z * BlobObjInfo.t)) o : OMap.sorted Z.compare m → OMap.sorted Z.compare l →
  OMap.lookup Z.compare o (foldl (λ m x, OMap.insert Z.compare x.1 x.2 m) m l) =
  match OMap.lookup Z.compare o m with Some i => Some i | None => OMap.lookup Z.compare o l end.
Proof.
  revert m. induction l as [|[o' i] l IH]; intros m Hm Hl; [simpl; destruct (OMap.lookup Z.compare o m); done|].
  apply OMap.sorted_cons in Hl as [Hl Hlt]. cbn [foldl fst snd].
  rewrite IH; [|by apply (OMap.insert_sorted Z.compare)|done]. simpl. unfold OMap.insert.
  destruct (OMap.lookup Z.compare o' m) as [j|] eqn:Ej.
  - destruct (OMap.lookup Z.compare o m) as [i'|] eqn:E; [done|]. destruct (Z.compare_spec o o') as [->| |]; [congruence| |done].
    apply (OMap.lookup_below Z.compare). intros y Hy. eapply (cmp_lt_trans (cmp:=Z.compare)); [|by apply Hlt]. by apply Z.compare_lt_iff.
  - destruct (Z.compare_spec o o') as [->|Hne|Hne].
    + rewrite (OMap.lookup_put_eq Z.compare) by done. by rewrite Ej.
    + rewrite (OMap.lookup_put_ne Z.compare) by (done || lia). destruct (OMap.lookup Z.compare o m); [done|].
      apply (OMap.lookup_below Z.compare). intros y Hy. eapply (cmp_lt_trans (cmp:=Z.compare)); [|by apply Hlt]. by apply Z.compare_lt_iff.
    + by rewrite (OMap.lookup_put_ne Z.compare) by (done || lia).
Qed.

(** [BlobObjList::merge] keeps the older entry: for an offset in both
    lists the result has the object of the list merged into, not of the newer
    one. *)
Theorem merge_keeps_older (b newer : BlobObjList.t) : BlobObjList.end_of_blob b = false →
  OMap.sorted Z.compare (BlobObjList.objs b) → OMap.sorted Z.compare (BlobObjList.objs newer) →
  ∃ b', BlobObjList.merge b newer = Ret b' ∧ ∀ o, OMap.lookup Z.compare o (BlobObjList.objs b') =
    match OMap.lookup Z.compare o (BlobObjList.objs b) with
    | Some i => Some i
    | None => OMap.lookup Z.compare o (BlobObjList.objs newer)
    end.
Proof.
  intros He Hb Hn. unfold BlobObjList.merge. rewrite He. eexists. split; [done|]. intros o. simpl.
  by apply lookup_foldl_insert.
Qed.

(** ** Concrete descriptors *)
Definition demo_blob : BlobMetaDesc.t :=
  BlobMetaDesc.Make (BasicBlobMeta.Make [97; 98] 1 7 4096) [([107], [118; 118]); ([108], [])].
Definition demo_objs : BlobObjList.t :=
  BlobObjList.Make [(0, BlobObjInfo.Make (replicate 20 1) 4096); (4096, BlobObjInfo.Make (replicate 20 255) 100)] true.

Lemma blob_meta_roundtrip_witness :
  ∃ data, getSerialized (Ret (BlobMetaDesc.write demo_blob)) [] = Ret (data, ERR_OK) ∧
    loadSerialized BlobMetaDesc.read data = Ret (Some demo_blob, ERR_OK).
Proof.
  apply blob_meta_roundtrip. split.
  - reflexivity.
  - split; vm_compute; discriminate.
  - split; vm_compute; discriminate.
  - split; vm_compute; discriminate.
  - split; [repeat constructor|]. apply Forall_forall. repeat (apply List.Forall_cons || apply List.Forall_nil); split; reflexivity.
  - reflexivity.
Defined.

Lemma blob_objects_roundtrip_witness :
  ∃ data, getSerialized (Ret (BlobObjList.write demo_objs)) [] = Ret (data, ERR_OK) ∧
    loadSerialized BlobObjList.read data = Ret (Some demo_objs, ERR_OK).
Proof.
  apply blob_objects_roundtrip. split.
  - repeat constructor.
  - apply Forall_forall. repeat (apply List.Forall_cons || apply List.Forall_nil); split_and!; (reflexivity || (split; vm_compute; discriminate)).
  - reflexivity.
Defined.

Lemma merge_keeps_older_witness :
  ∃ b', BlobObjList.merge (BlobObjList.with_objs [(0, BlobObjInfo.Make [1] 1)] BlobObjList.make)
          (BlobObjList.with_objs [(0, BlobObjInfo.Make [2] 2)] BlobObjList.make) = Ret b' ∧
    OMap.lookup Z.compare 0 (BlobObjList.objs b') = Some (BlobObjInfo.Make [1] 1).
Proof.
  destruct (merge_keeps_older (BlobObjList.with_objs [(0, BlobObjInfo.Make [1] 1)] BlobObjList.make)
    (BlobObjList.with_objs [(0, BlobObjInfo.Make [2] 2)] BlobObjList.make)) as (b' & E & Hb).
  - reflexivity.
  - repeat constructor.
  - repeat constructor.
  - exists b'. split; [exact E|]. rewrite Hb. reflexivity.
Defined.
