(* ===== verification/CatalogKeys.v ===== *)
(** * Keys of the volume catalog

    Models src/source/include/catalogKeys and lib/catalogKeys: the keys of the
    entries of a volume's catalog as byte strings, their accessors, the order
    the key-value store keeps them in, and the key after all names with a
    prefix.  The printed form of keys is not modelled.  Integers in keys are
    stored as the machine does, lowest byte first; [char] is signed. *)

From S2P Require Import Prelude.
From S2P Require Import Serialize.
From S2P Require Import ObjectId.
From S2P Require Import OrderedMap.
Open Scope Z_scope.

(** ** Integers in memory *)
Fixpoint le_bytes (n : nat) (z : Z) : list Z :=
  match n with
  | O => []
  | S n => z `mod` 256 :: le_bytes n (z / 256)
  end.

Fixpoint le_value (l : list Z) : Z :=
  match l with
  | [] => 0
  | b :: l => b + 256 * le_value l
  end.

(** [*reinterpret_cast<T const*>(data.data() + pos)] of [n] bytes. *)
Definition load (n pos : nat) (data : list Z) : res Z :=
  if decide (pos + n ≤ length data)%nat then Ret (le_value (take n (drop pos data))) else Fault Undefined.

(** [std::string{s + pos, size - pos}]: a length below zero is refused. *)
Definition string_from (pos : nat) (data : list Z) : res (list Z) :=
  if decide (pos ≤ length data)%nat then Ret (drop pos data) else Fault StdException.

(** ** [CatalogKeyType] *)
Inductive CatalogKeyType :=
| ERROR | JOURNAL_TIMESTAMP | VOLUME_METADATA | BLOB_METADATA | BLOB_OBJECTS | OBJECT_EXPUNGE | OBJECT_RANK
| EXTENDED | OTHER_TYPE (b : Z).

Definition key_type (b : Z) : CatalogKeyType :=
  if b =? 0 then ERROR else if b =? 1 then JOURNAL_TIMESTAMP else if b =? 2 then VOLUME_METADATA
  else if b =? 3 then BLOB_METADATA else if b =? 4 then BLOB_OBJECTS else if b =? 5 then OBJECT_EXPUNGE
  else if b =? 6 then OBJECT_RANK else if b =? 255 then EXTENDED else OTHER_TYPE b.

(** ** [CatalogKey]: its state is the string [_data] *)
Module CatalogKey.

(** [sizeof(CatalogKeyType)] *)
Definition getNewDataSize : nat := 1.

(** The string ends in a zero byte, which is what an empty one shows. *)
Definition getKeyType (data : list Z) : Z := default 0 (head data).

Definition make (keyType : Z) (data : list Z) : list Z :=
  match data with
  | [] => [keyType]
  | _ :: l => keyType :: l
  end.

End CatalogKey.

(** [std::string(n, '\0')], and [std::string{n, '\0'}], which is the list of
    the two characters. *)
Definition string_fill (n : nat) : list Z := replicate n 0.
Definition string_braces (n : nat) : list Z := [Z.of_nat n; 0].

Module BlobMetadataKey.

Definition make (blobName : list Z) : list Z :=
  CatalogKey.make 3 (string_fill CatalogKey.getNewDataSize ++ blobName).

Definition getBlobName (data : list Z) : res (list Z) := string_from CatalogKey.getNewDataSize data.

End BlobMetadataKey.

Module BlobObjectKey.

Definition getNewDataSize : nat := CatalogKey.getNewDataSize + 4.

(** [BlobObjectKey(leveldb::Slice const&)] *)
Definition of_slice (leveldbKey : list Z) : res (list Z) :=
  if decide (length leveldbKey < getNewDataSize)%nat then Fault StdException else Ret leveldbKey.

Definition make (blobName : list Z) (objectIndex : Z) : list Z :=
  CatalogKey.make 4 (string_fill CatalogKey.getNewDataSize ++ le_bytes 4 objectIndex ++ blobName).

Definition getBlobName (data : list Z) : res (list Z) := string_from getNewDataSize data.
Definition getObjectIndex (data : list Z) : res Z := load 4 CatalogKey.getNewDataSize data.

Definition setBlobName (value data : list Z) : list Z := take getNewDataSize data ++ value.

(** [std::string::replace(pos, n, s, n)] *)
Definition setObjectIndex (value : Z) (data : list Z) : res (list Z) :=
  let pos := CatalogKey.getNewDataSize in
  if decide (pos ≤ length data)%nat then Ret (take pos data ++ le_bytes 4 value ++ drop (pos + 4) data)
  else Fault OutOfRange.

End BlobObjectKey.

Module JournalTimestampKey.
Definition make : list Z := CatalogKey.make 1 (string_fill CatalogKey.getNewDataSize).
End JournalTimestampKey.

Module VolumeMetadataKey.
Definition make : list Z := CatalogKey.make 2 (string_braces CatalogKey.getNewDataSize).
End VolumeMetadataKey.

(** An [ObjectID] of which only the first bytes were copied: comparing past
    them reads bytes that were never set. *)
Fixpoint partial_compare (n : nat) (a b : list Z) : res Z :=
  match n with
  | O => Ret 0
  | S n => match a, b with
           | x :: a, y :: b => if x <? y then Ret (-1) else if y <? x then Ret 1 else partial_compare n a b
           | _, _ => Fault Undefined
           end
  end.

Module ObjectExpungeKey.

(** The volume id itself is used as the address of its bytes. *)
Definition make (volumeId : Z) (objectId : list Z) : res (list Z) := Fault Undefined.

(** [ObjectID{data + 1, sizeof(fds_volid_t::value_type)}]: the bytes copied. *)
Definition getObjectId (data : list Z) : res (list Z) :=
  if decide (CatalogKey.getNewDataSize + 8 ≤ length data)%nat then
    Ret (take 8 (drop CatalogKey.getNewDataSize data))
  else Fault Undefined.

Definition getVolumeId (data : list Z) : res Z := load 8 (CatalogKey.getNewDataSize + 8) data.

End ObjectExpungeKey.

Module ObjectRankKey.

Definition make (objectId : list Z) : list Z :=
  CatalogKey.make 6 (string_braces CatalogKey.getNewDataSize ++ objectId).

(** [ObjectID{data + 1, data.size() - 1}]: the copy must fit the 20 bytes. *)
Definition getObjectId (data : list Z) : res (list Z) :=
  let id := drop CatalogKey.getNewDataSize data in
  if decide (1 ≤ length data ∧ length id ≤ 20)%nat then Ret id else Fault Undefined.

End ObjectRankKey.

(** ** [CatalogKeyComparator] *)
Module CatalogKeyComparator.

(** [_compareWithOperators] *)
Definition compareWithOperators {T} (lt : T → T → bool) (lhs rhs : T) : Z :=
  if lt lhs rhs then -1 else if lt rhs lhs then 1 else 0.

(** [operator<] of [std::string] and of integers *)
Definition string_lt (a b : list Z) : bool := match bytes_cmp a b with Lt => true | _ => false end.

Definition Compare (lhs rhs : list Z) : res Z :=
  match lhs, rhs with
  | [], _ => Fault StdException
  | _, [] => Fault StdException
  | lhsKeyType :: _, rhsKeyType :: _ =>
      match key_type lhsKeyType, key_type rhsKeyType with
      | ERROR, _ => Fault StdException
      | _, ERROR => Fault StdException
      | _, _ =>
          let keyTypeResult := compareWithOperators Z.ltb lhsKeyType rhsKeyType in
          if decide (keyTypeResult ≠ 0) then Ret keyTypeResult else
          match key_type lhsKeyType with
          | BLOB_METADATA =>
              l ← BlobMetadataKey.getBlobName lhs; r ← BlobMetadataKey.getBlobName rhs;
              Ret (compareWithOperators string_lt l r)
          | BLOB_OBJECTS =>
              typedLhs ← BlobObjectKey.of_slice lhs; typedRhs ← BlobObjectKey.of_slice rhs;
              l ← BlobObjectKey.getBlobName typedLhs; r ← BlobObjectKey.getBlobName typedRhs;
              let blobNameResult := compareWithOperators string_lt l r in
              if decide (blobNameResult = 0) then
                li ← BlobObjectKey.getObjectIndex typedLhs; ri ← BlobObjectKey.getObjectIndex typedRhs;
                Ret (compareWithOperators Z.ltb li ri)
              else Ret blobNameResult
          | JOURNAL_TIMESTAMP | VOLUME_METADATA => Ret 0
          | OBJECT_EXPUNGE =>
              l ← ObjectExpungeKey.getVolumeId lhs; r ← ObjectExpungeKey.getVolumeId rhs;
              let volumeIdResult := compareWithOperators Z.ltb l r in
              if decide (volumeIdResult = 0) then
                lo ← ObjectExpungeKey.getObjectId lhs; ro ← ObjectExpungeKey.getObjectId rhs;
                partial_compare 20 lo ro
              else Ret volumeIdResult
          | OBJECT_RANK =>
              lo ← ObjectRankKey.getObjectId lhs; ro ← ObjectRankKey.getObjectId rhs;
              partial_compare 20 lo ro
          | EXTENDED | ERROR | OTHER_TYPE _ => Fault StdException
          end
      end
  end.

(** The names from the last character on while it is
    [numeric_limits<unsigned char>::max()]; a [char] is compared as a signed
    value. *)
Fixpoint strip_max (rev_name : list Z) : list Z :=
  match rev_name with
  | [] => []
  | c :: l => if decide (i8 c = 255) then strip_max l else c :: l
  end.

Definition getIncremented (key : list Z) : res (list Z) :=
  blobName ← BlobMetadataKey.getBlobName key;
  match blobName with
  | [] => Ret (BlobMetadataKey.make [])
  | _ => match strip_max (reverse blobName) with
         | [] => Ret (BlobMetadataKey.make [])
         | c :: l => Ret (BlobMetadataKey.make (reverse l ++ [u8 (c + 1)]))
         end
  end.

End CatalogKeyComparator.

(** ** The keys of a catalog *)
Inductive ckey := KJournal | KVolume | KBlob (name : list Z) | KObject (name : list Z) (index : Z).

Definition encode (k : ckey) : list Z :=
  match k with
  | KJournal => JournalTimestampKey.make
  | KVolume => VolumeMetadataKey.make
  | KBlob name => BlobMetadataKey.make name
  | KObject name index => BlobObjectKey.make name index
  end.

Definition ckey_ok (k : ckey) : Prop :=
  match k with KObject _ index => 0 ≤ index < 2 ^ 32 | _ => True end.

(** First the kind of entry, then the name of the blob, then the index of the
    object. *)
Definition ckey_view (k : ckey) : Z * (list Z * Z) :=
  match k with
  | KJournal => (1, ([], 0))
  | KVolume => (2, ([], 0))
  | KBlob name => (3, (name, 0))
  | KObject name index => (4, (name, index))
  end.

Definition ckey_cmp (k1 k2 : ckey) : comparison :=
  lex_cmp Z.compare (lex_cmp bytes_cmp Z.compare) (ckey_view k1) (ckey_view k2).

#[export] Instance ckey_view_inj : Inj (=) (=) ckey_view.
Proof. intros [] [] H; simpl in H; congruence. Qed.

#[export] Instance ckey_cmp_order : CmpOrder ckey_cmp.
Proof.
  split; unfold ckey_cmp.
  - intros a b. rewrite cmp_eq. split; [by intros ?%(inj ckey_view)|by intros ->].
  - intros a b. apply cmp_flip.
  - intros a b c. apply cmp_lt_trans.
Qed.

Definition cmp_sign (c : comparison) : Z := match c with Lt => -1 | Eq => 0 | Gt => 1 end.

Lemma length_le_bytes n z : length (le_bytes n z) = n.
Proof. revert z. induction n; intros z; simpl; auto. Qed.

Lemma le_value_bytes n z : le_value (le_bytes n z) = z `mod` 256 ^ Z.of_nat n.
Proof.
  revert z. induction n as [|n IH]; intros z.
  - simpl. by rewrite Z.mod_1_r.
  - cbn [le_bytes le_value]. rewrite IH, Nat2Z.inj_succ, Z.pow_succ_r by lia.
    pose proof (Z.pow_pos_nonneg 256 (Z.of_nat n) ltac:(lia) ltac:(lia)). by rewrite Z.rem_mul_r by lia.
Qed.

Lemma load_app n pre z rest : load n (length pre) (pre ++ le_bytes n z ++ rest) = Ret (z `mod` 256 ^ Z.of_nat n).
Proof.
  unfold load. rewrite decide_True by (rewrite !length_app, length_le_bytes; lia).
  rewrite drop_app_length, take_app_length' by (by rewrite length_le_bytes). by rewrite le_value_bytes.
Qed.

Section Compare.
Import CatalogKeyComparator.

Lemma compare_strings a b : compareWithOperators string_lt a b = cmp_sign (bytes_cmp a b).
Proof.
  unfold compareWithOperators, string_lt. rewrite (cmp_flip (cmp:=bytes_cmp) a b). by destruct (bytes_cmp a b).
Qed.

Lemma compare_ints a b : compareWithOperators Z.ltb a b = cmp_sign (a ?= b).
Proof.
  unfold compareWithOperators. destruct (Z.compare_spec a b) as [->|H|H].
  - by rewrite Z.ltb_irrefl.
  - by rewrite (proj2 (Z.ltb_lt a b) H).
  - assert (a <? b = false) as -> by (apply Z.ltb_ge; lia). by rewrite (proj2 (Z.ltb_lt b a) H).
Qed.

(** The accessors give back what a key was made of. *)
Lemma blob_key_name name : BlobMetadataKey.getBlobName (BlobMetadataKey.make name) = Ret name.
Proof. done. Qed.

Lemma object_key_fields name index : 0 ≤ index < 2 ^ 32 →
  BlobObjectKey.of_slice (BlobObjectKey.make name index) = Ret (BlobObjectKey.make name index) ∧
  BlobObjectKey.getBlobName (BlobObjectKey.make name index) = Ret name ∧
  BlobObjectKey.getObjectIndex (BlobObjectKey.make name index) = Ret index.
Proof.
  intros Hi. assert (BlobObjectKey.make name index = [4] ++ le_bytes 4 index ++ name) as -> by done.
  split_and!.
  - done.
  - done.
  - transitivity (Ret (index `mod` 256 ^ Z.of_nat 4)); [exact (load_app 4 [4] index name)|].
    f_equal. by apply Z.mod_small.
Qed.

Lemma Compare_encode k1 k2 : ckey_ok k1 → ckey_ok k2 →
  Compare (encode k1) (encode k2) = Ret (cmp_sign (ckey_cmp k1 k2)).
Proof.
  intros H1 H2. destruct k1 as [| |n1|n1 i1], k2 as [| |n2|n2 i2]; try done.
  - simpl. change (Ret (compareWithOperators string_lt n1 n2) = Ret (cmp_sign (ckey_cmp (KBlob n1) (KBlob n2)))).
    rewrite compare_strings. unfold ckey_cmp, lex_cmp. simpl. by destruct (bytes_cmp n1 n2).
  - destruct (object_key_fields n1 i1 H1) as (S1 & N1 & I1). destruct (object_key_fields n2 i2 H2) as (S2 & N2 & I2).
    change (Compare (encode (KObject n1 i1)) (encode (KObject n2 i2))) with
      (typedLhs ← BlobObjectKey.of_slice (BlobObjectKey.make n1 i1); typedRhs ← BlobObjectKey.of_slice (BlobObjectKey.make n2 i2);
       l ← BlobObjectKey.getBlobName typedLhs; r ← BlobObjectKey.getBlobName typedRhs;
       let blobNameResult := compareWithOperators string_lt l r in
       if decide (blobNameResult = 0) then
         li ← BlobObjectKey.getObjectIndex typedLhs; ri ← BlobObjectKey.getObjectIndex typedRhs;
         Ret (compareWithOperators Z.ltb li ri)
       else Ret blobNameResult).
    rewrite S1, bind_Ret, S2, bind_Ret, N1, bind_Ret, N2, bind_Ret, I1, I2. cbv zeta. rewrite !bind_Ret.
    rewrite compare_strings, compare_ints. unfold ckey_cmp, lex_cmp. simpl. by destruct (bytes_cmp n1 n2).
Qed.

(** The comparator is a total order on the keys of a catalog: comparing
    either way round gives opposite signs, only equal keys compare as equal,
    and the order is transitive.  The entries of one kind are together, sorted
    by blob name, and the objects of one blob are together, sorted by index. *)
Theorem comparator_total_order (k1 k2 k3 : ckey) : ckey_ok k1 → ckey_ok k2 → ckey_ok k3 →
  (∃ r, Compare (encode k1) (encode k2) = Ret r ∧ Compare (encode k2) (encode k1) = Ret (- r) ∧ (r = 0 ↔ k1 = k2)) ∧
  (Compare (encode k1) (encode k2) = Ret (-1) → Compare (encode k2) (encode k3) = Ret (-1) →
   Compare (encode k1) (encode k3) = Ret (-1)) ∧
  (∀ name i j, k1 = KObject name i → k2 = KObject name j →
     (Compare (encode k1) (encode k2) = Ret (-1) ↔ i < j) ∧
     (Compare (encode k1) (encode k3) = Ret (-1) → Compare (encode k3) (encode k2) = Ret (-1) →
      ∃ l, k3 = KObject name l ∧ i < l < j)).
Proof.
  intros H1 H2 H3. rewrite !Compare_encode by done.
  assert (∀ c, Ret (A:=Z) (cmp_sign c) = Ret (-1) ↔ c = Lt) as Hlt by (intros []; split; done).
  split; [|split].
  - exists (cmp_sign (ckey_cmp k1 k2)). split; [done|]. rewrite (cmp_flip (cmp:=ckey_cmp) k1 k2).
    split; [by destruct (ckey_cmp k1 k2)|]. rewrite <-(cmp_eq (cmp:=ckey_cmp)). by destruct (ckey_cmp k1 k2).
  - rewrite !Hlt. apply (cmp_lt_trans (cmp:=ckey_cmp)).
  - intros name i j -> ->. rewrite !Hlt. unfold ckey_cmp, lex_cmp. simpl.
    rewrite (proj2 (cmp_eq (cmp:=bytes_cmp) name name) eq_refl). split; [apply Z.compare_lt_iff|].
    destruct k3 as [| |n|n l]; try done. simpl. intros Ha Hb. destruct (bytes_cmp name n) eqn:E; [|..|done].
    + apply (cmp_eq (cmp:=bytes_cmp)) in E as <-. rewrite (proj2 (cmp_eq (cmp:=bytes_cmp) name name) eq_refl) in Hb.
      exists l. rewrite Z.compare_lt_iff in Ha, Hb. split; [done|lia].
    + rewrite (cmp_flip (cmp:=bytes_cmp) name n), E in Hb. done.
Qed.

(** ** The names with a prefix *)
Lemma i8_not_max c : i8 c ≠ 255.
Proof. pose proof (wrap_signed_range 8 c ltac:(lia)) as H. unfold i8. change (2 ^ (8 - 1)) with 128 in H. lia. Qed.

Lemma getIncremented_snoc p c : getIncremented (BlobMetadataKey.make (p ++ [c])) =
  Ret (BlobMetadataKey.make (p ++ [u8 (c + 1)])).
Proof.
  unfold getIncremented. rewrite blob_key_name, bind_Ret.
  destruct (p ++ [c]) as [|x l] eqn:E; [by destruct p|]. rewrite <-E. rewrite reverse_snoc. cbn [strip_max].
  rewrite decide_False by apply i8_not_max. by rewrite reverse_involutive.
Qed.

Lemma bytes_cmp_app p a b : bytes_cmp (p ++ a) (p ++ b) = bytes_cmp a b.
Proof. induction p as [|x p IH]; [done|]. simpl. by rewrite Z.compare_refl. Qed.

(** The names between a prefix and its successor. *)
Lemma prefix_between p c name : 0 ≤ c → Forall (λ b, 0 ≤ b) name →
  (p ++ [c]) `prefix_of` name ↔ bytes_cmp name (p ++ [c]) ≠ Lt ∧ bytes_cmp name (p ++ [c + 1]) = Lt.
Proof.
  intros Hc Hn. revert name Hn. induction p as [|x p IH]; intros name Hn.
  - destruct name as [|y name]; simpl.
    + split; [intros [l [=]]|by intros [? _]].
    + split.
      * intros [l [= -> ->]]. rewrite Z.compare_refl. assert ((c ?= c + 1) = Lt) as -> by (apply Z.compare_lt_iff; lia).
        by destruct l.
      * intros [Ha Hb]. exists name. simpl. f_equal. destruct (Z.compare_spec y c) as [| |]; [done|done|].
        destruct (Z.compare_spec y (c + 1)); [by destruct name|lia|done].
  - destruct name as [|y name]; simpl.
    + split; [intros [l [=]]|by intros [? _]].
    + apply Forall_cons in Hn as [_ Hn]. destruct (Z.compare_spec y x) as [->| |].
      * rewrite <-IH by done. split; [apply prefix_cons_inv_2|apply prefix_cons].
      * split; [intros ->%prefix_cons_inv_1; lia|by intros [? _]].
      * split; [intros ->%prefix_cons_inv_1; lia|by intros [_ ?]].
Qed.

(** [getIncremented] gives the end of the names with a prefix: for a
    prefix whose last byte is below 255, the blob names that start with it are
    exactly those not below the prefix and below the incremented key. *)
Theorem getIncremented_spec (p name : list Z) (c : Z) : 0 ≤ c < 255 → Forall (λ b, 0 ≤ b < 256) name →
  ∃ limit, getIncremented (BlobMetadataKey.make (p ++ [c])) = Ret limit ∧
    ((p ++ [c]) `prefix_of` name ↔
     Compare (encode (KBlob name)) (BlobMetadataKey.make (p ++ [c])) ≠ Ret (-1) ∧
     Compare (encode (KBlob name)) limit = Ret (-1)).
Proof.
  intros Hc Hn. exists (encode (KBlob (p ++ [c + 1]))). split.
  { rewrite getIncremented_snoc. unfold u8. rewrite Z.mod_small by lia. done. }
  change (BlobMetadataKey.make (p ++ [c])) with (encode (KBlob (p ++ [c]))). rewrite !Compare_encode by done.
  rewrite prefix_between by (lia || (eapply Forall_impl; [done|]; simpl; lia)). unfold ckey_cmp, lex_cmp. simpl.
  assert (∀ a b, match bytes_cmp a b with Eq => 0 ?= 0 | c => c end = bytes_cmp a b) as Hs by (intros a b; by destruct (bytes_cmp a b)).
  rewrite !Hs. destruct (bytes_cmp name (p ++ [c])), (bytes_cmp name (p ++ [c + 1])); simpl; naive_solver.
Qed.

(** A prefix that ends in the byte 255 is mishandled: the test for the
    greatest character compares a signed [char] with 255 and never succeeds,
    so the byte wraps around to zero, the incremented key is below the prefix
    and no name lies between them. *)
Theorem getIncremented_wraps (p name : list Z) : ∃ limit,
  getIncremented (BlobMetadataKey.make (p ++ [255])) = Ret limit ∧
  Compare limit (BlobMetadataKey.make (p ++ [255])) = Ret (-1) ∧
  (Compare (encode (KBlob name)) limit = Ret (-1) →
   Compare (encode (KBlob name)) (BlobMetadataKey.make (p ++ [255])) = Ret (-1)).
Proof.
  exists (encode (KBlob (p ++ [0]))). split; [by rewrite getIncremented_snoc|].
  change (BlobMetadataKey.make (p ++ [255])) with (encode (KBlob (p ++ [255]))). rewrite !Compare_encode by done.
  assert (ckey_cmp (KBlob (p ++ [0])) (KBlob (p ++ [255])) = Lt) as Hlt.
  { unfold ckey_cmp, lex_cmp. simpl. by rewrite bytes_cmp_app. }
  split; [by rewrite Hlt|]. destruct (ckey_cmp (KBlob name) (KBlob (p ++ [0]))) eqn:E; simpl; [done| |done]. intros _.
  by rewrite (cmp_lt_trans (cmp:=ckey_cmp) _ _ _ E Hlt).
Qed.

End Compare.

(** An object-rank key cannot be read back: its constructor stores two
    filler bytes where one is meant, and reading the identifier then copies 21
    bytes into a digest of 20; comparing two such keys does the same. *)
Theorem rank_key_overflow (oid1 oid2 : list Z) : length oid1 = 20%nat → length oid2 = 20%nat →
  ObjectRankKey.getObjectId (ObjectRankKey.make oid1) = Fault Undefined ∧
  CatalogKeyComparator.Compare (ObjectRankKey.make oid1) (ObjectRankKey.make oid2) = Fault Undefined.
Proof.
  intros H1 H2. assert (ObjectRankKey.getObjectId (ObjectRankKey.make oid1) = Fault Undefined) as E.
  { unfold ObjectRankKey.getObjectId, ObjectRankKey.make. simpl. rewrite decide_False; [done|]. simpl. lia. }
  split; [done|].
  change (CatalogKeyComparator.Compare (ObjectRankKey.make oid1) (ObjectRankKey.make oid2)) with
    (lo ← ObjectRankKey.getObjectId (ObjectRankKey.make oid1); ro ← ObjectRankKey.getObjectId (ObjectRankKey.make oid2);
     partial_compare 20 lo ro). by rewrite E.
Qed.

(** ** Concrete keys *)
Lemma comparator_total_order_witness :
  CatalogKeyComparator.Compare (encode (KObject [97] 1)) (encode (KObject [97] 256)) = Ret (-1) ∧
  ∃ r, CatalogKeyComparator.Compare (encode (KObject [97] 1)) (encode (KObject [97] 256)) = Ret r ∧
    CatalogKeyComparator.Compare (encode (KObject [97] 256)) (encode (KObject [97] 1)) = Ret (- r).
Proof.
  split; [reflexivity|].
  destruct (comparator_total_order (KObject [97] 1) (KObject [97] 256) KVolume) as [(r & H1 & H2 & _) _].
  - split; [discriminate|reflexivity].
  - split; [discriminate|reflexivity].
  - exact I.
  - exists r. split; [exact H1|exact H2].
Defined.

Lemma getIncremented_spec_witness : ∃ limit,
  CatalogKeyComparator.getIncremented (BlobMetadataKey.make [112; 47]) = Ret limit ∧
  CatalogKeyComparator.Compare (encode (KBlob [112; 47; 255])) limit = Ret (-1).
Proof.
  destruct (getIncremented_spec [112] [112; 47; 255] 47) as (limit & E & H).
  - split; [discriminate|reflexivity].
  - repeat constructor; (discriminate || reflexivity).
  - exists limit. split; [exact E|]. apply H. exists [255]. reflexivity.
Defined.

Lemma rank_key_overflow_witness :
  ObjectRankKey.getObjectId (ObjectRankKey.make (replicate 20 7)) = Fault Undefined.
Proof. apply (rank_key_overflow (replicate 20 7) (replicate 20 7)); reflexivity. Defined.
