(* ===== verification/PersistVolDB.v ===== *)
(** * The persistent catalog of a volume

    Models src/source/data-mgr/dm-lib/dm-vol-cat/DmPersistVolDB.cpp over
    lib/misc/Catalog.cpp: blob descriptors and the object identifiers of blobs
    kept in a key-value store sorted by [CatalogKeyComparator].  The store is
    LevelDB, whose copy under src/leveldb-1.15.0 is not modelled: it is the
    class [LevelDB] below, with its documented behaviour in [LevelDBLaws].
    A snapshot of the store is the store's state at that time.  Clock readings, whether opening the store succeeded and what each reading
    of an abort flag gives are arguments; LevelDB always gives an iterator.
    Paths, configuration, copying and archiving the files of a catalog are not
    modelled. *)

From S2P Require Import Prelude.
From S2P Require Import Serialize.
From S2P Require Import ObjectId.
From S2P Require Import OrderedMap.
From S2P Require Import DmBlobTypes.
From S2P Require Import CatalogKeys.
Open Scope Z_scope.

(** ** The store *)
Inductive ldb_status := StOk | StCorruption | StNotFound | StIOError | StOther.

#[export] Instance ldb_status_eq_dec : EqDecision ldb_status.
Proof. solve_decision. Defined.

(** An entry of a [leveldb::WriteBatch] *)
Inductive ldb_op := Put (key value : list Z) | Delete (key : list Z).

Class LevelDB (D : Type) := {
  ldb_dump : D → list (list Z * list Z);              (** what an iterator shows, from the first entry on *)
  ldb_write : list ldb_op → D → D * ldb_status;
  ldb_get : list Z → D → list Z * ldb_status;
  ldb_iter_status : D → ldb_status;                   (** [Iterator::status()] after a scan *)
}.

(** The order of the store. *)
Definition raw_cmp (a b : list Z) : comparison :=
  match CatalogKeyComparator.Compare a b with Ret r => r ?= 0 | Fault _ => Eq end.

Definition raw_apply (m : list (list Z * list Z)) (o : ldb_op) : list (list Z * list Z) :=
  match o with
  | Put k v => OMap.put raw_cmp k v m
  | Delete k => OMap.delete raw_cmp k m
  end.

Definition op_key (o : ldb_op) : list Z := match o with Put k _ => k | Delete k => k end.

(** Keys the comparator accepts. *)
Definition stored (key : list Z) : Prop := ∃ k, ckey_ok k ∧ key = encode k.

(** Documented behaviour of LevelDB on keys its comparator orders: a batch is
    applied in order and as a whole, and a key is found when it is there. *)
Class LevelDBLaws {D} (L : LevelDB D) : Prop := {
  ldb_write_ok ops d d' : ldb_write ops d = (d', StOk) →
    Forall (λ x, stored x.1) (ldb_dump d) → Forall (λ o, stored (op_key o)) ops →
    ldb_dump d' = foldl raw_apply (ldb_dump d) ops;
  ldb_get_ok key d v : stored key → Forall (λ x, stored x.1) (ldb_dump d) →
    ldb_get key d = (v, StOk) → OMap.lookup raw_cmp key (ldb_dump d) = Some v;
  ldb_get_none key d v : stored key → Forall (λ x, stored x.1) (ldb_dump d) →
    ldb_get key d = (v, StNotFound) → OMap.lookup raw_cmp key (ldb_dump d) = None;
}.

Definition status2error (s : ldb_status) : fds_errno :=
  match s with
  | StOk => ERR_OK
  | StCorruption => ERR_ONDISK_DATA_CORRUPT
  | StNotFound => ERR_VOL_NOT_FOUND
  | StIOError => ERR_DISK_READ_FAILED
  | StOther => ERR_INVALID
  end.

(** ** [Catalog] *)
Module Catalog.
Section Catalog.
Context {D : Type} `{L : LevelDB D}.

Definition Update_key (key value : list Z) (d : D) : D * fds_errno :=
  let '(d, status) := ldb_write [Put key value] d in
  (d, if decide (status = StOk) then ERR_OK else ERR_DISK_WRITE_FAILED).

Definition Update (batch : list ldb_op) (d : D) : D * fds_errno :=
  let '(d, status) := ldb_write batch d in
  (d, if decide (status = StOk) then ERR_OK else ERR_DISK_WRITE_FAILED).

Definition Query (key : list Z) (d : D) : list Z * fds_errno :=
  let '(value, status) := ldb_get key d in
  (value, if decide (status = StNotFound) then ERR_CAT_ENTRY_NOT_FOUND
          else if decide (status ≠ StOk) then ERR_DISK_READ_FAILED else ERR_OK).

Definition Delete_key (key : list Z) (d : D) : D * fds_errno :=
  let '(d, status) := ldb_write [Delete key] d in
  (d, if decide (status = StOk) then ERR_OK else ERR_DISK_WRITE_FAILED).

End Catalog.
End Catalog.

(** [std::string::find(s, pos)] *)
Fixpoint starts_with (s l : list Z) : bool :=
  match s, l with
  | [], _ => true
  | x :: s, y :: l => (x =? y) && starts_with s l
  | _, [] => false
  end.

Fixpoint str_find (s l : list Z) (i : nat) : option nat :=
  if starts_with s l then Some i
  else match l with [] => None | _ :: l => str_find s l (S i) end.

Definition find_from (s name : list Z) (pos : nat) : option nat :=
  if decide (pos ≤ length name)%nat then str_find s (drop pos name) pos else None.

(** ** [DmPersistVolDB] *)
Definition VERSION_INVALID : Z := 0.
Definition VERSION_START : Z := 2.
Definition uint32_max : Z := 4294967295.

Module DmVolumeSummary.
Record t := Make { initialized : bool; size : Z; blobCount : Z; objectCount : Z }.
Definition make : t := Make false 0 0 0.
End DmVolumeSummary.

Module DmPersistVolDB.
Section DmPersistVolDB.
Context {D : Type} `{L : LevelDB D} `{P : TProtocol}.

(** [catalog] is null until the store is opened. *)
Record t := Make {
  catalog : option D;
  objSize : Z;
  snapshot : bool;
  readOnly : bool;
  volSummary : DmVolumeSummary.t;
  snapshotCount : Z;
  versionFile : option Z;
  activated : bool;
  deleted : bool;
}.

Definition make (objSize : Z) (snapshot readOnly : bool) : res t :=
  _ ← fds_verify (bool_decide (0 < objSize));
  _ ← (if snapshot then fds_verify readOnly else Ret tt);
  Ret (Make None objSize snapshot readOnly DmVolumeSummary.make 0 None false false).

Definition with_catalog (d : D) (v : t) : t :=
  Make (Some d) (objSize v) (snapshot v) (readOnly v) (volSummary v) (snapshotCount v) (versionFile v) (activated v) (deleted v).
Definition with_summary (s : DmVolumeSummary.t) (v : t) : t :=
  Make (catalog v) (objSize v) (snapshot v) (readOnly v) s (snapshotCount v) (versionFile v) (activated v) (deleted v).
Definition with_count (n : Z) (v : t) : t :=
  Make (catalog v) (objSize v) (snapshot v) (readOnly v) (volSummary v) n (versionFile v) (activated v) (deleted v).
Definition with_version (n : Z) (v : t) : t :=
  Make (catalog v) (objSize v) (snapshot v) (readOnly v) (volSummary v) (snapshotCount v) (Some n) (activated v) (deleted v).
Definition with_activated (v : t) : t :=
  Make (catalog v) (objSize v) (snapshot v) (readOnly v) (volSummary v) (snapshotCount v) (versionFile v) true (deleted v).

Definition markDeleted (v : t) : t :=
  Make (catalog v) (objSize v) (snapshot v) (readOnly v) (volSummary v) (snapshotCount v) (versionFile v) (activated v) true.

(** [*catalog_] *)
Definition store (v : t) : res D := match catalog v with Some d => Ret d | None => Fault NullDeref end.

(** [IS_OP_ALLOWED()] *)
Definition op_allowed (v : t) : bool := negb (snapshot v || readOnly v).

(** [TIMESTAMP_OP(batch)] at the time [ts] *)
Definition timestamp_op (ts : Z) : ldb_op := Put JournalTimestampKey.make (le_bytes 8 ts).

Definition update (batch : list ldb_op) (v : t) : res (t * fds_errno) :=
  d ← store v;
  let '(d, rc) := Catalog.Update batch d in Ret (with_catalog d v, rc).

(** *** Puts *)
Definition putVolumeMetaDesc (ts : Z) (volDesc : VolumeMetaDesc.t) (v : t) : res (t * fds_errno) :=
  r ← getSerialized (Ret (VolumeMetaDesc.write volDesc)) [];
  let '(value, rc) := r : list Z * fds_errno in
  if decide (rc = ERR_OK) then update [timestamp_op ts; Put VolumeMetadataKey.make value] v else Ret (v, rc).

Definition putBlobMetaDesc (ts : Z) (blobName : list Z) (blobMeta : BlobMetaDesc.t) (v : t) : res (t * fds_errno) :=
  if negb (op_allowed v) then Ret (v, ERR_DM_OP_NOT_ALLOWED) else
  r ← getSerialized (Ret (BlobMetaDesc.write blobMeta)) [];
  let '(value, rc) := r : list Z * fds_errno in
  if decide (rc = ERR_OK) then update [timestamp_op ts; Put (BlobMetadataKey.make blobName) value] v
  else Ret (v, rc).

(** The index of an offset, or the error for offsets past [2^32] objects;
    unaligned offsets abort. *)
Definition object_index (offset : Z) (v : t) : res (Z + fds_errno) :=
  _ ← fds_verify (bool_decide (offset `mod` objSize v = 0));
  let objectIndex := offset / objSize v in
  if decide (objectIndex > uint32_max) then Ret (inr ERR_DM_OFFSET_OUT_RANGE) else Ret (inl objectIndex).

Definition putObject (ts : Z) (blobName : list Z) (offset : Z) (obj : list Z) (v : t) : res (t * fds_errno) :=
  if negb (op_allowed v) then Ret (v, ERR_DM_OP_NOT_ALLOWED) else
  r ← object_index offset v;
  match r with
  | inr e => Ret (v, e)
  | inl objectIndex => update [timestamp_op ts; Put (BlobObjectKey.make blobName objectIndex) obj] v
  end.

(** The loops that fill a batch: [inr] is an early return. *)
Definition batch_puts (blobName : list Z) (puts : list (Z * BlobObjInfo.t)) (v : t) (batch : list ldb_op)
    : res (list ldb_op + fds_errno) :=
  foldM (λ b it, match b with
    | inr e => Ret (inr e)
    | inl batch =>
        r ← object_index it.1 v;
        match r with
        | inr e => Ret (inr e)
        | inl objectIndex => Ret (inl (batch ++ [Put (BlobObjectKey.make blobName objectIndex) (BlobObjInfo.oid it.2)]))
        end
    end) (inl batch) puts.

Definition batch_deletes (blobName : list Z) (deletes : list Z) (v : t) (batch : list ldb_op)
    : res (list ldb_op + fds_errno) :=
  foldM (λ b it, match b with
    | inr e => Ret (inr e)
    | inl batch =>
        r ← object_index it v;
        match r with
        | inr e => Ret (inr e)
        | inl objectIndex => Ret (inl (batch ++ [Delete (BlobObjectKey.make blobName objectIndex)]))
        end
    end) (inl batch) deletes.

Definition putObject_list (ts : Z) (blobName : list Z) (objs : BlobObjList.t) (v : t) : res (t * fds_errno) :=
  if negb (op_allowed v) then Ret (v, ERR_DM_OP_NOT_ALLOWED) else
  match BlobObjList.objs objs with
  | [] => Ret (v, ERR_OK)
  | l => r ← batch_puts blobName l v [timestamp_op ts];
         match r with inr e => Ret (v, e) | inl batch => update batch v end
  end.

Definition putBatch (ts : Z) (blobName : list Z) (blobMeta : BlobMetaDesc.t) (puts : BlobObjList.t) (deletes : list Z)
    (v : t) : res (t * fds_errno) :=
  if negb (op_allowed v) then Ret (v, ERR_DM_OP_NOT_ALLOWED) else
  r ← batch_puts blobName (BlobObjList.objs puts) v [timestamp_op ts];
  match r with
  | inr e => Ret (v, e)
  | inl batch =>
      r ← batch_deletes blobName deletes v batch;
      match r with
      | inr e => Ret (v, e)
      | inl batch =>
          r ← getSerialized (Ret (BlobMetaDesc.write blobMeta)) [];
          let '(value, rc) := r : list Z * fds_errno in
          if decide (rc = ERR_OK) then update (batch ++ [Put (BlobMetadataKey.make blobName) value]) v
          else Ret (v, rc)
      end
  end.

(** [putBatch] with the caller's batch, which it extends. *)
Definition putBatch_wb (ts : Z) (blobName : list Z) (blobMeta : BlobMetaDesc.t) (wb : list ldb_op) (v : t)
    : res (t * list ldb_op * fds_errno) :=
  if negb (op_allowed v) then Ret (v, wb, ERR_DM_OP_NOT_ALLOWED) else
  let wb := wb ++ [timestamp_op ts] in
  r ← getSerialized (Ret (BlobMetaDesc.write blobMeta)) [];
  let '(value, rc) := r : list Z * fds_errno in
  if decide (rc = ERR_OK) then
    let wb := wb ++ [Put (BlobMetadataKey.make blobName) value] in
    r ← update wb v; Ret ((r : t * fds_errno).1, wb, r.2)
  else Ret (v, wb, rc).

(** [activate], without the paths and options of the store: [exists_] says whether the directory of the catalog is there,
    [opened] is the store, or nothing when opening it throws. *)
Definition activate (ts : Z) (exists_ : bool) (opened : option D) (v : t) : res (t * fds_errno) :=
  if snapshot v && negb exists_ then Ret (v, ERR_OK) else
  match opened with
  | None => Ret (v, if exists_ then ERR_DM_VOL_NOT_ACTIVATED else ERR_NOT_READY)
  | Some d =>
      r ← putVolumeMetaDesc ts (VolumeMetaDesc.make [] 0) (with_catalog d v);
      let '(v, rc) := r : t * fds_errno in
      if decide (rc ≠ ERR_OK) then Ret (v, ERR_DM_VOL_NOT_ACTIVATED) else Ret (with_activated v, ERR_OK)
  end.

(** *** Deletes *)
Definition deleteObject (ts : Z) (blobName : list Z) (offset : Z) (v : t) : res (t * fds_errno) :=
  let objectIndex := offset / objSize v in
  if decide (objectIndex > uint32_max) then Ret (v, ERR_DM_OFFSET_OUT_RANGE)
  else update [timestamp_op ts; Delete (BlobObjectKey.make blobName objectIndex)] v.

(** [for (i = startOffset; i <= endOffset; i += objSize_)]; [ts i] is the time
    of the round at [i]. *)
Fixpoint delete_loop (fuel : nat) (ts : Z → Z) (key : list Z) (i endOffset : Z) (rc : fds_errno) (v : t)
    : res (t * fds_errno) :=
  match fuel with
  | O => Fault OutOfFuel
  | S fuel =>
      if decide (i ≤ endOffset) then
        let objectIndex := i / objSize v in
        if decide (objectIndex > uint32_max) then Ret (v, ERR_DM_OFFSET_OUT_RANGE) else
        key ← BlobObjectKey.setObjectIndex objectIndex key;
        r ← update [timestamp_op (ts i); Delete key] v;
        let '(v, rc) := r : t * fds_errno in
        if decide (rc ≠ ERR_OK) then Ret (v, rc)
        else delete_loop fuel ts key (u64 (i + objSize v)) endOffset rc v
      else Ret (v, rc)
  end.

Definition deleteObject_range (fuel : nat) (ts : Z → Z) (blobName : list Z) (startOffset endOffset : Z) (v : t)
    : res (t * fds_errno) :=
  delete_loop fuel ts (BlobObjectKey.make blobName 0) startOffset endOffset ERR_OK v.

Definition deleteBlobMetaDesc (ts : Z) (blobName : list Z) (v : t) : res (t * fds_errno) :=
  update [timestamp_op ts; Delete (BlobMetadataKey.make blobName)] v.

(** *** Gets; [d] is the store or a snapshot of it *)
Definition getVolumeMetaDesc (d : D) : res (option VolumeMetaDesc.t * fds_errno) :=
  let '(value, rc) := Catalog.Query VolumeMetadataKey.make d in
  if decide (rc ≠ ERR_OK) then Ret (None, rc) else loadSerialized VolumeMetaDesc.read value.

Definition getBlobMetaDesc (blobName : list Z) (d : D) : res (option BlobMetaDesc.t * fds_errno) :=
  let '(value, rc) := Catalog.Query (BlobMetadataKey.make blobName) d in
  if decide (rc ≠ ERR_OK) then Ret (None, rc) else loadSerialized BlobMetaDesc.read value.

Definition is_type (k : CatalogKeyType) (key : list Z) : bool :=
  match k, key_type (CatalogKey.getKeyType key) with
  | BLOB_METADATA, BLOB_METADATA => true
  | BLOB_OBJECTS, BLOB_OBJECTS => true
  | _, _ => false
  end.

(** [fds_verify(blobMeta.loadSerialized(value) == ERR_OK)] *)
Definition load_verified (value : list Z) : res BlobMetaDesc.t :=
  r ← loadSerialized BlobMetaDesc.read value;
  match r : option BlobMetaDesc.t * fds_errno with
  | (Some m, ERR_OK) => Ret m
  | _ => Fault VerifyFailed
  end.

Definition getAllBlobMetaDesc (blobMetaList : list BlobMetaDesc.t) (d : D) : res (list BlobMetaDesc.t * fds_errno) :=
  l ← foldM (λ acc e, if is_type BLOB_METADATA e.1 then m ← load_verified e.2; Ret (acc ++ [m]) else Ret acc)
        blobMetaList (ldb_dump d);
  Ret (l, ERR_OK).

(** [Iterator::Next], which needs a valid iterator. *)
Definition next (it : list (list Z * list Z)) : res (list (list Z * list Z)) :=
  match it with [] => Fault Undefined | _ :: it => Ret it end.

Fixpoint prefix_loop (fuel : nat) (prefix delimiter end_ : list Z) (d : D) (it : list (list Z * list Z))
    (acc : list BlobMetaDesc.t) (skipped : list (list Z)) : res (list BlobMetaDesc.t * list (list Z)) :=
  match fuel with
  | O => Fault OutOfFuel
  | S fuel =>
      match it with
      | [] => Ret (acc, skipped)
      | (key, value) :: _ =>
          goes_on ← (if decide (prefix = []) then Ret true
                     else c ← CatalogKeyComparator.Compare key end_; Ret (bool_decide (c < 0)));
          if goes_on : bool then
            blobMetadata ← load_verified value;
            let blobName := BasicBlobMeta.blob_name (BlobMetaDesc.desc blobMetadata) in
            match (if decide (delimiter = []) then None else find_from delimiter blobName (length prefix)) with
            | Some delimiterPosition =>
                let blobNameToDelimiter := take (S delimiterPosition) blobName in
                limit ← CatalogKeyComparator.getIncremented (BlobMetadataKey.make blobNameToDelimiter);
                it ← next (OMap.seek raw_cmp limit (ldb_dump d));
                prefix_loop fuel prefix delimiter end_ d it acc
                  (skipped ++ [drop (length prefix) blobNameToDelimiter])
            | None =>
                it ← next it;
                prefix_loop fuel prefix delimiter end_ d it (acc ++ [blobMetadata]) skipped
            end
          else Ret (acc, skipped)
      end
  end.

Definition getBlobMetaDescForPrefix (fuel : nat) (prefix delimiter : list Z) (blobMetaList : list BlobMetaDesc.t)
    (skippedPrefixes : list (list Z)) (d : D) : res (list BlobMetaDesc.t * list (list Z) * fds_errno) :=
  if decide (prefix = [] ∧ delimiter = []) then
    r ← getAllBlobMetaDesc blobMetaList d; Ret ((r : _ * fds_errno).1, skippedPrefixes, r.2)
  else
    let begin_ := BlobMetadataKey.make prefix in
    end_ ← CatalogKeyComparator.getIncremented begin_;
    let it := if decide (prefix = []) then ldb_dump d else OMap.seek raw_cmp begin_ (ldb_dump d) in
    r ← prefix_loop fuel prefix delimiter end_ d it blobMetaList skippedPrefixes;
    Ret ((r : _ * list (list Z)).1, r.2, ERR_OK).

(** [std::map<std::string, int64_t>::emplace] keeps the first entry of a name;
    [abort] is what each reading of [abortFlag] gives. *)
Fixpoint seq_loop (abort : nat → bool) (n : nat) (it : list (list Z * list Z)) (blobsSeqId : list (list Z * Z))
    : res (list (list Z * Z) * fds_errno + list (list Z * Z)) :=
  match it with
  | [] => Ret (inr blobsSeqId)
  | (key, value) :: it =>
      if abort n then Ret (inl (blobsSeqId, ERR_DM_MIGRATION_ABORTED)) else
      if is_type BLOB_METADATA key then
        r ← loadSerialized BlobMetaDesc.read value;
        match r : option BlobMetaDesc.t * fds_errno with
        | (Some m, ERR_OK) =>
            seq_loop abort (S n) it (OMap.insert bytes_cmp (BasicBlobMeta.blob_name (BlobMetaDesc.desc m))
              (i64 (BasicBlobMeta.sequence_id (BlobMetaDesc.desc m))) blobsSeqId)
        | _ => Ret (inl (blobsSeqId, ERR_SERIALIZE_FAILED))
        end
      else seq_loop abort (S n) it blobsSeqId
  end.

Definition getAllBlobsWithSequenceId (abort : nat → bool) (blobsSeqId : list (list Z * Z)) (d : D)
    : res (list (list Z * Z) * fds_errno) :=
  r ← seq_loop abort 0 (ldb_dump d) blobsSeqId;
  match r with
  | inl r => Ret r
  | inr m => Ret (m, if decide (ldb_iter_status d ≠ StOk) then status2error (ldb_iter_status d) else ERR_OK)
  end.

Fixpoint max_loop (it : list (list Z * list Z)) (max : Z) : res (Z * option fds_errno) :=
  match it with
  | [] => Ret (max, None)
  | (key, value) :: it =>
      if is_type BLOB_METADATA key then
        r ← loadSerialized BlobMetaDesc.read value;
        match r : option BlobMetaDesc.t * fds_errno with
        | (Some m, ERR_OK) =>
            let seq := BasicBlobMeta.sequence_id (BlobMetaDesc.desc m) in
            max_loop it (if decide (max < seq) then seq else max)
        | _ => Ret (max, Some ERR_SERIALIZE_FAILED)
        end
      else max_loop it max
  end.

Definition getLatestSequenceId (d : D) : res (Z * fds_errno) :=
  r ← max_loop (ldb_dump d) 0;
  let '(max, early) := r : Z * option fds_errno in
  match early with
  | Some e => Ret (max, e)
  | None =>
      if decide (ldb_iter_status d = StOk) then
        r ← getVolumeMetaDesc d;
        match r : option VolumeMetaDesc.t * fds_errno with
        | (Some m, ERR_OK) =>
            Ret (if decide (max < VolumeMetaDesc.sequence_id m) then VolumeMetaDesc.sequence_id m else max, ERR_OK)
        | (_, err) => Ret (max, err)
        end
      else Ret (max, status2error (ldb_iter_status d))
  end.

(** [ObjectID::SetId(const std::string&)] *)
Definition set_id (obj value : list Z) : res (list Z) := ObjectID.SetId obj value (Z.of_nat (length value)).

(** The result keeps [obj] on an error. *)
Definition getObject (blobName : list Z) (offset : Z) (obj : list Z) (v : t) : res (list Z * fds_errno) :=
  r ← object_index offset v;
  match r with
  | inr e => Ret (obj, e)
  | inl objectIndex =>
      d ← store v;
      let '(value, rc) := Catalog.Query (BlobObjectKey.make blobName objectIndex) d in
      if decide (rc ≠ ERR_OK) then Ret (obj, rc)
      else o ← set_id obj value; Ret (o, ERR_OK)
  end.

(** The scan of both range reads, up to the key [end_] included; [push] gets
    the offset of an object and its digest. *)
Fixpoint object_loop {B} (push : B → Z → list Z → res B) (end_ : list Z) (v : t) (it : list (list Z * list Z)) (b : B)
    : res B :=
  match it with
  | [] => Ret b
  | (k, value) :: it =>
      c ← CatalogKeyComparator.Compare k end_;
      if decide (c ≤ 0) then
        key ← BlobObjectKey.of_slice k;
        i ← BlobObjectKey.getObjectIndex key;
        b ← push b (u64 (i * objSize v)) value;
        object_loop push end_ v it b
      else Ret b
  end.

Definition object_scan {B} (push : B → Z → list Z → res B) (blobName : list Z) (startOffset endOffset : Z)
    (d : D) (v : t) (b : B) : res B :=
  _ ← fds_verify (bool_decide (startOffset `mod` objSize v = 0));
  _ ← fds_verify (bool_decide (endOffset `mod` objSize v = 0));
  let startObjIndex := u32 (startOffset / objSize v) in
  let endObjIndex := u32 (endOffset / objSize v) in
  object_loop push (BlobObjectKey.make blobName endObjIndex) v
    (OMap.seek raw_cmp (BlobObjectKey.make blobName startObjIndex) (ldb_dump d)) b.

(** [getObject] into an [FDSP_BlobObjectList], whose entries are an offset, a
    size and a digest; reserving memory for the list is not modelled. *)
Definition getObject_range (blobName : list Z) (startOffset endOffset : Z) (objList : list (Z * Z * list Z)) (d : D) (v : t)
    : res (list (Z * Z * list Z) * fds_errno) :=
  l ← object_scan (λ l offset value, Ret (l ++ [(i64 offset, objSize v, value)])) blobName startOffset endOffset d v objList;
  Ret (l, if decide (ldb_iter_status d ≠ StOk) then status2error (ldb_iter_status d) else ERR_OK).

(** [getObject] into a [BlobObjList] *)
Definition getObject_list (blobName : list Z) (startOffset endOffset : Z) (objList : BlobObjList.t) (v : t)
    : res (BlobObjList.t * fds_errno) :=
  d ← store v;
  b ← object_scan (λ b offset value, o ← ObjectID.SetId ObjectID.make value (u32 (Z.of_nat (length value)));
                    Ret (BlobObjList.updateObject offset o (objSize v) b))
        blobName startOffset endOffset d v objList;
  Ret (b, ERR_OK).

(** The digests given to the callback, each written over the one before. *)
Fixpoint each_object (it : list (list Z * list Z)) (objId : list Z) : res (list (list Z)) :=
  match it with
  | [] => Ret []
  | (key, value) :: it =>
      if is_type BLOB_OBJECTS key then
        _ ← BlobObjectKey.of_slice key;
        objId ← set_id objId value;
        l ← each_object it objId; Ret (objId :: l)
      else Ret []
  end.

Definition forEachObject (d : D) : res (list (list Z)) :=
  each_object (OMap.seek raw_cmp (BlobObjectKey.make [] 0) (ldb_dump d)) ObjectID.make.

(** The rest of the scan is the iterator kept for the next call; [raw] is what
    an identifier made of a string of another size holds. *)
Fixpoint collect_ids (raw : list Z) (maxObjs : Z) (it : list (list Z * list Z)) (objects : list (list Z))
    : list (list Z) * list (list Z * list Z) :=
  match it with
  | [] => (objects, [])
  | (key, value) :: it' =>
      if decide (Z.of_nat (length objects) < maxObjs) then
        collect_ids raw maxObjs it'
          (if is_type BLOB_OBJECTS key then objects ++ [ObjectID.make_string raw value] else objects)
      else (objects, it)
  end.

Definition getObjectIds (raw : list Z) (maxObjs : Z) (dbItr : option (list (list Z * list Z))) (d : D)
    : list (list Z) * list (list Z * list Z) :=
  collect_ids raw maxObjs (default (ldb_dump d) dbItr) [].

(** *** Statistics, snapshots and versions *)
Definition volSummaryInitialized (v : t) : bool := DmVolumeSummary.initialized (volSummary v).

Definition initVolSummary (logicalSize blobCount logicalObjectCount : Z) (v : t) : t * fds_errno :=
  if DmVolumeSummary.initialized (volSummary v) then (v, ERR_DUPLICATE)
  else (with_summary (DmVolumeSummary.Make true logicalSize blobCount logicalObjectCount) v, ERR_OK).

(** [x += a - r] or [x -= r - a] *)
Definition apply_delta (x added removed : Z) : Z :=
  if decide (added >= removed) then u64 (x + (added - removed)) else u64 (x - (removed - added)).

Definition applyStatDeltas (bytesAdded bytesRemoved blobsAdded blobsRemoved objectsAdded objectsRemoved : Z) (v : t)
    : t * fds_errno :=
  let s := volSummary v in
  if DmVolumeSummary.initialized s then
    (with_summary (DmVolumeSummary.Make true (apply_delta (DmVolumeSummary.size s) bytesAdded bytesRemoved)
       (apply_delta (DmVolumeSummary.blobCount s) blobsAdded blobsRemoved)
       (apply_delta (DmVolumeSummary.objectCount s) objectsAdded objectsRemoved)) v, ERR_OK)
  else (v, ERR_NOT_READY).

Definition resetVolSummary (v : t) : t := with_summary DmVolumeSummary.make v.

Definition getVolSummary (v : t) : option (Z * Z * Z) * fds_errno :=
  let s := volSummary v in
  if DmVolumeSummary.initialized s
  then (Some (DmVolumeSummary.size s, DmVolumeSummary.blobCount s, DmVolumeSummary.objectCount s), ERR_OK)
  else (None, ERR_NOT_READY).

Definition getInMemorySnapshot (v : t) : res (t * D) := d ← store v; Ret (with_count (u64 (snapshotCount v + 1)) v, d).
Definition freeInMemorySnapshot (v : t) : t := with_count (u64 (snapshotCount v - 1)) v.

Definition getNumInMemorySnapshots (v : t) : Z := snapshotCount v.

Definition getVersion (v : t) : Z := default VERSION_INVALID (versionFile v).
Definition setVersion (version : Z) (v : t) : t := with_version version v.

Definition updateVersion (v : t) : res (t * Z) :=
  _ ← fds_verify (negb (snapshot v));
  let version := getVersion v in
  version ← (if decide (version = VERSION_INVALID) then Ret VERSION_START
             else if decide (version = 2 ^ 31 - 1) then Fault Undefined
             else let version := version + 1 in
                  Ret (if decide (version < VERSION_INVALID) then VERSION_START else version));
  Ret (setVersion version v, version).

End DmPersistVolDB.
End DmPersistVolDB.
