(* ===== verification/PersistVolSpec.v ===== *)
(** * What the persistent catalog of a volume promises

    The abstract state [vcat] of a catalog, the relation between it and the
    store of [PersistVolDB], and the theorems that the operations of
    [DmPersistVolDB] implement their effect on it. *)

From S2P Require Import Prelude.
From S2P Require Import Serialize.
From S2P Require Import ObjectId.
From S2P Require Import OrderedMap.
From S2P Require Import DmBlobTypes.
From S2P Require Import CatalogKeys.
From S2P Require Import PersistVolDB.
Open Scope Z_scope.

(** ** The abstract catalog *)
Record vcat := {
  c_volume : option VolumeMetaDesc.t;
  c_blobs : gmap (list Z) BlobMetaDesc.t;
  c_objects : gmap (list Z * Z) (list Z);
}.

(** The changes a write batch is made of. *)
Inductive change :=
| CStamp (ts : Z)
| CVolume (m : VolumeMetaDesc.t)
| CBlob (name : list Z) (m : BlobMetaDesc.t)
| CNoBlob (name : list Z)
| CObject (name : list Z) (index : Z) (oid : list Z)
| CNoObject (name : list Z) (index : Z).

Definition change_ok (c : change) : Prop :=
  match c with
  | CStamp _ | CNoBlob _ => True
  | CVolume m => volume_ok m
  | CBlob name m => blob_ok m ∧ BasicBlobMeta.blob_name (BlobMetaDesc.desc m) = name
  | CObject _ index oid => 0 ≤ index < 2 ^ 32 ∧ length oid = 20%nat
  | CNoObject _ index => 0 ≤ index < 2 ^ 32
  end.

Definition apply_change (s : vcat) (c : change) : vcat :=
  match c with
  | CStamp _ => s
  | CVolume m => {| c_volume := Some m; c_blobs := c_blobs s; c_objects := c_objects s |}
  | CBlob name m => {| c_volume := c_volume s; c_blobs := <[name := m]> (c_blobs s); c_objects := c_objects s |}
  | CNoBlob name => {| c_volume := c_volume s; c_blobs := delete name (c_blobs s); c_objects := c_objects s |}
  | CObject name index oid =>
      {| c_volume := c_volume s; c_blobs := c_blobs s; c_objects := <[(name, index) := oid]> (c_objects s) |}
  | CNoObject name index =>
      {| c_volume := c_volume s; c_blobs := c_blobs s; c_objects := delete (name, index) (c_objects s) |}
  end.

Definition apply_changes : vcat → list change → vcat := foldl apply_change.

Section Spec.
Context {D : Type} {L : LevelDB D} {LL : LevelDBLaws L} {P : TProtocol} {PL : TProtocolLaws P}.
Implicit Types (d : D) (m : list (ckey * list Z)) (s : vcat) (v : DmPersistVolDB.t (D:=D)).
Import DmPersistVolDB.

(** ** The store behind an abstract catalog *)
Notation img m := (prod_map encode id <$> m).
Notation keys_ok m := (Forall (λ x, ckey_ok x.1) m).

Definition blob_bytes (b : BlobMetaDesc.t) : list Z := (BlobMetaDesc.write b).1.
Definition volume_bytes (b : VolumeMetaDesc.t) : list Z := (VolumeMetaDesc.write b).1.

(** The sorted entries of a store, by their typed keys. *)
Record entries d m : Prop := {
  e_dump : ldb_dump d = img m;
  e_sorted : OMap.sorted ckey_cmp m;
  e_ok : keys_ok m;
}.

Record related m s : Prop := {
  r_volume : OMap.lookup ckey_cmp KVolume m = volume_bytes <$> c_volume s;
  r_blob name : OMap.lookup ckey_cmp (KBlob name) m = blob_bytes <$> c_blobs s !! name;
  r_object name i : OMap.lookup ckey_cmp (KObject name i) m = c_objects s !! (name, i);
  r_volume_ok b : c_volume s = Some b → volume_ok b;
  r_blob_ok name b : c_blobs s !! name = Some b → blob_ok b ∧ BasicBlobMeta.blob_name (BlobMetaDesc.desc b) = name;
  r_object_ok name i oid : c_objects s !! (name, i) = Some oid → length oid = 20%nat;
}.

Definition represents d s : Prop := ∃ m, entries d m ∧ related m s.

(** A catalog whose store is open and represents [s]. *)
Definition holds v s : Prop := ∃ d, catalog v = Some d ∧ represents d s.

Lemma holds_store v s : holds v s → ∃ d, store v = Ret d ∧ represents d s ∧ v = with_catalog d v.
Proof. intros (d & E & Hr). exists d. unfold store. rewrite E. split; [done|]. split; [done|]. destruct v. by simpl in E; subst. Qed.

Lemma raw_cmp_encode k1 k2 : ckey_ok k1 → ckey_ok k2 → raw_cmp (encode k1) (encode k2) = ckey_cmp k1 k2.
Proof. intros H1 H2. unfold raw_cmp. rewrite Compare_encode by done. by destruct (ckey_cmp k1 k2). Qed.

Lemma img_stored m : keys_ok m → Forall (λ x, stored x.1) (img m).
Proof.
  intros H. apply Forall_fmap. eapply Forall_impl; [done|]. intros [k x] Hk. by exists k.
Qed.

(** ** Changes as entries of a batch *)
Definition encode_change (c : change) : ldb_op :=
  match c with
  | CStamp ts => timestamp_op ts
  | CVolume m => Put VolumeMetadataKey.make (volume_bytes m)
  | CBlob name m => Put (BlobMetadataKey.make name) (blob_bytes m)
  | CNoBlob name => Delete (BlobMetadataKey.make name)
  | CObject name index oid => Put (BlobObjectKey.make name index) oid
  | CNoObject name index => Delete (BlobObjectKey.make name index)
  end.

Definition typed_apply m (c : change) : list (ckey * list Z) :=
  match c with
  | CStamp ts => OMap.put ckey_cmp KJournal (le_bytes 8 ts) m
  | CVolume b => OMap.put ckey_cmp KVolume (volume_bytes b) m
  | CBlob name b => OMap.put ckey_cmp (KBlob name) (blob_bytes b) m
  | CNoBlob name => OMap.delete ckey_cmp (KBlob name) m
  | CObject name index oid => OMap.put ckey_cmp (KObject name index) oid m
  | CNoObject name index => OMap.delete ckey_cmp (KObject name index) m
  end.

Lemma keys_ok_put k x m : ckey_ok k → keys_ok m → keys_ok (OMap.put ckey_cmp k x m).
Proof.
  rewrite !Forall_forall. intros Hk Hm y [->|Hy]%(OMap.put_elem ckey_cmp); [done|by apply Hm].
Qed.
Lemma keys_ok_delete k m : keys_ok m → keys_ok (OMap.delete ckey_cmp k m).
Proof. rewrite !Forall_forall. intros Hm y Hy%(OMap.delete_elem ckey_cmp). by apply Hm. Qed.

Lemma raw_apply_change m c : change_ok c → keys_ok m →
  raw_apply (img m) (encode_change c) = img (typed_apply m c) ∧ keys_ok (typed_apply m c).
Proof.
  intros Hc Hm. split.
  - destruct c as [ts|b|n b|n|n i o|n i]; cbn [encode_change raw_apply typed_apply timestamp_op];
      [apply (OMap.put_img ckey_cmp raw_cmp encode ckey_ok raw_cmp_encode KJournal)
      |apply (OMap.put_img ckey_cmp raw_cmp encode ckey_ok raw_cmp_encode KVolume)
      |apply (OMap.put_img ckey_cmp raw_cmp encode ckey_ok raw_cmp_encode (KBlob n))
      |apply (OMap.delete_img ckey_cmp raw_cmp encode ckey_ok raw_cmp_encode (KBlob n))
      |apply (OMap.put_img ckey_cmp raw_cmp encode ckey_ok raw_cmp_encode (KObject n i))
      |apply (OMap.delete_img ckey_cmp raw_cmp encode ckey_ok raw_cmp_encode (KObject n i))];
      done || by destruct Hc.
  - destruct c as [ts|b|n b|n|n i o|n i]; cbn [typed_apply];
      first [apply keys_ok_put; [done || by destruct Hc|done]|by apply keys_ok_delete].
Qed.

Lemma op_stored c : change_ok c → stored (op_key (encode_change c)).
Proof.
  destruct c as [ts|b|n b|n|n i o|n i]; intros Hc;
    [exists KJournal|exists KVolume|exists (KBlob n)|exists (KBlob n)|exists (KObject n i)|exists (KObject n i)];
    (split; [|done]); done || by destruct Hc.
Qed.

Lemma raw_apply_changes m cs : Forall change_ok cs → keys_ok m →
  foldl raw_apply (img m) (encode_change <$> cs) = img (foldl typed_apply m cs) ∧ keys_ok (foldl typed_apply m cs).
Proof.
  intros Hcs. revert m. induction Hcs as [|c cs Hc _ IH]; intros m Hm; [done|].
  destruct (raw_apply_change m c Hc Hm) as [E Hk]. simpl. rewrite E. by apply IH.
Qed.

Lemma typed_apply_sorted m c : OMap.sorted ckey_cmp m → OMap.sorted ckey_cmp (typed_apply m c).
Proof.
  intros Hm. destruct c; cbn [typed_apply]; (by apply (OMap.put_sorted ckey_cmp)) || by apply (OMap.delete_sorted ckey_cmp).
Qed.

Lemma typed_apply_related m s c : OMap.sorted ckey_cmp m → change_ok c → related m s →
  related (typed_apply m c) (apply_change s c).
Proof.
  intros Hm Hc [H1 H2 H3 H4 H5 H6].
  assert (∀ k1 k2 x, k1 ≠ k2 → OMap.lookup ckey_cmp k1 (OMap.put ckey_cmp k2 x m) = OMap.lookup ckey_cmp k1 m) as Hpn
    by (intros; by apply (OMap.lookup_put_ne ckey_cmp)).
  assert (∀ k1 k2, k1 ≠ k2 → OMap.lookup ckey_cmp k1 (OMap.delete ckey_cmp k2 m) = OMap.lookup ckey_cmp k1 m) as Hdn
    by (intros; by apply (OMap.lookup_delete_ne ckey_cmp)).
  assert (∀ k x, OMap.lookup ckey_cmp k (OMap.put ckey_cmp k x m) = Some x) as Hpe
    by (intros; by apply (OMap.lookup_put_eq ckey_cmp)).
  assert (∀ k, OMap.lookup ckey_cmp k (OMap.delete ckey_cmp k m) = None) as Hde
    by (intros; by apply (OMap.lookup_delete_eq ckey_cmp)).
  destruct c as [ts|b|n b|n|n i o|n i]; cbn [typed_apply apply_change] in *; split; cbn [c_volume c_blobs c_objects];
    intros; rewrite ?Hpn, ?Hdn, ?Hpe by done; eauto.
  - by simplify_eq.
  - destruct (decide (name = n)) as [->|]; [by rewrite Hpe, lookup_insert_eq|].
    rewrite Hpn, lookup_insert_ne by congruence. auto.
  - revert H. destruct (decide (name = n)) as [->|]; [rewrite lookup_insert_eq; by intros [= <-]|].
    rewrite lookup_insert_ne by congruence. auto.
  - destruct (decide (name = n)) as [->|]; [by rewrite Hde, lookup_delete_eq|].
    rewrite Hdn, lookup_delete_ne by congruence. auto.
  - apply lookup_delete_Some in H as [_ H]. auto.
  - destruct (decide ((name, i0) = (n, i))) as [[= -> ->]|]; [by rewrite Hpe, lookup_insert_eq|].
    rewrite Hpn, lookup_insert_ne by congruence. auto.
  - revert H. destruct (decide ((name, i0) = (n, i))) as [[= -> ->]|]; [rewrite lookup_insert_eq; intros [= <-]; by destruct Hc|].
    rewrite lookup_insert_ne by congruence. eauto.
  - destruct (decide ((name, i0) = (n, i))) as [[= -> ->]|]; [by rewrite Hde, lookup_delete_eq|].
    rewrite Hdn, lookup_delete_ne by congruence. auto.
  - apply lookup_delete_Some in H as [_ H]. eauto.
Qed.

Lemma typed_applies m s cs : Forall change_ok cs → OMap.sorted ckey_cmp m → related m s →
  OMap.sorted ckey_cmp (foldl typed_apply m cs) ∧ related (foldl typed_apply m cs) (apply_changes s cs).
Proof.
  intros Hcs. revert m s. induction Hcs as [|c cs Hc _ IH]; intros m s Hm Hr; [done|]. simpl.
  apply IH; [by apply typed_apply_sorted|by apply typed_apply_related].
Qed.

(** A batch that is written has the effect of its changes. *)
Lemma write_represents cs d d' s : Forall change_ok cs → represents d s →
  ldb_write (encode_change <$> cs) d = (d', StOk) → represents d' (apply_changes s cs).
Proof.
  intros Hcs (m & [He Hs Hk] & Hr) Hw. destruct (raw_apply_changes m cs Hcs Hk) as [E Hk'].
  destruct (typed_applies m s cs Hcs Hs Hr) as [Hs' Hr']. exists (foldl typed_apply m cs). split; [|done]. split; [|done..].
  rewrite <-E, <-He. apply (ldb_write_ok _ _ _ Hw).
  - rewrite He. by apply img_stored.
  - apply Forall_fmap. eapply Forall_impl; [done|]. intros c. apply op_stored.
Qed.

(** What an update of the catalog gives. *)
Definition updated cs v v' (rc : fds_errno) s : Prop :=
  (rc = ERR_OK ∧ holds v' (apply_changes s cs) ∨ rc = ERR_DISK_WRITE_FAILED) ∧
  ∃ d, v' = with_catalog d v.

Lemma update_spec cs v s : Forall change_ok cs → holds v s →
  ∃ v' rc, update (encode_change <$> cs) v = Ret (v', rc) ∧ updated cs v v' rc s.
Proof.
  intros Hcs (d & E & Hr & _)%holds_store. unfold update, Catalog.Update. rewrite E, bind_Ret.
  destruct (ldb_write _ _) as [d' st] eqn:Ew. eexists _, _. split; [done|]. split; [|by eexists].
  case_decide as Hst; [left|by right]. subst st. split; [done|]. exists d'. split; [done|]. by eapply write_represents.
Qed.

Lemma updated_nil v s : holds v s → updated [] v v ERR_OK s.
Proof. intros Hr. split; [by left|]. apply holds_store in Hr as (d & _ & _ & E). by exists d. Qed.

(** ** The updates of a catalog *)
Inductive cmd :=
| PutVolumeMetaDesc (m : VolumeMetaDesc.t)
| PutBlobMetaDesc (name : list Z) (m : BlobMetaDesc.t)
| PutObject (name : list Z) (offset : Z) (oid : list Z)
| PutObjects (name : list Z) (objs : BlobObjList.t)
| PutBatch (name : list Z) (m : BlobMetaDesc.t) (puts : BlobObjList.t) (deletes : list Z)
| DeleteObject (name : list Z) (offset : Z)
| DeleteObjects (name : list Z) (startOffset endOffset : Z)
| DeleteBlobMetaDesc (name : list Z).

(** How many rounds the loop over a range takes. *)
Definition range_rounds (size startOffset endOffset : Z) : Z :=
  if decide (startOffset ≤ endOffset) then (endOffset - startOffset) / size + 1 else 0.

(** [ts] gives the times; an update other than a range reads the clock once. *)
Definition exec (ts : Z → Z) (c : cmd) v : res (t * fds_errno) :=
  match c with
  | PutVolumeMetaDesc m => putVolumeMetaDesc (ts 0) m v
  | PutBlobMetaDesc name m => putBlobMetaDesc (ts 0) name m v
  | PutObject name offset oid => putObject (ts 0) name offset oid v
  | PutObjects name objs => putObject_list (ts 0) name objs v
  | PutBatch name m puts deletes => putBatch (ts 0) name m puts deletes v
  | DeleteObject name offset => deleteObject (ts 0) name offset v
  | DeleteObjects name a b => deleteObject_range (S (Z.to_nat (range_rounds (objSize v) a b))) ts name a b v
  | DeleteBlobMetaDesc name => deleteBlobMetaDesc (ts 0) name v
  end.

(** The updates a snapshot or a read-only catalog refuses. *)
Definition guarded (c : cmd) : bool :=
  match c with
  | PutBlobMetaDesc _ _ | PutObject _ _ _ | PutObjects _ _ | PutBatch _ _ _ _ => true
  | _ => false
  end.

Definition object_changes (size : Z) (name : list Z) (objs : list (Z * BlobObjInfo.t)) : list change :=
  (λ x, CObject name (x.1 / size) (BlobObjInfo.oid x.2)) <$> objs.

(** The effect an update has on the abstract catalog. *)
Definition effect (size : Z) (c : cmd) : list change :=
  match c with
  | PutVolumeMetaDesc m => [CVolume m]
  | PutBlobMetaDesc name m => [CBlob name m]
  | PutObject name offset oid => [CObject name (offset / size) oid]
  | PutObjects name objs => object_changes size name (BlobObjList.objs objs)
  | PutBatch name m puts deletes =>
      object_changes size name (BlobObjList.objs puts) ++ ((λ o, CNoObject name (o / size)) <$> deletes) ++ [CBlob name m]
  | DeleteObject name offset => [CNoObject name (offset / size)]
  | DeleteObjects name a b => CNoObject name <$> seqZ (a / size) (range_rounds size a b)
  | DeleteBlobMetaDesc name => [CNoBlob name]
  end.

(** Offsets the catalog has a key for. *)
Definition in_range (size offset : Z) : Prop := 0 ≤ offset ∧ offset / size ≤ uint32_max.
Definition aligned (size offset : Z) : Prop := offset `mod` size = 0.

(** The arguments the catalog is called with. *)
Definition cmd_ok (size : Z) (c : cmd) : Prop :=
  match c with
  | PutVolumeMetaDesc m => volume_ok m
  | PutBlobMetaDesc name m => change_ok (CBlob name m)
  | PutObject name offset oid => in_range size offset ∧ aligned size offset ∧ length oid = 20%nat
  | PutObjects name objs =>
      Forall (λ x, in_range size x.1 ∧ aligned size x.1 ∧ length (BlobObjInfo.oid x.2) = 20%nat) (BlobObjList.objs objs)
  | PutBatch name m puts deletes => change_ok (CBlob name m) ∧
      Forall (λ x, in_range size x.1 ∧ aligned size x.1 ∧ length (BlobObjInfo.oid x.2) = 20%nat) (BlobObjList.objs puts) ∧
      Forall (λ o, in_range size o ∧ aligned size o) deletes
  | DeleteObject _ offset => in_range size offset
  | DeleteObjects _ a b => 0 ≤ a ∧ in_range size b
  | DeleteBlobMetaDesc _ => True
  end.

Definition size_ok v : Prop := 0 < objSize v < 2 ^ 32.

Lemma index_range size offset : 0 < size → in_range size offset → 0 ≤ offset / size < 2 ^ 32.
Proof. intros Hs [H1 H2]. split; [by apply Z.div_pos|]. unfold uint32_max in H2. lia. Qed.

Lemma object_index_spec offset v : aligned (objSize v) offset →
  object_index offset v =
  Ret (if decide (offset / objSize v > uint32_max) then inr ERR_DM_OFFSET_OUT_RANGE else inl (offset / objSize v)).
Proof. intros Ha. unfold object_index. rewrite bool_decide_eq_true_2 by done. simpl. by case_decide. Qed.

Lemma object_index_ok offset v : in_range (objSize v) offset → aligned (objSize v) offset →
  object_index offset v = Ret (inl (offset / objSize v)).
Proof. intros [_ H] Ha. rewrite object_index_spec by done. by rewrite decide_False by lia. Qed.

Lemma batch_puts_ok name puts v batch :
  Forall (λ x, in_range (objSize v) x.1 ∧ aligned (objSize v) x.1 ∧ length (BlobObjInfo.oid x.2) = 20%nat) puts →
  batch_puts name puts v batch = Ret (inl (batch ++ (encode_change <$> object_changes (objSize v) name puts))).
Proof.
  intros Hp. revert batch. induction Hp as [|x puts (H1 & H2 & _) _ IH]; intros batch.
  - unfold batch_puts. simpl. by rewrite app_nil_r.
  - unfold batch_puts. rewrite foldM_cons, object_index_ok, !bind_Ret by done.
    etrans; [apply IH|]. by rewrite <-app_assoc.
Qed.

Lemma batch_deletes_ok name deletes v batch : Forall (λ o, in_range (objSize v) o ∧ aligned (objSize v) o) deletes →
  batch_deletes name deletes v batch =
  Ret (inl (batch ++ (encode_change <$> ((λ o, CNoObject name (o / objSize v)) <$> deletes)))).
Proof.
  intros Hp. revert batch. induction Hp as [|x deletes (H1 & H2) _ IH]; intros batch.
  - unfold batch_deletes. simpl. by rewrite app_nil_r.
  - unfold batch_deletes. rewrite foldM_cons, object_index_ok, !bind_Ret by done.
    etrans; [apply IH|]. by rewrite <-app_assoc.
Qed.

Lemma effect_ok c v : size_ok v → cmd_ok (objSize v) c → Forall change_ok (effect (objSize v) c).
Proof.
  intros [Hs _] Hc.
  assert (∀ n objs, Forall (λ x, in_range (objSize v) x.1 ∧ aligned (objSize v) x.1 ∧ length (BlobObjInfo.oid x.2) = 20%nat) objs →
    Forall change_ok (object_changes (objSize v) n objs)) as Ho.
  { intros n objs Hx. apply Forall_fmap. eapply Forall_impl; [done|]. intros x (H1 & H2 & H3). split; [by apply index_range|done]. }
  destruct c as [m|n m|n o x|n objs|n m puts dels|n o|n a b|n]; simpl in *.
  - by apply Forall_singleton.
  - by apply Forall_singleton.
  - apply Forall_singleton. destruct Hc as (? & _ & ?). split; [by apply index_range|done].
  - by apply Ho.
  - destruct Hc as (H1 & H2 & H3). rewrite !Forall_app. split; [by apply Ho|]. split; [|by apply Forall_singleton].
    apply Forall_fmap. eapply Forall_impl; [done|]. intros o [? _]. by apply index_range.
  - apply Forall_singleton. by apply index_range.
  - apply Forall_fmap, Forall_forall. intros i [Hi1 Hi2]%elem_of_seqZ. destruct Hc as [Ha Hb]. simpl.
    pose proof (Z.div_pos a (objSize v) Ha Hs). pose proof (index_range _ _ Hs Hb) as Hb'.
    unfold range_rounds in Hi2. case_decide; [|lia].
    assert (a / objSize v + (b - a) / objSize v ≤ b / objSize v); [|lia].
    apply Z.div_le_lower_bound; [done|].
    pose proof (Z.mul_div_le a _ Hs). pose proof (Z.mul_div_le (b - a) _ Hs). lia.
  - by apply Forall_singleton.
Qed.

(** ** The loop over a range of objects *)
Lemma setObjectIndex_make name i j : BlobObjectKey.setObjectIndex i (BlobObjectKey.make name j) = Ret (BlobObjectKey.make name i).
Proof. done. Qed.

Lemma range_rounds_step size a b : 0 < size → a ≤ b → range_rounds size a b = 1 + range_rounds size (a + size) b.
Proof.
  intros Hs Hab. unfold range_rounds. rewrite decide_True by done. case_decide.
  - replace (b - a) with (b - (a + size) + 1 * size) by lia. rewrite Z.div_add by lia. lia.
  - rewrite Z.div_small; lia.
Qed.

Lemma range_rounds_nonneg size a b : 0 < size → 0 ≤ range_rounds size a b.
Proof.
  intros. unfold range_rounds. case_decide; [|done]. pose proof (Z.div_pos (b - a) size ltac:(lia) ltac:(lia)). lia.
Qed.

(** Offsets in range never wrap around. *)
Lemma next_offset size i b : 0 < size < 2 ^ 32 → 0 ≤ i ≤ b → in_range size b → u64 (i + size) = i + size.
Proof.
  intros [Hs1 Hs2] Hi [_ Hb]. unfold u64. apply Z.mod_small. split; [lia|].
  assert (b < size * (uint32_max + 1)).
  { pose proof (Z.mul_succ_div_gt b size Hs1). unfold uint32_max in *. nia. }
  assert (size * (uint32_max + 1) ≤ (2 ^ 32 - 1) * (uint32_max + 1)) by (unfold uint32_max; nia).
  unfold uint32_max in *. lia.
Qed.

Lemma delete_loop_spec fuel ts name j i b v s : size_ok v → 0 ≤ i → in_range (objSize v) b →
  (Z.to_nat (range_rounds (objSize v) i b) < fuel)%nat → holds v s →
  ∃ v' rc, delete_loop fuel ts (BlobObjectKey.make name j) i b ERR_OK v = Ret (v', rc) ∧
    updated (CNoObject name <$> seqZ (i / objSize v) (range_rounds (objSize v) i b)) v v' rc s.
Proof.
  intros Hv. assert (0 < objSize v) as Hs by apply Hv. revert j i v s Hv Hs.
  induction fuel as [|fuel IH]; intros j i v s Hv Hs Hi Hb Hf Hr; [lia|]. cbn [delete_loop]. case_decide as Hle.
  - assert (i / objSize v ≤ b / objSize v) as Hd by (by apply Z.div_le_mono).
    assert (in_range (objSize v) i) as Hir by (destruct Hb; split; lia).
    rewrite (range_rounds_step _ _ _ Hs Hle) in Hf |- *. cbv zeta.
    rewrite decide_False by (destruct Hir; lia). rewrite setObjectIndex_make, bind_Ret.
    destruct (update_spec [CStamp (ts i); CNoObject name (i / objSize v)] v s) as (v1 & rc1 & E1 & H1 & d1 & Hv1); [|done|].
    { constructor; [done|]. apply Forall_singleton. by apply index_range. }
    simpl in E1. rewrite E1, bind_Ret. assert (objSize v1 = objSize v) as Hsz by (by rewrite Hv1).
    rewrite Hsz. rewrite (next_offset _ _ _ Hv (conj Hi Hle) Hb).
    pose proof (range_rounds_nonneg (objSize v) (i + objSize v) b Hs) as Hnn.
    destruct H1 as [[-> Hr1]| ->]; [rewrite decide_False by naive_solver|by eexists _, _; split; [done|split; [right|eexists]]].
    destruct (IH (i / objSize v) (i + objSize v) v1 (apply_changes s [CNoObject name (i / objSize v)])) as (v2 & rc2 & E2 & H2 & d2 & Hv2).
    + unfold size_ok. by rewrite Hsz.
    + by rewrite Hsz.
    + lia.
    + by rewrite Hsz.
    + rewrite Hsz. lia.
    + done.
    + rewrite Hsz in *. exists v2, rc2. split; [done|]. split; [|exists d2; by rewrite Hv2, Hv1].
      rewrite seqZ_cons by lia. replace (Z.pred (1 + _)) with (range_rounds (objSize v) (i + objSize v) b) by lia.
      replace (i + objSize v) with (i + 1 * objSize v) in H2 at 1 by lia. rewrite Z.div_add in H2 by lia.
      replace (Z.succ (i / objSize v)) with (i / objSize v + 1) by lia. done.
  - exists v, ERR_OK. split; [done|]. unfold range_rounds. rewrite decide_False by done. by apply updated_nil.
Qed.

(** ** Every update *)
Lemma stamped ts cs v s : Forall change_ok cs → holds v s →
  ∃ v' rc, update (timestamp_op ts :: (encode_change <$> cs)) v = Ret (v', rc) ∧ updated cs v v' rc s.
Proof. intros Hcs Hr. apply (update_spec (CStamp ts :: cs)); [by constructor|done]. Qed.

Lemma exec_updated ts c v s : size_ok v → cmd_ok (objSize v) c → (guarded c = true → op_allowed v = true) →
  holds v s →
  ∃ v' rc, exec ts c v = Ret (v', rc) ∧ updated (effect (objSize v) c) v v' rc s.
Proof.
  intros Hv Hc Ha Hr. pose proof (effect_ok c v Hv Hc) as He.
  destruct c as [m|n m|n o x|n objs|n m puts dels|n o|n a b|n]; cbn [exec effect guarded cmd_ok] in *.
  - unfold putVolumeMetaDesc. rewrite (proj1 (VolumeMetaDesc_load m Hc)), bind_Ret. rewrite decide_True by done.
    destruct (stamped (ts 0) _ v s He Hr) as (v' & rc & E & H). exists v', rc. by rewrite <-E.
  - unfold putBlobMetaDesc. rewrite Ha by done. cbn [negb].
    rewrite (proj1 (BlobMetaDesc_load m (proj1 Hc))), bind_Ret. rewrite decide_True by done.
    destruct (stamped (ts 0) _ v s He Hr) as (v' & rc & E & H). exists v', rc. by rewrite <-E.
  - unfold putObject. rewrite Ha by done. cbn [negb]. destruct Hc as (H1 & H2 & H3).
    rewrite object_index_ok, bind_Ret by done.
    destruct (stamped (ts 0) _ v s He Hr) as (v' & rc & E & H). exists v', rc. by rewrite <-E.
  - unfold putObject_list. rewrite Ha by done. cbn [negb]. destruct (BlobObjList.objs objs) as [|x l] eqn:El.
    + exists v, ERR_OK. split; [done|]. by apply updated_nil.
    + rewrite <-El in *. rewrite batch_puts_ok, bind_Ret by done.
      destruct (stamped (ts 0) _ v s He Hr) as (v' & rc & E & H). exists v', rc. by rewrite <-E.
  - unfold putBatch. rewrite Ha by done. cbn [negb]. destruct Hc as (H1 & H2 & H3).
    rewrite batch_puts_ok, bind_Ret, batch_deletes_ok, bind_Ret by done.
    rewrite (proj1 (BlobMetaDesc_load m (proj1 H1))), bind_Ret. rewrite decide_True by done.
    destruct (stamped (ts 0) _ v s He Hr) as (v' & rc & E & H). exists v', rc. split; [|done]. rewrite <-E.
    rewrite !fmap_app. by rewrite <-!app_assoc.
  - unfold deleteObject. cbv zeta. rewrite decide_False by (destruct Hc; lia).
    destruct (stamped (ts 0) _ v s He Hr) as (v' & rc & E & H). exists v', rc. by rewrite <-E.
  - destruct Hc as [H1 H2]. apply delete_loop_spec; try done. lia.
  - unfold deleteBlobMetaDesc.
    destruct (stamped (ts 0) _ v s He Hr) as (v' & rc & E & H). exists v', rc. by rewrite <-E.
Qed.

(** Updates one after the other, until one fails. *)
Fixpoint run (ts : Z → Z) (cs : list cmd) v : res (t * fds_errno) :=
  match cs with
  | [] => Ret (v, ERR_OK)
  | c :: cs =>
      r ← exec ts c v;
      let '(v, rc) := r : t * fds_errno in
      if decide (rc = ERR_OK) then run ts cs v else Ret (v, rc)
  end.

Lemma apply_changes_app s cs1 cs2 : apply_changes s (cs1 ++ cs2) = apply_changes (apply_changes s cs1) cs2.
Proof. apply foldl_app. Qed.

Lemma updated_size cs v v' rc s : updated cs v v' rc s → objSize v' = objSize v ∧ op_allowed v' = op_allowed v.
Proof. intros [_ [d ->]]. done. Qed.

(** C20. The catalog implements its abstract specification: whatever updates
    of blobs, objects and the volume descriptor are made one after the other
    on a writable catalog, with offsets that have a key, each returns, and as
    long as the store accepts the writes the store holds exactly what the
    abstract catalog holds after the same updates.  The only other outcome is
    [ERR_DISK_WRITE_FAILED].  This includes deleting a range of objects, whose
    loop ends. *)
Theorem catalog_refinement (ts : Z → Z) (cs : list cmd) v s : size_ok v → op_allowed v = true →
  Forall (cmd_ok (objSize v)) cs → holds v s →
  ∃ v' rc, run ts cs v = Ret (v', rc) ∧
    (rc = ERR_OK ∧ holds v' (apply_changes s (cs ≫= effect (objSize v))) ∨ rc = ERR_DISK_WRITE_FAILED).
Proof.
  intros Hv Ha Hcs. revert v s Hv Ha Hcs. induction cs as [|c cs IH]; intros v s Hv Ha Hcs Hr.
  { exists v, ERR_OK. split; [done|]. by left. }
  apply Forall_cons in Hcs as [Hc Hcs]. destruct (exec_updated ts c v s Hv Hc (λ _, Ha) Hr) as (v1 & rc1 & E1 & H1).
  destruct (updated_size _ _ _ _ _ H1) as [Hsz Hal]. cbn [run]. rewrite E1, bind_Ret.
  destruct H1 as [[[-> Hr1]| ->] _]; [rewrite decide_True by done|by rewrite decide_False by done; eauto 10].
  destruct (IH v1 (apply_changes s (effect (objSize v) c))) as (v2 & rc2 & E2 & H2).
  - unfold size_ok. by rewrite Hsz.
  - by rewrite Hal.
  - by rewrite Hsz.
  - done.
  - exists v2, rc2. split; [done|]. rewrite bind_cons, apply_changes_app. by rewrite Hsz in H2.
Qed.

(** A snapshot or a read-only catalog refuses every put of a blob or of
    objects and stays as it was. *)
Theorem read_only_refused (ts : Z → Z) (c : cmd) v : snapshot v = true ∨ readOnly v = true → guarded c = true →
  exec ts c v = Ret (v, ERR_DM_OP_NOT_ALLOWED).
Proof.
  intros Hv Hc. assert (op_allowed v = false) as Ha.
  { unfold op_allowed. destruct Hv as [-> | ->]; [done|by rewrite orb_true_r]. }
  destruct c; try done; simpl; unfold putBlobMetaDesc, putObject, putObject_list, putBatch; by rewrite Ha.
Qed.

Lemma batch_puts_err name puts v e : foldM (λ b it, match b with
    | inr e => Ret (inr e)
    | inl batch =>
        r ← object_index it.1 v;
        match r with
        | inr e => Ret (inr e)
        | inl objectIndex => Ret (inl (batch ++ [Put (BlobObjectKey.make name objectIndex) (BlobObjInfo.oid it.2)]))
        end
    end) (inr e) puts = Ret (inr e).
Proof. induction puts as [|x puts IH]; [done|]. by rewrite foldM_cons, bind_Ret. Qed.

(** A batch with an offset past the last key is refused as a whole:
    nothing of it reaches the store. *)
Theorem putBatch_out_of_range (ts : Z) (name : list Z) (m : BlobMetaDesc.t) (puts : BlobObjList.t) (deletes : list Z) v :
  op_allowed v = true → Forall (λ x, aligned (objSize v) x.1) (BlobObjList.objs puts) →
  Exists (λ x, x.1 / objSize v > uint32_max) (BlobObjList.objs puts) →
  putBatch ts name m puts deletes v = Ret (v, ERR_DM_OFFSET_OUT_RANGE).
Proof.
  intros Ha Hal Hex. unfold putBatch. rewrite Ha. cbn [negb].
  assert (∀ batch, batch_puts name (BlobObjList.objs puts) v batch = Ret (inr ERR_DM_OFFSET_OUT_RANGE)) as ->; [|done].
  induction (BlobObjList.objs puts) as [|x l IH]; [by apply Exists_nil in Hex|]. intros batch.
  apply Forall_cons in Hal as [Hx Hal]. unfold batch_puts. rewrite foldM_cons, object_index_spec, bind_Ret by done.
  case_decide as Hi; [by rewrite bind_Ret, batch_puts_err|]. rewrite bind_Ret. apply IH; [done|].
  by apply Exists_cons in Hex as [|].
Qed.

(** ** Reads *)
Lemma query_spec d m k : entries d m → ckey_ok k → ∃ value rc, Catalog.Query (encode k) d = (value, rc) ∧
  (rc = ERR_OK ∧ OMap.lookup ckey_cmp k m = Some value ∨
   rc = ERR_CAT_ENTRY_NOT_FOUND ∧ OMap.lookup ckey_cmp k m = None ∨ rc = ERR_DISK_READ_FAILED).
Proof.
  intros [He Hs Hk] Hok. unfold Catalog.Query. destruct (ldb_get (encode k) d) as [value st] eqn:E.
  assert (stored (encode k)) as Hst by (by exists k).
  assert (Forall (λ x, stored x.1) (ldb_dump d)) as Hd by (rewrite He; by apply img_stored).
  assert (OMap.lookup raw_cmp (encode k) (ldb_dump d) = OMap.lookup ckey_cmp k m) as Hl.
  { rewrite He. by apply (OMap.lookup_img ckey_cmp raw_cmp encode ckey_ok raw_cmp_encode). }
  eexists _, _. split; [done|]. rewrite <-Hl. case_decide as H1; [right; left|case_decide as H2; [by right; right|left]].
  - subst st. split; [done|]. by eapply ldb_get_none.
  - split; [done|]. subst st. by eapply ldb_get_ok.
Qed.

Lemma set_id_20 obj value : length value = 20%nat → length obj = 20%nat → set_id obj value = Ret value.
Proof.
  intros H1 H2. unfold set_id, ObjectID.SetId. rewrite H1. rewrite decide_True by (unfold OBJECTID_DIGESTLEN; lia).
  change (Z.to_nat (Z.of_nat 20)) with 20%nat. rewrite take_ge, drop_ge by lia. by rewrite app_nil_r.
Qed.

(** Reading the descriptor of a blob. *)
Lemma read_blob name d s : represents d s →
  getBlobMetaDesc name d = Ret (match c_blobs s !! name with
    | Some b => (Some b, ERR_OK) | None => (None, ERR_CAT_ENTRY_NOT_FOUND) end) ∨
  getBlobMetaDesc name d = Ret (None, ERR_DISK_READ_FAILED).
Proof.
  intros (m & He & Hm). unfold getBlobMetaDesc.
  destruct (query_spec _ _ (KBlob name) He I) as (value & rc & E & H). simpl in E. rewrite E.
  rewrite (r_blob _ _ Hm) in H. destruct H as [[-> H]|[[-> H]| ->]].
  - left. apply fmap_Some in H as (b & Hb & ->). rewrite decide_False by naive_solver. rewrite Hb.
    apply BlobMetaDesc_load. by apply (r_blob_ok _ _ Hm) in Hb as [? _].
  - left. by apply fmap_None in H as ->.
  - by right.
Qed.

(** Reading one entry gives what the abstract catalog holds: the blob
    descriptor, the identifier of the object at an offset, or
    [ERR_CAT_ENTRY_NOT_FOUND] exactly when there is none; the only other
    outcome is [ERR_DISK_READ_FAILED] from the store. *)
Theorem catalog_reads (name obj : list Z) (offset : Z) v d s : size_ok v → in_range (objSize v) offset →
  aligned (objSize v) offset → length obj = 20%nat → catalog v = Some d → represents d s →
  (getBlobMetaDesc name d = Ret (match c_blobs s !! name with
     | Some b => (Some b, ERR_OK) | None => (None, ERR_CAT_ENTRY_NOT_FOUND) end) ∨
   getBlobMetaDesc name d = Ret (None, ERR_DISK_READ_FAILED)) ∧
  (getObject name offset obj v = Ret (match c_objects s !! (name, offset / objSize v) with
     | Some oid => (oid, ERR_OK) | None => (obj, ERR_CAT_ENTRY_NOT_FOUND) end) ∨
   getObject name offset obj v = Ret (obj, ERR_DISK_READ_FAILED)).
Proof.
  intros [Hs _] Hr Ha Ho Hd (m & He & Hm). split.
  - apply read_blob. by exists m.
  - unfold getObject, store. rewrite object_index_ok, bind_Ret, Hd, bind_Ret by done.
    destruct (query_spec _ _ (KObject name (offset / objSize v)) He) as (value & rc & E & H); [by apply index_range|].
    simpl in E. rewrite E. rewrite (r_object _ _ Hm) in H. destruct H as [[-> H]|[[-> H]| ->]].
    + left. rewrite decide_False by naive_solver. rewrite H. rewrite set_id_20; [done|by eapply (r_object_ok _ _ Hm)|done].
    + left. by rewrite H.
    + by right.
Qed.

(** ** Ranges of objects *)
Lemma seek_entries d m k : entries d m → ckey_ok k →
  OMap.seek raw_cmp (encode k) (ldb_dump d) = img (filter (λ x, ckey_cmp x.1 k ≠ Lt) m).
Proof.
  intros [He Hs Hk] Hok. rewrite He, (OMap.seek_img ckey_cmp raw_cmp encode ckey_ok raw_cmp_encode) by done.
  by rewrite (OMap.seek_filter ckey_cmp).
Qed.

Lemma filter_entries m (Q : ckey * list Z → Prop) `{!∀ x, Decision (Q x)} :
  OMap.sorted ckey_cmp m → keys_ok m → OMap.sorted ckey_cmp (filter Q m) ∧ keys_ok (filter Q m).
Proof.
  intros Hs Hk. split.
  - induction m as [|x m IH]; [done|]. apply (OMap.sorted_cons ckey_cmp) in Hs as [Hs Hx]. apply Forall_cons in Hk as [_ Hk].
    rewrite filter_cons. case_decide; [|by apply IH]. apply (OMap.sorted_cons ckey_cmp). split; [by apply IH|].
    intros y [_ Hy]%list_elem_of_filter. by apply Hx.
  - rewrite Forall_forall in Hk |- *. intros x [_ Hx]%list_elem_of_filter. by apply Hk.
Qed.

Lemma object_between name a b k : ckey_cmp k (KObject name a) ≠ Lt → ckey_cmp k (KObject name b) ≠ Gt →
  ∃ i, k = KObject name i ∧ a ≤ i ≤ b.
Proof.
  unfold ckey_cmp, lex_cmp. destruct k as [| |n|n i]; try done. simpl. destruct (bytes_cmp n name) eqn:E; try done.
  apply (cmp_eq (cmp:=bytes_cmp)) in E as ->. intros H1 H2. exists i. split; [done|].
  destruct (Z.compare_spec i a), (Z.compare_spec i b); try done; lia.
Qed.

Lemma object_cmp name i j : ckey_cmp (KObject name i) (KObject name j) = (i ?= j).
Proof. unfold ckey_cmp, lex_cmp. simpl. by rewrite (proj2 (cmp_eq (cmp:=bytes_cmp) name name) eq_refl). Qed.

(** The objects of a blob whose index is in a range. *)
Definition pick_object (name : list Z) (a b : Z) (x : ckey * list Z) : option (Z * list Z) :=
  match x.1 with
  | KObject n i => if decide (n = name ∧ a ≤ i ≤ b) then Some (i, x.2) else None
  | _ => None
  end.

Definition objects_in (name : list Z) (a b : Z) m : list (Z * list Z) := omap (pick_object name a b) m.

Lemma pick_object_Some name a b x y : pick_object name a b x = Some y → x = (KObject name y.1, y.2) ∧ a ≤ y.1 ≤ b.
Proof. destruct x as [[| |n|n i] w]; try done. unfold pick_object. simpl. case_decide as H; [|done]. intros [= <-]. naive_solver. Qed.

Lemma objects_in_elem name a b m i oid : OMap.sorted ckey_cmp m →
  (i, oid) ∈ objects_in name a b m ↔ a ≤ i ≤ b ∧ OMap.lookup ckey_cmp (KObject name i) m = Some oid.
Proof.
  intros Hs. rewrite (OMap.lookup_elem ckey_cmp) by done. unfold objects_in. rewrite list_elem_of_omap. split.
  - intros (x & Hx & [-> Hi]%pick_object_Some). done.
  - intros [Hi Hx]. eexists. split; [done|]. unfold pick_object. simpl. by rewrite decide_True.
Qed.

Lemma objects_in_sorted name a b m : OMap.sorted ckey_cmp m → OMap.sorted Z.compare (objects_in name a b m).
Proof.
  induction m as [|x m IH]; intros Hs; [constructor|]. apply (OMap.sorted_cons ckey_cmp) in Hs as [Hs Hx].
  unfold objects_in. simpl. destruct (pick_object name a b x) as [y|] eqn:E; [|by apply IH].
  apply (OMap.sorted_cons Z.compare). split; [by apply IH|]. intros z (w & Hw & Hz)%list_elem_of_omap.
  apply pick_object_Some in E as [-> _]. apply pick_object_Some in Hz as [-> _]. apply Hx in Hw. cbn [fst] in Hw. by rewrite object_cmp in Hw.
Qed.

Lemma u64_offset v i : size_ok v → 0 ≤ i < 2 ^ 32 → u64 (i * objSize v) = i * objSize v.
Proof.
  intros [H1 H2] H3. unfold u64. apply Z.mod_small. split; [nia|].
  assert (i * objSize v ≤ (2 ^ 32 - 1) * (2 ^ 32 - 1)) by (apply Z.mul_le_mono_nonneg; lia). lia.
Qed.

Lemma object_loop_spec {B} (push : B → Z → list Z → res B) (g : B → Z → list Z → B) name a e v l b :
  size_ok v → 0 ≤ a → 0 ≤ e < 2 ^ 32 → OMap.sorted ckey_cmp l → keys_ok l →
  (∀ x, x ∈ l → ckey_cmp x.1 (KObject name a) ≠ Lt) →
  (∀ b i w, (KObject name i, w) ∈ l → push b (i * objSize v) w = Ret (g b (i * objSize v) w)) →
  object_loop push (BlobObjectKey.make name e) v (img l) b =
  Ret (foldl (λ b x, g b (x.1 * objSize v) x.2) b (objects_in name a e l)).
Proof.
  intros Hv Ha He. revert b. induction l as [|[k w] l IH]; intros b Hs Hk Hge Hp; [done|].
  apply (OMap.sorted_cons ckey_cmp) in Hs as [Hs Hx]. apply Forall_cons in Hk as [Hk1 Hk]. simpl in Hk1.
  change (img ((k, w) :: l)) with ((encode k, w) :: img l). cbn [object_loop].
  change (BlobObjectKey.make name e) with (encode (KObject name e)). rewrite Compare_encode, bind_Ret by done.
  pose proof (Hge (k, w) ltac:(set_solver)) as Hgek. simpl in Hgek, Hx.
  destruct (decide (cmp_sign (ckey_cmp k (KObject name e)) ≤ 0)) as [Hc|Hc].
  - destruct (object_between name a e k Hgek) as (i & -> & Hi); [by intros E; rewrite E in Hc|].
    destruct (object_key_fields name i Hk1) as (S1 & _ & I1). cbn [encode]. rewrite S1, bind_Ret, I1, bind_Ret.
    rewrite (u64_offset v i Hv Hk1).
    rewrite Hp, bind_Ret by set_solver. rewrite IH by (done || set_solver).
    unfold objects_in. cbn [omap list_omap]. unfold pick_object at 2. cbn [fst snd]. by rewrite decide_True.
  - unfold objects_in. rewrite omap_none; [done|]. intros y Hy. destruct (pick_object name a e y) as [z|] eqn:E; [|done].
    apply pick_object_Some in E as [-> Hz]. exfalso. apply Hc.
    assert (ckey_cmp k (KObject name z.1) ≠ Gt) as Hkz.
    { apply elem_of_cons in Hy as [[= <- _]|Hy]; [by rewrite OMap.cmp_refl by apply _|]. apply Hx in Hy. simpl in Hy. by rewrite Hy. }
    assert (ckey_cmp k (KObject name a) ≠ Lt) as Hka by done.
    destruct (object_between name a z.1 k Hka Hkz) as (i & -> & Hi). rewrite object_cmp.
    destruct (Z.compare_spec i e); simpl; lia.
Qed.

Lemma objects_in_filter name a e m :
  objects_in name a e (filter (λ x, ckey_cmp x.1 (KObject name a) ≠ Lt) m) = objects_in name a e m.
Proof.
  apply omap_filter. intros x Hx. destruct (pick_object name a e x) as [[i o]|] eqn:E; [|done].
  apply pick_object_Some in E as [-> Hy]. exfalso. apply Hx. cbn [fst] in *. rewrite object_cmp. intros H. rewrite Z.compare_lt_iff in H. lia.
Qed.

Lemma object_scan_spec {B} (push : B → Z → list Z → res B) (g : B → Z → list Z → B) name a e d v b m :
  size_ok v → entries d m → in_range (objSize v) a → in_range (objSize v) e →
  aligned (objSize v) a → aligned (objSize v) e →
  (∀ b i w, (KObject name i, w) ∈ m → push b (i * objSize v) w = Ret (g b (i * objSize v) w)) →
  object_scan push name a e d v b =
  Ret (foldl (λ b x, g b (x.1 * objSize v) x.2) b (objects_in name (a / objSize v) (e / objSize v) m)).
Proof.
  intros Hv Hm Ha He Haa Hae Hp. assert (0 < objSize v) as Hs by apply Hv.
  pose proof (index_range _ _ Hs Ha) as Hia. pose proof (index_range _ _ Hs He) as Hie.
  unfold object_scan. rewrite !bool_decide_eq_true_2 by done. cbn [fds_verify]. rewrite !bind_Ret. cbv zeta.
  rewrite !u32_small by lia. change (BlobObjectKey.make name (a / _)) with (encode (KObject name (a / objSize v))).
  rewrite (seek_entries _ _ _ Hm) by done. rewrite <-objects_in_filter.
  destruct (filter_entries m (λ x, ckey_cmp x.1 (KObject name (a / objSize v)) ≠ Lt) (e_sorted _ _ Hm) (e_ok _ _ Hm)).
  apply object_loop_spec; try done; try lia.
  - by intros x [? _]%list_elem_of_filter.
  - intros b' i w [_ ?]%list_elem_of_filter. by apply Hp.
Qed.

Lemma foldl_snoc_map {A B} (f : A → B) (l0 : list B) l : foldl (λ acc x, acc ++ [f x]) l0 l = l0 ++ (f <$> l).
Proof.
  revert l0. induction l as [|x l IH]; intros l0; simpl; [by rewrite app_nil_r|]. rewrite IH. by rewrite <-app_assoc.
Qed.

Lemma sorted_indices {V} (l : list (Z * V)) : OMap.sorted Z.compare l → StronglySorted (λ x y, x.1 < y.1) l.
Proof.
  induction 1 as [|x l _ IH Hx]; constructor; [done|]. eapply Forall_impl; [done|]. intros y. apply Z.compare_lt_iff.
Qed.

(** The objects of a range as an object list. *)
Lemma objects_list objs v : size_ok v → OMap.sorted Z.compare objs →
  foldl (λ b x, BlobObjList.updateObject (x.1 * objSize v) x.2 (objSize v) b) BlobObjList.make objs =
  BlobObjList.with_objs ((λ x, (x.1 * objSize v, BlobObjInfo.Make x.2 (objSize v))) <$> objs) BlobObjList.make.
Proof.
  intros [Hs _] Ho. assert (∀ l b, foldl (λ b (x : Z * list Z), BlobObjList.updateObject (x.1 * objSize v) x.2 (objSize v) b) b l =
    BlobObjList.with_objs (foldl (λ b x, OMap.put Z.compare x.1 x.2 b) (BlobObjList.objs b)
      ((λ x, (x.1 * objSize v, BlobObjInfo.Make x.2 (objSize v))) <$> l)) b) as ->.
  { induction l as [|x l IH]; intros [b0 eob]; [done|]. simpl. by rewrite IH. }
  change (BlobObjList.objs BlobObjList.make) with (@nil (Z * BlobObjInfo.t)).
  rewrite (OMap.foldl_put_sorted Z.compare [] _); [done|]. simpl. unfold OMap.sorted in *.
  induction Ho as [|x l _ IH Hx]; simpl; constructor; [done|]. apply Forall_fmap. eapply Forall_impl; [done|].
  intros y Hy. simpl in *. rewrite Z.compare_lt_iff in *. nia.
Qed.

(** Reading a range of objects, by the entries of the store. *)
Lemma read_range name a e objList v d m : size_ok v → entries d m →
  in_range (objSize v) a → in_range (objSize v) e → aligned (objSize v) a → aligned (objSize v) e →
  getObject_range name a e objList d v =
    Ret (objList ++ ((λ x, (i64 (x.1 * objSize v), objSize v, x.2)) <$> objects_in name (a / objSize v) (e / objSize v) m),
         status2error (ldb_iter_status d)).
Proof.
  intros Hv Hm Ha He Haa Hae.
  unfold getObject_range. rewrite (object_scan_spec _ (λ l o w, l ++ [(i64 o, objSize v, w)]) _ _ _ _ _ _ m), bind_Ret by done.
  rewrite (foldl_snoc_map (λ x, (i64 (x.1 * objSize v), objSize v, x.2))). f_equal. f_equal.
  case_decide as Hst; [done|]. by rewrite Hst.
Qed.

Lemma read_objects name a e objList v d m s : size_ok v → catalog v = Some d → entries d m → related m s →
  in_range (objSize v) a → in_range (objSize v) e → aligned (objSize v) a → aligned (objSize v) e →
  getObject_range name a e objList d v =
    Ret (objList ++ ((λ x, (i64 (x.1 * objSize v), objSize v, x.2)) <$> objects_in name (a / objSize v) (e / objSize v) m),
         status2error (ldb_iter_status d)) ∧
  getObject_list name a e BlobObjList.make v =
    Ret (BlobObjList.with_objs ((λ x, (x.1 * objSize v, BlobObjInfo.Make x.2 (objSize v))) <$>
           objects_in name (a / objSize v) (e / objSize v) m) BlobObjList.make, ERR_OK).
Proof.
  intros Hv Hd Hm Hr Ha He Haa Hae. split; [by apply read_range|].
  unfold getObject_list, store. rewrite Hd, bind_Ret.
  rewrite (object_scan_spec _ (λ b o w, BlobObjList.updateObject o w (objSize v) b) _ _ _ _ _ _ m), bind_Ret; try done.
  - f_equal. f_equal. apply objects_list; [done|]. apply objects_in_sorted, Hm.
  - intros b i w Hi. apply (OMap.lookup_elem ckey_cmp) in Hi; [|apply Hm]. rewrite (r_object _ _ Hr) in Hi.
    pose proof (r_object_ok _ _ Hr _ _ _ Hi) as Hw. pose proof (set_id_20 ObjectID.make w Hw eq_refl) as E.
    unfold set_id in E. rewrite Hw in E |- *. rewrite u32_small by lia. by rewrite E, bind_Ret.
Qed.

(** A range read gives exactly the objects of the blob with an offset in
    the range, each once and in the order of their offsets, both into a list
    of descriptors and into an object list. *)
Theorem range_read (name : list Z) (a e : Z) (objList : list (Z * Z * list Z)) v d s :
  size_ok v → catalog v = Some d → represents d s → in_range (objSize v) a → in_range (objSize v) e →
  aligned (objSize v) a → aligned (objSize v) e →
  ∃ objs, StronglySorted (λ x y, x.1 < y.1) objs ∧
    (∀ i oid, (i, oid) ∈ objs ↔ a ≤ i * objSize v ≤ e ∧ c_objects s !! (name, i) = Some oid) ∧
    getObject_range name a e objList d v =
      Ret (objList ++ ((λ x, (i64 (x.1 * objSize v), objSize v, x.2)) <$> objs), status2error (ldb_iter_status d)) ∧
    getObject_list name a e BlobObjList.make v =
      Ret (BlobObjList.with_objs ((λ x, (x.1 * objSize v, BlobObjInfo.Make x.2 (objSize v))) <$> objs) BlobObjList.make, ERR_OK).
Proof.
  intros Hv Hd (m & Hm & Hr) Ha He Haa Hae. assert (0 < objSize v) as Hs by apply Hv.
  pose proof (objects_in_sorted name (a / objSize v) (e / objSize v) m (e_sorted _ _ Hm)) as Hso.
  exists (objects_in name (a / objSize v) (e / objSize v) m). split_and!; [..|by apply (read_objects _ _ _ _ _ _ _ s)|by apply (read_objects _ _ _ [] _ d _ s)].
  - by apply sorted_indices.
  - intros i oid. rewrite objects_in_elem by apply Hm. rewrite (r_object _ _ Hr).
    apply Z.div_exact in Haa, Hae; [|lia..]. split; intros [Hi ?]; (split; [|done]); nia.
Qed.

(** Past the last key the range reads do not agree with the single read:
    where [getObject] of one offset gives [ERR_DM_OFFSET_OUT_RANGE], the range
    read drops the high bits of the index and returns the object of another
    offset. *)
Theorem range_read_wraps (name obj : list Z) (offset : Z) (objList : list (Z * Z * list Z)) d v :
  size_ok v → aligned (objSize v) offset → offset / objSize v > uint32_max →
  let other := (offset / objSize v) `mod` 2 ^ 32 * objSize v in
  getObject name offset obj v = Ret (obj, ERR_DM_OFFSET_OUT_RANGE) ∧ in_range (objSize v) other ∧ other ≠ offset ∧
  getObject_range name offset offset objList d v = getObject_range name other other objList d v.
Proof.
  intros [Hs _] Ha Hi other. pose proof (Z.mod_pos_bound (offset / objSize v) (2 ^ 32) ltac:(lia)) as Hm.
  assert (other / objSize v = (offset / objSize v) `mod` 2 ^ 32) as Ho by (apply Z.div_mul; lia). split_and!.
  - unfold getObject. rewrite object_index_spec by done. by rewrite decide_True.
  - split; [unfold other; nia|]. rewrite Ho. unfold uint32_max. lia.
  - intros E. rewrite <-E, Ho in Hi. unfold uint32_max in Hi. lia.
  - unfold getObject_range, object_scan. rewrite Ho. unfold u32. rewrite Zmod_mod. fold (u32 (offset / objSize v)).
    rewrite (bool_decide_eq_true_2 (offset `mod` objSize v = 0)) by done.
    rewrite (bool_decide_eq_true_2 (other `mod` objSize v = 0)) by (apply Z.mod_mul; lia). done.
Qed.

End Spec.
