(* ===== verification/PersistVolList.v ===== *)
(** * Listing the blobs of a volume and its latest sequence id

    The scans of [DmPersistVolDB] over all blob descriptors, and what opening a
    catalog does to the descriptor of the volume; and the store of the
    concrete examples. *)

From S2P Require Import Prelude.
From S2P Require Import Serialize.
From S2P Require Import ObjectId.
From S2P Require Import OrderedMap.
From S2P Require Import DmBlobTypes.
From S2P Require Import CatalogKeys.
From S2P Require Import PersistVolDB.
From S2P Require Import PersistVolSpec.
Open Scope Z_scope.

Section Listing.
Context {D : Type} {L : LevelDB D} {LL : LevelDBLaws L} {P : TProtocol} {PL : TProtocolLaws P}.
Implicit Types (d : D) (m l : list (ckey * list Z)) (s : vcat) (v : DmPersistVolDB.t (D:=D)) (b : BlobMetaDesc.t).
Import DmPersistVolDB.

Notation img m := (prod_map encode id <$> m).
Notation blob_name b := (BasicBlobMeta.blob_name (BlobMetaDesc.desc b)).
Notation blob_seq b := (BasicBlobMeta.sequence_id (BlobMetaDesc.desc b)).

(** The blob descriptors among entries, with names [sel] selects. *)
Definition pick_blob (sel : list Z → bool) (x : ckey * list Z) : option BlobMetaDesc.t :=
  match x.1 with
  | KBlob n => if sel n then match loadSerialized BlobMetaDesc.read x.2 with Ret (Some b, _) => Some b | _ => None end
               else None
  | _ => None
  end.

Definition blobs_in (sel : list Z → bool) m : list BlobMetaDesc.t := omap (pick_blob sel) m.

(** Entries whose blob descriptors are those of [s]. *)
Definition loads s l : Prop := ∀ n w, (KBlob n, w) ∈ l → ∃ b, c_blobs s !! n = Some b ∧ w = blob_bytes b ∧ blob_ok b ∧ blob_name b = n.

Lemma related_loads m s : OMap.sorted ckey_cmp m → related m s → loads s m.
Proof.
  intros Hs Hr n w Hx. apply (OMap.lookup_elem ckey_cmp) in Hx; [|done]. rewrite (r_blob _ _ Hr) in Hx.
  apply fmap_Some in Hx as (b & Hb & ->). destruct (r_blob_ok _ _ Hr _ _ Hb). by exists b.
Qed.

Lemma loads_cons s x l : loads s (x :: l) → loads s l.
Proof. intros H n w Hx. apply H. by right. Qed.

Lemma load_bytes b : blob_ok b → loadSerialized BlobMetaDesc.read (blob_bytes b) = Ret (Some b, ERR_OK).
Proof. apply BlobMetaDesc_load. Qed.

Lemma load_verified_bytes b : blob_ok b → load_verified (blob_bytes b) = Ret b.
Proof. intros Hb. unfold load_verified. by rewrite load_bytes. Qed.

Lemma pick_blob_bytes sel n b : blob_ok b → pick_blob sel (KBlob n, blob_bytes b) = if sel n then Some b else None.
Proof. intros Hb. unfold pick_blob. simpl. by rewrite load_bytes. Qed.

Lemma blobs_in_elem sel m s b : OMap.sorted ckey_cmp m → related m s →
  b ∈ blobs_in sel m ↔ sel (blob_name b) = true ∧ c_blobs s !! blob_name b = Some b.
Proof.
  intros Hs Hr. pose proof (related_loads m s Hs Hr) as Hl. unfold blobs_in. rewrite list_elem_of_omap. split.
  - intros ([[| |n|n i] w] & Hx & E); try done. destruct (Hl _ _ Hx) as (b' & Hb & -> & Hok & <-).
    rewrite pick_blob_bytes in E by done. destruct (sel (blob_name b')) eqn:Es; [|done]. by injection E as <-.
  - intros [Es Hb]. destruct (r_blob_ok _ _ Hr _ _ Hb) as [Hok _]. exists (KBlob (blob_name b), blob_bytes b). split.
    + apply (OMap.lookup_elem ckey_cmp); [done|]. by rewrite (r_blob _ _ Hr), Hb.
    + by rewrite pick_blob_bytes, Es by done.
Qed.

Lemma blob_cmp n1 n2 : ckey_cmp (KBlob n1) (KBlob n2) = bytes_cmp n1 n2.
Proof. unfold ckey_cmp, lex_cmp. simpl. by destruct (bytes_cmp n1 n2). Qed.

Lemma blobs_in_sorted sel m s : OMap.sorted ckey_cmp m → loads s m →
  StronglySorted (λ b1 b2, bytes_cmp (blob_name b1) (blob_name b2) = Lt) (blobs_in sel m).
Proof.
  induction m as [|x m IH]; intros Hs Hl; [constructor|]. apply (OMap.sorted_cons ckey_cmp) in Hs as [Hs Hx].
  pose proof (loads_cons _ _ _ Hl) as Hl'.
  assert (∀ n w b, (KBlob n, w) ∈ x :: m → pick_blob sel (KBlob n, w) = Some b → blob_name b = n) as Hn.
  { intros n w b Hin E. destruct (Hl _ _ Hin) as (b' & _ & -> & Hok & <-). rewrite pick_blob_bytes in E by done.
    destruct (sel _); [by injection E as <-|done]. }
  unfold blobs_in. cbn [omap list_omap]. destruct (pick_blob sel x) as [b|] eqn:E; [|by apply IH].
  constructor; [by apply IH|]. apply Forall_forall. intros b' (y & Hy & E')%list_elem_of_omap. specialize (Hx _ Hy).
  destruct x as [[| |n|n i] w]; try done. destruct y as [[| |n'|n' i'] w']; try done.
  rewrite (Hn _ _ _ ltac:(by left) E), (Hn _ _ _ ltac:(by right) E'). by rewrite <-blob_cmp.
Qed.

(** ** The scans *)
Lemma is_type_blob k : is_type BLOB_METADATA (encode k) = match k with KBlob _ => true | _ => false end.
Proof. by destruct k. Qed.

Lemma all_blobs_loop s l acc : loads s l →
  foldM (λ acc e, if is_type BLOB_METADATA e.1 then m ← load_verified e.2; Ret (acc ++ [m]) else Ret acc) acc (img l) =
  Ret (acc ++ blobs_in (λ _, true) l).
Proof.
  revert acc. induction l as [|[k w] l IH]; intros acc Hl; [simpl; by rewrite app_nil_r|].
  rewrite fmap_cons, foldM_cons. cbn [prod_map fst snd]. rewrite is_type_blob. specialize (IH) with (1 := loads_cons _ _ _ Hl).
  destruct k as [| |n|n i]; rewrite ?bind_Ret; [apply IH|apply IH| |apply IH].
  destruct (Hl n w ltac:(by left)) as (b & _ & -> & Hok & _). change (id (blob_bytes b)) with (blob_bytes b).
  rewrite load_verified_bytes, !bind_Ret by done. rewrite IH. rewrite <-app_assoc. f_equal. f_equal.
  unfold blobs_in. cbn [omap list_omap]. by rewrite pick_blob_bytes.
Qed.

(** Whether a name is one the listing of a prefix gives. *)
Definition has_prefix (prefix n : list Z) : bool := bool_decide (prefix `prefix_of` n).

Lemma prefix_loop_spec fuel p c d s l acc skipped : 0 ≤ c < 255 → (length l < fuel)%nat →
  OMap.sorted ckey_cmp l → Forall (λ x, ckey_ok x.1) l → loads s l →
  (∀ n w, (KBlob n, w) ∈ l → Forall (λ z, 0 ≤ z < 256) n) →
  (∀ x, x ∈ l → ckey_cmp x.1 (KBlob (p ++ [c])) ≠ Lt) →
  prefix_loop fuel (p ++ [c]) [] (BlobMetadataKey.make (p ++ [c + 1])) d (img l) acc skipped =
  Ret (acc ++ blobs_in (has_prefix (p ++ [c])) l, skipped).
Proof.
  intros Hc. revert l acc. induction fuel as [|fuel IH]; intros l acc Hf Hs Hk Hl Hb Hge; [lia|].
  destruct l as [|[k w] l]; [simpl; by rewrite app_nil_r|].
  apply (OMap.sorted_cons ckey_cmp) in Hs as [Hs Hx]. apply Forall_cons in Hk as [Hk1 Hk]. simpl in Hk1, Hx, Hf.
  change (img ((k, w) :: l)) with ((encode k, w) :: img l). cbn [prefix_loop].
  rewrite decide_False by (by destruct p).
  change (BlobMetadataKey.make (p ++ [c + 1])) with (encode (KBlob (p ++ [c + 1]))). rewrite Compare_encode, !bind_Ret by done.
  pose proof (Hge (k, w) ltac:(by left)) as Hgek. simpl in Hgek.
  destruct (ckey_cmp k (KBlob (p ++ [c + 1]))) eqn:Ec; cbn [cmp_sign].
  1,3: rewrite bool_decide_eq_false_2 by lia.
  1,2: unfold blobs_in; rewrite omap_none; [by rewrite app_nil_r|].
  1,2: intros y Hy; destruct y as [[| |n|n i] w']; try done; unfold pick_blob; simpl;
    unfold has_prefix; rewrite bool_decide_eq_false_2; [done|].
  1,2: intros Hp%prefix_between; [|lia|eapply Forall_impl; [by eapply Hb|]; simpl; lia].
  1,2: destruct Hp as [_ Hp]; rewrite <-blob_cmp in Hp; apply elem_of_cons in Hy as [[= <- _]|Hy]; [congruence|].
  1,2: apply Hx in Hy; simpl in Hy.
  - apply (cmp_eq (cmp:=ckey_cmp)) in Ec as ->. pose proof (cmp_lt_trans (cmp:=ckey_cmp) _ _ _ Hy Hp) as H.
    by apply (OMap.cmp_lt_irrefl ckey_cmp) in H.
  - rewrite (OMap.cmp_gt ckey_cmp) in Ec. pose proof (cmp_lt_trans (cmp:=ckey_cmp) _ _ _ (cmp_lt_trans (cmp:=ckey_cmp) _ _ _ Ec Hy) Hp) as H.
    by apply (OMap.cmp_lt_irrefl ckey_cmp) in H.
  - rewrite bool_decide_eq_true_2 by lia. destruct k as [| |n|n i]; try done. rewrite blob_cmp in Hgek, Ec.
    destruct (Hl n w ltac:(by left)) as (b & _ & -> & Hok & _). rewrite load_verified_bytes, bind_Ret by done. cbv zeta.
    rewrite decide_True by done. cbn [next]. rewrite bind_Ret. rewrite IH; try done; [|lia|by eapply loads_cons|..].
    + rewrite <-app_assoc. f_equal. f_equal. unfold blobs_in. cbn [omap list_omap]. rewrite pick_blob_bytes by done.
      unfold has_prefix. rewrite bool_decide_eq_true_2; [done|]. apply prefix_between; [lia| |done].
      eapply Forall_impl; [by eapply Hb; left|]. simpl. lia.
    + intros n' w' Hn'. eapply Hb. by right.
    + intros x Hxl. apply Hge. by right.
Qed.

(** C34. Listing the blobs with a prefix, without a delimiter, gives the
    descriptor of each blob whose name starts with the prefix exactly once and
    in the order of the names, and the loop ends.  A prefix that is not empty
    ends in a byte below 255. *)
Theorem prefix_listing (fuel : nat) (prefix : list Z) (acc : list BlobMetaDesc.t) (skipped : list (list Z)) d s :
  represents d s → (length (ldb_dump d) < fuel)%nat →
  (∀ n b, c_blobs s !! n = Some b → Forall (λ z, 0 ≤ z < 256) n) →
  (∀ c, last prefix = Some c → 0 ≤ c < 255) →
  ∃ found, getBlobMetaDescForPrefix fuel prefix [] acc skipped d = Ret (acc ++ found, skipped, ERR_OK) ∧
    StronglySorted (λ b1 b2, bytes_cmp (blob_name b1) (blob_name b2) = Lt) found ∧
    ∀ b, b ∈ found ↔ prefix `prefix_of` blob_name b ∧ c_blobs s !! blob_name b = Some b.
Proof.
  intros (m & [He Hs Hk] & Hr) Hf Hn Hp. pose proof (related_loads m s Hs Hr) as Hl.
  exists (blobs_in (has_prefix prefix) m). split_and!; [|by eapply blobs_in_sorted|].
  2: { intros b. rewrite blobs_in_elem by done. unfold has_prefix. by rewrite bool_decide_eq_true. }
  unfold getBlobMetaDescForPrefix. destruct prefix as [|c p _] using rev_ind.
  - rewrite decide_True by done. unfold getAllBlobMetaDesc. rewrite He, (all_blobs_loop s), !bind_Ret by done.
    done.
  - rewrite decide_False by (intros [H _]; by destruct p). cbv zeta.
    assert (0 ≤ c < 255) as Hc by (apply Hp; by rewrite last_snoc).
    rewrite getIncremented_snoc, bind_Ret. unfold u8. rewrite Z.mod_small by lia.
    rewrite decide_False by (by destruct p). change (BlobMetadataKey.make (p ++ [c])) with (encode (KBlob (p ++ [c]))).
    assert (entries d m) as Hm by done. rewrite (seek_entries _ _ _ Hm) by done.
    destruct (filter_entries m (λ x, ckey_cmp x.1 (KBlob (p ++ [c])) ≠ Lt) Hs Hk) as [Hs' Hk'].
    rewrite (prefix_loop_spec fuel p c d s), bind_Ret; try done.
    + unfold blobs_in. rewrite omap_filter; [done|]. intros [[| |n|n i] w] Hx; try done. unfold pick_blob, has_prefix. simpl.
      destruct (bool_decide _) eqn:Eb; [|done]. exfalso. apply Hx. simpl.
      apply bool_decide_eq_true in Eb as [l ->]. rewrite blob_cmp. rewrite <-(app_nil_r (p ++ [c])) at 2.
      rewrite bytes_cmp_app. by destruct l.
    + pose proof (length_filter (λ x, ckey_cmp x.1 (KBlob (p ++ [c])) ≠ Lt) m). rewrite He, length_fmap in Hf. lia.
    + intros n w [_ Hx]%list_elem_of_filter. by apply Hl.
    + intros n w [_ Hx]%list_elem_of_filter. destruct (Hl _ _ Hx) as (b & Hb & _). by eapply Hn.
    + by intros x [? _]%list_elem_of_filter.
Qed.

(** ** The latest sequence id *)
Lemma max_loop_spec s l q : loads s l →
  max_loop (img l) q = Ret (foldl (λ q b, Z.max q (blob_seq b)) q (blobs_in (λ _, true) l), None).
Proof.
  revert q. induction l as [|[k w] l IH]; intros q Hl; [done|].
  change (img ((k, w) :: l)) with ((encode k, w) :: img l). cbn [max_loop]. rewrite is_type_blob.
  specialize (IH) with (1 := loads_cons _ _ _ Hl). destruct k as [| |n|n i]; [apply IH|apply IH| |apply IH].
  destruct (Hl n w ltac:(by left)) as (b & _ & -> & Hok & _). rewrite load_bytes, bind_Ret by done. rewrite IH.
  unfold blobs_in. cbn [omap list_omap]. rewrite pick_blob_bytes by done. simpl. do 3 f_equal. case_decide; lia.
Qed.

Lemma foldl_max {A} (f : A → Z) (l : list A) q :
  q ≤ foldl (λ q y, Z.max q (f y)) q l ∧ (∀ y, y ∈ l → f y ≤ foldl (λ q y, Z.max q (f y)) q l) ∧
  (foldl (λ q y, Z.max q (f y)) q l = q ∨ ∃ y, y ∈ l ∧ foldl (λ q y, Z.max q (f y)) q l = f y).
Proof.
  revert q. induction l as [|x l IH]; intros q; simpl; [split_and!; [lia|by intros b ?%elem_of_nil|by left]|].
  destruct (IH (Z.max q (f x))) as (H1 & H2 & H3). split_and!; [lia| |].
  - intros b [->|Hb]%elem_of_cons; [lia|by apply H2].
  - destruct H3 as [->|(b & Hb & ->)]; [|right; exists b; split; [by right|done]].
    destruct (Z.max_spec q (f x)) as [[_ ->]|[_ ->]]; [right; exists x; split; [by left|done]|by left].
Qed.

(** [getLatestSequenceId] gives the greatest sequence id of the volume
    descriptor and of all blobs, 0 when none is greater, for a volume with a
    descriptor and a scan without an error; it fails only when the store
    cannot read the descriptor. *)
Theorem latest_sequence_id d s vm : represents d s → ldb_iter_status d = StOk → c_volume s = Some vm →
  ∃ q rc, getLatestSequenceId d = Ret (q, rc) ∧ (rc = ERR_OK ∨ rc = ERR_DISK_READ_FAILED) ∧
    (rc = ERR_OK → VolumeMetaDesc.sequence_id vm ≤ q ∧ (∀ n b, c_blobs s !! n = Some b → blob_seq b ≤ q) ∧
      (q = 0 ∨ q = VolumeMetaDesc.sequence_id vm ∨ ∃ n b, c_blobs s !! n = Some b ∧ q = blob_seq b)).
Proof.
  intros (m & Hm & Hr) Hst Hvm. pose proof (e_sorted _ _ Hm) as Hs. pose proof (related_loads m s Hs Hr) as Hl.
  unfold getLatestSequenceId. rewrite (e_dump _ _ Hm), (max_loop_spec s), bind_Ret by done. rewrite decide_True by done.
  destruct (foldl_max (λ b, blob_seq b) (blobs_in (λ _, true) m) 0) as (H1 & H2 & H3).
  set (M := foldl _ _ _) in *. unfold getVolumeMetaDesc.
  destruct (query_spec d m KVolume Hm I) as (value & rc & E & HQ). simpl in E. rewrite E. rewrite (r_volume _ _ Hr), Hvm in HQ.
  destruct HQ as [[-> [= <-]]|[[-> ?]| ->]]; [rewrite decide_False by naive_solver|done|exists M, ERR_DISK_READ_FAILED; split; [reflexivity|]; split; [by right|by intros [=]]].
  unfold volume_bytes. rewrite (proj2 (VolumeMetaDesc_load vm (r_volume_ok _ _ Hr _ Hvm))), bind_Ret.
  eexists _, _. split; [done|]. split; [by left|]. intros _.
  assert (∀ n b, c_blobs s !! n = Some b → blob_seq b ≤ M) as HM.
  { intros n b Hb. apply H2. destruct (r_blob_ok _ _ Hr _ _ Hb) as [_ <-]. by apply (blobs_in_elem _ _ s). }
  split_and!.
  - case_decide; lia.
  - intros n b Hb. specialize (HM n b Hb). case_decide; lia.
  - case_decide; [by right; left|]. destruct H3 as [->|(b & Hb & ->)]; [by left|]. right; right.
    apply (blobs_in_elem _ _ s) in Hb as [_ Hb]; [|done..]. eauto.
Qed.

(** Activating a catalog that exists already resets the descriptor of the
    volume: whatever descriptor the store held, after a successful activation
    it holds an empty one with sequence id 0; blobs and objects stay. *)
Theorem activate_resets_volume (ts : Z) d s v : represents d s →
  ∃ v' rc, activate ts true (Some d) v = Ret (v', rc) ∧
    (rc = ERR_OK ∧ activated v' = true ∧ holds v'
       {| c_volume := Some (VolumeMetaDesc.Make 0 []); c_blobs := c_blobs s; c_objects := c_objects s |} ∨
     rc = ERR_DM_VOL_NOT_ACTIVATED).
Proof.
  intros Hr. unfold activate. rewrite andb_false_r. cbv iota beta.
  assert (volume_ok (VolumeMetaDesc.make [] 0)) as Hok.
  { split; [by split|split; [constructor|by intros x ?%elem_of_nil]|done]. }
  unfold putVolumeMetaDesc. rewrite (proj1 (VolumeMetaDesc_load _ Hok)), bind_Ret. rewrite decide_True by done.
  destruct (stamped ts [CVolume (VolumeMetaDesc.make [] 0)] (with_catalog d v) s) as (v1 & rc & E & H & _);
    [by apply Forall_singleton|by exists d|].
  simpl in E. unfold volume_bytes in E. rewrite E, bind_Ret. destruct H as [[-> (d' & E' & H)]| ->].
  - rewrite decide_False by naive_solver. eexists _, _. split; [done|]. left. split; [done|]. split; [done|]. by exists d'.
  - rewrite decide_True by done. eexists _, _. split; [done|]. by right.
Qed.

(** A listing with a delimiter loses the blob after a group: after
    skipping the names [p/a/...] the iterator stands on [p/b], and the step at
    the end of the round moves past it.  When nothing follows the group, the
    iterator moves past its end, which LevelDB leaves undefined. *)
Theorem delimiter_loses_blob d b1 b2 : blob_ok b1 → blob_ok b2 →
  blob_name b1 = [112; 47; 97; 47; 49] → blob_name b2 = [112; 47; 98] →
  (ldb_dump d = img [(KBlob (blob_name b1), blob_bytes b1); (KBlob (blob_name b2), blob_bytes b2)] →
   getBlobMetaDescForPrefix 3 [112; 47] [47] [] [] d = Ret ([], [[97; 47]], ERR_OK)) ∧
  (ldb_dump d = img [(KBlob (blob_name b1), blob_bytes b1)] →
   getBlobMetaDescForPrefix 3 [112; 47] [47] [] [] d = Fault Undefined).
Proof.
  intros H1 H2 N1 N2.
  assert (∀ fuel l, ldb_dump d = img ((KBlob (blob_name b1), blob_bytes b1) :: l) →
    getBlobMetaDescForPrefix (S fuel) [112; 47] [47] [] [] d =
    (it ← next (OMap.seek raw_cmp (encode (KBlob [112; 47; 97; 48])) (ldb_dump d));
     r ← prefix_loop fuel [112; 47] [47] (BlobMetadataKey.make [112; 48]) d it [] [[97; 47]];
     Ret ((r : list BlobMetaDesc.t * list (list Z)).1, r.2, ERR_OK))) as Hgroup.
  { intros fuel l Hd. unfold getBlobMetaDescForPrefix. rewrite decide_False by naive_solver. cbv zeta.
    change (CatalogKeyComparator.getIncremented (BlobMetadataKey.make [112; 47])) with (Ret (BlobMetadataKey.make [112; 48])).
    rewrite bind_Ret, decide_False by done. rewrite Hd at 1. rewrite fmap_cons, N1. cbn [OMap.seek prod_map fst snd].
    change (raw_cmp (encode (KBlob [112; 47; 97; 47; 49])) (BlobMetadataKey.make [112; 47])) with Gt.
    cbn [prefix_loop]. rewrite decide_False by done.
    change (CatalogKeyComparator.Compare (encode (KBlob [112; 47; 97; 47; 49])) (BlobMetadataKey.make [112; 48])) with (Ret (-1)).
    rewrite !bind_Ret, bool_decide_eq_true_2 by lia. change (id (blob_bytes b1)) with (blob_bytes b1).
    rewrite load_verified_bytes, bind_Ret by done. cbv zeta. rewrite N1. rewrite decide_False by done.
    change (find_from [47] [112; 47; 97; 47; 49] (length [112; 47])) with (Some 3%nat). cbv iota beta.
    change (CatalogKeyComparator.getIncremented _) with (Ret (encode (KBlob [112; 47; 97; 48]))). rewrite bind_Ret.
    by destruct (next _). }
  split; intros Hd; rewrite (Hgroup 2%nat _ Hd), Hd, !fmap_cons, N1, ?N2; reflexivity.
Qed.

End Listing.

(** ** A store *)
#[export] Instance list_store : LevelDB (list (list Z * list Z)) := {
  ldb_dump d := d;
  ldb_write ops d := (foldl raw_apply d ops, StOk);
  ldb_get key d := match OMap.lookup raw_cmp key d with Some v => (v, StOk) | None => ([], StNotFound) end;
  ldb_iter_status _ := StOk;
}.

#[export] Instance list_store_laws : LevelDBLaws list_store.
Proof.
  split; simpl.
  - intros ops d d' [= <-] _ _. done.
  - intros key d v _ _. by destruct (OMap.lookup raw_cmp key d) as [?|]; intros [= <-].
  - intros key d v _ _. by destruct (OMap.lookup raw_cmp key d).
Qed.

(** ** A volume with two blobs of which one has three objects *)
Definition demo_desc (name : list Z) (seq : Z) : BlobMetaDesc.t := BlobMetaDesc.Make (BasicBlobMeta.Make name 0 seq 12288) [].
Definition demo_oid (x : Z) : list Z := replicate 20 x.

Definition demo_changes : list change :=
  [CVolume (VolumeMetaDesc.Make 5 []); CBlob [112; 47; 98] (demo_desc [112; 47; 98] 9); CBlob [99] (demo_desc [99] 7);
   CObject [99] 0 (demo_oid 1); CObject [99] 1 (demo_oid 2); CObject [99] 3 (demo_oid 3)].

Definition demo_empty : vcat := {| c_volume := None; c_blobs := ∅; c_objects := ∅ |}.
Definition demo_state : vcat := apply_changes demo_empty demo_changes.
Definition demo_store : list (list Z * list Z) := foldl raw_apply [] (encode_change <$> demo_changes).
Definition demo_volume (snapshot : bool) : DmPersistVolDB.t :=
  DmPersistVolDB.Make (Some demo_store) 4096 snapshot snapshot DmVolumeSummary.make 0 None true false.

Lemma demo_desc_ok name seq : length name = 3%nat ∨ length name = 1%nat ∨ length name = 5%nat → 0 ≤ seq < 100 →
  blob_ok (demo_desc name seq).
Proof.
  intros Hn Hs. assert (length name ≤ 5)%nat by lia. assert (uint64_max = 2 ^ 64 - 1) by reflexivity.
  split; simpl; unfold short, uint64; try lia. split; [constructor|by intros x ?%elem_of_nil].
Qed.

Lemma demo_changes_ok : Forall change_ok demo_changes.
Proof.
  repeat (apply List.Forall_cons || apply List.Forall_nil).
  - split; [split; discriminate|split; [constructor|by intros x ?%elem_of_nil]|reflexivity].
  - split; [apply demo_desc_ok; [by left|lia]|reflexivity].
  - split; [apply demo_desc_ok; [by right; left|lia]|reflexivity].
  - split; [lia|reflexivity].
  - split; [lia|reflexivity].
  - split; [lia|reflexivity].
Qed.

Lemma demo_represents : represents demo_store demo_state.
Proof.
  apply (write_represents demo_changes [] _ demo_empty); [apply demo_changes_ok| |reflexivity].
  exists []. split; [by split; [|constructor|]|].
  split; try done; intros; rewrite ?lookup_empty in *; done.
Qed.

Lemma demo_size_ok b : size_ok (demo_volume b).
Proof. by split. Qed.

Definition demo_cmds : list cmd :=
  [PutBatch [99] (demo_desc [99] 8) (BlobObjList.Make [(8192, BlobObjInfo.Make (demo_oid 4) 4096)] false) [0];
   DeleteObjects [99] 4096 12288].

Lemma catalog_refinement_witness : ∃ v' rc, run (λ i, i) demo_cmds (demo_volume false) = Ret (v', rc) ∧
  (rc = ERR_OK ∧ holds v' (apply_changes demo_state (demo_cmds ≫= effect 4096)) ∨
   rc = ERR_DISK_WRITE_FAILED).
Proof.
  apply (catalog_refinement (λ i, i) demo_cmds (demo_volume false) demo_state).
  - apply demo_size_ok.
  - reflexivity.
  - apply List.Forall_cons; [split; [split; [apply demo_desc_ok; [right; left; reflexivity|lia]|reflexivity]|split]|].
    + apply List.Forall_cons; [|apply List.Forall_nil]. split; [split; [discriminate|discriminate]|split; reflexivity].
    + apply List.Forall_cons; [|apply List.Forall_nil]. split; [split; [discriminate|discriminate]|reflexivity].
    + apply List.Forall_cons; [|apply List.Forall_nil]. split; [discriminate|split; discriminate].
  - exists demo_store. split; [reflexivity|apply demo_represents].
Defined.

Lemma read_only_refused_witness : exec (λ i, i) (PutObject [99] 0 (demo_oid 9)) (demo_volume true) =
  Ret (demo_volume true, ERR_DM_OP_NOT_ALLOWED).
Proof. apply (read_only_refused (λ i, i) (PutObject [99] 0 (demo_oid 9)) (demo_volume true)); [left|]; reflexivity. Defined.

Lemma putBatch_out_of_range_witness : DmPersistVolDB.putBatch 0 [99] (demo_desc [99] 8)
  (BlobObjList.Make [(0, BlobObjInfo.Make (demo_oid 4) 4096); (2 ^ 44, BlobObjInfo.Make (demo_oid 5) 4096)] false) []
  (demo_volume false) = Ret (demo_volume false, ERR_DM_OFFSET_OUT_RANGE).
Proof.
  apply (putBatch_out_of_range 0 [99] (demo_desc [99] 8)
    (BlobObjList.Make [(0, BlobObjInfo.Make (demo_oid 4) 4096); (2 ^ 44, BlobObjInfo.Make (demo_oid 5) 4096)] false) []
    (demo_volume false)).
  - reflexivity.
  - repeat (apply List.Forall_cons || apply List.Forall_nil); reflexivity.
  - apply List.Exists_cons_tl, List.Exists_cons_hd. reflexivity.
Defined.

Lemma catalog_reads_witness :
  DmPersistVolDB.getObject [99] 12288 (demo_oid 0) (demo_volume false) = Ret (demo_oid 3, ERR_OK) ∨
  DmPersistVolDB.getObject [99] 12288 (demo_oid 0) (demo_volume false) = Ret (demo_oid 0, ERR_DISK_READ_FAILED).
Proof.
  destruct (catalog_reads [99] (demo_oid 0) 12288 (demo_volume false) demo_store demo_state) as [_ H].
  - apply demo_size_ok.
  - split; discriminate.
  - reflexivity.
  - reflexivity.
  - reflexivity.
  - apply demo_represents.
  - exact H.
Defined.

Lemma range_read_witness : ∃ objs, StronglySorted (λ x y, x.1 < y.1) objs ∧
  ∀ i oid, (i, oid) ∈ objs ↔ 4096 ≤ i * 4096 ≤ 12288 ∧ c_objects demo_state !! ([99], i) = Some oid.
Proof.
  destruct (range_read [99] 4096 12288 [] (demo_volume false) demo_store demo_state) as (objs & H1 & H2 & _).
  - apply demo_size_ok.
  - reflexivity.
  - apply demo_represents.
  - split; discriminate.
  - split; discriminate.
  - reflexivity.
  - reflexivity.
  - exists objs. split; [exact H1|exact H2].
Defined.

Lemma range_read_wraps_witness :
  DmPersistVolDB.getObject [99] (2 ^ 44) (demo_oid 0) (demo_volume false) = Ret (demo_oid 0, ERR_DM_OFFSET_OUT_RANGE) ∧
  DmPersistVolDB.getObject_range [99] (2 ^ 44) (2 ^ 44) [] demo_store (demo_volume false) =
  DmPersistVolDB.getObject_range [99] 0 0 [] demo_store (demo_volume false).
Proof.
  destruct (range_read_wraps [99] (demo_oid 0) (2 ^ 44) [] demo_store (demo_volume false)) as (H1 & _ & _ & H2).
  - apply demo_size_ok.
  - reflexivity.
  - reflexivity.
  - split; [exact H1|exact H2].
Defined.

Lemma demo_names n b : c_blobs demo_state !! n = Some b → Forall (λ z, 0 ≤ z < 256) n.
Proof.
  unfold demo_state, apply_changes. simpl. rewrite !lookup_insert_Some. rewrite lookup_empty.
  intros [[<- _]|[_ [[<- _]|[_ [=]]]]]; repeat constructor; lia.
Qed.

Lemma prefix_listing_witness : ∃ found,
  DmPersistVolDB.getBlobMetaDescForPrefix 10 [112; 47] [] [] [] demo_store = Ret ([] ++ found, [], ERR_OK) ∧
  StronglySorted (λ b1 b2, bytes_cmp (BasicBlobMeta.blob_name (BlobMetaDesc.desc b1))
    (BasicBlobMeta.blob_name (BlobMetaDesc.desc b2)) = Lt) found.
Proof.
  destruct (prefix_listing 10 [112; 47] [] [] demo_store demo_state) as (found & H1 & H2 & _).
  - apply demo_represents.
  - apply Nat.ltb_lt. vm_compute. reflexivity.
  - apply demo_names.
  - intros c E. injection E as <-. split; [discriminate|reflexivity].
  - exists found. split; [exact H1|exact H2].
Defined.

Lemma latest_sequence_id_witness : ∃ q rc, DmPersistVolDB.getLatestSequenceId demo_store = Ret (q, rc) ∧
  (rc = ERR_OK ∨ rc = ERR_DISK_READ_FAILED) ∧ (rc = ERR_OK → 5 ≤ q).
Proof.
  destruct (latest_sequence_id demo_store demo_state (VolumeMetaDesc.Make 5 [])) as (q & rc & H1 & H2 & H3).
  - apply demo_represents.
  - reflexivity.
  - reflexivity.
  - exists q, rc. split; [exact H1|]. split; [exact H2|]. intros E. apply (H3 E).
Defined.

Lemma activate_resets_volume_witness :
  c_volume demo_state = Some (VolumeMetaDesc.Make 5 []) ∧
  ∃ v' rc, DmPersistVolDB.activate 0 true (Some demo_store) (demo_volume false) = Ret (v', rc) ∧
    (rc = ERR_OK ∧ DmPersistVolDB.activated v' = true ∧ holds v'
       {| c_volume := Some (VolumeMetaDesc.Make 0 []); c_blobs := c_blobs demo_state; c_objects := c_objects demo_state |} ∨
     rc = ERR_DM_VOL_NOT_ACTIVATED).
Proof. split; [reflexivity|]. apply activate_resets_volume. apply demo_represents. Defined.

Definition demo_group : list (list Z * list Z) :=
  [(encode (KBlob [112; 47; 97; 47; 49]), blob_bytes (demo_desc [112; 47; 97; 47; 49] 1));
   (encode (KBlob [112; 47; 98]), blob_bytes (demo_desc [112; 47; 98] 2))].

Lemma delimiter_loses_blob_witness :
  DmPersistVolDB.getBlobMetaDescForPrefix 3 [112; 47] [47] [] [] demo_group = Ret ([], [[97; 47]], ERR_OK).
Proof.
  destruct (delimiter_loses_blob demo_group (demo_desc [112; 47; 97; 47; 49] 1) (demo_desc [112; 47; 98] 2)) as [H _].
  - apply demo_desc_ok; [right; right; reflexivity|lia].
  - apply demo_desc_ok; [left; reflexivity|lia].
  - reflexivity.
  - reflexivity.
  - apply H. reflexivity.
Defined.
