(* ===== verification/VolumeCatalog.v ===== *)
(** * The volume catalog of the data manager

    Models [DmVolumeCatalog] (src/source/data-mgr/include/dm-vol-cat/
    DmVolumeCatalog.h, dm-lib/dm-vol-cat/DmVolumeCatalog.cpp): the catalogs of
    all volumes of a data manager, with the operations on blobs made of those
    of [DmPersistVolDB], and the logical size of a volume kept in step with
    them.  An operation is one step; a volume is changed in the map where all
    its pointers lead.  Clock readings are arguments, and so are the outcomes
    of file operations.  Output parameters are returned, with the values the
    caller had passed in on paths that leave them alone.  A descriptor whose
    deserialization fails is left as it was; no caller uses it then, except
    for a sequence id in [migrateDescriptor], which is an argument.  Sending
    metrics, [syncCatalog] and the callback for expunged objects, which is
    never called, are not modelled. *)

From S2P Require Import Prelude.
From S2P Require Import Serialize.
From S2P Require Import ObjectId.
From S2P Require Import OrderedMap.
From S2P Require Import DmBlobTypes.
From S2P Require Import CatalogKeys.
From S2P Require Import PersistVolDB.
Open Scope Z_scope.

Module DmVolumeCatalog.

Definition getLastObjSize (blobSize objSize : Z) : Z :=
  if decide (blobSize = 0) then 0 else
  let rc := u32 (blobSize `mod` objSize) in
  if decide (rc ≠ 0) then rc else objSize.

Definition getLastOffset (blobSize objSize : Z) : Z := u64 (blobSize - getLastObjSize blobSize objSize).

(** [mergeMetaList] *)
Definition mergeMetaList (lhs rhs : list (list Z * list Z)) : list (list Z * list Z) :=
  foldl (λ l it, OMap.put bytes_cmp it.1 it.2 l) lhs rhs.

(** [objList[offset].size = size] *)
Definition set_size (offset size : Z) (l : BlobObjList.t) : BlobObjList.t :=
  let info := default BlobObjInfo.make (OMap.lookup Z.compare offset (BlobObjList.objs l)) in
  BlobObjList.with_objs (OMap.put Z.compare offset (BlobObjInfo.Make (BlobObjInfo.oid info) size) (BlobObjList.objs l)) l.

(** [objList[offset].size] *)
Definition get_size (offset : Z) (l : BlobObjList.t) : Z :=
  BlobObjInfo.size (default BlobObjInfo.make (OMap.lookup Z.compare offset (BlobObjList.objs l))).

Definition list_size (l : BlobObjList.t) : Z := Z.of_nat (length (BlobObjList.objs l)).

(** The part of a volume descriptor that [addCatalog] uses. *)
Record VolumeDesc := { volUUID : Z; maxObjSizeInBytes : Z; fSnapshot : bool; srcVolumeId : Z }.

(** [blobMeta.desc.version += 1] and the other updates of a commit *)
Definition commit_desc (name : list Z) (newBlob : bool) (seq size : Z) (metaList : option (list (list Z * list Z)))
    (b : BlobMetaDesc.t) : BlobMetaDesc.t :=
  let d := BlobMetaDesc.desc b in
  BlobMetaDesc.Make
    (BasicBlobMeta.Make (if newBlob then name else BasicBlobMeta.blob_name d) (u64 (BasicBlobMeta.version d + 1)) seq size)
    (match metaList with Some m => mergeMetaList (BlobMetaDesc.meta_list b) m | None => BlobMetaDesc.meta_list b end).

Section DmVolumeCatalog.
Context {D : Type} `{L : LevelDB D} `{P : TProtocol}.
Notation vol := (DmPersistVolDB.t (D:=D)).

Record t := Make { volMap : gmap Z vol; ft_newStats : bool }.

Definition with_vol (volId : Z) (v : vol) (c : t) : t := Make (<[volId := v]> (volMap c)) (ft_newStats c).

(** [GET_VOL_N_CHECK_DELETED] *)
Definition find_vol (volId : Z) (c : t) : option vol :=
  match volMap c !! volId with
  | Some v => if DmPersistVolDB.deleted v then None else Some v
  | None => None
  end.

Definition checked {A} (volId : Z) (c : t) (out : A) (k : vol → res (A * fds_errno)) : res (A * fds_errno) :=
  match find_vol volId c with Some v => k v | None => Ret (out, ERR_VOL_NOT_FOUND) end.

(** ... and [HANDLE_VOL_NOT_ACTIVATED] *)
Definition active {A} (volId : Z) (c : t) (out : A) (k : vol → res (A * fds_errno)) : res (A * fds_errno) :=
  checked volId c out (λ v, if DmPersistVolDB.activated v then k v else Ret (out, ERR_DM_VOL_NOT_ACTIVATED)).

(** A call that changes the volume. *)
Definition changing (volId : Z) (c : t) (r : res (vol * fds_errno)) : res (t * fds_errno) :=
  x ← r; Ret (with_vol volId (x : vol * fds_errno).1 c, x.2).

(** ** Volumes *)
Definition addCatalog (voldesc : VolumeDesc) (c : t) : res (t * fds_errno) :=
  v ← DmPersistVolDB.make (maxObjSizeInBytes voldesc) (fSnapshot voldesc) (fSnapshot voldesc);
  Ret (with_vol (volUUID voldesc) v c, ERR_OK).

(** [copied] is the result of copying the files of the source. *)
Definition copyVolume (voldesc : VolumeDesc) (copied : fds_errno) (c : t) : res (t * fds_errno) :=
  match volMap c !! srcVolumeId voldesc with
  | None => Fault VerifyFailed
  | Some src =>
      if decide (copied = ERR_OK) then
        v ← DmPersistVolDB.make (DmPersistVolDB.objSize src) (fSnapshot voldesc) (fSnapshot voldesc);
        Ret (with_vol (volUUID voldesc) v c, ERR_OK)
      else Ret (c, copied)
  end.

Definition activateCatalog (ts : Z) (exists_ : bool) (opened : option D) (volId : Z) (c : t) : res (t * fds_errno) :=
  checked volId c c (λ v, changing volId c (DmPersistVolDB.activate ts exists_ opened v)).

Definition markVolumeDeleted (volId : Z) (c : t) : t * fds_errno :=
  match volMap c !! volId with
  | None => (c, ERR_VOL_NOT_FOUND)
  | Some v => (with_vol volId (DmPersistVolDB.markDeleted v) c, ERR_OK)
  end.

(** The wait for snapshots to be released, at most ten minutes, changes
    nothing here. *)
Definition deleteCatalog (volId : Z) (checkDeleted : bool) (c : t) : t * fds_errno :=
  match volMap c !! volId with
  | None => (c, ERR_VOL_NOT_FOUND)
  | Some v =>
      if negb checkDeleted || DmPersistVolDB.deleted v || DmPersistVolDB.snapshot v
      then (Make (delete volId (volMap c)) (ft_newStats c), ERR_OK) else (c, ERR_OK)
  end.

Definition reloadCatalog (ts : Z) (exists_ : bool) (opened : option D) (voldesc : VolumeDesc) (c : t) : res (t * fds_errno) :=
  let c := (deleteCatalog (volUUID voldesc) false c).1 in
  r ← addCatalog voldesc c;
  let '(c, rc) := r : t * fds_errno in
  if decide (rc ≠ ERR_OK) then Ret (c, rc) else activateCatalog ts exists_ opened (volUUID voldesc) c.

(** ** Reads *)
Definition getBlobMetaDesc (volId : Z) (blobName : list Z) (blobMeta : BlobMetaDesc.t) (c : t)
    : res (BlobMetaDesc.t * fds_errno) :=
  active volId c blobMeta (λ v,
    d ← DmPersistVolDB.store v;
    r ← DmPersistVolDB.getBlobMetaDesc blobName d;
    let '(loaded, rc) := r : option BlobMetaDesc.t * fds_errno in
    let blobMeta := default blobMeta loaded in
    Ret (blobMeta, if decide (rc = ERR_OK ∧ BasicBlobMeta.version (BlobMetaDesc.desc blobMeta) = blob_version_invalid)
                   then ERR_CAT_ENTRY_NOT_FOUND else rc)).

(** With all three output parameters asked for *)
Definition getBlobMeta (volId : Z) (blobName : list Z) (out : Z * Z * list (list Z * list Z)) (c : t)
    : res (Z * Z * list (list Z * list Z) * fds_errno) :=
  r ← getBlobMetaDesc volId blobName BlobMetaDesc.make c;
  let '(m, rc) := r : BlobMetaDesc.t * fds_errno in
  if decide (rc = ERR_OK) then
    Ret (BasicBlobMeta.version (BlobMetaDesc.desc m), BasicBlobMeta.blob_size (BlobMetaDesc.desc m),
         MetaDataList.toFdspPayload (BlobMetaDesc.meta_list m), ERR_OK)
  else Ret (out, rc).

(** [iter->size = lastObjectSize] for the last entry of the list *)
Definition fix_last (lastOffset lastObjectSize : Z) (l : list (Z * Z * list Z)) : list (Z * Z * list Z) :=
  match reverse l with
  | (offset, size, digest) :: r =>
      if decide (i64 lastOffset = offset) then reverse r ++ [(offset, lastObjectSize, digest)] else l
  | [] => l
  end.

(** The result: version and metadata, objects and size of the blob. *)
Definition getBlob (volId : Z) (blobName : list Z) (startOffset endOffset : Z) (version : Z)
    (metaList : list (list Z * list Z)) (objList : list (Z * Z * list Z)) (c : t)
    : res (Z * list (list Z * list Z) * list (Z * Z * list Z) * Z * fds_errno) :=
  r ← getBlobMeta volId blobName (version, 0, metaList) c;
  let '(version, blobSize, metaList, rc) := r : Z * Z * list (list Z * list Z) * fds_errno in
  if decide (rc ≠ ERR_OK) then Ret (version, metaList, objList, blobSize, rc) else
  if decide (blobSize = 0) then Ret (version, metaList, objList, blobSize, rc) else
  if decide (startOffset >= blobSize) then Ret (version, metaList, objList, blobSize, ERR_BLOB_OFFSET_INVALID) else
  let endOffset := if decide (endOffset >= i64 blobSize) then -1 else endOffset in
  match find_vol volId c with
  | None => Ret (version, metaList, objList, blobSize, ERR_VOL_NOT_FOUND)
  | Some v =>
      let objSize := DmPersistVolDB.objSize v in
      let lastObjectSize := getLastObjSize blobSize objSize in
      let endOffset := if decide (endOffset < 0) then i64 (blobSize - lastObjectSize) else endOffset in
      d ← DmPersistVolDB.store v;
      r ← DmPersistVolDB.getObject_range blobName startOffset (u64 endOffset) objList d v;
      let '(objList, rc) := r : list (Z * Z * list Z) * fds_errno in
      let objList := if decide (rc = ERR_OK) then fix_last (getLastOffset blobSize objSize) lastObjectSize objList
                     else objList in
      Ret (version, metaList, objList, blobSize, rc)
  end.

(** The product is one of 32-bit integers. *)
Definition getBlobAndMetaFromSnapshot (volId : Z) (blobName : list Z) (meta : BlobMetaDesc.t)
    (obj_list : list (Z * Z * list Z)) (snap : D) (c : t) : res (BlobMetaDesc.t * list (Z * Z * list Z) * fds_errno) :=
  active volId c (meta, obj_list) (λ v,
    r ← DmPersistVolDB.getBlobMetaDesc blobName snap;
    let meta := default meta (r : option BlobMetaDesc.t * fds_errno).1 in
    let reverse_engineer_last_offset := u32 ((uint32_max - 1) * DmPersistVolDB.objSize v) in
    r ← DmPersistVolDB.getObject_range blobName 0 reverse_engineer_last_offset obj_list snap v;
    let '(obj_list, rc) := r : list (Z * Z * list Z) * fds_errno in
    Ret (meta, obj_list, rc)).

(** A [BlobDescriptor]: name, size and metadata *)
Definition descriptor (m : BlobMetaDesc.t) : list Z * Z * list (list Z * list Z) :=
  (BasicBlobMeta.blob_name (BlobMetaDesc.desc m), i64 (BasicBlobMeta.blob_size (BlobMetaDesc.desc m)), BlobMetaDesc.meta_list m).

Definition listBlobs (volId : Z) (bDescrList : list (list Z * Z * list (list Z * list Z))) (c : t)
    : res (list (list Z * Z * list (list Z * list Z)) * fds_errno) :=
  active volId c bDescrList (λ v,
    d ← DmPersistVolDB.store v;
    r ← DmPersistVolDB.getAllBlobMetaDesc [] d;
    let '(blobMetaList, rc) := r : list BlobMetaDesc.t * fds_errno in
    if decide (rc ≠ ERR_OK) then Ret (bDescrList, rc)
    else Ret (foldl (λ l it, l ++ [descriptor it]) bDescrList blobMetaList, rc)).

Definition listBlobsWithPrefix (fuel : nat) (volId : Z) (prefix delimiter : list Z)
    (results : list (list Z * Z * list (list Z * list Z))) (skippedPrefixes : list (list Z)) (c : t)
    : res (list (list Z * Z * list (list Z * list Z)) * list (list Z) * fds_errno) :=
  active volId c (results, skippedPrefixes) (λ v,
    d ← DmPersistVolDB.store v;
    r ← DmPersistVolDB.getBlobMetaDescForPrefix fuel prefix delimiter [] skippedPrefixes d;
    let '(blobMetaList, skippedPrefixes, rc) := r : list BlobMetaDesc.t * list (list Z) * fds_errno in
    if decide (rc ≠ ERR_OK) then Ret (results, skippedPrefixes, rc)
    else Ret (foldl (λ l it, l ++ [descriptor it]) results blobMetaList, skippedPrefixes, rc)).

Definition getVolumeMetadata (volId : Z) (metadataList : list (list Z * list Z)) (c : t)
    : res (list (list Z * list Z) * fds_errno) :=
  active volId c metadataList (λ v,
    d ← DmPersistVolDB.store v;
    r ← DmPersistVolDB.getVolumeMetaDesc d;
    let '(loaded, rc) := r : option VolumeMetaDesc.t * fds_errno in
    if decide (rc ≠ ERR_OK) then Ret (metadataList, rc) else
    let volMetaDesc := default (VolumeMetaDesc.make metadataList 0) loaded in
    Ret (foldl (λ l it, l ++ [(it.1, it.2)]) metadataList (VolumeMetaDesc.meta_list volMetaDesc), rc)).

(** The loop over the blobs of a volume that reads their objects. *)
Fixpoint blob_objects {A} (last : Z → Z → Z) (v : vol) (blobMetaList : list BlobMetaDesc.t)
    (f : A → BlobMetaDesc.t → BlobObjList.t → A) (acc : A) : res (A * fds_errno) :=
  match blobMetaList with
  | [] => Ret (acc, ERR_OK)
  | it :: rest =>
      let endOffset := last (BasicBlobMeta.blob_size (BlobMetaDesc.desc it)) (DmPersistVolDB.objSize v) in
      r ← DmPersistVolDB.getObject_list (BasicBlobMeta.blob_name (BlobMetaDesc.desc it)) 0 endOffset BlobObjList.make v;
      let '(objList, rc) := r : BlobObjList.t * fds_errno in
      if decide (rc ≠ ERR_OK) then Ret (acc, rc) else blob_objects last v rest f (f acc it objList)
  end.

(** A set of identifiers is the list of its elements. *)
Definition add_id (l : list (list Z)) (oid : list Z) : list (list Z) := if decide (oid ∈ l) then l else l ++ [oid].

(** [it.desc.blob_size ? it.desc.blob_size - lastObjectSize : 0] *)
Definition last_or_zero (blobSize objSize : Z) : Z :=
  if decide (blobSize ≠ 0) then u64 (blobSize - getLastObjSize blobSize objSize) else 0.

Definition getVolumeObjects (volId : Z) (objIds : list (list Z)) (c : t) : res (list (list Z) * fds_errno) :=
  active volId c objIds (λ v,
    d ← DmPersistVolDB.store v;
    r ← DmPersistVolDB.getAllBlobMetaDesc [] d;
    let '(blobMetaList, rc) := r : list BlobMetaDesc.t * fds_errno in
    if decide (rc ≠ ERR_OK) then Ret (objIds, rc) else
    blob_objects last_or_zero v blobMetaList
      (λ ids _ objList, foldl (λ ids obj, add_id ids (BlobObjInfo.oid obj.2)) ids (BlobObjList.objs objList)) objIds).

Definition getObjectIds (volId : Z) (raw : list Z) (maxObjs : Z) (snap : option D) (dbItr : option (list (list Z * list Z)))
    (objects : list (list Z)) (c : t) : res (list (list Z) * option (list (list Z * list Z)) * fds_errno) :=
  checked volId c (objects, dbItr) (λ v,
    d ← match snap with Some d => Ret d | None => DmPersistVolDB.store v end;
    let '(objects, it) := DmPersistVolDB.getObjectIds raw maxObjs dbItr d in Ret (objects, Some it, ERR_OK)).

(** ** Statistics *)
(** Without the last object, whose size is corrected, all have the size of the
    volume's objects. *)
Definition stat_blob (objSize : Z) (acc : Z * Z * Z) (it : BlobMetaDesc.t) (objList : BlobObjList.t) : Z * Z * Z :=
  let '(volSize, objCount, maxSeqId) := acc in
  let d := BlobMetaDesc.desc it in
  let maxSeqId := if decide (maxSeqId < BasicBlobMeta.sequence_id d) then BasicBlobMeta.sequence_id d else maxSeqId in
  let objList := set_size (BlobObjList.lastOffset objList) (getLastObjSize (BasicBlobMeta.blob_size d) objSize) objList in
  (u64 (volSize + u64 (u64 ((list_size objList - 1) * objSize) + get_size (BlobObjList.lastOffset objList) objList)),
   u64 (objCount + list_size objList), maxSeqId).

(** Size, blobs, objects and, when asked for, the latest sequence id. *)
Definition statVolumeInternal (volId : Z) (wantSeq : bool) (out : Z * Z * Z * Z) (c : t) : res (Z * Z * Z * Z * fds_errno) :=
  active volId c out (λ v,
    let latest := out.2 in
    d ← DmPersistVolDB.store v;
    r ← DmPersistVolDB.getAllBlobMetaDesc [] d;
    let '(blobMetaList, rc) := r : list BlobMetaDesc.t * fds_errno in
    if decide (rc ≠ ERR_OK) then Ret (0, 0, 0, latest, rc) else
    let blobCount := u64 (Z.of_nat (length blobMetaList)) in
    r ← blob_objects getLastOffset v blobMetaList (stat_blob (DmPersistVolDB.objSize v)) (0, 0, 0);
    let '(volSize, objCount, maxSeqId, rc) := r : Z * Z * Z * fds_errno in
    if decide (rc ≠ ERR_OK) then Ret (volSize, blobCount, objCount, latest, rc) else
    if wantSeq then
      r ← DmPersistVolDB.getVolumeMetaDesc d;
      let '(loaded, rc) := r : option VolumeMetaDesc.t * fds_errno in
      if decide (rc ≠ ERR_OK) then Ret (volSize, blobCount, objCount, latest, rc) else
      let seq := VolumeMetaDesc.sequence_id (default (VolumeMetaDesc.make [] 0) loaded) in
      Ret (volSize, blobCount, objCount, if decide (maxSeqId < seq) then seq else maxSeqId, rc)
    else Ret (volSize, blobCount, objCount, latest, rc)).

Definition statVolumeLogical (volId : Z) (wantSeq : bool) (out : Z * Z * Z * Z) (c : t)
    : res (t * (Z * Z * Z * Z) * fds_errno) :=
  match find_vol volId c with
  | None => Ret (c, out, ERR_VOL_NOT_FOUND)
  | Some v =>
      if negb (DmPersistVolDB.volSummaryInitialized v) then
        r ← statVolumeInternal volId wantSeq out c;
        let '(volSize, blobCount, objCount, seq, rc) := r : Z * Z * Z * Z * fds_errno in
        if decide (rc = ERR_OK) then
          let '(v, dup) := DmPersistVolDB.initVolSummary volSize blobCount objCount v in
          let c := with_vol volId v c in
          if decide (dup = ERR_DUPLICATE) then
            let '(sum, rc) := DmPersistVolDB.getVolSummary v in
            Ret (c, (default (volSize, blobCount, objCount) sum, seq), rc)
          else Ret (c, (volSize, blobCount, objCount, seq), rc)
        else Ret (c, (volSize, blobCount, objCount, seq), rc)
      else
        seq ← (if wantSeq then d ← DmPersistVolDB.store v; r ← DmPersistVolDB.getLatestSequenceId d; Ret (r : Z * fds_errno).1
               else Ret out.2);
        let '(sum, rc) := DmPersistVolDB.getVolSummary v in
        Ret (c, (default out.1 sum, seq), rc)
  end.

(** The bytes and the set of identifiers seen; [disabled] says that both
    statistics are switched off. *)
Definition stat_physical (objSize : Z) (acc : Z * list (list Z)) (it : BlobMetaDesc.t) (objList : BlobObjList.t)
    : Z * list (list Z) :=
  let size := BasicBlobMeta.blob_size (BlobMetaDesc.desc it) in
  let objList := set_size (getLastOffset size objSize) (getLastObjSize size objSize) objList in
  foldl (λ '(pbytes, ids) obj, if decide (BlobObjInfo.oid obj.2 ∈ ids) then (pbytes, ids)
          else (u64 (pbytes + BlobObjInfo.size obj.2), ids ++ [BlobObjInfo.oid obj.2])) acc (BlobObjList.objs objList).

Definition statVolumePhysical (volId : Z) (disabled : bool) (out : Z * Z) (c : t) : res (Z * Z * fds_errno) :=
  if disabled then Ret (out, ERR_OK) else
  active volId c out (λ v,
    d ← DmPersistVolDB.store v;
    r ← DmPersistVolDB.getAllBlobMetaDesc [] d;
    let '(blobMetaList, rc) := r : list BlobMetaDesc.t * fds_errno in
    if decide (rc ≠ ERR_OK) then Ret (0, 0, rc) else
    r ← blob_objects getLastOffset v blobMetaList (stat_physical (DmPersistVolDB.objSize v)) (0, []);
    let '(pbytes, ids, rc) := r : Z * list (list Z) * fds_errno in
    Ret (pbytes, if decide (rc = ERR_OK) then u64 (Z.of_nat (length ids)) else 0, rc)).

(** [_updateLBytes] *)
Definition updateLBytes (volId : Z) (c : t) : res t :=
  r ← statVolumeLogical volId false (0, 0, 0, 0) c; Ret (r : t * (Z * Z * Z * Z) * fds_errno).1.1.

(** The statistics after a commit: taken from the store the first time, then
    by the difference. *)
Definition update_stats (volId : Z) (bytesAdded bytesRemoved blobsAdded blobsRemoved objectsAdded objectsRemoved : Z) (v : vol) (c : t)
    : res (t * fds_errno) :=
  if negb (DmPersistVolDB.volSummaryInitialized v) then
    r ← statVolumeLogical volId false (0, 0, 0, 0) c;
    let '(c, _, rc) := r : t * (Z * Z * Z * Z) * fds_errno in Ret (c, rc)
  else
    let '(v, rc) := DmPersistVolDB.applyStatDeltas bytesAdded bytesRemoved blobsAdded blobsRemoved objectsAdded objectsRemoved v in
    Ret (with_vol volId v c, rc).

(** ** Updates *)
Definition setVolumeMetadata (ts volId : Z) (metadataList : list (list Z * list Z)) (seq_id : Z) (c : t) : res (t * fds_errno) :=
  active volId c c (λ v, changing volId c (DmPersistVolDB.putVolumeMetaDesc ts (VolumeMetaDesc.make metadataList seq_id) v)).

Definition putBlobMeta (ts volId : Z) (blobName : list Z) (metaList : option (list (list Z * list Z))) (seq_id : Z) (c : t)
    : res (t * fds_errno) :=
  r ← getBlobMetaDesc volId blobName BlobMetaDesc.make c;
  let '(blobMeta, rc) := r : BlobMetaDesc.t * fds_errno in
  if decide (rc = ERR_OK ∨ rc = ERR_CAT_ENTRY_NOT_FOUND) then
    let d := BlobMetaDesc.desc blobMeta in
    let blobMeta := commit_desc blobName (bool_decide (rc = ERR_CAT_ENTRY_NOT_FOUND)) (Z.max (BasicBlobMeta.sequence_id d) seq_id)
                      (BasicBlobMeta.blob_size d) metaList blobMeta in
    checked volId c c (λ v, changing volId c (DmPersistVolDB.putBlobMetaDesc ts blobName blobMeta v))
  else Ret (c, rc).

(** What the loop over the objects of a commit counts: objects added, bytes
    added and bytes removed. *)
Definition count_put (old : BlobObjList.t) (oldLastOffset oldLastObjSize reqLastOffset : Z) (acc : Z * Z * Z)
    (cit : Z * BlobObjInfo.t) : Z * Z * Z :=
  let '(objectsAdded, bytesAdded, bytesRemoved) := acc in
  let size := BlobObjInfo.size cit.2 in
  match OMap.lookup Z.compare cit.1 (BlobObjList.objs old) with
  | None => (u64 (objectsAdded + 1), u64 (bytesAdded + size), bytesRemoved)
  | Some oldInfo =>
      let differ (oldSize : Z) :=
        if decide (oldSize >= size) then (objectsAdded, bytesAdded, u64 (bytesRemoved + (oldSize - size)))
        else (objectsAdded, u64 (bytesAdded + (size - oldSize)), bytesRemoved) in
      if decide (oldLastOffset = cit.1) then differ oldLastObjSize
      else if decide (cit.1 = reqLastOffset) then differ (BlobObjInfo.size oldInfo)
      else acc
  end.

(** The objects past the new end: the offsets to delete and the bytes in them. *)
Definition count_truncated (oldLastOffset oldLastObjSize : Z) (acc : list Z * Z) (i : Z * BlobObjInfo.t) : list Z * Z :=
  if ObjectID.neb ObjectID.make (BlobObjInfo.oid i.2) then
    (acc.1 ++ [i.1], u64 (acc.2 + (if decide (i.1 = oldLastOffset) then oldLastObjSize else BlobObjInfo.size i.2)))
  else acc.

Definition putBlob (ts volId : Z) (blobName : list Z) (metaList : option (list (list Z * list Z))) (blobObjList : BlobObjList.t)
    (seq_id : Z) (c : t) : res (t * fds_errno) :=
  r ← getBlobMetaDesc volId blobName BlobMetaDesc.make c;
  let '(blobMeta, rc) := r : BlobMetaDesc.t * fds_errno in
  if decide (rc ≠ ERR_OK ∧ rc ≠ ERR_CAT_ENTRY_NOT_FOUND) then Ret (c, rc) else
  let newBlob := bool_decide (rc = ERR_CAT_ENTRY_NOT_FOUND) in
  checked volId c c (λ v,
  let objSize := DmPersistVolDB.objSize v in
  rc ← BlobObjList.verify objSize blobObjList;
  if decide (rc ≠ ERR_OK) then Ret (c, rc) else
  match BlobObjList.objs blobObjList with
  | [] => Fault VerifyFailed
  | (reqFirstOffset, _) :: _ =>
      let oldBlobSize := BasicBlobMeta.blob_size (BlobMetaDesc.desc blobMeta) in
      let oldLastObjSize := getLastObjSize oldBlobSize objSize in
      let oldLastOffset := if decide (oldBlobSize ≠ 0) then u64 (oldBlobSize - oldLastObjSize) else 0 in
      let reqLastOffset := BlobObjList.lastOffset blobObjList in
      r ← (if newBlob then Ret (BlobObjList.make, ERR_OK)
           else DmPersistVolDB.getObject_list blobName reqFirstOffset reqLastOffset BlobObjList.make v);
      let '(oldBlobObjList, rc) := r : BlobObjList.t * fds_errno in
      if decide (rc ≠ ERR_OK) then Ret (c, rc) else
      let oldBlobObjList := if negb newBlob && bool_decide (reqFirstOffset ≤ oldLastOffset ∧ reqLastOffset >= oldLastOffset)
                            then set_size oldLastOffset oldLastObjSize oldBlobObjList else oldBlobObjList in
      let '(objectsAdded, bytesAdded, bytesRemoved) :=
        foldl (count_put oldBlobObjList oldLastOffset oldLastObjSize reqLastOffset) (0, 0, 0) (BlobObjList.objs blobObjList) in
      let truncating := BlobObjList.endOfBlob blobObjList && bool_decide (reqLastOffset < oldLastOffset) in
      r ← (if truncating then DmPersistVolDB.getObject_list blobName (u64 (reqLastOffset + objSize)) oldLastOffset BlobObjList.make v
           else Ret (BlobObjList.make, ERR_OK));
      let '(truncateObjList, rc) := r : BlobObjList.t * fds_errno in
      if decide (rc ≠ ERR_OK) then Ret (c, rc) else
      let '(delOffsetList, bytesRemoved) :=
        foldl (count_truncated oldLastOffset oldLastObjSize) ([], bytesRemoved) (BlobObjList.objs truncateObjList) in
      let objectsRemoved := list_size truncateObjList in
      let newLastByte := if BlobObjList.endOfBlob blobObjList || bool_decide (reqLastOffset >= oldLastOffset)
                         then u64 (reqLastOffset + get_size reqLastOffset blobObjList) else oldBlobSize in
      let blobMeta := commit_desc blobName newBlob (Z.max (BasicBlobMeta.sequence_id (BlobMetaDesc.desc blobMeta)) seq_id)
                        newLastByte metaList blobMeta in
      r ← DmPersistVolDB.putBatch ts blobName blobMeta blobObjList delOffsetList v;
      let '(v, rc) := r : vol * fds_errno in
      let c := with_vol volId v c in
      if decide (rc ≠ ERR_OK) then Ret (c, rc) else
      r ← update_stats volId bytesAdded bytesRemoved (if newBlob then 1 else 0) 0 objectsAdded objectsRemoved v c;
      let '(c, rc) := r : t * fds_errno in
      if decide (rc ≠ ERR_OK) then Ret (c, rc) else
      c ← (if ft_newStats c then updateLBytes volId c else Ret c);
      Ret (c, ERR_OK)
  end).

(** The number of objects of a blob of [size] bytes *)
Definition object_count (size objSize : Z) : Z :=
  size / objSize + (if decide (size ≠ 0 ∧ size `mod` objSize ≠ 0) then 1 else 0).

(** [putBlob] with the caller's batch of changes. *)
Definition putBlob_wb (ts volId : Z) (blobName : list Z) (blobSize : Z) (metaList : option (list (list Z * list Z)))
    (wb : list ldb_op) (seq_id : Z) (truncate : bool) (c : t) : res (t * list ldb_op * fds_errno) :=
  r ← getBlobMetaDesc volId blobName BlobMetaDesc.make c;
  let '(blobMeta, rc) := r : BlobMetaDesc.t * fds_errno in
  if decide (rc ≠ ERR_OK ∧ rc ≠ ERR_CAT_ENTRY_NOT_FOUND) then Ret (c, wb, rc) else
  let newBlob := bool_decide (rc = ERR_CAT_ENTRY_NOT_FOUND) in
  checked volId c (c, wb) (λ v,
  let objSize := DmPersistVolDB.objSize v in
  let oldBlobSize := BasicBlobMeta.blob_size (BlobMetaDesc.desc blobMeta) in
  let oldObjCount := u32 (object_count oldBlobSize objSize) in
  let newBlobSize := if decide (oldBlobSize < blobSize) then blobSize else if truncate then blobSize else oldBlobSize in
  let newObjCount := object_count newBlobSize objSize in
  let blobMeta := commit_desc blobName newBlob seq_id newBlobSize metaList blobMeta in
  r ← DmPersistVolDB.putBatch_wb ts blobName blobMeta wb v;
  let '(v, wb, rc) := r : vol * list ldb_op * fds_errno in
  let c := with_vol volId v c in
  if decide (rc ≠ ERR_OK) then Ret (c, wb, rc) else
  r ← update_stats volId newBlobSize oldBlobSize (if newBlob then 1 else 0) 0 newObjCount oldObjCount v c;
  let '(c, rc) := r : t * fds_errno in
  if decide (rc ≠ ERR_OK) then Ret (c, wb, rc) else
  c ← (if ft_newStats c then updateLBytes volId c else Ret c);
  Ret (c, wb, rc)).

(** [ts] gives the times of the rounds of the range and [ts'] the last one. *)
Definition deleteBlob (fuel : nat) (ts : Z → Z) (ts' volId : Z) (blobName : list Z) (c : t) : res (t * fds_errno) :=
  r ← getBlobMetaDesc volId blobName BlobMetaDesc.make c;
  let '(blobMeta, rc) := r : BlobMetaDesc.t * fds_errno in
  if decide (rc ≠ ERR_OK) then Ret (c, rc) else
  checked volId c c (λ v,
  let objSize := DmPersistVolDB.objSize v in
  let blobSize := BasicBlobMeta.blob_size (BlobMetaDesc.desc blobMeta) in
  let lastObjectSize := getLastObjSize blobSize objSize in
  let endOffset := last_or_zero blobSize objSize in
  d ← DmPersistVolDB.store v;
  r ← DmPersistVolDB.getObject_range blobName 0 endOffset [] d v;
  let '(objList, rc) := r : list (Z * Z * list Z) * fds_errno in
  if decide (rc ≠ ERR_OK) then Ret (c, rc) else
  r ← DmPersistVolDB.deleteObject_range fuel ts blobName 0 endOffset v;
  let '(v, rc) := r : vol * fds_errno in
  let c := with_vol volId v c in
  if decide (rc = ERR_OK) then
    r ← DmPersistVolDB.deleteBlobMetaDesc ts' blobName v;
    let v := (r : vol * fds_errno).1 in
    let c := with_vol volId v c in
    let n := Z.of_nat (length objList) in
    let bytesRemoved := u64 (u64 ((n - 1) * objSize) + lastObjectSize) in
    r ← update_stats volId 0 bytesRemoved 0 1 0 n v c;
    let '(c, rc) := r : t * fds_errno in
    if decide (rc ≠ ERR_OK) then Ret (c, rc) else
    c ← (if ft_newStats c then updateLBytes volId c else Ret c);
    Ret (c, rc)
  else Ret (c, rc)).

(** The third result is the sequence id given to the volume, if any;
    [partial] is the one of a descriptor that could not be read. *)
Definition migrateDescriptor (fuel : nat) (ts : Z → Z) (ts' volId : Z) (blobName blobData : list Z) (partial : Z) (c : t)
    : res (t * option Z * fds_errno) :=
  checked volId c (c, None) (λ v,
  if decide (blobName = []) then
    r ← loadSerialized VolumeMetaDesc.read blobData;
    match r : option VolumeMetaDesc.t * fds_errno with
    | (Some newDesc, ERR_OK) => r ← changing volId c (DmPersistVolDB.putVolumeMetaDesc ts' newDesc v); Ret (r.1, None, r.2)
    | (_, err) => Ret (c, None, err)
    end
  else if decide (blobData = []) then
    r ← deleteBlob fuel ts ts' volId blobName c; Ret (r.1, None, r.2)
  else
    d ← DmPersistVolDB.store v;
    r ← DmPersistVolDB.getBlobMetaDesc blobName d;
    let '(old, err) := r : option BlobMetaDesc.t * fds_errno in
    if decide (err ≠ ERR_OK ∧ err ≠ ERR_CAT_ENTRY_NOT_FOUND) then Ret (c, None, err) else
    let fTruncate := bool_decide (err ≠ ERR_CAT_ENTRY_NOT_FOUND) in
    let oldBlob := default BlobMetaDesc.make old in
    r ← loadSerialized BlobMetaDesc.read blobData;
    match r : option BlobMetaDesc.t * fds_errno with
    | (Some newBlob, ERR_OK) =>
        let seq := Some (BasicBlobMeta.sequence_id (BlobMetaDesc.desc newBlob)) in
        let objSize := DmPersistVolDB.objSize v in
        let oldLastOffset := getLastOffset (BasicBlobMeta.blob_size (BlobMetaDesc.desc oldBlob)) objSize in
        let newLastOffset := getLastOffset (BasicBlobMeta.blob_size (BlobMetaDesc.desc newBlob)) objSize in
        r ← (if fTruncate && bool_decide (newLastOffset < oldLastOffset)
             then DmPersistVolDB.deleteObject_range fuel ts blobName (u64 (newLastOffset + objSize)) oldLastOffset v
             else Ret (v, ERR_OK));
        let '(v, err) := r : vol * fds_errno in
        let c := with_vol volId v c in
        if decide (err ≠ ERR_OK) then Ret (c, seq, err) else
        r ← changing volId c (DmPersistVolDB.putBlobMetaDesc ts' blobName newBlob v);
        Ret (r.1, seq, r.2)
    | (Some newBlob, err) => Ret (c, Some (BasicBlobMeta.sequence_id (BlobMetaDesc.desc newBlob)), err)
    | (None, err) => Ret (c, Some partial, err)
    end).

Definition putObject (ts volId : Z) (blobName : list Z) (objs : BlobObjList.t) (c : t) : res (t * fds_errno) :=
  checked volId c c (λ v, changing volId c (DmPersistVolDB.putObject_list ts blobName objs v)).

(** ** The remaining calls *)
Definition getVolume (volId : Z) (c : t) : option vol := volMap c !! volId.

Definition getVolumeSequenceId (volId seq_id : Z) (c : t) : res (Z * fds_errno) :=
  checked volId c seq_id (λ v, d ← DmPersistVolDB.store v; DmPersistVolDB.getLatestSequenceId d).

(** [abortFlag] is not handed on. *)
Definition getAllBlobsWithSequenceId (volId : Z) (blobsSeqId : list (list Z * Z)) (snap : option D) (abortFlag : bool) (c : t)
    : res (list (list Z * Z) * fds_errno) :=
  checked volId c blobsSeqId (λ v,
    d ← match snap with Some d => Ret d | None => DmPersistVolDB.store v end;
    DmPersistVolDB.getAllBlobsWithSequenceId (λ _, false) blobsSeqId d).

Definition getVolumeSnapshot (volId : Z) (snap : option D) (c : t) : res (t * option D * fds_errno) :=
  checked volId c (c, snap) (λ v,
    r ← DmPersistVolDB.getInMemorySnapshot v; Ret (with_vol volId (r : vol * D).1 c, Some r.2, ERR_OK)).

Definition freeVolumeSnapshot (volId : Z) (c : t) : res (t * fds_errno) :=
  match volMap c !! volId with
  | None => Fault NullDeref
  | Some v => Ret (with_vol volId (DmPersistVolDB.freeInMemorySnapshot v) c, ERR_OK)
  end.

(** The identifiers the callback is given *)
Definition forEachObject (volId : Z) (c : t) : res (list (list Z) * fds_errno) :=
  checked volId c [] (λ v, d ← DmPersistVolDB.store v; l ← DmPersistVolDB.forEachObject d; Ret (l, ERR_OK)).

Definition getVersion (volId version : Z) (c : t) : res (Z * fds_errno) :=
  checked volId c version (λ v, Ret (DmPersistVolDB.getVersion v, ERR_OK)).

End DmVolumeCatalog.
End DmVolumeCatalog.
