(* ===== verification/VolumeCatalogSpec.v ===== *)
(** * What the volume catalog promises

    The operations of [DmVolumeCatalog] against the abstract catalog of
    [PersistVolSpec]: what a commit and a deletion leave behind, that a blob is
    read back as it was written, and that the statistics of a volume stay
    those of its blobs. *)

From S2P Require Import Prelude.
From S2P Require Import Serialize.
From S2P Require Import ObjectId.
From S2P Require Import OrderedMap.
From S2P Require Import DmBlobTypes.
From S2P Require Import CatalogKeys.
From S2P Require Import PersistVolDB.
From S2P Require Import PersistVolSpec.
From S2P Require Import PersistVolList.
From S2P Require Import VolumeCatalog.
Open Scope Z_scope.

Notation bsize b := (BasicBlobMeta.blob_size (BlobMetaDesc.desc b)).
Notation bname b := (BasicBlobMeta.blob_name (BlobMetaDesc.desc b)).
Notation bversion b := (BasicBlobMeta.version (BlobMetaDesc.desc b)).
Notation bseq b := (BasicBlobMeta.sequence_id (BlobMetaDesc.desc b)).

(** ** Sizes and offsets *)
Lemma u64_ex z : ∃ k, u64 z = z + k * 18446744073709551616.
Proof. exists (- (z / 18446744073709551616)). unfold u64. pose proof (Z.div_mod z 18446744073709551616 ltac:(lia)). lia. Qed.

Lemma u64_shift z k : u64 (z + k * 18446744073709551616) = u64 z.
Proof. apply Z.mod_add. lia. Qed.

Section Sizes.
Context (size b : Z) (Hsize : 0 < size < 2 ^ 32) (Hb : uint64 b).

Lemma last_size_bounds : 0 < b → 0 < DmVolumeCatalog.getLastObjSize b size ≤ size.
Proof using Hsize.
  intros Hpos. unfold DmVolumeCatalog.getLastObjSize. rewrite decide_False by lia. cbv zeta.
  pose proof (Z.mod_pos_bound b size ltac:(lia)). rewrite u32_small by lia. case_decide; lia.
Qed.

Lemma last_offset_split : DmVolumeCatalog.getLastOffset b size + DmVolumeCatalog.getLastObjSize b size = b.
Proof using Hsize Hb.
  unfold DmVolumeCatalog.getLastOffset. destruct Hb as [H0 H1]. rewrite u64_small; [lia|].
  unfold DmVolumeCatalog.getLastObjSize. case_decide; [lia|]. cbv zeta.
  pose proof (Z.mod_pos_bound b size ltac:(lia)). rewrite u32_small by lia.
  pose proof (Z.mod_le b size ltac:(lia) ltac:(lia)). pose proof (Z.div_mod b size ltac:(lia)) as Hd. case_decide; [lia|].
  assert (b / size ≠ 0) by nia. pose proof (Z.div_pos b size ltac:(lia) ltac:(lia)). nia.
Qed.

Lemma last_offset_index : 0 < b → DmVolumeCatalog.getLastOffset b size = (DmVolumeCatalog.object_count b size - 1) * size.
Proof using Hsize Hb.
  intros Hpos. pose proof last_offset_split as Hs. unfold DmVolumeCatalog.object_count.
  unfold DmVolumeCatalog.getLastObjSize in Hs. rewrite (decide_False (P := b = 0)) in Hs by lia. cbv zeta in Hs.
  pose proof (Z.mod_pos_bound b size ltac:(lia)). rewrite u32_small in Hs by lia.
  pose proof (Z.div_mod b size ltac:(lia)). destruct (decide (b `mod` size = 0)) as [E|E].
  - rewrite decide_False in Hs by lia. rewrite decide_False by lia. nia.
  - rewrite decide_True in Hs by lia. rewrite decide_True by lia. nia.
Qed.

Lemma object_count_pos : 0 < b → 1 ≤ DmVolumeCatalog.object_count b size.
Proof using Hsize.
  intros Hpos. unfold DmVolumeCatalog.object_count. pose proof (Z.div_pos b size ltac:(lia) ltac:(lia)).
  case_decide as Hr; [lia|]. assert (b `mod` size = 0) by (destruct (decide (b `mod` size = 0)); [done|exfalso; apply Hr; lia]).
  pose proof (Z.div_mod b size ltac:(lia)). assert (b / size ≠ 0) by nia. lia.
Qed.

Lemma last_offset_aligned : aligned size (DmVolumeCatalog.getLastOffset b size).
Proof using Hsize Hb.
  unfold aligned. destruct (decide (b = 0)) as [->|].
  - unfold DmVolumeCatalog.getLastOffset, DmVolumeCatalog.getLastObjSize. by rewrite decide_True.
  - destruct Hb. rewrite last_offset_index by lia. apply Z.mod_mul. lia.
Qed.

Lemma last_or_zero_eq : DmVolumeCatalog.last_or_zero b size = DmVolumeCatalog.getLastOffset b size.
Proof using.
  unfold DmVolumeCatalog.last_or_zero, DmVolumeCatalog.getLastOffset, DmVolumeCatalog.getLastObjSize.
  destruct (decide (b = 0)) as [E|E], (decide (b ≠ 0)); try done. by rewrite E.
Qed.

End Sizes.

Section Catalog.
Context {D : Type} {L : LevelDB D} {LL : LevelDBLaws L} {P : TProtocol} {PL : TProtocolLaws P}.
Implicit Types (d : D) (m : list (ckey * list Z)) (s : vcat) (v : DmPersistVolDB.t (D:=D)) (c : DmVolumeCatalog.t (D:=D)).
Implicit Types (b : BlobMetaDesc.t) (req : BlobObjList.t) (name : list Z) (volId : Z).
Import DmVolumeCatalog.

Notation objSize v := (DmPersistVolDB.objSize v).

(** ** Volumes that are open *)
Record opened volId c v s : Prop := {
  op_find : find_vol volId c = Some v;
  op_active : DmPersistVolDB.activated v = true;
  op_size : size_ok v;
  op_holds : holds v s;
}.

(** The descriptor of a blob, and whether there is none or a deleted one. *)
Definition old_blob s name : BlobMetaDesc.t := default BlobMetaDesc.make (c_blobs s !! name).
Definition fresh s name : bool := bool_decide (bversion (old_blob s name) = blob_version_invalid).

(** Blobs the keys of the catalog reach to the end. *)
Definition sizes_ok (size : Z) s : Prop := ∀ n b, c_blobs s !! n = Some b → in_range size (getLastOffset (bsize b) size).

Lemma find_vol_deleted volId c v : find_vol volId c = Some v → DmPersistVolDB.deleted v = false.
Proof. unfold find_vol. destruct (volMap c !! volId) as [w|]; [|done]. destruct (DmPersistVolDB.deleted w) eqn:E; [done|]. by intros [= <-]. Qed.

Lemma find_with_vol volId c v : DmPersistVolDB.deleted v = false → find_vol volId (with_vol volId v c) = Some v.
Proof. intros E. unfold find_vol, with_vol. simpl. by rewrite lookup_insert_eq, E. Qed.

Lemma with_vol_twice volId v w c : with_vol volId v (with_vol volId w c) = with_vol volId v c.
Proof. unfold with_vol. simpl. by rewrite insert_insert_eq. Qed.

Lemma holds_blob v s name b : holds v s → c_blobs s !! name = Some b → blob_ok b ∧ bname b = name.
Proof. intros (d & _ & m & _ & Hr). apply (r_blob_ok _ _ Hr). Qed.

Lemma holds_size v s name : holds v s → uint64 (bsize (old_blob s name)).
Proof.
  intros Hh. unfold old_blob. destruct (c_blobs s !! name) as [b|] eqn:E; [|by split].
  by destruct (holds_blob v s name b Hh E) as [[] _].
Qed.

Lemma holds_version v s name : holds v s → uint64 (bversion (old_blob s name)).
Proof.
  intros Hh. unfold old_blob. destruct (c_blobs s !! name) as [b|] eqn:E; [|by split].
  by destruct (holds_blob v s name b Hh E) as [[] _].
Qed.

Lemma sizes_old size s name : 0 < size → sizes_ok size s → in_range size (getLastOffset (bsize (old_blob s name)) size).
Proof.
  intros Hs H. unfold old_blob. destruct (c_blobs s !! name) as [b|] eqn:E; [by eapply H|].
  split; [done|]. simpl. rewrite Z.div_0_l by lia. done.
Qed.

Lemma getBlobMetaDesc_opened volId c v s name : opened volId c v s →
  getBlobMetaDesc volId name BlobMetaDesc.make c =
    Ret (old_blob s name, if fresh s name then ERR_CAT_ENTRY_NOT_FOUND else ERR_OK) ∨
  getBlobMetaDesc volId name BlobMetaDesc.make c = Ret (BlobMetaDesc.make, ERR_DISK_READ_FAILED).
Proof.
  intros [Hf Ha _ (d & Ed & Hr & _)%holds_store]. unfold getBlobMetaDesc, active, checked. rewrite Hf, Ha, Ed, bind_Ret.
  unfold fresh, old_blob. destruct (read_blob name d s Hr) as [-> | ->]; rewrite bind_Ret; [left|right; reflexivity].
  destruct (c_blobs s !! name) as [b|]; simpl; [|done]. do 2 f_equal. case_bool_decide; [rewrite decide_True by done|rewrite decide_False by naive_solver]; done.
Qed.

(** ** The objects of the blobs of a volume *)
(** The objects of a blob as [getObject] lists them. *)
Definition object_list (size : Z) (l : list (Z * list Z)) : BlobObjList.t :=
  BlobObjList.with_objs ((λ x, (x.1 * size, BlobObjInfo.Make x.2 size)) <$> l) BlobObjList.make.

Definition blob_list (size : Z) m b : BlobObjList.t :=
  object_list size (objects_in (bname b) 0 (getLastOffset (bsize b) size / size) m).

Lemma blob_objects_spec {A} v d m s (f : A → BlobMetaDesc.t → BlobObjList.t → A) bs acc :
  size_ok v → DmPersistVolDB.catalog v = Some d → entries d m → related m s → sizes_ok (objSize v) s →
  Forall (λ b, c_blobs s !! bname b = Some b) bs →
  blob_objects getLastOffset v bs f acc = Ret (foldl (λ acc b, f acc b (blob_list (objSize v) m b)) acc bs, ERR_OK).
Proof.
  intros Hv Hd Hm Hr Hz Hbs. assert (0 < objSize v) as Hs by apply Hv. revert acc.
  induction Hbs as [|b bs Hb _ IH]; intros acc; [done|]. cbn [blob_objects foldl]. cbv zeta.
  destruct (r_blob_ok _ _ Hr _ _ Hb) as [[] _].
  destruct (read_objects (bname b) 0 (getLastOffset (bsize b) (objSize v)) [] v d m s) as [_ ->]; try done.
  - by eapply Hz.
  - by apply last_offset_aligned.
  - rewrite bind_Ret. rewrite decide_False by naive_solver. rewrite IH. by rewrite Z.div_0_l by lia.
Qed.

(** What [statVolumeInternal] computes. *)
Definition stat_values (size : Z) m : Z * Z * Z :=
  foldl (λ acc b, stat_blob size acc b (blob_list size m b)) (0, 0, 0) (blobs_in (λ _, true) m).

Lemma statVolumeInternal_opened volId c v s out : opened volId c v s → sizes_ok (objSize v) s →
  ∃ d m, DmPersistVolDB.catalog v = Some d ∧ entries d m ∧ related m s ∧
    statVolumeInternal volId false out c =
    Ret ((stat_values (objSize v) m).1.1, u64 (Z.of_nat (length (blobs_in (λ _, true) m))), (stat_values (objSize v) m).1.2, out.2, ERR_OK).
Proof.
  intros [Hf Ha Hv (d & Hd & m & Hm & Hr)] Hz. exists d, m. split_and!; try done.
  pose proof (related_loads m s (e_sorted _ _ Hm) Hr) as Hl.
  unfold statVolumeInternal, active, checked. rewrite Hf, Ha. cbv zeta. unfold DmPersistVolDB.store. rewrite Hd, bind_Ret.
  unfold DmPersistVolDB.getAllBlobMetaDesc. rewrite (e_dump _ _ Hm), (all_blobs_loop s), !bind_Ret by done.
  rewrite decide_False by naive_solver. cbv zeta. simpl app.
  rewrite (blob_objects_spec v d m s), bind_Ret; try done.
  - fold (stat_values (objSize v) m). by destruct (stat_values (objSize v) m) as [[? ?] ?].
  - apply Forall_forall. intros b Hb. apply (blobs_in_elem _ _ s) in Hb as [_ ?]; [done|apply Hm|done].
Qed.

(** Statistics a commit leaves: taken from the store the first time. *)
Definition summary_after (size : Z) m v (A R ba br oa or : Z) : DmVolumeSummary.t :=
  if DmPersistVolDB.volSummaryInitialized v then
    let q := DmPersistVolDB.volSummary v in
    DmVolumeSummary.Make true (DmPersistVolDB.apply_delta (DmVolumeSummary.size q) A R)
      (DmPersistVolDB.apply_delta (DmVolumeSummary.blobCount q) ba br) (DmPersistVolDB.apply_delta (DmVolumeSummary.objectCount q) oa or)
  else DmVolumeSummary.Make true (stat_values size m).1.1 (u64 (Z.of_nat (length (blobs_in (λ _, true) m)))) (stat_values size m).1.2.

Lemma update_stats_opened volId c v s A R ba br oa or : opened volId c v s → sizes_ok (objSize v) s →
  ∃ d m, DmPersistVolDB.catalog v = Some d ∧ entries d m ∧ related m s ∧
    update_stats volId A R ba br oa or v c =
    Ret (with_vol volId (DmPersistVolDB.with_summary (summary_after (objSize v) m v A R ba br oa or) v) c, ERR_OK).
Proof.
  intros Ho Hz. destruct (statVolumeInternal_opened volId c v s (0, 0, 0, 0) Ho Hz) as (d & m & Hd & Hm & Hr & E).
  exists d, m. split_and!; try done. unfold update_stats, summary_after.
  destruct (DmPersistVolDB.volSummaryInitialized v) eqn:Ei; cbn [negb].
  - unfold DmPersistVolDB.applyStatDeltas. unfold DmPersistVolDB.volSummaryInitialized in Ei. rewrite Ei. done.
  - unfold statVolumeLogical. rewrite (op_find _ _ _ _ Ho), Ei. cbn [negb]. rewrite E, bind_Ret. cbv beta iota zeta.
    rewrite decide_True by done. unfold DmPersistVolDB.initVolSummary. unfold DmPersistVolDB.volSummaryInitialized in Ei.
    rewrite Ei. rewrite decide_False by naive_solver. by rewrite bind_Ret.
Qed.

Lemma updateLBytes_initialized volId c v : find_vol volId c = Some v → DmPersistVolDB.volSummaryInitialized v = true →
  updateLBytes volId c = Ret c.
Proof.
  intros Hf Hi. unfold updateLBytes, statVolumeLogical. rewrite Hf, Hi. cbn [negb]. rewrite bind_Ret. cbv zeta.
  by destruct (DmPersistVolDB.getVolSummary v).
Qed.

(** The end of a commit and of a deletion. *)
Lemma finish_opened volId c v s A R ba br oa or : opened volId c v s → sizes_ok (objSize v) s →
  ∃ d m, DmPersistVolDB.catalog v = Some d ∧ entries d m ∧ related m s ∧
    let v' := DmPersistVolDB.with_summary (summary_after (objSize v) m v A R ba br oa or) v in
    opened volId (with_vol volId v' c) v' s ∧
    update_stats volId A R ba br oa or v c = Ret (with_vol volId v' c, ERR_OK) ∧
    (if ft_newStats (with_vol volId v' c) then updateLBytes volId (with_vol volId v' c) else Ret (with_vol volId v' c)) =
      Ret (with_vol volId v' c).
Proof.
  intros Ho Hz. destruct (update_stats_opened volId c v s A R ba br oa or Ho Hz) as (d & m & Hd & Hm & Hr & E).
  exists d, m. split_and!; try done. intros v'.
  assert (find_vol volId (with_vol volId v' c) = Some v') as Hf by (apply find_with_vol, (find_vol_deleted _ _ _ (op_find _ _ _ _ Ho))).
  assert (opened volId (with_vol volId v' c) v' s) as Ho' by (split; [done|apply Ho|apply Ho|by exists d; split; [|exists m]]).
  split; [done|]. split; [exact E|].
  destruct (ft_newStats _); [|done]. rewrite (updateLBytes_initialized _ _ v'); [done|done|].
  unfold v', summary_after. by destruct (DmPersistVolDB.volSummaryInitialized v).
Qed.

(** ** A commit *)
(** Objects a commit may write. *)
Record request_ok (size : Z) req : Prop := {
  rq_sorted : OMap.sorted Z.compare (BlobObjList.objs req);
  rq_some : BlobObjList.objs req ≠ [];
  rq_entry x : x ∈ BlobObjList.objs req → in_range size x.1 ∧ aligned size x.1 ∧
    length (BlobObjInfo.oid x.2) = 20%nat ∧ 0 ≤ BlobObjInfo.size x.2 ≤ size;
}.

Definition first_offset req : Z := match BlobObjList.objs req with x :: _ => x.1 | [] => 0 end.
Notation last_offset req := (BlobObjList.lastOffset req).

Section Plan.
Context (size : Z) (s : vcat) (m : list (ckey * list Z)) (name : list Z) (req : BlobObjList.t).

Definition old_size : Z := bsize (old_blob s name).
Definition old_last : Z := getLastOffset old_size size.

(** The last byte of the blob after the commit. *)
Definition new_size : Z :=
  if BlobObjList.endOfBlob req || bool_decide (last_offset req >= old_last)
  then u64 (last_offset req + get_size (last_offset req) req) else old_size.

Definition put_desc (metaList : option (list (list Z * list Z))) (seq : Z) : BlobMetaDesc.t :=
  commit_desc name (fresh s name) (Z.max (bseq (old_blob s name)) seq) new_size metaList (old_blob s name).

(** The objects the blob had where the commit writes. *)
Definition old_list : BlobObjList.t :=
  let l := if fresh s name then BlobObjList.make
           else object_list size (objects_in name (first_offset req / size) (last_offset req / size) m) in
  if negb (fresh s name) && bool_decide (first_offset req ≤ old_last ∧ last_offset req >= old_last)
  then set_size old_last (getLastObjSize old_size size) l else l.

(** The objects past the new end. *)
Definition truncating : bool := BlobObjList.endOfBlob req && bool_decide (last_offset req < old_last).
Definition cut_objects : list (Z * list Z) :=
  if truncating then objects_in name (last_offset req / size + 1) (old_last / size) m else [].

Definition put_counts : Z * Z * Z :=
  foldl (count_put old_list old_last (getLastObjSize old_size size) (last_offset req)) (0, 0, 0) (BlobObjList.objs req).
Definition cut_counts : list Z * Z :=
  foldl (count_truncated old_last (getLastObjSize old_size size)) ([], put_counts.2) (BlobObjList.objs (object_list size cut_objects)).

End Plan.

Lemma verify_from_ok size l : 0 < size → (∀ x, x ∈ l → aligned size x.1 ∧ BlobObjInfo.size x.2 ≤ size) →
  BlobObjList.verify_from size l = Ret ERR_OK.
Proof.
  intros Hs. induction l as [|x l IH]; intros Hl; [done|]. cbn [BlobObjList.verify_from]. rewrite decide_False by lia.
  destruct (Hl x ltac:(by left)) as [Ha Hx]. unfold aligned in Ha. rewrite decide_False by lia. apply IH. intros y Hy. apply Hl. by right.
Qed.

Lemma verify_request size req : 0 < size → request_ok size req → BlobObjList.verify size req = Ret ERR_OK.
Proof.
  intros Hs [_ Hn He]. unfold BlobObjList.verify. destruct (BlobObjList.objs req) as [|x l] eqn:E; [done|]. rewrite <-E in *.
  apply verify_from_ok; [done|]. intros y Hy. rewrite elem_of_reverse in Hy. destruct (He y Hy) as (_ & ? & _ & ?). split; [done|lia].
Qed.

Lemma last_offset_elem size req : request_ok size req → ∃ i, (last_offset req, i) ∈ BlobObjList.objs req.
Proof.
  intros [_ Hn _]. unfold BlobObjList.lastOffset. destruct (last (BlobObjList.objs req)) as [[o i]|] eqn:E.
  - exists i. by apply last_Some_elem_of.
  - by apply last_None in E.
Qed.

Lemma first_offset_elem size req : request_ok size req → ∃ i, (first_offset req, i) ∈ BlobObjList.objs req.
Proof.
  intros [_ Hn _]. unfold first_offset. destruct (BlobObjList.objs req) as [|[o i] l]; [done|]. exists i. by left.
Qed.

(** The offsets a truncation deletes. *)
Lemma cut_counts_dels size s m name req : (cut_counts size s m name req).1 =
  (λ x, x.1 * size) <$> filter (λ x, ObjectID.neb ObjectID.make x.2 = true) (cut_objects size s m name req).
Proof.
  unfold cut_counts, object_list, BlobObjList.with_objs. cbn [BlobObjList.objs]. generalize (put_counts size s m name req).2.
  assert (∀ l acc, (foldl (count_truncated (old_last size s name) (getLastObjSize (old_size s name) size)) acc
    ((λ x : Z * list Z, (x.1 * size, BlobObjInfo.Make x.2 size)) <$> l)).1 =
    acc.1 ++ ((λ x, x.1 * size) <$> filter (λ x, ObjectID.neb ObjectID.make x.2 = true) l)) as Hl.
  { induction l as [|x l IH]; intros acc; [simpl; by rewrite app_nil_r|]. rewrite fmap_cons. cbn [foldl]. rewrite IH. rewrite filter_cons.
    unfold count_truncated. cbn [fst snd BlobObjInfo.oid BlobObjInfo.size]. destruct (ObjectID.neb ObjectID.make x.2).
    - rewrite (decide_True (P := true = true)) by done. rewrite fmap_cons. cbn [fst]. by rewrite <-app_assoc.
    - by rewrite decide_False. }
  intros z. by rewrite Hl.
Qed.

Lemma cut_range size s m name req x : 0 < size → request_ok size req → in_range size (old_last size s name) →
  x ∈ (cut_counts size s m name req).1 → in_range size x ∧ aligned size x.
Proof.
  intros Hs Hq [H0 H1] Hx. rewrite cut_counts_dels in Hx. apply list_elem_of_fmap in Hx as ([i o] & -> & [_ Hx]%list_elem_of_filter).
  unfold cut_objects in Hx. destruct (truncating size s name req); [|by apply elem_of_nil in Hx].
  apply list_elem_of_omap in Hx as (y & _ & [_ Hi]%pick_object_Some). simpl in *.
  destruct (last_offset_elem size req Hq) as [z Hz]. destruct (rq_entry _ _ Hq _ Hz) as ([Hl _] & _).
  simpl in Hl. pose proof (Z.div_pos (last_offset req) size Hl Hs).
  split; [split; [nia|rewrite Z.div_mul by lia; lia]|]. unfold aligned. apply Z.mod_mul. lia.
Qed.

Lemma fresh_code (f : bool) :
  bool_decide ((if f then ERR_CAT_ENTRY_NOT_FOUND else ERR_OK) = ERR_CAT_ENTRY_NOT_FOUND) = f.
Proof. by destruct f. Qed.

Lemma put_desc_name size v s name req metaList seq : holds v s → bname (put_desc size s name req metaList seq) = name.
Proof.
  intros Hh. unfold put_desc, commit_desc. simpl. unfold fresh, old_blob. destruct (c_blobs s !! name) as [b|] eqn:E; [|done].
  destruct (holds_blob v s name b Hh E) as [_ Hn]. by destruct (bool_decide _).
Qed.

(** The reads of [putBlob]. *)
Lemma read_old volId c v d m s name req : opened volId c v s → DmPersistVolDB.catalog v = Some d → entries d m → related m s →
  request_ok (objSize v) req →
  (if fresh s name then Ret (BlobObjList.make, ERR_OK)
   else DmPersistVolDB.getObject_list name (first_offset req) (last_offset req) BlobObjList.make v) =
  Ret (if fresh s name then BlobObjList.make
       else object_list (objSize v) (objects_in name (first_offset req / objSize v) (last_offset req / objSize v) m), ERR_OK).
Proof.
  intros Ho Hd Hm Hr Hq. destruct (fresh s name); [done|].
  destruct (first_offset_elem _ _ Hq) as [fi Hfi]. destruct (last_offset_elem _ _ Hq) as [li Hli].
  destruct (rq_entry _ _ Hq _ Hfi) as (? & ? & _). destruct (rq_entry _ _ Hq _ Hli) as (? & ? & _).
  by apply (read_objects name _ _ [] v d m s); [apply Ho|..].
Qed.

Lemma read_cut volId c v d m s name req : opened volId c v s → DmPersistVolDB.catalog v = Some d → entries d m → related m s →
  sizes_ok (objSize v) s → request_ok (objSize v) req →
  (if truncating (objSize v) s name req
   then DmPersistVolDB.getObject_list name (u64 (last_offset req + objSize v)) (old_last (objSize v) s name) BlobObjList.make v
   else Ret (BlobObjList.make, ERR_OK)) = Ret (object_list (objSize v) (cut_objects (objSize v) s m name req), ERR_OK).
Proof.
  intros Ho Hd Hm Hr Hz Hq. unfold cut_objects. destruct (truncating _ _ _ _) eqn:Et; [|done].
  apply andb_true_iff in Et as [_ Et%bool_decide_eq_true]. pose proof (op_size _ _ _ _ Ho) as Hv. assert (0 < objSize v) as Hs by apply Hv.
  destruct (last_offset_elem _ _ Hq) as [li Hli]. destruct (rq_entry _ _ Hq _ Hli) as ([Hl0 Hl1] & Hla & _). simpl in Hl0, Hl1, Hla.
  pose proof (sizes_old (objSize v) s name Hs Hz) as Hor. fold (old_size s name) in Hor. fold (old_last (objSize v) s name) in Hor.
  pose proof (last_offset_aligned (objSize v) _ Hv (holds_size _ _ name (op_holds _ _ _ _ Ho))) as Hoa.
  fold (old_size s name) in Hoa. fold (old_last (objSize v) s name) in Hoa.
  rewrite (next_offset (objSize v) (last_offset req) (old_last (objSize v) s name) Hv ltac:(lia) Hor).
  assert ((last_offset req + objSize v) / objSize v = last_offset req / objSize v + 1) as Ed.
  { replace (last_offset req + objSize v) with (last_offset req + 1 * objSize v) by lia. apply Z.div_add. lia. }
  destruct (read_objects name (last_offset req + objSize v) (old_last (objSize v) s name) [] v d m s) as [_ ->]; try done.
  - split; [lia|]. rewrite Ed. destruct Hor as [_ Hor]. unfold aligned in Hla, Hoa.
    apply Z.div_exact in Hla, Hoa; [|lia..]. nia.
  - unfold aligned in *. rewrite <-Zplus_mod_idemp_l, Hla. simpl. apply Z.mod_same. lia.
  - by rewrite Ed.
Qed.

(** What [putBlob] does up to its write. *)
Lemma putBlob_commit ts volId name metaList req seq c v s : opened volId c v s → sizes_ok (objSize v) s →
  DmPersistVolDB.op_allowed v = true → request_ok (objSize v) req →
  blob_ok (put_desc (objSize v) s name req metaList seq) →
  putBlob ts volId name metaList req seq c = Ret (c, ERR_DISK_READ_FAILED) ∨
  ∃ d m v' rc, DmPersistVolDB.catalog v = Some d ∧ entries d m ∧ related m s ∧
    updated (effect (objSize v) (PutBatch name (put_desc (objSize v) s name req metaList seq) req
      (cut_counts (objSize v) s m name req).1)) v v' rc s ∧
    putBlob ts volId name metaList req seq c =
      if decide (rc ≠ ERR_OK) then Ret (with_vol volId v' c, rc) else
      r ← update_stats volId (put_counts (objSize v) s m name req).1.2 (cut_counts (objSize v) s m name req).2
            (if fresh s name then 1 else 0) 0 (put_counts (objSize v) s m name req).1.1
            (list_size (object_list (objSize v) (cut_objects (objSize v) s m name req))) v' (with_vol volId v' c);
      let '(c, rc) := r : t * fds_errno in
      if decide (rc ≠ ERR_OK) then Ret (c, rc) else
      c ← (if ft_newStats c then updateLBytes volId c else Ret c);
      Ret (c, ERR_OK).
Proof.
  intros Ho Hz Ha Hq Hb. pose proof Ho as [Hf Hact Hv (d & Hd & m & Hm & Hr)]. assert (0 < objSize v) as Hs by apply Hv.
  pose proof (sizes_old (objSize v) s name Hs Hz) as Hor.
  unfold putBlob. destruct (getBlobMetaDesc_opened volId c v s name Ho) as [-> | ->]; rewrite bind_Ret; [right|by left].
  rewrite decide_False by (destruct (fresh s name); naive_solver). cbv zeta. unfold checked. rewrite Hf, (verify_request _ _ Hs Hq), bind_Ret.
  rewrite decide_False by naive_solver.
  destruct (BlobObjList.objs req) as [|[fo fi] l] eqn:El; [by destruct (rq_some _ _ Hq)|]. rewrite <-El.
  assert (fo = first_offset req) as -> by (unfold first_offset; by rewrite El). clear El.
  rewrite fresh_code, (read_old volId c v d m s), bind_Ret by done. rewrite decide_False by naive_solver.
  fold (last_or_zero (bsize (old_blob s name)) (objSize v)). rewrite last_or_zero_eq.
  fold (old_size s name). fold (old_last (objSize v) s name).
  fold (old_list (objSize v) s m name req). fold (put_counts (objSize v) s m name req).
  destruct (put_counts (objSize v) s m name req) as [[oa A] R] eqn:Ep.
  fold (truncating (objSize v) s name req). rewrite (read_cut volId c v d m s), bind_Ret by done. rewrite decide_False by naive_solver.
  pose proof (eq_refl : cut_counts (objSize v) s m name req = _) as Ec. unfold cut_counts in Ec at 2. rewrite Ep in Ec. cbn [snd] in Ec.
  rewrite <-Ec. destruct (cut_counts (objSize v) s m name req) as [dels R'] eqn:Ed. fold (new_size (objSize v) s name req).
  fold (put_desc (objSize v) s name req metaList seq).
  destruct (exec_updated (λ _, ts) (PutBatch name (put_desc (objSize v) s name req metaList seq) req dels) v s) as (v' & rc & E & Hu);
    [done| |done|by exists d; split; [|exists m]|].
  - split_and!; [split; [done|by eapply put_desc_name, op_holds]| |].
    + apply Forall_forall. intros x Hx. by destruct (rq_entry _ _ Hq _ Hx) as (? & ? & ? & _).
    + apply Forall_forall. intros x Hx. apply (cut_range _ s m name req); [done..|]. by rewrite Ed.
  - exists d, m, v', rc. split_and!; try done. + by rewrite Ed.
    + simpl in E. by rewrite E, bind_Ret, Ep, Ed.
Qed.


(** ** What a commit leaves *)
Lemma apply_object_changes size name l s : 0 < size → OMap.sorted Z.compare l → (∀ x, x ∈ l → aligned size x.1) →
  let s' := apply_changes s (object_changes size name l) in
  c_volume s' = c_volume s ∧ c_blobs s' = c_blobs s ∧ ∀ n i, c_objects s' !! (n, i) =
    match (if decide (n = name) then OMap.lookup Z.compare (i * size) l else None) with
    | Some x => Some (BlobObjInfo.oid x) | None => c_objects s !! (n, i) end.
Proof.
  intros Hs. revert s. induction l as [|[o x] l IH]; intros s Hl Ha; [split_and!; [done..|]; intros n i; by case_decide|].
  apply (OMap.sorted_cons Z.compare) in Hl as [Hl Hx].
  destruct (IH (apply_change s (CObject name (o / size) (BlobObjInfo.oid x))) Hl) as (H1 & H2 & H3); [intros y Hy; apply Ha; by right|].
  split; [exact H1|]. split; [exact H2|]. intros n i. etrans; [apply H3|]. clear H1 H2 H3 IH. cbn [apply_change c_objects].
  pose proof (Ha (o, x) ltac:(by left)) as Ho. unfold aligned in Ho. simpl in Ho. apply Z.div_exact in Ho; [|lia].
  destruct (decide (n = name)) as [->|Hn]; [|by rewrite lookup_insert_ne by congruence]. cbn [OMap.lookup].
  destruct (Z.compare_spec (i * size) o) as [E|E|E].
  - rewrite (OMap.lookup_below Z.compare) by (intros y Hy; rewrite E; by apply Hx).
    assert (i = o / size) as -> by nia. by rewrite lookup_insert_eq.
  - rewrite (OMap.lookup_below Z.compare).
    + by rewrite lookup_insert_ne by (intros [= ?]; nia).
    + intros y Hy. apply Hx in Hy. simpl in Hy. rewrite Z.compare_lt_iff in *. lia.
  - by rewrite (lookup_insert_ne _ (name, o / size)) by (intros [= ?]; nia).
Qed.

Lemma apply_object_deletes size name dels s : 0 < size → Forall (aligned size) dels →
  let s' := apply_changes s ((λ o, CNoObject name (o / size)) <$> dels) in
  c_volume s' = c_volume s ∧ c_blobs s' = c_blobs s ∧ ∀ n i, c_objects s' !! (n, i) =
    if decide (n = name ∧ i * size ∈ dels) then None else c_objects s !! (n, i).
Proof.
  intros Hs Hd. revert s. induction Hd as [|o dels Ho _ IH]; intros s; [split_and!; [done..|]; intros n i; by rewrite decide_False by set_solver|].
  destruct (IH (apply_change s (CNoObject name (o / size)))) as (H1 & H2 & H3).
  split; [exact H1|]. split; [exact H2|]. intros n i. etrans; [apply H3|]. clear H1 H2 H3 IH. cbn [apply_change c_objects].
  unfold aligned in Ho. apply Z.div_exact in Ho; [|lia].
  destruct (decide ((n, i) = (name, o / size))) as [[= -> ->]|Hne].
  - rewrite lookup_delete_eq, (decide_True (P := name = name ∧ o / size * size ∈ o :: dels)); [by case_decide|].
    split; [done|]. rewrite elem_of_cons. left. lia.
  - rewrite lookup_delete_ne by congruence. case_decide as H1; case_decide as H2; try done; exfalso.
    + apply H2. destruct H1. split; [done|by right].
    + destruct H2 as [-> [E|?]%elem_of_cons]; [|by apply H1]. apply Hne. f_equal. nia.
Qed.

(** What a commit makes of an object of the blob. *)
Definition put_object (size : Z) s name req (i : Z) : option (list Z) :=
  match OMap.lookup Z.compare (i * size) (BlobObjList.objs req) with
  | Some x => Some (BlobObjInfo.oid x)
  | None =>
      match c_objects s !! (name, i) with
      | Some oid => if truncating size s name req && ObjectID.neb ObjectID.make oid &&
                       bool_decide (last_offset req < i * size ≤ old_last size s name) then None else Some oid
      | None => None
      end
  end.

Record committed (size : Z) name metaList req seq s s' : Prop := {
  cm_volume : c_volume s' = c_volume s;
  cm_blobs : c_blobs s' = <[name := put_desc size s name req metaList seq]> (c_blobs s);
  cm_objects n i : c_objects s' !! (n, i) = if decide (n = name) then put_object size s name req i else c_objects s !! (n, i);
}.

Lemma above_last size req x : request_ok size req → x ∈ BlobObjList.objs req → x.1 ≤ last_offset req.
Proof.
  intros [Hs _ _] Hx. unfold BlobObjList.lastOffset. destruct (BlobObjList.objs req) as [|y l _] using rev_ind; [by apply elem_of_nil in Hx|].
  rewrite last_snoc. apply elem_of_app in Hx as [Hx|Hx%list_elem_of_singleton]; [|by rewrite Hx].
  apply (OMap.sorted_app Z.compare) in Hs as (_ & _ & Hs). specialize (Hs x y Hx ltac:(by left)). rewrite Z.compare_lt_iff in Hs. lia.
Qed.

Lemma cut_counts_elem size s m name req i : 0 < size → OMap.sorted ckey_cmp m → related m s → request_ok size req →
  aligned size (old_last size s name) →
  i * size ∈ (cut_counts size s m name req).1 ↔
  ∃ oid, c_objects s !! (name, i) = Some oid ∧ truncating size s name req = true ∧ ObjectID.neb ObjectID.make oid = true ∧
    last_offset req < i * size ≤ old_last size s name.
Proof.
  intros Hs Hm Hr Hq Ha. destruct (last_offset_elem _ _ Hq) as [li Hli]. destruct (rq_entry _ _ Hq _ Hli) as (_ & Hla & _).
  unfold aligned in *. simpl in Hla. apply Z.div_exact in Ha, Hla; [|lia..].
  rewrite cut_counts_dels, list_elem_of_fmap. unfold cut_objects. split.
  - intros ([j oid] & Ej & [Hn Hx]%list_elem_of_filter). simpl in Ej, Hn. assert (j = i) as -> by nia.
    destruct (truncating size s name req); [|by apply elem_of_nil in Hx].
    apply objects_in_elem in Hx as [Hi Hx]; [|done]. rewrite (r_object _ _ Hr) in Hx. exists oid. split_and!; try done; nia.
  - intros (oid & Ho & -> & Hn & Hi). exists (i, oid). split; [done|]. apply list_elem_of_filter. split; [done|].
    apply objects_in_elem; [done|]. rewrite (r_object _ _ Hr). split; [nia|done].
Qed.

Lemma put_committed volId c v d m s name metaList req seq : opened volId c v s → entries d m → related m s →
  sizes_ok (objSize v) s → request_ok (objSize v) req →
  committed (objSize v) name metaList req seq s
    (apply_changes s (effect (objSize v) (PutBatch name (put_desc (objSize v) s name req metaList seq) req
      (cut_counts (objSize v) s m name req).1))).
Proof.
  intros Ho Hm Hr Hz Hq. pose proof (op_size _ _ _ _ Ho) as Hv. assert (0 < objSize v) as Hs by apply Hv.
  pose proof (holds_size _ _ name (op_holds _ _ _ _ Ho)) as Hu. pose proof (last_offset_aligned (objSize v) _ Hv Hu) as Hoa.
  pose proof (sizes_old (objSize v) s name Hs Hz) as Hor. simpl. rewrite !apply_changes_app.
  destruct (apply_object_changes (objSize v) name (BlobObjList.objs req) s) as (H1 & H2 & H3);
    [done|apply Hq|intros x Hx; by apply (rq_entry _ _ Hq)|].
  set (s1 := apply_changes s (object_changes _ _ _)) in *.
  destruct (apply_object_deletes (objSize v) name (cut_counts (objSize v) s m name req).1 s1) as (H4 & H5 & H6); [done| |].
  { apply Forall_forall. intros x Hx. by apply (cut_range _ s m name req). }
  set (s2 := apply_changes s1 _) in *. split; simpl; [congruence|by rewrite H5, H2|]. intros n i. rewrite H6, H3.
  destruct (decide (n = name)) as [->|Hn]; [|by rewrite decide_False by naive_solver]. unfold put_object.
  pose proof (cut_counts_elem (objSize v) s m name req i Hs (e_sorted _ _ Hm) Hr Hq Hoa) as Hc.
  destruct (OMap.lookup Z.compare (i * objSize v) (BlobObjList.objs req)) as [x|] eqn:El.
  - rewrite decide_False; [done|]. rewrite Hc. intros [_ (oid & _ & _ & _ & Hi & _)].
    apply (OMap.lookup_elem Z.compare) in El; [|apply Hq]. apply (above_last _ _ _ Hq) in El. simpl in El. lia.
  - destruct (c_objects s !! (name, i)) as [oid|] eqn:Eo; [|by case_decide].
    destruct (truncating _ _ _ _ && _ && _) eqn:Et.
    + rewrite decide_True; [done|]. split; [done|]. apply Hc. exists oid.
      apply andb_true_iff in Et as [[? ?]%andb_true_iff ?%bool_decide_eq_true]. done.
    + rewrite decide_False; [done|]. rewrite Hc. intros [_ (oid' & [= <-] & Ht & Hn & Hi)].
      rewrite Ht, Hn, bool_decide_eq_true_2 in Et by done. done.
Qed.

(** The size a commit gives to a blob. *)
Lemma get_size_last size req : request_ok size req →
  0 ≤ get_size (last_offset req) req ≤ size ∧ (last_offset req, get_size (last_offset req) req) ∈
    ((λ x, (x.1, BlobObjInfo.size x.2)) <$> BlobObjList.objs req).
Proof.
  intros Hq. destruct (last_offset_elem _ _ Hq) as [li Hli]. unfold get_size.
  rewrite (proj2 (OMap.lookup_elem Z.compare (last_offset req) li _ (rq_sorted _ _ Hq)) Hli). simpl. split.
  - by destruct (rq_entry _ _ Hq _ Hli) as (_ & _ & _ & ?).
  - apply list_elem_of_fmap. by exists (last_offset req, li).
Qed.

Lemma new_end_eq size req : 0 < size < 2 ^ 32 → request_ok size req →
  u64 (last_offset req + get_size (last_offset req) req) = last_offset req + get_size (last_offset req) req ∧
  uint64 (last_offset req + get_size (last_offset req) req).
Proof.
  intros Hs Hq. destruct (last_offset_elem _ _ Hq) as [li Hli]. destruct (rq_entry _ _ Hq _ Hli) as (Hr & _). simpl in Hr.
  destruct (get_size_last _ _ Hq) as [Hg _]. pose proof (next_offset size (last_offset req) (last_offset req) Hs) as Hn.
  destruct Hr as [Hr0 Hr1]. specialize (Hn ltac:(lia) (conj Hr0 Hr1)).
  pose proof (Z.mod_pos_bound (last_offset req + size) 18446744073709551616 ltac:(lia)) as Hm. unfold u64 in Hn. rewrite Hn in Hm.
  assert (uint64 (last_offset req + get_size (last_offset req) req)) by (unfold uint64, uint64_max; lia).
  split; [|done]. by apply u64_small.
Qed.

Lemma getLastOffset_range size (b k : Z) : 0 < size < 2 ^ 32 → uint64 b → in_range size k → aligned size k → b ≤ k + size →
  in_range size (getLastOffset b size).
Proof.
  intros Hs Hb [Hk0 Hk1] Ha Hle. destruct (decide (b = 0)) as [->|].
  { split; [done|]. unfold getLastOffset, getLastObjSize. rewrite decide_True by done. change (u64 (0 - 0)) with 0. rewrite Z.div_0_l by lia. done. }
  assert (0 < b) as Hp by (destruct Hb; lia). pose proof (last_offset_split size b Hs Hb) as E. pose proof (last_size_bounds size b Hs Hp).
  pose proof (last_offset_aligned size b Hs Hb) as Hal. pose proof (last_offset_index size b Hs Hb Hp) as Hi.
  pose proof (object_count_pos size b Hs Hp). unfold aligned in *. apply Z.div_exact in Ha; [|lia].
  rewrite Hi in *. split; [nia|]. rewrite Z.div_mul by lia. nia.
Qed.

Lemma committed_sizes volId c v s s' name metaList req seq : opened volId c v s → sizes_ok (objSize v) s →
  request_ok (objSize v) req → committed (objSize v) name metaList req seq s s' → sizes_ok (objSize v) s'.
Proof.
  intros Ho Hz Hq Hc n b Hb. pose proof (op_size _ _ _ _ Ho) as Hv. assert (0 < objSize v) as Hs by apply Hv.
  rewrite (cm_blobs _ _ _ _ _ _ _ Hc) in Hb. apply lookup_insert_Some in Hb as [[<- <-]|[_ Hb]]; [|by eapply Hz]. simpl.
  unfold new_size. destruct (BlobObjList.endOfBlob req || _).
  - destruct (new_end_eq _ _ Hv Hq) as [-> Hu]. destruct (last_offset_elem _ _ Hq) as [li Hli].
    destruct (rq_entry _ _ Hq _ Hli) as (Hr & Ha & _). destruct (get_size_last _ _ Hq) as [Hg _].
    apply (getLastOffset_range _ _ (last_offset req)); try done. lia.
  - by apply sizes_old.
Qed.

(** The outcomes of a commit, with the volume it leaves. *)
Lemma putBlob_done ts volId name metaList req seq c v s : opened volId c v s → sizes_ok (objSize v) s →
  DmPersistVolDB.op_allowed v = true → request_ok (objSize v) req → blob_ok (put_desc (objSize v) s name req metaList seq) →
  putBlob ts volId name metaList req seq c = Ret (c, ERR_DISK_READ_FAILED) ∨
  (∃ w, putBlob ts volId name metaList req seq c = Ret (with_vol volId w c, ERR_DISK_WRITE_FAILED)) ∨
  ∃ d m d' m' s', DmPersistVolDB.catalog v = Some d ∧ entries d m ∧ related m s ∧ entries d' m' ∧ related m' s' ∧
    committed (objSize v) name metaList req seq s s' ∧ sizes_ok (objSize v) s' ∧
    let v' := DmPersistVolDB.with_summary (summary_after (objSize v) m' v (put_counts (objSize v) s m name req).1.2
      (cut_counts (objSize v) s m name req).2 (if fresh s name then 1 else 0) 0 (put_counts (objSize v) s m name req).1.1
      (list_size (object_list (objSize v) (cut_objects (objSize v) s m name req)))) (DmPersistVolDB.with_catalog d' v) in
    opened volId (with_vol volId v' c) v' s' ∧ putBlob ts volId name metaList req seq c = Ret (with_vol volId v' c, ERR_OK).
Proof.
  intros Ho Hz Ha Hq Hb.
  destruct (putBlob_commit ts volId name metaList req seq c v s Ho Hz Ha Hq Hb) as [->|(d & m & v1 & rc & Hd & Hm & Hr & Hu & ->)];
    [by left|right].
  destruct Hu as [[[-> Hh]| ->] [d1 ->]]; [rewrite (decide_False (P := ERR_OK ≠ ERR_OK)) by naive_solver; right|].
  2: { rewrite decide_True by done. left. by eexists. }
  pose proof (put_committed volId c v d m s name metaList req seq Ho Hm Hr Hz Hq) as Hc. set (s1 := apply_changes _ _) in *.
  pose proof Ho as [Hf Hact Hv Hho]. set (v1 := DmPersistVolDB.with_catalog d1 v) in *.
  assert (opened volId (with_vol volId v1 c) v1 s1) as Ho1.
  { split; [apply find_with_vol, (find_vol_deleted _ _ _ Hf)|done..]. }
  assert (sizes_ok (objSize v1) s1) as Hz1 by (by eapply (committed_sizes volId c v)).
  destruct (finish_opened volId (with_vol volId v1 c) v1 s1 (put_counts (objSize v) s m name req).1.2
    (cut_counts (objSize v) s m name req).2 (if fresh s name then 1 else 0) 0 (put_counts (objSize v) s m name req).1.1
    (list_size (object_list (objSize v) (cut_objects (objSize v) s m name req))) Ho1 Hz1) as (d2 & m2 & Hd2 & Hm2 & Hr2 & Ho2 & E1 & E2).
  rewrite with_vol_twice in *. rewrite E1, bind_Ret. rewrite decide_False by naive_solver. rewrite E2, bind_Ret. injection Hd2 as <-. exists d, m, d1, m2, s1. split_and!; done.
Qed.

(** C22. A commit on a volume that is open and not read-only: it returns, and
    either the store refused a read or the write, or the blob has its new
    descriptor and the objects the request gives, and the objects of the blob
    past its new end are gone when the request ends the blob, except null
    objects, which stay.  Other blobs, other volumes and the descriptor of the
    volume do not change. *)
Theorem putBlob_spec (ts : Z) volId name (metaList : option (list (list Z * list Z))) req (seq : Z) c v s :
  opened volId c v s → sizes_ok (objSize v) s → DmPersistVolDB.op_allowed v = true → request_ok (objSize v) req →
  blob_ok (put_desc (objSize v) s name req metaList seq) →
  ∃ c' rc, putBlob ts volId name metaList req seq c = Ret (c', rc) ∧
    (∀ k, k ≠ volId → volMap c' !! k = volMap c !! k) ∧
    (rc = ERR_DISK_READ_FAILED ∨ rc = ERR_DISK_WRITE_FAILED ∨
     rc = ERR_OK ∧ ∃ v' s', opened volId c' v' s' ∧ sizes_ok (objSize v') s' ∧ committed (objSize v) name metaList req seq s s').
Proof.
  intros Ho Hz Ha Hq Hb.
  assert (∀ k w, k ≠ volId → volMap (with_vol volId w c) !! k = volMap c !! k) as Hk by (intros; by apply lookup_insert_ne).
  destruct (putBlob_done ts volId name metaList req seq c v s Ho Hz Ha Hq Hb)
    as [->|[[w ->]|(d & m & d' & m' & s' & _ & _ & _ & _ & _ & Hc & Hz' & Ho' & ->)]]; eexists _, _; (split; [done|]).
  - split; [done|by left].
  - split; [by intros; apply Hk|by right; left].
  - split; [by intros; apply Hk|]. right; right. split; [done|]. eexists _, s'. split; [exact Ho'|done].
Qed.

(** ** Deleting a blob *)
Record removed (size : Z) name s s' : Prop := {
  rm_volume : c_volume s' = c_volume s;
  rm_blobs : c_blobs s' = delete name (c_blobs s);
  rm_objects n i : c_objects s' !! (n, i) =
    if decide (n = name ∧ 0 ≤ i * size ≤ old_last size s name) then None else c_objects s !! (n, i);
}.

Lemma delete_removed v s name : size_ok v → aligned (objSize v) (old_last (objSize v) s name) → 0 ≤ old_last (objSize v) s name →
  removed (objSize v) name s (apply_changes s (effect (objSize v) (DeleteObjects name 0 (old_last (objSize v) s name)) ++ [CNoBlob name])).
Proof.
  intros [Hs _] Ha H0. unfold aligned in Ha. apply Z.div_exact in Ha; [|lia].
  set (e := old_last (objSize v) s name / objSize v) in *. rewrite apply_changes_app. simpl. unfold range_rounds. rewrite decide_True by done.
  rewrite Z.sub_0_r, Z.div_0_l by lia. fold e.
  assert (CNoObject name <$> seqZ 0 (e + 1) = (λ o, CNoObject name (o / objSize v)) <$> ((λ i, i * objSize v) <$> seqZ 0 (e + 1))) as ->.
  { rewrite <-list_fmap_compose. apply list_fmap_ext. intros ? i _. simpl. by rewrite Z.div_mul by lia. }
  destruct (apply_object_deletes (objSize v) name ((λ i, i * objSize v) <$> seqZ 0 (e + 1)) s) as (H1 & H2 & H3); [done| |].
  { apply Forall_fmap, Forall_forall. intros i _. unfold aligned. simpl. apply Z.mod_mul. lia. }
  split; simpl; [done|by rewrite H2|]. intros n i. rewrite H3. apply decide_ext.
  rewrite list_elem_of_fmap. apply and_iff_compat_l. split.
  - intros (j & Ej & [? ?]%elem_of_seqZ). assert (j = i) as -> by nia. nia.
  - intros Hi. exists i. split; [done|]. apply elem_of_seqZ. nia.
Qed.

(** The bytes a deletion counts for a blob of [n] objects. *)
Definition deleted_bytes (size : Z) s name (n : Z) : Z := u64 (u64 ((n - 1) * size) + getLastObjSize (old_size s name) size).

(** What [deleteBlob] does up to deleting the descriptor. *)
Lemma deleteBlob_commit fuel ts ts' volId name c v s : opened volId c v s → sizes_ok (objSize v) s → fresh s name = false →
  (Z.to_nat (range_rounds (objSize v) 0 (old_last (objSize v) s name)) < fuel)%nat →
  deleteBlob fuel ts ts' volId name c = Ret (c, ERR_DISK_READ_FAILED) ∨
  (∃ st, st ≠ StOk ∧ deleteBlob fuel ts ts' volId name c = Ret (c, status2error st)) ∨
  (∃ w, deleteBlob fuel ts ts' volId name c = Ret (with_vol volId w c, ERR_DISK_WRITE_FAILED)) ∨
  ∃ d m d1, DmPersistVolDB.catalog v = Some d ∧ entries d m ∧ related m s ∧
    let v1 := DmPersistVolDB.with_catalog d1 v in
    let n := Z.of_nat (length (objects_in name 0 (old_last (objSize v) s name / objSize v) m)) in
    holds v1 (apply_changes s (effect (objSize v) (DeleteObjects name 0 (old_last (objSize v) s name)))) ∧
    deleteBlob fuel ts ts' volId name c =
      (r ← DmPersistVolDB.deleteBlobMetaDesc ts' name v1;
       let v := (r : DmPersistVolDB.t * fds_errno).1 in
       let c := with_vol volId v (with_vol volId v1 c) in
       r ← update_stats volId 0 (deleted_bytes (objSize v1) s name n) 0 1 0 n v c;
       let '(c, rc) := r : t * fds_errno in
       if decide (rc ≠ ERR_OK) then Ret (c, rc) else
       c ← (if ft_newStats c then updateLBytes volId c else Ret c);
       Ret (c, rc)).
Proof.
  intros Ho Hz Hfr Hfuel. pose proof Ho as [Hf Hact Hv (d & Hd & m & Hm & Hr)]. assert (0 < objSize v) as Hs by apply Hv.
  pose proof (holds_size _ _ name (op_holds _ _ _ _ Ho)) as Hu. pose proof (sizes_old (objSize v) s name Hs Hz) as Hor.
  pose proof (last_offset_aligned (objSize v) _ Hv Hu) as Hoa.
  fold (old_size s name) in *. fold (old_last (objSize v) s name) in *.
  unfold deleteBlob. destruct (getBlobMetaDesc_opened volId c v s name Ho) as [-> | ->]; rewrite bind_Ret; [right|left; reflexivity].
  rewrite Hfr. rewrite decide_False by naive_solver. unfold checked. rewrite Hf. cbv zeta. rewrite last_or_zero_eq.
  fold (old_size s name). fold (old_last (objSize v) s name). unfold DmPersistVolDB.store. rewrite Hd, bind_Ret.
  destruct (read_objects name 0 (old_last (objSize v) s name) [] v d m s) as [-> _]; try done. rewrite bind_Ret.
  destruct (decide (ldb_iter_status d = StOk)) as [Est|Est].
  2: { left. exists (ldb_iter_status d). split; [done|]. rewrite decide_True; [done|]. by destruct (ldb_iter_status d). }
  rewrite Est. right. rewrite (decide_False (P := status2error StOk ≠ ERR_OK)) by naive_solver.
  destruct (delete_loop_spec fuel ts name 0 0 (old_last (objSize v) s name) v s Hv ltac:(lia) Hor Hfuel (op_holds _ _ _ _ Ho))
    as (v1 & rc & E & [[-> Hh]| ->] & d1 & ->); unfold DmPersistVolDB.deleteObject_range; rewrite E, bind_Ret;
    [|left; by eexists].
  rewrite (decide_True (P := ERR_OK = ERR_OK)) by done. right. exists d, m, d1. split_and!; try done.
  cbn [app]. rewrite length_fmap, Z.div_0_l by lia. done.
Qed.

(** The outcomes of a deletion on a store that takes writes. *)
Lemma deleteBlob_done fuel ts ts' volId name c v s : (∀ ops d, (ldb_write ops d).2 = StOk) → opened volId c v s →
  sizes_ok (objSize v) s → fresh s name = false →
  (Z.to_nat (range_rounds (objSize v) 0 (old_last (objSize v) s name)) < fuel)%nat →
  deleteBlob fuel ts ts' volId name c = Ret (c, ERR_DISK_READ_FAILED) ∨
  (∃ st, st ≠ StOk ∧ deleteBlob fuel ts ts' volId name c = Ret (c, status2error st)) ∨
  (∃ w, deleteBlob fuel ts ts' volId name c = Ret (with_vol volId w c, ERR_DISK_WRITE_FAILED)) ∨
  ∃ d m d' m' s', DmPersistVolDB.catalog v = Some d ∧ entries d m ∧ related m s ∧ entries d' m' ∧ related m' s' ∧
    removed (objSize v) name s s' ∧ sizes_ok (objSize v) s' ∧
    let n := Z.of_nat (length (objects_in name 0 (old_last (objSize v) s name / objSize v) m)) in
    let v' := DmPersistVolDB.with_summary (summary_after (objSize v) m' v 0 (deleted_bytes (objSize v) s name n) 0 1 0 n)
                (DmPersistVolDB.with_catalog d' v) in
    opened volId (with_vol volId v' c) v' s' ∧ deleteBlob fuel ts ts' volId name c = Ret (with_vol volId v' c, ERR_OK).
Proof.
  intros Hw Ho Hz Hfr Hfuel.
  destruct (deleteBlob_commit fuel ts ts' volId name c v s Ho Hz Hfr Hfuel) as [->|[(st & Hst & ->)|[[w ->]|(d & m & d1 & Hd & Hm & Hr & Hh & ->)]]];
    [by left|right; left; by exists st|right; right; left; by exists w|right; right; right].
  pose proof Ho as [Hf Hact Hv Hho]. assert (0 < objSize v) as Hs by apply Hv. set (v1 := DmPersistVolDB.with_catalog d1 v) in *.
  set (n := Z.of_nat (length (objects_in name 0 (old_last (objSize v) s name / objSize v) m))) in *.
  destruct (stamped ts' [CNoBlob name] v1 _ ltac:(by apply Forall_singleton) Hh) as (v2 & rc & E2 & Hu2 & d2 & ->).
  pose proof (delete_removed v s name Hv) as Hrm. rewrite apply_changes_app in Hrm.
  set (s2 := apply_changes (apply_changes s _) [CNoBlob name]) in *.
  specialize (Hrm (last_offset_aligned _ _ Hv (holds_size _ _ name Hho)) (proj1 (sizes_old (objSize v) s name Hs Hz))).
  assert (rc = ERR_OK) as ->.
  { unfold DmPersistVolDB.update, DmPersistVolDB.store, Catalog.Update in E2. simpl in E2.
    specialize (Hw [DmPersistVolDB.timestamp_op ts'; Delete (BlobMetadataKey.make name)] d1). destruct (ldb_write _ _) as [x st].
    simpl in Hw. subst st. by injection E2. }
  destruct Hu2 as [[_ Hh2]|?]; [|done]. unfold DmPersistVolDB.deleteBlobMetaDesc. simpl in E2. rewrite E2, bind_Ret. cbv zeta. cbn [fst].
  set (v2 := DmPersistVolDB.with_catalog d2 v1) in *. rewrite with_vol_twice.
  assert (opened volId (with_vol volId v2 c) v2 s2) as Ho2.
  { split; [apply find_with_vol, (find_vol_deleted _ _ _ Hf)|done..]. }
  assert (sizes_ok (objSize v2) s2) as Hz2.
  { intros k b Hb. rewrite (rm_blobs _ _ _ _ Hrm) in Hb. apply lookup_delete_Some in Hb as [_ Hb]. by apply (Hz k). }
  destruct (finish_opened volId (with_vol volId v2 c) v2 s2 0 (deleted_bytes (objSize v) s name n) 0 1 0 n Ho2 Hz2)
    as (d3 & m3 & Hd3 & Hm3 & Hr3 & Ho3 & E3 & E4).
  rewrite with_vol_twice in *. change (objSize v1) with (objSize v). rewrite E3, bind_Ret. rewrite decide_False by naive_solver. rewrite E4, bind_Ret. injection Hd3 as <-.
  exists d, m, d2, m3, s2. split_and!; done.
Qed.

(** ** Reading a blob back *)
(** Objects one after the other from the one of index [p] on, all of the size
    of the volume's objects except for the last. *)
Record contiguous (size p : Z) req : Prop := {
  ct_offsets : (BlobObjList.objs req).*1 = (λ i, i * size) <$> seqZ p (Z.of_nat (length (BlobObjList.objs req)));
  ct_full x : x ∈ BlobObjList.objs req → x.1 ≠ last_offset req → BlobObjInfo.size x.2 = size;
  ct_last : 0 < get_size (last_offset req) req;
}.

Lemma contiguous_elem size p req i : 0 < size → contiguous size p req →
  i * size ∈ (BlobObjList.objs req).*1 ↔ p ≤ i < p + Z.of_nat (length (BlobObjList.objs req)).
Proof.
  intros Hs Hc. rewrite (ct_offsets _ _ _ Hc), list_elem_of_fmap. split.
  - intros (j & Hj & [? ?]%elem_of_seqZ). assert (j = i) as -> by nia. lia.
  - intros Hi. exists i. split; [done|]. apply elem_of_seqZ. lia.
Qed.

Lemma contiguous_ends size p req : 0 < size → request_ok size req → contiguous size p req →
  first_offset req = p * size ∧ last_offset req = (p + Z.of_nat (length (BlobObjList.objs req)) - 1) * size.
Proof.
  intros Hs [_ Hn _] [Ho _ _]. unfold first_offset, BlobObjList.lastOffset. destruct (BlobObjList.objs req) as [|x l]; [done|]. split.
  - rewrite seqZ_cons in Ho by (simpl; lia). by injection Ho.
  - apply (f_equal last) in Ho. rewrite !fmap_last in Ho. destruct (last (x :: l)) as [y|] eqn:El; [|by apply last_None in El].
    change (length (x :: l)) with (S (length l)) in *. rewrite Nat2Z.inj_succ, <-Z.add_1_r in *.
    rewrite seqZ_app in Ho by lia. change (seqZ (p + _) 1) with [0 + (p + Z.of_nat (length l))] in Ho.
    rewrite last_snoc in Ho. simpl in Ho |- *. injection Ho as ->. lia.
Qed.

Lemma last_offset_of size k g : 0 < size < 2 ^ 32 → 0 ≤ k → 0 < g ≤ size → uint64 (k * size + g) →
  getLastOffset (k * size + g) size = k * size ∧ getLastObjSize (k * size + g) size = g ∧ object_count (k * size + g) size = k + 1.
Proof.
  intros Hs Hk Hg Hu. assert (0 < k * size + g) as Hp by nia. pose proof (last_offset_index _ _ Hs Hu Hp) as Hi.
  pose proof (last_offset_split _ _ Hs Hu). pose proof (last_size_bounds _ _ Hs Hp).
  assert (object_count (k * size + g) size = k + 1) as Hc by nia. rewrite Hc in Hi. split_and!; [lia|lia|done].
Qed.

(** [getBlob] of a whole blob. *)
Lemma getBlob_opened volId c v s name version metaList objList : opened volId c v s → fresh s name = false →
  0 < bsize (old_blob s name) → sizes_ok (objSize v) s →
  getBlob volId name 0 (-1) version metaList objList c = Ret (version, metaList, objList, 0, ERR_DISK_READ_FAILED) ∨
  ∃ d m, DmPersistVolDB.catalog v = Some d ∧ entries d m ∧ related m s ∧
    let l := objList ++ ((λ x, (i64 (x.1 * objSize v), objSize v, x.2)) <$>
               objects_in name 0 (getLastOffset (bsize (old_blob s name)) (objSize v) / objSize v) m) in
    let rc := status2error (ldb_iter_status d) in
    getBlob volId name 0 (-1) version metaList objList c =
      Ret (bversion (old_blob s name), MetaDataList.toFdspPayload (BlobMetaDesc.meta_list (old_blob s name)),
           if decide (rc = ERR_OK) then fix_last (getLastOffset (bsize (old_blob s name)) (objSize v))
                                     (getLastObjSize (bsize (old_blob s name)) (objSize v)) l else l,
           bsize (old_blob s name), rc).
Proof.
  intros Ho Hfr Hp Hz. pose proof Ho as [Hf Hact Hv (d & Hd & m & Hm & Hr)].
  pose proof (holds_size _ _ name (op_holds _ _ _ _ Ho)) as Hu. unfold getBlob, getBlobMeta.
  destruct (getBlobMetaDesc_opened volId c v s name Ho) as [-> | ->]; rewrite !bind_Ret; [right|left; reflexivity].
  exists d, m. split_and!; [done..|]. rewrite Hfr, decide_True, bind_Ret by done.
  rewrite decide_False by naive_solver. rewrite decide_False by lia. rewrite decide_False by lia. cbv zeta.
  replace (if decide (-1 >= i64 (bsize (old_blob s name))) then -1 else -1) with (-1) by (by case_decide).
  rewrite Hf. rewrite (decide_True (P := -1 < 0)) by lia. unfold DmPersistVolDB.store. rewrite Hd, bind_Ret.
  rewrite u64_i64. fold (getLastOffset (bsize (old_blob s name)) (objSize v)).
  destruct (read_objects name 0 (getLastOffset (bsize (old_blob s name)) (objSize v)) objList v d m s) as [-> _]; try done.
  - apply sizes_old; [apply Hv|done].
  - by apply last_offset_aligned.
Qed.

(** The objects of a blob that was written as a whole. *)
Lemma committed_objects size name metaList req seq s s' m' : 0 < size → request_ok size req → contiguous size 0 req →
  committed size name metaList req seq s s' → OMap.sorted ckey_cmp m' → related m' s' →
  objects_in name 0 (last_offset req / size) m' = (λ x, (x.1 / size, BlobObjInfo.oid x.2)) <$> BlobObjList.objs req.
Proof.
  intros Hs Hq Hct Hc Hm Hr. destruct (contiguous_ends _ _ _ Hs Hq Hct) as [_ El].
  assert (∀ x, x ∈ BlobObjList.objs req → x.1 = x.1 / size * size) as Ha.
  { intros x Hx. destruct (rq_entry _ _ Hq _ Hx) as (_ & H & _). unfold aligned in H. apply Z.div_exact in H; lia. }
  apply (OMap.sorted_elem_ext Z.compare); [by apply objects_in_sorted| |].
  - pose proof (rq_sorted _ _ Hq) as Hso. clear -Hs Ha Hso. unfold OMap.sorted in *. revert Ha. induction Hso as [|x l _ IH Hx]; intros Ha; [constructor|].
    rewrite fmap_cons. constructor; [apply IH; intros y Hy; apply Ha; by right|].
    apply Forall_fmap. rewrite Forall_forall in Hx |- *. intros y Hy. specialize (Hx _ Hy). simpl.
    rewrite Z.compare_lt_iff in *. pose proof (Ha x ltac:(by left)). pose proof (Ha y ltac:(by right)). nia.
  - intros [i oid]. rewrite objects_in_elem by done. rewrite (r_object _ _ Hr), (cm_objects _ _ _ _ _ _ _ Hc), decide_True by done.
    rewrite El, Z.div_mul, list_elem_of_fmap by lia. unfold put_object. split.
    + intros [Hi Hx]. assert (i * size ∈ (BlobObjList.objs req).*1) as Hin by (apply (contiguous_elem _ 0); [done..|lia]).
      apply list_elem_of_fmap in Hin as ([o x] & Eo & Hin). simpl in Eo. subst o.
      rewrite (proj2 (OMap.lookup_elem Z.compare _ x _ (rq_sorted _ _ Hq)) Hin) in Hx. injection Hx as <-.
      exists (i * size, x). split; [|done]. simpl. by rewrite Z.div_mul by lia.
    + intros ([o x] & [= -> ->] & Hin). simpl. pose proof (Ha _ Hin) as E. simpl in E.
      assert (o / size * size ∈ (BlobObjList.objs req).*1) as Hi by (apply list_elem_of_fmap; by exists (o, x)).
      apply (contiguous_elem _ 0) in Hi; [|done..]. split; [lia|]. rewrite <-E.
      by rewrite (proj2 (OMap.lookup_elem Z.compare _ x _ (rq_sorted _ _ Hq)) Hin).
Qed.

(** The list [getBlob] makes of the objects of a request. *)
Lemma fix_last_request size req : 0 < size < 2 ^ 32 → request_ok size req → (∀ x, x ∈ BlobObjList.objs req → x.1 ≠ last_offset req →
    BlobObjInfo.size x.2 = size) →
  fix_last (last_offset req) (get_size (last_offset req) req)
    ((λ x, (i64 (x.1 * size), size, x.2)) <$> ((λ x, (x.1 / size, BlobObjInfo.oid x.2)) <$> BlobObjList.objs req)) =
  BlobObjList.toFdspPayload req.
Proof.
  intros Hs Hq Hfull. unfold BlobObjList.toFdspPayload.
  rewrite (foldl_snoc_map (λ cit : Z * BlobObjInfo.t, (i64 cit.1, i64 (BlobObjInfo.size cit.2), BlobObjInfo.oid cit.2)) []), app_nil_l.
  assert (∀ x, x ∈ BlobObjList.objs req → x.1 / size * size = x.1 ∧ i64 (BlobObjInfo.size x.2) = BlobObjInfo.size x.2) as Ha.
  { intros x Hx. destruct (rq_entry _ _ Hq _ Hx) as (_ & H & _ & Hz). unfold aligned in H. apply Z.div_exact in H; [|lia].
    split; [lia|]. unfold i64, wrap_signed. cbv zeta. rewrite Z.mod_small by lia. rewrite decide_True by lia. done. }
  pose proof (rq_some _ _ Hq) as Hn. pose proof (rq_sorted _ _ Hq) as Hso.
  unfold get_size in *. unfold BlobObjList.lastOffset in *. destruct (BlobObjList.objs req) as [|[o x] l _] using rev_ind; [done|].
  rewrite last_snoc in *. cbn [fst] in *. rewrite !fmap_app. unfold fix_last. simpl. rewrite reverse_snoc.
  destruct (Ha (o, x)) as [E1 E2]; [apply elem_of_app; right; by left|]. simpl in E1, E2. rewrite E1, E2. rewrite decide_True by done.
  rewrite (proj2 (OMap.lookup_elem Z.compare o x _ Hso)) by (apply elem_of_app; right; by left).
  rewrite reverse_involutive. simpl. f_equal. rewrite <-list_fmap_compose. apply list_fmap_ext. intros i y Hy%list_elem_of_lookup_2.
  pose proof (proj2 (proj2 (proj1 (OMap.sorted_app Z.compare _ _) Hso)) y (o, x) Hy ltac:(by left)) as Hlt. simpl in Hlt.
  rewrite Z.compare_lt_iff in Hlt. destruct (Ha y) as [E3 E4]; [apply elem_of_app; by left|].
  simpl. rewrite E3, E4, Hfull; [done|apply elem_of_app; by left|lia].
Qed.

(** C23. A blob that is written as a whole is read back as it was written: when
    the commit succeeds, reading the blob gives the objects of the request
    with their offsets and sizes, the size, a version one up and the merged
    metadata, unless the store fails. *)
Theorem putBlob_getBlob (ts : Z) volId name (metaList : option (list (list Z * list Z))) req (seq version : Z)
    (meta : list (list Z * list Z)) c v s :
  opened volId c v s → sizes_ok (objSize v) s → DmPersistVolDB.op_allowed v = true → request_ok (objSize v) req →
  contiguous (objSize v) 0 req → BlobObjList.endOfBlob req = true →
  blob_ok (put_desc (objSize v) s name req metaList seq) → bversion (old_blob s name) < uint64_max →
  ∃ c' rc, putBlob ts volId name metaList req seq c = Ret (c', rc) ∧
    (rc = ERR_DISK_READ_FAILED ∨ rc = ERR_DISK_WRITE_FAILED ∨ rc = ERR_OK ∧
     ∃ out rc', getBlob volId name 0 (-1) version meta [] c' = Ret (out, rc') ∧
       (rc' = ERR_DISK_READ_FAILED ∨ (∃ st, st ≠ StOk ∧ rc' = status2error st) ∨
        rc' = ERR_OK ∧ out = (bversion (old_blob s name) + 1,
          MetaDataList.toFdspPayload (match metaList with
            | Some l => mergeMetaList (BlobMetaDesc.meta_list (old_blob s name)) l
            | None => BlobMetaDesc.meta_list (old_blob s name) end),
          BlobObjList.toFdspPayload req, last_offset req + get_size (last_offset req) req))).
Proof.
  intros Ho Hz Ha Hq Hct He Hb Hver. pose proof (op_size _ _ _ _ Ho) as Hv. assert (0 < objSize v) as Hs by apply Hv.
  destruct (putBlob_done ts volId name metaList req seq c v s Ho Hz Ha Hq Hb)
    as [->|[[w ->]|(d & m & d' & m' & s' & _ & _ & _ & Hm' & Hr' & Hc & Hz' & Ho' & ->)]]; eexists _, _; (split; [done|]);
    [by left|by right; left|right; right; split; [done|]].
  set (v' := DmPersistVolDB.with_summary _ _) in *.
  assert (old_blob s' name = put_desc (objSize v) s name req metaList seq) as Eb.
  { unfold old_blob at 1. rewrite (cm_blobs _ _ _ _ _ _ _ Hc). by rewrite lookup_insert_eq. }
  assert (bversion (put_desc (objSize v) s name req metaList seq) = bversion (old_blob s name) + 1) as Ever.
  { simpl. apply u64_small. pose proof (holds_version _ _ name (op_holds _ _ _ _ Ho)) as [? _]. lia. }
  assert (bsize (put_desc (objSize v) s name req metaList seq) = last_offset req + get_size (last_offset req) req) as Esz.
  { simpl. unfold new_size. rewrite He. simpl. apply (new_end_eq _ _ Hv Hq). }
  destruct (new_end_eq _ _ Hv Hq) as [_ Hu]. destruct (contiguous_ends _ _ _ Hs Hq Hct) as [_ El].
  destruct (get_size_last _ _ Hq) as [Hg _]. pose proof (ct_last _ _ _ Hct) as Hg0. pose proof (rq_some _ _ Hq) as Hne.
  set (k := 0 + Z.of_nat (length (BlobObjList.objs req)) - 1) in *.
  assert (0 ≤ k) as Hk by (unfold k; destruct (BlobObjList.objs req); [done|simpl; lia]).
  destruct (last_offset_of (objSize v) k (get_size (last_offset req) req) Hv Hk ltac:(lia)) as (E1 & E2 & _); [by rewrite <-El|].
  destruct (getBlob_opened volId (with_vol volId v' c) v' s' name version meta [] Ho') as [->|(d1 & m1 & Hd1 & Hm1 & Hr1 & ->)].
  - unfold fresh. rewrite Eb, Ever. apply bool_decide_eq_false. pose proof (holds_version _ _ name (op_holds _ _ _ _ Ho)) as [? _].
    unfold blob_version_invalid. lia.
  - rewrite Eb, Esz. nia.
  - done.
  - eexists _, _. split; [done|by left].
  - rewrite <-El in E1, E2. rewrite Eb, Esz, Ever. change (objSize v') with (objSize v). rewrite E1, E2.
    rewrite (committed_objects (objSize v) name metaList req seq s s' m1), app_nil_l by (done || apply Hm1).
    destruct (decide (ldb_iter_status d1 = StOk)) as [Est|Est]; eexists _, _; (split; [done|]); right; [right|left; by eexists].
    rewrite Est. split; [done|]. rewrite decide_True by done. by rewrite fix_last_request by (done || apply Hct).
Qed.

End Catalog.
