(* ===== verification/VolumeStats.v ===== *)
(** * The statistics of a volume

    The logical size of a volume, the number of its blobs and of its objects
    are kept by differences: each commit and each deletion computes what it
    adds and removes ([DmVolumeCatalog.cpp], [putBlob] and [deleteBlob]).
    This file shows that for blobs without holes the differences add up to
    what [statVolumeInternal] finds by reading all descriptors. *)

From S2P Require Import Prelude.
From S2P Require Import Serialize.
From S2P Require Import ObjectId.
From S2P Require Import OrderedMap.
From S2P Require Import DmBlobTypes.
From S2P Require Import CatalogKeys.
From S2P Require Import PersistVolDB.
From S2P Require Import PersistVolSpec.
From S2P Require Import PersistVolList.
From S2P Require Import VolumeCatalog.
From S2P Require Import VolumeCatalogSpec.
Open Scope Z_scope.

Notation W := 18446744073709551616.

(** ** Sums over the blobs of a volume *)
Definition vol_sum (f : BlobMetaDesc.t → Z) (s : vcat) : Z := map_fold (λ _ b acc, f b + acc) 0 (c_blobs s).

Definition vol_bytes (s : vcat) : Z := vol_sum (λ b, bsize b) s.
Definition vol_blobs (s : vcat) : Z := vol_sum (λ _, 1) s.
Definition vol_objects (size : Z) (s : vcat) : Z := vol_sum (λ b, DmVolumeCatalog.object_count (bsize b) size) s.

Lemma vol_sum_delete f s s' name b : c_blobs s !! name = Some b → c_blobs s' = delete name (c_blobs s) →
  vol_sum f s = f b + vol_sum f s'.
Proof.
  intros Hb E. unfold vol_sum. rewrite E. apply (map_fold_delete_L (λ _ b acc, f b + acc) 0 name b); [|done]. intros. lia.
Qed.

Lemma vol_sum_insert f s s' name b : c_blobs s' = <[name := b]> (c_blobs s) →
  vol_sum f s' = f b + vol_sum f s - match c_blobs s !! name with Some old => f old | None => 0 end.
Proof.
  intros E. unfold vol_sum. rewrite E.
  rewrite <-insert_delete_eq, map_fold_insert_L by (intros; lia || by apply lookup_delete_eq).
  destruct (c_blobs s !! name) as [old|] eqn:Eo; [|rewrite delete_id by done; lia].
  rewrite (map_fold_delete_L (λ _ b acc, f b + acc) 0 name old (c_blobs s)) by (done || intros; lia). lia.
Qed.

Lemma vol_sum_list f s (l : list BlobMetaDesc.t) : NoDup l → (∀ n b, c_blobs s !! n = Some b → bname b = n) →
  (∀ b, b ∈ l ↔ c_blobs s !! bname b = Some b) → foldr (λ b acc, f b + acc) 0 l = vol_sum f s.
Proof.
  intros Hl Hn He. unfold vol_sum. rewrite map_fold_foldr.
  assert (map_to_list (c_blobs s) ≡ₚ (λ b, (bname b, b)) <$> l) as Hp.
  { apply NoDup_Permutation; [apply NoDup_map_to_list|by apply NoDup_fmap_2; [intros ?? [= _ ->]|]|].
    intros [n b]. rewrite elem_of_map_to_list, list_elem_of_fmap. split.
    - intros Hb. exists b. pose proof (Hn _ _ Hb) as <-. split; [done|]. by apply He.
    - intros (b' & [= -> ->] & Hb). by apply He. }
  set (g := uncurry (λ (_ : list Z) b acc, f b + acc)).
  assert (foldr g 0 (map_to_list (c_blobs s)) = foldr g 0 ((λ b, (bname b, b)) <$> l)) as ->.
  { apply (foldr_permutation_proper eq g 0); [|done]. intros [] [] z. simpl. lia. }
  clear. induction l as [|b l IH]; [done|]. simpl. by rewrite IH.
Qed.

Section Stats.
Context {D : Type} {L : LevelDB D} {LL : LevelDBLaws L} {P : TProtocol} {PL : TProtocolLaws P}.
Implicit Types (d : D) (m : list (ckey * list Z)) (s : vcat) (v : DmPersistVolDB.t (D:=D)) (c : DmVolumeCatalog.t (D:=D)).
Implicit Types (b : BlobMetaDesc.t) (req : BlobObjList.t) (name : list Z) (volId : Z).
Import DmVolumeCatalog.

Notation objSize v := (DmPersistVolDB.objSize v).
Notation last_offset req := (BlobObjList.lastOffset req).

(** ** Volumes without holes *)
Record dense (size : Z) s : Prop := {
  dn_blob n b : c_blobs s !! n = Some b → 0 < bsize b ∧ bversion b ≠ 0;
  dn_sizes : sizes_ok size s;
  dn_object n i : is_Some (c_objects s !! (n, i)) ↔ 0 ≤ i < object_count (bsize (old_blob s n)) size;
  dn_real n i oid : c_objects s !! (n, i) = Some oid → ObjectID.neb ObjectID.make oid = true;
}.

(** The statistics are those of the blobs, in 64 bits. *)
Record exact (size : Z) (q : DmVolumeSummary.t) s : Prop := {
  ex_init : DmVolumeSummary.initialized q = true;
  ex_bytes : u64 (DmVolumeSummary.size q) = u64 (vol_bytes s);
  ex_blobs : u64 (DmVolumeSummary.blobCount q) = u64 (vol_blobs s);
  ex_objects : u64 (DmVolumeSummary.objectCount q) = u64 (vol_objects size s);
}.

Lemma u64_eq (a b : Z) : (∃ k, a = b + k * W) → u64 a = u64 b.
Proof. intros [k ->]. apply u64_shift. Qed.

Lemma u64_eq_inv (a b : Z) : u64 a = u64 b → ∃ k, a = b + k * W.
Proof. intros E. destruct (u64_ex a) as [k1 E1], (u64_ex b) as [k2 E2]. exists (k2 - k1). lia. Qed.

Lemma apply_delta_u64 x a r : ∃ k, DmPersistVolDB.apply_delta x a r = x + a - r + k * W.
Proof.
  unfold DmPersistVolDB.apply_delta. case_decide.
  - destruct (u64_ex (x + (a - r))) as [k ->]. exists k. lia.
  - destruct (u64_ex (x - (r - a))) as [k ->]. exists k. lia.
Qed.

Lemma fresh_dense size s name : dense size s → fresh s name = bool_decide (c_blobs s !! name = None).
Proof.
  intros Hd. unfold fresh, old_blob. destruct (c_blobs s !! name) as [b|] eqn:E; [|done].
  destruct (dn_blob _ _ Hd _ _ E) as [_ ?]. by rewrite !bool_decide_eq_false_2.
Qed.

(** ** The indices of a run of objects *)
Lemma seqZ_sorted (a : Z) (n : nat) : StronglySorted Z.lt (seqZ a (Z.of_nat n)).
Proof.
  revert a. induction n as [|n IH]; intros a; [constructor|]. rewrite seqZ_cons by lia.
  replace (Z.pred (Z.of_nat (S n))) with (Z.of_nat n) by lia. constructor; [apply IH|].
  apply Forall_forall. intros i [? _]%elem_of_seqZ. lia.
Qed.

Lemma indices_seqZ {V} (l : list (Z * V)) a n : OMap.sorted Z.compare l → (∀ i, i ∈ l.*1 ↔ a ≤ i < a + n) → l.*1 = seqZ a n.
Proof.
  intros Hl He. assert (StronglySorted Z.lt l.*1) as Hs.
  { clear He. induction Hl as [|x l _ IH Hx]; simpl; constructor; [done|]. apply Forall_fmap. eapply Forall_impl; [done|].
    intros y. apply Z.compare_lt_iff. }
  assert (StronglySorted Z.lt (seqZ a n)) as Hq.
  { destruct (decide (0 ≤ n)); [|rewrite seqZ_nil by lia; constructor]. rewrite <-(Z2Nat.id n) by done. apply seqZ_sorted. }
  apply (StronglySorted_unique_strong Z.lt); [intros; lia|done..|].
  apply NoDup_Permutation; [by apply (OMap.sorted_NoDup_keys Z.compare)|apply NoDup_seqZ|].
  intros i. rewrite He, elem_of_seqZ. done.
Qed.

(** The objects of a blob in a range of indices. *)
Lemma dense_indices size s m name a e : dense size s → OMap.sorted ckey_cmp m → related m s → 0 ≤ a →
  e < object_count (bsize (old_blob s name)) size →
  (objects_in name a e m).*1 = seqZ a (e - a + 1).
Proof.
  intros Hd Hm Hr Ha He. apply indices_seqZ; [by apply objects_in_sorted|]. intros i. rewrite list_elem_of_fmap. split.
  - intros ([j oid] & -> & [Hj _]%objects_in_elem); [simpl; lia|done].
  - intros Hi. destruct (proj2 (dn_object _ _ Hd name i) ltac:(lia)) as [oid Ho]. exists (i, oid). split; [done|].
    apply objects_in_elem; [done|]. rewrite (r_object _ _ Hr). split; [lia|done].
Qed.

(** ** Counting what is there *)
Lemma lookup_object_list size l i : 0 < size → OMap.sorted Z.compare l →
  OMap.lookup Z.compare (i * size) (BlobObjList.objs (object_list size l)) =
  (λ oid, BlobObjInfo.Make oid size) <$> OMap.lookup Z.compare i l.
Proof.
  intros Hs Hl. simpl. induction l as [|[j oid] l IH]; [done|]. apply (OMap.sorted_cons Z.compare) in Hl as [Hl _]. simpl.
  destruct (Z.compare_spec (i * size) (j * size)), (Z.compare_spec i j); first [done|nia|by apply IH].
Qed.

Lemma object_list_sorted size l : 0 < size → OMap.sorted Z.compare l → OMap.sorted Z.compare (BlobObjList.objs (object_list size l)).
Proof.
  intros Hs Hl. simpl. unfold OMap.sorted in *. induction Hl as [|x l _ IH Hx]; simpl; constructor; [done|].
  apply Forall_fmap. eapply Forall_impl; [done|]. intros y Hy. simpl in *. rewrite Z.compare_lt_iff in *. nia.
Qed.

Lemma put_snoc {V} (l : list (Z * V)) k (v w : V) : OMap.sorted Z.compare (l ++ [(k, w)]) →
  OMap.put Z.compare k v (l ++ [(k, w)]) = l ++ [(k, v)].
Proof.
  induction l as [|[j x] l IH]; simpl; intros Hs; [by rewrite Z.compare_refl|].
  apply (OMap.sorted_cons Z.compare) in Hs as [Hs Hj]. specialize (Hj (k, w) ltac:(apply elem_of_app; right; by left)). simpl in Hj.
  rewrite (cmp_flip (cmp:=Z.compare)), Hj. simpl. by rewrite IH.
Qed.

Section Snoc.
Context (l : list (Z * BlobObjInfo.t)) (k : Z) (x : BlobObjInfo.t) (e : bool) (Hl : OMap.sorted Z.compare (l ++ [(k, x)])).

Lemma lastOffset_snoc : BlobObjList.lastOffset (BlobObjList.Make (l ++ [(k, x)]) e) = k.
Proof using. unfold BlobObjList.lastOffset. simpl. by rewrite last_snoc. Qed.

Lemma lookup_snoc : OMap.lookup Z.compare k (l ++ [(k, x)]) = Some x.
Proof using Hl. apply (OMap.lookup_elem Z.compare); [done|]. apply elem_of_app. right. by left. Qed.

Lemma get_size_snoc : get_size k (BlobObjList.Make (l ++ [(k, x)]) e) = BlobObjInfo.size x.
Proof using Hl. unfold get_size. simpl. by rewrite lookup_snoc. Qed.

Lemma set_size_snoc z : set_size k z (BlobObjList.Make (l ++ [(k, x)]) e) =
  BlobObjList.Make (l ++ [(k, BlobObjInfo.Make (BlobObjInfo.oid x) z)]) e.
Proof using Hl. unfold set_size, BlobObjList.with_objs. simpl. by rewrite lookup_snoc, put_snoc. Qed.

Lemma sorted_snoc z : OMap.sorted Z.compare (l ++ [(k, z)]).
Proof using Hl.
  apply (OMap.sorted_app Z.compare) in Hl as (H1 & _ & H2). apply (OMap.sorted_app Z.compare). split_and!; [done|repeat constructor|].
  intros y w Hy ->%list_elem_of_singleton. apply (H2 y (k, x) Hy). by left.
Qed.

End Snoc.

(** What one blob adds to the count of a volume. *)
Lemma stat_blob_dense size s m b acc : 0 < size < 2 ^ 32 → dense size s → OMap.sorted ckey_cmp m → related m s →
  c_blobs s !! bname b = Some b →
  ∃ k1 k2, (stat_blob size acc b (blob_list size m b)).1 =
    (acc.1.1 + bsize b + k1 * W, acc.1.2 + object_count (bsize b) size + k2 * W).
Proof.
  intros Hsz Hd Hm Hr Hb. destruct (dn_blob _ _ Hd _ _ Hb) as [Hp _]. destruct (r_blob_ok _ _ Hr _ _ Hb) as [[_ _ _ Hu _ _] _].
  pose proof (last_offset_index _ _ Hsz Hu Hp) as El. pose proof (last_offset_split _ _ Hsz Hu) as Es.
  pose proof (object_count_pos _ _ Hsz Hp) as Hc.
  assert (old_blob s (bname b) = b) as Eo by (unfold old_blob; by rewrite Hb).
  set (cnt := object_count (bsize b) size) in *.
  pose proof (dense_indices size s m (bname b) 0 (cnt - 1) Hd Hm Hr ltac:(lia) ltac:(rewrite Eo; fold cnt; lia)) as Hi.
  replace (cnt - 1 - 0 + 1) with cnt in Hi by lia.
  unfold blob_list. rewrite El, Z.div_mul by lia.
  pose proof (object_list_sorted size _ ltac:(lia) (objects_in_sorted (bname b) 0 (cnt - 1) m Hm)) as Hso.
  destruct (objects_in (bname b) 0 (cnt - 1) m) as [|[i oid] l _] eqn:E using rev_ind.
  { symmetry in Hi. apply (f_equal length) in Hi. rewrite length_seqZ in Hi. simpl in Hi. lia. }
  replace cnt with (cnt - 1 + 1) in Hi at 1 by lia. rewrite seqZ_app in Hi by lia. rewrite fmap_app in Hi.
  apply app_inj_2 in Hi as [Hi1 Hi2]; [|done]. change (seqZ _ 1) with [0 + (0 + (cnt - 1))] in Hi2. injection Hi2 as Hi2. simpl in Hi2.
  assert (i = cnt - 1) as -> by lia. unfold stat_blob, object_list, BlobObjList.with_objs in *. simpl in Hso |- *.
  rewrite fmap_app in *. simpl in Hso |- *. rewrite lastOffset_snoc, set_size_snoc, lastOffset_snoc by done.
  rewrite get_size_snoc by (by eapply sorted_snoc). unfold list_size. simpl. rewrite length_app, length_fmap. simpl.
  apply (f_equal length) in Hi1. rewrite length_fmap, length_seqZ in Hi1. replace (Z.of_nat (length l + 1)) with cnt by lia.
  destruct acc as [[z n] q]. simpl. destruct (u64_ex ((cnt - 1) * size)) as [k1 ->].
  match goal with |- context [u64 (z + u64 ?y)] => destruct (u64_ex y) as [k2 ->]; destruct (u64_ex (z + (y + k2 * W))) as [k3 ->] end.
  destruct (u64_ex (n + cnt)) as [k4 ->]. exists (k1 + k2 + k3), k4. f_equal; lia.
Qed.

(** Reading all descriptors gives the sums. *)
Lemma stat_values_dense size s m : 0 < size < 2 ^ 32 → dense size s → OMap.sorted ckey_cmp m → related m s →
  exact size (DmVolumeSummary.Make true (stat_values size m).1.1 (u64 (Z.of_nat (length (blobs_in (λ _, true) m)))) (stat_values size m).1.2) s.
Proof.
  intros Hs Hd Hm Hr. pose proof (blobs_in_sorted (λ _, true) m s Hm (related_loads m s Hm Hr)) as Hso.
  assert (∀ b, b ∈ blobs_in (λ _, true) m ↔ c_blobs s !! bname b = Some b) as He.
  { intros b. rewrite (blobs_in_elem _ _ s) by done. naive_solver. }
  assert (NoDup (blobs_in (λ _, true) m)) as Hn.
  { clear He. induction Hso as [|b l _ IH Hb]; constructor; [|done]. intros Hin. rewrite Forall_forall in Hb.
    specialize (Hb _ Hin). by apply (OMap.cmp_lt_irrefl bytes_cmp) in Hb. }
  assert (∀ n b, c_blobs s !! n = Some b → bname b = n) as Hname by (intros n b Hb; by apply (r_blob_ok _ _ Hr) in Hb as [_ ?]).
  assert (∀ l acc, Forall (λ b, c_blobs s !! bname b = Some b) l → ∃ k1 k2,
    (foldl (λ acc b, stat_blob size acc b (blob_list size m b)) acc l).1 =
    (acc.1.1 + foldr (λ b acc, bsize b + acc) 0 l + k1 * W,
     acc.1.2 + foldr (λ b acc, object_count (bsize b) size + acc) 0 l + k2 * W)) as Hfold.
  { induction l as [|b l IH]; intros acc Hl; [exists 0, 0; destruct acc as [[]]; simpl; f_equal; lia|].
    apply Forall_cons in Hl as [Hb Hl]. destruct (stat_blob_dense size s m b acc Hs Hd Hm Hr Hb) as (k1 & k2 & E).
    destruct (IH (stat_blob size acc b (blob_list size m b)) Hl) as (k3 & k4 & E'). simpl. rewrite E', E.
    exists (k1 + k3), (k2 + k4). simpl. f_equal; lia. }
  destruct (Hfold (blobs_in (λ _, true) m) (0, 0, 0)) as (k1 & k2 & E); [apply Forall_forall; by intros b ?%He|].
  fold (stat_values size m) in E. rewrite E. simpl. rewrite !(vol_sum_list _ s) by done. split; simpl; [done|..].
  - apply u64_shift.
  - rewrite (u64_small (u64 _)) by (apply u64_range). f_equal. unfold vol_blobs. rewrite <-(vol_sum_list _ s (blobs_in (λ _, true) m)) by done.
    generalize (blobs_in (λ _, true) m). intros l. induction l as [|b l IH]; simpl; lia.
  - apply u64_shift.
Qed.

(** ** Counting a commit *)
(** Commits that leave no hole: objects one after the other that start inside
    the blob or where it ends, the last one full unless the blob ends there. *)
Record fits (size : Z) s name req : Prop := {
  ft_request : request_ok size req;
  ft_contiguous : ∃ p, contiguous size p req ∧ p * size ≤ old_size s name;
  ft_last : BlobObjList.endOfBlob req = false → last_offset req < old_last size s name → get_size (last_offset req) req = size;
  ft_real x : x ∈ BlobObjList.objs req → ObjectID.neb ObjectID.make (BlobObjInfo.oid x.2) = true;
}.

Section Commit.
Context (size : Z) s m name req (p : Z).
Context (Hs : 0 < size < 2 ^ 32) (Hd : dense size s) (Hm : OMap.sorted ckey_cmp m) (Hr : related m s).
Context (Hu : uint64 (old_size s name)) (Hf : fits size s name req) (Hct : contiguous size p req) (Hpb : p * size ≤ old_size s name).

Notation cnt := (object_count (old_size s name) size).
Notation q := (p + Z.of_nat (length (BlobObjList.objs req)) - 1).
Notation lastobj := (getLastObjSize (old_size s name) size).

Lemma commit_facts : 0 ≤ p ∧ p ≤ q ∧ first_offset req = p * size ∧ last_offset req = q * size ∧
  0 ≤ cnt ∧ p ≤ cnt ∧ (old_size s name = 0 ∧ cnt = 0 ∧ old_last size s name = 0 ∧ fresh s name = true ∨
   0 < old_size s name ∧ fresh s name = false ∧ 1 ≤ cnt ∧ old_last size s name = (cnt - 1) * size ∧
   old_size s name = (cnt - 1) * size + lastobj ∧ 0 < lastobj ≤ size).
Proof using Hs Hd Hu Hf Hct Hpb.
  destruct (contiguous_ends size p req ltac:(lia) (ft_request _ _ _ _ Hf) Hct) as [E1 E2].
  destruct (first_offset_elem _ _ (ft_request _ _ _ _ Hf)) as [x Hx]. destruct (rq_entry _ _ (ft_request _ _ _ _ Hf) _ Hx) as ([H0 _] & _).
  simpl in H0. rewrite E1 in H0. assert (0 ≤ p) as Hp by nia.
  pose proof (rq_some _ _ (ft_request _ _ _ _ Hf)) as Hn.
  assert (p ≤ q) by (destruct (BlobObjList.objs req); [done|simpl; lia]).
  rewrite (fresh_dense size s name Hd). unfold old_last. unfold old_size in *. unfold old_blob in *.
  destruct (c_blobs s !! name) as [b|] eqn:Eb; simpl in *.
  - destruct (dn_blob _ _ Hd _ _ Eb) as [Hpos _]. pose proof (object_count_pos _ _ Hs Hpos). pose proof (last_offset_index _ _ Hs Hu Hpos).
    pose proof (last_offset_split _ _ Hs Hu). pose proof (last_size_bounds _ _ Hs Hpos).
    split_and!; try done; [lia|nia|right]. split_and!; try done; lia.
  - unfold object_count. rewrite Z.div_0_l, decide_False by lia. split_and!; try done; [nia|]. left. done.
Qed.

(** The object the blob had at an index of the commit. *)
Lemma old_list_lookup i : p ≤ i ≤ q →
  match OMap.lookup Z.compare (i * size) (BlobObjList.objs (old_list size s m name req)) with
  | None => cnt ≤ i
  | Some x => i < cnt ∧ (i ≠ cnt - 1 → BlobObjInfo.size x = size)
  end.
Proof using Hs Hd Hm Hr Hu Hf Hct Hpb.
  intros Hi. destruct commit_facts as (Hp & Hq & E1 & E2 & Hc & Hpc & H). unfold old_list.
  destruct H as [(H1 & H2 & H3 & ->)|(H1 & -> & H3 & H4 & H5 & H6)]; [simpl; lia|]. simpl negb. cbv iota.
  pose proof (objects_in_sorted name (first_offset req / size) (last_offset req / size) m Hm) as Hso.
  assert (match OMap.lookup Z.compare (i * size) (BlobObjList.objs (object_list size
            (objects_in name (first_offset req / size) (last_offset req / size) m))) with
          | None => cnt ≤ i | Some x => i < cnt ∧ BlobObjInfo.size x = size end) as Hl.
  { rewrite lookup_object_list by (done || lia).
    destruct (OMap.lookup Z.compare i _) as [oid|] eqn:E; simpl.
    - apply (OMap.lookup_elem Z.compare) in E; [|done]. apply objects_in_elem in E as [_ E]; [|done].
      rewrite (r_object _ _ Hr) in E. destruct (proj1 (dn_object _ _ Hd name i) ltac:(by eexists)) as [_ ?]. done.
    - destruct (decide (cnt ≤ i)) as [|Hn]; [done|exfalso]. destruct (proj2 (dn_object _ _ Hd name i)) as [oid Ho]; [fold (old_size s name); lia|].
      assert ((i, oid) ∈ objects_in name (first_offset req / size) (last_offset req / size) m) as Hin.
      { apply objects_in_elem; [done|]. rewrite (r_object _ _ Hr), E1, E2, !Z.div_mul by lia. split; [lia|done]. }
      apply (OMap.lookup_elem Z.compare) in Hin; [congruence|done]. }
  rewrite andb_true_l. case_bool_decide as Hb; [|by destruct (OMap.lookup _ _ _); naive_solver].
  pose proof (object_list_sorted size _ ltac:(lia) Hso) as Hso'. unfold set_size. cbn [BlobObjList.objs BlobObjList.with_objs].
  destruct (decide (i = cnt - 1)) as [Ei|Ei].
  - assert (i * size = old_last size s name) as -> by (rewrite H4, Ei; done).
    rewrite (OMap.lookup_put_eq Z.compare) by done. split; [lia|naive_solver].
  - rewrite (OMap.lookup_put_ne Z.compare) by (done || rewrite H4; nia).
    destruct (OMap.lookup _ _ _); naive_solver.
Qed.

(** What the objects below index [j] have added. *)
Notation added j := (Z.max 0 (j - cnt)).
Notation grown j := (Z.max 0 (j * size - old_size s name)).

Definition counted (j : Z) (acc : Z * Z * Z) : Prop :=
  ∃ k1 k2, acc.1.1 = added j + k1 * W ∧ acc.1.2 - acc.2 = grown j + k2 * W.

Notation count := (count_put (old_list size s m name req) (old_last size s name) lastobj (last_offset req)).

Lemma count_inner j acc x : p ≤ j < q → BlobObjInfo.size x = size → counted j acc → counted (j + 1) (count acc (j * size, x)).
Proof using Hs Hd Hm Hr Hu Hf Hct Hpb.
  intros Hj Hx (k1 & k2 & C1 & C2). destruct commit_facts as (Hp & Hq & E1 & E2 & Hc & Hpc & H).
  pose proof (old_list_lookup j ltac:(lia)) as Hl. unfold count_put. destruct acc as [[oa A] R]. simpl in C1, C2 |- *. rewrite Hx.
  destruct (OMap.lookup _ _ _) as [y|]; unfold counted; simpl.
  - destruct Hl as [Hl _]. destruct H as [(H1 & H2 & H3 & _)|(H1 & _ & H3 & H4 & H5 & H6)]; [lia|].
    destruct (decide (old_last size s name = j * size)) as [Ej|Ej].
    + assert (j = cnt - 1) as -> by nia. destruct (decide (lastobj >= size)).
      * destruct (u64_ex (R + (lastobj - size))) as [k ->]. simpl. exists k1, (k2 - k). split; [lia|nia].
      * destruct (u64_ex (A + (size - lastobj))) as [k ->]. simpl. exists k1, (k2 + k). split; [lia|nia].
    + rewrite decide_False by (rewrite E2; nia). simpl. exists k1, k2. assert (j < cnt - 1) by nia. split; [lia|nia].
  - destruct (u64_ex (oa + 1)) as [k ->], (u64_ex (A + size)) as [k' ->]. exists (k1 + k), (k2 + k').
    split; [lia|]. destruct H as [(H1 & H2 & H3 & _)|(H1 & _ & H3 & H4 & H5 & H6)]; nia.
Qed.

Lemma count_prefix l j acc : l.*1 = (λ i, i * size) <$> seqZ j (Z.of_nat (length l)) → (∀ x, x ∈ l → BlobObjInfo.size x.2 = size) →
  p ≤ j → j + Z.of_nat (length l) ≤ q → counted j acc → counted (j + Z.of_nat (length l)) (foldl count acc l).
Proof using Hs Hd Hm Hr Hu Hf Hct Hpb.
  revert j acc. induction l as [|[o x] l IH]; intros j acc Ho Hx Hj Hl Hc; [simpl; by rewrite Z.add_0_r|].
  rewrite seqZ_cons in Ho by (simpl; lia). simpl in Ho. injection Ho as -> Ho. simpl foldl.
  replace (j + Z.of_nat (length ((j * size, x) :: l))) with (j + 1 + Z.of_nat (length l)) by (simpl; lia). simpl in Hl.
  apply IH; [|intros y Hy; apply Hx; by right|lia|lia|].
  - etrans; [exact Ho|]. do 2 f_equal; simpl; lia.
  - apply count_inner; [lia|apply (Hx (j * size, x)); by left|done].
Qed.

(** What a commit adds, objects and bytes. *)
Lemma put_counts_dense : let g := get_size (last_offset req) req in
  ∃ k1 k2, (put_counts size s m name req).1.1 = Z.max 0 (q + 1 - cnt) + k1 * W ∧
    (put_counts size s m name req).1.2 - (put_counts size s m name req).2 =
    (if decide (q < cnt - 1) then g - size else q * size + g - old_size s name) + k2 * W.
Proof using Hs Hd Hm Hr Hu Hf Hct Hpb.
  intros g. destruct commit_facts as (Hp & Hq & E1 & E2 & Hc & Hpc & H).
  pose proof (old_list_lookup q ltac:(lia)) as Hl. pose proof (ct_offsets _ _ _ Hct) as Ho. pose proof (ct_full _ _ _ Hct) as Hfull.
  pose proof (rq_sorted _ _ (ft_request _ _ _ _ Hf)) as Hso.
  assert (∃ l x, BlobObjList.objs req = l ++ [(q * size, x)] ∧ BlobObjInfo.size x = g ∧ Z.of_nat (length l) = q - p) as (l & x & El & Eg & Elen).
  { unfold g, get_size. pose proof (rq_some _ _ (ft_request _ _ _ _ Hf)) as Hn. unfold BlobObjList.lastOffset in *.
    destruct (BlobObjList.objs req) as [|[o x] l _] using rev_ind; [done|]. rewrite last_snoc in *. simpl in E2.
    exists l, x. rewrite <-E2. split; [done|]. simpl. rewrite lookup_snoc by done. split; [done|]. rewrite length_app. simpl. lia. }
  assert (put_counts size s m name req = count (foldl count (0, 0, 0) l) (q * size, x)) as ->.
  { transitivity (foldl count (0, 0, 0) (l ++ [(q * size, x)])); [by rewrite <-El|]. by rewrite foldl_app. }
  assert (counted q (foldl count (0, 0, 0) l)) as (k1 & k2 & C1 & C2).
  { replace q with (p + Z.of_nat (length l)) by lia. apply count_prefix; try lia.
    - rewrite El, fmap_app, length_app in Ho. simpl in Ho. rewrite Nat2Z.inj_add, seqZ_app, fmap_app in Ho by lia.
      by apply app_inj_2 in Ho as [Ho _].
    - intros y Hy. apply Hfull; [rewrite El; apply elem_of_app; by left|]. rewrite E2.
      rewrite El in Hso. apply (OMap.sorted_app Z.compare) in Hso as (_ & _ & Hso). specialize (Hso y _ Hy ltac:(by left)).
      rewrite Z.compare_lt_iff in Hso. simpl in Hso. lia.
    - exists 0, 0. simpl. split; lia. }
  destruct (foldl count (0, 0, 0) l) as [[oa A] R]. unfold count_put. simpl in C1, C2 |- *. rewrite Eg, E2.
  destruct (OMap.lookup _ _ _) as [y|].
  - destruct Hl as [Hl Hy]. destruct H as [(H1 & H2 & H3 & _)|(H1 & _ & H3 & H4 & H5 & H6)]; [lia|].
    destruct (decide (old_last size s name = q * size)) as [Ej|Ej].
    + assert (q = cnt - 1) as Eq by nia. rewrite (decide_False (P := q < cnt - 1)) by lia. destruct (decide (lastobj >= g)).
      * destruct (u64_ex (R + (lastobj - g))) as [k ->]. simpl. exists k1, (k2 - k). split; [lia|]. rewrite Eq in *. nia.
      * destruct (u64_ex (A + (g - lastobj))) as [k ->]. simpl. exists k1, (k2 + k). split; [lia|]. rewrite Eq in *. nia.
    + assert (q < cnt - 1) as Hlt by nia. rewrite (decide_True (P := q * size = q * size)), Hy by lia.
      rewrite (decide_True (P := q < cnt - 1)) by done. assert (q * size - old_size s name ≤ 0) by nia. destruct (decide (size >= g)).
      * destruct (u64_ex (R + (size - g))) as [k ->]. simpl. exists k1, (k2 - k). split; lia.
      * destruct (u64_ex (A + (g - size))) as [k ->]. simpl. exists k1, (k2 + k). split; lia.
  - rewrite (decide_False (P := q < cnt - 1)) by lia. destruct (u64_ex (oa + 1)) as [k ->], (u64_ex (A + g)) as [k' ->]. simpl.
    exists (k1 + k), (k2 + k'). split; [lia|]. destruct H as [(H1 & H2 & H3 & _)|(H1 & _ & H3 & H4 & H5 & H6)]; nia.
Qed.

(** What a truncation removes. *)
Lemma truncating_dense : truncating size s name req = BlobObjList.endOfBlob req && bool_decide (q < cnt - 1).
Proof using Hs Hd Hu Hf Hct Hpb.
  unfold truncating. f_equal. apply bool_decide_ext. destruct commit_facts as (Hp & Hq & E1 & E2 & Hc & Hpc & H). rewrite E2.
  destruct H as [(H1 & H2 & -> & _)|(H1 & _ & H3 & -> & H5 & H6)]; nia.
Qed.

Notation cut := (count_truncated (old_last size s name) lastobj).

Lemma cut_fold l j acc : l.*1 = seqZ j (Z.of_nat (length l)) → (∀ x, x ∈ l → ObjectID.neb ObjectID.make x.2 = true) →
  0 ≤ j → j + Z.of_nat (length l) ≤ cnt → ∃ k, (foldl cut acc (BlobObjList.objs (object_list size l))).2 =
    acc.2 + Z.min ((j + Z.of_nat (length l)) * size) (old_size s name) - Z.min (j * size) (old_size s name) + k * W.
Proof using Hs Hd Hu Hf Hct Hpb.
  revert j acc. induction l as [|[i oid] l IH]; intros j acc Hi Hx Hj Hl; [exists 0; simpl; rewrite Z.add_0_r; lia|].
  rewrite seqZ_cons in Hi by (simpl; lia). simpl in Hi. injection Hi as -> Hi. simpl in Hl.
  destruct (IH (j + 1) (cut acc (j * size, BlobObjInfo.Make oid size))) as [k E]; [|intros y Hy; apply Hx; by right|lia|lia|].
  { etrans; [exact Hi|]. f_equal; simpl; lia. }
  change (foldl cut acc (BlobObjList.objs (object_list size ((j, oid) :: l)))) with
    (foldl cut (cut acc (j * size, BlobObjInfo.Make oid size)) (BlobObjList.objs (object_list size l))).
  rewrite E. unfold count_truncated. simpl. pose proof (Hx (j, oid) ltac:(by left)) as Hn. simpl in Hn. rewrite Hn. simpl.
  match goal with |- context [u64 ?z] => destruct (u64_ex z) as [k' ->] end. exists (k + k').
  destruct commit_facts as (Hp & Hq & E1 & E2 & Hc & Hpc & H).
  destruct H as [(H1 & H2 & H3 & _)|(H1 & _ & H3 & H4 & H5 & H6)]; [lia|]. rewrite ?Zpos_P_of_succ_nat, ?Nat2Z.inj_succ.
  destruct (decide (j * size = old_last size s name)) as [Ej|Ej].
  - assert (j = cnt - 1) as -> by nia. assert (length l = 0%nat) as -> by lia. nia.
  - assert (j < cnt - 1) by nia. nia.
Qed.

Lemma cut_counts_dense : ∃ k, (cut_counts size s m name req).2 = (put_counts size s m name req).2 +
    (if truncating size s name req then old_size s name - (q + 1) * size else 0) + k * W ∧
  Z.of_nat (length (cut_objects size s m name req)) = if truncating size s name req then cnt - 1 - q else 0.
Proof using Hs Hd Hm Hr Hu Hf Hct Hpb.
  pose proof truncating_dense as Ht. unfold cut_counts. assert (∀ x, x ∈ cut_objects size s m name req → ObjectID.neb ObjectID.make x.2 = true) as Hx.
  { unfold cut_objects. intros [i oid] Hx. destruct (truncating size s name req); [|by apply elem_of_nil in Hx].
    apply objects_in_elem in Hx as [_ Hx]; [|done]. rewrite (r_object _ _ Hr) in Hx. by eapply dn_real. }
  revert Hx. unfold cut_objects. destruct (truncating size s name req); [|exists 0; simpl; split; lia]. intros Hx.
  symmetry in Ht. apply andb_true_iff in Ht as [_ Ht%bool_decide_eq_true].
  destruct commit_facts as (Hp & Hq & E1 & E2 & Hc & Hpc & H).
  destruct H as [(H1 & H2 & H3 & _)|(H1 & _ & H3 & H4 & H5 & H6)]; [lia|].
  rewrite E2, H4, !Z.div_mul in * by lia.
  pose proof (dense_indices size s m name (q + 1) (cnt - 1) Hd Hm Hr ltac:(lia) ltac:(fold (old_size s name); lia)) as Hi.
  assert (Z.of_nat (length (objects_in name (q + 1) (cnt - 1) m)) = cnt - 1 - q) as Hlen.
  { apply (f_equal length) in Hi. rewrite length_fmap, length_seqZ in Hi. lia. }
  destruct (cut_fold (objects_in name (q + 1) (cnt - 1) m) (q + 1) ([], (put_counts size s m name req).2)) as [k E].
  - rewrite Hlen. etrans; [exact Hi|]. f_equal. lia.
  - done.
  - lia.
  - rewrite Hlen. lia.
  - exists k. split; [|done]. rewrite H4 in E. etrans; [exact E|]. rewrite Hlen. simpl. nia.
Qed.

(** The size of the blob after the commit, and its objects. *)
Lemma new_size_dense : let g := get_size (last_offset req) req in
  0 < g ≤ size ∧ uint64 (q * size + g) ∧
  new_size size s name req = if BlobObjList.endOfBlob req || bool_decide (cnt - 1 ≤ q) then q * size + g else old_size s name.
Proof using Hs Hd Hu Hf Hct Hpb.
  intros g. destruct commit_facts as (Hp & Hq & E1 & E2 & Hc & Hpc & H). destruct (get_size_last _ _ (ft_request _ _ _ _ Hf)) as [Hg _].
  pose proof (ct_last _ _ _ Hct) as Hg0. fold g in Hg, Hg0. destruct (new_end_eq _ _ Hs (ft_request _ _ _ _ Hf)) as [E Hu']. fold g in E, Hu'.
  rewrite E2 in E, Hu'. split; [lia|]. split; [done|]. unfold new_size. fold g. rewrite E2, E.
  replace (bool_decide (q * size >= old_last size s name)) with (bool_decide (cnt - 1 ≤ q)); [done|].
  apply bool_decide_ext. destruct H as [(H1 & H2 & -> & _)|(H1 & _ & H3 & -> & H5 & H6)]; nia.
Qed.

(** The bytes and objects counted are those the blob gains. *)
Lemma counts_exact : ∃ k1 k2,
  (put_counts size s m name req).1.2 - (cut_counts size s m name req).2 = new_size size s name req - old_size s name + k1 * W ∧
  (put_counts size s m name req).1.1 - list_size (object_list size (cut_objects size s m name req)) =
    object_count (new_size size s name req) size - cnt + k2 * W.
Proof using Hs Hd Hm Hr Hu Hf Hct Hpb.
  destruct commit_facts as (Hp & Hq & E1 & E2 & Hc & Hpc & H). destruct put_counts_dense as (k1 & k2 & C1 & C2).
  destruct cut_counts_dense as (k3 & C3 & C4). destruct new_size_dense as (Hg & Hu' & En). pose proof (ft_last _ _ _ _ Hf) as Hl.
  destruct (last_offset_of size q _ Hs ltac:(lia) Hg Hu') as (_ & _ & Ec). rewrite truncating_dense in C3, C4.
  unfold list_size, object_list. cbn [BlobObjList.objs BlobObjList.with_objs]. rewrite length_fmap.
  exists (k2 - k3), k1. rewrite C3, C4, En. clear C3 C4 En. destruct (decide (q < cnt - 1)) as [Hq1|Hq1].
  - rewrite (bool_decide_eq_true_2 (q < cnt - 1)) by done. rewrite (bool_decide_eq_false_2 (cnt - 1 ≤ q)) by lia.
    destruct (BlobObjList.endOfBlob req); simpl; [rewrite Ec; split; lia|]. rewrite Hl in C2; [split; lia|done|].
    destruct H as [(H1 & H2 & H3 & _)|(H1 & _ & H3 & -> & H5 & H6)]; [lia|]. rewrite E2. nia.
  - rewrite (bool_decide_eq_false_2 (q < cnt - 1)) by done. rewrite (bool_decide_eq_true_2 (cnt - 1 ≤ q)) by lia.
    rewrite andb_false_r, orb_true_r, Ec. split; lia.
Qed.

Lemma request_lookup i : is_Some (OMap.lookup Z.compare (i * size) (BlobObjList.objs req)) ↔ p ≤ i ≤ q.
Proof using Hs Hf Hct.
  transitivity (i * size ∈ (BlobObjList.objs req).*1); [|rewrite (contiguous_elem size p) by (done || lia); lia].
  rewrite list_elem_of_fmap. split.
  - intros [x Hx]. apply (OMap.lookup_elem Z.compare) in Hx; [|apply Hf]. by exists (i * size, x).
  - intros ([o x] & E & Hx). simpl in E. subst o. exists x. by apply (OMap.lookup_elem Z.compare); [apply Hf|].
Qed.

Lemma put_object_dense i : is_Some (put_object size s name req i) ↔ 0 ≤ i < object_count (new_size size s name req) size.
Proof using Hs Hd Hu Hf Hct Hpb.
  destruct commit_facts as (Hp & Hq & E1 & E2 & Hc & Hpc & H). destruct new_size_dense as (Hg & Hu' & En).
  destruct (last_offset_of size q _ Hs ltac:(lia) Hg Hu') as (_ & _ & Ec).
  assert (object_count (new_size size s name req) size =
    if BlobObjList.endOfBlob req || bool_decide (cnt - 1 ≤ q) then q + 1 else cnt) as ->.
  { rewrite En. by destruct (_ || _). }
  pose proof (request_lookup i) as Hi. pose proof (dn_object _ _ Hd name i) as Ho. fold (old_size s name) in Ho.
  unfold put_object. rewrite truncating_dense.
  destruct (OMap.lookup Z.compare (i * size) (BlobObjList.objs req)) as [x|].
  { assert (p ≤ i ≤ q) as Hi' by (by apply Hi). split; [|by eexists]. intros _. destruct (BlobObjList.endOfBlob req); simpl; [lia|].
    case_bool_decide; lia. }
  assert (¬ (p ≤ i ≤ q)) as Hni by (intros Hx%Hi; by destruct Hx). clear Hi.
  destruct (c_objects s !! (name, i)) as [oid|] eqn:Eo.
  - assert (0 ≤ i < cnt) as Hic by (by apply Ho). rewrite (dn_real _ _ Hd _ _ _ Eo), andb_true_r, E2.
    destruct H as [(H1 & H2 & H3 & _)|(H1 & _ & H3 & -> & H5 & H6)]; [lia|].
    replace (bool_decide (q * size < i * size ≤ (cnt - 1) * size)) with (bool_decide (q < i)) by (apply bool_decide_ext; nia).
    destruct (BlobObjList.endOfBlob req), (decide (q < i)), (decide (q < cnt - 1)); simpl;
      rewrite ?(bool_decide_eq_true_2 (q < i)), ?(bool_decide_eq_false_2 (q < i)), ?(bool_decide_eq_true_2 (q < cnt - 1)),
        ?(bool_decide_eq_false_2 (q < cnt - 1)) by done; simpl; try lia;
      repeat case_bool_decide; (split; [intros _; lia|by eexists]) || (split; [intros Hx; by destruct Hx|lia]).
  - assert (¬ (0 ≤ i < cnt)) as Hic by (intros Hx%Ho; by destruct Hx).
    split; [intros Hx; by destruct Hx|]. destruct (BlobObjList.endOfBlob req); simpl; [lia|]. case_bool_decide; lia.
Qed.

End Commit.

(** A commit keeps a volume free of holes and its statistics exact. *)
Lemma committed_dense size s s' v name metaList req seq : 0 < size < 2 ^ 32 → dense size s → holds v s → fits size s name req →
  bversion (old_blob s name) < uint64_max → committed size name metaList req seq s s' → sizes_ok size s' → dense size s'.
Proof.
  intros Hs Hd Hh Hf Hver Hc Hz. destruct (ft_contiguous _ _ _ _ Hf) as (p & Hct & Hpb). pose proof (holds_size v s name Hh) as Hu.
  assert (old_blob s' name = put_desc size s name req metaList seq) as Eb.
  { unfold old_blob at 1. rewrite (cm_blobs _ _ _ _ _ _ _ Hc). by rewrite lookup_insert_eq. }
  destruct (new_size_dense size s name req p Hs Hd Hu Hf Hct Hpb) as (Hg & Hun & En).
  destruct (commit_facts size s name req p Hs Hd Hu Hf Hct Hpb) as (Hp & Hq & _ & _ & _ & _ & H).
  assert (0 < new_size size s name req) as Hpos.
  { rewrite En. destruct (_ || _) eqn:E; [nia|]. apply orb_false_iff in E as [_ E%bool_decide_eq_false]. lia. }
  split; [|done| |].
  - intros n b Hb. rewrite (cm_blobs _ _ _ _ _ _ _ Hc) in Hb. apply lookup_insert_Some in Hb as [[<- <-]|[_ Hb]]; [|by eapply dn_blob].
    split; [done|]. simpl. destruct (holds_version v s name Hh) as [? _]. rewrite u64_small; [|lia]. lia.
  - intros n i. rewrite (cm_objects _ _ _ _ _ _ _ Hc). destruct (decide (n = name)) as [->|Hn].
    + rewrite Eb. by apply (put_object_dense size s name req p).
    + assert (old_blob s' n = old_blob s n) as ->; [|apply Hd]. unfold old_blob. rewrite (cm_blobs _ _ _ _ _ _ _ Hc).
      by rewrite lookup_insert_ne by congruence.
  - intros n i oid. rewrite (cm_objects _ _ _ _ _ _ _ Hc). destruct (decide (n = name)) as [->|Hn]; [|by eapply dn_real]. unfold put_object.
    destruct (OMap.lookup _ _ _) as [x|] eqn:E.
    + intros [= <-]. apply (OMap.lookup_elem Z.compare) in E; [|apply Hf]. by apply (ft_real _ _ _ _ Hf _ E).
    + destruct (c_objects s !! (name, i)) as [o|] eqn:Eo; [|done]. destruct (_ && _); [done|]. intros [= <-]. by eapply dn_real.
Qed.

Lemma committed_exact size s s' v m m' name metaList req seq : 0 < size < 2 ^ 32 → dense size s → holds v s →
  OMap.sorted ckey_cmp m → related m s → OMap.sorted ckey_cmp m' → related m' s' → fits size s name req →
  committed size name metaList req seq s s' → dense size s' →
  (DmPersistVolDB.volSummaryInitialized v = true → exact size (DmPersistVolDB.volSummary v) s) →
  exact size (summary_after size m' v (put_counts size s m name req).1.2 (cut_counts size s m name req).2
    (if fresh s name then 1 else 0) 0 (put_counts size s m name req).1.1
    (list_size (object_list size (cut_objects size s m name req)))) s'.
Proof.
  intros Hs Hd Hh Hm Hr Hm' Hr' Hf Hc Hd' Hex. unfold summary_after.
  destruct (DmPersistVolDB.volSummaryInitialized v); [|by apply stat_values_dense]. destruct (Hex eq_refl) as [_ X1 X2 X3].
  destruct (ft_contiguous _ _ _ _ Hf) as (p & Hct & Hpb).
  destruct (counts_exact size s m name req p Hs Hd Hm Hr (holds_size v s name Hh) Hf Hct Hpb) as (k1 & k2 & C1 & C2).
  apply u64_eq_inv in X1 as [a1 X1], X2 as [a2 X2], X3 as [a3 X3].
  split; cbn [DmVolumeSummary.initialized DmVolumeSummary.size DmVolumeSummary.blobCount DmVolumeSummary.objectCount]; [done|..]; apply u64_eq.
  - match goal with |- context [DmPersistVolDB.apply_delta ?x ?a ?r] => destruct (apply_delta_u64 x a r) as [k ->] end.
    exists (a1 + k1 + k). unfold vol_bytes. rewrite (vol_sum_insert _ s s' name _ (cm_blobs _ _ _ _ _ _ _ Hc)). fold (vol_bytes s).
    simpl. unfold old_size, old_blob in C1. destruct (c_blobs s !! name); simpl in C1; lia.
  - match goal with |- context [DmPersistVolDB.apply_delta ?x ?a ?r] => destruct (apply_delta_u64 x a r) as [k ->] end.
    exists (a2 + k). unfold vol_blobs. rewrite (vol_sum_insert _ s s' name _ (cm_blobs _ _ _ _ _ _ _ Hc)). fold (vol_blobs s).
    rewrite (fresh_dense size s name Hd). destruct (c_blobs s !! name); simpl; lia.
  - match goal with |- context [DmPersistVolDB.apply_delta ?x ?a ?r] => destruct (apply_delta_u64 x a r) as [k ->] end.
    exists (a3 + k2 + k). unfold vol_objects. rewrite (vol_sum_insert _ s s' name _ (cm_blobs _ _ _ _ _ _ _ Hc)). fold (vol_objects size s).
    simpl. unfold old_size, old_blob in C2. destruct (c_blobs s !! name); simpl in C2; [lia|].
    change (object_count 0 size) with (0 / size + if decide (0 ≠ 0 ∧ 0 `mod` size ≠ 0) then 1 else 0) in C2.
    rewrite Z.div_0_l, decide_False in C2 by lia. lia.
Qed.

(** A deletion, too. *)
Lemma removed_dense size s s' name : dense size s → 0 < size < 2 ^ 32 → uint64 (bsize (old_blob s name)) →
  removed size name s s' → sizes_ok size s' → dense size s'.
Proof.
  intros Hd Hs Hu Hc Hz. split; [|done| |].
  - intros n b Hb. rewrite (rm_blobs _ _ _ _ Hc) in Hb. apply lookup_delete_Some in Hb as [_ Hb]. by eapply dn_blob.
  - intros n i. rewrite (rm_objects _ _ _ _ Hc). unfold old_blob at 1. rewrite (rm_blobs _ _ _ _ Hc).
    destruct (decide (n = name)) as [->|Hn].
    + rewrite lookup_delete_eq. simpl. pose proof (dn_object _ _ Hd name i) as Ho.
      assert (object_count 0 size = 0) as -> by (unfold object_count; rewrite Z.div_0_l, decide_False by lia; done).
      split; [|lia]. case_decide as Hi; [intros Hx; by destruct Hx|]. intros Hx%Ho. exfalso. apply Hi. split; [done|].
      unfold old_last, old_size. destruct (c_blobs s !! name) as [b|] eqn:Eb; unfold old_blob in *; rewrite Eb in *; simpl in *.
      * destruct (dn_blob _ _ Hd _ _ Eb) as [Hp _]. rewrite last_offset_index by done. nia.
      * unfold object_count in Hx. rewrite Z.div_0_l, decide_False in Hx by lia. lia.
    + rewrite decide_False by naive_solver. rewrite lookup_delete_ne by congruence. apply Hd.
  - intros n i oid. rewrite (rm_objects _ _ _ _ Hc). case_decide; [done|]. by apply (dn_real _ _ Hd).
Qed.

Lemma removed_exact size s s' v m m' name b : 0 < size < 2 ^ 32 → dense size s → holds v s → c_blobs s !! name = Some b →
  OMap.sorted ckey_cmp m → related m s → OMap.sorted ckey_cmp m' → related m' s' → removed size name s s' → dense size s' →
  (DmPersistVolDB.volSummaryInitialized v = true → exact size (DmPersistVolDB.volSummary v) s) →
  let n := Z.of_nat (length (objects_in name 0 (old_last size s name / size) m)) in
  exact size (summary_after size m' v 0 (deleted_bytes size s name n) 0 1 0 n) s'.
Proof.
  intros Hs Hd Hh Hb Hm Hr Hm' Hr' Hc Hd' Hex n. unfold summary_after.
  destruct (DmPersistVolDB.volSummaryInitialized v); [|by apply stat_values_dense]. destruct (Hex eq_refl) as [_ X1 X2 X3].
  assert (old_blob s name = b) as Eo by (unfold old_blob; by rewrite Hb). destruct (dn_blob _ _ Hd _ _ Hb) as [Hp _].
  pose proof (holds_size v s name Hh) as Hu. rewrite Eo in Hu. pose proof (last_offset_index _ _ Hs Hu Hp) as El.
  pose proof (last_offset_split _ _ Hs Hu) as Es. pose proof (object_count_pos _ _ Hs Hp) as Hcp.
  assert (n = object_count (bsize b) size) as En.
  { unfold n, old_last, old_size. rewrite Eo, El, Z.div_mul by lia.
    pose proof (dense_indices size s m name 0 (object_count (bsize b) size - 1) Hd Hm Hr ltac:(lia) ltac:(rewrite Eo; lia)) as Hi.
    apply (f_equal length) in Hi. rewrite length_fmap, length_seqZ in Hi. lia. }
  assert (∃ k, deleted_bytes size s name n = bsize b + k * W) as [kb Ebytes].
  { unfold deleted_bytes, old_size. rewrite Eo, En. destruct (u64_ex ((object_count (bsize b) size - 1) * size)) as [k1 ->].
    match goal with |- context [u64 ?z] => destruct (u64_ex z) as [k2 ->] end. exists (k1 + k2). lia. }
  apply u64_eq_inv in X1 as [a1 X1], X2 as [a2 X2], X3 as [a3 X3]. unfold vol_bytes, vol_blobs, vol_objects in *.
  rewrite (vol_sum_delete _ s s' name b Hb (rm_blobs _ _ _ _ Hc)) in X1. rewrite (vol_sum_delete _ s s' name b Hb (rm_blobs _ _ _ _ Hc)) in X2.
  rewrite (vol_sum_delete _ s s' name b Hb (rm_blobs _ _ _ _ Hc)) in X3.
  split; cbn [DmVolumeSummary.initialized DmVolumeSummary.size DmVolumeSummary.blobCount DmVolumeSummary.objectCount]; [done|..]; apply u64_eq;
    match goal with |- context [DmPersistVolDB.apply_delta ?x ?a ?r] => destruct (apply_delta_u64 x a r) as [k ->] end.
  - exists (a1 - kb + k). rewrite Ebytes. unfold vol_bytes. lia.
  - exists (a2 + k). unfold vol_blobs. lia.
  - exists (a3 + k). rewrite En. unfold vol_objects. lia.
Qed.

(** ** Commits and deletions one after the other *)
Inductive vcmd :=
| VPut (ts : Z) (name : list Z) (metaList : option (list (list Z * list Z))) (req : BlobObjList.t) (seq : Z)
| VDelete (fuel : nat) (ts : Z → Z) (ts' : Z) (name : list Z).

Definition vexec volId (x : vcmd) c : res (t * fds_errno) :=
  match x with
  | VPut ts name metaList req seq => putBlob ts volId name metaList req seq c
  | VDelete fuel ts ts' name => deleteBlob fuel ts ts' volId name c
  end.

Fixpoint vrun volId (xs : list vcmd) c : res (t * fds_errno) :=
  match xs with
  | [] => Ret (c, ERR_OK)
  | x :: xs =>
      r ← vexec volId x c;
      let '(c, rc) := r : t * fds_errno in
      if decide (rc = ERR_OK) then vrun volId xs c else Ret (c, rc)
  end.

(** The commits and deletions of a volume in state [s], and what they make of it. *)
Definition vfits (size : Z) s (x : vcmd) : Prop :=
  match x with
  | VPut _ name metaList req seq => fits size s name req ∧ blob_ok (put_desc size s name req metaList seq) ∧
      bversion (old_blob s name) < uint64_max
  | VDelete fuel _ _ name => is_Some (c_blobs s !! name) ∧ (Z.to_nat (range_rounds size 0 (old_last size s name)) < fuel)%nat
  end.

Definition vafter (size : Z) s (x : vcmd) s' : Prop :=
  match x with
  | VPut _ name metaList req seq => committed size name metaList req seq s s'
  | VDelete _ _ _ name => removed size name s s'
  end.

Inductive path (size : Z) : vcat → list vcmd → vcat → Prop :=
| path_nil s : path size s [] s
| path_cons s x s1 xs s2 : vfits size s x → vafter size s x s1 → path size s1 xs s2 → path size s (x :: xs) s2.

Lemma vafter_unique size s x s1 s2 : vafter size s x s1 → vafter size s x s2 → s1 = s2.
Proof.
  assert (∀ a b : vcat, c_volume a = c_volume b → c_blobs a = c_blobs b → (∀ n i, c_objects a !! (n, i) = c_objects b !! (n, i)) → a = b) as Hext.
  { intros [v1 b1 o1] [v2 b2 o2]; simpl. intros -> -> H. f_equal. apply map_eq. intros [n i]. apply H. }
  destruct x as [ts name metaList req seq|fuel ts ts' name]; intros [A1 A2 A3] [B1 B2 B3]; apply Hext; try congruence;
    intros n i; by rewrite A3, B3.
Qed.

(** A volume whose statistics, once taken, are exact. *)
Record accounted volId c v s : Prop := {
  ac_open : opened volId c v s;
  ac_write : DmPersistVolDB.op_allowed v = true;
  ac_dense : dense (objSize v) s;
  ac_exact : DmPersistVolDB.volSummaryInitialized v = true → exact (objSize v) (DmPersistVolDB.volSummary v) s;
}.

Definition store_error (rc : fds_errno) : Prop :=
  rc = ERR_DISK_READ_FAILED ∨ rc = ERR_DISK_WRITE_FAILED ∨ ∃ st, st ≠ StOk ∧ rc = status2error st.

Lemma vexec_accounted volId x c v s s' : (∀ ops d, (ldb_write ops d).2 = StOk) → accounted volId c v s →
  vfits (objSize v) s x → vafter (objSize v) s x s' →
  ∃ c' rc, vexec volId x c = Ret (c', rc) ∧ (store_error rc ∨
    rc = ERR_OK ∧ ∃ v', accounted volId c' v' s' ∧ objSize v' = objSize v ∧ exact (objSize v) (DmPersistVolDB.volSummary v') s').
Proof.
  intros Hw [Ho Ha Hd Hex] Hf Haft. pose proof (op_size _ _ _ _ Ho) as Hv. pose proof (op_holds _ _ _ _ Ho) as Hh.
  pose proof (dn_sizes _ _ Hd) as Hz. destruct x as [ts name metaList req seq|fuel ts ts' name]; cbn [vexec vfits] in *.
  - destruct Hf as (Hf & Hb & Hver). destruct (putBlob_done ts volId name metaList req seq c v s Ho Hz Ha (ft_request _ _ _ _ Hf) Hb)
      as [->|[[w ->]|(d & m & d' & m' & s1 & Hcat & Hm & Hr & Hm' & Hr' & Hc & Hz' & Ho' & ->)]]; eexists _, _; (split; [done|]);
      [left; by left|left; by right; left|right; split; [done|]].
    pose proof (vafter_unique (objSize v) s (VPut ts name metaList req seq) s1 s' Hc Haft) as ->.
    pose proof (committed_dense (objSize v) s s' v name metaList req seq Hv Hd Hh Hf Hver Hc Hz') as Hd'.
    pose proof (committed_exact (objSize v) s s' v m m' name metaList req seq Hv Hd Hh (e_sorted _ _ Hm) Hr (e_sorted _ _ Hm') Hr' Hf Hc Hd' Hex) as Hex'.
    eexists. split; [split; [exact Ho'|exact Ha|exact Hd'|intros _; exact Hex']|]. split; [done|exact Hex'].
  - destruct Hf as [[b Hb] Hfuel].
    assert (fresh s name = false) as Hfr by (by rewrite (fresh_dense _ _ _ Hd), Hb).
    destruct (deleteBlob_done fuel ts ts' volId name c v s Hw Ho Hz Hfr Hfuel)
      as [->|[(st & Hst & ->)|[[w ->]|(d & m & d' & m' & s1 & Hcat & Hm & Hr & Hm' & Hr' & Hc & Hz' & Ho' & ->)]]];
      eexists _, _; (split; [done|]); [left; by left|left; right; right; by exists st|left; by right; left|right; split; [done|]].
    pose proof (vafter_unique (objSize v) s (VDelete fuel ts ts' name) s1 s' Hc Haft) as ->.
    pose proof (removed_dense (objSize v) s s' name Hd Hv (holds_size _ _ name Hh) Hc Hz') as Hd'.
    pose proof (removed_exact (objSize v) s s' v m m' name b Hv Hd Hh Hb (e_sorted _ _ Hm) Hr (e_sorted _ _ Hm') Hr' Hc Hd' Hex) as Hex'.
    eexists. split; [split; [exact Ho'|exact Ha|exact Hd'|intros _; exact Hex']|]. split; [done|exact Hex'].
Qed.

(** C13. The statistics of a volume stay exact over commits and deletions of
    whole objects.  Conditions ([accounted], [vfits]): the volume is open and
    may be written and the store takes writes; every blob has a positive size,
    a version, and exactly the objects [0 .. count - 1], none of them null; the
    statistics, if taken already, are exact.  Each commit brings at least one
    object, no null object, its offsets follow each other without a gap and
    start in the blob or at its end, all of them but the last are full, and so
    is the last when it neither ends the blob nor reaches its last object; its
    descriptor can be stored and the version does not overflow.  Each deletion
    is of a blob that is there.  Then, after any such run, the size, the number
    of blobs and the number of objects the volume keeps are the sums over its
    blobs, in 64 bits, whether they were taken before or are first taken by one
    of the operations.  The run returns, and stops early only with an error of
    the store.  Commits of metadata only are outside the theorem, and
    [empty_blob_statistics] shows that they spoil the sums. *)
Theorem volume_accounts volId (xs : list vcmd) c v s s' : (∀ ops d, (ldb_write ops d).2 = StOk) → accounted volId c v s →
  path (objSize v) s xs s' →
  ∃ c' rc, vrun volId xs c = Ret (c', rc) ∧ (store_error rc ∨
    rc = ERR_OK ∧ ∃ v', accounted volId c' v' s' ∧ (xs ≠ [] → exact (objSize v) (DmPersistVolDB.volSummary v') s')).
Proof.
  intros Hw Hac Hp. remember (objSize v) as size eqn:Esz. revert c v Hac Esz. induction Hp as [s|s x s1 xs s2 Hf Haft Hp IH]; intros c v Hac Esz.
  { exists c, ERR_OK. split; [done|]. right. split; [done|]. by exists v. }
  subst size. destruct (vexec_accounted volId x c v s s1 Hw Hac Hf Haft) as (c1 & rc & E & Hrc). cbn [vrun]. rewrite E, bind_Ret.
  destruct Hrc as [Herr|(-> & v1 & Hac1 & Esz & Hex1)].
  - rewrite decide_False; [by exists c1, rc; split; [|left]|].
    destruct Herr as [->|[->|(st & Hst & ->)]]; [done..|by destruct st].
  - rewrite decide_True by done. destruct (IH c1 v1 Hac1 (eq_sym Esz)) as (c2 & rc2 & E2 & H2). exists c2, rc2. split; [done|].
    destruct H2 as [H2|(-> & v2 & Hac2 & Hex2)]; [by left|right]. split; [done|]. exists v2. split; [done|]. intros _.
    destruct xs as [|y ys]; [|by apply Hex2]. inversion Hp; subst. cbn [vrun] in E2. injection E2 as <-.
    pose proof (op_find _ _ _ _ (ac_open _ _ _ _ Hac1)) as F1. pose proof (op_find _ _ _ _ (ac_open _ _ _ _ Hac2)) as F2. congruence.
Qed.

End Stats.
