(* ===== verification/VolumeCases.v ===== *)
(** * The volume catalog: blobs without objects, large blobs, lost errors

    Cases in which [DmVolumeCatalog] does not do what it means to, each for
    any volume and store, and the concrete volumes of the examples for the
    theorems of [VolumeCatalogSpec] and [VolumeStats]. *)

From S2P Require Import Prelude.
From S2P Require Import Serialize.
From S2P Require Import ObjectId.
From S2P Require Import OrderedMap.
From S2P Require Import DmBlobTypes.
From S2P Require Import CatalogKeys.
From S2P Require Import PersistVolDB.
From S2P Require Import PersistVolSpec.
From S2P Require Import PersistVolList.
From S2P Require Import VolumeCatalog.
From S2P Require Import VolumeCatalogSpec.
From S2P Require Import VolumeStats.
Open Scope Z_scope.

Section Cases.
Context {D : Type} {L : LevelDB D} {LL : LevelDBLaws L} {P : TProtocol} {PL : TProtocolLaws P}.
Implicit Types (d : D) (m : list (ckey * list Z)) (s : vcat) (v : DmPersistVolDB.t (D:=D)) (c : DmVolumeCatalog.t (D:=D)).
Implicit Types (b : BlobMetaDesc.t) (name : list Z) (volId : Z).
Import DmVolumeCatalog.

Notation objSize v := (DmPersistVolDB.objSize v).

(** ** Blobs without objects *)
(** The descriptor [putBlobMeta] gives to a new blob. *)
Definition empty_desc name (metaList : option (list (list Z * list Z))) (seq : Z) : BlobMetaDesc.t :=
  commit_desc name true (Z.max 0 seq) 0 metaList BlobMetaDesc.make.

(** The descriptor it gives to any blob. *)
Definition meta_desc s name (metaList : option (list (list Z * list Z))) (seq : Z) : BlobMetaDesc.t :=
  commit_desc name (fresh s name) (Z.max (bseq (old_blob s name)) seq) (bsize (old_blob s name)) metaList (old_blob s name).

Lemma meta_desc_name v s name metaList seq : holds v s → bname (meta_desc s name metaList seq) = name.
Proof.
  intros Hh. unfold meta_desc, commit_desc. simpl. destruct (fresh s name) eqn:Hf; [done|]. unfold fresh, old_blob in *.
  destruct (c_blobs s !! name) as [b|] eqn:E; [|done]. apply (holds_blob v s name b Hh E).
Qed.

Lemma putBlobMeta_done ts volId name metaList seq c v s : opened volId c v s → DmPersistVolDB.op_allowed v = true →
  blob_ok (meta_desc s name metaList seq) →
  ∃ c' rc, putBlobMeta ts volId name metaList seq c = Ret (c', rc) ∧ (store_error rc ∨
    rc = ERR_OK ∧ ∃ d', c' = with_vol volId (DmPersistVolDB.with_catalog d' v) c ∧
      opened volId c' (DmPersistVolDB.with_catalog d' v) (apply_changes s [CBlob name (meta_desc s name metaList seq)])).
Proof.
  intros Ho Ha Hb. pose proof Ho as [Hf Hact Hv Hh]. unfold putBlobMeta.
  destruct (getBlobMetaDesc_opened volId c v s name Ho) as [-> | ->]; rewrite bind_Ret;
    [|rewrite decide_False by naive_solver; by eexists _, _; split; [|left; left]].
  rewrite decide_True by (destruct (fresh s name); naive_solver). cbv zeta. unfold checked. rewrite Hf.
  assert (bool_decide ((if fresh s name then ERR_CAT_ENTRY_NOT_FOUND else ERR_OK) = ERR_CAT_ENTRY_NOT_FOUND) = fresh s name) as ->
    by (by destruct (fresh s name)). fold (meta_desc s name metaList seq).
  destruct (exec_updated (λ _, ts) (PutBlobMetaDesc name (meta_desc s name metaList seq)) v s Hv) as (v' & rc & E & Hu & d' & ->);
    [split; [done|by eapply meta_desc_name]|done|done|]. simpl in E. unfold changing. rewrite E, bind_Ret. cbn [fst snd].
  eexists _, _. split; [done|]. destruct Hu as [[-> Hh']| ->]; [right|left; by right; left]. split; [done|]. exists d'. split; [done|].
  split; [apply find_with_vol, (find_vol_deleted _ _ _ Hf)|done..].
Qed.

Lemma putBlobMeta_new ts volId name metaList seq c v s : opened volId c v s → DmPersistVolDB.op_allowed v = true →
  c_blobs s !! name = None → blob_ok (empty_desc name metaList seq) →
  ∃ c' rc, putBlobMeta ts volId name metaList seq c = Ret (c', rc) ∧ (store_error rc ∨
    rc = ERR_OK ∧ ∃ d', c' = with_vol volId (DmPersistVolDB.with_catalog d' v) c ∧
      opened volId c' (DmPersistVolDB.with_catalog d' v) (apply_changes s [CBlob name (empty_desc name metaList seq)])).
Proof.
  intros Ho Ha Hn Hb. assert (meta_desc s name metaList seq = empty_desc name metaList seq) as E.
  { unfold meta_desc, fresh, old_blob. by rewrite Hn. }
  rewrite <-E in *. by apply putBlobMeta_done.
Qed.

Lemma meta_sizes size s name metaList seq : 0 < size → sizes_ok size s →
  sizes_ok size (apply_changes s [CBlob name (meta_desc s name metaList seq)]).
Proof.
  intros Hs Hz n b Hn. simpl in Hn. apply lookup_insert_Some in Hn as [[<- <-]|[_ Hn]]; [by apply sizes_old|by apply (Hz n)].
Qed.

(** The statistics after deleting a blob of which no object was found. *)
Lemma no_object_deltas (size x y z : Z) : 0 < size < 2 ^ 32 →
  DmPersistVolDB.apply_delta x 0 (u64 (u64 ((0 - 1) * size) + 0)) = u64 (x + size) ∧
  DmPersistVolDB.apply_delta y 0 1 = u64 (y - 1) ∧ DmPersistVolDB.apply_delta z 0 0 = u64 z.
Proof.
  intros Hs. split_and!.
  - assert (u64 (u64 ((0 - 1) * size) + 0) = W - size) as ->.
    { rewrite Z.add_0_r. replace ((0 - 1) * size) with (W - size + (-1) * W) by lia.
      rewrite u64_shift, (u64_small (W - size)) by (unfold uint64_max; lia). apply u64_small. unfold uint64_max. lia. }
    unfold DmPersistVolDB.apply_delta. rewrite decide_False by lia. replace (x - _) with (x + size + (-1) * W) by lia. apply u64_shift.
  - unfold DmPersistVolDB.apply_delta. by rewrite decide_False by lia.
  - unfold DmPersistVolDB.apply_delta. by rewrite decide_True, Z.add_0_r by lia.
Qed.

(** Making and deleting a blob without objects spoils the statistics of its
    volume: unless the database reports an error, creating it is not counted,
    deleting it counts one blob less, and the size of the volume grows by the
    size of one object, because [objList.size() - 1] is taken of an empty
    list. *)
Theorem empty_blob_statistics (fuel : nat) (ts1 : Z) (ts : Z → Z) (ts2 : Z) volId name (metaList : option (list (list Z * list Z)))
    (seq : Z) c v s : (∀ ops d, (ldb_write ops d).2 = StOk) → opened volId c v s → sizes_ok (objSize v) s →
  DmPersistVolDB.op_allowed v = true → DmPersistVolDB.volSummaryInitialized v = true →
  c_blobs s !! name = None → c_objects s !! (name, 0) = None → blob_ok (empty_desc name metaList seq) → (1 < fuel)%nat →
  ∃ c1 rc1, putBlobMeta ts1 volId name metaList seq c = Ret (c1, rc1) ∧ (store_error rc1 ∨ rc1 = ERR_OK ∧
    (∃ v1, find_vol volId c1 = Some v1 ∧ DmPersistVolDB.volSummary v1 = DmPersistVolDB.volSummary v) ∧
    ∃ c2 rc2, deleteBlob fuel ts ts2 volId name c1 = Ret (c2, rc2) ∧ (store_error rc2 ∨ rc2 = ERR_OK ∧
      ∃ v2 s2, opened volId c2 v2 s2 ∧ c_blobs s2 = c_blobs s ∧
        DmPersistVolDB.volSummary v2 = DmVolumeSummary.Make true
          (u64 (DmVolumeSummary.size (DmPersistVolDB.volSummary v) + objSize v))
          (u64 (DmVolumeSummary.blobCount (DmPersistVolDB.volSummary v) - 1))
          (u64 (DmVolumeSummary.objectCount (DmPersistVolDB.volSummary v))))).
Proof.
  intros Hw Ho Hz Ha Hi Hn Hno Hb Hfuel. pose proof (op_size _ _ _ _ Ho) as Hv. assert (0 < objSize v) as Hs by apply Hv.
  destruct (putBlobMeta_new ts1 volId name metaList seq c v s Ho Ha Hn Hb) as (c1 & rc1 & E1 & H1).
  exists c1, rc1. split; [done|]. destruct H1 as [H1|(-> & d1 & -> & Ho1)]; [by left|right]. split; [done|].
  set (s1 := apply_changes s [CBlob name (empty_desc name metaList seq)]) in *. set (v1 := DmPersistVolDB.with_catalog d1 v) in *.
  split; [exists v1; split; [apply Ho1|done]|].
  assert (old_blob s1 name = empty_desc name metaList seq) as Eo by (unfold old_blob; simpl; by rewrite lookup_insert_eq).
  assert (old_last (objSize v1) s1 name = 0) as El by (unfold old_last, old_size; rewrite Eo; done).
  assert (sizes_ok (objSize v1) s1) as Hz1.
  { intros k b Hk. simpl in Hk. apply lookup_insert_Some in Hk as [[<- <-]|[_ Hk]]; [|by apply (Hz k)].
    split; [done|]. simpl. by rewrite Z.div_0_l by lia. }
  destruct (deleteBlob_done fuel ts ts2 volId name (with_vol volId v1 c) v1 s1 Hw Ho1 Hz1)
    as [->|[(st & Hst & ->)|[[w ->]|(d & m & d' & m' & s2 & _ & Hm & Hr & _ & _ & Hrm & _ & Ho2 & ->)]]];
    [unfold fresh; rewrite Eo; done|rewrite El; unfold range_rounds; rewrite decide_True by done; rewrite Z.sub_0_r, Z.div_0_l by (simpl; lia); done|..];
    eexists _, _; (split; [done|]); [left; by left|left; right; right; by exists st|left; by right; left|right].
  split; [done|]. eexists _, s2. split; [exact Ho2|]. split.
  { rewrite (rm_blobs _ _ _ _ Hrm). simpl. by rewrite delete_insert_id. }
  assert (objects_in name 0 (old_last (objSize v1) s1 name / objSize v1) m = []) as ->.
  { rewrite El, Z.div_0_l by (simpl; lia). destruct (objects_in name 0 0 m) as [|[i oid] l] eqn:E; [done|exfalso].
    assert ((i, oid) ∈ objects_in name 0 0 m) as Hin by (rewrite E; by left). apply objects_in_elem in Hin as [Hi' Hin]; [|apply Hm].
    rewrite (r_object _ _ Hr) in Hin. simpl in Hin. assert (i = 0) as -> by lia. congruence. }
  cbn [DmPersistVolDB.volSummary DmPersistVolDB.with_summary]. unfold summary_after.
  change (DmPersistVolDB.volSummaryInitialized v1) with (DmPersistVolDB.volSummaryInitialized v). rewrite Hi. cbv zeta.
  unfold deleted_bytes, old_size. rewrite Eo. change (getLastObjSize (bsize (empty_desc name metaList seq)) (objSize v1)) with 0.
  destruct (no_object_deltas (objSize v) (DmVolumeSummary.size (DmPersistVolDB.volSummary v)) (DmVolumeSummary.blobCount (DmPersistVolDB.volSummary v))
    (DmVolumeSummary.objectCount (DmPersistVolDB.volSummary v)) Hv) as (<- & <- & <-). done.
Qed.

(** ** Large blobs *)
(** Reading a blob from a snapshot, which a migration of the volume does,
    stops below four gigabytes: the offset meant to be that of the last object
    is computed in 32 bits, so the objects from [2^32 - objSize] on are left
    out, whatever the size of the blob.  Objects have a power of two as size. *)
Theorem snapshot_read_stops (k : Z) volId name (meta : BlobMetaDesc.t) (obj_list : list (Z * Z * list Z)) (snap : D) c v s sn :
  opened volId c v s → represents snap sn → 0 ≤ k ≤ 30 → objSize v = 2 ^ k →
  ∃ meta' l rc, getBlobAndMetaFromSnapshot volId name meta obj_list snap c = Ret (meta', obj_list ++ l, rc) ∧
    ∀ o oid, (o, objSize v, oid) ∈ l ↔ ∃ i, o = i * objSize v ∧ 0 ≤ o ≤ 2 ^ 32 - 2 * objSize v ∧ c_objects sn !! (name, i) = Some oid.
Proof.
  intros [Hf Hact Hv _] (m & Hm & Hr) Hk Ek. assert (0 < objSize v) as Hs by apply Hv.
  unfold getBlobAndMetaFromSnapshot, active, checked. rewrite Hf, Hact.
  assert (∃ loaded rc, DmPersistVolDB.getBlobMetaDesc name snap = Ret (loaded, rc)) as (loaded & rc & ->).
  { destruct (read_blob name snap sn) as [-> | ->]; [by exists m|by destruct (c_blobs sn !! name); eexists _, _|by eexists _, _]. }
  rewrite bind_Ret. cbv zeta. cbn [fst].
  assert (2 ^ 32 = objSize v * 2 ^ (32 - k)) as E32 by (rewrite Ek, <-Z.pow_add_r by lia; f_equal; lia).
  assert (4 ≤ 2 ^ (32 - k)) as H4 by (change 4 with (2 ^ 2); apply Z.pow_le_mono_r; lia).
  assert (u32 ((uint32_max - 1) * objSize v) = 2 ^ 32 - 2 * objSize v) as ->.
  { unfold uint32_max. replace ((4294967295 - 1) * objSize v) with (2 ^ 32 - 2 * objSize v + (objSize v - 1) * 4294967296) by lia.
    unfold u32. rewrite Z.mod_add by lia. apply Z.mod_small. nia. }
  assert (2 ^ 32 - 2 * objSize v = (2 ^ (32 - k) - 2) * objSize v) as El by lia.
  assert ((2 ^ 32 - 2 * objSize v) / objSize v = 2 ^ (32 - k) - 2) as Ed by (rewrite El; apply Z.div_mul; lia).
  rewrite (read_range name 0 (2 ^ 32 - 2 * objSize v) obj_list v snap m), bind_Ret; try done.
  - eexists _, _, _. split; [done|]. intros o oid. rewrite list_elem_of_fmap, Ed. split.
    + intros ([i x] & [= -> ->] & Hin). apply objects_in_elem in Hin as [Hi Hin]; [|apply Hm]. rewrite (r_object _ _ Hr) in Hin. simpl.
      exists i. rewrite Z.div_0_l in Hi by lia. rewrite i64_small by (rewrite E32 in *; nia). split_and!; [done|nia|nia|done].
    + intros (i & -> & Hi & Hin). exists (i, oid). split; [simpl; by rewrite i64_small by lia|].
      apply objects_in_elem; [apply Hm|]. rewrite (r_object _ _ Hr), Z.div_0_l by lia. split; [nia|done].
  - split; [nia|]. rewrite Ed. unfold uint32_max. nia.
  - unfold aligned. rewrite El. apply Z.mod_mul. lia.
Qed.

End Cases.

(** ** A volume without blobs *)
Definition new_volume (q : DmVolumeSummary.t) : DmPersistVolDB.t (D:=list (list Z * list Z)) :=
  DmPersistVolDB.Make (Some []) 4096 false false q 0 None true false.

Definition new_catalog (q : DmVolumeSummary.t) : DmVolumeCatalog.t (D:=list (list Z * list Z)) :=
  DmVolumeCatalog.Make {[ 1 := new_volume q ]} true.

(** Two objects, the last of 100 bytes, which end the blob. *)
Definition new_request : BlobObjList.t :=
  BlobObjList.Make [(0, BlobObjInfo.Make (demo_oid 1) 4096); (4096, BlobObjInfo.Make (demo_oid 2) 100)] true.

Lemma new_related : entries ([] : list (list Z * list Z)) [] ∧ related [] demo_empty.
Proof.
  split; [by split; [|constructor|]|]. split; try done; intros; rewrite ?lookup_empty in *; done.
Qed.

Lemma new_opened q : opened 1 (new_catalog q) (new_volume q) demo_empty.
Proof. split; [done|done|by split|]. exists []. split; [done|]. exists []. apply new_related. Qed.

Lemma new_dense : dense 4096 demo_empty.
Proof.
  split; [done|done| |done]. intros n i. change (c_objects demo_empty !! (n, i)) with (None : option (list Z)).
  change (old_blob demo_empty n) with BlobMetaDesc.make. simpl.
  change (DmVolumeCatalog.object_count 0 4096) with 0. split; [intros Hx; by destruct Hx|lia].
Qed.

Lemma new_request_ok : request_ok 4096 new_request.
Proof.
  split; [repeat constructor|done|]. intros x Hx. unfold new_request in Hx. simpl in Hx.
  apply elem_of_cons in Hx as [->|Hx]; [|apply list_elem_of_singleton in Hx as ->].
  - split_and!; done.
  - split_and!; done.
Qed.

Lemma new_contiguous : contiguous 4096 0 new_request.
Proof.
  split; [done| |done]. intros x Hx. unfold new_request in Hx. simpl in Hx.
  apply elem_of_cons in Hx as [->|Hx]; [done|apply list_elem_of_singleton in Hx as ->]. done.
Qed.

Lemma new_desc_ok : blob_ok (put_desc 4096 demo_empty [97] new_request None 7).
Proof.
  assert (uint64_max = 2 ^ 64 - 1) by reflexivity. split; try done. split; [constructor|by intros x ?%elem_of_nil].
Qed.

Lemma new_fits : fits 4096 demo_empty [97] new_request.
Proof.
  split; [apply new_request_ok|exists 0; split; [apply new_contiguous|done]|done|].
  intros x Hx. unfold new_request in Hx. simpl in Hx. by apply elem_of_cons in Hx as [->|Hx]; [|apply list_elem_of_singleton in Hx as ->].
Qed.

Lemma putBlob_spec_witness : ∃ c' rc, DmVolumeCatalog.putBlob 0 1 [97] None new_request 7 (new_catalog DmVolumeSummary.make) = Ret (c', rc) ∧
  (rc = ERR_DISK_READ_FAILED ∨ rc = ERR_DISK_WRITE_FAILED ∨
   rc = ERR_OK ∧ ∃ v' s', opened 1 c' v' s' ∧ c_objects s' !! ([97], 1) = Some (demo_oid 2)).
Proof.
  destruct (putBlob_spec 0 1 [97] None new_request 7 (new_catalog DmVolumeSummary.make) (new_volume DmVolumeSummary.make) demo_empty)
    as (c' & rc & E & _ & H).
  - apply new_opened.
  - apply new_dense.
  - reflexivity.
  - apply new_request_ok.
  - apply new_desc_ok.
  - exists c', rc. split; [exact E|]. destruct H as [H|[H|(H & v' & s' & Ho & _ & Hc)]]; [left; exact H|right; left; exact H|].
    right; right. split; [exact H|]. exists v', s'. split; [exact Ho|]. rewrite (cm_objects _ _ _ _ _ _ _ Hc). reflexivity.
Defined.

Lemma putBlob_getBlob_witness : ∃ c' rc, DmVolumeCatalog.putBlob 0 1 [97] None new_request 7 (new_catalog DmVolumeSummary.make) = Ret (c', rc) ∧
  (rc = ERR_DISK_READ_FAILED ∨ rc = ERR_DISK_WRITE_FAILED ∨ rc = ERR_OK ∧
   ∃ out rc', DmVolumeCatalog.getBlob 1 [97] 0 (-1) 0 [] [] c' = Ret (out, rc') ∧
     (rc' = ERR_DISK_READ_FAILED ∨ (∃ st, st ≠ StOk ∧ rc' = status2error st) ∨
      rc' = ERR_OK ∧ out = (1, [], [(0, 4096, demo_oid 1); (4096, 100, demo_oid 2)], 4196))).
Proof.
  apply (putBlob_getBlob 0 1 [97] None new_request 7 0 [] (new_catalog DmVolumeSummary.make) (new_volume DmVolumeSummary.make) demo_empty).
  - apply new_opened.
  - apply new_dense.
  - reflexivity.
  - apply new_request_ok.
  - apply new_contiguous.
  - reflexivity.
  - apply new_desc_ok.
  - reflexivity.
Defined.

(** The commit and then the deletion of the blob. *)
Definition new_state : vcat := apply_changes demo_empty (effect 4096 (PutBatch [97] (put_desc 4096 demo_empty [97] new_request None 7) new_request [])).

Lemma new_committed : committed 4096 [97] None new_request 7 demo_empty new_state.
Proof.
  apply (put_committed 1 (new_catalog DmVolumeSummary.make) (new_volume DmVolumeSummary.make) [] [] demo_empty [97] None new_request 7);
    [apply new_opened|apply new_related|apply new_related|apply new_dense|apply new_request_ok].
Qed.

Definition new_cmds : list vcmd := [VPut 0 [97] None new_request 7; VDelete 3 (λ i, i) 0 [97]].

Lemma volume_accounts_witness : ∃ c' rc, vrun 1 new_cmds (new_catalog DmVolumeSummary.make) = Ret (c', rc) ∧ (store_error rc ∨
  rc = ERR_OK ∧ ∃ v' s', opened 1 c' v' s' ∧ u64 (DmVolumeSummary.size (DmPersistVolDB.volSummary v')) = u64 (vol_bytes s')).
Proof.
  destruct (volume_accounts 1 new_cmds (new_catalog DmVolumeSummary.make) (new_volume DmVolumeSummary.make) demo_empty
    (apply_changes new_state (effect 4096 (DeleteObjects [97] 0 (old_last 4096 new_state [97])) ++ [CNoBlob [97]])))
    as (c' & rc & E & H).
  - reflexivity.
  - split; [apply new_opened|reflexivity|apply new_dense|discriminate].
  - apply (path_cons _ _ _ new_state); [split; [apply new_fits|split; [apply new_desc_ok|reflexivity]]|apply new_committed|].
    eapply path_cons; [split; [exists (put_desc 4096 demo_empty [97] new_request None 7); reflexivity|]| |apply path_nil].
    + vm_compute. repeat constructor.
    + apply (delete_removed (new_volume DmVolumeSummary.make) new_state [97]); [split; reflexivity|reflexivity|discriminate].
  - exists c', rc. split; [exact E|]. destruct H as [H|(H & v' & Ha & Hx)]; [left; exact H|right]. split; [exact H|].
    eexists v', _. split; [apply Ha|]. apply (ex_bytes _ _ _ (Hx ltac:(discriminate))).
Defined.

Lemma empty_blob_statistics_witness : ∃ c1 rc1,
  DmVolumeCatalog.putBlobMeta 0 1 [97] None 7 (new_catalog (DmVolumeSummary.Make true 0 0 0)) = Ret (c1, rc1) ∧ (store_error rc1 ∨ rc1 = ERR_OK ∧
    ∃ c2 rc2, DmVolumeCatalog.deleteBlob 2 (λ i, i) 0 1 [97] c1 = Ret (c2, rc2) ∧ (store_error rc2 ∨ rc2 = ERR_OK ∧
      ∃ v2 s2, opened 1 c2 v2 s2 ∧ DmPersistVolDB.volSummary v2 = DmVolumeSummary.Make true 4096 18446744073709551615 0)).
Proof.
  destruct (empty_blob_statistics 2 0 (λ i, i) 0 1 [97] None 7 (new_catalog (DmVolumeSummary.Make true 0 0 0))
    (new_volume (DmVolumeSummary.Make true 0 0 0)) demo_empty) as (c1 & rc1 & E1 & H1).
  - reflexivity.
  - apply new_opened.
  - apply new_dense.
  - reflexivity.
  - reflexivity.
  - reflexivity.
  - reflexivity.
  - split; try reflexivity; try (split; [discriminate|discriminate]). split; [constructor|by intros x ?%elem_of_nil].
  - apply Nat.lt_succ_diag_r.
  - exists c1, rc1. split; [exact E1|]. destruct H1 as [H1|(-> & _ & c2 & rc2 & E2 & H2)]; [left; exact H1|right]. split; [reflexivity|].
    exists c2, rc2. split; [exact E2|]. destruct H2 as [H2|(-> & v2 & s2 & Ho & _ & Hq)]; [left; exact H2|right]. split; [reflexivity|].
    exists v2, s2. split; [exact Ho|exact Hq].
Defined.

Lemma snapshot_read_stops_witness : ∃ meta' l rc,
  DmVolumeCatalog.getBlobAndMetaFromSnapshot 1 [99] BlobMetaDesc.make [] demo_store (new_catalog DmVolumeSummary.make) = Ret (meta', l, rc) ∧
  ∀ o oid, (o, 4096, oid) ∈ l ↔ ∃ i, o = i * 4096 ∧ 0 ≤ o ≤ 2 ^ 32 - 2 * 4096 ∧ c_objects demo_state !! ([99], i) = Some oid.
Proof.
  apply (snapshot_read_stops 12 1 [99] BlobMetaDesc.make [] demo_store (new_catalog DmVolumeSummary.make) (new_volume DmVolumeSummary.make)
    demo_empty demo_state).
  - apply new_opened.
  - apply demo_represents.
  - split; discriminate.
  - reflexivity.
Defined.

(** ** A store that does not delete descriptors *)
Definition deletes_blob (o : ldb_op) : bool :=
  match o with Delete k => DmPersistVolDB.is_type BLOB_METADATA k | Put _ _ => false end.

Definition stuck_store : LevelDB (list (list Z * list Z)) := {|
  ldb_dump d := d;
  ldb_write ops d := if existsb deletes_blob ops then (d, StIOError) else (foldl raw_apply d ops, StOk);
  ldb_get key d := match OMap.lookup raw_cmp key d with Some v => (v, StOk) | None => ([], StNotFound) end;
  ldb_iter_status _ := StOk;
|}.

Lemma stuck_store_laws : LevelDBLaws stuck_store.
Proof.
  split; simpl.
  - intros ops d d'. destruct (existsb deletes_blob ops); [done|]. by intros [= <-] _ _.
  - intros key d v _ _. by destruct (OMap.lookup raw_cmp key d) as [?|]; intros [= <-].
  - intros key d v _ _. by destruct (OMap.lookup raw_cmp key d).
Qed.

(** [deleteBlob] loses the error of its last write: on a store that takes
    every write but the one that deletes a descriptor, a blob is committed, its
    deletion returns [ERR_OK], and the blob is still there, at its old size and
    with none of its objects. *)
Theorem deleteBlob_hides_failure :
  (r1 ← DmVolumeCatalog.putBlob (L:=stuck_store) 0 1 [97] None new_request 7 (new_catalog DmVolumeSummary.make);
   r2 ← DmVolumeCatalog.deleteBlob (L:=stuck_store) 3 (λ i, i) 0 1 [97] (r1 : DmVolumeCatalog.t * fds_errno).1;
   r3 ← DmVolumeCatalog.getBlob (L:=stuck_store) 1 [97] 0 (-1) 0 [] [] (r2 : DmVolumeCatalog.t * fds_errno).1;
   Ret (r1.2, r2.2, r3)) = Ret (ERR_OK, ERR_OK, (1, [], [], 4196, ERR_OK)).
Proof. vm_compute. reflexivity. Qed.
