(* ===== verification/CommitLog.v ===== *)
(** * The commit log of a volume

    Models [CommitLogTx] and [DmCommitLog] (src/source/data-mgr/include/dm-tvc/
    CommitLog.h, dm-lib/dm-tvc/CommitLog.cpp): the transactions of a volume
    that are open.  A transaction is known by the value of its [BlobTxId].  An
    operation runs under the lock of the map and is one step; a transaction is
    changed in the map, where all its pointers lead, and leaves it when it is
    committed.  Clock readings are arguments, and so is the value the field
    [dmtVersion] has before it is set, which the constructor leaves alone.  The
    lists of a transaction are always there: the constructor makes them. *)

From S2P Require Import Prelude.
From S2P Require Import Serialize.
From S2P Require Import ObjectId.
From S2P Require Import OrderedMap.
From S2P Require Import DmBlobTypes.
From S2P Require Import CatalogKeys.
From S2P Require Import PersistVolDB.
Open Scope Z_scope.

(** [blob::TRUNCATE] *)
Definition TRUNCATE : Z := 1.

Module CommitLogTx.

Record t := Make {
  txDesc : option Z; name : bytes; blobMode : Z; started : Z; committed : Z;
  blobDelete : bool; blobExpunge : bool; snapshot : bool;
  blobObjList : BlobObjList.t; metaDataList : list (bytes * bytes);
  wb : list ldb_op; blobVersion : Z; blobSize : Z; dmtVersion : Z }.

(** [unset] is what the memory of [dmtVersion] holds. *)
Definition make (unset : Z) : t :=
  Make None [] 0 0 0 false false false BlobObjList.make [] [] blob_version_invalid 0 unset.

Definition with_objs (l : BlobObjList.t) (x : t) : t :=
  Make (txDesc x) (name x) (blobMode x) (started x) (committed x) (blobDelete x) (blobExpunge x) (snapshot x)
    l (metaDataList x) (wb x) (blobVersion x) (blobSize x) (dmtVersion x).
Definition with_meta (m : list (bytes * bytes)) (x : t) : t :=
  Make (txDesc x) (name x) (blobMode x) (started x) (committed x) (blobDelete x) (blobExpunge x) (snapshot x)
    (blobObjList x) m (wb x) (blobVersion x) (blobSize x) (dmtVersion x).
Definition with_batch (b : list ldb_op) (size : Z) (x : t) : t :=
  Make (txDesc x) (name x) (blobMode x) (started x) (committed x) (blobDelete x) (blobExpunge x) (snapshot x)
    (blobObjList x) (metaDataList x) b (blobVersion x) size (dmtVersion x).
Definition with_delete (expunge : bool) (version : Z) (x : t) : t :=
  Make (txDesc x) (name x) (blobMode x) (started x) (committed x) true expunge (snapshot x)
    (blobObjList x) (metaDataList x) (wb x) version (blobSize x) (dmtVersion x).
Definition with_committed (ts : Z) (x : t) : t :=
  Make (txDesc x) (name x) (blobMode x) (started x) ts (blobDelete x) (blobExpunge x) (snapshot x)
    (blobObjList x) (metaDataList x) (wb x) (blobVersion x) (blobSize x) (dmtVersion x).
Definition with_snapshot (x : t) : t :=
  Make (txDesc x) (name x) (blobMode x) (started x) (committed x) (blobDelete x) (blobExpunge x) true
    (blobObjList x) (metaDataList x) (wb x) (blobVersion x) (blobSize x) (dmtVersion x).
Definition with_start (id : Z) (n : bytes) (mode ts dmt : Z) (x : t) : t :=
  Make (Some id) n mode ts (committed x) (blobDelete x) (blobExpunge x) (snapshot x)
    (blobObjList x) (metaDataList x) (wb x) (blobVersion x) (blobSize x) dmt.

Section Serial.
Context `{P : TProtocol}.

Definition write (x : t) : res out :=
  match txDesc x with
  | None => Fault NullDeref
  | Some id =>
      let b := out_app out_nil (writeI64 id) in
      let b := out_app b (writeString (name x)) in
      let b := out_app b (writeI32 (blobMode x)) in
      let b := out_app b (writeI64 (started x)) in
      let b := out_app b (writeI64 (committed x)) in
      let b := out_app b (writeBool (blobDelete x)) in
      let b := out_app b (writeBool (snapshot x)) in
      let b := out_app b (BlobObjList.write (blobObjList x)) in
      let b := out_app b (MetaDataList.write (metaDataList x)) in
      Ret (out_app b (writeI64 (blobVersion x)))
  end.

(** Into a transaction that was just made; the fields that are not read keep
    what they have. *)
Definition read (x : t) : Rd t :=
  txId ← readI64;
  name ← readString;
  blobMode ← readI32_signed;
  started ← readI64;
  committed ← readI64;
  blobDelete ← readBool;
  snapshot ← readBool;
  blobObjList ← BlobObjList.read;
  metaDataList ← MetaDataList.read;
  blobVersion ← readI64;
  mret (Make (Some txId) name blobMode started committed blobDelete (blobExpunge x) snapshot
    blobObjList metaDataList (wb x) blobVersion (blobSize x) (dmtVersion x)).

End Serial.
End CommitLogTx.

Module DmCommitLog.

Record t := Make { txMap_ : gmap Z CommitLogTx.t; dmtVerMap_ : gmap Z Z; objSize_ : Z; started_ : bool }.

Definition make (objSize : Z) : t := Make ∅ ∅ objSize false.
Definition with_txs (m : gmap Z CommitLogTx.t) (l : t) : t := Make m (dmtVerMap_ l) (objSize_ l) (started_ l).
Definition with_counts (m : gmap Z Z) (l : t) : t := Make (txMap_ l) m (objSize_ l) (started_ l).

Definition mod_startup (l : t) : t := Make (txMap_ l) (dmtVerMap_ l) (objSize_ l) true.
Definition mod_shutdown (l : t) : t := Make (txMap_ l) (dmtVerMap_ l) (objSize_ l) false.

(** [++map[version]] and [--map[version]] of 64-bit counters *)
Definition bump (version d : Z) (m : gmap Z Z) : gmap Z Z := <[version := u64 (default 0 (m !! version) + d)]> m.

Definition validateSubsequentTx (txId : Z) (l : t) : fds_errno :=
  match txMap_ l !! txId with
  | None => ERR_DM_TX_NOT_STARTED
  | Some x => if decide (CommitLogTx.committed x ≠ 0) then ERR_DM_TX_COMMITTED else ERR_OK
  end.

Definition startTx (unset ts txId : Z) (blobName : bytes) (blobMode dmtVersion : Z) (l : t) : res (t * fds_errno) :=
  _ ← fds_verify (started_ l);
  match txMap_ l !! txId with
  | Some _ => Ret (l, ERR_DM_TX_EXISTS)
  | None =>
      let ptx := CommitLogTx.with_start txId blobName blobMode ts dmtVersion (CommitLogTx.make unset) in
      Ret (with_counts (bump dmtVersion 1 (dmtVerMap_ l)) (with_txs (<[txId := ptx]> (txMap_ l)) l), ERR_OK)
  end.

(** A change of the transaction [txId], which has to be open. *)
Definition update_with (txId : Z) (f : CommitLogTx.t → res CommitLogTx.t) (l : t) : res (t * fds_errno) :=
  _ ← fds_verify (started_ l);
  let rc := validateSubsequentTx txId l in
  if decide (rc ≠ ERR_OK) then Ret (l, rc) else
  match txMap_ l !! txId with
  | None => Fault NullDeref
  | Some tx => tx ← f tx; Ret (with_txs (<[txId := tx]> (txMap_ l)) l, rc)
  end.

Definition upsertBlobData_objs (data : BlobObjList.t) (tx : CommitLogTx.t) : res CommitLogTx.t :=
  objs ← BlobObjList.merge (CommitLogTx.blobObjList tx) data; Ret (CommitLogTx.with_objs objs tx).

Definition upsertBlobData_meta (data : list (bytes * bytes)) (tx : CommitLogTx.t) : res CommitLogTx.t :=
  Ret (CommitLogTx.with_meta (MetaDataList.merge (CommitLogTx.metaDataList tx) data) tx).

(** One entry (offset, size, digest) of an [FDSP_BlobObjectList]; the sum of
    the two signed numbers must not overflow. *)
Definition upsert_one (objSize : Z) (acc : bytes * CommitLogTx.t) (objInfo : Z * Z * bytes) : res (bytes * CommitLogTx.t) :=
  let '(objKey, tx) := acc in
  let '(offset, size, digest) := objInfo in
  if decide (objSize = 0) then Fault Undefined else
  _ ← fds_verify (bool_decide (0 = Z.rem offset objSize));
  _ ← fds_verify (bool_decide (0 < size));
  _ ← fds_verify (bool_decide (Z.lor (CommitLogTx.blobMode tx) TRUNCATE ≠ 0) || bool_decide (objSize = size));
  if decide (i64 (offset + size) ≠ offset + size) then Fault Undefined else
  let newSize := u64 (offset + size) in
  let blobSize := if decide (CommitLogTx.blobSize tx < newSize) then newSize else CommitLogTx.blobSize tx in
  objKey ← BlobObjectKey.setObjectIndex (u32 (Z.quot offset objSize)) objKey;
  Ret (objKey, CommitLogTx.with_batch (CommitLogTx.wb tx ++ [Put objKey digest]) blobSize tx).

Definition upsertBlobData_fdsp (objSize : Z) (data : list (Z * Z * bytes)) (tx : CommitLogTx.t) : res CommitLogTx.t :=
  r ← foldM (upsert_one objSize) (BlobObjectKey.make (CommitLogTx.name tx) 0, tx) data;
  Ret (r : bytes * CommitLogTx.t).2.

Definition updateTx_objs (txId : Z) (blobData : BlobObjList.t) (l : t) : res (t * fds_errno) :=
  update_with txId (upsertBlobData_objs blobData) l.
Definition updateTx_meta (txId : Z) (blobData : list (bytes * bytes)) (l : t) : res (t * fds_errno) :=
  update_with txId (upsertBlobData_meta blobData) l.
Definition updateTx_fdsp (txId : Z) (blobData : list (Z * Z * bytes)) (l : t) : res (t * fds_errno) :=
  update_with txId (upsertBlobData_fdsp (objSize_ l) blobData) l.

Definition deleteBlob (txId blobVersion : Z) (expunge_data : bool) (l : t) : res (t * fds_errno) :=
  update_with txId (λ tx, Ret (CommitLogTx.with_delete expunge_data blobVersion tx)) l.

Definition snapshotInsert (txId : Z) (l : t) : res (t * fds_errno) :=
  update_with txId (λ tx, Ret (CommitLogTx.with_snapshot tx)) l.

(** [--dmtVerMap_[ptx->dmtVersion]; txMap_.erase(txId)] *)
Definition close (txId : Z) (ptx : CommitLogTx.t) (l : t) : t :=
  with_counts (bump (CommitLogTx.dmtVersion ptx) (-1) (dmtVerMap_ l)) (with_txs (delete txId (txMap_ l)) l).

Definition commitTx (ts txId : Z) (l : t) : res (t * option CommitLogTx.t * fds_errno) :=
  _ ← fds_verify (started_ l);
  let status := validateSubsequentTx txId l in
  if decide (status ≠ ERR_OK) then Ret (l, None, status) else
  match txMap_ l !! txId with
  | None => Fault NullDeref
  | Some ptx => let ptx := CommitLogTx.with_committed ts ptx in Ret (close txId ptx l, Some ptx, status)
  end.

Definition rollbackTx (txId : Z) (l : t) : res (t * fds_errno) :=
  _ ← fds_verify (started_ l);
  let rc := validateSubsequentTx txId l in
  if decide (rc ≠ ERR_OK) then Ret (l, rc) else
  match txMap_ l !! txId with None => Fault NullDeref | Some ptx => Ret (close txId ptx l, rc) end.

Definition takeSnapshot (unset ts ts' txId : Z) (name : bytes) (l : t) : res (t * fds_errno) :=
  r ← startTx unset ts txId name 0 0 l;
  let '(l, rc) := r : t * fds_errno in
  if decide (rc ≠ ERR_OK) then Ret (l, rc) else
  r ← snapshotInsert txId l;
  let '(l, rc) := r : t * fds_errno in
  if decide (rc ≠ ERR_OK) then Ret (l, rc) else
  r ← commitTx ts' txId l;
  let '(l, _, rc) := r : t * option CommitLogTx.t * fds_errno in Ret (l, rc).

Definition pending_before (tsNano : Z) (x : CommitLogTx.t) : bool :=
  bool_decide (CommitLogTx.started x ≠ 0) && bool_decide (CommitLogTx.committed x = 0) &&
  bool_decide (CommitLogTx.started x ≤ tsNano).

(** The order of the loop does not matter. *)
Definition isPendingTx (tsNano : Z) (l : t) : bool :=
  foldl (λ ret it, if pending_before tsNano it.2 then true else ret) false (map_to_list (txMap_ l)).

Definition getActiveTx (l : t) : Z := u32 (Z.of_nat (size (txMap_ l))).

Definition checkOutstandingTx (dmtVersion : Z) (l : t) : t * bool :=
  match dmtVerMap_ l !! dmtVersion with
  | None => (l, false)
  | Some n => if decide (0 = n) then (with_counts (delete dmtVersion (dmtVerMap_ l)) l, false) else (l, true)
  end.

Definition clear (l : t) : t := with_txs ∅ l.

Section Serial.
Context `{P : TProtocol}.

(** [order] is the sequence in which the hash map gives its entries. *)
Fixpoint snapshot_each (order : list (Z * CommitLogTx.t)) (strings : list bytes) (err : fds_errno)
    : res (list bytes * fds_errno) :=
  match order with
  | [] => Ret (strings, err)
  | it :: order =>
      r ← getSerialized (CommitLogTx.write it.2) [];
      let '(s, err) := r : bytes * fds_errno in
      if decide (err ≠ ERR_OK) then Ret (strings ++ [s], err) else snapshot_each order (strings ++ [s]) err
  end.

Definition snapshotOutstandingTx (order : list (Z * CommitLogTx.t)) (strings : list bytes) : res (list bytes * fds_errno) :=
  snapshot_each order strings ERR_OK.

(** [unset] gives the memory of the transactions made, one after the other. *)
Fixpoint apply_each (unset : nat → Z) (transactions : list bytes) (err : fds_errno) (l : t) : res (t * fds_errno) :=
  match transactions with
  | [] => Ret (l, err)
  | tx :: transactions =>
      r ← loadSerialized (CommitLogTx.read (CommitLogTx.make (unset O))) tx;
      match r : option CommitLogTx.t * fds_errno with
      | (Some ptx, ERR_OK) =>
          match CommitLogTx.txDesc ptx with
          | None => Fault NullDeref
          | Some txId => apply_each (λ n, unset (S n)) transactions ERR_OK (with_txs (<[txId := ptx]> (txMap_ l)) l)
          end
      | (_, err) => Ret (l, err)
      end
  end.

Definition applySerializedTxs (unset : nat → Z) (transactions : list bytes) (l : t) : res (t * fds_errno) :=
  apply_each unset transactions ERR_OK l.

End Serial.
End DmCommitLog.
