(* ===== verification/CommitLogSpec.v ===== *)
(** * What the commit log promises

    The abstract log maps an open transaction to its history: how it was
    started and the updates it was given, in order.  [DmCommitLog] refines it:
    every operation of every run gives the answer the abstract log gives, and a
    commit delivers the contents the history of the transaction determines,
    whatever other transactions did in between.  The counts of open
    transactions per version of the data management table agree with the
    histories.  The transactions of a log survive being sent to another data
    manager, except for the fields that are not sent. *)

From S2P Require Import Prelude.
From S2P Require Import Serialize.
From S2P Require Import ObjectId.
From S2P Require Import OrderedMap.
From S2P Require Import DmBlobTypes.
From S2P Require Import CatalogKeys.
From S2P Require Import PersistVolDB.
From S2P Require Import CommitLog.
Open Scope Z_scope.

(** ** Histories *)
Inductive upd := UObjs (data : BlobObjList.t) | UMeta (data : list (bytes * bytes)) | UDelete (version : Z) (expunge : bool).

Record history := History { h_name : bytes; h_mode : Z; h_time : Z; h_dmt : Z; h_updates : list upd }.

Definition add_update (u : upd) (h : history) : history :=
  History (h_name h) (h_mode h) (h_time h) (h_dmt h) (h_updates h ++ [u]).

(** The object an offset is given first, the value a key is given last and the
    last request to delete the blob. *)
Definition objects_at (o : Z) (us : list upd) : list BlobObjInfo.t :=
  omap (λ u, match u with UObjs d => OMap.lookup Z.compare o (BlobObjList.objs d) | _ => None end) us.
Definition values_at (k : bytes) (us : list upd) : list bytes :=
  omap (λ u, match u with UMeta m => OMap.lookup bytes_cmp k m | _ => None end) us.
Definition deletes (us : list upd) : list (Z * bool) :=
  omap (λ u, match u with UDelete v e => Some (v, e) | _ => None end) us.

(** The operations on a log, and their answers. *)
Inductive lop :=
| LStart (unset ts id : Z) (name : bytes) (mode dmt : Z)
| LUpdate (id : Z) (u : upd)
| LCommit (ts id : Z)
| LAbort (id : Z)
| LSnapshot (unset ts ts' id : Z) (name : bytes)
| LCheck (dmt : Z).

Inductive answer (X : Type) := Code (e : fds_errno) | Data (x : option X) (e : fds_errno) | Flag (b : bool).
Arguments Code {X} e.
Arguments Data {X} x e.
Arguments Flag {X} b.

Definition update_op (id : Z) (u : upd) (l : DmCommitLog.t) : res (DmCommitLog.t * fds_errno) :=
  match u with
  | UObjs d => DmCommitLog.updateTx_objs id d l
  | UMeta m => DmCommitLog.updateTx_meta id m l
  | UDelete v e => DmCommitLog.deleteBlob id v e l
  end.

Definition lexec (o : lop) (l : DmCommitLog.t) : res (DmCommitLog.t * answer CommitLogTx.t) :=
  let code (r : DmCommitLog.t * fds_errno) := (r.1, Code r.2) in
  match o with
  | LStart unset ts id name mode dmt => code <$> DmCommitLog.startTx unset ts id name mode dmt l
  | LUpdate id u => code <$> update_op id u l
  | LCommit ts id => (λ r, (r.1.1, Data r.1.2 r.2)) <$> DmCommitLog.commitTx ts id l
  | LAbort id => code <$> DmCommitLog.rollbackTx id l
  | LSnapshot unset ts ts' id name => code <$> DmCommitLog.takeSnapshot unset ts ts' id name l
  | LCheck dmt => let r := DmCommitLog.checkOutstandingTx dmt l in Ret (r.1, Flag r.2)
  end.

Fixpoint lrun (os : list lop) (l : DmCommitLog.t) : res (DmCommitLog.t * list (answer CommitLogTx.t)) :=
  match os with
  | [] => Ret (l, [])
  | o :: os => r ← lexec o l; r' ← lrun os (r : DmCommitLog.t * answer CommitLogTx.t).1; Ret (r'.1, r.2 :: r'.2)
  end.

(** ** The abstract log *)
Notation alog := (gmap Z history).
Notation with_dmt v a := (filter (λ x : Z * history, h_dmt x.2 = v) a).

Definition astep (o : lop) (a : alog) : alog * answer history :=
  match o with
  | LStart _ ts id name mode dmt =>
      match a !! id with
      | Some _ => (a, Code ERR_DM_TX_EXISTS)
      | None => (<[id := History name mode ts dmt []]> a, Code ERR_OK)
      end
  | LUpdate id u =>
      match a !! id with
      | Some h => (<[id := add_update u h]> a, Code ERR_OK)
      | None => (a, Code ERR_DM_TX_NOT_STARTED)
      end
  | LCommit _ id =>
      match a !! id with
      | Some h => (delete id a, Data (Some h) ERR_OK)
      | None => (a, Data None ERR_DM_TX_NOT_STARTED)
      end
  | LAbort id =>
      match a !! id with
      | Some _ => (delete id a, Code ERR_OK)
      | None => (a, Code ERR_DM_TX_NOT_STARTED)
      end
  | LSnapshot _ _ _ id _ => (a, Code (match a !! id with Some _ => ERR_DM_TX_EXISTS | None => ERR_OK end))
  | LCheck dmt => (a, Flag (bool_decide (with_dmt dmt a ≠ ∅)))
  end.

Fixpoint arun (os : list lop) (a : alog) : alog * list (answer history) :=
  match os with
  | [] => (a, [])
  | o :: os => let r := astep o a in let r' := arun os r.1 in (r'.1, r.2 :: r'.2)
  end.

(** ** The relation *)
(** What the history of a transaction says about the transaction. *)
Record contents (id : Z) (h : history) (x : CommitLogTx.t) : Prop := {
  tc_id : CommitLogTx.txDesc x = Some id;
  tc_name : CommitLogTx.name x = h_name h;
  tc_mode : CommitLogTx.blobMode x = h_mode h;
  tc_time : CommitLogTx.started x = h_time h;
  tc_dmt : CommitLogTx.dmtVersion x = h_dmt h;
  tc_sorted : OMap.sorted Z.compare (BlobObjList.objs (CommitLogTx.blobObjList x));
  tc_open : BlobObjList.end_of_blob (CommitLogTx.blobObjList x) = false;
  tc_objs o : OMap.lookup Z.compare o (BlobObjList.objs (CommitLogTx.blobObjList x)) = head (objects_at o (h_updates h));
  tc_msorted : OMap.sorted bytes_cmp (CommitLogTx.metaDataList x);
  tc_meta k : OMap.lookup bytes_cmp k (CommitLogTx.metaDataList x) = last (values_at k (h_updates h));
  tc_delete : CommitLogTx.blobDelete x = bool_decide (deletes (h_updates h) ≠ []);
  tc_version : (CommitLogTx.blobVersion x, CommitLogTx.blobExpunge x) = default (blob_version_invalid, false) (last (deletes (h_updates h)));
  tc_size : CommitLogTx.blobSize x = 0;
}.

Record log_refines (l : DmCommitLog.t) (a : alog) : Prop := {
  lr_started : DmCommitLog.started_ l = true;
  lr_none id : a !! id = None → DmCommitLog.txMap_ l !! id = None;
  lr_some id h : a !! id = Some h →
    ∃ x, DmCommitLog.txMap_ l !! id = Some x ∧ contents id h x ∧ CommitLogTx.committed x = 0;
  lr_count v : default 0 (DmCommitLog.dmtVerMap_ l !! v) = Z.of_nat (size (with_dmt v a));
}.

(** A commit delivers the contents of the history. *)
Definition answers (o : lop) (x : answer CommitLogTx.t) (y : answer history) : Prop :=
  match x, y with
  | Code e, Code e' => e = e'
  | Flag b, Flag b' => b = b'
  | Data None e, Data None e' => e = e'
  | Data (Some x) e, Data (Some h) e' => e = e' ∧
      match o with LCommit ts id => contents id h x ∧ CommitLogTx.committed x = ts | _ => False end
  | _, _ => False
  end.

(** The lists handed to the log are those of [std::map]s. *)
Definition op_sorted (o : lop) : Prop :=
  match o with
  | LUpdate _ (UObjs d) => OMap.sorted Z.compare (BlobObjList.objs d)
  | LUpdate _ (UMeta m) => OMap.sorted bytes_cmp m
  | _ => True
  end.

(** ** Updates *)
Lemma validate_none l a id : log_refines l a → a !! id = None → DmCommitLog.validateSubsequentTx id l = ERR_DM_TX_NOT_STARTED.
Proof. intros Hl Ha. unfold DmCommitLog.validateSubsequentTx. by rewrite (lr_none _ _ Hl _ Ha). Qed.

Lemma validate_some id l x : DmCommitLog.txMap_ l !! id = Some x → CommitLogTx.committed x = 0 →
  DmCommitLog.validateSubsequentTx id l = ERR_OK.
Proof. intros Hx Hc. unfold DmCommitLog.validateSubsequentTx. rewrite Hx. by rewrite decide_False by (by intros ?). Qed.

Lemma update_with_none id f l a : log_refines l a → a !! id = None →
  DmCommitLog.update_with id f l = Ret (l, ERR_DM_TX_NOT_STARTED).
Proof.
  intros Hl Ha. unfold DmCommitLog.update_with. rewrite (lr_started _ _ Hl). simpl.
  by rewrite (validate_none l a) by done.
Qed.

Lemma update_with_some id f l x x' : DmCommitLog.started_ l = true → DmCommitLog.txMap_ l !! id = Some x →
  CommitLogTx.committed x = 0 → f x = Ret x' →
  DmCommitLog.update_with id f l = Ret (DmCommitLog.with_txs (<[id := x']> (DmCommitLog.txMap_ l)) l, ERR_OK).
Proof.
  intros Hs Hx Hc Hf. unfold DmCommitLog.update_with. rewrite Hs. simpl. rewrite (validate_some id l x) by done.
  rewrite Hx. simpl. by rewrite Hf.
Qed.

Lemma head_snoc {A} (l : list A) x : head (l ++ [x]) = match head l with Some y => Some y | None => Some x end.
Proof. by destruct l. Qed.

Lemma objects_at_snoc o us u : objects_at o (us ++ [u]) = objects_at o us ++ objects_at o [u].
Proof. apply omap_app. Qed.
Lemma values_at_snoc k us u : values_at k (us ++ [u]) = values_at k us ++ values_at k [u].
Proof. apply omap_app. Qed.
Lemma deletes_snoc us u : deletes (us ++ [u]) = deletes us ++ deletes [u].
Proof. apply omap_app. Qed.

(** An update changes a transaction as its history says. *)
Definition updated (u : upd) (x : CommitLogTx.t) : res CommitLogTx.t :=
  match u with
  | UObjs d => DmCommitLog.upsertBlobData_objs d x
  | UMeta m => DmCommitLog.upsertBlobData_meta m x
  | UDelete v e => Ret (CommitLogTx.with_delete e v x)
  end.

Lemma updated_contents id h x u : contents id h x → op_sorted (LUpdate id u) →
  ∃ x', updated u x = Ret x' ∧ contents id (add_update u h) x' ∧ CommitLogTx.committed x' = CommitLogTx.committed x.
Proof.
  intros [H1 H2 H3 H4 H5 H6 H7 H8 H9 H10 H11 H12 H13] Ho.
  destruct u as [d|m|v e]; simpl in Ho; unfold updated.
  - unfold DmCommitLog.upsertBlobData_objs, BlobObjList.merge. rewrite H7. simpl.
    eexists. split; [done|]. split; [|done].
    split; simpl; try done; rewrite ?deletes_snoc, ?app_nil_r; try done.
    + by apply (OMap.foldl_insert_keeps Z.compare).
    + intros o. rewrite lookup_foldl_insert by done. rewrite H8, objects_at_snoc. simpl.
      destruct (OMap.lookup Z.compare o (BlobObjList.objs d)) eqn:E; simpl;
        [by rewrite head_snoc|rewrite app_nil_r; by destruct (head _)].
    + intros k. by rewrite values_at_snoc, app_nil_r.
  - eexists. split; [done|]. split; [|done].
    split; simpl; try done; rewrite ?deletes_snoc, ?app_nil_r; try done.
    + intros o. by rewrite objects_at_snoc, app_nil_r.
    + by apply (OMap.foldl_put_keeps bytes_cmp).
    + intros k. unfold MetaDataList.merge. rewrite (OMap.lookup_foldl_put bytes_cmp) by done. rewrite H10, values_at_snoc. simpl.
      destruct (OMap.lookup bytes_cmp k m) eqn:E; simpl; [by rewrite last_snoc|by rewrite app_nil_r].
  - eexists. split; [done|]. split; [|done].
    split; simpl; try done.
    + intros o. by rewrite objects_at_snoc, app_nil_r.
    + intros k. by rewrite values_at_snoc, app_nil_r.
    + rewrite deletes_snoc. symmetry. apply bool_decide_eq_true_2. by destruct (deletes (h_updates h)).
    + rewrite deletes_snoc. simpl. by rewrite last_snoc.
Qed.

(** ** Counting *)
Lemma count_insert v id h (a : alog) : a !! id = None →
  size (with_dmt v (<[id := h]> a)) = ((if decide (h_dmt h = v) then 1 else 0) + size (with_dmt v a))%nat.
Proof.
  intros Ha. destruct (decide (h_dmt h = v)) as [E|E].
  - rewrite map_filter_insert_True by done. rewrite map_size_insert_None; [done|]. by rewrite map_lookup_filter, Ha.
  - rewrite map_filter_insert_False by done. by rewrite delete_id.
Qed.

Lemma count_delete v id h (a : alog) : a !! id = Some h →
  size (with_dmt v a) = ((if decide (h_dmt h = v) then 1 else 0) + size (with_dmt v (delete id a)))%nat.
Proof. intros Ha. rewrite <-(insert_delete_id a id h Ha) at 1. by rewrite count_insert by apply lookup_delete_eq. Qed.

Lemma count_update v id h h' (a : alog) : a !! id = Some h → h_dmt h' = h_dmt h →
  size (with_dmt v (<[id := h']> a)) = size (with_dmt v a).
Proof.
  intros Ha Hh. rewrite (count_delete v id h a Ha), <-(insert_delete_eq a id h'), count_insert by apply lookup_delete_eq. by rewrite Hh.
Qed.

Lemma count_bound v (a : alog) : (size (with_dmt v a) ≤ size a)%nat.
Proof. rewrite <-!size_dom. apply subseteq_size, dom_filter_subseteq. Qed.

Lemma bump_lookup version d v m : default 0 (DmCommitLog.bump version d m !! v) =
  if decide (version = v) then u64 (default 0 (m !! v) + d) else default 0 (m !! v).
Proof. unfold DmCommitLog.bump. destruct (decide (version = v)) as [->|]; [by rewrite lookup_insert_eq|by rewrite lookup_insert_ne]. Qed.

(** A transaction leaves the log. *)
Lemma close_refines l a id h x : log_refines l a → Z.of_nat (size a) ≤ uint64_max → a !! id = Some h →
  CommitLogTx.dmtVersion x = h_dmt h → log_refines (DmCommitLog.close id x l) (delete id a).
Proof.
  intros [H1 H2 H3 H4] Hn Ha Hx. split; simpl.
  - done.
  - intros i Hi. destruct (decide (i = id)) as [->|Hne]; [by rewrite lookup_delete_eq|].
    rewrite lookup_delete_ne in Hi by done. rewrite lookup_delete_ne by done. by apply H2.
  - intros i h' [Hne Hi]%lookup_delete_Some. rewrite lookup_delete_ne by done. by apply H3.
  - intros v. rewrite bump_lookup, Hx, H4, (count_delete v id h a Ha). destruct (decide (h_dmt h = v)); [|done].
    pose proof (count_bound v (delete id a)). rewrite map_size_delete, Ha in *. rewrite u64_small; lia.
Qed.

(** ** One step *)
Lemma update_op_with id u l : update_op id u l = DmCommitLog.update_with id (updated u) l.
Proof. by destruct u. Qed.

Lemma start_refines unset ts id name mode dmt l a : log_refines l a → a !! id = None → Z.of_nat (size a) < uint64_max →
  ∃ l', DmCommitLog.startTx unset ts id name mode dmt l = Ret (l', ERR_OK) ∧
    log_refines l' (<[id := History name mode ts dmt []]> a).
Proof.
  intros [H1 H2 H3 H4] Ha Hn. unfold DmCommitLog.startTx. rewrite H1. simpl. rewrite (H2 id Ha).
  eexists. split; [done|]. split; simpl.
  - done.
  - intros i [Hi Hne]%lookup_insert_None. rewrite lookup_insert_ne by done. by apply H2.
  - intros i h [[<- <-]|[Hne Hi]]%lookup_insert_Some.
    + rewrite lookup_insert_eq. eexists. split; [done|]. split; [|done]. by split; try done; try constructor.
    + rewrite lookup_insert_ne by done. by apply H3.
  - intros v. rewrite bump_lookup, H4, count_insert by done. simpl. destruct (decide (dmt = v)); [|done].
    pose proof (count_bound v a). rewrite u64_small; lia.
Qed.

Lemma update_refines id u l a h : log_refines l a → a !! id = Some h → op_sorted (LUpdate id u) →
  ∃ l', update_op id u l = Ret (l', ERR_OK) ∧ log_refines l' (<[id := add_update u h]> a).
Proof.
  intros Hl Ha Ho. pose proof Hl as [H1 H2 H3 H4]. rewrite update_op_with. destruct (H3 id h Ha) as (x & Hx & Hc & H0).
  destruct (updated_contents id h x u Hc Ho) as (x' & Hu & Hc' & H0').
  rewrite (update_with_some id (updated u) l x x') by done. eexists. split; [done|]. split; simpl.
  - done.
  - intros i [Hi Hne]%lookup_insert_None. rewrite lookup_insert_ne by done. by apply H2.
  - intros i h' [[<- <-]|[Hne Hi]]%lookup_insert_Some.
    + rewrite lookup_insert_eq. exists x'. by rewrite H0'.
    + rewrite lookup_insert_ne by done. by apply H3.
  - intros v. by rewrite (count_update v id h).
Qed.

Lemma commit_refines ts id l a h : log_refines l a → a !! id = Some h → Z.of_nat (size a) ≤ uint64_max →
  ∃ l' x, DmCommitLog.commitTx ts id l = Ret (l', Some x, ERR_OK) ∧ log_refines l' (delete id a) ∧
    contents id h x ∧ CommitLogTx.committed x = ts.
Proof.
  intros Hl Ha Hn. destruct (lr_some _ _ Hl id h Ha) as (x & Hx & Hc & H0). unfold DmCommitLog.commitTx.
  rewrite (lr_started _ _ Hl). simpl. rewrite (validate_some id l x) by done. rewrite Hx.
  eexists _, _. split; [done|]. split_and!; [|by destruct Hc; split|done].
  eapply close_refines; [done..|]. apply Hc.
Qed.

Lemma commit_none ts id l a : log_refines l a → a !! id = None →
  DmCommitLog.commitTx ts id l = Ret (l, None, ERR_DM_TX_NOT_STARTED).
Proof.
  intros Hl Ha. unfold DmCommitLog.commitTx. rewrite (lr_started _ _ Hl). simpl. by rewrite (validate_none l a) by done.
Qed.

Lemma rollback_refines id l a : log_refines l a → Z.of_nat (size a) ≤ uint64_max →
  match a !! id with
  | Some _ => ∃ l', DmCommitLog.rollbackTx id l = Ret (l', ERR_OK) ∧ log_refines l' (delete id a)
  | None => DmCommitLog.rollbackTx id l = Ret (l, ERR_DM_TX_NOT_STARTED)
  end.
Proof.
  intros Hl Hn. unfold DmCommitLog.rollbackTx. rewrite (lr_started _ _ Hl). simpl. destruct (a !! id) as [h|] eqn:Ha.
  - destruct (lr_some _ _ Hl id h Ha) as (x & Hx & Hc & H0). rewrite (validate_some id l x) by done. rewrite Hx.
    eexists. split; [done|]. eapply close_refines; [done..|]. apply Hc.
  - by rewrite (validate_none l a) by done.
Qed.

Lemma u64_undo n : 0 ≤ n ≤ uint64_max → u64 (u64 (n + 1) + -1) = n.
Proof. intros Hn. unfold u64, uint64_max in *. rewrite Z.add_mod_idemp_l by lia. rewrite Z.mod_small; lia. Qed.

Lemma snapshot_refines unset ts ts' id name l a : log_refines l a → a !! id = None → Z.of_nat (size a) ≤ uint64_max →
  ∃ l', DmCommitLog.takeSnapshot unset ts ts' id name l = Ret (l', ERR_OK) ∧ log_refines l' a.
Proof.
  intros [H1 H2 H3 H4] Ha Hn. unfold DmCommitLog.takeSnapshot, DmCommitLog.startTx. rewrite H1. simpl. rewrite (H2 id Ha). simpl.
  unfold DmCommitLog.snapshotInsert. erewrite (update_with_some id); [|done|simpl; by rewrite lookup_insert_eq|done|done]. simpl.
  unfold DmCommitLog.commitTx. simpl. rewrite H1. simpl. erewrite (validate_some id); [|simpl; by rewrite lookup_insert_eq|done].
  simpl. rewrite lookup_insert_eq. simpl. eexists. split; [done|]. unfold DmCommitLog.close. simpl.
  split; simpl; [done| | |].
  - intros i Hi. rewrite !delete_insert_eq, delete_id by auto. by apply H2.
  - rewrite !delete_insert_eq, delete_id by auto. done.
  - intros v. rewrite !bump_lookup, H4. destruct (decide (0 = v)); [|done]. pose proof (count_bound v a). apply u64_undo. lia.
Qed.

Lemma check_refines dmt l a : log_refines l a →
  log_refines (DmCommitLog.checkOutstandingTx dmt l).1 a ∧
  (DmCommitLog.checkOutstandingTx dmt l).2 = bool_decide (with_dmt dmt a ≠ ∅).
Proof.
  intros [H1 H2 H3 H4]. unfold DmCommitLog.checkOutstandingTx. pose proof (H4 dmt) as Hc.
  destruct (DmCommitLog.dmtVerMap_ l !! dmt) as [n|] eqn:E; simpl in Hc; [destruct (decide (0 = n)) as [<-|Hne]|]; simpl.
  - split; [|symmetry; apply bool_decide_eq_false_2; intros Hx; apply Hx, map_size_empty_iff; lia].
    split; simpl; try done. intros v. destruct (decide (dmt = v)) as [<-|]; [by rewrite lookup_delete_eq|by rewrite lookup_delete_ne].
  - split; [by split|]. symmetry. apply bool_decide_eq_true_2. intros Hx%map_size_empty_iff. lia.
  - split; [by split|]. symmetry. apply bool_decide_eq_false_2. intros Hx. apply Hx, map_size_empty_iff. lia.
Qed.

Lemma lexec_refines o l a : log_refines l a → op_sorted o → Z.of_nat (size a) < uint64_max →
  ∃ l' r, lexec o l = Ret (l', r) ∧ log_refines l' (astep o a).1 ∧ answers o r (astep o a).2.
Proof.
  intros Hl Ho Hn. destruct o as [unset ts id name mode dmt|id u|ts id|id|unset ts ts' id name|dmt]; simpl.
  - destruct (a !! id) as [h|] eqn:Ha.
    + destruct (lr_some _ _ Hl id h Ha) as (x & Hx & _). unfold DmCommitLog.startTx. rewrite (lr_started _ _ Hl). simpl. rewrite Hx.
      by eexists _, _.
    + destruct (start_refines unset ts id name mode dmt l a) as (l' & -> & Hl'); [done..|]. by eexists _, _.
  - destruct (a !! id) as [h|] eqn:Ha.
    + destruct (update_refines id u l a h) as (l' & -> & Hl'); [done..|]. by eexists _, _.
    + rewrite update_op_with, (update_with_none id _ l a) by done. by eexists _, _.
  - destruct (a !! id) as [h|] eqn:Ha.
    + destruct (commit_refines ts id l a h) as (l' & x & -> & Hl' & Hx); [done|done|lia|]. by eexists _, _.
    + rewrite (commit_none ts id l a) by done. by eexists _, _.
  - pose proof (rollback_refines id l a Hl ltac:(lia)) as H. destruct (a !! id) as [h|] eqn:Ha.
    + destruct H as (l' & -> & Hl'). by eexists _, _.
    + rewrite H. by eexists _, _.
  - destruct (a !! id) as [h|] eqn:Ha.
    + destruct (lr_some _ _ Hl id h Ha) as (x & Hx & _). unfold DmCommitLog.takeSnapshot, DmCommitLog.startTx.
      rewrite (lr_started _ _ Hl). simpl. rewrite Hx. by eexists _, _.
    + destruct (snapshot_refines unset ts ts' id name l a) as (l' & -> & Hl'); [done|done|lia|]. by eexists _, _.
  - destruct (check_refines dmt l a Hl) as [Hl' Hb]. by eexists _, _.
Qed.

Lemma astep_size o a : (size (astep o a).1 ≤ S (size a))%nat.
Proof.
  destruct o; simpl; try lia; destruct (a !! _) eqn:E; simpl; try lia.
  - rewrite map_size_insert_None by done. lia.
  - rewrite map_size_insert_Some by done. lia.
  - rewrite map_size_delete, E. lia.
  - rewrite map_size_delete, E. lia.
Qed.


(** ** Sending the open transactions to another data manager *)
(** A transaction whose fields are in their ranges and which fits in a
    message. *)
Record tx_ok (id : Z) (x : CommitLogTx.t) : Prop := {
  tx_id : CommitLogTx.txDesc x = Some id;
  tx_id_range : uint64 id;
  tx_name : short (CommitLogTx.name x);
  tx_mode : - 2 ^ 31 ≤ CommitLogTx.blobMode x < 2 ^ 31;
  tx_started : uint64 (CommitLogTx.started x);
  tx_committed : uint64 (CommitLogTx.committed x);
  tx_version : uint64 (CommitLogTx.blobVersion x);
  tx_objs : objs_ok (CommitLogTx.blobObjList x);
  tx_meta : meta_ok (CommitLogTx.metaDataList x);
  tx_fits : 54 + Z.of_nat (length (CommitLogTx.name x)) + 36 * Z.of_nat (length (BlobObjList.objs (CommitLogTx.blobObjList x))) +
    meta_size (CommitLogTx.metaDataList x) < 2 ^ 32;
}.

(** What arrives: the fields that are not sent are those of a transaction that
    was just made. *)
Definition moved (unset : Z) (x : CommitLogTx.t) : CommitLogTx.t :=
  CommitLogTx.Make (CommitLogTx.txDesc x) (CommitLogTx.name x) (CommitLogTx.blobMode x) (CommitLogTx.started x)
    (CommitLogTx.committed x) (CommitLogTx.blobDelete x) false (CommitLogTx.snapshot x) (CommitLogTx.blobObjList x)
    (CommitLogTx.metaDataList x) [] (CommitLogTx.blobVersion x) 0 unset.

Section Migration.
Context {P : TProtocol} {PL : TProtocolLaws P}.

Lemma tx_codec id x unset : tx_ok id x → ∃ w, CommitLogTx.write x = Ret w ∧
  codec (CommitLogTx.read (CommitLogTx.make unset)) w (moved unset x) ∧ u32 w.2 ≠ 0.
Proof.
  intros [H1 H2 H3 H4 H5 H6 H7 H8 H9 H10]. unfold CommitLogTx.write. rewrite H1. cbv zeta. eexists. split; [done|].
  pose proof (meta_size_length (CommitLogTx.metaDataList x)). split.
  - rewrite !out_app_assoc, out_app_nil_l. unfold CommitLogTx.read.
    eapply codec_bind; [by apply codec_I64|]. eapply codec_bind; [by apply codec_String|].
    eapply codec_bind; [by apply codec_I32_signed|]. eapply codec_bind; [by apply codec_I64|].
    eapply codec_bind; [by apply codec_I64|]. eapply codec_bind; [apply codec_Bool|]. eapply codec_bind; [apply codec_Bool|].
    eapply codec_bind; [by apply BlobObjList_codec|]. eapply codec_bind; [apply MetaDataList_codec; [done|lia]|].
    unfold moved. rewrite H1.
    apply (codec_map readI64 (λ v, CommitLogTx.Make (Some id) _ _ _ _ _ false _ _ _ [] v 0 unset)). by apply codec_I64.
  - cbn [out_app out_nil fst snd]. unfold writeI64, writeI32, writeString, writeBool.
    rewrite !count_writeI64, !count_writeI32, !count_writeBool, count_writeString by done. u32_norm.
    pose proof (BlobObjList_count _ H8) as Ho. pose proof (MetaDataList_count _ H9) as Hm.
    set (A := (BlobObjList.write _).2) in *. set (B := (MetaDataList.write _).2) in *.
    assert (u32 (A + (B + (42 + Z.of_nat (length (CommitLogTx.name x))))) =
      u32 (8 + 36 * Z.of_nat (length (BlobObjList.objs (CommitLogTx.blobObjList x))) +
           (4 + meta_size (CommitLogTx.metaDataList x) + (42 + Z.of_nat (length (CommitLogTx.name x)))))) as Hs.
    { apply u32_add_congr; [rewrite Ho; symmetry; apply u32_small; lia|]. apply u32_add_congr; [by rewrite Hm|done]. }
    match goal with |- u32 ?e ≠ 0 =>
      replace e with (A + (B + (42 + Z.of_nat (length (CommitLogTx.name x))))) by lia end.
    rewrite Hs, u32_small; lia.
Qed.

(** The string [s] carries the transaction [x]. *)
Definition carries (x : CommitLogTx.t) (s : bytes) : Prop :=
  getSerialized (CommitLogTx.write x) [] = Ret (s, ERR_OK) ∧
  ∀ unset, loadSerialized (CommitLogTx.read (CommitLogTx.make unset)) s = Ret (Some (moved unset x), ERR_OK).

Lemma tx_carried id x : tx_ok id x → ∃ s, carries x s.
Proof.
  intros Hx. destruct (tx_codec id x 0 Hx) as (w & Hw & _). exists w.1. split.
  - destruct (tx_codec id x 0 Hx) as (w' & Hw' & Hc & Hn). rewrite Hw in Hw'. injection Hw' as <-. rewrite Hw.
    by apply (codec_load _ _ _ Hc Hn).
  - intros unset. destruct (tx_codec id x unset Hx) as (w' & Hw' & Hc & Hn). rewrite Hw in Hw'. injection Hw' as <-.
    by apply (codec_load _ _ _ Hc Hn).
Qed.

Lemma snapshot_carries order : (∀ ix, ix ∈ order → tx_ok ix.1 ix.2) → ∀ strings,
  ∃ sent, DmCommitLog.snapshot_each order strings ERR_OK = Ret (strings ++ sent, ERR_OK) ∧ Forall2 (λ ix, carries ix.2) order sent.
Proof.
  induction order as [|[id x] order IH]; intros Ho strings; [exists []; by rewrite app_nil_r|]. simpl.
  destruct (tx_carried id x) as (s & Hs); [by apply (Ho (id, x)); left|]. rewrite (proj1 Hs). simpl.
  destruct (IH ltac:(intros; apply Ho; by right) (strings ++ [s])) as (sent & -> & Hsent).
  exists (s :: sent). rewrite <-(assoc (++)). split; [done|by constructor].
Qed.

Lemma apply_carried order sent : NoDup order.*1 → (∀ ix, ix ∈ order → CommitLogTx.txDesc ix.2 = Some ix.1) →
  Forall2 (λ ix, carries ix.2) order sent → ∀ unset d,
  ∃ d', DmCommitLog.apply_each unset sent ERR_OK d = Ret (d', ERR_OK) ∧ DmCommitLog.dmtVerMap_ d' = DmCommitLog.dmtVerMap_ d ∧
    DmCommitLog.started_ d' = DmCommitLog.started_ d ∧
    (∀ id x, (id, x) ∈ order → ∃ k, DmCommitLog.txMap_ d' !! id = Some (moved (unset k) x)) ∧
    (∀ id, id ∉ order.*1 → DmCommitLog.txMap_ d' !! id = DmCommitLog.txMap_ d !! id).
Proof.
  intros Hnd Hid Hs. induction Hs as [|[id x] s order sent [_ Hx] Hs IH]; intros unset d.
  { exists d. split_and!; try done. intros ? ? ?%elem_of_nil. done. }
  apply NoDup_cons in Hnd as [Hni Hnd]. simpl. rewrite Hx. simpl. rewrite (Hid (id, x) ltac:(by left) : CommitLogTx.txDesc x = Some id).
  destruct (IH Hnd ltac:(intros; apply Hid; by right) (λ n, unset (S n))
    (DmCommitLog.with_txs (<[id := moved (unset O) x]> (DmCommitLog.txMap_ d)) d)) as (d' & -> & Hd & Hst & Hin & Hout).
  exists d'. split_and!; [done|done|done| |].
  - intros i y [[= -> ->]|Hy]%elem_of_cons; [|by destruct (Hin i y Hy) as [k Hk]; exists (S k)].
    exists O. rewrite Hout by done. simpl. by rewrite lookup_insert_eq.
  - intros i [Hne Hi]%not_elem_of_cons. rewrite Hout by done. simpl. by rewrite lookup_insert_ne by done.
Qed.

(** C27. The open transactions of a volume survive being sent to another data
    manager: serializing them in whatever order the map gives them and applying
    the strings to a cleared log succeeds and gives the same transactions, with
    the same names, modes, objects, metadata and deletion marks; the expunge
    flag, the batch with its size and the version of the data management table
    are not sent. *)
Theorem active_tx_roundtrip (unset : nat → Z) order l dst : order ≡ₚ map_to_list (DmCommitLog.txMap_ l) →
  (∀ id x, DmCommitLog.txMap_ l !! id = Some x → tx_ok id x) →
  ∃ strings dst', DmCommitLog.snapshotOutstandingTx order [] = Ret (strings, ERR_OK) ∧
    DmCommitLog.applySerializedTxs unset strings (DmCommitLog.clear dst) = Ret (dst', ERR_OK) ∧
    DmCommitLog.dmtVerMap_ dst' = DmCommitLog.dmtVerMap_ dst ∧
    ∀ id, match DmCommitLog.txMap_ l !! id with
          | Some x => ∃ k, DmCommitLog.txMap_ dst' !! id = Some (moved (unset k) x)
          | None => DmCommitLog.txMap_ dst' !! id = None
          end.
Proof.
  intros Ho Hx.
  assert (∀ i x, (i, x) ∈ order ↔ DmCommitLog.txMap_ l !! i = Some x) as Hin by (intros; by rewrite Ho, elem_of_map_to_list).
  destruct (snapshot_carries order) with (strings := @nil bytes) as (sent & E & Hs); [by intros [i x] ?%Hin; apply Hx|].
  destruct (apply_carried order sent) with (unset := unset) (d := DmCommitLog.clear dst) as (d' & E' & Hd & _ & H1 & H2).
  - rewrite Ho. apply NoDup_fst_map_to_list.
  - intros [i x] Hi%Hin. simpl. apply (Hx i x Hi).
  - done.
  - exists sent, d'. split_and!; [done|done|done|]. intros id. destruct (DmCommitLog.txMap_ l !! id) as [x|] eqn:E''.
    + by apply H1, Hin.
    + rewrite H2; [done|]. intros ([i x] & -> & Hi)%list_elem_of_fmap. apply Hin in Hi. simpl in *. congruence.
Qed.

(** Committing a transaction that came from another data manager spoils the
    counts of [checkOutstandingTx]: its version was never set nor counted, so
    the count of whatever version its memory shows goes below zero, and with no
    transaction open the log reports one outstanding for that version. *)
Theorem moved_commit_miscounts (unset ts id : Z) x l : DmCommitLog.started_ l = true → DmCommitLog.txMap_ l = ∅ →
  (∀ v, default 0 (DmCommitLog.dmtVerMap_ l !! v) = 0) → tx_ok id x → CommitLogTx.committed x = 0 →
  ∃ s l1 l2 y, getSerialized (CommitLogTx.write x) [] = Ret (s, ERR_OK) ∧
    DmCommitLog.applySerializedTxs (λ _, unset) [s] l = Ret (l1, ERR_OK) ∧
    DmCommitLog.commitTx ts id l1 = Ret (l2, Some y, ERR_OK) ∧
    DmCommitLog.txMap_ l2 = ∅ ∧ (DmCommitLog.checkOutstandingTx unset l2).2 = true.
Proof.
  intros Hst Hem Hc0 Hx H0. destruct (tx_carried id x Hx) as (s & Hs & Hload).
  eexists s, _, _, _. split; [done|]. unfold DmCommitLog.applySerializedTxs. simpl. rewrite Hload. simpl.
  rewrite (tx_id _ _ Hx), Hem. split; [done|].
  unfold DmCommitLog.commitTx. simpl. rewrite Hst. simpl.
  rewrite (validate_some id _ (moved unset x)) by (simpl; rewrite ?lookup_insert_eq; done). rewrite lookup_insert_eq.
  split; [done|]. split; [simpl; by rewrite delete_insert_eq|].
  unfold DmCommitLog.checkOutstandingTx, DmCommitLog.close, DmCommitLog.bump. simpl. rewrite lookup_insert_eq.
  rewrite Hc0. by rewrite decide_False.
Qed.

End Migration.

(** ** Examples *)
Definition demo_log : DmCommitLog.t := DmCommitLog.mod_startup (DmCommitLog.make 4096).

Definition demo_list (k : Z) : BlobObjList.t := BlobObjList.Make [(0, BlobObjInfo.Make (replicate 20 k) 4096)] false.

(** Two transactions, the updates of which interleave. *)
Definition demo_ops : list lop :=
  [LStart 9 10 1 [97] 0 3; LUpdate 1 (UObjs (demo_list 1)); LStart 9 11 2 [98] 1 3; LUpdate 2 (UMeta [([107], [118])]);
   LUpdate 1 (UObjs (demo_list 2)); LUpdate 2 (UDelete 0 true); LCommit 12 1; LCheck 3; LAbort 2; LCheck 3; LCommit 13 2].

Lemma demo_log_refines : log_refines demo_log ∅.
Proof.
  split; [done|done|intros id h Hh; by rewrite lookup_empty in Hh|]. intros v. simpl. by rewrite map_filter_empty, map_size_empty.
Qed.


Definition demo_tx : CommitLogTx.t :=
  CommitLogTx.Make (Some 1) [97] 1 10 0 true true false (demo_list 1) [([107], [118])] [] 5 0 3.

Lemma demo_tx_ok : tx_ok 1 demo_tx.
Proof.
  split; [done|split; vm_compute; discriminate|done|done|split; vm_compute; discriminate..| | |done].
  - split; [repeat constructor| |done]. intros x ->%list_elem_of_singleton. split_and!; try done; split; vm_compute; discriminate.
  - split; [repeat constructor|]. by intros x ->%list_elem_of_singleton.
Qed.

Definition demo_source : DmCommitLog.t := DmCommitLog.with_txs {[ 1 := demo_tx ]} demo_log.

Lemma active_tx_roundtrip_witness : ∃ strings dst',
  DmCommitLog.snapshotOutstandingTx [(1, demo_tx)] [] = Ret (strings, ERR_OK) ∧
  DmCommitLog.applySerializedTxs (λ _, 77) strings (DmCommitLog.clear demo_log) = Ret (dst', ERR_OK) ∧
  DmCommitLog.txMap_ dst' !! 1 = Some (moved 77 demo_tx).
Proof.
  destruct (active_tx_roundtrip (λ _, 77) [(1, demo_tx)] demo_source demo_log) as (strings & dst' & H1 & H2 & _ & H3).
  - change (DmCommitLog.txMap_ demo_source) with ({[ 1 := demo_tx ]} : gmap Z CommitLogTx.t). by rewrite map_to_list_singleton.
  - intros id x Hx. change (({[ 1 := demo_tx ]} : gmap Z CommitLogTx.t) !! id = Some x) in Hx.
    apply lookup_singleton_Some in Hx as [<- <-]. apply demo_tx_ok.
  - exists strings, dst'. split; [exact H1|]. split; [exact H2|]. destruct (H3 1) as [k Hk]. exact Hk.
Defined.

Lemma moved_commit_miscounts_witness : ∃ s l1 l2 y, getSerialized (CommitLogTx.write demo_tx) [] = Ret (s, ERR_OK) ∧
  DmCommitLog.applySerializedTxs (λ _, 77) [s] demo_log = Ret (l1, ERR_OK) ∧ DmCommitLog.commitTx 20 1 l1 = Ret (l2, Some y, ERR_OK) ∧
  DmCommitLog.txMap_ l2 = ∅ ∧ (DmCommitLog.checkOutstandingTx 77 l2).2 = true.
Proof.
  apply (moved_commit_miscounts 77 20 1 demo_tx demo_log).
  - reflexivity.
  - reflexivity.
  - intros v. reflexivity.
  - apply demo_tx_ok.
  - reflexivity.
Defined.
