(* ===== verification/FdsTimer.v ===== *)
(** * The timer

    Models [FdsTimer] (src/source/include/fds_timer.h, lib/misc/fds_timer.cpp):
    tasks are scheduled once or repeatedly, and a thread runs those that have
    expired.  A task is known by its address.  The set of pending tasks is
    ordered by expiry time and address; it is listed with the expiry times its
    elements had when they were inserted, and changing the time of an element
    that is in the set is undefined.  Times are milliseconds and clock readings
    are arguments; [debug] tells whether [fds_assert] checks.  The callback of a task runs without the lock and may use the
    timer, so it works on a state of which the timer is a part. *)

From S2P Require Import Prelude.
From S2P Require Import OrderedMap.
Open Scope Z_scope.

Module FdsTimer.

Inductive TimerTaskState :=
| TASK_STATE_UNINIT
| TASK_STATE_SCHEDULED_ONCE
| TASK_STATE_SCHEDULED_REPEAT
| TASK_STATE_CANCELLED
| TASK_STATE_COMPLETE.

#[export] Instance TimerTaskState_eq_dec : EqDecision TimerTaskState.
Proof. solve_decision. Defined.

Record task := Task { expTime_ : Z; durationMs_ : Z; state_ : TimerTaskState }.

(** [LessFdsTimerTaskPtr], on pairs of an expiry time and an address *)
Definition task_cmp (a b : Z * Z) : comparison :=
  match a.1 ?= b.1 with Eq => a.2 ?= b.2 | c => c end.

Record t := Make { tasks : gmap Z task; pendingTasks_ : list (Z * Z * unit) }.

Definition make : t := Make ∅ [].

(** [FdsTimerTask()], at a given address; the times are set by [schedule]. *)
Definition new_task (addr : Z) (tm : t) : t := Make (<[addr := Task 0 0 TASK_STATE_UNINIT]> (tasks tm)) (pendingTasks_ tm).

Definition is_pending (addr : Z) (tm : t) : bool := existsb (λ x, bool_decide (x.1.2 = addr)) (pendingTasks_ tm).

Definition scheduleInternal_ (debug : bool) (now addr time : Z) (repeated : bool) (tm : t) : res (t * bool) :=
  _ ← fds_assert debug (bool_decide (1000 ≤ time));
  match tasks tm !! addr with
  | None => Fault NullDeref
  | Some task =>
      let exp := now + time in
      if is_pending addr tm && bool_decide (exp ≠ expTime_ task) then Fault Undefined else
      let task := Task exp time (if repeated then TASK_STATE_SCHEDULED_REPEAT else TASK_STATE_SCHEDULED_ONCE) in
      Ret (Make (<[addr := task]> (tasks tm)) (OMap.insert task_cmp (exp, addr) tt (pendingTasks_ tm)), true)
  end.

Definition schedule (debug : bool) (now addr time : Z) (tm : t) : res (t * bool) := scheduleInternal_ debug now addr time false tm.
Definition scheduleRepeated (debug : bool) (now addr time : Z) (tm : t) : res (t * bool) := scheduleInternal_ debug now addr time true tm.

Definition cancel (addr : Z) (tm : t) : res (t * bool) :=
  match tasks tm !! addr with
  | None => Fault NullDeref
  | Some task =>
      Ret (Make (<[addr := Task (expTime_ task) (durationMs_ task) TASK_STATE_CANCELLED]> (tasks tm))
             (OMap.delete task_cmp (expTime_ task, addr) (pendingTasks_ tm)), true)
  end.

(** [scheduleFunction]: a new task for a function, at the address [addr] *)
Definition scheduleFunction (debug : bool) (now addr time : Z) (tm : t) : res t :=
  r ← schedule debug now addr time (new_task addr tm); Ret (r : t * bool).1.

Definition scheduledFunctionRepeated (debug : bool) (now addr time : Z) (tm : t) : res t :=
  r ← scheduleRepeated debug now addr time (new_task addr tm); Ret (r : t * bool).1.

(** One round of the inner loop: the first task leaves the set when it has
    expired, and comes back with a new time when it repeats. *)
Definition pop_expired (debug : bool) (cur now : Z) (tm : t) : res (option (Z * t)) :=
  match pendingTasks_ tm with
  | [] => Ret None
  | (_, addr, _) :: rest =>
      match tasks tm !! addr with
      | None => Fault NullDeref
      | Some task =>
          if decide (expTime_ task ≤ cur) then
            _ ← fds_assert debug (bool_decide (state_ task = TASK_STATE_SCHEDULED_ONCE ∨ state_ task = TASK_STATE_SCHEDULED_REPEAT));
            if decide (state_ task = TASK_STATE_SCHEDULED_REPEAT) then
              let exp := now + durationMs_ task in
              Ret (Some (addr, Make (<[addr := Task exp (durationMs_ task) (state_ task)]> (tasks tm))
                                 (OMap.insert task_cmp (exp, addr) tt rest)))
            else Ret (Some (addr, Make (<[addr := Task (expTime_ task) (durationMs_ task) TASK_STATE_COMPLETE]> (tasks tm)) rest))
          else Ret None
      end
  end.

Section Thread.
Context (debug : bool) {W : Type} (timer_of : W → t) (with_timer : t → W → W) (runTimerTask : Z → W → res W).

(** The tasks the thread runs when it wakes up at the time [cur]; [now] gives
    the clock in each round.  The thread catches the exceptions of callbacks:
    a callback that throws is one that returns. *)
Fixpoint drain (fuel : nat) (cur : Z) (now : nat → Z) (w : W) : res (W * list Z) :=
  match fuel with
  | O => Fault OutOfFuel
  | S fuel =>
      r ← pop_expired debug cur (now O) (timer_of w);
      match r : option (Z * t) with
      | None => Ret (w, [])
      | Some (addr, tm) =>
          w ← runTimerTask addr (with_timer tm w);
          r ← drain fuel cur (λ n, now (S n)) w;
          Ret (r.1, addr :: r.2)
      end
  end.

End Thread.
End FdsTimer.

(** ** Invariant *)
Import FdsTimer.

#[export] Instance task_cmp_order : CmpOrder task_cmp.
Proof.
  split; unfold task_cmp.
  - intros [a b] [c d]. simpl. destruct (Z.compare_spec a c) as [->| |]; [|split; [done|intros [= ? ?]; lia]..].
    rewrite Z.compare_eq_iff. split; [by intros ->|by intros [= ->]].
  - intros [a b] [c d]. simpl. rewrite (Z.compare_antisym a c). destruct (a ?= c); simpl; [apply Z.compare_antisym|done..].
  - intros [a b] [c d] [e f]. simpl. destruct (Z.compare_spec a c), (Z.compare_spec c e), (Z.compare_spec a e);
      rewrite ?Z.compare_lt_iff; intros; subst; (done || lia).
Qed.

Implicit Types (tm : t) (x : Z * Z * unit).

Record timer_ok tm : Prop := {
  tk_sorted : OMap.sorted task_cmp (pendingTasks_ tm);
  tk_task x : x ∈ pendingTasks_ tm → ∃ k, tasks tm !! x.1.2 = Some k ∧ expTime_ k = x.1.1 ∧
    (state_ k = TASK_STATE_SCHEDULED_ONCE ∨ state_ k = TASK_STATE_SCHEDULED_REPEAT) ∧
    (state_ k = TASK_STATE_SCHEDULED_REPEAT → 0 < durationMs_ k);
}.

Notation due cur tm := (filter (λ x : Z * Z * unit, x.1.1 ≤ cur) (pendingTasks_ tm)).

Lemma pending_elem exp addr tm : timer_ok tm →
  (exp, addr, tt) ∈ pendingTasks_ tm ↔ OMap.lookup task_cmp (exp, addr) (pendingTasks_ tm) = Some tt.
Proof. intros Ht. symmetry. apply (OMap.lookup_elem task_cmp), Ht. Qed.

Lemma elem_insert exp addr l x : OMap.sorted task_cmp l →
  x ∈ OMap.insert task_cmp (exp, addr) tt l ↔ x = (exp, addr, tt) ∨ x ∈ l.
Proof.
  intros Hl. destruct x as [k []]. rewrite <-!(OMap.lookup_elem task_cmp) by (done || by apply (OMap.insert_sorted task_cmp)).
  unfold OMap.insert. destruct (OMap.lookup task_cmp (exp, addr) l) as [[]|] eqn:E.
  - split; [by right|]. by intros [[= ->]|?].
  - destruct (decide (k = (exp, addr))) as [->|Hne].
    + rewrite (OMap.lookup_put_eq task_cmp) by done. naive_solver.
    + rewrite (OMap.lookup_put_ne task_cmp) by done. split; [by right|]. by intros [[= ->]|?].
Qed.

Lemma elem_delete k l x : OMap.sorted task_cmp l → x ∈ OMap.delete task_cmp k l ↔ x ∈ l ∧ x.1 ≠ k.
Proof.
  intros Hl. destruct x as [k' []]. rewrite <-!(OMap.lookup_elem task_cmp) by (done || by apply (OMap.delete_sorted task_cmp)). simpl.
  destruct (decide (k' = k)) as [->|Hne].
  - rewrite (OMap.lookup_delete_eq task_cmp) by done. naive_solver.
  - rewrite (OMap.lookup_delete_ne task_cmp) by done. naive_solver.
Qed.

(** An address is pending at one time only. *)
Lemma pending_unique tm x y : timer_ok tm → x ∈ pendingTasks_ tm → y ∈ pendingTasks_ tm → x.1.2 = y.1.2 → x = y.
Proof.
  intros Ht Hx Hy E. destruct (tk_task _ Ht x Hx) as (k & Hk & Ek & _). destruct (tk_task _ Ht y Hy) as (k' & Hk' & Ek' & _).
  destruct x as [[? ?] []], y as [[? ?] []]. simpl in *. subst. rewrite Hk in Hk'. by simplify_eq.
Qed.

Lemma is_pending_spec addr tm : is_pending addr tm = false ↔ ∀ x, x ∈ pendingTasks_ tm → x.1.2 ≠ addr.
Proof.
  unfold is_pending. rewrite <-not_true_iff_false, existsb_exists. split.
  - intros H x Hx E. apply H. exists x. split; [by apply list_elem_of_In|]. by apply bool_decide_eq_true_2.
  - intros H (x & Hx%list_elem_of_In & E%bool_decide_eq_true_1). by apply (H x).
Qed.

Lemma new_task_ok addr tm : timer_ok tm → tasks tm !! addr = None → timer_ok (new_task addr tm).
Proof.
  intros [H1 H2] Ha. split; [done|]. simpl. intros x Hx. destruct (H2 x Hx) as (k & Hk & ?). exists k.
  rewrite lookup_insert_ne by congruence. done.
Qed.

Lemma schedule_ok debug now addr time b tm k : timer_ok tm → tasks tm !! addr = Some k → is_pending addr tm = false →
  (b = true → 0 < time) → (debug = true → 1000 ≤ time) →
  ∃ tm', scheduleInternal_ debug now addr time b tm = Ret (tm', true) ∧ timer_ok tm' ∧
    (∀ x, x ∈ pendingTasks_ tm' ↔ x = (now + time, addr, tt) ∨ x ∈ pendingTasks_ tm) ∧
    (∀ i, i ≠ addr → tasks tm' !! i = tasks tm !! i) ∧
    ∃ k', tasks tm' !! addr = Some k' ∧ expTime_ k' = now + time.
Proof.
  intros [H1 H2] Hk Hp Hb Hd. unfold scheduleInternal_.
  assert (fds_assert debug (bool_decide (1000 ≤ time)) = Ret tt) as -> by (destruct debug; [by apply fds_verify_true, Hd|done]).
  rewrite bind_Ret, Hk, Hp. simpl. eexists. split; [done|]. simpl.
  assert (∀ x, x ∈ OMap.insert task_cmp (now + time, addr) tt (pendingTasks_ tm) ↔ x = (now + time, addr, tt) ∨ x ∈ pendingTasks_ tm)
    as Hin by (intros; by apply elem_insert).
  split_and!; [|done|by intros; apply lookup_insert_ne|eexists; by rewrite lookup_insert_eq].
  split; simpl; [by apply (OMap.insert_sorted task_cmp)|]. intros x [->|Hx]%Hin.
  - eexists. rewrite lookup_insert_eq. split; [done|]. split; [done|]. destruct b; (split; [by (left + right)|]); [by intros _; apply Hb|done].
  - rewrite lookup_insert_ne by (intros Ei; exact (proj1 (is_pending_spec _ tm) Hp x Hx (eq_sym Ei))). by apply H2.
Qed.

Lemma cancel_ok addr tm k : timer_ok tm → tasks tm !! addr = Some k →
  ∃ tm', cancel addr tm = Ret (tm', true) ∧ timer_ok tm' ∧ (∀ x, x ∈ pendingTasks_ tm' ↔ x ∈ pendingTasks_ tm ∧ x.1.2 ≠ addr) ∧
    (∀ i, i ≠ addr → tasks tm' !! i = tasks tm !! i) ∧ is_Some (tasks tm' !! addr).
Proof.
  intros Ht Hk. pose proof Ht as [H1 H2]. unfold cancel. rewrite Hk. eexists. split; [done|]. simpl.
  assert (∀ x, x ∈ OMap.delete task_cmp (expTime_ k, addr) (pendingTasks_ tm) ↔ x ∈ pendingTasks_ tm ∧ x.1.2 ≠ addr) as Hin.
  { intros x. rewrite elem_delete by done. split; intros [Hx Hne]; (split; [done|]); destruct (H2 x Hx) as (k' & Hk' & E & _);
      destruct x as [[e i] []]; simpl in *; [intros ->; rewrite Hk in Hk'; simplify_eq|by intros [= -> ->]]. }
  split_and!; [|done|by intros; apply lookup_insert_ne|by rewrite lookup_insert_eq].
  split; simpl; [by apply (OMap.delete_sorted task_cmp)|]. intros x [Hx Hne]%Hin. rewrite lookup_insert_ne by done. by apply H2.
Qed.

(** Either nothing has expired, or the task that expires first is taken. *)
Lemma pop_ok debug cur now tm : timer_ok tm → cur ≤ now →
  pop_expired debug cur now tm = Ret None ∧ (∀ x, x ∈ pendingTasks_ tm → cur < x.1.1) ∨
  ∃ exp addr tm', pop_expired debug cur now tm = Ret (Some (addr, tm')) ∧ timer_ok tm' ∧ (exp, addr, tt) ∈ pendingTasks_ tm ∧ exp ≤ cur ∧
    (∀ x, x ∈ pendingTasks_ tm → exp ≤ x.1.1) ∧
    (∀ x, x.1.1 ≤ cur → x ∈ pendingTasks_ tm' ↔ x ∈ pendingTasks_ tm ∧ x.1.2 ≠ addr) ∧
    (∀ x, x.1.2 ≠ addr → x ∈ pendingTasks_ tm' ↔ x ∈ pendingTasks_ tm) ∧
    (∀ i, i ≠ addr → tasks tm' !! i = tasks tm !! i) ∧ is_Some (tasks tm' !! addr).
Proof.
  intros Ht Hn. pose proof Ht as [H1 H2]. unfold pop_expired. destruct (pendingTasks_ tm) as [|[[exp addr] []] rest] eqn:E.
  { left. split; [done|]. by intros x ?%elem_of_nil. }
  apply (OMap.sorted_cons task_cmp) in H1 as [H1 Hlt]. destruct (H2 (exp, addr, tt)) as (k & Hk & Ek & Hst & Hd); [by left|]. simpl in *.
  assert (∀ x, x ∈ rest → exp ≤ x.1.1) as Hle.
  { intros x Hx. specialize (Hlt x Hx). unfold task_cmp in Hlt. simpl in Hlt. destruct (Z.compare_spec exp x.1.1); [lia..|done]. }
  assert (∀ x, x ∈ rest → x.1.2 ≠ addr) as Hne.
  { intros x Hx Ex. assert (x = (exp, addr, tt)) as ->.
    { eapply (pending_unique tm); [done|rewrite E; by right|rewrite E; by left|done]. }
    specialize (Hlt _ Hx). by apply (OMap.cmp_lt_irrefl task_cmp) in Hlt. }
  rewrite Hk. destruct (decide (expTime_ k ≤ cur)) as [Hx|Hx].
  2:{ left. split; [done|]. intros x [->|Hx']%elem_of_cons; simpl; [lia|]. specialize (Hle x Hx'). lia. }
  right. assert (∀ x, x ∈ (exp, addr, tt) :: rest ∧ x.1.2 ≠ addr ↔ x ∈ rest) as Hr.
  { intros x. rewrite elem_of_cons. split; [by intros [[->|?] ?]|]. intros Hx'. split; [by right|by apply Hne]. }
  assert (∀ x k', x ∈ rest → ∃ k0, (<[addr := k']> (tasks tm)) !! x.1.2 = Some k0 ∧ expTime_ k0 = x.1.1 ∧
    (state_ k0 = TASK_STATE_SCHEDULED_ONCE ∨ state_ k0 = TASK_STATE_SCHEDULED_REPEAT) ∧
    (state_ k0 = TASK_STATE_SCHEDULED_REPEAT → 0 < durationMs_ k0)) as Hrest.
  { intros x k' Hx'. rewrite lookup_insert_ne by (intros Ei; by apply (Hne x Hx')). apply H2. by right. }
  assert (fds_assert debug (bool_decide (state_ k = TASK_STATE_SCHEDULED_ONCE ∨ state_ k = TASK_STATE_SCHEDULED_REPEAT)) = Ret tt)
    as -> by (destruct debug; [by apply fds_verify_true|done]). rewrite bind_Ret.
  destruct (decide (state_ k = TASK_STATE_SCHEDULED_REPEAT)) as [Hs|Hs].
  - eexists exp, addr, _. split; [done|]. simpl.
    split_and!; [|by left|lia|intros x [->|?]%elem_of_cons; [done|by apply Hle]| | |by intros; apply lookup_insert_ne|by rewrite lookup_insert_eq].
    + split; simpl; [by apply (OMap.insert_sorted task_cmp)|]. intros x [->|Hx']%elem_insert; [|by apply Hrest|done].
      eexists. rewrite lookup_insert_eq. split; [done|]. split; [done|]. split; [by right|]. intros _. by apply Hd.
    + intros x Hx'. rewrite elem_insert, Hr by done. split; [|by right]. intros [->|?]; [|done]. specialize (Hd Hs). simpl in Hx'. lia.
    + intros x Hx'. rewrite elem_insert, <-Hr by done. split; [by intros [->|[? _]]|by right].
  - eexists exp, addr, _. split; [done|]. simpl.
    split_and!; [|by left|lia|intros x [->|?]%elem_of_cons; [done|by apply Hle]| | |by intros; apply lookup_insert_ne|by rewrite lookup_insert_eq].
    + split; simpl; [done|]. intros x Hx'. by apply Hrest.
    + intros x _. by rewrite Hr.
    + intros x Hx'. rewrite <-Hr. naive_solver.
Qed.

(** ** A round of the timer thread *)
Lemma due_NoDup cur tm : timer_ok tm → NoDup (due cur tm).
Proof.
  intros [Hs _]. apply NoDup_filter. eapply NoDup_fmap_1. by apply (OMap.sorted_NoDup_keys task_cmp).
Qed.

Lemma due_decreases cur tm tm' x : timer_ok tm → timer_ok tm' → x ∈ due cur tm →
  (∀ y, y ∈ due cur tm' → y ∈ due cur tm ∧ y ≠ x) → (length (due cur tm') < length (due cur tm))%nat.
Proof.
  intros Ht Ht' Hx Hsub. apply (submseteq_length (x :: due cur tm')), NoDup_submseteq.
  - constructor; [|by apply due_NoDup]. intros H. by apply Hsub in H as [_ []].
  - intros y [->|Hy]%elem_of_cons; [done|by apply Hsub].
Qed.

Section Round.
Context (debug : bool) {W : Type} (timer_of : W → t) (with_timer : t → W → W) (runTimerTask : Z → W → res W) (Inv : W → Prop) (cur : Z).

(** Callbacks keep the invariant and schedule nothing that has expired. *)
Definition callbacks_ok : Prop := ∀ w now addr tm', Inv w → cur ≤ now →
  pop_expired debug cur now (timer_of w) = Ret (Some (addr, tm')) →
  ∃ w', runTimerTask addr (with_timer tm' w) = Ret w' ∧ Inv w' ∧
    ∀ x, x ∈ pendingTasks_ (timer_of w') → x.1.1 ≤ cur → x ∈ pendingTasks_ tm'.

Lemma drain_ok fuel now w : (∀ w, Inv w → timer_ok (timer_of w)) → callbacks_ok → Inv w → (∀ n, cur ≤ now n) →
  (length (due cur (timer_of w)) < fuel)%nat →
  ∃ w' fired, drain debug timer_of with_timer runTimerTask fuel cur now w = Ret (w', fired) ∧ Inv w' ∧
    (∀ x, x ∈ pendingTasks_ (timer_of w') → cur < x.1.1) ∧
    NoDup fired ∧ (∀ a, a ∈ fired → ∃ exp, exp ≤ cur ∧ (exp, a, tt) ∈ pendingTasks_ (timer_of w)).
Proof.
  intros Hok Hcb. revert now w. induction fuel as [|fuel IH]; intros now w Hw Hnow Hf; [lia|]. simpl.
  destruct (pop_ok debug cur (now O) (timer_of w)) as [[-> Hall]|(exp & addr & tm' & E & Ht' & Hin & Hexp & _ & Hdue & _)]; [by apply Hok|done| |].
  { exists w, []. split; [done|]. split; [done|]. split; [done|]. split; [constructor|]. by intros a ?%elem_of_nil. }
  rewrite E. simpl. destruct (Hcb w (now O) addr tm' Hw (Hnow O) E) as (w' & -> & Hw' & Hnew). simpl.
  assert (∀ y, y ∈ due cur (timer_of w') → y ∈ due cur (timer_of w) ∧ y.1.2 ≠ addr) as Hsub.
  { intros y [Hy Hy']%list_elem_of_filter. apply Hnew in Hy'; [|done]. apply Hdue in Hy' as [Hy' Hne]; [|done].
    split; [|done]. by apply list_elem_of_filter. }
  destruct (IH (λ n, now (S n)) w' Hw') as (w2 & fired & -> & Hw2 & Hall & Hnd & Hfired); [done| |].
  { enough (length (due cur (timer_of w')) < length (due cur (timer_of w)))%nat by lia.
    apply (due_decreases cur (timer_of w) (timer_of w') (exp, addr, tt)); [by apply Hok..|by apply list_elem_of_filter|].
    intros y Hy%Hsub. split; [apply Hy|]. intros ->. by apply (proj2 Hy). }
  assert (∀ a, a ∈ fired → a ≠ addr ∧ ∃ e, e ≤ cur ∧ (e, a, tt) ∈ pendingTasks_ (timer_of w)) as Hfired'.
  { intros a (e & He & Ha)%Hfired. assert ((e, a, tt) ∈ due cur (timer_of w')) as [H Hne]%Hsub by (by apply list_elem_of_filter).
    apply list_elem_of_filter in H as [_ H]. split; [done|by exists e]. }
  exists w2, (addr :: fired). split; [done|]. split; [done|]. split; [done|]. split.
  - constructor; [|done]. by intros [? _]%Hfired'.
  - intros a [->|Ha]%elem_of_cons; [by exists exp|by apply Hfired'].
Qed.

End Round.

(** A round of the timer thread ends, also with repeating tasks and with
    callbacks that cancel or schedule tasks: it runs no task twice and only
    tasks that have expired, and leaves no expired task behind, as long as the
    callbacks schedule nothing in the past. *)
Theorem timer_round (debug : bool) {W} (timer_of : W → t) (with_timer : t → W → W) (runTimerTask : Z → W → res W) (Inv : W → Prop)
    (cur : Z) (fuel : nat) (now : nat → Z) (w : W) :
  (∀ w, Inv w → timer_ok (timer_of w)) → callbacks_ok debug timer_of with_timer runTimerTask Inv cur → Inv w → (∀ n, cur ≤ now n) →
  (length (pendingTasks_ (timer_of w)) < fuel)%nat →
  ∃ w' fired, drain debug timer_of with_timer runTimerTask fuel cur now w = Ret (w', fired) ∧ Inv w' ∧
    (∀ x, x ∈ pendingTasks_ (timer_of w') → cur < x.1.1) ∧
    NoDup fired ∧ (∀ a, a ∈ fired → ∃ exp, exp ≤ cur ∧ (exp, a, tt) ∈ pendingTasks_ (timer_of w)).
Proof.
  intros Hok Hcb Hw Hnow Hf. apply drain_ok; [done..|]. eapply Nat.le_lt_trans; [apply length_filter|done].
Qed.

(** Two tasks, one of which repeats every second; callbacks that do nothing. *)
Definition demo_timer : t :=
  Make {[ 5 := Task 900 1000 TASK_STATE_SCHEDULED_REPEAT; 6 := Task 950 10 TASK_STATE_SCHEDULED_ONCE ]}
    [(900, 5, tt); (950, 6, tt)].

Lemma demo_timer_ok : timer_ok demo_timer.
Proof.
  split; [repeat constructor|]. intros x Hx. apply elem_of_cons in Hx as [->|Hx]; [|apply list_elem_of_singleton in Hx as ->];
    eexists; (split; [reflexivity|]); simpl; split_and!; first [done | by left | by right].
Qed.

Lemma timer_round_witness : ∃ w' fired, drain true (λ w, w) (λ tm _, tm) (λ _ w, Ret w) 3 1000 (λ n, 1000 + Z.of_nat n) demo_timer = Ret (w', fired) ∧
  (∀ x, x ∈ pendingTasks_ w' → 1000 < x.1.1) ∧ fired = [5; 6].
Proof.
  destruct (timer_round true (λ w, w) (λ tm _, tm) (λ _ w, Ret w) timer_ok 1000 3 (λ n, 1000 + Z.of_nat n) demo_timer) as (w' & fired & E & _ & H & _).
  - intros w Hw. exact Hw.
  - intros w now addr tm' Hw Hn Hp. exists tm'. split; [reflexivity|]. split; [|done].
    destruct (pop_ok true 1000 now w Hw Hn) as [[Hx _]|(exp & addr' & tm2 & Hx & Hok & _)]; [congruence|]. rewrite Hp in Hx. by injection Hx as -> ->.
  - apply demo_timer_ok.
  - intros n. lia.
  - simpl. lia.
  - exists w', fired. split; [exact E|]. split; [exact H|]. vm_compute in E. by injection E as _ <-.
Defined.
