(* ===== verification/AccessTable.v ===== *)
(** * Access tokens of a volume

    Models [DmVolumeAccessTable] (src/source/data-mgr/include/dm-tvc/
    VolumeAccessTable.h, dm-lib/dm-tvc/VolumeAccessTable.cpp): the tokens with
    which access managers hold a volume open, each with a lease that the timer
    of the process ([FdsTimer]) ends.  The tasks of different tables do not
    touch each other, so a table has the part of the timer with its own tasks;
    [closures] has the token the function of each of them removes.  The numbers drawn, the clock, the addresses of new tasks and
    the order of the hash map are arguments; comparing two access modes belongs
    to generated code and is a parameter. *)

From S2P Require Import Prelude.
From S2P Require Import OrderedMap.
From S2P Require Import FdsTimer.
Open Scope Z_scope.

Record VolumeAccessMode := Mode { can_write : bool; can_cache : bool }.

Module DmVolumeAccessTable.

Record DmVolumeAccessEntry := Entry { access_mode : VolumeAccessMode; client_uuid : Z; timer_task : Z }.

Record t := Make { access_map : gmap Z DmVolumeAccessEntry; cached : bool; timer : FdsTimer.t; closures : gmap Z Z }.

Definition make (timer : FdsTimer.t) : t := Make ∅ false timer ∅.
Definition with_timer (tm : FdsTimer.t) (a : t) : t := Make (access_map a) (cached a) tm (closures a).

Definition removeToken (token : Z) (a : t) : res t :=
  match access_map a !! token with
  | None => Ret a
  | Some e =>
      r ← FdsTimer.cancel (timer_task e) (timer a);
      let cached := if cached a && can_cache (access_mode e) then false else cached a in
      Ret (Make (delete token (access_map a)) cached (r : FdsTimer.t * bool).1 (closures a))
  end.

(** The function of a task of the table *)
Definition runTimerTask (addr : Z) (a : t) : res t :=
  match closures a !! addr with Some token => removeToken token a | None => Ret a end.

Section Tokens.
Context (debug : bool) (mode_neq : VolumeAccessMode → VolumeAccessMode → bool).

(** A token the table has: the mode has to be the same, and the lease starts
    anew. *)
Definition renew (now lease_time token : Z) (mode : VolumeAccessMode) (e : DmVolumeAccessEntry) (a : t) : res (t * Z * fds_errno) :=
  if mode_neq mode (access_mode e) then Ret (a, token, ERR_VOLUME_ACCESS_DENIED) else
  r ← FdsTimer.cancel (timer_task e) (timer a);
  r ← FdsTimer.schedule debug now (timer_task e) (lease_time * 1000) (r : FdsTimer.t * bool).1;
  Ret (with_timer (r : FdsTimer.t * bool).1 a, token, ERR_OK).

Definition issue (now lease_time draw addr : Z) (client : Z) (mode : VolumeAccessMode) (a : t) : res (t * Z * fds_errno) :=
  let token := i64 draw in
  tm ← FdsTimer.scheduleFunction debug now addr (lease_time * 1000) (timer a);
  Ret (Make (<[token := Entry mode client addr]> (access_map a)) (can_cache mode) tm (<[addr := token]> (closures a)), token, ERR_OK).

(** [order] is the sequence in which the hash map gives its entries. *)
Definition getToken (now lease_time draw addr : Z) (order : list (Z * DmVolumeAccessEntry)) (client token : Z)
    (mode : VolumeAccessMode) (a : t) : res (t * Z * fds_errno) :=
  match access_map a !! token with
  | Some e => renew now lease_time token mode e a
  | None =>
      if (can_cache mode && cached a) || (can_write mode && cached a) then
        match List.find (λ e, bool_decide (client_uuid e.2 = client)) order with
        | None => Ret (a, token, ERR_VOLUME_ACCESS_DENIED)
        | Some (token, e) => renew now lease_time token mode e a
        end
      else issue now lease_time draw addr client mode a
  end.

End Tokens.
End DmVolumeAccessTable.

Import DmVolumeAccessTable.
Implicit Types (a : t) (e : DmVolumeAccessEntry) (mode : VolumeAccessMode).

(** ** Leases *)
(** Every token has a task that will remove it, and the table remembers a
    caching client only while there is one. *)
Record table_ok a : Prop := {
  ta_timer : FdsTimer.timer_ok (timer a);
  ta_lease token e : access_map a !! token = Some e →
    closures a !! timer_task e = Some token ∧ ∃ exp, (exp, timer_task e, tt) ∈ FdsTimer.pendingTasks_ (timer a);
  ta_cached : cached a = true → ∃ token e, access_map a !! token = Some e ∧ can_cache (access_mode e) = true;
  ta_closures i token : closures a !! i = Some token → is_Some (FdsTimer.tasks (timer a) !! i);
}.

Lemma lease_task a token e : table_ok a → access_map a !! token = Some e → is_Some (FdsTimer.tasks (timer a) !! timer_task e).
Proof. intros Ha He. destruct (ta_lease _ Ha token e He) as [Hc _]. by eapply ta_closures. Qed.

(** Two tokens have different tasks. *)
Lemma lease_unique a token token' e e' : table_ok a → access_map a !! token = Some e → access_map a !! token' = Some e' →
  timer_task e = timer_task e' → token = token'.
Proof.
  intros Ha He He' E. destruct (ta_lease _ Ha _ _ He) as [H1 _]. destruct (ta_lease _ Ha _ _ He') as [H2 _]. rewrite E, H2 in H1. by simplify_eq.
Qed.

(** Removing a token; its task may have left the timer already. *)
Record nearly_ok (gone : Z) a : Prop := {
  na_timer : FdsTimer.timer_ok (timer a);
  na_lease token e : access_map a !! token = Some e → token ≠ gone →
    closures a !! timer_task e = Some token ∧ ∃ exp, (exp, timer_task e, tt) ∈ FdsTimer.pendingTasks_ (timer a);
  na_gone e : access_map a !! gone = Some e → closures a !! timer_task e = Some gone;
  na_cached : cached a = true → ∃ token e, access_map a !! token = Some e ∧ can_cache (access_mode e) = true;
  na_closures i token : closures a !! i = Some token → is_Some (FdsTimer.tasks (timer a) !! i);
}.

Lemma table_nearly gone a : table_ok a → nearly_ok gone a.
Proof. intros [H1 H2 H3 H4]. split; try done; [by intros; apply H2|by intros e He; apply H2]. Qed.

Lemma removeToken_ok token a : nearly_ok token a → ∃ a', removeToken token a = Ret a' ∧ table_ok a' ∧
  access_map a' = delete token (access_map a) ∧ (cached a' = true → cached a = true) ∧
  (∀ e, access_map a !! token = Some e → can_cache (access_mode e) = true → cached a' = false) ∧
  ∀ x, x ∈ FdsTimer.pendingTasks_ (timer a') → x ∈ FdsTimer.pendingTasks_ (timer a).
Proof.
  intros [H1 H2 H3 H4 H5]. unfold removeToken. destruct (access_map a !! token) as [e|] eqn:E.
  - destruct (H5 _ _ (H3 e eq_refl)) as [k Hk]. destruct (FdsTimer.cancel_ok (timer_task e) (timer a) k H1 Hk) as (tm & -> & Htm & Hp & Ht & Hs).
    simpl. eexists. split; [done|]. simpl.
    assert (∀ c, (if cached a && can_cache (access_mode e) then false else cached a) = c → c = true → cached a = true ∧ can_cache (access_mode e) = false) as Hc.
    { intros c <-. by destruct (cached a), (can_cache (access_mode e)). }
    split_and!; [|done|intros Hca; by apply (Hc _ eq_refl Hca)| |by intros x [? _]%Hp].
    + split; simpl.
      * done.
      * intros tk e' [Hne He']%lookup_delete_Some. destruct (H2 _ _ He' ltac:(done)) as [Hcl [exp Hexp]]. split; [done|]. exists exp.
        apply Hp. split; [done|]. simpl. intros Et. rewrite Et, (H3 e eq_refl) in Hcl. by simplify_eq.
      * intros [Hca Hcc]%(Hc _ eq_refl). destruct (H4 Hca) as (tk & e' & He' & Hcc'). exists tk, e'. split; [|done].
        apply lookup_delete_Some. split; [|done]. intros ->. rewrite E in He'. simplify_eq. congruence.
      * intros i tk Hi. destruct (decide (i = timer_task e)) as [->|Hne]; [done|]. rewrite Ht by done. by eapply H5.
    + intros e' [= <-] Hcc. rewrite Hcc. by destruct (cached a).
  - eexists. split; [done|]. split_and!; [|by rewrite delete_id|done|done|done].
    split; [done| |done|done]. intros tk e He. apply H2; [done|]. congruence.
Qed.

(** The tasks of the table as callbacks of the timer *)
Lemma table_callbacks debug cur : FdsTimer.callbacks_ok debug timer with_timer runTimerTask table_ok cur.
Proof.
  intros a now addr tm' Ha Hn Hp. pose proof Ha as [H1 H2 H3 H4].
  destruct (FdsTimer.pop_ok debug cur now (timer a) H1 Hn) as [[Hx _]|(exp & addr' & tm2 & Hx & Htm & Hin & Hexp & _ & _ & Hkeep & Ht & Hs)]; [congruence|].
  rewrite Hp in Hx. injection Hx as <- <-. unfold runTimerTask. simpl.
  assert (∀ i token, closures a !! i = Some token → is_Some (FdsTimer.tasks tm' !! i)) as H4'.
  { intros i tk Hi. destruct (decide (i = addr)) as [->|Hne]; [done|]. rewrite Ht by done. by eapply H4. }
  destruct (closures a !! addr) as [token|] eqn:E.
  - destruct (removeToken_ok token (with_timer tm' a)) as (a' & -> & Ha' & _ & _ & _ & Hsub); [|by exists a'; split_and!; [|done|auto]].
    split; [done| |by intros e He; apply H2|done|done]. intros tk e He Hne.
    destruct (H2 _ _ He) as [Hc [ex Hex]]. split; [done|]. exists ex. apply Hkeep; [|done]. simpl. intros Et. congruence.
  - exists (with_timer tm' a). split_and!; [done| |done]. split; [done| |done|done].
    intros tk e He. destruct (H2 _ _ He) as [Hc [ex Hex]]. split; [done|]. exists ex. apply Hkeep; [|done]. simpl. intros Et. congruence.
Qed.

Section Theorems.
Context (debug : bool) (mode_neq : VolumeAccessMode → VolumeAccessMode → bool).

(** In debug builds a lease is a second at least. *)
Definition long_enough (lease : Z) : Prop := debug = true → 1 ≤ lease.

Lemma long_enough_ms lease : long_enough lease → debug = true → 1000 ≤ lease * 1000.
Proof. intros H Hd. specialize (H Hd). lia. Qed.

Lemma renew_ok now lease token mode e a : long_enough lease → table_ok a → access_map a !! token = Some e →
  ∃ a' rc, renew debug mode_neq now lease token mode e a = Ret (a', token, rc) ∧ table_ok a' ∧ access_map a' = access_map a ∧
    cached a' = cached a.
Proof.
  intros Hl Ha He. unfold renew. destruct (mode_neq mode (access_mode e)); [by eexists _, _|].
  pose proof Ha as [H1 H2 H3 H4]. destruct (lease_task a token e Ha He) as [k Hk].
  destruct (FdsTimer.cancel_ok (timer_task e) (timer a) k H1 Hk) as (tm & -> & Htm & Hp & Ht & [k' Hk']). simpl.
  destruct (FdsTimer.schedule_ok debug now (timer_task e) (lease * 1000) false tm k' Htm Hk') as (tm2 & E & Htm2 & Hp2 & Ht2 & k2 & Hk2 & _); [|done|by apply long_enough_ms|].
  { apply FdsTimer.is_pending_spec. by intros x [_ ?]%Hp. }
  unfold FdsTimer.schedule. rewrite E. simpl. eexists _, _. split; [done|]. split_and!; [|done|done]. split; simpl.
  - done.
  - intros tk e' He'. destruct (H2 _ _ He') as [Hc [exp Hexp]]. split; [done|].
    destruct (decide (timer_task e' = timer_task e)) as [Et|Hne].
    + rewrite Et. eexists. apply Hp2. by left.
    + exists exp. apply Hp2. right. by apply Hp.
  - done.
  - intros i tk Hi. destruct (decide (i = timer_task e)) as [->|Hne]; [by rewrite Hk2|]. rewrite Ht2, Ht by done. by eapply H4.
Qed.

Lemma issue_ok now lease draw addr client mode a : long_enough lease → table_ok a → FdsTimer.tasks (timer a) !! addr = None →
  ∃ a', issue debug now lease draw addr client mode a = Ret (a', i64 draw, ERR_OK) ∧ table_ok a' ∧
    access_map a' = <[i64 draw := Entry mode client addr]> (access_map a) ∧ cached a' = can_cache mode ∧
    ∀ i, i ≠ addr → FdsTimer.tasks (timer a') !! i = FdsTimer.tasks (timer a) !! i.
Proof.
  intros Hl Ha Hn. pose proof Ha as [H1 H2 H3 H4]. unfold issue, FdsTimer.scheduleFunction, FdsTimer.schedule.
  assert (∀ x, x ∈ FdsTimer.pendingTasks_ (timer a) → x.1.2 ≠ addr) as Hfresh.
  { intros x Hx <-. destruct (FdsTimer.tk_task _ H1 x Hx) as (k & Hk & _). congruence. }
  destruct (FdsTimer.schedule_ok debug now addr (lease * 1000) false (FdsTimer.new_task addr (timer a))
    (FdsTimer.Task 0 0 FdsTimer.TASK_STATE_UNINIT)) as (tm & -> & Htm & Hp & Ht & k & Hk & _);
    [by apply FdsTimer.new_task_ok|simpl; by rewrite lookup_insert_eq|by apply FdsTimer.is_pending_spec|done|by apply long_enough_ms|].
  assert (∀ i, i ≠ addr → FdsTimer.tasks tm !! i = FdsTimer.tasks (timer a) !! i) as Hti.
  { intros i Hi. rewrite Ht by done. simpl. by rewrite lookup_insert_ne. }
  simpl. eexists. split; [done|]. split_and!; [|done|done|done]. split; simpl.
  - done.
  - intros tk e [[<- <-]|[Hne He]]%lookup_insert_Some; simpl.
    + rewrite lookup_insert_eq. split; [done|]. eexists. apply Hp. by left.
    + destruct (H2 _ _ He) as [Hc [exp Hexp]]. split; [|exists exp; apply Hp; by right].
      rewrite lookup_insert_ne; [done|]. intros Ei. by apply (Hfresh _ Hexp).
  - intros Hc. exists (i64 draw), (Entry mode client addr). by rewrite lookup_insert_eq.
  - intros i tk [[<- _]|[Hne Hi]]%lookup_insert_Some; [by rewrite Hk|]. rewrite Hti by done. by eapply H4.
Qed.

Lemma find_client client order a : order ≡ₚ map_to_list (access_map a) →
  match List.find (λ x : Z * DmVolumeAccessEntry, bool_decide (client_uuid x.2 = client)) order with
  | Some (token, e) => access_map a !! token = Some e ∧ client_uuid e = client
  | None => ∀ token e, access_map a !! token = Some e → client_uuid e ≠ client
  end.
Proof.
  intros Ho. destruct (List.find _ order) as [[token e]|] eqn:E.
  - apply List.find_some in E as [Hin%list_elem_of_In Hb%bool_decide_eq_true_1]. rewrite Ho in Hin. by apply elem_of_map_to_list in Hin.
  - intros token e He Hc. assert (bool_decide (client_uuid (token, e).2 = client) = false) as Hf.
    { apply (List.find_none _ _ E). apply list_elem_of_In. rewrite Ho. by apply elem_of_map_to_list. }
    by apply bool_decide_eq_false_1 in Hf.
Qed.

(** ** Runs *)
Inductive top :=
| TGet (now lease_time draw addr : Z) (order : list (Z * DmVolumeAccessEntry)) (client token : Z) (mode : VolumeAccessMode)
| TRemove (token : Z)
| TRound (cur : Z) (now : nat → Z).

Definition texec (o : top) (a : t) : res t :=
  match o with
  | TGet now lease draw addr order client token mode =>
      r ← getToken debug mode_neq now lease draw addr order client token mode a; Ret (r : t * Z * fds_errno).1.1
  | TRemove token => removeToken token a
  | TRound cur now => r ← FdsTimer.drain debug timer with_timer runTimerTask (S (length (FdsTimer.pendingTasks_ (timer a)))) cur now a; Ret (r : t * list Z).1
  end.

Fixpoint trun (os : list top) (a : t) : res t :=
  match os with [] => Ret a | o :: os => a ← texec o a; trun os a end.

(** New tasks have addresses that are not in use, a hash map gives each of its
    entries once, the clock does not run backwards, and in debug builds a lease
    is a second at least. *)
Definition top_fits (o : top) (a : t) : Prop :=
  match o with
  | TGet _ lease _ addr order _ _ _ => long_enough lease ∧ FdsTimer.tasks (timer a) !! addr = None ∧ order ≡ₚ map_to_list (access_map a)
  | TRemove _ => True
  | TRound cur now => ∀ n, cur ≤ now n
  end.

Fixpoint run_fits (os : list top) (a : t) : Prop :=
  match os with [] => True | o :: os => top_fits o a ∧ ∀ a', texec o a = Ret a' → run_fits os a' end.

Lemma getToken_ok now lease draw addr order client token mode a : long_enough lease → table_ok a →
  FdsTimer.tasks (timer a) !! addr = None → order ≡ₚ map_to_list (access_map a) →
  ∃ a' tk rc, getToken debug mode_neq now lease draw addr order client token mode a = Ret (a', tk, rc) ∧ table_ok a' ∧
    (access_map a' = access_map a ∧ cached a' = cached a ∨
     access_map a' = <[i64 draw := Entry mode client addr]> (access_map a) ∧ cached a' = can_cache mode ∧
     (can_cache mode = true → cached a = false)).
Proof.
  intros Hl Ha Hn Ho. unfold getToken. destruct (access_map a !! token) as [e|] eqn:E.
  { destruct (renew_ok now lease token mode e a Hl Ha E) as (a' & rc & -> & Ha' & Hm). eexists _, _, _. split; [done|]. split; [done|by left]. }
  destruct ((can_cache mode && cached a) || (can_write mode && cached a)) eqn:Ec.
  - pose proof (find_client client order a Ho) as Hf. destruct (List.find _ order) as [[tk e]|].
    + destruct Hf as [He _]. destruct (renew_ok now lease tk mode e a Hl Ha He) as (a' & rc & -> & Ha' & Hm).
      eexists _, _, _. split; [done|]. split; [done|by left].
    + eexists _, _, _. split; [done|]. split; [done|by left].
  - destruct (issue_ok now lease draw addr client mode a Hl Ha Hn) as (a' & -> & Ha' & Hm & Hc & _).
    eexists _, _, _. split; [done|]. split; [done|]. right. split_and!; [done|done|]. intros Hcc. rewrite Hcc in Ec. by destruct (cached a).
Qed.

Lemma round_ok cur now a : table_ok a → (∀ n, cur ≤ now n) → ∃ a', texec (TRound cur now) a = Ret a' ∧ table_ok a' ∧
  ∀ x, x ∈ FdsTimer.pendingTasks_ (timer a') → cur < x.1.1.
Proof.
  intros Ha Hn. unfold texec.
  destruct (FdsTimer.drain_ok debug timer with_timer runTimerTask table_ok cur (S (length (FdsTimer.pendingTasks_ (timer a)))) now a)
    as (a' & fired & -> & Ha' & Hp & _); [by intros ? [? _ _ _]|apply table_callbacks|done|done| |by exists a'].
  apply Nat.lt_succ_r, length_filter.
Qed.

Lemma texec_ok o a : table_ok a → top_fits o a → ∃ a', texec o a = Ret a' ∧ table_ok a'.
Proof.
  intros Ha Ho. destruct o as [now lease draw addr order client token mode|token|cur now].
  - destruct Ho as (Hl & Hn & Ho). destruct (getToken_ok now lease draw addr order client token mode a Hl Ha Hn Ho) as (a' & tk & rc & E & Ha' & _).
    simpl. rewrite E. by eexists.
  - destruct (removeToken_ok token a) as (a' & E & Ha' & _); [by apply table_nearly|by exists a'].
  - destruct (round_ok cur now a Ha Ho) as (a' & E & Ha' & _). by exists a'.
Qed.

(** C25. Every token has a lease that ends: whatever clients open and close and
    whenever the timer runs, all operations return, every token of the table
    has a timer task waiting that removes it, and after the timer has run no
    token is left whose lease had run out. This holds in debug builds, when
    leases are a second or longer, and in others. *)
Theorem token_leases os (cur : Z) (now : nat → Z) a : table_ok a → run_fits (os ++ [TRound cur now]) a →
  ∃ a', trun (os ++ [TRound cur now]) a = Ret a' ∧ table_ok a' ∧
    ∀ token e, access_map a' !! token = Some e →
      closures a' !! timer_task e = Some token ∧
      ∃ exp, cur < exp ∧ (exp, timer_task e, tt) ∈ FdsTimer.pendingTasks_ (timer a').
Proof.
  revert a. induction os as [|o os IH]; intros a Ha Hf; simpl in Hf |- *.
  - destruct Hf as [Hf _]. destruct (round_ok cur now a Ha Hf) as (a' & E & Ha' & Hp). simpl in E. rewrite E. simpl. exists a'.
    split; [done|]. split; [done|]. intros token e He. destruct (ta_lease _ Ha' token e He) as [Hc [exp Hexp]].
    split; [done|]. exists exp. split; [by apply (Hp _ Hexp)|done].
  - destruct Hf as [Ho Hf]. destruct (texec_ok o a Ha Ho) as (a1 & E & Ha1). rewrite E. simpl. by apply IH; [|apply Hf].
Qed.

(** ** Exclusive access *)
Definition asks_cache (o : top) : Prop := match o with TGet _ _ _ _ _ _ _ mode => can_cache mode = true | _ => True end.

(** At most one token, and [cached] says whether there is one. *)
Definition one_token a : Prop :=
  (∀ token e token' e', access_map a !! token = Some e → access_map a !! token' = Some e' → token = token') ∧
  (∀ token e, access_map a !! token = Some e → can_cache (access_mode e) = true ∧ cached a = true).

Lemma removeToken_one token a a' : one_token a → removeToken token a = Ret a' → one_token a'.
Proof.
  intros [H1 H2] E. unfold removeToken in E. destruct (access_map a !! token) as [e|] eqn:Et; res_inv; [|done].
  assert (∀ tk x, delete token (access_map a) !! tk = Some x → False) as Hno.
  { intros tk x [Hne Hx]%lookup_delete_Some. apply Hne. by eapply H1. }
  split; simpl; [by intros ? ? ? ? ?%Hno|by intros ? ? ?%Hno].
Qed.

Lemma exclusive_callbacks cur : FdsTimer.callbacks_ok debug timer with_timer runTimerTask (λ a, table_ok a ∧ one_token a) cur.
Proof.
  intros a now addr tm' [Ha H1] Hn Hp. destruct (table_callbacks debug cur a now addr tm' Ha Hn Hp) as (a' & E & Ha' & Hsub).
  exists a'. split_and!; [done|done| |done]. unfold runTimerTask in E. destruct (closures (with_timer tm' a) !! addr).
  - by eapply removeToken_one, E.
  - by injection E as <-.
Qed.

Lemma texec_one o a : table_ok a → one_token a → top_fits o a → asks_cache o →
  ∃ a', texec o a = Ret a' ∧ table_ok a' ∧ one_token a'.
Proof.
  intros Ha Ha1 Ho Hc. destruct o as [now lease draw addr order client token mode|token|cur now].
  - destruct Ho as (Hl & Hn & Ho). destruct (getToken_ok now lease draw addr order client token mode a Hl Ha Hn Ho) as (a' & tk & rc & E & Ha' & Hm).
    simpl. rewrite E. eexists. split; [done|]. split; [done|]. destruct Hm as [[Em Ec]|(Em & Ec & Hno)].
    + unfold one_token. simpl. by rewrite Em, Ec.
    + specialize (Hno Hc). assert (access_map a = ∅) as Hem.
      { apply map_eq. intros i. rewrite lookup_empty. destruct (access_map a !! i) as [e|] eqn:Ei; [|done].
        destruct (proj2 Ha1 i e Ei). congruence. }
      unfold one_token. simpl. rewrite Em, Ec, Hem. split.
      * intros ? ? ? ? H1 H2. apply lookup_singleton_Some in H1 as [<- _]. by apply lookup_singleton_Some in H2 as [<- _].
      * intros ? ? H1. by apply lookup_singleton_Some in H1 as [_ <-].
  - destruct (removeToken_ok token a) as (a' & E & Ha' & _); [by apply table_nearly|]. exists a'. split_and!; [done..|].
    by eapply removeToken_one, E.
  - unfold texec. destruct (FdsTimer.drain_ok debug timer with_timer runTimerTask (λ a, table_ok a ∧ one_token a) cur
      (S (length (FdsTimer.pendingTasks_ (timer a)))) now a) as (a' & fired & -> & [Ha' H'] & _);
      [by intros ? [[? _ _ _] _]|apply exclusive_callbacks|done|done|apply Nat.lt_succ_r, length_filter|by exists a'].
Qed.

(** C26. Clients that all ask to cache, which is the default, exclude each
    other: in every run there is at most one token, so a second client gets
    access only after the first has closed the volume or its lease has ended. *)
Theorem exclusive_access os a : table_ok a → one_token a → run_fits os a → Forall asks_cache os →
  ∃ a', trun os a = Ret a' ∧ ∀ token e token' e',
    access_map a' !! token = Some e → access_map a' !! token' = Some e' → token = token' ∧ client_uuid e = client_uuid e'.
Proof.
  revert a. induction os as [|o os IH]; intros a Ha H1 Hf Hc; simpl in *.
  - exists a. split; [done|]. intros tk e tk' e' He He'. assert (tk = tk') as -> by (by eapply H1). split; [done|]. congruence.
  - destruct Hf as [Ho Hf]. apply Forall_cons in Hc as [Hc Hcs]. destruct (texec_one o a Ha H1 Ho Hc) as (a1 & E & Ha1 & H1').
    rewrite E. simpl. by apply IH; [| |apply Hf|].
Qed.

(** A client that only reads takes the exclusive access of a caching client
    away: issuing its token sets [cached] to its own mode, so another client
    that asks to cache is let in while the first one still holds its token. *)
Theorem reader_unlocks_cache (now1 now2 lease draw1 draw2 addr1 addr2 : Z) order1 order2 (client1 client2 token1 token2 : Z) a holder e :
  long_enough lease → table_ok a → access_map a !! holder = Some e → can_cache (access_mode e) = true → client_uuid e ≠ client2 →
  access_map a !! token1 = None → FdsTimer.tasks (timer a) !! addr1 = None → FdsTimer.tasks (timer a) !! addr2 = None → addr1 ≠ addr2 →
  i64 draw1 ≠ holder → i64 draw2 ≠ holder → access_map a !! token2 = None → token2 ≠ i64 draw1 →
  ∃ a1 a2, getToken debug mode_neq now1 lease draw1 addr1 order1 client1 token1 (Mode false false) a = Ret (a1, i64 draw1, ERR_OK) ∧
    getToken debug mode_neq now2 lease draw2 addr2 order2 client2 token2 (Mode true true) a1 = Ret (a2, i64 draw2, ERR_OK) ∧
    access_map a2 !! holder = Some e ∧ access_map a2 !! i64 draw2 = Some (Entry (Mode true true) client2 addr2).
Proof.
  intros Hl Ha He Hcc Hcl Ht1 Hn1 Hn2 Hne Hd1 Hd2 Ht2 Ht2'. unfold getToken. rewrite Ht1. simpl.
  destruct (issue_ok now1 lease draw1 addr1 client1 (Mode false false) a Hl Ha Hn1) as (a1 & E1 & Ha1 & Em1 & Ec1 & Htk).
  exists a1. destruct (issue_ok now2 lease draw2 addr2 client2 (Mode true true) a1 Hl Ha1) as (a2 & E2 & _ & Em2 & _);
    [by rewrite Htk by congruence|]. exists a2. split; [done|].
  rewrite Em1, lookup_insert_ne by done. rewrite Ht2, Ec1. simpl. rewrite E2. split; [done|].
  rewrite Em2, Em1. split; [by rewrite !lookup_insert_ne by done|by rewrite lookup_insert_eq].
Qed.

End Theorems.

(** ** Examples *)
Definition mode_ne (m m' : VolumeAccessMode) : bool :=
  negb (eqb (can_write m) (can_write m') && eqb (can_cache m) (can_cache m')).

Definition empty_table : t := make FdsTimer.make.

Lemma empty_table_ok : table_ok empty_table.
Proof.
  split; [split; [apply SSorted_nil|by intros x ?%elem_of_nil]|intros tk e He|done|intros i tk Hi].
  - simpl in He. by apply lookup_empty_Some in He.
  - simpl in Hi. by apply lookup_empty_Some in Hi.
Qed.

(** A client opens the volume, a second one is refused, and the lease ends. *)
Definition demo_run : list top :=
  [TGet 0 60 7 1 [] 100 0 (Mode true true);
   TGet 5 60 8 2 [(7, Entry (Mode true true) 100 1)] 200 0 (Mode true true)].
Definition demo_round : top := TRound 60000 (λ _, 60000).

Lemma demo_first : ∃ a, texec true mode_ne (TGet 0 60 7 1 [] 100 0 (Mode true true)) empty_table = Ret a ∧
  access_map a = {[ 7 := Entry (Mode true true) 100 1 ]} ∧ FdsTimer.tasks (timer a) !! 2 = None.
Proof. eexists. split; [vm_compute; reflexivity|]. split; vm_compute; reflexivity. Qed.

Lemma demo_fits : run_fits true mode_ne (demo_run ++ [demo_round]) empty_table.
Proof.
  split; [split; [by intros _|split; [reflexivity|simpl; by rewrite map_to_list_empty]]|].
  intros a Ha. destruct demo_first as (a0 & E0 & Em & Et). rewrite E0 in Ha. injection Ha as <-.
  split; [split; [by intros _|split; [exact Et|by rewrite Em, map_to_list_singleton]]|].
  intros a1 _. split; [intros n; simpl; lia|done].
Qed.

Lemma token_leases_witness : ∃ a', trun true mode_ne (demo_run ++ [demo_round]) empty_table = Ret a' ∧ table_ok a' ∧ access_map a' = ∅.
Proof.
  destruct (token_leases true mode_ne demo_run 60000 (λ _, 60000) empty_table) as (a' & E & Ha' & _).
  - apply empty_table_ok.
  - exact demo_fits.
  - exists a'. split; [exact E|]. split; [exact Ha'|]. vm_compute in E. injection E as <-. reflexivity.
Defined.

Lemma exclusive_access_witness : ∃ a', trun true mode_ne (demo_run ++ [demo_round]) empty_table = Ret a' ∧ ∀ token e token' e',
  access_map a' !! token = Some e → access_map a' !! token' = Some e' → token = token' ∧ client_uuid e = client_uuid e'.
Proof.
  apply (exclusive_access true mode_ne (demo_run ++ [demo_round]) empty_table).
  - apply empty_table_ok.
  - split; [intros ? ? ? ? H; simpl in H; by apply lookup_empty_Some in H|intros ? ? H; simpl in H; by apply lookup_empty_Some in H].
  - exact demo_fits.
  - repeat (apply List.Forall_cons; [reflexivity || exact I|]). apply List.Forall_nil.
Defined.

Lemma reader_unlocks_cache_witness : ∃ a a1 a2, texec true mode_ne (TGet 0 60 7 1 [] 100 0 (Mode true true)) empty_table = Ret a ∧
  getToken true mode_ne 5 60 8 2 [] 200 0 (Mode false false) a = Ret (a1, 8, ERR_OK) ∧
  getToken true mode_ne 6 60 9 3 [] 300 0 (Mode true true) a1 = Ret (a2, 9, ERR_OK) ∧
  access_map a2 !! 7 = Some (Entry (Mode true true) 100 1) ∧ access_map a2 !! 9 = Some (Entry (Mode true true) 300 3).
Proof.
  destruct (texec_ok true mode_ne (TGet 0 60 7 1 [] 100 0 (Mode true true)) empty_table) as (a & E & Ha).
  - apply empty_table_ok.
  - split; [by intros _|split; [reflexivity|simpl; by rewrite map_to_list_empty]].
  - exists a. pose proof E as E'. vm_compute in E'. injection E' as E'.
    destruct (reader_unlocks_cache true mode_ne 5 6 60 8 9 2 3 [] [] 200 300 0 0 a 7 (Entry (Mode true true) 100 1)) as (a1 & a2 & H1 & H2 & H3 & H4);
      [by intros _|exact Ha|by rewrite <-E'|done|done|by rewrite <-E'|by rewrite <-E'|by rewrite <-E'|done|vm_compute; discriminate|vm_compute; discriminate|by rewrite <-E'|vm_compute; discriminate|].
    exists a1, a2. split; [exact E|]. split; [exact H1|]. split; [exact H2|]. split; [exact H3|exact H4].
Defined.
