(* ===== verification/TimeVolumeCatalog.v ===== *)
(** * The time volume catalog of the data manager

    Models [DmTimeVolCatalog] (src/source/data-mgr/include/dm-tvc/
    TimeVolumeCatalog.h, dm-lib/dm-tvc/TimeVolumeCatalog.cpp), which puts the
    commit logs of the volumes in front of the volume catalog, and the part of
    [VolumeMeta] (dm-lib/VolumeMeta.cpp) that its operations change: the
    sequence id, the operation id and the version of a volume.  Commit logs are
    shared objects: a commit that waits for its thread holds the log it found
    when it was asked for, also when the volume has another one by then.  The
    executor runs the tasks of one hash key in order.  An operation is one step
    otherwise; clock readings and the outcomes of file operations are arguments.
    A table of access tokens has its own part of the timer, with its own tasks.
    The measurement of the disk is not modelled: [mod_startup] is given its
    result. *)

From S2P Require Import Prelude.
From S2P Require Import Serialize.
From S2P Require Import ObjectId.
From S2P Require Import OrderedMap.
From S2P Require Import DmBlobTypes.
From S2P Require Import CatalogKeys.
From S2P Require Import PersistVolDB.
From S2P Require Import VolumeCatalog.
From S2P Require Import CommitLog.
From S2P Require Import FdsTimer.
From S2P Require Import AccessTable.
Open Scope Z_scope.

Definition blob_version_deleted : Z := uint64_max.
Definition invalid_vol_id : Z := 0.

(** [VolumeDesc::isSnapshot], [VolumeDesc::isClone] *)
Definition isSnapshot (d : DmVolumeCatalog.VolumeDesc) : bool := DmVolumeCatalog.fSnapshot d.
Definition isClone (d : DmVolumeCatalog.VolumeDesc) : bool :=
  bool_decide (DmVolumeCatalog.srcVolumeId d > invalid_vol_id) && negb (DmVolumeCatalog.fSnapshot d).

Module VolumeMeta.

Definition INVALID_SEQUENCEID : Z := uint64_max.

Record t := Make { sequence_id : Z; opId : Z; version : Z }.

Definition make : t := Make INVALID_SEQUENCEID 0 0.

Definition setSequenceId (new_seq_id : Z) (m : t) : t :=
  if decide (sequence_id m = INVALID_SEQUENCEID ∨ new_seq_id > sequence_id m) then Make new_seq_id (opId m) (version m) else m.

Definition setOpId (id : Z) (m : t) : t := Make (sequence_id m) id (version m).
Definition setVersion (v : Z) (m : t) : t := Make (sequence_id m) (opId m) v.

End VolumeMeta.

Module DmTimeVolCatalog.

Inductive TimeVolumeCatalogState := TVC_INIT | TVC_READY | TVC_UNAVAILABLE.

#[export] Instance TimeVolumeCatalogState_eq_dec : EqDecision TimeVolumeCatalogState.
Proof. solve_decision. Defined.

(** The arguments of [commitBlobTxWork] that are bound when it is scheduled;
    [w_log] is the commit log. *)
Record work := Work { w_key : Z; w_volid : Z; w_blobName : bytes; w_log : Z; w_txId : Z; w_seq : Z }.

(** What a commit tells its callback: error, version of the blob, and the
    objects, the metadata and the size when the transaction was there. *)
Record commit_result := Result {
  cr_error : fds_errno; cr_version : Z; cr_objs : option BlobObjList.t; cr_meta : option (list (bytes * bytes)); cr_size : Z }.

(** The times of a commit: of the log entry, of the catalog's write, of the
    rounds of a range delete and of the last write of a delete *)
Record times := Times { tm_commit : Z; tm_put : Z; tm_range : Z → Z; tm_last : Z }.

Section DmTimeVolCatalog.
Context {D : Type} `{L : LevelDB D} `{P : TProtocol}.

Record t := Make {
  currentState : TimeVolumeCatalogState;
  logs : gmap Z DmCommitLog.t;
  commitLogs_ : gmap Z Z;
  accessTable_ : gmap Z DmVolumeAccessTable.t;
  waiting : list work;
  volcat : DmVolumeCatalog.t (D:=D);
  vol_meta_map : gmap Z VolumeMeta.t;
  volumeTokens : bool;
  volumegrouping : bool;
}.

Definition with_state (s : TimeVolumeCatalogState) (c : t) : t :=
  Make s (logs c) (commitLogs_ c) (accessTable_ c) (waiting c) (volcat c) (vol_meta_map c) (volumeTokens c) (volumegrouping c).
Definition with_log (addr : Z) (l : DmCommitLog.t) (c : t) : t :=
  Make (currentState c) (<[addr := l]> (logs c)) (commitLogs_ c) (accessTable_ c) (waiting c) (volcat c) (vol_meta_map c) (volumeTokens c) (volumegrouping c).
Definition with_commitLogs (m : gmap Z Z) (c : t) : t :=
  Make (currentState c) (logs c) m (accessTable_ c) (waiting c) (volcat c) (vol_meta_map c) (volumeTokens c) (volumegrouping c).
Definition with_access (m : gmap Z DmVolumeAccessTable.t) (c : t) : t :=
  Make (currentState c) (logs c) (commitLogs_ c) m (waiting c) (volcat c) (vol_meta_map c) (volumeTokens c) (volumegrouping c).
Definition with_waiting (l : list work) (c : t) : t :=
  Make (currentState c) (logs c) (commitLogs_ c) (accessTable_ c) l (volcat c) (vol_meta_map c) (volumeTokens c) (volumegrouping c).
Definition with_volcat (v : DmVolumeCatalog.t (D:=D)) (c : t) : t :=
  Make (currentState c) (logs c) (commitLogs_ c) (accessTable_ c) (waiting c) v (vol_meta_map c) (volumeTokens c) (volumegrouping c).
Definition with_meta (volId : Z) (m : VolumeMeta.t) (c : t) : t :=
  Make (currentState c) (logs c) (commitLogs_ c) (accessTable_ c) (waiting c) (volcat c) (<[volId := m]> (vol_meta_map c)) (volumeTokens c) (volumegrouping c).

(** [dataManager_.getVolumeMeta(volId, false)->...] *)
Definition update_meta (volId : Z) (f : VolumeMeta.t → VolumeMeta.t) (c : t) : res t :=
  match vol_meta_map c !! volId with None => Fault NullDeref | Some m => Ret (with_meta volId (f m) c) end.

(** A call of the volume catalog *)
Definition on_volcat (r : res (DmVolumeCatalog.t (D:=D) * fds_errno)) (c : t) : res (t * fds_errno) :=
  x ← r; Ret (with_volcat (x : DmVolumeCatalog.t * fds_errno).1 c, x.2).

(** ** Module *)
(** [diskTestFailure]: the disk could not be written; [full]: the used part
    has reached the threshold for errors. *)
Definition setUnavailable (c : t) : t := with_state TVC_UNAVAILABLE c.
Definition isUnavailable (c : t) : bool := bool_decide (currentState c = TVC_UNAVAILABLE).
Definition mod_startup (diskTestFailure full : bool) (c : t) : t :=
  let diskTestFailure := if negb diskTestFailure then full else diskTestFailure in
  if diskTestFailure then setUnavailable c else with_state TVC_READY c.

(** [TVC_CHECK_AVAILABILITY] *)
Definition available {A} (c : t) (out : A) (k : res (A * fds_errno)) : res (A * fds_errno) :=
  if decide (currentState c = TVC_UNAVAILABLE) then Ret (out, ERR_NODE_NOT_ACTIVE)
  else if decide (currentState c = TVC_INIT) then Ret (out, ERR_NOT_READY) else k.

(** [COMMITLOG_GET] *)
Definition getCommitlog (volId : Z) (c : t) : option Z * fds_errno :=
  match commitLogs_ c !! volId with Some addr => (Some addr, ERR_OK) | None => (None, ERR_VOL_NOT_FOUND) end.

(** A call of the commit log of a volume *)
Definition on_log (volId : Z) (f : DmCommitLog.t → res (DmCommitLog.t * fds_errno)) (c : t) : res (t * fds_errno) :=
  match commitLogs_ c !! volId with
  | None => Ret (c, ERR_VOL_NOT_FOUND)
  | Some addr =>
      match logs c !! addr with
      | None => Fault NullDeref
      | Some l => r ← f l; Ret (with_log addr (r : DmCommitLog.t * fds_errno).1 c, r.2)
      end
  end.

(** ** Volumes *)
(** [addr] is where the new commit log is. *)
Definition createCommitLog (addr : Z) (voldesc : DmVolumeCatalog.VolumeDesc) (c : t) : t :=
  if isSnapshot voldesc then c else
  let l := DmCommitLog.mod_startup (DmCommitLog.make (DmVolumeCatalog.maxObjSizeInBytes voldesc)) in
  with_commitLogs (<[DmVolumeCatalog.volUUID voldesc := addr]> (commitLogs_ c)) (with_log addr l c).

Definition addVolume (addr : Z) (voldesc : DmVolumeCatalog.VolumeDesc) (c : t) : res (t * fds_errno) :=
  let c := createCommitLog addr voldesc c in on_volcat (DmVolumeCatalog.addCatalog voldesc (volcat c)) c.

Definition copyVolume (addr : Z) (copied : fds_errno) (voldesc : DmVolumeCatalog.VolumeDesc) (c : t) : res (t * fds_errno) :=
  let c := if isClone voldesc then createCommitLog addr voldesc c else c in
  on_volcat (DmVolumeCatalog.copyVolume voldesc copied (volcat c)) c.

Definition activateVolume (ts : Z) (exists_ : bool) (opened : option D) (volId : Z) (c : t) : res (t * fds_errno) :=
  on_volcat (DmVolumeCatalog.activateCatalog ts exists_ opened volId (volcat c)) c.

Definition markVolumeDeleted (volId : Z) (c : t) : t * fds_errno :=
  match DmVolumeCatalog.getVolume volId (volcat c) with
  | None => (c, ERR_VOL_NOT_FOUND)
  | Some _ => let r := DmVolumeCatalog.markVolumeDeleted volId (volcat c) in (with_volcat r.1 c, r.2)
  end.

Definition deleteVolume (volId : Z) (c : t) : t * fds_errno :=
  let '(v, err) := DmVolumeCatalog.deleteCatalog volId true (volcat c) in
  let c := with_volcat v c in
  if decide (err = ERR_OK) then (with_commitLogs (delete volId (commitLogs_ c)) c, err) else (c, err).

Definition setVolumeMetadata (ts volId : Z) (metadataList : list (bytes * bytes)) (seq_id : Z) (c : t) : res (t * fds_errno) :=
  on_volcat (DmVolumeCatalog.setVolumeMetadata ts volId metadataList seq_id (volcat c)) c.

(** The third and fourth results are the sequence id and the version. *)
Definition openVolume (debug : bool) (mode_neq : VolumeAccessMode → VolumeAccessMode → bool) (now lease draw addr : Z)
    (order : list (Z * DmVolumeAccessTable.DmVolumeAccessEntry)) (volId client token : Z) (mode : VolumeAccessMode) (c : t)
    : res (t * Z * Z * Z * fds_errno) :=
  r ← (if volumeTokens c then
         match accessTable_ c !! volId with
         | None =>
             r ← DmVolumeAccessTable.getToken debug mode_neq now lease draw addr order client token mode (DmVolumeAccessTable.make FdsTimer.make);
             let '(table, token, _) := r : DmVolumeAccessTable.t * Z * fds_errno in
             Ret (with_access (<[volId := table]> (accessTable_ c)) c, token, ERR_OK)
         | Some table =>
             r ← DmVolumeAccessTable.getToken debug mode_neq now lease draw addr order client token mode table;
             let '(table, token, err) := r : DmVolumeAccessTable.t * Z * fds_errno in
             Ret (with_access (<[volId := table]> (accessTable_ c)) c, token, err)
         end
       else Ret (c, token, ERR_OK));
  let '(c, token, err) := r : t * Z * fds_errno in
  match vol_meta_map c !! volId with
  | None => Fault NullDeref
  | Some m => Ret (c, token, VolumeMeta.sequence_id m, VolumeMeta.version m, err)
  end.

Definition closeVolume (volId token : Z) (c : t) : res (t * fds_errno) :=
  if volumeTokens c then
    match accessTable_ c !! volId with
    | None => Ret (c, ERR_OK)
    | Some table =>
        table ← DmVolumeAccessTable.removeToken token table;
        Ret (with_access (<[volId := table]> (accessTable_ c)) c, ERR_OK)
    end
  else Ret (c, ERR_OK).

(** ** Transactions *)
Definition startBlobTx (unset ts volId : Z) (blobName : bytes) (blobMode txId dmtVersion : Z) (c : t) : res (t * fds_errno) :=
  available c c (on_log volId (DmCommitLog.startTx unset ts txId blobName blobMode dmtVersion) c).

Definition updateBlobTx_objs (volId txId : Z) (objList : list (Z * Z * bytes)) (c : t) : res (t * fds_errno) :=
  available c c (on_log volId (λ l, boList ← BlobObjList.make_fdsp objList; DmCommitLog.updateTx_objs txId boList l) c).

Definition updateBlobTx_meta (volId txId : Z) (metaList : list (bytes * bytes)) (c : t) : res (t * fds_errno) :=
  available c c (on_log volId (DmCommitLog.updateTx_meta txId (MetaDataList.make_fdsp metaList)) c).

Definition deleteBlob (volId txId blob_version : Z) (expunge_data : bool) (c : t) : res (t * fds_errno) :=
  available c c (on_log volId (DmCommitLog.deleteBlob txId blob_version expunge_data) c).

Definition abortBlobTx (volId txId : Z) (c : t) : res (t * fds_errno) := on_log volId (DmCommitLog.rollbackTx txId) c.

(** The code [ERR_VOL_NOT_FOUND] of a volume without a commit log is converted
    to the result [true]. *)
Definition isPendingTx (volId timeNano : Z) (c : t) : res bool :=
  match commitLogs_ c !! volId with
  | None => Ret true
  | Some addr => match logs c !! addr with None => Fault NullDeref | Some l => Ret (DmCommitLog.isPendingTx timeNano l) end
  end.

(** The catalog, the transaction as it is then, the version for the callback
    and the error *)
Definition doCommitBlob (fuel : nat) (tms : times) (volid blob_version seq_id : Z) (commit_data : CommitLogTx.t) (c : t)
    : res (t * CommitLogTx.t * Z * fds_errno) :=
  let name := CommitLogTx.name commit_data in
  if CommitLogTx.blobDelete commit_data then
    r ← on_volcat (DmVolumeCatalog.deleteBlob fuel (tm_range tms) (tm_last tms) volid name (volcat c)) c;
    let '(c, e) := r : t * fds_errno in Ret (c, commit_data, blob_version_deleted, e)
  else
    r ← (if bool_decide (BlobObjList.objs (CommitLogTx.blobObjList commit_data) ≠ []) then
           let objs := if decide (Z.land (CommitLogTx.blobMode commit_data) TRUNCATE ≠ 0)
                       then BlobObjList.setEndOfBlob (CommitLogTx.blobObjList commit_data) else CommitLogTx.blobObjList commit_data in
           let commit_data := CommitLogTx.with_objs objs commit_data in
           r ← on_volcat (DmVolumeCatalog.putBlob (tm_put tms) volid name (Some (CommitLogTx.metaDataList commit_data)) objs seq_id (volcat c)) c;
           Ret ((r : t * fds_errno).1, commit_data, r.2)
         else
           r ← on_volcat (DmVolumeCatalog.putBlobMeta (tm_put tms) volid name (Some (CommitLogTx.metaDataList commit_data)) seq_id (volcat c)) c;
           Ret ((r : t * fds_errno).1, commit_data, r.2));
    let '(c, commit_data, e) := r : t * CommitLogTx.t * fds_errno in
    if decide (e = ERR_OK) then
      r ← DmVolumeCatalog.getBlobMeta volid name (0, CommitLogTx.blobSize commit_data, []) (volcat c);
      let '(_, blobSize, metaList, e) := r : Z * Z * list (bytes * bytes) * fds_errno in
      let commit_data := CommitLogTx.with_meta (MetaDataList.make_fdsp metaList)
                           (CommitLogTx.with_batch (CommitLogTx.wb commit_data) blobSize commit_data) in
      c ← update_meta volid (VolumeMeta.setSequenceId seq_id) c;
      Ret (c, commit_data, blob_version, e)
    else Ret (c, commit_data, blob_version, e).

Definition commitBlobTxWork (fuel : nat) (tms : times) (w : work) (c : t) : res (t * commit_result) :=
  let volid := w_volid w in
  match logs c !! w_log w with
  | None => Fault NullDeref
  | Some l =>
      r ← DmCommitLog.commitTx (tm_commit tms) (w_txId w) l;
      let '(l, commit_data, e) := r : DmCommitLog.t * option CommitLogTx.t * fds_errno in
      let c := with_log (w_log w) l c in
      match commit_data with
      | None => _ ← fds_verify (bool_decide (e ≠ ERR_OK)); Ret (c, Result e blob_version_invalid None None 0)
      | Some data =>
          if decide (e = ERR_OK) then
            r ← DmVolumeCatalog.getBlobMetaDesc volid (w_blobName w) BlobMetaDesc.make (volcat c);
            let '(desc, e) := r : BlobMetaDesc.t * fds_errno in
            r ← (if decide (e = ERR_OK ∧ BasicBlobMeta.blob_name (BlobMetaDesc.desc desc) ≠ w_blobName w)
                 then Ret (c, data, blob_version_invalid, ERR_HASH_COLLISION)
                 else doCommitBlob fuel tms volid blob_version_invalid (w_seq w) data c);
            let '(c, data, version, e) := r : t * CommitLogTx.t * Z * fds_errno in
            Ret (c, Result e version (Some (CommitLogTx.blobObjList data)) (Some (CommitLogTx.metaDataList data)) (CommitLogTx.blobSize data))
          else Ret (c, Result e blob_version_invalid (Some (CommitLogTx.blobObjList data)) (Some (CommitLogTx.metaDataList data)) (CommitLogTx.blobSize data))
      end
  end.

(** The second result is what the callback was told, if it was called. *)
Definition commitBlobTx (hash : bytes → Z) (fuel : nat) (tms : times) (volId : Z) (blobName : bytes) (txId seq_id : Z) (c : t)
    : res (t * option commit_result * fds_errno) :=
  available c (c, None)
    match commitLogs_ c !! volId with
    | None => Ret (c, None, ERR_VOL_NOT_FOUND)
    | Some addr =>
        let w := Work (hash blobName) volId blobName addr txId seq_id in
        if volumegrouping c then
          r ← commitBlobTxWork fuel tms w c; Ret ((r : t * commit_result).1, Some r.2, ERR_OK)
        else Ret (with_waiting (waiting c ++ [w]) c, None, ERR_OK)
    end.

(** The first waiting task of a key, and the tasks without it *)
Fixpoint take_task (key : Z) (l : list work) : option (work * list work) :=
  match l with
  | [] => None
  | w :: l => if decide (w_key w = key) then Some (w, l) else prod_map id (cons w) <$> take_task key l
  end.

(** The executor runs the next task of a key. *)
Definition run_task (fuel : nat) (tms : times) (key : Z) (c : t) : res (t * option commit_result) :=
  match take_task key (waiting c) with
  | None => Ret (c, None)
  | Some (w, rest) => r ← commitBlobTxWork fuel tms w (with_waiting rest c); Ret ((r : t * commit_result).1, Some r.2)
  end.

(** ** Updates that do not pass the commit log *)
Definition updateFwdCommittedBlob (fuel : nat) (tms : times) (volid : Z) (blobName : bytes) (blobVersion : Z)
    (objList : list (Z * Z * bytes)) (metaList : list (bytes * bytes)) (seq_id : Z) (c : t) : res (t * fds_errno) :=
  available c c
    (if decide (blobVersion = blob_version_deleted) then
       on_volcat (DmVolumeCatalog.deleteBlob fuel (tm_range tms) (tm_last tms) volid blobName (volcat c)) c
     else
       r ← (if decide (objList ≠ []) then
              olist ← BlobObjList.make_fdsp objList;
              let mlist := if decide (metaList ≠ []) then Some (MetaDataList.make_fdsp metaList) else None in
              on_volcat (DmVolumeCatalog.putBlob (tm_put tms) volid blobName mlist olist seq_id (volcat c)) c
            else
              _ ← fds_verify (bool_decide (metaList ≠ []));
              on_volcat (DmVolumeCatalog.putBlobMeta (tm_put tms) volid blobName (Some (MetaDataList.make_fdsp metaList)) seq_id (volcat c)) c);
       let '(c, err) := r : t * fds_errno in
       if decide (err = ERR_OK) then c ← update_meta volid (VolumeMeta.setSequenceId seq_id) c; Ret (c, err)
       else Ret (c, err)).

(** [partial] as in [DmVolumeCatalog.migrateDescriptor] *)
Definition migrateDescriptor (fuel : nat) (tms : times) (volId : Z) (blobName blobData : bytes) (partial : Z) (c : t) : res (t * fds_errno) :=
  match vol_meta_map c !! volId with
  | None => Fault NullDeref
  | Some m =>
      r ← DmVolumeCatalog.migrateDescriptor fuel (tm_range tms) (tm_last tms) volId blobName blobData partial (volcat c);
      let '(v, seq, err) := r : DmVolumeCatalog.t * option Z * fds_errno in
      let m := match seq with Some s => VolumeMeta.setSequenceId s m | None => m end in
      Ret (with_meta volId m (with_volcat v c), err)
  end.

(** ** [VolumeMeta] *)
(** [VolumeMeta::applyActiveTxState] *)
Definition applyActiveTxState (unset : nat → Z) (volId highestOpId : Z) (txs : list bytes) (c : t) : res (t * fds_errno) :=
  r ← on_log volId (λ l, DmCommitLog.applySerializedTxs unset txs (DmCommitLog.clear l)) c;
  let '(c, err) := r : t * fds_errno in
  if decide (err ≠ ERR_OK) then Ret (c, err) else
  c ← update_meta volId (VolumeMeta.setOpId highestOpId) c; Ret (c, err).

(** [VolumeMeta::initState]; [seqId] and [version] are what the local
    variables hold. *)
Definition initState (seqId version volId : Z) (c : t) : res (t * fds_errno) :=
  r ← DmVolumeCatalog.statVolumeLogical volId true (0, 0, 0, seqId) (volcat c);
  let '(v, out, err) := r : DmVolumeCatalog.t * (Z * Z * Z * Z) * fds_errno in
  let c := with_volcat v c in
  if decide (err ≠ ERR_OK) then Ret (c, err) else
  c ← update_meta volId (VolumeMeta.setSequenceId out.2) c;
  r ← DmVolumeCatalog.getVersion volId version (volcat c);
  let '(version, err) := r : Z * fds_errno in
  if decide (err ≠ ERR_OK) then Ret (c, err) else
  c ← update_meta volId (VolumeMeta.setVersion version) c; Ret (c, err).

End DmTimeVolCatalog.
End DmTimeVolCatalog.
