(* ===== verification/TimeVolumeSpec.v ===== *)
(** * Transactions on a volume

    What [DmTimeVolCatalog] promises, by composing the commit log
    ([CommitLogSpec]) with the volume catalog ([VolumeCatalogSpec]): the
    abstract state of a volume is the histories of its open transactions, the
    contents of its catalog and its sequence id.  Starting, updating and
    aborting a transaction touch its history only; a commit takes the history
    out and applies what it says to the catalog in one step. *)

From S2P Require Import Prelude.
From S2P Require Import Serialize.
From S2P Require Import ObjectId.
From S2P Require Import OrderedMap.
From S2P Require Import DmBlobTypes.
From S2P Require Import CatalogKeys.
From S2P Require Import PersistVolDB.
From S2P Require Import PersistVolSpec.
From S2P Require Import PersistVolList.
From S2P Require Import VolumeCatalog.
From S2P Require Import VolumeCatalogSpec.
From S2P Require Import VolumeStats.
From S2P Require Import VolumeCases.
From S2P Require Import CommitLog.
From S2P Require Import CommitLogSpec.
From S2P Require Import FdsTimer.
From S2P Require Import AccessTable.
From S2P Require Import TimeVolumeCatalog.
Open Scope Z_scope.

(** ** What a history asks of the catalog *)
Record requests (h : history) (req : BlobObjList.t) (meta : list (bytes * bytes)) : Prop := {
  hq_sorted : OMap.sorted Z.compare (BlobObjList.objs req);
  hq_objs o : OMap.lookup Z.compare o (BlobObjList.objs req) = head (objects_at o (h_updates h));
  hq_end : BlobObjList.end_of_blob req = bool_decide (BlobObjList.objs req ≠ [] ∧ Z.land (h_mode h) TRUNCATE ≠ 0);
  hq_msorted : OMap.sorted bytes_cmp meta;
  hq_meta k : OMap.lookup bytes_cmp k meta = last (values_at k (h_updates h));
}.

(** The lists of the transaction are those. *)
Lemma requests_unique id h x req meta : contents id h x → requests h req meta →
  CommitLogTx.metaDataList x = meta ∧ BlobObjList.objs (CommitLogTx.blobObjList x) = BlobObjList.objs req.
Proof.
  intros Hc Hr. split.
  - apply (OMap.sorted_ext bytes_cmp); [apply Hc|apply Hr|]. intros k. by rewrite (tc_meta _ _ _ Hc), (hq_meta _ _ _ Hr).
  - apply (OMap.sorted_ext Z.compare); [apply Hc|apply Hr|]. intros o. by rewrite (tc_objs _ _ _ Hc), (hq_objs _ _ _ Hr).
Qed.

Lemma make_payload m : OMap.sorted bytes_cmp m → MetaDataList.make_fdsp (MetaDataList.toFdspPayload m) = m.
Proof.
  intros Hm. assert (∀ l acc : list (bytes * bytes), foldl (λ l x, l ++ [(x.1, x.2)]) acc l = acc ++ l) as E.
  { induction l as [|[k v] l IH]; intros acc; [by rewrite app_nil_r|]. simpl. by rewrite IH, <-(assoc (++)). }
  unfold MetaDataList.toFdspPayload. rewrite E. simpl. unfold MetaDataList.make_fdsp. by apply (OMap.foldl_insert_sorted bytes_cmp [] m).
Qed.

Section Volume.
Context {D : Type} {L : LevelDB D} {LL : LevelDBLaws L} {P : TProtocol} {PL : TProtocolLaws P}.
Implicit Types (s : vcat) (v : DmPersistVolDB.t (D:=D)) (c : DmTimeVolCatalog.t (D:=D)) (name : list Z) (volId : Z) (a : alog).
Import DmTimeVolCatalog.
Notation objSize v := (DmPersistVolDB.objSize v).

(** The volume [volId] in the abstract state: open transactions, catalog and
    sequence id. *)
Record serves volId (size : Z) c a s (q : Z) : Prop := {
  sv_ready : currentState c = TVC_READY;
  sv_group : volumegrouping c = true;
  sv_log : ∃ addr l, commitLogs_ c !! volId = Some addr ∧ logs c !! addr = Some l ∧ log_refines l a;
  sv_vol : ∃ v, opened volId (volcat c) v s ∧ sizes_ok (objSize v) s ∧ DmPersistVolDB.op_allowed v = true ∧ objSize v = size;
  sv_meta : ∃ m, vol_meta_map c !! volId = Some m ∧ VolumeMeta.sequence_id m = q;
}.

(** ** Committing *)
Definition next_seq (seq q : Z) : Z := if decide (q = VolumeMeta.INVALID_SEQUENCEID ∨ seq > q) then seq else q.

Lemma setSequenceId_seq seq m : VolumeMeta.sequence_id (VolumeMeta.setSequenceId seq m) = next_seq seq (VolumeMeta.sequence_id m).
Proof. unfold VolumeMeta.setSequenceId, next_seq. by destruct (decide _). Qed.

(** The metadata and the size are read back after a write. *)
Lemma read_back volId cv v s name out : opened volId cv v s → bversion (old_blob s name) ≠ blob_version_invalid →
  DmVolumeCatalog.getBlobMeta volId name out cv = Ret (out, ERR_DISK_READ_FAILED) ∨
  DmVolumeCatalog.getBlobMeta volId name out cv = Ret (bversion (old_blob s name), bsize (old_blob s name),
    MetaDataList.toFdspPayload (BlobMetaDesc.meta_list (old_blob s name)), ERR_OK).
Proof.
  intros Ho Hv. unfold DmVolumeCatalog.getBlobMeta.
  destruct (getBlobMetaDesc_opened volId cv v s name Ho) as [-> | ->]; rewrite bind_Ret; [right|left; by rewrite decide_False].
  unfold fresh. rewrite bool_decide_eq_false_2 by done. by rewrite decide_True.
Qed.

(** What committing a history does to the catalog and the sequence id, and what
    the callback is told. *)
Inductive commits (size : Z) (fuel : nat) (h : history) (seq : Z) : vcat → Z → vcat → Z → commit_result → Prop :=
| commits_put req meta s q s' : deletes (h_updates h) = [] → requests h req meta → request_ok size req →
    blob_ok (put_desc size s (h_name h) req (Some meta) seq) → bversion (old_blob s (h_name h)) < uint64_max →
    committed size (h_name h) (Some meta) req seq s s' →
    commits size fuel h seq s q s' (next_seq seq q)
      (Result ERR_OK blob_version_invalid (Some req) (Some (BlobMetaDesc.meta_list (old_blob s' (h_name h)))) (bsize (old_blob s' (h_name h))))
| commits_meta req meta s q : deletes (h_updates h) = [] → requests h req meta → BlobObjList.objs req = [] →
    blob_ok (meta_desc s (h_name h) (Some meta) seq) → bversion (old_blob s (h_name h)) < uint64_max →
    commits size fuel h seq s q (apply_changes s [CBlob (h_name h) (meta_desc s (h_name h) (Some meta) seq)]) (next_seq seq q)
      (Result ERR_OK blob_version_invalid (Some req) (Some (BlobMetaDesc.meta_list (meta_desc s (h_name h) (Some meta) seq))) (bsize (old_blob s (h_name h))))
| commits_delete req meta s q s' : deletes (h_updates h) ≠ [] → requests h req meta → fresh s (h_name h) = false →
    (Z.to_nat (range_rounds size 0 (old_last size s (h_name h))) < fuel)%nat → removed size (h_name h) s s' →
    commits size fuel h seq s q s' q (Result ERR_OK blob_version_deleted (Some (BlobObjList.Make (BlobObjList.objs req) false)) (Some meta) 0)
| commits_gone req meta s q : deletes (h_updates h) ≠ [] → requests h req meta → fresh s (h_name h) = true →
    commits size fuel h seq s q s q
      (Result ERR_CAT_ENTRY_NOT_FOUND blob_version_deleted (Some (BlobObjList.Make (BlobObjList.objs req) false)) (Some meta) 0).

(** The parts of the state a commit leaves to the log. *)
Definition same_logs c c' : Prop :=
  currentState c' = currentState c ∧ logs c' = logs c ∧ commitLogs_ c' = commitLogs_ c ∧ volumegrouping c' = volumegrouping c.

(** The catalog and the sequence id of a volume *)
Definition stores volId (size : Z) c s (q : Z) : Prop :=
  (∃ v, opened volId (volcat c) v s ∧ sizes_ok (objSize v) s ∧ DmPersistVolDB.op_allowed v = true ∧ objSize v = size) ∧
  ∃ m, vol_meta_map c !! volId = Some m ∧ VolumeMeta.sequence_id m = q.

Definition result_of (x : CommitLogTx.t) (version : Z) (e : fds_errno) : commit_result :=
  Result e version (Some (CommitLogTx.blobObjList x)) (Some (CommitLogTx.metaDataList x)) (CommitLogTx.blobSize x).

Lemma deleteBlob_fresh fuel ts ts' volId name cv v s : opened volId cv v s → fresh s name = true →
  DmVolumeCatalog.deleteBlob fuel ts ts' volId name cv = Ret (cv, ERR_CAT_ENTRY_NOT_FOUND) ∨
  DmVolumeCatalog.deleteBlob fuel ts ts' volId name cv = Ret (cv, ERR_DISK_READ_FAILED).
Proof.
  intros Ho Hf. unfold DmVolumeCatalog.deleteBlob.
  destruct (getBlobMetaDesc_opened volId cv v s name Ho) as [-> | ->]; rewrite bind_Ret, ?Hf; [by left|by right].
Qed.

(** After the catalog was written: the size and the metadata are read back and
    the sequence id moves. *)
Lemma finish_put volId size c s q x seq name cv : stores volId size (with_volcat cv c) s q →
  bversion (old_blob s name) ≠ blob_version_invalid → OMap.sorted bytes_cmp (BlobMetaDesc.meta_list (old_blob s name)) →
  CommitLogTx.name x = name →
  ∃ c' x' e,
    (r ← DmVolumeCatalog.getBlobMeta volId (CommitLogTx.name x) (0, CommitLogTx.blobSize x, []) (volcat (with_volcat cv c));
     let '(_, blobSize, metaList, e) := r : Z * Z * list (bytes * bytes) * fds_errno in
     c ← update_meta volId (VolumeMeta.setSequenceId seq) (with_volcat cv c);
     Ret (c, CommitLogTx.with_meta (MetaDataList.make_fdsp metaList) (CommitLogTx.with_batch (CommitLogTx.wb x) blobSize x), blob_version_invalid, e))
    = Ret (c', x', blob_version_invalid, e) ∧ same_logs c c' ∧
    (store_error e ∨ e = ERR_OK ∧ stores volId size c' s (next_seq seq q) ∧
      result_of x' blob_version_invalid e = Result ERR_OK blob_version_invalid (Some (CommitLogTx.blobObjList x))
        (Some (BlobMetaDesc.meta_list (old_blob s name))) (bsize (old_blob s name))).
Proof.
  intros [(v & Ho & Hz & Ha & Hsz) (m & Hm & Hq)] Hver Hs <-. unfold update_meta. rewrite Hm.
  destruct (read_back volId _ v s (CommitLogTx.name x) (0, CommitLogTx.blobSize x, []) Ho Hver) as [-> | ->]; rewrite !bind_Ret;
    eexists _, _, _; (split; [done|]); (split; [done|]); [left; by left|right].
  split; [done|]. split.
  - split; [by exists v|]. simpl. rewrite lookup_insert_eq. eexists. split; [done|]. by rewrite setSequenceId_seq, Hq.
  - unfold result_of. simpl. by rewrite make_payload.
Qed.

Lemma next_version v s name : holds v s → bversion (old_blob s name) < uint64_max →
  u64 (bversion (old_blob s name) + 1) ≠ blob_version_invalid.
Proof. intros Hh Hv. pose proof (holds_version v s name Hh) as [? _]. rewrite u64_small by lia. unfold blob_version_invalid. lia. Qed.

Lemma with_vol_stores volId c v v' s' size q : objSize v' = size → DmPersistVolDB.op_allowed v' = true →
  opened volId (DmVolumeCatalog.with_vol volId v' (volcat c)) v' s' → sizes_ok (objSize v') s' →
  (∃ m, vol_meta_map c !! volId = Some m ∧ VolumeMeta.sequence_id m = q) →
  stores volId size (with_volcat (DmVolumeCatalog.with_vol volId v' (volcat c)) c) s' q.
Proof. intros Hsz Ha Ho Hz Hm. split; [by exists v'|done]. Qed.

Lemma truncate_request id h x req meta : contents id h x → requests h req meta → BlobObjList.objs req ≠ [] →
  (if decide (Z.land (CommitLogTx.blobMode x) TRUNCATE ≠ 0) then BlobObjList.setEndOfBlob (CommitLogTx.blobObjList x)
   else CommitLogTx.blobObjList x) = req.
Proof.
  intros Hc Hr Hne. destruct (requests_unique id h x req meta Hc Hr) as [_ E]. pose proof (tc_open _ _ _ Hc) as He.
  pose proof (hq_end _ _ _ Hr) as Hend. rewrite (tc_mode _ _ _ Hc). destruct req as [l e], (CommitLogTx.blobObjList x) as [l' e']; simpl in *. subst.
  destruct (decide _) as [Hd|Hd]; unfold BlobObjList.setEndOfBlob; simpl.
  - by rewrite bool_decide_eq_true_2.
  - rewrite bool_decide_eq_false_2; [done|]. naive_solver.
Qed.

Notation commit_spec c x fuel tms volId seq size s' q' r :=
  (∃ c' x' ver e, doCommitBlob fuel tms volId blob_version_invalid seq x c = Ret (c', x', ver, e) ∧ same_logs c c' ∧
    (store_error e ∨ result_of x' ver e = r ∧ stores volId size c' s' q')).

(** The catalog refused the write. *)
Ltac refused := unfold on_volcat; rewrite !bind_Ret; eexists _, _, _, _; (split; [done|]); (split; [done|]); left.

Lemma doCommit_put fuel tms volId size seq id h x c req meta s q s' : stores volId size c s q → contents id h x →
  deletes (h_updates h) = [] → requests h req meta → request_ok size req → blob_ok (put_desc size s (h_name h) req (Some meta) seq) →
  bversion (old_blob s (h_name h)) < uint64_max → committed size (h_name h) (Some meta) req seq s s' →
  commit_spec c x fuel tms volId seq size s' (next_seq seq q)
    (Result ERR_OK blob_version_invalid (Some req) (Some (BlobMetaDesc.meta_list (old_blob s' (h_name h)))) (bsize (old_blob s' (h_name h)))).
Proof.
  intros [(v & Ho & Hz & Ha & <-) Hm] Hc Hd Hrq Hok Hb Hver Hcm. pose proof (op_holds _ _ _ _ Ho) as Hh.
  destruct (requests_unique id h x req meta Hc Hrq) as [Em Eo].
  unfold doCommitBlob. rewrite (tc_delete _ _ _ Hc), (tc_name _ _ _ Hc). cbv zeta.
  rewrite bool_decide_eq_false_2 by (intros Hx; by apply Hx). cbn [CommitLogTx.metaDataList CommitLogTx.with_objs].
  rewrite Em, Eo, bool_decide_eq_true_2 by apply Hok. rewrite (truncate_request id h x req meta Hc Hrq (rq_some _ _ Hok)).
  destruct (putBlob_done (tm_put tms) volId (h_name h) (Some meta) req seq (volcat c) v s Ho Hz Ha Hok Hb)
    as [->|[[w ->]|(d & m & d' & m' & s1 & _ & _ & _ & _ & _ & Hc1 & Hz1 & Ho1 & E)]]; [refused; by left|refused; by right; left|].
  pose proof (vafter_unique (objSize v) s (VPut (tm_put tms) (h_name h) (Some meta) req seq) s1 s' Hc1 Hcm) as ->.
  rewrite E. unfold on_volcat. rewrite !bind_Ret. rewrite decide_True by done. set (v' := DmPersistVolDB.with_summary _ _) in *.
  assert (old_blob s' (h_name h) = put_desc (objSize v) s (h_name h) req (Some meta) seq) as Eb.
  { unfold old_blob at 1. by rewrite (cm_blobs _ _ _ _ _ _ _ Hcm), lookup_insert_eq. }
  destruct (finish_put volId (objSize v) c s' q (CommitLogTx.with_objs req x) seq (h_name h) (DmVolumeCatalog.with_vol volId v' (volcat c)))
    as (c' & x' & e & E' & Hsl & Hres).
  - apply with_vol_stores; [done..|by apply Hm].
  - rewrite Eb. by apply (next_version v).
  - rewrite Eb. apply Hb.
  - apply Hc.
  - exists c', x', blob_version_invalid, e. split; [rewrite <-E'; by rewrite <-(tc_name _ _ _ Hc)|]. split; [done|].
    destruct Hres as [?|(-> & Hst & Hres)]; [by left|right]. by rewrite Hres.
Qed.

Lemma doCommit_meta fuel tms volId size seq id h x c req meta s q : stores volId size c s q → contents id h x →
  deletes (h_updates h) = [] → requests h req meta → BlobObjList.objs req = [] → blob_ok (meta_desc s (h_name h) (Some meta) seq) →
  bversion (old_blob s (h_name h)) < uint64_max →
  commit_spec c x fuel tms volId seq size (apply_changes s [CBlob (h_name h) (meta_desc s (h_name h) (Some meta) seq)]) (next_seq seq q)
    (Result ERR_OK blob_version_invalid (Some req) (Some (BlobMetaDesc.meta_list (meta_desc s (h_name h) (Some meta) seq))) (bsize (old_blob s (h_name h)))).
Proof.
  intros [(v & Ho & Hz & Ha & <-) Hm] Hc Hd Hrq Hem Hb Hver. pose proof (op_holds _ _ _ _ Ho) as Hh.
  assert (0 < objSize v) as Hpos by apply (op_size _ _ _ _ Ho). destruct (requests_unique id h x req meta Hc Hrq) as [Em Eo].
  unfold doCommitBlob. rewrite (tc_delete _ _ _ Hc), (tc_name _ _ _ Hc). cbv zeta.
  rewrite bool_decide_eq_false_2 by (intros Hx; by apply Hx). rewrite Em, Eo, bool_decide_eq_false_2 by (intros Hx; by apply Hx).
  destruct (putBlobMeta_done (tm_put tms) volId (h_name h) (Some meta) seq (volcat c) v s Ho Ha Hb) as (cv & rc & E & Hres).
  rewrite E. unfold on_volcat. rewrite !bind_Ret. destruct Hres as [Herr|(-> & d' & -> & Ho')].
  { rewrite decide_False; [|destruct Herr as [->|[->|(st & Hst & ->)]]; [done..|by destruct st]].
    eexists _, _, _, _. split; [done|]. split; [done|]. by left. }
  rewrite decide_True by done. set (s' := apply_changes _ _) in *. set (v' := DmPersistVolDB.with_catalog d' v) in *.
  assert (old_blob s' (h_name h) = meta_desc s (h_name h) (Some meta) seq) as Eb by (unfold old_blob at 1; simpl; by rewrite lookup_insert_eq).
  destruct (finish_put volId (objSize v) c s' q x seq (h_name h) (DmVolumeCatalog.with_vol volId v' (volcat c))) as (c' & x' & e & E' & Hsl & Hfin).
  - apply with_vol_stores; [done..|by apply meta_sizes|by apply Hm].
  - rewrite Eb. by apply (next_version v).
  - rewrite Eb. apply Hb.
  - apply Hc.
  - exists c', x', blob_version_invalid, e. split; [rewrite <-E'; by rewrite <-(tc_name _ _ _ Hc)|]. split; [done|].
    destruct Hfin as [?|(-> & Hst & Hfin)]; [by left|right]. split; [|done]. rewrite Hfin, Eb. f_equal. f_equal.
    pose proof (tc_open _ _ _ Hc) as He. pose proof (hq_end _ _ _ Hrq) as Hend. rewrite bool_decide_eq_false_2 in Hend by naive_solver.
    destruct req, (CommitLogTx.blobObjList x). simpl in *. by subst.
Qed.

Lemma doCommit_delete fuel tms volId size seq id h x c req meta s q s' : (∀ ops d, (ldb_write ops d).2 = StOk) →
  stores volId size c s q → contents id h x → deletes (h_updates h) ≠ [] → requests h req meta →
  (fresh s (h_name h) = false → (Z.to_nat (range_rounds size 0 (old_last size s (h_name h))) < fuel)%nat ∧ removed size (h_name h) s s') →
  (fresh s (h_name h) = true → s' = s) →
  commit_spec c x fuel tms volId seq size s' q
    (Result (if fresh s (h_name h) then ERR_CAT_ENTRY_NOT_FOUND else ERR_OK) blob_version_deleted
      (Some (BlobObjList.Make (BlobObjList.objs req) false)) (Some meta) 0).
Proof.
  intros Hw [(v & Ho & Hz & Ha & <-) Hm] Hc Hd Hrq Hold Hnew. destruct (requests_unique id h x req meta Hc Hrq) as [Em Eo].
  unfold doCommitBlob. rewrite (tc_delete _ _ _ Hc), (tc_name _ _ _ Hc). cbv zeta. rewrite bool_decide_eq_true_2 by done.
  assert (∀ e, result_of x blob_version_deleted e = Result e blob_version_deleted (Some (BlobObjList.Make (BlobObjList.objs req) false)) (Some meta) 0) as Hres.
  { intros e. unfold result_of. rewrite Em, (tc_size _ _ _ Hc), <-Eo. pose proof (tc_open _ _ _ Hc) as He.
    destruct (CommitLogTx.blobObjList x). simpl in *. by subst. }
  destruct (fresh s (h_name h)) eqn:Hf.
  - rewrite (Hnew eq_refl). destruct (deleteBlob_fresh fuel (tm_range tms) (tm_last tms) volId (h_name h) (volcat c) v s Ho Hf) as [E|E];
      rewrite E; [|refused; by left]. unfold on_volcat. rewrite !bind_Ret. eexists _, _, _, _. split; [done|]. split; [done|]. right.
    split; [apply Hres|]. split; [by exists v|done].
  - destruct (Hold eq_refl) as [Hfuel Hrm].
    destruct (deleteBlob_done fuel (tm_range tms) (tm_last tms) volId (h_name h) (volcat c) v s Hw Ho Hz Hf Hfuel)
      as [->|[(st & Hst & ->)|[[w ->]|(d & m & d' & m' & s1 & _ & _ & _ & _ & _ & Hc1 & Hz1 & Ho1 & E)]]];
      [refused; by left|refused; by right; right; exists st|refused; by right; left|].
    pose proof (vafter_unique (objSize v) s (VDelete fuel (tm_range tms) (tm_last tms) (h_name h)) s1 s' Hc1 Hrm) as ->.
    rewrite E. unfold on_volcat. rewrite !bind_Ret. eexists _, _, _, _. split; [done|]. split; [done|]. right.
    split; [apply Hres|]. apply with_vol_stores; [done..|apply Hm].
Qed.

Lemma doCommit_spec fuel tms volId size seq id h x c s q s' q' r : (∀ ops d, (ldb_write ops d).2 = StOk) →
  stores volId size c s q → contents id h x → commits size fuel h seq s q s' q' r →
  commit_spec c x fuel tms volId seq size s' q' r.
Proof.
  intros Hw Hst Hc Hr. destruct Hr as [req meta s q s' Hd Hrq Hok Hb Hver Hcm|req meta s q Hd Hrq Hem Hb Hver|req meta s q s' Hd Hrq Hf Hfuel Hrm|req meta s q Hd Hrq Hf].
  - by eapply doCommit_put.
  - by eapply doCommit_meta.
  - pose proof (doCommit_delete fuel tms volId size seq id h x c req meta s q s' Hw Hst Hc Hd Hrq) as H. rewrite Hf in H. by apply H.
  - pose proof (doCommit_delete fuel tms volId size seq id h x c req meta s q s Hw Hst Hc Hd Hrq) as H. rewrite Hf in H. by apply H.
Qed.

(** ** Operations on a volume *)
Inductive xop :=
| XStart (unset ts : Z) (name : bytes) (mode tx dmt : Z)
| XObjs (tx : Z) (objList : list (Z * Z * bytes))
| XMeta (tx : Z) (metaList : list (bytes * bytes))
| XDelete (tx version : Z) (expunge : bool)
| XAbort (tx : Z)
| XCommit (tms : times) (name : bytes) (tx seq : Z).

Section Run.
Context (hash : bytes → Z) (fuel : nat) (volId : Z).

Definition xexec (o : xop) c : res (t (D:=D) * option commit_result * fds_errno) :=
  let code (r : res (t (D:=D) * fds_errno)) := x ← r; Ret ((x : t * fds_errno).1, None, x.2) in
  match o with
  | XStart unset ts name mode tx dmt => code (startBlobTx unset ts volId name mode tx dmt c)
  | XObjs tx l => code (updateBlobTx_objs volId tx l c)
  | XMeta tx l => code (updateBlobTx_meta volId tx l c)
  | XDelete tx version expunge => code (deleteBlob volId tx version expunge c)
  | XAbort tx => code (abortBlobTx volId tx c)
  | XCommit tms name tx seq => commitBlobTx hash fuel tms volId name tx seq c
  end.

Definition store_failed (e : fds_errno) : bool :=
  match e with
  | ERR_DISK_READ_FAILED | ERR_DISK_WRITE_FAILED | ERR_ONDISK_DATA_CORRUPT | ERR_VOL_NOT_FOUND | ERR_INVALID => true
  | _ => false
  end.

(** Until a commit fails in the store *)
Fixpoint xrun (os : list xop) c : res (t (D:=D) * list (fds_errno * option commit_result)) :=
  match os with
  | [] => Ret (c, [])
  | o :: os =>
      r ← xexec o c;
      let '(c, out, e) := r : t (D:=D) * option commit_result * fds_errno in
      if match out with Some r => store_failed (cr_error r) | None => false end then Ret (c, [(e, out)])
      else r ← xrun os c; Ret (r.1, (e, out) :: r.2)
  end.

(** ** What they mean *)
Definition lop_of (o : xop) : option lop :=
  match o with
  | XStart unset ts name mode tx dmt => Some (LStart unset ts tx name mode dmt)
  | XObjs tx l => match BlobObjList.make_fdsp l with Ret d => Some (LUpdate tx (UObjs d)) | Fault _ => None end
  | XMeta tx l => Some (LUpdate tx (UMeta (MetaDataList.make_fdsp l)))
  | XDelete tx version expunge => Some (LUpdate tx (UDelete version expunge))
  | XAbort tx => Some (LAbort tx)
  | XCommit _ _ _ _ => None
  end.

Inductive xspec (size : Z) : alog → vcat → Z → xop → alog → vcat → Z → fds_errno * option commit_result → Prop :=
| xs_log a s q o lo e : lop_of o = Some lo → (astep lo a).2 = Code e → xspec size a s q o (astep lo a).1 s q (e, None)
| xs_none a s q tms name tx seq : a !! tx = None →
    xspec size a s q (XCommit tms name tx seq) a s q (ERR_OK, Some (Result ERR_DM_TX_NOT_STARTED blob_version_invalid None None 0))
| xs_commit a s q tms name tx seq h s' q' r : a !! tx = Some h → commits size fuel h seq s q s' q' r →
    xspec size a s q (XCommit tms name tx seq) (delete tx a) s' q' (ERR_OK, Some r).

Inductive xpath (size : Z) : alog → vcat → Z → list xop → alog → vcat → Z → list (fds_errno * option commit_result) → Prop :=
| xp_nil a s q : xpath size a s q [] a s q []
| xp_cons a s q o a1 s1 q1 out os a2 s2 q2 outs : xspec size a s q o a1 s1 q1 out → xpath size a1 s1 q1 os a2 s2 q2 outs →
    xpath size a s q (o :: os) a2 s2 q2 (out :: outs).

Lemma make_fdsp_sorted l d : BlobObjList.make_fdsp l = Ret d → OMap.sorted Z.compare (BlobObjList.objs d).
Proof.
  unfold BlobObjList.make_fdsp. assert (OMap.sorted Z.compare (BlobObjList.objs BlobObjList.make)) as Hs by constructor.
  revert Hs. generalize BlobObjList.make as b. induction l as [|[[o z] g] l IH]; intros b Hs E; simpl in E; [by injection E as <-|].
  res_inv. eapply IH; [|done]. by apply (OMap.put_sorted Z.compare).
Qed.

Lemma lop_sorted o lo : lop_of o = Some lo → op_sorted lo.
Proof.
  destruct o; simpl; intros E; try (by injection E as <-); [|injection E as <-; apply (OMap.foldl_insert_keeps bytes_cmp); constructor|done].
  destruct (BlobObjList.make_fdsp objList) as [d|] eqn:Ed; [|done]. injection E as <-. by eapply make_fdsp_sorted.
Qed.

(** The operations of the log that are not commits *)
Definition log_call (o : xop) (l : DmCommitLog.t) : res (DmCommitLog.t * fds_errno) :=
  match o with
  | XStart unset ts name mode tx dmt => DmCommitLog.startTx unset ts tx name mode dmt l
  | XObjs tx objs => d ← BlobObjList.make_fdsp objs; DmCommitLog.updateTx_objs tx d l
  | XMeta tx m => DmCommitLog.updateTx_meta tx (MetaDataList.make_fdsp m) l
  | XDelete tx version expunge => DmCommitLog.deleteBlob tx version expunge l
  | XAbort tx => DmCommitLog.rollbackTx tx l
  | XCommit _ _ _ _ => Ret (l, ERR_OK)
  end.

Lemma log_call_lexec o lo l l' r e : lop_of o = Some lo → lexec lo l = Ret (l', r) → answers lo r (Code e) →
  log_call o l = Ret (l', e).
Proof.
  intros Ho E Hr. destruct o; simpl in Ho |- *; try done.
  2: destruct (BlobObjList.make_fdsp objList) as [d|] eqn:Ed; [|done]; simpl.
  all: injection Ho as <-; simpl in E;
    match type of E with (_ <$> ?m) = _ => destruct m as [[l1 e1]|] eqn:Em; [|done] end;
    simpl in E; injection E as <- <-; simpl in Hr; subst; done.
Qed.

Lemma log_xexec o c addr l lo : currentState c = TVC_READY → commitLogs_ c !! volId = Some addr → logs c !! addr = Some l →
  lop_of o = Some lo → ∀ l' e, log_call o l = Ret (l', e) → xexec o c = Ret (with_log addr l' c, None, e).
Proof.
  intros Hr Ha Hl Ho l' e E. destruct o; simpl in Ho |- *; try done;
    unfold startBlobTx, updateBlobTx_objs, updateBlobTx_meta, deleteBlob, abortBlobTx, available, on_log; rewrite ?Hr; simpl;
    rewrite Ha, Hl; simpl in E; by rewrite E.
Qed.

Lemma store_failed_spec e : store_error e → store_failed e = true.
Proof. intros [->|[->|(st & Hst & ->)]]; [done..|by destruct st]. Qed.

Lemma store_failed_inv e : store_failed e = true → store_error e.
Proof.
  destruct e; try done; intros _; [right; right; by exists StNotFound|by right; left|by left|right; right; by exists StOther|right; right; by exists StCorruption].
Qed.

Lemma commits_result size h seq s q s' q' r : commits size fuel h seq s q s' q' r → store_failed (cr_error r) = false.
Proof. by destruct 1. Qed.

Lemma serves_log size c a s q addr l' a' : serves volId size c a s q → commitLogs_ c !! volId = Some addr → log_refines l' a' →
  serves volId size (with_log addr l' c) a' s q.
Proof.
  intros [H1 H2 _ H4 H5] Ha Hl. split; [done|done| |done|done]. exists addr, l'. split; [done|]. simpl. by rewrite lookup_insert_eq.
Qed.

Lemma serves_stores size c a s q : serves volId size c a s q → stores volId size c s q.
Proof. intros [_ _ _ H4 H5]. by split. Qed.

(** The names of descriptors are those they are stored under. *)
Lemma no_collision v s name : holds v s →
  ¬ ((if fresh s name then ERR_CAT_ENTRY_NOT_FOUND else ERR_OK) = ERR_OK ∧ bname (old_blob s name) ≠ name).
Proof.
  intros Hh. unfold fresh, old_blob. destruct (c_blobs s !! name) as [b|] eqn:E; [|by intros [? _]].
  intros [_ Hne]. apply Hne, (holds_blob v s name b Hh E).
Qed.

(** A commit of a transaction that is open *)
Lemma commit_work tms name tx seq size c a s q h s' q' r : (∀ ops d, (ldb_write ops d).2 = StOk) → serves volId size c a s q →
  Z.of_nat (base.size a) ≤ uint64_max → a !! tx = Some h → commits size fuel h seq s q s' q' r →
  ∃ addr c' r', commitLogs_ c !! volId = Some addr ∧
    commitBlobTxWork fuel tms (Work (hash name) volId name addr tx seq) c = Ret (c', r') ∧
    (store_error (cr_error r') ∨ r' = r ∧ serves volId size c' (delete tx a) s' q').
Proof.
  intros Hw Hs Hn Ha Hc. destruct (sv_log _ _ _ _ _ _ Hs) as (addr & l & Had & Hl & Hlr). exists addr.
  destruct (commit_refines (tm_commit tms) tx l a h Hlr Ha Hn) as (l' & x & E & Hlr' & Hx & _).
  unfold commitBlobTxWork. cbn [w_volid w_log w_txId w_blobName w_seq]. rewrite Hl, E, bind_Ret. cbv zeta beta iota. rewrite decide_True by done.
  pose proof (serves_log size c a s q addr l' (delete tx a) Hs Had Hlr') as Hs'. set (c1 := with_log addr l' c) in *.
  destruct (serves_stores _ _ _ _ _ Hs') as [(v & Ho & Hz & Hal & Hsz) Hm].
  destruct (doCommit_spec fuel tms volId size seq tx h x c1 s q s' q' r Hw) as (c' & x' & ver & e & Ed & Hsl & Hres);
    [by eapply serves_stores|done|done|].
  exists c', (result_of x' ver e). split; [done|]. split.
  - destruct (getBlobMetaDesc_opened volId (volcat c1) v s name Ho) as [-> | ->]; rewrite bind_Ret.
    + rewrite decide_False by (by apply (no_collision v); apply Ho). by rewrite Ed, bind_Ret.
    + rewrite decide_False by naive_solver. by rewrite Ed, bind_Ret.
  - destruct Hres as [?|[<- Hst]]; [by left|right]. split; [done|]. destruct Hsl as (S1 & S2 & S3 & S4), Hs' as [G1 G2 G3 _ _], Hst as [G4 G5].
    split; [by rewrite S1|by rewrite S4|by rewrite S2, S3|done|done].
Qed.

Lemma xexec_spec size o c a s q a' s' q' out : (∀ ops d, (ldb_write ops d).2 = StOk) → serves volId size c a s q →
  Z.of_nat (base.size a) < uint64_max → xspec size a s q o a' s' q' out →
  ∃ c' e r, xexec o c = Ret (c', r, e) ∧
    ((∃ r', r = Some r' ∧ store_error (cr_error r')) ∨ (e, r) = out ∧ serves volId size c' a' s' q').
Proof.
  intros Hw Hs Hn Hx. destruct (sv_log _ _ _ _ _ _ Hs) as (addr & l & Had & Hl & Hlr). destruct Hx as [a s q o lo e Ho Hc|a s q tms name tx seq Ha|a s q tms name tx seq h s' q' r Ha Hc].
  - destruct (lexec_refines lo l a Hlr (lop_sorted o lo Ho) Hn) as (l' & r & E & Hlr' & Hr). rewrite Hc in Hr.
    pose proof (log_call_lexec o lo l l' r e Ho E Hr) as E'.
    rewrite (log_xexec o c addr l lo (sv_ready _ _ _ _ _ _ Hs) Had Hl Ho l' e E'). eexists _, _, _. split; [done|]. right.
    split; [done|]. by eapply serves_log.
  - simpl. unfold commitBlobTx, available. rewrite (sv_ready _ _ _ _ _ _ Hs), Had, (sv_group _ _ _ _ _ _ Hs). simpl.
    unfold commitBlobTxWork. simpl. rewrite Hl, (commit_none (tm_commit tms) tx l a Hlr Ha). simpl. eexists _, _, _. split; [done|].
    right. split; [done|]. by eapply serves_log.
  - destruct (commit_work tms name tx seq size c a s q h s' q' r Hw Hs) as (addr' & c' & r' & Had' & E & Hres); [lia|done|done|].
    simpl. unfold commitBlobTx, available. rewrite (sv_ready _ _ _ _ _ _ Hs), Had', (sv_group _ _ _ _ _ _ Hs). simpl. rewrite E. simpl.
    eexists _, _, _. split; [done|]. destruct Hres as [?|[-> ?]]; [left; by exists r'|by right].
Qed.

Lemma xspec_size size a s q o a' s' q' out : xspec size a s q o a' s' q' out → (base.size a' ≤ S (base.size a))%nat.
Proof.
  destruct 1 as [|? ? ? ? ? ? ? ?|a s q tms name tx seq h s1 q1 r Ha Hc]; [apply astep_size|lia|]. rewrite map_size_delete_Some by done. lia.
Qed.

Lemma xspec_result size a s q o a' s' q' e r : xspec size a s q o a' s' q' (e, Some r) → store_failed (cr_error r) = false.
Proof. inversion 1; subst; [done|by eapply commits_result]. Qed.

End Run.

(** C3. Transactions are atomic.  On a volume that is open and may be written,
    with volume grouping on and a store that takes writes, any sequence of
    starts, updates, deletions, aborts and commits, in whatever order they
    interleave, returns and does what its histories say: nothing reaches the
    catalog before the commit, an aborted transaction leaves no trace, and a
    commit changes the catalog by exactly the objects and metadata, or the
    deletion, of its history, reports the size and metadata of the blob after
    it and moves the sequence id of the volume, except for a deletion, which
    does not move it.  The run ends early only with an error of the store in a
    commit.  The objects of a history are the FIRST one given for each offset
    and the last value given for each key: that is what [BlobObjList::merge]
    does, against its own comment, which promises the newest object; for
    transactions that write each offset once the two agree.  Conditions on the
    requests ([xpath]): object ids have the length of an id; the offsets
    committed are multiples of the object size whose index fits in 32 bits and
    the objects are no larger than the object size; the new descriptor can be
    stored, and the version of the blob does not overflow; the fuel covers the
    objects of a blob that is deleted. *)
Theorem transactions_atomic (hash : bytes → Z) (fuel : nat) volId (size : Z) os c a s q a' s' q' outs :
  (∀ ops d, (ldb_write ops d).2 = StOk) → serves volId size c a s q → xpath fuel size a s q os a' s' q' outs →
  Z.of_nat (base.size a) + Z.of_nat (length os) ≤ uint64_max →
  ∃ c' outs', xrun hash fuel volId os c = Ret (c', outs') ∧
    ((∃ e r, last outs' = Some (e, Some r) ∧ store_error (cr_error r)) ∨ outs' = outs ∧ serves volId size c' a' s' q').
Proof.
  intros Hw Hs Hp. revert c Hs. induction Hp as [a s q|a s q o a1 s1 q1 out os a2 s2 q2 outs Hx Hp IH]; intros c Hs Hn.
  { exists c, []. split; [done|]. by right. }
  simpl in Hn. destruct (xexec_spec hash fuel volId size o c a s q a1 s1 q1 out Hw Hs ltac:(lia) Hx) as (c1 & e & r & E & Hr). simpl. rewrite E. simpl.
  destruct Hr as [(r' & -> & Herr)|[<- Hs1]].
  { rewrite (store_failed_spec _ Herr). eexists _, _. split; [done|]. left. by exists e, r'. }
  assert (match r with Some r => store_failed (cr_error r) | None => false end = false) as ->.
  { destruct r as [r|]; [by eapply xspec_result|done]. }
  pose proof (xspec_size _ _ _ _ _ _ _ _ _ _ Hx). destruct (IH c1 Hs1) as (c2 & outs2 & E2 & H2); [lia|]. rewrite E2. simpl.
  eexists _, _. split; [done|]. destruct H2 as [(e' & r' & Hl & Herr)|[-> Hs2]]; [left|by right].
  exists e', r'. split; [|done]. by destruct outs2.
Qed.

End Volume.
