(* ===== verification/TimeVolumeCases.v ===== *)
(** * Time volume catalog: refusals, a lost commit log, examples

    When [DmTimeVolCatalog] refuses updates, a case in which it loses the open
    transactions of a volume, and the concrete volume of the example for the
    theorem of [TimeVolumeSpec]. *)

From S2P Require Import Prelude.
From S2P Require Import Serialize.
From S2P Require Import ObjectId.
From S2P Require Import OrderedMap.
From S2P Require Import DmBlobTypes.
From S2P Require Import CatalogKeys.
From S2P Require Import PersistVolDB.
From S2P Require Import PersistVolSpec.
From S2P Require Import PersistVolList.
From S2P Require Import VolumeCatalog.
From S2P Require Import VolumeCatalogSpec.
From S2P Require Import VolumeStats.
From S2P Require Import VolumeCases.
From S2P Require Import CommitLog.
From S2P Require Import CommitLogSpec.
From S2P Require Import TimeVolumeCatalog.
From S2P Require Import TimeVolumeSpec.
Open Scope Z_scope.

Section Cases.
Context {D : Type} {L : LevelDB D} {P : TProtocol}.
Implicit Types (c : DmTimeVolCatalog.t (D:=D)) (volId : Z).
Import DmTimeVolCatalog.

(** Before it is ready and after the disk has failed, the data manager
    refuses every transaction and every forwarded update, with the error that
    says why, and changes nothing; only aborts still go through. *)
Theorem not_ready_refuses (hash : bytes → Z) (fuel : nat) (tms : times) volId (unset ts mode tx dmt version seq : Z) (expunge : bool)
    (name : bytes) objs meta c : currentState c ≠ TVC_READY →
  let e := if isUnavailable c then ERR_NODE_NOT_ACTIVE else ERR_NOT_READY in
  startBlobTx unset ts volId name mode tx dmt c = Ret (c, e) ∧
  updateBlobTx_objs volId tx objs c = Ret (c, e) ∧ updateBlobTx_meta volId tx meta c = Ret (c, e) ∧
  deleteBlob volId tx version expunge c = Ret (c, e) ∧
  commitBlobTx hash fuel tms volId name tx seq c = Ret (c, None, e) ∧
  updateFwdCommittedBlob fuel tms volId name version objs meta seq c = Ret (c, e).
Proof.
  intros Hr. unfold startBlobTx, updateBlobTx_objs, updateBlobTx_meta, deleteBlob, commitBlobTx, updateFwdCommittedBlob, available, isUnavailable.
  destruct (currentState c); [|done|]; simpl; split_and!; reflexivity.
Qed.

(** Deleting a volume that is not marked deleted succeeds without deleting
    it and takes its commit log away: the catalog still has the volume, but
    its open transactions are gone and none can be started, updated or
    committed any more. *)
Theorem deleteVolume_loses_log (hash : bytes → Z) (fuel : nat) (tms : times) volId (unset ts mode tx dmt seq : Z) (name : bytes) v c :
  DmVolumeCatalog.volMap (volcat c) !! volId = Some v → DmPersistVolDB.deleted v = false → DmPersistVolDB.snapshot v = false →
  currentState c = TVC_READY →
  ∃ c', deleteVolume volId c = (c', ERR_OK) ∧ DmVolumeCatalog.find_vol volId (volcat c') = Some v ∧
    startBlobTx unset ts volId name mode tx dmt c' = Ret (c', ERR_VOL_NOT_FOUND) ∧
    commitBlobTx hash fuel tms volId name tx seq c' = Ret (c', None, ERR_VOL_NOT_FOUND) ∧
    abortBlobTx volId tx c' = Ret (c', ERR_VOL_NOT_FOUND).
Proof.
  intros Hv Hd Hs Hr. unfold deleteVolume, DmVolumeCatalog.deleteCatalog. rewrite Hv, Hd, Hs. simpl. eexists. split; [done|].
  unfold DmVolumeCatalog.find_vol, startBlobTx, commitBlobTx, abortBlobTx, available, on_log. simpl.
  rewrite Hv, Hd, Hr, lookup_delete_eq. done.
Qed.

End Cases.

(** ** A volume with one transaction *)
Import DmTimeVolCatalog.

Definition demo_tvc : t (D:=list (list Z * list Z)) :=
  Make TVC_READY {[ 50 := CommitLogSpec.demo_log ]} {[ 1 := 50 ]} ∅ [] (new_catalog DmVolumeSummary.make) {[ 1 := VolumeMeta.Make 3 0 2 ]} false true.

Definition demo_times : times := Times 20 21 (λ i, i) 22.

(** Two objects in two updates, for a blob that ends with them; the second
    commit finds the transaction gone. *)
Definition demo_xops : list xop :=
  [XStart 9 10 [97] 1 5 3; XObjs 5 [(0, 4096, demo_oid 1)]; XObjs 5 [(4096, 100, demo_oid 2)];
   XCommit demo_times [97] 5 7; XCommit demo_times [97] 5 8].

Definition demo_history : history :=
  History [97] 1 10 3
    [UObjs (BlobObjList.Make [(0, BlobObjInfo.Make (demo_oid 1) 4096)] false);
     UObjs (BlobObjList.Make [(4096, BlobObjInfo.Make (demo_oid 2) 100)] false)].

Definition demo_after : vcat :=
  apply_changes demo_empty (effect 4096 (PutBatch [97] (put_desc 4096 demo_empty [97] new_request (Some []) 7) new_request [])).

Lemma demo_serves : serves 1 4096 demo_tvc ∅ demo_empty 3.
Proof.
  split; [done|done| | |].
  - exists 50, CommitLogSpec.demo_log. split; [done|]. split; [done|]. apply demo_log_refines.
  - exists (new_volume DmVolumeSummary.make). split; [apply new_opened|]. split; [apply new_dense|done].
  - by eexists.
Qed.

Lemma demo_requests : requests demo_history new_request [].
Proof.
  split; [repeat constructor| |done|constructor|done]. intros o. unfold demo_history, new_request, objects_at. simpl.
  destruct (Z.compare_spec o 0) as [->|Ho|Ho]; [done| |]; destruct (Z.compare_spec o 4096); (done || lia).
Qed.

Lemma demo_committed : committed 4096 [97] (Some []) new_request 7 demo_empty demo_after.
Proof.
  apply (put_committed 1 (new_catalog DmVolumeSummary.make) (new_volume DmVolumeSummary.make) [] [] demo_empty [97] (Some []) new_request 7);
    [apply new_opened|apply new_related|apply new_related|apply new_dense|apply new_request_ok].
Qed.

Lemma demo_path : xpath 3 4096 ∅ demo_empty 3 demo_xops ∅ demo_after 7
  [(ERR_OK, None); (ERR_OK, None); (ERR_OK, None); (ERR_OK, Some (Result ERR_OK 0 (Some new_request) (Some []) 4196));
   (ERR_OK, Some (Result ERR_DM_TX_NOT_STARTED 0 None None 0))].
Proof.
  eapply xp_cons; [by eapply xs_log|]. eapply xp_cons; [by eapply xs_log|]. eapply xp_cons; [by eapply xs_log|].
  change (astep _ _).1 with ({[ 5 := demo_history ]} : alog). eapply (xp_cons _ _ _ _ _ _ ∅ demo_after 7); [|].
  - change (∅ : alog) with (delete 5 ({[ 5 := demo_history ]} : alog)). apply (xs_commit 3 4096 {[ 5 := demo_history ]} _ _ _ _ _ _ demo_history); [done|].
    apply (commits_put 4096 3 demo_history 7 new_request [] demo_empty 3 demo_after); [done|apply demo_requests|apply new_request_ok| |done|apply demo_committed].
    apply new_desc_ok.
  - eapply xp_cons; [by apply xs_none|apply xp_nil].
Qed.

Lemma transactions_atomic_witness : ∃ c' outs', xrun (λ _, 0) 3 1 demo_xops demo_tvc = Ret (c', outs') ∧
  ((∃ e r, last outs' = Some (e, Some r) ∧ store_error (cr_error r)) ∨ serves 1 4096 c' ∅ demo_after 7).
Proof.
  destruct (transactions_atomic (λ _, 0) 3 1 4096 demo_xops demo_tvc ∅ demo_empty 3 ∅ demo_after 7
    [(ERR_OK, None); (ERR_OK, None); (ERR_OK, None); (ERR_OK, Some (Result ERR_OK 0 (Some new_request) (Some []) 4196));
     (ERR_OK, Some (Result ERR_DM_TX_NOT_STARTED 0 None None 0))]) as (c' & outs' & E & H).
  - reflexivity.
  - apply demo_serves.
  - apply demo_path.
  - discriminate.
  - exists c', outs'. split; [exact E|]. destruct H as [H|[_ H]]; [left; exact H|right; exact H].
Defined.

Lemma not_ready_refuses_witness :
  startBlobTx 0 1 1 [97] 0 5 3 (setUnavailable demo_tvc) = Ret (setUnavailable demo_tvc, ERR_NODE_NOT_ACTIVE).
Proof. apply (not_ready_refuses (λ _, 0) 3 demo_times 1 0 1 0 5 3 0 7 false [97] [] [] (setUnavailable demo_tvc)). discriminate. Defined.

Lemma deleteVolume_loses_log_witness : ∃ c', deleteVolume 1 demo_tvc = (c', ERR_OK) ∧
  startBlobTx 0 1 1 [97] 0 5 3 c' = Ret (c', ERR_VOL_NOT_FOUND).
Proof.
  destruct (deleteVolume_loses_log (λ _, 0) 3 demo_times 1 0 1 0 5 3 7 [97] (new_volume DmVolumeSummary.make) demo_tvc) as (c' & H1 & _ & H2 & _);
    [reflexivity..|]. exists c'. split; [exact H1|exact H2].
Defined.
