(* ===== verification/Double.v ===== *)
(** * Doubles

    The [double] of the code as IEEE 754 binary64, by the Standard Library's
    specification of floating-point numbers, and what the placement algorithms
    need of it: a sum of numbers with integer lower bounds has the sum of the
    bounds as a lower bound, whatever is rounded on the way. *)

From S2P Require Import Prelude.
From Stdlib Require Import SpecFloat.
Open Scope Z_scope.

Module Double.

Abbreviation double := spec_float.

Definition prec : Z := 53.
Definition emax : Z := 1024.

Definition of_Z (z : Z) : double := binary_normalize prec emax z 0 false.
Definition add (x y : double) : double := SFadd prec emax x y.
Definition sub (x y : double) : double := SFsub prec emax x y.
Definition div (x y : double) : double := SFdiv prec emax x y.
Definition lt (x y : double) : bool := SFltb x y.
Definition le (x y : double) : bool := SFleb x y.

(** 0.5 and -0.5 *)
Definition half : double := div (of_Z 1) (of_Z 2).
Definition neg_half : double := div (of_Z (-1)) (of_Z 2).

#[global] Arguments of_Z : simpl never.
#[global] Arguments add : simpl never.
#[global] Arguments sub : simpl never.
#[global] Arguments div : simpl never.
#[global] Arguments lt : simpl never.
#[global] Arguments le : simpl never.

(** A mantissa of full precision, unless the number is subnormal *)
Definition canonical (m : positive) (e : Z) : Prop := e = emin prec emax ∨ 2 ^ 52 ≤ Zpos m.

(** [x] is at least [- b]. *)
Definition at_least (b : Z) (x : double) : Prop :=
  match x with
  | S754_zero _ | S754_finite false _ _ => True
  | S754_infinity s => s = false
  | S754_nan => False
  | S754_finite true m e => e ≤ 0 ∧ Zpos m ≤ b * 2 ^ (- e) ∧ canonical m e
  end.

(** ** Digits and shifts *)
Lemma digits_spec p : 2 ^ (Zpos (digits2_pos p) - 1) ≤ Zpos p < 2 ^ Zpos (digits2_pos p).
Proof.
  induction p as [p IH|p IH|]; simpl digits2_pos; [..|done];
    rewrite Pos2Z.inj_succ; set (d := Zpos (digits2_pos p)) in *;
    replace (Z.succ d - 1) with (Z.succ (d - 1)) by lia; rewrite !Z.pow_succ_r by lia; lia.
Qed.

Lemma digits_le p k : 0 ≤ k → Zpos p < 2 ^ k → Zpos (digits2_pos p) ≤ k.
Proof.
  intros Hk Hp. destruct (digits_spec p) as [Hd _]. destruct (decide (Zpos (digits2_pos p) ≤ k)) as [|Hn]; [done|].
  pose proof (Z.pow_le_mono_r 2 k (Zpos (digits2_pos p) - 1)). lia.
Qed.

Lemma iter_pos_nat {A} (f : A → A) p x : iter_pos f p x = Nat.iter (Pos.to_nat p) f x.
Proof.
  revert x. induction p as [p IH|p IH|]; intros x; simpl iter_pos; [..|done].
  - rewrite !IH, Pos2Nat.inj_xI. rewrite <-Nat.iter_add, <-Nat.iter_succ_r. f_equal. lia.
  - rewrite !IH, Pos2Nat.inj_xO. rewrite <-Nat.iter_add. f_equal. lia.
Qed.

Definition rest (r : shr_record) : bool := shr_r r || shr_s r.

Lemma shr_1_spec r : 0 ≤ shr_m r → shr_m (shr_1 r) = shr_m r / 2 ∧
  rest (shr_1 r) = rest r || bool_decide (shr_m r `mod` 2 ≠ 0).
Proof.
  destruct r as [m r s]. unfold rest. simpl. intros Hm. destruct m as [|[p|p|]|p]; [..|lia]; simpl shr_m; simpl shr_r; simpl shr_s.
  - split; [done|]. by destruct r, s.
  - rewrite Pos2Z.inj_xI. split; [by rewrite Z.mul_comm, Z.div_add_l by lia|].
    rewrite bool_decide_eq_true_2; [by destruct r, s|]. rewrite Z.add_comm, Z.mul_comm, Z_mod_plus_full. done.
  - rewrite Pos2Z.inj_xO. split; [by rewrite Z.mul_comm, Z.div_mul by lia|].
    rewrite bool_decide_eq_false_2; [by destruct r, s|]. rewrite Z.mul_comm, Z_mod_mult. intros []; done.
  - split; [done|]. by destruct r, s.
Qed.

Lemma shr_iter n r : 0 ≤ shr_m r → shr_m (Nat.iter n shr_1 r) = shr_m r / 2 ^ Z.of_nat n ∧
  rest (Nat.iter n shr_1 r) = rest r || bool_decide (shr_m r `mod` 2 ^ Z.of_nat n ≠ 0).
Proof.
  intros Hm. induction n as [|n [IHm IHr]].
  - simpl. rewrite Z.div_1_r, Z.mod_1_r, bool_decide_eq_false_2 by (intros []; done). by rewrite orb_false_r.
  - simpl Nat.iter. rewrite Nat2Z.inj_succ, Z.pow_succ_r by lia. set (k := 2 ^ Z.of_nat n) in *.
    assert (0 < k) by (apply Z.pow_pos_nonneg; lia).
    destruct (shr_1_spec (Nat.iter n shr_1 r)) as [E1 E2]; [rewrite IHm; by apply Z.div_pos|]. rewrite E1, E2, IHm, IHr. split.
    + rewrite Z.div_div, (Z.mul_comm 2 k) by lia. done.
    + rewrite <-orb_assoc. f_equal. rewrite (Z.mul_comm 2 k), Z.rem_mul_r by lia.
      pose proof (Z.mod_pos_bound (shr_m r) k). pose proof (Z.mod_pos_bound (shr_m r / k) 2).
      repeat case_bool_decide; simpl; try done; exfalso; nia.
Qed.

(** One shift: the quotient, and whether something was cut off *)
Lemma shr_spec r e n : 0 ≤ shr_m r → 0 ≤ n → ∃ r', shr r e n = (r', e + n) ∧
  shr_m r' = shr_m r / 2 ^ n ∧ rest r' = rest r || bool_decide (shr_m r `mod` 2 ^ n ≠ 0).
Proof.
  intros Hm Hn. destruct n as [|p|p]; [| |lia].
  - exists r. simpl. rewrite Z.add_0_r, Z.div_1_r, Z.mod_1_r, bool_decide_eq_false_2 by (intros []; done). by rewrite orb_false_r.
  - exists (iter_pos shr_1 p r). split; [done|]. rewrite iter_pos_nat.
    destruct (shr_iter (Pos.to_nat p) r Hm) as [E1 E2]. by rewrite positive_nat_Z in E1, E2.
Qed.

Lemma shr_neg r e n : n ≤ 0 → shr r e n = (r, e).
Proof. by destruct n. Qed.

Lemma shr_nonneg r e n : 0 ≤ shr_m r → 0 ≤ shr_m (shr r e n).1.
Proof.
  intros Hm. destruct (decide (n ≤ 0)) as [Hn|Hn]; [by rewrite shr_neg|].
  destruct (shr_spec r e n Hm) as (r' & -> & E & _); [lia|]. simpl. rewrite E. apply Z.div_pos; [done|]. apply Z.pow_pos_nonneg; lia.
Qed.

Lemma round_even_bounds m l : m ≤ round_nearest_even m l ≤ m + 1 ∧ (l = loc_Exact → round_nearest_even m l = m).
Proof. destruct l as [|[]]; simpl; try destruct (Z.even m); (split; [lia|done]). Qed.

Lemma loc_rest r : rest r = false → loc_of_shr_record r = loc_Exact.
Proof. destruct r as [m [] []]; done. Qed.

(** ** Rounding *)
Lemma round_aux_sign s m e l : 0 ≤ m → match binary_round_aux prec emax s m e l with
  | S754_zero s' | S754_infinity s' | S754_finite s' _ _ => s' = s | S754_nan => False end.
Proof.
  intros Hm. unfold binary_round_aux, shr_fexp.
  set (r1 := shr _ _ _). assert (H1 : 0 ≤ shr_m r1.1) by (apply shr_nonneg; by destruct l as [|[]]). destruct r1 as [r1 e1]. simpl in H1.
  set (r2 := shr _ _ _). assert (H2 : 0 ≤ shr_m r2.1).
  { apply shr_nonneg. simpl. pose proof (round_even_bounds (shr_m r1) (loc_of_shr_record r1)). lia. }
  destruct r2 as [r2 e2]. simpl in H2. destruct (shr_m r2); [done| |lia]. by destruct (_ <=? _).
Qed.

Lemma fexp_53 d : fexp prec emax d = Z.max (d - 53) (-1074).
Proof. done. Qed.

(** The mantissa after the first shift, to the exponent [f], and rounding *)
Lemma round_mantissa p e b : let d := Zpos (digits2_pos p) in let f := Z.max (d + e - 53) (-1074) in
  e ≤ 0 → 0 ≤ b < 2 ^ 53 → Zpos p ≤ b * 2 ^ (- e) → e ≤ f →
  ∃ r, shr_fexp prec emax (Zpos p) e loc_Exact = (r, f) ∧
    let m := round_nearest_even (shr_m r) (loc_of_shr_record r) in
    0 ≤ m ≤ 2 ^ 53 ∧ f ≤ 0 ∧ m ≤ b * 2 ^ (- f) ∧ (f = -1074 ∨ 2 ^ 52 ≤ m).
Proof.
  intros d f He Hb Hp Hf. pose proof (digits_spec p) as Hd. fold d in Hd. unfold shr_fexp.
  change (fexp prec emax (Zdigits2 (Zpos p) + e)) with f.
  destruct (shr_spec (shr_record_of_loc (Zpos p) loc_Exact) e (f - e)) as (r & -> & Em & Er); [done|lia|].
  cbn [shr_record_of_loc shr_m shr_r shr_s rest orb] in Em, Er. exists r. split; [f_equal; lia|]. cbv zeta. set (m := round_nearest_even _ _).
  destruct (round_even_bounds (shr_m r) (loc_of_shr_record r)) as [Hm Hx]. fold m in Hm, Hx.
  set (n := f - e) in *. assert (0 < 2 ^ n) by (apply Z.pow_pos_nonneg; lia).
  pose proof (Z.div_mod (Zpos p) (2 ^ n)) as Hdm. pose proof (Z.mod_pos_bound (Zpos p) (2 ^ n)). rewrite <-Em in Hdm.
  assert (Hf0 : f ≤ 0).
  { destruct (decide (f ≤ 0)) as [|Hn]; [done|]. exfalso.
    assert (2 ^ (53 + - e) ≤ 2 ^ (d - 1)) as Hpow by (apply Z.pow_le_mono_r; lia).
    rewrite Z.pow_add_r in Hpow by lia. assert (0 < 2 ^ (- e)) by (apply Z.pow_pos_nonneg; lia). nia. }
  assert (Hbn : b * 2 ^ (- e) = b * 2 ^ (- f) * 2 ^ n) by (rewrite <-Z.mul_assoc, <-Z.pow_add_r by lia; do 2 f_equal; lia).
  split_and!.
  - assert (0 ≤ shr_m r) by (rewrite Em; by apply Z.div_pos). lia.
  - assert (shr_m r < 2 ^ 53); [|lia]. rewrite Em. apply Z.div_lt_upper_bound; [lia|]. rewrite <-Z.pow_add_r by lia.
    eapply Z.lt_le_trans; [apply Hd|]. apply Z.pow_le_mono_r; lia.
  - done.
  - destruct (decide (Zpos p `mod` 2 ^ n = 0)) as [Hz|Hz].
    + rewrite Hx; [nia|]. apply loc_rest. rewrite Er. apply bool_decide_eq_false_2. intros []; done.
    + nia.
  - destruct (decide (f = -1074)) as [|Hn]; [by left|right]. assert (n = d - 53) as Hnd by lia.
    assert (2 ^ 52 ≤ shr_m r); [|lia]. rewrite Em. apply Z.div_le_lower_bound; [lia|]. rewrite <-Z.pow_add_r by lia.
    etrans; [|apply Hd]. apply Z.pow_le_mono_r; lia.
Qed.

(** Rounding a mantissa that is not too short keeps an integer bound. *)
Lemma round_aux_bound p e b : e ≤ 0 → 0 ≤ b < 2 ^ 53 → Zpos p ≤ b * 2 ^ (- e) →
  e ≤ fexp prec emax (Zpos (digits2_pos p) + e) → at_least b (binary_round_aux prec emax true (Zpos p) e loc_Exact).
Proof.
  intros He Hb Hp Hf. destruct (round_mantissa p e b He Hb Hp Hf) as (r & E & Hm0 & Hf0 & Hm & Hc). unfold binary_round_aux. rewrite E. clear E.
  set (f := Z.max _ _) in *. set (m := round_nearest_even _ _) in *. assert (-1074 ≤ f) by lia. clearbody f m.
  destruct m as [|m|m]; [|..|lia].
  { unfold shr_fexp. rewrite shr_neg; [done|]. rewrite fexp_53. simpl. lia. }
  unfold shr_fexp. rewrite fexp_53. change (Zdigits2 (Zpos m)) with (Zpos (digits2_pos m)). pose proof (digits_spec m) as Hd.
  destruct (decide (Zpos m < 2 ^ 53)) as [Hl|Hl].
  - pose proof (digits_le m 53 ltac:(lia) Hl). rewrite shr_neg by lia. cbn [shr_record_of_loc shr_m].
    rewrite (proj2 (Z.leb_le f (emax - prec))) by (unfold emax, prec; lia). split_and!; [done..|]. destruct Hc; [by left|by right].
  - assert (m = 9007199254740992%positive) as -> by lia.
    change (digits2_pos 9007199254740992) with 54%positive.
    replace (Z.max (54 + f - 53) (-1074) - f) with 1 by lia.
    cbn [shr_record_of_loc shr iter_pos shr_1 shr_m].
    assert (f < 0) by (destruct (decide (f = 0)) as [->|]; [simpl in Hm; lia|lia]).
    rewrite (proj2 (Z.leb_le (f + 1) (emax - prec))) by (unfold emax, prec; lia). split_and!; [lia| |by right].
    replace (- f) with (Z.succ (- (f + 1))) in Hm by lia. rewrite Z.pow_succ_r in Hm by lia. lia.
Qed.

Lemma iter_xO p n : Zpos (Pos.iter xO p n) = Zpos p * 2 ^ Zpos n.
Proof.
  induction n as [|n IH] using Pos.peano_ind; [simpl; lia|].
  rewrite Pos.iter_succ, Pos2Z.inj_succ, Z.pow_succ_r, Pos2Z.inj_xO, IH by lia. lia.
Qed.

(** Aligning to a smaller exponent *)
Lemma shl_align_spec p e e' : e' ≤ e → Zpos (shl_align p e e').1 = Zpos p * 2 ^ (e - e') ∧ (shl_align p e e').2 = e'.
Proof.
  intros He. unfold shl_align. destruct (e' - e) as [|d|d] eqn:E; simpl; [|lia|].
  - replace (e - e') with 0 by lia. simpl. lia.
  - replace (e - e') with (Zpos d) by lia. by rewrite iter_xO.
Qed.

Lemma shl_align_ge p e e' : e ≤ e' → shl_align p e e' = (p, e).
Proof. intros He. unfold shl_align. destruct (e' - e) eqn:E; [done..|lia]. Qed.

Lemma digits_shift p k : 0 ≤ k → ∀ q, Zpos q = Zpos p * 2 ^ k → Zpos (digits2_pos q) = Zpos (digits2_pos p) + k.
Proof.
  intros Hk q Hq. pose proof (digits_spec p) as Hp. pose proof (digits_spec q) as Hd. rewrite Hq in Hd.
  set (d := Zpos (digits2_pos p)) in *. set (d' := Zpos (digits2_pos q)) in *. assert (0 < 2 ^ k) by (apply Z.pow_pos_nonneg; lia).
  assert (2 ^ (d' - 1) < 2 ^ (d + k)) as H1 by (rewrite Z.pow_add_r by lia; nia).
  assert (2 ^ (d - 1 + k) < 2 ^ d') as H2 by (rewrite Z.pow_add_r by lia; nia).
  apply Z.pow_lt_mono_r_iff in H1, H2; lia.
Qed.

Lemma round_bound p e b : e ≤ 0 → 0 ≤ b < 2 ^ 53 → Zpos p ≤ b * 2 ^ (- e) → at_least b (binary_round prec emax true p e).
Proof.
  intros He Hb Hp. unfold binary_round. set (f := fexp prec emax (Zpos (digits2_pos p) + e)).
  destruct (decide (e ≤ f)) as [Hf|Hf]; [rewrite shl_align_ge by done; by apply round_aux_bound|].
  destruct (shl_align_spec p e f) as [E1 E2]; [lia|]. destruct (shl_align p e f) as [q e']. simpl in E1, E2. subst e'.
  pose proof (digits_shift p (e - f) ltac:(lia) q E1) as Hd. apply round_aux_bound; [lia|done| |].
  - rewrite E1. replace (- f) with (- e + (e - f)) by lia. rewrite Z.pow_add_r by lia.
    assert (0 < 2 ^ (e - f)) by (apply Z.pow_pos_nonneg; lia). nia.
  - rewrite Hd. replace (Zpos (digits2_pos p) + (e - f) + f) with (Zpos (digits2_pos p) + e) by lia. done.
Qed.

Lemma round_pos p e b : at_least b (binary_round prec emax false p e).
Proof.
  unfold binary_round. destruct (shl_align _ _ _) as [q e']. pose proof (round_aux_sign false (Zpos q) e' loc_Exact ltac:(lia)) as H.
  destruct (binary_round_aux _ _ _ _ _ _); simpl; [done|done|done|by subst].
Qed.

Lemma normalize_bound m e b s : e ≤ 0 → 0 ≤ b < 2 ^ 53 → - (b * 2 ^ (- e)) ≤ m → at_least b (binary_normalize prec emax m e s).
Proof. intros He Hb Hm. destruct m as [|p|p]; [done|apply round_pos|]. apply round_bound; [done..|lia]. Qed.

(** ** Bounds of the operations *)
(** The signed mantissa at a common exponent *)
Lemma aligned_bound b s p e ez : 0 ≤ b → at_least b (S754_finite s p e) → ez ≤ e → ez ≤ 0 →
  - (b * 2 ^ (- ez)) ≤ cond_Zopp s (Zpos (shl_align p e ez).1).
Proof.
  intros Hb Hx Hez Hez0. destruct (shl_align_spec p e ez Hez) as [-> _]. assert (0 < 2 ^ (e - ez)) by (apply Z.pow_pos_nonneg; lia).
  assert (0 < 2 ^ (- ez)) by (apply Z.pow_pos_nonneg; lia). destruct s; simpl in *; [|nia].
  destruct Hx as (He & Hp & _). replace (- ez) with (- e + (e - ez)) by lia. rewrite Z.pow_add_r by lia. nia.
Qed.

Lemma at_least_mono b b' x : b ≤ b' → at_least b x → at_least b' x.
Proof.
  intros Hb. destruct x as [| | |[] m e]; simpl; [done..| |done]. intros (He & Hm & Hc). split_and!; [done| |done].
  assert (0 < 2 ^ (- e)) by (apply Z.pow_pos_nonneg; lia). nia.
Qed.

Lemma add_bound b c x y : 0 ≤ b → 0 ≤ c → b + c < 2 ^ 53 → at_least b x → at_least c y → at_least (b + c) (add x y).
Proof.
  intros Hb Hc Hbc Hx Hy. destruct x as [s|s| |s m e], y as [s'|s'| |s' m' e']; try done;
    try (simpl in *; subst; done); try (by destruct s, s');
    try (by eapply at_least_mono; [|done]; lia).
  unfold add, SFadd. set (ez := Z.min e e'). destruct (decide (ez ≤ 0)) as [Hez|Hez].
  - apply normalize_bound; [done|lia|]. pose proof (aligned_bound b s m e ez Hb Hx ltac:(lia) Hez).
    pose proof (aligned_bound c s' m' e' ez Hc Hy ltac:(lia) Hez). rewrite Z.mul_add_distr_r. lia.
  - assert (s = false) as -> by (destruct s; [destruct Hx; lia|done]). assert (s' = false) as -> by (destruct s'; [destruct Hy; lia|done]).
    simpl. apply round_pos.
Qed.

Lemma opp_aligned s m : cond_Zopp (negb s) m = - cond_Zopp s m.
Proof. destruct s; simpl; lia. Qed.

Lemma sub_bound b c x y : 0 ≤ b → 0 ≤ c → b + c < 2 ^ 53 → at_least b x → at_least c (SFopp y) → at_least (b + c) (sub x y).
Proof.
  intros Hb Hc Hbc Hx Hy. destruct x as [s|s| |s m e], y as [s'|s'| |s' m' e']; try done;
    try (simpl in *; subst; done); try (by destruct s, s');
    try (by eapply at_least_mono; [|done]; lia); try (by destruct s').
  unfold sub, SFsub. set (ez := Z.min e e'). destruct (decide (ez ≤ 0)) as [Hez|Hez].
  - apply normalize_bound; [done|lia|]. pose proof (aligned_bound b s m e ez Hb Hx ltac:(lia) Hez).
    pose proof (aligned_bound c (negb s') m' e' ez Hc Hy ltac:(lia) Hez) as H'. rewrite opp_aligned in H'. rewrite Z.mul_add_distr_r. lia.
  - assert (s = false) as -> by (destruct s; [destruct Hx; lia|done]). assert (s' = true) as -> by (destruct s'; [done|destruct Hy; lia]).
    simpl. apply round_pos.
Qed.

(** Integers of at most 53 bits are exact. *)
Lemma of_Z_pos n : 0 < n < 2 ^ 53 → ∃ m e, of_Z n = S754_finite false m e ∧ e ≤ 0 ∧ Zpos m = n * 2 ^ (- e) ∧ canonical m e.
Proof.
  intros Hn. destruct n as [|p|p]; [lia| |lia]. unfold of_Z, binary_normalize, binary_round. pose proof (digits_le p 53 ltac:(lia) (proj2 Hn)) as Hd.
  rewrite fexp_53. set (d := Zpos (digits2_pos p)) in *. set (f := Z.max (d + 0 - 53) (-1074)). assert (f = d - 53) as Hf by lia.
  destruct (shl_align_spec p 0 f) as [E1 E2]; [lia|]. destruct (shl_align p 0 f) as [q e']. simpl in E1, E2. subst e'.
  pose proof (digits_shift p (0 - f) ltac:(lia) q E1) as Hq. fold d in Hq. pose proof (digits_spec q) as Hqs.
  assert (Hx : shr_fexp prec emax (Zpos q) f loc_Exact = (Build_shr_record (Zpos q) false false, f)).
  { unfold shr_fexp. rewrite shr_neg; [done|]. rewrite fexp_53. change (Zdigits2 (Zpos q)) with (Zpos (digits2_pos q)). lia. }
  unfold binary_round_aux. rewrite Hx. cbn [shr_m loc_of_shr_record round_nearest_even]. rewrite Hx. cbn [shr_m].
  rewrite (proj2 (Z.leb_le f (emax - prec))) by (unfold emax, prec; lia). exists q, f. split_and!; [done|lia|exact E1|].
  right. rewrite Hq in Hqs. replace (d + (0 - f) - 1) with 52 in Hqs by lia. lia.
Qed.

Lemma of_Z_at_least n b : 0 ≤ n < 2 ^ 53 → at_least b (of_Z n).
Proof. intros Hn. destruct (decide (n = 0)) as [->|]; [done|]. destruct (of_Z_pos n) as (m & e & -> & _); [lia|done]. Qed.

Lemma of_Z_opp n : 0 ≤ n < 2 ^ 53 → at_least n (SFopp (of_Z n)).
Proof.
  intros Hn. destruct (decide (n = 0)) as [->|]; [done|]. destruct (of_Z_pos n) as (m & e & -> & He & Hm & Hc); [lia|].
  simpl. split_and!; [done|lia|done].
Qed.

Lemma div_pos a b c : 0 ≤ a < 2 ^ 53 → 0 < b < 2 ^ 53 → at_least c (div (of_Z a) (of_Z b)).
Proof.
  intros Ha Hb. destruct (of_Z_pos b Hb) as (m' & e' & -> & _). destruct (decide (a = 0)) as [->|]; [done|].
  destruct (of_Z_pos a) as (m & e & -> & _); [lia|]. unfold div, SFdiv.
  destruct (SFdiv_core_binary _ _ _ _ _ _) as [[q ez] l] eqn:E. assert (0 ≤ q) as Hq.
  { unfold SFdiv_core_binary in E. set (k := match _ with Z0 => _ | Zpos _ => _ | Zneg _ => _ end) in E.
    assert (0 ≤ k) by (unfold k; destruct (_ - _); [lia| |lia]; apply Z.shiftl_nonneg; lia).
    destruct (Z.div_eucl k (Zpos m')) as [q' r'] eqn:E'. injection E as <- _ _.
    assert (q' = k / Zpos m') as -> by (unfold Z.div; by rewrite E'). by apply Z.div_pos. }
  pose proof (round_aux_sign (xorb false false) q ez l Hq) as H. destruct (binary_round_aux _ _ _ _ _ _); simpl in *; [done|done|done|by subst].
Qed.

(** The bound the search for a maximum starts with *)
Lemma above_start b x : 0 ≤ b < 10000 → at_least b x → lt (of_Z (-10000)) x = true.
Proof.
  intros Hb Hx. change (of_Z (-10000)) with (S754_finite true 5497558138880000 (-39)).
  destruct x as [|s| |[] m e]; simpl in Hx; [done|by subst|done| |done]. destruct Hx as (He & Hm & Hc).
  unfold lt, SFltb, SFcompare.
  destruct (Z.compare_spec (-39) e) as [<-|Hl|Hg]; [| |done].
  - change (Pos.compare_cont Eq 5497558138880000 m) with (Pos.compare 5497558138880000 m).
    destruct (Pos.compare_spec 5497558138880000 m); simpl; [..|done]; exfalso; simpl in Hm; lia.
  - exfalso. destruct Hc as [Hc|Hc]; [unfold emin, prec, emax in Hc; lia|]. assert (2 ^ (- e) ≤ 2 ^ 38) by (apply Z.pow_le_mono_r; lia). nia.
Qed.

End Double.
