(* ===== verification/ConfigDb.v ===== *)
(** * The configuration database

    The part of the OM's configuration database that keeps DMTs
    (src/source/lib/kvstore/configdb.cpp) with the replies and the hexadecimal
    coding of src/source/lib/kvstore/redis.cpp.  The redis server and its client
    library are the class [RedisServer]; what the code relies on, the documented
    behaviour of the commands [get], [set] and [sadd] on a connection that
    works, is [RedisLaws].  A table that is stored is read back. *)

From S2P Require Import Prelude PlacementTable Serialize Dmt.
Open Scope Z_scope.

(** Text of the commands as bytes *)
Definition ascii_bytes (s : string) : list Z := (λ a, Z.of_N (Ascii.N_of_ascii a)) <$> String.list_ascii_of_string s.

(** ** Decimal numbers *)
(** [%ld]; twenty digits are enough for 64 bits. *)
Fixpoint dec_digits (fuel : nat) (n : Z) (acc : list Z) : list Z :=
  match fuel with
  | O => acc
  | S fuel => let acc := 48 + n `mod` 10 :: acc in if decide (n < 10) then acc else dec_digits fuel (n / 10) acc
  end.

Definition fmt_ld (n : Z) : list Z := if decide (n < 0) then 45 :: dec_digits 20 (- n) [] else dec_digits 20 n [].

(** [atoll] *)
Fixpoint dec_value (acc : Z) (l : list Z) : Z :=
  match l with
  | c :: l => if decide (48 ≤ c ≤ 57) then dec_value (10 * acc + (c - 48)) l else acc
  | [] => acc
  end.

Fixpoint atoll (l : list Z) : Z :=
  match l with
  | c :: l' =>
      if decide (c = 32 ∨ 9 ≤ c ≤ 13) then atoll l'
      else if decide (c = 45) then - dec_value 0 l'
      else if decide (c = 43) then dec_value 0 l'
      else dec_value 0 l
  | [] => 0
  end.

(** ** Replies *)
Inductive redisReply :=
| REDIS_REPLY_STRING (str : list Z)
| REDIS_REPLY_ARRAY (elements : list (list Z))
| REDIS_REPLY_INTEGER (integer : Z)
| REDIS_REPLY_NIL
| REDIS_REPLY_STATUS (str : list Z)
| REDIS_REPLY_ERROR (str : list Z).

(** The server: a command is given as its words; there is no reply when the
    connection fails. *)
Class RedisServer := {
  rstore : Type;
  redisCommand : list (list Z) → rstore → rstore * option redisReply;
}.

(** What a key holds *)
Inductive rvalue := RString (s : list Z) | RSet (members : gset (list Z)).

Definition GET : list Z := ascii_bytes "get".
Definition SET : list Z := ascii_bytes "set".
Definition SADD : list Z := ascii_bytes "sadd".

Class RedisLaws (R : RedisServer) := {
  connected : rstore → Prop;
  contents : rstore → gmap (list Z) rvalue;
  get_law k s : connected s → ∃ s', redisCommand [GET; k] s =
    (s', Some match contents s !! k with
              | Some (RString v) => REDIS_REPLY_STRING v
              | Some (RSet _) => REDIS_REPLY_ERROR (ascii_bytes "WRONGTYPE")
              | None => REDIS_REPLY_NIL
              end) ∧ connected s' ∧ contents s' = contents s;
  set_law k v s : connected s → ∃ s', redisCommand [SET; k; v] s = (s', Some (REDIS_REPLY_STATUS (ascii_bytes "OK"))) ∧
    connected s' ∧ contents s' = <[k := RString v]> (contents s);
  sadd_law k v s : connected s → ∃ s' r, redisCommand [SADD; k; v] s = (s', Some r) ∧ connected s' ∧
    match contents s !! k with
    | Some (RString _) => r = REDIS_REPLY_ERROR (ascii_bytes "WRONGTYPE") ∧ contents s' = contents s
    | Some (RSet m) => r = REDIS_REPLY_INTEGER (if decide (v ∈ m) then 0 else 1) ∧ contents s' = <[k := RSet ({[v]} ∪ m)]> (contents s)
    | None => r = REDIS_REPLY_INTEGER 1 ∧ contents s' = <[k := RSet {[v]}]> (contents s)
    end;
}.

(** The reply object; its pointer can be null, and a method that then throws
    gives [None]. *)
Module Reply.

Definition t : Type := option redisReply.

Definition checkValid (r : t) : option redisReply := r.

Definition isError (r : t) : option bool :=
  v ← checkValid r; Some (match v with REDIS_REPLY_ERROR _ => true | _ => false end).

(** A reply without a string has a null pointer and length 0. *)
Definition getString (r : t) : option (list Z) :=
  v ← checkValid r;
  Some (match v with
        | REDIS_REPLY_STRING s | REDIS_REPLY_STATUS s | REDIS_REPLY_ERROR s => s
        | REDIS_REPLY_ARRAY _ | REDIS_REPLY_INTEGER _ | REDIS_REPLY_NIL => []
        end).

Definition isOk (r : t) : option bool :=
  v ← checkValid r;
  Some (match v with
        | REDIS_REPLY_STATUS s => bool_decide (s = ascii_bytes "OK")
        | REDIS_REPLY_INTEGER n => bool_decide (n = 1)
        | _ => false
        end).

Definition wasModified (r : t) : option bool :=
  v ← checkValid r; Some (match v with REDIS_REPLY_INTEGER n => bool_decide (n > 0) | _ => false end).

Definition checkError (r : t) : option unit :=
  e ← isError r; if e : bool then None else Some ().

Definition getLong (r : t) : option Z :=
  _ ← checkError r;
  v ← checkValid r;
  Some (match v with
        | REDIS_REPLY_INTEGER n => n
        | REDIS_REPLY_STRING s => atoll s
        | _ => -1
        end).

Definition isNil (r : t) : option bool :=
  v ← checkValid r; Some (match v with REDIS_REPLY_NIL => true | _ => false end).

End Reply.

(** ** Hexadecimal coding *)
Module Redis.

Definition hexchar (n : Z) : Z := if decide (n < 10) then 48 + n else 87 + n.

Definition encodeHex (binary : list Z) : list Z :=
  binary ≫= λ c, [hexchar (Z.land (Z.shiftr (i8 c) 4) 15); hexchar (Z.land (i8 c) 15)].

(** The value of one digit in a [char] *)
Definition hexvalue (c : Z) : Z := let a := i8 c in i8 (if decide (a > 57) then a - 87 else a - 48).

(** An odd last digit is followed by the terminating null character. *)
Fixpoint decodeHex (hex : list Z) : list Z :=
  match hex with
  | a :: b :: rest => u8 (Z.land (Z.shiftl (hexvalue a) 4) 240 + hexvalue b) :: decodeHex rest
  | [a] => [u8 (Z.land (Z.shiftl (hexvalue a) 4) 240 + hexvalue 0)]
  | [] => []
  end.

Definition byte (z : Z) : Prop := 0 ≤ z < 256.

Lemma decode_encode_byte c : byte c →
  u8 (Z.land (Z.shiftl (hexvalue (hexchar (Z.land (Z.shiftr (i8 c) 4) 15))) 4) 240 + hexvalue (hexchar (Z.land (i8 c) 15))) = c.
Proof.
  intros Hc. assert (Forall (λ c, u8 (Z.land (Z.shiftl (hexvalue (hexchar (Z.land (Z.shiftr (i8 c) 4) 15))) 4) 240 + hexvalue (hexchar (Z.land (i8 c) 15))) = c) (seqZ 0 256)) as H
    by (apply (bool_decide_unpack _); by vm_compute).
  rewrite Forall_forall in H. apply H. apply elem_of_seqZ. unfold byte in Hc. lia.
Qed.

Lemma decodeHex_encodeHex l : Forall byte l → decodeHex (encodeHex l) = l.
Proof. induction 1 as [|c l Hc _ IH]; [done|]. unfold encodeHex. simpl. rewrite decode_encode_byte by done. by f_equal. Qed.

Lemma length_encodeHex l : length (encodeHex l) = (2 * length l)%nat.
Proof.
  induction l as [|c l IH]; [done|]. change (length (encodeHex (c :: l))) with (S (S (length (encodeHex l)))). rewrite IH. simpl. lia.
Qed.

End Redis.

(** ** DMTs in the database *)
Module ConfigDB.

Section Store.
Context `{R : RedisServer} `{P : TProtocol}.

(** A block of the database: what it leaves in the store, and its value unless
    a [RedisException] was thrown. *)
Definition M (A : Type) : Type := rstore → res (rstore * option A).

#[export] Instance M_ret : MRet M := λ A a s, Ret (s, Some a).
#[export] Instance M_bind : MBind M :=
  λ A B k m s, match m s with
               | Ret (s, Some a) => k a s
               | Ret (s, None) => Ret (s, None)
               | Fault f => Fault f
               end.

Definition throws {A} (x : option A) : M A := λ s, Ret (s, x).
Definition lift {A} (x : res A) : M A := λ s, (λ a, (s, Some a)) <$> x.

(** [try { .. } catch (RedisException) { .. } return dflt;] *)
Definition try_ {A} (m : M A) (dflt : A) (s : rstore) : res (rstore * A) :=
  r ← m s; Ret (r.1, default dflt r.2).

Definition sendCommand (words : list (list Z)) : M Reply.t :=
  λ s, let '(s, r) := redisCommand words s in Ret (s, Some <$> r).

(** The keys [%d:dmt:%s], [%d:dmt:%ld] and [%d:dmts] *)
Definition dmt_key (localDomain : Z) (name : list Z) : list Z := fmt_ld localDomain ++ ascii_bytes ":dmt:" ++ name.
Definition dmts_key (localDomain : Z) : list Z := fmt_ld localDomain ++ ascii_bytes ":dmts".

Definition getDmtVersionForType (type : list Z) (localDomain : Z) : rstore → res (rstore * Z) :=
  try_ (reply ← sendCommand [GET; dmt_key localDomain type];
        nil ← throws (Reply.isNil reply);
        if nil : bool then mret 0 else n ← throws (Reply.getLong reply); mret (u64 n)) 0.

Definition setDmtType (version : Z) (type : list Z) (localDomain : Z) : rstore → res (rstore * bool) :=
  try_ (reply ← sendCommand [SET; dmt_key localDomain type; fmt_ld (i64 version)];
        throws (Reply.isOk reply)) false.

Definition storeDmt (dmt : DMT.t) (type : list Z) (localDomain : Z) : rstore → res (rstore * bool) :=
  let version := fmt_ld (i64 (DMT.getVersion dmt)) in
  try_ (reply ← sendCommand [SADD; dmts_key localDomain; version];
        _ ← throws (Reply.wasModified reply);
        r ← lift (getSerialized (DMT.write dmt) []);
        reply ← sendCommand [SET; dmt_key localDomain version; Redis.encodeHex r.1];
        fSuccess ← throws (Reply.isOk reply);
        if fSuccess && bool_decide (type ≠ []) then
          reply ← sendCommand [SET; dmt_key localDomain type; version];
          _ ← throws (Reply.isOk reply);
          mret fSuccess
        else mret fSuccess) false.

(** The table read into the object [dmt]; [torn] is what a read that fails
    half way leaves in it. *)
Definition getDmt (torn : list Z → DMT.t) (dmt : DMT.t) (version : Z) (localDomain : Z) : rstore → res (rstore * (DMT.t * bool)) :=
  try_ (reply ← sendCommand [GET; dmt_key localDomain (fmt_ld (i64 version))];
        hexCoded ← throws (Reply.getString reply);
        if decide (Z.of_nat (length hexCoded) < 10) then mret (dmt, false) else
        let serializedData := Redis.decodeHex hexCoded in
        r ← lift (loadSerialized (DMT.read dmt) serializedData);
        mret (default (torn serializedData) (r : option DMT.t * fds_errno).1, true)) (dmt, false).

End Store.

(** ** Numbers and keys *)
Lemma dec_digits_value (fuel : nat) n acc : 0 ≤ n < 10 ^ Z.of_nat fuel → dec_value 0 (dec_digits fuel n acc) = dec_value n acc.
Proof.
  revert n acc. induction fuel as [|fuel IH]; intros n acc Hn; [simpl in *; by replace n with 0 by lia|]. cbn [dec_digits]. cbv zeta.
  pose proof (Z.mod_pos_bound n 10 ltac:(lia)) as Hm. pose proof (Z.div_mod n 10 ltac:(lia)) as Hd. case_decide as Hlt.
  - simpl. rewrite decide_True by lia. f_equal. rewrite Z.mod_small by lia. lia.
  - rewrite IH.
    + cbn [dec_value]. rewrite decide_True by lia. f_equal. lia.
    + rewrite Nat2Z.inj_succ, Z.pow_succ_r in Hn by lia. split; [apply Z.div_pos; lia|]. apply Z.div_lt_upper_bound; lia.
Qed.

Lemma dec_digits_head (fuel : nat) n acc : (0 < fuel)%nat → ∃ c l, dec_digits fuel n acc = c :: l ∧ 48 ≤ c ≤ 57.
Proof.
  revert n acc. induction fuel as [|fuel IH]; intros n acc Hf; [lia|]. cbn [dec_digits]. cbv zeta. pose proof (Z.mod_pos_bound n 10 ltac:(lia)) as Hm.
  case_decide; [eexists _, _; split; [done|lia]|]. destruct fuel as [|fuel]; [eexists _, _; split; [done|lia]|]. apply IH. lia.
Qed.

Lemma fmt_head n : ∃ c l, fmt_ld n = c :: l ∧ (c = 45 ∨ 48 ≤ c ≤ 57).
Proof.
  unfold fmt_ld. case_decide; [by eexists _, _; split; [done|left]|].
  destruct (dec_digits_head 20 n [] ltac:(lia)) as (c & l & E & Hc). exists c, l. auto.
Qed.

Lemma atoll_fmt n : - 2 ^ 63 ≤ n < 2 ^ 63 → atoll (fmt_ld n) = n.
Proof.
  intros Hn. unfold fmt_ld. case_decide as Hneg.
  - cbn [atoll]. rewrite decide_False, decide_True by lia. rewrite dec_digits_value by lia. simpl. lia.
  - destruct (dec_digits_head 20 n [] ltac:(lia)) as (c & l & E & Hc). pose proof (dec_digits_value 20 n [] ltac:(lia)) as Hv. rewrite E in *.
    cbn [atoll]. rewrite !decide_False by lia. exact Hv.
Qed.

Lemma fmt_inj n m : - 2 ^ 63 ≤ n < 2 ^ 63 → - 2 ^ 63 ≤ m < 2 ^ 63 → fmt_ld n = fmt_ld m → n = m.
Proof. intros Hn Hm E. by rewrite <-(atoll_fmt n), <-(atoll_fmt m), E by done. Qed.

(** Names of types do not begin like a number. *)
Definition type_name (type : list Z) : Prop := ∃ c l, type = c :: l ∧ 97 ≤ c ≤ 122.

Lemma version_not_type n type : type_name type → fmt_ld n ≠ type.
Proof. intros (c & l & -> & Hc). destruct (fmt_head n) as (c' & l' & -> & Hc'). intros [= -> _]. lia. Qed.

Lemma dmt_key_inj dom a b : dmt_key dom a = dmt_key dom b ↔ a = b.
Proof. split; [|by intros ->]. unfold dmt_key. by intros ?%(inj _)%(inj _). Qed.

Lemma dmts_not_dmt dom a : dmts_key dom ≠ dmt_key dom a.
Proof. unfold dmts_key, dmt_key. intros E%(inj _). vm_compute in E. discriminate E. Qed.

(** ** Tables that are stored *)
(** The bytes of the wire format *)
Class TProtocolBytes (P : TProtocol) : Prop := {
  bytes_writeI32 v : Forall Redis.byte (proto_writeI32 v).1;
  bytes_writeI64 v : Forall Redis.byte (proto_writeI64 v).1;
  length_writeI64 v : length (proto_writeI64 v).1 = 8%nat;
}.

Section Laws.
Context `{R : RedisServer} `{!RedisLaws R} `{P : TProtocol} `{!TProtocolLaws P} `{!TProtocolBytes P}.

Lemma enc_bytes d : Forall Redis.byte (DMT.enc d).
Proof.
  unfold DMT.enc. rewrite !Forall_app. split_and!; [apply bytes_writeI64|apply bytes_writeI32|apply bytes_writeI32|].
  apply Forall_concat, Forall_fmap, Forall_true. intros col. apply Forall_concat, Forall_fmap, Forall_true. intros u. apply bytes_writeI64.
Qed.

Lemma enc_length d : (8 ≤ length (DMT.enc d))%nat.
Proof. unfold DMT.enc. rewrite length_app. unfold writeI64. rewrite length_writeI64. lia. Qed.

(** Nothing but a set is stored under the key of the versions. *)
Definition versions_ok (dom : Z) (s : rstore) : Prop := ∀ v, contents s !! dmts_key dom ≠ Some (RString v).

Lemma u64_i64_small v : 0 ≤ v ≤ uint64_max → u64 (i64 v) = v.
Proof.
  intros Hv. unfold u64, i64. change 18446744073709551616 with (2 ^ 64). rewrite wrap_signed_mod by lia. apply Z.mod_small. unfold uint64_max in Hv. lia.
Qed.

Lemma i64_range v : - 2 ^ 63 ≤ i64 v < 2 ^ 63.
Proof. apply (wrap_signed_range 64). lia. Qed.

(** What the four operations do on a connection that works *)
Lemma setDmtType_ok version type dom s : connected s → ∃ s', setDmtType version type dom s = Ret (s', true) ∧ connected s' ∧
  contents s' = <[dmt_key dom type := RString (fmt_ld (i64 version))]> (contents s).
Proof.
  intros Hc. destruct (set_law (dmt_key dom type) (fmt_ld (i64 version)) s Hc) as (s' & E & Hc' & Hs').
  exists s'. split; [|done]. unfold setDmtType, try_, sendCommand, mbind, M_bind, throws. rewrite E. done.
Qed.

Lemma getDmtVersionForType_ok type dom s : connected s → ∃ s', connected s' ∧ contents s' = contents s ∧
  getDmtVersionForType type dom s = Ret (s', match contents s !! dmt_key dom type with Some (RString v) => u64 (atoll v) | _ => 0 end).
Proof.
  intros Hc. destruct (get_law (dmt_key dom type) s Hc) as (s' & E & Hc' & Hs'). exists s'. split; [done|]. split; [done|].
  unfold getDmtVersionForType, try_, sendCommand, mbind, M_bind, throws. rewrite E. by destruct (contents s !! _) as [[v|m]|].
Qed.

Lemma storeDmt_ok d type dom s : connected s → versions_ok dom s → DMT.wf d → DMT.serialized_size d < 2 ^ 32 → type_name type →
  ∃ s' vs, storeDmt d type dom s = Ret (s', true) ∧ connected s' ∧
    contents s' = <[dmt_key dom type := RString (fmt_ld (i64 (DMT.version d)))]>
      (<[dmt_key dom (fmt_ld (i64 (DMT.version d))) := RString (Redis.encodeHex (DMT.enc d))]> (<[dmts_key dom := RSet vs]> (contents s))).
Proof.
  intros Hc Hv Hwf Hsz Ht. set (ver := fmt_ld (i64 (DMT.version d))).
  destruct (sadd_law (dmts_key dom) ver s Hc) as (s1 & r & E1 & Hc1 & Hr).
  assert (∃ vs n, r = REDIS_REPLY_INTEGER n ∧ contents s1 = <[dmts_key dom := RSet vs]> (contents s)) as (vs & n & -> & Hs1).
  { destruct (contents s !! dmts_key dom) as [[v|m]|] eqn:Ek; [by destruct (Hv v)|destruct Hr as [-> ->]; eauto..]. }
  destruct (set_law (dmt_key dom ver) (Redis.encodeHex (DMT.enc d)) s1 Hc1) as (s2 & E2 & Hc2 & Hs2).
  destruct (set_law (dmt_key dom type) ver s2 Hc2) as (s3 & E3 & Hc3 & Hs3). exists s3, vs. split; [|split; [done|by rewrite Hs3, Hs2, Hs1]].
  unfold storeDmt, try_, sendCommand, mbind, M_bind, throws, lift. fold ver. change (DMT.getVersion d) with (DMT.version d). fold ver.
  rewrite E1. simpl. destruct (DMT.serialized_loads d d Hwf Hsz) as [-> _]. simpl. rewrite E2. simpl.
  destruct Ht as (c & l & -> & _). simpl. rewrite E3. done.
Qed.

Lemma getDmt_ok torn d d0 dom s : connected s → DMT.wf d → DMT.serialized_size d < 2 ^ 32 →
  contents s !! dmt_key dom (fmt_ld (i64 (DMT.version d))) = Some (RString (Redis.encodeHex (DMT.enc d))) →
  ∃ s', getDmt torn d0 (DMT.version d) dom s = Ret (s', (DMT.Make
    (FDS_Table.Make (DMT.depth d) (DMT.width d) (DMT.columns d) (DMT.version d)
      (FDS_Table.outstanding_io (DMT.base d0)) (FDS_Table.cb (DMT.base d0))) (DMT.dmt_table d), true)) ∧ connected s' ∧ contents s' = contents s.
Proof.
  intros Hc Hwf Hsz Hk. destruct (get_law (dmt_key dom (fmt_ld (i64 (DMT.version d)))) s Hc) as (s' & E & Hc' & Hs'). rewrite Hk in E.
  exists s'. split; [|done]. unfold getDmt, try_, sendCommand, mbind, M_bind, throws, lift. rewrite E. simpl.
  pose proof (enc_length d). rewrite decide_False by (rewrite Redis.length_encodeHex; lia). rewrite Redis.decodeHex_encodeHex by apply enc_bytes.
  destruct (DMT.serialized_loads d d0 Hwf Hsz) as [_ ->]. done.
Qed.

(** A DMT survives the configuration database: on a connection that works
    storing a well-formed table under a type succeeds, and afterwards its
    version is the version of that type and the table read for the version is
    the one stored; tables of other versions and other types are as they
    were. *)
Theorem stored_dmt_loads torn (d d0 : DMT.t) (type : list Z) (dom : Z) (s : rstore) :
  connected s → versions_ok dom s → DMT.wf d → DMT.serialized_size d < 2 ^ 32 → type_name type →
  ∃ s', storeDmt d type dom s = Ret (s', true) ∧ connected s' ∧
    (∃ s2, getDmtVersionForType type dom s' = Ret (s2, DMT.version d)) ∧
    (∃ s2 d', getDmt torn d0 (DMT.version d) dom s' = Ret (s2, (d', true)) ∧ DMT.dmt_table d' = DMT.dmt_table d ∧
      DMT.version d' = DMT.version d ∧ DMT.depth d' = DMT.depth d ∧ DMT.columns d' = DMT.columns d) ∧
    (∀ v, 0 ≤ v ≤ uint64_max → v ≠ DMT.version d → contents s' !! dmt_key dom (fmt_ld (i64 v)) = contents s !! dmt_key dom (fmt_ld (i64 v))) ∧
    (∀ type', type_name type' → type' ≠ type → contents s' !! dmt_key dom type' = contents s !! dmt_key dom type').
Proof.
  intros Hc Hv Hwf Hsz Ht. destruct (storeDmt_ok d type dom s Hc Hv Hwf Hsz Ht) as (s' & vs & E & Hc' & Hs'). exists s'.
  assert (0 ≤ DMT.version d ≤ uint64_max) as Hver by apply Hwf. split; [done|]. split; [done|]. split; [|split; [|split]].
  - destruct (getDmtVersionForType_ok type dom s' Hc') as (s2 & _ & _ & E2). exists s2. rewrite E2, Hs', lookup_insert_eq.
    by rewrite atoll_fmt, u64_i64_small by (done || apply i64_range).
  - destruct (getDmt_ok torn d d0 dom s') as (s2 & E2 & _); [done..| |by eexists s2, _; split; [exact E2|]].
    rewrite Hs', lookup_insert_ne, lookup_insert_eq; [done|]. rewrite dmt_key_inj. intros Heq. by apply (version_not_type (i64 (DMT.version d)) type Ht).
  - intros v Hv' Hne. rewrite Hs', !lookup_insert_ne; [done|by apply dmts_not_dmt| |].
    + rewrite dmt_key_inj. intros Heq%fmt_inj; [|apply i64_range..]. apply Hne. by rewrite <-(u64_i64_small v), <-(u64_i64_small (DMT.version d)), Heq by done.
    + rewrite dmt_key_inj. intros Heq. by apply (version_not_type (i64 v) type Ht).
  - intros type' Ht' Hne. rewrite Hs', !lookup_insert_ne; [done|by apply dmts_not_dmt| |by rewrite dmt_key_inj].
    rewrite dmt_key_inj. apply (version_not_type _ _ Ht').
Qed.
End Laws.

(** ** A server that keeps its contents *)
#[export] Instance map_server : RedisServer := {
  rstore := gmap (list Z) rvalue;
  redisCommand words s :=
    match words with
    | [c; k] => if decide (c = GET) then
        (s, Some match s !! k with
                 | Some (RString v) => REDIS_REPLY_STRING v
                 | Some (RSet _) => REDIS_REPLY_ERROR (ascii_bytes "WRONGTYPE")
                 | None => REDIS_REPLY_NIL
                 end) else (s, None)
    | [c; k; v] =>
        if decide (c = SET) then (<[k := RString v]> s, Some (REDIS_REPLY_STATUS (ascii_bytes "OK")))
        else if decide (c = SADD) then
          match s !! k with
          | Some (RString _) => (s, Some (REDIS_REPLY_ERROR (ascii_bytes "WRONGTYPE")))
          | Some (RSet m) => (<[k := RSet ({[v]} ∪ m)]> s, Some (REDIS_REPLY_INTEGER (if decide (v ∈ m) then 0 else 1)))
          | None => (<[k := RSet {[v]}]> s, Some (REDIS_REPLY_INTEGER 1))
          end
        else (s, None)
    | _ => (s, None)
    end;
}.

#[export] Instance map_server_laws : RedisLaws map_server.
Proof.
  refine (Build_RedisLaws map_server (λ _, True) (λ s, s) _ _ _).
  - intros k s _. by exists s.
  - intros k v s _. by eexists.
  - intros k v s _. cbn [rstore map_server] in s. cbn [redisCommand rstore map_server]. rewrite (decide_False (P := SADD = SET)), (decide_True (P := SADD = SADD)) by done.
    destruct (s !! k) as [[?|m]|]; eexists _, _; (split; [reflexivity|done]).
Defined.

#[export] Instance binary_protocol_bytes : TProtocolBytes binary_protocol.
Proof.
  assert (∀ n v, Forall Redis.byte (be_bytes n v)) as Hb.
  { intros n v. induction n as [|n IH]; simpl; constructor; [|done]. apply Z.mod_pos_bound. lia. }
  split; [intros v; apply Hb..|done].
Qed.

Lemma stored_dmt_loads_witness : let d := DMT.Make (FDS_Table.make 1 2 5) [[11; 12]; [12; 13]] in
  ∃ s', storeDmt (R := map_server) d (ascii_bytes "target") 0 ((∅ : gmap (list Z) rvalue) : @rstore map_server) = Ret (s', true) ∧
    ∃ s2, getDmtVersionForType (ascii_bytes "target") 0 s' = Ret (s2, 5).
Proof.
  intros d. destruct (stored_dmt_loads (R := map_server) (λ _, d) d d (ascii_bytes "target") 0 ((∅ : gmap (list Z) rvalue) : @rstore map_server)) as (s' & E & _ & Hv & _).
  - done.
  - done.
  - split_and!; [apply FDS_Table.make_well_shaped; unfold uint64_max; lia|done|]. repeat constructor; unfold DMT.u64_range, uint64_max; lia.
  - done.
  - eexists _, _. split; [vm_compute; reflexivity|lia].
  - by exists s'.
Defined.

End ConfigDB.
