(* ===== verification/ClusterMap.v ===== *)
(** * The cluster map

    Models [ClusterMap] of the OM (src/source/orch-mgr/om-dlt/OmClusMap.cpp,
    orch-mgr/include/OmClusterMap.h): the SM and DM services that are members
    of the domain and those that were added, removed or restarted since the
    tables were last committed.  The state of a service belongs to its agent,
    which others change, so it is a function given at each call.  The members
    are hash maps; what is computed from them here does not depend on their
    order. *)

From S2P Require Import Prelude.
Open Scope Z_scope.

Module ClusterMap.

Inductive FDSP_MgrIdType :=
| FDSP_PLATFORM | FDSP_STOR_MGR | FDSP_DATA_MGR | FDSP_ACCESS_MGR | FDSP_ORCH_MGR | FDSP_CLI_MGR | FDSP_OMCLIENT_MGR
| FDSP_MIGRATION_MGR | FDSP_PLATFORM_SVC | FDSP_CHECKER_TYPE | FDSP_TEST_APP | FDSP_CONSOLE | FDSP_INVALID_SVC.

Inductive FDSP_NodeState :=
| FDS_Node_Up | FDS_Node_Down | FDS_Node_Rmvd | FDS_Node_Discovered | FDS_Start_Migration | FDS_Node_Standby.

#[export] Instance FDSP_NodeState_eq_dec : EqDecision FDSP_NodeState.
Proof. solve_decision. Defined.

(** An agent: its address and the uuid of its service *)
Record NodeAgent := Agent { na_addr : Z; get_uuid : Z }.

Record t := Make {
  curSmMap : gmap Z NodeAgent;
  curDmMap : gmap Z NodeAgent;
  addedSMs : gset Z;
  removedSMs : gset Z;
  addedDMs : gset Z;
  removedDMs : gset Z;
  resyncDMs : gset Z;
  version : Z;
}.

Definition make : t := Make ∅ ∅ ∅ ∅ ∅ ∅ ∅ 0.

Definition with_sm (m : gmap Z NodeAgent) (added removed : gset Z) (c : t) : t :=
  Make m (curDmMap c) added removed (addedDMs c) (removedDMs c) (resyncDMs c) (version c).
Definition with_dm (m : gmap Z NodeAgent) (added removed resync : gset Z) (c : t) : t :=
  Make (curSmMap c) m (addedSMs c) (removedSMs c) added removed resync (version c).

(** The members of a type; [fds_panic] for any other type *)
Definition members (svc_type : FDSP_MgrIdType) (c : t) : res (gmap Z NodeAgent) :=
  match svc_type with
  | FDSP_STOR_MGR => Ret (curSmMap c)
  | FDSP_DATA_MGR => Ret (curDmMap c)
  | _ => Fault VerifyFailed
  end.

Definition agents (m : gmap Z NodeAgent) : list NodeAgent := (map_to_list m).*2.

Definition getNumMembers (svc_type : FDSP_MgrIdType) (c : t) : res Z :=
  m ← members svc_type c; Ret (u32 (Z.of_nat (size m))).

Section States.
Variable node_state : NodeAgent → FDSP_NodeState.

Definition up (a : NodeAgent) : bool := bool_decide (node_state a = FDS_Node_Up ∨ node_state a = FDS_Node_Discovered).

Definition getNumNonfailedMembers (svc_type : FDSP_MgrIdType) (c : t) : res Z :=
  m ← members svc_type c; Ret (foldl (λ count a, if up a then u32 (count + 1) else count) 0 (agents m)).

Definition getNonfailedServices (fIgnoreFailedSvcs : bool) (svc_type : FDSP_MgrIdType) (c : t) : res (gset Z) :=
  m ← members svc_type c;
  Ret (foldl (λ s a, if up a then {[get_uuid a]} ∪ s else if fIgnoreFailedSvcs then {[get_uuid a]} ∪ s else s) ∅ (agents m)).

Definition getFailedServices (svc_type : FDSP_MgrIdType) (c : t) : res (gset Z) :=
  m ← members svc_type c; Ret (foldl (λ s a, if up a then s else {[get_uuid a]} ∪ s) ∅ (agents m)).

End States.

Definition getTotalStorWeight (node_stor_weight : NodeAgent → Z) (c : t) : Z :=
  foldl (λ total_weight a, u64 (total_weight + node_stor_weight a)) 0 (agents (curSmMap c)).

Definition getServiceUuids (svc_type : FDSP_MgrIdType) (c : t) : res (gset Z) :=
  m ← members svc_type c; Ret (foldl (λ s a, {[get_uuid a]} ∪ s) ∅ (agents m)).

Definition resetPendServices (svc_type : FDSP_MgrIdType) (c : t) : res t :=
  match svc_type with
  | FDSP_STOR_MGR => Ret (with_sm (curSmMap c) ∅ ∅ c)
  | FDSP_DATA_MGR => Ret (with_dm (curDmMap c) ∅ ∅ ∅ c)
  | _ => Fault VerifyFailed
  end.

(** ** Changes of the members *)
Definition remove_one (svc_type : FDSP_MgrIdType) (c : t) (a : NodeAgent) : t :=
  let uuid := get_uuid a in
  match svc_type with
  | FDSP_STOR_MGR => with_sm (delete uuid (curSmMap c)) (addedSMs c) ({[uuid]} ∪ removedSMs c) c
  | _ => with_dm (delete uuid (curDmMap c)) (addedDMs c) ({[uuid]} ∪ removedDMs c) (resyncDMs c) c
  end.

Definition add_one (svc_type : FDSP_MgrIdType) (c : t) (a : NodeAgent) : t :=
  let uuid := get_uuid a in
  match svc_type with
  | FDSP_STOR_MGR => with_sm (<[uuid := a]> (curSmMap c)) ({[uuid]} ∪ addedSMs c) (removedSMs c) c
  | _ => with_dm (<[uuid := a]> (curDmMap c)) ({[uuid]} ∪ addedDMs c) (removedDMs c) (resyncDMs c) c
  end.

Definition resync_one (svc_type : FDSP_MgrIdType) (c : t) (a : NodeAgent) : t :=
  let uuid := get_uuid a in
  match svc_type with
  | FDSP_STOR_MGR => c
  | _ => with_dm (<[uuid := a]> (curDmMap c)) (addedDMs c) (removedDMs c) ({[uuid]} ∪ resyncDMs c) c
  end.

Definition updateMap (svc_type : FDSP_MgrIdType) (addNodes rmNodes dmResyncNodes : list NodeAgent) (c : t) : res (t * fds_errno) :=
  _ ← members svc_type c;
  let c := foldl (remove_one svc_type) c rmNodes in
  let c := foldl (add_one svc_type) c addNodes in
  let c := foldl (resync_one svc_type) c dmResyncNodes in
  Ret (Make (curSmMap c) (curDmMap c) (addedSMs c) (removedSMs c) (addedDMs c) (removedDMs c) (resyncDMs c) (u64 (version c + 1)), ERR_OK).

(** The overload without services to resynchronise *)
Definition updateMap_3 (svc_type : FDSP_MgrIdType) (addNodes rmNodes : list NodeAgent) (c : t) : res (t * fds_errno) :=
  updateMap svc_type addNodes rmNodes [] c.

Definition addSvcPendingRemoval (svc_type : FDSP_MgrIdType) (rm_uuid : Z) (c : t) : res t :=
  match svc_type with
  | FDSP_STOR_MGR =>
      _ ← fds_verify (bool_decide (curSmMap c !! rm_uuid = None));
      Ret (if decide (rm_uuid ∈ removedSMs c) then c else with_sm (curSmMap c) (addedSMs c) ({[rm_uuid]} ∪ removedSMs c) c)
  | FDSP_DATA_MGR =>
      _ ← fds_verify (bool_decide (curDmMap c !! rm_uuid = None));
      Ret (if decide (rm_uuid ∈ removedDMs c) then c
           else with_dm (curDmMap c) (addedDMs c) ({[rm_uuid]} ∪ removedDMs c) (resyncDMs c) c)
  | _ => Fault VerifyFailed
  end.

Definition rmAddedSvcFromAllMaps (svc_type : FDSP_MgrIdType) (svc_uuid : Z) (c : t) : res t :=
  match svc_type with
  | FDSP_STOR_MGR =>
      Ret (if decide (svc_uuid ∈ addedSMs c ∧ curSmMap c !! svc_uuid ≠ None)
           then with_sm (delete svc_uuid (curSmMap c)) (addedSMs c ∖ {[svc_uuid]}) (removedSMs c) c else c)
  | FDSP_DATA_MGR =>
      Ret (if decide ((svc_uuid ∈ addedSMs c ∨ svc_uuid ∈ resyncDMs c) ∧ curDmMap c !! svc_uuid ≠ None)
           then with_dm (delete svc_uuid (curDmMap c)) (addedDMs c) (removedDMs c) (resyncDMs c ∖ {[svc_uuid]})
                  (with_sm (curSmMap c) (addedSMs c ∖ {[svc_uuid]}) (removedSMs c) c) else c)
  | _ => Fault VerifyFailed
  end.

Definition rmSvcPendingRemoval (svc_type : FDSP_MgrIdType) (svc_uuid : Z) (c : t) : res t :=
  match svc_type with
  | FDSP_STOR_MGR => Ret (with_sm (curSmMap c) (addedSMs c) (removedSMs c ∖ {[svc_uuid]}) c)
  | FDSP_DATA_MGR => Ret (with_dm (curDmMap c) (addedDMs c) (removedDMs c ∖ {[svc_uuid]}) (resyncDMs c) c)
  | _ => Fault VerifyFailed
  end.

Definition rmSvcPendingAdd (svc_type : FDSP_MgrIdType) (svc_uuid : Z) (c : t) : res t :=
  match svc_type with
  | FDSP_STOR_MGR => Ret (with_sm (curSmMap c) (addedSMs c ∖ {[svc_uuid]}) (removedSMs c) c)
  | FDSP_DATA_MGR => Ret (with_dm (curDmMap c) (addedDMs c ∖ {[svc_uuid]}) (removedDMs c) (resyncDMs c) c)
  | _ => Fault VerifyFailed
  end.

Definition getAddedServices (svc_type : FDSP_MgrIdType) (c : t) : res (gset Z) :=
  match svc_type with FDSP_STOR_MGR => Ret (addedSMs c) | FDSP_DATA_MGR => Ret (addedDMs c) | _ => Fault VerifyFailed end.

Definition getRemovedServices (svc_type : FDSP_MgrIdType) (c : t) : res (gset Z) :=
  match svc_type with FDSP_STOR_MGR => Ret (removedSMs c) | FDSP_DATA_MGR => Ret (removedDMs c) | _ => Fault VerifyFailed end.

Definition getDmResyncServices (c : t) : gset Z := resyncDMs c.

Definition serviceAddExists (svc_type : FDSP_MgrIdType) (svc_uuid : Z) (c : t) : bool :=
  match svc_type with
  | FDSP_STOR_MGR => bool_decide (svc_uuid ∈ addedSMs c)
  | FDSP_DATA_MGR => bool_decide (svc_uuid ∈ addedDMs c)
  | _ => false
  end.

(** ** Members and their states *)
(** Every agent is stored under its uuid. *)
Definition keyed (m : gmap Z NodeAgent) : Prop := ∀ k a, m !! k = Some a → get_uuid a = k.

Lemma elem_agents m a : keyed m → a ∈ agents m ↔ m !! get_uuid a = Some a.
Proof.
  intros Hk. unfold agents. rewrite list_elem_of_fmap. split.
  - intros ([k a'] & -> & Hin). apply elem_of_map_to_list in Hin. simpl. by rewrite (Hk k a').
  - intros Ha. exists (get_uuid a, a). split; [done|]. by apply elem_of_map_to_list.
Qed.

Lemma foldl_uuids (f : NodeAgent → bool) (l : list NodeAgent) (s : gset Z) u :
  u ∈ foldl (λ s a, if f a then {[get_uuid a]} ∪ s else s) s l ↔ u ∈ s ∨ ∃ a, a ∈ l ∧ f a = true ∧ get_uuid a = u.
Proof.
  revert s. induction l as [|a l IH]; intros s; simpl; [set_solver|]. rewrite IH. destruct (f a) eqn:E; [set_solver|].
  split; [set_solver|]. intros [?|(b & Hb & Hf & ?)]; [by left|]. apply elem_of_cons in Hb as [->|]; [congruence|set_solver].
Qed.

Lemma uuids_of_members m (f : NodeAgent → bool) u : keyed m →
  u ∈ foldl (λ s a, if f a then {[get_uuid a]} ∪ s else s) (∅ : gset Z) (agents m) ↔ ∃ a, m !! u = Some a ∧ f a = true.
Proof.
  intros Hk. rewrite foldl_uuids. split.
  - intros [?|(a & Ha & Hf & <-)]; [set_solver|]. exists a. split; [|done]. by apply elem_agents.
  - intros (a & Ha & Hf). right. exists a. rewrite elem_agents by done. by rewrite (Hk u a Ha).
Qed.

Lemma getServiceUuids_dom c : keyed (curDmMap c) → getServiceUuids FDSP_DATA_MGR c = Ret (dom (curDmMap c)).
Proof.
  intros Hk. unfold getServiceUuids. simpl. f_equal. apply set_eq. intros u.
  rewrite (uuids_of_members (curDmMap c) (λ _, true) u Hk), elem_of_dom. unfold is_Some. naive_solver.
Qed.

(** A member counts as not failed when it is up or failures are ignored. *)
Lemma getNonfailedServices_elem node_state ignore c : keyed (curDmMap c) →
  ∃ s, getNonfailedServices node_state ignore FDSP_DATA_MGR c = Ret s ∧
    ∀ u, u ∈ s ↔ ∃ a, curDmMap c !! u = Some a ∧ (up node_state a || ignore = true).
Proof.
  intros Hk. eexists. split; [done|]. intros u. rewrite <-(uuids_of_members (curDmMap c) (λ a, up node_state a || ignore) u Hk).
  assert (∀ (l : list NodeAgent) (s : gset Z),
    foldl (λ s a, if up node_state a then {[get_uuid a]} ∪ s else if ignore then {[get_uuid a]} ∪ s else s) s l =
    foldl (λ s a, if up node_state a || ignore then {[get_uuid a]} ∪ s else s) s l) as E; [|by rewrite E].
  intros l. induction l as [|a l IH]; intros s; [done|]. simpl. rewrite IH. by destruct (up node_state a), ignore.
Qed.

(** ** Changes of the domain *)
Definition uuids (l : list NodeAgent) : gset Z := list_to_set (get_uuid <$> l).

(** What a change of the data managers leaves alone *)
Definition same_rest (c c' : t) : Prop := curSmMap c' = curSmMap c ∧ addedSMs c' = addedSMs c ∧ removedSMs c' = removedSMs c ∧ version c' = version c.

Lemma remove_all (l : list NodeAgent) c : keyed (curDmMap c) → let c' := foldl (remove_one FDSP_DATA_MGR) c l in
  keyed (curDmMap c') ∧ (∀ u, curDmMap c' !! u = if decide (u ∈ uuids l) then None else curDmMap c !! u) ∧ addedDMs c' = addedDMs c ∧
  removedDMs c' = uuids l ∪ removedDMs c ∧ resyncDMs c' = resyncDMs c ∧ same_rest c c'.
Proof.
  unfold uuids, same_rest. revert c. induction l as [|a l IH]; intros c Hk; cbv zeta; [split_and!; try done; simpl; by rewrite (left_id_L ∅ (∪))|].
  change (foldl _ c (a :: l)) with (foldl (remove_one FDSP_DATA_MGR) (remove_one FDSP_DATA_MGR c a) l).
  destruct (IH (remove_one FDSP_DATA_MGR c a)) as (Hk' & Hm & -> & -> & -> & -> & -> & -> & ->).
  { intros k b. simpl. rewrite lookup_delete_Some. intros [_ ?]. by apply Hk. }
  simpl. split_and!; [done| |done|set_solver|done..]. intros u. rewrite Hm. simpl. destruct (decide (u = get_uuid a)) as [->|Hne].
  - rewrite lookup_delete_eq, (decide_True (P := get_uuid a ∈ {[get_uuid a]} ∪ _)) by set_solver. by case_decide.
  - rewrite lookup_delete_ne by done. apply decide_ext. set_solver.
Qed.

Lemma add_all (resync : bool) (l : list NodeAgent) c : keyed (curDmMap c) →
  let c' := foldl (if resync then resync_one FDSP_DATA_MGR else add_one FDSP_DATA_MGR) c l in
  keyed (curDmMap c') ∧ (∀ u, u ∉ uuids l → curDmMap c' !! u = curDmMap c !! u) ∧ (∀ u, u ∈ uuids l → ∃ a, a ∈ l ∧ curDmMap c' !! u = Some a) ∧
  addedDMs c' = (if resync then addedDMs c else uuids l ∪ addedDMs c) ∧ removedDMs c' = removedDMs c ∧
  resyncDMs c' = (if resync then uuids l ∪ resyncDMs c else resyncDMs c) ∧ same_rest c c'.
Proof.
  unfold uuids, same_rest. revert c. induction l as [|a l IH]; intros c Hk; cbv zeta.
  { destruct resync; (split_and!; [done|done|intros u Hu; by apply not_elem_of_empty in Hu|by simpl; rewrite ?(left_id_L ∅ (∪))..]). }
  set (c1 := if resync then resync_one FDSP_DATA_MGR c a else add_one FDSP_DATA_MGR c a).
  assert (curDmMap c1 = <[get_uuid a := a]> (curDmMap c)) as Hm1 by (by unfold c1; destruct resync).
  destruct (IH c1) as (Hk' & Hout & Hin & Ha & Hr & Hs & E1 & E2 & E3 & E4).
  { rewrite Hm1. intros k b [[<- <-]|[_ ?]]%lookup_insert_Some; [done|by apply Hk]. }
  replace (foldl _ c (a :: l)) with (foldl (if resync then resync_one FDSP_DATA_MGR else add_one FDSP_DATA_MGR) c1 l) by (by unfold c1; destruct resync).
  rewrite Ha, Hr, Hs, E1, E2, E3, E4. change (list_to_set (get_uuid <$> a :: l)) with ({[get_uuid a]} ∪ uuids l).
  split_and!; [done| | |by unfold c1; destruct resync; simpl; unfold uuids; rewrite ?(assoc_L (∪)), ?(comm_L (∪) {[get_uuid a]})..].
  - intros u [Hu1 Hu2]%not_elem_of_union. rewrite not_elem_of_singleton in Hu1. by rewrite Hout, Hm1, lookup_insert_ne.
  - intros u Hu. destruct (decide (u ∈ uuids l)) as [Hl|Hl]; [destruct (Hin u Hl) as (b & ? & ?); exists b; split; [by right|done]|].
    rewrite Hout, Hm1 by done. exists a. assert (u = get_uuid a) as -> by (clear -Hu Hl; unfold uuids in Hl; set_solver). rewrite lookup_insert_eq. split; [by left|done].
Qed.

(** An update of the map with data managers: every data manager is stored
    under its uuid afterwards, a uuid that is not named keeps its agent, a uuid
    that is added or to be resynchronised has an agent of these lists even if
    it is removed in the same update, and any other removed uuid is gone. The
    pending sets grow by the uuids named, the storage managers stay as they
    are and the version grows by one. *)
Theorem update_map (c : t) (adds removes resyncs : list NodeAgent) : keyed (curDmMap c) →
  ∃ c', updateMap FDSP_DATA_MGR adds removes resyncs c = Ret (c', ERR_OK) ∧ keyed (curDmMap c') ∧
    (∀ u, u ∈ uuids adds ∪ uuids resyncs → ∃ a, a ∈ adds ++ resyncs ∧ curDmMap c' !! u = Some a) ∧
    (∀ u, u ∉ uuids adds ∪ uuids resyncs → curDmMap c' !! u = if decide (u ∈ uuids removes) then None else curDmMap c !! u) ∧
    addedDMs c' = uuids adds ∪ addedDMs c ∧ removedDMs c' = uuids removes ∪ removedDMs c ∧ resyncDMs c' = uuids resyncs ∪ resyncDMs c ∧
    curSmMap c' = curSmMap c ∧ addedSMs c' = addedSMs c ∧ removedSMs c' = removedSMs c ∧ version c' = u64 (version c + 1).
Proof.
  intros Hk. unfold updateMap. change (members FDSP_DATA_MGR c) with (Ret (curDmMap c)). rewrite bind_Ret. eexists. split; [done|]. simpl.
  destruct (remove_all removes c Hk) as (Hk1 & Hm1 & A1 & R1 & S1 & F1 & F2 & F3 & F4). set (c1 := foldl (remove_one FDSP_DATA_MGR) c removes) in *.
  destruct (add_all false adds c1 Hk1) as (Hk2 & Hout2 & Hin2 & A2 & R2 & S2 & G1 & G2 & G3 & G4). set (c2 := foldl (add_one FDSP_DATA_MGR) c1 adds) in *.
  destruct (add_all true resyncs c2 Hk2) as (Hk3 & Hout3 & Hin3 & A3 & R3 & S3 & I1 & I2 & I3 & I4).
  set (c3 := foldl (resync_one FDSP_DATA_MGR) c2 resyncs) in *. split; [exact Hk3|]. split; [|split; [|split_and!; congruence]].
  - intros u Hu. destruct (decide (u ∈ uuids resyncs)) as [Hr|Hr].
    + destruct (Hin3 u Hr) as (a & ? & ?). exists a. split; [apply elem_of_app; by right|done].
    + destruct (Hin2 u) as (a & ? & ?); [by apply elem_of_union in Hu as [?|?]|]. exists a. rewrite Hout3 by done. split; [apply elem_of_app; by left|done].
  - intros u [? ?]%not_elem_of_union. rewrite Hout3, Hout2 by done. apply Hm1.
Qed.

Lemma update_map_witness : ∃ c', updateMap FDSP_DATA_MGR [Agent 3 3] [Agent 1 1] [] (Make ∅ {[1 := Agent 1 1; 2 := Agent 2 2]} ∅ ∅ ∅ ∅ ∅ 7) = Ret (c', ERR_OK) ∧
  curDmMap c' !! 1 = None.
Proof.
  destruct (update_map (Make ∅ {[1 := Agent 1 1; 2 := Agent 2 2]} ∅ ∅ ∅ ∅ ∅ 7) [Agent 3 3] [Agent 1 1] []) as (c' & E & _ & _ & Hm & _).
  - change (map_Forall (λ k a, get_uuid a = k) ({[1 := Agent 1 1; 2 := Agent 2 2]} : gmap Z NodeAgent)). by apply (bool_decide_unpack _); vm_compute.
  - exists c'. split; [exact E|]. rewrite Hm; [done|]. by apply (bool_decide_unpack _); vm_compute.
Defined.

(** A data manager that is only pending to be added is not taken back:
    the operation that removes an added service from all maps looks for it
    among the storage managers that are added, and leaves the map as it is. *)
Theorem added_dm_stays (c : t) (u : Z) : u ∈ addedDMs c → u ∉ addedSMs c → u ∉ resyncDMs c →
  rmAddedSvcFromAllMaps FDSP_DATA_MGR u c = Ret c.
Proof. intros _ H1 H2. simpl. by rewrite decide_False by naive_solver. Qed.

Lemma added_dm_stays_witness : rmAddedSvcFromAllMaps FDSP_DATA_MGR 3 (Make ∅ {[3 := Agent 3 3]} ∅ ∅ {[3]} ∅ ∅ 1) =
  Ret (Make ∅ {[3 := Agent 3 3]} ∅ ∅ {[3]} ∅ ∅ 1).
Proof. apply added_dm_stays; by apply (bool_decide_unpack _); vm_compute. Defined.

End ClusterMap.
