(* ===== verification/OmExtUtil.v ===== *)
(** * Status of services and pending removals

    The class [OmExtUtilApi] (src/source/lib/misc/OmExtUtilApi.cpp): the changes
    of the status of a service that are allowed, which updates of a service are
    taken over, the services that are to be removed, and what has to be aborted
    after a restart of the OM. *)

From S2P Require Import Prelude ClusterMap.
Open Scope Z_scope.

Module OmExtUtilApi.

Import ClusterMap.

Inductive ServiceStatus :=
| SVC_STATUS_INVALID | SVC_STATUS_ACTIVE | SVC_STATUS_INACTIVE_STOPPED | SVC_STATUS_DISCOVERED | SVC_STATUS_STANDBY
| SVC_STATUS_ADDED | SVC_STATUS_STARTED | SVC_STATUS_STOPPING | SVC_STATUS_REMOVED | SVC_STATUS_INACTIVE_FAILED.

#[export] Instance ServiceStatus_eq_dec : EqDecision ServiceStatus.
Proof. solve_decision. Defined.

#[export] Instance FDSP_MgrIdType_eq_dec : EqDecision FDSP_MgrIdType.
Proof. solve_decision. Defined.

(** The fields of [SvcInfo] that are used *)
Record SvcInfo := Svc { svc_type : FDSP_MgrIdType; svc_status : ServiceStatus; incarnationNo : Z }.

Record t := Make {
  removedNodes : list (Z * FDSP_MgrIdType);
  sendSMMigAbortAfterRestart : bool;
  sendDMMigAbortAfterRestart : bool;
  dltTargetVersionForAbort : Z;
  dmtTargetVersionForAbort : Z;
}.

Definition make : t := Make [] false false 0 0.

(** ** Services to be removed *)
Definition isMarkedForRemoval (uuid : Z) (x : t) : bool := existsb (λ elem, bool_decide (elem.1 = uuid)) (removedNodes x).

Definition with_removed (l : list (Z * FDSP_MgrIdType)) (x : t) : t :=
  Make l (sendSMMigAbortAfterRestart x) (sendDMMigAbortAfterRestart x) (dltTargetVersionForAbort x) (dmtTargetVersionForAbort x).

Definition addToRemoveList (uuid : Z) (type : FDSP_MgrIdType) (x : t) : t :=
  if isMarkedForRemoval uuid x then x else with_removed (removedNodes x ++ [(uuid, type)]) x.

(** Erasing the first element with the uuid *)
Fixpoint erase_first (uuid : Z) (l : list (Z * FDSP_MgrIdType)) : list (Z * FDSP_MgrIdType) :=
  match l with
  | [] => []
  | mem :: l => if decide (uuid = mem.1) then l else mem :: erase_first uuid l
  end.

Definition clearFromRemoveList (uuid : Z) (x : t) : t := with_removed (erase_first uuid (removedNodes x)) x.

Definition getPendingNodeRemoves (type : FDSP_MgrIdType) (x : t) : Z :=
  foldl (λ size item, if decide (item.2 = type) then i32 (size + 1) else size) 0 (removedNodes x).

(** ** Migrations to abort after a restart *)
Definition setSMAbortParams (abort : bool) (version : Z) (x : t) : t :=
  Make (removedNodes x) abort (sendDMMigAbortAfterRestart x) version (dmtTargetVersionForAbort x).
Definition clearSMAbortParams (x : t) : t := setSMAbortParams false 0 x.
Definition setDMAbortParams (abort : bool) (version : Z) (x : t) : t :=
  Make (removedNodes x) (sendSMMigAbortAfterRestart x) abort (dltTargetVersionForAbort x) version.
Definition clearDMAbortParams (x : t) : t := setDMAbortParams false 0 x.
Definition isDMAbortAfterRestartTrue (x : t) : bool := sendDMMigAbortAfterRestart x.
Definition getDMTargetVersionForAbort (x : t) : Z := dmtTargetVersionForAbort x.

(** ** Status *)
Definition allowedStateTransitions (current : ServiceStatus) : list ServiceStatus :=
  match current with
  | SVC_STATUS_INVALID =>
      [SVC_STATUS_ACTIVE; SVC_STATUS_INACTIVE_STOPPED; SVC_STATUS_DISCOVERED; SVC_STATUS_STANDBY; SVC_STATUS_ADDED;
       SVC_STATUS_STARTED; SVC_STATUS_STOPPING; SVC_STATUS_REMOVED; SVC_STATUS_INACTIVE_FAILED]
  | SVC_STATUS_ACTIVE => [SVC_STATUS_STANDBY; SVC_STATUS_STOPPING; SVC_STATUS_INACTIVE_FAILED; SVC_STATUS_STARTED]
  | SVC_STATUS_INACTIVE_STOPPED => [SVC_STATUS_ACTIVE; SVC_STATUS_STARTED; SVC_STATUS_REMOVED; SVC_STATUS_DISCOVERED]
  | SVC_STATUS_DISCOVERED => [SVC_STATUS_ACTIVE]
  | SVC_STATUS_STANDBY => [SVC_STATUS_ACTIVE]
  | SVC_STATUS_ADDED => [SVC_STATUS_STARTED; SVC_STATUS_REMOVED]
  | SVC_STATUS_STARTED => [SVC_STATUS_ACTIVE; SVC_STATUS_STOPPING; SVC_STATUS_INACTIVE_FAILED]
  | SVC_STATUS_STOPPING => [SVC_STATUS_INACTIVE_STOPPED; SVC_STATUS_STARTED; SVC_STATUS_REMOVED; SVC_STATUS_DISCOVERED]
  | SVC_STATUS_REMOVED => [SVC_STATUS_DISCOVERED]
  | SVC_STATUS_INACTIVE_FAILED => [SVC_STATUS_ACTIVE; SVC_STATUS_STOPPING; SVC_STATUS_STARTED]
  end.

Definition isTransitionAllowed (incoming current : ServiceStatus) (sameIncNo greaterIncNo zeroIncNo : bool)
    (type : FDSP_MgrIdType) (pingUpdate : bool) : bool :=
  if decide (incoming = current) then zeroIncNo || greaterIncNo
  else if decide (incoming = SVC_STATUS_ACTIVE ∧ current = SVC_STATUS_INACTIVE_FAILED) then
    if greaterIncNo then true
    else if pingUpdate then true
    else bool_decide (type = FDSP_ORCH_MGR)
  else existsb (λ s, bool_decide (s = incoming)) (allowedStateTransitions current).

Definition isIncomingUpdateValid (incomingSvcInfo currentInfo : SvcInfo) (pingUpdate : bool) : bool :=
  let incoming := incarnationNo incomingSvcInfo in
  let current := incarnationNo currentInfo in
  let '(ret, sameIncNo, greaterIncNo, zeroIncNo) :=
    if decide (incoming < current) then (false, false, false, false)
    else if decide (incoming = current ∧ svc_status incomingSvcInfo ≠ svc_status currentInfo) then (true, true, false, false)
    else if decide (incoming > current) then (true, false, true, false)
    else if decide (incoming = 0) then (true, false, false, true)
    else (false, false, false, false) in
  if ret : bool then
    isTransitionAllowed (svc_status incomingSvcInfo) (svc_status currentInfo) sameIncNo greaterIncNo zeroIncNo (svc_type incomingSvcInfo) pingUpdate
  else false.

(** ** Which updates are taken over *)
Definition edge (a b : ServiceStatus) : Prop := b ∈ allowedStateTransitions a.

Lemma edge_existsb a b : existsb (λ s, bool_decide (s = b)) (allowedStateTransitions a) = true ↔ edge a b.
Proof.
  unfold edge. rewrite existsb_exists. setoid_rewrite bool_decide_eq_true. setoid_rewrite <-list_elem_of_In. naive_solver.
Qed.

(** An update of a service is taken over exactly when its incarnation is not
    older than the recorded one and either the status is the same and the
    incarnation is newer (or both are zero), or the change of status is in the
    table; a failed service becomes active again within the same incarnation
    only by a ping or if it is the OM. *)
Theorem service_update_spec (inc cur : SvcInfo) (ping : bool) : isIncomingUpdateValid inc cur ping = true ↔
  incarnationNo cur ≤ incarnationNo inc ∧
  (if decide (svc_status inc = svc_status cur) then incarnationNo cur < incarnationNo inc ∨ incarnationNo inc = 0
   else edge (svc_status cur) (svc_status inc) ∧
     (svc_status cur = SVC_STATUS_INACTIVE_FAILED → svc_status inc = SVC_STATUS_ACTIVE →
      incarnationNo cur < incarnationNo inc ∨ ping = true ∨ svc_type inc = FDSP_ORCH_MGR)).
Proof.
  unfold isIncomingUpdateValid. cbv zeta. case_decide as Hlt; [split; [done|lia]|].
  assert (∀ g : bool, svc_status inc ≠ svc_status cur →
    isTransitionAllowed (svc_status inc) (svc_status cur) (negb g) g false (svc_type inc) ping = true ↔
    edge (svc_status cur) (svc_status inc) ∧ (svc_status cur = SVC_STATUS_INACTIVE_FAILED → svc_status inc = SVC_STATUS_ACTIVE →
      g = true ∨ ping = true ∨ svc_type inc = FDSP_ORCH_MGR)) as Hdiff.
  { intros g Hne. unfold isTransitionAllowed. rewrite decide_False by done. case_decide as Hfa.
    - destruct Hfa as [-> ->]. assert (edge SVC_STATUS_INACTIVE_FAILED SVC_STATUS_ACTIVE) by (by left).
      destruct g, ping; try naive_solver. rewrite bool_decide_eq_true. naive_solver.
    - rewrite edge_existsb. naive_solver. }
  case_decide as Hsame.
  { rewrite (decide_False (P := svc_status inc = _)) by naive_solver. rewrite (Hdiff false) by naive_solver.
    assert (¬ incarnationNo cur < incarnationNo inc) by lia. assert (incarnationNo cur ≤ incarnationNo inc) by lia. naive_solver. }
  case_decide as Hgt.
  { case_decide as Heq; [unfold isTransitionAllowed; rewrite decide_True by done; simpl; split; [lia|done]|].
    rewrite (Hdiff true) by done. assert (incarnationNo cur < incarnationNo inc) by lia. assert (incarnationNo cur ≤ incarnationNo inc) by lia. naive_solver. }
  assert (incarnationNo inc = incarnationNo cur) as E by lia. assert (svc_status inc = svc_status cur) as Es by (destruct (decide (svc_status inc = svc_status cur)); naive_solver).
  rewrite (decide_True (P := svc_status inc = _)) by done. case_decide; [|split; [done|lia]].
  unfold isTransitionAllowed. rewrite decide_True by done. simpl. split; [lia|done].
Qed.

End OmExtUtilApi.
