(* ===== verification/VolPlacementAlgo.v ===== *)
(** * Placement of volumes on data managers

    Models the algorithms that compute a DMT from the members of the domain
    (src/source/orch-mgr/om-dlt/OmVolPlacementAlgo.cpp): plain round robin, and
    the dynamic algorithm, which changes the committed table as little as it
    can.  [newDmt] is a table of its own, so tables are passed by value; a
    column that the code holds through a pointer is read again after every
    change.  Hash sets and maps are iterated in an order that is given by the
    arguments [dm_order] and [set_order]. *)

From S2P Require Import Prelude PlacementTable Dmt Double ClusterMap.
From Stdlib Require Import SpecFloat.
Open Scope Z_scope.

Import Double.

Module DmtRowBalancer.

(** [node_diff] is listed in the order of its iteration. *)
Record t := Make { my_row : Z; node_diff : list (Z * double) }.

Definition lookup_diff (uuid : Z) (l : list (Z * double)) : option double := snd <$> List.find (λ x, bool_decide (x.1 = uuid)) l.

Definition getNodeCount (node_uuid row : Z) (dmt : DMT.t) : res Z :=
  _ ← fds_verify (bool_decide (row < DMT.getDepth dmt));
  for_range (DMT.getNumColumns dmt) (λ count i,
    col ← DMT.getNodeGroup dmt i;
    x ← TableColumn.get col row;
    Ret (if decide (node_uuid = x) then u32 (count + 1) else count)) 0.

Definition getDiff (uuid : Z) (b : t) : double := default (of_Z 0) (lookup_diff uuid (node_diff b)).

(** The constructor; [order] lists the nodes as [node_diff] will have them. *)
Definition make (order : list Z) (dmt : DMT.t) (row : Z) (prev_row_balancer : option t) : res t :=
  let num_nodes := of_Z (Z.of_nat (length order)) in
  let target := div (of_Z (DMT.getNumColumns dmt)) num_nodes in
  l ← foldM (λ l uuid,
    actual ← getNodeCount uuid row dmt;
    let debt := match prev_row_balancer with Some p => getDiff uuid p | None => of_Z 0 end in
    Ret (l ++ [(uuid, add (sub target (of_Z actual)) debt)])) [] order;
  Ret (Make row l).

Definition change (f : double → double) (uuid : Z) (b : t) : t :=
  Make (my_row b) ((λ x, if decide (x.1 = uuid) then (x.1, f x.2) else x) <$> node_diff b).

Definition has (uuid : Z) (b : t) : bool := bool_decide (uuid ∈ (node_diff b).*1).

Definition transferOne (from_uuid to_uuid : Z) (b : t) : res t :=
  b ← (if decide (from_uuid ≠ 0) then
         _ ← fds_verify (has from_uuid b); Ret (change (λ x, add x (of_Z 1)) from_uuid b)
       else Ret b);
  _ ← fds_verify (has to_uuid b);
  Ret (change (λ x, sub x (of_Z 1)) to_uuid b).

(** The node that is not in [col] with the greatest difference, 0 for none,
    and the difference *)
Definition getMaxDiffNode (col : list Z) (b : t) : double * Z :=
  foldl (λ acc x, if bool_decide (TableColumn.find col x.1 < 0) && lt acc.1 x.2 then (x.2, x.1) else acc)
    (of_Z (-10000), 0) (node_diff b).

(** The first row of [js] with a node that wants more cells is exchanged. *)
Fixpoint exchange (js : list Z) (i my_row_uuid : Z) (b : t) (dmt : DMT.t) : res (t * DMT.t) :=
  match js with
  | [] => Ret (b, dmt)
  | j :: js =>
      col ← DMT.getNodeGroup dmt i;
      x ← TableColumn.get col j;
      if lt half (getDiff x b) then
        b ← transferOne my_row_uuid x b;
        dmt ← DMT.setNode i (my_row b) x dmt;
        dmt ← DMT.setNode i j my_row_uuid dmt;
        Ret (b, dmt)
      else exchange js i my_row_uuid b dmt
  end.

(** The round of column [i] in the loops of the three methods below *)
Definition within_column (max_depth : Z) (st : t * DMT.t) (i : Z) : res (t * DMT.t) :=
  let '(b, dmt) := st in
  col ← DMT.getNodeGroup dmt i;
  my_row_uuid ← TableColumn.get col (my_row b);
  if lt (getDiff my_row_uuid b) neg_half
  then exchange (seqZ (my_row b + 1) (max_depth - (my_row b + 1))) i my_row_uuid b dmt
  else Ret (b, dmt).

Definition fill_cell (st : t * DMT.t) (i : Z) : res (t * DMT.t) :=
  let '(b, dmt) := st in
  col ← DMT.getNodeGroup dmt i;
  my_row_uuid ← TableColumn.get col (my_row b);
  if bool_decide (my_row_uuid = 0) || lt (getDiff my_row_uuid b) neg_half then
    let '(diff, new_node) := getMaxDiffNode col b in
    if bool_decide (my_row_uuid ≠ 0) && le diff half then Ret (b, dmt) else
    _ ← fds_verify (bool_decide (new_node ≠ 0));
    b ← transferOne my_row_uuid new_node b;
    dmt ← DMT.setNode i (my_row b) new_node dmt;
    Ret (b, dmt)
  else Ret (b, dmt).

Definition fill_primary (st : t * DMT.t * fds_errno) (i : Z) : res (t * DMT.t * fds_errno) :=
  let '(b, dmt, err) := st in
  col ← DMT.getNodeGroup dmt i;
  my_row_uuid ← TableColumn.get col (my_row b);
  if decide (my_row_uuid = 0) then
    let '(diff, new_node) := getMaxDiffNode col b in
    if decide (new_node ≠ 0) then
      b ← transferOne my_row_uuid new_node b;
      dmt ← DMT.setNode i (my_row b) new_node dmt;
      Ret (b, dmt, err)
    else Ret (b, dmt, ERR_NOT_FOUND)
  else Ret (b, dmt, err).

Definition balanceWithinColumn (max_depth : Z) (b : t) (dmt : DMT.t) : res (t * DMT.t) :=
  _ ← fds_verify (bool_decide (my_row b < max_depth));
  for_range (DMT.getNumColumns dmt) (within_column max_depth) (b, dmt).

Definition balance (b : t) (dmt : DMT.t) : res (t * DMT.t) :=
  r ← balanceWithinColumn (DMT.getDepth dmt) b dmt;
  for_range (DMT.getNumColumns dmt) fill_cell r.

Definition balancePrimary (primDepth : Z) (b : t) (dmt : DMT.t) : res (t * DMT.t * fds_errno) :=
  r ← balanceWithinColumn primDepth b dmt;
  for_range (DMT.getNumColumns dmt) fill_primary ((r : t * DMT.t).1, r.2, ERR_OK).

End DmtRowBalancer.

(** ** Iterators that go round *)
(** [*it] of a position, and [++it] with the wrap at the end *)
Definition deref (order : list Z) (it : nat) : res Z :=
  match order !! it with Some x => Ret x | None => Fault Undefined end.

Definition next (order : list Z) (it : nat) : res nat :=
  if decide (it < length order)%nat then Ret (if decide (S it = length order) then O else S it) else Fault Undefined.

(** [n] cells of a column from row [j] on, in order from [it] *)
Fixpoint fill_round (order : list Z) (n : nat) (j : Z) (it : nat) (col : list Z) : res (list Z * nat) :=
  match n with
  | O => Ret (col, it)
  | S n =>
      uuid ← deref order it;
      col ← TableColumn.set j uuid col;
      it ← next order it;
      fill_round order n (j + 1) it col
  end.

Module RRAlgorithm.

(** [order]: the uuids of the data managers in the order of the map *)
Definition computeDMT (order : list Z) (newDmt : DMT.t) : res DMT.t :=
  let col_depth := DMT.getDepth newDmt in
  _ ← fds_verify (bool_decide (col_depth ≤ u32 (Z.of_nat (length order))));
  r ← for_range (DMT.getNumColumns newDmt) (λ '(dmt, col, start_it) i,
    r ← fill_round order (Z.to_nat col_depth) 0 start_it col;
    dmt ← DMT.setNodeGroup i (r : list Z * nat).1 dmt;
    start_it ← next order start_it;
    Ret (dmt, r.1, start_it)) (newDmt, TableColumn.make col_depth, O);
  Ret (r : DMT.t * list Z * nat).1.1.

Definition updateDMT (order : list Z) (newDmt : DMT.t) : res (DMT.t * fds_errno) :=
  dmt ← computeDMT order newDmt; Ret (dmt, ERR_OK).

End RRAlgorithm.

Module DynamicRRAlgorithm.

Section Dynamic.
Context (node_state : ClusterMap.NodeAgent → ClusterMap.FDSP_NodeState) (fIgnoreFailedSvcs : bool).
Context (curMap : ClusterMap.t).
(** The order of the data managers in the map, and of the set number [k] *)
Context (dm_order : list ClusterMap.NodeAgent) (set_order : Z → gset Z → list Z).

Abbreviation DM := ClusterMap.FDSP_DATA_MGR.

(** The data managers whose state allows a primary role; with
    [numPrimaryDMs = 0] the state does not matter. *)
Definition nonfailed_dms (numPrimaryDMs : Z) : res (gset Z) :=
  nonFailedDms ← ClusterMap.getNonfailedServices node_state fIgnoreFailedSvcs DM curMap;
  if decide (numPrimaryDMs = 0) then ClusterMap.getServiceUuids DM curMap else Ret nonFailedDms.

(** From [it] on, the first data manager that is not in the column *)
Fixpoint skip_used (fuel : nat) (order : list Z) (col : list Z) (end_it it : nat) (uuid : Z) : res (nat * Z) :=
  if decide (TableColumn.find col uuid >= 0) then
    match fuel with
    | O => Fault OutOfFuel
    | S fuel =>
        it ← next order it;
        uuid ← deref order it;
        _ ← fds_verify (bool_decide (it ≠ end_it));
        skip_used fuel order col end_it it uuid
    end
  else Ret (it, uuid).

Fixpoint fill_unused (order : list Z) (n : nat) (j : Z) (it : nat) (col : list Z) : res (list Z) :=
  match n with
  | O => Ret col
  | S n =>
      uuid ← deref order it;
      r ← skip_used (length order) order col it it uuid;
      let '(it, uuid) := r : nat * Z in
      col ← TableColumn.set j uuid col;
      it ← next order it;
      fill_unused order n (j + 1) it col
  end.

Definition nofailed_rows (numPrimaryDMs col_depth total_nodes nofailed_dms_count : Z) : Z :=
  if decide (nofailed_dms_count = total_nodes) then col_depth
  else if decide (nofailed_dms_count < numPrimaryDMs) then nofailed_dms_count else numPrimaryDMs.

Definition computeDMT (numPrimaryDMs : Z) (newDmt : DMT.t) : res DMT.t :=
  total_nodes ← ClusterMap.getNumMembers DM curMap;
  let col_depth := DMT.getDepth newDmt in
  _ ← fds_verify (bool_decide (col_depth ≤ total_nodes));
  nonFailedDms ← nonfailed_dms numPrimaryDMs;
  let nofailed_depth := nofailed_rows numPrimaryDMs col_depth total_nodes (u32 (Z.of_nat (size nonFailedDms))) in
  let nofail := set_order 0 nonFailedDms in
  let order := ClusterMap.get_uuid <$> dm_order in
  r ← for_range (DMT.getNumColumns newDmt) (λ '(dmt, nofail_start_it, start_it) i,
    r ← fill_round nofail (Z.to_nat nofailed_depth) 0 nofail_start_it (TableColumn.make col_depth);
    nofail_start_it ← (if decide (nofailed_depth > 0) then next nofail nofail_start_it else Ret nofail_start_it);
    col ← fill_unused order (Z.to_nat (col_depth - nofailed_depth)) nofailed_depth start_it (r : list Z * nat).1;
    dmt ← DMT.setNodeGroup i col dmt;
    start_it ← next order start_it;
    Ret (dmt, nofail_start_it, start_it)) (newDmt, O, O);
  Ret (r : DMT.t * nat * nat).1.1.

(** How many of the first rows of a column are removed, and failed *)
Definition count_column (primDepth : Z) (rmNodes nonFailedDms : gset Z) (col : list Z) : res (Z * Z) :=
  for_range primDepth (λ '(rmDms, failedDms) j,
    uuid ← TableColumn.get col j;
    Ret (if decide (uuid ∈ rmNodes) then (rmDms + 1, failedDms)
         else if decide (uuid ∉ nonFailedDms) then (rmDms, failedDms + 1) else (rmDms, failedDms))) (0, 0).

Definition checkUpdateValid (curDmt : DMT.t) (numPrimaryDMs : Z) (rmNodes : gset Z) : res fds_errno :=
  if decide (numPrimaryDMs ≠ 0) then
    nonFailedDms ← ClusterMap.getNonfailedServices node_state fIgnoreFailedSvcs DM curMap;
    let primDepth := if decide (numPrimaryDMs > DMT.getDepth curDmt) then DMT.getDepth curDmt else numPrimaryDMs in
    for_range (DMT.getNumColumns curDmt) (λ err i,
      if decide (err ≠ ERR_OK) then Ret err else
      col ← DMT.getNodeGroup curDmt i;
      r ← count_column primDepth rmNodes nonFailedDms col;
      let '(rmDms, failedDms) := r : Z * Z in
      Ret (if decide (rmDms >= primDepth ∨ (rmDms > 0 ∧ rmDms + failedDms >= primDepth)) then ERR_INVALID_ARG else ERR_OK)) ERR_OK
  else Ret ERR_OK.

(** ** Demotion *)
Definition count_failed (primDepth : Z) (nonFailedDms : gset Z) (col : list Z) : res Z :=
  for_range primDepth (λ failedDms j,
    uuid ← TableColumn.get col j; Ret (if decide (uuid ∉ nonFailedDms) then failedDms + 1 else failedDms)) 0.

(** The first row from [secondary_j] on whose cell is empty or has a data
    manager that has not failed *)
Fixpoint find_secondary (fuel : nat) (nonFailedDms : gset Z) (depth : Z) (col : list Z) (secondary_j nonfailedUuid : Z) : res (Z * Z) :=
  if decide (nonfailedUuid ∉ nonFailedDms ∧ nonfailedUuid ≠ 0) then
    match fuel with
    | O => Fault OutOfFuel
    | S fuel =>
        let secondary_j := secondary_j + 1 in
        if decide (secondary_j >= depth) then Ret (secondary_j, nonfailedUuid) else
        nonfailedUuid ← TableColumn.get col secondary_j;
        find_secondary fuel nonFailedDms depth col secondary_j nonfailedUuid
    end
  else Ret (secondary_j, nonfailedUuid).

(** The failed primaries of column [i] change places with secondaries. *)
Fixpoint promote (js : list Z) (i secondary_j : Z) (nonFailedDms : gset Z) (dmt : DMT.t) : res DMT.t :=
  match js with
  | [] => Ret dmt
  | j :: js =>
      col ← DMT.getNodeGroup dmt i;
      uuid ← TableColumn.get col j;
      if decide (uuid ∉ nonFailedDms) then
        nonfailedUuid ← TableColumn.get col secondary_j;
        r ← find_secondary (Z.to_nat (DMT.getDepth dmt)) nonFailedDms (DMT.getDepth dmt) col secondary_j nonfailedUuid;
        let '(secondary_j, nonfailedUuid) := r : Z * Z in
        if decide (secondary_j < DMT.getDepth dmt) then
          dmt ← DMT.setNode i secondary_j uuid dmt;
          dmt ← DMT.setNode i j nonfailedUuid dmt;
          if decide (secondary_j + 1 >= DMT.getDepth dmt) then Ret dmt
          else promote js i (secondary_j + 1) nonFailedDms dmt
        else Ret dmt
      else promote js i secondary_j nonFailedDms dmt
  end.

(** Failed primaries of column [i] are emptied while [maxCnt] lasts. *)
Fixpoint vacate (js : list Z) (i maxCnt : Z) (nonFailedDms : gset Z) (dmt : DMT.t) : res DMT.t :=
  match js with
  | [] => Ret dmt
  | j :: js =>
      if decide (maxCnt = 0) then Ret dmt else
      col ← DMT.getNodeGroup dmt i;
      uuid ← TableColumn.get col j;
      if decide (uuid ∉ nonFailedDms) then
        dmt ← DMT.setNode i j 0 dmt; vacate js i (maxCnt - 1) nonFailedDms dmt
      else vacate js i maxCnt nonFailedDms dmt
  end.

(** An empty first row of column [i] takes the first primary there is. *)
Fixpoint lead (js : list Z) (i : Z) (dmt : DMT.t) : res DMT.t :=
  match js with
  | [] => Ret dmt
  | j :: js =>
      col ← DMT.getNodeGroup dmt i;
      uuid ← TableColumn.get col j;
      if decide (uuid ≠ 0) then dmt ← DMT.setNode i 0 uuid dmt; DMT.setNode i j 0 dmt
      else lead js i dmt
  end.

Definition demote_column (primDepth : Z) (nonFailedDms : gset Z) (computeNew : bool) (dmt : DMT.t) (i : Z) : res DMT.t :=
  col ← DMT.getNodeGroup dmt i;
  failedDms ← count_failed primDepth nonFailedDms col;
  if decide (failedDms = 0) then Ret dmt else
  dmt ← promote (seqZ 0 primDepth) i primDepth nonFailedDms dmt;
  if computeNew : bool then Ret dmt else
  modifiedColumn ← DMT.getNodeGroup dmt i;
  failedCnt ← count_failed primDepth nonFailedDms modifiedColumn;
  if decide (failedCnt = primDepth) then Ret dmt else
  if decide (failedCnt = 0) then Ret dmt else
  let maxCnt := u32 (Z.of_nat (size nonFailedDms)) in
  _ ← fds_verify (bool_decide (maxCnt > 0));
  dmt ← vacate (seqZ 0 primDepth) i (maxCnt - 1) nonFailedDms dmt;
  modifiedColumn ← DMT.getNodeGroup dmt i;
  firstUuid ← TableColumn.get modifiedColumn 0;
  if decide (firstUuid = 0) then lead (seqZ 1 (primDepth - 1)) i dmt else Ret dmt.

Definition demoteFailedPrimaries (numPrimaryDMs : Z) (nonFailedDms : gset Z) (computeNew : bool) (newDmt : DMT.t) : res DMT.t :=
  if decide (numPrimaryDMs = 0) then Ret newDmt else
  if decide (numPrimaryDMs >= DMT.getDepth newDmt) then Ret newDmt else
  for_range (DMT.getNumColumns newDmt) (demote_column numPrimaryDMs nonFailedDms computeNew) newDmt.

(** ** Update *)
(** The cells of column [i] that are not removed move up. *)
Fixpoint copy_cells (js : list Z) (i new_j : Z) (rmNodes : gset Z) (curDmt newDmt : DMT.t) : res (DMT.t * Z) :=
  match js with
  | [] => Ret (newDmt, new_j)
  | j :: js =>
      col ← DMT.getNodeGroup curDmt i;
      uuid ← TableColumn.get col j;
      if decide (uuid ∉ rmNodes) then
        newDmt ← DMT.setNode i new_j uuid newDmt;
        if decide (new_j + 1 >= DMT.getDepth newDmt) then Ret (newDmt, new_j + 1)
        else copy_cells js i (new_j + 1) rmNodes curDmt newDmt
      else copy_cells js i new_j rmNodes curDmt newDmt
  end.

Definition copy_column (rmNodes : gset Z) (curDmt newDmt : DMT.t) (i : Z) : res DMT.t :=
  r ← copy_cells (seqZ 0 (DMT.getDepth curDmt)) i 0 rmNodes curDmt newDmt;
  let '(newDmt, new_j) := r : DMT.t * Z in
  foldM (λ newDmt j, DMT.setNode i j 0 newDmt) newDmt (seqZ new_j (DMT.getDepth newDmt - new_j)).

(** Row [j]; the nodes to use and the balancer of the row above are passed
    on. *)
Definition balance_row (numPrimaryDMs : Z) (addNodes : gset Z) (st : DMT.t * gset Z * DmtRowBalancer.t) (j : Z)
    : res (DMT.t * gset Z * DmtRowBalancer.t) :=
  let '(newDmt, nodes, prev_row_balancer) := st in
  j_balancer ← DmtRowBalancer.make (set_order (2 * j) nodes) newDmt j (Some prev_row_balancer);
  if decide (j < numPrimaryDMs) then
    r ← DmtRowBalancer.balancePrimary numPrimaryDMs j_balancer newDmt;
    let '(j_balancer, newDmt, balErr) := r : DmtRowBalancer.t * DMT.t * fds_errno in
    all ← ClusterMap.getServiceUuids DM curMap;
    let nodes := if decide (balErr ≠ ERR_OK ∨ j = numPrimaryDMs - 1) then all ∪ addNodes else nodes in
    if decide (balErr ≠ ERR_OK) then
      j_balancer2 ← DmtRowBalancer.make (set_order (2 * j + 1) nodes) newDmt j (Some prev_row_balancer);
      r ← DmtRowBalancer.balancePrimary numPrimaryDMs j_balancer2 newDmt;
      let '(j_balancer2, newDmt, balErr) := r : DmtRowBalancer.t * DMT.t * fds_errno in
      _ ← fds_verify (bool_decide (balErr = ERR_OK));
      Ret (newDmt, nodes, j_balancer2)
    else Ret (newDmt, nodes, j_balancer)
  else
    r ← DmtRowBalancer.balance j_balancer newDmt;
    Ret ((r : DmtRowBalancer.t * DMT.t).2, nodes, r.1).

Definition updateDMT (curDmt : DMT.t) (numPrimaryDMs : Z) (newDmt : DMT.t) : res (DMT.t * fds_errno) :=
  total_nodes ← ClusterMap.getNumMembers DM curMap;
  if decide (total_nodes < 2 ∨ DMT.getNumColumns newDmt ≠ DMT.getNumColumns curDmt) then
    dmt ← computeDMT numPrimaryDMs newDmt; Ret (dmt, ERR_OK)
  else
  rmNodes ← ClusterMap.getRemovedServices DM curMap;
  addNodes ← ClusterMap.getAddedServices DM curMap;
  err ← checkUpdateValid curDmt numPrimaryDMs rmNodes;
  if decide (err ≠ ERR_OK) then Ret (newDmt, err) else
  nonFailedDms ← nonfailed_dms numPrimaryDMs;
  newDmt ← for_range (DMT.getNumColumns newDmt) (copy_column rmNodes curDmt) newDmt;
  newDmt ← demoteFailedPrimaries numPrimaryDMs nonFailedDms false newDmt;
  let nodes := nonFailedDms in
  prim_balancer ← DmtRowBalancer.make (set_order 0 nodes) newDmt 0 None;
  r ← (if decide (addNodes ≠ ∅ ∨ rmNodes ≠ ∅) then
         let balanceDepth := if decide (numPrimaryDMs > 0 ∧ numPrimaryDMs < DMT.getDepth newDmt) then numPrimaryDMs else DMT.getDepth newDmt in
         DmtRowBalancer.balanceWithinColumn balanceDepth prim_balancer newDmt
       else Ret (prim_balancer, newDmt));
  let '(prim_balancer, newDmt) := r : DmtRowBalancer.t * DMT.t in
  r ← foldM (balance_row numPrimaryDMs addNodes) (newDmt, nodes, prim_balancer) (seqZ 1 (DMT.getDepth newDmt - 1));
  Ret ((r : DMT.t * gset Z * DmtRowBalancer.t).1.1, ERR_OK).

End Dynamic.
End DynamicRRAlgorithm.
