(* ===== verification/VolPlacementFrame.v ===== *)
(** * What the placement algorithms leave alone

    The algorithms of [VolPlacementAlgo] only change cells: whatever the domain
    is, a table they return has the shape and the version of the one they were
    given. *)

From S2P Require Import Prelude PlacementTable Dmt Double ClusterMap VolPlacementAlgo.
Open Scope Z_scope.

(** Every result of [m] has base [b] at [f]. *)
Definition keeps {A} (b : FDS_Table.t) (f : A → DMT.t) (m : res A) : Prop := ∀ a, m = Ret a → DMT.base (f a) = b.

Lemma keeps_Ret {A} b (f : A → DMT.t) a : DMT.base (f a) = b → keeps b f (Ret a).
Proof. by intros H ? [= <-]. Qed.

Lemma keeps_Fault {A} b (f : A → DMT.t) e : keeps b f (Fault e).
Proof. by intros ?. Qed.

Lemma keeps_bind {A B} b (f : B → DMT.t) (m : res A) (k : A → res B) : (∀ a, m = Ret a → keeps b f (k a)) → keeps b f (m ≫= k).
Proof. intros H x E. apply bind_Ret_inv in E as (a & Ea & Ek). by eapply H. Qed.

(** The bound computation keeps the base at [g]. *)
Lemma keeps_step {A B} b (g : A → DMT.t) (f : B → DMT.t) (m : res A) (k : A → res B) :
  keeps b g m → (∀ a, DMT.base (g a) = b → keeps b f (k a)) → keeps b f (m ≫= k).
Proof. intros Hm H. apply keeps_bind. intros a Ea. apply H. by apply Hm. Qed.

Lemma keeps_foldM {A St} b (f : St → DMT.t) (body : St → A → res St) s l :
  DMT.base (f s) = b → (∀ s x, DMT.base (f s) = b → keeps b f (body s x)) → keeps b f (foldM body s l).
Proof.
  intros Hs Hb a E. apply (foldM_inv (λ s, DMT.base (f s) = b) body s l a); [done| |done]. intros s1 x s2 _ H1 H2. by eapply Hb.
Qed.

Lemma keeps_for_range {St} b (f : St → DMT.t) (body : St → Z → res St) s n :
  DMT.base (f s) = b → (∀ s x, DMT.base (f s) = b → keeps b f (body s x)) → keeps b f (for_range n body s).
Proof. apply keeps_foldM. Qed.

Lemma keeps_setNode b i j u d : DMT.base d = b → keeps b id (DMT.setNode i j u d).
Proof. intros H. repeat (apply keeps_bind; intros). by apply keeps_Ret. Qed.

Lemma keeps_setNodeGroup b i col d : DMT.base d = b → keeps b id (DMT.setNodeGroup i col d).
Proof. intros H. repeat (apply keeps_bind; intros). by apply keeps_Ret. Qed.

Create HintDb keeps.
#[export] Hint Resolve keeps_setNode keeps_setNodeGroup keeps_Fault : keeps.

(** Computations that do not end in a table are skipped. *)
Ltac keep :=
  repeat match goal with
  | |- keeps _ _ (Ret _) => apply keeps_Ret; done
  | |- keeps _ _ (Fault _) => apply keeps_Fault
  | |- keeps _ _ (DMT.setNode _ _ _ _ ≫= _) => eapply (keeps_step _ id); [by auto with keeps|intros ? ?]
  | |- keeps _ _ (DMT.setNodeGroup _ _ _ ≫= _) => eapply (keeps_step _ id); [by auto with keeps|intros ? ?]
  | |- keeps _ _ (_ ≫= _) => apply keeps_bind; intros ? _
  | |- keeps _ _ (if ?c then _ else _) => destruct c
  | |- keeps _ _ (let '(_, _) := ?p in _) => destruct p
  | |- keeps _ _ (let _ := _ in _) => cbv zeta
  end; try (simpl in *; by auto with keeps).

(** ** The balancer of a row *)
Section Balancer.
Import DmtRowBalancer.

Lemma keeps_exchange base js i u b d : DMT.base d = base → keeps base snd (exchange js i u b d).
Proof. intros H. induction js as [|j js IH]; simpl; keep. Qed.

Lemma keeps_within base n i st : DMT.base st.2 = base → keeps base snd (within_column n st i).
Proof. destruct st as [b d]. intros H. unfold within_column. keep. by apply keeps_exchange. Qed.

Lemma keeps_fill_cell base i st : DMT.base st.2 = base → keeps base snd (fill_cell st i).
Proof. destruct st as [b d]. intros H. unfold fill_cell. keep. Qed.

Lemma keeps_fill_primary base i st : DMT.base st.1.2 = base → keeps base (λ r, r.1.2) (fill_primary st i).
Proof. destruct st as [[b d] e]. intros H. unfold fill_primary. keep. Qed.

Lemma keeps_balanceWithin base n b d : DMT.base d = base → keeps base snd (balanceWithinColumn n b d).
Proof. intros H. unfold balanceWithinColumn. keep. apply keeps_for_range; [done|]. intros. by apply keeps_within. Qed.

Lemma keeps_balance base b d : DMT.base d = base → keeps base snd (balance b d).
Proof.
  intros H. unfold balance. eapply (keeps_step _ snd); [by apply keeps_balanceWithin|]. intros r Hr. apply keeps_for_range; [done|]. intros. by apply keeps_fill_cell.
Qed.

Lemma keeps_balancePrimary base n b d : DMT.base d = base → keeps base (λ r, r.1.2) (balancePrimary n b d).
Proof.
  intros H. unfold balancePrimary. eapply (keeps_step _ snd); [by apply keeps_balanceWithin|]. intros r Hr. apply keeps_for_range; [done|]. intros. by apply keeps_fill_primary.
Qed.
End Balancer.

(** ** The algorithms *)
Lemma keeps_rr_compute order d : keeps (DMT.base d) id (RRAlgorithm.computeDMT order d).
Proof.
  unfold RRAlgorithm.computeDMT. apply keeps_bind. intros _ _. eapply (keeps_step _ (λ r, r.1.1)).
  - apply keeps_for_range; [done|]. intros [[d1 col] it] i H1. simpl in H1. keep.
  - intros [[d1 col] it] H1. by apply keeps_Ret.
Qed.

Section Dynamic.
Import DynamicRRAlgorithm.
Context (node_state : ClusterMap.NodeAgent → ClusterMap.FDSP_NodeState) (ignore : bool) (c : ClusterMap.t).
Context (dm_order : list ClusterMap.NodeAgent) (set_order : Z → gset Z → list Z).

Lemma keeps_compute n d : keeps (DMT.base d) id (computeDMT node_state ignore c dm_order set_order n d).
Proof.
  unfold computeDMT. do 3 (apply keeps_bind; intros ? _; cbv zeta). eapply (keeps_step _ (λ r, r.1.1)).
  - apply keeps_for_range; [done|]. intros [[d1 it0] it] i H1. simpl in H1. do 3 (apply keeps_bind; intros ? _). keep.
  - intros [[d1 it0] it] H1. by apply keeps_Ret.
Qed.

Lemma keeps_promote b js i j nf d : DMT.base d = b → keeps b id (promote js i j nf d).
Proof. revert j d. induction js as [|j' js IH]; intros j d H; simpl; keep. Qed.

Lemma keeps_vacate b js i n nf d : DMT.base d = b → keeps b id (vacate js i n nf d).
Proof. revert n d. induction js as [|j' js IH]; intros n d H; simpl; keep. Qed.

Lemma keeps_lead b js i d : DMT.base d = b → keeps b id (lead js i d).
Proof. intros H. induction js as [|j' js IH]; simpl; keep. Qed.

Lemma keeps_demote b n nf new d i : DMT.base d = b → keeps b id (demote_column n nf new d i).
Proof.
  intros H. unfold demote_column. do 2 (apply keeps_bind; intros ? _). destruct (decide _); [by apply keeps_Ret|].
  eapply (keeps_step _ id); [by apply keeps_promote|]. intros d1 H1. destruct new; [by apply keeps_Ret|]. do 2 (apply keeps_bind; intros ? _).
  destruct (decide _); [by apply keeps_Ret|]. destruct (decide _); [by apply keeps_Ret|]. cbv zeta. apply keeps_bind; intros ? _.
  eapply (keeps_step _ id); [by apply keeps_vacate|]. intros d2 H2. do 2 (apply keeps_bind; intros ? _).
  destruct (decide _); [by apply keeps_lead|by apply keeps_Ret].
Qed.

Lemma keeps_demote_all b n nf new d : DMT.base d = b → keeps b id (demoteFailedPrimaries n nf new d).
Proof.
  intros H. unfold demoteFailedPrimaries. destruct (decide _); [by apply keeps_Ret|]. destruct (decide _); [by apply keeps_Ret|].
  apply keeps_for_range; [done|]. intros. by apply keeps_demote.
Qed.

Lemma keeps_copy_cells b js i j rm cur d : DMT.base d = b → keeps b fst (copy_cells js i j rm cur d).
Proof. revert j d. induction js as [|j' js IH]; intros j d H; simpl; keep. Qed.

Lemma keeps_copy b rm cur d i : DMT.base d = b → keeps b id (copy_column rm cur d i).
Proof.
  intros H. unfold copy_column. eapply (keeps_step _ fst); [by apply keeps_copy_cells|]. intros [d1 j] H1. apply keeps_foldM; [done|].
  intros. by apply keeps_setNode.
Qed.

Lemma keeps_row b n adds st j : DMT.base st.1.1 = b → keeps b (λ r, r.1.1) (balance_row c set_order n adds st j).
Proof.
  destruct st as [[d nodes] bal]. intros H. unfold balance_row. apply keeps_bind. intros jb _. destruct (decide _).
  - eapply (keeps_step _ (λ r, r.1.2)); [by apply keeps_balancePrimary|]. intros [[b1 d1] e1] H1. apply keeps_bind. intros all _. cbv zeta.
    destruct (decide (e1 ≠ ERR_OK)); [|by apply keeps_Ret]. apply keeps_bind. intros jb2 _.
    eapply (keeps_step _ (λ r, r.1.2)); [by apply keeps_balancePrimary|]. intros [[b2 d2] e2] H2. keep.
  - eapply (keeps_step _ snd); [by apply keeps_balance|]. intros [b1 d1] H1. by apply keeps_Ret.
Qed.

Lemma keeps_update cur n d : keeps (DMT.base d) fst (updateDMT node_state ignore c dm_order set_order cur n d).
Proof.
  unfold updateDMT. apply keeps_bind. intros total _. destruct (decide _).
  { eapply (keeps_step _ id); [apply keeps_compute|]. intros d1 H1. by apply keeps_Ret. }
  do 3 (apply keeps_bind; intros ? _). destruct (decide _); [by apply keeps_Ret|]. apply keeps_bind; intros nf _.
  eapply (keeps_step _ id); [apply keeps_for_range; [done|]; intros; by apply keeps_copy|]. intros d1 H1.
  eapply (keeps_step _ id); [by apply keeps_demote_all|]. intros d2 H2. cbv zeta. apply keeps_bind. intros pb _.
  eapply (keeps_step _ snd); [destruct (decide _); [by apply keeps_balanceWithin|by apply keeps_Ret]|]. intros [pb3 d3] H3.
  eapply (keeps_step _ (λ r, r.1.1)); [apply keeps_foldM; [done|]; intros; by apply keeps_row|]. intros r Hr. by apply keeps_Ret.
Qed.
End Dynamic.
