(* ===== verification/VolPlacementRows.v ===== *)
(** * Balancing the rows of a volume placement

    What the row balancer of [VolPlacementAlgo] does to the columns of a table:
    it only exchanges cells of a column or puts a node into it that is not
    there yet, fills the empty cells of its row, and always finds a node for
    them, since the differences it compares stay above the value the search
    starts with. *)

From S2P Require Import Prelude PlacementTable Dmt Double ClusterMap VolPlacementAlgo.
From Stdlib Require Import SpecFloat.
Open Scope Z_scope.

Import Double.

(** ** Tables as columns *)
Definition shaped (d : DMT.t) : Prop :=
  0 ≤ DMT.columns d < 2 ^ 32 ∧ 0 ≤ DMT.depth d < 2 ^ 32 ∧ Z.of_nat (length (DMT.dmt_table d)) = DMT.columns d ∧
  Forall (λ col : list Z, Z.of_nat (length col) = DMT.depth d) (DMT.dmt_table d).

Definition put (i : nat) (col : list Z) (d : DMT.t) : DMT.t := DMT.set_table (<[i := col]> (DMT.dmt_table d)) d.

Implicit Types (d : DMT.t) (col : list Z) (i k r : nat) (u : Z).

Lemma shaped_column d i col : shaped d → DMT.dmt_table d !! i = Some col → Z.of_nat (length col) = DMT.depth d.
Proof. intros (_ & _ & _ & Hf) Hi. by apply (Forall_lookup_1 _ _ _ _ Hf Hi). Qed.

Lemma shaped_put d i col : shaped d → Z.of_nat (length col) = DMT.depth d → shaped (put i col d).
Proof.
  intros (Hc & Hd & Hl & Hf) Hcol. split; [done|]. split; [done|]. split.
  - unfold put, DMT.columns. simpl. by rewrite length_insert.
  - by apply Forall_insert.
Qed.

Lemma put_lookup d i col : (i < length (DMT.dmt_table d))%nat → DMT.dmt_table (put i col d) !! i = Some col.
Proof. intros Hi. by apply list_lookup_insert_eq. Qed.

Lemma put_put d i col col' : put i col' (put i col d) = put i col' d.
Proof. unfold put. simpl. by rewrite list_insert_insert_eq. Qed.

Lemma put_id d i col : DMT.dmt_table d !! i = Some col → put i col d = d.
Proof. intros Hi. unfold put, DMT.set_table. rewrite list_insert_id by done. by destruct d. Qed.

Lemma getNodeGroup_ok d i col : shaped d → DMT.dmt_table d !! i = Some col → DMT.getNodeGroup d (Z.of_nat i) = Ret col.
Proof.
  intros (Hc & _ & Hl & _) Hi. apply lookup_lt_Some in Hi as Hlt. unfold DMT.getNodeGroup. rewrite fds_verify_true, bind_Ret by lia.
  apply vec_at_lookup. rewrite Nat2Z.id. split; [lia|done].
Qed.

Lemma setNode_ok d i r u col : shaped d → DMT.dmt_table d !! i = Some col → (r < length col)%nat →
  DMT.setNode (Z.of_nat i) (Z.of_nat r) u d = Ret (put i (<[r := u]> col) d).
Proof.
  intros Hs Hi Hr. pose proof (shaped_column d i col Hs Hi). destruct Hs as (Hc & _ & Hl & _). apply lookup_lt_Some in Hi as Hlt.
  unfold DMT.setNode. rewrite !fds_verify_true, !bind_Ret by lia. unfold DMT.set_cell.
  rewrite (proj2 (vec_at_lookup (DMT.dmt_table d) (Z.of_nat i) col)), bind_Ret by (rewrite Nat2Z.id; split; [lia|done]).
  rewrite TableColumn.set_ok, bind_Ret by (unfold TableColumn.getLength; lia). by rewrite !Nat2Z.id.
Qed.

(** A loop over the columns whose rounds change one column each *)
Lemma columns_loop {St} (dm : St → DMT.t) (body : St → Z → res St) (I : nat → St → Prop) (R : nat → list Z → Prop)
    (Q : nat → list Z → list Z → Prop) s :
  shaped (dm s) → (∀ i col, DMT.dmt_table (dm s) !! i = Some col → R i col) → I O s →
  (∀ i s' col, shaped (dm s') → DMT.base (dm s') = DMT.base (dm s) → DMT.dmt_table (dm s') !! i = Some col → R i col → I i s' →
    ∃ s'' col', body s' (Z.of_nat i) = Ret s'' ∧ dm s'' = put i col' (dm s') ∧ I (S i) s'' ∧ Q i col col' ∧ length col' = length col) →
  ∃ s', for_range (DMT.columns (dm s)) body s = Ret s' ∧ shaped (dm s') ∧ DMT.base (dm s') = DMT.base (dm s) ∧
    I (length (DMT.dmt_table (dm s))) s' ∧
    ∀ i col', DMT.dmt_table (dm s') !! i = Some col' → ∃ col, DMT.dmt_table (dm s) !! i = Some col ∧ Q i col col'.
Proof.
  intros Hs HR HI Hstep. destruct Hs as (Hc & Hd & Hl & Hf). rewrite <-Hl.
  destruct (for_range_rule (λ k s', shaped (dm s') ∧ DMT.base (dm s') = DMT.base (dm s) ∧ I k s' ∧
    (∀ i, (k ≤ i)%nat → DMT.dmt_table (dm s') !! i = DMT.dmt_table (dm s) !! i) ∧
    ∀ i col', (i < k)%nat → DMT.dmt_table (dm s') !! i = Some col' → ∃ col, DMT.dmt_table (dm s) !! i = Some col ∧ Q i col col')
    body (length (DMT.dmt_table (dm s))) s) as (s' & E & Hs' & Hb & HI' & Hrest & Hdone).
  - split_and!; [done..|intros; lia].
  - intros k s' Hk (Hs' & Hb & HI' & Hrest & Hdone). destruct (lookup_lt_is_Some_2 (DMT.dmt_table (dm s)) k Hk) as [col Hcol].
    assert (DMT.dmt_table (dm s') !! k = Some col) as Hcol' by (by rewrite Hrest by lia).
    destruct (Hstep k s' col Hs' Hb Hcol' (HR _ _ Hcol) HI') as (s'' & col' & E & Hput & HI'' & HQ & Hlen).
    exists s''. split; [done|]. rewrite Hput. apply lookup_lt_Some in Hcol' as Hlt. split_and!.
    + apply shaped_put; [done|]. rewrite Hlen. by apply (shaped_column _ k).
    + done.
    + done.
    + intros i Hi. simpl. rewrite list_lookup_insert_ne by lia. apply Hrest. lia.
    + intros i c Hi. simpl. destruct (decide (i = k)) as [->|Hne].
      * rewrite list_lookup_insert_eq by done. intros [= <-]. by exists col.
      * rewrite list_lookup_insert_ne by done. apply Hdone. lia.
  - exists s'. split_and!; [done..|]. intros i col' Hi. apply Hdone; [|done]. apply lookup_lt_Some in Hi.
    destruct Hs' as (_ & _ & Hl' & _). unfold DMT.columns in *. rewrite Hb in Hl'. lia.
Qed.

Lemma get_row col r u : col !! r = Some u → TableColumn.get col (Z.of_nat r) = Ret u.
Proof. apply TableColumn.get_ok. Qed.

(** ** Columns in progress *)
(** The cells that are not empty are distinct members. *)
Definition partial_column (S : gset Z) col : Prop := NoDup (filter (λ x, x ≠ 0) col) ∧ ∀ x, x ∈ col → x = 0 ∨ x ∈ S.

Lemma partial_perm S col col' : col ≡ₚ col' → partial_column S col → partial_column S col'.
Proof.
  intros Hp [Hn Hs]. split; [by rewrite <-Hp|]. intros x Hx. apply Hs. by rewrite Hp.
Qed.

Lemma swap_perm col (a b : nat) x y : col !! a = Some x → col !! b = Some y → a ≠ b → <[b := x]> (<[a := y]> col) ≡ₚ col.
Proof.
  intros Ha Hb Hab. apply Permutation_inj. split.
  { by rewrite !length_insert. }
  exists (λ k, if decide (k = a) then b else if decide (k = b) then a else k). split.
  - intros k k'. repeat case_decide; congruence.
  - intros k. cbv beta. apply lookup_lt_Some in Ha as La. apply lookup_lt_Some in Hb as Lb.
    destruct (decide (k = b)) as [->|Hkb].
    + rewrite list_lookup_insert_eq by (by rewrite length_insert). case_decide; [done|]. by rewrite Ha.
    + rewrite list_lookup_insert_ne by done. case_decide as Hka; [subst|by rewrite list_lookup_insert_ne].
      by rewrite list_lookup_insert_eq, Hb.
Qed.

Lemma partial_replace S col r x u : partial_column S col → col !! r = Some x → u ∈ S → u ∉ col → partial_column S (<[r := u]> col).
Proof.
  intros [Hn Hs] Hr Hu Hnew. pose proof Hr as Hsplit. apply take_drop_middle in Hsplit.
  assert (<[r := u]> col = take r col ++ u :: drop (Datatypes.S r) col) as E by (apply lookup_lt_Some in Hr; by apply list.insert_take_drop).
  rewrite E. rewrite <-Hsplit in Hn, Hs, Hnew. split.
  - revert Hn. rewrite !filter_app, !filter_cons. case_decide as Hx; case_decide as Hu'; intros Hn; [| | |].
    + apply NoDup_app in Hn as (N1 & N2 & N3). apply NoDup_cons in N3 as [N3 N4]. apply NoDup_app. split_and!; [done| |].
      * intros z Hz. specialize (N2 z Hz). apply not_elem_of_cons. split; [|set_solver]. intros ->. apply list_elem_of_filter in Hz. set_solver.
      * apply NoDup_cons. split; [|done]. intros Hz. apply list_elem_of_filter in Hz. set_solver.
    + apply NoDup_app in Hn as (N1 & N2 & N3). apply NoDup_cons in N3 as [N3 N4]. apply NoDup_app. split_and!; [done| |done]. set_solver.
    + apply NoDup_app in Hn as (N1 & N2 & N3). apply NoDup_app. split_and!; [done| |].
      * intros z Hz. specialize (N2 z Hz). apply not_elem_of_cons. split; [|set_solver]. intros ->. apply list_elem_of_filter in Hz. set_solver.
      * apply NoDup_cons. split; [|done]. intros Hz. apply list_elem_of_filter in Hz. set_solver.
    + done.
  - intros z. rewrite elem_of_app, elem_of_cons. intros [Hz|[->|Hz]]; [apply Hs; set_solver|by right|apply Hs; set_solver].
Qed.

(** An empty cell leaves a member for it. *)
Lemma partial_free S col : 0 ∉ S → partial_column S col → 0 ∈ col → (length col ≤ size S)%nat → ∃ u, u ∈ S ∧ u ∉ col.
Proof.
  intros HS [Hn Hs] H0 Hl. set (nz := filter (λ x, x ≠ 0) col) in *.
  assert (length nz < length col)%nat as Hlt.
  { apply list_elem_of_split in H0 as (l1 & l2 & E). unfold nz. rewrite E, filter_app, filter_cons, decide_False by naive_solver.
    rewrite !length_app. simpl. pose proof (length_filter (λ x, x ≠ 0) l1). pose proof (length_filter (λ x, x ≠ 0) l2). lia. }
  destruct (decide (set_Forall (λ u, u ∈ nz) S)) as [Hall|Hex].
  - exfalso. assert (size S ≤ length nz)%nat; [|lia]. rewrite <-(size_list_to_set (C:=gset Z) nz) by done.
    apply subseteq_size. intros u Hu. apply elem_of_list_to_set. by apply Hall.
  - apply not_set_Forall_Exists in Hex; [|apply _]. destruct Hex as (u & Hu & Hnu). exists u. split; [done|]. intros Hc. apply Hnu.
    apply list_elem_of_filter. split; [|done]. by intros ->.
Qed.

(** ** Balancers *)
Import DmtRowBalancer.
Implicit Types (b : DmtRowBalancer.t) (keys : list Z) (B : Z).

Record diffs_ok keys B b : Prop := {
  do_keys : (node_diff b).*1 = keys;
  do_bound : Forall (λ x, at_least B x.2) (node_diff b);
}.

Lemma lookup_diff_None u (l : list (Z * double)) : u ∉ l.*1 → lookup_diff u l = None.
Proof.
  unfold lookup_diff. induction l as [|[v x] l IH]; [done|]. simpl. intros Hu. rewrite bool_decide_eq_false_2 by set_solver. apply IH. set_solver.
Qed.

Lemma lookup_diff_elem u (l : list (Z * double)) x : lookup_diff u l = Some x → (u, x) ∈ l.
Proof.
  unfold lookup_diff. induction l as [|[v y] l IH]; [done|]. simpl. case_bool_decide as E.
  - intros [= <-]. subst. by left.
  - intros Hx. right. by apply IH.
Qed.

Lemma getDiff_bound keys B u b : 0 ≤ B → diffs_ok keys B b → at_least B (getDiff u b).
Proof.
  intros HB [_ Hb]. unfold getDiff. destruct (lookup_diff u (node_diff b)) as [x|] eqn:E; [|by apply of_Z_at_least].
  apply lookup_diff_elem in E. rewrite Forall_forall in Hb. by apply (Hb (u, x)).
Qed.

Lemma diffs_ok_mono keys B B' b : diffs_ok keys B b → B ≤ B' → diffs_ok keys B' b.
Proof. intros [Hk Hb] HB. split; [done|]. eapply Forall_impl; [exact Hb|]. intros x Hx. by eapply at_least_mono. Qed.

Lemma has_keys keys B u b : diffs_ok keys B b → has u b = bool_decide (u ∈ keys).
Proof. intros [<- _]. done. Qed.

(** Only the nodes of the balancer differ from zero. *)
Lemma nonzero_has u b : getDiff u b ≠ of_Z 0 → has u b = true.
Proof.
  intros Hd. unfold has. apply bool_decide_eq_true_2. destruct (decide (u ∈ (node_diff b).*1)) as [|Hn]; [done|].
  exfalso. apply Hd. unfold getDiff. by rewrite lookup_diff_None.
Qed.

Lemma over_has u b : lt half (getDiff u b) = true → has u b = true.
Proof. intros Hl. apply nonzero_has. intros E. by rewrite E in Hl. Qed.

Lemma under_has u b : lt (getDiff u b) neg_half = true → has u b = true.
Proof. intros Hl. apply nonzero_has. intros E. by rewrite E in Hl. Qed.

Lemma change_ok keys B B' (f : double → double) u b : diffs_ok keys B b → B ≤ B' →
  (∀ x, at_least B x → at_least B' (f x)) → diffs_ok keys B' (change f u b).
Proof.
  intros [Hk Hb] HB Hf. split; simpl.
  - rewrite <-Hk, <-list_fmap_compose. apply list_fmap_ext. intros k [v x] _. simpl. by case_decide.
  - apply Forall_fmap. eapply Forall_impl; [exact Hb|]. intros [v x] Hx. simpl in *. case_decide; simpl; [by apply Hf|by eapply at_least_mono].
Qed.

Lemma transferOne_ok keys B from to b : diffs_ok keys B b → 0 ≤ B → B + 1 < 2 ^ 53 → from = 0 ∨ has from b = true → has to b = true →
  ∃ b', transferOne from to b = Ret b' ∧ my_row b' = my_row b ∧ diffs_ok keys (B + 1) b'.
Proof.
  intros Hb HB HB' Hfrom Hto. unfold transferOne.
  set (b1 := if decide (from ≠ 0) then change (λ x, add x (of_Z 1)) from b else b).
  assert (E : (if decide (from ≠ 0) then _ ← fds_verify (has from b); Ret (change (λ x, add x (of_Z 1)) from b) else Ret b) = Ret b1).
  { unfold b1. case_decide as Hz; [|done]. destruct Hfrom as [->|Hfrom]; [done|]. by rewrite Hfrom. }
  rewrite E, bind_Ret. assert (Hb1 : diffs_ok keys B b1).
  { unfold b1. case_decide; [|done]. eapply change_ok; [done|lia|]. intros x Hx. rewrite <-(Z.add_0_r B). apply add_bound; [lia..|done|].
    apply of_Z_at_least. lia. }
  assert (has to b1 = true) as Hto1 by (by rewrite (has_keys keys B to b1), <-(has_keys keys B to b)).
  rewrite Hto1. simpl. eexists. split; [done|]. split; [unfold b1; by case_decide|].
  eapply change_ok; [done|lia|]. intros x Hx. apply sub_bound; [lia..|done|]. apply of_Z_opp. lia.
Qed.

Lemma find_neg col u : TableColumn.find col u < 0 ↔ u ∉ col.
Proof. rewrite <-TableColumn.find_nonneg. lia. Qed.

Lemma getMaxDiffNode_spec keys B col b : diffs_ok keys B b → 0 ≤ B < 10000 → 0 ∉ keys →
  let u := (getMaxDiffNode col b).2 in
  (u = 0 ∨ (u ∈ keys ∧ u ∉ col)) ∧ ((∃ v, v ∈ keys ∧ v ∉ col) → u ≠ 0) ∧ (u = 0 → (getMaxDiffNode col b).1 = of_Z (-10000)).
Proof.
  intros [Hk Hb] HB H0. unfold getMaxDiffNode. rewrite <-Hk in *. clear Hk.
  set (step := λ (acc : double * Z) x, _).
  assert (∀ (l : list (Z * double)) acc, Forall (λ x, at_least B x.2) l → 0 ∉ l.*1 →
    let u := (foldl step acc l).2 in
    (u = acc.2 ∨ (u ∈ l.*1 ∧ u ∉ col)) ∧
    (acc = (of_Z (-10000), 0) → (∃ v, v ∈ l.*1 ∧ v ∉ col) → u ≠ 0) ∧
    (u = 0 → (foldl step acc l).1 = acc.1)) as Hgen.
  { clear -HB. intros l. induction l as [|[v x] l IH]; intros acc Hb H0.
    { split_and!; [by left| |done]. intros _ (v & Hv & _). by apply not_elem_of_nil in Hv. }
    apply Forall_cons in Hb as [Hx Hb]. simpl in *. destruct (IH (step acc (v, x)) Hb ltac:(set_solver)) as (IH1 & IH2 & IH3). clear IH.
    assert (Ea : step acc (v, x) = if bool_decide (TableColumn.find col v < 0) && lt acc.1 x then (x, v) else acc) by done.
    set (acc' := step acc (v, x)) in *. clearbody acc'. set (u := (foldl step acc' l).2) in *.
    destruct (bool_decide (TableColumn.find col v < 0) && lt acc.1 x) eqn:Ec; subst acc'; simpl in *.
    - apply andb_true_iff in Ec as [Hf _]. apply bool_decide_eq_true, find_neg in Hf.
      assert (u ≠ 0) by (intros Hu0; rewrite Hu0 in IH1; apply H0; destruct IH1 as [<-|[IH1 _]]; [by left|by right]).
      split_and!; [|done|done]. right. destruct IH1 as [->|[IH1 ?]]; set_solver.
    - split_and!; [destruct IH1 as [IH1|[IH1 ?]]; [by left|right; set_solver]| |done].
      intros -> (w & Hw & Hwc). apply IH2; [done|]. exists w. split; [|done]. apply elem_of_cons in Hw as [->|Hw]; [|done]. exfalso.
      simpl in Ec. rewrite (above_start B x) in Ec by (done || lia). apply find_neg in Hwc. by rewrite bool_decide_eq_true_2 in Ec. }
  destruct (Hgen (node_diff b) (of_Z (-10000), 0) Hb H0) as (G1 & G2 & G3). split_and!; [destruct G1; naive_solver|by apply G2|done].
Qed.

Lemma getNodeCount_ok u r d : shaped d → Z.of_nat r < DMT.depth d → ∃ n, getNodeCount u (Z.of_nat r) d = Ret n ∧ 0 ≤ n ≤ DMT.columns d.
Proof.
  intros Hs Hr. unfold getNodeCount, DMT.getDepth, DMT.getNumColumns. rewrite fds_verify_true, bind_Ret by done.
  pose proof Hs as (Hc & _ & Hl & _).
  destruct (for_range_rule (λ k (n : Z), 0 ≤ n ≤ Z.of_nat k) (λ count (ci : Z),
    col ← DMT.getNodeGroup d ci; x ← TableColumn.get col (Z.of_nat r); Ret (if decide (u = x) then u32 (count + 1) else count))
    (length (DMT.dmt_table d)) 0) as (n & E & Hn); [lia| |rewrite <-Hl; eauto].
  intros k n Hk Hn. destruct (lookup_lt_is_Some_2 (DMT.dmt_table d) k Hk) as [col Hcol]. rewrite (getNodeGroup_ok d k col), bind_Ret by done.
  pose proof (shaped_column d k col Hs Hcol). destruct (lookup_lt_is_Some_2 col r) as [x Hx]; [lia|]. rewrite (get_row col r x), bind_Ret by done.
  eexists. split; [done|]. case_decide; [|lia]. rewrite u32_small; lia.
Qed.

Lemma make_ok order r d (prev : option DmtRowBalancer.t) D : shaped d → Z.of_nat r < DMT.depth d → 0 ≤ D → 2 * DMT.columns d + D < 2 ^ 53 →
  Z.of_nat (length order) < 2 ^ 53 → (∀ p, prev = Some p → ∃ keys, diffs_ok keys D p) →
  ∃ b, make order d (Z.of_nat r) prev = Ret b ∧ my_row b = Z.of_nat r ∧ diffs_ok order (DMT.columns d + D) b.
Proof.
  intros Hs Hr HD HB Ho Hp. unfold make, DMT.getNumColumns. set (target := div _ _). pose proof Hs as (Hc & _).
  assert (order ≠ [] → at_least 0 target) as Ht.
  { intros Hne. apply div_pos; [lia|]. destruct order; [done|]. simpl in *. lia. }
  assert (∀ l (acc : list (Z * double)), l ⊆ order → Forall (λ x, at_least (DMT.columns d + D) x.2) acc →
    ∃ acc', foldM (λ l uuid, actual ← getNodeCount uuid (Z.of_nat r) d;
      let debt := match prev with Some p => getDiff uuid p | None => of_Z 0 end in
      Ret (l ++ [(uuid, add (sub target (of_Z actual)) debt)])) acc l = Ret acc' ∧
      acc'.*1 = acc.*1 ++ l ∧ Forall (λ x, at_least (DMT.columns d + D) x.2) acc') as Hgen.
  { intros l. induction l as [|u l IH]; intros acc Hsub Hacc.
    { exists acc. rewrite app_nil_r. done. }
    destruct (getNodeCount_ok u r d Hs Hr) as (n & En & Hn). rewrite foldM_cons, En, !bind_Ret. cbv zeta.
    set (debt := match prev with Some p => getDiff u p | None => of_Z 0 end).
    assert (at_least D debt) as Hdebt.
    { unfold debt. destruct prev as [p|]; [|by apply of_Z_at_least]. destruct (Hp p eq_refl) as [ks Hks]. by eapply getDiff_bound. }
    destruct (IH (acc ++ [(u, add (sub target (of_Z n)) debt)])) as (acc' & E & Ek & Ef); [set_solver| |].
    - apply Forall_app. split; [done|]. apply Forall_singleton. simpl. apply add_bound; [lia..| |done].
      eapply at_least_mono; [|apply (sub_bound 0 n)]; [lia..| |apply of_Z_opp; lia].
      apply Ht. intros E. rewrite E in Hsub. specialize (Hsub u ltac:(by left)). by apply not_elem_of_nil in Hsub.
    - exists acc'. split; [done|]. split; [|done]. rewrite Ek, fmap_app, <-app_assoc. done. }
  destruct (Hgen order [] ltac:(done) ltac:(constructor)) as (l & E & Ek & Ef). cbv zeta in E. rewrite E, bind_Ret. by eexists.
Qed.

(** ** Steps of a column *)
(** A pass over row [r] exchanges its cell with one of the rows up to [m], or
    gives it to a node that is new to the column; when [empty] is set only an
    empty cell is given away. *)
Inductive cell_step (r m : nat) (keys : list Z) (empty : bool) : list Z → list Z → Prop :=
| step_swap col (a : nat) x y : (r < a < m)%nat → col !! r = Some x → x ≠ 0 → col !! a = Some y → y ≠ 0 →
    cell_step r m keys empty col (<[a := x]> (<[r := y]> col))
| step_fill col x u : col !! r = Some x → (empty = true → x = 0) → u ∈ keys → u ∉ col → cell_step r m keys empty col (<[r := u]> col).

Abbreviation cell_steps r m keys empty := (rtc (cell_step r m keys empty)).

(** A property of columns that single steps keep is kept by a pass. *)
Lemma steps_keep (P : list Z → Prop) r m keys (e : bool) col col' :
  (∀ c c', P c → cell_step r m keys e c c' → P c') → cell_steps r m keys e col col' → P col → P col'.
Proof. intros Hstep Hs. induction Hs as [|c c' c'' H1 _ IH]; [done|]. intros HP. apply IH. by eapply Hstep. Qed.

Lemma steps_length r m keys (e : bool) col col' : cell_steps r m keys e col col' → length col' = length col.
Proof.
  intros Hs. refine (steps_keep (λ c, length c = length col) _ _ _ _ _ _ _ Hs _); [|done].
  intros c c' Hc Hst. cbv beta in *. destruct Hst; by rewrite !length_insert.
Qed.

Lemma steps_outside r m keys (e : bool) col col' k : (k < r ∨ m ≤ k ∧ r < m)%nat → cell_steps r m keys e col col' → col' !! k = col !! k.
Proof.
  intros Hk Hs. refine (steps_keep (λ c, c !! k = col !! k) _ _ _ _ _ _ _ Hs _); [|done].
  intros c c' Hc Hst. cbv beta in *. destruct Hst; by rewrite !list_lookup_insert_ne by lia.
Qed.

Lemma steps_partial S r m keys (e : bool) col col' : (∀ u, u ∈ keys → u ∈ S) → cell_steps r m keys e col col' →
  partial_column S col → partial_column S col'.
Proof.
  intros Hk. apply steps_keep. intros c c' Hc Hst. revert Hc. destruct Hst as [c0 a x y Ha Hx _ Hy _|c0 x u Hx _ Hu Hnew]; intros Hc.
  - eapply partial_perm; [|done]. symmetry. apply swap_perm; [done..|lia].
  - eapply partial_replace; eauto.
Qed.

Lemma steps_nonzero r m keys (e : bool) col col' : 0 ∉ keys → cell_steps r m keys e col col' → col !! r ≠ Some 0 → col' !! r ≠ Some 0.
Proof.
  intros Hk. apply (steps_keep (λ c, c !! r ≠ Some 0)). intros c c' _ Hst.
  destruct Hst as [c0 a x y Ha Hx _ Hy Hy0|c0 x u Hx _ Hu Hnew]; apply lookup_lt_Some in Hx.
  - rewrite list_lookup_insert_ne, list_lookup_insert_eq by (lia || done). congruence.
  - rewrite list_lookup_insert_eq by done. intros [= ->]. done.
Qed.

Lemma exchange_ok keys B i r (n a m : nat) (e : bool) x b d col : shaped d → DMT.dmt_table d !! i = Some col → diffs_ok keys B b →
  my_row b = Z.of_nat r → 0 ∉ keys → 0 ≤ B → B + 1 < 2 ^ 53 → has x b = true → col !! r = Some x → (r < a)%nat → (a + n ≤ m)%nat →
  (m ≤ length col)%nat →
  ∃ b' col', exchange (seqZ (Z.of_nat a) (Z.of_nat n)) (Z.of_nat i) x b d = Ret (b', put i col' d) ∧ my_row b' = Z.of_nat r ∧
    diffs_ok keys (B + 1) b' ∧ cell_steps r m keys e col col'.
Proof.
  intros Hs Hi Hb Hrow H0 HB HB' Hx Hr. revert a. induction n as [|n IH]; intros a Ha Han Hm.
  - exists b, col. simpl. rewrite put_id by done. split_and!; [done..| |done]. eapply diffs_ok_mono; [done|lia].
  - rewrite seqZ_cons by lia. simpl exchange. rewrite (getNodeGroup_ok d i col), bind_Ret by done.
    destruct (lookup_lt_is_Some_2 col a) as [y Hy]; [lia|]. rewrite (get_row col a y), bind_Ret by done.
    destruct (lt half (getDiff y b)) eqn:Hl.
    2:{ replace (Z.succ (Z.of_nat a)) with (Z.of_nat (S a)) by lia. replace (Z.pred (Z.of_nat (S n))) with (Z.of_nat n) by lia. apply IH; lia. }
    apply over_has in Hl. destruct (transferOne_ok keys B x y b) as (b' & -> & Hrow' & Hb'); [done..|by right|done|].
    rewrite bind_Ret, Hrow', Hrow. apply lookup_lt_Some in Hr as Hrl. rewrite (setNode_ok d i r y col), bind_Ret by done.
    rewrite (setNode_ok _ i a x (<[r := y]> col)), bind_Ret.
    + rewrite put_put. exists b', (<[a := x]> (<[r := y]> col)). split; [done|]. split; [congruence|]. split; [done|].
      rewrite (has_keys keys B x b Hb) in Hx. rewrite (has_keys keys B y b Hb) in Hl. apply bool_decide_eq_true in Hx, Hl.
      apply rtc_once, step_swap; [lia|done|congruence|done|congruence].
    + apply shaped_put; [done|]. rewrite length_insert. by apply (shaped_column d i).
    + apply put_lookup. by apply lookup_lt_Some in Hi.
    + rewrite length_insert. lia.
Qed.

(** The state of a pass: the balancer's row and differences *)
Definition pass_inv keys B r i b : Prop := my_row b = Z.of_nat r ∧ diffs_ok keys (B + Z.of_nat i) b.

Section Passes.
Context (S : gset Z) (keys : list Z) (r m : nat) (HS : 0 ∉ S) (Hkeys : ∀ u, u ∈ keys → u ∈ S) (Hrm : (r < m)%nat).

Lemma keys_nonzero : 0 ∉ keys.
Proof. intros H. by apply HS, Hkeys. Qed.

(** What is known after a pass from [d] to [d'] *)
Definition passed (e : bool) B d b' d' : Prop :=
  my_row b' = Z.of_nat r ∧ diffs_ok keys B b' ∧ shaped d' ∧ DMT.base d' = DMT.base d ∧
  ∀ i col', DMT.dmt_table d' !! i = Some col' → ∃ col, DMT.dmt_table d !! i = Some col ∧ cell_steps r m keys e col col'.

Lemma balanceWithinColumn_ok (e : bool) B b d : shaped d → my_row b = Z.of_nat r → diffs_ok keys B b → 0 ≤ B → B + DMT.columns d < 2 ^ 53 →
  Z.of_nat m ≤ DMT.depth d → ∃ b' d', balanceWithinColumn (Z.of_nat m) b d = Ret (b', d') ∧ passed e (B + DMT.columns d) d b' d'.
Proof.
  intros Hs Hrow Hb HB HB' Hd. unfold balanceWithinColumn, DMT.getNumColumns. rewrite fds_verify_true, bind_Ret by lia.
  destruct (columns_loop (St:=DmtRowBalancer.t * DMT.t) snd (within_column (Z.of_nat m)) (λ i st, pass_inv keys B r i st.1) (λ _ _, True) (λ _, cell_steps r m keys e) (b, d))
    as ([b' d'] & E & Hs' & Hbase & [Hrow' Hb'] & Hcols).
  - done.
  - done.
  - split; [done|]. simpl. by rewrite Z.add_0_r.
  - intros i [b1 d1] col Hs1 Hbase1 Hi _ [Hrow1 Hb1]. unfold within_column. simpl in *. apply lookup_lt_Some in Hi as Hlt.
    assert (DMT.columns d1 = DMT.columns d ∧ DMT.depth d1 = DMT.depth d) as [Hc1 Hd1] by (unfold DMT.columns, DMT.depth; by rewrite Hbase1).
    pose proof (shaped_column d1 i col Hs1 Hi) as Hlen. pose proof Hs1 as (_ & _ & Hl1 & _).
    rewrite (getNodeGroup_ok d1 i col), bind_Ret, Hrow1 by done. destruct (lookup_lt_is_Some_2 col r) as [x Hx]; [lia|].
    rewrite (get_row col r x), bind_Ret by done. destruct (lt (getDiff x b1) neg_half) eqn:Hl.
    + replace (Z.of_nat r + 1) with (Z.of_nat (Datatypes.S r)) by lia. replace (Z.of_nat m - Z.of_nat (Datatypes.S r)) with (Z.of_nat (m - Datatypes.S r)) by lia.
      destruct (exchange_ok keys (B + Z.of_nat i) i r (m - Datatypes.S r) (Datatypes.S r) m e x b1 d1 col) as (b2 & col' & E & Hrow2 & Hb2 & Hst);
        [done..|apply keys_nonzero|lia|lia|by apply under_has|done|lia|lia|lia|].
      exists (b2, put i col' d1), col'. split; [done|]. split; [done|]. split; [|split; [done|by eapply steps_length]].
      split; [done|]. by replace (B + Z.of_nat (Datatypes.S i)) with (B + Z.of_nat i + 1) by lia.
    + exists (b1, d1), col. split; [done|]. split; [simpl; by rewrite put_id|]. split; [|done]. split; [done|]. eapply diffs_ok_mono; [done|lia].
  - exists b', d'. split; [done|]. split_and!; [done| |done..]. destruct Hs as (_ & _ & <- & _). done.
Qed.

(** No cell of row [r] is empty. *)
Definition filled d : Prop := ∀ i col, DMT.dmt_table d !! i = Some col → col !! r ≠ Some 0.

(** Putting a free node into the cell of row [r] *)
Lemma give_cell B i x u b d col : shaped d → my_row b = Z.of_nat r → diffs_ok keys B b → 0 ≤ B → B + 1 < 2 ^ 53 →
  DMT.dmt_table d !! i = Some col → col !! r = Some x → x = 0 ∨ has x b = true → u ∈ keys → u ∉ col →
  ∃ b', transferOne x u b = Ret b' ∧ my_row b' = Z.of_nat r ∧ diffs_ok keys (B + 1) b' ∧
    DMT.setNode (Z.of_nat i) (my_row b') u d = Ret (put i (<[r := u]> col) d) ∧
    <[r := u]> col !! r ≠ Some 0.
Proof.
  intros Hs Hrow Hb HB HB' Hi Hx Hfrom Hu Hnew.
  destruct (transferOne_ok keys B x u b) as (b' & E & Hrow' & Hb'); [done..|by rewrite (has_keys keys B), bool_decide_eq_true_2|].
  apply lookup_lt_Some in Hx as Hr. exists b'. split; [done|]. split; [congruence|]. split; [done|].
  split; [rewrite Hrow', Hrow; by apply setNode_ok|].
  rewrite list_lookup_insert_eq by done. intros [= ->]. by apply keys_nonzero.
Qed.

(** The second pass of [balancePrimary] at one column *)
Lemma fill_primary_ok B i b d (e : fds_errno) col : shaped d → my_row b = Z.of_nat r → diffs_ok keys B b → 0 ≤ B → B + 1 < 10000 →
  Z.of_nat r < DMT.depth d → DMT.dmt_table d !! i = Some col → partial_column S col →
  ∃ b' col' e', fill_primary (b, d, e) (Z.of_nat i) = Ret (b', put i col' d, e') ∧ my_row b' = Z.of_nat r ∧ diffs_ok keys (B + 1) b' ∧
    cell_steps r m keys true col col' ∧ ((e' = e ∧ col' !! r ≠ Some 0) ∨ (e' = ERR_NOT_FOUND ∧ col !! r = Some 0 ∧ ∀ u, u ∈ keys → u ∈ col)).
Proof.
  intros Hs Hrow Hb HB HB' Hr Hi Hpart. pose proof (shaped_column d i col Hs Hi) as Hlen. unfold fill_primary.
  rewrite (getNodeGroup_ok d i col), bind_Ret, Hrow by done. destruct (lookup_lt_is_Some_2 col r) as [x Hx]; [lia|].
  rewrite (get_row col r x), bind_Ret by done. pose proof (diffs_ok_mono keys B (B + 1) b Hb ltac:(lia)) as Hb1.
  case_decide as Hx0.
  2:{ exists b, col, e. rewrite put_id by done. split; [done|]. split; [done|]. split; [done|]. split; [done|]. left. rewrite Hx. split; congruence. }
  subst x. destruct (getMaxDiffNode_spec keys B col b Hb ltac:(lia) keys_nonzero) as (Hin & Hex & _).
  destruct (getMaxDiffNode col b) as [diff u]. simpl in Hin, Hex. case_decide as Hu.
  - destruct Hin as [|[Hu1 Hu2]]; [done|].
    destruct (give_cell B i 0 u b d col) as (b' & -> & Hrow' & Hb' & E & Hn); [done..|lia|done|done|by left|done|done|].
    rewrite bind_Ret, E, bind_Ret. exists b', (<[r := u]> col), e. split; [done|]. split; [done|]. split; [done|].
    split; [by eapply rtc_once, step_fill|by left].
  - exists b, col, ERR_NOT_FOUND. rewrite put_id by done. split; [done|]. split; [done|]. split; [done|]. split; [done|]. right.
    split; [done|]. split; [done|]. intros v Hv. destruct (decide (v ∈ col)) as [|Hvc]; [done|].
    exfalso. by apply Hex; [exists v|].
Qed.

Lemma balancePrimary_ok B b d : shaped d → my_row b = Z.of_nat r → diffs_ok keys B b → 0 ≤ B → B + 2 * DMT.columns d < 10000 →
  Z.of_nat m ≤ DMT.depth d → Forall (partial_column S) (DMT.dmt_table d) →
  ∃ b' d' e, balancePrimary (Z.of_nat m) b d = Ret (b', d', e) ∧ passed true (B + 2 * DMT.columns d) d b' d' ∧
    ((e = ERR_OK ∧ filled d') ∨
     (e = ERR_NOT_FOUND ∧ ∃ i col col', DMT.dmt_table d !! i = Some col ∧ cell_steps r m keys true col col' ∧ col' !! r = Some 0 ∧
       ∀ u, u ∈ keys → u ∈ col')).
Proof.
  intros Hs Hrow Hb HB HB' Hmd Hpart. unfold balancePrimary, DMT.getNumColumns. pose proof Hs as (Hc & Hdp & Hl & _).
  destruct (balanceWithinColumn_ok true B b d) as (b1 & d1 & E1 & Hrow1 & Hb1 & Hs1 & Hbase1 & Hcols1); [done..|lia|lia|].
  rewrite E1, bind_Ret. simpl.
  assert (DMT.columns d1 = DMT.columns d ∧ DMT.depth d1 = DMT.depth d) as [Hc1 Hd1] by (unfold DMT.columns, DMT.depth; by rewrite Hbase1).
  rewrite <-Hc1. set (stuck := ∃ i col col', DMT.dmt_table d !! i = Some col ∧ cell_steps r m keys true col col' ∧ col' !! r = Some 0 ∧ ∀ u, u ∈ keys → u ∈ col').
  destruct (columns_loop (λ st : DmtRowBalancer.t * DMT.t * fds_errno, st.1.2) fill_primary
    (λ i st, pass_inv keys (B + DMT.columns d) r i st.1.1 ∧
      ((st.2 = ERR_OK ∧ ∀ k col, (k < i)%nat → DMT.dmt_table st.1.2 !! k = Some col → col !! r ≠ Some 0) ∨ (st.2 = ERR_NOT_FOUND ∧ stuck)))
    (λ i col, partial_column S col ∧ ∃ col0, DMT.dmt_table d !! i = Some col0 ∧ cell_steps r m keys true col0 col)
    (λ _ col col', cell_steps r m keys true col col') (b1, d1, ERR_OK)) as ([[b2 d2] e2] & E & Hs2 & Hbase2 & [[Hrow2 Hb2] He2] & Hcols2).
  - done.
  - intros i col Hi. destruct (Hcols1 i col Hi) as (col0 & Hi0 & Hst). split; [|by exists col0].
    eapply steps_partial; [done..|]. by apply (Forall_lookup_1 _ _ _ _ Hpart Hi0).
  - split; [split; [done|]; simpl; by rewrite Z.add_0_r|]. left. split; [done|]. intros; lia.
  - intros i [[b3 d3] e3] col Hs3 Hbase3 Hi [Hp (col0 & Hi0 & Hst0)] [[Hrow3 Hb3] He3]. simpl in *. apply lookup_lt_Some in Hi as Hlt.
    assert (DMT.columns d3 = DMT.columns d ∧ DMT.depth d3 = DMT.depth d) as [Hc3 Hd3] by (unfold DMT.columns, DMT.depth; by rewrite Hbase3, Hbase1).
    pose proof Hs3 as (_ & _ & Hl3 & _). pose proof (shaped_column d3 i col Hs3 Hi) as Hlen.
    destruct (fill_primary_ok (B + DMT.columns d + Z.of_nat i) i b3 d3 e3 col) as (b' & col' & e' & E' & Hrow' & Hb' & Hst & Hn); [done..|lia|lia|lia|done|done|].
    exists (b', put i col' d3, e'), col'. split; [done|]. split; [done|]. split; [|split; [done|by eapply steps_length]]. split.
    { split; [done|]. by replace (B + DMT.columns d + Z.of_nat (Datatypes.S i)) with (B + DMT.columns d + Z.of_nat i + 1) by lia. }
    destruct Hn as [[-> Hn]|[-> [H0 Hall]]]; [|right; split; [done|]; by exists i, col0, col].
    destruct He3 as [[-> Hfill]|He3]; [left|by right]. split; [done|]. intros k c Hk. simpl. destruct (decide (k = i)) as [->|Hne].
    + rewrite list_lookup_insert_eq by done. intros [= <-]. done.
    + rewrite list_lookup_insert_ne by done. apply Hfill. lia.
  - simpl in *. exists b2, d2, e2. split; [done|]. split.
    + split; [done|]. split; [eapply diffs_ok_mono; [exact Hb2|]; destruct Hs1 as (_ & _ & -> & _); lia|]. split; [done|]. split; [congruence|].
      intros i col' Hi. destruct (Hcols2 i col' Hi) as (c1 & Hi1 & Hst). destruct (Hcols1 i c1 Hi1) as (c0 & Hi0 & Hst0).
      exists c0. split; [done|]. by etrans.
    + destruct He2 as [[-> Hf]|He2]; [left|by right]. split; [done|]. intros i col Hi. apply (Hf i col); [|done].
      apply lookup_lt_Some in Hi as Hlt. destruct Hs1 as (_ & _ & Hl1 & _). destruct Hs2 as (_ & _ & Hl2 & _).
      unfold DMT.columns in *. rewrite Hbase2 in Hl2. lia.
Qed.

Context (Hcover : ∀ u, u ∈ S → u ∈ keys).

(** The second pass of [balance] at one column *)
Lemma fill_cell_ok B i b d col : shaped d → my_row b = Z.of_nat r → diffs_ok keys B b → 0 ≤ B → B + 1 < 10000 →
  Z.of_nat r < DMT.depth d → DMT.depth d ≤ Z.of_nat (size S) → DMT.dmt_table d !! i = Some col → partial_column S col →
  ∃ b' col', fill_cell (b, d) (Z.of_nat i) = Ret (b', put i col' d) ∧ my_row b' = Z.of_nat r ∧ diffs_ok keys (B + 1) b' ∧
    cell_steps r m keys false col col' ∧ col' !! r ≠ Some 0.
Proof.
  intros Hs Hrow Hb HB HB' Hr Hsize Hi Hpart. pose proof (shaped_column d i col Hs Hi) as Hlen. unfold fill_cell.
  rewrite (getNodeGroup_ok d i col), bind_Ret, Hrow by done. destruct (lookup_lt_is_Some_2 col r) as [x Hx]; [lia|].
  rewrite (get_row col r x), bind_Ret by done. pose proof (diffs_ok_mono keys B (B + 1) b Hb ltac:(lia)) as Hb1.
  assert (Hsame : x ≠ 0 → ∃ b' col', Ret (b, d) = Ret (b', put i col' d) ∧ my_row b' = Z.of_nat r ∧ diffs_ok keys (B + 1) b' ∧
    cell_steps r m keys false col col' ∧ col' !! r ≠ Some 0).
  { intros Hx0. exists b, col. rewrite put_id by done. split; [done|]. split; [done|]. split; [done|]. split; [done|]. rewrite Hx. congruence. }
  destruct (bool_decide (x = 0) || lt (getDiff x b) neg_half) eqn:Hcond.
  2:{ apply orb_false_iff in Hcond as [Hx0%bool_decide_eq_false _]. by apply Hsame. }
  destruct (getMaxDiffNode_spec keys B col b Hb ltac:(lia) keys_nonzero) as (Hin & Hex & Hstart).
  destruct (getMaxDiffNode col b) as [diff u]. simpl in Hin, Hex, Hstart.
  destruct (bool_decide (x ≠ 0) && le diff half) eqn:Hskip.
  { apply andb_true_iff in Hskip as [Hx0%bool_decide_eq_true _]. by apply Hsame. }
  assert (u ≠ 0) as Hu.
  { destruct (decide (x = 0)) as [->|Hx0].
    - apply Hex. destruct (partial_free S col HS Hpart) as (v & Hv & Hvc); [by eapply list_elem_of_lookup_2|lia|]. exists v. auto.
    - rewrite bool_decide_eq_true_2 in Hskip by done. intros Hu0. by rewrite (Hstart Hu0) in Hskip. }
  destruct Hin as [|[Hu1 Hu2]]; [done|]. rewrite fds_verify_true, bind_Ret by done.
  destruct (give_cell B i x u b d col) as (b' & -> & Hrow' & Hb' & E & Hn); [done..|lia|done|done| |done|done|].
  { apply orb_true_iff in Hcond as [Hc%bool_decide_eq_true|Hc]; [by left|right; by apply under_has]. }
  rewrite bind_Ret, E, bind_Ret. exists b', (<[r := u]> col). split; [done|]. split; [done|]. split; [done|]. split; [by eapply rtc_once, step_fill|done].
Qed.

Lemma balance_ok B b d : shaped d → my_row b = Z.of_nat r → diffs_ok keys B b → 0 ≤ B → B + 2 * DMT.columns d < 10000 →
  Z.of_nat m = DMT.depth d → DMT.depth d ≤ Z.of_nat (size S) → Forall (partial_column S) (DMT.dmt_table d) →
  ∃ b' d', balance b d = Ret (b', d') ∧ passed false (B + 2 * DMT.columns d) d b' d' ∧ filled d'.
Proof.
  intros Hs Hrow Hb HB HB' Hr Hsize Hpart. unfold balance, DMT.getNumColumns, DMT.getDepth. pose proof Hs as (Hc & Hdp & Hl & _).
  destruct (balanceWithinColumn_ok false B b d) as (b1 & d1 & E1 & Hrow1 & Hb1 & Hs1 & Hbase1 & Hcols1); [done..|lia|lia|].
  rewrite Hr in E1. rewrite E1, bind_Ret.
  assert (DMT.columns d1 = DMT.columns d ∧ DMT.depth d1 = DMT.depth d) as [Hc1 Hd1] by (unfold DMT.columns, DMT.depth; by rewrite Hbase1).
  rewrite <-Hc1. destruct (columns_loop snd fill_cell (λ i st, pass_inv keys (B + DMT.columns d) r i st.1) (λ _ col, partial_column S col)
    (λ _ col col', cell_steps r m keys false col col' ∧ col' !! r ≠ Some 0) (b1, d1)) as ([b2 d2] & E & Hs2 & Hbase2 & [Hrow2 Hb2] & Hcols2).
  - done.
  - intros i col Hi. destruct (Hcols1 i col Hi) as (col0 & Hi0 & Hst). eapply steps_partial; [done..|]. by apply (Forall_lookup_1 _ _ _ _ Hpart Hi0).
  - split; [done|]. simpl. by rewrite Z.add_0_r.
  - intros i [b3 d3] col Hs3 Hbase3 Hi Hp [Hrow3 Hb3]. simpl in *. apply lookup_lt_Some in Hi as Hlt.
    assert (DMT.columns d3 = DMT.columns d ∧ DMT.depth d3 = DMT.depth d) as [Hc3 Hd3] by (unfold DMT.columns, DMT.depth; by rewrite Hbase3, Hbase1).
    pose proof Hs3 as (_ & _ & Hl3 & _).
    destruct (fill_cell_ok (B + DMT.columns d + Z.of_nat i) i b3 d3 col) as (b' & col' & E' & Hrow' & Hb' & Hst & Hn); [done..|lia|lia|lia|lia|done|done|].
    exists (b', put i col' d3), col'. split; [done|]. split; [done|]. split; [|split; [done|by eapply steps_length]]. split; [done|].
    by replace (B + DMT.columns d + Z.of_nat (Datatypes.S i)) with (B + DMT.columns d + Z.of_nat i + 1) by lia.
  - simpl in *. exists b2, d2. split; [done|]. split.
    + split; [done|]. split; [eapply diffs_ok_mono; [exact Hb2|]; destruct Hs1 as (_ & _ & -> & _); lia|]. split; [done|]. split; [congruence|].
      intros i col' Hi. destruct (Hcols2 i col' Hi) as (c1 & Hi1 & Hst & _). destruct (Hcols1 i c1 Hi1) as (c0 & Hi0 & Hst0).
      exists c0. split; [done|]. by etrans.
    + intros i col' Hi. by destruct (Hcols2 i col' Hi) as (c1 & _ & _ & Hn).
Qed.
End Passes.
