(* ===== verification/VolPlacementSpec.v ===== *)
(** * What the placement algorithms promise

    The specification of [VolPlacementAlgo]: the tables it computes have, in
    each column, distinct data managers that are members of the domain; an
    update takes removed data managers out, never puts an added one into the
    first row, and refuses changes that would leave a column without a primary
    to synchronise from. *)

From S2P Require Import Prelude PlacementTable Dmt Double ClusterMap VolPlacementAlgo VolPlacementRows.
Open Scope Z_scope.

Import DynamicRRAlgorithm.
Implicit Types (d : DMT.t) (col : list Z) (i k r : nat) (u : Z).

Lemma take_insert_snoc (c : list Z) (n : nat) u : (n < length c)%nat → take (S n) (<[n := u]> c) = take n c ++ [u].
Proof.
  intros Hn. rewrite (take_S_r _ _ u) by (by apply list_lookup_insert_eq). by rewrite take_insert_ge by lia.
Qed.

Lemma put_column d i col col' : shaped d → DMT.dmt_table d !! i = Some col → length col' = length col →
  shaped (put i col' d) ∧ DMT.dmt_table (put i col' d) !! i = Some col'.
Proof.
  intros Hs Hi Hl. split; [apply shaped_put; [done|]; rewrite Hl; by apply (shaped_column d i)|]. apply put_lookup. by apply lookup_lt_Some in Hi.
Qed.

(** ** Copying the committed table *)
(** The cells of column [i] from row [n] on get the kept cells of [s]. *)
Lemma copy_cells_ok (rm : gset Z) cur i (p s : list Z) d (c : list Z) (n : nat) :
  shaped cur → DMT.dmt_table cur !! i = Some (p ++ s) → shaped d → DMT.dmt_table d !! i = Some c → (n < length c)%nat →
  ∃ c' n', copy_cells (seqZ (Z.of_nat (length p)) (Z.of_nat (length s))) (Z.of_nat i) (Z.of_nat n) rm cur d =
      Ret (put i c' d, Z.of_nat n') ∧ length c' = length c ∧ (n' ≤ length c)%nat ∧
    take n' c' = take n c ++ take (length c - n) (filter (λ u, u ∉ rm) s).
Proof.
  intros Hcur. revert p d c n. induction s as [|u s IH]; intros p d c n Hp Hd Hi Hn.
  - exists c, n. simpl. rewrite put_id by done. rewrite filter_nil, take_nil, app_nil_r. split_and!; [done|done|lia|done].
  - rewrite seqZ_cons by (simpl; lia). simpl copy_cells. rewrite (getNodeGroup_ok cur i (p ++ u :: s)), bind_Ret by done.
    rewrite (get_row _ (length p) u), bind_Ret by (by rewrite list_lookup_middle).
    replace (Z.succ (Z.of_nat (length p))) with (Z.of_nat (length (p ++ [u]))) by (rewrite length_app; simpl; lia).
    replace (Z.pred (Z.of_nat (S (length s)))) with (Z.of_nat (length s)) by lia.
    assert (DMT.dmt_table cur !! i = Some ((p ++ [u]) ++ s)) as Hp' by (by rewrite <-app_assoc).
    rewrite filter_cons. destruct (decide (u ∈ rm)) as [Hu|Hu]; [rewrite !decide_False by (intros Hx; by apply Hx); by apply IH|].
    rewrite !(decide_True (P:=u ∉ rm)) by done.
    rewrite (setNode_ok d i n u c), bind_Ret by done. pose proof (shaped_column d i c Hd Hi) as Hlen.
    unfold DMT.getDepth at 1. change (DMT.depth (put i (<[n := u]> c) d)) with (DMT.depth d).
    destruct (put_column d i c (<[n := u]> c) Hd Hi (length_insert _ _ _)) as [Hd' Hi']. case_decide as Hend.
    + exists (<[n := u]> c), (S n). split; [do 2 f_equal; lia|]. split; [by rewrite length_insert|]. split; [lia|].
      rewrite take_insert_snoc by done. replace (length c - n)%nat with 1%nat by lia. done.
    + destruct (IH (p ++ [u]) (put i (<[n := u]> c) d) (<[n := u]> c) (S n)) as (c' & n' & E & Hl & Hn' & Et); [done..|rewrite length_insert; lia|].
      rewrite length_insert in Hl, Hn', Et. replace (Z.of_nat n + 1) with (Z.of_nat (S n)) by lia. rewrite put_put in E.
      exists c', n'. split_and!; [done..|]. rewrite Et, take_insert_snoc, <-app_assoc by done. f_equal.
      replace (length c - n)%nat with (S (length c - S n)) by lia. done.
Qed.

(** The rows from [n] on are emptied. *)
Lemma clear_rows_ok i d (c : list Z) (m n : nat) : shaped d → DMT.dmt_table d !! i = Some c → (n + m = length c)%nat →
  foldM (λ d j, DMT.setNode (Z.of_nat i) j 0 d) d (seqZ (Z.of_nat n) (Z.of_nat m)) = Ret (put i (take n c ++ replicate m 0) d).
Proof.
  revert d c n. induction m as [|m IH]; intros d c n Hd Hi Hn.
  - simpl. rewrite app_nil_r, take_ge, put_id by (done || lia). done.
  - rewrite seqZ_cons, foldM_cons by lia. rewrite (setNode_ok d i n 0 c), bind_Ret by (done || lia).
    replace (Z.succ (Z.of_nat n)) with (Z.of_nat (S n)) by lia. replace (Z.pred (Z.of_nat (S m))) with (Z.of_nat m) by lia.
    destruct (put_column d i c (<[n := 0]> c) Hd Hi (length_insert _ _ _)) as [Hd' Hi'].
    rewrite (IH (put i (<[n := 0]> c) d) (<[n := 0]> c) (S n)) by (done || (rewrite length_insert; lia)).
    rewrite put_put, take_insert_snoc, <-app_assoc by lia. done.
Qed.

(** A column after the copy: what is kept of the committed one, then empty
    cells *)
Definition copied (rm : gset Z) (depth : nat) col : list Z :=
  let kept := take depth (filter (λ u, u ∉ rm) col) in kept ++ replicate (depth - length kept) 0.

Lemma copy_column_ok (rm : gset Z) cur i d (c0 c : list Z) : shaped cur → DMT.dmt_table cur !! i = Some c0 →
  shaped d → DMT.dmt_table d !! i = Some c → 0 < DMT.depth d →
  copy_column rm cur d (Z.of_nat i) = Ret (put i (copied rm (Z.to_nat (DMT.depth d)) c0) d).
Proof.
  intros Hcur Hc0 Hd Hi Hdep. unfold copy_column, DMT.getDepth. pose proof (shaped_column cur i c0 Hcur Hc0) as Hl0.
  pose proof (shaped_column d i c Hd Hi) as Hl. rewrite <-Hl0.
  destruct (copy_cells_ok rm cur i [] c0 d c 0) as (c' & n' & E & Hl' & Hn' & Et); [done..|lia|].
  change (Z.of_nat (length [])) with 0 in E. change (Z.of_nat 0) with 0 in E. rewrite E, bind_Ret.
  change (DMT.depth (put i c' d)) with (DMT.depth d). rewrite <-Hl. replace (Z.of_nat (length c) - Z.of_nat n') with (Z.of_nat (length c - n')) by lia.
  destruct (put_column d i c c' Hd Hi Hl') as [Hd' Hi']. rewrite (clear_rows_ok i (put i c' d) c') by (done || lia). rewrite put_put. do 2 f_equal.
  unfold copied. rewrite Nat2Z.id. rewrite take_0, Nat.sub_0_r in Et. simpl in Et. rewrite Et. do 2 f_equal.
  rewrite <-Et, length_take. lia.
Qed.

(** ** Demotion of failed primaries *)
Section Demotion.
Context (NF : gset Z).

Lemma count_failed_ok (P : nat) col : (P ≤ length col)%nat →
  count_failed (Z.of_nat P) NF col = Ret (Z.of_nat (length (filter (λ u, u ∉ NF) (take P col)))).
Proof.
  intros HP. unfold count_failed. destruct (for_range_rule (λ k n, n = Z.of_nat (length (filter (λ u, u ∉ NF) (take k col))))
    (λ failedDms j, uuid ← TableColumn.get col j; Ret (if decide (uuid ∉ NF) then failedDms + 1 else failedDms)) P 0) as (n & E & ->); [done| |done].
  intros k n Hk ->. destruct (lookup_lt_is_Some_2 col k) as [x Hx]; [lia|]. rewrite (get_row col k x), bind_Ret by done.
  eexists. split; [done|]. rewrite (take_S_r _ _ x), filter_app, length_app, filter_cons by done.
  destruct (decide (x ∈ NF)); repeat case_decide; simpl; try done; lia.
Qed.

Lemma count_failed_zero (P : nat) col : length (filter (λ u, u ∉ NF) (take P col)) = O → ∀ k x, (k < P)%nat → col !! k = Some x → x ∈ NF.
Proof.
  intros H0 k x Hk Hx. apply nil_length_inv in H0. destruct (decide (x ∈ NF)) as [|Hn]; [done|]. exfalso.
  assert (x ∈ filter (λ u, u ∉ NF) (take P col)) as Hin; [|rewrite H0 in Hin; by apply not_elem_of_nil in Hin].
  apply list_elem_of_filter. split; [done|]. apply (list_elem_of_lookup_2 _ k). by rewrite lookup_take_lt.
Qed.

Lemma find_secondary_ok col (fuel s : nat) v : col !! s = Some v → (length col ≤ s + fuel)%nat →
  ∃ (s' : nat) v', find_secondary fuel NF (Z.of_nat (length col)) col (Z.of_nat s) v = Ret (Z.of_nat s', v') ∧ (s ≤ s')%nat ∧
    ((s' < length col)%nat → col !! s' = Some v' ∧ (v' ∈ NF ∨ v' = 0)) ∧
    ∀ k w, (s ≤ k < s')%nat → col !! k = Some w → w ∉ NF ∧ w ≠ 0.
Proof.
  revert s v. induction fuel as [|fuel IH]; intros s v Hs Hf; apply lookup_lt_Some in Hs as Hlt; [lia|].
  simpl find_secondary. case_decide as Hv.
  - replace (Z.of_nat s + 1) with (Z.of_nat (S s)) by lia. case_decide as He.
    + exists (S s), v. split; [done|]. split; [lia|]. split; [lia|]. intros k w Hk Hw. replace k with s in Hw by lia. congruence.
    + destruct (lookup_lt_is_Some_2 col (S s)) as [v1 Hv1]; [lia|]. rewrite (get_row col (S s) v1), bind_Ret by done.
      destruct (IH (S s) v1 Hv1) as (s' & v' & E & Hle & Hfound & Hskip); [lia|]. exists s', v'. split; [done|]. split; [lia|]. split; [done|].
      intros k w Hk Hw. destruct (decide (k = s)) as [->|]; [replace w with v by congruence; done|]. apply (Hskip k w); [lia|done].
  - exists s, v. split; [done|]. split; [lia|]. split; [|intros; lia]. intros _. split; [done|].
    destruct (decide (v ∈ NF)); [by left|]. right. destruct (decide (v = 0)); [done|]. exfalso. by apply Hv.
Qed.

(** Progress of the promotion: the secondaries before row [s] have failed or
    are empty, after an empty one there are only empty ones, and either all
    primaries before row [a] have not failed or no secondary is left. *)
Definition promoting (P a s : nat) col : Prop :=
  (∀ k y, (P ≤ k < s)%nat → col !! k = Some y → y ∉ NF) ∧
  (∀ k k' y, (s ≤ k < k')%nat → col !! k = Some 0 → col !! k' = Some y → y = 0) ∧
  ((∀ k y, (k < a)%nat → col !! k = Some y → y ∈ NF) ∨ (∀ k y, (s ≤ k)%nat → col !! k = Some y → y ∉ NF)).

(** The promotion is complete: only primaries that have not failed, or no
    other data manager that has not failed *)
Definition promoted (P : nat) col : Prop :=
  (∀ k y, (k < P)%nat → col !! k = Some y → y ∈ NF) ∨ (∀ k y, (P ≤ k)%nat → col !! k = Some y → y ∉ NF).

Lemma promoting_end P s col : promoting P P s col → promoted P col.
Proof.
  intros (H1 & _ & [H3|H3]); [by left|right]. intros k y Hk Hy. destruct (decide (k < s)%nat); [eapply H1; [|done]; lia|eapply H3; [|done]; lia].
Qed.

Lemma promoting_skip P a s col x : promoting P a s col → col !! a = Some x → x ∈ NF → promoting P (S a) s col.
Proof.
  intros (H1 & H2 & H3) Hx Hxf. split_and!; [done..|]. destruct H3 as [H3|H3]; [left|by right]. intros k y Hk Hy.
  destruct (decide (k = a)) as [->|]; [congruence|]. apply (H3 k y); [lia|done].
Qed.

Lemma promoting_swap P a s s' col x v : 0 ∉ NF → promoting P a s col → (a < P ≤ s)%nat → (s ≤ s' < length col)%nat → col !! a = Some x → x ∉ NF →
  col !! s' = Some v → v ∈ NF ∨ v = 0 → (∀ k w, (s ≤ k < s')%nat → col !! k = Some w → w ∉ NF ∧ w ≠ 0) →
  promoting P (S a) (S s') (<[a := v]> (<[s' := x]> col)).
Proof.
  intros H0 (H1 & H2 & H3) Ha Hs Hx Hxf Hv Hv' Hskip.
  assert (∀ k, k ≠ a → k ≠ s' → <[a := v]> (<[s' := x]> col) !! k = col !! k) as Ho by (intros; by rewrite !list_lookup_insert_ne by lia).
  split_and!.
  - intros k y Hk. destruct (decide (k = s')) as [->|Hne].
    + rewrite list_lookup_insert_ne, list_lookup_insert_eq by lia. intros [= <-]. done.
    + rewrite Ho by lia. intros Hy. destruct (decide (k < s)%nat); [eapply H1; [|done]; lia|]. eapply Hskip; [|done]. lia.
  - intros k k' y Hk. rewrite !Ho by lia. apply H2. lia.
  - destruct Hv' as [Hvf| ->].
    + destruct H3 as [H3|H3]; [left|right].
      * intros k y Hk. destruct (decide (k = a)) as [->|]; [rewrite list_lookup_insert_eq by (rewrite length_insert; lia); congruence|].
        rewrite Ho by lia. apply H3. lia.
      * intros k y Hk. rewrite Ho by lia. apply H3. lia.
    + right. intros k y Hk. rewrite Ho by lia. intros Hy. rewrite (H2 s' k y) by (done || lia). done.
Qed.

(** From row [a] on, failed primaries change places with secondaries: the
    cells are the same, rows before [a] and primaries that have not failed
    stay. *)
Lemma promote_ok i (P n a s : nat) d col : shaped d → DMT.dmt_table d !! i = Some col → (a + n = P)%nat → (P ≤ s < length col)%nat →
  ∃ col', promote (seqZ (Z.of_nat a) (Z.of_nat n)) (Z.of_nat i) (Z.of_nat s) NF d = Ret (put i col' d) ∧ col' ≡ₚ col ∧
    (∀ k, (k < a)%nat → col' !! k = col !! k) ∧ (∀ k x, (k < P)%nat → col !! k = Some x → x ∈ NF → col' !! k = Some x) ∧
    (0 ∉ NF → promoting P a s col → promoted P col').
Proof.
  revert a s d col. induction n as [|n IH]; intros a s d col Hd Hi Ha Hs.
  - exists col. simpl. rewrite put_id by done. split_and!; [done..|]. intros _. replace a with P by lia. apply promoting_end.
  - rewrite seqZ_cons by lia. simpl promote. rewrite (getNodeGroup_ok d i col), bind_Ret by done.
    destruct (lookup_lt_is_Some_2 col a) as [x Hx]; [lia|]. rewrite (get_row col a x), bind_Ret by done.
    replace (Z.succ (Z.of_nat a)) with (Z.of_nat (S a)) by lia. replace (Z.pred (Z.of_nat (S n))) with (Z.of_nat n) by lia.
    pose proof (shaped_column d i col Hd Hi) as Hlen. unfold DMT.getDepth. rewrite <-Hlen, Nat2Z.id.
    case_decide as Hxf.
    2:{ destruct (IH (S a) s d col Hd Hi ltac:(lia) Hs) as (col' & E & Hp & Hk & Hn & Hpr). exists col'. split_and!; [done..| |done|].
        - intros k Hka. apply Hk. lia.
        - intros H0 Hpro. apply Hpr; [done|]. by eapply promoting_skip. }
    destruct (lookup_lt_is_Some_2 col s) as [v Hv]; [lia|]. rewrite (get_row col s v), bind_Ret by done.
    destruct (find_secondary_ok col (length col) s v Hv ltac:(lia)) as (s' & v' & E & Hle & Hfound & Hskip). rewrite E, bind_Ret.
    case_decide as Hs'.
    2:{ exists col. rewrite put_id by done. split_and!; [done..|]. intros _ (H1 & _). right. intros k y Hk Hy. apply lookup_lt_Some in Hy as Hyl.
        destruct (decide (k < s)%nat); [eapply H1; [|done]; lia|]. apply (Hskip k y); [lia|done]. }
    destruct (Hfound ltac:(lia)) as [Hv' Hv''].
    rewrite (setNode_ok d i s' x col), bind_Ret by (done || lia).
    destruct (put_column d i col (<[s' := x]> col) Hd Hi (length_insert _ _ _)) as [Hd1 Hi1].
    rewrite (setNode_ok _ i a v' (<[s' := x]> col)), bind_Ret by (done || (rewrite length_insert; lia)). rewrite put_put.
    set (col1 := <[a := v']> (<[s' := x]> col)). assert (length col1 = length col) as Hl1 by (unfold col1; by rewrite !length_insert).
    assert (col1 ≡ₚ col) as Hp1 by (apply swap_perm; [done..|lia]).
    assert (∀ k, (k < P)%nat → k ≠ a → col1 !! k = col !! k) as Hk1 by (intros k ? ?; unfold col1; by rewrite !list_lookup_insert_ne by lia).
    destruct (put_column d i col col1 Hd Hi Hl1) as [Hd2 Hi2]. change (DMT.depth (put i col1 d)) with (DMT.depth d). rewrite <-Hlen.
    assert (∀ k y, (k < P)%nat → col !! k = Some y → y ∈ NF → col1 !! k = Some y) as Hn1.
    { intros k y Hk Hy Hyf. rewrite Hk1; [done..|]. intros ->. congruence. }
    assert (0 ∉ NF → promoting P a s col → promoting P (S a) (S s') col1) as Hpro1.
    { intros H0 Hpro. by apply (promoting_swap P a s); try done; lia. }
    case_decide as Hend.
    { exists col1. split_and!; [done..| |done|]; [intros k Hk; apply Hk1; lia|]. intros H0 Hpro. destruct (Hpro1 H0 Hpro) as (H1 & _).
      right. intros k y Hk Hy. apply lookup_lt_Some in Hy as Hyl. apply (H1 k y); [lia|done]. }
    replace (Z.of_nat s' + 1) with (Z.of_nat (S s')) by lia.
    destruct (IH (S a) (S s') (put i col1 d) col1 Hd2 Hi2) as (col' & E' & Hp & Hk & Hn & Hpr); [lia|lia|]. rewrite put_put in E'.
    exists col'. split; [done|]. split; [by rewrite Hp|]. split_and!.
    + intros k Hka. rewrite Hk by lia. apply Hk1; lia.
    + intros k y Hky Hy Hyf. apply Hn; [done|by apply Hn1|done].
    + auto.
Qed.

(** Failed primaries become empty; with a sufficient count all of them do. *)
Definition vacated : list Z → list Z → Prop := Forall2 (λ x y, y = x ∨ (y = 0 ∧ x ∉ NF)).

Lemma vacated_refl col : vacated col col.
Proof. apply Forall_Forall2_diag, Forall_true. by left. Qed.

Lemma vacate_ok i (n a : nat) cnt d col : shaped d → DMT.dmt_table d !! i = Some col → (a + n ≤ length col)%nat → 0 ≤ cnt →
  ∃ col', vacate (seqZ (Z.of_nat a) (Z.of_nat n)) (Z.of_nat i) cnt NF d = Ret (put i col' d) ∧ vacated col col' ∧
    (∀ k, (k < a)%nat → col' !! k = col !! k) ∧
    (Z.of_nat (length (filter (λ u, u ∉ NF) (take n (drop a col)))) ≤ cnt → ∀ k x, (a ≤ k < a + n)%nat → col' !! k = Some x → x = 0 ∨ x ∈ NF).
Proof.
  revert a cnt d col. induction n as [|n IH]; intros a cnt d col Hd Hi Ha Hc.
  { exists col. simpl. rewrite put_id by done. split_and!; [done|apply vacated_refl|done|]. intros; lia. }
  rewrite seqZ_cons by lia. simpl vacate. destruct (lookup_lt_is_Some_2 col a) as [x Hx]; [lia|].
  rewrite (drop_S _ x a) by done. rewrite firstn_cons, filter_cons. case_decide as Hc0.
  { subst cnt. exists col. rewrite put_id by done. split_and!; [done|apply vacated_refl|done|]. case_decide as Hxf; [simpl; lia|].
    intros H0 k y Hk Hy. right. destruct (decide (y ∈ NF)) as [|Hn]; [done|]. exfalso.
    destruct (decide (k = a)) as [->|]; [by replace y with x in Hn by congruence|].
    assert (y ∈ filter (λ u, u ∉ NF) (take n (drop (S a) col))) as Hin.
    { apply list_elem_of_filter. split; [done|]. apply (list_elem_of_lookup_2 _ (k - S a)). rewrite lookup_take_lt, lookup_drop by lia.
      by replace (S a + (k - S a))%nat with k by lia. }
    destruct (filter _ _); [by apply not_elem_of_nil in Hin|simpl in H0; lia]. }
  rewrite (getNodeGroup_ok d i col), bind_Ret, (get_row col a x), bind_Ret by done.
  replace (Z.succ (Z.of_nat a)) with (Z.of_nat (S a)) by lia. replace (Z.pred (Z.of_nat (S n))) with (Z.of_nat n) by lia.
  destruct (decide (x ∈ NF)) as [Hxf|Hxf].
  - rewrite !(decide_False (P:=x ∉ NF)) by (intros Hq; by apply Hq).
    destruct (IH (S a) cnt d col) as (col' & E & Hv & Hk & Hz); [done..|lia|lia|]. exists col'. split_and!; [done..| |].
    + intros k Hka. apply Hk. lia.
    + intros Hle k y Hka Hy. destruct (decide (k = a)) as [->|]; [rewrite Hk in Hy by lia; right; congruence|]. apply (Hz Hle k y); [lia|done].
  - rewrite !(decide_True (P:=x ∉ NF)) by done. rewrite (setNode_ok d i a 0 col), bind_Ret by (done || lia).
    destruct (put_column d i col (<[a := 0]> col) Hd Hi (length_insert _ _ _)) as [Hd1 Hi1].
    destruct (IH (S a) (cnt - 1) (put i (<[a := 0]> col) d) (<[a := 0]> col)) as (col' & E & Hv & Hk & Hz); [done..|rewrite length_insert; lia|lia|].
    rewrite put_put in E. exists col'. split_and!; [done| | |].
    + apply Forall2_same_length_lookup. split; [by rewrite <-(Forall2_length _ _ _ Hv), length_insert|]. intros k y z Hy Hz'.
      destruct (decide (k = a)) as [->|Hne].
      * rewrite Hk, list_lookup_insert_eq in Hz' by lia. right. split; congruence.
      * apply (Forall2_lookup_lr _ _ _ k _ _ Hv); [by rewrite list_lookup_insert_ne|done].
    + intros k Hka. rewrite Hk by lia. by rewrite list_lookup_insert_ne by lia.
    + simpl. intros Hle k y Hka Hy. destruct (decide (k = a)) as [->|]; [rewrite Hk, list_lookup_insert_eq in Hy by lia; left; congruence|].
      apply (Hz ltac:(rewrite drop_insert_lt by lia; lia) k y); [lia|done].
Qed.
End Demotion.

Lemma partial_zeroed (S : gset Z) col col' : Forall2 (λ x y, y = x ∨ y = 0) col col' → partial_column S col → partial_column S col'.
Proof.
  intros Hf [Hn Hs].
  assert (filter (λ x, x ≠ 0) col' `sublist_of` filter (λ x, x ≠ 0) col ∧ ∀ x, x ∈ col' → x = 0 ∨ x ∈ col) as [Hsub Hin].
  { clear Hn Hs. induction Hf as [|x y l l' Hxy Hf [IH IH']]; [split; [done|by intros x Hx%not_elem_of_nil]|]. rewrite !filter_cons. split.
    - destruct Hxy as [->| ->]; [case_decide; [by constructor|done]|]. rewrite (decide_False (P:=0 ≠ 0)) by (intros Hq; by apply Hq).
      case_decide; [by constructor|done].
    - intros z. rewrite elem_of_cons. intros [->|Hz]; [destruct Hxy as [->| ->]; [right; by left|by left]|]. destruct (IH' z Hz); [by left|right; by right]. }
  split; [by eapply sublist_NoDup|]. intros x Hx. destruct (Hin x Hx) as [|Hc]; [by left|]. by apply Hs.
Qed.

(** An exchange of two of the first [m] rows *)
Lemma swap_within (m a b : nat) col x y : col !! a = Some x → col !! b = Some y → a ≠ b → (a < m)%nat → (b < m)%nat →
  take m (<[b := x]> (<[a := y]> col)) ≡ₚ take m col ∧ drop m (<[b := x]> (<[a := y]> col)) = drop m col.
Proof.
  intros Ha Hb Hab Ham Hbm. split; [|by rewrite !drop_insert_lt by lia]. rewrite !take_insert_lt by done.
  apply swap_perm; [by rewrite lookup_take_lt..|done].
Qed.

Lemma lead_ok i (n a : nat) d col : shaped d → DMT.dmt_table d !! i = Some col → (0 < a)%nat → (a + n ≤ length col)%nat → col !! O = Some 0 →
  ∃ col', lead (seqZ (Z.of_nat a) (Z.of_nat n)) (Z.of_nat i) d = Ret (put i col' d) ∧ length col' = length col ∧
    take (a + n) col' ≡ₚ take (a + n) col ∧ drop (a + n) col' = drop (a + n) col ∧
    ((∃ k x, (a ≤ k < a + n)%nat ∧ col !! k = Some x ∧ x ≠ 0) → col' !! O ≠ Some 0).
Proof.
  intros Hd Hi Ha Hl H0. revert a Ha Hl. induction n as [|n IH]; intros a Ha Hl.
  { exists col. simpl. rewrite put_id by done. split_and!; [done..|]. intros (k & x & Hk & _). lia. }
  rewrite seqZ_cons by lia. simpl lead. rewrite (getNodeGroup_ok d i col), bind_Ret by done.
  destruct (lookup_lt_is_Some_2 col a) as [x Hx]; [lia|]. rewrite (get_row col a x), bind_Ret by done.
  replace (Z.succ (Z.of_nat a)) with (Z.of_nat (S a)) by lia. replace (Z.pred (Z.of_nat (S n))) with (Z.of_nat n) by lia.
  case_decide as Hx0.
  - pose proof (setNode_ok d i 0 x col Hd Hi ltac:(lia)) as E0. change (Z.of_nat 0) with 0 in E0. rewrite E0, bind_Ret.
    destruct (put_column d i col (<[O := x]> col) Hd Hi (length_insert _ _ _)) as [Hd1 Hi1].
    rewrite (setNode_ok _ i a 0 (<[O := x]> col)) by (done || (rewrite length_insert; lia)). rewrite put_put.
    exists (<[a := 0]> (<[O := x]> col)). split; [done|]. split; [by rewrite !length_insert|].
    destruct (swap_within (a + S n) 0 a col 0 x) as [Ht Hdr]; [done..|lia|lia|lia|]. split_and!; [done..|].
    intros _. rewrite list_lookup_insert_ne, list_lookup_insert_eq by lia. congruence.
  - destruct (IH (S a)) as (col' & E & Hl' & Ht & Hdr & Hn); [lia..|]. replace (S a + n)%nat with (a + S n)%nat in * by lia.
    exists col'. split_and!; [done..|]. intros (k & y & Hk & Hy & Hy0). apply Hn. exists k, y. split_and!; [|lia|done..].
    destruct (decide (k = a)) as [->|]; [congruence|lia].
Qed.

(** ** Columns after the demotion *)
Definition zeros_last col : Prop := ∀ k k' y, (k < k')%nat → col !! k = Some 0 → col !! k' = Some y → y = 0.

(** The first [P] rows hold data managers that have not failed, or are empty
    and then there is no other such data manager in the column. *)
Definition primaries (NF : gset Z) (P : nat) col : Prop :=
  (∀ k x, (k < P)%nat → col !! k = Some x → x = 0 ∨ x ∈ NF) ∧
  ((∃ k, (k < P)%nat ∧ col !! k = Some 0) → ∀ k y, (P ≤ k)%nat → col !! k = Some y → y ∉ NF).

Record demoted (S NF : gset Z) (P : nat) col col' : Prop := {
  de_length : length col' = length col;
  de_partial : partial_column S col → partial_column S col';
  de_cells x : x ∈ col' → x = 0 ∨ x ∈ col;
  de_first : col' !! O ≠ Some 0;
  de_primaries : (P ≤ size NF)%nat → primaries NF P col';
}.

Section DemoteColumn.
Context (S NF : gset Z) (P : nat) (HNF : 0 ∉ NF) (HP : (0 < P)%nat).

(** All primaries are fine: nothing is left to do. *)
Lemma demoted_done col col' : col' ≡ₚ col → (∀ k x, (k < P)%nat → col' !! k = Some x → x ∈ NF) → (P < length col)%nat → demoted S NF P col col'.
Proof.
  intros Hp Hall Hl. split.
  - by rewrite Hp.
  - by apply partial_perm.
  - intros x Hx. right. by rewrite <-Hp.
  - intros H0. by apply HNF, (Hall O).
  - intros _. split; [intros k x Hk Hx; right; by eapply Hall|]. intros (k & Hk & Hk0). exfalso. by apply HNF, (Hall k).
Qed.

(** A column after the promotion has a primary that has not failed. *)
Lemma promoted_has col : promoted NF P col → (P < length col)%nat → (∃ u, u ∈ col ∧ u ∈ NF) → ∃ k u, (k < P)%nat ∧ col !! k = Some u ∧ u ∈ NF.
Proof.
  intros [Hl|Hr] Hlen (u & Hu & Huf).
  - destruct (lookup_lt_is_Some_2 col 0) as [x Hx]; [lia|]. exists O, x. split; [done|]. split; [done|]. by eapply Hl.
  - apply list_elem_of_lookup_1 in Hu as [k Hk]. exists k, u. split; [|done]. destruct (decide (k < P)%nat); [done|]. exfalso. by apply (Hr k u); [lia|..].
Qed.

Lemma filter_lt (l : list Z) u : u ∈ l → u ∈ NF → (length (filter (λ x, x ∉ NF) l) < length l)%nat.
Proof.
  intros (l1 & l2 & ->)%list_elem_of_split Hu. rewrite filter_app, filter_cons, decide_False by (intros Hq; by apply Hq).
  rewrite !length_app. simpl. pose proof (length_filter (λ x, x ∉ NF) l1). pose proof (length_filter (λ x, x ∉ NF) l2). lia.
Qed.

(** Emptying failed primaries after the promotion, with the first row taken
    over *)
Lemma vacated_demoted col col1 col2 col3 : col1 ≡ₚ col → promoted NF P col1 → ¬ (∀ k x, (k < P)%nat → col1 !! k = Some x → x ∈ NF) →
  vacated NF col1 col2 → ((P ≤ size NF)%nat → ∀ k x, (k < P)%nat → col2 !! k = Some x → x = 0 ∨ x ∈ NF) →
  length col3 = length col2 → take P col3 ≡ₚ take P col2 → drop P col3 = drop P col2 → col3 !! O ≠ Some 0 → demoted S NF P col col3.
Proof.
  intros Hp Hpro Hnot Hv Hprim Hl Ht Hd Hf.
  assert (col3 ≡ₚ col2) as Hp3 by (by rewrite <-(take_drop P col3), <-(take_drop P col2), Ht, Hd).
  pose proof (Forall2_length _ _ _ Hv) as Hl12. split.
  - rewrite Hl, <-Hl12. by rewrite Hp.
  - intros Hpart. eapply partial_perm; [symmetry; exact Hp3|]. apply (partial_zeroed S col1); [|by eapply partial_perm; [symmetry|]].
    eapply Forall2_impl; [exact Hv|]. naive_solver.
  - intros x. rewrite Hp3. intros Hx. apply list_elem_of_lookup_1 in Hx as [k Hk]. destruct (lookup_lt_is_Some_2 col1 k) as [y Hy].
    { rewrite Hl12. by apply lookup_lt_Some in Hk. }
    destruct (Forall2_lookup_lr _ _ _ k _ _ Hv Hy Hk) as [->|[-> _]]; [|by left]. right. rewrite <-Hp. by eapply list_elem_of_lookup_2.
  - done.
  - intros Hsize. split.
    + intros k x Hk Hx. assert (x ∈ take P col2) as Hin.
      { rewrite <-Ht. apply (list_elem_of_lookup_2 _ k). by rewrite lookup_take_lt. }
      apply list_elem_of_lookup_1 in Hin as [k' Hk']. apply lookup_take_Some in Hk' as [Hk' Hlt]. by apply (Hprim Hsize k').
    + intros _ k y Hk Hy. destruct Hpro as [Hpro|Hpro]; [done|].
      assert (col2 !! k = Some y) as Hy2.
      { replace k with (P + (k - P))%nat in * by lia. rewrite <-lookup_drop in Hy |- *. by rewrite <-Hd. }
      destruct (lookup_lt_is_Some_2 col1 k) as [z Hz]; [rewrite Hl12; by apply lookup_lt_Some in Hy2|].
      destruct (Forall2_lookup_lr _ _ _ k _ _ Hv Hz Hy2) as [->|[-> _]]; [by apply (Hpro k)|done].
Qed.

Lemma demote_column_ok i d col : shaped d → DMT.dmt_table d !! i = Some col → (P < length col)%nat → zeros_last col → (∃ u, u ∈ col ∧ u ∈ NF) →
  Z.of_nat (size NF) < 2 ^ 32 → ∃ col', demote_column (Z.of_nat P) NF false d (Z.of_nat i) = Ret (put i col' d) ∧ demoted S NF P col col'.
Proof.
  intros Hs Hi Hlen Hz Hex Hsz. unfold demote_column. rewrite (getNodeGroup_ok d i col), bind_Ret by done.
  rewrite count_failed_ok, bind_Ret by lia. case_decide as Hn0.
  { exists col. rewrite put_id by done. split; [done|]. apply demoted_done; [done| |done]. apply count_failed_zero. lia. }
  destruct (promote_ok NF i P P 0 P d col Hs Hi) as (col1 & E1 & Hp1 & _ & _ & Hpro); [lia|lia|]. change (Z.of_nat 0) with 0 in E1. rewrite E1, bind_Ret.
  assert (promoted NF P col1) as Hpro1.
  { apply Hpro; [done|]. split_and!; [intros; lia| |left; intros; lia]. intros k k' y Hk. apply Hz. lia. }
  assert (length col1 = length col) as Hl1 by (by rewrite Hp1). destruct (put_column d i col col1 Hs Hi Hl1) as [Hs1 Hi1].
  destruct (promoted_has col1 Hpro1) as (k0 & u0 & Hk0 & Hu0 & Hu0f); [lia|setoid_rewrite Hp1; done|].
  rewrite (getNodeGroup_ok _ i col1), bind_Ret, count_failed_ok, bind_Ret by (done || lia).
  assert (length (filter (λ u, u ∉ NF) (take P col1)) < P)%nat as Hcnt.
  { eapply Nat.lt_le_trans; [apply (filter_lt _ u0); [|done]|rewrite length_take; lia]. apply (list_elem_of_lookup_2 _ k0). by rewrite lookup_take_lt. }
  rewrite (decide_False (P:=_ = Z.of_nat P)) by lia. case_decide as Hn1.
  { exists col1. split; [done|]. apply demoted_done; [done| |done]. apply count_failed_zero. lia. }
  assert (0 < size NF)%nat as Hpos by (destruct (size NF) eqn:Esz; [apply size_empty_inv in Esz; set_solver|lia]).
  rewrite u32_small, fds_verify_true, bind_Ret by lia.
  destruct (vacate_ok NF i P 0 (Z.of_nat (size NF) - 1) _ col1 Hs1 Hi1) as (col2 & E2 & Hv & _ & Hz2); [lia|lia|].
  change (Z.of_nat 0) with 0 in E2. rewrite E2, bind_Ret, put_put. pose proof (Forall2_length _ _ _ Hv) as Hl2.
  destruct (put_column d i col col2 Hs Hi ltac:(lia)) as [Hs2 Hi2]. rewrite (getNodeGroup_ok _ i col2), bind_Ret by done.
  destruct (lookup_lt_is_Some_2 col2 0) as [y0 Hy0]; [lia|]. pose proof (get_row col2 0 y0 Hy0) as Eg. change (Z.of_nat 0) with 0 in Eg. rewrite Eg, bind_Ret.
  assert (Hnot : ¬ (∀ k x, (k < P)%nat → col1 !! k = Some x → x ∈ NF)).
  { intros Hall. apply Hn1. rewrite filter_none; [done|]. intros x Hx Hq. apply list_elem_of_lookup_1 in Hx as [k Hk].
    apply lookup_take_Some in Hk as [Hk Hlt]. by apply Hq, (Hall k). }
  assert (Hprim : (P ≤ size NF)%nat → ∀ k x, (k < P)%nat → col2 !! k = Some x → x = 0 ∨ x ∈ NF).
  { intros Hle k x Hk. apply Hz2; [|lia]. rewrite drop_0. lia. }
  case_decide as Hy00.
  - subst y0. destruct (lead_ok i (P - 1) 1 (put i col2 d) col2 Hs2 Hi2) as (col3 & E3 & Hl3 & Ht3 & Hd3 & Hn3); [lia|lia|done|].
    replace (1 + (P - 1))%nat with P in * by lia. replace (Z.of_nat (P - 1)) with (Z.of_nat P - 1) in E3 by lia. change (Z.of_nat 1) with 1 in E3.
    rewrite put_put in E3. exists col3. split; [done|]. eapply vacated_demoted; eauto. apply Hn3. exists k0, u0.
    assert (col2 !! k0 = Some u0) as Hk2.
    { destruct (Forall2_lookup_l _ _ _ _ _ Hv Hu0) as (z & Hk2 & [->|[_ Hq]]); done. }
    split_and!; [|lia|done|congruence]. destruct (decide (k0 = O)) as [->|]; [congruence|lia].
  - exists col2. split; [done|]. eapply vacated_demoted; eauto. congruence.
Qed.
End DemoteColumn.
