(* ===== verification/VolPlacementUpdate.v ===== *)
(** * Updates of a volume placement

    The theorem about [DynamicRRAlgorithm::updateDMT]: from a valid table and a
    change of the domain it computes a valid table, whose first row has no
    data manager that was not in the column before, and whose primaries have
    not failed if enough data managers are left. *)

From S2P Require Import Prelude PlacementTable Dmt Double ClusterMap VolPlacementAlgo VolPlacementRows VolPlacementSpec.
Open Scope Z_scope.

Import DmtRowBalancer DynamicRRAlgorithm.
Implicit Types (d : DMT.t) (col : list Z) (i k r : nat) (u : Z).

(** ** Copied columns *)
Section Copied.
Context (S rm : gset Z) (D : nat) (c0 : list Z) (Hnd : NoDup c0) (Hnz : 0 ∉ c0) (HS : ∀ u, u ∈ c0 → u ∈ S ∨ u ∈ rm).

Abbreviation kept := (take D (filter (λ u, u ∉ rm) c0)).

Lemma kept_elem u : u ∈ kept → u ∈ c0 ∧ u ∉ rm.
Proof. intros Hu. apply elem_of_take in Hu as (k & Hk & _). apply list_elem_of_lookup_2, list_elem_of_filter in Hk. naive_solver. Qed.

Lemma kept_nonzero : 0 ∉ kept.
Proof. intros H. by apply kept_elem in H as [? _]. Qed.

Lemma length_copied : length (copied rm D c0) = D.
Proof. unfold copied. rewrite length_app, length_replicate, length_take. lia. Qed.

Lemma copied_partial : partial_column S (copied rm D c0).
Proof.
  split.
  - unfold copied. rewrite filter_app, (filter_none _ (replicate _ _)), app_nil_r by (intros x Hx%elem_of_replicate_inv; naive_solver).
    refine (sublist_NoDup _ c0 Hnd _). etrans; [apply sublist_filter|]. etrans; [apply sublist_take|apply sublist_filter].
  - intros x. unfold copied. rewrite elem_of_app. intros [Hx|Hx%elem_of_replicate_inv]; [|by left]. right.
    apply kept_elem in Hx as [Hx Hr]. by destruct (HS x Hx).
Qed.

Lemma copied_zeros_last : zeros_last (copied rm D c0).
Proof.
  intros k k' y Hk H0 Hy. unfold copied in *. destruct (decide (k < length kept)%nat) as [Hl|Hl].
  - rewrite lookup_app_l in H0 by done. apply list_elem_of_lookup_2 in H0. by apply kept_nonzero in H0.
  - rewrite lookup_app_r in Hy by lia. apply lookup_replicate in Hy. naive_solver.
Qed.

Lemma copied_elem x : x ∈ copied rm D c0 → x = 0 ∨ (x ∈ c0 ∧ x ∉ rm).
Proof. unfold copied. rewrite elem_of_app. intros [Hx|Hx%elem_of_replicate_inv]; [right; by apply kept_elem|by left]. Qed.

Lemma copied_first (NF : gset Z) : (∃ u, u ∈ kept ∧ u ∈ NF) → copied rm D c0 !! O ≠ Some 0.
Proof.
  intros (u & Hu & _). unfold copied. destruct kept as [|x l] eqn:E; [by apply not_elem_of_nil in Hu|]. simpl. intros [= ->].
  apply kept_nonzero. rewrite E. by left.
Qed.
End Copied.

(** ** Steps and primaries *)
Lemma steps_primaries (NF : gset Z) r (P : nat) (keys : list Z) (e : bool) col col' : 0 ∉ NF → (r < P)%nat → (∀ u, u ∈ keys → u ∈ NF) →
  cell_steps r P keys e col col' → primaries NF P col → primaries NF P col'.
Proof.
  intros HNF Hr Hkeys. apply steps_keep. intros c c' [H1 H2] Hst. revert H1 H2.
  destruct Hst as [c a x y Ha Hx Hx0 Hy Hy0|c x u Hx _ Hu Hnew]; intros H1 H2; apply lookup_lt_Some in Hx as Hxl.
  - apply lookup_lt_Some in Hy as Hyl. split.
    + intros k z Hk. destruct (decide (k = a)) as [->|]; [rewrite list_lookup_insert_eq by (by rewrite length_insert); intros [= <-]; exact (H1 r _ Hr Hx)|].
      rewrite list_lookup_insert_ne by done. destruct (decide (k = r)) as [->|]; [rewrite list_lookup_insert_eq by done; intros [= <-]; apply (H1 a); [lia|done]|].
      rewrite list_lookup_insert_ne by done. by apply H1.
    + intros (k & Hk & Hk0) k' z Hk' Hz. rewrite !list_lookup_insert_ne in Hz by lia. revert Hz. apply H2; [|done]. exists k. split; [done|]. revert Hk0.
      destruct (decide (k = a)) as [->|]; [rewrite list_lookup_insert_eq by (by rewrite length_insert); congruence|].
      rewrite list_lookup_insert_ne by done. destruct (decide (k = r)) as [->|]; [rewrite list_lookup_insert_eq by done; congruence|].
      by rewrite list_lookup_insert_ne.
  - split.
    + intros k z Hk. destruct (decide (k = r)) as [->|]; [rewrite list_lookup_insert_eq by done; intros [= <-]; right; auto|].
      rewrite list_lookup_insert_ne by done. by apply H1.
    + intros (k & Hk & Hk0) k' z Hk' Hz. rewrite list_lookup_insert_ne in Hz by lia. revert Hz. apply H2; [|done]. exists k. split; [done|].
      destruct (decide (k = r)) as [->|]; [rewrite list_lookup_insert_eq in Hk0 by done; injection Hk0 as ->; naive_solver|].
      by rewrite list_lookup_insert_ne in Hk0.
Qed.

(** With enough data managers an empty primary can be filled. *)
Lemma primaries_free (S NF : gset Z) (P : nat) r col : 0 ∉ NF → primaries NF P col → partial_column S col → (P ≤ size NF)%nat → (r < P)%nat →
  (P ≤ length col)%nat → col !! r = Some 0 → ¬ (∀ u, u ∈ NF → u ∈ col).
Proof.
  intros HNF [H1 H2] [Hn _] Hsz Hr Hl H0 Hall. set (l := filter (λ x, x ≠ 0) (take P col)).
  assert (length l < P)%nat as Hlt.
  { unfold l. rewrite <-(take_drop_middle (take P col) r 0) by (by rewrite lookup_take_lt).
    rewrite filter_app, filter_cons, decide_False by (intros Hq; by apply Hq). rewrite length_app.
    pose proof (length_filter (λ x, x ≠ 0) (take r (take P col))). pose proof (length_filter (λ x, x ≠ 0) (drop (Datatypes.S r) (take P col))).
    rewrite length_take, length_take in *. rewrite length_drop, length_take in *. lia. }
  assert (size NF ≤ length l)%nat; [|lia]. change (size NF) with (length (elements NF)).
  apply submseteq_length, NoDup_submseteq; [apply NoDup_elements|]. intros x Hx%elem_of_elements. pose proof (Hall x Hx) as Hc.
  apply list_elem_of_filter. split; [by intros ->|]. apply list_elem_of_lookup_1 in Hc as [k Hk].
  destruct (decide (k < P)%nat); [apply (list_elem_of_lookup_2 _ k); by rewrite lookup_take_lt|].
  exfalso. apply (H2 ltac:(eauto) k x); [lia|done..].
Qed.

(** ** The tables of an update *)
Section Tables.
Context (S NF rm : gset Z) (P : nat) (cur dn : DMT.t).
Context (HS0 : 0 ∉ S) (HNF : NF ⊆ S) (Hsize : Z.of_nat (size S) < 2 ^ 32).
Context (Hcur : shaped cur) (Hdn : shaped dn) (Hcols : DMT.columns dn = DMT.columns cur) (Hdep : 0 < DMT.depth dn).

Abbreviation D := (Z.to_nat (DMT.depth dn)).

(** Data managers of column [i] that stay, and the columns to start with:
    what is kept of each has a data manager that has not failed. *)
Definition stays i u : Prop := ∃ c0, DMT.dmt_table cur !! i = Some c0 ∧ u ∈ c0 ∧ u ∉ rm.
Definition column_before (c0 : list Z) : Prop :=
  NoDup c0 ∧ 0 ∉ c0 ∧ (∀ u, u ∈ c0 → u ∈ S ∨ u ∈ rm) ∧ ∃ u, u ∈ take D (filter (λ u, u ∉ rm) c0) ∧ u ∈ NF.

Context (Hbefore : Forall column_before (DMT.dmt_table cur)).

Record started i col : Prop := {
  st_partial : partial_column S col;
  st_cells x : x ∈ col → x = 0 ∨ stays i x;
  st_first : col !! O ≠ Some 0;
  st_primaries : (P < D)%nat → (P ≤ size NF)%nat → primaries NF P col;
}.

Definition table_started (d : DMT.t) : Prop :=
  shaped d ∧ DMT.base d = DMT.base dn ∧ ∀ i col, DMT.dmt_table d !! i = Some col → started i col.

Lemma copy_phase : ∃ d, for_range (DMT.columns dn) (copy_column rm cur) dn = Ret d ∧ shaped d ∧ DMT.base d = DMT.base dn ∧
  ∀ i col, DMT.dmt_table d !! i = Some col → ∃ c0, DMT.dmt_table cur !! i = Some c0 ∧ column_before c0 ∧ col = copied rm D c0.
Proof.
  destruct (columns_loop (λ d, d) (copy_column rm cur) (λ _ _, True) (λ _ _, True)
    (λ i _ col, ∃ c0, DMT.dmt_table cur !! i = Some c0 ∧ column_before c0 ∧ col = copied rm D c0) dn) as (d & E & Hs & Hb & _ & HQ); [done..| |].
  - intros i d c Hs Hb Hc _ _.
    assert (i < length (DMT.dmt_table cur))%nat as Hi.
    { apply lookup_lt_Some in Hc. destruct Hs as (_ & _ & Hl & _), Hcur as (_ & _ & Hl' & _). unfold DMT.columns in *. rewrite Hb in Hl. lia. }
    apply lookup_lt_is_Some_2 in Hi as [c0 Hc0]. assert (DMT.depth d = DMT.depth dn) as Hdd by (unfold DMT.depth; by rewrite Hb).
    exists (put i (copied rm D c0) d), (copied rm D c0). rewrite (copy_column_ok rm cur i d c0 c), Hdd by (done || lia).
    split_and!; [done..| |].
    + exists c0. split_and!; [done| |done]. by eapply Forall_lookup_1.
    + pose proof (shaped_column d i c Hs Hc). rewrite length_copied. lia.
  - exists d. split_and!; [done..|]. intros i col Hi. destruct (HQ i col Hi) as (_ & _ & H). done.
Qed.

Lemma copied_started i c0 : DMT.dmt_table cur !! i = Some c0 → column_before c0 → (P = 0 ∨ D ≤ P)%nat → started i (copied rm D c0).
Proof.
  intros Hi (Hnd & Hnz & Hin & Hup) HP. split.
  - by apply copied_partial.
  - intros x [->|[Hx Hr]]%copied_elem; [by left|]. right. by exists c0.
  - eapply copied_first; done.
  - intros Hlt _. destruct HP as [->|]; [|lia]. split; [intros; lia|]. intros (k & Hk & _). lia.
Qed.

Lemma demoted_started i c0 col : DMT.dmt_table cur !! i = Some c0 → column_before c0 → demoted S NF P (copied rm D c0) col → started i col.
Proof.
  intros Hi (Hnd & Hnz & Hin & Hup) [_ Hpart Hcells Hfirst Hprim]. split.
  - by apply Hpart, copied_partial.
  - intros x [->|[->|[Hx Hr]]%copied_elem]%Hcells; [by left..|]. right. by exists c0.
  - done.
  - auto.
Qed.

Lemma demote_phase d : shaped d → DMT.base d = DMT.base dn →
  (∀ i col, DMT.dmt_table d !! i = Some col → ∃ c0, DMT.dmt_table cur !! i = Some c0 ∧ column_before c0 ∧ col = copied rm D c0) →
  ∃ d', demoteFailedPrimaries (Z.of_nat P) NF false d = Ret d' ∧ table_started d'.
Proof.
  intros Hs Hb Hcop. unfold demoteFailedPrimaries, DMT.getDepth. assert (DMT.depth d = DMT.depth dn) as Hdd by (unfold DMT.depth; by rewrite Hb).
  assert (0 ∉ NF) as HNF0 by set_solver. rewrite Hdd. case_decide as HP0; [|case_decide as HPD].
  - exists d. split; [done|]. split_and!; [done..|]. intros i col (c0 & Hc0 & Hbef & ->)%Hcop. apply copied_started; [done..|lia].
  - exists d. split; [done|]. split_and!; [done..|]. intros i col (c0 & Hc0 & Hbef & ->)%Hcop. apply copied_started; [done..|lia].
  - destruct (columns_loop (λ d, d) (demote_column (Z.of_nat P) NF false) (λ _ _, True)
      (λ i col, ∃ c0, DMT.dmt_table cur !! i = Some c0 ∧ column_before c0 ∧ col = copied rm D c0) (λ i _ col, started i col) d)
      as (d' & E & Hs' & Hb' & _ & HQ); [done..| |].
    + intros i d1 col Hs1 Hb1 Hc1 (c0 & Hc0 & Hbef & ->) _. pose proof Hbef as (Hnd & Hnz & Hin & u & Hu & HuN).
      destruct (demote_column_ok S NF P HNF0 ltac:(lia) i d1 (copied rm D c0)) as (col' & E & Hdem); [done..| | | | |].
      * rewrite length_copied. lia.
      * by apply copied_zeros_last.
      * exists u. split; [|done]. unfold copied. apply elem_of_app. by left.
      * apply subseteq_size in HNF. lia.
      * exists (put i col' d1), col'. rewrite E. split_and!; [done..| |apply Hdem]. by eapply demoted_started.
    + exists d'. unfold DMT.getNumColumns. rewrite E. split; [done|]. split_and!; [done|by rewrite Hb'|]. intros i col Hi. by destruct (HQ i col Hi) as (? & _ & ?).
Qed.

(** ** Rows *)
Context (set_order : Z → gset Z → list Z) (Horder : ∀ (n : Z) s, set_order n s ≡ₚ elements s).
Context (Hbound : 3 * DMT.columns dn * DMT.depth dn < 10000) (Hdepth : (D ≤ size S)%nat) (HPD : (P ≤ D)%nat).

Lemma order_elem (n : Z) s u : u ∈ set_order n s ↔ u ∈ s.
Proof. rewrite (Horder n s). apply elem_of_elements. Qed.

Lemma order_length (n : Z) s : s ⊆ S → Z.of_nat (length (set_order n s)) < 2 ^ 53.
Proof. intros Hs%subseteq_size. rewrite (Horder n s). change (length (elements s)) with (size s). lia. Qed.

Lemma steps_started i m keys col col' : (m = P ∨ D ≤ P ∨ P = 0)%nat → (0 < m)%nat → (∀ u, u ∈ keys → u ∈ NF) →
  cell_steps 0 m keys true col col' → started i col → started i col'.
Proof.
  intros Hm Hm0 Hkeys Hst [Hpart Hcells Hfirst Hprim]. assert (0 ∉ keys) as Hk0 by (intros Hk%Hkeys; set_solver).
  assert ((∀ x, x ∈ col' → x = 0 ∨ stays i x) ∧ col' !! O ≠ Some 0) as [Hcells' Hfirst'].
  { refine (steps_keep (λ c, (∀ x, x ∈ c → x = 0 ∨ stays i x) ∧ c !! O ≠ Some 0) _ _ _ _ _ _ _ Hst (conj Hcells Hfirst)).
    intros c c' [H1 H2] Hstep. split; [|eapply (steps_nonzero 0 m); [done|by apply rtc_once|done]].
    destruct Hstep as [c a x y Ha Hx _ Hy _|c x u Hx Hx0 _ _]; [|naive_solver]. intros z. rewrite swap_perm by (done || lia). apply H1. }
  split; [|done..|].
  - eapply steps_partial; [|done..]. set_solver.
  - intros H1 H2. destruct Hm as [->|[|H0]]; [|lia|rewrite H0; split; [intros; lia|intros (k & Hk & _); lia]]. eapply steps_primaries; [..|done|auto]; [set_solver|lia|done].
Qed.

Lemma primary_phase d (adds : gset Z) : table_started d → ∃ b0 b d',
  make (set_order 0 NF) d 0 None = Ret b0 ∧
  (if decide (adds ≠ ∅ ∨ rm ≠ ∅) then
     let balanceDepth := if decide (Z.of_nat P > 0 ∧ Z.of_nat P < DMT.getDepth d) then Z.of_nat P else DMT.getDepth d in
     balanceWithinColumn balanceDepth b0 d else Ret (b0, d)) = Ret (b, d') ∧
  table_started d' ∧ ∃ keys, diffs_ok keys (3 * DMT.columns dn) b.
Proof.
  intros (Hs & Hb & Hst). assert (DMT.depth d = DMT.depth dn) as Hdd by (unfold DMT.depth; by rewrite Hb).
  assert (DMT.columns d = DMT.columns dn) as Hcc by (unfold DMT.columns; by rewrite Hb).
  assert (0 ≤ DMT.columns dn) as Hc0 by apply Hdn. assert (3 * DMT.columns dn < 10000) by nia.
  destruct (make_ok (set_order 0 NF) 0 d None 0) as (b0 & E0 & Hrow & Hb0); [done|lia|lia|lia|by apply order_length|done|].
  exists b0. change (Z.of_nat 0) with 0 in E0. rewrite E0. case_decide; cycle 1.
  { exists b0, d. split_and!; [done..|]. exists (set_order 0 NF). eapply diffs_ok_mono; [done|lia]. }
  cbv zeta. unfold DMT.getDepth. rewrite Hdd. set (m := if decide (0 < P < D)%nat then P else D).
  replace (if decide (Z.of_nat P > 0 ∧ Z.of_nat P < DMT.depth dn) then Z.of_nat P else DMT.depth dn) with (Z.of_nat m)
    by (unfold m; repeat case_decide; lia).
  destruct (balanceWithinColumn_ok S (set_order 0 NF) 0 m HS0) with (e := true) (B := DMT.columns d + 0) (b := b0) (d := d)
    as (b & d' & E & Hrow' & Hb' & Hs' & Hbase & Hcols'); [intros u ?%order_elem; set_solver|unfold m; case_decide; lia|done|done|done|lia|lia|unfold m; case_decide; lia|].
  exists b, d'. split; [done|]. split; [done|]. split; [|exists (set_order 0 NF); eapply diffs_ok_mono; [done|lia]].
  split; [done|]. split; [by rewrite Hbase|].
  intros i col' (col & Hi & Hsteps)%Hcols'. eapply (steps_started i m); [| | |done|by apply Hst].
  - unfold m. case_decide; lia.
  - unfold m. case_decide; lia.
  - intros u. by rewrite order_elem.
Qed.
(** Enough data managers are left for the primaries. *)
Abbreviation enough := ((P < D)%nat ∧ (P ≤ size NF)%nat).

(** Column [i] when the first [j] rows are done *)
Record column_ok i (j : nat) col : Prop := {
  co_partial : partial_column S col;
  co_filled k : (k < j)%nat → col !! k ≠ Some 0;
  co_first : ∃ x, col !! O = Some x ∧ stays i x;
  co_primaries : enough → primaries NF P col;
}.

Definition columns_ok (j : nat) d : Prop :=
  shaped d ∧ DMT.base d = DMT.base dn ∧ ∀ i col, DMT.dmt_table d !! i = Some col → column_ok i j col.

Lemma started_ok d : table_started d → columns_ok 1 d.
Proof.
  intros (Hs & Hb & Hst). split; [done|]. split; [done|]. intros i col Hi. destruct (Hst i col Hi) as [Hpart Hcells Hfirst Hprim]. split.
  - done.
  - intros k Hk. by replace k with O by lia.
  - pose proof (shaped_column d i col Hs Hi) as Hl. assert (DMT.depth d = DMT.depth dn) as Hdd by (unfold DMT.depth; by rewrite Hb).
    destruct (lookup_lt_is_Some_2 col 0) as [x Hx]; [lia|]. exists x. split; [done|].
    destruct (Hcells x) as [->|]; [by eapply list_elem_of_lookup_2|done|done].
  - intros [? ?]. auto.
Qed.

(** Keys a pass over row [j] may use without harm to the primaries *)
Definition keys_fit (j m : nat) (keys : list Z) : Prop :=
  (j < m)%nat ∧ (∀ u, u ∈ keys → u ∈ S) ∧ ((P ≤ j)%nat ∨ (m = P ∧ (enough → ∀ u, u ∈ keys → u ∈ NF))).

Lemma steps_ok i (j m : nat) keys (e : bool) col col' : (1 ≤ j)%nat → keys_fit j m keys → cell_steps j m keys e col col' →
  column_ok i j col → column_ok i j col'.
Proof.
  intros Hj (Hm & Hkeys & Hfit) Hst [Hpart Hfilled Hfirst Hprim]. split.
  - by eapply steps_partial.
  - intros k Hk. rewrite (steps_outside j m keys e col col') by (done || lia). auto.
  - rewrite (steps_outside j m keys e col col') by (done || lia). done.
  - intros Hen. specialize (Hprim Hen). destruct Hfit as [HPj|[-> Hin]]; [|eapply steps_primaries; [..|done|done]; [set_solver|lia|auto]].
    destruct Hprim as [H1 H2]. split.
    + intros k x Hk. rewrite (steps_outside j m keys e col col') by (done || lia). by apply H1.
    + intros (k & Hk & Hk0). rewrite (steps_outside j m keys e col col') in Hk0 by (done || lia). exfalso. by apply (Hfilled k); [lia|].
Qed.

Lemma passed_ok (j m : nat) keys (e : bool) B d b' d' : (1 ≤ j)%nat → keys_fit j m keys → columns_ok j d →
  passed keys j m e B d b' d' → columns_ok j d'.
Proof.
  intros Hj Hfit (Hs & Hb & Hok) (_ & _ & Hs' & Hb' & Hst). split; [done|]. split; [by rewrite Hb'|].
  intros i col' (col & Hi & Hsteps)%Hst. eapply steps_ok; eauto.
Qed.

Lemma filled_ok (j : nat) d : columns_ok j d → filled j d → columns_ok (Datatypes.S j) d.
Proof.
  intros (Hs & Hb & Hok) Hf. split; [done|]. split; [done|]. intros i col Hi. destruct (Hok i col Hi) as [Hpart Hfill Hfirst Hprim]. split; [done| |done..].
  intros k Hk. destruct (decide (k = j)) as [->|]; [by eapply Hf|]. apply Hfill. lia.
Qed.

Lemma columns_ok_partial (j : nat) d : columns_ok j d → Forall (partial_column S) (DMT.dmt_table d).
Proof. intros (_ & _ & Hok). apply Forall_lookup_2. intros i col Hi. by apply (Hok i). Qed.

Lemma bound_row (j : nat) : (j < D)%nat → 0 ≤ 3 * DMT.columns dn * Z.of_nat j ∧ 3 * DMT.columns dn * (Z.of_nat j + 1) < 10000.
Proof. intros Hj. assert (0 ≤ DMT.columns dn) by apply Hdn. nia. Qed.

(** A pass over a primary row: only with too few data managers a cell may
    stay empty. *)
Lemma primary_row (n : Z) (j : nat) d nodes prev keys0 : (1 ≤ j < P)%nat → columns_ok j d → nodes ⊆ S → (enough → nodes = NF) →
  diffs_ok keys0 (3 * DMT.columns dn * Z.of_nat j) prev →
  ∃ b b' d' e, make (set_order n nodes) d (Z.of_nat j) (Some prev) = Ret b ∧ balancePrimary (Z.of_nat P) b d = Ret (b', d', e) ∧
    columns_ok j d' ∧ diffs_ok (set_order n nodes) (3 * DMT.columns dn * (Z.of_nat j + 1)) b' ∧
    ((e = ERR_OK ∧ filled j d') ∨ (e = ERR_NOT_FOUND ∧ nodes ≠ S ∧ ¬ enough)).
Proof.
  intros Hj Hok Hsub Hnodes Hprev. pose proof Hok as (Hs & Hb & Hcol). destruct (bound_row j) as [Hb1 Hb2]; [lia|].
  assert (DMT.depth d = DMT.depth dn) as Hdd by (unfold DMT.depth; by rewrite Hb).
  assert (DMT.columns d = DMT.columns dn) as Hcc by (unfold DMT.columns; by rewrite Hb). assert (0 ≤ DMT.columns dn) by apply Hdn.
  destruct (make_ok (set_order n nodes) j d (Some prev) (3 * DMT.columns dn * Z.of_nat j)) as (b & E & Hrow & Hb'); [done|lia|done|lia|by apply order_length|naive_solver|].
  assert (keys_fit j P (set_order n nodes)) as Hfit.
  { split; [lia|]. split; [intros u ?%order_elem; set_solver|]. right. split; [done|]. intros Hen u Hu%order_elem. by rewrite <-Hnodes. }
  destruct (balancePrimary_ok S (set_order n nodes) j P HS0) with (B := DMT.columns d + 3 * DMT.columns dn * Z.of_nat j) (b := b) (d := d)
    as (b' & d' & e & E' & Hpass & He); [apply Hfit|lia|done|done|done|lia|lia|lia|by eapply columns_ok_partial|].
  exists b, b', d', e. split; [done|]. split; [done|]. split; [eapply passed_ok; [..|done]; [lia|done|done]|].
  split; [eapply diffs_ok_mono; [apply Hpass|lia]|]. destruct He as [?|[-> (i & col & col' & Hi & Hsteps & H0 & Hall)]]; [by left|right].
  assert (column_ok i j col') as Hok' by (eapply steps_ok; [lia|done|done|auto]). apply steps_length in Hsteps as Hl.
  pose proof (shaped_column d i col Hs Hi) as Hl'. split; [done|]. split.
  - intros ->. destruct (partial_free S col') as (u & Hu & Hun); [done|apply Hok'|by eapply list_elem_of_lookup_2|lia|]. apply Hun, Hall. by apply order_elem.
  - intros Hen. refine (primaries_free S NF P j col' _ (co_primaries _ _ _ Hok' Hen) (co_partial _ _ _ Hok') _ _ _ H0 _); [set_solver|apply Hen|lia|lia|].
    intros u Hu. apply Hall, order_elem. by rewrite Hnodes.
Qed.

(** A pass over a secondary row *)
Lemma secondary_row (n : Z) (j : nat) d prev keys0 : (1 ≤ j < D)%nat → (P ≤ j)%nat → columns_ok j d →
  diffs_ok keys0 (3 * DMT.columns dn * Z.of_nat j) prev →
  ∃ b b' d', make (set_order n S) d (Z.of_nat j) (Some prev) = Ret b ∧ balance b d = Ret (b', d') ∧
    columns_ok (Datatypes.S j) d' ∧ diffs_ok (set_order n S) (3 * DMT.columns dn * (Z.of_nat j + 1)) b'.
Proof.
  intros Hj HPj Hok Hprev. pose proof Hok as (Hs & Hb & Hcol). destruct (bound_row j) as [Hb1 Hb2]; [lia|].
  assert (DMT.depth d = DMT.depth dn) as Hdd by (unfold DMT.depth; by rewrite Hb).
  assert (DMT.columns d = DMT.columns dn) as Hcc by (unfold DMT.columns; by rewrite Hb). assert (0 ≤ DMT.columns dn) by apply Hdn.
  destruct (make_ok (set_order n S) j d (Some prev) (3 * DMT.columns dn * Z.of_nat j)) as (b & E & Hrow & Hb'); [done|lia|done|lia|by apply order_length|naive_solver|].
  assert (keys_fit j D (set_order n S)) as Hfit by (split; [lia|]; split; [intros u; apply order_elem|by left]).
  destruct (balance_ok S (set_order n S) j D HS0) with (B := DMT.columns d + 3 * DMT.columns dn * Z.of_nat j) (b := b) (d := d)
    as (b' & d' & E' & Hpass & Hf); [apply Hfit|lia|intros u; apply order_elem|done|done|done|lia|lia|lia|lia|by eapply columns_ok_partial|].
  exists b, b', d'. split; [done|]. split; [done|]. split.
  - apply filled_ok; [|done]. eapply passed_ok; [..|done]; [lia|done|done].
  - eapply diffs_ok_mono; [apply Hpass|lia].
Qed.

Context (c : ClusterMap.t) (added : gset Z) (Hsvc : ClusterMap.getServiceUuids ClusterMap.FDSP_DATA_MGR c = Ret S).
Context (Hadded : added ⊆ S) (Hone : (P ≤ 1)%nat → NF = S).

(** The state of the loop over the rows, before row [j] *)
Definition rows_inv (j : nat) (st : DMT.t * gset Z * DmtRowBalancer.t) : Prop :=
  let '(d, nodes, b) := st in
  columns_ok j d ∧ nodes ⊆ S ∧ ((P ≤ j)%nat → nodes = S) ∧ (enough → (j < P)%nat → nodes = NF) ∧
  ∃ keys, diffs_ok keys (3 * DMT.columns dn * Z.of_nat j) b.

Lemma balance_row_ok (j : nat) st : (1 ≤ j < D)%nat → rows_inv j st →
  ∃ st', balance_row c set_order (Z.of_nat P) added st (Z.of_nat j) = Ret st' ∧ rows_inv (Datatypes.S j) st'.
Proof.
  destruct st as [[d nodes] prev]. intros Hj (Hok & Hsub & Hall & Hnf & keys & Hprev). unfold balance_row.
  replace (S ∪ added) with S by set_solver. destruct (decide (j < P)%nat) as [HjP|HjP]; cycle 1.
  - rewrite Hall in * by lia. destruct (secondary_row (2 * Z.of_nat j) j d prev keys) as (b & b' & d' & E & E' & Hok' & Hd'); [done|lia|done|done|].
    rewrite E, bind_Ret, decide_False, E', bind_Ret by lia. eexists. split; [done|]. split; [done|]. split; [done|]. split; [done|]. split; [lia|].
    exists (set_order (2 * Z.of_nat j) S). by rewrite Nat2Z.inj_succ.
  - destruct (primary_row (2 * Z.of_nat j) j d nodes prev keys) as (b & b' & d' & e & E & E' & Hok' & Hd' & He); [lia|done|done|auto|done|].
    rewrite E, bind_Ret, decide_True, E', bind_Ret, Hsvc, bind_Ret by lia. cbv zeta. replace (S ∪ added) with S by set_solver.
    destruct He as [[-> Hf]|[-> [Hne Hen]]].
    + rewrite (decide_False (P := ERR_OK ≠ ERR_OK)) by (intros Hx; by apply Hx). eexists. split; [done|]. split; [by apply filled_ok|].
      rewrite Nat2Z.inj_succ. case_decide as Hlast.
      * split; [done|]. split; [done|]. split; [destruct Hlast; [done|lia]|]. by exists (set_order (2 * Z.of_nat j) nodes).
      * split; [done|]. split; [intros; exfalso; apply Hlast; right; lia|]. split; [intros; apply Hnf; [done|lia]|]. by exists (set_order (2 * Z.of_nat j) nodes).
    + rewrite (decide_True (P := ERR_NOT_FOUND ≠ ERR_OK ∨ _)) by (by left). rewrite (decide_True (P := ERR_NOT_FOUND ≠ ERR_OK)) by done.
      destruct (primary_row (2 * Z.of_nat j + 1) j d' S prev keys) as (b2 & b2' & d2 & e & E2 & E2' & Hok2 & Hd2 & He); [lia|done|done|done|done|].
      rewrite E2, bind_Ret, E2', bind_Ret. destruct He as [[-> Hf]|[_ [? _]]]; [|done]. rewrite fds_verify_true, bind_Ret by done.
      eexists. split; [done|]. split; [by apply filled_ok|]. split; [done|]. split; [done|]. split; [done|].
      rewrite Nat2Z.inj_succ. by exists (set_order (2 * Z.of_nat j + 1) S).
Qed.

Lemma rows_ok st : rows_inv 1 st →
  ∃ st', foldM (balance_row c set_order (Z.of_nat P) added) st (seqZ 1 (DMT.depth dn - 1)) = Ret st' ∧ rows_inv D st'.
Proof.
  intros Hinv. assert (∀ n j st, (j + n = D)%nat → (1 ≤ j)%nat → rows_inv j st →
    ∃ st', foldM (balance_row c set_order (Z.of_nat P) added) st (seqZ (Z.of_nat j) (Z.of_nat n)) = Ret st' ∧ rows_inv D st') as Hgen.
  { induction n as [|n IH]; intros j st0 Hj Hj1 HI.
    - exists st0. split; [done|]. by replace D with j by lia.
    - destruct (balance_row_ok j st0) as (st1 & E & HI1); [lia|done|]. rewrite seqZ_cons, foldM_cons, E, bind_Ret by lia.
      replace (Z.succ (Z.of_nat j)) with (Z.of_nat (Datatypes.S j)) by lia. replace (Z.pred (Z.of_nat (Datatypes.S n))) with (Z.of_nat n) by lia.
      apply IH; [lia|lia|done]. }
  replace (DMT.depth dn - 1) with (Z.of_nat (D - 1)) by lia. apply (Hgen (D - 1)%nat 1%nat); [lia|done..].
Qed.

(** The columns of the new table *)
Record column_after i col : Prop := {
  ca_nodup : NoDup col;
  ca_members x : x ∈ col → x ∈ S;
  ca_first : ∃ x, col !! O = Some x ∧ stays i x;
  ca_primaries : enough → ∀ k x, (k < P)%nat → col !! k = Some x → x ∈ NF;
}.

Lemma column_done i col : length col = D → column_ok i D col → column_after i col.
Proof.
  intros Hl [[Hnd Hpart] Hfilled Hfirst Hprim].
  assert (∀ k, col !! k ≠ Some 0) as H0.
  { intros k Hk. apply lookup_lt_Some in Hk as Hlt. apply (Hfilled k); [lia|done]. }
  assert (0 ∉ col) as Hz by (intros [k Hk]%list_elem_of_lookup_1; by apply (H0 k)). split.
  - rewrite filter_all in Hnd; [done|]. by intros x Hx ->.
  - intros x Hx. destruct (Hpart x Hx) as [->|]; done.
  - done.
  - intros Hen k x Hk Hx. destruct (Hprim Hen) as [H1 _]. destruct (H1 k x Hk Hx) as [->|]; [by destruct (H0 k)|done].
Qed.
End Tables.

(** ** Updates that are refused *)
(** A column is refused if one of its first [p] rows is removed and none of
    the others is left that has not failed. *)
Definition refused (p : nat) (rm NF : gset Z) col : Prop :=
  Exists (λ u, u ∈ rm) (take p col) ∧ Forall (λ u, u ∈ rm ∨ u ∉ NF) (take p col).

#[export] Instance refused_dec p rm NF col : Decision (refused p rm NF col) := _.

Lemma count_column_ok (p : nat) (rm NF : gset Z) col : (p ≤ length col)%nat →
  count_column (Z.of_nat p) rm NF col =
    Ret (Z.of_nat (length (filter (λ u, u ∈ rm) (take p col))), Z.of_nat (length (filter (λ u, u ∉ rm ∧ u ∉ NF) (take p col)))).
Proof.
  intros Hp. unfold count_column. edestruct (for_range_rule (λ k (n : Z * Z), n =
    (Z.of_nat (length (filter (λ u, u ∈ rm) (take k col))), Z.of_nat (length (filter (λ u, u ∉ rm ∧ u ∉ NF) (take k col)))))) as (n & E & ->); [..|exact E]; [done|].
  intros k n Hk ->. destruct (lookup_lt_is_Some_2 col k) as [x Hx]; [lia|]. rewrite (get_row col k x), bind_Ret by done.
  eexists. split; [done|]. rewrite (take_S_r _ _ x) by done. rewrite !filter_app, !length_app, !filter_cons.
  destruct (decide (x ∈ rm)), (decide (x ∈ NF)); repeat case_decide; try tauto; simpl; f_equal; lia.
Qed.

Lemma refused_counts (p : nat) (rm NF : gset Z) col : (0 < p ≤ length col)%nat →
  let r := length (filter (λ u, u ∈ rm) (take p col)) in let f := length (filter (λ u, u ∉ rm ∧ u ∉ NF) (take p col)) in
  refused p rm NF col ↔ (p ≤ r)%nat ∨ (0 < r ∧ p ≤ r + f)%nat.
Proof.
  intros Hp. cbv zeta. unfold refused. assert (length (take p col) = p) as Hl by (rewrite length_take; lia). revert Hl. generalize (take p col) as l.
  intros l Hl. rewrite <-Hl in *. assert (∀ l : list Z,
    (length (filter (λ u, u ∈ rm) l) + length (filter (λ u, u ∉ rm ∧ u ∉ NF) l) ≤ length l)%nat ∧
    (Exists (λ u, u ∈ rm) l ↔ 0 < length (filter (λ u, u ∈ rm) l))%nat ∧
    (Forall (λ u, u ∈ rm ∨ u ∉ NF) l ↔ length l ≤ length (filter (λ u, u ∈ rm) l) + length (filter (λ u, u ∉ rm ∧ u ∉ NF) l))%nat) as H.
  { clear. induction l as [|x l (H1 & H2 & H3)]; [rewrite Exists_nil, Forall_nil; simpl; repeat split; lia || done|].
    rewrite Exists_cons, Forall_cons, H2, H3, !filter_cons. destruct (decide (x ∈ rm)), (decide (x ∈ NF)); repeat case_decide; simpl; try tauto; split_and!; try split; intros; try lia; naive_solver lia. }
  destruct (H l) as (H1 & H2 & H3). rewrite H2, H3. lia.
Qed.

Section Update.
Context (node_state : ClusterMap.NodeAgent → ClusterMap.FDSP_NodeState) (ignore : bool) (c : ClusterMap.t).

Lemma checkUpdateValid_ok cur (P : nat) (rm NF : gset Z) : shaped cur → 0 < DMT.depth cur → (0 < P)%nat →
  ClusterMap.getNonfailedServices node_state ignore ClusterMap.FDSP_DATA_MGR c = Ret NF →
  checkUpdateValid node_state ignore c cur (Z.of_nat P) rm =
    Ret (if decide (Exists (refused (P `min` Z.to_nat (DMT.depth cur))%nat rm NF) (DMT.dmt_table cur)) then ERR_INVALID_ARG else ERR_OK).
Proof.
  intros Hs Hd HP Hnf. unfold checkUpdateValid. rewrite decide_True, Hnf, bind_Ret by lia. cbv zeta. unfold DMT.getDepth, DMT.getNumColumns.
  set (p := (P `min` Z.to_nat (DMT.depth cur))%nat).
  replace (if decide (Z.of_nat P > DMT.depth cur) then DMT.depth cur else Z.of_nat P) with (Z.of_nat p) by (unfold p; case_decide; lia).
  pose proof Hs as (_ & _ & Hlen & _). rewrite <-Hlen.
  edestruct (for_range_rule (λ k e, let bad := Exists (refused p rm NF) (take k (DMT.dmt_table cur)) in
    (e = ERR_OK ∧ ¬ bad) ∨ (e = ERR_INVALID_ARG ∧ bad))) as (n & E & Hn); cycle 2.
  { rewrite E. rewrite firstn_all in Hn. f_equal. case_decide; naive_solver. }
  { left. split; [done|]. rewrite take_0. by intros ?%Exists_nil. }
  intros k e Hk He. destruct (lookup_lt_is_Some_2 (DMT.dmt_table cur) k Hk) as [col Hcol]. cbv zeta in *.
  assert (Exists (refused p rm NF) (take (S k) (DMT.dmt_table cur)) ↔ Exists (refused p rm NF) (take k (DMT.dmt_table cur)) ∨ refused p rm NF col) as Hex.
  { rewrite (take_S_r _ _ col) by done. rewrite Exists_app, Exists_cons, Exists_nil. tauto. }
  destruct He as [[-> Hno]|[-> Hyes]]; cycle 1.
  { rewrite decide_True by done. eexists. split; [done|]. rewrite Hex. right. auto. }
  rewrite decide_False by (intros Hx; by apply Hx). rewrite (getNodeGroup_ok cur k col), bind_Ret by done.
  pose proof (shaped_column cur k col Hs Hcol) as Hl. assert (0 < p ≤ length col)%nat as Hp by (unfold p; lia).
  rewrite count_column_ok, bind_Ret by lia. eexists. split; [done|]. rewrite Hex, (refused_counts p rm NF col Hp). case_decide; [right|left]; (split; [done|]).
  - right. lia.
  - intros [?|?]; [done|lia].
Qed.

Context (dm_order : list ClusterMap.NodeAgent) (set_order : Z → gset Z → list Z).

(** The domain of an update: [NF] are the data managers that have not
    failed. *)
Record update_domain (P : nat) (NF : gset Z) cur dn : Prop := {
  ud_order (n : Z) s : set_order n s ≡ₚ elements s;
  ud_keyed : ClusterMap.keyed (ClusterMap.curDmMap c);
  ud_zero : ClusterMap.curDmMap c !! 0 = None;
  ud_size : 2 ≤ Z.of_nat (size (ClusterMap.curDmMap c)) < 2 ^ 32;
  ud_added : ClusterMap.addedDMs c ⊆ dom (ClusterMap.curDmMap c);
  ud_nonfailed : nonfailed_dms node_state ignore c (Z.of_nat P) = Ret NF;
  ud_cur : shaped cur;
  ud_new : shaped dn;
  ud_columns : DMT.columns dn = DMT.columns cur;
  ud_depth : 0 < DMT.depth cur;
  ud_new_depth : 1 ≤ DMT.depth dn ≤ Z.of_nat (size (ClusterMap.curDmMap c));
  ud_primaries : Z.of_nat P ≤ DMT.depth dn;
  ud_one : P = 1%nat → NF = dom (ClusterMap.curDmMap c);
  ud_bound : 3 * DMT.columns dn * DMT.depth dn < 10000;
}.

Lemma nonfailed_sub (P : nat) (NF : gset Z) : ClusterMap.keyed (ClusterMap.curDmMap c) → nonfailed_dms node_state ignore c (Z.of_nat P) = Ret NF →
  NF ⊆ dom (ClusterMap.curDmMap c) ∧ (P = 0%nat → NF = dom (ClusterMap.curDmMap c)) ∧
  (P ≠ 0%nat → ClusterMap.getNonfailedServices node_state ignore ClusterMap.FDSP_DATA_MGR c = Ret NF).
Proof.
  intros Hk. unfold nonfailed_dms. destruct (ClusterMap.getNonfailedServices_elem node_state ignore c Hk) as (s & E & Hs). rewrite E, bind_Ret.
  case_decide as HP; [rewrite ClusterMap.getServiceUuids_dom by done|]; intros [= <-].
  - split; [done|]. split; [done|]. intros; lia.
  - split; [|split; [lia|done]]. intros u (a & Ha & _)%Hs. by eapply elem_of_dom_2.
Qed.

Lemma check_valid (P : nat) (rm NF : gset Z) cur : shaped cur → 0 < DMT.depth cur →
  (P ≠ 0%nat → ClusterMap.getNonfailedServices node_state ignore ClusterMap.FDSP_DATA_MGR c = Ret NF) →
  checkUpdateValid node_state ignore c cur (Z.of_nat P) rm =
    Ret (if decide (P ≠ 0%nat ∧ Exists (refused (P `min` Z.to_nat (DMT.depth cur))%nat rm NF) (DMT.dmt_table cur)) then ERR_INVALID_ARG else ERR_OK).
Proof.
  intros Hs Hd Hnf. destruct (decide (P = 0%nat)) as [->|HP].
  - unfold checkUpdateValid. rewrite decide_False by (intros Hx; by apply Hx). by rewrite decide_False by naive_solver.
  - rewrite (checkUpdateValid_ok cur P rm NF) by (done || lia || auto). f_equal. repeat case_decide; naive_solver.
Qed.

(** Both outcomes of an update *)
Lemma update_both (P : nat) (NF : gset Z) cur dn : update_domain P NF cur dn →
  let S := dom (ClusterMap.curDmMap c) in let rm := ClusterMap.removedDMs c in
  let bad := P ≠ 0%nat ∧ Exists (refused (P `min` Z.to_nat (DMT.depth cur))%nat rm NF) (DMT.dmt_table cur) in
  let update := updateDMT node_state ignore c dm_order set_order cur (Z.of_nat P) dn in
  (bad → update = Ret (dn, ERR_INVALID_ARG)) ∧
  (¬ bad → Forall (column_before S NF rm dn) (DMT.dmt_table cur) →
   ∃ d', update = Ret (d', ERR_OK) ∧ shaped d' ∧ DMT.base d' = DMT.base dn ∧
     ∀ i col, DMT.dmt_table d' !! i = Some col → column_after S NF rm P cur dn i col).
Proof.
  intros [Hord Hkey H0 Hsize Hadd Hnf Hcur Hdn Hcols Hdep Hdep' HP Hone Hbound]. cbv zeta. set (S := dom (ClusterMap.curDmMap c)) in *.
  assert (0 ∉ S) as HS0 by (by apply not_elem_of_dom). assert (size S = size (ClusterMap.curDmMap c)) as HsS by apply size_dom.
  destruct (nonfailed_sub P NF Hkey Hnf) as (Hsub & HP0 & Hnf').
  assert ((P ≤ 1)%nat → NF = S) as Hone1 by (intros HP1; destruct (decide (P = 0%nat)); [auto|apply Hone; lia]). unfold updateDMT.
  change (ClusterMap.getNumMembers ClusterMap.FDSP_DATA_MGR c) with (Ret (u32 (Z.of_nat (size (ClusterMap.curDmMap c))))). rewrite bind_Ret.
  rewrite (u32_small (Z.of_nat _)) by lia. rewrite decide_False by (unfold DMT.getNumColumns; lia).
  unfold ClusterMap.getRemovedServices, ClusterMap.getAddedServices. rewrite !bind_Ret, (check_valid P (ClusterMap.removedDMs c) NF) by done. rewrite bind_Ret. split; intros Hbad.
  { rewrite (decide_True (P := P ≠ 0%nat ∧ _)) by done. by rewrite decide_True. }
  intros Hbefore. rewrite (decide_False (P := P ≠ 0%nat ∧ _)) by done. rewrite (decide_False (P := ERR_OK ≠ ERR_OK)) by (intros Hx; by apply Hx).
  rewrite Hnf, bind_Ret. unfold DMT.getNumColumns. set (rm := ClusterMap.removedDMs c) in *.
  destruct (copy_phase S NF rm cur dn) as (d1 & E1 & Hs1 & Hb1 & Hc1); [done..|lia|done|]. rewrite E1, bind_Ret.
  destruct (demote_phase S NF rm P cur dn HS0 Hsub) with (d := d1) as (d2 & E2 & Hst2); [first [done|lia]..|]. rewrite E2, bind_Ret.
  destruct (primary_phase S NF rm P cur dn HS0 Hsub) with (set_order := set_order) (d := d2) (adds := ClusterMap.addedDMs c)
    as (b0 & b & d3 & E3 & E4 & Hst3 & keys & Hkeys); [first [done|lia]..|].
  cbv zeta in E4. rewrite E3, bind_Ret, E4, bind_Ret. unfold DMT.getDepth. pose proof Hst3 as (Hs3 & Hb3 & _).
  assert (DMT.depth d3 = DMT.depth dn) as -> by (unfold DMT.depth; by rewrite Hb3).
  destruct (rows_ok S NF rm P cur dn HS0 Hsub) with (set_order := set_order) (c := c) (added := ClusterMap.addedDMs c) (st := (d3, NF, b))
    as ([[d4 nodes] b4] & E5 & Hinv); try (done || lia).
  - by apply ClusterMap.getServiceUuids_dom.
  - split; [apply (started_ok S NF rm P cur dn); first [done|lia]|]. split; [done|]. split; [|split; [done|by exists keys; rewrite Z.mul_1_r]]. done.
  - rewrite E5, bind_Ret. destruct Hinv as ((Hs4 & Hb4 & Hok4) & _). exists d4. split; [done|]. split; [done|]. split; [done|]. intros i col Hi.
    pose proof (shaped_column d4 i col Hs4 Hi) as Hl. unfold DMT.depth in Hl. rewrite Hb4 in Hl. fold (DMT.depth dn) in Hl.
    apply (column_done S NF rm P cur dn); first [by apply Hok4|done|lia].
Qed.

(** C7. An update of the placement, in a domain of at least two data managers
    ([update_domain]): the new table has the columns of the old one, at most as
    many rows as there are data managers, at least as many as primaries, and is
    small enough for the balancing (3 * columns * depth < 10000); and when
    there is one primary no data manager has failed (with one primary, rows
    below it are filled only with data managers that have not failed, and
    [fds_verify] ends the process when there are too few). If some column would
    lose a primary and keep no primary that is up, the update is refused and
    the new table is not touched. Otherwise, if the columns have distinct data
    managers, each of the domain or removed, and the rows that the new depth
    keeps of each have one that is up, the update succeeds: every column of the
    new table has distinct data managers of the domain in all its rows, and its
    first row is a data manager that was in the column before and is not
    removed. If besides there are fewer primaries than rows, and no more
    primaries than data managers that are up, then all primaries are up. *)
Theorem update_dmt (P : nat) (NF : gset Z) cur dn : update_domain P NF cur dn →
  let S := dom (ClusterMap.curDmMap c) in let rm := ClusterMap.removedDMs c in
  let bad := P ≠ 0%nat ∧ Exists (refused (P `min` Z.to_nat (DMT.depth cur))%nat rm NF) (DMT.dmt_table cur) in
  let update := updateDMT node_state ignore c dm_order set_order cur (Z.of_nat P) dn in
  (bad → update = Ret (dn, ERR_INVALID_ARG)) ∧
  (¬ bad → Forall (column_before S NF rm dn) (DMT.dmt_table cur) →
   ∃ d', update = Ret (d', ERR_OK) ∧ shaped d' ∧ DMT.base d' = DMT.base dn ∧
     ∀ i col, DMT.dmt_table d' !! i = Some col → column_after S NF rm P cur dn i col).
Proof. apply update_both. Qed.
End Update.

(** ** An update *)
(** Data manager 4 is removed, 3 is added and 2 has failed; the depth grows
    to three. *)
Definition case_map : ClusterMap.t :=
  ClusterMap.Make ∅ {[1 := ClusterMap.Agent 1 1; 2 := ClusterMap.Agent 2 2; 3 := ClusterMap.Agent 3 3]} ∅ ∅ {[3]} {[4]} ∅ 2.
Definition case_state (a : ClusterMap.NodeAgent) : ClusterMap.FDSP_NodeState :=
  if decide (ClusterMap.get_uuid a = 2) then ClusterMap.FDS_Node_Down else ClusterMap.FDS_Node_Up.
Definition case_cur : DMT.t := DMT.Make (FDS_Table.make 1 2 1) [[1; 4]; [2; 1]].
Definition case_new : DMT.t := DMT.make 1 3 2 true.

Lemma case_domain : update_domain case_state false case_map (λ _ s, elements s) 2 {[1; 3]} case_cur case_new.
Proof.
  split; [done| |done|vm_compute; done|by apply (bool_decide_unpack _); vm_compute| |..]; try (vm_compute; done).
  - change (map_Forall (λ n a, ClusterMap.get_uuid a = n) (ClusterMap.curDmMap case_map)). by apply (bool_decide_unpack _); vm_compute.
  - split_and!; try (vm_compute; done). by apply (bool_decide_unpack _); vm_compute.
  - split_and!; try (vm_compute; done). by apply (bool_decide_unpack _); vm_compute.
Qed.

Lemma case_accepted : ¬ (2%nat ≠ 0%nat ∧ Exists (refused (2 `min` Z.to_nat (DMT.depth case_cur))%nat (ClusterMap.removedDMs case_map) {[1; 3]}) (DMT.dmt_table case_cur)).
Proof. intros [_ Hb]. revert Hb. by apply (bool_decide_unpack _); vm_compute. Qed.

Lemma case_before : Forall (column_before (dom (ClusterMap.curDmMap case_map)) {[1; 3]} (ClusterMap.removedDMs case_map) case_new) (DMT.dmt_table case_cur).
Proof.
  repeat apply Forall_cons_2; [..|apply Forall_nil_2]; (split_and!; [by apply (bool_decide_unpack _); vm_compute..| |]).
  + by apply Forall_forall, (bool_decide_unpack _); vm_compute.
  + exists 1. split; by apply (bool_decide_unpack _); vm_compute.
  + by apply Forall_forall, (bool_decide_unpack _); vm_compute.
  + exists 1. split; by apply (bool_decide_unpack _); vm_compute.
Qed.

Lemma update_dmt_witness : ∃ d', updateDMT case_state false case_map [] (λ _ s, elements s) case_cur 2 case_new = Ret (d', ERR_OK) ∧
  ∀ i col, DMT.dmt_table d' !! i = Some col → column_after {[1; 2; 3]} {[1; 3]} {[4]} 2 case_cur case_new i col.
Proof.
  destruct (update_dmt case_state false case_map [] (λ _ s, elements s) 2 {[1; 3]} case_cur case_new case_domain) as [_ H].
  destruct (H case_accepted case_before) as (d' & E & _ & _ & Hcol). exists d'. split; [exact E|]. exact Hcol.
Defined.
