(* ===== verification/VolPlacementCompute.v ===== *)
(** * New volume placements

    What [computeDMT] of the two placement algorithms computes: the round
    robin table cell by cell, and for the dynamic algorithm that the columns
    have distinct data managers, with data managers that have not failed in
    the first rows. *)

From S2P Require Import Prelude PlacementTable Dmt Double ClusterMap VolPlacementAlgo VolPlacementRows VolPlacementSpec VolPlacementUpdate.
Open Scope Z_scope.

Implicit Types (d : DMT.t) (col : list Z) (i j k : nat) (u : Z) (order : list Z).

(** ** Going round a list *)
Lemma deref_ok order it u : order !! it = Some u → deref order it = Ret u.
Proof. unfold deref. by intros ->. Qed.

Lemma next_ok order it : (it < length order)%nat → next order it = Ret ((it + 1) `mod` length order)%nat.
Proof.
  intros Hit. unfold next. rewrite decide_True by done. f_equal. case_decide.
  - replace (it + 1)%nat with (length order) by lia. by rewrite Nat.Div0.mod_same.
  - rewrite Nat.mod_small by lia. lia.
Qed.

Lemma mod_next it k (n : nat) : (((it + k) `mod` n + 1) `mod` n = (it + S k) `mod` n)%nat.
Proof. rewrite Nat.Div0.add_mod_idemp_l. f_equal. lia. Qed.

Lemma fill_round_ok order (n j it : nat) col : (it < length order)%nat → (j + n ≤ length col)%nat →
  ∃ col', fill_round order n (Z.of_nat j) it col = Ret (col', ((it + n) `mod` length order)%nat) ∧ length col' = length col ∧
    (∀ k, (k < j ∨ j + n ≤ k)%nat → col' !! k = col !! k) ∧
    (∀ k, (k < n)%nat → col' !! (j + k)%nat = order !! ((it + k) `mod` length order)%nat).
Proof.
  revert j it col. induction n as [|n IH]; intros j it col Hit Hj.
  { exists col. simpl. rewrite Nat.add_0_r, Nat.mod_small by done. split_and!; [done..|]. intros; lia. }
  simpl. destruct (lookup_lt_is_Some_2 order it Hit) as [u Hu]. rewrite (deref_ok order it u), bind_Ret by done.
  rewrite TableColumn.set_ok, bind_Ret, next_ok, bind_Ret, Nat2Z.id by (done || (unfold TableColumn.getLength; lia)).
  replace (Z.of_nat j + 1) with (Z.of_nat (S j)) by lia.
  destruct (IH (S j) ((it + 1) `mod` length order)%nat (<[j := u]> col)) as (col' & E & Hl & Hout & Hin);
    [apply Nat.mod_upper_bound; lia|rewrite length_insert; lia|].
  exists col'. rewrite E. rewrite length_insert in Hl. split_and!; [|done| |].
  - do 2 f_equal. rewrite Nat.Div0.add_mod_idemp_l. f_equal. lia.
  - intros k Hk. rewrite Hout by lia. apply list_lookup_insert_ne. lia.
  - intros k Hk. destruct k as [|k].
    + rewrite Nat.add_0_r, Hout, list_lookup_insert_eq by lia. by rewrite Nat.add_0_r, Nat.mod_small by done.
    + replace (j + S k)%nat with (S j + k)%nat by lia. rewrite Hin by lia. rewrite Nat.Div0.add_mod_idemp_l. do 2 f_equal. lia.
Qed.

Lemma setNodeGroup_ok d i col nodes : shaped d → DMT.dmt_table d !! i = Some col → Z.of_nat (length nodes) = DMT.depth d →
  DMT.setNodeGroup (Z.of_nat i) nodes d = Ret (put i nodes d).
Proof.
  intros Hs Hi Hl. pose proof (shaped_column d i col Hs Hi) as Hl'. unfold DMT.setNodeGroup. rewrite fds_verify_true, bind_Ret by done. rewrite <-Hl. fold (TableColumn.getLength nodes).
  rewrite (DMT.set_rows_spec _ (Z.of_nat i) col), bind_Ret, Nat2Z.id by (rewrite ?Nat2Z.id; done || lia). done.
Qed.

(** The round robin placement: with at least as many data managers as
    rows, row [j] of column [i] is number [i + j] in the order of the map,
    counted round. *)
Theorem round_robin_cells (order : list Z) d : shaped d → 0 < DMT.depth d ≤ Z.of_nat (length order) → Z.of_nat (length order) < 2 ^ 32 →
  ∃ d', RRAlgorithm.computeDMT order d = Ret d' ∧ shaped d' ∧ DMT.base d' = DMT.base d ∧
    ∀ i j col, DMT.dmt_table d' !! i = Some col → (j < length col)%nat → col !! j = order !! ((i + j) `mod` length order)%nat.
Proof.
  intros Hs Hd Hn. unfold RRAlgorithm.computeDMT, DMT.getDepth, DMT.getNumColumns. rewrite u32_small, fds_verify_true, bind_Ret by lia.
  edestruct (columns_loop (St := DMT.t * list Z * nat) (λ st, st.1.1)) with
    (I := λ i (st : DMT.t * list Z * nat), length st.1.2 = Z.to_nat (DMT.depth d) ∧ st.2 = (i `mod` length order)%nat) (R := λ (_ : nat) (_ : list Z), True)
    (Q := λ i (_ : list Z) col, ∀ j, (j < length col)%nat → col !! j = order !! ((i + j) `mod` length order)%nat)
    (s := (d, TableColumn.make (DMT.depth d), O)) as (st & E & Hs' & Hb & _ & HQ); cycle 4.
  { cbv beta iota in E. simpl in E. rewrite E, bind_Ret. exists st.1.1. split; [done|]. split; [done|]. split; [done|].
    intros i j col Hi Hj. destruct (HQ i col Hi) as (_ & _ & H). by apply H. }
  { done. } { done. } { split; [apply TableColumn.length_make|]. by rewrite Nat.Div0.mod_0_l. }
  intros i [[d1 c1] it] col Hs1 Hb1 Hi _ [Hl1 Hit]. simpl in *.
  assert (DMT.depth d1 = DMT.depth d) as Hdd by (unfold DMT.depth; by rewrite Hb1).
  assert (it < length order)%nat as Hlt by (rewrite Hit; apply Nat.mod_upper_bound; lia).
  destruct (fill_round_ok order (Z.to_nat (DMT.depth d)) 0 it c1 Hlt) as (c2 & E & Hl2 & _ & Hin); [lia|].
  change (Z.of_nat 0) with 0 in E. rewrite E, bind_Ret. simpl. rewrite (setNodeGroup_ok d1 i col), bind_Ret by (done || lia). rewrite next_ok, bind_Ret by done.
  eexists _, c2. split; [done|]. simpl. pose proof (shaped_column d1 i col Hs1 Hi). split_and!; [done|lia| | |lia].
  - rewrite Hit, Nat.Div0.add_mod_idemp_l. f_equal. lia.
  - intros j Hj. rewrite <-(Nat.add_0_l j) at 1. rewrite Hin by lia. by rewrite Hit, Nat.Div0.add_mod_idemp_l.
Qed.

Import DynamicRRAlgorithm.

(** ** Free data managers *)
(** A cell is looked for from [it] on; after [k] steps none was free. *)
Lemma skip_used_ok order col (it : nat) (fuel k : nat) u : (it < length order)%nat → (∃ x, x ∈ order ∧ x ∉ col) → (k + fuel = length order)%nat → (0 < fuel)%nat →
  (∀ k' x, (k' < k)%nat → order !! ((it + k') `mod` length order)%nat = Some x → x ∈ col) → order !! ((it + k) `mod` length order)%nat = Some u →
  ∃ it' u', skip_used fuel order col it ((it + k) `mod` length order)%nat u = Ret (it', u') ∧ order !! it' = Some u' ∧ u' ∉ col.
Proof.
  intros Hit (x & Hx & Hxn). revert k u. induction fuel as [|fuel IH]; intros k u Hk Hf Hused Hu; [lia|]. simpl. case_decide as Hc; cycle 1.
  { exists ((it + k) `mod` length order)%nat, u. split_and!; [done..|]. by rewrite <-TableColumn.find_nonneg. }
  apply TableColumn.find_nonneg in Hc. rewrite next_ok, bind_Ret by (apply Nat.mod_upper_bound; lia). rewrite mod_next.
  assert (∀ k' y, (k' < S k)%nat → order !! ((it + k') `mod` length order)%nat = Some y → y ∈ col) as Hused'.
  { intros k' y Hk' Hy. destruct (decide (k' = k)) as [->|]; [congruence|]. apply (Hused k' y); [lia|done]. }
  destruct (decide (fuel = O)) as [->|Hf0].
  { exfalso. apply Hxn. apply list_elem_of_lookup_1 in Hx as [p Hp]. apply lookup_lt_Some in Hp as Hpl.
    apply (Hused' ((p + (length order - it)) `mod` length order)%nat).
    - replace (S k) with (length order) by lia. apply Nat.mod_upper_bound. lia.
    - rewrite Nat.Div0.add_mod_idemp_r. replace (it + (p + (length order - it)))%nat with (p + 1 * length order)%nat by lia. by rewrite Nat.Div0.mod_add, Nat.mod_small. }
  destruct (lookup_lt_is_Some_2 order ((it + S k) `mod` length order)%nat) as [u' Hu']; [apply Nat.mod_upper_bound; lia|].
  rewrite (deref_ok _ _ u'), bind_Ret by done. rewrite fds_verify_true, bind_Ret; [by apply IH; [lia|lia|..]|].
  intros Heq. destruct (decide (it + S k < length order)%nat); [rewrite Nat.mod_small in Heq by done; lia|].
  replace (it + S k)%nat with ((it + S k - length order) + 1 * length order)%nat in Heq by lia.
  rewrite Nat.Div0.mod_add, Nat.mod_small in Heq by lia. lia.
Qed.

Section Fill.
Context (order : list Z) (Hnd : NoDup order) (H0 : 0 ∉ order).

Abbreviation So := (list_to_set order : gset Z).

Lemma fill_unused_ok (n j it : nat) col : (it < length order)%nat → (j + n = length col)%nat → (length col ≤ length order)%nat → partial_column So col →
  (∀ k x, col !! k = Some x → x = 0 ↔ (j ≤ k)%nat) →
  ∃ col', fill_unused order n (Z.of_nat j) it col = Ret col' ∧ length col' = length col ∧ partial_column So col' ∧ 0 ∉ col' ∧
    ∀ k, (k < j)%nat → col' !! k = col !! k.
Proof.
  revert j it col. induction n as [|n IH]; intros j it col Hit Hj Hl Hpart Hz.
  { exists col. simpl. split_and!; [done..| |done]. intros [k Hk]%list_elem_of_lookup_1. apply lookup_lt_Some in Hk as Hlt. apply Hz in Hk as [Hk _]. specialize (Hk eq_refl). lia. }
  destruct (lookup_lt_is_Some_2 col j) as [z Hzj]; [lia|]. assert (z = 0) as -> by (by apply (Hz j)).
  destruct (partial_free So col) as (x & Hx & Hxn); [by rewrite elem_of_list_to_set|done|by eapply list_elem_of_lookup_2|rewrite size_list_to_set by done; done|].
  simpl. destruct (lookup_lt_is_Some_2 order it Hit) as [u Hu]. rewrite (deref_ok order it u), bind_Ret by done.
  destruct (skip_used_ok order col it (length order) 0 u) as (it' & u' & E & Hu' & Hun); [done| |lia|lia|intros; lia|by rewrite Nat.add_0_r, Nat.mod_small|].
  { exists x. split; [by apply elem_of_list_to_set in Hx|done]. }
  rewrite Nat.add_0_r, Nat.mod_small in E by done. rewrite E, bind_Ret. assert (u' ∈ order) as Hin by (by eapply list_elem_of_lookup_2).
  rewrite TableColumn.set_ok, bind_Ret, next_ok, bind_Ret, Nat2Z.id by (first [by apply lookup_lt_Some in Hu'|unfold TableColumn.getLength; lia]).
  replace (Z.of_nat j + 1) with (Z.of_nat (S j)) by lia.
  destruct (IH (S j) ((it' + 1) `mod` length order)%nat (<[j := u']> col)) as (col' & E' & Hl' & Hpart' & Hz' & Hout).
  - apply Nat.mod_upper_bound. lia.
  - rewrite length_insert. lia.
  - by rewrite length_insert.
  - eapply partial_replace; [done|done|by apply elem_of_list_to_set|done].
  - intros k y. destruct (decide (k = j)) as [->|]; [rewrite list_lookup_insert_eq by lia; intros [= <-]; split; [intros ->; done|lia]|].
    rewrite list_lookup_insert_ne by done. intros Hy. rewrite (Hz k y Hy). lia.
  - exists col'. rewrite length_insert in Hl'. split_and!; [done..|]. intros k Hk. rewrite Hout by lia. apply list_lookup_insert_ne. lia.
Qed.
End Fill.

Lemma mod_inj (n it a b : nat) : (a < n)%nat → (b < n)%nat → ((it + a) `mod` n = (it + b) `mod` n)%nat → a = b.
Proof.
  intros Ha Hb Heq. pose proof (Nat.div_mod_eq (it + a) n) as E1. pose proof (Nat.div_mod_eq (it + b) n) as E2.
  rewrite <-Heq in E2. set (q1 := ((it + a) / n)%nat) in *. set (q2 := ((it + b) / n)%nat) in *.
  destruct (Nat.lt_trichotomy q1 q2) as [Hq|[->|Hq]]; [exfalso; nia|lia|exfalso; nia].
Qed.

(** The first rows of a column: a stretch of [l], and nothing below *)
Lemma round_partial (S : gset Z) (l : list Z) (n it : nat) col : NoDup l → 0 ∉ l → (∀ u, u ∈ l → u ∈ S) → (n ≤ length l)%nat →
  (∀ k x, col !! k = Some x → (n ≤ k)%nat → x = 0) → (∀ k, (k < n)%nat → col !! k = l !! ((it + k) `mod` length l)%nat) →
  partial_column S col ∧ ∀ k x, col !! k = Some x → x = 0 ↔ (n ≤ k)%nat.
Proof.
  intros Hnd H0 Hsub Hn Hlow Hhigh. assert (∀ k x, col !! k = Some x → (k < n)%nat → x ∈ l) as Hin.
  { intros k x Hx Hk. rewrite Hhigh in Hx by done. by eapply list_elem_of_lookup_2. }
  assert (∀ k x, col !! k = Some x → x = 0 ↔ (n ≤ k)%nat) as Hz.
  { intros k x Hx. split; [|by apply Hlow]. intros ->. destruct (decide (n ≤ k)%nat); [done|]. exfalso. apply H0, (Hin k); [done|lia]. }
  split; [|done]. split.
  - rewrite <-(take_drop n col), filter_app, (filter_none _ (drop n col)), app_nil_r.
    + refine (sublist_NoDup _ (take n col) _ (sublist_filter _ _)). apply NoDup_alt. intros a b x [Ha Hal]%lookup_take_Some [Hb Hbl]%lookup_take_Some.
      rewrite Hhigh in Ha, Hb by done. eapply mod_inj; [..|eapply NoDup_lookup; eauto]; lia.
    + intros x [k Hk]%list_elem_of_lookup_1. rewrite lookup_drop in Hk. apply Hz in Hk. naive_solver lia.
  - intros x [k Hk]%list_elem_of_lookup_1. destruct (decide (n ≤ k)%nat); [left; by eapply Hlow|right; apply Hsub, (Hin k); [done|lia]].
Qed.

Lemma order_uuids (c : ClusterMap.t) (dm_order : list ClusterMap.NodeAgent) : ClusterMap.keyed (ClusterMap.curDmMap c) →
  dm_order ≡ₚ ClusterMap.agents (ClusterMap.curDmMap c) →
  NoDup (ClusterMap.get_uuid <$> dm_order) ∧ list_to_set (ClusterMap.get_uuid <$> dm_order) =@{gset Z} dom (ClusterMap.curDmMap c) ∧
  length dm_order = size (ClusterMap.curDmMap c).
Proof.
  intros Hk ->. set (m := ClusterMap.curDmMap c) in *. assert (ClusterMap.get_uuid <$> ClusterMap.agents m = (map_to_list m).*1) as E.
  { unfold ClusterMap.agents. rewrite <-list_fmap_compose. apply list_fmap_ext. intros i [k a] Hi%list_elem_of_lookup_2%elem_of_map_to_list. by apply Hk. }
  split; [rewrite E; apply NoDup_fst_map_to_list|]. split.
  - apply set_eq. intros u. rewrite elem_of_list_to_set, E, elem_of_dom. split.
    + intros ([k a] & -> & Hin)%list_elem_of_fmap. apply elem_of_map_to_list in Hin. by exists a.
    + intros [a Ha]. apply list_elem_of_fmap. exists (u, a). split; [done|]. by apply elem_of_map_to_list.
  - unfold ClusterMap.agents. by rewrite length_fmap, length_map_to_list.
Qed.

Section Compute.
Context (node_state : ClusterMap.NodeAgent → ClusterMap.FDSP_NodeState) (ignore : bool) (c : ClusterMap.t).
Context (dm_order : list ClusterMap.NodeAgent) (set_order : Z → gset Z → list Z).

Abbreviation S := (dom (ClusterMap.curDmMap c)).

(** The domain of a computation of a table from scratch *)
Record compute_domain (P : nat) (NF : gset Z) d : Prop := {
  cd_order (n : Z) s : set_order n s ≡ₚ elements s;
  cd_dm_order : dm_order ≡ₚ ClusterMap.agents (ClusterMap.curDmMap c);
  cd_keyed : ClusterMap.keyed (ClusterMap.curDmMap c);
  cd_zero : ClusterMap.curDmMap c !! 0 = None;
  cd_size : Z.of_nat (size (ClusterMap.curDmMap c)) < 2 ^ 32;
  cd_nonfailed : nonfailed_dms node_state ignore c (Z.of_nat P) = Ret NF;
  cd_shaped : shaped d;
  cd_depth : 1 ≤ DMT.depth d ≤ Z.of_nat (size (ClusterMap.curDmMap c));
  cd_primaries : Z.of_nat P ≤ DMT.depth d;
}.

(** A column of the result, when the first [n] rows have not failed *)
Definition computed (NF : gset Z) (n : nat) col : Prop :=
  NoDup col ∧ (∀ x, x ∈ col → x ∈ S) ∧ ∀ k x, (k < n)%nat → col !! k = Some x → x ∈ NF.

Lemma compute_column (NF : gset Z) (P D n it0 it : nat) : NF ⊆ S → 0 ∉ S → ClusterMap.keyed (ClusterMap.curDmMap c) →
  dm_order ≡ₚ ClusterMap.agents (ClusterMap.curDmMap c) → (∀ (m : Z) s, set_order m s ≡ₚ elements s) →
  (0 < D ≤ size (ClusterMap.curDmMap c))%nat → (n ≤ D)%nat → (n ≤ size NF)%nat → (it < length dm_order)%nat → ((0 < n)%nat → (it0 < size NF)%nat) →
  ∃ col1 it1 col2, fill_round (set_order 0 NF) n 0 it0 (TableColumn.make (Z.of_nat D)) = Ret (col1, it1) ∧
    fill_unused (ClusterMap.get_uuid <$> dm_order) (D - n) (Z.of_nat n) it col1 = Ret col2 ∧ length col2 = D ∧ computed NF n col2.
Proof.
  intros Hsub HS0 Hkey Hdm Hord HD Hn Hn' Hit Hit0. destruct (order_uuids c dm_order Hkey Hdm) as (Hnd & Hset & Hlen).
  assert (NoDup (set_order 0 NF)) as Hnd0 by (rewrite Hord; apply NoDup_elements). assert (length (set_order 0 NF) = size NF) as Hl0 by (by rewrite Hord).
  assert (∀ u, u ∈ set_order 0 NF ↔ u ∈ NF) as Hel by (intros u; rewrite (Hord 0 NF); apply elem_of_elements).
  pose proof (TableColumn.length_make (Z.of_nat D)) as Hmk. rewrite Nat2Z.id in Hmk.
  assert (∃ col1 it1, fill_round (set_order 0 NF) n 0 it0 (TableColumn.make (Z.of_nat D)) = Ret (col1, it1) ∧ length col1 = D ∧
    (∀ k x, col1 !! k = Some x → (n ≤ k)%nat → x = 0) ∧ (∀ k, (k < n)%nat → col1 !! k = set_order 0 NF !! ((it0 + k) `mod` size NF)%nat))
    as (col1 & it1 & E1 & Hl1 & Hlow & Hhigh).
  { assert (∀ k x, TableColumn.make (Z.of_nat D) !! k = Some x → x = 0) as Hz by (intros k x Hx; by apply lookup_replicate in Hx as [? _]).
    destruct (decide (n = O)) as [->|Hn0]; [exists (TableColumn.make (Z.of_nat D)), it0; split_and!; [done..|naive_solver|intros; lia]|].
    destruct (fill_round_ok (set_order 0 NF) n 0 it0 (TableColumn.make (Z.of_nat D))) as (col1 & E & Hl & Hout & Hin); [rewrite Hl0; apply Hit0; lia|lia|].
    rewrite Hl0 in *. eexists col1, _. split_and!; [done|lia| |done]. intros k x Hx Hk. rewrite Hout in Hx by lia. by eapply Hz. }
  destruct (round_partial S (set_order 0 NF) n it0 col1) as [Hpart Hz]; [done|rewrite Hel; set_solver|intros u; rewrite Hel; set_solver|lia|done|by rewrite Hl0|].
  destruct (fill_unused_ok (ClusterMap.get_uuid <$> dm_order) Hnd) with (n := (D - n)%nat) (j := n) (it := it) (col := col1)
    as (col2 & E2 & Hl2 & Hpart2 & Hz2 & Hkeep); try rewrite length_fmap; try lia; try done.
  - intros Hx. apply HS0. rewrite <-Hset. by apply elem_of_list_to_set.
  - by rewrite Hset.
  - exists col1, it1, col2. split; [done|]. split; [done|]. split; [lia|]. destruct Hpart2 as [Hn2 Hs2]. split_and!.
    + rewrite filter_all in Hn2; [done|]. by intros x Hx ->.
    + intros x Hx. destruct (Hs2 x Hx) as [->|Hin]; [done|]. by rewrite Hset in Hin.
    + intros k x Hk Hx. rewrite Hkeep, Hhigh in Hx by done. apply Hel. by eapply list_elem_of_lookup_2.
Qed.

Lemma nofailed_rows_ok (P D total count : nat) : (P ≤ D ≤ total)%nat → (count ≤ total)%nat →
  let n := nofailed_rows (Z.of_nat P) (Z.of_nat D) (Z.of_nat total) (Z.of_nat count) in
  0 ≤ n ≤ Z.of_nat D ∧ n ≤ Z.of_nat count ∧ Z.of_nat (P `min` count)%nat ≤ n.
Proof.
  intros H1 H2. unfold nofailed_rows. cbv zeta.
  repeat case_decide; try lia.
Qed.

Lemma compute_ok (P : nat) (NF : gset Z) d : compute_domain P NF d →
  ∃ d', computeDMT node_state ignore c dm_order set_order (Z.of_nat P) d = Ret d' ∧ shaped d' ∧ DMT.base d' = DMT.base d ∧
    ∀ i col, DMT.dmt_table d' !! i = Some col → computed NF (P `min` size NF)%nat col.
Proof.
  intros [Hord Hdm Hkey H0 Hsize Hnf Hs Hd HP]. assert (0 ∉ S) as HS0 by (by apply not_elem_of_dom).
  destruct (nonfailed_sub node_state ignore c P NF Hkey Hnf) as (Hsub & _ & _). destruct (order_uuids c dm_order Hkey Hdm) as (_ & _ & Hlen).
  pose proof (subseteq_size _ _ Hsub) as HszN. rewrite size_dom in HszN. unfold computeDMT, DMT.getDepth, DMT.getNumColumns.
  change (ClusterMap.getNumMembers ClusterMap.FDSP_DATA_MGR c) with (Ret (u32 (Z.of_nat (size (ClusterMap.curDmMap c))))).
  rewrite bind_Ret, u32_small, fds_verify_true, bind_Ret, Hnf, bind_Ret, u32_small by lia. cbv zeta. set (D := Z.to_nat (DMT.depth d)).
  replace (DMT.depth d) with (Z.of_nat D) by lia.
  destruct (nofailed_rows_ok P D (size (ClusterMap.curDmMap c)) (size NF)) as (Hn & HnN & HnP); [lia|done|].
  set (zn := nofailed_rows _ _ _ _) in *. destruct (Z_of_nat_complete zn ltac:(lia)) as [n Hzn]. clearbody zn. subst zn. rewrite Nat2Z.id.
  replace (Z.to_nat (Z.of_nat D - Z.of_nat n)) with (D - n)%nat by lia. assert (length (set_order 0 NF) = size NF) as Hl0 by (by rewrite Hord).
  edestruct (columns_loop (St := DMT.t * nat * nat) (λ st, st.1.1)) with
    (I := λ (_ : nat) (st : DMT.t * nat * nat), ((0 < n)%nat → (st.1.2 < size NF)%nat) ∧ (st.2 < length dm_order)%nat) (R := λ (_ : nat) (_ : list Z), True)
    (Q := λ (_ : nat) (_ : list Z) col, computed NF n col) (s := (d, O, O)) as (st & E & Hs' & Hb & _ & HQ); cycle 4.
  { simpl in E. rewrite E, bind_Ret. exists st.1.1. split; [done|]. split; [done|]. split; [done|]. intros i col Hi.
    destruct (HQ i col Hi) as (_ & _ & H1 & H2 & H3). split; [done|]. split; [done|]. intros k x Hk. apply H3. lia. }
  { done. } { done. } { simpl. lia. }
  intros i [[d1 it0] it] col Hs1 Hb1 Hi _ [Hit0 Hit]. simpl in *. assert (DMT.depth d1 = DMT.depth d) as Hdd by (unfold DMT.depth; by rewrite Hb1).
  destruct (compute_column NF P D n it0 it) as (col1 & it1 & col2 & E1 & E2 & Hl2 & Hcomp); try done; try lia. rewrite E1, bind_Ret.
  assert (∃ it0', (if decide (Z.of_nat n > 0) then next (set_order 0 NF) it0 else Ret it0) = Ret it0' ∧ ((0 < n)%nat → (it0' < size NF)%nat)) as (it0' & E3 & Hit0').
  { case_decide; [|exists it0; split; [done|lia]]. rewrite next_ok by (rewrite Hl0; apply Hit0; lia). eexists. split; [done|]. intros _. rewrite Hl0. apply Nat.mod_upper_bound. lia. }
  simpl. rewrite E3, bind_Ret, E2, bind_Ret, (setNodeGroup_ok d1 i col), bind_Ret by (done || lia). rewrite next_ok, bind_Ret by (by rewrite length_fmap).
  eexists _, col2. split; [done|]. simpl. pose proof (shaped_column d1 i col Hs1 Hi). split_and!; [done|done| |apply Hcomp..|lia].
  rewrite length_fmap. apply Nat.mod_upper_bound. lia.
Qed.

(** A table computed from scratch: with at least as many data managers as
    rows the computation succeeds, every column has distinct data managers of
    the domain, and data managers that have failed are in the first rows only
    when there are not enough others: the first rows, as many as there are
    primaries and data managers that have not failed, hold such data
    managers. *)
Theorem compute_dmt (P : nat) (NF : gset Z) d : compute_domain P NF d →
  ∃ d', computeDMT node_state ignore c dm_order set_order (Z.of_nat P) d = Ret d' ∧ shaped d' ∧ DMT.base d' = DMT.base d ∧
    ∀ i col, DMT.dmt_table d' !! i = Some col → computed NF (P `min` size NF)%nat col.
Proof. apply compute_ok. Qed.
End Compute.

(** ** Tables *)
Lemma round_robin_cells_witness : ∃ d', RRAlgorithm.computeDMT [5; 6; 7] (DMT.make 2 2 1 true) = Ret d' ∧
  ∀ i j col, DMT.dmt_table d' !! i = Some col → (j < length col)%nat → col !! j = [5; 6; 7] !! ((i + j) `mod` 3)%nat.
Proof.
  destruct (round_robin_cells [5; 6; 7] (DMT.make 2 2 1 true)) as (d' & E & _ & _ & H); [|vm_compute; done..|by exists d'].
  split_and!; try (vm_compute; done). by apply (bool_decide_unpack _); vm_compute.
Defined.

Lemma case_compute : compute_domain case_state false case_map (reverse (ClusterMap.agents (ClusterMap.curDmMap case_map))) (λ _ s, elements s) 2 {[1; 3]} case_new.
Proof.
  split; try (vm_compute; done).
  - apply reverse_Permutation.
  - change (map_Forall (λ n a, ClusterMap.get_uuid a = n) (ClusterMap.curDmMap case_map)). by apply (bool_decide_unpack _); vm_compute.
  - split_and!; try (vm_compute; done). by apply (bool_decide_unpack _); vm_compute.
Qed.

Lemma compute_dmt_witness : ∃ d', computeDMT case_state false case_map (reverse (ClusterMap.agents (ClusterMap.curDmMap case_map))) (λ _ s, elements s) 2 case_new = Ret d' ∧
  ∀ i col, DMT.dmt_table d' !! i = Some col → computed case_map {[1; 3]} 2 col.
Proof. destruct (compute_dmt _ _ _ _ _ _ _ _ case_compute) as (d' & E & _ & _ & H). by exists d'. Defined.

(** Both primaries of a column have failed while the depth grows from two to
    three: the empty third row counts as a secondary that can be promoted. *)
Definition lost_map : ClusterMap.t :=
  ClusterMap.Make ∅ {[1 := ClusterMap.Agent 1 1; 2 := ClusterMap.Agent 2 2; 3 := ClusterMap.Agent 3 3; 4 := ClusterMap.Agent 4 4]} ∅ ∅ {[3; 4]} ∅ ∅ 2.
Definition lost_state (a : ClusterMap.NodeAgent) : ClusterMap.FDSP_NodeState :=
  if decide (ClusterMap.get_uuid a <= 2) then ClusterMap.FDS_Node_Down else ClusterMap.FDS_Node_Up.

(** If all primaries of a column have failed and the column has no
    secondary, the update reports success, yet the first row of the column is
    empty in the new table: an empty cell takes the place of a failed primary,
    and the step that fills the first row is skipped. *)
Theorem update_leaves_hole : ∃ d' col,
  updateDMT lost_state false lost_map [] (λ _ s, elements s) (DMT.Make (FDS_Table.make 0 2 1) [[1; 2]]) 2 (DMT.make 0 3 2 true) = Ret (d', ERR_OK) ∧
  DMT.dmt_table d' !! O = Some col ∧ col !! O = Some 0.
Proof. eexists _, _. split; [vm_compute; reflexivity|]. by split. Qed.
