(* ===== verification/VolumePlacement.v ===== *)
(** * The volume placement engine

    The class [VolumePlacement] (src/source/orch-mgr/om-dlt/OmVolumePlacement.cpp
    and its header): the OM's computation of target DMTs with the placement
    algorithms, the start of the migration of volumes, commit, rollback and
    persistence of targets, and loading them after a restart.  It composes the
    version manager of [DmtManager], the algorithms of [VolPlacementAlgo], the
    members of [ClusterMap] and the database of [ConfigDb].  The settings of the
    configuration file, the volumes of the domain, what the agents of DMs answer
    and the order of hash containers are arguments. *)

From S2P Require Import Prelude PlacementTable Serialize Dmt DmtManager ConfigDb ClusterMap OmExtUtil Double VolPlacementAlgo.
Open Scope Z_scope.

Module VolumePlacement.

Inductive AlgorithmTypes := RoundRobin | RoundRobinDynamic.

Record t := Make {
  dmtMgr : DMTManager.t;
  curDmtDepth : Z;
  curDmtWidth : Z;
  prevDmtVersion : Z;
  startDmtVersion : Z;
  placeAlgo : option AlgorithmTypes;
  bRebalancing : bool;
  rebalColumns : gset Z;
  numOfPrimaryDMs : Z;
  numOfFailures : Z;
}.

(** The constructor; depth and width have no value before [mod_init]. *)
Definition make (depth width : Z) : t :=
  Make (DMTManager.make 1) depth width DMT_VER_INVALID (DMT_VER_INVALID + 1) None false ∅ 1 0.

Definition with_mgr (m : DMTManager.t) (v : t) : t :=
  Make m (curDmtDepth v) (curDmtWidth v) (prevDmtVersion v) (startDmtVersion v) (placeAlgo v) (bRebalancing v) (rebalColumns v)
    (numOfPrimaryDMs v) (numOfFailures v).
Definition with_prev (p : Z) (v : t) : t :=
  Make (dmtMgr v) (curDmtDepth v) (curDmtWidth v) p (startDmtVersion v) (placeAlgo v) (bRebalancing v) (rebalColumns v)
    (numOfPrimaryDMs v) (numOfFailures v).
Definition with_start (s : Z) (v : t) : t :=
  Make (dmtMgr v) (curDmtDepth v) (curDmtWidth v) (prevDmtVersion v) s (placeAlgo v) (bRebalancing v) (rebalColumns v)
    (numOfPrimaryDMs v) (numOfFailures v).
Definition with_rebalancing (b : bool) (v : t) : t :=
  Make (dmtMgr v) (curDmtDepth v) (curDmtWidth v) (prevDmtVersion v) (startDmtVersion v) (placeAlgo v) b (rebalColumns v)
    (numOfPrimaryDMs v) (numOfFailures v).
Definition with_failures (n : Z) (v : t) : t :=
  Make (dmtMgr v) (curDmtDepth v) (curDmtWidth v) (prevDmtVersion v) (startDmtVersion v) (placeAlgo v) (bRebalancing v) (rebalColumns v)
    (numOfPrimaryDMs v) n.

Definition setAlgorithm (type : AlgorithmTypes) (v : t) : t :=
  Make (dmtMgr v) (curDmtDepth v) (curDmtWidth v) (prevDmtVersion v) (startDmtVersion v) (Some type) (bRebalancing v) (rebalColumns v)
    (numOfPrimaryDMs v) (numOfFailures v).
Definition setNumOfPrimaryDMs (num : Z) (v : t) : t :=
  Make (dmtMgr v) (curDmtDepth v) (curDmtWidth v) (prevDmtVersion v) (startDmtVersion v) (placeAlgo v) (bRebalancing v) (rebalColumns v)
    num (numOfFailures v).

(** [replica_factor] and [number_of_primary] are settings, as [int]. *)
Definition mod_init (replica_factor number_of_primary : Z) (v : t) : t :=
  let v := Make (dmtMgr v) (u32 replica_factor) 4 (prevDmtVersion v) (startDmtVersion v) (placeAlgo v) (bRebalancing v) (rebalColumns v)
    (numOfPrimaryDMs v) (numOfFailures v) in
  setNumOfPrimaryDMs (u32 number_of_primary) (setAlgorithm RoundRobinDynamic v).

(** ** Versions *)
Definition getCommittedDMTVersion (v : t) : Z := DMTManager.committed_version (dmtMgr v).
Definition getTargetDMTVersion (v : t) : Z := DMTManager.target_version (dmtMgr v).
Definition hasCommittedDMT (v : t) : bool := DMTManager.hasCommittedDMT (dmtMgr v).
Definition getCommittedDMT (v : t) : res (option DMT.t) := DMTManager.getDMT (dmtMgr v) DMT_COMMITTED.
Definition hasNoTargetDmt (v : t) : bool := negb (DMTManager.hasTargetDMT (dmtMgr v)).

Definition hasNonCommitedTarget (v : t) : bool :=
  negb (DMTManager.hasCommittedDMT (dmtMgr v)) ||
  bool_decide (DMTManager.committed_version (dmtMgr v) ≠ DMTManager.target_version (dmtMgr v)).

(** What the algorithms read of the domain: states of services, whether
    failures are ignored, and the orders of hash containers *)
Record Domain := Dom {
  node_state : ClusterMap.NodeAgent → ClusterMap.FDSP_NodeState;
  fIgnoreFailedSvcs : bool;
  dm_order : list ClusterMap.NodeAgent;
  set_order : Z → gset Z → list Z;
}.

Section Engine.
Context `{R : RedisServer} `{P : TProtocol}.

(** The virtual methods of the algorithm that is set *)
Definition algo_updateDMT (dom : Domain) (cmap : ClusterMap.t) (cur : DMT.t) (newDmt : DMT.t) (v : t) : res (DMT.t * fds_errno) :=
  match placeAlgo v with
  | None => Fault NullDeref
  | Some RoundRobin => RRAlgorithm.updateDMT (ClusterMap.get_uuid <$> dm_order dom) newDmt
  | Some RoundRobinDynamic =>
      DynamicRRAlgorithm.updateDMT (node_state dom) (fIgnoreFailedSvcs dom) cmap (dm_order dom) (set_order dom) cur (numOfPrimaryDMs v) newDmt
  end.

Definition algo_computeDMT (dom : Domain) (cmap : ClusterMap.t) (newDmt : DMT.t) (v : t) : res DMT.t :=
  match placeAlgo v with
  | None => Fault NullDeref
  | Some RoundRobin => RRAlgorithm.computeDMT (ClusterMap.get_uuid <$> dm_order dom) newDmt
  | Some RoundRobinDynamic =>
      DynamicRRAlgorithm.computeDMT (node_state dom) (fIgnoreFailedSvcs dom) cmap (dm_order dom) (set_order dom) (numOfPrimaryDMs v) newDmt
  end.

Definition TARGET : list Z := ascii_bytes "target".
Definition COMMITTED : list Z := ascii_bytes "committed".

(** [dmtMgr->getDMT(DMT_COMMITTED)] and a dereference *)
Definition committed_table (v : t) : res DMT.t :=
  p ← getCommittedDMT v; DMTManager.deref p.

Definition computeDMT (debug : bool) (dom : Domain) (testMode : bool) (cmap : ClusterMap.t) (s : rstore) (v : t)
    : res (rstore * t * fds_errno) :=
  let dmResync := bool_decide (ClusterMap.getDmResyncServices cmap ≠ ∅) in
  _ ← (if dmResync then
         _ ← fds_assert debug (hasCommittedDMT v);
         fds_assert debug (bool_decide (curDmtDepth v > 0))
       else Ret tt);
  let '(next_version, v) :=
    if hasCommittedDMT v then (u64 (getCommittedDMTVersion v + 1), v)
    else (startDmtVersion v, with_start (u64 (startDmtVersion v + 1)) v) in
  members ← ClusterMap.getNumMembers ClusterMap.FDSP_DATA_MGR cmap;
  let depth := if decide (members < curDmtDepth v) then members else curDmtDepth v in
  if decide (depth = 0) then Ret (s, v, ERR_NOT_FOUND) else
  let newDmt := DMT.make (curDmtWidth v) depth next_version true in
  r ← (if hasCommittedDMT v then
         cur ← committed_table v;
         r ← algo_updateDMT dom cmap cur newDmt v;
         let '(newDmt, err) := r : DMT.t * fds_errno in
         if decide (err = ERR_INVALID_ARG) then Ret (inr err) else
         _ ← fds_verify (bool_decide (err = ERR_OK));
         same ← DMT.eqb cur newDmt;
         Ret (if negb dmResync && same then inr ERR_NOT_READY else inl newDmt)
       else newDmt ← algo_computeDMT dom cmap newDmt v; Ret (inl newDmt));
  match (r : DMT.t + fds_errno) with
  | inr err => Ret (s, v, err)
  | inl newDmt =>
      r ← DMTManager.add newDmt DMT_TARGET None (dmtMgr v);
      let '(m, err) := r : DMTManager.t * fds_errno in
      if decide (err = ERR_OK ∧ testMode = false) then
        r ← ConfigDB.storeDmt newDmt TARGET 0 s;
        Ret ((r : rstore * bool).1, with_mgr m v, err)
      else Ret (s, with_mgr m v, err)
  end.

(** ** Commit and rollback *)
Definition commitDMT (unsetTarget : bool) (v : t) : res t :=
  let v := with_prev (DMTManager.committed_version (dmtMgr v)) v in
  r ← DMTManager.commitDMT false (dmtMgr v);
  let v := with_mgr (r : DMTManager.t * fds_errno).1 v in
  if unsetTarget then r ← DMTManager.unsetTarget false (dmtMgr v); Ret (with_mgr (r : DMTManager.t * fds_errno).1 v)
  else Ret v.

Definition undoTargetDmtCommit (s : rstore) (v : t) : res (rstore * t * bool) :=
  if DMTManager.hasTargetDMT (dmtMgr v) then
    if hasNonCommitedTarget v then
      r ← DMTManager.unsetTarget true (dmtMgr v);
      let v := with_mgr (r : DMTManager.t * fds_errno).1 v in
      r ← ConfigDB.setDmtType 0 TARGET 0 s;
      Ret ((r : rstore * bool).1, v, false)
    else
      r ← DMTManager.commitDMT_version (prevDmtVersion v) false (dmtMgr v);
      let '(m, err) := r : DMTManager.t * fds_errno in
      _ ← fds_verify (bool_decide (err = ERR_OK));
      let v := with_prev DMT_VER_INVALID (with_mgr m v) in
      r ← DMTManager.unsetTarget true (dmtMgr v);
      let v := with_mgr (r : DMTManager.t * fds_errno).1 v in
      r ← ConfigDB.setDmtType 0 TARGET 0 s;
      Ret ((r : rstore * bool).1, v, bool_decide (DMTManager.committed_version (dmtMgr v) ≠ DMT_VER_INVALID))
  else Ret (s, v, false).

Definition clearTargetDmt (s : rstore) (v : t) : res (rstore * t) :=
  r ← ConfigDB.setDmtType 0 TARGET 0 s;
  m ← DMTManager.unsetTarget false (dmtMgr v);
  Ret ((r : rstore * bool).1, with_mgr (m : DMTManager.t * fds_errno).1 v).

Definition persistCommitedTargetDmt (s : rstore) (v : t) : res (rstore * t * fds_errno) :=
  if negb (DMTManager.hasTargetDMT (dmtMgr v)) || negb (DMTManager.hasCommittedDMT (dmtMgr v)) then Ret (s, v, ERR_NOT_FOUND)
  else if decide (DMTManager.committed_version (dmtMgr v) ≠ DMTManager.target_version (dmtMgr v)) then Ret (s, v, ERR_NOT_READY)
  else
    r ← ConfigDB.setDmtType (DMTManager.committed_version (dmtMgr v)) COMMITTED 0 s;
    r ← ConfigDB.setDmtType 0 TARGET 0 (r : rstore * bool).1;
    m ← DMTManager.unsetTarget false (dmtMgr v);
    let '(m, err) := m : DMTManager.t * fds_errno in
    Ret ((r : rstore * bool).1, with_mgr m v, err).

(** ** Restart *)
Definition validateDmtOnDomainActivate (dmClusterSize : Z) (volumeGroupMode : bool) (dm_services : gset Z) (v : t) : res fds_errno :=
  let known := Z.of_nat (size dm_services) in
  if hasCommittedDMT v then
    d ← committed_table v;
    uniqueNodes ← DMT.getUniqueNodes d;
    if decide (size dm_services = size uniqueNodes) then
      Ret (if DMTManager.hasTargetDMT (dmtMgr v) then ERR_NOT_IMPLEMENTED else ERR_OK)
    else Ret ERR_OK
  else
    if decide ((volumeGroupMode = true ∧ known >= dmClusterSize) ∨ (volumeGroupMode = false ∧ known > 0))
    then Ret ERR_PERSIST_STATE_MISMATCH else Ret ERR_OK.

Definition loadDmtsFromConfigDB (torn : list Z → DMT.t) (dmClusterSize : Z) (volumeGroupMode : bool) (dm_services deployed_dm_services : gset Z)
    (s : rstore) (ext : OmExtUtilApi.t) (v : t) : res (rstore * OmExtUtilApi.t * t * fds_errno) :=
  let known := Z.of_nat (size dm_services) in
  _ ← fds_verify (bool_decide (DMTManager.hasTargetDMT (dmtMgr v) = false));
  _ ← fds_verify (bool_decide (DMTManager.hasCommittedDMT (dmtMgr v) = false));
  if decide (dm_services = ∅) then Ret (s, ext, v, ERR_OK) else
  r ← ConfigDB.getDmtVersionForType COMMITTED 0 s;
  let '(s, committedVersion) := r : rstore * Z in
  if decide (committedVersion > 0) then
    r ← ConfigDB.getDmt torn (DMT.make 0 0 0 false) committedVersion 0 s;
    let '(s, (dmt, found)) := r : rstore * (DMT.t * bool) in
    if negb found then Ret (s, ext, v, ERR_PERSIST_STATE_MISMATCH) else
    err ← DMT.verify_expected (OmExtUtilApi.getPendingNodeRemoves ClusterMap.FDSP_DATA_MGR ext)
      (λ uuid, OmExtUtilApi.isMarkedForRemoval (i64 uuid) ext) deployed_dm_services dmt;
    if decide (err ≠ ERR_OK) then Ret (s, ext, v, err) else
    r ← DMTManager.add dmt DMT_TARGET None (dmtMgr v);
    let v := with_mgr (r : DMTManager.t * fds_errno).1 v in
    r ← ConfigDB.getDmtVersionForType TARGET 0 s;
    let '(s, targetVersion) := r : rstore * Z in
    if decide (targetVersion > 0 ∧ targetVersion ≠ committedVersion) then
      r ← ConfigDB.setDmtType 0 (ascii_bytes "next") 0 s;
      Ret ((r : rstore * bool).1, OmExtUtilApi.setDMAbortParams true targetVersion ext, v, err)
    else Ret (s, ext, v, err)
  else if decide (deployed_dm_services = ∅) then Ret (s, ext, v, ERR_OK)
  else if decide ((volumeGroupMode = true ∧ known >= dmClusterSize) ∨ (volumeGroupMode = false ∧ known > 0))
  then Ret (s, ext, v, ERR_PERSIST_STATE_MISMATCH)
  else Ret (s, ext, v, ERR_OK).

End Engine.

(** ** Failures *)
Definition markFailure (v : t) : t := with_failures (u32 (numOfFailures v + 1)) v.
Definition markSuccess (v : t) : t := with_failures 0 v.
Definition canRetryMigration (v : t) : bool := bool_decide (numOfFailures v < 4).

(** ** Migration of volumes *)
Definition isRebalancing (volume_id : Z) (v : t) : res bool :=
  col_ix ← DMT.getNodeGroupIndex volume_id (u64 (2 ^ curDmtWidth v));
  Ret (bRebalancing v && bool_decide (col_ix ∈ rebalColumns v)).

Definition notifyEndOfRebalancing (v : t) : t := with_rebalancing false v.

Section Rebalance.
(** Descriptors of volumes *)
Context {Desc : Type}.

Record Volume := Vol {
  vol_uuid : Z;
  isVolumeInactive : bool;
  isDeletePending : bool;
  fSnapshot : bool;
  vol_desc : Desc;
}.

Record DMVolumeMigrationGroup := Group { source : Z; VolDescriptors : list Desc }.
Record CtrlNotifyDMStartMigrationMsg := Msg { migrations : list DMVolumeMigrationGroup; DMT_version : Z }.

(** Adding the volume to the first group whose source is a candidate; the
    source is compared as an [unsigned]. *)
Fixpoint append_group (candidates : list Z) (desc : Desc) (groups : list DMVolumeMigrationGroup) : option (list DMVolumeMigrationGroup) :=
  match groups with
  | [] => None
  | g :: groups =>
      if existsb (λ uuid, bool_decide (u32 (source g) = uuid)) candidates then Some (Group (source g) (VolDescriptors g ++ [desc]) :: groups)
      else cons g <$> append_group candidates desc groups
  end.

(** The message with the volume, or [None] if there is no source *)
Definition place (candidates : list Z) (desc : Desc) (msg : CtrlNotifyDMStartMigrationMsg) : option CtrlNotifyDMStartMigrationMsg :=
  match append_group candidates desc (migrations msg) with
  | Some groups => Some (Msg groups (DMT_version msg))
  | None =>
      match candidates with
      | [] => None
      | uuid :: _ => Some (Msg (migrations msg ++ [Group (i64 uuid) [desc]]) (DMT_version msg))
      end
  end.

(** One destination: a message that is not in the map yet is created and a
    copy of it is put into the map; the volume is added to the message that
    was created. *)
Definition pull_one (target_version : Z) (candidates : list Z) (desc : Desc) (pull_msg : gmap Z CtrlNotifyDMStartMigrationMsg) (dm : Z)
    : option (gmap Z CtrlNotifyDMStartMigrationMsg) :=
  match pull_msg !! dm with
  | None =>
      let srcDMMigrateMsg := Msg [] 0 in
      let pull_msg := <[dm := srcDMMigrateMsg]> pull_msg in
      let srcDMMigrateMsg := Msg [] (i64 target_version) in
      _ ← place candidates desc srcDMMigrateMsg; Some pull_msg
  | Some srcDMMigrateMsg =>
      msg ← place candidates desc srcDMMigrateMsg; Some (<[dm := msg]> pull_msg)
  end.

(** The one data manager that is in both columns and a primary of the target
    column, or 0 *)
Fixpoint nosync (P : Z) (target_col : list Z) (dms : list Z) (nosyncDm : Z) : Z :=
  match dms with
  | [] => nosyncDm
  | dm :: dms =>
      let index := TableColumn.find target_col dm in
      if decide (index >= 0 ∧ index < i32 P) then
        if decide (nosyncDm = 0) then nosync P target_col dms dm else 0
      else nosync P target_col dms nosyncDm
  end.

(** The data managers that need a volume and those they can get it from;
    [None]: the volume is skipped. *)
Definition pull_plan (order : gset Z → list Z) (P : Z) (rmNodes resyncNodes : gset Z) (cmt_col target_col : list Z) : res (option (gset Z * gset Z)) :=
  let new_dms := TableColumn.getNewAndNewPrimaryUuids target_col cmt_col P ∪ resyncNodes in
  let rows := if decide (P > 0) then P else TableColumn.getLength cmt_col in
  let srcCandidates := TableColumn.getUuids cmt_col rows ∖ rmNodes ∖ resyncNodes in
  r ← (if decide (Z.of_nat (size new_dms) = TableColumn.getLength target_col) then
         _ ← fds_verify (bool_decide (P > 0));
         let nosyncDm := nosync P target_col (order (TableColumn.getIntersection target_col cmt_col)) 0 in
         Ret (if decide (nosyncDm > 0) then Some (new_dms ∖ {[nosyncDm]}, {[nosyncDm]}) else None)
       else Ret (Some (new_dms, srcCandidates)));
  Ret (match (r : option (gset Z * gset Z)) with
       | Some (new_dms, srcCandidates) => if decide (new_dms = ∅ ∨ srcCandidates = ∅) then None else r
       | None => None
       end).

(** One volume; the sum carries the error that ends the loop. *)
Definition pull_volume (orders : Z → gset Z → list Z) (rmNodes resyncNodes : gset Z) (v : t)
    (acc : gmap Z CtrlNotifyDMStartMigrationMsg + fds_errno) (ivol : nat * Volume) : res (gmap Z CtrlNotifyDMStartMigrationMsg + fds_errno) :=
  let '(i, vol) := ivol in
  match acc with
  | inr err => Ret (inr err)
  | inl pull_msg =>
      cmt_col ← DMTManager.getCommittedNodeGroup (dmtMgr v) (vol_uuid vol);
      target_col ← DMTManager.getTargetNodeGroup (dmtMgr v) (vol_uuid vol);
      if isVolumeInactive vol || isDeletePending vol || fSnapshot vol then Ret (inl pull_msg) else
      plan ← pull_plan (orders (3 * Z.of_nat i)) (numOfPrimaryDMs v) rmNodes resyncNodes cmt_col target_col;
      match (plan : option (gset Z * gset Z)) with
      | None => Ret (inl pull_msg)
      | Some (new_dms, srcCandidates) =>
          let candidates := orders (3 * Z.of_nat i + 1) srcCandidates in
          Ret (foldl (λ acc dm,
            match acc with
            | inr err => inr err
            | inl pull_msg =>
                match pull_one (DMTManager.target_version (dmtMgr v)) candidates (vol_desc vol) pull_msg dm with
                | Some pull_msg => inl pull_msg
                | None => inr ERR_DM_MIGRATION_ABORTED
                end
            end) (inl pull_msg) (orders (3 * Z.of_nat i + 2) new_dms))
      end
  end.

(** The messages are sent in some order [dests] of the map; [send] is what the
    agent of a data manager answers, [known] the data managers with an agent. *)
Definition send_pulls (known : Z → bool) (send : Z → CtrlNotifyDMStartMigrationMsg → fds_errno) (target_version : Z)
    (pull_msg : gmap Z CtrlNotifyDMStartMigrationMsg) (dests : list Z) : res (gset Z * list (Z * CtrlNotifyDMStartMigrationMsg) * fds_errno) :=
  foldM (λ '(dm_set, sent, err) dm,
    match pull_msg !! dm with
    | None => Ret (dm_set, sent, err)
    | Some msg =>
        if decide (migrations msg = []) then Ret (dm_set, sent, err) else
        _ ← fds_verify (known dm);
        let message := Msg (migrations msg) (i64 target_version) in
        let err := send dm message in
        Ret (if decide (err = ERR_OK) then {[dm]} ∪ dm_set else dm_set, sent ++ [(dm, message)], err)
    end) (∅, [], ERR_OK) dests.

(** The data managers that will pull and the messages sent to them *)
Definition beginRebalance (orders : Z → gset Z → list Z) (map_order : gmap Z CtrlNotifyDMStartMigrationMsg → list Z) (known : Z → bool)
    (send : Z → CtrlNotifyDMStartMigrationMsg → fds_errno) (volumes : list Volume) (cmap : ClusterMap.t) (v : t)
    : res (t * gset Z * list (Z * CtrlNotifyDMStartMigrationMsg) * fds_errno) :=
  if negb (hasCommittedDMT v) then Ret (v, ∅, [], ERR_OK) else
  _ ← fds_verify (DMTManager.hasTargetDMT (dmtMgr v));
  if bRebalancing v then Fault VerifyFailed else
  let v := with_rebalancing true v in
  rmNodes ← ClusterMap.getRemovedServices ClusterMap.FDSP_DATA_MGR cmap;
  r ← foldM (pull_volume orders rmNodes (ClusterMap.getDmResyncServices cmap) v) (inl ∅) (imap pair volumes);
  match (r : gmap Z CtrlNotifyDMStartMigrationMsg + fds_errno) with
  | inr err => Ret (v, ∅, [], err)
  | inl pull_msg =>
      r ← send_pulls known send (DMTManager.target_version (dmtMgr v)) pull_msg (map_order pull_msg);
      let '(dm_set, sent, err) := r : gset Z * list (Z * CtrlNotifyDMStartMigrationMsg) * fds_errno in
      Ret (v, dm_set, sent, err)
  end.

End Rebalance.

End VolumePlacement.
