(* ===== verification/VolumePlacementSpec.v ===== *)
(** * What the volume placement engine does

    The messages with which a migration starts, and the tables the engine
    computes, commits, rolls back and loads again. *)

From S2P Require Import Prelude PlacementTable Serialize Dmt DmtManager ConfigDb ClusterMap OmExtUtil Double VolPlacementAlgo.
From S2P Require Import VolPlacementRows VolPlacementSpec VolPlacementUpdate VolPlacementCompute VolumePlacement.
Open Scope Z_scope.

Import VolumePlacement.

(** ** Messages *)
Section Pulls.
Context {Desc : Type}.
Implicit Types (msg : CtrlNotifyDMStartMigrationMsg (Desc := Desc)) (groups : list (DMVolumeMigrationGroup (Desc := Desc))) (desc : Desc) (cands : list Z).

(** A need of a data manager: where a volume can come from, and the volume *)
Definition need : Type := list Z * Desc.
Implicit Types (needs : list need) (dm : Z).

(** A source that is one of the candidates *)
Definition from_candidate cands (src : Z) : Prop := ∃ u, u ∈ cands ∧ src = i64 u.

Definition volumes_of groups : list Desc := mjoin (VolDescriptors <$> groups).

(** Every volume of the groups is a need, and its group has a source for it;
    no group has a source out of the blue. *)
Definition sources_ok needs groups : Prop :=
  (∀ g desc, g ∈ groups → desc ∈ VolDescriptors g → ∃ cands, (cands, desc) ∈ needs ∧ from_candidate cands (source g)) ∧
  ∀ g, g ∈ groups → ∃ cands desc, (cands, desc) ∈ needs ∧ from_candidate cands (source g).

(** The code compares the low 32 bits of the source of a group with a
    candidate.  [U] are uuids for which that is enough. *)
Section Apart.
Context (U : Z → Prop) (HU : ∀ u u', U u → U u' → u32 u' = u → u' = u).

Definition known_to (n : need) : Prop := ∀ u, u ∈ n.1 → U u.

Lemma u32_i64 (u : Z) : u32 (i64 u) = u32 u.
Proof.
  unfold u32, i64, wrap_signed. change (2 ^ 64) with (4294967296 * 4294967296). cbv zeta.
  assert ((u `mod` (4294967296 * 4294967296)) `mod` 4294967296 = u `mod` 4294967296) as E by (apply Z.mod_mod_divide; by exists 4294967296).
  case_decide; [done|]. rewrite <-Z.add_opp_r, <-Z.mul_opp_l. by rewrite Z_mod_plus_full.
Qed.

Lemma append_group_ok needs cands desc groups groups' : Forall known_to needs → known_to (cands, desc) →
  append_group cands desc groups = Some groups' → sources_ok needs groups →
  volumes_of groups' ≡ₚ desc :: volumes_of groups ∧ sources_ok ((cands, desc) :: needs) groups'.
Proof.
  intros HN HC. revert groups'. induction groups as [|g groups IH]; intros groups' E [Hok Hsrc]; [done|]. simpl in E.
  assert (∀ g', g' ∈ g :: groups → ∃ c d, (c, d) ∈ (cands, desc) :: needs ∧ from_candidate c (source g')) as Hsrc'.
  { intros g' Hg'. destruct (Hsrc g' Hg') as (c & d & ? & ?). exists c, d. split; [by right|done]. }
  destruct (existsb _ cands) eqn:Ex.
  - injection E as <-. apply existsb_exists in Ex as (u & Hu%list_elem_of_In & Hlow%bool_decide_eq_true). unfold volumes_of. simpl. split.
    + rewrite <-app_assoc. simpl. symmetry. apply Permutation_middle.
    + split; [|intros g' [->|Hg']%elem_of_cons; simpl; apply Hsrc'; [by left|by right]].
      intros g' d [->|Hg']%elem_of_cons Hd.
      * simpl in *. apply elem_of_app in Hd as [Hd|Hd%list_elem_of_singleton].
        -- destruct (Hok g d) as (c & Hc & ?); [by left|done|]. exists c. split; [by right|done].
        -- subst d. exists cands. split; [by left|]. destruct (Hsrc g) as (c & d & Hc & u' & Hu' & E); [by left|].
           rewrite Forall_forall in HN. specialize (HN _ Hc u' Hu'). rewrite E, u32_i64 in Hlow.
           exists u. split; [done|]. by rewrite E, (HU u u' (HC u Hu) HN Hlow).
      * destruct (Hok g' d) as (c & Hc & ?); [by right|done|]. exists c. split; [by right|done].
  - apply fmap_Some in E as (groups1 & E & ->). destruct (IH groups1 E) as [Hp [Hs1 Hs2]].
    { split; [intros g' d Hg'; apply Hok|intros g' Hg'; apply Hsrc]; by right. }
    split.
    + unfold volumes_of in *. simpl. rewrite Hp. symmetry. apply Permutation_middle.
    + split; [|intros g' [->|Hg']%elem_of_cons; [by apply Hsrc'; left|by apply Hs2]].
      intros g' d [->|Hg']%elem_of_cons Hd; [|by apply Hs1]. destruct (Hok g d) as (c & Hc & ?); [by left|done|]. exists c. split; [by right|done].
Qed.

Lemma place_ok needs cands desc msg : Forall known_to needs → known_to (cands, desc) → cands ≠ [] → sources_ok needs (migrations msg) →
  ∃ msg', place cands desc msg = Some msg' ∧ volumes_of (migrations msg') ≡ₚ desc :: volumes_of (migrations msg) ∧
    sources_ok ((cands, desc) :: needs) (migrations msg').
Proof.
  intros HN HC Hne Hok. unfold place. destruct (append_group cands desc (migrations msg)) as [groups|] eqn:E.
  { eexists. split; [done|]. by apply (append_group_ok needs cands desc (migrations msg)). }
  destruct cands as [|u cands]; [done|]. eexists. split; [done|]. simpl. destruct Hok as [Hok Hsrc]. split; [|split].
  - unfold volumes_of. rewrite fmap_app, join_app. simpl. symmetry. apply Permutation_cons_append.
  - intros g d [Hg| ->%list_elem_of_singleton]%elem_of_app Hd.
    + destruct (Hok g d Hg Hd) as (c & ? & ?). exists c. split; [by right|done].
    + simpl in Hd. apply list_elem_of_singleton in Hd as ->. exists (u :: cands). split; [by left|]. exists u. split; [by left|done].
  - intros g [Hg| ->%list_elem_of_singleton]%elem_of_app.
    + destruct (Hsrc g Hg) as (c & d & ? & ?). exists c, d. split; [by right|done].
    + exists (u :: cands), desc. split; [by left|]. exists u. split; [by left|done].
Qed.

Lemma sources_mono needs needs' groups : (∀ n, n ∈ needs → n ∈ needs') → sources_ok needs groups → sources_ok needs' groups.
Proof.
  intros Hsub [Hok Hsrc]. split.
  - intros g d Hg Hd. destruct (Hok g d Hg Hd) as (c & ? & ?). exists c. auto.
  - intros g Hg. destruct (Hsrc g Hg) as (c & d & ? & ?). exists c, d. auto.
Qed.

Lemma sources_nil needs : sources_ok needs [].
Proof. split; [intros ?? H|intros ? H]; by apply not_elem_of_nil in H. Qed.

(** The messages collected when data manager [dm] needs [wants dm]: the first
    need of each is missing. *)
Definition pulled (wants : Z → list need) (pull : gmap Z (CtrlNotifyDMStartMigrationMsg (Desc := Desc))) : Prop :=
  ∀ dm, match pull !! dm with
        | None => wants dm = []
        | Some msg => wants dm ≠ [] ∧ volumes_of (migrations msg) ≡ₚ (tail (wants dm)).*2 ∧ sources_ok (tail (wants dm)) (migrations msg)
        end.

Definition add_need (n : need) (dms : list Z) (wants : Z → list need) (dm : Z) : list need :=
  if decide (dm ∈ dms) then wants dm ++ [n] else wants dm.

Lemma pulled_ext (wants wants' : Z → list need) pull : (∀ dm, wants dm = wants' dm) → pulled wants pull → pulled wants' pull.
Proof. intros E H dm. specialize (H dm). by rewrite E in H. Qed.

Lemma pull_one_ok (wants : Z → list need) pull tv cands desc dm : cands ≠ [] → known_to (cands, desc) →
  (∀ dm, Forall known_to (wants dm)) → pulled wants pull →
  ∃ pull', pull_one tv cands desc pull dm = Some pull' ∧ pulled (add_need (cands, desc) [dm] wants) pull'.
Proof.
  intros Hne HC HN Hp. pose proof (Hp dm) as Hdm. unfold pull_one.
  assert (∀ msg pull', (∀ dm', dm' ≠ dm → pull' !! dm' = pull !! dm') → pull' !! dm = Some msg →
    volumes_of (migrations msg) ≡ₚ (tail (wants dm ++ [(cands, desc)])).*2 → sources_ok (tail (wants dm ++ [(cands, desc)])) (migrations msg) →
    pulled (add_need (cands, desc) [dm] wants) pull') as Hset.
  { intros msg pull' Hother Hl Hv Hs dm'. unfold add_need. destruct (decide (dm' = dm)) as [->|Hd].
    - rewrite Hl, decide_True by (by apply list_elem_of_singleton). split; [by destruct (wants dm)|done].
    - rewrite Hother, decide_False by (done || by intros ?%list_elem_of_singleton). apply Hp. }
  destruct (pull !! dm) as [msg|] eqn:E.
  - destruct Hdm as (Hn & Hv & Hs). destruct (place_ok (tail (wants dm)) cands desc msg (Forall_tail _ _ (HN dm)) HC Hne Hs) as (msg' & E' & Hv' & Hs'). rewrite E'. simpl.
    assert (tail (wants dm ++ [(cands, desc)]) = tail (wants dm) ++ [(cands, desc)]) as Ht by (by destruct (wants dm)).
    eexists. split; [done|]. apply (Hset msg'); [intros; by apply lookup_insert_ne|by apply lookup_insert_eq| |].
    + rewrite Hv', Ht, fmap_app, Hv. apply Permutation_cons_append.
    + rewrite Ht. eapply sources_mono; [|done]. intros n [->|Hin]%elem_of_cons; apply elem_of_app; [right; by left|by left].
  - destruct (place_ok [] cands desc (Msg [] (i64 tv)) (Forall_nil_2 _) HC Hne (sources_nil _)) as (msg' & E' & _). rewrite E'. simpl.
    eexists. split; [done|]. apply (Hset (Msg [] 0)); [intros; by apply lookup_insert_ne|by apply lookup_insert_eq| |]; rewrite Hdm; [done|].
    apply sources_nil.
Qed.

Lemma add_need_known (wants : Z → list need) n (dms : list Z) : known_to n → (∀ dm, Forall known_to (wants dm)) →
  ∀ dm, Forall known_to (add_need n dms wants dm).
Proof. intros Hn HN dm. unfold add_need. case_decide; [|done]. apply Forall_app. split; [done|by constructor]. Qed.

Lemma pull_all_ok (wants : Z → list need) pull tv cands desc (dms : list Z) : cands ≠ [] → known_to (cands, desc) → NoDup dms →
  (∀ dm, Forall known_to (wants dm)) → pulled wants pull →
  ∃ pull', foldl (λ acc dm, match acc with
                            | inr err => inr err
                            | inl pull_msg =>
                                match pull_one tv cands desc pull_msg dm with
                                | Some pull_msg => inl pull_msg
                                | None => inr ERR_DM_MIGRATION_ABORTED
                                end
                            end) (inl pull) dms = inl pull' ∧ pulled (add_need (cands, desc) dms wants) pull'.
Proof.
  intros Hne HC. revert wants pull. induction dms as [|dm dms IH]; intros wants pull Hnd HN Hp.
  { exists pull. split; [done|]. eapply pulled_ext; [|done]. intros dm. unfold add_need. by rewrite decide_False by apply not_elem_of_nil. }
  apply NoDup_cons in Hnd as [Hn Hnd]. destruct (pull_one_ok wants pull tv cands desc dm Hne HC HN Hp) as (pull1 & E & Hp1). simpl. rewrite E.
  destruct (IH _ _ Hnd (add_need_known _ _ _ HC HN) Hp1) as (pull' & E' & Hp'). exists pull'. split; [done|]. eapply pulled_ext; [|done]. intros dm'. unfold add_need.
  destruct (decide (dm' = dm)) as [->|Hd].
  - rewrite (decide_False (P := dm ∈ dms)) by done. rewrite !decide_True by (by left). done.
  - rewrite (decide_False (P := dm' ∈ [dm])) by (by intros ?%list_elem_of_singleton). apply decide_ext. rewrite elem_of_cons. naive_solver.
Qed.

Section Volumes.
Context (orders : Z → gset Z → list Z) (Horders : ∀ n s, orders n s ≡ₚ elements s) (rm resync : gset Z) (v : VolumePlacement.t).

(** Who needs volume [vol], and from whom it can come *)
Definition volume_plan (i : nat) (vol : Volume (Desc := Desc)) : res (option (gset Z * gset Z)) :=
  cmt_col ← DMTManager.getCommittedNodeGroup (dmtMgr v) (vol_uuid vol);
  target_col ← DMTManager.getTargetNodeGroup (dmtMgr v) (vol_uuid vol);
  if isVolumeInactive vol || isDeletePending vol || fSnapshot vol then Ret None
  else pull_plan (orders (3 * Z.of_nat i)) (numOfPrimaryDMs v) rm resync cmt_col target_col.

Definition needs_in (dm : Z) (ivol : nat * Volume (Desc := Desc)) : list need :=
  match volume_plan ivol.1 ivol.2 with
  | Ret (Some (new_dms, sources)) =>
      if decide (dm ∈ new_dms) then [(orders (3 * Z.of_nat ivol.1 + 1) sources, vol_desc ivol.2)] else []
  | _ => []
  end.

(** The needs of data manager [dm], in the order of the volumes *)
Definition needs_of (volumes : list (Volume (Desc := Desc))) (dm : Z) : list need := imap pair volumes ≫= needs_in dm.

Lemma plan_sources order P cmt_col target_col new_dms sources :
  pull_plan order P rm resync cmt_col target_col = Ret (Some (new_dms, sources)) → new_dms ≠ ∅ ∧ sources ≠ ∅.
Proof.
  unfold pull_plan. intros H. destruct (if decide _ then _ else _) as [r|f]; [|done]. simpl in H. injection H as H. destruct r as [[a b]|]; [|done].
  case_decide as Hd; [done|]. injection H as <- <-. naive_solver.
Qed.

Lemma order_nonempty (n : Z) (s : gset Z) : s ≠ ∅ → orders n s ≠ [].
Proof.
  intros Hs E. apply Hs. apply set_eq. intros u. rewrite <-elem_of_elements, <-(Horders n s), E. rewrite elem_of_empty. apply elem_of_nil.
Qed.

Lemma pull_volume_ok (wants : Z → list need) pull i vol p : volume_plan i vol = Ret p →
  (∀ dm, Forall known_to (needs_in dm (i, vol))) → (∀ dm, Forall known_to (wants dm)) → pulled wants pull →
  ∃ pull', pull_volume orders rm resync v (inl pull) (i, vol) = Ret (inl pull') ∧ pulled (λ dm, wants dm ++ needs_in dm (i, vol)) pull'.
Proof.
  intros Hplan HI HN Hp. pose proof Hplan as Hplan'. unfold volume_plan in Hplan'. unfold pull_volume.
  destruct (DMTManager.getCommittedNodeGroup (dmtMgr v) (vol_uuid vol)) as [cmt|] eqn:Ec; [|done]. rewrite !bind_Ret in *.
  destruct (DMTManager.getTargetNodeGroup (dmtMgr v) (vol_uuid vol)) as [tgt|] eqn:Et; [|done]. rewrite !bind_Ret in *.
  assert (∀ dm, needs_in dm (i, vol) = match p with
    | Some (new_dms, sources) => if decide (dm ∈ new_dms) then [(orders (3 * Z.of_nat i + 1) sources, vol_desc vol)] else [] | None => [] end) as Hneed.
  { intros dm. unfold needs_in. simpl. rewrite Hplan. by destruct p as [[??]|]. }
  assert (p = None → ∃ pull', Ret (inl pull) = Ret (inl pull' : gmap Z CtrlNotifyDMStartMigrationMsg + fds_errno) ∧ pulled (λ dm, wants dm ++ needs_in dm (i, vol)) pull') as Hnone.
  { intros ->. exists pull. split; [done|]. eapply pulled_ext; [|done]. intros dm. by rewrite Hneed, app_nil_r. }
  destruct (isVolumeInactive vol || isDeletePending vol || fSnapshot vol); [injection Hplan' as <-; by apply Hnone|].
  rewrite Hplan', bind_Ret. destruct p as [[new_dms sources]|]; [|by apply Hnone].
  destruct (pull_all_ok wants pull (DMTManager.target_version (dmtMgr v)) (orders (3 * Z.of_nat i + 1) sources) (vol_desc vol) (orders (3 * Z.of_nat i + 2) new_dms))
    as (pull' & E & Hp'); [eapply order_nonempty, plan_sources, Hplan'| |rewrite Horders; apply NoDup_elements|done|done|].
  { apply plan_sources in Hplan' as [[dm Hdm]%set_choose_L _]. specialize (HI dm). rewrite Hneed, decide_True in HI by done.
    by apply (Forall_inv HI). }
  exists pull'. rewrite E. split; [done|]. eapply pulled_ext; [|done]. intros dm. rewrite Hneed. unfold add_need.
  assert (dm ∈ orders (3 * Z.of_nat i + 2) new_dms ↔ dm ∈ new_dms) as Hin by (rewrite Horders; apply elem_of_elements).
  repeat case_decide; try tauto. by rewrite app_nil_r.
Qed.

Lemma pull_volumes_ok (wants : Z → list need) pull l : (∀ i vol, (i, vol) ∈ l → ∃ p, volume_plan i vol = Ret p) →
  (∀ dm, Forall known_to (l ≫= needs_in dm)) → (∀ dm, Forall known_to (wants dm)) → pulled wants pull →
  ∃ pull', foldM (pull_volume orders rm resync v) (inl pull) l = Ret (inl pull') ∧ pulled (λ dm, wants dm ++ (l ≫= needs_in dm)) pull'.
Proof.
  revert wants pull. induction l as [|[i vol] l IH]; intros wants pull Hplan HI HN Hp.
  { exists pull. split; [done|]. eapply pulled_ext; [|done]. intros dm. by rewrite app_nil_r. }
  destruct (Hplan i vol) as [p Ep]; [by left|]. assert (∀ dm, Forall known_to (needs_in dm (i, vol)) ∧ Forall known_to (l ≫= needs_in dm)) as HI'.
  { intros dm. apply Forall_app, HI. }
  destruct (pull_volume_ok wants pull i vol p Ep (λ dm, proj1 (HI' dm)) HN Hp) as (pull1 & E & Hp1).
  rewrite foldM_cons, E, bind_Ret. destruct (IH _ _ (λ i' vol' Hin, Hplan i' vol' (list_elem_of_further _ _ _ Hin)) (λ dm, proj2 (HI' dm))
    (λ dm, proj2 (Forall_app _ _ _) (conj (HN dm) (proj1 (HI' dm)))) Hp1) as (pull' & E' & Hp').
  exists pull'. split; [done|]. eapply pulled_ext; [|done]. intros dm. simpl. by rewrite <-app_assoc.
Qed.
End Volumes.
End Apart.

(** ** Messages sent *)
Section Send.
Context (known : Z → bool) (send : Z → CtrlNotifyDMStartMigrationMsg (Desc := Desc) → fds_errno) (tv : Z).
Context (pull : gmap Z (CtrlNotifyDMStartMigrationMsg (Desc := Desc))).

Definition message_to (dm : Z) : list (Z * CtrlNotifyDMStartMigrationMsg (Desc := Desc)) :=
  match pull !! dm with
  | Some msg => if decide (migrations msg = []) then [] else [(dm, Msg (migrations msg) (i64 tv))]
  | None => []
  end.

Lemma send_pulls_ok (dests : list Z) : (∀ dm, dm ∈ dests → known dm = true) →
  ∃ dm_set err, send_pulls known send tv pull dests = Ret (dm_set, dests ≫= message_to, err) ∧
    ∀ dm, dm ∈ dm_set ↔ ∃ m, (dm, m) ∈ dests ≫= message_to ∧ send dm m = ERR_OK.
Proof.
  intros Hk. unfold send_pulls.
  assert (∀ (l : list Z) (S0 : gset Z) sent e0, (∀ dm, dm ∈ l → known dm = true) →
    (∀ dm, dm ∈ S0 ↔ ∃ m, (dm, m) ∈ sent ∧ send dm m = ERR_OK) →
    ∃ dm_set err, foldM (λ '(dm_set, sent, err) dm,
      match pull !! dm with
      | None => Ret (dm_set, sent, err)
      | Some msg =>
          if decide (migrations msg = []) then Ret (dm_set, sent, err) else
          _ ← fds_verify (known dm);
          let message := Msg (migrations msg) (i64 tv) in
          let err := send dm message in
          Ret (if decide (err = ERR_OK) then {[dm]} ∪ dm_set else dm_set, sent ++ [(dm, message)], err)
      end) (S0, sent, e0) l = Ret (dm_set, sent ++ (l ≫= message_to), err) ∧
      ∀ dm, dm ∈ dm_set ↔ ∃ m, (dm, m) ∈ sent ++ (l ≫= message_to) ∧ send dm m = ERR_OK) as Hgen.
  { clear Hk. induction l as [|dm l IH]; intros S0 sent e0 Hk HS.
    { exists S0, e0. split; [by rewrite app_nil_r|]. simpl. by rewrite app_nil_r. }
    rewrite foldM_cons. change ((dm :: l) ≫= message_to) with (message_to dm ++ (l ≫= message_to)).
    assert (message_to dm = match pull !! dm with
      | Some msg => if decide (migrations msg = []) then [] else [(dm, Msg (migrations msg) (i64 tv))] | None => [] end) as -> by done.
    assert (∀ x, x ∈ l → known x = true) as Hk' by (intros x Hx; apply Hk; by right).
    destruct (pull !! dm) as [msg|]; [|rewrite bind_Ret; by apply IH]. case_decide as Hm; [rewrite bind_Ret; by apply IH|].
    rewrite (Hk dm) by (by left). cbv zeta. simpl fds_verify. rewrite !bind_Ret.
    destruct (IH (if decide (send dm (Msg (migrations msg) (i64 tv)) = ERR_OK) then {[dm]} ∪ S0 else S0) (sent ++ [(dm, Msg (migrations msg) (i64 tv))])
      (send dm (Msg (migrations msg) (i64 tv))) Hk') as (dm_set & err & E & Hset).
    { intros x. setoid_rewrite elem_of_app. setoid_rewrite list_elem_of_singleton. case_decide; [rewrite elem_of_union, elem_of_singleton|]; rewrite HS; naive_solver. }
    exists dm_set, err. cbv zeta in E. rewrite E. rewrite <-!app_assoc in *. by split. }
  destruct (Hgen dests ∅ [] ERR_OK Hk) as (dm_set & err & E & Hset).
  { intros dm. rewrite elem_of_empty. setoid_rewrite elem_of_nil. naive_solver. }
  by exists dm_set, err.
Qed.

(** The volumes the messages tell [dm] to pull *)
Definition sent_volumes (sent : list (Z * CtrlNotifyDMStartMigrationMsg (Desc := Desc))) (dm : Z) : list Desc :=
  filter (λ m, m.1 = dm) sent ≫= λ m, volumes_of (migrations m.2).

Lemma sent_one (dests : list Z) dm : NoDup dests →
  sent_volumes (dests ≫= message_to) dm = if decide (dm ∈ dests) then match pull !! dm with Some msg => volumes_of (migrations msg) | None => [] end else [].
Proof.
  unfold sent_volumes. induction dests as [|x dests IH]; intros Hnd; [by rewrite decide_False by apply not_elem_of_nil|].
  apply NoDup_cons in Hnd as [Hx Hnd]. cbn [mbind list_bind]. rewrite filter_app, bind_app, IH by done.
  destruct (decide (x = dm)) as [->|Hne].
  - rewrite (decide_False (P := dm ∈ dests)), app_nil_r, decide_True by (done || by left). unfold message_to. destruct (pull !! dm) as [msg|]; [|done].
    destruct (decide (migrations msg = [])) as [Hm|Hm]; [by rewrite Hm|]. rewrite filter_cons, decide_True by done. simpl. by rewrite app_nil_r.
  - replace (filter _ (message_to x)) with ([] : list (Z * CtrlNotifyDMStartMigrationMsg (Desc := Desc))).
    + simpl. apply decide_ext. rewrite elem_of_cons. naive_solver.
    + unfold message_to. destruct (pull !! x) as [msg|]; [|done]. destruct (decide (migrations msg = [])); [done|]. by rewrite filter_cons, decide_False.
Qed.
End Send.

Section BeginRebalance.
Context (orders : Z → gset Z → list Z) (map_order : gmap Z (CtrlNotifyDMStartMigrationMsg (Desc := Desc)) → list Z).
Context (known : Z → bool) (send : Z → CtrlNotifyDMStartMigrationMsg (Desc := Desc) → fds_errno).

(** A committed and a target table, and no migration yet *)
Record ready (v : VolumePlacement.t) : Prop := {
  rd_committed : ∃ d, DMTManager.find_committed (dmtMgr v) = Ret d ∧ shaped d ∧ 0 < DMT.columns d;
  rd_target : DMTManager.target_version (dmtMgr v) ≠ DMT_VER_INVALID ∧
    ∃ d, DMTManager.dmt_map (dmtMgr v) !! DMTManager.target_version (dmtMgr v) = Some (Some d) ∧ shaped d ∧ 0 < DMT.columns d;
  rd_primaries : 0 < numOfPrimaryDMs v;
  rd_idle : bRebalancing v = false;
}.

Lemma node_group_total d (vol : Z) : shaped d → 0 < DMT.columns d → ∃ col, DMT.getNodeGroup_vol d vol = Ret col.
Proof.
  intros (Hc & _ & Hl & _) Hpos. unfold DMT.getNodeGroup_vol. rewrite fds_verify_true, bind_Ret by lia. cbv zeta.
  pose proof (Z.mod_pos_bound vol (DMT.columns d) ltac:(lia)). destruct (lookup_lt_is_Some_2 (DMT.dmt_table d) (Z.to_nat (vol `mod` DMT.columns d))) as [col Hcol]; [lia|].
  exists col. apply vec_at_lookup. split; [lia|done].
Qed.

Lemma plan_total rm resync v i vol : ready v → ∃ p, volume_plan orders rm resync v i vol = Ret p.
Proof.
  intros [(d & Ed & Hd & Hdc) (Ht & d' & Ed' & Hd' & Hdc') HP _]. unfold volume_plan, DMTManager.getCommittedNodeGroup, DMTManager.getTargetNodeGroup.
  rewrite Ed, bind_Ret. destruct (node_group_total d (vol_uuid vol) Hd Hdc) as [col ->]. rewrite bind_Ret, fds_verify_true, bind_Ret, Ed' by done. simpl (DMTManager.deref _). rewrite bind_Ret.
  destruct (node_group_total d' (vol_uuid vol) Hd' Hdc') as [col' ->]. rewrite bind_Ret. destruct (_ || _ || _); [by eexists|]. unfold pull_plan.
  case_decide; [rewrite fds_verify_true, !bind_Ret by lia|rewrite bind_Ret]; by eexists.
Qed.

(** Every source a data manager can get a volume from *)
Definition is_source (needs : Z → list need) (u : Z) : Prop := ∃ dm cands desc, (cands, desc) ∈ needs dm ∧ u ∈ cands.

(** C19. The start of a migration loses the first volume of every data manager.
    The comments of the loop mean each new data manager to be told every volume
    it needs; the message that goes into the map is a copy made before the
    first volume is added to it.  So with a committed and a target table, no
    migration under way and an agent for each data manager, what is sent to a
    data manager is exactly the volumes that it needs, in groups, EXCEPT THE
    FIRST ONE of them; a data manager that needs one volume gets no message.
    Each volume that is sent comes from one of its candidates, provided the
    uuid of no source is the low 32 bits of that of another, since the code
    casts the uuid of a group's source to 32 bits when it looks for a group.
    The data managers returned are those whose message was taken. *)
Theorem rebalance_sends (volumes : list (Volume (Desc := Desc))) (cmap : ClusterMap.t) (v : VolumePlacement.t) :
  (∀ n s, orders n s ≡ₚ elements s) → (∀ pull, map_order pull ≡ₚ elements (dom pull)) → ready v →
  let needs := needs_of orders (ClusterMap.removedDMs cmap) (ClusterMap.resyncDMs cmap) (with_rebalancing true v) volumes in
  (∀ dm, needs dm ≠ [] → known dm = true) → (∀ u u', is_source needs u → is_source needs u' → u32 u' = u → u' = u) →
  ∃ dm_set sent err, beginRebalance orders map_order known send volumes cmap v = Ret (with_rebalancing true v, dm_set, sent, err) ∧
    (∀ dm, sent_volumes sent dm ≡ₚ (tail (needs dm)).*2) ∧
    (∀ dm m, (dm, m) ∈ sent → sources_ok (tail (needs dm)) (migrations m) ∧ migrations m ≠ [] ∧ DMT_version m = i64 (getTargetDMTVersion v)) ∧
    (∀ dm, dm ∈ dm_set ↔ ∃ m, (dm, m) ∈ sent ∧ send dm m = ERR_OK).
Proof.
  intros Hord Hmap Hr needs Hknown HU. pose proof Hr as [(d & Ed & _) (Ht & _) _ Hidle]. unfold beginRebalance.
  assert (hasCommittedDMT v = true) as ->.
  { unfold hasCommittedDMT, DMTManager.hasCommittedDMT. apply bool_decide_eq_true. intros Hc. unfold DMTManager.find_committed in Ed. by rewrite decide_True in Ed. }
  assert (DMTManager.hasTargetDMT (dmtMgr v) = true) as -> by (by apply bool_decide_eq_true). simpl negb. cbv iota. simpl (fds_verify true). rewrite bind_Ret, Hidle.
  cbv zeta. change (ClusterMap.getRemovedServices ClusterMap.FDSP_DATA_MGR cmap) with (Ret (ClusterMap.removedDMs cmap)). rewrite bind_Ret.
  destruct (pull_volumes_ok _ HU orders Hord (ClusterMap.removedDMs cmap) (ClusterMap.resyncDMs cmap) (with_rebalancing true v) (λ _, []) ∅ (imap pair volumes))
    as (pull & E & Hp); [intros i vol _; by apply (plan_total _ _ v)| |done|intros dm; by rewrite lookup_empty|].
  { intros dm. apply Forall_forall. intros [c desc] Hin u Hu. by exists dm, c, desc. }
  unfold ClusterMap.getDmResyncServices. rewrite E, bind_Ret. change (∀ dm, match pull !! dm with None => needs dm = [] | Some msg => needs dm ≠ [] ∧
    volumes_of (migrations msg) ≡ₚ (tail (needs dm)).*2 ∧ sources_ok (tail (needs dm)) (migrations msg) end) in Hp.
  assert (∀ dm, dm ∈ map_order pull ↔ is_Some (pull !! dm)) as Hdom by (intros dm; by rewrite Hmap, elem_of_elements, elem_of_dom).
  destruct (send_pulls_ok known send (DMTManager.target_version (dmtMgr v)) pull (map_order pull)) as (dm_set & err & E' & Hset).
  { intros dm [msg Hm]%Hdom. apply Hknown. specialize (Hp dm). rewrite Hm in Hp. apply Hp. }
  change (dmtMgr (with_rebalancing true v)) with (dmtMgr v). rewrite E', bind_Ret. eexists _, _, _. split; [done|]. split; [|split; [|done]].
  - intros dm. rewrite (sent_one known send (DMTManager.target_version (dmtMgr v)) pull (map_order pull) dm) by (rewrite Hmap; apply NoDup_elements). specialize (Hp dm). destruct (pull !! dm) as [msg|] eqn:El.
    + rewrite decide_True by (apply Hdom; by eexists). apply Hp.
    + rewrite Hp. simpl. by case_decide.
  - intros dm m (x & Hm & Hx)%list_elem_of_bind. specialize (Hp x). unfold message_to in Hm. destruct (pull !! x) as [msg|]; [|by apply not_elem_of_nil in Hm].
    case_decide as Hne; [by apply not_elem_of_nil in Hm|]. apply list_elem_of_singleton in Hm as [= -> ->]. split; [apply Hp|]. by split.
Qed.
End BeginRebalance.
End Pulls.

(** Three volumes move from data manager 1 to data manager 3. *)
Definition moving : VolumePlacement.t :=
  with_mgr (DMTManager.Make 3 1 2
    (<[2 := Some (DMT.Make (FDS_Table.make 1 2 2) [[1; 3]; [1; 3]])]> (<[1 := Some (DMT.Make (FDS_Table.make 1 2 1) [[1; 2]; [1; 2]])]> ∅)))
    (VolumePlacement.make 2 1).
Definition three_volumes : list (Volume (Desc := Z)) := [Vol 10 false false false 10; Vol 11 false false false 11; Vol 12 false false false 12].

Lemma moving_ready : ready moving.
Proof.
  assert (∀ b tbl, FDS_Table.columns b = 2 → FDS_Table.depth b = 2 → length tbl = 2%nat → Forall (λ col : list Z, length col = 2%nat) tbl → shaped (DMT.Make b tbl)) as Hs.
  { intros b tbl Hc Hd Hl Hcol. unfold shaped, DMT.columns, DMT.depth. simpl. rewrite Hc, Hd, Hl. split_and!; [lia..|].
    eapply Forall_impl; [done|]. simpl. intros col ->. done. }
  split; [| |done..].
  - eexists. split; [reflexivity|]. split; [|done]. apply Hs; [done..|by repeat constructor].
  - split; [done|]. eexists. split; [reflexivity|]. split; [|done]. apply Hs; [done..|by repeat constructor].
Qed.

(** The volumes come from data manager 1. *)
Lemma moving_source u : is_source (needs_of (λ _ s, elements s) ∅ ∅ (with_rebalancing true moving) three_volumes) u → u = 1.
Proof.
  intros (dm & c & d & Hin & Hu). unfold needs_of in Hin. apply list_elem_of_bind in Hin as ([i vol] & Hin & Hiv).
  assert (volume_plan (λ _ s, elements s) ∅ ∅ (with_rebalancing true moving) i vol = Ret (Some ({[3]}, {[1]}))) as E.
  { repeat (apply elem_of_cons in Hiv as [[= -> ->]|Hiv]; [vm_compute; reflexivity|]). by apply elem_of_nil in Hiv. }
  unfold needs_in in Hin. cbn [fst snd] in Hin. rewrite E in Hin. case_decide; [|by apply elem_of_nil in Hin].
  apply list_elem_of_singleton in Hin as [= -> ->]. by rewrite elements_singleton, list_elem_of_singleton in Hu.
Qed.

Lemma rebalance_sends_witness : ∃ dm_set sent err,
  beginRebalance (λ _ s, elements s) (λ pull, elements (dom pull)) (λ _, true) (λ _ _, ERR_OK) three_volumes (ClusterMap.Make ∅ ∅ ∅ ∅ ∅ ∅ ∅ 2) moving =
    Ret (with_rebalancing true moving, dm_set, sent, err) ∧ sent_volumes sent 3 ≡ₚ [11; 12].
Proof.
  destruct (rebalance_sends (λ _ s, elements s) (λ pull, elements (dom pull)) (λ _, true) (λ _ _, ERR_OK) three_volumes (ClusterMap.Make ∅ ∅ ∅ ∅ ∅ ∅ ∅ 2) moving)
    as (dm_set & sent & err & E & Hs & _); [done|done|apply moving_ready|done| |].
  - intros u u' Hu%moving_source Hu'%moving_source. subst. reflexivity.
  - exists dm_set, sent, err. split; [exact E|]. etransitivity; [exact (Hs 3)|]. vm_compute. done.
Defined.
