(* ===== verification/VolumePlacementTables.v ===== *)
(** * Tables of the volume placement engine

    What [VolumePlacement::computeDMT] adds to the version manager and to the
    configuration database, and that the committed table is the one loaded
    after a restart. *)

From S2P Require Import Prelude PlacementTable Serialize Dmt DmtManager ConfigDb ClusterMap OmExtUtil Double VolPlacementAlgo.
From S2P Require Import VolPlacementRows VolPlacementSpec VolPlacementUpdate VolPlacementCompute VolumePlacement.
Open Scope Z_scope.

Import VolumePlacement.

(** ** Adding the newest version *)
(** The oldest version is neither committed nor the target when a version
    follows all others. *)
Lemma evict_newest (d : DMT.t) (c max : Z) (dm : gmap Z (option DMT.t)) : 3 ≤ max →
  (∀ k p, dm !! k = Some p → ∃ d, p = Some d ∧ DMT.version d = k ∧ k ≠ DMT_VER_INVALID) → dm !! DMT.version d = Some (Some d) →
  (∀ k, is_Some (dm !! k) → k ≤ DMT.version d) → c = DMT_VER_INVALID ∨ DMT.version d = c + 1 →
  ∃ m', DMTManager.evict (DMTManager.Make max c (DMT.version d) dm) = Ret m' ∧ DMTManager.max_dmts m' = max ∧
    DMTManager.committed_version m' = c ∧ DMTManager.target_version m' = DMT.version d ∧
    DMTManager.dmt_map m' ⊆ dm ∧ DMTManager.dmt_map m' !! DMT.version d = Some (Some d) ∧
    (c ≠ DMT_VER_INVALID → DMTManager.dmt_map m' !! c = dm !! c).
Proof.
  intros Hmax He Hd Hle Hc. unfold DMTManager.evict. simpl. case_decide as Hsz; [|by eexists; split_and!].
  destruct (map_keys dm) as [|first ks] eqn:Ek.
  { exfalso. assert (DMT.version d ∈ map_keys dm) as Hin by (apply elem_of_map_keys; by eexists). rewrite Ek in Hin. by apply elem_of_nil in Hin. }
  destruct (DMTManager.map_keys_least dm first ks Ek) as [[p Hp] Hleast]. destruct (He _ _ Hp) as (d1 & -> & Hv1 & Hn1). rewrite Hp. simpl.
  assert (2 ≤ DMT.version d - first) as Hfar.
  { destruct (decide (DMT.version d - first < 2)) as [Hlt|]; [|lia]. exfalso.
    assert (dom dm ⊆ {[DMT.version d; first]}) as Hsub.
    { intros k Hk%elem_of_dom. pose proof (Hle k Hk). pose proof (Hleast k Hk). pose proof (Hle first ltac:(by eexists)). apply elem_of_union. rewrite !elem_of_singleton. lia. }
    apply subseteq_size in Hsub. rewrite size_dom in Hsub. assert (size ({[DMT.version d; first]} : gset Z) ≤ 2)%nat; [|lia].
    rewrite size_union_alt, size_singleton. assert (size ({[first]} ∖ {[DMT.version d]} : gset Z) ≤ size ({[first]} : gset Z))%nat as Hs by (apply subseteq_size, subseteq_difference_l; done).
    rewrite size_singleton in Hs. lia. }
  unfold DMT.getVersion. rewrite Hv1. rewrite !fds_verify_true, !bind_Ret by (destruct Hc; lia). eexists. split; [done|]. simpl. split_and!; [done..| | |].
  - apply delete_subseteq.
  - by rewrite lookup_delete_ne by lia.
  - intros Hci. rewrite lookup_delete_ne; [done|]. destruct Hc; lia.
Qed.

Lemma notify_none old (dm : gmap Z (option DMT.t)) : (old ≠ DMT_VER_INVALID → is_Some (dm !! old)) → DMTManager.notify_old old None dm = (dm, ERR_OK).
Proof.
  intros Hold. unfold DMTManager.notify_old. case_decide as Hi; [|done]. destruct Hold as [p Hp]; [done|]. unfold DMTManager.map_index. rewrite Hp. by destruct p.
Qed.

Lemma add_newest (d : DMT.t) (m : DMTManager.t) : DMTManager.inv m → 3 ≤ DMTManager.max_dmts m → DMT.version d ≠ DMT_VER_INVALID →
  (∀ k, is_Some (DMTManager.dmt_map m !! k) → k < DMT.version d) →
  DMTManager.committed_version m = DMT_VER_INVALID ∨ DMT.version d = DMTManager.committed_version m + 1 →
  ∃ m', DMTManager.add d DMT_TARGET None m = Ret (m', ERR_OK) ∧ DMTManager.inv m' ∧ DMTManager.max_dmts m' = DMTManager.max_dmts m ∧
    DMTManager.committed_version m' = DMTManager.committed_version m ∧ DMTManager.target_version m' = DMT.version d ∧
    DMTManager.dmt_map m' !! DMT.version d = Some (Some d) ∧
    (∀ k, is_Some (DMTManager.dmt_map m' !! k) → k ≤ DMT.version d) ∧
    (DMTManager.committed_version m ≠ DMT_VER_INVALID →
      DMTManager.dmt_map m' !! DMTManager.committed_version m = DMTManager.dmt_map m !! DMTManager.committed_version m).
Proof.
  intros Hinv Hmax Hv Hnew Hc. pose proof Hinv as [He Hcm Htg Hb]. set (dm := <[DMT.version d := Some d]> (DMTManager.dmt_map m)).
  assert (DMTManager.dmt_map m !! DMT.version d = None) as Hnone by (apply eq_None_not_Some; intros Hs%Hnew; lia).
  assert (∀ k, is_Some (dm !! k) → k ≤ DMT.version d) as Hle.
  { intros k Hk. destruct (decide (k = DMT.version d)) as [->|Hne]; [done|]. unfold dm in Hk. rewrite lookup_insert_ne in Hk by done. apply Hnew in Hk. lia. }
  assert (DMTManager.notify_old (DMTManager.committed_version m) None dm = (dm, ERR_OK)) as Hold.
  { apply notify_none. intros Hi. destruct Hcm as [p Hp]; [done|]. exists p. unfold dm. rewrite lookup_insert_ne; [done|congruence]. }
  destruct (evict_newest d (DMTManager.committed_version m) (DMTManager.max_dmts m) dm) as (m' & Hev & Hm & Hcv & Htv & Hsub & Hd & Hcd);
    [done|by apply DMTManager.entries_ok_insert|apply lookup_insert_eq|done|done|].
  assert (DMTManager.add d DMT_TARGET None m = Ret (m', ERR_OK)) as E.
  { unfold DMTManager.add, DMT.getVersion. rewrite Hnone.
    assert (DMTManager.committed_version m ≠ DMT.version d) by (intros Heq; rewrite Heq, Hnone in Hcm; by destruct Hcm).
    assert (DMTManager.target_version m ≠ DMT.version d) by (intros Heq; rewrite Heq, Hnone in Htg; by destruct Htg).
    rewrite !fds_verify_true, !bind_Ret by done. cbv zeta iota. fold dm. rewrite Hold, Hev. done. }
  exists m'. split; [done|]. split; [by eapply DMTManager.add_inv|]. split; [done|]. split; [done|]. split; [done|]. split; [done|]. split.
  - intros k [p Hk]. apply Hle. exists p. by eapply lookup_weaken.
  - intros Hci. rewrite Hcd by done. unfold dm. apply lookup_insert_ne. destruct Hc; lia.
Qed.

(** ** Comparing tables *)
Lemma eqb_shaped (d d' : DMT.t) : shaped d → shaped d' →
  DMT.eqb d d' = Ret (bool_decide (DMT.depth d = DMT.depth d' ∧ DMT.dmt_table d = DMT.dmt_table d')).
Proof.
  intros (Hc & _ & Hl & _) (_ & _ & Hl' & _). unfold DMT.eqb. case_decide as Hd.
  { rewrite bool_decide_eq_false_2; [done|]. intros [Hd' Ht]. rewrite Ht in Hl. destruct Hd as [Hd|Hd]; [done|]. lia. }
  assert (DMT.depth d = DMT.depth d') as Hdep by (destruct (decide (DMT.depth d = DMT.depth d')); naive_solver).
  assert (DMT.columns d = DMT.columns d') as Hcol by (destruct (decide (DMT.columns d = DMT.columns d')); naive_solver).
  rewrite <-Hl. edestruct (for_range_rule (λ k (same : bool), same = bool_decide (take k (DMT.dmt_table d) = take k (DMT.dmt_table d')))) as (b & E & ->); cycle 2.
  - rewrite E. f_equal. apply bool_decide_ext. rewrite !take_ge by lia. naive_solver.
  - done.
  - intros k same Hk ->. destruct (lookup_lt_is_Some_2 (DMT.dmt_table d) k) as [c1 H1]; [lia|]. destruct (lookup_lt_is_Some_2 (DMT.dmt_table d') k) as [c2 H2]; [lia|].
    rewrite (take_S_r _ _ c1), (take_S_r _ _ c2) by done.
    assert (take k (DMT.dmt_table d) ++ [c1] = take k (DMT.dmt_table d') ++ [c2] ↔ take k (DMT.dmt_table d) = take k (DMT.dmt_table d') ∧ c1 = c2) as Hiff
      by (split; [apply app_inj_tail|by intros [-> ->]]).
    case_bool_decide as Ht.
    + rewrite (proj2 (vec_at_lookup (DMT.dmt_table d) (Z.of_nat k) c1)), bind_Ret by (rewrite Nat2Z.id; split; [lia|done]).
      rewrite (proj2 (vec_at_lookup (DMT.dmt_table d') (Z.of_nat k) c2)), bind_Ret by (rewrite Nat2Z.id; split; [lia|done]). eexists. split; [done|].
      apply eq_true_iff_eq. rewrite TableColumn.eqb_eq, bool_decide_eq_true, Hiff. naive_solver.
    + eexists. split; [done|]. symmetry. apply bool_decide_eq_false. rewrite Hiff. naive_solver.
Qed.

Section Computed.
Context `{R : RedisServer} `{!RedisLaws R} `{P : TProtocol} `{!TProtocolLaws P} `{!ConfigDB.TProtocolBytes P}.

(** The number and the shape of the next table *)
Definition next_version (v : VolumePlacement.t) : Z :=
  if hasCommittedDMT v then u64 (getCommittedDMTVersion v + 1) else startDmtVersion v.
Definition new_table (cmap : ClusterMap.t) (v : VolumePlacement.t) : DMT.t :=
  let members := u32 (Z.of_nat (size (ClusterMap.curDmMap cmap))) in
  DMT.make (curDmtWidth v) (if decide (members < curDmtDepth v) then members else curDmtDepth v) (next_version v) true.

(** The next number follows all versions that are stored. *)
Record engine_ok (P : nat) (v : VolumePlacement.t) : Prop := {
  eo_inv : DMTManager.inv (dmtMgr v);
  eo_max : 3 ≤ DMTManager.max_dmts (dmtMgr v);
  eo_keys k : is_Some (DMTManager.dmt_map (dmtMgr v) !! k) → 0 < k < next_version v;
  eo_next : 0 < next_version v ≤ uint64_max;
  eo_algo : placeAlgo v = Some RoundRobinDynamic;
  eo_width : 0 ≤ curDmtWidth v < 32;
  eo_primaries : numOfPrimaryDMs v = Z.of_nat P;
}.

Lemma target_name : ConfigDB.type_name TARGET.
Proof. eexists _, _. split; [vm_compute; reflexivity|lia]. Qed.
Lemma committed_name : ConfigDB.type_name COMMITTED.
Proof. eexists _, _. split; [vm_compute; reflexivity|lia]. Qed.

(** What the database has for a table and for a type *)
Definition saved (s : rstore) (d : DMT.t) : Prop :=
  contents s !! ConfigDB.dmt_key 0 (fmt_ld (i64 (DMT.version d))) = Some (RString (Redis.encodeHex (DMT.enc d))).
Definition version_of (s : rstore) (type : list Z) (version : Z) : Prop :=
  contents s !! ConfigDB.dmt_key 0 type = Some (RString (fmt_ld (i64 version))).

(** Table [d] is the target that engine [v] got in [m] and the database in
    [s']. *)
Record becomes_target (d : DMT.t) (v : VolumePlacement.t) (s : rstore) (m : DMTManager.t) (s' : rstore) : Prop := {
  bt_inv : DMTManager.inv m;
  bt_committed : DMTManager.committed_version m = getCommittedDMTVersion v;
  bt_table : hasCommittedDMT v = true → DMTManager.dmt_map m !! getCommittedDMTVersion v = DMTManager.dmt_map (dmtMgr v) !! getCommittedDMTVersion v;
  bt_target : DMTManager.target_version m = DMT.version d;
  bt_stored : DMTManager.dmt_map m !! DMT.version d = Some (Some d);
  bt_connected : connected s';
  bt_saved : saved s' d;
  bt_type : version_of s' TARGET (DMT.version d);
  bt_versions d0 : DMT.wf d0 → DMT.version d0 ≠ DMT.version d → saved s d0 → saved s' d0;
  bt_other : contents s' !! ConfigDB.dmt_key 0 COMMITTED = contents s !! ConfigDB.dmt_key 0 COMMITTED;
}.

(** The end of the computation: the table is added and stored. *)
Definition installed (d : DMT.t) (v : VolumePlacement.t) (s : rstore) : res (rstore * VolumePlacement.t * fds_errno) :=
  r ← DMTManager.add d DMT_TARGET None (dmtMgr v);
  let '(m, err) := r : DMTManager.t * fds_errno in
  if decide (err = ERR_OK ∧ false = false) then
    r ← ConfigDB.storeDmt d TARGET 0 s;
    Ret ((r : rstore * bool).1, with_mgr m v, err)
  else Ret (s, with_mgr m v, err).

Lemma install (d : DMT.t) (v : VolumePlacement.t) (s : rstore) : connected s → ConfigDB.versions_ok 0 s →
  DMTManager.inv (dmtMgr v) → 3 ≤ DMTManager.max_dmts (dmtMgr v) → DMT.version d ≠ DMT_VER_INVALID →
  (∀ k, is_Some (DMTManager.dmt_map (dmtMgr v) !! k) → k < DMT.version d) →
  hasCommittedDMT v = false ∨ DMT.version d = getCommittedDMTVersion v + 1 → DMT.wf d → DMT.serialized_size d < 2 ^ 32 →
  ∃ m s', installed d v s = Ret (s', with_mgr m v, ERR_OK) ∧ becomes_target d v s m s'.
Proof.
  intros Hs Hvs Hinv Hmax Hv Hnew Hc Hwf Hsz.
  destruct (add_newest d (dmtMgr v) Hinv Hmax Hv Hnew) as (m & E & Hinv' & _ & Hcv & Htv & Hd & _ & Hcd).
  { destruct Hc as [Hc|Hc]; [left|by right]. unfold hasCommittedDMT, DMTManager.hasCommittedDMT in Hc. apply bool_decide_eq_false in Hc. by apply dec_stable. }
  pose proof target_name as HT. pose proof (λ n, ConfigDB.version_not_type n _ target_name) as HnT. pose proof (λ n, ConfigDB.version_not_type n _ committed_name) as HnC.
  destruct (ConfigDB.storeDmt_ok d TARGET 0 s Hs Hvs Hwf Hsz HT) as (s' & vs & E' & Hs' & Hct).
  exists m, s'. unfold installed. rewrite E, bind_Ret. rewrite decide_True by done. rewrite E', bind_Ret. split; [done|]. split; [done|done| |done|done|done| | | |].
  - intros Hh. unfold hasCommittedDMT, DMTManager.hasCommittedDMT in Hh. apply bool_decide_eq_true in Hh. by apply Hcd.
  - unfold saved. rewrite Hct, lookup_insert_ne, lookup_insert_eq; [done|]. by rewrite ConfigDB.dmt_key_inj.
  - unfold version_of. by rewrite Hct, lookup_insert_eq.
  - unfold saved. intros d0 Hwf0 Hne <-. rewrite Hct, !lookup_insert_ne; [done|apply ConfigDB.dmts_not_dmt| |by rewrite ConfigDB.dmt_key_inj].
    rewrite ConfigDB.dmt_key_inj. intros Heq%ConfigDB.fmt_inj; [|apply ConfigDB.i64_range..]. apply Hne.
    by rewrite <-(ConfigDB.u64_i64_small (DMT.version d0)), <-(ConfigDB.u64_i64_small (DMT.version d)), Heq by first [apply Hwf0|apply Hwf].
  - rewrite Hct, !lookup_insert_ne; [done|apply ConfigDB.dmts_not_dmt|by rewrite ConfigDB.dmt_key_inj|by rewrite ConfigDB.dmt_key_inj].
Qed.

Section Domain.
Context (dom : Domain) (cmap : ClusterMap.t) (P0 : nat) (NF : gset Z).

Abbreviation members := (base.dom (ClusterMap.curDmMap cmap)).

Lemma new_table_wf (v : VolumePlacement.t) (d : DMT.t) : engine_ok P0 v → shaped d → DMT.base d = DMT.base (new_table cmap v) →
  (∀ u, u ∈ members → DMT.u64_range u) → (∀ i col x, DMT.dmt_table d !! i = Some col → x ∈ col → x ∈ members) →
  0 ≤ curDmtDepth v < 2 ^ 32 → DMT.wf d ∧ DMT.version d = next_version v.
Proof.
  intros Hv (Hc & Hd & Hl & Hcols) Hb Hu Hin Hdep. pose proof (eo_next _ _ Hv). pose proof (eo_width _ _ Hv). split; [|unfold DMT.version; by rewrite Hb].
  split; [|split; [done|]].
  - rewrite Hb. unfold new_table, DMT.make. simpl. apply FDS_Table.make_well_shaped; [done| |lia]. pose proof (Z.mod_pos_bound (Z.of_nat (size (ClusterMap.curDmMap cmap))) 4294967296 ltac:(lia)).
    case_decide; [|lia]. unfold u32. lia.
  - apply Forall_lookup. intros i col Hi. rewrite Forall_lookup in Hcols. split; [by eapply Hcols|]. apply Forall_forall. intros x Hx. apply Hu. by eapply Hin.
Qed.

Lemma compute_updates (debug : bool) (cur : DMT.t) (v : VolumePlacement.t) (s : rstore) (r : DMT.t * fds_errno) :
  engine_ok P0 v → hasCommittedDMT v = true → DMTManager.dmt_map (dmtMgr v) !! getCommittedDMTVersion v = Some (Some cur) →
  DMT.depth (new_table cmap v) ≠ 0 → 0 ≤ curDmtDepth v →
  DynamicRRAlgorithm.updateDMT (node_state dom) (fIgnoreFailedSvcs dom) cmap (dm_order dom) (set_order dom) cur (Z.of_nat P0) (new_table cmap v) = Ret r →
  computeDMT debug dom false cmap s v =
    if decide (r.2 = ERR_INVALID_ARG) then Ret (s, v, r.2) else
    _ ← fds_verify (bool_decide (r.2 = ERR_OK));
    same ← DMT.eqb cur r.1;
    if negb (bool_decide (ClusterMap.resyncDMs cmap ≠ ∅)) && same then Ret (s, v, ERR_NOT_READY) else installed r.1 v s.
Proof.
  intros Hv Hh Hcur Hd Hdep Hr. destruct r as [d e]. unfold computeDMT. rewrite Hh. cbv zeta iota beta.
  assert (curDmtDepth v > 0) as Hpos.
  { revert Hd. unfold new_table, DMT.make, DMT.depth. simpl. pose proof (Z.mod_pos_bound (Z.of_nat (size (ClusterMap.curDmMap cmap))) 4294967296 ltac:(lia)).
    unfold u32. case_decide; lia. }
  assert ((if bool_decide (ClusterMap.getDmResyncServices cmap ≠ ∅) then _ ← fds_assert debug true; fds_assert debug (bool_decide (curDmtDepth v > 0)) else Ret tt) = Ret tt) as ->.
  { rewrite (bool_decide_eq_true_2 (curDmtDepth v > 0)) by done. by destruct (bool_decide _), debug. }
  rewrite bind_Ret.
  change (ClusterMap.getNumMembers ClusterMap.FDSP_DATA_MGR cmap) with (Ret (u32 (Z.of_nat (size (ClusterMap.curDmMap cmap))))). rewrite bind_Ret.
  set (depth := if decide (u32 _ < curDmtDepth v) then u32 _ else curDmtDepth v). rewrite (decide_False (P := depth = 0)) by exact Hd.
  assert (DMT.make (curDmtWidth v) depth (u64 (getCommittedDMTVersion v + 1)) true = new_table cmap v) as -> by (unfold new_table, next_version; by rewrite Hh).
  assert (committed_table v = Ret cur) as ->.
  { unfold committed_table, getCommittedDMT, DMTManager.getDMT. rewrite bind_Ret. unfold getCommittedDMTVersion in Hcur. by rewrite Hcur. }
  rewrite Hh, bind_Ret. unfold algo_updateDMT. rewrite (eo_algo _ _ Hv), (eo_primaries _ _ Hv), Hr. rewrite bind_Ret. simpl (_, _).1. simpl (_, _).2.
  destruct (decide (e = ERR_INVALID_ARG)) as [|]; [done|]. destruct (fds_verify _) as [[]|]; [|done]. rewrite !bind_Ret.
  destruct (DMT.eqb cur d) as [same|]; [|done]. rewrite !bind_Ret. by destruct (_ && same).
Qed.

(** C21. Computing a new table when one is committed and the algorithm is the
    dynamic one, in a domain as for the update of a table ([update_domain]; in
    particular when there is one primary no data manager has failed), with the
    database connected and no table stored under the number after the committed
    one or a higher one ([engine_ok]; otherwise the table is refused as a
    duplicate). If some column would lose its last primary that is up, the
    computation is refused and nothing changes. Otherwise, if each column of
    the committed table has distinct data managers, of the domain or removed,
    and keeps one that is up ([column_before]), the table that is computed has
    in each column distinct data managers of the domain and in its first row
    one that keeps the volumes of the column. If it is the committed table and
    no data manager is to resynchronise, nothing changes. In all other cases it
    becomes the target with the number after the committed one, in the manager
    and in the database, and the committed table stays. *)
Theorem updated_target (debug : bool) (cur : DMT.t) (v : VolumePlacement.t) (s : rstore) :
  engine_ok P0 v → connected s → ConfigDB.versions_ok 0 s → (∀ u, u ∈ members → DMT.u64_range u) → 0 ≤ curDmtDepth v < 2 ^ 32 →
  hasCommittedDMT v = true → DMTManager.dmt_map (dmtMgr v) !! getCommittedDMTVersion v = Some (Some cur) →
  let dn := new_table cmap v in let rm := ClusterMap.removedDMs cmap in
  update_domain (node_state dom) (fIgnoreFailedSvcs dom) cmap (set_order dom) P0 NF cur dn →
  let bad := P0 ≠ 0%nat ∧ Exists (refused (P0 `min` Z.to_nat (DMT.depth cur))%nat rm NF) (DMT.dmt_table cur) in
  let compute := computeDMT debug dom false cmap s v in
  (bad → compute = Ret (s, v, ERR_INVALID_ARG)) ∧
  (¬ bad → Forall (column_before members NF rm dn) (DMT.dmt_table cur) →
   ∃ d', (∀ i col, DMT.dmt_table d' !! i = Some col → column_after members NF rm P0 cur dn i col) ∧
     DMT.version d' = getCommittedDMTVersion v + 1 ∧
     if decide (ClusterMap.resyncDMs cmap = ∅ ∧ DMT.depth cur = DMT.depth d' ∧ DMT.dmt_table cur = DMT.dmt_table d') then compute = Ret (s, v, ERR_NOT_READY)
     else ∃ m s', compute = Ret (s', with_mgr m v, ERR_OK) ∧ becomes_target d' v s m s').
Proof.
  intros Hv Hs Hvs Hu Hdep Hh Hcur dn rm Hdom. cbv zeta.
  assert (next_version v = getCommittedDMTVersion v + 1) as Hnext.
  { pose proof (eo_next _ _ Hv) as Hn. pose proof (eo_keys _ _ Hv (getCommittedDMTVersion v) ltac:(by eexists)) as Hk. unfold next_version in *. rewrite Hh in *.
    apply u64_small. split; [lia|]. unfold u64 in *. unfold uint64_max in *. pose proof (Z.mod_le (getCommittedDMTVersion v + 1) 18446744073709551616 ltac:(lia) ltac:(lia)). lia. }
  destruct (update_both (node_state dom) (fIgnoreFailedSvcs dom) cmap (dm_order dom) (set_order dom) P0 NF cur dn Hdom) as [Hbad Hok].
  pose proof (ud_new_depth _ _ _ _ _ _ _ _ Hdom) as Hnd. assert (DMT.depth (new_table cmap v) ≠ 0) as Hd0 by (unfold dn in Hnd; lia).
  split; intros Hb; [by rewrite (compute_updates debug cur v s _ Hv Hh Hcur Hd0 (proj1 Hdep) (Hbad Hb))|]. intros Hbefore.
  destruct (Hok Hb Hbefore) as (d' & E & Hsh & Hbase & Hcols). exists d'. split; [done|].
  assert (∀ i col x, DMT.dmt_table d' !! i = Some col → x ∈ col → x ∈ members) as Hmem by (intros i col x Hi; apply (Hcols i col Hi)).
  destruct (new_table_wf v d' Hv Hsh Hbase Hu Hmem Hdep) as [Hwf Hver]. split; [lia|].
  rewrite (compute_updates debug cur v s _ Hv Hh Hcur Hd0 (proj1 Hdep) E). cbn [fst snd]. rewrite (decide_False (P := ERR_OK = ERR_INVALID_ARG)), fds_verify_true, bind_Ret, (eqb_shaped cur d'), bind_Ret by (done || apply Hdom).
  destruct (decide (ClusterMap.resyncDMs cmap = ∅ ∧ _)) as [Hsame|Hdiff].
  - rewrite bool_decide_eq_false_2 by tauto. by rewrite bool_decide_eq_true_2 by tauto.
  - destruct (install d' v s) as (m & s' & Ei & Hbt); [done|done|apply Hv|apply Hv| | |by right; lia|done| |].
    + pose proof (eo_next _ _ Hv). unfold DMT_VER_INVALID. lia.
    + intros k Hk. pose proof (eo_keys _ _ Hv k Hk). lia.
    + pose proof (ud_bound _ _ _ _ _ _ _ _ Hdom) as Hbd. unfold DMT.serialized_size, DMT.depth, DMT.columns in *. rewrite Hbase. fold dn. nia.
    + exists m, s'. split; [|done]. rewrite <-Ei. destruct (negb _ && _) eqn:Eb; [|done]. exfalso. apply Hdiff.
      apply andb_true_iff in Eb as [Hr%negb_true_iff%bool_decide_eq_false Hs'%bool_decide_eq_true]. split; [by apply dec_stable|done].
Qed.
End Domain.

(** ** Restart *)
(** The table that is read: nothing refers to it. *)
Definition reloaded (d : DMT.t) : DMT.t :=
  DMT.Make (FDS_Table.Make (DMT.depth d) (DMT.width d) (DMT.columns d) (DMT.version d) 0 None) (DMT.dmt_table d).

(** The services of the domain are known, and the table is one for them. *)
Definition fits (services deployed : gset Z) (ext : OmExtUtilApi.t) (d : DMT.t) : Prop :=
  services ≠ ∅ ∧ DMT.depth d ≤ Z.of_nat (size deployed) + OmExtUtilApi.getPendingNodeRemoves ClusterMap.FDSP_DATA_MGR ext ∧
  ∀ col, col ∈ DMT.dmt_table d →
    (∀ u, u ∈ col → (u ≠ 0 ∧ u ∈ deployed) ∨ OmExtUtilApi.isMarkedForRemoval (i64 u) ext = true) ∧ NoDup col.

Lemma type_version type (n : Z) (s : rstore) : connected s → version_of s type n → 0 ≤ n ≤ uint64_max →
  ∃ s', ConfigDB.getDmtVersionForType type 0 s = Ret (s', n) ∧ connected s' ∧ contents s' = contents s.
Proof.
  intros Hs Hn Hr. destruct (ConfigDB.getDmtVersionForType_ok type 0 s Hs) as (s' & Hs' & Hc & E). exists s'. split; [|done]. rewrite E, Hn.
  by rewrite ConfigDB.atoll_fmt, ConfigDB.u64_i64_small by (done || apply ConfigDB.i64_range).
Qed.

Lemma load_ok torn (size : Z) (group : bool) (services deployed : gset Z) (s : rstore) (ext : OmExtUtilApi.t) (v : VolumePlacement.t) (d : DMT.t) (tv : Z) :
  connected s → dmtMgr v = DMTManager.make 1 → fits services deployed ext d → DMT.wf d → DMT.serialized_size d < 2 ^ 32 → 0 < DMT.version d →
  saved s d → version_of s COMMITTED (DMT.version d) → version_of s TARGET tv → 0 ≤ tv ≤ uint64_max →
  ∃ s' m, loadDmtsFromConfigDB torn size group services deployed s ext v =
      Ret (s', if decide (tv > 0 ∧ tv ≠ DMT.version d) then OmExtUtilApi.setDMAbortParams true tv ext else ext, with_mgr m v, ERR_OK) ∧
    DMTManager.inv m ∧ DMTManager.committed_version m = DMT_VER_INVALID ∧ DMTManager.target_version m = DMT.version d ∧
    DMTManager.dmt_map m !! DMT.version d = Some (Some (reloaded d)).
Proof.
  intros Hs Hm (Hsv & Hfit) Hwf Hsz Hpos Hsaved Hcv Htv Hr. unfold loadDmtsFromConfigDB. rewrite Hm, !fds_verify_true, !bind_Ret, decide_False by done.
  destruct (type_version COMMITTED (DMT.version d) s Hs Hcv) as (s1 & -> & Hs1 & Hc1); [apply Hwf|]. rewrite bind_Ret, decide_True by lia.
  destruct (ConfigDB.getDmt_ok torn d (DMT.make 0 0 0 false) 0 s1) as (s2 & -> & Hs2 & Hc2); [done..|by rewrite Hc1|]. rewrite bind_Ret. cbv iota beta. simpl negb. cbv iota.
  change (DMT.Make _ (DMT.dmt_table d)) with (reloaded d). assert (DMT.wf (reloaded d)) as Hwf'. { destruct Hwf as ((H1 & H2 & H3 & H4 & _) & H6). split; [|exact H6]. split; [exact H1|]. split; [exact H2|]. split; [exact H3|]. split; [exact H4|done]. }
  destruct (DMT.verify_expected_spec (OmExtUtilApi.getPendingNodeRemoves ClusterMap.FDSP_DATA_MGR ext)
    (λ uuid, OmExtUtilApi.isMarkedForRemoval (i64 uuid) ext) deployed (reloaded d) Hwf') as (e & -> & _ & He).
  rewrite bind_Ret. assert (e = ERR_OK) as -> by (by apply He). rewrite decide_False by (intros Hx; by apply Hx).
  destruct (add_newest (reloaded d) (DMTManager.make 1)) as (m & -> & Hinv & _ & Hcm & Htm & Hd & _);
    [by split; simpl; try done; rewrite map_size_empty|done|simpl; unfold DMT_VER_INVALID; simpl; change (DMT.version d ≠ 0); lia|by intros k [? ?]|by left|].
  rewrite bind_Ret. destruct (type_version TARGET tv s2) as (s3 & -> & Hs3 & _); [done|unfold version_of; by rewrite Hc2, Hc1|done|]. rewrite bind_Ret.
  case_decide.
  - destruct (ConfigDB.setDmtType_ok 0 (ascii_bytes "next") 0 s3 Hs3) as (s4 & -> & _). rewrite bind_Ret. by exists s4, m.
  - by exists s3, m.
Qed.

(** The state in which the deployment of target [d] ended: [d] is committed. *)
Lemma persist_ok (d : DMT.t) (v : VolumePlacement.t) (s : rstore) : connected s → DMTManager.inv (dmtMgr v) → DMT.wf d → 0 < DMT.version d →
  getTargetDMTVersion v = DMT.version d → getCommittedDMTVersion v = DMT.version d → saved s d →
  ∃ s' m, persistCommitedTargetDmt s v = Ret (s', with_mgr m v, ERR_OK) ∧ connected s' ∧ saved s' d ∧
    version_of s' COMMITTED (DMT.version d) ∧ version_of s' TARGET 0 ∧
    m = DMTManager.Make (DMTManager.max_dmts (dmtMgr v)) (DMT.version d) DMT_VER_INVALID (DMTManager.dmt_map (dmtMgr v)).
Proof.
  intros Hs Hinv Hwf Hpos Ht Hc Hsaved. unfold getTargetDMTVersion, getCommittedDMTVersion in *. unfold persistCommitedTargetDmt, DMTManager.hasTargetDMT, DMTManager.hasCommittedDMT.
  assert (DMT.version d ≠ DMT_VER_INVALID) as Hn by (unfold DMT_VER_INVALID; lia). rewrite Ht, Hc, !bool_decide_eq_true_2 by done. simpl (_ || _). cbv iota.
  rewrite decide_False by (intros Hx; by apply Hx).
  destruct (ConfigDB.setDmtType_ok (DMT.version d) COMMITTED 0 s Hs) as (s1 & -> & Hs1 & Hc1). rewrite bind_Ret. cbn [fst].
  destruct (ConfigDB.setDmtType_ok 0 TARGET 0 s1 Hs1) as (s2 & -> & Hs2 & Hc2). rewrite bind_Ret. unfold DMTManager.unsetTarget. rewrite Ht, decide_True by done.
  rewrite fds_verify_true, !bind_Ret by (rewrite <-Ht; apply Hinv; by rewrite Ht). exists s2. eexists. split; [done|]. split; [done|].
  pose proof (λ n, ConfigDB.version_not_type n _ target_name) as HnT. pose proof (λ n, ConfigDB.version_not_type n _ committed_name) as HnC.
  unfold saved, version_of. rewrite Hc2, Hc1. split; [|split; [|split; [|by rewrite Hc]]].
  - rewrite !lookup_insert_ne by (rewrite ConfigDB.dmt_key_inj; done || by apply not_eq_sym). done.
  - rewrite lookup_insert_ne by (by rewrite ConfigDB.dmt_key_inj). by rewrite lookup_insert_eq.
  - by rewrite lookup_insert_eq.
Qed.

(** C14. A deployment is atomic with respect to a restart. Let the engine make
    [d] the target while [cur] is the committed table in the database. An OM
    that restarts before the new table is committed and persisted loads [cur]
    and knows that the migration to [d] is to be aborted. Committing and
    persisting succeed, and an OM that restarts afterwards loads [d] and has
    nothing to abort. *)
Theorem restart_atomic torn (size : Z) (group : bool) (services deployed : gset Z) (ext : OmExtUtilApi.t)
    (cur d : DMT.t) (v fresh : VolumePlacement.t) (s s' : rstore) (m : DMTManager.t) :
  becomes_target d v s m s' → saved s cur → version_of s COMMITTED (DMT.version cur) →
  DMT.wf cur → DMT.serialized_size cur < 2 ^ 32 → 0 < DMT.version cur →
  DMT.wf d → DMT.serialized_size d < 2 ^ 32 → 0 < DMT.version d → DMT.version cur ≠ DMT.version d →
  dmtMgr fresh = DMTManager.make 1 → fits services deployed ext cur → fits services deployed ext d →
  let load s := loadDmtsFromConfigDB torn size group services deployed s ext fresh in
  let loads t m' := DMTManager.inv m' ∧ DMTManager.committed_version m' = DMT_VER_INVALID ∧
    DMTManager.target_version m' = DMT.version t ∧ DMTManager.dmt_map m' !! DMT.version t = Some (Some (reloaded t)) in
  (∃ s1 m1, load s' = Ret (s1, OmExtUtilApi.setDMAbortParams true (DMT.version d) ext, with_mgr m1 fresh, ERR_OK) ∧ loads cur m1) ∧
  (∃ v1 s1 v2, commitDMT false (with_mgr m v) = Ret v1 ∧ persistCommitedTargetDmt s' v1 = Ret (s1, v2, ERR_OK) ∧
    getCommittedDMTVersion v2 = DMT.version d ∧ getTargetDMTVersion v2 = DMT_VER_INVALID ∧
    ∃ s2 m2, load s1 = Ret (s2, ext, with_mgr m2 fresh, ERR_OK) ∧ loads d m2).
Proof.
  intros [Hinv _ _ Htv Hd Hs' Hsaved Htype Hkeep Hother] Hcur Hcv Hwc Hszc Hpc Hwf Hsz Hpos Hne Hfresh Hfc Hfd load loads. split.
  - destruct (load_ok torn size group services deployed s' ext fresh cur (DMT.version d)) as (s1 & m1 & E & Hload); [try done..| |].
    + by apply Hkeep.
    + unfold version_of. by rewrite Hother.
    + apply Hwf.
    + rewrite decide_True in E by (split; [lia|done]). by exists s1, m1.
  - assert (commitDMT false (with_mgr m v) = Ret (with_mgr (DMTManager.Make (DMTManager.max_dmts m) (DMT.version d) (DMT.version d) (DMTManager.dmt_map m))
      (with_prev (DMTManager.committed_version m) v))) as E.
    { unfold commitDMT, DMTManager.commitDMT. cbn [with_prev with_mgr dmtMgr]. rewrite Htv, decide_True by (unfold DMT_VER_INVALID; lia).
      rewrite fds_verify_true, !bind_Ret by (by eexists). done. }
    eexists _. destruct (persist_ok d (with_mgr (DMTManager.Make (DMTManager.max_dmts m) (DMT.version d) (DMT.version d) (DMTManager.dmt_map m))
      (with_prev (DMTManager.committed_version m) v)) s') as (s1 & m1 & E1 & Hs1 & Hsd & Hc1 & Ht1 & Hm1); [try done..|].
    { destruct Hinv as [He Hc Ht Hb]. split; simpl; try done; intros _; by eexists. }
    exists s1, (with_mgr m1 (with_prev (DMTManager.committed_version m) v)). split; [exact E|]. split; [exact E1|]. rewrite Hm1. split; [done|]. split; [done|].
    destruct (load_ok torn size group services deployed s1 ext fresh d 0) as (s2 & m2 & E2 & Hload); [try done..|]. exists s2, m2. by rewrite decide_False in E2 by lia.
Qed.
End Computed.

(** ** An engine *)
#[local] Existing Instances ConfigDB.map_server ConfigDB.map_server_laws ConfigDB.binary_protocol_bytes.

(** The table of [case_cur] is committed; the database has it. *)
Definition case_engine : VolumePlacement.t :=
  VolumePlacement.Make (DMTManager.Make 3 1 DMT_VER_INVALID {[1 := Some case_cur]}) 3 1 DMT_VER_INVALID 1 (Some RoundRobinDynamic) false ∅ 2 0.
Definition case_store : @rstore ConfigDB.map_server :=
  <[ConfigDB.dmt_key 0 COMMITTED := RString (fmt_ld (i64 1))]>
    (<[ConfigDB.dmt_key 0 (fmt_ld (i64 1)) := RString (Redis.encodeHex (DMT.enc case_cur))]> (∅ : gmap (list Z) rvalue)).

Lemma case_versions : ConfigDB.versions_ok 0 case_store.
Proof. intros v. assert (contents case_store !! ConfigDB.dmts_key 0 = None) as -> by (by vm_compute). done. Qed.

Lemma case_inv : DMTManager.inv (dmtMgr case_engine).
Proof.
  split; simpl; try done.
  intros v p [<- <-]%lookup_singleton_Some. by exists case_cur.
Qed.

Lemma case_ok : engine_ok 2 case_engine.
Proof.
  split; [apply case_inv|done| |done..]. intros k [p Hp]. simpl in Hp. apply lookup_singleton_Some in Hp as [<- _]. done.
Qed.

Lemma updated_target_witness : ∃ d', DMT.version d' = 2 ∧
  if decide (ClusterMap.resyncDMs case_map = ∅ ∧ DMT.depth case_cur = DMT.depth d' ∧ DMT.dmt_table case_cur = DMT.dmt_table d')
  then computeDMT true (Dom case_state false [] (λ _ s, elements s)) false case_map case_store case_engine = Ret (case_store, case_engine, ERR_NOT_READY)
  else ∃ m s', computeDMT true (Dom case_state false [] (λ _ s, elements s)) false case_map case_store case_engine = Ret (s', with_mgr m case_engine, ERR_OK) ∧
    becomes_target d' case_engine case_store m s'.
Proof.
  destruct (updated_target (Dom case_state false [] (λ _ s, elements s)) case_map 2 {[1; 3]} true case_cur case_engine case_store) as [_ H];
    [apply case_ok|done|apply case_versions| |done|done|done|apply case_domain|].
  - intros u. change (dom (ClusterMap.curDmMap case_map)) with (dom ({[1 := ClusterMap.Agent 1 1; 2 := ClusterMap.Agent 2 2; 3 := ClusterMap.Agent 3 3]} : gmap Z ClusterMap.NodeAgent)).
    rewrite !dom_insert_L, dom_singleton_L. unfold DMT.u64_range, uint64_max. intros Hu. assert (u = 1 ∨ u = 2 ∨ u = 3) by set_solver. lia.
  - destruct (H case_accepted case_before) as (d' & _ & Hv & Hr). exists d'. split; [exact Hv|exact Hr].
Defined.

Definition case_next : DMT.t := DMT.Make (FDS_Table.make 1 2 2) [[1; 3]; [2; 1]].
Definition case_fresh : VolumePlacement.t := VolumePlacement.make 3 1.

Lemma restart_atomic_witness : ∃ m s', becomes_target case_next case_engine case_store m s' ∧
  ∃ s1 m1, loadDmtsFromConfigDB (λ _, case_cur) 3 false {[1; 2; 3; 4]} {[1; 2; 3; 4]} s' OmExtUtilApi.make case_fresh =
    Ret (s1, OmExtUtilApi.setDMAbortParams true 2 OmExtUtilApi.make, with_mgr m1 case_fresh, ERR_OK).
Proof.
  assert (∀ d, d = case_cur ∨ d = case_next → DMT.wf d ∧ fits {[1; 2; 3; 4]} {[1; 2; 3; 4]} OmExtUtilApi.make d) as Hwf.
  { intros d Hd. split.
    - destruct Hd as [-> | ->]; (split_and!; [apply FDS_Table.make_well_shaped; unfold uint64_max; lia|done|]; repeat constructor; unfold DMT.u64_range, uint64_max; lia).
    - split; [done|]. split; [by destruct Hd as [-> | ->]|]. intros col Hcol.
      assert (col ∈ [[1; 4]; [2; 1]; [1; 3]]) as Hin by (destruct Hd as [-> | ->]; unfold DMT.dmt_table, case_cur, case_next in Hcol; rewrite !elem_of_cons in *; tauto).
      split; [|clear Hcol; revert col Hin; by apply Forall_forall, (bool_decide_unpack _); vm_compute].
      intros u Hu. left. rewrite !elem_of_cons, elem_of_nil in Hin. rewrite !elem_of_union, !elem_of_singleton.
      destruct Hin as [-> |[-> |[-> |[]]]]; rewrite !elem_of_cons, elem_of_nil in Hu; lia. }
  destruct (install case_next case_engine case_store) as (m & s' & _ & Hbt); [done|apply case_versions|apply case_inv|done|done| |by right|by apply Hwf; right|done|].
  { intros k [p Hp]. simpl in Hp. apply lookup_singleton_Some in Hp as [<- _]. done. }
  exists m, s'. split; [exact Hbt|].
  destruct (restart_atomic (λ _, case_cur) 3 false {[1; 2; 3; 4]} {[1; 2; 3; 4]} OmExtUtilApi.make case_cur case_next case_engine case_fresh case_store s' m)
    as [(s1 & m1 & E & _) _]; [exact Hbt|done|done|by apply Hwf; left|done|done|by apply Hwf; right|done|done|done|done|by apply Hwf; left|by apply Hwf; right|].
  exists s1, m1. exact E.
Defined.
