(* ===== verification/DmtDeploy.v ===== *)
(** * Deployment of DMTs

    The state machine [DmtDplyFSM] of the OM
    (src/source/orch-mgr/om-dlt/OmDmtDeploy.cpp, include/OmDmtDeploy.h): its
    events, guards, actions and transition table, with the volume placement
    engine, the cluster map and the configuration database they work on.  What
    the actions send to services, the timers they start and what they tell the
    domain is a trace; how many services a message was sent to, and everything
    else that is asked of the domain, is given with each event.

    The machine has two regions.  A region takes an event by the row of the
    table for its state, if the guard allows it; while the second region is in
    [DST_Error], an interrupt state, only the two events it names are taken.
    Events that actions raise are taken after the event in hand.  An event that
    a state defers comes again later, which is an event like any other. *)

From S2P Require Import Prelude PlacementTable Serialize Dmt DmtManager ConfigDb ClusterMap OmExtUtil Double VolPlacementAlgo VolumePlacement.
Open Scope Z_scope.

Module DmtDplyFSM.

Import ClusterMap.

Inductive Evt :=
| DmtDeployEvt (dmResync : bool)
| DmtUpEvt (uuid : Z)
| DmtRecoveryEvt (ackForAbort : bool) (svcUuid : Z) (ackError : fds_errno)
| DmtLoadedDbEvt
| DmtPushMetaAckEvt (dm_uuid : Z)
| DmtCommitAckEvt (dmt_version : Z) (svc_type : FDSP_MgrIdType)
| DmtCloseOkEvt (dmt_version : Z)
| DmtVolAckEvt (dm_uuid : Z)
| DmtTimeoutEvt
| DmtErrorFoundEvt (svcUuid : Z) (error : fds_errno)
| DmtEndErrorEvt.

(** The states of the two regions *)
Inductive Deploy := DST_Idle | DST_Waiting | DST_Rebalance | DST_Commit | DST_BcastAM | DST_Close | DST_Done.
Inductive Health := DST_AllOk | DST_Error.

(** What the states keep *)
Record Acks := MakeAcks {
  dms_to_ack : gset Z;             (** [DST_Rebalance] *)
  pull_meta_dms : gset Z;          (** [DST_Commit] *)
  bcast_acks_to_wait : Z;          (** [DST_BcastAM::commit_acks_to_wait] *)
  commit_acks_to_wait : Z;         (** of [DST_Close] *)
  close_acks_to_wait : Z;          (** of [DST_Done] *)
  abortMigrAcksToWait : Z;         (** [DST_Error] *)
  commitDmtAcksToWait : Z;         (** [DST_Error] *)
}.

(** Messages, timers and calls of the domain *)
Inductive Effect :=
| vol_list_to (dm : Z)
| pull_to (dm : Z)
| dmt_to (svc_type : FDSP_MgrIdType) (version : Z)
| close_to_dms (version : Z)
| abort_to_dms (version : Z)
| start_waitingTimer
| start_tryAgainTimer
| service_deployed (dm : Z)
| remove_complete (dm : Z)
| node_down (dm : Z)
| continue_volumes
| dmt_up.

Section Machine.
Context `{R : RedisServer} `{P : TProtocol} {Desc : Type}.

Record t := Make {
  deploy : Deploy;
  health : Health;
  acks : Acks;
  cm : ClusterMap.t;
  ongoingMigrationDMs : gset Z;
  vp : VolumePlacement.t;
  ext : OmExtUtilApi.t;
  db : rstore;
  trace : list Effect;
}.

(** What the domain answers while an event is processed *)
Record Env := MakeEnv {
  debug_build : bool;
  isInTestMode : bool;
  nodes_pend : list NodeAgent * list NodeAgent * list NodeAgent;
  domain : VolumePlacement.Domain;
  uuid_order : gset Z → list Z;
  bcast_vol_list : Z → Z;
  bcast_dmt : FDSP_MgrIdType → Z → Z;
  bcast_dmt_close : Z → Z;
  bcast_dm_migration_abort : Z → Z;
  dm_agent : Z → bool;
  volumes : list (VolumePlacement.Volume (Desc := Desc));
  pull_orders : Z → gset Z → list Z;
  pull_map_order : gmap Z (VolumePlacement.CtrlNotifyDMStartMigrationMsg (Desc := Desc)) → list Z;
  send_pullmeta : Z → VolumePlacement.CtrlNotifyDMStartMigrationMsg (Desc := Desc) → fds_errno;
}.

Definition with_deploy (d : Deploy) (s : t) : t := Make d (health s) (acks s) (cm s) (ongoingMigrationDMs s) (vp s) (ext s) (db s) (trace s).
Definition with_health (h : Health) (s : t) : t := Make (deploy s) h (acks s) (cm s) (ongoingMigrationDMs s) (vp s) (ext s) (db s) (trace s).
Definition with_acks (f : Acks → Acks) (s : t) : t := Make (deploy s) (health s) (f (acks s)) (cm s) (ongoingMigrationDMs s) (vp s) (ext s) (db s) (trace s).
Definition with_cm (c : ClusterMap.t) (s : t) : t := Make (deploy s) (health s) (acks s) c (ongoingMigrationDMs s) (vp s) (ext s) (db s) (trace s).
Definition with_ongoing (g : gset Z) (s : t) : t := Make (deploy s) (health s) (acks s) (cm s) g (vp s) (ext s) (db s) (trace s).
Definition with_vp (v : VolumePlacement.t) (s : t) : t := Make (deploy s) (health s) (acks s) (cm s) (ongoingMigrationDMs s) v (ext s) (db s) (trace s).
Definition with_ext (x : OmExtUtilApi.t) (s : t) : t := Make (deploy s) (health s) (acks s) (cm s) (ongoingMigrationDMs s) (vp s) x (db s) (trace s).
Definition with_db (r : rstore) (s : t) : t := Make (deploy s) (health s) (acks s) (cm s) (ongoingMigrationDMs s) (vp s) (ext s) r (trace s).
Definition does (l : list Effect) (s : t) : t := Make (deploy s) (health s) (acks s) (cm s) (ongoingMigrationDMs s) (vp s) (ext s) (db s) (trace s ++ l).

Definition set_dms_to_ack (g : gset Z) (a : Acks) : Acks :=
  MakeAcks g (pull_meta_dms a) (bcast_acks_to_wait a) (commit_acks_to_wait a) (close_acks_to_wait a) (abortMigrAcksToWait a) (commitDmtAcksToWait a).
Definition set_pull_meta_dms (g : gset Z) (a : Acks) : Acks :=
  MakeAcks (dms_to_ack a) g (bcast_acks_to_wait a) (commit_acks_to_wait a) (close_acks_to_wait a) (abortMigrAcksToWait a) (commitDmtAcksToWait a).
Definition set_bcast_acks (n : Z) (a : Acks) : Acks :=
  MakeAcks (dms_to_ack a) (pull_meta_dms a) n (commit_acks_to_wait a) (close_acks_to_wait a) (abortMigrAcksToWait a) (commitDmtAcksToWait a).
Definition set_commit_acks (n : Z) (a : Acks) : Acks :=
  MakeAcks (dms_to_ack a) (pull_meta_dms a) (bcast_acks_to_wait a) n (close_acks_to_wait a) (abortMigrAcksToWait a) (commitDmtAcksToWait a).
Definition set_close_acks (n : Z) (a : Acks) : Acks :=
  MakeAcks (dms_to_ack a) (pull_meta_dms a) (bcast_acks_to_wait a) (commit_acks_to_wait a) n (abortMigrAcksToWait a) (commitDmtAcksToWait a).
Definition set_abort_acks (n : Z) (a : Acks) : Acks :=
  MakeAcks (dms_to_ack a) (pull_meta_dms a) (bcast_acks_to_wait a) (commit_acks_to_wait a) (close_acks_to_wait a) n (commitDmtAcksToWait a).
Definition set_rollback_acks (n : Z) (a : Acks) : Acks :=
  MakeAcks (dms_to_ack a) (pull_meta_dms a) (bcast_acks_to_wait a) (commit_acks_to_wait a) (close_acks_to_wait a) (abortMigrAcksToWait a) n.

Variable env : Env.

Abbreviation committed_ver s := (VolumePlacement.getCommittedDMTVersion (vp s)).

(** [om_bcast_dmt(svc_type, vp->getCommittedDMT())]: how many services it was
    sent to *)
Definition om_bcast_dmt (svc_type : FDSP_MgrIdType) (s : t) : res (t * Z) :=
  d ← VolumePlacement.committed_table (vp s);
  Ret (does [dmt_to svc_type (DMT.getVersion d)] s, u32 (bcast_dmt env svc_type (DMT.getVersion d))).

(** [om_dm_agent(uuid)] and a dereference *)
Definition agent_of (uuid : Z) : res unit := if dm_agent env uuid then Ret () else Fault NullDeref.

(** ** Guards *)
Definition GRD_DplyStart (s : t) : res (t * bool) :=
  let '(addNodes, rmNodes, resyncNodes) := nodes_pend env in
  r ← updateMap FDSP_DATA_MGR addNodes rmNodes resyncNodes (cm s);
  let c := (r : ClusterMap.t * fds_errno).1 in
  removed ← getRemovedServices FDSP_DATA_MGR c;
  let rm_nodes := u32 (Z.of_nat (size removed)) in
  let resync_nodes := u32 (Z.of_nat (size (getDmResyncServices c))) in
  r ← VolumePlacement.computeDMT (debug_build env) (domain env) (isInTestMode env) c (db s) (vp s);
  let '(store, v, err) := r : rstore * VolumePlacement.t * fds_errno in
  let bret := bool_decide (err = ERR_OK) in
  _ ← (if decide (err = ERR_INVALID_ARG) then fds_verify (bool_decide (rm_nodes > 0)) else Ret ());
  let bret := bret || bool_decide (resync_nodes ≠ 0) in
  Ret (with_cm c (with_db store (with_vp v s)), bret).

Definition GRD_ReRegister (uuid : Z) (s : t) : res (t * bool) := Ret (s, bool_decide (uuid ∈ ongoingMigrationDMs s)).

Definition GRD_DmtRebal (dm_uuid : Z) (s : t) : res (t * bool) :=
  let s := if decide (dm_uuid > 0 ∧ dm_uuid ∈ dms_to_ack (acks s))
           then with_acks (set_dms_to_ack (dms_to_ack (acks s) ∖ {[dm_uuid]})) s else s in
  Ret (s, bool_decide (dms_to_ack (acks s) = ∅)).

Definition GRD_Commit (dm_uuid : Z) (s : t) : res (t * bool) :=
  s ← (if decide (dm_uuid > 0) then
         _ ← fds_verify (bool_decide (dm_uuid ∈ pull_meta_dms (acks s)));
         Ret (with_acks (set_pull_meta_dms (pull_meta_dms (acks s) ∖ {[dm_uuid]})) s)
       else Ret s);
  Ret (s, bool_decide (pull_meta_dms (acks s) = ∅)).

Definition GRD_BcastAM (dmt_version : Z) (svc_type : FDSP_MgrIdType) (s : t) : res (t * bool) :=
  match svc_type with
  | FDSP_DATA_MGR =>
      _ ← fds_verify (bool_decide (dmt_version ≤ committed_ver s));
      if decide (dmt_version ≠ committed_ver s) then Ret (s, false) else
      _ ← fds_verify (bool_decide (bcast_acks_to_wait (acks s) > 0));
      let s := with_acks (set_bcast_acks (bcast_acks_to_wait (acks s) - 1)) s in
      Ret (s, bool_decide (bcast_acks_to_wait (acks s) = 0))
  | _ => Ret (s, false)
  end.

Definition GRD_Close (dmt_version : Z) (s : t) : res (t * bool) :=
  _ ← fds_verify (bool_decide (dmt_version ≤ committed_ver s));
  if decide (dmt_version ≠ committed_ver s) then Ret (s, false) else
  let s := if decide (commit_acks_to_wait (acks s) > 0)
           then with_acks (set_commit_acks (commit_acks_to_wait (acks s) - 1)) s else s in
  Ret (s, bool_decide (commit_acks_to_wait (acks s) = 0)).

Definition GRD_Done (dmt_version : Z) (s : t) : res (t * bool) :=
  _ ← fds_verify (bool_decide (dmt_version = committed_ver s));
  let s := if decide (close_acks_to_wait (acks s) > 0)
           then with_acks (set_close_acks (close_acks_to_wait (acks s) - 1)) s else s in
  Ret (s, bool_decide (close_acks_to_wait (acks s) = 0)).

(** ** Actions; the list has the events they raise. *)
Definition DACT_Waiting (s : t) : res (t * list Evt) := Ret (does [start_waitingTimer] s, []).

Definition DACT_Start (s : t) : res (t * list Evt) :=
  addDms ← getAddedServices FDSP_DATA_MGR (cm s);
  let dmResync := bool_decide (getDmResyncServices (cm s) ≠ ∅) in
  let s := with_acks (set_dms_to_ack ∅) s in
  if negb dmResync && negb (isInTestMode env) then
    Ret (foldl (λ s uuid,
      let s := does [vol_list_to uuid] s in
      if decide (u32 (bcast_vol_list env uuid) > 0) then with_acks (set_dms_to_ack ({[uuid]} ∪ dms_to_ack (acks s))) s else s)
      s (uuid_order env addDms), [])
  else Ret (s, []).

Definition DACT_Rebalance (s : t) : res (t * list Evt) :=
  let s := with_ongoing ∅ s in
  r ← VolumePlacement.beginRebalance (pull_orders env) (pull_map_order env) (dm_agent env) (send_pullmeta env) (volumes env) (cm s) (vp s);
  let '(v, dm_set, sent, err) := r : VolumePlacement.t * gset Z * list (Z * _) * fds_errno in
  let s := does (pull_to <$> sent.*1) (with_ongoing dm_set (with_acks (set_pull_meta_dms dm_set) (with_vp v s))) in
  Ret (s, if decide (pull_meta_dms (acks s) = ∅) then [DmtPushMetaAckEvt 0] else []).

Definition DACT_Commit (s : t) : res (t * list Evt) :=
  v ← VolumePlacement.commitDMT false (vp s);
  let s := with_vp v s in
  r ← (if isInTestMode env then Ret (s, 0) else om_bcast_dmt FDSP_DATA_MGR s);
  let '(s, n) := r : t * Z in
  Ret (with_ongoing ∅ (with_acks (set_bcast_acks n) s), []).

Definition DACT_BcastAM (s : t) : res (t * list Evt) :=
  r ← om_bcast_dmt FDSP_ACCESS_MGR s;
  let '(s, ams) := r : t * Z in
  r ← om_bcast_dmt FDSP_STOR_MGR s;
  let '(s, sms) := r : t * Z in
  let s := with_acks (set_commit_acks (u32 (ams + sms))) s in
  Ret (s, if decide (commit_acks_to_wait (acks s) = 0) then [DmtCommitAckEvt (committed_ver s) FDSP_ACCESS_MGR] else []).

Definition DACT_Close (s : t) : res (t * list Evt) :=
  let ver := committed_ver s in
  let s := with_vp (VolumePlacement.notifyEndOfRebalancing (vp s)) s in
  let s := does [continue_volumes; close_to_dms ver] s in
  let s := with_acks (set_close_acks (u32 (bcast_dmt_close env ver))) s in
  Ret (does [dmt_up] s, if decide (close_acks_to_wait (acks s) < 1) then [DmtCloseOkEvt ver] else []).

Definition DACT_UpdDone (s : t) : res (t * list Evt) :=
  r ← VolumePlacement.persistCommitedTargetDmt (db s) (vp s);
  let '(store, v, _) := r : rstore * VolumePlacement.t * fds_errno in
  let s := with_db store (with_vp (VolumePlacement.markSuccess v) s) in
  addDms ← getAddedServices FDSP_DATA_MGR (cm s);
  s ← foldM (λ s uuid, _ ← agent_of uuid; Ret (does [service_deployed uuid] s)) s (uuid_order env addDms);
  removedDms ← getRemovedServices FDSP_DATA_MGR (cm s);
  let s := does (remove_complete <$> uuid_order env removedDms) s in
  c ← resetPendServices FDSP_DATA_MGR (cm s);
  Ret (does [start_tryAgainTimer] (with_cm c s), []).

Definition DACT_Error (s : t) : res (t * list Evt) :=
  if VolumePlacement.hasNoTargetDmt (vp s) then Ret (s, [DmtEndErrorEvt]) else
  r ← (if OmExtUtilApi.isDMAbortAfterRestartTrue (ext s) then Ret (s, false)
       else
         r ← VolumePlacement.undoTargetDmtCommit (db s) (vp s);
         let '(store, v, rollback) := r : rstore * VolumePlacement.t * bool in
         Ret (with_db store (with_vp v s), rollback));
  let '(s, am_dm_needs_dmt_rollback) := r : t * bool in
  let abortCnt := u32 (bcast_dm_migration_abort env (committed_ver s)) in
  let s := with_acks (set_abort_acks abortCnt) (does [abort_to_dms (committed_ver s)] s) in
  r ← (if am_dm_needs_dmt_rollback : bool then
         r ← om_bcast_dmt FDSP_ACCESS_MGR s;
         let '(s, ams) := r : t * Z in
         r ← om_bcast_dmt FDSP_STOR_MGR s;
         let '(s, sms) := r : t * Z in
         let commitCnt := u32 (ams + sms) in
         Ret (with_acks (set_rollback_acks commitCnt) s, commitCnt)
       else Ret (s, 0));
  let '(s, commitCnt) := r : t * Z in
  Ret (s, if decide (abortCnt < 1 ∧ commitCnt < 1) then [DmtEndErrorEvt] else []).

Definition DACT_EndError (s : t) : res (t * list Evt) :=
  let s := with_vp (VolumePlacement.markFailure (VolumePlacement.notifyEndOfRebalancing (vp s))) s in
  let s := with_ongoing ∅ s in
  s ← (if OmExtUtilApi.isDMAbortAfterRestartTrue (ext s) then
         r ← VolumePlacement.clearTargetDmt (db s) (vp s);
         let '(store, v) := r : rstore * VolumePlacement.t in
         Ret (with_ext (OmExtUtilApi.clearDMAbortParams (ext s)) (with_db store (with_vp v s)))
       else Ret s);
  Ret (if VolumePlacement.canRetryMigration (vp s) then does [start_tryAgainTimer] s else s, []).

(** [uuid_get_type() == FDSP_DATA_MGR]: the type is in the low six bits. *)
Definition is_dm (uuid : Z) : bool := bool_decide (Z.land uuid 63 = 2).

(** A data manager of [dms] that does not answer is taken to be down. *)
Definition down_if (dms : gset Z) (uuid : Z) (s : t) : res t :=
  if decide (uuid ∈ dms) then
    _ ← agent_of uuid;
    c ← rmAddedSvcFromAllMaps FDSP_DATA_MGR uuid (cm s);
    Ret (with_cm c (does [node_down uuid] s))
  else Ret s.

Definition DACT_ChkEndErr (ackForAbort : bool) (svcUuid : Z) (ackError : fds_errno) (s : t) : res (t * list Evt) :=
  s ← (if decide (is_dm svcUuid = true ∧ (ackError = ERR_SVC_REQUEST_TIMEOUT ∨ ackError = ERR_SVC_REQUEST_INVOCATION)) then
         addedDms ← getAddedServices FDSP_DATA_MGR (cm s);
         let resyncDMs := getDmResyncServices (cm s) in
         s ← down_if addedDms svcUuid s;
         down_if resyncDMs svcUuid s
       else Ret s);
  s ← (if ackForAbort : bool then
         _ ← fds_verify (bool_decide (abortMigrAcksToWait (acks s) > 0));
         Ret (with_acks (set_abort_acks (abortMigrAcksToWait (acks s) - 1)) s)
       else
         Ret (if decide (commitDmtAcksToWait (acks s) > 0)
              then with_acks (set_rollback_acks (commitDmtAcksToWait (acks s) - 1)) s else s));
  Ret (s, if decide (commitDmtAcksToWait (acks s) = 0 ∧ abortMigrAcksToWait (acks s) = 0) then [DmtEndErrorEvt] else []).

Definition DACT_Recovered (s : t) : res (t * list Evt) := Ret (s, []).

(** ** The transition table *)
Definition none (s : t) : res (t * bool) := Ret (s, true).

Definition deploy_rows (d : Deploy) (e : Evt) : option (Deploy * (t → res (t * list Evt)) * (t → res (t * bool))) :=
  match d, e with
  | DST_Idle, DmtDeployEvt _ => Some (DST_Waiting, DACT_Waiting, GRD_DplyStart)
  | DST_Idle, DmtLoadedDbEvt => Some (DST_BcastAM, DACT_Commit, none)
  | DST_Waiting, DmtTimeoutEvt => Some (DST_Rebalance, DACT_Start, none)
  | DST_Rebalance, DmtVolAckEvt dm => Some (DST_Commit, DACT_Rebalance, GRD_DmtRebal dm)
  | DST_Commit, DmtPushMetaAckEvt dm => Some (DST_BcastAM, DACT_Commit, GRD_Commit dm)
  | DST_BcastAM, DmtCommitAckEvt v type => Some (DST_Close, DACT_BcastAM, GRD_BcastAM v type)
  | DST_Close, DmtCommitAckEvt v _ => Some (DST_Done, DACT_Close, GRD_Close v)
  | DST_Done, DmtCloseOkEvt v => Some (DST_Idle, DACT_UpdDone, GRD_Done v)
  | DST_Idle, DmtEndErrorEvt => None
  | _, DmtEndErrorEvt => Some (DST_Idle, DACT_Recovered, none)
  | _, _ => None
  end.

Definition health_rows (h : Health) (e : Evt) : option (Health * (t → res (t * list Evt)) * (t → res (t * bool))) :=
  match h, e with
  | DST_AllOk, DmtErrorFoundEvt _ _ => Some (DST_Error, DACT_Error, none)
  | DST_AllOk, DmtUpEvt uuid => Some (DST_Error, DACT_Error, GRD_ReRegister uuid)
  | DST_Error, DmtEndErrorEvt => Some (DST_AllOk, DACT_EndError, none)
  | DST_Error, DmtRecoveryEvt a u err => Some (DST_Error, DACT_ChkEndErr a u err, none)
  | _, _ => None
  end.

(** A region takes an event by its row. *)
Definition fire {S} (row : option (S * (t → res (t * list Evt)) * (t → res (t * bool)))) (enter : S → t → t) (s : t) : res (t * list Evt) :=
  match row with
  | None => Ret (s, [])
  | Some (next, action, guard) =>
      r ← guard s;
      let '(s, ok) := r : t * bool in
      if ok : bool then
        r ← action s;
        let '(s, raised) := r : t * list Evt in
        Ret (enter next s, raised)
      else Ret (s, [])
  end.

(** The events that [DST_Error] does not block *)
Definition ends_interrupt (e : Evt) : bool :=
  match e with DmtEndErrorEvt | DmtRecoveryEvt _ _ _ => true | _ => false end.

Definition blocked (s : t) (e : Evt) : bool := match health s with DST_Error => negb (ends_interrupt e) | DST_AllOk => false end.

Definition take (e : Evt) (s : t) : res (t * list Evt) :=
  if blocked s e then Ret (s, []) else
  r ← fire (deploy_rows (deploy s) e) with_deploy s;
  let '(s, raised) := r : t * list Evt in
  r ← fire (health_rows (health s) e) with_health s;
  let '(s, raised') := r : t * list Evt in
  Ret (s, raised ++ raised').

(** An event and those it raises *)
Fixpoint take_all (fuel : nat) (queue : list Evt) (s : t) : res t :=
  match queue with
  | [] => Ret s
  | e :: queue =>
      match fuel with
      | O => Fault OutOfFuel
      | S fuel =>
          r ← take e s;
          let '(s, raised) := r : t * list Evt in
          take_all fuel (queue ++ raised) s
      end
  end.

(** [OM_DMTMod::dmt_deploy_event]; three events are the longest chain. *)
Definition dmt_deploy_event (e : Evt) (s : t) : res t := take_all 3 [e] s.

End Machine.

End DmtDplyFSM.
