(* ===== verification/DmtDeploySpec.v ===== *)
(** * Safety of the deployment of DMTs

    What the state machine of [DmtDeploy] keeps: whatever events arrive in
    whatever order, the committed table is stored, a deployment that fails goes
    back to the table that was committed before it, and error handling itself
    does not fail. *)

From S2P Require Import Prelude PlacementTable Serialize Dmt DmtManager ConfigDb ClusterMap OmExtUtil Double VolPlacementAlgo VolPlacementFrame.
From S2P Require Import VolPlacementUpdate VolumePlacement VolumePlacementTables DmtDeploy.
Open Scope Z_scope.

Import DmtDplyFSM.

(** ** The engine *)
Section Engine.
Context `{R : RedisServer} `{P : TProtocol}.
Implicit Types (v : VolumePlacement.t) (m : DMTManager.t).

Abbreviation mgr v := (VolumePlacement.dmtMgr v).
Abbreviation committed m := (DMTManager.committed_version m).
Abbreviation target m := (DMTManager.target_version m).
Abbreviation prev v := (VolumePlacement.prevDmtVersion v).
Abbreviation start v := (VolumePlacement.startDmtVersion v).

Lemma evict_versions m m' : DMTManager.evict m = Ret m' → committed m' = committed m ∧ target m' = target m.
Proof.
  unfold DMTManager.evict. case_decide; [|by intros [= <-]]. destruct (map_keys _); [done|]. intros E. by res_inv.
Qed.

(** Adding a target: it is a duplicate, or it is the target. *)
Lemma add_target d m m' e : DMTManager.inv m → DMT.version d ≠ DMT_VER_INVALID → DMTManager.add d DMT_TARGET None m = Ret (m', e) →
  (m' = m ∧ e = ERR_DUPLICATE) ∨
  (DMTManager.inv m' ∧ committed m' = committed m ∧ target m' = DMT.version d ∧ DMT.version d ≠ committed m ∧ e = ERR_OK).
Proof.
  intros Hinv Hv E. destruct (DMTManager.dmt_map m !! DMT.version d) as [p|] eqn:Hnew.
  { unfold DMTManager.add, DMT.getVersion in E. rewrite Hnew in E. injection E as <- <-. by left. }
  right. destruct (DMTManager.add_inv d DMT_TARGET None m m' e Hv Hinv E) as [Hinv' _]. unfold DMTManager.add, DMT.getVersion in E. rewrite Hnew in E.
  apply bind_verify in E as [Hc E]. apply bind_verify in E as [Ht E]. rewrite bind_Ret in E. cbv zeta iota in E.
  rewrite notify_none in E by (intros Hi; rewrite lookup_insert_ne by done; by apply Hinv).
  apply bind_Ret_inv in E as (m1 & Hev & [= <- <-]). by apply evict_versions in Hev as [H1 H2].
Qed.

Lemma compute_effect (debug : bool) (dom : VolumePlacement.Domain) (test : bool) (c : ClusterMap.t) (s s' : rstore) v v' e :
  DMTManager.inv (mgr v) → next_version v ≠ DMT_VER_INVALID → VolumePlacement.computeDMT debug dom test c s v = Ret (s', v', e) →
  DMTManager.inv (mgr v') ∧ committed (mgr v') = committed (mgr v) ∧ prev v' = prev v ∧
  start v' = (if VolumePlacement.hasCommittedDMT v then start v else u64 (start v + 1)) ∧
  (e = ERR_OK ∧ target (mgr v') = next_version v ∧ next_version v ≠ committed (mgr v) ∨ e ≠ ERR_OK ∧ mgr v' = mgr v).
Proof.
  intros Hinv Hn E. unfold VolumePlacement.computeDMT in E. cbv zeta in E.
  apply bind_Ret_inv in E as (_ & _ & E).
  set (v1 := if VolumePlacement.hasCommittedDMT v then v else VolumePlacement.with_start (u64 (start v + 1)) v).
  assert ((if VolumePlacement.hasCommittedDMT v then (u64 (VolumePlacement.getCommittedDMTVersion v + 1), v)
    else (start v, VolumePlacement.with_start (u64 (start v + 1)) v)) = (next_version v, v1)) as Hsplit by (unfold next_version, v1; by destruct (VolumePlacement.hasCommittedDMT v)).
  rewrite Hsplit in E. clear Hsplit. assert (mgr v1 = mgr v ∧ prev v1 = prev v ∧ VolumePlacement.curDmtWidth v1 = VolumePlacement.curDmtWidth v ∧
    start v1 = if VolumePlacement.hasCommittedDMT v then start v else u64 (start v + 1)) as (Hm & Hp & _ & Hst) by (unfold v1; by destruct (VolumePlacement.hasCommittedDMT v)).
  rewrite <-Hm, <-Hp, <-Hst in *. clearbody v1. apply bind_Ret_inv in E as (members & _ & E). destruct (decide (_ = 0)).
  { injection E as <- <- <-. split; [done|]. split; [done|]. split; [done|]. split; [done|]. by right. }
  apply bind_Ret_inv in E as (r & Er & E). set (dn := DMT.make _ _ _ _) in Er.
  assert (match r with inl d => DMT.version d = next_version v | inr e => e ≠ ERR_OK end) as Hr.
  { clear E. destruct (VolumePlacement.hasCommittedDMT v1).
    - apply bind_Ret_inv in Er as (cur & _ & Er). apply bind_Ret_inv in Er as ([d err] & Ea & Er). case_decide as He; [injection Er as <-; by rewrite He|].
      apply bind_verify in Er as [_ Er]. apply bind_Ret_inv in Er as (same & _ & [= <-]). destruct (negb _ && same); [done|].
      assert (keeps (DMT.base dn) fst (VolumePlacement.algo_updateDMT dom c cur dn v1)) as Hk.
      { unfold VolumePlacement.algo_updateDMT. destruct (VolumePlacement.placeAlgo v1) as [[]|]; [|apply keeps_update|apply keeps_Fault].
        eapply (keeps_step _ id); [apply keeps_rr_compute|]. intros d1 H1. by apply keeps_Ret. }
      unfold DMT.version. by rewrite (Hk _ Ea : DMT.base d = _).
    - apply bind_Ret_inv in Er as (d & Ea & [= <-]). assert (keeps (DMT.base dn) id (VolumePlacement.algo_computeDMT dom c dn v1)) as Hk.
      { unfold VolumePlacement.algo_computeDMT. destruct (VolumePlacement.placeAlgo v1) as [[]|]; [apply keeps_rr_compute|apply keeps_compute|apply keeps_Fault]. }
      unfold DMT.version. by rewrite (Hk _ Ea : DMT.base d = _). }
  destruct r as [d|err].
  - apply bind_Ret_inv in E as ([m' e'] & Ea & E). assert (v' = VolumePlacement.with_mgr m' v1 ∧ e' = e) as [-> ->].
    { case_decide; [apply bind_Ret_inv in E as (? & _ & E)|]; by injection E as <- <- <-. }
    destruct (add_target d (mgr v1) m' e Hinv) as [[-> ->]|(Hi & Hc & Ht & Hne & ->)]; [by rewrite Hr|done| |].
    + split; [done|]. split; [done|]. split; [done|]. split; [done|]. right. done.
    + split; [done|]. split; [done|]. split; [done|]. split; [done|]. left. simpl. by rewrite Ht, Hr in *.
  - injection E as <- <- <-. split; [done|]. split; [done|]. split; [done|]. split; [done|]. by right.
Qed.


(** The manager with other versions *)
Definition versions m (c t : Z) : DMTManager.t := DMTManager.Make (DMTManager.max_dmts m) c t (DMTManager.dmt_map m).

Lemma inv_versions m (c t : Z) : DMTManager.inv m → (c ≠ DMT_VER_INVALID → is_Some (DMTManager.dmt_map m !! c)) →
  (t ≠ DMT_VER_INVALID → is_Some (DMTManager.dmt_map m !! t)) → DMTManager.inv (versions m c t).
Proof. intros [He _ _ Hb] Hc Ht. by split. Qed.

Lemma versions_id m : versions m (committed m) (target m) = m.
Proof. by destruct m. Qed.

Lemma commit_effect v v' : DMTManager.inv (mgr v) → VolumePlacement.commitDMT false v = Ret v' →
  start v' = start v ∧ prev v' = committed (mgr v) ∧
  mgr v' = versions (mgr v) (if decide (target (mgr v) = DMT_VER_INVALID) then committed (mgr v) else target (mgr v)) (target (mgr v)).
Proof.
  intros Hinv E. unfold VolumePlacement.commitDMT, DMTManager.commitDMT in E. simpl in E. case_decide as Ht.
  - apply bind_Ret_inv in E as ([m' e] & Em & [= <-]). apply bind_verify in Em as [_ [= <- <-]]. simpl. by rewrite decide_False.
  - injection E as <-. simpl. destruct (decide _) as [_|]; [|done]. by rewrite versions_id.
Qed.

Lemma commit_total v : DMTManager.inv (mgr v) → ∃ v', VolumePlacement.commitDMT false v = Ret v'.
Proof.
  intros Hinv. unfold VolumePlacement.commitDMT, DMTManager.commitDMT. simpl. case_decide as Ht; [|by eexists].
  rewrite fds_verify_true by (by apply Hinv). by eexists.
Qed.

(** Unsetting the target *)
Lemma unset_total (rm : bool) m : DMTManager.inv m → ∃ e, DMTManager.unsetTarget rm m = Ret (DMTManager.Make (DMTManager.max_dmts m) (committed m) DMT_VER_INVALID
  (if rm && bool_decide (target m ≠ DMT_VER_INVALID) then delete (target m) (DMTManager.dmt_map m) else DMTManager.dmt_map m), e).
Proof.
  intros Hinv. unfold DMTManager.unsetTarget. case_decide as Ht.
  - rewrite fds_verify_true by (by apply Hinv). rewrite bind_Ret, bool_decide_eq_true_2 by done. exists ERR_OK. by destruct rm.
  - exists ERR_NOT_FOUND. rewrite bool_decide_eq_false_2, andb_false_r by (intros Hx; by apply Hx). rewrite <-Ht. by destruct m.
Qed.

Lemma unset_inv m : DMTManager.inv m → DMTManager.inv (versions m (committed m) DMT_VER_INVALID).
Proof. intros Hinv. apply inv_versions; [done|apply Hinv|done]. Qed.

(** Commands to the database return. *)
Lemma set_type_total (ver : Z) type (s : rstore) : ∃ s' b, ConfigDB.setDmtType ver type 0 s = Ret (s', b).
Proof.
  unfold ConfigDB.setDmtType, ConfigDB.try_, ConfigDB.sendCommand. unfold mbind, ConfigDB.M_bind, ConfigDB.throws.
  destruct (redisCommand _ s) as [s' [r|]]; by eexists _, _.
Qed.

Lemma persist_effect (s : rstore) v : DMTManager.inv (mgr v) → target (mgr v) = DMT_VER_INVALID ∨ target (mgr v) = committed (mgr v) →
  ∃ s' e, VolumePlacement.persistCommitedTargetDmt s v = Ret (s', VolumePlacement.with_mgr (versions (mgr v) (committed (mgr v)) DMT_VER_INVALID) v, e).
Proof.
  intros Hinv Ht. unfold VolumePlacement.persistCommitedTargetDmt, DMTManager.hasTargetDMT, DMTManager.hasCommittedDMT.
  destruct (decide (target (mgr v) = DMT_VER_INVALID)) as [Hi|Hi].
  { rewrite bool_decide_eq_false_2 by (intros Hx; by apply Hx). simpl. eexists _, _. do 3 f_equal. rewrite <-Hi, versions_id. by destruct v. }
  destruct Ht as [|Ht]; [done|]. rewrite !bool_decide_eq_true_2 by congruence. simpl. rewrite decide_False by (intros Hx; by apply Hx).
  destruct (set_type_total (committed (mgr v)) VolumePlacement.COMMITTED s) as (s1 & b1 & ->). rewrite bind_Ret. simpl.
  destruct (set_type_total 0 VolumePlacement.TARGET s1) as (s2 & b2 & ->). rewrite bind_Ret. simpl.
  destruct (unset_total false (mgr v) Hinv) as [e ->]. rewrite bind_Ret. by eexists _, _.
Qed.

Lemma clear_effect (s : rstore) v : DMTManager.inv (mgr v) →
  ∃ s', VolumePlacement.clearTargetDmt s v = Ret (s', VolumePlacement.with_mgr (versions (mgr v) (committed (mgr v)) DMT_VER_INVALID) v).
Proof.
  intros Hinv. unfold VolumePlacement.clearTargetDmt. destruct (set_type_total 0 VolumePlacement.TARGET s) as (s1 & b1 & ->). rewrite bind_Ret. simpl.
  destruct (unset_total false (mgr v) Hinv) as [e ->]. rewrite bind_Ret. by eexists.
Qed.

(** The version to go back to: the one before, if the target is committed *)
Definition fallback v : Z :=
  if decide (target (mgr v) ≠ DMT_VER_INVALID ∧ target (mgr v) = committed (mgr v)) then prev v else committed (mgr v).

(** Undoing a target that is committed needs the table before it. *)
Definition can_undo v : Prop := target (mgr v) ≠ DMT_VER_INVALID → target (mgr v) = committed (mgr v) →
  prev v ≠ committed (mgr v) ∧ (prev v ≠ DMT_VER_INVALID → is_Some (DMTManager.dmt_map (mgr v) !! prev v)).

Lemma delete_inv m (c : Z) : DMTManager.inv m → target m ≠ DMT_VER_INVALID → c ≠ target m → (c ≠ DMT_VER_INVALID → is_Some (DMTManager.dmt_map m !! c)) →
  DMTManager.inv (DMTManager.Make (DMTManager.max_dmts m) c DMT_VER_INVALID (delete (target m) (DMTManager.dmt_map m))).
Proof.
  intros [He _ Ht Hb] Hi Hne Hc. split; simpl.
  - by apply DMTManager.entries_ok_delete.
  - intros H. rewrite lookup_delete_ne by done. auto.
  - done.
  - destruct (Ht Hi) as [p Hp]. rewrite map_size_delete, Hp. lia.
Qed.

Lemma undo_effect (s : rstore) v : DMTManager.inv (mgr v) → can_undo v → target (mgr v) ≠ DMT_VER_INVALID →
  ∃ s' v' rollback, VolumePlacement.undoTargetDmtCommit s v = Ret (s', v', rollback) ∧ DMTManager.inv (mgr v') ∧ start v' = start v ∧
    (prev v' = prev v ∨ prev v' = DMT_VER_INVALID) ∧ target (mgr v') = DMT_VER_INVALID ∧ committed (mgr v') = fallback v ∧
    (rollback = true → committed (mgr v') ≠ DMT_VER_INVALID).
Proof.
  intros Hinv Hundo Ht. unfold VolumePlacement.undoTargetDmtCommit, VolumePlacement.hasNonCommitedTarget, DMTManager.hasTargetDMT, DMTManager.hasCommittedDMT.
  rewrite bool_decide_eq_true_2 by done. destruct (decide (target (mgr v) = committed (mgr v))) as [Hc|Hc].
  - assert (negb (bool_decide (committed (mgr v) ≠ DMT_VER_INVALID)) || bool_decide (committed (mgr v) ≠ target (mgr v)) = false) as ->
      by (rewrite bool_decide_eq_true_2, bool_decide_eq_false_2 by congruence; done).
    destruct (Hundo Ht Hc) as [Hne Hp]. assert (fallback v = prev v) as -> by (unfold fallback; by rewrite decide_True).
    destruct (decide (prev v = DMT_VER_INVALID)) as [Hz|Hz].
    + unfold DMTManager.commitDMT_version. rewrite decide_False by (intros Hx; by apply Hx). rewrite bind_Ret. cbv iota beta. rewrite fds_verify_true, bind_Ret by done. cbv zeta.
      simpl. unfold DMTManager.unsetTarget. simpl. destruct (set_type_total 0 VolumePlacement.TARGET s) as (s1 & b1 & ->). rewrite bind_Ret.
      eexists _, _, _. split; [done|]. simpl. split; [by apply (inv_versions (mgr v))|]. split; [done|]. split; [by right|done].
    + unfold DMTManager.commitDMT_version. rewrite decide_True, decide_True by auto. rewrite bind_Ret. cbv iota beta. rewrite fds_verify_true, bind_Ret by done. cbv zeta.
      unfold DMTManager.unsetTarget. simpl. rewrite decide_True, fds_verify_true by (done || by apply Hinv). rewrite !bind_Ret. simpl.
      destruct (set_type_total 0 VolumePlacement.TARGET s) as (s1 & b1 & ->). rewrite bind_Ret. eexists _, _, _. split; [done|]. simpl.
      split; [apply delete_inv; try done; congruence|]. split; [done|]. split; [by right|]. split; [done|]. split; [done|]. done.
  - assert (negb (bool_decide (committed (mgr v) ≠ DMT_VER_INVALID)) || bool_decide (committed (mgr v) ≠ target (mgr v)) = true) as ->
      by (rewrite (bool_decide_eq_true_2 (committed (mgr v) ≠ target (mgr v))) by congruence; apply orb_true_r).
    destruct (unset_total true (mgr v) Hinv) as [e ->]. rewrite bind_Ret. simpl. destruct (set_type_total 0 VolumePlacement.TARGET s) as (s1 & b1 & ->). rewrite bind_Ret.
    eexists _, _, _. split; [done|]. simpl. rewrite bool_decide_eq_true_2 by done. split; [apply delete_inv; try done; apply Hinv|].
    split; [done|]. split; [by left|]. split; [done|]. split; [|done]. unfold fallback. rewrite decide_False; [done|]. by intros [_ ?].
Qed.

Lemma begin_effect {Desc} orders map_order known send volumes c v v' dm_set sent e :
  VolumePlacement.beginRebalance (Desc := Desc) orders map_order known send volumes c v = Ret (v', dm_set, sent, e) →
  mgr v' = mgr v ∧ prev v' = prev v ∧ start v' = start v.
Proof.
  unfold VolumePlacement.beginRebalance. destruct (negb _); [by intros [= <- _ _ _]|]. intros E. apply bind_Ret_inv in E as (? & _ & E).
  destruct (VolumePlacement.bRebalancing v); [done|]. apply bind_Ret_inv in E as (? & _ & E). apply bind_Ret_inv in E as ([pull|err] & _ & E).
  - apply bind_Ret_inv in E as ([[a b] e'] & _ & [= <- _ _ _]). done.
  - by injection E as <- _ _ _.
Qed.
End Engine.

(** ** The machine *)
Section Machine.
Context `{R : RedisServer} `{P : TProtocol} {Desc : Type}.
Implicit Types (s : DmtDplyFSM.t) (env : Env (Desc := Desc)) (e : Evt) (b : Z).

Abbreviation mgr s := (VolumePlacement.dmtMgr (vp s)).
Abbreviation committed s := (DMTManager.committed_version (VolumePlacement.dmtMgr (vp s))).
Abbreviation target s := (DMTManager.target_version (VolumePlacement.dmtMgr (vp s))).
Abbreviation prev s := (VolumePlacement.prevDmtVersion (vp s)).
Abbreviation start s := (VolumePlacement.startDmtVersion (vp s)).

(** An interrupted migration is to be aborted after a restart. *)
Abbreviation restarted s := (OmExtUtilApi.isDMAbortAfterRestartTrue (ext s)).

(** States in which the target is committed *)
Definition late (d : Deploy) : bool := match d with DST_BcastAM | DST_Close | DST_Done => true | _ => false end.

(** Versions are at most [b]. *)
Record ok b s : Prop := {
  ok_inv : DMTManager.inv (mgr s);
  ok_bound : 0 ≤ committed s ≤ b ∧ 0 ≤ target s ≤ b ∧ 0 ≤ prev s ≤ b ∧ 1 ≤ start s ≤ b + 1;
  ok_undo : restarted s = false → can_undo (vp s);
  ok_committed : restarted s = false → target s ≠ DMT_VER_INVALID → target s = committed s → late (deploy s) = true;
  ok_late : late (deploy s) = true → target s = DMT_VER_INVALID ∨ target s = committed s;
  ok_idle : restarted s = false → deploy s = DST_Idle → target s = DMT_VER_INVALID;
  ok_error : restarted s = false → health s = DST_Error → target s = DMT_VER_INVALID;
}.

(** What the invariant is about *)
Definition core s : DMTManager.t * Z * Z * bool := (mgr s, prev s, start s, restarted s).
Record kept s s' : Prop := { kept_core : core s' = core s; kept_deploy : deploy s' = deploy s; kept_health : health s' = health s }.

Lemma kept_refl s : kept s s.
Proof. done. Qed.

Lemma kept_trans s1 s2 s3 : kept s1 s2 → kept s2 s3 → kept s1 s3.
Proof. intros [] []. split; congruence. Qed.

(** ** Guards and actions that leave the versions alone *)
Create HintDb kept.
#[local] Hint Resolve kept_refl : kept.

Ltac kept_tac :=
  repeat match goal with
  | E : _ ≫= _ = Ret _ |- _ => let a := fresh "a" in let Ea := fresh "Ea" in apply bind_Ret_inv in E as (a & Ea & E)
  | E : Ret _ = Ret _ |- _ => injection E as E; subst
  | E : Fault _ = Ret _ |- _ => discriminate E
  | E : (if ?c then _ else _) = Ret _ |- _ => destruct c
  | E : (let '(_, _) := ?p in _) = Ret _ |- _ => destruct p
  | E : match ?p with _ => _ end = Ret _ |- _ => destruct p
  | E : (_, _) = (_, _) |- _ => injection E as E; subst
  end; cbv zeta; repeat case_decide; try (by split).

Lemma bcast_kept env type s s' n : om_bcast_dmt env type s = Ret (s', n) → kept s s'.
Proof. unfold om_bcast_dmt. intros E. kept_tac. Qed.

Lemma bcast_total env type s : DMTManager.inv (mgr s) → committed s ≠ DMT_VER_INVALID → ∃ s' n, om_bcast_dmt env type s = Ret (s', n).
Proof.
  intros Hinv Hc. destruct (DMTManager.inv_committed _ Hinv Hc) as [p Hp]. destruct (DMTManager.inv_entries _ Hinv _ _ Hp) as (d & -> & _).
  unfold om_bcast_dmt, VolumePlacement.committed_table, VolumePlacement.getCommittedDMT, DMTManager.getDMT. rewrite bind_Ret, Hp. by eexists _, _.
Qed.

Lemma rereg_kept u s s' (r : bool) : GRD_ReRegister u s = Ret (s', r) → kept s s'.
Proof. unfold GRD_ReRegister. intros E. kept_tac. Qed.
Lemma rebal_kept u s s' (r : bool) : GRD_DmtRebal u s = Ret (s', r) → kept s s'.
Proof. unfold GRD_DmtRebal. intros E. cbv zeta in E. kept_tac. Qed.
Lemma commit_guard_kept u s s' (r : bool) : GRD_Commit u s = Ret (s', r) → kept s s'.
Proof. unfold GRD_Commit. intros E. kept_tac. Qed.
Lemma bcast_guard_kept v type s s' (r : bool) : GRD_BcastAM v type s = Ret (s', r) → kept s s'.
Proof. unfold GRD_BcastAM. intros E. cbv zeta in E. kept_tac. Qed.
Lemma close_guard_kept v s s' (r : bool) : GRD_Close v s = Ret (s', r) → kept s s'.
Proof. unfold GRD_Close. intros E. cbv zeta in E. kept_tac. Qed.
Lemma done_guard_kept v s s' (r : bool) : GRD_Done v s = Ret (s', r) → kept s s'.
Proof. unfold GRD_Done. intros E. cbv zeta in E. kept_tac. Qed.

Lemma foldl_kept {A} (f : DmtDplyFSM.t → A → DmtDplyFSM.t) (l : list A) s : (∀ s a, kept s (f s a)) → kept s (foldl f s l).
Proof. intros Hf. revert s. induction l as [|a l IH]; intros s; [done|]. simpl. eapply kept_trans; [apply Hf|apply IH]. Qed.

Lemma waiting_kept s s' l : DACT_Waiting s = Ret (s', l) → kept s s' ∧ l = [].
Proof. unfold DACT_Waiting. intros [= <- <-]. done. Qed.

Lemma start_kept env s s' l : DACT_Start env s = Ret (s', l) → kept s s' ∧ l = [].
Proof.
  unfold DACT_Start. intros E. cbv zeta in E. apply bind_Ret_inv in E as (added & _ & E). destruct (_ && _); injection E as <- <-; [|done].
  split; [|done]. eapply kept_trans; [|apply foldl_kept]; [done|]. intros s1 u. simpl. by case_decide.
Qed.

Lemma rebalance_kept env s s' l : DACT_Rebalance env s = Ret (s', l) → kept s s' ∧ (l = [] ∨ l = [DmtPushMetaAckEvt 0]).
Proof.
  unfold DACT_Rebalance. intros E. cbv zeta in E. apply bind_Ret_inv in E as ([[[v dm_set] sent] err] & Eb & E). apply begin_effect in Eb as (H1 & H2 & H3).
  injection E as <- <-. split; [|case_decide; auto]. split; [|done..]. unfold core. simpl. simpl in H1, H2, H3. by rewrite H1, H2, H3.
Qed.

Lemma bcastAM_kept env s s' l : DACT_BcastAM env s = Ret (s', l) → kept s s' ∧ (l = [] ∨ ∃ v, l = [DmtCommitAckEvt v ClusterMap.FDSP_ACCESS_MGR]).
Proof.
  unfold DACT_BcastAM. intros E. apply bind_Ret_inv in E as ([s1 ams] & E1 & E). apply bind_Ret_inv in E as ([s2 sms] & E2 & E).
  apply bcast_kept in E1, E2. injection E as <- <-. split; [|case_decide; eauto]. eapply kept_trans; [exact E1|]. eapply kept_trans; [exact E2|]. done.
Qed.

Lemma close_kept env s s' l : DACT_Close env s = Ret (s', l) → kept s s' ∧ (l = [] ∨ ∃ v, l = [DmtCloseOkEvt v]).
Proof. unfold DACT_Close. intros [= <- <-]. split; [done|]. case_decide; eauto. Qed.

Lemma down_kept env dms u s s' : down_if env dms u s = Ret s' → kept s s'.
Proof. unfold down_if. intros E. kept_tac. Qed.

Lemma chk_kept env a u err s s' l : DACT_ChkEndErr env a u err s = Ret (s', l) → kept s s' ∧ (l = [] ∨ l = [DmtEndErrorEvt]).
Proof.
  unfold DACT_ChkEndErr. intros E. apply bind_Ret_inv in E as (s1 & E1 & E). apply bind_Ret_inv in E as (s2 & E2 & [= <- <-]).
  split; [|destruct (decide (commitDmtAcksToWait _ = 0 ∧ _)); auto].
  assert (kept s s1) as H1.
  { destruct (decide (is_dm u = true ∧ _)); [|by injection E1 as <-]. apply bind_Ret_inv in E1 as (added & _ & E1). cbv zeta in E1. apply bind_Ret_inv in E1 as (s3 & E3 & E4).
    apply down_kept in E3, E4. by eapply kept_trans. }
  eapply kept_trans; [exact H1|]. destruct a; kept_tac.
Qed.

(** ** The others *)
Lemma dply_effect env b s s' (r : bool) : ok b s → b + 1 < uint64_max → GRD_DplyStart env s = Ret (s', r) →
  deploy s' = deploy s ∧ health s' = health s ∧ restarted s' = restarted s ∧ prev s' = prev s ∧ 1 ≤ start s' ≤ b + 2 ∧
  DMTManager.inv (mgr s') ∧ committed s' = committed s ∧
  (r = true ∧ target s' ≠ committed s ∧ 0 < target s' ≤ b + 1 ∨ mgr s' = mgr s).
Proof.
  intros Hok Hb E. unfold GRD_DplyStart in E. destruct (nodes_pend env) as [[add rm] resync]. apply bind_Ret_inv in E as ([c err0] & _ & E). cbv zeta in E.
  apply bind_Ret_inv in E as (removed & _ & E). apply bind_Ret_inv in E as ([[store v] err] & Ec & E). apply bind_Ret_inv in E as (u & _ & [= <- <-]). simpl.
  destruct (ok_bound _ _ Hok) as (HC & HT & HP & HS).
  assert (0 < next_version (vp s) ≤ b + 1) as Hn.
  { unfold next_version. unfold VolumePlacement.getCommittedDMTVersion. destruct (VolumePlacement.hasCommittedDMT (vp s)); [|lia]. rewrite u64_small by lia. lia. }
  destruct (compute_effect _ _ _ _ _ _ _ _ _ (ok_inv _ _ Hok) ltac:(unfold DMT_VER_INVALID; lia) Ec) as (Hi & Hc & Hp & Hst & Ht). do 4 (split; [done|]). split.
  { rewrite Hst. destruct (VolumePlacement.hasCommittedDMT (vp s)); [lia|]. rewrite u64_small by lia. lia. }
  split; [done|]. split; [done|]. destruct Ht as [(-> & Ht & Hne)|[_ ->]]; [left|by right]. rewrite Ht. split; [done|]. split; [done|lia].
Qed.

Lemma commit_act_effect env s s' l : DMTManager.inv (mgr s) → DACT_Commit env s = Ret (s', l) →
  l = [] ∧ deploy s' = deploy s ∧ health s' = health s ∧ restarted s' = restarted s ∧ start s' = start s ∧ prev s' = committed s ∧
  mgr s' = versions (mgr s) (if decide (target s = DMT_VER_INVALID) then committed s else target s) (target s).
Proof.
  intros Hinv E. unfold DACT_Commit in E. apply bind_Ret_inv in E as (v & Ev & E). apply commit_effect in Ev as (H1 & H2 & H3); [|done]. cbv zeta in E.
  apply bind_Ret_inv in E as ([s1 n] & E1 & [= <- <-]). assert (kept (with_vp v s) s1) as [Hc Hd Hh] by (destruct (isInTestMode env); [by injection E1 as <- _|by eapply bcast_kept]).
  injection Hc as Hc1 Hc2 Hc3 Hc4. simpl in *. rewrite Hc1, Hc2, Hc3, Hc4, Hd, Hh. done.
Qed.

Lemma done_act_effect env s s' l : DMTManager.inv (mgr s) → target s = DMT_VER_INVALID ∨ target s = committed s → DACT_UpdDone env s = Ret (s', l) →
  l = [] ∧ deploy s' = deploy s ∧ health s' = health s ∧ restarted s' = restarted s ∧ start s' = start s ∧ prev s' = prev s ∧
  mgr s' = versions (mgr s) (committed s) DMT_VER_INVALID.
Proof.
  intros Hinv Ht E. unfold DACT_UpdDone in E. destruct (persist_effect (db s) (vp s) Hinv Ht) as (store & e & Ep). rewrite Ep, bind_Ret in E. cbv zeta in E.
  apply bind_Ret_inv in E as (added & _ & E). apply bind_Ret_inv in E as (s1 & E1 & E). apply bind_Ret_inv in E as (removed & _ & E).
  apply bind_Ret_inv in E as (c & _ & [= <- <-]).
  assert (kept (with_db store (with_vp (VolumePlacement.markSuccess (VolumePlacement.with_mgr (versions (mgr s) (committed s) DMT_VER_INVALID) (vp s))) s)) s1) as [Hc Hd Hh].
  { eapply (foldM_inv (kept _)); [apply kept_refl| |exact E1]. intros s2 u s3 _ H2 E3. eapply kept_trans; [exact H2|]. apply bind_Ret_inv in E3 as (? & _ & [= <-]). done. }
  injection Hc as Hc1 Hc2 Hc3 Hc4. simpl in *. rewrite Hc1, Hc2, Hc3, Hc4, Hd, Hh. done.
Qed.

(** The error action does not fail; a target that is not from before a restart
    is given up. *)
Lemma error_act_effect env s : DMTManager.inv (mgr s) → (restarted s = false → can_undo (vp s)) →
  ∃ s' l, DACT_Error env s = Ret (s', l) ∧ (l = [] ∨ l = [DmtEndErrorEvt]) ∧
    deploy s' = deploy s ∧ health s' = health s ∧ restarted s' = restarted s ∧ start s' = start s ∧ DMTManager.inv (mgr s') ∧
    (prev s' = prev s ∨ prev s' = DMT_VER_INVALID) ∧
    if restarted s then core s' = core s else target s' = DMT_VER_INVALID ∧ committed s' = fallback (vp s).
Proof.
  intros Hinv Hundo. unfold DACT_Error, VolumePlacement.hasNoTargetDmt, DMTManager.hasTargetDMT.
  destruct (decide (target s = DMT_VER_INVALID)) as [Hz|Hz].
  { rewrite bool_decide_eq_false_2 by (intros Hx; by apply Hx). simpl. eexists _, _. split; [done|]. split; [by right|]. do 5 (split; [done|]). split; [by left|].
    destruct (restarted s); [done|]. split; [done|]. unfold fallback. rewrite decide_False; [done|]. by intros [? _]. }
  rewrite bool_decide_eq_true_2 by done. simpl.
  assert (∃ s1 rollback, (if restarted s then Ret (s, false) else
      r ← VolumePlacement.undoTargetDmtCommit (db s) (vp s); let '(store, v, rollback) := r in Ret (with_db store (with_vp v s), rollback)) = Ret (s1, rollback) ∧
    deploy s1 = deploy s ∧ health s1 = health s ∧ restarted s1 = restarted s ∧ start s1 = start s ∧ DMTManager.inv (mgr s1) ∧
    (prev s1 = prev s ∨ prev s1 = DMT_VER_INVALID) ∧
    (if restarted s then core s1 = core s else target s1 = DMT_VER_INVALID ∧ committed s1 = fallback (vp s)) ∧
    (rollback = true → committed s1 ≠ DMT_VER_INVALID)) as (s1 & rollback & -> & Hd & Hh & Hr & Hs & Hi & Hp & Hcore & Hrb).
  { destruct (restarted s) eqn:Er; [eexists _, _; split; [done|]; split_and!; auto|].
    destruct (undo_effect (db s) (vp s) Hinv (Hundo eq_refl) Hz) as (s' & v' & rb & -> & H1 & H2 & H3 & H4 & H5 & H6). rewrite bind_Ret.
    eexists _, _. split; [done|]. simpl. by split_and!. }
  rewrite bind_Ret. cbv zeta.
  assert (∀ s2, kept s1 s2 → deploy s2 = deploy s ∧ health s2 = health s ∧ restarted s2 = restarted s ∧ start s2 = start s ∧ DMTManager.inv (mgr s2) ∧
    (prev s2 = prev s ∨ prev s2 = DMT_VER_INVALID) ∧ (if restarted s then core s2 = core s else target s2 = DMT_VER_INVALID ∧ committed s2 = fallback (vp s))) as Hkept.
  { intros s2 [Hc Hd2 Hh2]. pose proof Hc as Hc'. injection Hc as -> -> -> ->. rewrite Hd2, Hh2. repeat (split; [done|]). destruct (restarted s); [by rewrite Hc'|done]. }
  destruct rollback; [|eexists _, _; split; [done|]; split; [case_decide; auto|]; by apply Hkept].
  set (s2 := with_acks _ _). assert (kept s1 s2) as K2 by done. clearbody s2.
  destruct (bcast_total env ClusterMap.FDSP_ACCESS_MGR s2) as (s3 & n & E3); [by injection (kept_core _ _ K2) as -> _..|by injection (kept_core _ _ K2) as -> _; auto|].
  rewrite E3, bind_Ret. apply bcast_kept in E3. assert (kept s1 s3) as K3 by (by eapply kept_trans).
  destruct (bcast_total env ClusterMap.FDSP_STOR_MGR s3) as (s4 & n' & E4); [by injection (kept_core _ _ K3) as -> _..|by injection (kept_core _ _ K3) as -> _; auto|].
  rewrite E4, !bind_Ret. apply bcast_kept in E4. eexists _, _. split; [done|]. split; [case_decide; auto|]. apply Hkept. eapply kept_trans; [exact K3|]. eapply kept_trans; [exact E4|]. done.
Qed.

(** The end of an error does not fail. *)
Lemma end_act_effect s : DMTManager.inv (mgr s) →
  ∃ s', DACT_EndError s = Ret (s', []) ∧ deploy s' = deploy s ∧ health s' = health s ∧ restarted s' = false ∧ start s' = start s ∧ prev s' = prev s ∧
    mgr s' = if restarted s then versions (mgr s) (committed s) DMT_VER_INVALID else mgr s.
Proof.
  intros Hinv. unfold DACT_EndError. cbv zeta. simpl. destruct (restarted s) eqn:Er.
  - destruct (clear_effect (db s) (VolumePlacement.markFailure (VolumePlacement.notifyEndOfRebalancing (vp s))) Hinv) as [store ->]. rewrite !bind_Ret.
    eexists. split; [done|]. by destruct (VolumePlacement.canRetryMigration _).
  - rewrite bind_Ret. eexists. split; [done|]. by destruct (VolumePlacement.canRetryMigration _).
Qed.

(** ** Events *)
(** Only a deployment uses a new version. *)
Definition cost e : Z := match e with DmtDeployEvt _ => 1 | _ => 0 end.

(** The deployment is done: the target is the committed table. *)
Definition completed s s' : Prop :=
  deploy s' = DST_Idle ∧ health s' = DST_AllOk ∧ target s' = DMT_VER_INVALID ∧ committed s' = committed s ∧ target s = committed s.

Definition stays s s' : Prop := fallback (vp s') = fallback (vp s).

(** What taking an event does: nothing more is raised, and the version to go
    back to stays or the deployment is done; or an error ends; or an event is
    raised that goes on with the deployment. *)
Definition outcome s s' (l : list Evt) : Prop :=
  (l = [] ∧ (restarted s = false → stays s s' ∨ completed s s')) ∨
  (l = [DmtEndErrorEvt] ∧ health s' = DST_Error ∧ (restarted s = false → stays s s')) ∨
  (∃ e', l = [e'] ∧ e' ≠ DmtEndErrorEvt ∧ cost e' = 0 ∧ core s' = core s).

Lemma core_stays s s' : core s' = core s → stays s s'.
Proof. unfold stays, fallback. by intros [= -> -> _ _]. Qed.

Lemma ok_more b b' s : b ≤ b' → ok b s → ok b' s.
Proof. intros Hb [Hi Hbd Hu Hc Hl Hd He]. split; try done. lia. Qed.

(** Entering a state with the versions as they were *)
Lemma ok_move b s s' : ok b s → core s' = core s →
  (late (deploy s') = true → late (deploy s) = true) → (restarted s = false → target s ≠ DMT_VER_INVALID → late (deploy s) = true → late (deploy s') = true) →
  (restarted s = false → deploy s' = DST_Idle → target s = DMT_VER_INVALID) → (restarted s = false → health s' = DST_Error → target s = DMT_VER_INVALID) →
  ok b s'.
Proof.
  intros [Hi Hbd Hu Hc Hl Hd He] Hcore H1 H2 H3 H4. injection Hcore as Hm Hp Hs Hf.
  split; unfold can_undo in *; rewrite ?Hm, ?Hp, ?Hs, ?Hf; auto. 
Qed.

Lemma ok_kept b s s' : ok b s → kept s s' → ok b s'.
Proof. intros H [Hc Hd Hh]. apply (ok_move b s); try done; rewrite ?Hd, ?Hh; try done; apply H. Qed.

(** Moving on with the versions as they were *)
Lemma move_outcome b d s s1 (l : list Evt) : ok b s → kept s s1 → late d = late (deploy s) → d ≠ DST_Idle →
  l = [] ∨ (∃ e', l = [e'] ∧ e' ≠ DmtEndErrorEvt ∧ cost e' = 0) →
  ok b (with_deploy d s1) ∧ restarted (with_deploy d s1) = restarted s ∧ outcome s (with_deploy d s1) l.
Proof.
  intros Hok [Hc Hd Hh] Hlate Hidle Hl. split; [|split].
  - apply (ok_move b s); simpl; rewrite ?Hlate, ?Hh; try done. apply Hok.
  - by injection Hc.
  - destruct Hl as [->|(e' & -> & He & Hcost)]; [left; split; [done|]; intros _; left; by apply core_stays|right; right; by exists e'].
Qed.

Lemma commit_outcome env b s s1 s2 l : ok b s → kept s s1 → late (deploy s) = false → DACT_Commit env s1 = Ret (s2, l) →
  ok b (with_deploy DST_BcastAM s2) ∧ restarted (with_deploy DST_BcastAM s2) = restarted s ∧ outcome s (with_deploy DST_BcastAM s2) l.
Proof.
  intros Hok K Hlate E. pose proof (ok_kept _ _ _ Hok K) as Hok1. destruct (commit_act_effect env s1 s2 l (ok_inv _ _ Hok1) E) as (-> & Hd & Hh & Hr & Hs & Hp & Hm).
  pose proof K as [Hcore Hd1 Hh1]. injection Hcore as Hm1 Hp1 Hs1 Hr1. rewrite Hm1, Hs1, Hr1, Hh1 in *.
  destruct Hok as [Hi (HC & HT & HP & HS) Hu Hc Hl Hid He]. rewrite Hlate in Hc.
  split; [|split; [done|]].
  - split; simpl; rewrite ?Hm, ?Hp, ?Hs, ?Hr, ?Hh; simpl.
    + apply inv_versions; [done| |apply Hi]. case_decide; apply Hi.
    + case_decide; lia.
    + intros Hf Ht Hct. simpl in *. rewrite Hm in *. simpl in *. rewrite Hp. case_decide; [done|]. split; [intros Heq; by specialize (Hc Hf Ht (eq_sym Heq))|apply Hi].
    + done.
    + intros _. case_decide; auto.
    + done.
    + auto.
  - left. split; [done|]. intros Hf. left. unfold stays, fallback. simpl. rewrite Hm, Hp. simpl. case_decide as Ht.
    + rewrite !decide_False; [done|by intros [? _]|by intros [? _]].
    + rewrite decide_True by done. rewrite decide_False; [done|]. intros [_ Heq]. by specialize (Hc Hf Ht Heq).
Qed.

Lemma deploy_outcome env b s s' l : ok b s → b + 1 < uint64_max → deploy s = DST_Idle → health s = DST_AllOk →
  fire (Some (DST_Waiting, DACT_Waiting, GRD_DplyStart env)) with_deploy s = Ret (s', l) →
  ok (b + 1) s' ∧ restarted s' = restarted s ∧ outcome s s' l.
Proof.
  intros Hok Hb Hidle Hall E. simpl in E. apply bind_Ret_inv in E as ([s1 r] & Eg & E).
  destruct (dply_effect env b s s1 r Hok Hb Eg) as (Hd & Hh & Hr & Hp & Hst & Hi & Hc & Ht).
  assert (deploy s' = (if r then DST_Waiting else DST_Idle) ∧ health s' = DST_AllOk ∧ core s' = core s1 ∧ l = []) as (Hd' & Hh' & Hcore & ->).
  { destruct r; injection E as <- <-; simpl; (split; [done || congruence|]); (split; [congruence|done]). }
  injection Hcore as Hm' Hp' Hs' Hr'. rewrite Hr, Hr' in *. pose proof (ok_bound _ _ Hok) as (HC & HT & HP & HS).
  destruct Ht as [(-> & Hne & Hpos & Hle)|Hm].
  - split; [|split; [done|]].
    + split; rewrite ?Hm', ?Hp', ?Hs', ?Hr', ?Hd', ?Hh', ?Hp; try done; try lia.
      * intros _ _ Heq. rewrite Hm', Hc in Heq. done.
    + left. split; [done|]. intros Hf. left. unfold stays, fallback. rewrite Hm', Hp', Hc. rewrite !decide_False; [done| |].
      * intros [Hx _]. by apply Hx, (ok_idle _ _ Hok).
      * by intros [_ ?].
  - rewrite Hm in Hm'. split; [|split; [done|]].
    + pose proof (ok_idle _ _ Hok) as Hz. split; rewrite ?Hm', ?Hp', ?Hs', ?Hr', ?Hd', ?Hh', ?Hp; try done; try lia.
      * apply Hok.
      * intros Hf. unfold can_undo. rewrite Hm'. intros Hx. by destruct Hx; apply Hz.
      * intros Hf Hx. by destruct Hx; apply Hz.
      * by destruct r.
      * auto.
    + left. split; [done|]. intros Hf. left. unfold stays, fallback. by rewrite Hm', Hp', Hp.
Qed.

Lemma done_outcome env v b s s' l : ok b s → deploy s = DST_Done → health s = DST_AllOk →
  fire (Some (DST_Idle, DACT_UpdDone env, GRD_Done v)) with_deploy s = Ret (s', l) →
  ok b s' ∧ restarted s' = restarted s ∧ outcome s s' l.
Proof.
  intros Hok Hd Hh E. simpl in E. apply bind_Ret_inv in E as ([s1 r] & Eg & E). apply done_guard_kept in Eg as K. pose proof (ok_kept _ _ _ Hok K) as Hok1.
  destruct r; [|injection E as <- <-; split; [done|]; pose proof (kept_core _ _ K) as Hcore; split; [by injection Hcore|left; split; [done|]; intros _; left; by apply core_stays]].
  apply bind_Ret_inv in E as ([s2 l2] & Ea & [= <- <-]). assert (late (deploy s) = true) as Hlate by (by rewrite Hd).
  destruct (done_act_effect env s1 s2 l2 (ok_inv _ _ Hok1)) as (-> & Hd2 & Hh2 & Hr2 & Hs2 & Hp2 & Hm2); [apply Hok1; by rewrite (kept_deploy _ _ K)|done|].
  pose proof K as [Hcore Hd1 Hh1]. injection Hcore as Hm1 Hp1 Hs1 Hr1. rewrite Hm1, Hp1, Hs1, Hr1, Hh1 in *.
  pose proof (ok_bound _ _ Hok) as (HC & HT & HP & HS). split; [|split; [done|]].
  - split; simpl; rewrite ?Hm2, ?Hp2, ?Hs2, ?Hr2, ?Hh2; simpl; try done.
    + apply unset_inv, Hok.
    + unfold DMT_VER_INVALID. lia.
    + intros _. unfold can_undo. simpl. rewrite Hm2. by intros [].
  - left. split; [done|]. intros Hf. destruct (ok_late _ _ Hok Hlate) as [Hz|Heq].
    + left. unfold stays, fallback. simpl. rewrite Hm2. simpl. rewrite !decide_False; [done|by intros [? _]..].
    + right. split; [done|]. split; [simpl; congruence|]. simpl. by rewrite Hm2.
Qed.

Lemma error_outcome env b s : ok b s → ∃ s' l, DACT_Error env s = Ret (s', l) ∧
  ok b (with_health DST_Error s') ∧ restarted (with_health DST_Error s') = restarted s ∧ outcome s (with_health DST_Error s') l ∧
  (restarted s = false → target s' = DMT_VER_INVALID ∧ committed s' = fallback (vp s)).
Proof.
  intros Hok. destruct (error_act_effect env s (ok_inv _ _ Hok) (ok_undo _ _ Hok)) as (s' & l & E & Hl & Hd & Hh & Hr & Hs & Hi & Hp & Hcore).
  exists s', l. split; [done|]. pose proof (ok_bound _ _ Hok) as (HC & HT & HP & HS).
  assert (0 ≤ fallback (vp s) ≤ b) as Hfb by (unfold fallback; by case_decide).
  assert (restarted s = false → stays s (with_health DST_Error s')) as Hstays.
  { intros Hf. rewrite Hf in Hcore. destruct Hcore as [Ht Hc]. unfold stays. unfold fallback at 1. simpl. by rewrite decide_False by (by intros [? _]). }
  split; [|split; [done|split; [|intros Hf; by rewrite Hf in Hcore]]].
  - destruct (restarted s) eqn:Hf.
    + apply (ok_move b s); try done; simpl; rewrite ?Hd, ?Hf; done.
    + destruct Hcore as [Ht Hc]. split; simpl; rewrite ?Hs, ?Hd, ?Ht, ?Hc; try done; auto.
      destruct Hp as [-> | ->]; unfold DMT_VER_INVALID; lia.
  - destruct Hl as [-> | ->]; [left; split; [done|]; intros Hf; left; auto|right; left; done].
Qed.

Lemma end_outcome b s : ok b s → health s = DST_Error → ∃ s', DACT_EndError s = Ret (s', []) ∧
  ok b (with_health DST_AllOk s') ∧ restarted s' = false ∧ (restarted s = false → stays s (with_health DST_AllOk s')) ∧
  target s' = DMT_VER_INVALID ∧ committed s' = committed s ∧ deploy s' = deploy s.
Proof.
  intros Hok Hh. destruct (end_act_effect s (ok_inv _ _ Hok)) as (s' & E & Hd & _ & Hr & Hs & Hp & Hm). exists s'. split; [done|].
  pose proof (ok_bound _ _ Hok) as (HC & HT & HP & HS).
  assert (mgr s' = versions (mgr s) (committed s) DMT_VER_INVALID) as Hm'.
  { rewrite Hm. destruct (restarted s) eqn:Hf; [done|]. rewrite <-(ok_error _ _ Hok Hf Hh). by rewrite versions_id. }
  split; [|split; [done|split; [|by rewrite Hm']]].
  - split; simpl; rewrite ?Hm', ?Hp, ?Hs; simpl; try done; auto.
    + apply unset_inv, Hok.
    + unfold DMT_VER_INVALID. lia.
    + intros _. unfold can_undo. simpl. rewrite Hm'. by intros [].
  - intros Hf. unfold stays, fallback. simpl. rewrite Hm'. simpl. rewrite !decide_False; [done|intros [Hx _]; by apply Hx, (ok_error _ _ Hok)].
Qed.

Lemma none_outcome b s : ok b s → ok b s ∧ restarted s = restarted s ∧ outcome s s [].
Proof. intros H. split; [done|]. split; [done|]. left. split; [done|]. intros _. by left. Qed.

(** A row that keeps the versions *)
Lemma row_outcome b d (action : DmtDplyFSM.t → res (DmtDplyFSM.t * list Evt)) (guard : DmtDplyFSM.t → res (DmtDplyFSM.t * bool)) s s' l :
  ok b s → late d = late (deploy s) → d ≠ DST_Idle → (∀ s1 r, guard s = Ret (s1, r) → kept s s1) →
  (∀ s1 s2 l, action s1 = Ret (s2, l) → kept s1 s2 ∧ (l = [] ∨ ∃ e', l = [e'] ∧ e' ≠ DmtEndErrorEvt ∧ cost e' = 0)) →
  fire (Some (d, action, guard)) with_deploy s = Ret (s', l) → ok b s' ∧ restarted s' = restarted s ∧ outcome s s' l.
Proof.
  intros Hok Hlate Hidle Hg Ha E. simpl in E. apply bind_Ret_inv in E as ([s1 r] & Eg & E). apply Hg in Eg as K. destruct r.
  - apply bind_Ret_inv in E as ([s2 l2] & Ea & [= <- <-]). apply Ha in Ea as [K2 Hl]. apply (move_outcome b); try done. by eapply kept_trans.
  - injection E as <- <-. split; [by eapply ok_kept|]. pose proof (kept_core _ _ K) as Hc. split; [by injection Hc|]. left. split; [done|]. intros _. left. by apply core_stays.
Qed.

Lemma none_kept s s1 (r : bool) : none s = Ret (s1, r) → kept s s1.
Proof. by intros [= <- _]. Qed.

Lemma deploy_region env e b s s' l : ok b s → b + 1 < uint64_max → health s = DST_AllOk → e ≠ DmtEndErrorEvt →
  fire (deploy_rows env (deploy s) e) with_deploy s = Ret (s', l) → ok (b + cost e) s' ∧ restarted s' = restarted s ∧ outcome s s' l.
Proof.
  intros Hok Hb Hh He E. assert (ok (b + cost e) s) as Hmore by (eapply ok_more; [|done]; destruct e; simpl; lia).
  destruct (deploy s) eqn:Hd, e; try done; try (cbn [deploy_rows fire] in E; injection E as <- <-; by apply none_outcome);
    cbn [deploy_rows] in E; cbn [cost] in *; rewrite ?Z.add_0_r in *.
  - by eapply deploy_outcome.
  - simpl in E. apply bind_Ret_inv in E as ([s2 l2] & Ea & [= <- <-]). eapply commit_outcome; [done|apply kept_refl|by rewrite Hd|done].
  - refine (row_outcome b _ _ _ s s' l Hok _ _ _ _ E); [by rewrite Hd|done|apply none_kept|]. intros s1 s2 l2 Ea. apply start_kept in Ea as [? ->]. auto.
  - refine (row_outcome b _ _ _ s s' l Hok _ _ _ _ E); [by rewrite Hd|done|apply rebal_kept|]. intros s1 s2 l2 Ea. apply rebalance_kept in Ea as [? [-> | ->]]; split; eauto.
  - simpl in E. apply bind_Ret_inv in E as ([s1 r] & Eg & E). apply commit_guard_kept in Eg as K. destruct r.
    + apply bind_Ret_inv in E as ([s2 l2] & Ea & [= <- <-]). eapply commit_outcome; [done|done|by rewrite Hd|done].
    + injection E as <- <-. split; [by eapply ok_kept|]. pose proof (kept_core _ _ K) as Hc. split; [by injection Hc|]. left. split; [done|]. intros _. left. by apply core_stays.
  - refine (row_outcome b _ _ _ s s' l Hok _ _ _ _ E); [by rewrite Hd|done|apply bcast_guard_kept|]. intros s1 s2 l2 Ea. apply bcastAM_kept in Ea as [? [->|[? ->]]]; split; eauto.
  - refine (row_outcome b _ _ _ s s' l Hok _ _ _ _ E); [by rewrite Hd|done|apply close_guard_kept|]. intros s1 s2 l2 Ea. apply close_kept in Ea as [? [->|[? ->]]]; split; eauto.
  - by eapply done_outcome.
Qed.

(** The second region, for the events that the first does not take *)
Lemma health_region env e b s s' l : ok b s → e ≠ DmtEndErrorEvt → fire (health_rows env (health s) e) with_health s = Ret (s', l) →
  ok b s' ∧ restarted s' = restarted s ∧ outcome s s' l.
Proof.
  intros Hok He E. destruct (error_outcome env b s Hok) as (s1 & l1 & E1 & Hok1 & Hr1 & Ho1 & _).
  destruct (health s) eqn:Hh, e; try done; try (cbn [health_rows fire] in E; injection E as <- <-; by apply none_outcome).
  - simpl in E. rewrite E1, bind_Ret in E. case_bool_decide; injection E as <- <-; [done|by apply none_outcome].
  - simpl in E. rewrite E1, bind_Ret in E. by injection E as <- <-.
  - simpl in E. apply bind_Ret_inv in E as ([s2 l2] & Ea & [= <- <-]). apply chk_kept in Ea as [K Hl]. pose proof K as [Hc Hd Hh2]. split; [|split].
    + apply (ok_move b s); try done; simpl; rewrite ?Hd; try done; [apply Hok|]. intros Hf _. by apply (ok_error _ _ Hok).
    + by injection Hc.
    + destruct Hl as [-> | ->]; [left; split; [done|]; intros _; left; by apply core_stays|]. right. left. split; [done|]. split; [done|]. intros _. by apply core_stays.
Qed.

(** The end of an error, in both regions *)
Lemma end_regions env b s : ok b s → health s = DST_Error → ∃ s', take env DmtEndErrorEvt s = Ret (s', []) ∧ ok b s' ∧ restarted s' = false ∧
  (restarted s = false → stays s s') ∧ target s' = DMT_VER_INVALID ∧ committed s' = committed s ∧ deploy s' = DST_Idle ∧ health s' = DST_AllOk.
Proof.
  intros Hok Hh. assert (∃ s1, fire (deploy_rows env (deploy s) DmtEndErrorEvt) with_deploy s = Ret (s1, []) ∧ core s1 = core s ∧ deploy s1 = DST_Idle ∧ health s1 = DST_Error ∧ ok b s1)
    as (s1 & E1 & Hc & Hd & Hh1 & Hok1).
  { assert (core (with_deploy DST_Idle s) = core s ∧ ok b (with_deploy DST_Idle s)) as [Hc Hok'].
    { split; [done|]. apply (ok_move b s); try done; simpl; [intros Hf Hx; by destruct Hx; apply (ok_error _ _ Hok)|intros Hf _; by apply (ok_error _ _ Hok)..]. }
    destruct (deploy s) eqn:Hd; eexists; (split; [done|]); done. }
  destruct (end_outcome b s1 Hok1 Hh1) as (s2 & E2 & Hok2 & Hr2 & Hst & Ht & Hcm & Hd2). injection Hc as Hm Hp Hs Hr.
  exists (with_health DST_AllOk s2). split.
  { unfold take, blocked. rewrite Hh. cbn [ends_interrupt negb]. rewrite E1, bind_Ret, Hh1. simpl. by rewrite E2. }
  split; [done|]. split; [done|]. split; [|split; [done|split; [by rewrite <-Hm|split; [simpl; congruence|done]]]].
  intros Hf. rewrite <-Hr in Hf. rewrite Hr in Hf. unfold stays in *. rewrite Hst by congruence. unfold fallback. by rewrite Hm, Hp.
Qed.

Lemma take_ok env e b s s' l : ok b s → b + 1 < uint64_max → e ≠ DmtEndErrorEvt → take env e s = Ret (s', l) →
  ok (b + cost e) s' ∧ restarted s' = restarted s ∧ outcome s s' l.
Proof.
  intros Hok Hb He E. assert (ok (b + cost e) s) as Hmore by (eapply ok_more; [|done]; destruct e; simpl; lia). unfold take in E.
  destruct (blocked s e) eqn:Hblk; [injection E as <- <-; by apply none_outcome|].
  assert (((∀ h, health_rows env h e = None) ∧ health s = DST_AllOk) ∨ (deploy_rows env (deploy s) e = None ∧ cost e = 0)) as Hrows.
  { unfold blocked in Hblk. destruct e; try done; try (right; by destruct (deploy s)); destruct (health s); try done; left; (split; [|done]); by intros []. }
  destruct Hrows as [[Hn Hh]|[Hn Hcost]].
  - apply bind_Ret_inv in E as ([s1 l1] & E1 & E).
    rewrite Hn in E. cbn [fire] in E. rewrite bind_Ret, app_nil_r in E. injection E as <- <-. by apply (deploy_region env).
  - rewrite Hn in E. cbn [fire] in E. rewrite bind_Ret in E. apply bind_Ret_inv in E as ([s1 l1] & E1 & [= <- <-]). rewrite Hcost, Z.add_0_r. by apply (health_region env e).
Qed.

(** Outcomes of a chain of events *)
Definition advance s s' : Prop := restarted s = false → restarted s' = false ∧ (stays s s' ∨ completed s s').

Lemma chain_ok env (fuel : nat) e b s s' : ok b s → b + cost e + 1 < uint64_max → e ≠ DmtEndErrorEvt → take_all env fuel [e] s = Ret s' →
  ok (b + cost e) s' ∧ advance s s'.
Proof.
  revert e b s. induction fuel as [|fuel IH]; intros e b s Hok Hb He E; [done|]. cbn [take_all] in E. apply bind_Ret_inv in E as ([s1 l] & Et & E). cbn [app] in E.
  assert (b + 1 < uint64_max) as Hb1 by (destruct e; simpl in Hb; lia). destruct (take_ok env e b s s1 l Hok Hb1 He Et) as (Hok1 & Hr1 & [[-> Hl]|[(-> & Hh1 & Hst)|(e' & -> & He' & Hcost & Hcore)]]).
  - destruct fuel; injection E as <-; (split; [done|]); intros Hf; split; auto; congruence.
  - destruct fuel as [|fuel]; [done|]. cbn [take_all] in E. destruct (end_regions env (b + cost e) s1 Hok1 Hh1) as (s2 & E2 & Hok2 & Hr2 & Hst2 & _).
    rewrite E2, bind_Ret in E. cbn [app] in E. assert (s2 = s') as -> by (destruct fuel; by injection E). split; [done|]. intros Hf. split; [done|]. left. unfold stays in *. rewrite Hst2 by congruence. auto.
  - destruct (IH e' (b + cost e) s1 Hok1 ltac:(lia) He' E) as [Hok2 Hadv]. rewrite Hcost, Z.add_0_r in Hok2. split; [done|]. intros Hf. injection Hcore as Hm Hp Hs Hr.
    destruct Hadv as [Hr2 Hc2]; [congruence|]. split; [done|]. unfold stays, completed, fallback in *. by rewrite Hm, Hp in Hc2.
Qed.

(** ** The end of an error *)
Lemma down_total env dms u s : dm_agent env u = true → ∃ s', down_if env dms u s = Ret s' ∧ acks s' = acks s.
Proof. intros Ha. unfold down_if, agent_of. rewrite Ha. case_decide; [|by eexists]. rewrite bind_Ret. by eexists. Qed.

(** What is waited for after an acknowledgement *)
Definition acked (a : bool) (w : Acks) : Acks :=
  if a then set_abort_acks (abortMigrAcksToWait w - 1) w
  else if decide (commitDmtAcksToWait w > 0) then set_rollback_acks (commitDmtAcksToWait w - 1) w else w.
Definition answered (w : Acks) : Prop := commitDmtAcksToWait w = 0 ∧ abortMigrAcksToWait w = 0.

Lemma chk_total env a u err s : dm_agent env u = true → (a = true → abortMigrAcksToWait (acks s) > 0) →
  ∃ s', DACT_ChkEndErr env a u err s = Ret (s', if decide (answered (acked a (acks s))) then [DmtEndErrorEvt] else []) ∧ kept s s' ∧ acks s' = acked a (acks s).
Proof.
  intros Ha Hw. assert (∃ s', DACT_ChkEndErr env a u err s = Ret (s', if decide (answered (acked a (acks s))) then [DmtEndErrorEvt] else []) ∧ acks s' = acked a (acks s)) as (s' & E & H).
  2: { exists s'. split; [done|]. split; [|done]. by apply chk_kept in E as [? _]. }
  unfold DACT_ChkEndErr.
  assert (∀ s1, acks s1 = acks s → ∃ s', (s ← (if a then _ ← fds_verify (bool_decide (abortMigrAcksToWait (acks s1) > 0)); Ret (with_acks (set_abort_acks (abortMigrAcksToWait (acks s1) - 1)) s1)
      else Ret (if decide (commitDmtAcksToWait (acks s1) > 0) then with_acks (set_rollback_acks (commitDmtAcksToWait (acks s1) - 1)) s1 else s1));
    Ret (s, if decide (commitDmtAcksToWait (acks s) = 0 ∧ abortMigrAcksToWait (acks s) = 0) then [DmtEndErrorEvt] else []))
    = Ret (s', if decide (answered (acked a (acks s))) then [DmtEndErrorEvt] else []) ∧ acks s' = acked a (acks s)) as Hrest.
  { intros s1 Hs1. unfold acked. rewrite Hs1. destruct a.
    - rewrite fds_verify_true by (by apply Hw). rewrite !bind_Ret. eexists. split; [simpl; by rewrite Hs1|]. simpl. by rewrite Hs1.
    - rewrite bind_Ret. destruct (decide (commitDmtAcksToWait (acks s) > 0)); (eexists; split; [simpl; rewrite ?Hs1; reflexivity|]); simpl; by rewrite Hs1. }
  destruct (decide (is_dm u = true ∧ _)); [|by apply Hrest].
  unfold ClusterMap.getAddedServices. rewrite bind_Ret. cbv zeta. destruct (down_total env (ClusterMap.addedDMs (cm s)) u s Ha) as (s1 & -> & H1). rewrite bind_Ret.
  destruct (down_total env (ClusterMap.getDmResyncServices (cm s)) u s1 Ha) as (s2 & -> & H2). rewrite bind_Ret. apply Hrest. congruence.
Qed.

(** An acknowledgement while an error is handled *)
Lemma recovery_chain env b a u err s : ok b s → health s = DST_Error → dm_agent env u = true → (a = true → abortMigrAcksToWait (acks s) > 0) →
  ∃ s', dmt_deploy_event env (DmtRecoveryEvt a u err) s = Ret s' ∧ committed s' = committed s ∧ ok b s' ∧
    if decide (answered (acked a (acks s))) then deploy s' = DST_Idle ∧ health s' = DST_AllOk ∧ target s' = DMT_VER_INVALID
    else health s' = DST_Error ∧ acks s' = acked a (acks s).
Proof.
  intros Hok Hh Ha Hw. destruct (chk_total env a u err s Ha Hw) as (s1 & E1 & Hk & Hacks). unfold dmt_deploy_event. cbn [take_all].
  assert (take env (DmtRecoveryEvt a u err) s = Ret (with_health DST_Error s1, if decide (answered (acked a (acks s))) then [DmtEndErrorEvt] else [])) as ->.
  { unfold take, blocked. rewrite Hh. cbn [ends_interrupt negb]. assert (deploy_rows env (deploy s) (DmtRecoveryEvt a u err) = None) as -> by (by destruct (deploy s)).
    cbn [fire]. rewrite bind_Ret, Hh. simpl. by rewrite E1. }
  rewrite bind_Ret. cbn [app]. assert (kept s (with_health DST_Error s1)) as Hk1 by (destruct Hk as [? ? ?]; by split).
  pose proof (ok_kept b _ _ Hok Hk1) as Hok1. pose proof (kept_core _ _ Hk1) as Hc. injection Hc as Hm _ _ _. destruct (decide (answered _)).
  - destruct (end_regions env b _ Hok1) as (s2 & -> & Hok2 & _ & _ & Ht & Hc & Hd & Hh2); [done|]. rewrite bind_Ret. cbn [app]. exists s2. split; [done|].
    split; [rewrite Hc; simpl; congruence|done].
  - eexists. split; [done|]. split; [simpl; congruence|]. by split.
Qed.

(** Acknowledgements that arrive one after the other: each with what the
    domain answers then, whether it is for the abort, its sender and its error *)
Definition recover (s : DmtDplyFSM.t) (x : Env (Desc := Desc) * bool * Z * fds_errno) : res DmtDplyFSM.t :=
  let '(env, a, u, err) := x in dmt_deploy_event env (DmtRecoveryEvt a u err) s.
Definition count_acks (a : bool) (l : list (Env (Desc := Desc) * bool * Z * fds_errno)) : Z := Z.of_nat (length (filter (λ x, x.1.1.2 = a) l)).

Lemma recoveries b l s : ok b s → health s = DST_Error → l ≠ [] → Forall (λ x, dm_agent x.1.1.1 x.1.2 = true) l →
  count_acks true l = abortMigrAcksToWait (acks s) → count_acks false l = commitDmtAcksToWait (acks s) →
  ∃ s', foldM recover s l = Ret s' ∧ deploy s' = DST_Idle ∧ health s' = DST_AllOk ∧ target s' = DMT_VER_INVALID ∧ committed s' = committed s.
Proof.
  intros Hok Hh Hl Hl'. revert s Hok Hh Hl. induction Hl' as [|[[[env a] u] err] l Ha _ IH]; intros s Hok Hh Hl Ht Hf; [done|]. clear Hl. rewrite foldM_cons. simpl in Ha.
  assert (∀ a', count_acks a' ((env, a, u, err) :: l) = count_acks a' l + if decide (a = a') then 1 else 0) as Hcount.
  { intros a'. unfold count_acks. rewrite filter_cons. cbn [fst snd]. destruct (decide (a = a')); simpl; lia. }
  rewrite Hcount in Ht, Hf. assert (∀ a', 0 ≤ count_acks a' l) as Hpos by (intros; unfold count_acks; lia). pose proof (Hpos true). pose proof (Hpos false).
  destruct (recovery_chain env b a u err s Hok Hh Ha) as (s1 & E & Hc & Hok1 & Hend).
  { intros ->. simpl in Ht. lia. }
  change (recover s (env, a, u, err)) with (dmt_deploy_event env (DmtRecoveryEvt a u err) s). rewrite E, bind_Ret. assert (count_acks true l = abortMigrAcksToWait (acked a (acks s)) ∧ count_acks false l = commitDmtAcksToWait (acked a (acks s))) as [Ht1 Hf1].
  { unfold acked. destruct a; simpl in *; [lia|]. rewrite decide_True by lia. simpl. lia. }
  destruct (decide (answered _)) as [[Hx Hy]|Hne].
  - rewrite Hx in Hf1. rewrite Hy in Ht1. assert (l = []) as ->.
    { destruct l as [|[[[? a'] ?] ?] l]; [done|]. unfold count_acks in Ht1, Hf1. rewrite filter_cons in Ht1, Hf1. cbn [fst snd] in Ht1, Hf1. by destruct a'. }
    exists s1. by destruct Hend as (? & ? & ?).
  - destruct Hend as [Hh1 Hw]. rewrite <-Hw in Ht1, Hf1. destruct (IH s1 Hok1 Hh1) as (s' & E' & H1 & H2 & H3 & H4); [|done|done|].
    + intros ->. destruct Hne. rewrite <-Hw. split; [by rewrite <-Hf1|by rewrite <-Ht1].
    + exists s'. by rewrite H4.
Qed.

(** After an error something is waited for, unless it is over. *)
Lemma error_waits env s s' : DACT_Error env s = Ret (s', []) → abortMigrAcksToWait (acks s') > 0 ∨ commitDmtAcksToWait (acks s') > 0.
Proof.
  unfold DACT_Error. destruct (VolumePlacement.hasNoTargetDmt _); [done|]. intros E. apply bind_Ret_inv in E as ([s1 rollback] & _ & E). cbv zeta in E.
  apply bind_Ret_inv in E as ([s2 n] & E2 & [= <- E]). case_decide as Hd; [done|]. destruct rollback.
  - apply bind_Ret_inv in E2 as ([s3 n3] & E3 & E2). apply bind_Ret_inv in E2 as ([s4 n4] & E4 & [= <- <-]). simpl.
    assert (acks s4 = acks s3 ∧ acks s3 = set_abort_acks (u32 (bcast_dm_migration_abort env (committed s1))) (acks s1)) as [-> ->]; [|simpl; unfold VolumePlacement.getCommittedDMTVersion in Hd; lia].
    unfold om_bcast_dmt in E3, E4. apply bind_Ret_inv in E3 as (? & _ & [= <- _]). by apply bind_Ret_inv in E4 as (? & _ & [= <- _]).
  - injection E2 as <- <-. simpl. unfold VolumePlacement.getCommittedDMTVersion in *. lia.
Qed.

(** The chain that an error starts ends, and so does the handling of the error
    when all services have answered. *)
Lemma error_chain env b s u err : ok b s → health s = DST_AllOk →
  ∃ s', dmt_deploy_event env (DmtErrorFoundEvt u err) s = Ret s' ∧ (restarted s = false → target s' = DMT_VER_INVALID ∧ committed s' = fallback (vp s)) ∧
    (deploy s' = DST_Idle ∧ health s' = DST_AllOk ∨
     health s' = DST_Error ∧ ∀ l, Forall (λ x, dm_agent x.1.1.1 x.1.2 = true) l →
       count_acks true l = abortMigrAcksToWait (acks s') → count_acks false l = commitDmtAcksToWait (acks s') →
       ∃ s'', foldM recover s' l = Ret s'' ∧ deploy s'' = DST_Idle ∧ health s'' = DST_AllOk ∧ target s'' = DMT_VER_INVALID ∧ committed s'' = committed s').
Proof.
  intros Hok Hh. destruct (error_outcome env b s Hok) as (s1 & l & E1 & Hok1 & Hr1 & Ho & Hfb). unfold dmt_deploy_event. cbn [take_all].
  assert (take env (DmtErrorFoundEvt u err) s = Ret (with_health DST_Error s1, l)) as ->.
  { unfold take, blocked. rewrite Hh. assert (deploy_rows env (deploy s) (DmtErrorFoundEvt u err) = None) as -> by (by destruct (deploy s)).
    cbn [fire]. rewrite bind_Ret, Hh. simpl. by rewrite E1. }
  rewrite bind_Ret. cbn [app]. destruct Ho as [[-> _]|[(-> & _ & _)|(e' & -> & He & _)]].
  - apply error_waits in E1. eexists. split; [done|]. split; [done|]. right. split; [done|]. intros l Hl Ht Hf. apply (recoveries b); try done.
    intros ->. unfold count_acks in *. simpl in *. lia.
  - destruct (end_regions env b _ Hok1) as (s2 & E2 & _ & _ & _ & Ht & Hc & Hd & Hh2); [done|]. rewrite E2, bind_Ret. cbn [app take_all]. eexists. split; [done|].
    split; [|by left]. intros Hf. split; [done|]. rewrite Hc. by apply Hfb.
  - exfalso. destruct (error_act_effect env s (ok_inv _ _ Hok) (ok_undo _ _ Hok)) as (s2 & l2 & E2 & [-> | ->] & _); rewrite E2 in E1; simplify_eq.
Qed.

(** ** Chains are short *)
(** How many events an event can start, itself included *)
Definition rank s e : nat :=
  match e with
  | DmtCommitAckEvt _ _ => match deploy s with DST_BcastAM => 3 | _ => 2 end
  | DmtVolAckEvt _ | DmtErrorFoundEvt _ _ | DmtUpEvt _ | DmtRecoveryEvt _ _ _ => 2
  | _ => 1
  end.

Lemma commit_raises env s s' l : DACT_Commit env s = Ret (s', l) → l = [].
Proof. unfold DACT_Commit. intros E. cbv zeta in E. apply bind_Ret_inv in E as (v & _ & E). by apply bind_Ret_inv in E as ([s1 n] & _ & [= _ <-]). Qed.

Lemma done_raises env s s' l : DACT_UpdDone env s = Ret (s', l) → l = [].
Proof.
  unfold DACT_UpdDone. intros E. apply bind_Ret_inv in E as ([[store v] e] & _ & E). cbv zeta in E. do 3 (apply bind_Ret_inv in E as (? & _ & E)).
  by apply bind_Ret_inv in E as (? & _ & [= _ <-]).
Qed.

Lemma error_raises env s s' l : DACT_Error env s = Ret (s', l) → l = [] ∨ l = [DmtEndErrorEvt].
Proof.
  unfold DACT_Error. destruct (VolumePlacement.hasNoTargetDmt _); [intros [= _ <-]; by right|]. intros E. apply bind_Ret_inv in E as ([s1 r] & _ & E). cbv zeta in E.
  apply bind_Ret_inv in E as ([s2 n] & _ & [= _ <-]). case_decide; auto.
Qed.

Lemma end_raises s s' l : DACT_EndError s = Ret (s', l) → l = [].
Proof. unfold DACT_EndError. intros E. cbv zeta in E. by apply bind_Ret_inv in E as (s1 & _ & [= _ <-]). Qed.

(** What is raised has a smaller rank than [n]. *)
Definition raises (n : nat) s' (l : list Evt) : Prop := l = [] ∨ ∃ e', l = [e'] ∧ (rank s' e' < n)%nat.

Lemma fire_raises {S} (n : nat) (next : S) (enter : S → DmtDplyFSM.t → DmtDplyFSM.t) action guard s s' l :
  (∀ s1 s2 l, action s1 = Ret (s2, l) → raises n (enter next s2) l) → fire (Some (next, action, guard)) enter s = Ret (s', l) → raises n s' l.
Proof.
  intros Ha E. simpl in E. apply bind_Ret_inv in E as ([s1 r] & _ & E). destruct r; [|injection E as _ <-; by left].
  apply bind_Ret_inv in E as ([s2 l2] & Ea & [= <- <-]). by eapply Ha.
Qed.

Lemma deploy_raises env e s s' l : fire (deploy_rows env (deploy s) e) with_deploy s = Ret (s', l) → raises (rank s e) s' l.
Proof.
  intros E. destruct e; destruct (deploy s) eqn:Hd; try (cbn [deploy_rows fire] in E; injection E as _ <-; by left); cbn [deploy_rows] in E;
    unfold rank; rewrite ?Hd; (eapply fire_raises; [|exact E]); intros s1 s2 l2 Ea.
  - apply waiting_kept in Ea as [_ ->]. by left.
  - apply commit_raises in Ea as ->. by left.
  - apply commit_raises in Ea as ->. by left.
  - apply bcastAM_kept in Ea as [_ [->|[v ->]]]; [by left|]. right. eexists. split; [done|]. simpl. lia.
  - apply close_kept in Ea as [_ [->|[v ->]]]; [by left|]. right. eexists. split; [done|]. simpl. lia.
  - apply done_raises in Ea as ->. by left.
  - apply rebalance_kept in Ea as [_ [-> | ->]]; [by left|]. right. eexists. split; [done|]. simpl. lia.
  - apply start_kept in Ea as [_ ->]. by left.
Qed.

Lemma health_raises env e s s' l : fire (health_rows env (health s) e) with_health s = Ret (s', l) → raises (rank s e) s' l.
Proof.
  intros E. destruct e; destruct (health s) eqn:Hh; try (cbn [health_rows fire] in E; injection E as _ <-; by left); cbn [health_rows] in E;
    (eapply fire_raises; [|exact E]); intros s1 s2 l2 Ea.
  - apply error_raises in Ea as [-> | ->]; [by left|]. right. eexists. split; [done|]. simpl. lia.
  - apply chk_kept in Ea as [_ [-> | ->]]; [by left|]. right. eexists. split; [done|]. simpl. lia.
  - apply error_raises in Ea as [-> | ->]; [by left|]. right. eexists. split; [done|]. simpl. lia.
  - apply end_raises in Ea as ->. by left.
Qed.

(** Only the end of an error is taken by both regions. *)
Lemma rows_disjoint env e d : e ≠ DmtEndErrorEvt → deploy_rows env d e = None ∨ ∀ h, health_rows env h e = None.
Proof. intros He. destruct e; try done; try (left; by destruct d); right; by intros []. Qed.

Lemma take_raises env e s s' l : take env e s = Ret (s', l) → raises (rank s e) s' l.
Proof.
  unfold take. destruct (blocked s e); [intros [= _ <-]; by left|]. intros E.
  assert (e = DmtEndErrorEvt ∨ e ≠ DmtEndErrorEvt) as [->|He] by (destruct e; auto).
  - apply bind_Ret_inv in E as ([s1 l1] & E1 & E). apply bind_Ret_inv in E as ([s2 l2] & E2 & [= <- <-]). apply deploy_raises in E1 as [->|(e1 & _ & H1)]; [|simpl in H1; destruct e1; simpl in H1; try lia; by case_match; lia].
    by apply health_raises in E2.
  - destruct (rows_disjoint env e (deploy s) He) as [Hn|Hn].
    + rewrite Hn in E. cbn [fire] in E. rewrite bind_Ret in E. apply bind_Ret_inv in E as ([s2 l2] & E2 & [= <- <-]). by apply health_raises in E2.
    + apply bind_Ret_inv in E as ([s1 l1] & E1 & E). rewrite Hn in E. cbn [fire] in E. rewrite bind_Ret, app_nil_r in E. injection E as <- <-. by apply deploy_raises in E1.
Qed.

Lemma chain_fuel env (fuel k : nat) e s : (rank s e ≤ fuel)%nat → take_all env (fuel + k) [e] s = take_all env fuel [e] s.
Proof.
  revert e s. induction fuel as [|fuel IH]; intros e s Hr; [by destruct e; simpl in Hr; try lia; case_match; lia|]. cbn [take_all Nat.add].
  destruct (take env e s) as [[s1 l]|] eqn:E; [|done]. rewrite !bind_Ret. cbn [app]. apply take_raises in E as [->|(e' & -> & Hr')]; [by destruct fuel, k|]. apply IH. lia.
Qed.

(** An event and the events that its actions raise come to an end: a chain
    has at most three events, so more fuel changes nothing. *)
Theorem events_end env (k : nat) e s : take_all env (3 + k) [e] s = dmt_deploy_event env e s.
Proof. apply chain_fuel. destruct e; simpl; try lia. case_match; lia. Qed.

(** ** Runs of the machine *)
Inductive step s s' : Prop :=
| step_event env e : e ≠ DmtEndErrorEvt → dmt_deploy_event env e s = Ret s' → step s s'.

(** The machine starts after the tables are loaded: there is no target, or an
    interrupted migration is to be aborted. *)
Record started b s : Prop := {
  st_deploy : deploy s = DST_Idle;
  st_health : health s = DST_AllOk;
  st_inv : DMTManager.inv (mgr s);
  st_bound : 0 ≤ committed s ≤ b ∧ 0 ≤ target s ≤ b ∧ 0 ≤ prev s ≤ b ∧ 1 ≤ start s ≤ b + 1;
  st_target : restarted s = false → target s = DMT_VER_INVALID;
}.

Lemma machine_started b s : started b s → ok b s.
Proof.
  intros [Hd Hh Hi Hb Ht]. split; try done; rewrite ?Hd, ?Hh; try done; auto.
  intros Hf Hx. by destruct Hx; apply Ht.
Qed.

Lemma machine_step b s s' : ok b s → b + 2 < uint64_max → step s s' → ok (b + 1) s' ∧ advance s s'.
Proof.
  intros Hok Hb [env e He E]. assert (0 ≤ cost e ≤ 1) as Hc by (destruct e; simpl; lia).
  destruct (chain_ok env 3 e b s s' Hok ltac:(lia) He E) as [H Hadv]. split; [|done]. eapply ok_more; [|done]. lia.
Qed.

Lemma machine_steps (n : nat) b s s' : ok b s → b + Z.of_nat n + 2 < uint64_max → nsteps step n s s' → ok (b + Z.of_nat n) s'.
Proof.
  intros Hok Hb H. revert b Hok Hb. induction H as [s|n s s1 s2 Hst Hn IH]; intros b Hok Hb; [by rewrite Z.add_0_r|].
  destruct (machine_step b s s1 Hok ltac:(lia) Hst) as [H1 _]. replace (b + Z.of_nat (S n)) with (b + 1 + Z.of_nat n) by lia. apply IH; [done|lia].
Qed.

(** C12. Whatever events arrive, in any order and with any answers of the
    domain, the versions of the DMT stay consistent: the manager's invariant
    holds, and when there is a committed version its table is there. *)
Theorem deploy_safe (n : nat) b s0 s : started b s0 → nsteps step n s0 s → b + Z.of_nat n + 2 < uint64_max →
  DMTManager.inv (mgr s) ∧
  (VolumePlacement.hasCommittedDMT (vp s) = true → ∃ d, VolumePlacement.committed_table (vp s) = Ret d ∧ DMT.version d = committed s).
Proof.
  intros Hs Hn Hb. pose proof (ok_inv _ _ (machine_steps n b s0 s (machine_started _ _ Hs) Hb Hn)) as Hinv. split; [done|].
  intros Hc%bool_decide_eq_true. destruct (DMTManager.inv_committed _ Hinv Hc) as [p Hp]. destruct (DMTManager.inv_entries _ Hinv _ _ Hp) as (d & -> & Hv & _).
  exists d. split; [|done]. unfold VolumePlacement.committed_table, VolumePlacement.getCommittedDMT, DMTManager.getDMT. by rewrite bind_Ret, Hp.
Qed.

(** C5. A deployment changes the committed version all at once, unless a
    migration that a restart has interrupted still waits to be aborted. The
    version to go back to is the committed one, or the one before it while the
    target is already committed. When no interrupted migration waits
    ([restarted] is false), an event from outside does not make one wait, and
    it does not change the version to go back to, except for the last event of
    a deployment: after it the machine is idle, there is no target and the
    former target is committed. (While an interrupted migration waits, the
    event that reports the loaded tables makes the version that was loaded the
    one to go back to; that case is left out. The numbers of versions are
    below 2^64.) *)
Theorem deploy_atomic (n : nat) b s0 s s' : started b s0 → nsteps step n s0 s → b + Z.of_nat n + 2 < uint64_max →
  step s s' → restarted s = false →
  restarted s' = false ∧
  (fallback (vp s') = fallback (vp s) ∨
   deploy s' = DST_Idle ∧ health s' = DST_AllOk ∧ target s' = DMT_VER_INVALID ∧ committed s' = committed s ∧ target s = committed s).
Proof. intros Hs Hn Hb Hst Hf. by destruct (machine_step _ _ _ (machine_steps n b s0 s (machine_started _ _ Hs) Hb Hn) ltac:(lia) Hst) as [_ [? ?]]. Qed.

(** C15. An error does not stop the machine: from every state it can be in
    without an error, an error is handled, whatever the domain answers.
    Afterwards there is no target, and the version to go back to is committed
    (after a restart in the middle of a migration, the tables stay until the
    migration is aborted). The machine is idle at once, or when as many
    services have answered as it waits for, in any order and with any error of
    known services, and the committed version stays. *)
Theorem error_recovers (n : nat) b s0 s env (u : Z) (err : fds_errno) : started b s0 → nsteps step n s0 s → b + Z.of_nat n + 2 < uint64_max →
  health s = DST_AllOk →
  ∃ s', dmt_deploy_event env (DmtErrorFoundEvt u err) s = Ret s' ∧
    (restarted s = false → target s' = DMT_VER_INVALID ∧ committed s' = fallback (vp s)) ∧
    (deploy s' = DST_Idle ∧ health s' = DST_AllOk ∨
     health s' = DST_Error ∧ ∀ l, Forall (λ x, dm_agent x.1.1.1 x.1.2 = true) l →
       count_acks true l = abortMigrAcksToWait (acks s') → count_acks false l = commitDmtAcksToWait (acks s') →
       ∃ s'', foldM recover s' l = Ret s'' ∧ deploy s'' = DST_Idle ∧ health s'' = DST_AllOk ∧ target s'' = DMT_VER_INVALID ∧ committed s'' = committed s').
Proof. intros Hs Hn Hb. by apply (error_chain env (b + Z.of_nat n)), (machine_steps n b s0 s (machine_started _ _ Hs) Hb Hn). Qed.
End Machine.

(** ** A deployment *)
(** Data manager 3 is added and 4 is removed; one data manager has to
    acknowledge the table and its close, and an abort. *)
#[local] Existing Instances ConfigDB.map_server ConfigDB.map_server_laws ConfigDB.binary_protocol_bytes.

Definition case_env : Env (Desc := unit) :=
  MakeEnv true false ([ClusterMap.Agent 3 3], [ClusterMap.Agent 4 4], []) (VolumePlacement.Dom case_state false [] (λ _ s, elements s)) elements
    (λ _, 0) (λ type _, match type with ClusterMap.FDSP_DATA_MGR => 1 | _ => 0 end) (λ _, 1) (λ _, 1) (λ _, true) [] (λ _ s, elements s)
    (λ pull, elements (dom pull)) (λ _ _, ERR_OK).
Definition case_machine : DmtDplyFSM.t :=
  Make DST_Idle DST_AllOk (MakeAcks ∅ ∅ 0 0 0 0 0)
    (ClusterMap.Make ∅ {[1 := ClusterMap.Agent 1 1; 2 := ClusterMap.Agent 2 2; 4 := ClusterMap.Agent 4 4]} ∅ ∅ ∅ ∅ ∅ 1)
    ∅ case_engine OmExtUtilApi.make case_store [].

Definition run (l : list Evt) (s : DmtDplyFSM.t) : res DmtDplyFSM.t := foldM (λ s e, dmt_deploy_event case_env e s) s l.

Definition case_events : list Evt :=
  [DmtDeployEvt false; DmtTimeoutEvt; DmtVolAckEvt 0; DmtCommitAckEvt 2 ClusterMap.FDSP_DATA_MGR; DmtCloseOkEvt 2].

Lemma run_steps (l : list Evt) (s s' : DmtDplyFSM.t) : run l s = Ret s' → Forall (λ e, e ≠ DmtEndErrorEvt) l → nsteps (step (Desc := unit)) (length l) s s'.
Proof.
  intros E Hl. revert s E. induction Hl as [|e l He _ IH]; intros s E; [injection E as <-; constructor|]. unfold run in E. rewrite foldM_cons in E.
  apply bind_Ret_inv in E as (s1 & E1 & E). econstructor; [by exists case_env e|by apply IH].
Qed.

Lemma case_started : started 1 case_machine.
Proof. split; [done|done|apply case_inv|simpl; unfold DMT_VER_INVALID; lia|done]. Qed.

(** Where the machine is after the first [n] events *)
Definition case_after (n : nat) : DmtDplyFSM.t := default case_machine (match run (firstn n case_events) case_machine with Ret s => Some s | Fault _ => None end).

Lemma case_returns (n : nat) : (n ≤ 5)%nat → run (firstn n case_events) case_machine = Ret (case_after n).
Proof.
  intros Hn. assert (match run (firstn n case_events) case_machine with Ret _ => true | Fault _ => false end = true) as Hr.
  { assert (n = 0 ∨ n = 1 ∨ n = 2 ∨ n = 3 ∨ n = 4 ∨ n = 5)%nat as [->|[->|[->|[->|[-> | ->]]]]] by lia; vm_compute; reflexivity. }
  unfold case_after. by destruct (run (firstn n case_events) case_machine).
Qed.

Lemma case_events_ok : Forall (λ e, e ≠ DmtEndErrorEvt) case_events.
Proof. by repeat constructor. Qed.

Lemma case_run (n : nat) : (n ≤ 5)%nat → nsteps (step (Desc := unit)) n case_machine (case_after n).
Proof.
  intros Hn. assert (length (firstn n case_events) = n) as Hl by (rewrite length_take; simpl; lia). rewrite <-Hl at 1. apply run_steps; [by apply case_returns|].
  apply Forall_take, case_events_ok.
Qed.

Lemma run_snoc (l : list Evt) e (s : DmtDplyFSM.t) : run (l ++ [e]) s = run l s ≫= dmt_deploy_event case_env e.
Proof.
  unfold run. rewrite foldM_app. destruct (foldM _ s l) as [s1|]; [|done]. rewrite !bind_Ret, foldM_cons. by destruct (dmt_deploy_event case_env e s1).
Qed.

#[local] Opaque case_after case_machine.

Lemma case_step (n : nat) : (n < 5)%nat → step (Desc := unit) (case_after n) (case_after (S n)).
Proof.
  intros Hn. destruct (lookup_lt_is_Some_2 case_events n) as [e He]; [done|]. exists case_env e; [by eapply (Forall_lookup_1 _ _ _ _ case_events_ok)|].
  pose proof (case_returns (S n) ltac:(lia)) as E. rewrite (take_S_r _ _ e He), run_snoc, (case_returns n) in E by lia. exact E.
Qed.

Lemma deploy_safe_witness : ∃ d, VolumePlacement.committed_table (vp (case_after 5)) = Ret d ∧ DMT.version d = 2.
Proof.
  destruct (deploy_safe (Desc := unit) 5 1 case_machine (case_after 5)) as [_ H]; [apply case_started|apply case_run; lia|unfold uint64_max; lia|].
  apply H. vm_compute. reflexivity.
Defined.

Lemma deploy_atomic_witness :
  fallback (vp (case_after 5)) = fallback (vp (case_after 4)) ∨
  deploy (case_after 5) = DST_Idle ∧ health (case_after 5) = DST_AllOk ∧ DMTManager.target_version (VolumePlacement.dmtMgr (vp (case_after 5))) = DMT_VER_INVALID ∧
  VolumePlacement.getCommittedDMTVersion (vp (case_after 5)) = VolumePlacement.getCommittedDMTVersion (vp (case_after 4)) ∧
  VolumePlacement.getTargetDMTVersion (vp (case_after 4)) = VolumePlacement.getCommittedDMTVersion (vp (case_after 4)).
Proof.
  destruct (deploy_atomic (Desc := unit) 4 1 case_machine (case_after 4) (case_after 5)) as [_ H];
    [apply case_started|apply case_run; lia|unfold uint64_max; lia|apply case_step; lia|vm_compute; reflexivity|exact H].
Defined.

Lemma error_recovers_witness : ∃ s' s'', dmt_deploy_event case_env (DmtErrorFoundEvt 1 ERR_DM_MIGRATION_ABORTED) (case_after 3) = Ret s' ∧
  dmt_deploy_event case_env (DmtRecoveryEvt true 66 ERR_SVC_REQUEST_TIMEOUT) s' = Ret s'' ∧
  VolumePlacement.getCommittedDMTVersion (vp s'') = 1 ∧ VolumePlacement.getTargetDMTVersion (vp s'') = DMT_VER_INVALID ∧
  deploy s'' = DST_Idle ∧ health s'' = DST_AllOk.
Proof.
  destruct (error_recovers 3 1 case_machine (case_after 3) case_env 1 ERR_DM_MIGRATION_ABORTED) as (s' & E & H & Hend);
    [apply case_started|apply case_run; lia|unfold uint64_max; lia|vm_compute; reflexivity|].
  assert (match dmt_deploy_event case_env (DmtErrorFoundEvt 1 ERR_DM_MIGRATION_ABORTED) (case_after 3) with
    Ret s' => match health s' with DST_Error => (abortMigrAcksToWait (acks s'), commitDmtAcksToWait (acks s')) | DST_AllOk => (0, 0) end | Fault _ => (0, 0) end = (1, 0)) as Hw by (vm_compute; reflexivity).
  rewrite E in Hw. destruct Hend as [[_ Hh]|[Hh Hend]]; rewrite Hh in Hw; [done|]. injection Hw as Ha Hc.
  destruct (Hend [(case_env, true, 66, ERR_SVC_REQUEST_TIMEOUT)]) as (s'' & E' & Hd & Hh' & Ht & Hcm); [by repeat constructor|by rewrite Ha|by rewrite Hc|].
  destruct H as [_ Hc']; [vm_compute; reflexivity|]. exists s', s''. split; [exact E|]. split; [|split; [|split; [exact Ht|split; [exact Hd|exact Hh']]]].
  - rewrite foldM_cons in E'. apply bind_Ret_inv in E' as (s1 & E' & [= <-]). exact E'.
  - etransitivity; [exact Hcm|]. etransitivity; [exact Hc'|]. vm_compute; reflexivity.
Defined.
