(* ===== verification/BufferReplay.v ===== *)
(** * Buffering and replay of operations

    While a replica of a volume synchronises, the operations it is sent are
    written to a file and replayed in batches afterwards
    (src/source/lib/misc/BufferReplay.cpp, include/BufferReplay.h).  The file
    gives back what was written.  What the thrift serializer answers to a write,
    and which operations can be read back, is given with the call; it reports a
    failure by an exception, which nobody catches but the thread pool, and that
    ends the process.  Callbacks and tasks of the thread pool are results of the
    operations: [replayWork_] runs in two parts, each under the lock, with the
    callback that replays a batch in between. *)

From S2P Require Import Prelude.
Open Scope Z_scope.

Module BufferReplay.

Record Op := MakeOp { opId : Z; type : Z; payload : list Z }.

Inductive Progress := IDLE | BUFFERING | BUFFERING_REPLAYING | REPLAY_CAUGHTUP | ABORTED | COMPLETE.

#[export] Instance Progress_eq_dec : EqDecision Progress.
Proof. solve_decision. Defined.

Record t := Make {
  file : list Op;
  startingOpId_ : Z;
  nBufferedOps_ : Z;
  nReplayOpsIssued_ : Z;
  nOutstandingReplayOps_ : Z;
  replayWorkPosted_ : bool;
  maxReplayCnt_ : Z;
  progress_ : Progress;
}.

Definition with_progress (p : Progress) (b : t) : t :=
  Make (file b) (startingOpId_ b) (nBufferedOps_ b) (nReplayOpsIssued_ b) (nOutstandingReplayOps_ b) (replayWorkPosted_ b) (maxReplayCnt_ b) p.
Definition with_posted (p : bool) (b : t) : t :=
  Make (file b) (startingOpId_ b) (nBufferedOps_ b) (nReplayOpsIssued_ b) (nOutstandingReplayOps_ b) p (maxReplayCnt_ b) (progress_ b).
Definition with_ops (issued outstanding : Z) (b : t) : t :=
  Make (file b) (startingOpId_ b) (nBufferedOps_ b) issued outstanding (replayWorkPosted_ b) (maxReplayCnt_ b) (progress_ b).

Section Build.
Variable debug : bool.

(** The constructor does not set [replayWorkPosted_]. *)
Definition make (maxReplayCnt : Z) (uninitialized : bool) : t := Make [] (-1) 0 0 0 uninitialized maxReplayCnt IDLE.

(** [opened] is what opening the file and its serializers results in. *)
Definition init (opened : fds_errno) (b : t) : t * fds_errno :=
  if decide (opened = ERR_OK) then (with_progress BUFFERING b, ERR_OK) else (b, opened).

(** The callbacks that are made *)
Definition abort (b : t) : t * list Progress :=
  (with_progress ABORTED b, if decide (progress_ b = BUFFERING) then [ABORTED] else []).

(** [written] is what the serializer answers: a number of bytes or an
    exception. *)
Definition buffer (written : res Z) (op : Op) (b : t) : res (t * fds_errno) :=
  match progress_ b with
  | ABORTED => Ret (b, ERR_ABORTED)
  | REPLAY_CAUGHTUP | COMPLETE => Ret (b, ERR_UNAVAILABLE)
  | IDLE => Fault NullDeref
  | BUFFERING | BUFFERING_REPLAYING =>
      ret ← written;
      if decide (ret < Z.of_nat (length (payload op))) then Ret (with_progress ABORTED b, ERR_DISK_WRITE_FAILED)
      else
        Ret (Make (file b ++ [op]) (if decide (nBufferedOps_ b = 0) then opId op else startingOpId_ b) (nBufferedOps_ b + 1)
               (nReplayOpsIssued_ b) (nOutstandingReplayOps_ b) (replayWorkPosted_ b) (maxReplayCnt_ b) (progress_ b), ERR_OK)
  end.

(** Whether [replayWork_] is scheduled *)
Definition startReplay (b : t) : t * bool :=
  if decide (progress_ b = ABORTED) then (b, false)
  else (with_posted true (with_progress BUFFERING_REPLAYING b), true).

Definition replaying (p : Progress) : bool :=
  match p with BUFFERING_REPLAYING | REPLAY_CAUGHTUP | ABORTED => true | _ => false end.

(** Whether [replayWork_] is scheduled *)
Definition notifyOpsReplayed (cnt : Z) (b : t) : res (t * bool) :=
  let b := with_ops (nReplayOpsIssued_ b) (nOutstandingReplayOps_ b - cnt) b in
  _ ← fds_assert debug (negb (replayWorkPosted_ b));
  _ ← fds_assert debug (bool_decide (0 ≤ nOutstandingReplayOps_ b));
  _ ← fds_assert debug (replaying (progress_ b));
  let b := if decide (nOutstandingReplayOps_ b = 0) then with_posted true b else b in
  Ret (b, replayWorkPosted_ b).

Definition getOutstandingReplayOpsCnt (b : t) : Z := nOutstandingReplayOps_ b.

(** The batch of operations that is read from the file.  Reading throws when
    an operation is not readable; the result of [readString] is unsigned, so the
    test [ret < 0] after it never holds. *)
Fixpoint read_few (fuel : nat) (readable : Z → bool) (b : t) (replayList : list Op) : res (list Op) :=
  if decide (nReplayOpsIssued_ b + Z.of_nat (length replayList) < nBufferedOps_ b ∧ Z.of_nat (length replayList) < maxReplayCnt_ b) then
    match fuel with
    | O => Fault OutOfFuel
    | S fuel =>
        let pos := nReplayOpsIssued_ b + Z.of_nat (length replayList) in
        match file b !! Z.to_nat pos with
        | Some op => if readable pos then read_few fuel readable b (replayList ++ [op]) else Fault ProtocolException
        | None => Fault ProtocolException
        end
    end
  else Ret replayList.

(** What the first part of [replayWork_] leads to *)
Inductive Work := WorkAborted | WorkComplete | WorkReplay (replayIdx : Z) (ops : list Op).

Definition replayWork_read (readable : Z → bool) (b : t) : res (t * Work) :=
  _ ← fds_assert debug (bool_decide (nOutstandingReplayOps_ b = 0));
  _ ← fds_assert debug (replayWorkPosted_ b);
  _ ← fds_assert debug (replaying (progress_ b));
  let b := with_posted false b in
  if decide (progress_ b = ABORTED) then Ret (b, WorkAborted)
  else if decide (nBufferedOps_ b = nReplayOpsIssued_ b) then Ret (with_progress COMPLETE b, WorkComplete)
  else
    replayList ← read_few (Z.to_nat (maxReplayCnt_ b)) readable b [];
    let n := Z.of_nat (length replayList) in
    Ret (with_ops (nReplayOpsIssued_ b + n) n b, WorkReplay (nReplayOpsIssued_ b) replayList).

(** The second part; whether replay has caught up *)
Definition replayWork_check (b : t) : t * bool :=
  if decide (progress_ b = ABORTED) then (b, false)
  else if decide (nReplayOpsIssued_ b = nBufferedOps_ b) then (with_progress REPLAY_CAUGHTUP b, true)
  else (b, false).

End Build.

(** ** The client and the thread pool *)
Inductive Callback := progressCb (p : Progress) | replayOpsCb (replayIdx : Z) (ops : list Op).

(** Scheduled tasks, whether one of them is between its two parts, and the
    callbacks made so far *)
Record sys := Sys { obj : t; tasks : Z; running : bool; calls : list Callback }.

Definition replayed (l : list Callback) : list Op := flat_map (λ c, match c with replayOpsCb _ ops => ops | _ => [] end) l.

Section Steps.
Variable debug : bool.

(** What the thread pool and the acknowledgements of the client do.  A task
    runs when the one before it has ended; the client acknowledges operations
    that it was given. *)
Inductive work : sys → sys → Prop :=
| work_read readable b n cs b' w :
    0 < n → replayWork_read debug readable b = Ret (b', w) →
    work (Sys b n false cs)
      (Sys b' (n - 1) (match w with WorkReplay _ _ => true | _ => false end)
         (cs ++ [match w with WorkAborted => progressCb ABORTED | WorkComplete => progressCb COMPLETE | WorkReplay i ops => replayOpsCb i ops end]))
| work_check b n cs b' caught :
    replayWork_check b = (b', caught) →
    work (Sys b n true cs) (Sys b' n false (cs ++ if caught : bool then [progressCb REPLAY_CAUGHTUP] else []))
| work_notify cnt b n r cs b' posted :
    0 < cnt ≤ nOutstandingReplayOps_ b → notifyOpsReplayed debug cnt b = Ret (b', posted) →
    work (Sys b n r cs) (Sys b' (if posted : bool then n + 1 else n) r cs).

(** Everything that can happen once the file is open; replay is started once. *)
Inductive step : sys → sys → Prop :=
| step_work s s' : work s s' → step s s'
| step_buffer written op b n r cs b' e : buffer written op b = Ret (b', e) → step (Sys b n r cs) (Sys b' n r cs)
| step_abort b n r cs b' l : abort b = (b', l) → step (Sys b n r cs) (Sys b' n r (cs ++ (progressCb <$> l)))
| step_start b n r cs b' sched : progress_ b = BUFFERING ∨ progress_ b = ABORTED →
    startReplay b = (b', sched) → step (Sys b n r cs) (Sys b' (if sched : bool then n + 1 else n) r cs).

Definition opened (max : Z) (posted : bool) : sys := Sys (init ERR_OK (make max posted)).1 0 false [].

(** ** What always holds *)
(** Callbacks that end a replay *)
Definition final (c : Callback) : bool := match c with progressCb (COMPLETE | ABORTED) => true | _ => false end.
Definition finals (l : list Callback) : Z := Z.of_nat (length (filter (λ c, final c = true) l)).

(** Batches follow each other, have operations and are not too large. *)
Fixpoint batches (max n : Z) (l : list Callback) : Prop :=
  match l with
  | [] => True
  | replayOpsCb i ops :: l => i = n ∧ 0 < Z.of_nat (length ops) ≤ max ∧ batches max (n + Z.of_nat (length ops)) l
  | progressCb _ :: l => batches max n l
  end.

(** A task is scheduled or operations are outstanding. *)
Definition active (s : sys) : Prop :=
  finals (calls s) = 0 ∧
  (nOutstandingReplayOps_ (obj s) = 0 ∧ tasks s = 1 ∧ replayWorkPosted_ (obj s) = true ∨
   0 < nOutstandingReplayOps_ (obj s) ∧ tasks s = 0 ∧ replayWorkPosted_ (obj s) = false).
Definition idle (s : sys) : Prop := nOutstandingReplayOps_ (obj s) = 0 ∧ tasks s = 0 ∧ running s = false ∧ finals (calls s) ≤ 1.
Definition all_issued (b : t) : Prop := nReplayOpsIssued_ b = nBufferedOps_ b.

Definition phase (s : sys) : Prop :=
  match progress_ (obj s) with
  | IDLE => False
  | BUFFERING => idle s ∧ nReplayOpsIssued_ (obj s) = 0 ∧ calls s = []
  | BUFFERING_REPLAYING => active s
  | REPLAY_CAUGHTUP => active s ∧ all_issued (obj s)
  | COMPLETE => idle s ∧ finals (calls s) = 1 ∧ all_issued (obj s)
  | ABORTED => active s ∨ idle s
  end.

Record inv (max : Z) (s : sys) : Prop := {
  inv_file : nBufferedOps_ (obj s) = Z.of_nat (length (file (obj s)));
  inv_issued : 0 ≤ nReplayOpsIssued_ (obj s) ≤ nBufferedOps_ (obj s);
  inv_max : maxReplayCnt_ (obj s) = max;
  inv_replayed : replayed (calls s) = firstn (Z.to_nat (nReplayOpsIssued_ (obj s))) (file (obj s));
  inv_batches : batches max 0 (calls s);
  inv_phase : phase s;
  inv_complete : progressCb COMPLETE ∈ calls s → all_issued (obj s) ∧ idle s ∧ (progress_ (obj s) = COMPLETE ∨ progress_ (obj s) = ABORTED);
}.

Lemma replayed_app (l l' : list Callback) : replayed (l ++ l') = replayed l ++ replayed l'.
Proof. apply flat_map_app. Qed.

Lemma finals_app (l l' : list Callback) : finals (l ++ l') = finals l + finals l'.
Proof. unfold finals. rewrite filter_app, length_app. lia. Qed.

Lemma batches_app (max n : Z) (l l' : list Callback) : batches max n (l ++ l') ↔ batches max n l ∧ batches max (n + Z.of_nat (length (replayed l))) l'.
Proof.
  revert n. induction l as [|[p|i ops] l IH]; intros n; simpl.
  - rewrite Z.add_0_r. tauto.
  - apply IH.
  - rewrite IH, length_app. replace (n + Z.of_nat (length ops) + Z.of_nat (length (replayed l))) with (n + Z.of_nat (length ops + length (replayed l))) by lia. tauto.
Qed.

(** The loop reads the next operations of the file. *)
Lemma read_few_spec (fuel : nat) (readable : Z → bool) (b : t) (l : list Op) r :
  nBufferedOps_ b = Z.of_nat (length (file b)) → 0 ≤ nReplayOpsIssued_ b →
  l = firstn (length l) (skipn (Z.to_nat (nReplayOpsIssued_ b)) (file b)) → read_few fuel readable b l = Ret r →
  r = firstn (length r) (skipn (Z.to_nat (nReplayOpsIssued_ b)) (file b)) ∧ (length l ≤ length r)%nat ∧
  (Z.of_nat (length l) ≤ maxReplayCnt_ b → Z.of_nat (length r) ≤ maxReplayCnt_ b) ∧
  (nReplayOpsIssued_ b < nBufferedOps_ b → 0 < maxReplayCnt_ b → (0 < length r)%nat).
Proof.
  intros Hn Hi. revert l. induction fuel as [|fuel IH]; intros l Hl E; cbn [read_few] in E; case_decide as Hd.
  - done.
  - injection E as <-. split_and!; [done|lia|done|]. intros H1 H2. destruct l; simpl in *; [lia|lia].
  - destruct (file b !! _) as [op|] eqn:Hop.
    2: { done. }
    destruct (readable _); [|done].
    assert (Z.to_nat (nReplayOpsIssued_ b + Z.of_nat (length l)) = (Z.to_nat (nReplayOpsIssued_ b) + length l)%nat) as Hpos by lia. rewrite Hpos in Hop.
    apply IH in E.
    + rewrite length_app in E. simpl in E. destruct E as (H1 & H2 & H3 & H4). split_and!; [done|lia|intros; apply H3; lia|lia].
    + rewrite length_app. simpl. replace (length l + 1)%nat with (S (length l)) by lia. rewrite (take_S_r _ _ op) by (by rewrite lookup_drop). by rewrite <-Hl.
  - injection E as <-. split_and!; [done|lia|done|]. intros H1 H2. destruct l; simpl in *; lia.
Qed.

Lemma finals_none (l : list Callback) : finals l = 0 → progressCb COMPLETE ∉ l.
Proof.
  unfold finals. intros Hl Hin. assert (progressCb COMPLETE ∈ filter (λ c, final c = true) l) as Hf by (by apply list_elem_of_filter).
  destruct (filter _ l); [by apply elem_of_nil in Hf|done].
Qed.

(** What is being done when a task is scheduled or operations are outstanding *)
Lemma active_phase (max : Z) (s : sys) : inv max s → 0 < tasks s ∨ 0 < nOutstandingReplayOps_ (obj s) → 
  active s ∧ replaying (progress_ (obj s)) = true ∧ (progress_ (obj s) = REPLAY_CAUGHTUP → all_issued (obj s)).
Proof.
  intros [_ _ _ _ _ Hp _] H. unfold phase in Hp. destruct (progress_ (obj s)); unfold idle in *; try done; try lia; try tauto; destruct Hp as [?|?]; try lia; done.
Qed.

(** A callback without operations *)
Lemma inv_call (max : Z) (l : list Callback) (p : Progress) :
  replayed (l ++ [progressCb p]) = replayed l ∧ (batches max 0 l → batches max 0 (l ++ [progressCb p])) ∧
  finals (l ++ [progressCb p]) = finals l + if final (progressCb p) then 1 else 0.
Proof.
  split_and!; [rewrite replayed_app; by simpl; rewrite app_nil_r|intros; by apply batches_app|rewrite finals_app; by destruct p].
Qed.

(** The first part of a task *)
Lemma read_inv (max : Z) readable (b b' : t) (n : Z) (cs : list Callback) (w : Work) : 0 < max → inv max (Sys b n false cs) → 0 < n →
  replayWork_read debug readable b = Ret (b', w) →
  inv max (Sys b' (n - 1) (match w with WorkReplay _ _ => true | _ => false end)
    (cs ++ [match w with WorkAborted => progressCb ABORTED | WorkComplete => progressCb COMPLETE | WorkReplay i ops => replayOpsCb i ops end])).
Proof.
  intros Hmax Hinv Hn E. destruct (active_phase _ _ Hinv (or_introl Hn)) as ((Hf & Ha) & Hr & Hcu). simpl in *. destruct Ha as [(Ho & -> & Hposted)|(_ & ? & _)]; [|lia].
  destruct Hinv as [If Ii Im Ir Ib _ _]. simpl in *. pose proof (finals_none _ Hf) as Hnone. destruct (inv_call max cs ABORTED) as (A1 & A2 & A3). destruct (inv_call max cs COMPLETE) as (C1 & C2 & C3).
  unfold replayWork_read in E. cbv zeta in E. do 3 (apply bind_Ret_inv in E as ([] & _ & E)).
  destruct (decide (progress_ (with_posted false b) = ABORTED)) as [Hp|Hp]; [|destruct (decide (nBufferedOps_ (with_posted false b) = _)) as [Hall|Hall]]; simpl in *.
  - injection E as <- <-. split; simpl; auto; try congruence.
    + unfold phase. simpl. rewrite Hp. right. unfold idle. simpl. rewrite A3, Hf. by cbn.
    + rewrite elem_of_app, list_elem_of_singleton. by intros [?|?].
  - injection E as <- <-. assert (idle (Sys (with_progress COMPLETE (with_posted false b)) 0 false (cs ++ [progressCb COMPLETE]))) as Hidle.
    { unfold idle. simpl. rewrite C3, Hf. by cbn. }
    split; simpl; auto; try congruence.
    + unfold phase. simpl. split; [done|]. split; [by rewrite C3, Hf|by symmetry].
    + intros _. split_and!; [by symmetry|done|by left].
  - apply bind_Ret_inv in E as (ops & E & E'); injection E' as <- <-.
    apply read_few_spec in E as (Hops & _ & Hlen & Hpos); simpl in *; [|done|lia|done].
    assert (0 < length ops)%nat as Hpos' by (apply Hpos; lia). assert (Z.of_nat (length ops) ≤ max) as Hlen' by (rewrite <-Im; apply Hlen; lia).
    assert (Z.to_nat (nReplayOpsIssued_ b) + length ops ≤ length (file b))%nat as Hfit by (rewrite Hops, length_take, length_drop; lia).
    split; simpl; try done.
    + lia.
    + rewrite replayed_app, Ir. simpl. rewrite app_nil_r. replace (Z.to_nat (nReplayOpsIssued_ b + Z.of_nat (length ops))) with (Z.to_nat (nReplayOpsIssued_ b) + length ops)%nat by lia.
      by rewrite <-take_take_drop, <-Hops.
    + apply batches_app. split; [done|]. rewrite Ir, length_take. simpl. split_and!; [lia|lia|done|done].
    + unfold phase, active. simpl. rewrite finals_app, Hf. destruct (progress_ b); try done; [|by destruct Hall; symmetry; apply Hcu].
      split; [done|]. right. lia.
    + rewrite elem_of_app, list_elem_of_singleton. by intros [?|?].
Qed.

(** The second part *)
Lemma check_inv (max : Z) (b b' : t) (n : Z) (cs : list Callback) (caught : bool) : inv max (Sys b n true cs) → replayWork_check b = (b', caught) →
  inv max (Sys b' n false (cs ++ if caught then [progressCb REPLAY_CAUGHTUP] else [])).
Proof.
  intros [If Ii Im Ir Ib Ip Ic] E. destruct (inv_call max cs REPLAY_CAUGHTUP) as (A1 & A2 & A3). unfold replayWork_check in E.
  assert (progressCb COMPLETE ∉ cs) as Hnone by (intros Hin; by destruct (Ic Hin) as (_ & (_ & _ & ? & _) & _)).
  destruct (decide (progress_ b = ABORTED)) as [Hp|Hp]; [|destruct (decide (nReplayOpsIssued_ b = nBufferedOps_ b)) as [Hall|Hall]]; injection E as <- <-; simpl in *; rewrite ?app_nil_r.
  - split; simpl; try done. unfold phase in *. simpl in *. rewrite Hp in *. destruct Ip as [Ip|(_ & _ & ? & _)]; [by left|done].
  - split; simpl; auto; try congruence.
    + unfold phase in *. simpl in *. assert (active (Sys b n true cs)) as [Hf Ha].
      { destruct (progress_ b); try done; [destruct Ip as [(_ & _ & ? & _) _]; done|by destruct Ip as [? _]|destruct Ip as [(_ & _ & ? & _) _]; done]. }
      split; [|done]. split; [|done]. simpl in *. by rewrite A3, Hf.
    + rewrite elem_of_app, list_elem_of_singleton. by intros [?|?].
  - split; simpl; try done. unfold phase in *. simpl in *. destruct (progress_ b); try done; try (by destruct Ip as [(_ & _ & ? & _) _]).
Qed.

(** Acknowledgements *)
Lemma notify_inv (max : Z) (cnt : Z) (b b' : t) (n : Z) (r : bool) (cs : list Callback) (posted : bool) : inv max (Sys b n r cs) →
  0 < cnt ≤ nOutstandingReplayOps_ b → notifyOpsReplayed debug cnt b = Ret (b', posted) → inv max (Sys b' (if posted then n + 1 else n) r cs).
Proof.
  intros Hinv Hc E. destruct (active_phase _ _ Hinv) as ((Hf & Ha) & Hr & Hcu); [simpl; lia|]. simpl in *. destruct Ha as [(? & _)|(_ & -> & Hposted)]; [lia|].
  destruct Hinv as [If Ii Im Ir Ib _ _]. simpl in *. unfold notifyOpsReplayed in E. cbv zeta in E. do 3 (apply bind_Ret_inv in E as ([] & _ & E)). injection E as <- <-.
  assert (∀ b'' n'', b'' = (if decide (nOutstandingReplayOps_ b - cnt = 0) then with_posted true (with_ops (nReplayOpsIssued_ b) (nOutstandingReplayOps_ b - cnt) b)
    else with_ops (nReplayOpsIssued_ b) (nOutstandingReplayOps_ b - cnt) b) → n'' = (if replayWorkPosted_ b'' then 1 else 0) → inv max (Sys b'' n'' r cs)) as H; [|by apply H].
  intros b'' n'' -> ->. assert (∀ bb, active bb → progress_ (obj bb) = progress_ b → (all_issued b → all_issued (obj bb)) → phase bb) as Hphase.
  { intros bb Hact Hp Hall. unfold phase. rewrite Hp. destruct (progress_ b); try done; [|by left]. split; [done|]. by apply Hall, Hcu. }
  pose proof (finals_none _ Hf) as Hnone. destruct (decide (nOutstandingReplayOps_ b - cnt = 0)) as [Hz|Hz]; simpl; rewrite ?Hposted; (split; simpl; try done); apply Hphase; try done; split; simpl; try done; [left|right]; split_and!; try done; lia.
Qed.

Lemma work_inv (max : Z) (s s' : sys) : 0 < max → inv max s → work s s' → inv max s'.
Proof. intros Hmax Hinv Hw. destruct Hw; [by eapply read_inv|by eapply check_inv|by eapply notify_inv]. Qed.

Lemma buffer_inv (max : Z) written op (b b' : t) (n : Z) (r : bool) (cs : list Callback) e : inv max (Sys b n r cs) → buffer written op b = Ret (b', e) → inv max (Sys b' n r cs).
Proof.
  intros Hinv E. unfold buffer in E. destruct (progress_ b) eqn:Hp; try (by injection E as <- _); try done; destruct Hinv as [If Ii Im Ir Ib Ip Ic]; simpl in *;
    (assert (progressCb COMPLETE ∉ cs) as Hnone by (intros Hin; destruct (Ic Hin) as (_ & _ & [?|?]); congruence));
    unfold phase in Ip; simpl in Ip; rewrite Hp in Ip; apply bind_Ret_inv in E as (ret & _ & E); case_decide; injection E as <- _; (split; simpl; try done).
  - unfold phase. simpl. right. by destruct Ip as [? _].
  - rewrite length_app. simpl. lia.
  - lia.
  - rewrite take_app_le by lia. done.
  - by left.
  - rewrite length_app. simpl. lia.
  - lia.
  - rewrite take_app_le by lia. done.
Qed.

Lemma abort_inv (max : Z) (b b' : t) (n : Z) (r : bool) (cs : list Callback) l : inv max (Sys b n r cs) → abort b = (b', l) → inv max (Sys b' n r (cs ++ (progressCb <$> l))).
Proof.
  intros [If Ii Im Ir Ib Ip Ic] E. unfold abort in E. injection E as <- <-. simpl in *. unfold phase in Ip. simpl in Ip. destruct (decide (progress_ b = BUFFERING)) as [Hp|Hp].
  - rewrite Hp in Ip. unfold idle in Ip. simpl in Ip. destruct Ip as ((Ho & -> & -> & _) & Hi & ->). split; simpl in *; try done.
    + unfold phase. simpl. right. by split_and!.
    + by rewrite list_elem_of_singleton.
  - simpl. rewrite app_nil_r. split; simpl; try done.
    + unfold phase. simpl. destruct (progress_ b); try done; [by left|by left; destruct Ip|by right; destruct Ip].
    + intros Hin. destruct (Ic Hin) as (Ha & Hi & _). split_and!; [done|done|by right].
Qed.

Lemma start_inv (max : Z) (b b' : t) (n : Z) (r : bool) (cs : list Callback) (sched : bool) : inv max (Sys b n r cs) →
  progress_ b = BUFFERING ∨ progress_ b = ABORTED → startReplay b = (b', sched) → inv max (Sys b' (if sched then n + 1 else n) r cs).
Proof.
  intros Hinv Hp E. unfold startReplay in E. case_decide as Hd; injection E as <- <-; [done|]. destruct Hp as [Hp|]; [|done].
  destruct Hinv as [If Ii Im Ir Ib Ip Ic]. unfold phase in Ip. simpl in *. rewrite Hp in Ip. unfold idle in Ip. simpl in Ip. destruct Ip as ((Ho & -> & -> & _) & Hi & ->). split; simpl in *; try done.
  - unfold phase. simpl. split; [done|]. by left.
  - by intros ?%elem_of_nil.
Qed.

Lemma replay_step_inv (max : Z) (s s' : sys) : 0 < max → inv max s → step s s' → inv max s'.
Proof. intros Hmax Hinv Hs. destruct Hs; [by eapply work_inv|by eapply buffer_inv|by eapply abort_inv|by eapply start_inv]. Qed.

Lemma opened_inv (max : Z) (posted : bool) : inv max (opened max posted).
Proof. split; simpl; try done. by intros ?%elem_of_nil. Qed.

Lemma reachable_inv (max : Z) (posted : bool) (s : sys) : 0 < max → rtc step (opened max posted) s → inv max s.
Proof.
  intros Hmax Hr. assert (∀ s0, inv max s0 → rtc step s0 s → inv max s) as H; [|by eapply H; [apply opened_inv|]].
  clear Hr. intros s0 H0 Hr. induction Hr as [|s0 s1 s2 Hs _ IH]; [done|]. by eapply IH, replay_step_inv.
Qed.

(** C9. Operations are replayed in the order in which they were buffered, each
    once, whatever the interleaving of buffering, replay, acknowledgements and
    aborts: the callbacks of a replay got the first operations of the file, in
    batches that follow each other. Once an operation is refused because
    replay has caught up, or replay is complete, all operations have been
    handed out, and when completion is reported all have been acknowledged.
    The end of a replay is reported at most once. *)
Theorem replay_in_order (max : Z) (posted : bool) (s : sys) : 0 < max → rtc step (opened max posted) s →
  replayed (calls s) = firstn (length (replayed (calls s))) (file (obj s)) ∧ batches max 0 (calls s) ∧ finals (calls s) ≤ 1 ∧
  (∀ written op, buffer written op (obj s) = Ret (obj s, ERR_UNAVAILABLE) → replayed (calls s) = file (obj s)) ∧
  (progressCb COMPLETE ∈ calls s → replayed (calls s) = file (obj s) ∧ nOutstandingReplayOps_ (obj s) = 0).
Proof.
  intros Hmax Hr. destruct (reachable_inv _ _ _ Hmax Hr) as [If Ii Im Ir Ib Ip Ic]. assert (all_issued (obj s) → replayed (calls s) = file (obj s)) as Hall.
  { unfold all_issued. intros Ha. rewrite Ir. apply take_ge. lia. }
  split_and!.
  - rewrite Ir, length_take. f_equal. lia.
  - done.
  - unfold phase, active, idle in Ip. destruct (progress_ (obj s)); try lia; done.
  - intros written op E. apply Hall. unfold buffer in E. unfold phase in Ip. destruct (progress_ (obj s)); try done;
      try (apply bind_Ret_inv in E as (ret & _ & E); by case_decide); [by destruct Ip|by destruct Ip as (_ & _ & ?)].
  - intros Hin. destruct (Ic Hin) as (Ha & (Ho & _) & _). auto.
Qed.

(** ** The end of a replay *)
Definition left_to_do (s : sys) : Z :=
  5 * (nBufferedOps_ (obj s) - nReplayOpsIssued_ (obj s)) + 3 * nOutstandingReplayOps_ (obj s) + 2 * tasks s + if running s then 1 else 0.

Lemma work_less (max : Z) (s s' : sys) : 0 < max → inv max s → work s s' → left_to_do s' < left_to_do s.
Proof.
  intros Hmax Hinv Hw. pose proof (work_inv max s s' Hmax Hinv Hw) as Hinv'. unfold left_to_do. destruct Hw as [readable b n cs b' w Hn E|b n cs b' caught E|cnt b n r cs b' posted Hc E].
  - destruct (active_phase _ _ Hinv (or_introl Hn)) as ((Hf & Ha) & _). simpl in *. destruct Ha as [(Ho & -> & Hposted)|(_ & ? & _)]; [|lia].
    unfold replayWork_read in E. cbv zeta in E. do 3 (apply bind_Ret_inv in E as ([] & _ & E)).
    destruct (decide (progress_ (with_posted false b) = ABORTED)); [|destruct (decide (nBufferedOps_ (with_posted false b) = _))]; simpl in *.
    + injection E as <- <-. simpl. lia.
    + injection E as <- <-. simpl. lia.
    + apply bind_Ret_inv in E as (ops & E & E'); injection E' as <- <-; simpl.
      pose proof (inv_batches _ _ Hinv') as Hb. apply batches_app in Hb as [_ (_ & Hlen & _)]. lia.
  - unfold replayWork_check in E. simpl. repeat case_decide; injection E as <- <-; simpl; lia.
  - destruct (active_phase _ _ Hinv) as ((_ & Ha) & _); [simpl; lia|]. simpl in *. destruct Ha as [(? & _)|(_ & -> & Hposted)]; [lia|].
    unfold notifyOpsReplayed in E. cbv zeta in E. do 3 (apply bind_Ret_inv in E as ([] & _ & E)). injection E as <- <-. simpl.
    case_decide; simpl; rewrite ?Hposted; destruct r; lia.
Qed.

Lemma read_few_total (fuel : nat) (b : t) (l : list Op) : nBufferedOps_ b = Z.of_nat (length (file b)) → 0 ≤ nReplayOpsIssued_ b →
  maxReplayCnt_ b ≤ Z.of_nat (length l) + Z.of_nat fuel → ∃ r, read_few fuel (λ _, true) b l = Ret r.
Proof.
  intros Hn Hi. revert l. induction fuel as [|fuel IH]; intros l Hf; cbn [read_few]; case_decide as Hd; try (by eexists); [lia|].
  destruct (lookup_lt_is_Some_2 (file b) (Z.to_nat (nReplayOpsIssued_ b + Z.of_nat (length l)))) as [op ->]; [lia|]. apply IH. rewrite length_app. simpl. lia.
Qed.

(** Until the end there is something to do, also with assertions. *)
Lemma work_enabled (max : Z) (s : sys) : 0 < max → inv max s → active s → ∃ s', work s s'.
Proof.
  intros Hmax Hinv [Hf Ha]. destruct s as [b n r cs]. simpl in *. destruct r.
  { destruct (replayWork_check b) as [b' c] eqn:E. eexists. by eapply work_check. }
  destruct Ha as [(Ho & -> & Hp)|(Ho & -> & Hp)].
  - destruct (active_phase _ _ Hinv) as (_ & Hr & _); [simpl; lia|]. simpl in Hr.
    assert (∃ b' w, replayWork_read debug (λ _, true) b = Ret (b', w)) as (b' & w & E); [|eexists; eapply work_read; [|done]; lia].
    unfold replayWork_read. rewrite Ho, Hp, Hr. assert (∀ c, c = true → fds_assert debug c = Ret tt) as Hassert by (intros ? ->; by destruct debug).
    rewrite !Hassert, !bind_Ret by done. cbv zeta. case_decide; [by eexists _, _|]. case_decide; [by eexists _, _|].
    destruct (read_few_total (Z.to_nat (maxReplayCnt_ (with_posted false b))) (with_posted false b) []) as [l ->]; [apply Hinv|apply Hinv|simpl; lia|]. by eexists _, _.
  - destruct (active_phase _ _ Hinv) as (_ & Hr & _); [simpl; lia|]. simpl in Hr.
    assert (∃ b' c, notifyOpsReplayed debug (nOutstandingReplayOps_ b) b = Ret (b', c)) as (b' & c & E); [|eexists; eapply work_notify; [|done]; lia].
    unfold notifyOpsReplayed. cbv zeta. simpl. rewrite Hp, Hr, Z.sub_diag. destruct debug; simpl; by eexists _, _.
Qed.

(** Work goes on or the end has been reported. *)
Lemma work_phase (max : Z) (s s' : sys) : 0 < max → inv max s → active s → work s s' → active s' ∨ finals (calls s') = 1 ∧ idle s'.
Proof.
  intros Hmax Hinv [Hf Ha] Hw. pose proof (work_inv max s s' Hmax Hinv Hw) as Hinv'. destruct Hw as [readable b n cs b' w Hn E|b n cs b' caught E|cnt b n r cs b' posted Hc E]; simpl in *.
  - destruct Ha as [(Ho & -> & Hp)|(_ & ? & _)]; [|lia]. unfold replayWork_read in E. cbv zeta in E. do 3 (apply bind_Ret_inv in E as ([] & _ & E)).
    assert (∀ b' p, final (progressCb p) = true → nOutstandingReplayOps_ b' = 0 →
      finals (cs ++ [progressCb p]) = 1 ∧ idle (Sys b' (1 - 1) false (cs ++ [progressCb p]))) as Hend.
    { intros b2 p Hfin Ho2. destruct (inv_call max cs p) as (_ & _ & H). rewrite Hfin, Hf in H. unfold idle. simpl. rewrite H. lia. }
    destruct (decide (progress_ (with_posted false b) = ABORTED)); [|destruct (decide (nBufferedOps_ (with_posted false b) = _))]; simpl in *.
    + injection E as <- <-. right. by apply Hend.
    + injection E as <- <-. right. by apply Hend.
    + apply bind_Ret_inv in E as (ops & E & E'); injection E' as <- <-. left.
      pose proof (inv_batches _ _ Hinv') as Hb. apply batches_app in Hb as [_ (_ & Hlen & _)]. split; simpl; [by rewrite finals_app, Hf|]. right. lia.
  - left. unfold replayWork_check in E. repeat case_decide; injection E as <- <-; (split; [|done]); simpl; by rewrite finals_app, Hf.
  - left. destruct Ha as [(? & _)|(_ & -> & Hp)]; [lia|]. unfold notifyOpsReplayed in E. cbv zeta in E. do 3 (apply bind_Ret_inv in E as ([] & _ & E)). injection E as <- <-. split; [done|]. simpl.
    case_decide; simpl in *; rewrite ?Hp; [left|right]; lia.
Qed.

(** Nothing is done after the end. *)
Lemma idle_stuck (s s' : sys) : idle s → ¬ work s s'.
Proof. intros (Ho & Ht & Hr & _) Hw. destruct Hw; simpl in *; try lia; done. Qed.

(** C40. A replay that was started ends: its tasks and the acknowledgements of
    the client come to an end, after a number of steps that is bounded by what
    is left to do; until then something can be done, as long as the file can be
    read, and at the end exactly one callback has reported completion or an
    abort, with nothing outstanding. If it was not aborted, all operations have
    been replayed. A read that fails throws on the thread of the pool, which
    ends the process and is not a step. *)
Theorem replay_ends (max : Z) (posted : bool) (s s' : sys) (n : nat) : 0 < max → rtc step (opened max posted) s → 0 < tasks s ∨ 0 < nOutstandingReplayOps_ (obj s) →
  nsteps work n s s' →
  Z.of_nat n ≤ left_to_do s ∧
  ((∃ s'', work s' s'') ∨
   finals (calls s') = 1 ∧ nOutstandingReplayOps_ (obj s') = 0 ∧ tasks s' = 0 ∧ (progress_ (obj s') ≠ ABORTED → replayed (calls s') = file (obj s'))).
Proof.
  intros Hmax Hr Ha Hn. pose proof (reachable_inv _ _ _ Hmax Hr) as Hinv. clear Hr.
  assert (active s ∨ finals (calls s) = 1 ∧ idle s) as Hph by (left; by apply (active_phase max)). clear Ha.
  induction Hn as [s|n s s1 s2 Hs Hn IH].
  - pose proof Hinv as [If Ii Im Ir Ib Ip Ic]. split; [unfold left_to_do, active, idle in *; destruct (running s); lia|].
    destruct Hph as [Hact|[Hf (Ho & Ht & Hrun & _)]]; [left; by eapply work_enabled|]. right. split_and!; try done.
    intros Hp. rewrite Ir. unfold phase, active in Ip. destruct (progress_ (obj s)); try done; try lia; destruct Ip as (? & ? & ?); try lia.
    + match goal with H : calls s = [] |- _ => by rewrite H in Hf end.
    + unfold all_issued in *. apply take_ge. lia.
  - pose proof (work_less max s s1 Hmax Hinv Hs) as Hless. pose proof (work_inv max s s1 Hmax Hinv Hs) as Hinv1.
    destruct Hph as [Hact|[_ Hidle]]; [|by destruct (idle_stuck _ _ Hidle Hs)].
    destruct (IH Hinv1) as [Hle Hend]; [by apply (work_phase max s)|]. split; [lia|done].
Qed.

End Steps.

(** ** A replay *)
Definition case_op (n : Z) : Op := MakeOp n 0 [n].
(** Three operations are buffered and replayed in batches of two; a fourth one
    arrives during the replay. *)
Definition case_end : sys :=
  Sys (Make [case_op 1; case_op 2; case_op 3; case_op 4] 1 4 4 0 false 2 COMPLETE) 0 false
    [replayOpsCb 0 [case_op 1; case_op 2]; replayOpsCb 2 [case_op 3; case_op 4]; progressCb REPLAY_CAUGHTUP; progressCb COMPLETE].

Definition case_started : sys := Sys (Make [case_op 1; case_op 2; case_op 3] 1 3 0 0 true 2 BUFFERING_REPLAYING) 1 false [].

Lemma case_start : rtc (step true) (opened 2 false) case_started.
Proof.
  eapply rtc_l; [by eapply (step_buffer true (Ret 5) (case_op 1))|]. eapply rtc_l; [by eapply (step_buffer true (Ret 5) (case_op 2))|].
  eapply rtc_l; [by eapply (step_buffer true (Ret 5) (case_op 3))|]. eapply rtc_l; [eapply step_start; [by left|done]|]. simpl. apply rtc_refl.
Qed.

Lemma case_replay : rtc (step true) case_started case_end.
Proof.
  eapply rtc_l; [by apply step_work, (work_read true (λ _, true)); [|vm_compute]|]. eapply rtc_l; [by apply step_work, (work_notify true 1); [vm_compute|vm_compute]|].
  eapply rtc_l; [by eapply (step_buffer true (Ret 5) (case_op 4))|]. eapply rtc_l; [by apply step_work, work_check; vm_compute|].
  eapply rtc_l; [by apply step_work, (work_notify true 1); [vm_compute|vm_compute]|]. eapply rtc_l; [by apply step_work, (work_read true (λ _, true)); [|vm_compute]|].
  eapply rtc_l; [by apply step_work, work_check; vm_compute|]. eapply rtc_l; [by apply step_work, (work_notify true 2); [vm_compute|vm_compute]|].
  eapply rtc_l; [by apply step_work, (work_read true (λ _, true)); [|vm_compute]|]. apply rtc_refl.
Qed.

Lemma replay_in_order_witness : replayed (calls case_end) = [case_op 1; case_op 2; case_op 3; case_op 4] ∧ nOutstandingReplayOps_ (obj case_end) = 0.
Proof.
  destruct (replay_in_order true 2 false case_end) as (_ & _ & _ & _ & H); [lia|etransitivity; [apply case_start|apply case_replay]|].
  apply H. cbn. set_solver.
Defined.

Lemma replay_ends_witness : ∃ s', work true case_started s'.
Proof.
  destruct (replay_ends true 2 false case_started case_started 0) as [_ [H|(H & _)]]; [lia|apply case_start|by left|constructor|exact H|done].
Defined.

End BufferReplay.
