(* ===== verification/VolumeGroup.v ===== *)
(** * Replicated volumes

    The coordinator of a group of replicas of a volume
    (src/source/net-service/svc_request/VolumeGroupHandle.cpp,
    include/net/VolumeGroupHandle.h, volumegroup_extensions.h): opening the
    group, writes that are sent to all replicas and answered with a quorum,
    reads that fail over, replicas that fail and come back.

    Everything runs on one thread, so each message, response or timer is one
    step.  Outstanding requests and timers, with what their callbacks need, are
    in a map by request id; messages sent and callbacks made are a trace.  A
    quorum request calls back with the responses of all its endpoints.
    Whether a vector moves its elements when it grows is given with the step. *)

From S2P Require Import Prelude.
Open Scope Z_scope.

(** ** States of resources *)
Inductive ResourceState := Unknown | Loading | Created | Syncing | Active | Offline | MarkedForDeletion | Deleted | InError.

#[export] Instance ResourceState_eq_dec : EqDecision ResourceState.
Proof. solve_decision. Defined.

Module VolumeGroupConstants.
Definition OPSTARTID : Z := 0.
Definition COMMITSTARTID : Z := 0.
Definition VERSION_INVALID : Z := 0.
Definition VERSION_START : Z := 2.
End VolumeGroupConstants.
Import VolumeGroupConstants.

Definition isVolumeGroupError (e : fds_errno) : bool :=
  match e with
  | ERR_SVC_REQUEST_TIMEOUT | ERR_SVC_REQUEST_INVOCATION | ERR_SVC_REQUEST_FAILED | ERR_IO_OPID_MISMATCH | ERR_IO_SEQUENCEID_MISMATCH
  | ERR_SYNC_INPROGRESS | ERR_DM_VOL_NOT_ACTIVATED | ERR_VOL_NOT_FOUND | ERR_NODE_NOT_ACTIVE | ERR_INVALID_COORDINATOR | ERR_ABORTED => true
  | _ => false
  end.

(** ** Handles of replicas *)
Module VolumeReplicaHandle.

Record t := Make { version : Z; svcUuid : Z; state : ResourceState; lastError : fds_errno; appliedOpId : Z; appliedCommitId : Z }.

Definition make (id : Z) : t := Make VERSION_INVALID id Offline ERR_OK OPSTARTID COMMITSTARTID.

Definition isFunctional (s : ResourceState) : bool := bool_decide (s = Active).
Definition isSyncing (s : ResourceState) : bool := bool_decide (s = Syncing).
Definition isNonFunctional (s : ResourceState) : bool := bool_decide (s = Offline ∨ s = Loading).

Definition setState (s : ResourceState) (r : t) : t := Make (version r) (svcUuid r) s (lastError r) (appliedOpId r) (appliedCommitId r).
Definition setError (e : fds_errno) (r : t) : t := Make (version r) (svcUuid r) (state r) e (appliedOpId r) (appliedCommitId r).
Definition setVersion (v : Z) (r : t) : t := Make v (svcUuid r) (state r) (lastError r) (appliedOpId r) (appliedCommitId r).
Definition setApplied (o : Z) (r : t) : t := Make (version r) (svcUuid r) (state r) (lastError r) o (appliedCommitId r).

(** The commit id is not supported and stays. *)
Definition setInfo (v : Z) (s : ResourceState) (opId : Z) (r : t) : t := setApplied opId (setVersion v (setState s r)).

End VolumeReplicaHandle.

Module VolumeGroupHandle.
Import VolumeReplicaHandle.
Abbreviation Replica := VolumeReplicaHandle.t.

(** A serialized write: its type, what the client sent, and the ids that the
    coordinator put in *)
Record Write := MakeWrite { msgTypeId : Z; body : list Z; opId : Z; sequence_id : Z }.

Record OpenRetryCtx := Retry { triesCnt : Z; currentCoordinator : Z; doSwitch : bool }.

Record t := Make {
  functionalReplicas_ : list Replica;
  nonfunctionalReplicas_ : list Replica;
  syncingReplicas_ : list Replica;
  groupSize_ : Z;
  quorumCnt_ : Z;
  state_ : ResourceState;
  version_ : Z;
  opSeqNo_ : Z;
  commitNo_ : Z;
  dmtVersion_ : Z;
  writeOpsBuffer_ : option (list Write);
  refCnt_ : Z;
  closeCb_ : option Z;
  checkOnNonFunctionalScheduled_ : bool;
  isCoordinator_ : bool;
  openRetryCtx_ : option OpenRetryCtx;
}.

Definition make (quorumCnt : Z) : t :=
  Make [] [] [] 0 quorumCnt Unknown VERSION_INVALID OPSTARTID COMMITSTARTID 0 None 0 None false false None.

(** *** Setters *)
Definition set_lists (f n y : list Replica) (h : t) : t :=
  Make f n y (groupSize_ h) (quorumCnt_ h) (state_ h) (version_ h) (opSeqNo_ h) (commitNo_ h) (dmtVersion_ h) (writeOpsBuffer_ h) (refCnt_ h) (closeCb_ h)
    (checkOnNonFunctionalScheduled_ h) (isCoordinator_ h) (openRetryCtx_ h).
Definition set_size (n : Z) (h : t) : t :=
  Make (functionalReplicas_ h) (nonfunctionalReplicas_ h) (syncingReplicas_ h) n (quorumCnt_ h) (state_ h) (version_ h) (opSeqNo_ h) (commitNo_ h) (dmtVersion_ h)
    (writeOpsBuffer_ h) (refCnt_ h) (closeCb_ h) (checkOnNonFunctionalScheduled_ h) (isCoordinator_ h) (openRetryCtx_ h).
Definition set_state (s : ResourceState) (h : t) : t :=
  Make (functionalReplicas_ h) (nonfunctionalReplicas_ h) (syncingReplicas_ h) (groupSize_ h) (quorumCnt_ h) s (version_ h) (opSeqNo_ h) (commitNo_ h) (dmtVersion_ h)
    (writeOpsBuffer_ h) (refCnt_ h) (closeCb_ h) (checkOnNonFunctionalScheduled_ h) (isCoordinator_ h) (openRetryCtx_ h).
Definition set_ids (version op commit dmt : Z) (h : t) : t :=
  Make (functionalReplicas_ h) (nonfunctionalReplicas_ h) (syncingReplicas_ h) (groupSize_ h) (quorumCnt_ h) (state_ h) version op commit dmt
    (writeOpsBuffer_ h) (refCnt_ h) (closeCb_ h) (checkOnNonFunctionalScheduled_ h) (isCoordinator_ h) (openRetryCtx_ h).
Definition set_buffer (b : option (list Write)) (h : t) : t :=
  Make (functionalReplicas_ h) (nonfunctionalReplicas_ h) (syncingReplicas_ h) (groupSize_ h) (quorumCnt_ h) (state_ h) (version_ h) (opSeqNo_ h) (commitNo_ h) (dmtVersion_ h)
    b (refCnt_ h) (closeCb_ h) (checkOnNonFunctionalScheduled_ h) (isCoordinator_ h) (openRetryCtx_ h).
Definition set_refs (n : Z) (close : option Z) (scheduled : bool) (h : t) : t :=
  Make (functionalReplicas_ h) (nonfunctionalReplicas_ h) (syncingReplicas_ h) (groupSize_ h) (quorumCnt_ h) (state_ h) (version_ h) (opSeqNo_ h) (commitNo_ h) (dmtVersion_ h)
    (writeOpsBuffer_ h) n close scheduled (isCoordinator_ h) (openRetryCtx_ h).
Definition set_role (coordinator : bool) (ctx : option OpenRetryCtx) (h : t) : t :=
  Make (functionalReplicas_ h) (nonfunctionalReplicas_ h) (syncingReplicas_ h) (groupSize_ h) (quorumCnt_ h) (state_ h) (version_ h) (opSeqNo_ h) (commitNo_ h) (dmtVersion_ h)
    (writeOpsBuffer_ h) (refCnt_ h) (closeCb_ h) (checkOnNonFunctionalScheduled_ h) coordinator ctx.

Definition set_opSeqNo (n : Z) (h : t) : t := set_ids (version_ h) n (commitNo_ h) (dmtVersion_ h) h.

Definition size (h : t) : Z := Z.of_nat (length (functionalReplicas_ h) + length (nonfunctionalReplicas_ h) + length (syncingReplicas_ h)).
Definition functional_cnt (h : t) : Z := Z.of_nat (length (functionalReplicas_ h)).

Definition getAllReplicas (h : t) : list Z :=
  (svcUuid <$> functionalReplicas_ h) ++ (svcUuid <$> nonfunctionalReplicas_ h) ++ (svcUuid <$> syncingReplicas_ h).
Definition getWriteableReplicaHandles (h : t) : list Replica := functionalReplicas_ h ++ syncingReplicas_ h.

Record GroupInfo := Info {
  coordinator_version : Z;
  lastOpId : Z;
  lastCommitId : Z;
  functionalReplicas : list Z;
  syncingReplicas : list Z;
  nonfunctionalReplicas : list Z;
}.

Definition getGroupInfoForExternalUse_ (h : t) : GroupInfo :=
  Info (version_ h) (opSeqNo_ h) (commitNo_ h) (svcUuid <$> functionalReplicas_ h) (svcUuid <$> syncingReplicas_ h) (svcUuid <$> nonfunctionalReplicas_ h).

(** *** Requests to replicas *)
(** An endpoint: the replica, the version it was sent to, and whether it has
    answered *)
Record Endpoint := Ep { ep_svc : Z; ep_version : Z; ep_complete : bool }.

Record Request := MakeRequest {
  write_ : option Write;                (** of a broadcast; [None] for a read *)
  availableReplicas_ : list Replica;    (** of a failover request *)
  epReqs_ : list Endpoint;
  nAcked_ : Z;
  successAcks_ : list (Z * fds_errno);
  response_ : fds_errno;
  responseCb_ : option Z;
}.

Definition add_endpoint (svc version : Z) (q : Request) : Request :=
  MakeRequest (write_ q) (availableReplicas_ q) (epReqs_ q ++ [Ep svc version false]) (nAcked_ q) (successAcks_ q) (response_ q) (responseCb_ q).
Definition set_available (l : list Replica) (q : Request) : Request :=
  MakeRequest (write_ q) l (epReqs_ q) (nAcked_ q) (successAcks_ q) (response_ q) (responseCb_ q).

(** What is outstanding: opens by the callback of their client *)
Inductive Pending :=
| Preparing (cb : Z)
| Informing (cb : Z)
| Switching (cb : Z)
| Checking
| InProgress (q : Request).

Inductive Effect :=
| prepare_to (id : Z) (replicas : list Z) (version : Z) (can_write force : bool)
| info_to (replicas : list Z) (group : GroupInfo)
| switch_to (id svc : Z)
| write_to (id : Z) (ep : Endpoint) (w : Write)
| replay_to (svc : Z) (w : Write)
| read_to (id : Z) (ep : Endpoint)
| check_timer (id : Z)
| answer (cb : Z) (e : fds_errno)
| add_answer (e : fds_errno) (group : option GroupInfo)
| closed (cb : Z).

Record sys := Sys { vg : t; pending : gmap Z Pending; next_id : Z; trace : list Effect }.

Definition with_vg (h : t) (s : sys) : sys := Sys h (pending s) (next_id s) (trace s).
Definition does (l : list Effect) (s : sys) : sys := Sys (vg s) (pending s) (next_id s) (trace s ++ l).
Definition with_request (id : Z) (p : Pending) (s : sys) : sys := Sys (vg s) (<[id := p]> (pending s)) (next_id s) (trace s).
(** A new request, and its id *)
Definition issue (p : Pending) (s : sys) : sys := Sys (vg s) (<[next_id s := p]> (pending s)) (next_id s + 1) (trace s).
Definition done (id : Z) (s : sys) : sys := Sys (vg s) (delete id (pending s)) (next_id s) (trace s).

Section Build.
Variable debug : bool.
(** Whether [push_back] on a vector has to move its elements *)
Variable grow : bool.

Abbreviation assert b := (fds_assert debug b).

(** *** References and closing *)
Definition changeState_ (targetState : ResourceState) (cleanReplicas : bool) (h : t) : res t :=
  h ← (if decide (targetState = Active) then _ ← assert (bool_decide (quorumCnt_ h ≤ functional_cnt h)); Ret h
       else Ret (if cleanReplicas then set_lists [] [] [] h else h));
  let h := set_state targetState h in
  _ ← assert (bool_decide (groupSize_ h = size h));
  Ret h.

Definition closeHandle_ (s : sys) : res sys :=
  h ← changeState_ Unknown true (set_size 0 (vg s));
  match closeCb_ h with
  | Some cb => Ret (does [closed cb] (with_vg (set_refs (refCnt_ h) None (checkOnNonFunctionalScheduled_ h) h) s))
  | None => Fault Undefined
  end.

Definition incRef (h : t) : t := set_refs (refCnt_ h + 1) (closeCb_ h) (checkOnNonFunctionalScheduled_ h) h.

Definition decRef (s : sys) : res sys :=
  let h := set_refs (refCnt_ (vg s) - 1) (closeCb_ (vg s)) (checkOnNonFunctionalScheduled_ (vg s)) (vg s) in
  _ ← assert (bool_decide (0 ≤ refCnt_ h));
  if decide (refCnt_ h ≤ 0 ∧ closeCb_ h ≠ None) then closeHandle_ (with_vg h s) else Ret (with_vg h s).

Definition close (closeCb : Z) (s : sys) : res sys :=
  let h := vg s in
  let h := match closeCb_ h with None => set_refs (refCnt_ h) (Some closeCb) (checkOnNonFunctionalScheduled_ h) h | Some _ => h end in
  if decide (refCnt_ h = 0) then closeHandle_ (with_vg h s) else Ret (with_vg h s).

(** *** Checks on replicas that are not functional *)
Definition createBroadcastGroupInfoReq_ (h : t) : Effect := info_to (getAllReplicas h) (getGroupInfoForExternalUse_ h).

Definition scheduleCheckOnNonfunctionalReplicas_ (s : sys) : res sys :=
  _ ← fds_verify (isCoordinator_ (vg s));
  if checkOnNonFunctionalScheduled_ (vg s) then Ret s
  else
    let h := incRef (vg s) in
    Ret (does [check_timer (next_id s)] (issue Checking (with_vg (set_refs (refCnt_ h) (closeCb_ h) true h) s))).

Definition checkOnNonFunctaionalReplicas_ (s : sys) : res sys :=
  let h := set_refs (refCnt_ (vg s)) (closeCb_ (vg s)) false (vg s) in
  let s := with_vg h s in
  if decide (closeCb_ h ≠ None) then decRef s
  else
    s ← (if decide (0 < length (nonfunctionalReplicas_ h))%nat
         then scheduleCheckOnNonfunctionalReplicas_ (does [createBroadcastGroupInfoReq_ h] s) else Ret s);
    decRef s.

(** *** Buffered writes *)
Definition WRITEOPS_BUFFER_SZ : nat := 1024.

(** [push_back] on a circular buffer *)
Definition push_write (w : Write) (l : list Write) : list Write :=
  if decide (length l < WRITEOPS_BUFFER_SZ)%nat then l ++ [w] else tail l ++ [w].

Definition toggleWriteOpsBuffering_ (enable : bool) (h : t) : t := set_buffer (if enable then Some [] else None) h.

Definition replayFromWriteOpsBuffer_ (svc : Z) (replayStartOpId : Z) (buffer : list Write) (s : sys) : res (sys * bool) :=
  let opSeqNo := opSeqNo_ (vg s) in
  let sz := Z.of_nat (length buffer) in
  _ ← assert (bool_decide (sz ≤ opSeqNo));
  _ ← assert (bool_decide (OPSTARTID < replayStartOpId ≤ opSeqNo + 1));
  if decide (replayStartOpId = opSeqNo + 1) then Ret (s, true)
  else
    let fromOpId := opSeqNo - sz + 1 in
    let toOpId := opSeqNo in
    if decide (replayStartOpId < fromOpId ∨ replayStartOpId > toOpId) then Ret (s, false)
    else Ret (does (replay_to svc <$> skipn (Z.to_nat (replayStartOpId - fromOpId)) buffer) s, true).

(** *** State changes of replicas *)
Inductive Which := InFunctional | InNonfunctional | InSyncing.

#[global] Instance Which_eq_dec : EqDecision Which.
Proof. solve_decision. Defined.

Definition list_of (w : Which) (h : t) : list Replica :=
  match w with InFunctional => functionalReplicas_ h | InNonfunctional => nonfunctionalReplicas_ h | InSyncing => syncingReplicas_ h end.
Definition set_list (w : Which) (l : list Replica) (h : t) : t :=
  match w with
  | InFunctional => set_lists l (nonfunctionalReplicas_ h) (syncingReplicas_ h) h
  | InNonfunctional => set_lists (functionalReplicas_ h) l (syncingReplicas_ h) h
  | InSyncing => set_lists (functionalReplicas_ h) (nonfunctionalReplicas_ h) l h
  end.

(** [CHECKIN] *)
Definition find_in (svc : Z) (w : Which) (h : t) : option (Which * nat) :=
  (λ p, (w, p.1)) <$> list_find (λ r, svcUuid r = svc) (list_of w h).

(** An iterator, [None] if it is [functionalReplicas_.end()] *)
Definition getVolumeReplicaHandle_ (svc : Z) (h : t) : option (Which * nat) :=
  match find_in svc InFunctional h with
  | Some i => Some i
  | None => match find_in svc InNonfunctional h with Some i => Some i | None => find_in svc InSyncing h end
  end.

Definition deref (i : option (Which * nat)) (h : t) : res (Which * nat * Replica) :=
  match i with
  | Some (w, n) => match list_of w h !! n with Some r => Ret (w, n, r) | None => Fault Undefined end
  | None => Fault Undefined
  end.

Definition getVolumeReplicaHandleList_ (s : ResourceState) : res Which :=
  if isFunctional s then Ret InFunctional
  else if isSyncing s then Ret InSyncing
  else _ ← fds_verify (isNonFunctional s); Ret InNonfunctional.

(** Moving a handle to the end of another list, or of its own *)
Definition move_handle (src dst : Which) (n : nat) (r : Replica) (h : t) : res t :=
  if decide (src = dst) then
    if grow then Fault Undefined else Ret (set_list src (delete n (list_of src h) ++ [r]) h)
  else
    let h := set_list dst (list_of dst h ++ [r]) h in
    Ret (set_list src (delete n (list_of src h)) h).

(** The actions on the group *)
Definition group_actions (targetState : ResourceState) (h : t) : res t :=
  if isFunctional targetState then
    if decide (state_ h = Offline ∧ functional_cnt h = quorumCnt_ h) then changeState_ Active false h else Ret h
  else if isNonFunctional targetState then
    h ← (if decide (state_ h = Active ∧ functional_cnt h < quorumCnt_ h) then changeState_ Offline false h else Ret h);
    Ret (if decide (state_ h = Offline ∧ functional_cnt h = 0) then set_opSeqNo OPSTARTID h else h)
  else Ret h.

(** The change of the handle itself; [None] if the version is refused *)
Definition change_handle (replicaVersion : Z) (targetState : ResourceState) (opId : Z) (e : fds_errno) (r : Replica) (s : sys) : res (option (sys * Replica)) :=
  if decide (targetState = Loading) then
    Ret (Some (with_vg (toggleWriteOpsBuffering_ true (vg s)) s, setState Offline r))
  else if isSyncing targetState then
    if decide (replicaVersion ≠ VERSION_START ∧ replicaVersion ≤ version r) then _ ← assert false; Ret None
    else
      s ← match writeOpsBuffer_ (vg s) with
          | Some buffer =>
              p ← replayFromWriteOpsBuffer_ (svcUuid r) (opId + 1) buffer s;
              let '(s, _) := p : sys * bool in
              Ret (with_vg (toggleWriteOpsBuffering_ false (vg s)) s)
          | None => Ret s
          end;
      Ret (Some (s, setInfo replicaVersion targetState (opSeqNo_ (vg s)) r))
  else if isNonFunctional targetState then
    _ ← assert (bool_decide (targetState = Offline));
    s ← scheduleCheckOnNonfunctionalReplicas_ s;
    Ret (Some (s, setError e (setState targetState r)))
  else if isFunctional targetState then
    if decide (replicaVersion ≠ version r) then _ ← assert false; Ret None
    else
      _ ← assert (isSyncing (state r) && bool_decide (appliedOpId r = opId));
      Ret (Some (s, setError ERR_OK (setState targetState (setVersion replicaVersion r))))
  else Ret (Some (s, r)).

Definition changeVolumeReplicaState_ (i : option (Which * nat)) (replicaVersion : Z) (targetState : ResourceState) (opId : Z) (e : fds_errno) (s : sys)
    : res (sys * option (Which * nat) * fds_errno) :=
  _ ← assert (isCoordinator_ (vg s));
  d ← deref i (vg s);
  let '(w, n, r) := d : Which * nat * Replica in
  let srcState := state r in
  c ← change_handle replicaVersion targetState opId e r s;
  match (c : option (sys * Replica)) with
  | None => Ret (s, i, ERR_INVALID_VERSION)
  | Some (s, r) =>
      src ← getVolumeReplicaHandleList_ srcState;
      dst ← getVolumeReplicaHandleList_ targetState;
      if decide (src ≠ w) then Fault Undefined
      else
        h ← move_handle src dst n r (vg s);
        own ← getVolumeReplicaHandleList_ (state r);
        _ ← assert (bool_decide (own = dst));
        let i := Some (dst, (length (list_of dst h) - 1)%nat) in
        h ← group_actions targetState h;
        Ret (with_vg h s, i, ERR_OK)
  end.

(** *** Opening *)
Definition respond (cb : Z) (e : fds_errno) (s : sys) : res sys :=
  s ← decRef s; Ret (does [answer cb e] s).

Definition resetGroup_ (state : ResourceState) (dmt : Z * (fds_errno + list Z)) (h : t) : res (t * option fds_errno) :=
  let h := set_ids (version_ h) OPSTARTID COMMITSTARTID dmt.1 h in
  match dmt.2 with
  | inl e => Ret (h, Some e)
  | inr svcs =>
      let h := set_size (Z.of_nat (length svcs)) h in
      let h := if isCoordinator_ h then set_lists [] (VolumeReplicaHandle.make <$> svcs) [] h
               else set_lists ((λ u, setState Active (VolumeReplicaHandle.make u)) <$> svcs) [] [] h in
      h ← changeState_ state false h;
      Ret (h, None)
  end.

Definition createPreareOpenVolumeGroupMsgReq_ (h : t) : res (list Z * bool) :=
  _ ← assert (if isCoordinator_ h
              then bool_decide (functionalReplicas_ h = [] ∧ syncingReplicas_ h = [] ∧ nonfunctionalReplicas_ h ≠ [])
              else bool_decide (functionalReplicas_ h ≠ [] ∧ syncingReplicas_ h = [] ∧ nonfunctionalReplicas_ h = []));
  Ret (svcUuid <$> (if isCoordinator_ h then nonfunctionalReplicas_ h else functionalReplicas_ h),
       match openRetryCtx_ h with Some c => bool_decide (triesCnt c > 0) | None => false end).

Definition runOpenProtocol_ (cb : Z) (s : sys) : res sys :=
  r ← createPreareOpenVolumeGroupMsgReq_ (vg s);
  let '(replicas, force) := r : list Z * bool in
  Ret (does [prepare_to (next_id s) replicas (version_ (vg s)) (isCoordinator_ (vg s)) force] (issue (Preparing cb) s)).

(** [dmt]: the version of the DMT and the services it has for the volume, or
    the error of the lookup *)
Definition open (cb : Z) (can_write : bool) (dmt : Z * (fds_errno + list Z)) (s : sys) : res sys :=
  let s := with_vg (incRef (vg s)) s in
  if decide (state_ (vg s) = Active) then respond cb ERR_INVALID s
  else
    let h := if can_write then set_role true (openRetryCtx_ (vg s)) (vg s) else vg s in
    r ← resetGroup_ Loading dmt h;
    match (r : t * option fds_errno) with
    | (h, Some e) => respond cb e (with_vg h s)
    | (h, None) => runOpenProtocol_ cb (with_vg h s)
    end.

(** A response to the preparation of an open *)
Record OpenRsp := MakeRsp { peer : Z; status : fds_errno; rsp_sequence_id : Z; rsp_version : Z; rsp_coordinator : Z }.

(** [seqIdMap[id].push_back(r)] in a map with descending keys *)
Fixpoint seq_push (id : Z) (r : OpenRsp) (m : list (Z * list OpenRsp)) : list (Z * list OpenRsp) :=
  match m with
  | [] => [(id, [r])]
  | (k, l) :: m' =>
      if decide (k = id) then (k, l ++ [r]) :: m'
      else if decide (k < id) then (id, [r]) :: m
      else (k, l) :: seq_push id r m'
  end.
Definition seq_find (id : Z) (m : list (Z * list OpenRsp)) : list OpenRsp :=
  match list_find (λ p, p.1 = id) m with Some (_, p) => p.2 | None => [] end.

(** The responses by sequence id, the id that a quorum has, and the
    coordinators of those that refused *)
Record Split := MakeSplit { seqIdMap : list (Z * list OpenRsp); quorumSeqId : Z; cachedCoordinators : list Z }.

Definition split_response (quorum : Z) (x : Split) (r : OpenRsp) : Split :=
  if decide (status r = ERR_OK) then
    let m := seq_push (rsp_sequence_id r) r (seqIdMap x) in
    MakeSplit m (if decide (quorum ≤ Z.of_nat (length (seq_find (rsp_sequence_id r) m))) then rsp_sequence_id r else quorumSeqId x) (cachedCoordinators x)
  else MakeSplit (seqIdMap x) (quorumSeqId x)
         (if decide (status r = ERR_INVALID_COORDINATOR) then cachedCoordinators x ++ [rsp_coordinator r] else cachedCoordinators x).

Definition retry_if_none (c : OpenRetryCtx) (h : t) : t := match openRetryCtx_ h with None => set_role (isCoordinator_ h) (Some c) h | Some _ => h end.

(** [v[i]] *)
Definition at_ {A} (l : list A) (i : nat) : res A := match l !! i with Some x => Ret x | None => Fault Undefined end.

(** [cachedCoordinators[0] == cachedCoordinators[1] || ...] *)
Definition coordinators_match (l : list Z) : res bool :=
  a ← at_ l 0; b ← at_ l 1;
  if decide (a = b) then Ret true
  else if decide (2 < length l)%nat then c ← at_ l 2; Ret (bool_decide (a = c ∨ b = c)) else Ret false.

Definition make_functional (s : sys) (r : OpenRsp) : res sys :=
  let i := getVolumeReplicaHandle_ (peer r) (vg s) in
  x ← changeVolumeReplicaState_ i (rsp_version r) Syncing (opSeqNo_ (vg s)) ERR_OK s;
  let '(s, i, _) := x : sys * option (Which * nat) * fds_errno in
  x ← changeVolumeReplicaState_ i (rsp_version r) Active (opSeqNo_ (vg s)) ERR_OK s;
  let '(s, _, _) := x : sys * option (Which * nat) * fds_errno in
  Ret s.

Definition determineFunctaionalReplicas_ (rsps : list OpenRsp) (s : sys) : res sys :=
  let h := vg s in
  if decide (Z.of_nat (length rsps) < size h) then Fault Undefined else
  let x := foldl (split_response (quorumCnt_ h)) (MakeSplit [] (-1) []) (firstn (Z.to_nat (size h)) rsps) in
  let cached := Z.of_nat (length (cachedCoordinators x)) in
  _ ← assert (bool_decide (cached < quorumCnt_ h ∨ quorumSeqId x = -1));
  if decide (quorumCnt_ h ≤ cached) then
    _ ← assert (bool_decide (quorumCnt_ h = 2));
    b ← coordinators_match (cachedCoordinators x);
    first ← at_ (cachedCoordinators x) 0;
    Ret (with_vg (retry_if_none (if b : bool then Retry 0 first true else Retry 0 0 false) h) s)
  else
    let different := bool_decide (size h = 3 ∧ Z.of_nat (length (seqIdMap x)) = size h) in
    if negb different && bool_decide (size h = 3 ∧ quorumSeqId x = -1 ∧ 0 < cached) then
      Ret (with_vg (retry_if_none (Retry 0 0 false) h) s)
    else
      id ← (if different then p ← at_ (seqIdMap x) 1; Ret p.1 else Ret (quorumSeqId x));
      if decide (id ≠ -1) then
        s ← foldM make_functional s (seq_find id (seqIdMap x));
        Ret (with_vg (set_ids id (opSeqNo_ (vg s)) id (dmtVersion_ (vg s)) (vg s)) s)
      else Ret s.

Definition handleOpenResponseForNonCoordinator_ (rsps : list OpenRsp) (cb : Z) (s : sys) : res sys :=
  let h := vg s in
  if decide (Z.of_nat (length rsps) < size h) then Fault Undefined else
  let l := firstn (Z.to_nat (size h)) rsps in
  let nOks := length (filter (λ r, status r = ERR_OK) l) in
  let nNotActives := Z.of_nat (length (filter (λ r, status r = ERR_DM_VOL_NOT_ACTIVATED) l)) in
  if decide (0 < nOks)%nat then h ← changeState_ Active false h; respond cb ERR_OK (with_vg h s)
  else if decide (nNotActives = size h) then respond cb ERR_DM_VOL_NOT_ACTIVATED s
  else h ← changeState_ Active false h; respond cb ERR_VOLUMEGROUP_DOWN (with_vg h s).

Definition runCoordinatorSwitchProtocol_ (cb : Z) (c : OpenRetryCtx) (s : sys) : res sys :=
  Ret (does [switch_to (next_id s) (currentCoordinator c)] (issue (Switching cb) s)).

(** The callback of the preparation *)
Definition prepared (cb : Z) (rsps : list OpenRsp) (s : sys) : res sys :=
  if negb (isCoordinator_ (vg s)) then handleOpenResponseForNonCoordinator_ rsps cb s
  else
    s ← determineFunctaionalReplicas_ rsps s;
    let h := vg s in
    match openRetryCtx_ h with
    | Some (Retry 0 svc true) =>
        _ ← assert (bool_decide (functionalReplicas_ h = []));
        runCoordinatorSwitchProtocol_ cb (Retry 0 svc true) s
    | Some (Retry 0 svc false) =>
        _ ← assert (bool_decide (functionalReplicas_ h = []));
        runOpenProtocol_ cb (with_vg (set_role (isCoordinator_ h) (Some (Retry 1 svc false)) h) s)
    | _ =>
        if decide (functionalReplicas_ h = []) then respond cb ERR_VOLUMEGROUP_INVALID s
        else Ret (does [createBroadcastGroupInfoReq_ h] (issue (Informing cb) s))
    end.

(** The callback of a switch of the coordinator *)
Definition switched (cb : Z) (s : sys) : res sys :=
  match openRetryCtx_ (vg s) with
  | Some c => runOpenProtocol_ cb (with_vg (set_role (isCoordinator_ (vg s)) (Some (Retry (triesCnt c + 1) (currentCoordinator c) (doSwitch c))) (vg s)) s)
  | None => Fault NullDeref
  end.

(** The callback of the broadcast of the group *)
Definition informed (cb : Z) (s : sys) : res sys :=
  let h := vg s in
  let targetState := if decide (functional_cnt h < quorumCnt_ h) then Offline else Active in
  s ← (if decide (nonfunctionalReplicas_ h ≠ [] ∧ functionalReplicas_ h ≠ []) then scheduleCheckOnNonfunctionalReplicas_ s else Ret s);
  h ← changeState_ targetState false (vg s);
  respond cb ERR_OK (with_vg h s).

(** *** Reads and writes *)
(** [GROUPHANDLE_ACCESS_CHECK_CB]: the error the client gets *)
Definition access_check (isWrite : bool) (h : t) : option fds_errno :=
  if decide (state_ h ≠ Active) then
    if decide (state_ h = Loading) then Some ERR_VOLUMEGROUP_NOT_OPEN
    else if decide (functionalReplicas_ h = []) then Some ERR_VOLUMEGROUP_INVALID
    else if isWrite || bool_decide (state_ h ≠ Offline) then Some ERR_VOLUMEGROUP_DOWN
    else None
  else if isWrite && negb (isCoordinator_ h) then Some ERR_INVALID
  else if decide (closeCb_ h ≠ None) then Some ERR_INVALID
  else None.

(** [VolumeGroupBroadcastRequest::invokeWork_] *)
Definition broadcast (id : Z) (w : Write) (q : Request) (s : sys) : sys :=
  let replicas := getWriteableReplicaHandles (vg s) in
  let q := foldl (λ q r, add_endpoint (svcUuid r) (version r) q) q replicas in
  does ((λ r, write_to id (Ep (svcUuid r) (version r) false) w) <$> replicas) (with_request id (InProgress q) s).

Definition sendWriteReq_ (msgType : Z) (b : list Z) (seq : Z) (cb : Z) (s : sys) : res sys :=
  let h := vg s in
  let w := MakeWrite msgType b (opSeqNo_ h) seq in
  let h := match writeOpsBuffer_ h with Some l => set_buffer (Some (push_write w l)) h | None => h end in
  let id := next_id s in
  let q := MakeRequest (Some w) [] [] 0 [] ERR_OK (Some cb) in
  let s := issue (InProgress q) (with_vg h s) in
  let s := with_vg (incRef (vg s)) s in
  Ret (broadcast id w q s).

Definition sendModifyMsg (cb msgType : Z) (b : list Z) (s : sys) : res sys :=
  _ ← assert (bool_decide (closeCb_ (vg s) = None));
  match access_check true (vg s) with
  | Some e => Ret (does [answer cb e] s)
  | None => sendWriteReq_ msgType b 0 cb (with_vg (set_opSeqNo (opSeqNo_ (vg s) + 1) (vg s)) s)
  end.

Definition sendCommitMsg (cb msgType : Z) (b : list Z) (s : sys) : res sys :=
  _ ← assert (bool_decide (closeCb_ (vg s) = None));
  match access_check true (vg s) with
  | Some e => Ret (does [answer cb e] s)
  | None =>
      let h := vg s in
      let h := set_ids (version_ h) (opSeqNo_ h + 1) (commitNo_ h + 1) (dmtVersion_ h) h in
      sendWriteReq_ msgType b (commitNo_ h) cb (with_vg h s)
  end.

(** [VolumeGroupFailoverRequest::invokeWork_] *)
Definition failover (id : Z) (q : Request) (s : sys) : res sys :=
  q ← match availableReplicas_ q with
      | r :: rest => _ ← assert (negb (isCoordinator_ (vg s))); Ret (set_available rest (add_endpoint (svcUuid r) (version r) q))
      | [] =>
          _ ← assert (isCoordinator_ (vg s));
          r ← at_ (functionalReplicas_ (vg s)) 0;
          Ret (add_endpoint (svcUuid r) (version r) q)
      end;
  match last (epReqs_ q) with
  | Some ep => Ret (does [read_to id ep] (with_request id (InProgress q) s))
  | None => Fault Undefined
  end.

Definition sendReadMsg (cb : Z) (s : sys) : res sys :=
  _ ← assert (bool_decide (closeCb_ (vg s) = None));
  match access_check false (vg s) with
  | Some e => Ret (does [answer cb e] s)
  | None =>
      let id := next_id s in
      let q := MakeRequest None (if isCoordinator_ (vg s) then [] else functionalReplicas_ (vg s)) [] 0 [] ERR_OK (Some cb) in
      let s := issue (InProgress q) s in
      failover id q (with_vg (incRef (vg s)) s)
  end.

(** *** Responses *)
Definition update_handle (w : Which) (n : nat) (r : Replica) (h : t) : t := set_list w (<[n := r]> (list_of w h)) h.

(** The acknowledgements after the response *)
Definition handleVolumeResponse (src replicaVersion opId : Z) (writeReq : bool) (inStatus : fds_errno) (successAcks : list (Z * fds_errno)) (s : sys)
    : res (sys * list (Z * fds_errno)) :=
  let h := vg s in
  _ ← assert (isCoordinator_ h || negb writeReq);
  if decide (state_ h = Unknown ∨ state_ h = Loading) then Ret (s, successAcks)
  else
    d ← deref (getVolumeReplicaHandle_ src h) h;
    let '(w, n, r) := d : Which * nat * Replica in
    if decide (replicaVersion ≠ version r) then Ret (s, successAcks)
    else if isFunctional (state r) || isSyncing (state r) then
      if negb (isVolumeGroupError inStatus) then
        r ← (if writeReq then _ ← fds_verify (bool_decide (appliedOpId r + 1 = opId)); Ret (setApplied opId r) else Ret r);
        Ret (with_vg (update_handle w n r h) s, if isFunctional (state r) then successAcks ++ [(src, inStatus)] else successAcks)
      else if negb (isCoordinator_ h) then
        Ret (if decide ((w, n) = (InFunctional, 0%nat))
             then with_vg (set_list InFunctional (tail (functionalReplicas_ h) ++ [r]) h) s else s, successAcks)
      else
        x ← changeVolumeReplicaState_ (Some (w, n)) (version r) Offline (opSeqNo_ h) inStatus s;
        let '(s, _, changeErr) := x : sys * option (Which * nat) * fds_errno in
        _ ← fds_verify (bool_decide (changeErr = ERR_OK));
        Ret (s, successAcks)
    else _ ← assert (isCoordinator_ h); Ret (s, successAcks).

(** [getEpReq_]: the first endpoint of a service *)
Definition getEpReq_ (svc : Z) (q : Request) : option (nat * Endpoint) := list_find (λ ep, ep_svc ep = svc) (epReqs_ q).

Record AsyncHdr := Hdr { msg_src_uuid : Z; replicaVersion : Z; msg_code : fds_errno }.

Definition complete_ep (n : nat) (ep : Endpoint) (q : Request) : Request :=
  MakeRequest (write_ q) (availableReplicas_ q) (<[n := Ep (ep_svc ep) (ep_version ep) true]> (epReqs_ q)) (nAcked_ q) (successAcks_ q) (response_ q) (responseCb_ q).
Definition set_acks (n : Z) (acks : list (Z * fds_errno)) (e : fds_errno) (cb : option Z) (q : Request) : Request :=
  MakeRequest (write_ q) (availableReplicas_ q) (epReqs_ q) n acks e cb.

(** [VolumeGroupRequest::complete] *)
Definition complete (id : Z) (s : sys) : res sys := s ← decRef s; Ret (done id s).

Definition answers (cb : option Z) (e : fds_errno) : list Effect := match cb with Some c => [answer c e] | None => [] end.

(** [VolumeGroupBroadcastRequest::handleResponse] *)
Definition broadcast_response (id : Z) (hdr : AsyncHdr) (w : Write) (q : Request) (s : sys) : res sys :=
  match getEpReq_ (msg_src_uuid hdr) q with
  | None => Ret s
  | Some (n, ep) =>
      if ep_complete ep then Ret s
      else
        let q := complete_ep n ep q in
        x ← handleVolumeResponse (msg_src_uuid hdr) (replicaVersion hdr) (opId w) true (msg_code hdr) (successAcks_ q) s;
        let '(s, acks) := x : sys * list (Z * fds_errno) in
        let e := if decide (length (successAcks_ q) = length acks ∧ response_ q = ERR_OK)
                 then if decide (msg_code hdr = ERR_OK) then ERR_VOLUMEGROUP_DOWN else msg_code hdr
                 else response_ q in
        let met := bool_decide (Z.of_nat (length acks) = quorumCnt_ (vg s)) in
        first ← (if met then match responseCb_ q with Some _ => a ← at_ acks 0; Ret a.2 | None => Ret ERR_OK end else Ret ERR_OK);
        let s := does (if met then answers (responseCb_ q) first else []) s in
        let cb := if met then None else responseCb_ q in
        let nAcked := u8 (nAcked_ q + 1) in
        if decide (nAcked = Z.of_nat (length (epReqs_ q))) then
          _ ← assert (match cb with Some _ => bool_decide (e ≠ ERR_OK) | None => true end);
          complete id (does (answers cb e) s)
        else Ret (with_request id (InProgress (set_acks nAcked acks e cb q)) s)
  end.

(** [VolumeGroupFailoverRequest::handleResponse] *)
Definition failover_response (id : Z) (hdr : AsyncHdr) (q : Request) (s : sys) : res sys :=
  match getEpReq_ (msg_src_uuid hdr) q with
  | None => Ret s
  | Some (n, ep) =>
      if ep_complete ep then Ret s
      else
        let q := complete_ep n ep q in
        let nAcked := u8 (nAcked_ q + 1) in
        _ ← assert (bool_decide (nAcked ≤ size (vg s)));
        x ← handleVolumeResponse (msg_src_uuid hdr) (replicaVersion hdr) 0 false (msg_code hdr) (successAcks_ q) s;
        let '(s, acks) := x : sys * list (Z * fds_errno) in
        if decide (length acks = 1)%nat then
          _ ← assert (bool_decide (0 < functional_cnt (vg s)));
          complete id (does (answers (responseCb_ q) (msg_code hdr)) s)
        else if decide (nAcked < size (vg s) ∧ 0 < functional_cnt (vg s)) then
          failover id (set_acks nAcked acks (response_ q) (responseCb_ q) q) s
        else complete id (does (answers (responseCb_ q) (msg_code hdr)) s)
  end.

(** *** Replicas that come back *)
Record AddMsg := MakeAdd { add_svc : Z; add_version : Z; add_target : ResourceState; add_lastOpId : Z }.

Definition handleAddToVolumeGroupMsg (m : AddMsg) (s : sys) : res sys :=
  let h := vg s in
  if decide (state_ h = Unknown ∨ state_ h = Loading ∨ closeCb_ h ≠ None) then Ret (does [add_answer ERR_NOT_READY None] s)
  else if negb (isCoordinator_ h) then Ret (does [add_answer ERR_INVALID_COORDINATOR None] s)
  else
    _ ← assert (bool_decide (state_ h = Active ∨ state_ h = Offline));
    match getVolumeReplicaHandle_ (add_svc m) h with
    | None => Ret (does [add_answer ERR_INVALID None] s)
    | Some i =>
        x ← changeVolumeReplicaState_ (Some i) (add_version m) (add_target m) (add_lastOpId m) ERR_OK s;
        let '(s, _, e) := x : sys * option (Which * nat) * fds_errno in
        Ret (does [add_answer e (Some (getGroupInfoForExternalUse_ (vg s)))] s)
    end.

(** *** Steps *)
Inductive event :=
| Open (cb : Z) (can_write : bool) (dmt : Z * (fds_errno + list Z))
| Close (cb : Z)
| Read (cb : Z)
| Modify (cb msgType : Z) (b : list Z)
| Commit (cb msgType : Z) (b : list Z)
| Add (m : AddMsg)
| Prepared (id : Z) (rsps : list OpenRsp)
| Informed (id : Z)
| Switched (id : Z)
| Timer (id : Z)
| Response (id : Z) (hdr : AsyncHdr).

(** A response to a request that is not outstanding is dropped. *)
Definition handle_event (e : event) (s : sys) : res sys :=
  match e with
  | Open cb w dmt => open cb w dmt s
  | Close cb => close cb s
  | Read cb => sendReadMsg cb s
  | Modify cb m b => sendModifyMsg cb m b s
  | Commit cb m b => sendCommitMsg cb m b s
  | Add m => handleAddToVolumeGroupMsg m s
  | Prepared id rsps => match pending s !! id with Some (Preparing cb) => prepared cb rsps (done id s) | _ => Ret s end
  | Informed id => match pending s !! id with Some (Informing cb) => informed cb (done id s) | _ => Ret s end
  | Switched id => match pending s !! id with Some (Switching cb) => switched cb (done id s) | _ => Ret s end
  | Timer id => match pending s !! id with Some Checking => checkOnNonFunctaionalReplicas_ (done id s) | _ => Ret s end
  | Response id hdr =>
      match pending s !! id with
      | Some (InProgress q) => match write_ q with Some w => broadcast_response id hdr w q s | None => failover_response id hdr q s end
      | _ => Ret s
      end
  end.

End Build.

End VolumeGroupHandle.
