(* ===== verification/VolumeGroupSpec.v ===== *)
(** * Properties of replicated volumes

    The accounts of the coordinator of a volume group: every request of a
    client is answered once or is waiting, references count what is
    outstanding, and a handle is closed only when nothing is. *)

From S2P Require Import Prelude.
From S2P Require Import VolumeGroup.
Import VolumeReplicaHandle VolumeGroupHandle.
Open Scope Z_scope.

Module VolumeGroupSpec.

(** ** Counting *)
Definition count (P : Pending → Prop) `{!∀ p, Decision (P p)} (m : gmap Z Pending) : Z :=
  Z.of_nat (base.size (filter (λ kp, P kp.2) m)).

Definition one (P : Prop) `{!Decision P} : Z := if decide P then 1 else 0.

Section Count.
Context (P : Pending → Prop) `{!∀ p, Decision (P p)}.

Lemma pending_count_insert (m : gmap Z Pending) id p : m !! id = None → count P (<[id := p]> m) = count P m + one (P p).
Proof.
  intros Hn. unfold count, one. destruct (decide (P p)).
  - rewrite map_filter_insert_True, map_size_insert_None by (done || by apply map_lookup_filter_None; left). lia.
  - rewrite map_filter_insert_not' by (done || by rewrite Hn). lia.
Qed.

Lemma pending_count_delete (m : gmap Z Pending) id p : m !! id = Some p → count P (delete id m) = count P m - one (P p).
Proof.
  intros Hp. pose proof (pending_count_insert (delete id m) id p (lookup_delete_eq m id)) as Hi.
  rewrite insert_delete_id in Hi by done. lia.
Qed.

Lemma pending_count_replace (m : gmap Z Pending) id p p' :
  m !! id = Some p → count P (<[id := p']> m) = count P m + one (P p') - one (P p).
Proof.
  intros Hp. rewrite <- insert_delete_eq, pending_count_insert by apply lookup_delete_eq.
  rewrite (pending_count_delete _ _ _ Hp). lia.
Qed.
End Count.

(** The client that waits for an outstanding request *)
Definition cb_of (p : Pending) : option Z :=
  match p with Preparing c | Informing c | Switching c => Some c | Checking => None | InProgress q => responseCb_ q end.

Definition is_checking (p : Pending) : Prop := match p with Checking => True | _ => False end.
#[export] Instance is_checking_dec p : Decision (is_checking p).
Proof. destruct p; apply _. Defined.

Definition waiting (c : Z) (m : gmap Z Pending) : Z := count (λ p, cb_of p = Some c) m.

Definition is_answer (c : Z) (x : Effect) : bool := match x with answer c' _ => bool_decide (c' = c) | _ => false end.
Definition answered (c : Z) (l : list Effect) : Z := Z.of_nat (length (filter (λ x, is_answer c x = true) l)).

Lemma answered_app c l1 l2 : answered c (l1 ++ l2) = answered c l1 + answered c l2.
Proof. unfold answered. rewrite filter_app, length_app. lia. Qed.

Lemma answered_one c cb e : answered c [answer cb e] = one (Some cb = Some c).
Proof. unfold answered, one. rewrite filter_cons. simpl. repeat case_decide; try case_bool_decide; naive_solver. Qed.

Lemma answered_answers c cb e : answered c (answers cb e) = one (cb = Some c).
Proof. destruct cb; [apply answered_one|done]. Qed.

(** ** The buffered writes *)
(** The last writes of the buffer, as many as there were operations, are the
    last operations. *)
Definition buffer_ok (h : t) : Prop :=
  ∀ b i w, writeOpsBuffer_ h = Some b → reverse b !! i = Some w → Z.of_nat i < opSeqNo_ h → opId w = opSeqNo_ h - Z.of_nat i.

Lemma buffer_same h h' : writeOpsBuffer_ h' = writeOpsBuffer_ h → opSeqNo_ h' = opSeqNo_ h → buffer_ok h → buffer_ok h'.
Proof. unfold buffer_ok. by intros -> ->. Qed.

Lemma buffer_reset h : opSeqNo_ h = 0 → buffer_ok h.
Proof. intros E b i w _ _ H. lia. Qed.

Lemma buffer_toggle e h : buffer_ok (toggleWriteOpsBuffering_ e h).
Proof. intros b i w Hb Hi. destruct e; simpl in Hb; [|done]. by injection Hb as <-. Qed.

Lemma reverse_tail {A} (b : list A) i x : reverse (tail b) !! i = Some x → reverse b !! i = Some x.
Proof. destruct b as [|y b]; [done|]. simpl. rewrite reverse_cons. intros H. by apply lookup_app_l_Some. Qed.

Lemma buffer_push h h' w b :
  buffer_ok h → writeOpsBuffer_ h = Some b → writeOpsBuffer_ h' = Some (push_write w b) → opSeqNo_ h' = opSeqNo_ h + 1 → opId w = opSeqNo_ h' → buffer_ok h'.
Proof.
  intros Hok Hb Hb' Ho Hw b' i x Hx Hi Hlt. rewrite Hb' in Hx. injection Hx as <-.
  assert (∃ b0, push_write w b = b0 ++ [w] ∧ ∀ j y, reverse b0 !! j = Some y → reverse b !! j = Some y) as (b0&E&Hsub).
  { unfold push_write. case_decide; [by exists b|]. exists (tail b). split; [done|]. intros j y. apply reverse_tail. }
  rewrite E, reverse_snoc in Hi. destruct i as [|i]; simpl in Hi; [injection Hi as <-; lia|].
  apply Hsub in Hi. rewrite (Hok b i x Hb Hi) by lia. lia.
Qed.

(** ** Accounts *)
(** [k]: references that are held by nothing outstanding; [W]: the requests of
    each client; [m]: requests known to be outstanding *)
Record core (k : Z) (W : Z → Z) (m : gmap Z Pending) (s : sys) : Prop := {
  c_fresh : ∀ id, next_id s ≤ id → pending s !! id = None;
  c_keep : m ⊆ pending s;
  c_refs : refCnt_ (vg s) = Z.of_nat (base.size (pending s)) + k;
  c_checks : count is_checking (pending s) = one (checkOnNonFunctionalScheduled_ (vg s) = true);
  c_owed : ∀ c, answered c (trace s) + waiting c (pending s) = W c;
  c_buffer : buffer_ok (vg s);
}.

(** A close that waits has something to wait for. *)
Definition close_waits (s : sys) : Prop := closeCb_ (vg s) ≠ None → 0 < refCnt_ (vg s).

Definition base k W m s : Prop := core k W m s ∧ close_waits s.

Lemma core_vg k W m s h :
  core k W m s → refCnt_ h = refCnt_ (vg s) → checkOnNonFunctionalScheduled_ h = checkOnNonFunctionalScheduled_ (vg s) →
  (buffer_ok (vg s) → buffer_ok h) → core k W m (with_vg h s).
Proof. intros [] Hr Hc Hbuf. split; simpl; rewrite ?Hr, ?Hc; (done || by apply Hbuf). Qed.

Lemma base_vg k W m s h :
  base k W m s → refCnt_ h = refCnt_ (vg s) → closeCb_ h = closeCb_ (vg s) →
  checkOnNonFunctionalScheduled_ h = checkOnNonFunctionalScheduled_ (vg s) → (buffer_ok (vg s) → buffer_ok h) → base k W m (with_vg h s).
Proof. intros [Hc Hw] Hr Hcl Hs Hbuf. split; [by apply core_vg|]. unfold close_waits. simpl. rewrite Hr, Hcl. exact Hw. Qed.

Lemma core_does k W W' m s l : (∀ c, W' c = W c + answered c l) → core k W m s → core k W' m (does l s).
Proof. intros HW []. split; simpl; try done. intros c. rewrite answered_app, HW, <- c_owed0. lia. Qed.

Lemma base_does k W W' m s l : (∀ c, W' c = W c + answered c l) → base k W m s → base k W' m (does l s).
Proof. intros HW [Hc Hw]. split; [by eapply core_does|done]. Qed.

Lemma base_quiet k W m s l : (∀ c, answered c l = 0) → base k W m s → base k W m (does l s).
Proof. intros Hl. apply base_does. intros c. rewrite Hl. lia. Qed.

Lemma base_issue k W W' m s p :
  ¬ is_checking p → (∀ c, W' c = W c + one (cb_of p = Some c)) → base k W m s → base (k - 1) W' m (issue p s).
Proof.
  intros Hp HW [[Hf Hk Hr Hc Ho Hbf] Hw]. assert (pending s !! next_id s = None) as Hn by (apply Hf; lia).
  split; [split|done]; simpl.
  - intros id Hid. rewrite lookup_insert_ne by lia. apply Hf. lia.
  - by apply insert_subseteq_r; [eapply lookup_weaken_None|].
  - rewrite map_size_insert_None by done. lia.
  - rewrite pending_count_insert by done. unfold one in *. rewrite (decide_False (P := is_checking p)) by done. lia.
  - intros c. unfold waiting. rewrite pending_count_insert by done. rewrite HW, <- Ho. unfold waiting. lia.
  - done.
Qed.

Lemma base_done k W W' m s id p :
  pending s !! id = Some p → ¬ is_checking p → (∀ c, W' c = W c - one (cb_of p = Some c)) → base k W m s → base (k + 1) W' ∅ (done id s).
Proof.
  intros Hp Hq HW [[Hf Hk Hr Hc Ho Hbf] Hw]. split; [split|done]; simpl.
  - intros i Hi. apply lookup_delete_None. right. by apply Hf.
  - apply map_empty_subseteq.
  - rewrite map_size_delete, Hp. simpl. assert (base.size (pending s) ≠ 0)%nat by (intros E; apply map_size_empty_inv in E; rewrite E in Hp; done). lia.
  - rewrite (pending_count_delete _ _ _ _ Hp). unfold one in *. rewrite (decide_False (P := is_checking p)) by done. lia.
  - intros c. unfold waiting. rewrite (pending_count_delete _ _ _ _ Hp). rewrite HW, <- Ho. unfold waiting. lia.
  - done.
Qed.

Lemma base_replace k W W' m s id p p' :
  pending s !! id = Some p → ¬ is_checking p → ¬ is_checking p' → (∀ c, W' c = W c + one (cb_of p' = Some c) - one (cb_of p = Some c)) →
  base k W m s → base k W' ∅ (with_request id p' s).
Proof.
  intros Hp Hq Hq' HW [[Hf Hk Hr Hc Ho Hbf] Hw].
  assert (id < next_id s) by (destruct (decide (next_id s ≤ id)) as [L|]; [rewrite Hf in Hp by done; done|lia]).
  split; [split|done]; simpl.
  - intros i Hi. rewrite lookup_insert_ne by lia. by apply Hf.
  - apply map_empty_subseteq.
  - rewrite map_size_insert_Some by (by rewrite Hp). done.
  - rewrite (pending_count_replace _ _ _ _ _ Hp). unfold one in *.
    rewrite (decide_False (P := is_checking p)), (decide_False (P := is_checking p')) by done. lia.
  - intros c. unfold waiting. rewrite (pending_count_replace _ _ _ _ _ Hp). rewrite HW, <- Ho. unfold waiting. lia.
  - done.
Qed.

(** The next binding of a computation that returned *)
Ltac next H := apply bind_Ret_inv in H as (? & _ & H).
Ltac next_as H x E := apply bind_Ret_inv in H as (x & E & H).

(** Case distinctions on the goal only *)
Ltac goal_decide Hd := match goal with |- context [@decide ?P ?d] => destruct (@decide P d) as [Hd|Hd] end.
Ltac gcase := let Hd := fresh "Hd" in goal_decide Hd.

Section Accounts.
Variable debug grow : bool.
Implicit Types (s : sys) (h : t) (k : Z) (W : Z → Z) (m : gmap Z Pending).

(** What the accounts see of a handle *)
Definition same_refs (h h' : t) : Prop :=
  refCnt_ h' = refCnt_ h ∧ closeCb_ h' = closeCb_ h ∧ checkOnNonFunctionalScheduled_ h' = checkOnNonFunctionalScheduled_ h ∧ (buffer_ok h → buffer_ok h').

Ltac refs := repeat split; try done; by apply buffer_same.

Lemma changeState_refs tgt b h h' : changeState_ debug tgt b h = Ret h' → same_refs h h'.
Proof.
  unfold changeState_. intros H. next_as H h1 E. next H. injection H as <-.
  destruct (decide (tgt = Active)); [next E; injection E as <-; refs|]. injection E as <-. destruct b; refs.
Qed.

Lemma base_same k W m s h : base k W m s → same_refs (vg s) h → base k W m (with_vg h s).
Proof. intros Hb (?&?&?&?). by apply base_vg. Qed.

Lemma closeHandle_core k W m s s' : core k W m s → closeHandle_ debug s = Ret s' → core k W m s' ∧ closeCb_ (vg s') = None.
Proof.
  intros Hc H. unfold closeHandle_ in H. next_as H h E. apply changeState_refs in E as (Er&_&Es&Eb). simpl in Er, Es.
  destruct (closeCb_ h) as [cb|]; [|done]. injection H as <-. split; [|done].
  apply (core_does _ W); [intros c; unfold answered; simpl; lia|]. apply core_vg; [done..|]. intros Hb. by apply (buffer_same h), Eb.
Qed.

Lemma decRef_base k W m s s' : base k W m s → decRef debug s = Ret s' → base (k - 1) W m s'.
Proof.
  intros [[Hf Hk Hr Hc Ho Hbf] Hw] H. unfold decRef in H. next H.
  assert (core (k - 1) W m (with_vg (set_refs (refCnt_ (vg s) - 1) (closeCb_ (vg s)) (checkOnNonFunctionalScheduled_ (vg s)) (vg s)) s)) as Hcore
    by (split; simpl; try done; lia).
  revert H. goal_decide Hd; intros H.
  - apply (closeHandle_core _ _ _ _ _ Hcore) in H as [Hcore' Hn]. split; [done|]. intros Hx. done.
  - injection H as <-. split; [done|]. intros Hx. simpl in *. apply not_and_r in Hd as [Hd|Hd]; [lia|done].
Qed.

Lemma base_incRef k W m s : base k W m s → base (k + 1) W m (with_vg (incRef (vg s)) s).
Proof. intros [[Hf Hk Hr Hc Ho Hbf] Hw]. split; [split; simpl; try done; lia|]. intros Hx. specialize (Hw Hx). simpl in *. lia. Qed.

Lemma base_ref k k' W m s h : h = incRef (vg s) → k' = k + 1 → base k W m s → base k' W m (with_vg h s).
Proof. intros -> ->. apply base_incRef. Qed.

Lemma close_base W m cb s s' : base 0 W m s → close debug cb s = Ret s' → base 0 W m s'.
Proof.
  intros [Hc Hw] H. unfold close in H.
  set (h := match closeCb_ (vg s) with None => _ | Some _ => _ end) in *.
  assert (refCnt_ h = refCnt_ (vg s)) as Er by (subst h; by destruct (closeCb_ (vg s))).
  assert (checkOnNonFunctionalScheduled_ h = checkOnNonFunctionalScheduled_ (vg s)) as Es by (subst h; by destruct (closeCb_ (vg s))).
  assert (buffer_ok (vg s) → buffer_ok h) as Eb by (subst h; destruct (closeCb_ (vg s)); by apply buffer_same).
  revert H. goal_decide Hd; intros H.
  - apply (closeHandle_core 0 W m) in H as [Hcore' Hn]; [|by apply core_vg]. split; [done|]. intros Hx. done.
  - injection H as <-. split; [by apply core_vg|]. intros _. destruct Hc. simpl. lia.
Qed.

Lemma schedule_base k W m s s' : base k W m s → scheduleCheckOnNonfunctionalReplicas_ s = Ret s' → base k W m s'.
Proof.
  intros [[Hf Hk Hr Hc Ho Hbf] Hw] H. unfold scheduleCheckOnNonfunctionalReplicas_ in H. next H.
  destruct (checkOnNonFunctionalScheduled_ (vg s)) eqn:Es; injection H as <-; [split; [split; rewrite ?Es|]; done|].
  assert (pending s !! next_id s = None) as Hn by (apply Hf; lia).
  apply base_quiet; [done|]. split; [split|]; simpl.
  - intros id Hid. rewrite lookup_insert_ne by lia. apply Hf. lia.
  - by apply insert_subseteq_r; [eapply lookup_weaken_None|].
  - rewrite map_size_insert_None by done. lia.
  - rewrite pending_count_insert by done. rewrite Hc. done.
  - intros c. unfold waiting. rewrite pending_count_insert by done. rewrite <- Ho. unfold waiting, one. simpl. lia.
  - done.
  - intros Hx. specialize (Hw Hx). simpl in *. lia.
Qed.

Lemma respond_base k W W' m s s' cb e :
  (∀ c, W' c = W c + one (Some cb = Some c)) → base k W m s → respond debug cb e s = Ret s' → base (k - 1) W' m s'.
Proof.
  intros HW Hb H. unfold respond in H. next_as H s1 E. injection H as <-. apply (decRef_base _ _ _ _ _ Hb) in E.
  eapply base_does; [|exact E]. intros c. by rewrite HW, answered_one.
Qed.

(** *** Replicas *)
Lemma replay_base k W m svc start b s s' r : base k W m s → replayFromWriteOpsBuffer_ debug svc start b s = Ret (s', r) → base k W m s'.
Proof.
  intros Hb H. unfold replayFromWriteOpsBuffer_ in H. next H. next H. revert H.
  repeat (gcase; [by intros [= <- <-]|]). intros [= <- <-]. apply base_quiet; [|done].
  intros c. unfold answered. generalize (skipn (Z.to_nat (start - (opSeqNo_ (vg s) - Z.of_nat (length b) + 1))) b).
  intros l. by induction l.
Qed.

Lemma change_handle_base k W m v tgt op e r s s' r' :
  base k W m s → change_handle debug v tgt op e r s = Ret (Some (s', r')) → base k W m s'.
Proof.
  intros Hb H. unfold change_handle in H. revert H. gcase; [intros [= <- <-]; apply base_same; [done|]; repeat split; intros _; apply buffer_toggle|].
  destruct (isSyncing tgt).
  { gcase; intros H; [by next H|]. next_as H s1 E. injection H as <- <-.
    destruct (writeOpsBuffer_ (vg s)) as [b|]; [|by injection E as <-].
    next_as E x Ex. destruct x as [s2 b2]. injection E as <-. apply (replay_base _ _ _ _ _ _ _ _ _ Hb) in Ex. apply base_same; [done|]. repeat split. intros _. apply buffer_toggle. }
  destruct (isNonFunctional tgt); intros H.
  { next H. next_as H s1 E. injection H as <- <-. by eapply schedule_base. }
  destruct (isFunctional tgt); [|by injection H as <- <-].
  revert H. gcase; intros H; next H; [done|]. by injection H as <- <-.
Qed.

Lemma move_refs src dst n r h h' : move_handle grow src dst n r h = Ret h' → same_refs h h'.
Proof. unfold move_handle. destruct grow; repeat gcase; intros [= <-]; destruct src, dst; refs. Qed.

Lemma group_actions_refs tgt h h' : group_actions debug tgt h = Ret h' → same_refs h h'.
Proof.
  unfold group_actions. destruct (isFunctional tgt).
  - gcase; [apply changeState_refs|]. intros [= <-]. refs.
  - destruct (isNonFunctional tgt); [|intros [= <-]; refs]. intros H. next_as H h1 E. injection H as <-.
    assert (same_refs h h1) as (?&?&?&?) by (revert E; gcase; [apply changeState_refs|intros [= <-]; refs]).
    gcase; [|done]. repeat split; try done. intros _. by apply buffer_reset.
Qed.

Lemma same_refs_trans h1 h2 h3 : same_refs h1 h2 → same_refs h2 h3 → same_refs h1 h3.
Proof. intros (?&?&?&?) (?&?&?&?). repeat split; try congruence. auto. Qed.

Lemma change_base k W m i v tgt op e s s' i' x :
  base k W m s → changeVolumeReplicaState_ debug grow i v tgt op e s = Ret (s', i', x) → base k W m s'.
Proof.
  intros Hb H. unfold changeVolumeReplicaState_ in H. next H. next_as H d Ed. destruct d as [[w n] r]. next_as H c Ec.
  destruct c as [[s1 r1]|]; [|by injection H as <- <- <-]. apply (change_handle_base _ _ _ _ _ _ _ _ _ _ _ Hb) in Ec.
  next_as H src Es. next_as H dst Et. revert H. gcase; [done|]. intros H.
  next_as H h Eh. next H. next H. next_as H h2 Eg. injection H as <- <- <-.
  apply base_same; [done|]. eapply same_refs_trans; [by eapply move_refs|by eapply group_actions_refs].
Qed.

Lemma handleVolumeResponse_base k W m src v op wr st acks s s' acks' :
  base k W m s → handleVolumeResponse debug grow src v op wr st acks s = Ret (s', acks') → base k W m s'.
Proof.
  intros Hb H. unfold handleVolumeResponse in H. next H. revert H. gcase; [by intros [= <- <-]|]. intros H.
  next_as H d Ed. destruct d as [[w n] r]. revert H. gcase; [by intros [= <- <-]|].
  destruct (_ || _); intros H; [|next H; by injection H as <- <-].
  destruct (negb (isVolumeGroupError st)).
  { next_as H r1 Er. injection H as <- _. apply base_same; [done|]. destruct w; refs. }
  destruct (negb (isCoordinator_ (vg s))).
  { injection H as <- _. gcase; [apply base_same; [done|refs]|done]. }
  next_as H y Ey. destruct y as [[s1 i1] e1]. next H. injection H as <- _. by eapply change_base.
Qed.

Lemma make_functional_base k W m s r s' : base k W m s → make_functional debug grow s r = Ret s' → base k W m s'.
Proof.
  intros Hb H. unfold make_functional in H. next_as H y Ey. destruct y as [[s1 i1] e1]. next_as H z Ez. destruct z as [[s2 i2] e2].
  injection H as <-. eapply change_base; [|exact Ez]. by eapply change_base.
Qed.

Lemma base_role k W m s b c : base k W m s → base k W m (with_vg (set_role b c (vg s)) s).
Proof. intros Hb. apply base_same; [done|refs]. Qed.

Lemma retry_refs c h : same_refs h (retry_if_none c h).
Proof. unfold retry_if_none. destruct (openRetryCtx_ h); refs. Qed.

Lemma determine_base k W m rsps s s' : base k W m s → determineFunctaionalReplicas_ debug grow rsps s = Ret s' → base k W m s'.
Proof.
  intros Hb H. unfold determineFunctaionalReplicas_ in H. revert H. gcase; [done|]. cbv zeta. intros H. next H. revert H. gcase; intros H.
  - next H. next H. next H. injection H as <-. apply base_same; [done|]. apply retry_refs.
  - destruct (_ && _); [injection H as <-; apply base_same; [done|apply retry_refs]|]. next H. revert H. gcase; intros H; [|by injection H as <-].
    next_as H s1 E. injection H as <-. apply base_same; [|refs].
    eapply (foldM_inv (λ s, base k W m s)); [exact Hb| |exact E]. intros ? ? ? _. apply make_functional_base.
Qed.

(** [W] with a request of a client *)
Definition plus (o : option Z) (W : Z → Z) : Z → Z := λ c, W c + one (o = Some c).

Lemma runOpen_base k W m cb s s' : base k W m s → runOpenProtocol_ debug cb s = Ret s' → base (k - 1) (plus (Some cb) W) m s'.
Proof.
  intros Hb H. unfold runOpenProtocol_ in H. next_as H y Ey. destruct y as [l f]. injection H as <-.
  apply base_quiet; [done|]. eapply base_issue; [| |exact Hb]; simpl; [tauto|done].
Qed.

Lemma prepared_base W m cb rsps s s' : base 1 W m s → prepared debug grow cb rsps s = Ret s' → base 0 (plus (Some cb) W) m s'.
Proof.
  intros Hb H. unfold prepared in H. destruct (negb (isCoordinator_ (vg s))).
  { unfold handleOpenResponseForNonCoordinator_ in H. revert H. gcase; [done|]. gcase; [|gcase]; intros H; [next_as H h E| |next_as H h E];
      (eapply (respond_base 1) in H; [exact H|done|]); [|done|]; (apply base_same; [done|by eapply changeState_refs]). }
  next_as H s1 E. apply (determine_base _ _ _ _ _ _ Hb) in E. clear Hb. rename E into Hb.
  assert (∀ s2, (if decide (functionalReplicas_ (vg s1) = []) then respond debug cb ERR_VOLUMEGROUP_INVALID s1
          else Ret (does [createBroadcastGroupInfoReq_ (vg s1)] (issue (Informing cb) s1))) = Ret s2 → base 0 (plus (Some cb) W) m s2) as Hend.
  { intros s2. gcase; intros H2; [by eapply (respond_base 1) in H2|]. injection H2 as <-. apply base_quiet; [done|].
    by apply (base_issue 1 W); [simpl; tauto| |]. }
  destruct (openRetryCtx_ (vg s1)) as [[tries svc sw]|]; [|by apply Hend].
  destruct tries; destruct sw; try (by apply Hend); next H.
  - injection H as <-. apply base_quiet; [done|]. by apply (base_issue 1 W); [simpl; tauto| |].
  - eapply (runOpen_base 1) in H; [exact H|]. by apply base_role.
Qed.

Lemma informed_base W m cb s s' : base 1 W m s → informed debug cb s = Ret s' → base 0 (plus (Some cb) W) m s'.
Proof.
  intros Hb H. unfold informed in H. next_as H s1 E1. next_as H h E2.
  assert (base 1 W m s1) as Hb1. { revert E1. gcase; intros E1; [by eapply schedule_base|by injection E1 as <-]. }
  eapply (respond_base 1) in H; [exact H|done|]. apply base_same; [done|]. by eapply changeState_refs.
Qed.

(** The state in which the check on the replicas runs *)
Definition unscheduled (id : Z) (s : sys) : sys := with_vg (set_refs (refCnt_ (vg s)) (closeCb_ (vg s)) false (vg s)) (done id s).

Lemma unscheduled_base W s id : pending s !! id = Some Checking → base 0 W ∅ s → base 1 W ∅ (unscheduled id s).
Proof.
  intros Hp [[Hf Hk Hr Hc Ho Hbf] Hw]. split; [split|done]; simpl.
  - intros i Hi. apply lookup_delete_None. right. by apply Hf.
  - apply map_empty_subseteq.
  - rewrite map_size_delete, Hp. simpl. assert (base.size (pending s) ≠ 0)%nat by (intros E; apply map_size_empty_inv in E; rewrite E in Hp; done). lia.
  - rewrite (pending_count_delete _ _ _ _ Hp), Hc. destruct (checkOnNonFunctionalScheduled_ (vg s)) eqn:Es; [done|].
    pose proof (pending_count_delete is_checking _ _ _ Hp) as Hd. rewrite Hc in Hd. unfold one, count in Hd. simpl in Hd. lia.
  - intros c. unfold waiting. rewrite (pending_count_delete _ _ _ _ Hp). rewrite <- Ho. unfold waiting, one. simpl. lia.
  - done.
Qed.

Lemma timer_base W s s' id :
  pending s !! id = Some Checking → base 0 W ∅ s → checkOnNonFunctaionalReplicas_ debug (done id s) = Ret s' → base 0 W ∅ s'.
Proof.
  intros Hp Hb%(unscheduled_base _ _ _ Hp) H. unfold checkOnNonFunctaionalReplicas_ in H. simpl in H. fold (unscheduled id s) in H.
  revert H. gcase; intros H; [by eapply (decRef_base 1) in H|]. next_as H s2 E. eapply (decRef_base 1) in H; [exact H|].
  revert E. gcase; intros E; [|by injection E as <-]. eapply schedule_base; [|exact E]. by apply base_quiet.
Qed.

Lemma open_base W cb w dmt s s' : base 0 W ∅ s → open debug cb w dmt s = Ret s' → base 0 (plus (Some cb) W) ∅ s'.
Proof.
  intros Hb%base_incRef H. unfold open in H. cbv zeta in H. set (s1 := with_vg (incRef (vg s)) s) in *. clearbody s1. simpl in Hb.
  revert H. gcase; [intros H; by eapply (respond_base 1) in H|]. intros H. next_as H y Ey. destruct y as [h e].
  assert (same_refs (vg s1) h) as Hs.
  { unfold resetGroup_ in Ey. destruct dmt as [v [x|svcs]]; simpl in Ey.
    { injection Ey as <- <-. destruct w; repeat split; intros _; by apply buffer_reset. }
    next_as Ey h1 E. injection Ey as <- <-. apply changeState_refs in E. eapply same_refs_trans; [|exact E].
    destruct w; simpl; [|destruct (isCoordinator_ (vg s1))]; repeat split; intros _; by apply buffer_reset. }
  assert (base 1 W ∅ (with_vg h s1)) as Hb2 by by apply base_same.
  destruct e; [by eapply (respond_base 1) in H|by eapply (runOpen_base 1) in H].
Qed.
(** *** Requests *)
Lemma add_endpoints q l :
  foldl (λ q r, add_endpoint (svcUuid r) (version r) q) q l =
  MakeRequest (write_ q) (availableReplicas_ q) (epReqs_ q ++ ((λ r, Ep (svcUuid r) (version r) false) <$> l)) (nAcked_ q) (successAcks_ q) (response_ q) (responseCb_ q).
Proof.
  revert q. induction l as [|r l IH]; intros q; simpl; [rewrite app_nil_r; by destruct q|]. rewrite IH. simpl. by rewrite <- app_assoc.
Qed.

Lemma quiet_map {A} (f : A → Effect) l : (∀ c x, is_answer c (f x) = false) → ∀ c, answered c (f <$> l) = 0.
Proof. intros Hf c. unfold answered. rewrite filter_none; [done|]. intros x (y&->&_)%list_elem_of_fmap. rewrite Hf. done. Qed.

Lemma sendWriteReq_base W mt b seq cb h s s' :
  base 0 W ∅ s → refCnt_ h = refCnt_ (vg s) → closeCb_ h = closeCb_ (vg s) → checkOnNonFunctionalScheduled_ h = checkOnNonFunctionalScheduled_ (vg s) →
  writeOpsBuffer_ h = writeOpsBuffer_ (vg s) → opSeqNo_ h = opSeqNo_ (vg s) + 1 →
  sendWriteReq_ mt b seq cb (with_vg h s) = Ret s' → base 0 (plus (Some cb) W) ∅ s'.
Proof.
  intros Hb Hr Hcl Hsc Hbuf Ho H. unfold sendWriteReq_ in H. cbv zeta in H. injection H as <-. unfold broadcast. rewrite add_endpoints.
  apply base_quiet; [by apply quiet_map|].
  eapply base_replace; [apply lookup_insert_eq|simpl; tauto|simpl; tauto| |apply (base_ref (-1)); [reflexivity|reflexivity|]].
  - intros c. simpl. instantiate (1 := plus (Some cb) W). lia.
  - apply (base_issue 0 W); [simpl; tauto|done|]. set (w := MakeWrite _ _ _ _).
    change (with_vg ?h1 (with_vg h s)) with (with_vg h1 s). simpl. rewrite Hbuf. apply base_vg; [done|by destruct (writeOpsBuffer_ (vg s))..|].
    destruct (writeOpsBuffer_ (vg s)) as [l|] eqn:El; intros Hok.
    + by eapply (buffer_push (vg s) _ w l).
    + intros b0 i x Hb0. rewrite Hbuf in Hb0. done.
Qed.

Lemma rejected_base W cb e s : base 0 W ∅ s → base 0 (plus (Some cb) W) ∅ (does [answer cb e] s).
Proof. apply base_does. intros c. by rewrite answered_one. Qed.

Lemma failover_cb id q s s' :
  failover debug id q s = Ret s' → ∃ q' ep, responseCb_ q' = responseCb_ q ∧ s' = does [read_to id ep] (with_request id (InProgress q') s).
Proof.
  intros H. unfold failover in H. next_as H q1 E. destruct (last (epReqs_ q1)) as [ep|]; [|done]. injection H as <-. exists q1, ep. split; [|done].
  destruct (availableReplicas_ q); next E; [next E|]; by injection E as <-.
Qed.

Lemma sendReadMsg_base W cb s s' : base 0 W ∅ s → sendReadMsg debug cb s = Ret s' → base 0 (plus (Some cb) W) ∅ s'.
Proof.
  intros Hb H. unfold sendReadMsg in H. next H. destruct (access_check false (vg s)); [injection H as <-; by apply rejected_base|].
  cbv zeta in H. apply failover_cb in H as (q'&ep&Hq&->). apply base_quiet; [done|].
  eapply base_replace; [apply lookup_insert_eq|simpl; tauto|simpl; tauto| |apply (base_ref (-1)); [reflexivity|reflexivity|]].
  - intros c. simpl. rewrite Hq. instantiate (1 := plus (Some cb) W). simpl. lia.
  - by apply (base_issue 0 W); [simpl; tauto| |].
Qed.

Lemma complete_base W W' id q s s' :
  pending s !! id = Some (InProgress q) → (∀ c, W' c = W c - one (responseCb_ q = Some c)) →
  base 0 W {[id := InProgress q]} s → complete debug id s = Ret s' → base 0 W' ∅ s'.
Proof.
  intros Hp HW Hb H. unfold complete in H. next_as H s1 E. injection H as <-. apply (decRef_base _ _ _ _ _ Hb) in E.
  eapply (base_done (-1) W W' _ _ _ (InProgress q)); [|simpl; tauto|done|exact E].
  destruct E as [E _]. destruct E. eapply lookup_weaken; [|exact c_keep0]. apply lookup_singleton_eq.
Qed.

Lemma base_keep k W s id p : pending s !! id = Some p → base k W ∅ s → base k W {[id := p]} s.
Proof. intros Hp [[] Hw]. split; [split|]; try done. by apply map_singleton_subseteq_l. Qed.

Lemma base_lookup k W s id p : base k W {[id := p]} s → pending s !! id = Some p.
Proof. intros [[] _]. eapply lookup_weaken; [|exact c_keep0]. apply lookup_singleton_eq. Qed.

Lemma broadcast_response_base W id hdr w q s s' :
  pending s !! id = Some (InProgress q) → base 0 W ∅ s → broadcast_response debug grow id hdr w q s = Ret s' → base 0 W ∅ s'.
Proof.
  intros Hp Hb%(base_keep _ _ _ _ _ Hp) H. unfold broadcast_response in H.
  destruct (getEpReq_ (msg_src_uuid hdr) q) as [[n ep]|]; [|injection H as <-; destruct Hb as [[] ?]; split; [split|]; try done; apply map_empty_subseteq].
  destruct (ep_complete ep); [injection H as <-; destruct Hb as [[] ?]; split; [split|]; try done; apply map_empty_subseteq|].
  cbv zeta in H. next_as H y Ey. destruct y as [s1 acks]. next_as H fst0 Ef. simpl responseCb_ in *.
  apply (handleVolumeResponse_base _ _ _ _ _ _ _ _ _ _ _ _ Hb) in Ey. clear Hb Ef. rename Ey into Hb. pose proof (base_lookup _ _ _ _ _ Hb) as Hp1.
  set (met := bool_decide _) in *. clearbody met. set (e := if decide (_ ∧ _) then _ else _) in *. clearbody e.
  revert H. gcase; intros H.
  - next H. eapply (complete_base (plus (responseCb_ q) W)) in H; [exact H|done|intros c; unfold plus; lia|].
    eapply base_does; [|eapply base_does; [|exact Hb]; done]. intros c. unfold plus.
    destruct met; rewrite ?answered_answers; simpl; unfold answered, one; simpl; lia.
  - injection H as <-. eapply base_replace; [exact Hp1|simpl; tauto|simpl; tauto| |eapply base_does; [|exact Hb]; done].
    intros c. simpl. destruct met; rewrite ?answered_answers; unfold answered, one; simpl; lia.
Qed.

Lemma failover_response_base W id hdr q s s' :
  pending s !! id = Some (InProgress q) → base 0 W ∅ s → failover_response debug grow id hdr q s = Ret s' → base 0 W ∅ s'.
Proof.
  intros Hp Hb%(base_keep _ _ _ _ _ Hp) H. unfold failover_response in H.
  destruct (getEpReq_ (msg_src_uuid hdr) q) as [[n ep]|]; [|injection H as <-; destruct Hb as [[] ?]; split; [split|]; try done; apply map_empty_subseteq].
  destruct (ep_complete ep); [injection H as <-; destruct Hb as [[] ?]; split; [split|]; try done; apply map_empty_subseteq|].
  cbv zeta in H. next H. next_as H y Ey. destruct y as [s1 acks]. simpl responseCb_ in *.
  apply (handleVolumeResponse_base _ _ _ _ _ _ _ _ _ _ _ _ Hb) in Ey. clear Hb. rename Ey into Hb. pose proof (base_lookup _ _ _ _ _ Hb) as Hp1.
  assert (∀ s2, complete debug id (does (answers (responseCb_ q) (msg_code hdr)) s1) = Ret s2 → base 0 W ∅ s2) as Hdone.
  { intros s2 H2. eapply (complete_base (plus (responseCb_ q) W)) in H2; [exact H2|done|intros c; unfold plus; lia|].
    eapply base_does; [|exact Hb]. intros c. by rewrite answered_answers. }
  revert H. gcase; [intros H; next H; by apply Hdone|]. gcase; [|by apply Hdone]. intros H.
  apply failover_cb in H as (q'&ep'&Hq&->). apply base_quiet; [done|].
  eapply base_replace; [exact Hp1|simpl; tauto|simpl; tauto| |exact Hb]. intros c. simpl. rewrite Hq. simpl. lia.
Qed.

(** The client of a request *)
Definition client (e : event) : option Z :=
  match e with Open c _ _ | Read c | Modify c _ _ | Commit c _ _ => Some c | _ => None end.

Lemma plus_none W m s : base 0 W m s → base 0 (plus None W) m s.
Proof. intros [[] ?]. split; [split|]; try done. intros c. rewrite c_owed0. unfold plus, one. simpl. lia. Qed.

Lemma event_base W e s s' : base 0 W ∅ s → handle_event debug grow e s = Ret s' → base 0 (plus (client e) W) ∅ s'.
Proof.
  intros Hb H. destruct e; simpl in H |- *.
  - by eapply open_base.
  - apply plus_none. by eapply close_base.
  - by eapply sendReadMsg_base.
  - unfold sendModifyMsg in H. next H. destruct (access_check true (vg s)); [injection H as <-; by apply rejected_base|].
    by eapply sendWriteReq_base; [..|exact H].
  - unfold sendCommitMsg in H. next H. destruct (access_check true (vg s)); [injection H as <-; by apply rejected_base|].
    by eapply sendWriteReq_base; [..|exact H].
  - apply plus_none. unfold handleAddToVolumeGroupMsg in H. revert H.
    gcase; [intros [= <-]; by apply base_quiet|]. destruct (negb (isCoordinator_ (vg s))); [intros [= <-]; by apply base_quiet|].
    intros H. next H. destruct (getVolumeReplicaHandle_ (add_svc m) (vg s)); [|injection H as <-; by apply base_quiet].
    next_as H y Ey. destruct y as [[s1 i1] e1]. injection H as <-. apply base_quiet; [done|]. by eapply change_base.
  - apply plus_none. destruct (pending s !! id) as [[cb| | | |]|] eqn:Hp; try (by injection H as <-).
    eapply (prepared_base (λ c, W c - one (Some cb = Some c))) in H; [|eapply (base_done 0); [exact Hp|simpl; tauto|done|exact Hb]].
    destruct H as [[] ?]. split; [split|]; try done. intros c. rewrite c_owed0. unfold plus. lia.
  - apply plus_none. destruct (pending s !! id) as [[ |cb| | |]|] eqn:Hp; try (by injection H as <-).
    eapply (informed_base (λ c, W c - one (Some cb = Some c))) in H; [|eapply (base_done 0); [exact Hp|simpl; tauto|done|exact Hb]].
    destruct H as [[] ?]. split; [split|]; try done. intros c. rewrite c_owed0. unfold plus. lia.
  - apply plus_none. destruct (pending s !! id) as [[ | |cb| |]|] eqn:Hp; try (by injection H as <-).
    unfold switched in H. destruct (openRetryCtx_ (vg (done id s))) as [c0|]; [|done].
    eapply (runOpen_base 1 (λ c, W c - one (Some cb = Some c))) in H; [|apply base_role; eapply (base_done 0); [exact Hp|simpl; tauto|done|exact Hb]].
    destruct H as [[] ?]. split; [split|]; try done. intros c. rewrite c_owed0. unfold plus. lia.
  - apply plus_none. destruct (pending s !! id) as [[ | | | |]|] eqn:Hp; try (by injection H as <-). by eapply timer_base.
  - apply plus_none. destruct (pending s !! id) as [[ | | | |q]|] eqn:Hp; try (by injection H as <-).
    destruct (write_ q); [by eapply broadcast_response_base|by eapply failover_response_base].
Qed.

(** ** Runs *)
(** Each event with whether the vectors grow *)
Definition run (l : list (bool * event)) (s : sys) : res sys := foldM (λ s x, handle_event debug x.1 x.2 s) s l.
End Accounts.

Definition initial (quorumCnt : Z) : sys := Sys (make quorumCnt) ∅ 0 [].

(** The requests of a client in a list of events *)
Definition requests (c : Z) (l : list (bool * event)) : Z := Z.of_nat (length (filter (λ x, client x.2 = Some c) l)).

Lemma run_base debug l W s s' : base 0 W ∅ s → run debug l s = Ret s' → base 0 (λ c, W c + requests c l) ∅ s'.
Proof.
  revert W s. induction l as [|[g e] l IH]; intros W s Hb H; simpl in H.
  - injection H as <-. destruct Hb as [[] ?]. split; [split|]; try done. intros c. rewrite c_owed0. unfold requests. simpl. lia.
  - next_as H s1 E. apply (event_base _ _ _ _ _ _ Hb) in E. apply (IH _ _ E) in H. destruct H as [[] ?]. split; [split|]; try done.
    intros c. rewrite c_owed0. unfold plus, requests, one. rewrite filter_cons. simpl. repeat case_decide; simpl; lia.
Qed.

Lemma initial_base q : base 0 (λ _, 0) ∅ (initial q).
Proof. split; [split; simpl; try done; apply map_empty_subseteq|]. intros Hx. by destruct Hx. Qed.

(** C8. The accounts of a volume group: whatever the clients, the replicas and
    the timers do, as long as the process lives, each client has had exactly as
    many answers as it sent requests (opens, reads and writes) apart from those
    that are outstanding; the reference count is the number of outstanding
    requests and timers; and when nothing is outstanding no close waits. *)
Theorem group_accounts debug q l s :
  run debug l (initial q) = Ret s →
  (∀ c, answered c (trace s) + waiting c (pending s) = requests c l) ∧
  refCnt_ (vg s) = Z.of_nat (base.size (pending s)) ∧
  (pending s = ∅ → closeCb_ (vg s) = None).
Proof.
  intros H. apply (run_base _ _ _ _ _ (initial_base q)) in H as [[Hf Hk Hr Hc Ho Hbf] Hw]. split; [|split].
  - intros c. rewrite Ho. lia.
  - lia.
  - intros E. destruct (closeCb_ (vg s)) eqn:Ec; [|done]. unfold close_waits in Hw. rewrite Ec, Hr, E, map_size_empty in Hw. lapply Hw; [lia|done].
Qed.

Lemma reverse_lookup_Z {A} (b : list A) k x : b !! k = Some x → reverse b !! (length b - 1 - k)%nat = Some x.
Proof. intros H. apply lookup_lt_Some in H as Hlt. rewrite reverse_lookup by lia. rewrite <- H. f_equal. lia. Qed.

Lemma buffer_skip h b start :
  buffer_ok h → writeOpsBuffer_ h = Some b → 1 ≤ start → opSeqNo_ h - Z.of_nat (length b) + 1 ≤ start ≤ opSeqNo_ h →
  opId <$> skipn (Z.to_nat (start - (opSeqNo_ h - Z.of_nat (length b) + 1))) b = seqZ start (opSeqNo_ h - start + 1).
Proof.
  intros Hok Hb H1 Hs. apply list_eq_same_length with (Z.to_nat (opSeqNo_ h - start + 1)).
  - rewrite length_seqZ. done.
  - rewrite length_fmap, length_skipn. lia.
  - intros i x y Hi Hx Hy. rewrite list_lookup_fmap, lookup_drop in Hx. apply lookup_seqZ in Hy as [-> _].
    destruct (b !! _) as [w|] eqn:Ew; [|done]. injection Hx as <-. apply lookup_lt_Some in Ew as Hlt. apply reverse_lookup_Z in Ew.
    rewrite (Hok b _ w Hb Ew) by lia. lia.
Qed.

(** C10. What a replica that comes back is sent from the buffer: if the buffer
    reaches back to the operation it asks for, exactly the operations from that
    one to the last, in order; nothing if it has them all; and nothing, with a
    failure, if the buffer does not reach back. *)
Theorem replay_exact debug q l s b svc start :
  run debug l (initial q) = Ret s → writeOpsBuffer_ (vg s) = Some b → 1 ≤ start →
  let op := opSeqNo_ (vg s) in
  let from := op - Z.of_nat (length b) + 1 in
  (start = op + 1 → replayFromWriteOpsBuffer_ false svc start b s = Ret (s, true)) ∧
  (from ≤ start ≤ op → ∃ ws, replayFromWriteOpsBuffer_ false svc start b s = Ret (does (replay_to svc <$> ws) s, true) ∧
     opId <$> ws = seqZ start (op - start + 1)) ∧
  (start < from ∨ op + 1 < start → replayFromWriteOpsBuffer_ false svc start b s = Ret (s, false)).
Proof.
  intros H Hb H1 op from. apply (run_base _ _ _ _ _ (initial_base q)) in H as [[_ _ _ _ _ Hbuf] _].
  unfold replayFromWriteOpsBuffer_. cbn [fds_assert mbind res_bind]. fold op. fold from. split; [|split].
  - intros E. by rewrite decide_True.
  - intros E. rewrite !decide_False by lia. eexists. split; [done|]. by apply buffer_skip.
  - intros E. rewrite decide_False, decide_True by (subst from; lia). done.
Qed.

End VolumeGroupSpec.
