(* ===== verification/VolumeGroupReads.v ===== *)
(** * Reads of replicated volumes

    What the steps of the coordinator leave alone: outstanding requests that are
    not answered, and the client that waits for the group to be closed.  A read
    that is sent twice to one replica is never answered. *)

From S2P Require Import Prelude.
From S2P Require Import VolumeGroup.
From S2P Require Import VolumeGroupSpec.
Import VolumeReplicaHandle VolumeGroupHandle VolumeGroupSpec.
Open Scope Z_scope.

Module VolumeGroupReads.

(** Nothing is said to a client that waits for a close. *)
Definition no_close (l : list Effect) : Prop := ∀ c, closed c ∉ l.

(** Requests may be added, the outstanding ones stay, and the group is not
    closed. *)
Record steps (s s' : sys) : Prop := {
  st_next : next_id s ≤ next_id s';
  st_kept : ∀ i p, i < next_id s → pending s !! i = Some p → pending s' !! i = Some p;
  st_trace : ∃ l, trace s' = trace s ++ l ∧ no_close l;
}.

Lemma no_close_app l l' : no_close l → no_close l' → no_close (l ++ l').
Proof. intros H H' c [Hx|Hx]%elem_of_app; [by apply H in Hx|by apply H' in Hx]. Qed.

#[local] Instance steps_trans : Transitive steps.
Proof.
  intros s1 s2 s3 [N1 K1 (l1&T1&C1)] [N2 K2 (l2&T2&C2)]. split; [lia|intros i p Hi Hp; apply K2; [lia|by apply K1]|].
  exists (l1 ++ l2). split; [by rewrite T2, T1, app_assoc|by apply no_close_app].
Qed.

Lemma steps_vg h s s' : pending s' = pending s → next_id s' = next_id s → trace s' = trace s → steps s (with_vg h s').
Proof. intros Ep En Et. split; simpl; rewrite ?Ep, ?En, ?Et; [lia|done|]. exists []. split; [by rewrite app_nil_r|]. by intros c ?%elem_of_nil. Qed.

#[local] Instance steps_refl : Reflexive steps.
Proof. intros [h m n l]. by apply (steps_vg h (Sys h m n l) (Sys h m n l)). Qed.

Lemma steps_does l s s' : no_close l → steps s s' → steps s (does l s').
Proof. intros Hl Hs. etrans; [exact Hs|]. split; simpl; [lia|done|]. by exists l. Qed.

Lemma steps_issue p s s' : steps s s' → steps s (issue p s').
Proof.
  intros Hs. etrans; [exact Hs|]. split; simpl; [lia|intros i q Hi Hq; rewrite lookup_insert_ne by lia; done|].
  exists []. split; [by rewrite app_nil_r|]. by intros c ?%elem_of_nil.
Qed.

Lemma steps_request id p s s' : next_id s ≤ id → steps s s' → steps s (with_request id p s').
Proof.
  intros Hid [N K T]. split; simpl; [done| |done]. intros i q Hi Hq. rewrite lookup_insert_ne by lia. by apply K.
Qed.

Lemma steps_with h s s' : steps s s' → steps s (with_vg h s').
Proof. intros Hs. etrans; [exact Hs|]. by apply steps_vg. Qed.

Lemma no_close_map {A} (f : A → Effect) l : (∀ c x, closed c ≠ f x) → no_close (f <$> l).
Proof. intros Hf c (x&E&_)%list_elem_of_fmap. by apply Hf in E. Qed.

Lemma no_close_one x : (∀ c, closed c ≠ x) → no_close [x].
Proof. intros Hx c E%list_elem_of_singleton. by apply Hx in E. Qed.

Lemma no_close_answers cb e : no_close (answers cb e).
Proof. destruct cb; [by apply no_close_one|]. by intros c ?%elem_of_nil. Qed.

Create HintDb steps.
#[local] Hint Resolve steps_does steps_issue steps_with no_close_one no_close_answers : steps.
#[local] Hint Extern 0 (steps ?s ?s) => reflexivity : steps.
#[local] Hint Extern 1 (∀ c, closed c ≠ _) => (intros ? [=]) : steps.
Ltac step := eauto 8 with steps nocore.

Section Steps.
Variable debug grow : bool.

Lemma schedule_steps s s' : scheduleCheckOnNonfunctionalReplicas_ s = Ret s' → steps s s'.
Proof. intros H. unfold scheduleCheckOnNonfunctionalReplicas_ in H. next H. destruct (checkOnNonFunctionalScheduled_ (vg s)); injection H as <-; step. Qed.

Lemma replay_steps svc start b s s' r : replayFromWriteOpsBuffer_ debug svc start b s = Ret (s', r) → steps s s'.
Proof.
  intros H. unfold replayFromWriteOpsBuffer_ in H. next H. next H. revert H. repeat (gcase; [intros [= <- <-]; step|]). intros [= <- <-].
  apply steps_does; [by apply no_close_map|step].
Qed.

Lemma change_handle_steps v tgt op e r s s' r' : change_handle debug v tgt op e r s = Ret (Some (s', r')) → steps s s'.
Proof.
  intros H. unfold change_handle in H. revert H. gcase; [intros [= <- <-]; step|]. destruct (isSyncing tgt).
  { gcase; intros H; [by next H|]. next_as H s1 E. injection H as <- <-. destruct (writeOpsBuffer_ (vg s)) as [b|]; [|injection E as <-; step].
    next_as E x Ex. destruct x as [s2 b2]. injection E as <-. apply replay_steps in Ex. step. }
  destruct (isNonFunctional tgt); intros H; [next H; next_as H s1 E; injection H as <- <-; by apply schedule_steps|].
  destruct (isFunctional tgt); [|injection H as <- <-; step]. revert H. gcase; intros H; next H; [done|]. injection H as <- <-. step.
Qed.

Lemma change_steps i v tgt op e s s' i' x : changeVolumeReplicaState_ debug grow i v tgt op e s = Ret (s', i', x) → steps s s'.
Proof.
  intros H. unfold changeVolumeReplicaState_ in H. next H. next_as H d Ed. destruct d as [[w n] r]. next_as H c Ec.
  destruct c as [[s1 r1]|]; [|injection H as <- <- <-; step]. apply change_handle_steps in Ec. next H. next H. revert H. gcase; [done|]. intros H.
  next H. next H. next H. next H. injection H as <- <- <-. step.
Qed.

Lemma handleVolumeResponse_steps src v op wr st acks s s' acks' : handleVolumeResponse debug grow src v op wr st acks s = Ret (s', acks') → steps s s'.
Proof.
  intros H. unfold handleVolumeResponse in H. next H. revert H. gcase; [intros [= <- <-]; step|]. intros H.
  next_as H d Ed. destruct d as [[w n] r]. revert H. gcase; [intros [= <- <-]; step|].
  destruct (_ || _); intros H; [|next H; injection H as <- <-; step].
  destruct (negb (isVolumeGroupError st)); [next H; injection H as <- _; step|].
  destruct (negb (isCoordinator_ (vg s))); [injection H as <- _; gcase; step|].
  next_as H y Ey. destruct y as [[s1 i1] e1]. next H. injection H as <- _. by eapply change_steps.
Qed.

Lemma make_functional_steps s r s' : make_functional debug grow s r = Ret s' → steps s s'.
Proof.
  intros H. unfold make_functional in H. next_as H y Ey. destruct y as [[s1 i1] e1]. next_as H z Ez. destruct z as [[s2 i2] e2].
  injection H as <-. etrans; by eapply change_steps.
Qed.

Lemma determine_steps rsps s s' : determineFunctaionalReplicas_ debug grow rsps s = Ret s' → steps s s'.
Proof.
  intros H. unfold determineFunctaionalReplicas_ in H. revert H. gcase; [done|]. cbv zeta. intros H. next H. revert H. gcase; intros H.
  - next H. next H. next H. injection H as <-. step.
  - destruct (_ && _); [injection H as <-; step|]. next H. revert H. gcase; intros H; [|injection H as <-; step].
    next_as H s1 E. injection H as <-. apply steps_with. eapply (foldM_inv (λ x, steps s x)); [reflexivity| |exact E].
    intros y ? ? _ Hs Hf. transitivity y; [exact Hs|by eapply make_functional_steps].
Qed.

Lemma runOpen_steps cb s s' : runOpenProtocol_ debug cb s = Ret s' → steps s s'.
Proof. intros H. unfold runOpenProtocol_ in H. next_as H y Ey. destruct y. injection H as <-. step. Qed.

(** A reference that is not the last one *)
Lemma decRef_steps s s' : 1 < refCnt_ (vg s) → decRef debug s = Ret s' → steps s s'.
Proof. intros Hr H. unfold decRef in H. next H. revert H. gcase; [simpl in *; lia|]. intros [= <-]. step. Qed.

Lemma respond_steps cb e s s' : 1 < refCnt_ (vg s) → respond debug cb e s = Ret s' → steps s s'.
Proof. intros Hr H. unfold respond in H. next_as H s1 E. injection H as <-. apply decRef_steps in E; [|done]. step. Qed.

Lemma sendWriteReq_steps mt b seq cb s s' : sendWriteReq_ mt b seq cb s = Ret s' → steps s s'.
Proof.
  intros H. unfold sendWriteReq_ in H. cbv zeta in H. injection H as <-. unfold broadcast. rewrite add_endpoints.
  apply steps_does; [by apply no_close_map|]. apply steps_request; [done|]. step.
Qed.

Lemma sendReadMsg_steps cb s s' : sendReadMsg debug cb s = Ret s' → steps s s'.
Proof.
  intros H. unfold sendReadMsg in H. next H. destruct (access_check false (vg s)); [injection H as <-; step|].
  cbv zeta in H. apply failover_cb in H as (q'&ep&Hq&->). apply steps_does; [step|]. apply steps_request; [done|]. step.
Qed.
(** *** What stays outstanding *)
(** The request stays as it is, and the group is not closed. *)
Definition kept (id : Z) (p : Pending) (s s' : sys) : Prop := pending s' !! id = Some p ∧ ∃ l, trace s' = trace s ++ l ∧ no_close l.

Lemma steps_kept id p s s' : id < next_id s → pending s !! id = Some p → steps s s' → kept id p s s'.
Proof. intros Hid Hp [_ K T]. split; [by apply K|done]. Qed.

Lemma steps_kept_done i id p s s' : i ≠ id → id < next_id s → pending s !! id = Some p → steps (done i s) s' → kept id p s s'.
Proof. intros Hne Hid Hp Hs. apply (steps_kept id p) in Hs; [done|done|]. simpl. by rewrite lookup_delete_ne. Qed.

Lemma kept_id id p k W m s : base k W m s → pending s !! id = Some p → id < next_id s.
Proof. intros [[Hf _ _ _ _ _] _] Hp. destruct (decide (next_id s ≤ id)) as [L|]; [by rewrite Hf in Hp|lia]. Qed.

Lemma kept_refs id p k W m s : base k W m s → pending s !! id = Some p → k < refCnt_ (vg s).
Proof.
  intros [[_ _ Hr _ _ _] _] Hp. assert (base.size (pending s) ≠ 0)%nat by (intros E; apply map_size_empty_inv in E; rewrite E in Hp; done). lia.
Qed.

Lemma kept_refs_two i id p p' k W m s : base k W m s → i ≠ id → pending s !! i = Some p' → pending s !! id = Some p → k + 1 < refCnt_ (vg s).
Proof.
  intros [[_ _ Hr _ _ _] _] Hne Hi Hp. pose proof (map_size_delete i (pending s)) as Hs. rewrite Hi in Hs. simpl in Hs.
  assert (base.size (delete i (pending s)) ≠ 0)%nat; [|lia].
  intros E. apply map_size_empty_inv in E. apply (f_equal (λ m, m !! id)) in E. rewrite lookup_delete_ne, Hp in E by done. done.
Qed.

Lemma open_steps W id p cb w dmt s s' : base 0 W ∅ s → pending s !! id = Some p → open debug cb w dmt s = Ret s' → steps s s'.
Proof.
  intros Hb Hp H. pose proof (kept_refs _ _ _ _ _ _ Hb Hp) as Hr. unfold open in H. cbv zeta in H. set (s1 := with_vg (incRef (vg s)) s) in *.
  assert (steps s s1 ∧ 1 < refCnt_ (vg s1)) as [Hs Hr1] by (subst s1; split; [step|simpl; lia]). clearbody s1. etrans; [exact Hs|].
  revert H. gcase; intros H; [by apply respond_steps in H|]. next_as H y Ey. destruct y as [h e].
  assert (refCnt_ h = refCnt_ (vg s1)) as Er.
  { unfold resetGroup_ in Ey. destruct dmt as [v [x|svcs]]; simpl in Ey; [injection Ey as <- <-; by destruct w|].
    next_as Ey h1 E. injection Ey as <- <-. apply changeState_refs in E as (->&_). destruct w; simpl; [done|]. by destruct (isCoordinator_ (vg s1)). }
  destruct e; [apply respond_steps in H; [|simpl; lia]|apply runOpen_steps in H]; (etrans; [|exact H]); step.
Qed.

Lemma add_steps m s s' : handleAddToVolumeGroupMsg debug grow m s = Ret s' → steps s s'.
Proof.
  intros H. unfold handleAddToVolumeGroupMsg in H. revert H. gcase; [intros [= <-]; step|]. destruct (negb (isCoordinator_ (vg s))); [intros [= <-]; step|].
  intros H. next H. destruct (getVolumeReplicaHandle_ (add_svc m) (vg s)); [|injection H as <-; step].
  next_as H y Ey. destruct y as [[s1 i1] e1]. injection H as <-. apply change_steps in Ey. step.
Qed.

Lemma prepared_steps W m id p cb rsps s s' :
  base 1 W m s → pending s !! id = Some p → prepared debug grow cb rsps s = Ret s' → steps s s'.
Proof.
  intros Hb Hp H. pose proof (kept_id _ _ _ _ _ _ Hb Hp) as Hid. unfold prepared in H. destruct (negb (isCoordinator_ (vg s))).
  { pose proof (kept_refs _ _ _ _ _ _ Hb Hp) as Hr. unfold handleOpenResponseForNonCoordinator_ in H. revert H. gcase; [done|]. gcase; [|gcase]; intros H.
    - next_as H h E. apply changeState_refs in E as (Er&_). apply respond_steps in H; [|simpl; lia]. etrans; [|exact H]. step.
    - by apply respond_steps in H.
    - next_as H h E. apply changeState_refs in E as (Er&_). apply respond_steps in H; [|simpl; lia]. etrans; [|exact H]. step. }
  next_as H s1 E. apply (determine_base _ _ _ _ _ _ _ _ Hb) in E as Hb1. apply determine_steps in E. etrans; [exact E|].
  apply (steps_kept id p) in E as [Hp1 _]; [|done|done]. pose proof (kept_refs _ _ _ _ _ _ Hb1 Hp1) as Hr.
  assert (∀ s2, (if decide (functionalReplicas_ (vg s1) = []) then respond debug cb ERR_VOLUMEGROUP_INVALID s1
          else Ret (does [createBroadcastGroupInfoReq_ (vg s1)] (issue (Informing cb) s1))) = Ret s2 → steps s1 s2) as Hend.
  { intros s2. gcase; intros H2; [by apply respond_steps in H2|]. injection H2 as <-. step. }
  destruct (openRetryCtx_ (vg s1)) as [[tries svc sw]|]; [|by apply Hend]. destruct tries; destruct sw; try (by apply Hend); next H.
  - injection H as <-. step.
  - apply runOpen_steps in H. etrans; [|exact H]. step.
Qed.

Lemma informed_steps W m id p cb s s' : base 1 W m s → pending s !! id = Some p → informed debug cb s = Ret s' → steps s s'.
Proof.
  intros Hb Hp H. pose proof (kept_id _ _ _ _ _ _ Hb Hp) as Hid. unfold informed in H. next_as H s1 E1. next_as H h E2.
  assert (base 1 W m s1 ∧ steps s s1) as [Hb1 Hs].
  { revert E1. gcase; intros E1; [|injection E1 as <-; by split]. split; [by eapply schedule_base|by apply schedule_steps]. }
  etrans; [exact Hs|]. apply (steps_kept id p) in Hs as [Hp1 _]; [|done|done]. pose proof (kept_refs _ _ _ _ _ _ Hb1 Hp1) as Hr.
  apply changeState_refs in E2 as (Er&_). apply respond_steps in H; [|simpl; lia]. etrans; [|exact H]. step.
Qed.

Lemma timer_steps W i id p s s' :
  pending s !! i = Some Checking → base 0 W ∅ s → i ≠ id → pending s !! id = Some p → checkOnNonFunctaionalReplicas_ debug (done i s) = Ret s' → steps (done i s) s'.
Proof.
  intros Hi Hb Hne Hp H. pose proof (kept_id _ _ _ _ _ _ Hb Hp) as Hid. apply (unscheduled_base _ _ _ Hi) in Hb.
  unfold checkOnNonFunctaionalReplicas_ in H. simpl in H. fold (unscheduled i s) in H.
  assert (pending (unscheduled i s) !! id = Some p) as Hp1 by (simpl; by rewrite lookup_delete_ne).
  assert (steps (done i s) (unscheduled i s)) as Hs by (unfold unscheduled; step). etrans; [exact Hs|].
  pose proof (kept_refs _ _ _ _ _ _ Hb Hp1) as Hr. revert H. gcase; intros H; [by apply decRef_steps in H|]. next_as H s2 E. revert E. gcase; intros E.
  - pose proof (base_quiet 1 W ∅ _ [createBroadcastGroupInfoReq_ (set_refs (refCnt_ (vg s)) (closeCb_ (vg s)) false (vg s))] (λ _, eq_refl) Hb) as Hb1.
    pose proof (schedule_base _ _ _ _ _ Hb1 E) as Hb2. apply schedule_steps in E. assert (steps (unscheduled i s) s2) as Hs2 by (etrans; [|exact E]; step).
    etrans; [exact Hs2|]. apply (steps_kept id p) in Hs2 as [Hp2 _]; [|done|done]. pose proof (kept_refs _ _ _ _ _ _ Hb2 Hp2). by apply decRef_steps in H.
  - injection E as <-. by apply decRef_steps in H.
Qed.

Lemma complete_steps W m i id p p' s s' :
  base 0 W m s → i ≠ id → pending s !! i = Some p' → pending s !! id = Some p → complete debug i s = Ret s' → kept id p s s'.
Proof.
  intros Hb Hne Hi Hp H. unfold complete in H. next_as H s1 E. injection H as <-. apply decRef_steps in E.
  - apply (steps_kept id p) in E as [Hp1 Ht]; [|by eapply kept_id|done]. split; [|done]. simpl. by rewrite lookup_delete_ne.
  - pose proof (kept_refs_two _ _ _ _ _ _ _ _ Hb Hne Hi Hp). lia.
Qed.

Lemma kept_steps id p s s1 s' : steps s s1 → kept id p s1 s' → kept id p s s'.
Proof. intros [_ _ (l1&E1&H1)] [Hp (l2&E2&H2)]. split; [done|]. exists (l1 ++ l2). split; [by rewrite E2, E1, app_assoc|by apply no_close_app]. Qed.

Lemma kept_request i id p p' s s1 : i ≠ id → pending s1 !! id = Some p → steps s s1 → kept id p s (with_request i p' s1).
Proof. intros Hne Hp Hs. split; [simpl; by rewrite lookup_insert_ne|]. by destruct Hs. Qed.

(** A response to another request *)
Lemma broadcast_response_kept W i id p hdr w q s s' :
  base 0 W ∅ s → i ≠ id → pending s !! i = Some (InProgress q) → pending s !! id = Some p →
  broadcast_response debug grow i hdr w q s = Ret s' → kept id p s s'.
Proof.
  intros Hb Hne Hi Hp H. pose proof (kept_id _ _ _ _ _ _ Hb Hp) as Hid. pose proof (kept_id _ _ _ _ _ _ Hb Hi) as Hid'.
  assert (kept id p s s) as Hsame by (by apply steps_kept; [..|reflexivity]). unfold broadcast_response in H.
  destruct (getEpReq_ (msg_src_uuid hdr) q) as [[n ep]|]; [|by injection H as <-]. destruct (ep_complete ep); [by injection H as <-|].
  cbv zeta in H. next_as H y Ey. destruct y as [s1 acks]. next H. pose proof (handleVolumeResponse_base _ _ _ _ _ _ _ _ _ _ _ _ _ _ Hb Ey) as Hb1.
  apply handleVolumeResponse_steps in Ey as Hs. destruct (steps_kept id p _ _ Hid Hp Hs) as [Hp1 _]. destruct (steps_kept i _ _ _ Hid' Hi Hs) as [Hi1 _].
  assert (∀ l, no_close l → steps s (does l s1)) as Hl by step. set (met := bool_decide _) in *. clearbody met.
  assert (no_close (if met then answers (responseCb_ q) x else [])) as Hc by (destruct met; [step|by intros c ?%elem_of_nil]).
  revert H. gcase; intros H.
  - next H. eapply (complete_steps _ ∅ i id p) in H; [|eapply base_does; [done|]; eapply base_does; [done|exact Hb1]|done|done|done].
    eapply kept_steps; [|exact H]. apply steps_does; [apply no_close_answers|]. by apply Hl.
  - injection H as <-. by apply kept_request; [| |apply Hl].
Qed.

Lemma failover_response_kept W i id p hdr q s s' :
  base 0 W ∅ s → i ≠ id → pending s !! i = Some (InProgress q) → pending s !! id = Some p →
  failover_response debug grow i hdr q s = Ret s' → kept id p s s'.
Proof.
  intros Hb Hne Hi Hp H. pose proof (kept_id _ _ _ _ _ _ Hb Hp) as Hid. pose proof (kept_id _ _ _ _ _ _ Hb Hi) as Hid'.
  assert (kept id p s s) as Hsame by (by apply steps_kept; [..|reflexivity]). unfold failover_response in H.
  destruct (getEpReq_ (msg_src_uuid hdr) q) as [[n ep]|]; [|by injection H as <-]. destruct (ep_complete ep); [by injection H as <-|].
  cbv zeta in H. next H. next_as H y Ey. destruct y as [s1 acks]. pose proof (handleVolumeResponse_base _ _ _ _ _ _ _ _ _ _ _ _ _ _ Hb Ey) as Hb1.
  apply handleVolumeResponse_steps in Ey as Hs. destruct (steps_kept id p _ _ Hid Hp Hs) as [Hp1 _]. destruct (steps_kept i _ _ _ Hid' Hi Hs) as [Hi1 _].
  assert (∀ s2 cb e, complete debug i (does (answers cb e) s1) = Ret s2 → kept id p s s2) as Hdone.
  { intros s2 cb e H2. eapply kept_steps; [apply (steps_does _ _ _ (no_close_answers cb e) Hs)|].
    eapply (complete_steps _ ∅ i id p); [|done| | |exact H2]; [|done|done]. eapply base_does; [done|exact Hb1]. }
  revert H. gcase; [intros H; next H; by eapply Hdone|]. gcase; [|intros H; by eapply Hdone]. intros H. apply failover_cb in H as (q'&ep'&_&->).
  destruct (kept_request i id p (InProgress q') s s1 Hne Hp1 Hs) as [Hp2 (l&El&Hc)]. split; [done|]. exists (l ++ [read_to i ep']).
  split; [simpl in *; by rewrite El, app_assoc|]. apply no_close_app; [done|step].
Qed.

(** A read whose responses are all dropped: the first endpoint of each service
    is complete *)
Definition dropped (q : Request) : Prop := write_ q = None ∧ ∀ svc n ep, getEpReq_ svc q = Some (n, ep) → ep_complete ep = true.

Lemma event_kept W e id q s s' :
  base 0 W ∅ s → pending s !! id = Some (InProgress q) → dropped q → handle_event debug grow e s = Ret s' → kept id (InProgress q) s s'.
Proof.
  intros Hb Hp [Hw Hdrop] H. pose proof (kept_id _ _ _ _ _ _ Hb Hp) as Hid. pose proof (kept_refs _ _ _ _ _ _ Hb Hp) as Hr.
  assert (kept id (InProgress q) s s) as Hsame by (by apply steps_kept; [..|reflexivity]).
  assert (∀ i p', pending s !! i = Some p' → p' ≠ InProgress q → i ≠ id) as Hne by (intros i p' Hi Hx ->; congruence).
  assert (∀ i, i ≠ id → pending (done i s) !! id = Some (InProgress q)) as Hdone by (intros i Hi; simpl; by rewrite lookup_delete_ne).
  destruct e as [cb w dmt|cb|cb|cb mt b|cb mt b|m|i rsps|i|i|i|i hdr]; simpl in H.
  - apply steps_kept; [done|done|]. by eapply open_steps.
  - apply steps_kept; [done|done|]. unfold close in H. revert H. gcase; [|intros [= <-]; step]. destruct (closeCb_ (vg s)); simpl in *; lia.
  - apply steps_kept; [done|done|]. by eapply sendReadMsg_steps.
  - apply steps_kept; [done|done|]. unfold sendModifyMsg in H. next H. destruct (access_check true (vg s)); [injection H as <-; step|].
    apply sendWriteReq_steps in H. etrans; [|exact H]. step.
  - apply steps_kept; [done|done|]. unfold sendCommitMsg in H. next H. destruct (access_check true (vg s)); [injection H as <-; step|].
    apply sendWriteReq_steps in H. etrans; [|exact H]. step.
  - apply steps_kept; [done|done|]. by eapply add_steps.
  - destruct (pending s !! i) as [[cb| | | |]|] eqn:Hi; try (by injection H as <-). assert (i ≠ id) as Hx by by eapply Hne.
    eapply (steps_kept_done i); [done|done|done|]. eapply prepared_steps; [|by apply Hdone|exact H]. eapply (base_done 0); [exact Hi|simpl; tauto|done|exact Hb].
  - destruct (pending s !! i) as [[ |cb| | |]|] eqn:Hi; try (by injection H as <-). assert (i ≠ id) as Hx by by eapply Hne.
    eapply (steps_kept_done i); [done|done|done|]. eapply informed_steps; [|by apply Hdone|exact H]. eapply (base_done 0); [exact Hi|simpl; tauto|done|exact Hb].
  - destruct (pending s !! i) as [[ | |cb| |]|] eqn:Hi; try (by injection H as <-). assert (i ≠ id) as Hx by by eapply Hne.
    eapply (steps_kept_done i); [done|done|done|]. unfold switched in H. destruct (openRetryCtx_ (vg (done i s))); [|done]. apply runOpen_steps in H. etrans; [|exact H]. step.
  - destruct (pending s !! i) as [[ | | | |]|] eqn:Hi; try (by injection H as <-). assert (i ≠ id) as Hx by by eapply Hne.
    eapply (steps_kept_done i); [done|done|done|]. by eapply timer_steps.
  - destruct (decide (i = id)) as [->|Hx].
    + rewrite Hp, Hw in H. unfold failover_response in H. destruct (getEpReq_ (msg_src_uuid hdr) q) as [[n ep]|] eqn:E; [|by injection H as <-].
      rewrite (Hdrop _ _ _ E) in H. by injection H as <-.
    + destruct (pending s !! i) as [[ | | | |q']|] eqn:Hi; try (by injection H as <-).
      destruct (write_ q'); [by eapply broadcast_response_kept|by eapply failover_response_kept].
Qed.
End Steps.

Lemma run_kept debug id q W l s s' :
  base 0 W ∅ s → pending s !! id = Some (InProgress q) → dropped q → run debug l s = Ret s' → kept id (InProgress q) s s'.
Proof.
  revert W s. induction l as [|[g e] l IH]; intros W s Hb Hp Hq H; simpl in H.
  - injection H as <-. apply steps_kept; [by eapply kept_id|done|reflexivity].
  - next_as H s1 E. destruct (event_kept _ _ _ _ _ _ _ _ Hb Hp Hq E) as [Hp1 (l1&T1&C1)]. apply event_base with (W := W) in E; [|done].
    destruct (IH _ _ E Hp1 Hq H) as [Hp2 (l2&T2&C2)]. split; [done|]. exists (l1 ++ l2). split; [by rewrite T2, T1, app_assoc|by apply no_close_app].
Qed.

Lemma waiting_pos c m id p : m !! id = Some p → cb_of p = Some c → 0 < waiting c m.
Proof.
  intros Hp Hc. unfold waiting. pose proof (pending_count_delete (λ p, cb_of p = Some c) _ _ _ Hp) as Hd. unfold one in Hd. rewrite decide_True in Hd by done.
  unfold count in *. lia.
Qed.

Lemma run_then debug l x s s1 s2 : run debug l s = Ret s1 → handle_event debug x.1 x.2 s1 = Ret s2 → run debug (l ++ [x]) s = Ret s2.
Proof. intros H Hx. unfold run in *. rewrite foldM_app, H. cbn [mbind res_bind foldM]. by rewrite Hx. Qed.

(** C39. A read can be lost, in any build and whatever happens afterwards.  A read
    of a coordinator with two replicas or more waits for the first replica that
    it was sent to, which was asked with version [v].  The replica has
    restarted meanwhile and is the first functional one again, with another
    version.  Its answer with the old version is ignored, and the read is sent
    to the same replica again.  The answers of that replica are matched with the
    first endpoint of the request that names it, which is complete, so they are
    dropped from now on: as long as the process lives, the request stays
    outstanding as it is, its client has fewer answers than it sent requests,
    and nobody is told that the group is closed. *)
Theorem read_lost debug grow Q l s id q c u v code r rest :
  run debug l (initial Q) = Ret s → pending s !! id = Some (InProgress q) →
  q = MakeRequest None [] [Ep u v false] 0 [] ERR_OK (Some c) →
  isCoordinator_ (vg s) = true → functionalReplicas_ (vg s) = r :: rest → svcUuid r = u → version r ≠ v → 2 ≤ size (vg s) →
  let answered_late := (grow, Response id (Hdr u v code)) in
  ∃ s1, handle_event debug grow (Response id (Hdr u v code)) s = Ret s1 ∧ trace s1 = trace s ++ [read_to id (Ep u (version r) false)] ∧
    ∀ l' s', run debug l' s1 = Ret s' →
      (∃ q', pending s' !! id = Some (InProgress q') ∧ epReqs_ q' = [Ep u v true; Ep u (version r) false] ∧ responseCb_ q' = Some c) ∧
      answered c (trace s') < requests c (l ++ answered_late :: l') ∧
      ∃ t, trace s' = trace s1 ++ t ∧ ∀ cb, closed cb ∉ t.
Proof.
  intros Hrun Hid Eq Hc Hf Hu Hv Hsz late. set (q1 := MakeRequest None [] [Ep u v true; Ep u (version r) false] 1 [] ERR_OK (Some c)).
  set (s1 := does [read_to id (Ep u (version r) false)] (with_request id (InProgress q1) s)).
  assert (handle_event debug grow (Response id (Hdr u v code)) s = Ret s1) as H1.
  { simpl. rewrite Hid, Eq. unfold failover_response, getEpReq_. simpl. rewrite decide_True by done. simpl. change (u8 (0 + 1)) with 1.
    assert (∀ b, b = true → fds_assert debug b = Ret ()) as Hassert by (intros b ->; by destruct debug).
    rewrite Hassert by (apply bool_decide_eq_true_2; lia). simpl.
    assert (handleVolumeResponse debug grow u v 0 false code [] s = Ret (s, [])) as ->.
    { unfold handleVolumeResponse. rewrite Hc. simpl. rewrite !Hassert by done. simpl.
      destruct (decide (state_ (vg s) = Unknown ∨ _)); [done|].
      unfold getVolumeReplicaHandle_, find_in. simpl. rewrite Hf. simpl. rewrite decide_True by done. simpl. rewrite Hf. simpl. by rewrite decide_True. }
    simpl. unfold functional_cnt. rewrite Hf. rewrite decide_True by (simpl; lia). unfold failover. simpl. rewrite Hassert by done. simpl. unfold at_. rewrite Hf. simpl.
    by rewrite Hu. }
  pose proof (run_then _ _ late _ _ _ Hrun H1) as Hrun1. apply (run_base _ _ _ _ _ (initial_base Q)) in Hrun1 as Hb1.
  exists s1. split; [done|]. split; [done|]. intros l' s' H'.
  assert (pending s1 !! id = Some (InProgress q1)) as Hid1 by apply lookup_insert_eq.
  assert (dropped q1) as Hq1.
  { split; [done|]. intros svc n ep E. apply list_find_Some in E as (Hn&E&Hmin). destruct n as [|[|n]]; simpl in Hn; [by injection Hn as <-| |done].
    injection Hn as <-. by destruct (Hmin 0%nat (Ep u v true) eq_refl ltac:(lia)). }
  destruct (run_kept _ _ _ _ _ _ _ Hb1 Hid1 Hq1 H') as [Hid' Ht]. split; [by exists q1|]. split; [|done].
  apply (run_base _ _ _ _ _ Hb1) in H' as [[_ _ _ _ Ho _] _]. specialize (Ho c). pose proof (waiting_pos c _ _ _ Hid' eq_refl).
  unfold requests in *. rewrite cons_middle, app_assoc, filter_app, length_app, Nat2Z.inj_add. lia.
Qed.

End VolumeGroupReads.
