(* ===== verification/VolumeGroupSafe.v ===== *)
(** * Safety of replicated volumes

    Invariants of the coordinator of a volume group while the replicas follow
    the protocol: who is in which list, when the group has a quorum, what the
    outstanding writes are waiting for, and that no check on the order of the
    operations ends the process.  Release builds; [grow] says whether a vector
    has no room for one more element. *)

From S2P Require Import Prelude.
From S2P Require Import VolumeGroup.
From S2P Require Import VolumeGroupSpec.
Import VolumeGroupConstants VolumeReplicaHandle VolumeGroupHandle VolumeGroupSpec.
Open Scope Z_scope.

Module VolumeGroupSafe.
Implicit Types (s : sys) (h : t).

(** ** Lists of replicas *)
Definition state_of (w : Which) : ResourceState := match w with InFunctional => Active | InNonfunctional => Offline | InSyncing => Syncing end.

Definition handles (h : t) : list Replica := functionalReplicas_ h ++ nonfunctionalReplicas_ h ++ syncingReplicas_ h.

Lemma getAll_handles h : getAllReplicas h = svcUuid <$> handles h.
Proof. unfold getAllReplicas, handles. by rewrite !fmap_app. Qed.

Lemma elem_of_handles h r : r ∈ handles h ↔ ∃ w, r ∈ list_of w h.
Proof.
  unfold handles. rewrite !elem_of_app. split.
  - intros [?|[?|?]]; [by exists InFunctional|by exists InNonfunctional|by exists InSyncing].
  - intros [[] ?]; simpl in *; tauto.
Qed.

Record lists (Q : Z) (h : t) : Prop := {
  l_nodup : NoDup (getAllReplicas h);
  l_states : ∀ w r, r ∈ list_of w h → state r = state_of w;
  l_size : groupSize_ h = size h;
  l_bound : size h ≤ 255;
  l_quorum : quorumCnt_ h = Q;
}.

(** The handle of service [u] replaced by [r'] at the end of list [dst] *)
Definition others (u : Z) (l : list Replica) : list Replica := filter (λ x, svcUuid x ≠ u) l.
Definition place (u : Z) (dst : Which) (r' : Replica) (h : t) : t :=
  let put w := others u (list_of w h) ++ (if decide (w = dst) then [r'] else []) in
  set_lists (put InFunctional) (put InNonfunctional) (put InSyncing) h.

Lemma list_of_place u dst r' h w : list_of w (place u dst r' h) = others u (list_of w h) ++ (if decide (w = dst) then [r'] else []).
Proof. by destruct w. Qed.

Lemma elem_of_place u dst r' h w r : r ∈ list_of w (place u dst r' h) ↔ (r ∈ list_of w h ∧ svcUuid r ≠ u) ∨ (r = r' ∧ w = dst).
Proof.
  rewrite list_of_place, elem_of_app. unfold others. rewrite list_elem_of_filter.
  destruct (decide (w = dst)); rewrite ?list_elem_of_singleton, ?elem_of_nil; naive_solver.
Qed.

Lemma others_notin u (l : list Replica) : u ∉ (svcUuid <$> l) → others u l = l.
Proof. intros Hu. apply filter_all. intros x Hx E. apply Hu. subst. by apply list_elem_of_fmap_2. Qed.

Lemma delete_others (l : list Replica) n r : NoDup (svcUuid <$> l) → l !! n = Some r → delete n l = others (svcUuid r) l.
Proof.
  revert n. induction l as [|x l IH]; intros n Hnd Hn; [done|]. simpl in Hnd. apply NoDup_cons in Hnd as [Hx Hnd]. unfold others. rewrite filter_cons.
  destruct n as [|n]; simpl in Hn |- *.
  - injection Hn as ->. rewrite decide_False by naive_solver. symmetry. by apply others_notin.
  - rewrite decide_True by (intros E; apply Hx; rewrite E; apply list_elem_of_fmap_2; by eapply list_elem_of_lookup_2). f_equal. by apply IH.
Qed.

Lemma nodup_list_of h w : NoDup (getAllReplicas h) → NoDup (svcUuid <$> list_of w h).
Proof. unfold getAllReplicas. rewrite !NoDup_app. destruct w; tauto. Qed.

(** A service is in one list only. *)
Lemma one_list h w w' r r' :
  NoDup (getAllReplicas h) → r ∈ list_of w h → r' ∈ list_of w' h → svcUuid r = svcUuid r' → w = w' ∧ r = r'.
Proof.
  intros Hnd Hr Hr' E. pose proof (nodup_list_of h w Hnd) as Hw.
  assert (w = w') as <-.
  { apply (list_elem_of_fmap_2 svcUuid) in Hr, Hr'. rewrite E in Hr. unfold getAllReplicas in Hnd. rewrite !NoDup_app in Hnd.
    destruct Hnd as (_&H1&_&H2&_). destruct w, w'; simpl in *; try done; exfalso; set_solver. }
  split; [done|]. apply list_elem_of_lookup in Hr as [i Hi], Hr' as [j Hj].
  assert (i = j) as <-; [|congruence].
  eapply (NoDup_lookup _ i j (svcUuid r)); [exact Hw|by rewrite list_lookup_fmap, Hi|by rewrite list_lookup_fmap, Hj, E].
Qed.

Lemma handles_place u dst r' h : handles (place u dst r' h) ≡ₚ r' :: others u (handles h).
Proof.
  unfold handles. change (functionalReplicas_ ?x) with (list_of InFunctional x). change (nonfunctionalReplicas_ ?x) with (list_of InNonfunctional x).
  change (syncingReplicas_ ?x) with (list_of InSyncing x). rewrite !list_of_place. unfold others. rewrite !filter_app.
  destruct dst; repeat (first [rewrite decide_True by done|rewrite decide_False by done]); rewrite ?app_nil_r; solve_Permutation.
Qed.

Lemma others_perm (l : list Replica) r : NoDup (svcUuid <$> l) → r ∈ l → l ≡ₚ r :: others (svcUuid r) l.
Proof.
  intros Hnd [n Hn]%list_elem_of_lookup. rewrite <- (delete_others _ _ _ Hnd Hn). by apply delete_Permutation.
Qed.

Lemma place_all h w r dst r' :
  NoDup (getAllReplicas h) → r ∈ list_of w h → svcUuid r' = svcUuid r → getAllReplicas (place (svcUuid r) dst r' h) ≡ₚ getAllReplicas h.
Proof.
  intros Hnd Hr E. rewrite !getAll_handles, handles_place in *. simpl. rewrite E.
  rewrite (others_perm (handles h) r) at 2; [done|done|]. apply elem_of_handles. by exists w.
Qed.

Lemma size_all h : size h = Z.of_nat (length (getAllReplicas h)).
Proof. unfold size, getAllReplicas. rewrite !length_app, !length_fmap. lia. Qed.

Lemma place_lists Q h w r dst r' :
  lists Q h → r ∈ list_of w h → svcUuid r' = svcUuid r → state r' = state_of dst → lists Q (place (svcUuid r) dst r' h).
Proof.
  intros [Hnd Hs Hz Hb Hq] Hr E Est. pose proof (place_all _ _ _ dst _ Hnd Hr E) as Hp.
  split; simpl; [by rewrite Hp| | | |done].
  - intros w' x [[Hx _]|[-> ->]]%elem_of_place; [by apply Hs|done].
  - rewrite size_all, Hp, <- size_all. done.
  - rewrite size_all, Hp, <- size_all. done.
Qed.

(** ** Finding a handle *)
Lemma find_in_Some u w h w' n : find_in u w h = Some (w', n) → ∃ r, list_of w' h !! n = Some r ∧ svcUuid r = u.
Proof.
  unfold find_in. destruct (list_find _ _) as [[k r]|] eqn:E; [|done]. intros [= <- <-].
  apply list_find_Some in E as (?&?&_). by exists r.
Qed.

Lemma find_in_None u w h : find_in u w h = None → u ∉ (svcUuid <$> list_of w h).
Proof.
  unfold find_in. intros E (r&->&Hr)%list_elem_of_fmap. destruct (list_find _ _) eqn:Ef; [done|].
  rewrite list_find_None, Forall_forall in Ef. by eapply Ef.
Qed.

Lemma get_found u h w n : getVolumeReplicaHandle_ u h = Some (w, n) → ∃ r, list_of w h !! n = Some r ∧ svcUuid r = u.
Proof.
  unfold getVolumeReplicaHandle_. destruct (find_in u InFunctional h) eqn:E1; [intros [= ->]; by eapply find_in_Some|].
  destruct (find_in u InNonfunctional h) eqn:E2; [intros [= ->]; by eapply find_in_Some|apply find_in_Some].
Qed.

Lemma get_exists u h : u ∈ getAllReplicas h → ∃ i, getVolumeReplicaHandle_ u h = Some i.
Proof.
  intros Hu. unfold getVolumeReplicaHandle_. destruct (find_in u InFunctional h) eqn:E1; [by eexists|].
  destruct (find_in u InNonfunctional h) eqn:E2; [by eexists|]. destruct (find_in u InSyncing h) eqn:E3; [by eexists|].
  apply find_in_None in E1, E2, E3. exfalso. unfold getAllReplicas in Hu. rewrite !elem_of_app in Hu. simpl in *. tauto.
Qed.

Lemma get_deref u h : u ∈ getAllReplicas h → ∃ w n r, getVolumeReplicaHandle_ u h = Some (w, n) ∧ deref (Some (w, n)) h = Ret (w, n, r) ∧ list_of w h !! n = Some r ∧ svcUuid r = u.
Proof.
  intros [[w n] Hi]%get_exists. destruct (get_found _ _ _ _ Hi) as (r&Hr&Hu). exists w, n, r. simpl. by rewrite Hr.
Qed.

(** ** State changes of replicas *)
Definition dst_of (tgt : ResourceState) : Which := if isFunctional tgt then InFunctional else if isSyncing tgt then InSyncing else InNonfunctional.
Definition valid_target (tgt : ResourceState) : Prop := tgt = Loading ∨ tgt = Syncing ∨ tgt = Offline ∨ tgt = Active.

(** What the group sees of a handle *)
Definition same_group (h h' : t) : Prop :=
  (∀ w, list_of w h' = list_of w h) ∧ groupSize_ h' = groupSize_ h ∧ quorumCnt_ h' = quorumCnt_ h ∧ state_ h' = state_ h ∧
  opSeqNo_ h' = opSeqNo_ h ∧ isCoordinator_ h' = isCoordinator_ h ∧ openRetryCtx_ h' = openRetryCtx_ h.

Lemma same_group_refl h : same_group h h.
Proof. by repeat split. Qed.
Lemma same_group_trans h1 h2 h3 : same_group h1 h2 → same_group h2 h3 → same_group h1 h3.
Proof. intros (Hl1&?&?&?&?&?&?) (Hl2&?&?&?&?&?&?). repeat split; try congruence. Qed.

(** Nothing outstanding but timers has changed. *)
Definition same_pending (m m' : gmap Z Pending) : Prop := ∀ id p, ¬ is_checking p → (m' !! id = Some p ↔ m !! id = Some p).

Definition calm (s s' : sys) : Prop := same_group (vg s) (vg s') ∧ same_pending (pending s) (pending s').

Lemma calm_vg s h : same_group (vg s) h → calm s (with_vg h s).
Proof. intros H. by split. Qed.

Definition actions (tgt : ResourceState) (h : t) : t :=
  if isFunctional tgt then (if decide (state_ h = Offline ∧ functional_cnt h = quorumCnt_ h) then set_state Active h else h)
  else if isNonFunctional tgt then
    let h := if decide (state_ h = Active ∧ functional_cnt h < quorumCnt_ h) then set_state Offline h else h in
    if decide (state_ h = Offline ∧ functional_cnt h = 0) then set_opSeqNo OPSTARTID h else h
  else h.

Lemma group_actions_release tgt h : group_actions false tgt h = Ret (actions tgt h).
Proof. unfold group_actions, actions. destruct (isFunctional tgt), (isNonFunctional tgt); simpl; repeat (gcase; simpl); done. Qed.

Lemma schedule_calm s id : (∀ i, next_id s ≤ i → pending s !! i = None) → isCoordinator_ (vg s) = true →
  ∃ s', scheduleCheckOnNonfunctionalReplicas_ s = Ret s' ∧ calm s s' ∧ (pending s !! id = None → id < next_id s → pending s' !! id = None).
Proof.
  intros Hf Hc. unfold scheduleCheckOnNonfunctionalReplicas_. rewrite Hc. simpl. destruct (checkOnNonFunctionalScheduled_ (vg s)).
  - exists s. split; [done|]. split; [|done]. split; [apply same_group_refl|done].
  - eexists. split; [done|]. split; [split; simpl|].
    + by repeat split.
    + intros i p Hp. rewrite lookup_insert_Some. pose proof (Hf (next_id s)) as Hn. split; [intros [[<- <-]|[_ H]]; simpl in *; tauto|].
      intros H. right. split; [|done]. intros <-. rewrite Hn in H by lia. done.
    + intros H Hl. simpl. rewrite lookup_insert_ne by lia. done.
Qed.

(** The new handle *)
Record changed (tgt : ResourceState) (v op : Z) (r r' : Replica) : Prop := {
  ch_svc : svcUuid r' = svcUuid r;
  ch_state : state r' = state_of (dst_of tgt);
  ch_syncing : tgt = Syncing → version r' = v ∧ appliedOpId r' = op ∧ (v = VERSION_START ∨ version r < v);
  ch_other : tgt ≠ Syncing → version r' = version r ∧ appliedOpId r' = appliedOpId r;
}.

Lemma change_handle_release v tgt op e r s :
  (∀ i, next_id s ≤ i → pending s !! i = None) → isCoordinator_ (vg s) = true → valid_target tgt →
  (change_handle false v tgt op e r s = Ret None ∧ dst_of tgt ≠ InNonfunctional) ∨
  ∃ s' r', change_handle false v tgt op e r s = Ret (Some (s', r')) ∧ calm s s' ∧ changed tgt v (opSeqNo_ (vg s)) r r'.
Proof.
  intros Hf Hc [->|[->|[->| ->]]]; unfold change_handle; simpl.
  - right. eexists _, _. split; [done|]. split; [|by split]. apply calm_vg. by repeat split.
  - gcase; [by left|]. right. destruct (writeOpsBuffer_ (vg s)) as [b|] eqn:Eb; simpl.
    + unfold replayFromWriteOpsBuffer_. repeat gcase; simpl; (eexists _, _; split; [done|]; split; [split; [by repeat split|done]|]);
        (split; simpl; try done; intros _; repeat split; unfold VERSION_START in *; lia).
    + eexists _, _. split; [done|]. split; [split; [apply same_group_refl|done]|]. split; simpl; try done. intros _. repeat split; unfold VERSION_START in *; lia.
  - right. destruct (schedule_calm s 0 Hf Hc) as (s1&->&Hs&_). simpl. eexists _, _. split; [done|]. split; [done|by split].
  - gcase; [by left|]. right. eexists _, _. split; [done|]. split; [split; [apply same_group_refl|done]|].
    split; simpl; try done. intros _. split; [|done]. by apply dec_stable in Hd.
Qed.

Lemma move_place grow h w n r dst r' :
  NoDup (getAllReplicas h) → list_of w h !! n = Some r → svcUuid r' = svcUuid r → (grow = true → w ≠ dst) →
  move_handle grow w dst n r' h = Ret (place (svcUuid r) dst r' h).
Proof.
  intros Hnd Hn E Hgr. pose proof (nodup_list_of h w Hnd) as Hw. pose proof (delete_others _ _ _ Hw Hn) as Hd.
  assert (∀ w', w' ≠ w → others (svcUuid r) (list_of w' h) = list_of w' h) as Ho.
  { intros w' Hne. apply others_notin. intros (x&Ex&Hx)%list_elem_of_fmap. apply list_elem_of_lookup_2 in Hn.
    by destruct (one_list h w w' r x Hnd Hn Hx Ex). }
  unfold move_handle, place. destruct (decide (w = dst)) as [<-|Hne].
  - destruct grow; [by destruct (Hgr eq_refl)|]. destruct w; simpl in *; rewrite Hd, ?app_nil_r; f_equal; unfold set_list, set_lists; simpl; f_equal; symmetry;
      (exact (Ho InFunctional ltac:(done)) || exact (Ho InNonfunctional ltac:(done)) || exact (Ho InSyncing ltac:(done))).
  - destruct w, dst; try done; simpl in *; rewrite Hd, ?app_nil_r; f_equal; unfold set_lists; simpl; f_equal; try (f_equal); symmetry;
      (exact (Ho InFunctional ltac:(done)) || exact (Ho InNonfunctional ltac:(done)) || exact (Ho InSyncing ltac:(done))).
Qed.

Lemma list_of_state w : getVolumeReplicaHandleList_ (state_of w) = Ret w.
Proof. by destruct w. Qed.
Lemma list_of_target tgt : valid_target tgt → getVolumeReplicaHandleList_ tgt = Ret (dst_of tgt).
Proof. by intros [->|[->|[->| ->]]]. Qed.

Lemma change_release grow Q w n r v tgt op e s :
  (∀ i, next_id s ≤ i → pending s !! i = None) → lists Q (vg s) → isCoordinator_ (vg s) = true → valid_target tgt → list_of w (vg s) !! n = Some r →
  (grow = true → w ≠ dst_of tgt) →
  (changeVolumeReplicaState_ false grow (Some (w, n)) v tgt op e s = Ret (s, Some (w, n), ERR_INVALID_VERSION) ∧ dst_of tgt ≠ InNonfunctional) ∨
  ∃ s1 r', changeVolumeReplicaState_ false grow (Some (w, n)) v tgt op e s =
      Ret (with_vg (actions tgt (place (svcUuid r) (dst_of tgt) r' (vg s1))) s1,
           Some (dst_of tgt, (length (list_of (dst_of tgt) (place (svcUuid r) (dst_of tgt) r' (vg s1))) - 1)%nat), ERR_OK) ∧
    calm s s1 ∧ changed tgt v (opSeqNo_ (vg s)) r r'.
Proof.
  intros Hf Hl Hc Ht Hn Hgr. unfold changeVolumeReplicaState_. simpl. rewrite Hn. simpl.
  destruct (change_handle_release v tgt op e r s Hf Hc Ht) as [[-> Hd]|(s1&r1&->&Hs&Hch)]; [by left|]. right. exists s1, r1. split; [|done]. simpl.
  rewrite (l_states Q (vg s) Hl w r) by (by eapply list_elem_of_lookup_2). rewrite list_of_state, (list_of_target tgt Ht). simpl.
  rewrite decide_False by naive_solver. destruct Hs as [(Hg&_) _]. pose proof (l_nodup _ _ Hl) as Hnd.
  rewrite (move_place grow (vg s1) w n r (dst_of tgt) r1); [| |by rewrite Hg|by destruct Hch|done].
  - simpl. rewrite (ch_state _ _ _ _ _ Hch), list_of_state. simpl. by rewrite group_actions_release.
  - rewrite getAll_handles in *. unfold handles in *. pose proof (Hg InFunctional). pose proof (Hg InNonfunctional). pose proof (Hg InSyncing). simpl in *. congruence.
Qed.

(** ** The invariant *)
Section Invariant.
Variable Q : Z.
Hypothesis HQ : 2 ≤ Q.

(** The state of the group and its replicas *)
Record phase (h : t) : Prop := {
  p_known : state_ h = Unknown ∨ state_ h = Loading ∨ state_ h = Active ∨ state_ h = Offline;
  p_unknown : state_ h = Unknown → handles h = [];
  p_loading : state_ h = Loading → opSeqNo_ h = 0 ∧ ∀ r, r ∈ handles h → appliedOpId r = 0;
  p_active : state_ h = Active → Q ≤ functional_cnt h;
  p_offline : state_ h = Offline → isCoordinator_ h = true ∧ functional_cnt h < Q;
  p_zero : state_ h = Offline → functionalReplicas_ h = [] → opSeqNo_ h = 0;
  p_reader : isCoordinator_ h = false → nonfunctionalReplicas_ h = [] ∧ syncingReplicas_ h = [];
}.

Definition acked (q : Request) : list Endpoint := filter (λ ep, ep_complete ep = true) (epReqs_ q).

(** A write: sent to members of the group, still waiting for one of them,
    answered when a quorum has acknowledged it *)
Record write_ok (h : t) (q : Request) : Prop := {
  wq_coordinator : isCoordinator_ h = true;
  wq_nodup : NoDup (ep_svc <$> epReqs_ q);
  wq_members : ∀ ep, ep ∈ epReqs_ q → ∃ r, r ∈ handles h ∧ svcUuid r = ep_svc ep ∧ ep_version ep ≤ version r;
  wq_acked : nAcked_ q = Z.of_nat (length (acked q));
  wq_more : nAcked_ q < Z.of_nat (length (epReqs_ q)) ≤ 255;
  wq_enough : Q ≤ Z.of_nat (length (epReqs_ q));
  wq_acks_nodup : NoDup (successAcks_ q).*1;
  wq_acks : ∀ a, a ∈ successAcks_ q → isVolumeGroupError a.2 = false ∧ a.1 ∈ ep_svc <$> acked q;
  wq_acks_le : Z.of_nat (length (successAcks_ q)) ≤ nAcked_ q;
  wq_cb : responseCb_ q = None ↔ Q ≤ Z.of_nat (length (successAcks_ q));
  wq_error : Z.of_nat (length (successAcks_ q)) < nAcked_ q → response_ q ≠ ERR_OK;
}.

Record read_ok (h : t) (q : Request) : Prop := {
  rq_members : ∀ ep, ep ∈ epReqs_ q → ep_svc ep ∈ getAllReplicas h;
  rq_available : ∀ r, r ∈ availableReplicas_ q → svcUuid r ∈ getAllReplicas h;
  rq_cb : responseCb_ q ≠ None;
}.

Definition request_ok (h : t) (q : Request) : Prop := match write_ q with Some _ => write_ok h q | None => read_ok h q end.

Definition requests_ok (h : t) (m : gmap Z Pending) : Prop :=
  ∀ id q, m !! id = Some (InProgress q) → (state_ h = Active ∨ state_ h = Offline) ∧ request_ok h q.

(** Operation [k] was sent in request [id] to version [v] of a replica, which
    has not answered. *)
Definition sends (m : gmap Z Pending) (svc v id k : Z) : Prop :=
  ∃ q w, m !! id = Some (InProgress q) ∧ write_ q = Some w ∧ opId w = k ∧ Ep svc v false ∈ epReqs_ q.

(** A replica has applied the operations up to [a]; the later ones are on
    their way to it. *)
Record in_order (m : gmap Z Pending) (op svc v a : Z) : Prop := {
  io_le : a ≤ op;
  io_sent : ∀ k, a < k ≤ op ↔ ∃ id, sends m svc v id k;
  io_once : ∀ id id' k, sends m svc v id k → sends m svc v id' k → id = id';
}.

Definition ordered (h : t) (m : gmap Z Pending) : Prop :=
  ∀ r, r ∈ getWriteableReplicaHandles h → in_order m (opSeqNo_ h) (svcUuid r) (version r) (appliedOpId r).

Definition is_opening (p : Pending) : Prop := match p with Preparing _ | Informing _ | Switching _ => True | _ => False end.

Lemma opening_not_checking p : is_opening p → ¬ is_checking p.
Proof. destruct p; simpl; tauto. Qed.

(** An open that is in progress *)
Definition opening_ok (h : t) (p : Pending) : Prop :=
  match p with
  | Preparing _ => (if isCoordinator_ h then functionalReplicas_ h = [] ∧ syncingReplicas_ h = [] else Q ≤ functional_cnt h) ∧ (∀ c, openRetryCtx_ h = Some c → triesCnt c ≠ 0)
  | Informing _ => isCoordinator_ h = true ∧ functionalReplicas_ h ≠ [] ∧ (∀ c, openRetryCtx_ h = Some c → triesCnt c ≠ 0)
  | Switching _ => isCoordinator_ h = true ∧ functionalReplicas_ h = [] ∧ syncingReplicas_ h = [] ∧ ∃ c, openRetryCtx_ h = Some c ∧ 0 ≤ triesCnt c
  | _ => True
  end.

Definition opens_ok (h : t) (m : gmap Z Pending) : Prop :=
  (∀ id p, m !! id = Some p → is_opening p → state_ h = Loading ∧ opening_ok h p ∧ ∀ id' p', m !! id' = Some p' → ¬ is_checking p' → id' = id) ∧
  ((∀ id p, m !! id = Some p → ¬ is_opening p) → ∀ c, openRetryCtx_ h = Some c → triesCnt c ≠ 0).

Record good (h : t) (m : gmap Z Pending) : Prop := {
  gd_lists : lists Q h;
  gd_phase : phase h;
  gd_requests : requests_ok h m;
  gd_ordered : ordered h m;
  gd_opens : opens_ok h m;
}.

(** *** Changes that do not matter *)
Lemma handles_same h h' : (∀ w, list_of w h' = list_of w h) → handles h' = handles h.
Proof. intros Hl. unfold handles. pose proof (Hl InFunctional). pose proof (Hl InNonfunctional). pose proof (Hl InSyncing). simpl in *. congruence. Qed.

Lemma live_same h h' : (∀ w, list_of w h' = list_of w h) → getWriteableReplicaHandles h' = getWriteableReplicaHandles h.
Proof. intros Hl. unfold getWriteableReplicaHandles. pose proof (Hl InFunctional). pose proof (Hl InSyncing). simpl in *. congruence. Qed.

Lemma lists_same h h' :
  lists Q h → (∀ w, list_of w h' = list_of w h) → groupSize_ h' = groupSize_ h → quorumCnt_ h' = quorumCnt_ h → lists Q h'.
Proof.
  intros [] Hl Hs Hq. assert (getAllReplicas h' = getAllReplicas h) as Ha by (rewrite !getAll_handles; by rewrite (handles_same h h')).
  split; rewrite ?size_all, ?Ha, <- ?size_all, ?Hs, ?Hq; try done. intros w r. rewrite Hl. auto.
Qed.

Lemma sends_same m m' svc v id k : same_pending m m' → sends m' svc v id k ↔ sends m svc v id k.
Proof. intros Hm. unfold sends. setoid_rewrite (Hm id (InProgress _)); [done|simpl; tauto]. Qed.

Lemma in_order_same m m' op svc v a : same_pending m m' → in_order m op svc v a → in_order m' op svc v a.
Proof.
  intros Hm []. split; [done| |].
  - intros k. rewrite io_sent0. by setoid_rewrite (sends_same m m').
  - intros id id' k. rewrite !(sends_same m m') by done. apply io_once0.
Qed.

Lemma write_ok_members h h' q :
  write_ok h q → isCoordinator_ h' = true → (∀ r, r ∈ handles h → ∃ r', r' ∈ handles h' ∧ svcUuid r' = svcUuid r ∧ version r ≤ version r') → write_ok h' q.
Proof.
  intros [] Hc Hm. split; try done. intros ep Hep. destruct (wq_members0 _ Hep) as (r&Hr&E&Hv). destruct (Hm _ Hr) as (r'&Hr'&E'&Hv').
  exists r'. split; [done|]. split; [congruence|lia].
Qed.

Lemma request_ok_members h h' q :
  request_ok h q → (isCoordinator_ h = true → isCoordinator_ h' = true) → getAllReplicas h ⊆ getAllReplicas h' →
  (∀ r, r ∈ handles h → ∃ r', r' ∈ handles h' ∧ svcUuid r' = svcUuid r ∧ version r ≤ version r') → request_ok h' q.
Proof.
  unfold request_ok. intros Hq Hc Ha Hm. destruct (write_ q).
  - eapply write_ok_members; [done| |done]. apply Hc. by destruct Hq.
  - destruct Hq. split; [intros; apply Ha; auto|intros; apply Ha; auto|done].
Qed.

Lemma opening_ok_same h h' p :
  (∀ w, list_of w h' = list_of w h) → isCoordinator_ h' = isCoordinator_ h → openRetryCtx_ h' = openRetryCtx_ h → opening_ok h p → opening_ok h' p.
Proof. intros Hl Hc Hx. pose proof (Hl InFunctional) as H1. pose proof (Hl InSyncing) as H2. simpl in *. unfold opening_ok, functional_cnt. destruct p; rewrite ?Hc, ?Hx, ?H1, ?H2; done. Qed.

Lemma good_calm h h' m m' : good h m → same_group h h' → same_pending m m' → good h' m'.
Proof.
  intros [Hl Hp Hr Ho Hop] (Hw&Hs&Hq&Hst&Hn&Hc&Hx) Hm.
  assert (∀ w, list_of w h' = list_of w h) as Hw' by done. pose proof (handles_same _ _ Hw) as Hh. pose proof (Hw InFunctional) as Hf. pose proof (Hw InNonfunctional) as Hnf. pose proof (Hw InSyncing) as Hsy.
  simpl in *. split.
  - by eapply lists_same.
  - destruct Hp. unfold functional_cnt in *. split; unfold functional_cnt; rewrite ?Hst, ?Hn, ?Hc, ?Hh, ?Hf, ?Hnf, ?Hsy; done.
  - intros id q Hid. apply Hm in Hid; [|simpl; tauto]. destruct (Hr _ _ Hid) as [H1 H2]. rewrite Hst. split; [done|].
    eapply request_ok_members; [done|by rewrite Hc|by rewrite !getAll_handles, Hh|]. intros r Hx'. exists r. by rewrite Hh.
  - intros r. rewrite (live_same _ _ Hw), Hn. intros Hx'. eapply in_order_same; [done|]. by apply Ho.
  - destruct Hop as [H1 H2]. split.
    + intros id p Hid Hpo. apply Hm in Hid; [|by apply opening_not_checking]. destruct (H1 _ _ Hid Hpo) as (Ha&Hb&Hc'). rewrite Hst. split; [done|]. split; [by eapply opening_ok_same|].
      intros id' p' Hid' Hnc. eapply Hc'; [|done]. by apply Hm.
    + rewrite Hx. intros H. apply H2. intros id p Hid Hpo. eapply H; [|exact Hpo]. apply Hm; [by apply opening_not_checking|done].
Qed.

(** *** A closed group *)
Lemma good_closed h : handles h = [] → groupSize_ h = 0 → quorumCnt_ h = Q → state_ h = Unknown →
  (∀ c, openRetryCtx_ h = Some c → triesCnt c ≠ 0) → good h ∅.
Proof.
  intros Hh Hs Hq Hst Hx. assert (∀ w, list_of w h = []) as Hw.
  { intros w. destruct (list_of w h) as [|r l] eqn:E; [done|]. assert (r ∈ handles h) as Hr by (apply elem_of_handles; exists w; rewrite E; left).
    rewrite Hh in Hr. by apply elem_of_nil in Hr. }
  pose proof (Hw InFunctional) as Hf. pose proof (Hw InNonfunctional) as Hnf. pose proof (Hw InSyncing) as Hsy. simpl in *. split.
  - split; rewrite ?size_all, ?getAll_handles, ?Hh; simpl; try done; [constructor|]. intros w r. rewrite Hw. by intros ?%elem_of_nil.
  - split; rewrite ?Hst; try done. by left.
  - intros id q. by rewrite lookup_empty.
  - intros r. unfold getWriteableReplicaHandles. rewrite Hf, Hsy. by intros ?%elem_of_nil.
  - split; [|done]. intros id p. by rewrite lookup_empty.
Qed.

(** *** References *)
Lemma decRef_release s :
  ∃ s', decRef false s = Ret s' ∧ pending s' = pending s ∧ next_id s' = next_id s ∧
    (same_group (vg s) (vg s') ∨
     (refCnt_ (vg s) ≤ 1 ∧ handles (vg s') = [] ∧ groupSize_ (vg s') = 0 ∧ quorumCnt_ (vg s') = quorumCnt_ (vg s) ∧ state_ (vg s') = Unknown ∧
      openRetryCtx_ (vg s') = openRetryCtx_ (vg s))).
Proof.
  unfold decRef. simpl. gcase.
  - destruct Hd as [Hr Hc]. unfold closeHandle_. simpl. destruct (closeCb_ (vg s)); [|done]. eexists. split; [done|]. simpl.
    split; [done|]. split; [done|]. right. split; [lia|done].
  - eexists. split; [done|]. split; [done|]. split; [done|]. left. by repeat split.
Qed.

Lemma empty_pending (m : gmap Z Pending) : Z.of_nat (base.size m) ≤ 0 → m = ∅.
Proof. intros H. apply map_size_empty_inv. lia. Qed.

Lemma opens_idle h c : opens_ok h ∅ → openRetryCtx_ h = Some c → triesCnt c ≠ 0.
Proof. intros [_ H]. apply H. intros id p. by rewrite lookup_empty. Qed.

Lemma decRef_good W m s :
  good (vg s) (pending s) → base 1 W m s → ∃ s', decRef false s = Ret s' ∧ good (vg s') (pending s').
Proof.
  intros Hg [[Hf Hk Hr Hc Ho] Hw]. destruct (decRef_release s) as (s'&H&Hp&_&Hs). exists s'. split; [done|]. rewrite Hp.
  destruct Hs as [Hs|(H1&Hh&H2&H3&H4&H5)]; [by eapply good_calm|].
  assert (pending s = ∅) as E by (apply empty_pending; lia). rewrite E in *.
  destruct Hg. apply good_closed; [done|done| |done|]; [destruct gd_lists0; congruence|]. intros c. rewrite H5. by apply opens_idle.
Qed.

Lemma respond_good W m cb e s :
  good (vg s) (pending s) → base 1 W m s → ∃ s', respond false cb e s = Ret s' ∧ good (vg s') (pending s').
Proof. intros Hg Hb. unfold respond. destruct (decRef_good _ _ _ Hg Hb) as (s1&->&Hg1). simpl. eexists. split; [done|]. done. Qed.

Lemma complete_good W m id p s :
  pending s !! id = Some p → base 0 W m s → good (vg s) (delete id (pending s)) → ∃ s', complete false id s = Ret s' ∧ good (vg s') (pending s').
Proof.
  intros Hid [[Hf Hk Hr Hc Ho] Hw] Hg. unfold complete. destruct (decRef_release s) as (s1&->&Hp&_&Hs). simpl. eexists. split; [done|]. simpl. rewrite Hp.
  destruct Hs as [Hs|(H1&Hh&H2&H3&H4&H5)]; [by eapply good_calm|].
  assert (delete id (pending s) = ∅) as E.
  { apply empty_pending. rewrite map_size_delete, Hid. simpl. lia. }
  rewrite E in *. destruct Hg. apply good_closed; [done|done| |done|]; [destruct gd_lists0; congruence|]. intros c. rewrite H5. by apply opens_idle.
Qed.

(** ** Events that the protocol allows *)
(** The last functional replica is not lost while another is syncing. *)
Definition keeps_one (u : Z) (h : t) : Prop := svcUuid <$> functionalReplicas_ h = [u] → syncingReplicas_ h = [].

Definition add_expected (m : AddMsg) (h : t) (r : Replica) : Prop :=
  match add_target m with
  | Loading | Offline => keeps_one (svcUuid r) h
  | Syncing => state r ≠ Active ∧ version r < add_version m
  | Active => state r = Syncing
  | _ => False
  end.

Definition response_expected (hdr : AsyncHdr) (q : Request) (ep : Endpoint) (s : sys) : Prop :=
  replicaVersion hdr = ep_version ep ∧
  if isVolumeGroupError (msg_code hdr) then keeps_one (ep_svc ep) (vg s)
  else ∀ w id k, write_ q = Some w → sends (pending s) (ep_svc ep) (ep_version ep) id k → opId w ≤ k.

Definition expected (e : event) (s : sys) : Prop :=
  match e with
  | Open _ _ (_, inr svcs) => state_ (vg s) = Active ∨ (pending s = ∅ ∧ NoDup svcs ∧ Q ≤ Z.of_nat (length svcs) ≤ 255)
  | Open _ _ (_, inl _) => state_ (vg s) = Active ∨ (pending s = ∅ ∧ state_ (vg s) ≠ Offline)
  | Add m => ∀ r, r ∈ handles (vg s) → svcUuid r = add_svc m → add_expected m (vg s) r
  | Prepared id rsps => ∀ cb, pending s !! id = Some (Preparing cb) → peer <$> rsps = getAllReplicas (vg s)
  | Response id hdr =>
      ∀ q n ep, pending s !! id = Some (InProgress q) → getEpReq_ (msg_src_uuid hdr) q = Some (n, ep) → ep_complete ep = false →
      response_expected hdr q ep s
  | _ => True
  end.

(** *** State changes *)
Lemma length_others (l : list Replica) r : NoDup (svcUuid <$> l) → r ∈ l → S (length (others (svcUuid r) l)) = length l.
Proof. intros Hnd Hr. rewrite (others_perm l r Hnd Hr) at 2. done. Qed.

Lemma functional_place h w r dst r' :
  NoDup (getAllReplicas h) → r ∈ list_of w h → svcUuid r' = svcUuid r →
  functional_cnt (place (svcUuid r) dst r' h) = functional_cnt h - one (w = InFunctional) + one (dst = InFunctional).
Proof.
  intros Hnd Hr E. unfold functional_cnt. change (functionalReplicas_ ?x) with (list_of InFunctional x). rewrite list_of_place, length_app, Nat2Z.inj_add.
  assert (Z.of_nat (length (others (svcUuid r) (list_of InFunctional h))) = Z.of_nat (length (list_of InFunctional h)) - one (w = InFunctional)) as ->.
  { unfold one. case_decide as Hw.
    - subst. rewrite <- (length_others (list_of InFunctional h) r) by (done || by apply nodup_list_of). lia.
    - rewrite others_notin; [lia|]. intros (x&Ex&Hx)%list_elem_of_fmap. destruct (one_list h w InFunctional r x Hnd Hr Hx Ex). done. }
  unfold one. repeat case_decide; simplify_eq; simpl; try lia; try done.
Qed.

Lemma actions_same tgt h :
  (∀ w, list_of w (actions tgt h) = list_of w h) ∧ groupSize_ (actions tgt h) = groupSize_ h ∧ quorumCnt_ (actions tgt h) = quorumCnt_ h ∧
  isCoordinator_ (actions tgt h) = isCoordinator_ h ∧ openRetryCtx_ (actions tgt h) = openRetryCtx_ h.
Proof. unfold actions. destruct (isFunctional tgt), (isNonFunctional tgt); cbv zeta; repeat gcase; by repeat split. Qed.

Lemma functional_nil h : functionalReplicas_ h = [] ↔ functional_cnt h = 0.
Proof. unfold functional_cnt. destruct (functionalReplicas_ h); simpl; split; (done || lia). Qed.

Lemma elem_of_live h r : r ∈ getWriteableReplicaHandles h ↔ r ∈ list_of InFunctional h ∨ r ∈ list_of InSyncing h.
Proof. unfold getWriteableReplicaHandles. by rewrite elem_of_app. Qed.

Section Place.
Context (h : t) (m : gmap Z Pending) (w : Which) (r : Replica) (tgt : ResourceState) (v : Z) (r' : Replica).
Hypothesis Hg : good h m.
Hypothesis Hc : isCoordinator_ h = true.
Hypothesis Hst : state_ h = Active ∨ state_ h = Offline.
Hypothesis Hr : r ∈ list_of w h.
Hypothesis Hch : changed tgt v (opSeqNo_ h) r r'.
Hypothesis Htgt : valid_target tgt.
Hypothesis Hsync : tgt = Syncing → w ≠ InFunctional ∧ version r < v.
Hypothesis Hact : tgt = Active → w = InSyncing.
Hypothesis Hlost : dst_of tgt = InNonfunctional → keeps_one (svcUuid r) h.

Let h1 := place (svcUuid r) (dst_of tgt) r' h.
Let h2 := actions tgt h1.

Lemma placed_cnt : functional_cnt h1 = functional_cnt h - one (w = InFunctional) + one (dst_of tgt = InFunctional).
Proof. apply functional_place; [by destruct Hg as [[]]|done|by destruct Hch]. Qed.

Ltac arith_case :=
  match goal with
  | H : _ ∧ _ |- _ => destruct H
  | H : ¬ (?A = ?A ∧ ?B) |- _ => assert (¬ B) by tauto; clear H
  end.

Lemma placed_phase : phase h2.
Proof.
  pose proof placed_cnt as Hcnt. destruct Hg as [Hl [_ _ _ Ha Ho Hz _] _ _ _]. pose proof (l_quorum _ _ Hl) as HqQ.
  pose proof functional_nil as Hnil. rewrite Hnil in Hz. pose proof (Nat2Z.is_nonneg (length (functionalReplicas_ h1))) as Hpos. fold (functional_cnt h1) in Hpos.
  pose proof (Nat2Z.is_nonneg (length (functionalReplicas_ h))) as Hpos0. fold (functional_cnt h) in Hpos0.
  assert (state_ h1 = state_ h) as Hs1 by done. assert (quorumCnt_ h1 = Q) as Hq1 by done. assert (opSeqNo_ h1 = opSeqNo_ h) as Hn1 by done.
  assert (isCoordinator_ h1 = true) as Hc1 by done.
  assert (∀ x n, (state_ x = Active ∨ state_ x = Offline) → isCoordinator_ x = true → functional_cnt x = n → (state_ x = Active → Q ≤ n) →
    (state_ x = Offline → n < Q) → (state_ x = Offline → n = 0 → opSeqNo_ x = 0) → phase x) as Hmk.
  { intros x n Hx Hxc Hxn H1 H2 H3. split; rewrite ?Hnil, ?Hxn; intros; try congruence; try (by auto); first [tauto|destruct Hx; congruence]. }
  clearbody h1. apply (Hmk h2 (functional_cnt h1)); subst h2; unfold actions, OPSTARTID;
    (destruct Htgt as [->|[->|[->| ->]]]; simpl; unfold one in Hcnt; simpl in Hcnt; cbv zeta;
     destruct Hst as [E|E]; rewrite E in *; repeat (gcase; simpl); rewrite ?Hs1, ?Hq1, ?Hn1 in *; simpl in *;
     try specialize (Ha eq_refl); try specialize (Ho eq_refl); try specialize (Hz eq_refl); try specialize (Hsync eq_refl); try specialize (Hact eq_refl);
     repeat case_decide; repeat arith_case; first [by left|by right|intros; first [congruence|lia|tauto]]).
Qed.
Lemma placed_seq : opSeqNo_ h2 = opSeqNo_ h ∨ getWriteableReplicaHandles h1 = [].
Proof.
  pose proof placed_cnt as Hcnt. destruct Hg as [Hl [_ _ _ Ha Ho Hz _] _ _ _].
  assert (dst_of tgt ≠ InNonfunctional → opSeqNo_ h2 = opSeqNo_ h) as Hup.
  { intros Hd. subst h2. unfold actions. destruct Htgt as [->|[->|[->| ->]]]; simpl in *; try done. by gcase. }
  destruct (decide (dst_of tgt = InNonfunctional)) as [Hd|]; [|by left; apply Hup]. clear Hup.
  destruct (decide (functional_cnt h1 = 0)) as [H0|H0].
  2:{ left. subst h2. unfold actions. destruct Htgt as [->|[->|[->| ->]]]; simpl in *; try done; cbv zeta; repeat gcase; try done;
      match goal with H : _ ∧ functional_cnt _ = 0 |- _ => by destruct (H0 (proj2 H)) end. }
  rewrite Hd in Hcnt. unfold one in Hcnt. simpl in Hcnt. case_decide as Hw.
  - right. pose proof (proj2 (functional_nil h1) H0) as Hf1. assert (functional_cnt h = 1) as Hf by lia. clear Hcnt H0. subst w. unfold functional_cnt in Hf. pose proof Hr as Hr1. simpl in Hr1.
    destruct (functionalReplicas_ h) as [|r0 [|r1 l]] eqn:Ef; simpl in Hf; [by apply elem_of_nil in Hr1| |lia].
    apply list_elem_of_singleton in Hr1 as <-. specialize (Hlost Hd). unfold keeps_one in Hlost. rewrite Ef in Hlost. specialize (Hlost eq_refl).
    unfold getWriteableReplicaHandles. rewrite Hf1.
    subst h1. simpl. rewrite Hd, Hlost. done.
  - left. assert (functional_cnt h = 0) as Hf0 by lia. pose proof (proj2 (functional_nil h) Hf0) as Hfn.
    destruct Hst as [E|E]; [specialize (Ha E); lia|]. specialize (Hz E Hfn). rewrite Hz.
    subst h2. unfold actions. destruct (isFunctional tgt), (isNonFunctional tgt); cbv zeta; repeat gcase; done.
Qed.

Lemma placed_ordered : ordered h2 m.
Proof.
  intros x Hx. rewrite (live_same h1 h2) in Hx by apply actions_same.
  destruct placed_seq as [->|E]; [|rewrite E in Hx; by apply elem_of_nil in Hx].
  destruct Hg as [Hl _ Hq Ho _]. destruct Hch as [Esvc Est Hsy Hot].
  apply elem_of_live in Hx. unfold h1 in Hx. rewrite !elem_of_place in Hx.
  assert ((x ∈ getWriteableReplicaHandles h) ∨ x = r' ∧ dst_of tgt ≠ InNonfunctional) as [Hx'|[-> Hd]].
  { destruct Hx as [[[Hx _]|[-> <-]]|[[Hx _]|[-> <-]]]; [left; apply elem_of_live; by left|by right|left; apply elem_of_live; by right|by right]. }
  { by apply Ho. }
  destruct (decide (tgt = Syncing)) as [->|Hn].
  - destruct (Hsy eq_refl) as (Ev&Ea&_). destruct (Hsync eq_refl) as [_ Hlt]. rewrite Esvc, Ev, Ea.
    assert (∀ id k, ¬ sends m (svcUuid r) v id k) as Hno.
    { intros id k (q&wr&Hid&Hwr&_&Hep). destruct (Hq _ _ Hid) as [_ Hok]. unfold request_ok in Hok. rewrite Hwr in Hok.
      destruct (wq_members _ _ Hok _ Hep) as (r0&Hr0&E0&Hv0). simpl in *. apply elem_of_handles in Hr0 as [w0 Hr0].
      destruct (one_list h w w0 r r0 (l_nodup _ _ Hl) Hr Hr0 (eq_sym E0)) as [_ <-]. lia. }
    split; [lia| |].
    + intros k. split; [lia|]. intros [id Hs]. by destruct (Hno id k).
    + intros id id' k Hs. by destruct (Hno id k).
  - destruct (Hot Hn) as [-> ->]. rewrite Esvc. apply Ho. apply elem_of_live. right.
    assert (tgt = Active) as -> by (destruct Htgt as [->|[->|[->| ->]]]; done). by rewrite <- (Hact eq_refl).
Qed.

Lemma placed_members x : x ∈ handles h → ∃ x', x' ∈ handles h2 ∧ svcUuid x' = svcUuid x ∧ version x ≤ version x'.
Proof.
  intros Hx. destruct Hg as [Hl _ _ _ _]. rewrite (handles_same h1 h2) by apply actions_same. apply elem_of_handles in Hx as [w0 Hx].
  destruct (decide (svcUuid x = svcUuid r)) as [E|E].
  - destruct (one_list h w w0 r x (l_nodup _ _ Hl) Hr Hx (eq_sym E)) as [_ <-]. exists r'. destruct Hch as [Esvc Est Hsy Hot].
    split; [apply elem_of_handles; exists (dst_of tgt); apply elem_of_place; by right|]. split; [done|].
    destruct (decide (tgt = Syncing)) as [Ht|Ht]; [destruct (Hsy Ht) as [-> _]; destruct (Hsync Ht); lia|destruct (Hot Ht) as [-> _]; lia].
  - exists x. split; [|done]. apply elem_of_handles. exists w0. apply elem_of_place. by left.
Qed.

Lemma placed_good : good h2 m.
Proof.
  destruct (actions_same tgt h1) as (Aw&As&Aq&Ac&Ax). pose proof placed_phase as Hp2. pose proof placed_ordered as Ho2.
  assert (lists Q h2) as Hl2.
  { eapply (lists_same h1); [|done..]. eapply place_lists; [by destruct Hg|exact Hr|by destruct Hch|by destruct Hch]. }
  assert (state_ h2 = Active ∨ state_ h2 = Offline) as Hs2.
  { subst h2. unfold actions. change (state_ h1) with (state_ h). destruct (isFunctional tgt), (isNonFunctional tgt); cbv zeta; repeat (gcase; simpl); tauto. }
  destruct Hg as [Hl Hp Hq Ho Hop]. split; [done|done| |done|].
  - intros id q Hid. split; [done|]. destruct (Hq _ _ Hid) as [_ Hok]. eapply request_ok_members; [exact Hok| | |exact placed_members].
    + intros _. change h2 with (actions tgt h1). by rewrite Ac.
    + rewrite !getAll_handles. intros u (x&->&Hx)%list_elem_of_fmap. destruct (placed_members x Hx) as (x'&Hx'&<-&_). by apply list_elem_of_fmap_2.
  - destruct Hop as [H1 H2]. split.
    + intros id p Hid Hpo. destruct (H1 _ _ Hid Hpo) as [E _]. exfalso. destruct Hst; congruence.
    + change h2 with (actions tgt h1). rewrite Ax. exact H2.
Qed.
End Place.

Abbreviation fresh s := (∀ i, next_id s ≤ i → pending s !! i = None).

Lemma change_good grow w n r v tgt op e s :
  fresh s → good (vg s) (pending s) → isCoordinator_ (vg s) = true → (state_ (vg s) = Active ∨ state_ (vg s) = Offline) →
  list_of w (vg s) !! n = Some r → valid_target tgt → (tgt = Syncing → state r ≠ Active ∧ version r < v) → (tgt = Active → state r = Syncing) →
  (dst_of tgt = InNonfunctional → keeps_one (svcUuid r) (vg s)) → (grow = true → w ≠ dst_of tgt) →
  ∃ s' i' x, changeVolumeReplicaState_ false grow (Some (w, n)) v tgt op e s = Ret (s', i', x) ∧ good (vg s') (pending s') ∧
    same_pending (pending s) (pending s') ∧
    (dst_of tgt = InNonfunctional → x = ERR_OK ∧ ∀ y, y ∈ getWriteableReplicaHandles (vg s') → svcUuid y ≠ svcUuid r).
Proof.
  intros Hf Hg Hc Hst Hn Ht Hsy Hac Hk Hgr. pose proof (gd_lists _ _ Hg) as Hl. apply list_elem_of_lookup_2 in Hn as Hr.
  assert (state r = state_of w) as Er by by apply (l_states _ _ Hl).
  destruct (change_release grow Q w n r v tgt op e s Hf Hl Hc Ht Hn Hgr) as [[-> Hd]|(s1&r'&->&[Hsg Hsp]&Hch)].
  { eexists _, _, _. split; [done|]. split; [done|]. split; [by intros ? ?|]. intros E. done. }
  eexists _, _, _. split; [done|]. simpl. assert (good (vg s1) (pending s1)) as Hg1 by by eapply good_calm.
  destruct Hsg as (Hw&_&_&Hs1&Hn1&Hc1&_). split; [|split; [done|]].
  - apply placed_good with (w := w) (v := v); rewrite ?Hc1, ?Hs1, ?Hn1, ?Hw; try done.
    + intros E. destruct (Hsy E) as [Hx Hv]. split; [|done]. intros ->. by rewrite Er in Hx.
    + intros E. specialize (Hac E). rewrite Er in Hac. by destruct w.
    + intros E. specialize (Hk E). unfold keeps_one in *. pose proof (Hw InFunctional) as H1. pose proof (Hw InSyncing) as H2. simpl in *. by rewrite H1, H2.
  - intros Hd. split; [done|]. intros y. rewrite (live_same (place (svcUuid r) (dst_of tgt) r' (vg s1))) by apply actions_same.
    rewrite elem_of_live, !elem_of_place, Hd. naive_solver.
Qed.

(** *** Responses to writes *)
Definition finished (m m' : gmap Z Pending) (id src v : Z) : Prop :=
  ∀ svc v' i k, sends m' svc v' i k ↔ sends m svc v' i k ∧ ¬ (i = id ∧ svc = src ∧ v' = v).

Lemma finished_other m m' id src v op svc v' a :
  finished m m' id src v → (svc ≠ src ∨ v' ≠ v) → in_order m op svc v' a → in_order m' op svc v' a.
Proof.
  unfold finished. intros Hf Hne []. split; [done| |].
  - intros k. rewrite io_sent0. setoid_rewrite Hf. naive_solver.
  - intros i i' k. rewrite !Hf. intros [? _] [? _]. by eapply io_once0.
Qed.

Lemma finished_next m m' id src v op k a :
  finished m m' id src v → in_order m op src v a → sends m src v id k → (∀ i k', sends m src v i k' → k ≤ k') → in_order m' op src v k ∧ a + 1 = k.
Proof.
  unfold finished. intros Hf [Hle Hs Ho] Hk Hmin. assert (a < k ≤ op) as Hak by (apply Hs; by exists id).
  assert (a + 1 = k) as E. { destruct (proj1 (Hs (a + 1))) as [i Hi]; [lia|]. specialize (Hmin _ _ Hi). lia. }
  split; [|done]. split; [lia| |].
  - intros k'. setoid_rewrite Hf. split.
    + intros Hk'. destruct (proj1 (Hs k')) as [i Hi]; [lia|]. exists i. split; [done|]. intros (->&_&_).
      destruct Hk as (q&w&Hq&Hw&<-&_), Hi as (q'&w'&Hq'&Hw'&<-&_). simplify_eq. lia.
    + intros (i&Hi&Hne). assert (a < k' ≤ op) by (apply Hs; by exists i). assert (k' ≠ k); [|lia]. intros ->. apply Hne. by rewrite (Ho _ _ _ Hi Hk).
  - intros i i' k'. rewrite !Hf. intros [? _] [? _]. by eapply Ho.
Qed.

End Invariant.

End VolumeGroupSafe.
