(* ===== verification/VolumeGroupRuns.v ===== *)
(** * Runs of replicated volumes

    Every event that the protocol allows is handled without ending the process
    and keeps the invariant of the volume group. *)

From S2P Require Import Prelude.
From S2P Require Import VolumeGroup.
From S2P Require Import VolumeGroupSpec.
From S2P Require Import VolumeGroupSafe.
Import VolumeGroupConstants VolumeReplicaHandle VolumeGroupHandle VolumeGroupSpec VolumeGroupSafe.
Open Scope Z_scope.

Module VolumeGroupRuns.
Implicit Types (s : sys) (h : t).
#[local] Arguments changeVolumeReplicaState_ : simpl never.
#[local] Arguments handleVolumeResponse : simpl never.
#[local] Arguments decRef : simpl never.
#[local] Arguments complete : simpl never.
#[local] Arguments failover : simpl never.

Section Runs.
Variable Q : Z.
Hypothesis HQ : 2 ≤ Q.
Variable grow : bool.
Abbreviation good := (good Q).
Abbreviation phase := (phase Q).
Abbreviation fresh s := (∀ i, next_id s ≤ i → pending s !! i = None).

(** ** A handle updated in place *)
Lemma elem_of_insert_svc (l : list Replica) n r r' x :
  NoDup (svcUuid <$> l) → l !! n = Some r → x ∈ <[n := r']> l ↔ (x ∈ l ∧ svcUuid x ≠ svcUuid r) ∨ x = r'.
Proof.
  intros Hnd Hn. assert (n < length l)%nat as Hlt by by eapply lookup_lt_Some.
  split.
  - intros [i Hi]%list_elem_of_lookup. apply list_lookup_insert_Some in Hi as [(_&<-&_)|[Hne Hi]]; [by right|].
    left. split; [by eapply list_elem_of_lookup_2|]. intros E. apply Hne.
    eapply (NoDup_lookup _ n i (svcUuid r)); [exact Hnd|by rewrite list_lookup_fmap, Hn|by rewrite list_lookup_fmap, Hi, <- E].
  - intros [[[i Hi]%list_elem_of_lookup Hne]| ->]; [|by apply list_elem_of_insert].
    apply (list_elem_of_lookup_2 _ i). rewrite list_lookup_insert_ne; [done|]. intros ->. congruence.
Qed.

Lemma list_of_set w w' l h : list_of w' (set_list w l h) = if decide (w' = w) then l else list_of w' h.
Proof. by destruct w, w'. Qed.

Section Update.
Context (h : t) (w : Which) (n : nat) (r r' : Replica).
Hypothesis Hl : lists Q h.
Hypothesis Hn : list_of w h !! n = Some r.
Hypothesis Esvc : svcUuid r' = svcUuid r.
Hypothesis Est : state r' = state r.
Let h' := update_handle w n r' h.

Lemma elem_of_update w0 x : x ∈ list_of w0 h' ↔ (x ∈ list_of w0 h ∧ svcUuid x ≠ svcUuid r) ∨ (x = r' ∧ w0 = w).
Proof.
  pose proof (l_nodup _ _ Hl) as Hnd. subst h'. unfold update_handle. rewrite list_of_set. case_decide as E.
  - subst. rewrite (elem_of_insert_svc _ _ r); [naive_solver|by apply nodup_list_of|done].
  - split; [|naive_solver]. intros Hx. left. split; [done|]. intros Ex. apply list_elem_of_lookup_2 in Hn. by destruct (one_list h w w0 r x Hnd Hn Hx (eq_sym Ex)).
Qed.

Lemma update_fmap w0 : svcUuid <$> list_of w0 h' = svcUuid <$> list_of w0 h.
Proof.
  subst h'. unfold update_handle. rewrite list_of_set. case_decide as E; [|done]. subst. rewrite list_fmap_insert, Esvc.
  apply list_insert_id. by rewrite list_lookup_fmap, Hn.
Qed.

Lemma update_all : getAllReplicas h' = getAllReplicas h.
Proof. unfold getAllReplicas. pose proof (update_fmap InFunctional) as H1. pose proof (update_fmap InNonfunctional) as H2. pose proof (update_fmap InSyncing) as H3. simpl in *. by rewrite H1, H2, H3. Qed.

Lemma update_same : groupSize_ h' = groupSize_ h ∧ quorumCnt_ h' = quorumCnt_ h ∧ state_ h' = state_ h ∧ opSeqNo_ h' = opSeqNo_ h ∧
  isCoordinator_ h' = isCoordinator_ h ∧ openRetryCtx_ h' = openRetryCtx_ h.
Proof. subst h'. by destruct w. Qed.

Lemma update_lists : lists Q h'.
Proof.
  destruct update_same as (Hs&Hq&_). destruct Hl. split; rewrite ?size_all, ?update_all, <- ?size_all, ?Hs, ?Hq; try done.
  intros w0 x [[Hx _]|[-> ->]]%elem_of_update; [by apply l_states0|]. rewrite Est. apply l_states0. by eapply list_elem_of_lookup_2.
Qed.

Lemma update_phase : (state_ h = Active ∨ state_ h = Offline) → phase h → phase h'.
Proof.
  intros Hst []. destruct update_same as (Hs&Hq&Hs'&Ho&Hc&_).
  assert (∀ w0, length (list_of w0 h') = length (list_of w0 h)) as Hlen by (intros w0; rewrite <- (length_fmap svcUuid), update_fmap, length_fmap; done).
  pose proof (Hlen InFunctional) as H1. pose proof (Hlen InNonfunctional) as H2. pose proof (Hlen InSyncing) as H3. simpl in *.
  rewrite <- !length_zero_iff_nil in *. unfold functional_cnt in *.
  split; unfold functional_cnt; rewrite <- ?length_zero_iff_nil, ?Hs', ?Ho, ?Hc, ?H1, ?H2, ?H3; try done; intros E; destruct Hst; congruence.
Qed.

Lemma update_members x : version r' = version r → x ∈ handles h → ∃ x', x' ∈ handles h' ∧ svcUuid x' = svcUuid x ∧ version x ≤ version x'.
Proof.
  intros Ev [w0 Hx]%elem_of_handles. destruct (decide (svcUuid x = svcUuid r)) as [E|E].
  - apply list_elem_of_lookup_2 in Hn as Hr. destruct (one_list h w w0 r x (l_nodup _ _ Hl) Hr Hx (eq_sym E)) as [_ <-].
    exists r'. split; [apply elem_of_handles; exists w; apply elem_of_update; by right|]. split; [done|lia].
  - exists x. split; [|done]. apply elem_of_handles. exists w0. apply elem_of_update. by left.
Qed.

Lemma update_requests m : version r' = version r → requests_ok Q h m → requests_ok Q h' m.
Proof.
  intros Ev Hq id q Hid. destruct (Hq _ _ Hid) as [Hst Hok]. destruct update_same as (_&_&->&_&Hc&_). split; [done|].
  eapply request_ok_members; [exact Hok|by rewrite Hc|by rewrite update_all|]. intros x. by apply update_members.
Qed.

Lemma update_opens m : (state_ h = Active ∨ state_ h = Offline) → opens_ok Q h m → opens_ok Q h' m.
Proof.
  intros Hst [H1 H2]. destruct update_same as (_&_&Hs&_&Hc&Hx). split.
  - intros id p Hid Hp. destruct (H1 _ _ Hid Hp) as [E _]. destruct Hst; congruence.
  - by rewrite Hx.
Qed.
End Update.

(** ** Responses to writes *)
Lemma getEp_found src q n ep : getEpReq_ src q = Some (n, ep) → epReqs_ q !! n = Some ep ∧ ep_svc ep = src.
Proof. intros (?&?&_)%list_find_Some. done. Qed.

(** What is left to show once the endpoint is marked as answered *)
Record answered_ok (id src v : Z) (s : sys) : Prop := {
  ao_lists : lists Q (vg s);
  ao_phase : phase (vg s);
  ao_requests : requests_ok Q (vg s) (pending s);
  ao_opens : opens_ok Q (vg s) (pending s);
  ao_ordered : ∀ m', finished (pending s) m' id src v → ordered (vg s) m';
}.

Lemma answered_ignored id src v s :
  good (vg s) (pending s) → (∀ x, x ∈ getWriteableReplicaHandles (vg s) → svcUuid x ≠ src ∨ version x ≠ v) → answered_ok id src v s.
Proof.
  intros [] Hne. split; try done. intros m' Hm x Hx. eapply finished_other; [done| |by apply gd_ordered0]. by apply Hne.
Qed.

Lemma finished_same m1 m2 m' id src v : same_pending m1 m2 → finished m2 m' id src v → finished m1 m' id src v.
Proof. intros Hs Hf svc v' i k. rewrite (Hf svc v' i k). by rewrite (sends_same _ _ svc v' i k Hs). Qed.

Lemma write_response_handled id q w n ep hdr acks0 s :
  fresh s → good (vg s) (pending s) → pending s !! id = Some (InProgress q) → write_ q = Some w →
  getEpReq_ (msg_src_uuid hdr) q = Some (n, ep) → ep_complete ep = false → response_expected hdr q ep s →
  ∃ s1 acks, handleVolumeResponse false grow (msg_src_uuid hdr) (replicaVersion hdr) (opId w) true (msg_code hdr) acks0 s = Ret (s1, acks) ∧
    answered_ok id (ep_svc ep) (ep_version ep) s1 ∧ same_pending (pending s) (pending s1) ∧
    (acks = acks0 ∨ acks = acks0 ++ [(msg_src_uuid hdr, msg_code hdr)] ∧ isVolumeGroupError (msg_code hdr) = false).
Proof.
  intros Hf Hg Hid Hw [Hep Esrc]%getEp_found Hnc [Ever Hexp]. pose proof Hg as [Hl Hp Hq Ho Hop]. destruct (Hq _ _ Hid) as [Hst Hok].
  unfold request_ok in Hok. rewrite Hw in Hok. apply list_elem_of_lookup_2 in Hep as Hin.
  pose proof (wq_coordinator _ _ _ Hok) as Hc. destruct (wq_members _ _ _ Hok _ Hin) as (r0&Hr0&E0&_).
  destruct (get_deref (msg_src_uuid hdr) (vg s)) as (wh&k&r&Hget&Hd&Hn&Eu).
  { rewrite getAll_handles, <- Esrc, <- E0. by apply list_elem_of_fmap_2. }
  apply list_elem_of_lookup_2 in Hn as Hr.
  assert (∀ x, x ∈ getWriteableReplicaHandles (vg s) → svcUuid x = ep_svc ep → x = r ∧ (wh = InFunctional ∨ wh = InSyncing)) as Hown.
  { intros x Hx E. apply elem_of_live in Hx. destruct Hx as [Hx|Hx];
      (destruct (one_list (vg s) _ _ _ _ (l_nodup _ _ Hl) Hr Hx) as [-> ->]; [congruence|split; [done|tauto]]). }
  unfold handleVolumeResponse. simpl. rewrite decide_False by (destruct Hst; intuition congruence). rewrite Hget. cbn -[deref]. rewrite Hd. simpl.
  rewrite Ever. gcase.
  { exists s, acks0. split; [done|]. split; [|by split; [|left]]. apply answered_ignored; [done|]. intros x Hx. destruct (decide (svcUuid x = ep_svc ep)) as [E|]; [|by left].
    destruct (Hown x Hx E) as [-> _]. right. congruence. }
  apply dec_stable in Hd0. destruct (isFunctional (state r) || isSyncing (state r)) eqn:Elive.
  2:{ exists s, acks0. split; [done|]. split; [|by split; [|left]]. apply answered_ignored; [done|]. intros x Hx. left. intros E.
      destruct (Hown x Hx E) as [_ Hwh]. rewrite (l_states _ _ Hl wh r Hr) in Elive. by destruct Hwh; subst wh. }
  destruct (isVolumeGroupError (msg_code hdr)) eqn:Eerr; cbn [negb].
  - rewrite Hc. cbn [negb].
    destruct (change_good Q HQ grow wh k r (version r) Offline (opSeqNo_ (vg s)) (msg_code hdr) s) as (s1&i1&x1&->&Hg1&Hsp&Hx); try done;
      [by right; right; left|intros _; by rewrite Eu, <- Esrc|intros _ ->; by rewrite (l_states _ _ Hl _ r Hr) in Elive|].
    destruct (Hx eq_refl) as [-> Hno]. simpl. exists s1, acks0. split; [done|]. split; [|by split; [|left]].
    apply answered_ignored; [done|]. intros y Hy. left. rewrite Esrc, <- Eu. by apply Hno.
  - assert (r ∈ getWriteableReplicaHandles (vg s)) as Hrl.
    { rewrite (l_states _ _ Hl wh r Hr) in Elive. apply elem_of_live. destruct wh; [by left|done|by right]. }
    assert (sends (pending s) (svcUuid r) (version r) id (opId w)) as Hsend.
    { exists q, w. split; [done|]. split; [done|]. split; [done|]. rewrite Eu, <- Esrc, <- Hd0. destruct ep as [a b c]. simpl in *. by subst c. }
    assert (∀ i k', sends (pending s) (svcUuid r) (version r) i k' → opId w ≤ k') as Hmin.
    { intros i k'. rewrite Eu, <- Esrc, <- Hd0. by apply Hexp. }
    assert (appliedOpId r + 1 = opId w) as Ea.
    { destruct (Ho r Hrl) as [Hle Hs _]. destruct (proj2 (Hs (opId w))) as [Ha1 Ha2]; [by exists id|].
      destruct (proj1 (Hs (appliedOpId r + 1))) as [i Hi]; [lia|]. specialize (Hmin _ _ Hi). lia. }
    rewrite fds_verify_true by done. cbn [mbind res_bind]. eexists _, _. split; [done|]. split; [|split; [by intros ? ?|destruct (isFunctional _); [by right|by left]]].
    set (r' := setApplied (opId w) r). split; simpl.
    + by apply (update_lists _ _ _ r r').
    + by apply (update_phase (vg s) wh k r r').
    + by apply (update_requests (vg s) wh k r r').
    + by apply (update_opens (vg s) wh k r r').
    + intros m' Hm x Hx. destruct (update_same (vg s) wh k r r' Hn) as (_&_&_&->&_). apply elem_of_live in Hx. rewrite !(elem_of_update (vg s) wh k r r') in Hx by done.
      assert ((x ∈ getWriteableReplicaHandles (vg s) ∧ svcUuid x ≠ svcUuid r) ∨ x = r') as [[Hx' Hne]| ->] by (rewrite elem_of_live; naive_solver).
      * eapply finished_other; [done| |by apply Ho]. left. congruence.
      * assert (ep_svc ep = svcUuid r) as Es by congruence. rewrite Es, Hd0 in Hm.
        by destruct (finished_next _ _ _ _ _ _ _ _ Hm (Ho r Hrl) Hsend Hmin).
Qed.

(** *** An endpoint that has answered *)
Lemma filter_insert_new {A} (P : A → Prop) `{!∀ x, Decision (P x)} (l : list A) n x y :
  l !! n = Some x → ¬ P x → P y → length (filter P (<[n := y]> l)) = S (length (filter P l)).
Proof.
  revert n. induction l as [|a l IH]; intros n Hn Hx Hy; [done|]. destruct n as [|n]; simpl in Hn |- *; rewrite !filter_cons.
  - injection Hn as ->. by rewrite (decide_True (P := P y)), (decide_False (P := P x)) by done.
  - case_decide; simpl; rewrite (IH n) by done; done.
Qed.

Lemma filter_full {A} (P : A → Prop) `{!∀ x, Decision (P x)} (l : list A) : length (filter P l) = length l → ∀ x, x ∈ l → P x.
Proof.
  induction l as [|a l IH]; intros Hl x Hx; [by apply elem_of_nil in Hx|]. rewrite filter_cons in Hl. pose proof (length_filter P l).
  case_decide; simpl in Hl; [|lia]. apply elem_of_cons in Hx as [->|Hx]; [done|]. apply IH; [lia|done].
Qed.

Section Answer.
Context (q : Request) (n : nat) (ep : Endpoint).
Hypothesis Hep : epReqs_ q !! n = Some ep.
Hypothesis Hnc : ep_complete ep = false.
Let q1 := complete_ep n ep q.

Lemma complete_svcs : ep_svc <$> epReqs_ q1 = ep_svc <$> epReqs_ q.
Proof. simpl. rewrite list_fmap_insert. simpl. apply list_insert_id. by rewrite list_lookup_fmap, Hep. Qed.

Lemma complete_acked : length (acked q1) = S (length (acked q)).
Proof. apply (filter_insert_new _ _ _ ep); simpl; [done|by rewrite Hnc|done]. Qed.

Lemma elem_of_complete x : NoDup (ep_svc <$> epReqs_ q) → x ∈ epReqs_ q1 ↔ (x ∈ epReqs_ q ∧ x ≠ ep) ∨ x = Ep (ep_svc ep) (ep_version ep) true.
Proof.
  intros Hnd. simpl. split.
  - intros [i Hi]%list_elem_of_lookup. apply list_lookup_insert_Some in Hi as [(_&<-&_)|[Hne Hi]]; [by right|].
    left. split; [by eapply list_elem_of_lookup_2|]. intros ->. apply Hne.
    eapply (NoDup_lookup _ n i (ep_svc ep)); [exact Hnd|by rewrite list_lookup_fmap, Hep|by rewrite list_lookup_fmap, Hi].
  - intros [[[i Hi]%list_elem_of_lookup Hne]| ->]; [|apply list_elem_of_insert; by eapply lookup_lt_Some].
    apply (list_elem_of_lookup_2 _ i). rewrite list_lookup_insert_ne; [done|]. intros ->. congruence.
Qed.

Lemma finished_replace m id w q2 :
  NoDup (ep_svc <$> epReqs_ q) → m !! id = Some (InProgress q) → write_ q = Some w → write_ q2 = write_ q → epReqs_ q2 = epReqs_ q1 →
  finished m (<[id := InProgress q2]> m) id (ep_svc ep) (ep_version ep).
Proof.
  intros Hnd Hm Hw Hw2 He svc v i k. unfold sends. destruct (decide (i = id)) as [->|Hi].
  - setoid_rewrite lookup_insert_eq. split.
    + intros (q0&w0&[= <-]&Hw0&Hk&Hin). rewrite He, (elem_of_complete _ Hnd) in Hin. destruct Hin as [[Hin Hne]|[=]].
      split; [exists q, w0; rewrite <- Hw2; done|]. intros (_&->&->). apply Hne. destruct ep as [a b c]. simpl in *. by subst c.
    + intros [(q0&w0&Hq0&Hw0&Hk&Hin) Hne]. rewrite Hm in Hq0. injection Hq0 as <-. exists q2, w0. rewrite Hw2, He. split; [done|]. split; [done|]. split; [done|].
      apply elem_of_complete; [done|]. left. split; [done|]. intros <-. by apply Hne.
  - setoid_rewrite lookup_insert_ne; [|done]. naive_solver.
Qed.

Lemma finished_delete m id w :
  NoDup (ep_svc <$> epReqs_ q) → m !! id = Some (InProgress q) → write_ q = Some w → length (acked q1) = length (epReqs_ q1) →
  finished m (delete id m) id (ep_svc ep) (ep_version ep).
Proof.
  intros Hnd Hm Hw Hall svc v i k. rewrite <- (finished_replace m id w q1 Hnd Hm Hw eq_refl eq_refl svc v i k). unfold sends.
  destruct (decide (i = id)) as [->|Hi]; [|setoid_rewrite lookup_delete_ne; [|done]; by setoid_rewrite lookup_insert_ne].
  setoid_rewrite lookup_delete_eq. setoid_rewrite lookup_insert_eq. split; [naive_solver|]. intros (q0&w0&[= <-]&_&_&Hin). exfalso.
  by apply (filter_full _ _ Hall) in Hin.
Qed.

(** The error that the client gets if there is no quorum *)
Lemma first_error h acks code :
  write_ok Q h q → (acks = successAcks_ q ∨ acks = successAcks_ q ++ [(ep_svc ep, code)] ∧ isVolumeGroupError code = false) →
  Z.of_nat (length acks) < nAcked_ q + 1 →
  (if decide (length (successAcks_ q) = length acks ∧ response_ q = ERR_OK) then if decide (code = ERR_OK) then ERR_VOLUMEGROUP_DOWN else code else response_ q) ≠ ERR_OK.
Proof.
  intros Hok Hacks Hlt. gcase; [gcase; congruence|]. destruct Hacks as [->|[-> _]]; [intros E; apply Hd; done|].
  rewrite length_app in Hlt. simpl in Hlt. apply (wq_error _ _ _ Hok). lia.
Qed.

Lemma not_acked h : write_ok Q h q → ep_svc ep ∉ (successAcks_ q).*1.
Proof.
  intros [] (a&E&Ha)%list_elem_of_fmap. destruct (wq_acks0 _ Ha) as [_ (x&Ex&[Hc Hx]%list_elem_of_filter)%list_elem_of_fmap].
  apply list_elem_of_lookup in Hx as [j Hj]. assert (j = n) as ->; [|congruence].
  eapply (NoDup_lookup _ j n (ep_svc ep)); [exact wq_nodup0|by rewrite list_lookup_fmap, Hj, E, Ex|by rewrite list_lookup_fmap, Hep].
Qed.

Lemma quorum_acks h code :
  write_ok Q h q → isVolumeGroupError code = false → Z.of_nat (length (successAcks_ q ++ [(ep_svc ep, code)])) = Q →
  let acks := successAcks_ q ++ [(ep_svc ep, code)] in
  Z.of_nat (length acks) = Q ∧ NoDup acks.*1 ∧ ∀ a, a ∈ acks → isVolumeGroupError a.2 = false ∧ a.1 ∈ ep_svc <$> epReqs_ q.
Proof.
  intros Hok Hcode Hlen acks. split; [done|]. pose proof (not_acked h Hok) as Hna. destruct Hok. split.
  - subst acks. rewrite fmap_app. apply NoDup_app. split; [done|]. split; [|apply NoDup_singleton]. by intros u Hu ->%list_elem_of_singleton.
  - intros a [Ha| ->%list_elem_of_singleton]%elem_of_app.
    + destruct (wq_acks0 _ Ha) as [? (x&->&[_ Hx]%list_elem_of_filter)%list_elem_of_fmap]. split; [done|]. by apply list_elem_of_fmap_2.
    + split; [done|]. simpl. apply list_elem_of_fmap_2. by eapply list_elem_of_lookup_2.
Qed.

Lemma write_ok_next h acks e code cb :
  write_ok Q h q → (acks = successAcks_ q ∨ acks = successAcks_ q ++ [(ep_svc ep, code)] ∧ isVolumeGroupError code = false) →
  (cb = None ↔ Q ≤ Z.of_nat (length acks)) → (Z.of_nat (length acks) < nAcked_ q + 1 → e ≠ ERR_OK) → nAcked_ q + 1 ≠ Z.of_nat (length (epReqs_ q)) →
  write_ok Q h (set_acks (nAcked_ q + 1) acks e cb q1).
Proof.
  intros [] Hacks Hcb He Hmore. assert (ep_svc ep ∈ ep_svc <$> acked q1) as Hin.
  { apply list_elem_of_fmap. exists (Ep (ep_svc ep) (ep_version ep) true). split; [done|]. apply list_elem_of_filter. split; [done|].
    apply elem_of_complete; [done|by right]. }
  assert (∀ u, u ∈ ep_svc <$> acked q → u ∈ ep_svc <$> acked q1 ∧ u ≠ ep_svc ep) as Hsub.
  { intros u (x&->&[Hc Hx]%list_elem_of_filter)%list_elem_of_fmap. assert (x ≠ ep) as Hne by (intros ->; congruence). split.
    - apply list_elem_of_fmap_2. apply list_elem_of_filter. split; [done|]. apply elem_of_complete; [done|by left].
    - intros E. apply Hne. apply list_elem_of_lookup in Hx as [j Hj]. assert (j = n) as ->; [|congruence].
      eapply (NoDup_lookup _ j n (ep_svc ep)); [exact wq_nodup0|by rewrite list_lookup_fmap, Hj, <- E|by rewrite list_lookup_fmap, Hep]. }
  split; simpl epReqs_; simpl nAcked_; simpl successAcks_; simpl response_; simpl responseCb_; try done.
  - change (<[n := _]> (epReqs_ q)) with (epReqs_ q1). by rewrite complete_svcs.
  - intros x. change (<[n := _]> (epReqs_ q)) with (epReqs_ q1). intros [[Hx _]| ->]%elem_of_complete; [by apply wq_members0| |done].
    apply list_elem_of_lookup_2 in Hep. destruct (wq_members0 _ Hep) as (r&?&?&?). by exists r.
  - change (acked (set_acks _ _ _ _ q1)) with (acked q1). rewrite complete_acked. lia.
  - rewrite length_insert. lia.
  - by rewrite length_insert.
  - destruct Hacks as [->|[-> _]]; [done|]. rewrite fmap_app. apply NoDup_app. split; [done|]. split; [|apply NoDup_singleton].
    intros u (a&->&Ha)%list_elem_of_fmap Hx%list_elem_of_singleton. destruct (wq_acks0 _ Ha) as [_ Hu]. by apply Hsub in Hu as [_ ?].
  - change (acked (set_acks _ _ _ _ q1)) with (acked q1). intros a Ha.
    destruct Hacks as [->|[-> Hcode]]; [destruct (wq_acks0 _ Ha) as [? Hu]; by apply Hsub in Hu as [? _]|].
    apply elem_of_app in Ha as [Ha| ->%list_elem_of_singleton]; [destruct (wq_acks0 _ Ha) as [? Hu]; by apply Hsub in Hu as [? _]|done].
  - destruct Hacks as [->|[-> _]]; rewrite ?length_app; simpl; lia.
Qed.
End Answer.

Lemma base_trace k W m s l : base k W m s → ∃ W', base k W' m (does l s).
Proof. intros Hb. exists (λ c, W c + answered c l). by eapply base_does. Qed.

(** While the group is open, opens do not see the requests. *)
Lemma opens_steady h m m' :
  (state_ h = Active ∨ state_ h = Offline) → opens_ok Q h m → (∀ id p, m' !! id = Some p → m !! id = Some p ∨ ¬ is_opening p) → opens_ok Q h m'.
Proof.
  intros Hst [H1 H2] Hm.
  assert (∀ id p, m !! id = Some p → ¬ is_opening p) as Hno by (intros id p Hid Hp; destruct (H1 _ _ Hid Hp) as [E _]; destruct Hst; congruence).
  split; [|intros _; by apply H2]. intros id p Hid Hp. destruct (Hm _ _ Hid) as [Hid'|]; [|done]. by destruct (Hno _ _ Hid').
Qed.

Lemma requests_delete h m id : requests_ok Q h m → requests_ok Q h (delete id m).
Proof. intros Hq i q [_ Hi]%lookup_delete_Some. by apply Hq in Hi. Qed.

Lemma requests_insert h m id q :
  requests_ok Q h m → (state_ h = Active ∨ state_ h = Offline) → request_ok Q h q → requests_ok Q h (<[id := InProgress q]> m).
Proof. intros Hq Hst Hok i q' [[_ [= <-]]|[_ Hi]]%lookup_insert_Some; [done|]. by apply Hq in Hi. Qed.

Lemma broadcast_response_good W id hdr w q s :
  base 0 W ∅ s → good (vg s) (pending s) → pending s !! id = Some (InProgress q) → write_ q = Some w →
  (∀ n ep, getEpReq_ (msg_src_uuid hdr) q = Some (n, ep) → ep_complete ep = false → response_expected hdr q ep s) →
  ∃ s', broadcast_response false grow id hdr w q s = Ret s' ∧ good (vg s') (pending s').
Proof.
  intros Hb Hg Hid Hw Hexp. unfold broadcast_response. destruct (getEpReq_ (msg_src_uuid hdr) q) as [[n ep]|] eqn:Eget; [|by exists s].
  destruct (ep_complete ep) eqn:Enc; [by exists s|]. cbv zeta. specialize (Hexp _ _ eq_refl Enc).
  destruct (write_response_handled id q w n ep hdr (successAcks_ (complete_ep n ep q)) s (c_fresh _ _ _ _ (proj1 Hb)) Hg Hid Hw Eget Enc Hexp)
    as (s1&acks&Hh&[Hl Hp Hq Hop Hord]&Hsp&Hacks).
  apply getEp_found in Eget as [Hep Esrc]. rewrite Hh. cbn [mbind res_bind].
  pose proof (handleVolumeResponse_base _ _ _ _ _ _ _ _ _ _ _ _ _ _ Hb Hh) as Hb1.
  assert (pending s1 !! id = Some (InProgress q)) as Hid1 by (apply Hsp; [simpl; tauto|done]).
  destruct (Hq _ _ Hid1) as [Hst Hok]. unfold request_ok in Hok. rewrite Hw in Hok. rewrite <- Esrc in Hacks. simpl in Hacks.
  pose proof (l_quorum _ _ Hl) as HqQ. simpl responseCb_. simpl successAcks_. simpl response_. simpl nAcked_.
  assert (u8 (nAcked_ q + 1) = nAcked_ q + 1) as ->. { destruct Hok. unfold u8. apply Z.mod_small. lia. }
  set (met := bool_decide (Z.of_nat (length acks) = quorumCnt_ (vg s1))).
  set (e := if decide (length (successAcks_ q) = length acks ∧ response_ q = ERR_OK) then _ else _).
  assert (∃ x, (if met then match responseCb_ q with Some _ => a ← at_ acks 0; Ret a.2 | None => Ret ERR_OK end else Ret ERR_OK) = Ret x) as [x ->].
  { destruct met eqn:Em; [|by eexists]. subst met. apply bool_decide_eq_true in Em. destruct (responseCb_ q); [|by eexists].
    destruct acks as [|a acks]; simpl in Em; [lia|]. by exists a.2. }
  cbn [mbind res_bind]. rewrite <- (length_fmap ep_svc (epReqs_ (complete_ep n ep q))), (complete_svcs q n ep Hep), length_fmap. gcase.
  - destruct (base_trace _ _ _ _ (if met then answers (responseCb_ q) x else []) Hb1) as [W1 Hb2].
    destruct (base_trace _ _ _ _ (answers (if met then None else responseCb_ q) e) Hb2) as [W2 Hb3].
    eapply complete_good; [| exact Hb3|]; simpl; [exact Hid1|]. split; try done.
    + by apply requests_delete.
    + apply Hord. apply (finished_delete q n ep Hep Enc _ _ w); [by destruct Hok|done|done|]. rewrite complete_acked by done. destruct Hok. simpl. rewrite length_insert. lia.
    + eapply opens_steady; [done|done|]. intros i p [_ Hi]%lookup_delete_Some. by left.
  - eexists. split; [done|]. simpl. split; try done.
    + apply requests_insert; [done|done|]. unfold request_ok. simpl. rewrite Hw.
      apply (write_ok_next q n ep Hep Enc _ _ _ (msg_code hdr)); [done|done| | |done].
      * destruct Hok. subst met. rewrite HqQ. case_bool_decide as Em; [split; [lia|done]|]. rewrite wq_cb0. destruct Hacks as [->|[-> _]]; [done|]. rewrite length_app in *. simpl in *. lia.
      * by eapply first_error.
    + apply Hord. by apply (finished_replace q n ep Hep Enc _ _ w); [destruct Hok|..].
    + eapply opens_steady; [done|done|]. intros i p [[_ <-]|[_ Hi]]%lookup_insert_Some; [right; simpl; tauto|by left].
Qed.

(** ** Reads *)
Lemma ordered_sends h m m' : (∀ svc v id k, sends m' svc v id k ↔ sends m svc v id k) → ordered h m → ordered h m'.
Proof.
  intros Hs Ho r Hr. destruct (Ho r Hr) as [H1 H2 H3]. split; [done| |].
  - intros k. rewrite H2. by setoid_rewrite Hs.
  - intros id id' k. rewrite !Hs. apply H3.
Qed.

(** No write is outstanding under this id. *)
Definition no_write (m : gmap Z Pending) (id : Z) : Prop := ∀ q, m !! id = Some (InProgress q) → write_ q = None.

Lemma sends_read m id q svc v i k : no_write m id → write_ q = None → sends (<[id := InProgress q]> m) svc v i k ↔ sends m svc v i k.
Proof.
  intros Hn Hq. unfold sends. destruct (decide (i = id)) as [->|]; [|by setoid_rewrite lookup_insert_ne].
  setoid_rewrite lookup_insert_eq. split; [intros (?&?&[= <-]&?&_); congruence|]. intros (q0&?&H0&?&_). apply Hn in H0. congruence.
Qed.

Lemma sends_delete m id svc v i k : no_write m id → sends (delete id m) svc v i k ↔ sends m svc v i k.
Proof.
  intros Hn. unfold sends. destruct (decide (i = id)) as [->|]; [|by setoid_rewrite lookup_delete_ne].
  setoid_rewrite lookup_delete_eq. split; [naive_solver|]. intros (q0&?&H0&?&_). apply Hn in H0. congruence.
Qed.

Lemma good_read h m id q :
  good h m → (state_ h = Active ∨ state_ h = Offline) → no_write m id → write_ q = None → read_ok h q → good h (<[id := InProgress q]> m).
Proof.
  intros [] Hst Hn Hw Hok. split; try done.
  - apply requests_insert; [done|done|]. unfold request_ok. by rewrite Hw.
  - eapply ordered_sends; [|done]. intros. by apply sends_read.
  - eapply opens_steady; [done|done|]. intros i p [[_ <-]|[_ Hi]]%lookup_insert_Some; [right; simpl; tauto|by left].
Qed.

Lemma good_delete h m id : good h m → (state_ h = Active ∨ state_ h = Offline) → no_write m id → good h (delete id m).
Proof.
  intros [] Hst Hn. split; try done.
  - by apply requests_delete.
  - eapply ordered_sends; [|done]. intros. by apply sends_delete.
  - eapply opens_steady; [done|done|]. intros i p [_ Hi]%lookup_delete_Some. by left.
Qed.

(** A group whose lists are in another order *)
Lemma good_rotate h m r l : good h m → (state_ h = Active ∨ state_ h = Offline) → functionalReplicas_ h = r :: l → good (set_list InFunctional (l ++ [r]) h) m.
Proof.
  intros [Hl Hp Hq Ho Hop] Hst Hf. set (h' := set_list InFunctional (l ++ [r]) h).
  assert (handles h' ≡ₚ handles h) as Hh by (unfold handles; simpl; rewrite Hf; solve_Permutation).
  assert (getAllReplicas h' ≡ₚ getAllReplicas h) as Ha by by rewrite !getAll_handles, Hh.
  assert (functional_cnt h' = functional_cnt h) as Hcnt by (unfold functional_cnt; simpl; rewrite Hf, length_app; simpl; lia).
  split.
  - destruct Hl. split; rewrite ?size_all, ?Ha, <- ?size_all; try done. intros [] x; simpl; [|apply (l_states0 InNonfunctional)|apply (l_states0 InSyncing)].
    intros Hx. apply (l_states0 InFunctional). simpl. rewrite Hf. set_solver.
  - destruct Hp. split; rewrite ?Hcnt; try done; simpl; [intros E; destruct Hst; congruence..| ]. intros _ E. by destruct l.
  - intros id q Hid. destruct (Hq _ _ Hid) as [_ Hok]. split; [done|]. eapply request_ok_members; [exact Hok|done|by rewrite Ha|].
    intros x Hx. exists x. by rewrite Hh.
  - intros x Hx. apply Ho. apply elem_of_live. apply elem_of_live in Hx. simpl in *. rewrite Hf. set_solver.
  - destruct Hop as [H1 H2]. split; [|done]. intros id p Hid Hpo. destruct (H1 _ _ Hid Hpo) as [E _]. destruct Hst; congruence.
Qed.

Lemma update_id w n r h : list_of w h !! n = Some r → same_group h (update_handle w n r h).
Proof.
  intros Hn. unfold update_handle. split; [|by destruct w]. intros w'. rewrite list_of_set. case_decide as E; [|done]. subst. by apply list_insert_id.
Qed.

Lemma read_response_handled id q n ep hdr acks0 s :
  fresh s → good (vg s) (pending s) → pending s !! id = Some (InProgress q) → write_ q = None →
  getEpReq_ (msg_src_uuid hdr) q = Some (n, ep) → ep_complete ep = false → response_expected hdr q ep s →
  ∃ s1 acks, handleVolumeResponse false grow (msg_src_uuid hdr) (replicaVersion hdr) 0 false (msg_code hdr) acks0 s = Ret (s1, acks) ∧
    good (vg s1) (pending s1) ∧ same_pending (pending s) (pending s1).
Proof.
  intros Hf Hg Hid Hw [Hep Esrc]%getEp_found Hnc [Ever Hexp]. pose proof Hg as [Hl Hp Hq Ho Hop]. destruct (Hq _ _ Hid) as [Hst Hok].
  unfold request_ok in Hok. rewrite Hw in Hok. apply list_elem_of_lookup_2 in Hep as Hin.
  destruct (get_deref (msg_src_uuid hdr) (vg s)) as (wh&k&r&Hget&Hd&Hn&Eu); [rewrite <- Esrc; by apply (rq_members _ _ Hok)|].
  apply list_elem_of_lookup_2 in Hn as Hr.
  unfold handleVolumeResponse. rewrite orb_true_r. simpl. rewrite decide_False by (destruct Hst; intuition congruence). rewrite Hget. cbn -[deref]. rewrite Hd. simpl.
  gcase; [by exists s, acks0|]. destruct (isFunctional (state r) || isSyncing (state r)) eqn:Elive; [|by exists s, acks0].
  destruct (isVolumeGroupError (msg_code hdr)) eqn:Eerr; cbn [negb].
  - destruct (isCoordinator_ (vg s)) eqn:Hc; cbn [negb].
    + destruct (change_good Q HQ grow wh k r (version r) Offline (opSeqNo_ (vg s)) (msg_code hdr) s) as (s1&i1&x1&->&Hg1&Hsp&Hx); try done;
        [by right; right; left|intros _; by rewrite Eu, <- Esrc|intros _ ->; by rewrite (l_states _ _ Hl _ r Hr) in Elive|].
      destruct (Hx eq_refl) as [-> _]. simpl. by exists s1, acks0.
    + eexists _, _. split; [done|]. case_decide as Ew; [|by split]. injection Ew as -> ->. simpl in Hn.
      destruct (functionalReplicas_ (vg s)) as [|r0 l] eqn:Ef; [done|]. injection Hn as ->. split; [|by intros ? ?]. simpl. by apply good_rotate.
  - cbn [mbind res_bind]. eexists _, _. split; [done|]. split; [|by intros ? ?]. eapply good_calm; [exact Hg|by apply update_id|by intros ? ?].
Qed.

Lemma failover_good id q s :
  read_ok (vg s) q → write_ q = None → functionalReplicas_ (vg s) ≠ [] →
  ∃ q' ep, failover false id q s = Ret (does [read_to id ep] (with_request id (InProgress q') s)) ∧ write_ q' = None ∧ read_ok (vg s) q'.
Proof.
  intros [Hm Ha Hcb] Hw Hf. unfold failover.
  assert (∀ svc v, svc ∈ getAllReplicas (vg s) → ∀ ep, ep ∈ epReqs_ q ++ [Ep svc v false] → ep_svc ep ∈ getAllReplicas (vg s)) as Hadd.
  { intros svc v Hs ep [Hx| ->%list_elem_of_singleton]%elem_of_app; [by apply Hm|done]. }
  destruct (availableReplicas_ q) as [|r l] eqn:El; simpl.
  - destruct (functionalReplicas_ (vg s)) as [|r0 l0] eqn:Ef; [done|]. simpl. rewrite last_snoc. eexists _, _. split; [done|]. split; [done|].
    split; simpl; [|by rewrite El|done]. apply Hadd. unfold getAllReplicas. rewrite Ef. left.
  - rewrite last_snoc. eexists _, _. split; [done|]. split; [done|]. split; simpl; [|intros x Hx; apply Ha; by right|done]. apply Hadd. apply Ha. left.
Qed.

Lemma failover_response_good W id hdr q s :
  base 0 W ∅ s → good (vg s) (pending s) → pending s !! id = Some (InProgress q) → write_ q = None →
  (∀ n ep, getEpReq_ (msg_src_uuid hdr) q = Some (n, ep) → ep_complete ep = false → response_expected hdr q ep s) →
  ∃ s', failover_response false grow id hdr q s = Ret s' ∧ good (vg s') (pending s').
Proof.
  intros Hb Hg Hid Hw Hexp. unfold failover_response. destruct (getEpReq_ (msg_src_uuid hdr) q) as [[n ep]|] eqn:Eget; [|by exists s].
  destruct (ep_complete ep) eqn:Enc; [by exists s|]. cbv zeta. specialize (Hexp _ _ eq_refl Enc).
  destruct (read_response_handled id q n ep hdr (successAcks_ (complete_ep n ep q)) s (c_fresh _ _ _ _ (proj1 Hb)) Hg Hid Hw Eget Enc Hexp)
    as (s1&acks&Hh&Hg1&Hsp).
  apply getEp_found in Eget as [Hep Esrc]. cbn [fds_assert mbind res_bind]. rewrite Hh. cbn [mbind res_bind].
  pose proof (handleVolumeResponse_base _ _ _ _ _ _ _ _ _ _ _ _ _ _ Hb Hh) as Hb1.
  assert (pending s1 !! id = Some (InProgress q)) as Hid1 by (apply Hsp; [simpl; tauto|done]).
  destruct (gd_requests _ _ _ Hg1 _ _ Hid1) as [Hst Hok]. unfold request_ok in Hok. rewrite Hw in Hok.
  assert (no_write (pending s1) id) as Hno by (intros q0 H0; congruence).
  assert (∃ s', complete false id (does (answers (responseCb_ q) (msg_code hdr)) s1) = Ret s' ∧ good (vg s') (pending s')) as Hdone.
  { destruct (base_trace _ _ _ _ (answers (responseCb_ q) (msg_code hdr)) Hb1) as [W1 Hb2].
    eapply complete_good; [|exact Hb2|]; simpl; [exact Hid1|]. by apply good_delete. }
  gcase; [done|]. gcase; [|done]. destruct Hd0 as [_ Hcnt].
  destruct (failover_good id (set_acks (u8 (nAcked_ (complete_ep n ep q) + 1)) acks (response_ (complete_ep n ep q)) (responseCb_ (complete_ep n ep q)) (complete_ep n ep q)) s1)
    as (q'&ep'&->&Hw'&Hok'); [|done|intros E; rewrite functional_nil in E; lia|].
  { destruct Hok as [Hm Ha Hcb]. split; [|done|done]. simpl. intros x Hx. apply (list_elem_of_fmap_2 ep_svc) in Hx.
    change (<[n := _]> (epReqs_ q)) with (epReqs_ (complete_ep n ep q)) in Hx. rewrite (complete_svcs q n ep Hep) in Hx.
    apply list_elem_of_fmap in Hx as (y&->&Hy). by apply Hm. }
  eexists. split; [done|]. simpl. by apply good_read.
Qed.

Lemma access_read h :
  phase h → access_check false h = None → (state_ h = Active ∨ state_ h = Offline) ∧ functionalReplicas_ h ≠ [].
Proof.
  intros Hp. unfold access_check. gcase.
  - gcase; [done|]. gcase; [done|]. simpl. case_bool_decide as E; [done|]. intros _. by split; [right|].
  - apply dec_stable in Hd. intros _. split; [by left|]. intros E. rewrite functional_nil in E. pose proof (p_active _ _ Hp Hd). lia.
Qed.

Lemma access_write h : access_check true h = None → state_ h = Active ∧ isCoordinator_ h = true.
Proof.
  unfold access_check. gcase; [repeat (gcase; [done|]); done|]. apply dec_stable in Hd. simpl. by destruct (isCoordinator_ h).
Qed.

Lemma no_write_fresh s : fresh s → no_write (pending s) (next_id s).
Proof. intros Hf q Hq. rewrite Hf in Hq by lia. done. Qed.

Lemma sendReadMsg_good W cb s : base 0 W ∅ s → good (vg s) (pending s) → ∃ s', sendReadMsg false cb s = Ret s' ∧ good (vg s') (pending s').
Proof.
  intros Hb Hg. unfold sendReadMsg. cbn [fds_assert mbind res_bind]. destruct (access_check false (vg s)) as [e|] eqn:Ea; [by eexists|].
  destruct (access_read _ (gd_phase _ _ _ Hg) Ea) as [Hst Hf]. cbv zeta.
  set (q := MakeRequest None _ _ _ _ _ _). set (s1 := with_vg _ (issue (InProgress q) s)).
  assert (read_ok (vg s) q) as Hok.
  { split; simpl; [intros ? ?%elem_of_nil; done| |done]. intros r. destruct (isCoordinator_ (vg s)); [by intros ?%elem_of_nil|].
    intros Hr. unfold getAllReplicas. apply elem_of_app. left. by apply list_elem_of_fmap_2. }
  destruct (failover_good (next_id s) q s1) as (q'&ep&->&Hw&Hok'); [|done|done|].
  { by destruct Hok. }
  eexists. split; [done|]. simpl. rewrite insert_insert_eq. eapply (good_calm _ (vg s)); [|by repeat split|by intros ? ?].
  apply good_read; [done|done|by apply no_write_fresh; destruct Hb as [[] ?]|done|]. by destruct Hok'.
Qed.

(** ** Writes *)
Section Write.
Context (h : t) (m : gmap Z Pending) (id : Z) (w : Write) (cb : Z).
Hypothesis Hg : good h m.
Hypothesis Hst : state_ h = Active.
Hypothesis Hc : isCoordinator_ h = true.
Hypothesis Hid : m !! id = None.
Hypothesis Hop : opId w = opSeqNo_ h + 1.

Let eps := (λ r, Ep (svcUuid r) (version r) false) <$> getWriteableReplicaHandles h.
Let q := MakeRequest (Some w) [] eps 0 [] ERR_OK (Some cb).
Let h' := set_opSeqNo (opSeqNo_ h + 1) h.
Let m' := <[id := InProgress q]> m.

Lemma sent_endpoints : NoDup (ep_svc <$> eps) ∧ Q ≤ Z.of_nat (length eps) ≤ 255.
Proof.
  destruct Hg as [Hl Hp _ _ _]. subst eps. rewrite <- list_fmap_compose, length_fmap. split.
  - change (ep_svc ∘ _) with svcUuid. unfold getWriteableReplicaHandles. rewrite fmap_app. pose proof (l_nodup _ _ Hl) as Hnd.
    unfold getAllReplicas in Hnd. rewrite !NoDup_app in Hnd. apply NoDup_app. destruct Hnd as (?&Hx&?&?&?). split; [done|]. split; [|done]. intros u Hu Hu'. eapply Hx; [done|]. set_solver.
  - pose proof (p_active _ _ Hp Hst). pose proof (l_bound _ _ Hl). unfold functional_cnt, size, getWriteableReplicaHandles in *. rewrite length_app. lia.
Qed.

Lemma sent_ok : write_ok Q h' q.
Proof.
  destruct sent_endpoints as [Hnd Hlen].
  assert (acked q = []) as Ha.
  { unfold acked. apply filter_none. simpl. intros ep (r&->&_)%list_elem_of_fmap. done. }
  split; rewrite ?Ha; simpl; try done; try lia; [|constructor|by intros ? ?%elem_of_nil|split; [done|lia]].
  intros ep (r&->&Hr)%list_elem_of_fmap. exists r. split; [|done]. apply elem_of_handles. apply elem_of_live in Hr as [Hr|Hr]; [by exists InFunctional|by exists InSyncing].
Qed.

Lemma sent_sends svc v i k : sends m' svc v i k ↔ sends m svc v i k ∨ (i = id ∧ k = opSeqNo_ h + 1 ∧ Ep svc v false ∈ eps).
Proof.
  unfold sends, m'. destruct (decide (i = id)) as [->|].
  - setoid_rewrite lookup_insert_eq. setoid_rewrite Hid. split.
    + intros (q0&w0&[= <-]&[= <-]&<-&Hin). right. by rewrite Hop.
    + intros [(?&?&?&_)|(_&->&Hin)]; [done|]. exists q, w. done.
  - setoid_rewrite lookup_insert_ne; [|done]. naive_solver.
Qed.

Lemma sent_good : good h' m'.
Proof.
  destruct Hg as [Hl Hp Hq Ho Hopn]. split.
  - by eapply lists_same.
  - destruct Hp. split; simpl; try done; intros E; congruence.
  - apply requests_insert; [|by left|exact sent_ok]. intros i q0 Hi. destruct (Hq _ _ Hi) as [? Hok]. split; [done|].
    eapply request_ok_members; [exact Hok|done|done|]. intros r Hr. by exists r.
  - intros r Hr. destruct (Ho r Hr) as [H1 H2 H3]. simpl.
    assert (∀ i k, sends m (svcUuid r) (version r) i k → k ≤ opSeqNo_ h) as Hold by (intros i k Hs; apply (H2 k); by exists i).
    split; [lia| |].
    + intros k. setoid_rewrite sent_sends. split.
      * intros Hk. destruct (decide (k = opSeqNo_ h + 1)) as [->|].
        -- exists id. right. split; [done|]. split; [done|]. apply list_elem_of_fmap. by exists r.
        -- destruct (proj1 (H2 k)) as [i Hi]; [lia|]. exists i. by left.
      * intros (i&[Hs|(_&->&_)]); [|lia]. assert (appliedOpId r < k ≤ opSeqNo_ h) by (apply H2; by exists i). lia.
    + intros i i' k. rewrite !sent_sends. intros [Hs|(->&->&_)] [Hs'|(->&E&_)]; [by eapply H3|apply Hold in Hs; lia|apply Hold in Hs'; lia|done].
  - eapply (opens_steady _ m); [by left|by destruct Hopn|]. intros i p [[_ <-]|[_ Hi]]%lookup_insert_Some; [right; simpl; tauto|by left].
Qed.
End Write.

Lemma sendWriteReq_good h0 mt b seq cb s :
  fresh s → good h0 (pending s) → state_ h0 = Active → isCoordinator_ h0 = true → same_group (set_opSeqNo (opSeqNo_ h0 + 1) h0) (vg s) →
  ∃ s', sendWriteReq_ mt b seq cb s = Ret s' ∧ good (vg s') (pending s').
Proof.
  intros Hf Hg Hst Hc Hs. unfold sendWriteReq_. cbv zeta. eexists. split; [done|]. unfold broadcast. simpl.
  rewrite add_endpoints, insert_insert_eq. simpl. destruct Hs as (Hw&Hrest).
  set (h1 := match writeOpsBuffer_ (vg s) with Some l => _ | None => vg s end).
  assert (same_group (vg s) h1) as H1 by (subst h1; destruct (writeOpsBuffer_ (vg s)); by repeat split).
  assert (getWriteableReplicaHandles (incRef h1) = getWriteableReplicaHandles h0) as ->.
  { rewrite (live_same (vg s)); [by rewrite (live_same h0) by apply Hw|]. by destruct H1. }
  eapply good_calm; [|eapply (same_group_trans _ (vg s)); [by split|]; eapply (same_group_trans _ h1); [exact H1|by repeat split]|by intros ? ?].
  apply sent_good; try done; [apply Hf; lia|]. simpl. by destruct Hrest as (_&_&_&->&_).
Qed.

Lemma sendModifyMsg_good W cb mt b s : base 0 W ∅ s → good (vg s) (pending s) → ∃ s', sendModifyMsg false cb mt b s = Ret s' ∧ good (vg s') (pending s').
Proof.
  intros [[Hf _ _ _ _] _] Hg. unfold sendModifyMsg. cbn [fds_assert mbind res_bind]. destruct (access_check true (vg s)) eqn:Ea; [by eexists|].
  apply access_write in Ea as [Hst Hc]. eapply sendWriteReq_good; [exact Hf|exact Hg|done|done|apply same_group_refl].
Qed.

Lemma sendCommitMsg_good W cb mt b s : base 0 W ∅ s → good (vg s) (pending s) → ∃ s', sendCommitMsg false cb mt b s = Ret s' ∧ good (vg s') (pending s').
Proof.
  intros [[Hf _ _ _ _] _] Hg. unfold sendCommitMsg. cbn [fds_assert mbind res_bind]. destruct (access_check true (vg s)) eqn:Ea; [by eexists|].
  apply access_write in Ea as [Hst Hc]. eapply sendWriteReq_good; [exact Hf|exact Hg|done|done|by repeat split].
Qed.

(** ** Replicas that come back, closing, checks *)
(** A handle that is moved to the end of its own list stays where it is only
    if the vector has room: otherwise its elements move while one of them is
    being moved. *)
Definition room (e : event) (s : sys) : Prop :=
  match e with
  | Add m => grow = true → ∀ r, r ∈ handles (vg s) → svcUuid r = add_svc m → state r ≠ state_of (dst_of (add_target m))
  | _ => True
  end.

Lemma add_good W m s :
  base 0 W ∅ s → good (vg s) (pending s) → expected Q (Add m) s → room (Add m) s → ∃ s', handleAddToVolumeGroupMsg false grow m s = Ret s' ∧ good (vg s') (pending s').
Proof.
  intros Hb Hg Hexp Hroom. unfold handleAddToVolumeGroupMsg. gcase; [by eexists|]. destruct (isCoordinator_ (vg s)) eqn:Hc; cbn [negb]; [|by eexists].
  cbn [fds_assert mbind res_bind]. destruct (getVolumeReplicaHandle_ (add_svc m) (vg s)) as [[w n]|] eqn:Eget; [|by eexists].
  destruct (get_found _ _ _ _ Eget) as (r&Hn&Eu). apply list_elem_of_lookup_2 in Hn as Hr.
  assert (add_expected m (vg s) r) as Ha by (apply Hexp; [apply elem_of_handles; by exists w|done]). unfold add_expected in Ha.
  destruct (change_good Q HQ grow w n r (add_version m) (add_target m) (add_lastOpId m) ERR_OK s) as (s1&i1&x1&->&Hg1&_); try done.
  - by destruct Hb as [[] ?].
  - pose proof (p_known _ _ (gd_phase _ _ _ Hg)). tauto.
  - unfold valid_target. destruct (add_target m); try done; tauto.
  - intros E. by rewrite E in Ha.
  - intros E. by rewrite E in Ha.
  - destruct (add_target m); done.
  - intros Egr ->. eapply (Hroom Egr r); [apply elem_of_handles; by eexists|done|]. by apply (l_states _ _ (gd_lists _ _ _ Hg)).
  - simpl. by eexists.
Qed.

Lemma close_good W cb s : base 0 W ∅ s → good (vg s) (pending s) → ∃ s', close false cb s = Ret s' ∧ good (vg s') (pending s').
Proof.
  intros [[Hf Hk Hr Hc Ho] Hw] Hg. unfold close. cbv zeta.
  set (h := match closeCb_ (vg s) with None => _ | Some _ => _ end).
  assert (same_group (vg s) h ∧ refCnt_ h = refCnt_ (vg s) ∧ closeCb_ h ≠ None) as (Hs&Hrh&Hcl).
  { subst h. destruct (closeCb_ (vg s)) eqn:E; [by repeat split; rewrite ?E|by repeat split]. }
  clearbody h. gcase.
  - assert (pending s = ∅) as E by (apply empty_pending; lia). unfold closeHandle_. simpl. destruct (closeCb_ h); [|done]. eexists. split; [done|]. simpl. rewrite E.
    destruct Hs as (_&_&Hq&_&_&_&Hx). apply good_closed; [done|done| |done|]; simpl; [rewrite Hq; by destruct Hg as [[]]|].
    rewrite Hx. intros c. eapply opens_idle. rewrite <- E. by destruct Hg.
  - eexists. split; [done|]. simpl. by eapply good_calm.
Qed.

Lemma timer_good W id s :
  base 0 W ∅ s → good (vg s) (pending s) → pending s !! id = Some Checking → isCoordinator_ (vg s) = true ∨ nonfunctionalReplicas_ (vg s) = [] →
  ∃ s', checkOnNonFunctaionalReplicas_ false (done id s) = Ret s' ∧ good (vg s') (pending s').
Proof.
  intros Hb Hg Hid Hc. apply (unscheduled_base _ _ _ Hid) in Hb. unfold checkOnNonFunctaionalReplicas_. simpl. fold (unscheduled id s).
  assert (good (vg (unscheduled id s)) (pending (unscheduled id s))) as Hg1.
  { eapply good_calm; [exact Hg|by repeat split|]. simpl. intros i p Hp. rewrite lookup_delete_Some. split; [by intros [_ ?]|].
    intros Hi. split; [|done]. intros ->. rewrite Hid in Hi. injection Hi as <-. by apply Hp. }
  assert (isCoordinator_ (vg (unscheduled id s)) = true ∨ nonfunctionalReplicas_ (vg (unscheduled id s)) = []) as Hc1 by done.
  gcase; [by eapply decRef_good|]. gcase.
  - destruct Hc1 as [Hc1|Hc1]; [|simpl in *; rewrite Hc1 in Hd0; simpl in *; lia].
    destruct (schedule_calm (does [createBroadcastGroupInfoReq_ (set_refs (refCnt_ (vg s)) (closeCb_ (vg s)) false (vg s))] (unscheduled id s)) 0) as (s2&E2&[Hs Hsp]&_);
      [by destruct Hb as [[] ?]|done|].
    rewrite E2. simpl. eapply decRef_good; [by eapply good_calm|]. eapply schedule_base; [|exact E2]. by apply base_quiet.
  - simpl. by eapply decRef_good.
Qed.

(** ** Opening *)
Lemma quiet_order h (m : gmap Z Pending) :
  (∀ id q, m !! id ≠ Some (InProgress q)) → (∀ r, r ∈ getWriteableReplicaHandles h → appliedOpId r = opSeqNo_ h) → ordered h m.
Proof.
  intros Hm Ha r Hr. rewrite (Ha r Hr). assert (∀ svc v id k, ¬ sends m svc v id k) as Hno by (intros svc v id k (q&w&Hq&_); by apply Hm in Hq).
  split; [lia| |].
  - intros k. split; [lia|]. intros [id Hs]. by apply Hno in Hs.
  - intros id id' k Hs. by apply Hno in Hs.
Qed.

Lemma live_handles h r : r ∈ getWriteableReplicaHandles h → r ∈ handles h.
Proof. rewrite elem_of_live, elem_of_handles. intros [?|?]; by eexists. Qed.

(** Only an open, or nothing, is outstanding. *)
Lemma good_loading h m :
  lists Q h → phase h → state_ h = Loading → (∀ id q, m !! id ≠ Some (InProgress q)) → opens_ok Q h m → good h m.
Proof.
  intros Hl Hp Hs Hm Ho. split; try done.
  - intros id q Hid. by apply Hm in Hid.
  - apply quiet_order; [done|]. intros r Hr. destruct (p_loading _ _ Hp Hs) as [-> Ha]. apply Ha. by apply live_handles.
Qed.

(** Nothing but timers is outstanding. *)
Definition idle (m : gmap Z Pending) : Prop := ∀ id p, m !! id = Some p → is_checking p.

Lemma opens_start h m id p :
  idle m → is_opening p → state_ h = Loading → opening_ok Q h p → opens_ok Q h (<[id := p]> m).
Proof.
  intros Hm Hp Hs Hok. split.
  - intros i p' [[<- <-]|[_ Hi]]%lookup_insert_Some Hp'; [|apply Hm in Hi; by apply opening_not_checking in Hp'].
    split; [done|]. split; [done|]. intros i' p'' [[<- _]|[_ Hi']]%lookup_insert_Some Hnc; [done|]. by apply Hm in Hi'.
  - intros H. exfalso. by apply (H id p (lookup_insert_eq _ _ _)).
Qed.

Lemma opens_none h m : idle m → (∀ c, openRetryCtx_ h = Some c → triesCnt c ≠ 0) → opens_ok Q h m.
Proof. intros Hm Hx. split; [|done]. intros i p Hi Hp. apply Hm in Hi. by apply opening_not_checking in Hp. Qed.

Lemma idle_no_request m : idle m → ∀ id q, m !! id ≠ Some (InProgress q).
Proof. intros Hm id q Hid. by apply Hm in Hid. Qed.

Lemma start_no_request m id p : idle m → is_opening p → ∀ i q, (<[id := p]> m) !! i ≠ Some (InProgress q).
Proof. intros Hm Hp i q [[_ ->]|[_ Hi]]%lookup_insert_Some; [done|]. by apply Hm in Hi. Qed.

Lemma runOpen_good cb s :
  lists Q (vg s) → phase (vg s) → state_ (vg s) = Loading → idle (pending s) → opening_ok Q (vg s) (Preparing cb) →
  ∃ s', runOpenProtocol_ false cb s = Ret s' ∧ good (vg s') (pending s').
Proof.
  intros Hl Hp Hs Hi Hok. eexists. split; [done|]. simpl. apply good_loading; [done|done|done| |].
  - by apply start_no_request.
  - by apply opens_start.
Qed.

(** What an open in progress gives once it is taken out *)
Lemma opening_taken s id p :
  good (vg s) (pending s) → pending s !! id = Some p → is_opening p →
  lists Q (vg s) ∧ phase (vg s) ∧ state_ (vg s) = Loading ∧ idle (delete id (pending s)) ∧ opening_ok Q (vg s) p.
Proof.
  intros [Hl Hp _ _ [H1 _]] Hid Hpo. destruct (H1 _ _ Hid Hpo) as (Hs&Hok&Huniq). split; [done|]. split; [done|]. split; [done|]. split; [|done].
  intros i p' [Hne Hi]%lookup_delete_Some. destruct (decide (is_checking p')); [done|]. by destruct (Hne (eq_sym (Huniq _ _ Hi n))).
Qed.

Lemma switched_good id cb s :
  good (vg s) (pending s) → pending s !! id = Some (Switching cb) → ∃ s', switched false cb (done id s) = Ret s' ∧ good (vg s') (pending s').
Proof.
  intros Hg Hid. destruct (opening_taken _ _ _ Hg Hid I) as (Hl&Hp&Hs&Hi&Hc&Hf&Hy&c&Hx&Ht). unfold switched. simpl. rewrite Hx.
  apply runOpen_good; simpl; try done.
  - by eapply lists_same.
  - by destruct Hp.
  - rewrite Hc. split; [done|]. intros c' [= <-]. simpl. lia.
Qed.

Lemma informed_good W id cb s :
  base 0 W ∅ s → good (vg s) (pending s) → pending s !! id = Some (Informing cb) → ∃ s', informed false cb (done id s) = Ret s' ∧ good (vg s') (pending s').
Proof.
  intros Hb Hg Hid. destruct (opening_taken _ _ _ Hg Hid I) as (Hl&Hp&Hs&Hi&Hc&Hf&Hx).
  assert (base 1 (λ c, W c - one (Some cb = Some c)) ∅ (done id s)) as Hb1 by (eapply (base_done 0); [exact Hid|simpl; tauto|done|exact Hb]).
  set (s0 := done id s) in *. change (vg s) with (vg s0) in *. change (delete id (pending s)) with (pending s0) in Hi. clearbody s0. clear Hg Hid Hb s.
  unfold informed. cbv zeta.
  assert (∃ s1, (if decide (nonfunctionalReplicas_ (vg s0) ≠ [] ∧ functionalReplicas_ (vg s0) ≠ []) then scheduleCheckOnNonfunctionalReplicas_ s0 else Ret s0) = Ret s1 ∧
    calm s0 s1 ∧ base 1 (λ c, W c - one (Some cb = Some c)) ∅ s1) as (s1&->&[Hsg Hsp]&Hb2).
  { gcase; [|exists s0; split; [done|]; split; [|done]; split; [apply same_group_refl|by intros ? ?]].
    destruct (schedule_calm s0 0) as (s1&E1&Hcalm&_); [by destruct Hb1 as [[] ?]|done|]. exists s1. split; [done|]. split; [done|]. by eapply schedule_base. }
  cbn [mbind res_bind]. set (tgt := if decide (functional_cnt (vg s0) < quorumCnt_ (vg s0)) then Offline else Active).
  assert (changeState_ false tgt false (vg s1) = Ret (set_state tgt (vg s1))) as ->. { unfold changeState_. by destruct (decide (tgt = Active)). }
  cbn [mbind res_bind]. eapply respond_good; [|by apply base_same]. simpl.
  assert (idle (pending s1)) as Hi1.
  { intros i p Hip. destruct (decide (is_checking p)); [done|]. apply Hsp in Hip; [|done]. by apply Hi in Hip. }
  destruct Hsg as (Hw&Hsz&Hq&_&Hn&Hco&Hrx). pose proof (Hw InFunctional) as Hwf. pose proof (Hw InNonfunctional) as Hwn. pose proof (Hw InSyncing) as Hws. simpl in *.
  destruct (p_loading _ _ Hp Hs) as [Hz Ha]. pose proof (l_quorum _ _ Hl) as HqQ.
  assert (∀ w, list_of w (set_state tgt (vg s1)) = list_of w (vg s0)) as Hw' by (intros w; rewrite <- Hw; by destruct w).
  assert (functional_cnt (set_state tgt (vg s1)) = functional_cnt (vg s0)) as Hcnt by (unfold functional_cnt; simpl; by rewrite Hwf).
  split.
  - by eapply (lists_same _ (vg s0)).
  - split; simpl; rewrite ?Hcnt, ?Hco, ?Hwf, ?Hwn, ?Hws; try done; subst tgt; try gcase; try done; try tauto; try (intros _; lia); try (intros _; split; [done|lia]); congruence.
  - intros i q Hiq. by apply (idle_no_request _ Hi1) in Hiq.
  - apply quiet_order; [by apply idle_no_request|]. simpl. rewrite Hn, Hz. intros r Hr. apply Ha. rewrite (live_same (vg s0)) in Hr by done. by apply live_handles.
  - apply opens_none; [done|]. simpl. rewrite Hrx. by apply Hx.
Qed.

(** *** The functional replicas *)
Lemma seq_push_perm id r m : concat (seq_push id r m).*2 ≡ₚ r :: concat m.*2.
Proof.
  induction m as [|[k l] m IH]; simpl; [done|]. repeat gcase; simpl; [|done|].
  - rewrite <- app_assoc. simpl. by rewrite <- Permutation_middle.
  - rewrite IH. by rewrite <- Permutation_middle.
Qed.

Lemma split_perm quorum rsps x : ∃ l, l `sublist_of` rsps ∧ concat (seqIdMap (foldl (split_response quorum) x rsps)).*2 ≡ₚ concat (seqIdMap x).*2 ++ l.
Proof.
  revert x. induction rsps as [|r rsps IH]; intros x; simpl; [exists []; by rewrite app_nil_r|].
  destruct (IH (split_response quorum x r)) as (l&Hl&Hp).
  assert (∃ l', l' `sublist_of` r :: rsps ∧ concat (seqIdMap (split_response quorum x r)).*2 ++ l ≡ₚ concat (seqIdMap x).*2 ++ l') as (l'&Hl'&Hp').
  - unfold split_response. gcase; simpl.
    + exists (r :: l). split; [by apply sublist_skip|]. rewrite seq_push_perm. simpl. apply Permutation_middle.
    + exists l. split; [by apply sublist_cons|done].
  - exists l'. split; [done|]. by rewrite Hp.
Qed.

Lemma seq_find_sub id m : seq_find id m `sublist_of` concat m.*2.
Proof.
  unfold seq_find. destruct (list_find _ m) as [[n [k l]]|] eqn:E; [|apply sublist_nil_l]. apply list_find_Some in E as (Hn&_). apply list_elem_of_lookup_2, list_elem_of_split in Hn as (m1&m2&->).
  rewrite fmap_app. cbn. rewrite concat_app. simpl. apply sublist_inserts_l. by apply sublist_inserts_r.
Qed.

(** The responses with one sequence id are of distinct replicas. *)
Lemma seq_find_split quorum q0 c0 rsps id :
  let l := seq_find id (seqIdMap (foldl (split_response quorum) (MakeSplit [] q0 c0) rsps)) in
  NoDup (peer <$> rsps) → NoDup (peer <$> l) ∧ l ⊆ rsps.
Proof.
  intros l Hnd. destruct (split_perm quorum rsps (MakeSplit [] q0 c0)) as (l1&Hl1&Hp). simpl in Hp. pose proof (seq_find_sub id _ : l `sublist_of` _) as Hs.
  assert (l ⊆+ rsps) as Hsub. { etrans; [by apply sublist_submseteq|]. rewrite Hp. by apply sublist_submseteq. }
  split; [|intros r Hr; by eapply elem_of_submseteq]. apply (fmap_submseteq peer) in Hsub.
  apply submseteq_Permutation in Hsub as [k Hk]. rewrite Hk in Hnd. by apply NoDup_app in Hnd as [? _].
Qed.

(** A group that is being opened by a coordinator *)
Record preparing (W : Z → Z) (c : option OpenRetryCtx) (s : sys) : Prop := {
  pr_base : base 1 W ∅ s;
  pr_lists : lists Q (vg s);
  pr_state : state_ (vg s) = Loading;
  pr_coordinator : isCoordinator_ (vg s) = true;
  pr_seq : opSeqNo_ (vg s) = 0;
  pr_applied : ∀ r, r ∈ handles (vg s) → appliedOpId r = 0;
  pr_idle : idle (pending s);
  pr_retry : openRetryCtx_ (vg s) = c;
}.

Lemma preparing_phase W c s : preparing W c s → phase (vg s).
Proof. intros []. split; try congruence; [tauto|done]. Qed.

Lemma preparing_change W c w n r v tgt op e s :
  preparing W c s → list_of w (vg s) !! n = Some r → (tgt = Syncing ∨ tgt = Active) → w ≠ dst_of tgt →
  ∃ s' w' n' x r', changeVolumeReplicaState_ false grow (Some (w, n)) v tgt op e s = Ret (s', Some (w', n'), x) ∧ preparing W c s' ∧
    list_of w' (vg s') !! n' = Some r' ∧ svcUuid r' = svcUuid r ∧ (w' = w ∨ w' = dst_of tgt) ∧
    ∀ u, u ≠ svcUuid r → u ∈ svcUuid <$> nonfunctionalReplicas_ (vg s) → u ∈ svcUuid <$> nonfunctionalReplicas_ (vg s').
Proof.
  intros [Hb Hl Hs Hc Hz Ha Hi Hx] Hn Ht Hne. apply list_elem_of_lookup_2 in Hn as Hr. assert (valid_target tgt) as Hv by (unfold valid_target; tauto).
  destruct (change_release grow Q w n r v tgt op e s (c_fresh _ _ _ _ (proj1 Hb)) Hl Hc Hv Hn (λ _, Hne)) as [[-> _]|(s1&r'&E&[Hsg Hsp]&[Esvc Est Hsy Hot])].
  { exists s, w, n. eexists _, r. split; [done|]. split; [done|]. split; [done|]. split; [done|]. by split; [left|]. }
  pose proof (change_base _ _ _ _ _ _ _ _ _ _ _ _ _ _ Hb E) as Hb1. rewrite E.
  set (h1 := place (svcUuid r) (dst_of tgt) r' (vg s1)) in *. destruct Hsg as (Hw&Hgs&Hq&Hst&Hn1&Hc1&Hx1).
  assert (actions tgt h1 = h1) as Ea.
  { unfold actions. assert (state_ (vg s1) = Loading) as E1 by congruence. destruct Ht as [->| ->]; simpl; [done|]. by rewrite decide_False by (rewrite E1; naive_solver). }
  rewrite Ea in *. assert (lists Q (vg s1)) as Hl1 by by eapply lists_same. assert (r ∈ list_of w (vg s1)) as Hr1 by by rewrite Hw.
  eexists _, _, _, _, r'. split; [done|]. split; [split|split; [|split; [done|split; [by right|]]]]; simpl.
  - done.
  - by eapply place_lists.
  - congruence.
  - congruence.
  - congruence.
  - intros y [w0 Hy]%elem_of_handles. apply elem_of_place in Hy as [[Hy _]|[-> _]].
    + apply Ha. apply elem_of_handles. exists w0. by rewrite <- Hw.
    + destruct (decide (tgt = Syncing)) as [Et|Et]; [destruct (Hsy Et) as (_&->&_); done|]. destruct (Hot Et) as [_ ->]. apply Ha. apply elem_of_handles. by exists w.
  - intros i p Hip. destruct (decide (is_checking p)); [done|]. apply Hsp in Hip; [|done]. by apply Hi in Hip.
  - congruence.
  - subst h1. rewrite list_of_place, decide_True, length_app by done. simpl.
    replace (length (others (svcUuid r) (list_of (dst_of tgt) (vg s1))) + 1 - 1)%nat with (length (others (svcUuid r) (list_of (dst_of tgt) (vg s1)))) by lia.
    by apply list_lookup_middle.
  - intros u Hu (x&->&Hin)%list_elem_of_fmap. apply list_elem_of_fmap_2. change (x ∈ list_of InNonfunctional h1). subst h1.
    apply elem_of_place. left. split; [by rewrite Hw|done].
Qed.

Lemma make_functional_preparing W c s r :
  preparing W c s → peer r ∈ svcUuid <$> nonfunctionalReplicas_ (vg s) →
  ∃ s', make_functional false grow s r = Ret s' ∧ preparing W c s' ∧
    ∀ u, u ≠ peer r → u ∈ svcUuid <$> nonfunctionalReplicas_ (vg s) → u ∈ svcUuid <$> nonfunctionalReplicas_ (vg s').
Proof.
  intros Hp (y&Ey&Hy)%list_elem_of_fmap. unfold make_functional. pose proof (l_nodup _ _ (pr_lists _ _ _ Hp)) as Hnd.
  destruct (get_deref (peer r) (vg s)) as (w&n&x&->&_&Hn&Ex).
  { rewrite getAll_handles, Ey. apply list_elem_of_fmap_2, elem_of_handles. by exists InNonfunctional. }
  destruct (one_list (vg s) w InNonfunctional x y Hnd) as [-> <-]; [by eapply list_elem_of_lookup_2|done|congruence|]. cbv zeta.
  destruct (preparing_change _ _ _ _ _ (rsp_version r) Syncing (opSeqNo_ (vg s)) ERR_OK _ Hp Hn) as (s1&w1&n1&x1&r1&->&Hp1&Hn1&Eu1&Hw1&Hk1); [by left|done|].
  cbn [mbind res_bind].
  destruct (preparing_change _ _ _ _ _ (rsp_version r) Active (opSeqNo_ (vg s1)) ERR_OK _ Hp1 Hn1) as (s2&w2&n2&x2&r2&->&Hp2&_&_&_&Hk2);
    [by right|by destruct Hw1 as [->| ->]|].
  cbn [mbind res_bind]. exists s2. split; [done|]. split; [done|]. intros u Hu Hin. apply Hk2; [congruence|]. apply Hk1; [congruence|done].
Qed.

Lemma make_functionals_preparing W c l s :
  preparing W c s → NoDup (peer <$> l) → (∀ r, r ∈ l → peer r ∈ svcUuid <$> nonfunctionalReplicas_ (vg s)) →
  ∃ s', foldM (make_functional false grow) s l = Ret s' ∧ preparing W c s'.
Proof.
  revert s. induction l as [|r l IH]; intros s Hp Hnd Hin; simpl; [by exists s|]. simpl in Hnd. apply NoDup_cons in Hnd as [Hni Hnd].
  destruct (make_functional_preparing W c s r Hp) as (s1&->&Hp1&Ha); [apply Hin; left|]. simpl. apply IH; [done|done|].
  intros r' Hr'. apply Ha; [|apply Hin; by right]. intros E. apply Hni. rewrite <- E. by apply list_elem_of_fmap_2.
Qed.

Lemma preparing_vg W c c' h s :
  preparing W c s → (∀ w, list_of w h = list_of w (vg s)) → groupSize_ h = groupSize_ (vg s) → quorumCnt_ h = quorumCnt_ (vg s) → state_ h = state_ (vg s) →
  opSeqNo_ h = opSeqNo_ (vg s) → isCoordinator_ h = isCoordinator_ (vg s) → openRetryCtx_ h = c' → same_refs (vg s) h → preparing W c' (with_vg h s).
Proof.
  intros [] Hw Hg Hq Hs Ho Hc Hx Hr. split; simpl; try congruence; try done; [by apply base_same|by eapply lists_same|]. by rewrite (handles_same _ _ Hw).
Qed.

(** After the responses: either the group is to be opened again, with force,
    or not. *)
Lemma determine_good W c rsps s :
  preparing W c s → functionalReplicas_ (vg s) = [] → syncingReplicas_ (vg s) = [] → (∀ x, c = Some x → triesCnt x ≠ 0) →
  peer <$> rsps = getAllReplicas (vg s) →
  ∃ s' c', determineFunctaionalReplicas_ false grow rsps s = Ret s' ∧ preparing W c' s' ∧
    ((∀ x, c' = Some x → triesCnt x ≠ 0) ∨
     (∃ svc b, c' = Some (Retry 0 svc b)) ∧ functionalReplicas_ (vg s') = [] ∧ syncingReplicas_ (vg s') = []).
Proof.
  intros Hp Hf Hy Hc Hrsps. unfold determineFunctaionalReplicas_. pose proof (pr_lists _ _ _ Hp) as Hl. pose proof (l_quorum _ _ Hl) as HqQ.
  assert (Z.of_nat (length rsps) = size (vg s)) as Hlen by (by rewrite size_all, <- Hrsps, length_fmap).
  gcase; [lia|]. cbv zeta. rewrite firstn_all2 by lia. set (x := foldl _ _ rsps). cbn [fds_assert mbind res_bind].
  assert (∀ svc b, ∃ s' c', Ret (with_vg (retry_if_none (Retry 0 svc b) (vg s)) s) = Ret s' ∧ preparing W c' s' ∧
    ((∀ x, c' = Some x → triesCnt x ≠ 0) ∨ (∃ svc b, c' = Some (Retry 0 svc b)) ∧ functionalReplicas_ (vg s') = [] ∧ syncingReplicas_ (vg s') = [])) as Hretry.
  { intros svc b. unfold retry_if_none. destruct (openRetryCtx_ (vg s)) as [y|] eqn:Ey.
    - exists s, c. split; [by destruct s|]. split; [done|]. by left.
    - eexists _, _. split; [done|]. split; [by eapply preparing_vg|]. right. split; [by eexists _, _|done]. }
  assert (∀ k, ∃ s' c', (if decide (k ≠ -1) then foldM (make_functional false grow) s (seq_find k (seqIdMap x)) ≫= λ s,
      Ret (with_vg (set_ids k (opSeqNo_ (vg s)) k (dmtVersion_ (vg s)) (vg s)) s) else Ret s) = Ret s' ∧ preparing W c' s' ∧
    ((∀ x, c' = Some x → triesCnt x ≠ 0) ∨ (∃ svc b, c' = Some (Retry 0 svc b)) ∧ functionalReplicas_ (vg s') = [] ∧ syncingReplicas_ (vg s') = [])) as Hdone.
  { intros k. gcase; [|exists s, c; split; [done|]; split; [done|by left]].
    assert (svcUuid <$> nonfunctionalReplicas_ (vg s) = peer <$> rsps) as Hall by (rewrite Hrsps; unfold getAllReplicas; rewrite Hf, Hy; simpl; by rewrite app_nil_r).
    destruct (seq_find_split (quorumCnt_ (vg s)) (-1) [] rsps k) as [Hnd Hsub]; [rewrite Hrsps; by destruct Hl|].
    destruct (make_functionals_preparing W c (seq_find k (seqIdMap x)) s Hp Hnd) as (s1&->&Hp1).
    - intros r Hr. rewrite Hall. apply list_elem_of_fmap_2. by apply Hsub.
    - simpl. eexists _, c. split; [done|]. split; [|by left]. eapply preparing_vg; [done..|by destruct Hp1|done]. }
  gcase.
  - unfold coordinators_match, at_. destruct (cachedCoordinators x) as [|a [|b l]] eqn:Ec; [simpl in *; lia|simpl in *; lia|]. simpl.
    destruct (decide (a = b)); simpl; [apply Hretry|]. gcase; simpl; [|apply Hretry].
    destruct l as [|z l]; [simpl in *; lia|]. simpl. case_bool_decide; apply Hretry.
  - case_bool_decide as Hdiff; simpl; [|case_bool_decide; [apply Hretry|apply Hdone]].
    destruct (seqIdMap x) as [|p0 [|[k1 l1] m]] eqn:Em; [simpl in *; lia..|]. apply Hdone.
Qed.

Lemma idle_good h m :
  lists Q h → phase h → state_ h = Loading → idle m → (∀ c, openRetryCtx_ h = Some c → triesCnt c ≠ 0) → good h m.
Proof. intros Hl Hp Hs Hi Hx. apply good_loading; [done|done|done|by apply idle_no_request|by apply opens_none]. Qed.

(** *** Readers *)
Lemma reader_active h m :
  lists Q h → phase h → state_ h = Loading → idle m → isCoordinator_ h = false → Q ≤ functional_cnt h → (∀ c, openRetryCtx_ h = Some c → triesCnt c ≠ 0) →
  good (set_state Active h) m.
Proof.
  intros Hl Hp Hs Hi Hc Hcnt Hx. destruct (p_loading _ _ Hp Hs) as [Hz Ha]. split.
  - by eapply lists_same.
  - destruct Hp. split; simpl; try done. tauto.
  - intros id q Hid. by apply (idle_no_request _ Hi) in Hid.
  - apply quiet_order; [by apply idle_no_request|]. simpl. rewrite Hz. intros r Hr. apply Ha. by apply live_handles.
  - by apply opens_none.
Qed.

Lemma reader_prepared_good W cb rsps s :
  base 1 W ∅ s → lists Q (vg s) → phase (vg s) → state_ (vg s) = Loading → idle (pending s) → isCoordinator_ (vg s) = false → Q ≤ functional_cnt (vg s) →
  (∀ c, openRetryCtx_ (vg s) = Some c → triesCnt c ≠ 0) → peer <$> rsps = getAllReplicas (vg s) →
  ∃ s', handleOpenResponseForNonCoordinator_ false rsps cb s = Ret s' ∧ good (vg s') (pending s').
Proof.
  intros Hb Hl Hp Hs Hi Hc Hcnt Hx Hrsps. unfold handleOpenResponseForNonCoordinator_.
  assert (Z.of_nat (length rsps) = size (vg s)) as Hlen by (by rewrite size_all, <- Hrsps, length_fmap).
  gcase; [lia|]. cbv zeta.
  assert (∀ e, ∃ s', respond false cb e (with_vg (set_state Active (vg s)) s) = Ret s' ∧ good (vg s') (pending s')) as Hact.
  { intros e. eapply respond_good; [by apply reader_active|by apply base_same]. }
  gcase; [apply Hact|]. gcase; [|apply Hact]. eapply respond_good; [by apply idle_good|done].
Qed.

Lemma prepared_good W id cb rsps s :
  base 0 W ∅ s → good (vg s) (pending s) → pending s !! id = Some (Preparing cb) → peer <$> rsps = getAllReplicas (vg s) →
  ∃ s', prepared false grow cb rsps (done id s) = Ret s' ∧ good (vg s') (pending s').
Proof.
  intros Hb Hg Hid Hrsps. destruct (opening_taken _ _ _ Hg Hid I) as (Hl&Hp&Hs&Hi&Hok&Hx).
  assert (base 1 (λ c, W c - one (Some cb = Some c)) ∅ (done id s)) as Hb1 by (eapply (base_done 0); [exact Hid|simpl; tauto|done|exact Hb]).
  set (s0 := done id s) in *. change (vg s) with (vg s0) in *. change (delete id (pending s)) with (pending s0) in Hi. clearbody s0. clear Hg Hid Hb s.
  unfold prepared. destruct (isCoordinator_ (vg s0)) eqn:Hc; cbn [negb]; [|by eapply reader_prepared_good].
  destruct Hok as [Hf Hy]. destruct (p_loading _ _ Hp Hs) as [Hz Ha].
  destruct (determine_good (λ c, W c - one (Some cb = Some c)) (openRetryCtx_ (vg s0)) rsps s0) as (s1&c1&->&Hp1&Hcase); try done.
  cbn [mbind res_bind]. pose proof (preparing_phase _ _ _ Hp1) as Hph1. destruct Hp1 as [Hb2 Hl1 Hs1 Hc1 Hz1 Ha1 Hi1 Hx1]. rewrite Hx1.
  assert ((∀ x, c1 = Some x → triesCnt x ≠ 0) → ∃ s', (if decide (functionalReplicas_ (vg s1) = []) then respond false cb ERR_VOLUMEGROUP_INVALID s1
      else Ret (does [createBroadcastGroupInfoReq_ (vg s1)] (issue (Informing cb) s1))) = Ret s' ∧ good (vg s') (pending s')) as Hend.
  { intros Hne. gcase; [eapply respond_good; [apply idle_good; by rewrite ?Hx1|done]|]. eexists. split; [done|]. simpl.
    apply good_loading; [done|done|done|by apply start_no_request|]. apply opens_start; [done|done|done|]. simpl. rewrite Hx1. done. }
  destruct Hcase as [Hne|[(svc&b&->) [Hf1 Hy1]]].
  - destruct c1 as [[tries svc b]|]; [|by apply Hend]. assert (tries ≠ 0) as Ht by by apply (Hne _ eq_refl). destruct tries; [done|by apply Hend|by apply Hend].
  - destruct b; cbn [fds_assert mbind res_bind].
    + eexists. split; [done|]. simpl. apply good_loading; [done|done|done|by apply start_no_request|]. apply opens_start; [done|done|done|]. simpl.
      split; [done|]. split; [done|]. split; [done|]. eexists. split; [exact Hx1|]. simpl. lia.
    + apply runOpen_good; simpl; try done; [by eapply lists_same|by destruct Hph1|]. rewrite Hc1. split; [done|]. by intros c [= <-].
Qed.

(** *** Opens *)
Lemma start_lists (svcs : list Z) (f : Z → Replica) : (∀ u, svcUuid (f u) = u) → svcUuid <$> (f <$> svcs) = svcs.
Proof. intros Hf. rewrite <- list_fmap_compose. rewrite <- (list_fmap_id svcs) at 2. apply list_fmap_ext. intros i u _. simpl. apply Hf. Qed.

Lemma open_started cb W s h svcs :
  base 1 W ∅ s → idle (pending s) → (∀ c, openRetryCtx_ h = Some c → triesCnt c ≠ 0) → quorumCnt_ h = Q → NoDup svcs → Q ≤ Z.of_nat (length svcs) ≤ 255 →
  opSeqNo_ h = 0 →
  let h0 := set_size (Z.of_nat (length svcs)) h in
  let h1 := set_state Loading (if isCoordinator_ h0 then set_lists [] (VolumeReplicaHandle.make <$> svcs) [] h0
               else set_lists ((λ u, setState Active (VolumeReplicaHandle.make u)) <$> svcs) [] [] h0) in
  ∃ s', runOpenProtocol_ false cb (with_vg h1 s) = Ret s' ∧ good (vg s') (pending s').
Proof.
  intros Hb Hi Hx Hq Hnd Hlen Hz h0 h1.
  assert (handles h1 = if isCoordinator_ h then VolumeReplicaHandle.make <$> svcs else (λ u, setState Active (VolumeReplicaHandle.make u)) <$> svcs) as Hh.
  { subst h1 h0. unfold handles. simpl. destruct (isCoordinator_ h); simpl; by rewrite ?app_nil_r. }
  assert (getAllReplicas h1 = svcs) as Ha by (rewrite getAll_handles, Hh; destruct (isCoordinator_ h); by apply start_lists).
  assert (∀ r, r ∈ handles h1 → appliedOpId r = 0) as Happ.
  { intros r. rewrite Hh. destruct (isCoordinator_ h); intros (u&->&_)%list_elem_of_fmap; done. }
  apply runOpen_good; simpl.
  - split; rewrite ?size_all, ?Ha; [done| |by subst h1 h0; simpl; destruct (isCoordinator_ h)|lia|by subst h1 h0; simpl; destruct (isCoordinator_ h)].
    intros w r. subst h1 h0. simpl. destruct (isCoordinator_ h), w; simpl; (intros ?%elem_of_nil; done) || (intros (u&->&_)%list_elem_of_fmap; done).
  - split; try (subst h1 h0; simpl; destruct (isCoordinator_ h) eqn:?; simpl in *; done || tauto || congruence).
    intros _. split; [|done]. subst h1 h0. simpl. by destruct (isCoordinator_ h).
  - subst h1 h0. simpl. by destruct (isCoordinator_ h).
  - done.
  - split; [|subst h1 h0; simpl; by destruct (isCoordinator_ h)]. subst h1 h0. simpl. destruct (isCoordinator_ h) eqn:Ec; simpl; rewrite ?Ec; [done|].
    unfold functional_cnt. simpl. rewrite length_fmap. lia.
Qed.

Lemma open_good W cb w dmt s :
  base 0 W ∅ s → good (vg s) (pending s) → expected Q (Open cb w dmt) s → ∃ s', open false cb w dmt s = Ret s' ∧ good (vg s') (pending s').
Proof.
  intros Hb%base_incRef Hg Hexp. unfold open. cbv zeta. simpl in Hb. set (s1 := with_vg (incRef (vg s)) s) in *.
  assert (good (vg s1) (pending s1)) as Hg1 by (eapply good_calm; [exact Hg|by repeat split|by intros ? ?]).
  assert (expected Q (Open cb w dmt) s1) as Hexp1 by exact Hexp. clearbody s1. clear Hg Hexp. rename Hexp1 into Hexp.
  gcase; [by eapply respond_good|].
  set (h := if w then set_role true (openRetryCtx_ (vg s1)) (vg s1) else vg s1).
  assert (openRetryCtx_ h = openRetryCtx_ (vg s1) ∧ quorumCnt_ h = quorumCnt_ (vg s1) ∧ groupSize_ h = groupSize_ (vg s1) ∧ state_ h = state_ (vg s1) ∧ (∀ w', list_of w' h = list_of w' (vg s1)) ∧
    (isCoordinator_ h = false → isCoordinator_ (vg s1) = false) ∧ same_refs (vg s1) h) as (Ex&Eq&Eg&Es&Ew&Ec&Er) by (subst h; by destruct w).
  clearbody h. destruct Hg1 as [Hl Hp Hq Ho Hop]. destruct dmt as [v [e|svcs]]; simpl in Hexp |- *.
  - destruct Hexp as [|[Hm Hno]]; [done|]. eapply respond_good; [|apply base_same; [exact Hb|destruct Er as (?&?&?&?); repeat split; try done; intros _; by apply buffer_reset]]. simpl. rewrite Hm.
    assert (∀ w', list_of w' (set_ids (version_ h) OPSTARTID COMMITSTARTID v h) = list_of w' (vg s1)) as Ew' by done.
    pose proof (handles_same _ _ Ew') as Hh. split.
    + by eapply (lists_same _ (vg s1)).
    + destruct Hp. split; simpl; rewrite ?Es, ?Hh; try done; [intros E; split; [done|]; by apply p_loading0|].
      intros Hc. pose proof (Ew InNonfunctional) as E1. pose proof (Ew InSyncing) as E2. simpl in *. rewrite E1, E2. auto.
    + intros id q. by rewrite lookup_empty.
    + apply quiet_order; [by intros id q|]. simpl. intros r Hr%live_handles. rewrite Hh in Hr. destruct (p_known _ _ Hp) as [E|[E|[E|E]]]; try done.
      * rewrite (p_unknown _ _ Hp E) in Hr. by apply elem_of_nil in Hr.
      * by apply (p_loading _ _ Hp E).
    + apply opens_none; [by intros ? ?|]. simpl. rewrite Ex. intros c. eapply opens_idle. by rewrite <- Hm.
  - destruct Hexp as [|(Hm&Hnd&Hlen)]; [done|].
    assert (idle (pending s1)) as Hi by (rewrite Hm; by intros ? ?).
    destruct (open_started cb W s1 (set_ids (version_ h) OPSTARTID COMMITSTARTID v h) svcs Hb Hi) as (s2&E2&Hg2); try done; [|simpl; rewrite Eq; by destruct Hl|].
    + simpl. rewrite Ex. intros c. eapply opens_idle. by rewrite <- Hm.
    + exists s2. split; [|done]. exact E2.
Qed.

(** ** Events *)
Lemma event_good W e s :
  base 0 W ∅ s → good (vg s) (pending s) → expected Q e s → room e s → ∃ s', handle_event false grow e s = Ret s' ∧ good (vg s') (pending s').
Proof.
  intros Hb Hg Hexp Hroom. destruct e as [cb w dmt|cb|cb|cb mt b|cb mt b|m|id rsps|id|id|id|id hdr]; simpl handle_event.
  - by eapply open_good.
  - by eapply close_good.
  - by eapply sendReadMsg_good.
  - by eapply sendModifyMsg_good.
  - by eapply sendCommitMsg_good.
  - by eapply add_good.
  - destruct (pending s !! id) as [[cb| | | |]|] eqn:Hid; try (by exists s). eapply prepared_good; [done|done|done|]. by eapply Hexp.
  - destruct (pending s !! id) as [[ |cb| | |]|] eqn:Hid; try (by exists s). by eapply informed_good.
  - destruct (pending s !! id) as [[ | |cb| |]|] eqn:Hid; try (by exists s). by eapply switched_good.
  - destruct (pending s !! id) as [[ | | | |]|] eqn:Hid; try (by exists s). eapply timer_good; [done|done|done|].
    destruct (isCoordinator_ (vg s)) eqn:Ec; [by left|right]. by apply (p_reader _ _ (gd_phase _ _ _ Hg)).
  - destruct (pending s !! id) as [[ | | | |q]|] eqn:Hid; try (by exists s). simpl in Hexp. specialize (Hexp q).
    destruct (write_ q) eqn:Ew; [eapply broadcast_response_good|eapply failover_response_good]; try done; intros n ep; by apply Hexp.
Qed.

End Runs.

(** The states of a group whose replicas follow the protocol; a vector may
    move its elements in any step *)
Inductive reach (Q : Z) : sys → Prop :=
| reach_initial : reach Q (initial Q)
| reach_event grow e s s' : reach Q s → expected Q e s → handle_event false grow e s = Ret s' → reach Q s'.

(** A step without room is a step with room, or undefined. *)
Lemma change_grow debug grow i v tgt op e s x :
  changeVolumeReplicaState_ debug grow i v tgt op e s = Ret x → changeVolumeReplicaState_ debug false i v tgt op e s = Ret x.
Proof.
  unfold changeVolumeReplicaState_, move_handle. destruct (fds_assert _ _); simpl; [|done]. destruct (deref _ _) as [[[w n] r]|]; simpl; [|done].
  destruct (change_handle _ _ _ _ _ _ _) as [[[s1 r1]|]|]; simpl; [|done..]. destruct (getVolumeReplicaHandleList_ (state r)); simpl; [|done].
  destruct (getVolumeReplicaHandleList_ tgt); simpl; [|done].
  gcase; [done|]. gcase; [|done]. by destruct grow.
Qed.

Lemma add_grow debug grow m s s' : handleAddToVolumeGroupMsg debug grow m s = Ret s' → handleAddToVolumeGroupMsg debug false m s = Ret s'.
Proof.
  unfold handleAddToVolumeGroupMsg. gcase; [done|]. destruct (negb _); [done|]. destruct (fds_assert _ _); simpl; [|done].
  destruct (getVolumeReplicaHandle_ _ _); [|done]. destruct (changeVolumeReplicaState_ debug grow _ _ _ _ _ _) eqn:E; simpl; [|done].
  by rewrite (change_grow _ _ _ _ _ _ _ _ _ E).
Qed.

Lemma reach_good Q s : 2 ≤ Q → reach Q s → (∃ W, base 0 W ∅ s) ∧ good Q (vg s) (pending s).
Proof.
  intros HQ. induction 1 as [|grow e s s' _ [[W Hb] Hg] Hexp Hs].
  - split; [eexists; apply initial_base|]. by apply good_closed.
  - split; [eexists; by eapply event_base|]. assert (room grow e s ∨ ∃ m, e = Add m) as [Hroom|[m ->]] by (destruct e; eauto; by left).
    + destruct (event_good Q HQ grow _ _ _ Hb Hg Hexp Hroom) as (s2&E&?). rewrite Hs in E. by injection E as <-.
    + destruct (event_good Q HQ false _ _ _ Hb Hg Hexp) as (s2&E&?); [done|]. simpl in E. rewrite (add_grow _ _ _ _ _ Hs) in E. by injection E as <-.
Qed.

(** C4. The coordinator never ends the process: in every state that it reaches,
    every event that the protocol [expected] allows is handled, which means that
    no check on the order of the operations fails, no iterator past the end is
    used and no step is undefined.  This is of release builds, with quorums of
    at least two, and of replicas that follow the protocol: a group that is not
    active is opened while nothing is outstanding, with a quorum to 255 distinct
    services, and the lookup of the services fails only while it is not offline;
    the preparation of an open is answered for each replica, in their order; a
    replica answers with the version that it was asked with, and the writes of a
    version in order; it asks to load or to be offline at any time, to
    synchronise with a higher version while it is not functional, to be active
    while it synchronises, and for no other state; and the last functional
    replica is not lost, by an error or by asking to load or to be offline,
    while another one synchronises.  [room] excludes one
    more case, which is undefined: a replica that asks for the list that it
    already is in, when the vector has no room for one more element. *)
Theorem coordinator_survives Q grow e s : 2 ≤ Q → reach Q s → expected Q e s → room grow e s → ∃ s', handle_event false grow e s = Ret s'.
Proof.
  intros HQ Hr Hexp Hroom. destruct (reach_good Q s HQ Hr) as [[W Hb] Hg]. destruct (event_good Q HQ grow _ _ _ Hb Hg Hexp Hroom) as (s'&E&_). by exists s'.
Qed.

(** C2. A volume group is consistent in every state that a release build reaches
    with a quorum of at least two and replicas that follow the protocol
    [expected]: each replica is in one
    list, the one of its state; an active group has a quorum of functional
    replicas and an offline one has not; by the account of the coordinator
    ([appliedOpId]), what a functional or syncing replica has not applied is
    exactly what is on its way to it; and an outstanding write went to members
    of the group, still waits for one of them, and has been answered to its
    client exactly when a quorum of distinct members has acknowledged it.  The
    account starts when a replica begins to synchronise, with what was replayed
    to it taken as sent: [shared_buffer_loses] is a reachable state in which
    that replay failed. *)
Theorem group_safe Q s : 2 ≤ Q → reach Q s →
  let h := vg s in
  NoDup (getAllReplicas h) ∧ (∀ w r, r ∈ list_of w h → state r = state_of w) ∧
  (state_ h = Active → Q ≤ functional_cnt h) ∧ (state_ h = Offline → functional_cnt h < Q) ∧
  (∀ r k, r ∈ getWriteableReplicaHandles h → appliedOpId r < k ≤ opSeqNo_ h ↔ ∃ id, sends (pending s) (svcUuid r) (version r) id k) ∧
  (∀ id q w, pending s !! id = Some (InProgress q) → write_ q = Some w →
     ep_svc <$> epReqs_ q ⊆ getAllReplicas h ∧ (∃ ep, ep ∈ epReqs_ q ∧ ep_complete ep = false) ∧
     NoDup (successAcks_ q).*1 ∧ (successAcks_ q).*1 ⊆ ep_svc <$> acked q ∧
     (responseCb_ q = None ↔ Q ≤ Z.of_nat (length (successAcks_ q)))).
Proof.
  intros HQ Hr h. destruct (reach_good Q s HQ Hr) as [_ [Hl Hp Hq Ho _]]. split; [by destruct Hl|]. split; [by destruct Hl|].
  split; [by destruct Hp|]. split; [by intros E; apply (p_offline _ _ Hp)|]. split; [intros r k Hx; by destruct (Ho r Hx)|].
  intros id q w Hid Hw. destruct (Hq _ _ Hid) as [_ Hok]. unfold request_ok in Hok. rewrite Hw in Hok. destruct Hok. repeat split; try done; try apply wq_cb0.
  - intros u (ep&->&Hep)%list_elem_of_fmap. destruct (wq_members0 _ Hep) as (r&Hr'&<-&_). rewrite getAll_handles. by apply list_elem_of_fmap_2.
  - destruct (decide (Forall (λ ep, ep_complete ep = true) (epReqs_ q))) as [Hall|Hex].
    + rewrite Forall_forall in Hall. unfold acked in wq_acked0. rewrite (filter_all _ (epReqs_ q) Hall) in wq_acked0. lia.
    + apply not_Forall_Exists, Exists_exists in Hex as (ep&Hep&Hc); [|apply _]. exists ep. split; [done|]. destruct (ep_complete ep) eqn:E; [by destruct (Hc E)|done].
  - intros u (a&->&Ha)%list_elem_of_fmap. by destruct (wq_acks0 _ Ha).
Qed.

(** ** Answers to writes *)
(** Nothing is answered to a client. *)
Definition quiet (s s' : sys) : Prop := ∃ l, trace s' = trace s ++ l ∧ ∀ c e, answer c e ∉ l.

Lemma quiet_same s s' : trace s' = trace s → quiet s s'.
Proof. intros E. exists []. split; [by rewrite app_nil_r|]. intros c e. by intros ?%elem_of_nil. Qed.

Lemma quiet_trans s1 s2 s3 : quiet s1 s2 → quiet s2 s3 → quiet s1 s3.
Proof.
  intros (l1&E1&H1) (l2&E2&H2). exists (l1 ++ l2). split; [by rewrite E2, E1, app_assoc|].
  intros c e [H|H]%elem_of_app; [by apply H1 in H|by apply H2 in H].
Qed.

Lemma change_offline_quiet grow i v op e s s' i' x : changeVolumeReplicaState_ false grow i v Offline op e s = Ret (s', i', x) → quiet s s'.
Proof.
  unfold changeVolumeReplicaState_. cbn [fds_assert]. intros H. next H. next_as H d Ed. destruct d as [[w n] r]. next_as H c Ec. unfold change_handle in Ec. simpl in Ec.
  next_as Ec s1 E1. injection Ec as <-. next H. next H. revert H. gcase; [done|]. intros H. next H. next H. next H. next H. injection H as <- _ _.
  unfold scheduleCheckOnNonfunctionalReplicas_ in E1. next E1. destruct (checkOnNonFunctionalScheduled_ (vg s)); injection E1 as <-; [by apply quiet_same|].
  eexists. split; [done|]. intros c0 e0 [=]%list_elem_of_singleton.
Qed.

Lemma response_quiet grow src v op st acks s s' acks' : handleVolumeResponse false grow src v op true st acks s = Ret (s', acks') → quiet s s'.
Proof.
  intros H. unfold handleVolumeResponse in H. next H. revert H. gcase; [intros [= <- <-]; by apply quiet_same|]. intros H.
  next_as H d Ed. destruct d as [[w n] r]. revert H. gcase; [intros [= <- <-]; by apply quiet_same|].
  destruct (_ || _); intros H; [|next H; injection H as <- <-; by apply quiet_same].
  destruct (negb (isVolumeGroupError st)); [next H; injection H as <- _; by apply quiet_same|].
  destruct (negb (isCoordinator_ (vg s))); [injection H as <- _; gcase; by apply quiet_same|].
  next_as H y Ey. destruct y as [[s1 i1] e1]. next H. injection H as <- _. by eapply change_offline_quiet.
Qed.

Lemma complete_quiet id s s' : complete false id s = Ret s' → quiet s s'.
Proof.
  intros H. unfold complete in H. next_as H s1 E. injection H as <-. unfold decRef in E. next E. revert E. gcase; intros E.
  - unfold closeHandle_ in E. next_as E h Eh. destruct (closeCb_ h); [|done]. injection E as <-. eexists. split; [done|]. intros c e [=]%list_elem_of_singleton.
  - injection E as <-. by apply quiet_same.
Qed.

(** C6. In a release build, with replicas that follow the protocol [expected] and
    a quorum of at least two, a client is told that its write succeeded only when a quorum of distinct
    members of the group, to which it was sent, have acknowledged it, the last
    of them with the response that is handled. *)
Theorem write_acknowledged Q grow id hdr q w c s s' :
  2 ≤ Q → reach Q s → expected Q (Response id hdr) s → pending s !! id = Some (InProgress q) → write_ q = Some w → responseCb_ q = Some c →
  handle_event false grow (Response id hdr) s = Ret s' →
  ∃ l, trace s' = trace s ++ l ∧
    (answer c ERR_OK ∈ l →
     let acks := successAcks_ q ++ [(msg_src_uuid hdr, msg_code hdr)] in
     Z.of_nat (length acks) = Q ∧ NoDup acks.*1 ∧ ∀ a, a ∈ acks → isVolumeGroupError a.2 = false ∧ a.1 ∈ ep_svc <$> epReqs_ q).
Proof.
  intros HQ Hr Hexp Hid Hw Hcb H. destruct (reach_good Q s HQ Hr) as [[W Hb] Hg]. simpl in H. rewrite Hid, Hw in H. simpl in Hexp.
  destruct (gd_requests _ _ _ Hg _ _ Hid) as [_ Hok]. unfold request_ok in Hok. rewrite Hw in Hok.
  unfold broadcast_response in H. destruct (getEpReq_ (msg_src_uuid hdr) q) as [[n ep]|] eqn:Eget;
    [|injection H as <-; exists []; split; [by rewrite app_nil_r|by intros ?%elem_of_nil]].
  destruct (ep_complete ep) eqn:Enc; [injection H as <-; exists []; split; [by rewrite app_nil_r|by intros ?%elem_of_nil]|].
  destruct (write_response_handled Q HQ grow id q w n ep hdr (successAcks_ (complete_ep n ep q)) s (c_fresh _ _ _ _ (proj1 Hb)) Hg Hid Hw Eget Enc (Hexp _ _ _ Hid Eget Enc))
    as (s1&acks&Hh&Hao&_&Hacks).
  apply getEp_found in Eget as [Hep Esrc]. rewrite <- Esrc in *. pose proof (l_quorum _ _ (ao_lists _ _ _ _ _ Hao)) as HqQ.
  destruct (response_quiet _ _ _ _ _ _ _ _ _ Hh) as (l1&E1&H1). assert (Z.of_nat (length (successAcks_ q)) < Q) as Hlt.
  { destruct (decide (Q ≤ Z.of_nat (length (successAcks_ q)))) as [L|L]; [|lia]. apply (wq_cb _ _ _ Hok) in L. congruence. }
  assert (Z.of_nat (length acks) = Q → let acks := successAcks_ q ++ [(ep_svc ep, msg_code hdr)] in
     Z.of_nat (length acks) = Q ∧ NoDup acks.*1 ∧ ∀ a, a ∈ acks → isVolumeGroupError a.2 = false ∧ a.1 ∈ ep_svc <$> epReqs_ q) as Hmet.
  { intros Em. destruct Hacks as [->|[-> Hcode]]; [simpl in Em; lia|]. by eapply quorum_acks. }
  cbv zeta in H. rewrite Hh in H. cbn [mbind res_bind] in H. revert H. simpl responseCb_. simpl successAcks_. simpl response_. simpl nAcked_.
  rewrite HqQ, Hcb. case_bool_decide as Em; intros H.
  - specialize (Hmet Em). next_as H f Ef. revert H. gcase; intros H.
    + next H. apply complete_quiet in H as (l2&E2&_). eexists. split; [rewrite E2; simpl; rewrite E1, <- !app_assoc; done|]. done.
    + injection H as <-. eexists. split; [simpl; rewrite E1, <- !app_assoc; done|]. done.
  - next H. revert H. gcase; intros H.
    + next H. apply complete_quiet in H as (l2&E2&Hl2). eexists. split; [rewrite E2; simpl; rewrite E1, app_nil_r, <- !app_assoc; done|].
      intros [Hx|[[= E]%list_elem_of_singleton|Hx]%elem_of_app]%elem_of_app; [by apply H1 in Hx| |by apply Hl2 in Hx]. exfalso.
      revert E. apply not_eq_sym. apply (first_error Q q ep (vg s) acks (msg_code hdr) Hok Hacks). simpl in Hd. rewrite length_insert in Hd.
      assert (u8 (nAcked_ q + 1) = nAcked_ q + 1) as Eu by (destruct Hok; unfold u8; apply Z.mod_small; lia). destruct Hok.
      destruct Hacks as [->|[-> _]]; rewrite ?length_app in *; simpl in *; lia.
    + injection H as <-. eexists. split; [simpl; rewrite E1, app_nil_r; done|]. intros Hx. by apply H1 in Hx.
Qed.

(** *** The end of a write *)
(** The endpoints that a write waits for *)
Definition unanswered (q : Request) : Z := Z.of_nat (length (epReqs_ q)) - Z.of_nat (length (acked q)).

Lemma complete_pending debug id s s' : complete debug id s = Ret s' → pending s' = delete id (pending s).
Proof.
  intros H. unfold complete in H. next_as H s1 E. injection H as <-. simpl. f_equal. unfold decRef in E. next E. revert E. gcase; intros E; [|by injection E as <-].
  unfold closeHandle_ in E. next_as E h Eh. destruct (closeCb_ h); [|done]. by injection E as <-.
Qed.

(** C11. A write ends after as many responses as it has endpoints.  In any build,
    whatever version and status a response has, if it is of a replica that has
    not answered and the coordinator survives it, it leaves one less to wait
    for, and after the last one the write is no longer outstanding.  And a
    release build does survive it when the response is one that the protocol
    allows: of the version that was asked, in the order of the operations, and
    not an error of the last functional replica while another one
    synchronises. *)
Theorem write_progress Q debug grow id hdr q w ep s :
  2 ≤ Q → reach Q s → pending s !! id = Some (InProgress q) → write_ q = Some w →
  ep ∈ epReqs_ q → ep_complete ep = false → msg_src_uuid hdr = ep_svc ep →
  (∀ s', handle_event debug grow (Response id hdr) s = Ret s' →
    if decide (unanswered q = 1) then pending s' !! id = None
    else ∃ q', pending s' !! id = Some (InProgress q') ∧ write_ q' = Some w ∧ unanswered q' = unanswered q - 1) ∧
  (expected Q (Response id hdr) s → ∃ s', handle_event false grow (Response id hdr) s = Ret s').
Proof.
  intros HQ Hr Hid Hw Hin Hnc Hsrc. destruct (reach_good Q s HQ Hr) as [[W Hb] Hg].
  split; [|intros Hexp; destruct (event_good Q HQ grow _ _ _ Hb Hg Hexp I) as (s'&H&_); by exists s'].
  intros s' H. simpl in H. rewrite Hid, Hw in H.
  destruct (gd_requests _ _ _ Hg _ _ Hid) as [_ Hok]. unfold request_ok in Hok. rewrite Hw in Hok.
  apply list_elem_of_lookup in Hin as [n Hep].
  assert (getEpReq_ (msg_src_uuid hdr) q = Some (n, ep)) as Eget.
  { apply list_find_Some. split; [done|]. split; [done|]. intros j y Hj Hlt E.
    assert (j = n); [|lia]. eapply (NoDup_lookup _ j n (ep_svc ep) (wq_nodup _ _ _ Hok)); [rewrite list_lookup_fmap, Hj; simpl; congruence|by rewrite list_lookup_fmap, Hep]. }
  unfold broadcast_response in H. rewrite Eget, Hnc in H. cbv zeta in H. next_as H x E. destruct x as [s1 acks]. next H. simpl nAcked_ in H.
  assert (u8 (nAcked_ q + 1) = nAcked_ q + 1) as Eu by (destruct Hok; unfold u8; apply Z.mod_small; lia). rewrite Eu in H.
  pose proof (complete_acked q n ep Hep Hnc) as Hca. pose proof (wq_acked _ _ _ Hok) as Hacked.
  assert (length (epReqs_ (complete_ep n ep q)) = length (epReqs_ q)) as Hlen by (simpl; by rewrite length_insert). rewrite Hlen in H.
  revert H. gcase; intros H.
  - next H. apply complete_pending in H. rewrite decide_True by (unfold unanswered; lia). rewrite H. apply lookup_delete_eq.
  - injection H as <-. rewrite decide_False by (unfold unanswered; lia). eexists. split; [apply lookup_insert_eq|]. split; [done|].
    unfold unanswered. change (acked (set_acks _ _ _ _ ?q)) with (acked q). rewrite Hca. change (epReqs_ (set_acks _ _ _ _ ?q)) with (epReqs_ q). rewrite Hlen. lia.
Qed.

End VolumeGroupRuns.
