(* ===== verification/VolumeGroupCases.v ===== *)
(** * Replicated volumes: runs

    A checker for the events that the protocol allows, and concrete runs of a
    volume group: a group that is opened, written and read, and runs that show
    what the coordinator does not handle. *)

From S2P Require Import Prelude.
From S2P Require Import VolumeGroup.
From S2P Require Import VolumeGroupSpec.
From S2P Require Import VolumeGroupReads.
From S2P Require Import VolumeGroupSafe.
From S2P Require Import VolumeGroupRuns.
Import VolumeGroupConstants VolumeReplicaHandle VolumeGroupHandle VolumeGroupSpec VolumeGroupReads VolumeGroupSafe VolumeGroupRuns.
Open Scope Z_scope.

Module VolumeGroupCases.

#[local] Instance Endpoint_eq_dec : EqDecision Endpoint.
Proof. solve_decision. Defined.

(** ** The protocol as a check *)
Definition keeps_one_b (u : Z) (h : t) : bool := bool_decide (svcUuid <$> functionalReplicas_ h = [u] → length (syncingReplicas_ h) = 0%nat).

Definition add_expected_b (m : AddMsg) (h : t) (r : Replica) : bool :=
  match add_target m with
  | Loading | Offline => keeps_one_b (svcUuid r) h
  | Syncing => bool_decide (state r ≠ Active ∧ version r < add_version m)
  | Active => bool_decide (state r = Syncing)
  | _ => false
  end.

Definition later_b (w : Write) (ep : Endpoint) (p : Pending) : bool :=
  match p with
  | InProgress q => match write_ q with
                    | Some w' => bool_decide (Ep (ep_svc ep) (ep_version ep) false ∈ epReqs_ q → opId w ≤ opId w')
                    | None => true
                    end
  | _ => true
  end.

Definition response_expected_b (hdr : AsyncHdr) (q : Request) (ep : Endpoint) (s : sys) : bool :=
  bool_decide (replicaVersion hdr = ep_version ep) &&
  if isVolumeGroupError (msg_code hdr) then keeps_one_b (ep_svc ep) (vg s)
  else match write_ q with Some w => forallb (λ x, later_b w ep x.2) (map_to_list (pending s)) | None => true end.

Definition expected_b (Q : Z) (e : event) (s : sys) : bool :=
  match e with
  | Open _ _ (_, inr svcs) =>
      bool_decide (state_ (vg s) = Active ∨ (base.size (pending s) = 0%nat ∧ NoDup svcs ∧ Q ≤ Z.of_nat (length svcs) ≤ 255))
  | Open _ _ (_, inl _) => bool_decide (state_ (vg s) = Active ∨ (base.size (pending s) = 0%nat ∧ state_ (vg s) ≠ Offline))
  | Add m => forallb (λ r, negb (bool_decide (svcUuid r = add_svc m)) || add_expected_b m (vg s) r) (handles (vg s))
  | Prepared id rsps =>
      match pending s !! id with Some (Preparing _) => bool_decide (peer <$> rsps = getAllReplicas (vg s)) | _ => true end
  | Response id hdr =>
      match pending s !! id with
      | Some (InProgress q) =>
          match getEpReq_ (msg_src_uuid hdr) q with Some (_, ep) => ep_complete ep || response_expected_b hdr q ep s | None => true end
      | _ => true
      end
  | _ => true
  end.

Lemma keeps_one_sound u h : keeps_one_b u h = true → keeps_one u h.
Proof. unfold keeps_one_b, keeps_one. intros H%bool_decide_eq_true E. specialize (H E). by destruct (syncingReplicas_ h). Qed.

Lemma response_expected_sound hdr q ep s : response_expected_b hdr q ep s = true → response_expected hdr q ep s.
Proof.
  unfold response_expected_b, response_expected. intros [Hv H]%andb_true_iff. apply bool_decide_eq_true in Hv. split; [done|].
  destruct (isVolumeGroupError (msg_code hdr)); [by apply keeps_one_sound|]. intros w id k Hw (q'&w'&Hq'&Hw'&<-&Hin). rewrite Hw in H.
  rewrite forallb_forall in H. specialize (H (id, InProgress q')). unfold later_b in H. simpl in H. rewrite Hw' in H.
  assert (In (id, InProgress q') (map_to_list (pending s))) as Hel by (apply list_elem_of_In; by apply elem_of_map_to_list).
  specialize (H Hel). apply bool_decide_eq_true in H. auto.
Qed.

Lemma expected_sound Q e s : expected_b Q e s = true → expected Q e s.
Proof.
  destruct e as [cb w [v [x|svcs]]|cb|cb|cb mt b|cb mt b|m|id rsps|id|id|id|id hdr]; simpl; try done.
  - intros [?|[?%map_size_empty_inv ?]]%bool_decide_eq_true; [by left|by right].
  - intros [?|[?%map_size_empty_inv ?]]%bool_decide_eq_true; [by left|by right].
  - rewrite forallb_forall. intros H r Hr Er. apply list_elem_of_In in Hr. specialize (H r Hr). rewrite bool_decide_eq_true_2 in H by done. simpl in H.
    unfold add_expected_b in H. unfold add_expected. destruct (add_target m); try done; try (by apply keeps_one_sound); by apply bool_decide_eq_true in H.
  - intros H cb Hid. rewrite Hid in H. by apply bool_decide_eq_true in H.
  - intros H q n ep Hid Hget Hnc. rewrite Hid, Hget, Hnc in H. by apply response_expected_sound.
Qed.

(** Events as long as the protocol allows them *)
Fixpoint follow (Q : Z) (l : list event) (s : sys) : option sys :=
  match l with
  | [] => Some s
  | e :: l => if expected_b Q e s then match handle_event false false e s with Ret s' => follow Q l s' | Fault _ => None end else None
  end.

Lemma follow_reach Q l s s' : reach Q s → follow Q l s = Some s' → reach Q s'.
Proof.
  revert s. induction l as [|e l IH]; intros s Hr H; simpl in H; [by injection H as <-|].
  destruct (expected_b Q e s) eqn:Ee; [|done]. destruct (handle_event false false e s) as [s1|] eqn:Es; [|done].
  eapply IH; [|exact H]. eapply reach_event; [exact Hr|by apply expected_sound|exact Es].
Qed.

(** The state after the events *)
Definition state_after (Q : Z) (l : list event) : sys := default (initial Q) (follow Q l (initial Q)).

Lemma state_after_reach Q l : is_Some (follow Q l (initial Q)) → reach Q (state_after Q l).
Proof. intros [s E]. unfold state_after. rewrite E. simpl. eapply follow_reach; [apply reach_initial|exact E]. Qed.

(** ** A group that is opened, with one replica that is behind *)
Definition opening : list event :=
  [Open 100 true (1, inr [1; 2; 3]);
   Prepared 0 [MakeRsp 1 ERR_OK 7 2 0; MakeRsp 2 ERR_OK 7 2 0; MakeRsp 3 ERR_OK 5 2 0];
   Informed 1].

Definition writing : list event := opening ++ [Modify 200 1 [9]].

Definition acknowledging : list event := writing ++ [Response 3 (Hdr 1 2 ERR_OK)].

(** The replica that is behind loads, while writes go on *)
Definition loading : list event := opening ++ [Add (MakeAdd 3 2 Loading 0); Modify 200 1 [9]; Modify 201 1 [8]].

Definition plain (l : list event) : list (bool * event) := (λ e, (false, e)) <$> l.

Lemma group_accounts_witness :
  run false (plain writing) (initial 2) = Ret (state_after 2 writing) ∧ refCnt_ (vg (state_after 2 writing)) = 2 ∧
  (∀ c, answered c (trace (state_after 2 writing)) + waiting c (pending (state_after 2 writing)) = requests c (plain writing)).
Proof.
  assert (run false (plain writing) (initial 2) = Ret (state_after 2 writing)) as H by (vm_compute; reflexivity).
  split; [exact H|]. destruct (group_accounts false 2 (plain writing) (state_after 2 writing) H) as (H1&H2&_). split; [rewrite H2; vm_compute; reflexivity|exact H1].
Defined.

Lemma replay_exact_witness :
  ∃ b, writeOpsBuffer_ (vg (state_after 2 loading)) = Some b ∧ length b = 2%nat ∧
  ∃ ws, replayFromWriteOpsBuffer_ false 3 2 b (state_after 2 loading) = Ret (does (replay_to 3 <$> ws) (state_after 2 loading), true) ∧ opId <$> ws = [2].
Proof.
  eexists. split; [vm_compute; reflexivity|]. split; [reflexivity|].
  refine (proj1 (proj2 (replay_exact false 2 (plain loading) (state_after 2 loading) _ 3 2 _ _ _)) _); [vm_compute; reflexivity|vm_compute; reflexivity|lia|].
  vm_compute. split; discriminate.
Defined.

Lemma reach_writing : reach 2 (state_after 2 writing).
Proof. apply state_after_reach. vm_compute. by eexists. Qed.

Lemma reach_acknowledging : reach 2 (state_after 2 acknowledging).
Proof. apply state_after_reach. vm_compute. by eexists. Qed.

Lemma reach_opening : reach 2 (state_after 2 opening).
Proof. apply state_after_reach. vm_compute. by eexists. Qed.

Lemma room_opening : room true (Add (MakeAdd 3 3 Syncing 0)) (state_after 2 opening).
Proof.
  assert (forallb (λ r, bool_decide (state r ≠ Syncing)) (handles (vg (state_after 2 opening))) = true) as H by (vm_compute; reflexivity).
  rewrite forallb_forall in H. intros _ r Hr%list_elem_of_In _. by apply H, bool_decide_eq_true in Hr.
Qed.

Lemma coordinator_survives_witness :
  (∃ s', handle_event false true (Response 3 (Hdr 1 2 ERR_OK)) (state_after 2 writing) = Ret s') ∧
  ∃ s', handle_event false true (Add (MakeAdd 3 3 Syncing 0)) (state_after 2 opening) = Ret s'.
Proof.
  split.
  - apply (coordinator_survives 2); [lia|exact reach_writing| |exact I]. apply expected_sound. vm_compute. reflexivity.
  - apply (coordinator_survives 2); [lia|exact reach_opening| |exact room_opening]. apply expected_sound. vm_compute. reflexivity.
Defined.

Lemma group_safe_witness : NoDup (getAllReplicas (vg (state_after 2 writing))) ∧ 2 ≤ functional_cnt (vg (state_after 2 writing)).
Proof.
  destruct (group_safe 2 (state_after 2 writing) ltac:(lia) reach_writing) as (H1&_&H2&_). split; [exact H1|]. apply H2. vm_compute. reflexivity.
Defined.

Lemma write_acknowledged_witness :
  ∃ s' l, handle_event false false (Response 3 (Hdr 2 2 ERR_OK)) (state_after 2 acknowledging) = Ret s' ∧ trace s' = trace (state_after 2 acknowledging) ++ l ∧
    answer 200 ERR_OK ∈ l ∧ (let acks := [(1, ERR_OK); (2, ERR_OK)] in Z.of_nat (length acks) = 2 ∧ NoDup acks.*1).
Proof.
  eexists. destruct (pending (state_after 2 acknowledging) !! 3) as [[ | | | |q]|] eqn:Epq; try (vm_compute in Epq; discriminate).
  assert (handle_event false false (Response 3 (Hdr 2 2 ERR_OK)) (state_after 2 acknowledging) = Ret (state_after 2 (acknowledging ++ [Response 3 (Hdr 2 2 ERR_OK)]))) as Hs
    by (vm_compute; reflexivity).
  assert (q = MakeRequest (Some (MakeWrite 1 [9] 1 0)) [] [Ep 1 2 true; Ep 2 2 false] 1 [(1, ERR_OK)] ERR_OK (Some 200)) as -> by (vm_compute in Epq; injection Epq as <-; reflexivity).
  destruct (write_acknowledged 2 false 3 (Hdr 2 2 ERR_OK) _ (MakeWrite 1 [9] 1 0) 200 (state_after 2 acknowledging) _ ltac:(lia) reach_acknowledging
    ltac:(apply expected_sound; vm_compute; reflexivity) Epq eq_refl eq_refl Hs) as (l&Hl&Hacks).
  exists l. split; [exact Hs|]. split; [exact Hl|].
  assert (l = [answer 200 ERR_OK]) as -> by (vm_compute in Hl; repeat (injection Hl as Hl); by subst).
  split; [left|]. destruct Hacks as (H1&H2&_); [left|]. by split.
Defined.

Lemma write_progress_witness :
  ∃ s', handle_event false true (Response 3 (Hdr 1 2 ERR_OK)) (state_after 2 writing) = Ret s' ∧
    ∃ q', pending s' !! 3 = Some (InProgress q') ∧ unanswered q' = 1.
Proof.
  destruct (pending (state_after 2 writing) !! 3) as [[ | | | |q]|] eqn:Epq; try (vm_compute in Epq; discriminate).
  assert (q = MakeRequest (Some (MakeWrite 1 [9] 1 0)) [] [Ep 1 2 false; Ep 2 2 false] 0 [] ERR_OK (Some 200)) as -> by (vm_compute in Epq; injection Epq as <-; reflexivity).
  destruct (write_progress 2 false true 3 (Hdr 1 2 ERR_OK) _ (MakeWrite 1 [9] 1 0) (Ep 1 2 false) (state_after 2 writing) ltac:(lia) reach_writing
    Epq eq_refl ltac:(left) eq_refl eq_refl) as [Hu Hs].
  destruct Hs as [s' Hs]; [apply expected_sound; vm_compute; reflexivity|]. specialize (Hu s' Hs).
  exists s'. split; [exact Hs|]. simpl in Hu. destruct Hu as (q'&Hq'&_&Eu). exists q'. split; [exact Hq'|]. rewrite Eu. reflexivity.
Defined.

(** ** What the coordinator does not handle *)
(** A read is outstanding at a replica that restarts meanwhile, becomes
    functional again and is the only functional one when its old answer
    arrives. *)
Definition restarting : list event :=
  opening ++ [Read 300; Add (MakeAdd 1 3 Loading 0); Add (MakeAdd 1 3 Syncing 0); Add (MakeAdd 1 3 Active 0); Add (MakeAdd 2 2 Offline 0)].

Lemma read_lost_witness :
  let s := state_after 2 restarting in
  reach 2 s ∧ expected 2 (Response 3 (Hdr 1 2 ERR_OK)) s ∧
  ∃ s1, handle_event false false (Response 3 (Hdr 1 2 ERR_OK)) s = Ret s1 ∧
    ∀ l' s', run false l' s1 = Ret s' → ∃ q', pending s' !! 3 = Some (InProgress q') ∧ responseCb_ q' = Some 300.
Proof.
  intros s. split; [apply state_after_reach; vm_compute; by eexists|]. split; [apply expected_sound; vm_compute; reflexivity|].
  assert (run false (plain restarting) (initial 2) = Ret s) as Hrun by (vm_compute; reflexivity).
  assert (pending s !! 3 = Some (InProgress (MakeRequest None [] [Ep 1 2 false] 0 [] ERR_OK (Some 300)))) as Hid by (vm_compute; reflexivity).
  destruct (functionalReplicas_ (vg s)) as [|r l] eqn:Hf; [assert (length (functionalReplicas_ (vg s)) = 1%nat) as E by (vm_compute; reflexivity); by rewrite Hf in E|].
  assert (svcUuid <$> functionalReplicas_ (vg s) = [1] ∧ version <$> functionalReplicas_ (vg s) = [3]) as [Hu Hv] by (vm_compute; split; reflexivity).
  rewrite Hf in Hu, Hv. injection Hu as Hu _. injection Hv as Hv _.
  destruct (read_lost false false 2 (plain restarting) s 3 _ 300 1 2 ERR_OK r l Hrun Hid eq_refl) as (s1&H1&_&Hall);
    [vm_compute; reflexivity|exact Hf|exact Hu|by rewrite Hv|vm_compute; discriminate|].
  exists s1. split; [exact H1|]. intros l' s' H'. destruct (Hall l' s' H') as ((q'&Hq&_&Hc)&_). exists q'. split; [exact Hq|exact Hc].
Defined.

(** Two replicas that load at the same time *)
Definition two_loading : list event :=
  [Open 100 true (1, inr [1; 2; 3; 4; 5]);
   Prepared 0 [MakeRsp 1 ERR_OK 7 2 0; MakeRsp 2 ERR_OK 7 2 0; MakeRsp 3 ERR_OK 7 2 0; MakeRsp 4 ERR_OK 5 2 0; MakeRsp 5 ERR_OK 5 2 0];
   Informed 1; Add (MakeAdd 4 2 Loading 0); Modify 200 1 [9]; Add (MakeAdd 5 2 Loading 0); Add (MakeAdd 4 2 Syncing 0)].

Definition message_to (svc : Z) (x : Effect) : bool :=
  match x with write_to _ ep _ => bool_decide (ep_svc ep = svc) | replay_to u _ => bool_decide (u = svc) | _ => false end.

(** The buffer for replicas that come back is shared: a second replica that
    starts to load empties it, the replay for the first one fails, which is
    ignored, and the first one counts as having the operation that it was never
    sent. *)
Theorem shared_buffer_loses :
  let s := state_after 3 two_loading in
  reach 3 s ∧ opSeqNo_ (vg s) = 1 ∧ (∃ r, syncingReplicas_ (vg s) = [r] ∧ svcUuid r = 4 ∧ appliedOpId r = 1) ∧ existsb (message_to 4) (trace s) = false.
Proof.
  intros s. split; [apply state_after_reach; vm_compute; by eexists|]. split; [vm_compute; reflexivity|]. split; [|vm_compute; reflexivity].
  eexists. vm_compute. split; [reflexivity|]. split; reflexivity.
Qed.

(** A group that was opened by force once, closed, and opened again *)
Definition reopening : list event :=
  [Open 100 true (1, inr [1; 2]); Prepared 0 [MakeRsp 1 ERR_INVALID_COORDINATOR 0 0 8; MakeRsp 2 ERR_INVALID_COORDINATOR 0 0 9];
   Prepared 1 [MakeRsp 1 ERR_OK 7 2 0; MakeRsp 2 ERR_OK 7 2 0]; Informed 2; Close 400; Open 101 true (1, inr [1; 2])].

(** A group that once had to be opened by force is opened by force ever
    after: the context of the retry is never cleared, so the first preparation
    of a later open already overrides the coordinator that the replicas have. *)
Theorem force_sticks :
  let s := state_after 2 reopening in
  reach 2 s ∧ omap (λ x, match x with prepare_to id _ _ _ force => Some (id, force) | _ => None end) (trace s) = [(0, false); (1, true); (3, true)] ∧
  closed 400 ∈ trace s.
Proof.
  intros s. split; [apply state_after_reach; vm_compute; by eexists|]. split; [vm_compute; reflexivity|]. vm_compute. set_solver.
Qed.

End VolumeGroupCases.
